(* ===== verification/_CoqProject ===== *)
-Q . S2P
Prelude.v
Float64.v
Bitset.v
Uuid.v
Mapping.v
Merge.v
Header.v
Serialization.v
Diff.v
BlockRange.v
BlockCache.v
MemMap.v
Snapshot.v
Device.v
Smap.v
SyncUtils.v
Reservations.v
SandboxState.v
Removal.v
SandboxStore.v
Slots.v
Pool.v
Chunk.v
Stream.v
StreamSafety.v
NfsCache.v
DiffStore.v
Nbd.v
DevicePool.v
Uffd.v
Nodes.v
Placement.v
Redis.v
RedisStore.v
RedisTransition.v
RedisReservations.v
RedisLocks.v
RedisRefines.v
IpNet.v
Egress.v
Firewall.v
Peer.v
PeerSystem.v
Multipart.v
Prefetch.v
Cleanup.v
Batcher.v
RedisCache.v
Names.v
Templates.v
Multiplex.v
