(* ===== verification/Prelude.v ===== *)
(** * Verification of the e2b infrastructure packages

    The services under src/packages run sandboxes: Firecracker virtual machines
    that are paused into snapshots and resumed from them.  This library models the
    parts of the Go code whose correctness does not show in a test run - the layered
    storage of snapshots, the block devices of a running sandbox, the export of
    guest memory, the life cycle of a sandbox in the API, the network slots - and
    proves what they promise.  Definitions keep the names of the code; a doc comment
    above a section or definition names the file it translates.

    ** The parts and how they interact

    Snapshot storage (packages/shared/pkg/storage/header).  A build is a data file
    and a header; a header is a list of mappings from ranges of the device to
    positions in builds.  [Mapping] has the block arithmetic, [BuildMap] and
    [CreateMapping], [Merge] the two list algorithms [MergeMappings] and
    [NormalizeMappings], [Header] the header with its index, the lookup, the
    validation and [ToDiffHeader], which layers a diff over a header,
    [Serialization] the binary format, [Diff] the builder that sorts blocks into
    dirty and empty ones while it writes the data file.

    Block devices (packages/orchestrator/internal/sandbox/block and build).
    [BlockRange] has ranges, the trackers of accessed blocks and the limits of one
    process_vm_readv; [BlockCache] the mapped write cache with its export and the
    copy of process memory; [Chunk] the chunker that fills such a cache from a remote
    object, [Stream] and [StreamSafety] the streaming one, which serves a range as
    soon as its blocks have arrived; [Device] the interface [ReadonlyDevice] (a class with a
    contract), the empty, local and overlay devices, and [File], which reads a
    device through a header from several builds; [DiffStore] the cache of diffs with
    its expiry and delayed deletions, and the lazily opened storage diff.
    [NfsCache] (shared/pkg/storage/storage_cache_seekable.go) is the cache of remote
    objects in a directory that several nodes share: finished chunks that are linked
    into place, and chunks that are copied in place while others may read them.

    Guest memory (uffd/memory and fc/memory.go).  [MemMap] translates offsets of
    the guest to addresses of the Firecracker process and exports dirty memory;
    [Uffd] (uffd/userfaultfd) serves the page faults of a resumed guest.

    Network block devices (packages/orchestrator/internal/sandbox/nbd).  [Nbd] is the
    request loop of [dispatch.go], which parses the kernel's stream and answers
    requests concurrently; [DevicePool] the pool of device slots.

    [Snapshot] and the end of [Device] join these: a pause exports the write cache,
    builds the header, and a resume reads through it.

    Sandboxes in the API (packages/api/internal/sandbox, internal/orchestrator).
    [Reservations] limits a team's sandboxes and publishes the outcome of a start;
    [SandboxState] has states, actions and the keep-alive update; [Removal] the
    protocol by which concurrent callers pause, kill or snapshot one sandbox, the
    evictor's guard and [RemoveSandbox]; [SandboxStore] the memory storage, the
    store on top of it and the reservations, and the node sync.  [Nodes] has the
    nodes sandboxes run on, their registry and its synchronisation with service
    discovery, which feeds the store; [Placement] chooses a node for a new sandbox and
    starts it there.

    The same storage in Redis (storage/redis, storage/populate_redis and
    reservations/redis), shared by all API instances.  [Redis] has the commands as a
    class with laws and an implementation; [RedisStore] the keys, scripts and
    operations, [RedisTransition] the removal protocol over transition keys and
    locks, [RedisReservations] the reservations, [RedisLocks] all the commands they
    send together, with the locks of the sandboxes' keys, and [RedisRefines] compares
    the two backends and has the one that writes both.

    Network slots (packages/orchestrator/internal/sandbox/network).  [Slots] has the
    addresses and rules of a slot and three storages behind one interface
    ([SlotStorage], a class with laws); [Pool] the pool, proved against it.  [Egress]
    has the egress rules of a sandbox, from the request to the decision for a
    connection (tcpfirewall), and [Firewall] the packet filter in front of it; [IpNet]
    the functions of the package net they use.

    Snapshots between orchestrators (sandbox/template/peerserver and peerclient,
    server/chunks.go, server/sandboxes.go).  [Peer] has the server that streams the
    files of a build that is still being uploaded, and the client that reads them and
    falls back to the storage; [PeerSystem] the resolver, the registry and the life
    of an upload among several orchestrators.  [Multipart]
    (shared/pkg/storage/gcp_multipart.go) is the parallel upload of a file to the
    storage.

    Around a running sandbox.  [Prefetch] (uffd/prefetch and template/metadata) copies
    the pages a sandbox is known to need before it faults on them, through the handler
    of [Uffd]; [Cleanup] (sandbox/cleanup.go) is the list of cleanups of a sandbox;
    [Batcher] (packages/clickhouse/pkg/batcher) collects its events and statistics into
    batches; [Multiplex] (envd, handler/multiplex.go) sends the output of a process to
    everyone who listens.

    Names and cached rows.  [Names] (shared/pkg/id, shared/pkg/proxy/host.go) parses the
    names of templates and the address of a sandbox in a request; [RedisCache]
    (shared/pkg/cache/redis.go) keeps database rows in Redis, and [Templates]
    (api/internal/cache) resolves names and finds templates and snapshots through it.

    Shared: [Prelude] (results, machine integers, list slices, counting, runs of a step
    system), [Float64] (the floating-point operations the code uses), [Bitset]
    and [Uuid] (third-party packages as classes with laws and an instance), [Smap]
    (the concurrent map, likewise), [SyncUtils] (SetOnce, ErrorOnce, the semaphore,
    WaitMap and the connection limiter).

    ** How the code is modelled

    A function that returns an error gives a [res]; a panic is [Panic].  Integers
    are [Z] with the wrap-around of their width written out wherever the code
    computes ([u64], [i64]).  Mutable state is passed explicitly; where objects are
    shared through pointers (reservations, sandboxes in the store, transitions) the
    pointer is an index into the list of allocated objects.  Concurrency is a step
    system: a step is one atomic access (SetOnce, the connection counter), one
    critical section (the removal protocol, the maps) or one channel operation (the
    pool), or one Redis command or script; a run is any list of steps, so a theorem on runs covers every
    interleaving.  Clocks, random choices, the kernel and remote calls are
    arguments; a label of a step carries them.

    Floating-point numbers (placement scores, the number of parts) are computed by the Standard Library's [SpecFloat].

    Third-party code and services (bitset, uuid, concurrent-map, mmap and the
    kernel, Consul, Redis, GetIndexedIP, firewall_toolkit, idna) are type classes or arguments; their laws state
    documented behaviour and each has an instance, with which the witnesses run.

    Loops are structural where the code walks a list.  The others take fuel:
    [create_loop] and [ranges_loop] one unit per bit of the bitset, [merge_loop] the
    bound that [MergeMappings_terminates] proves enough for all inputs, [split_loop],
    [ranges_of], [copy_loop], [read_mappings] and [file_loop] one unit per byte,
    block or range that is left, each with a theorem that the result is reached;
    [chunk_loop] one unit per byte between the first and last chunk of a range,
    [file_chunks] one unit per byte of the file, [free_loop] one unit per slot
    ([getFreeDeviceSlot_finds] shows that it is enough); [writeto_loop] one unit per byte of the object; [local_loop] one unit per pass
    before the half-second timeout, an argument.

    ** What the theorems show

    Snapshots: [resume_reads_overlay], [snapshot_reads_back], [ToDiffHeader_layers],
    [ExportMemory_places] say end to end that a resumed sandbox sees the disk and
    memory the paused one had; the theorems of [Mapping], [Merge], [Header],
    [Serialization] say it of each step, with termination and with the errors of
    malformed input.  Devices: reads, writes, closing and the overlay; the chunkers
    return only the object's bytes whatever their fetches meet, and with the streaming
    one no goroutine waits for ever while the reader makes progress.  Caches: a diff
    in the store is open and filed under its key; the shared directory is
    transparent for a chunk that is not being copied into it.  NBD: [Handle] starts the requests a
    reference parser reads, and answers each once; a device has one holder.  Page
    faults: a page gets the block it stands for, and no fault is lost.  Life cycle:
    mutual exclusion, no lost waiter, no return from a removal, the bounds on
    life time, limits of reservations, node sync; one node at most reports the
    creation of a sandbox, and the registry follows service discovery.  Network: no slot or address is
    shared, no rule survives its sandbox; a shutdown can panic; a sandbox that may reach some
    domains reaches nothing else, and an address of a denied range only by way of the
    unspecified one.  Redis: the keys are well typed and the teams' indexes exact under any
    interleaving of commands that keep their locks, the expiration index is complete
    whatever commands are lost, the backend answers as the memory one on calls that fit
    both, a sandbox has one owner while nothing outlives its TTL, and a team is over its
    limit by no more than the creations that outlived their reservation; runs show what
    happens when a lock or a TTL is lost.

    Snapshots shared before they are uploaded: no read through a peer returns a wrong
    byte whatever fails, and while nothing fails and nobody reads past the end of a file
    a build can be read from the moment its sandbox is paused.  An upload that reports success has stored the file, and the
    parts are exact in spite of the floating-point division.  A prefetched sandbox has
    the pages it would have faulted in; a cleanup runs once, in order; a batcher loses no
    item it accepted, refuses items only when its queue is full, and stops.  The output of
    a process reaches each listener once and in order, and a listener that leaves at the
    wrong moment stops it.  Cached rows: what a call returns was in the database, a
    deletion under the lock is final, calls return; a template is handed out only to a
    team that may see it; parsed names and addresses are canonical and print back.

    ** What is not modelled

    Handlers, databases, authentication, telemetry and logging, process control,
    netlink and nftables, template builds, and of the client proxy and envd what moves bytes.
    Of Redis the cluster slots, pipelines and reconnects are left out, and the expiry of
    a key or a lock is a step that may happen at any time.
    Of the multipart upload a 200 answer without an upload ID is left out, of the cleanup
    list a function that panics.
    Of the diff store the disk usage that triggers an eviction is a label, of the
    servers the sockets and descriptors.  Of the peer protocol a build of which the upload failed
    counts as absent from the storage.  Of the locks in Redis their own keys are left
    out: a lock is held, released or lost.
    Not modelled although they have logic of their own: the cleaner of the shared
    directory (clean-nfs-cache), the orchestrator's template cache, the connection pools of
    the proxies, the build phases of a template. *)

From stdpp Require Export base list numbers gmap strings sorting.
From stdpp Require Import options.
From Stdlib Require Export ZArith Lia.

#[global] Open Scope Z_scope.

(** ** Results of Go calls

    A Go function that returns [(T, error)] becomes a function into [res E T]:
    [Ok v] is [(v, nil)], [Err e] is [(_, e)], and [Panic] is a run-time panic
    (an index or slice expression out of range, a division by zero). *)
Inductive res (E A : Type) : Type :=
  | Ok (a : A)
  | Err (e : E)
  | Panic.
Arguments Ok {E A} a.
Arguments Err {E A} e.
Arguments Panic {E A}.

#[export] Instance res_ret E : MRet (res E) := λ A a, Ok a.
#[export] Instance res_bind E : MBind (res E) := λ A B f m,
  match m with Ok a => f a | Err e => Err e | Panic => Panic end.
#[export] Instance res_fmap E : FMap (res E) := λ A B f m,
  match m with Ok a => Ok (f a) | Err e => Err e | Panic => Panic end.
Lemma res_bind_Ok {E A B} (m : res E A) (f : A → res E B) b : m ≫= f = Ok b ↔ ∃ a, m = Ok a ∧ f a = Ok b.
Proof. destruct m; split; naive_solver. Qed.
#[export] Instance res_eq_dec {E A} `{EqDecision E} `{EqDecision A} : EqDecision (res E A).
Proof. solve_decision. Defined.

(** ** Machine integers

    Go integers are modelled by [Z] with the wrap-around of their width
    written out; [int] is 64 bits wide on every platform the services run on. *)
Definition u32 (z : Z) : Z := z mod 4294967296.
Definition u64 (z : Z) : Z := z mod 18446744073709551616.
Definition i64 (z : Z) : Z :=
  (z + 9223372036854775808) mod 18446744073709551616 - 9223372036854775808.

Definition maxU64 : Z := 18446744073709551615.
Definition maxI64 : Z := 9223372036854775807.
Definition minI64 : Z := -9223372036854775808.

(** [a / b] and [a % b] of Go on [int64] truncate towards zero and panic when
    [b] is zero. *)
Definition go_div {E} (a b : Z) : res E Z := if b =? 0 then Panic else Ok (i64 (a `quot` b)).
Definition go_rem {E} (a b : Z) : res E Z := if b =? 0 then Panic else Ok (i64 (a `rem` b)).

Lemma u64_small z : 0 ≤ z < 18446744073709551616 → u64 z = z.
Proof. intros. unfold u64. by apply Z.mod_small. Qed.
Lemma u32_small z : 0 ≤ z < 4294967296 → u32 z = z.
Proof. intros. unfold u32. by apply Z.mod_small. Qed.
Lemma i64_small z : -9223372036854775808 ≤ z < 9223372036854775808 → i64 z = z.
Proof. intros. unfold i64. rewrite Z.mod_small; lia. Qed.
Lemma u64_range z : 0 ≤ u64 z < 18446744073709551616.
Proof. unfold u64. by apply Z.mod_pos_bound. Qed.
Lemma u32_range z : 0 ≤ u32 z < 4294967296.
Proof. unfold u32. by apply Z.mod_pos_bound. Qed.
Lemma i64_range z : -9223372036854775808 ≤ i64 z < 9223372036854775808.
Proof.
  unfold i64.
  pose proof (Z.mod_pos_bound (z + 9223372036854775808) 18446744073709551616). lia.
Qed.
Lemma u64_idemp z : u64 (u64 z) = u64 z.
Proof. apply u64_small, u64_range. Qed.
Lemma i64_u64 z : -9223372036854775808 ≤ z < 9223372036854775808 → i64 (u64 z) = z.
Proof.
  intros. unfold i64, u64. rewrite Zplus_mod_idemp_l, Z.mod_small; lia.
Qed.

Lemma div_self_bound a b : 0 ≤ a → 0 < b → 0 ≤ a / b ≤ a.
Proof.
  intros. split; [by apply Z.div_pos|].
  rewrite <-(Z.div_1_r a) at 2. apply Z.div_le_compat_l; lia.
Qed.

(** [unwrap] removes the wrap-arounds whose argument [lia] bounds. *)
Ltac unwrap_one :=
  match goal with
  | |- context [u64 ?z] => rewrite (u64_small z) by lia
  | |- context [i64 ?z] => rewrite (i64_small z) by lia
  | |- context [u32 ?z] => rewrite (u32_small z) by lia
  | H : context [u64 ?z] |- _ => rewrite (u64_small z) in H by lia
  | H : context [i64 ?z] |- _ => rewrite (i64_small z) in H by lia
  | H : context [u32 ?z] |- _ => rewrite (u32_small z) in H by lia
  end.
Ltac unwrap := repeat unwrap_one.

(** [case_Z] splits the goal on the integer comparisons it contains. *)
Ltac case_Z :=
  repeat match goal with
  | |- context [?a =? ?b] => destruct (Z.eqb_spec a b)
  | |- context [?a <? ?b] => destruct (Z.ltb_spec a b)
  | |- context [?a <=? ?b] => destruct (Z.leb_spec a b)
  end.

(** [split_lia] splits a conjunction and closes its linear parts. *)
Ltac split_lia := split_and?; try lia.

(** ** Lists *)
Section lists.
Context {A : Type}.
Implicit Types l : list A.

Lemma lookup_lt_Z l (i : Z) x :
  0 ≤ i → l !! Z.to_nat i = Some x → i < Z.of_nat (length l).
Proof. intros ? ?%lookup_lt_Some. lia. Qed.

Lemma app_nil_cons_eq l1 l2 x : (l1 ++ [x]) ++ l2 = l1 ++ x :: l2.
Proof. by rewrite <-app_assoc. Qed.

(** The block [i] of width [w] of a concatenation of blocks of width [w]. *)
Lemma concat_block (w : nat) (ls : list (list A)) (i : nat) (b : list A) :
  Forall (λ l, length l = w) ls →
  ls !! i = Some b →
  take w (drop (i * w) (concat ls)) = b.
Proof.
  intros Hw. revert i. induction Hw as [|l ls Hl Hw IH]; intros i Hi; [done|].
  destruct i as [|i]; simplify_eq/=.
  - simpl. by rewrite drop_0, take_app_length.
  - etrans; [|exact (IH i Hi)]. f_equal.
    rewrite drop_app_ge by lia. f_equal. lia.
Qed.
End lists.

(** [count_if f l] counts the elements of [l] that satisfy [f]. *)
Definition count_if {A} (f : A → bool) (l : list A) : nat := length (filter (λ x, f x = true) l).

Lemma count_if_snoc {A} (f : A → bool) l x : count_if f (l ++ [x]) = (count_if f l + if f x then 1 else 0)%nat.
Proof. unfold count_if. rewrite filter_app, length_app, filter_cons. destruct (f x); simpl; lia. Qed.
Lemma count_if_insert {A} (f : A → bool) l i x y :
  l !! i = Some x →
  (count_if f (<[i := y]> l) + (if f x then 1 else 0) = count_if f l + (if f y then 1 else 0))%nat.
Proof.
  unfold count_if. revert i. induction l as [|z l IH]; intros i Hi; [done|]. destruct i as [|i]; simplify_eq/=.
  - rewrite !filter_cons. destruct (f x), (f y); simpl; lia.
  - specialize (IH i Hi). rewrite !filter_cons. destruct (f z); simpl; lia.
Qed.
Lemma count_if_pos {A} (f : A → bool) l i x : l !! i = Some x → f x = true → (0 < count_if f l)%nat.
Proof.
  intros Hi Hx. unfold count_if. assert (x ∈ filter (λ x, f x = true) l) as Hin.
  { apply list_elem_of_filter. split; [done|]. by eapply list_elem_of_lookup_2. }
  destruct (filter _ l); [by apply not_elem_of_nil in Hin|simpl; lia].
Qed.
Lemma count_if_cons {A} (f : A → bool) x l : count_if f (x :: l) = ((if f x then 1 else 0) + count_if f l)%nat.
Proof. unfold count_if. rewrite filter_cons. by destruct (f x). Qed.
Lemma count_if_le {A} (f : A → bool) l : (count_if f l ≤ length l)%nat.
Proof. unfold count_if. apply length_filter. Qed.
Lemma count_if_zero {A} (f : A → bool) l i x : count_if f l = O → l !! i = Some x → f x = false.
Proof. intros Hc Hi. destruct (f x) eqn:Hf; [|done]. pose proof (count_if_pos f l i x Hi Hf). lia. Qed.
Lemma count_if_exists {A} (f : A → bool) l : count_if f l ≠ O → ∃ (i : nat) x, l !! i = Some x ∧ f x = true.
Proof.
  unfold count_if. destruct (filter _ l) as [|x r] eqn:Hf; [done|]. intros _.
  assert (x ∈ filter (λ x, f x = true) l) as [Hx [i Hi]%list_elem_of_lookup]%list_elem_of_filter by (rewrite Hf; by left). eauto.
Qed.
Lemma count_if_weaken {A} (f g : A → bool) l : (∀ x, g x = true → f x = true) → (count_if g l ≤ count_if f l)%nat.
Proof.
  intros Hfg. induction l as [|x l IH]; [done|]. rewrite !count_if_cons. specialize (Hfg x). destruct (g x), (f x); first [lia|by specialize (Hfg eq_refl)].
Qed.

(** ** Runs of a step system *)
Section runs.
Context {St L : Type} (step : St → L → option St).
Fixpoint run_steps (s : St) (ls : list L) : option St :=
  match ls with
  | [] => Some s
  | l :: ls => s' ← step s l; run_steps s' ls
  end.
Lemma run_steps_inv (P : St → Prop) (ok : L → Prop) s ls s' :
  (∀ s l s', ok l → P s → step s l = Some s' → P s') → P s → Forall ok ls → run_steps s ls = Some s' → P s'.
Proof.
  intros Hstep. revert s. induction ls as [|l ls IH]; intros s Hs Hok Hrun; simplify_eq/=; [done|].
  apply bind_Some in Hrun as (s1 & H1 & Hrun). apply Forall_cons in Hok as [Hl Hok]. eauto.
Qed.
Lemma run_steps_app s ls ks : run_steps s (ls ++ ks) = s' ← run_steps s ls; run_steps s' ks.
Proof. revert s. induction ls as [|l ls IH]; intros s; simpl; [done|]. destruct (step s l); simpl; [apply IH|done]. Qed.
(** A measure that every counted step lowers, and no other step raises, bounds the
    number of counted steps. *)
Lemma run_steps_measure (P : St → Prop) (f : St → nat) (counted : L → bool) s ls s' :
  (∀ s l s', P s → step s l = Some s' → P s' ∧ (f s' + (if counted l then 1 else 0) ≤ f s)%nat) →
  P s → run_steps s ls = Some s' → (count_if counted ls + f s' ≤ f s)%nat.
Proof.
  intros Hstep. revert s. induction ls as [|l ls IH]; intros s Hs Hrun; simplify_eq/=; [done|].
  apply bind_Some in Hrun as (s1 & H1 & Hrun). destruct (Hstep _ _ _ Hs H1) as [Hs1 Hf]. specialize (IH s1 Hs1 Hrun).
  unfold count_if in *. rewrite filter_cons. destruct (counted l); simpl in *; lia.
Qed.
End runs.

(** What an element of an updated or shortened list is. *)
Lemma elem_of_insert_inv {A} (l : list A) i x y : x ∈ <[i := y]> l → x = y ∨ x ∈ l.
Proof.
  intros [j Hj]%list_elem_of_lookup. apply list_lookup_insert_Some in Hj as [(-> & -> & _)|[_ Hj]]; [by left|].
  right. by eapply list_elem_of_lookup_2.
Qed.
Lemma elem_of_delete_inv {A} (l : list A) i x : x ∈ delete i l → x ∈ l.
Proof.
  revert i. induction l as [|y l IH]; intros [|i]; simpl; [done|done|by right|].
  intros [->|Hx%IH]%elem_of_cons; [left|by right].
Qed.

Lemma concat_length_uniform {A} (w : nat) (ls : list (list A)) :
  Forall (λ l, length l = w) ls → length (concat ls) = (length ls * w)%nat.
Proof. induction 1; simpl; [done|]. rewrite length_app. lia. Qed.

(** A filter that no element passes is empty. *)
Lemma filter_none {A} (P : A → Prop) `{∀ x, Decision (P x)} (l : list A) :
  (∀ x, x ∈ l → ¬ P x) → filter P l = [].
Proof.
  induction l as [|x l IH]; intros Hl; [done|].
  rewrite filter_cons_False by (apply Hl; left). apply IH. intros y Hy. apply Hl. by right.
Qed.

Lemma filter_all {A} (P : A → Prop) `{∀ x, Decision (P x)} (l : list A) :
  (∀ x, x ∈ l → P x) → filter P l = l.
Proof.
  induction l as [|x l IH]; intros Hl; [done|].
  rewrite filter_cons_True by (apply Hl; left). f_equal. apply IH. intros y Hy. apply Hl. by right.
Qed.

Lemma seqZ_snoc m n : 0 ≤ n → seqZ m (n + 1) = seqZ m n ++ [m + n].
Proof.
  intros. rewrite seqZ_app by lia. done.
Qed.

(** ** Slices

    [a[lo:hi]] of Go on a slice whose capacity is its length, and [copy]. *)
Definition zlength {A} (l : list A) : Z := Z.of_nat (length l).
Definition slice {A} (l : list A) (lo hi : Z) : list A :=
  take (Z.to_nat (hi - lo)) (drop (Z.to_nat lo) l).
Definition go_slice {E A} (l : list A) (lo hi : Z) : res E (list A) :=
  if (0 <=? lo) && (lo <=? hi) && (hi <=? zlength l) then Ok (slice l lo hi) else Panic.
(** [copy(a[off:], b)] for [b] no longer than [a[off:]]. *)
Definition splice {A} (l : list A) (off : Z) (b : list A) : list A :=
  take (Z.to_nat off) l ++ b ++ drop (Z.to_nat off + length b) l.

Section slices.
Context {A : Type}.
Implicit Types l b : list A.

Lemma go_slice_ok {E} l lo hi :
  0 ≤ lo ≤ hi → hi ≤ zlength l → go_slice l lo hi = Ok (E := E) (slice l lo hi).
Proof.
  intros. unfold go_slice. destruct (Z.leb_spec 0 lo), (Z.leb_spec lo hi), (Z.leb_spec hi (zlength l)); done || lia.
Qed.
Lemma slice_length l lo hi :
  0 ≤ lo ≤ hi → hi ≤ zlength l → zlength (slice l lo hi) = hi - lo.
Proof. unfold zlength, slice. intros. rewrite length_take, length_drop. lia. Qed.
Lemma slice_lookup l lo hi i :
  0 ≤ lo → 0 ≤ i < hi - lo → slice l lo hi !! Z.to_nat i = l !! Z.to_nat (lo + i).
Proof.
  intros. unfold slice. rewrite lookup_take_lt by lia. rewrite lookup_drop. f_equal. lia.
Qed.
Lemma splice_length l off b :
  0 ≤ off → off + zlength b ≤ zlength l → zlength (splice l off b) = zlength l.
Proof.
  unfold zlength, splice. intros. rewrite !length_app, length_take, length_drop. lia.
Qed.
Lemma splice_lookup l off b i :
  0 ≤ off → off + zlength b ≤ zlength l → 0 ≤ i →
  splice l off b !! Z.to_nat i =
    if decide (off ≤ i < off + zlength b) then b !! Z.to_nat (i - off) else l !! Z.to_nat i.
Proof.
  unfold zlength, splice. intros Hoff Hl Hi. case_decide as D.
  - rewrite lookup_app_r by (rewrite length_take; lia).
    rewrite lookup_app_l by (rewrite length_take; lia). f_equal. rewrite length_take. lia.
  - destruct (decide (i < off)) as [E|E].
    + rewrite lookup_app_l by (rewrite length_take; lia). by rewrite lookup_take_lt by lia.
    + rewrite lookup_app_r by (rewrite length_take; lia).
      rewrite lookup_app_r by (rewrite length_take; lia).
      rewrite lookup_drop, length_take. f_equal. lia.
Qed.

(** Two lists of the same length with the same elements. *)
Lemma list_eq_Z l b :
  zlength l = zlength b → (∀ i, 0 ≤ i < zlength l → l !! Z.to_nat i = b !! Z.to_nat i) → l = b.
Proof.
  unfold zlength. intros Hl Hi. apply list_eq. intros i.
  destruct (decide (i < length l)%nat) as [D|D].
  - specialize (Hi (Z.of_nat i) ltac:(lia)). by rewrite Nat2Z.id in Hi.
  - rewrite !lookup_ge_None_2 by lia. done.
Qed.
Lemma slice_splice_same l off b :
  0 ≤ off → off + zlength b ≤ zlength l → slice (splice l off b) off (off + zlength b) = b.
Proof.
  intros. assert (zlength (splice l off b) = zlength l) by by apply splice_length.
  assert (0 ≤ zlength b) by (unfold zlength; lia).
  assert (zlength (slice (splice l off b) off (off + zlength b)) = zlength b) as Hl
    by (rewrite slice_length; lia).
  apply list_eq_Z; [done|]. intros i Hi. rewrite slice_lookup by lia.
  rewrite splice_lookup by lia. rewrite decide_True by lia. f_equal. lia.
Qed.
Lemma slice_splice_other l off b lo hi :
  0 ≤ off → off + zlength b ≤ zlength l → 0 ≤ lo ≤ hi → hi ≤ zlength l →
  hi ≤ off ∨ off + zlength b ≤ lo →
  slice (splice l off b) lo hi = slice l lo hi.
Proof.
  intros ? ? ? ? Hd. assert (zlength (splice l off b) = zlength l) as Hs by by apply splice_length.
  assert (zlength (slice (splice l off b) lo hi) = hi - lo) as Hl by (apply slice_length; lia).
  apply list_eq_Z; [by rewrite !slice_length by lia|]. intros i Hi.
  rewrite !slice_lookup by lia. rewrite splice_lookup by lia. by rewrite decide_False by lia.
Qed.
End slices.

(** ** Hints *)
Create HintDb e2b.
Create Rewrite HintDb e2b_len.
#[export] Hint Resolve u64_range u32_range i64_range : e2b.
#[export] Hint Rewrite @length_app @length_take @length_drop @length_replicate : e2b_len.
