(* ===== verification/Float64.v ===== *)
(** * float64

    The arithmetic of Go's [float64]: IEEE 754 with 53 bits ([SpecFloat] of the
    Standard Library, without fused operations), the conversions from and to integers
    that the code uses, and when they are exact. *)
From Stdlib Require Export Floats.SpecFloat.
From S2P Require Import Prelude.

Definition f64 : Type := spec_float.
(** [float64(z)] *)
Definition f64_of_Z (z : Z) : f64 := binary_normalize 53 1024 z 0 false.
Definition f64_add : f64 → f64 → f64 := SFadd 53 1024.
Definition f64_mul : f64 → f64 → f64 := SFmul 53 1024.
Definition f64_div : f64 → f64 → f64 := SFdiv 53 1024.
Definition MaxFloat64 : f64 := S754_finite false 9007199254740991 971.

(** [m * 2 ^ e] rounded up and down to an integer. *)
Definition ceil_pow (m e : Z) : Z := if 0 <=? e then m * 2 ^ e else - ((- m) / 2 ^ (- e)).
Definition in_int64 (z : Z) : option Z := if (minI64 <=? z) && (z <=? maxI64) then Some z else None.
(** [int(math.Ceil(x))]; Go leaves the conversion of a value out of range open. *)
Definition f64_Ceil_int (x : f64) : option Z :=
  match x with
  | S754_zero _ => Some 0
  | S754_finite s m e => in_int64 (ceil_pow (if s then Z.neg m else Z.pos m) e)
  | S754_infinity _ | S754_nan => None
  end.

(** ** Digits *)
Lemma digits2_pos_bounds p : 2 ^ (Z.pos (digits2_pos p) - 1) ≤ Z.pos p < 2 ^ Z.pos (digits2_pos p).
Proof.
  induction p as [p IH|p IH|]; cbn [digits2_pos]; [| |by cbn]; rewrite Pos2Z.inj_succ;
    replace (Z.succ (Z.pos (digits2_pos p)) - 1) with (Z.succ (Z.pos (digits2_pos p) - 1)) by lia;
    rewrite !Z.pow_succ_r by lia; lia.
Qed.
Lemma digits2_unique p n : 2 ^ (n - 1) ≤ Z.pos p < 2 ^ n → Z.pos (digits2_pos p) = n.
Proof.
  intros [Hl Hu]. pose proof (digits2_pos_bounds p) as [Hl' Hu'].
  assert (0 < n) by (destruct (Z.le_gt_cases n 0); [|lia]; rewrite (Z.pow_neg_r 2 (n - 1)) in Hl by lia;
    destruct (decide (n = 0)) as [->|]; [cbn in Hu; lia|rewrite Z.pow_neg_r in Hu by lia; lia]).
  apply Z.le_antisymm.
  - assert (Z.pos (digits2_pos p) - 1 < n); [|lia]. apply (Z.pow_lt_mono_r_iff 2); lia.
  - assert (n - 1 < Z.pos (digits2_pos p)); [|lia]. apply (Z.pow_lt_mono_r_iff 2); lia.
Qed.
Lemma iter_xO p d : Z.pos (Pos.iter xO p d) = Z.pos p * 2 ^ Z.pos d.
Proof.
  induction d as [|d IH] using Pos.peano_ind; [by cbn; lia|].
  rewrite Pos.iter_succ, Pos2Z.inj_succ, Z.pow_succ_r, Pos2Z.inj_xO, IH by lia. lia.
Qed.

(** ** Rounding

    A mantissa of 53 digits is kept; a longer one moves to a neighbour. *)
Lemma fexp_normal e : -1021 ≤ e → fexp 53 1024 e = e - 53.
Proof. unfold fexp, emin. lia. Qed.
Lemma shr_fexp_keep m e l : Zdigits2 m = 53 → -1074 ≤ e → shr_fexp 53 1024 m e l = (shr_record_of_loc m l, e).
Proof. intros Hd He. unfold shr_fexp. rewrite Hd, fexp_normal by lia. by replace (53 + e - 53 - e) with 0 by lia. Qed.
Lemma shr_fexp_one m e l : Zdigits2 m = 54 → -1074 ≤ e → shr_fexp 53 1024 m e l = (shr_1 (shr_record_of_loc m l), e + 1).
Proof. intros Hd He. unfold shr_fexp. rewrite Hd, fexp_normal by lia. by replace (54 + e - 53 - e) with 1 by lia. Qed.
Lemma digits_Z q n : 0 < q → 2 ^ (n - 1) ≤ q < 2 ^ n → Zdigits2 q = n.
Proof. destruct q as [|q|q]; [lia| |lia]. intros _. apply digits2_unique. Qed.
Lemma round_even_cases m l : round_nearest_even m l = m ∨ (round_nearest_even m l = m + 1 ∧ l ≠ loc_Exact).
Proof. destruct l as [|[]]; cbn; [by left| |by left|by right]. destruct (Z.even m); [by left|by right]. Qed.
Lemma shr_1_spec q l : 0 < q → shr_m (shr_1 (shr_record_of_loc q l)) = q / 2 ∧
  (loc_of_shr_record (shr_1 (shr_record_of_loc q l)) ≠ loc_Exact → l ≠ loc_Exact ∨ q mod 2 = 1).
Proof.
  intros Hq. destruct q as [|[p|p|]|]; [lia| | | |lia].
  - assert (Z.pos p~1 / 2 = Z.pos p) as -> by (symmetry; apply (Z.div_unique_pos _ _ _ 1); lia).
    assert (Z.pos p~1 mod 2 = 1) by (symmetry; apply (Z.mod_unique_pos _ _ (Z.pos p)); lia).
    split; [by destruct l as [|[]]|by right].
  - assert (Z.pos p~0 / 2 = Z.pos p) as -> by (symmetry; apply (Z.div_unique_pos _ _ _ 0); lia).
    split; [by destruct l as [|[]]|]. intros Hl. left. intros ->. by apply Hl.
  - split; [by destruct l as [|[]]|by right].
Qed.
(** Rounding a value with one or no digit too many: the result is a multiple of the
    grid next to it. *)
Lemma binary_round_aux_spec q e l : 2 ^ 52 ≤ q < 2 ^ 54 → -1074 ≤ e ≤ 900 → ∃ m e' r,
  binary_round_aux 53 1024 false q e l = S754_finite false m e' ∧ e ≤ e' ≤ e + 2 ∧ Z.pos m * 2 ^ (e' - e) = r ∧ q - 1 ≤ r ∧
  ∀ t, Z.even t = true → q ≤ t → (l ≠ loc_Exact → q + 1 ≤ t) → r ≤ t.
Proof.
  intros Hq He. unfold binary_round_aux.
  assert (∀ m e1, 2 ^ 52 ≤ m ≤ 2 ^ 53 → e ≤ e1 ≤ e + 1 → ∃ m' e2, e1 ≤ e2 ≤ e1 + 1 ∧ Z.pos m' * 2 ^ (e2 - e1) = m ∧
    (let '(mrs'', e'') := shr_fexp 53 1024 m e1 loc_Exact in
     match shr_m mrs'' with Z0 => S754_zero false | Zpos m => if e'' <=? 1024 - 53 then S754_finite false m e'' else S754_infinity false | _ => S754_nan end)
    = S754_finite false m' e2) as Hend.
  { intros m e1 Hm He1. destruct (decide (m = 2 ^ 53)) as [->|].
    - exists (2 ^ 52)%positive, (e1 + 1). split; [lia|]. replace (e1 + 1 - e1) with 1 by lia. split; [done|].
      rewrite shr_fexp_one by (done || lia). cbn. by rewrite (proj2 (Z.leb_le _ _)) by lia.
    - exists (Z.to_pos m), e1. split; [lia|]. rewrite Z.sub_diag, Z2Pos.id by lia. split; [lia|].
      rewrite shr_fexp_keep by first [apply digits_Z; lia|lia]. cbn [shr_record_of_loc shr_m].
      destruct m as [|p|p]; [lia| |lia]. by rewrite (proj2 (Z.leb_le _ _)) by lia. }
  destruct (decide (q < 2 ^ 53)) as [Hd|Hd].
  - rewrite shr_fexp_keep by first [apply digits_Z; lia|lia].
    assert (loc_of_shr_record (shr_record_of_loc q l) = l) as -> by by destruct l as [|[]].
    assert (shr_m (shr_record_of_loc q l) = q) as -> by by destruct l as [|[]].
    destruct (round_even_cases q l) as [Hr|[Hr Hl]]; rewrite Hr.
    + destruct (Hend q e) as (m & e' & ? & Hm & ->); [lia..|]. eexists m, e', q. split_and!; [done|lia|lia|done|lia|]. lia.
    + destruct (Hend (q + 1) e) as (m & e' & ? & Hm & ->); [lia..|]. eexists m, e', (q + 1). split_and!; [done|lia|lia|done|lia|].
      intros t _ _ Ht. by apply Ht.
  - rewrite shr_fexp_one by first [apply digits_Z; lia|lia].
    destruct (shr_1_spec q l) as [Hm Hl]; [lia|]. rewrite Hm. pose proof (Z.div_mod q 2). pose proof (Z.mod_pos_bound q 2).
    set (l1 := loc_of_shr_record _) in *.
    assert (∀ t, Z.even t = true → ∃ u, t = 2 * u) as Heven by (intros t [u ->]%Z.even_spec; by exists u).
    destruct (round_even_cases (q / 2) l1) as [Hr|[Hr Hl1]]; rewrite Hr.
    + destruct (Hend (q / 2) (e + 1)) as (m & e' & ? & Hm' & ->); [lia..|]. eexists m, e', (2 * (q / 2)). split_and!; [done|lia|lia| |lia|lia].
      replace (e' - e) with (1 + (e' - (e + 1))) by lia. rewrite Z.pow_add_r by lia. lia.
    + destruct (Hend (q / 2 + 1) (e + 1)) as (m & e' & ? & Hm' & ->); [lia..|]. eexists m, e', (2 * (q / 2 + 1)). split_and!; [done|lia|lia| |lia|].
      * replace (e' - e) with (1 + (e' - (e + 1))) by lia. rewrite Z.pow_add_r by lia. lia.
      * intros t [u ->]%Heven Ht Ht'. specialize (Hl Hl1). destruct Hl as [Hl|Hl]; [specialize (Ht' Hl)|]; lia.
Qed.

(** ** Integers and their quotients *)
Lemma digits2_range a : 0 < a → 2 ^ (Zdigits2 a - 1) ≤ a < 2 ^ Zdigits2 a ∧ 0 < Zdigits2 a.
Proof. destruct a as [|p|p]; [lia| |lia]. intros _. split; [apply digits2_pos_bounds|done]. Qed.
Lemma digits2_lt a n : 0 < a < 2 ^ n → Zdigits2 a ≤ n.
Proof.
  intros Ha. destruct (digits2_range a) as [[Hl _] Hp]; [lia|].
  assert (0 ≤ n) by (destruct (Z.le_gt_cases 0 n); [done|rewrite Z.pow_neg_r in Ha; lia]).
  assert (Zdigits2 a - 1 < n); [|lia]. apply (Z.pow_lt_mono_r_iff 2); lia.
Qed.
(** An integer below 2^53 is kept as it is. *)
Lemma f64_of_Z_exact a : 0 < a < 2 ^ 53 →
  f64_of_Z a = S754_finite false (Z.to_pos (a * 2 ^ (53 - Zdigits2 a))) (Zdigits2 a - 53).
Proof.
  intros Ha. pose proof (digits2_lt _ _ Ha) as Hd. destruct (digits2_range a) as [Hr Hd0]; [lia|].
  destruct a as [|p|p]; [lia| |lia]. cbn [Zdigits2] in *. set (d := Z.pos (digits2_pos p)) in *.
  unfold f64_of_Z, binary_normalize, binary_round. fold d. rewrite Z.add_0_r, fexp_normal by lia.
  assert (shl_align p 0 (d - 53) = (Z.to_pos (Z.pos p * 2 ^ (53 - d)), d - 53)) as ->.
  { unfold shl_align. rewrite Z.sub_0_r. destruct (d - 53) as [|x|x] eqn:Hx; [|lia|].
    - replace (53 - d) with 0 by lia. by rewrite Z.mul_1_r.
    - replace (53 - d) with (Z.pos x) by lia. by rewrite <-iter_xO. }
  assert (0 < Z.pos p * 2 ^ (53 - d)) as Hp by (apply Z.mul_pos_pos; [lia|apply Z.pow_pos_nonneg; lia]).
  rewrite Z2Pos.id by done.
  assert (Zdigits2 (Z.pos p * 2 ^ (53 - d)) = 53) as H53.
  { apply digits_Z; [done|]. replace (53 - 1) with ((d - 1) + (53 - d)) by lia.
    replace 53 with (d + (53 - d)) at 4 by lia. rewrite !Z.pow_add_r by lia.
    pose proof (Z.pow_pos_nonneg 2 (53 - d)). nia. }
  unfold binary_round_aux. rewrite shr_fexp_keep by lia. cbn [shr_record_of_loc shr_m loc_of_shr_record round_nearest_even].
  rewrite shr_fexp_keep by lia. cbn [shr_record_of_loc shr_m]. destruct (Z.pos p * 2 ^ (53 - d)) as [|q|q]; [lia| |lia].
  rewrite (proj2 (Z.leb_le _ _)) by lia. done.
Qed.
Lemma new_location_exact n k : new_location n k ≠ loc_Exact → k ≠ 0.
Proof. unfold new_location, new_location_even, new_location_odd. by destruct (Z.even n); intros Hl ->. Qed.

Definition ceil_div (a b : Z) : Z := - ((- a) / b).
Lemma ceil_div_bounds a b : 0 < b → (ceil_div a b - 1) * b < a ≤ ceil_div a b * b.
Proof. intros Hb. unfold ceil_div. pose proof (Z.div_mod (- a) b). pose proof (Z.mod_pos_bound (- a) b). nia. Qed.
Lemma ceil_div_unique a b n : 0 < b → (n - 1) * b < a ≤ n * b → ceil_div a b = n.
Proof. intros Hb Hn. pose proof (ceil_div_bounds a b Hb). nia. Qed.
Lemma ceil_pow_unique m e n k : 0 ≤ k → - k ≤ e → (n - 1) * 2 ^ k < m * 2 ^ (e + k) ≤ n * 2 ^ k → ceil_pow m e = n.
Proof.
  intros Hk He Hb. unfold ceil_pow. pose proof (Z.pow_pos_nonneg 2 k). destruct (Z.leb_spec 0 e).
  - rewrite Z.pow_add_r in Hb by lia. pose proof (Z.pow_pos_nonneg 2 e). nia.
  - apply (ceil_div_unique m (2 ^ (- e)) n); [apply Z.pow_pos_nonneg; lia|].
    assert (2 ^ k = 2 ^ (- e) * 2 ^ (e + k)) as Hk' by (rewrite <-Z.pow_add_r by lia; f_equal; lia).
    assert (0 < 2 ^ (e + k)) as Hp by (apply Z.pow_pos_nonneg; lia). rewrite Hk', !Z.mul_assoc in Hb.
    split; [eapply Z.mul_lt_mono_pos_r; [exact Hp|]; apply Hb|eapply Z.mul_le_mono_pos_r; [exact Hp|]; apply Hb].
Qed.
(** The quotient of the mantissas, before it is rounded. *)
Lemma div_core a b : 0 < a < 2 ^ 53 → 0 < b < 2 ^ 53 → let k := 53 + Zdigits2 b - Zdigits2 a in
  0 ≤ k ∧ ∃ l, f64_div (f64_of_Z a) (f64_of_Z b) = binary_round_aux 53 1024 false (a * 2 ^ k / b) (- k) l ∧
    (l ≠ loc_Exact → (a * 2 ^ k) mod b ≠ 0) ∧ 2 ^ 52 ≤ a * 2 ^ k / b < 2 ^ 54.
Proof.
  intros Ha Hb k. pose proof (digits2_lt _ _ Ha). pose proof (digits2_lt _ _ Hb).
  destruct (digits2_range a) as [Hra Ha0]; [lia|]. destruct (digits2_range b) as [Hrb Hb0]; [lia|].
  set (da := Zdigits2 a) in *. set (db := Zdigits2 b) in *. split; [lia|].
  rewrite !f64_of_Z_exact by done. fold da db. unfold f64_div, SFdiv, SFdiv_core_binary. cbn [xorb].
  set (P := 2 ^ (53 - da)). set (Q := 2 ^ (53 - db)).
  assert (0 < P ∧ 0 < Q) as [HP HQ] by (split; apply Z.pow_pos_nonneg; lia).
  rewrite !Z2Pos.id by nia.
  assert (Zdigits2 (a * P) = 53 ∧ Zdigits2 (b * Q) = 53) as [-> ->].
  { split; (apply digits_Z; [nia|]).
    - replace (53 - 1) with ((da - 1) + (53 - da)) by lia. replace 53 with (da + (53 - da)) at 2 by lia. rewrite !Z.pow_add_r by lia. fold P. nia.
    - replace (53 - 1) with ((db - 1) + (53 - db)) by lia. replace 53 with (db + (53 - db)) at 2 by lia. rewrite !Z.pow_add_r by lia. fold Q. nia. }
  rewrite fexp_normal by lia. rewrite Z.min_l by lia.
  replace (53 + (da - 53) - (53 + (db - 53)) - 53) with (- k) by lia.
  replace (da - 53 - (db - 53) - - k) with 53 by lia. rewrite Z.shiftl_mul_pow2 by lia.
  assert (a * P * 2 ^ 53 = a * 2 ^ k * Q) as ->.
  { rewrite <-!Z.mul_assoc. f_equal. unfold P, Q. rewrite <-!Z.pow_add_r by lia. f_equal. lia. }
  destruct (Z.div_eucl (a * 2 ^ k * Q) (b * Q)) as [q r] eqn:Hqr.
  assert (q = a * 2 ^ k / b) as ->.
  { rewrite <-(Z.div_mul_cancel_r (a * 2 ^ k) b Q) by lia. unfold Z.div. by rewrite Hqr. }
  exists (new_location (b * Q) r). split; [done|].
  assert (r = (a * 2 ^ k) mod b * Q) as ->.
  { rewrite <-Zmult_mod_distr_r. unfold Z.modulo. by rewrite Hqr. }
  split; [intros Hl%new_location_exact; nia|].
  assert (2 ^ k * 2 ^ (da - 1) = 2 ^ 52 * 2 ^ db) as H1 by (rewrite <-!Z.pow_add_r by lia; f_equal; lia).
  assert (2 ^ k * 2 ^ da = 2 ^ 54 * 2 ^ (db - 1)) as H2 by (rewrite <-!Z.pow_add_r by lia; f_equal; lia).
  pose proof (Z.pow_pos_nonneg 2 k). split.
  - apply Z.div_le_lower_bound; [lia|]. nia.
  - apply Z.div_lt_upper_bound; [lia|]. nia.
Qed.
(** Below 2^52, the quotient of two integers never rounds past an integer: its ceiling
    is the ceiling of the exact quotient. *)
Lemma f64_Ceil_div a b : 0 ≤ a < 2 ^ 52 → 0 < b < 2 ^ 53 →
  f64_Ceil_int (f64_div (f64_of_Z a) (f64_of_Z b)) = Some (ceil_div a b).
Proof.
  intros Ha Hb. destruct (decide (a = 0)) as [->|Hnz].
  { by rewrite (f64_of_Z_exact b). }
  destruct (div_core a b) as (Hk & l & -> & Hl & Hq); [lia..|].
  pose proof (digits2_lt a 52 ltac:(lia)) as Hda. destruct (digits2_range b) as [Hrb Hb0]; [lia|].
  destruct (digits2_range a) as [_ Ha0]; [lia|]. pose proof (digits2_lt _ _ Hb).
  set (k := 53 + Zdigits2 b - Zdigits2 a) in *.
  destruct (binary_round_aux_spec (a * 2 ^ k / b) (- k) l) as (m & e' & r & -> & He & Hm & Hlo & Hhi); [lia..|].
  pose proof (ceil_div_bounds a b ltac:(lia)) as Hn. set (n := ceil_div a b) in *.
  assert (0 < n ≤ a) as Hna by nia.
  assert (2 * b ≤ 2 ^ k) as Hkb.
  { replace k with (1 + (Zdigits2 b + (52 - Zdigits2 a))) by lia. rewrite !Z.pow_add_r by lia. pose proof (Z.pow_pos_nonneg 2 (52 - Zdigits2 a)). nia. }
  pose proof (Z.div_mod (a * 2 ^ k) b). pose proof (Z.mod_pos_bound (a * 2 ^ k) b).
  assert (r ≤ n * 2 ^ k) as Hr1.
  { apply Hhi.
    - replace k with (1 + (k - 1)) by lia. rewrite Z.pow_add_r, Z.mul_assoc, (Z.mul_comm n), <-Z.mul_assoc by lia. apply Z.even_spec. by eexists.
    - nia.
    - intros ?%Hl. nia. }
  assert ((n - 1) * 2 ^ k < r) as Hr2 by nia.
  cbn [f64_Ceil_int]. rewrite (ceil_pow_unique _ e' n k); [|lia|lia|].
  - unfold in_int64, minI64, maxI64. rewrite !(proj2 (Z.leb_le _ _)) by lia. done.
  - rewrite <-Hm in Hr1, Hr2. by replace (e' + k) with (e' - - k) by lia.
Qed.
