(* ===== verification/Bitset.v ===== *)
(** * Bit sets

    The code uses [github.com/bits-and-blooms/bitset], which is not part of the
    repository.  The operations the code calls are the methods of the class
    [BitSetOps] and what the package documents about them is [BitSetLaws]; the
    components are verified against the laws.  [BoolBits] is an implementation
    that satisfies them, used to evaluate the definitions on concrete inputs.

    An index is a Go [uint]: the laws speak about indices [0 <= i]. *)
From S2P Require Import Prelude.

Class BitSetOps (B : Type) := {
  bs_new : Z → B;                   (** [bitset.New(length)] *)
  bs_len : B → Z;                   (** [b.Len()] *)
  bs_test : B → Z → bool;           (** [b.Test(i)] *)
  bs_set : B → Z → B;               (** [b.Set(i)], growing the set *)
  bs_clear_all : B → B;             (** [b.ClearAll()] *)
  bs_next_set : B → Z → option Z;   (** [b.NextSet(i)] *)
  bs_next_clear : B → Z → option Z; (** [b.NextClear(i)] *)
  bs_prev_set : B → Z → option Z;   (** [b.PreviousSet(i)] *)
}.

Class BitSetLaws (B : Type) `{BitSetOps B} : Prop := {
  bs_len_nonneg b : 0 ≤ bs_len b;
  bs_len_new n : 0 ≤ n → bs_len (bs_new n) = n;
  bs_test_new n i : 0 ≤ i → bs_test (bs_new n) i = false;
  bs_test_set b i j : 0 ≤ i → 0 ≤ j → bs_test (bs_set b i) j = (i =? j) || bs_test b j;
  bs_len_set b i : 0 ≤ i → bs_len (bs_set b i) = Z.max (bs_len b) (i + 1);
  bs_test_lt b i : 0 ≤ i → bs_test b i = true → i < bs_len b;
  bs_test_clear_all b i : 0 ≤ i → bs_test (bs_clear_all b) i = false;
  bs_len_clear_all b : bs_len (bs_clear_all b) = bs_len b;
  bs_next_set_Some b i j : 0 ≤ i → bs_next_set b i = Some j →
    i ≤ j ∧ bs_test b j = true ∧ ∀ k, i ≤ k < j → bs_test b k = false;
  bs_next_set_None b i : 0 ≤ i → bs_next_set b i = None →
    ∀ k, i ≤ k → bs_test b k = false;
  bs_next_clear_Some b i j : 0 ≤ i → bs_next_clear b i = Some j →
    i ≤ j < bs_len b ∧ bs_test b j = false ∧ ∀ k, i ≤ k < j → bs_test b k = true;
  bs_next_clear_None b i : 0 ≤ i → bs_next_clear b i = None →
    ∀ k, i ≤ k < bs_len b → bs_test b k = true;
  bs_prev_set_Some b i j : 0 ≤ i < bs_len b → bs_prev_set b i = Some j →
    0 ≤ j ≤ i ∧ bs_test b j = true ∧ ∀ k, j < k ≤ i → bs_test b k = false;
  bs_prev_set_None b i : 0 ≤ i < bs_len b → bs_prev_set b i = None →
    ∀ k, 0 ≤ k ≤ i → bs_test b k = false;
}.

(** ** The set bits in increasing order

    [set_bits b] is what a loop over [NextSet] (or [EachSet]) visits. *)
Section set_bits.
Context {B : Type} `{BitSetLaws B}.
Implicit Types b : B.

Definition set_bits_in b (i n : Z) : list Z := filter (λ k, bs_test b k = true) (seqZ i n).
Definition set_bits b : list Z := set_bits_in b 0 (bs_len b).

Lemma elem_of_set_bits_in b i n k :
  k ∈ set_bits_in b i n ↔ bs_test b k = true ∧ i ≤ k < i + n.
Proof. unfold set_bits_in. by rewrite list_elem_of_filter, elem_of_seqZ. Qed.

Lemma elem_of_set_bits b k : 0 ≤ k → k ∈ set_bits b ↔ bs_test b k = true.
Proof.
  intros Hk. unfold set_bits. rewrite elem_of_set_bits_in.
  split; [by intros [? _]|]. intros Ht. split; [done|].
  pose proof (bs_test_lt b k Hk Ht). lia.
Qed.

Lemma set_bits_in_skip b i j n :
  0 ≤ i ≤ j → (∀ k, i ≤ k < j → bs_test b k = false) → j ≤ i + n →
  set_bits_in b i n = set_bits_in b j (i + n - j).
Proof.
  intros Hij Hk Hn. unfold set_bits_in.
  replace n with ((j - i) + (i + n - j)) by lia.
  rewrite seqZ_app by lia. rewrite filter_app.
  replace (i + (j - i)) with j by lia.
  assert (filter (λ k, bs_test b k = true) (seqZ i (j - i)) = []) as ->.
  { apply filter_none. intros k Hin%elem_of_seqZ Ht. rewrite Hk in Ht by lia. done. }
  simpl. f_equal. f_equal. lia.
Qed.

Lemma set_bits_in_None b i :
  0 ≤ i → bs_next_set b i = None → ∀ n, set_bits_in b i n = [].
Proof.
  intros Hi HN n. apply filter_none. intros k Hin%elem_of_seqZ Ht. rewrite (bs_next_set_None b i Hi HN) in Ht; [done|lia].
Qed.

(** One step of the loop [for i, e := NextSet(i); e; i, e = NextSet(i+1)]. *)
Lemma set_bits_in_Some b i j :
  0 ≤ i → bs_next_set b i = Some j →
  i ≤ j < bs_len b ∧
  set_bits_in b i (bs_len b - i) = j :: set_bits_in b (j + 1) (bs_len b - (j + 1)).
Proof.
  intros Hi HS. destruct (bs_next_set_Some b i j Hi HS) as (Hij & Ht & Hk).
  assert (j < bs_len b) by (apply bs_test_lt; [lia|done]).
  split; [lia|].
  rewrite (set_bits_in_skip b i j) by (done || lia).
  unfold set_bits_in. rewrite seqZ_cons by lia.
  rewrite filter_cons_True by done. f_equal. f_equal. f_equal; lia.
Qed.

(** A run of set bits at the start. *)
Lemma set_bits_in_run b i j n :
  i ≤ j ≤ i + n → (∀ k, i ≤ k < j → bs_test b k = true) →
  set_bits_in b i n = seqZ i (j - i) ++ set_bits_in b j (i + n - j).
Proof.
  intros Hij Hk. unfold set_bits_in. replace n with ((j - i) + (i + n - j)) at 1 by lia.
  rewrite seqZ_app by lia. rewrite filter_app.
  replace (i + (j - i)) with j by lia. f_equal.
  apply filter_all. intros x Hx%elem_of_seqZ. apply Hk. lia.
Qed.

Lemma set_bits_in_sorted b i n : StronglySorted Z.lt (set_bits_in b i n).
Proof.
  unfold set_bits_in.
  assert (∀ l, StronglySorted Z.lt l →
    StronglySorted Z.lt (filter (λ k, bs_test b k = true) l)) as Hf.
  { induction 1 as [|x l Hl IH Hx]; [constructor|].
    rewrite filter_cons. case_decide; [|done]. constructor; [done|].
    apply Forall_forall. intros y [_ Hy]%list_elem_of_filter.
    rewrite Forall_forall in Hx. auto. }
  apply Hf. destruct (decide (0 ≤ n)) as [Hn|Hn].
  - revert i. pattern n. apply natlike_ind; [ |clear n Hn Hf; intros n Hn IH i|done].
    + intros i. rewrite seqZ_nil by lia. constructor.
    + rewrite seqZ_cons by lia. rewrite Z.pred_succ. constructor; [done|].
      apply Forall_forall. intros y Hy%elem_of_seqZ. lia.
  - rewrite seqZ_nil by lia. constructor.
Qed.

Lemma set_bits_sorted b : StronglySorted Z.lt (set_bits b).
Proof. apply set_bits_in_sorted. Qed.

Lemma set_bits_range b k : k ∈ set_bits b → 0 ≤ k < bs_len b.
Proof. unfold set_bits. rewrite elem_of_set_bits_in. lia. Qed.

(** Two strictly increasing lists with the same elements are equal. *)
Lemma sorted_ext (l1 l2 : list Z) :
  StronglySorted Z.lt l1 → StronglySorted Z.lt l2 →
  (∀ k, k ∈ l1 ↔ k ∈ l2) → l1 = l2.
Proof.
  intros H1. revert l2. induction H1 as [|x l Hl IH Hx]; intros l2 H2 Hext.
  - destruct l2 as [|y l2]; [done|].
    assert (y ∈ @nil Z) as Hy by (apply Hext; left). by apply not_elem_of_nil in Hy.
  - destruct H2 as [|y l2 Hl2 Hy].
    { assert (x ∈ @nil Z) as Hx' by (apply Hext; left). by apply not_elem_of_nil in Hx'. }
    rewrite Forall_forall in Hx, Hy.
    assert (x = y) as <-.
    { assert (x ∈ y :: l2) as [->|Hxin]%elem_of_cons by (apply Hext; left); [done|].
      assert (y ∈ x :: l) as [->|Hyin]%elem_of_cons by (apply Hext; left); [done|].
      specialize (Hx y Hyin). specialize (Hy x Hxin). lia. }
    f_equal. apply IH; [done|]. intros k. specialize (Hext k).
    rewrite !elem_of_cons in Hext. split; intros Hk.
    + destruct (proj1 Hext (or_intror Hk)) as [->|]; [|done]. specialize (Hx x Hk). lia.
    + destruct (proj2 Hext (or_intror Hk)) as [->|]; [|done]. specialize (Hy x Hk). lia.
Qed.

Lemma set_bits_new n : 0 ≤ n → set_bits (bs_new n : B) = [].
Proof.
  intros Hn. apply sorted_ext; [apply set_bits_sorted|constructor|].
  intros k. split; [|by intros ?%not_elem_of_nil].
  intros Hk. pose proof (set_bits_range _ _ Hk).
  rewrite elem_of_set_bits, bs_test_new in Hk by lia. done.
Qed.

(** Setting a bit above all set bits appends it. *)
Lemma set_bits_set_snoc b i :
  0 ≤ i → (∀ k, k ∈ set_bits b → k < i) → set_bits (bs_set b i) = set_bits b ++ [i].
Proof.
  intros Hi Hlt. apply sorted_ext; [apply set_bits_sorted| |].
  - pose proof (set_bits_sorted b) as Hs. revert Hlt.
    generalize (set_bits b) Hs. clear -Hi. intros l Hs. induction Hs as [|x l Hl IH Hx].
    + intros _. repeat constructor.
    + intros Hlt. simpl. constructor.
      * apply IH. intros k Hk. apply Hlt. by right.
      * apply Forall_app. split; [done|]. constructor; [|constructor]. apply Hlt. by left.
  - intros k. rewrite elem_of_app, list_elem_of_singleton.
    destruct (decide (0 ≤ k)) as [Hk|Hk].
    + rewrite !elem_of_set_bits, bs_test_set by done.
      destruct (Z.eqb_spec i k); simpl; [subst; tauto|].
      split; [tauto|]. intros [?|?]; [done|lia].
    + split; [intros ?%set_bits_range; lia|].
      intros [?%set_bits_range|?]; lia.
Qed.
End set_bits.

(** ** An implementation: one boolean per bit *)
Module BoolBits.
Definition grow (b : list bool) (n : nat) : list bool :=
  b ++ replicate (n - length b) false.
Definition test (b : list bool) (i : Z) : bool := default false (b !! Z.to_nat i).
Definition set (b : list bool) (i : Z) : list bool :=
  <[Z.to_nat i := true]> (grow b (S (Z.to_nat i))).
Definition find_from (v : bool) (b : list bool) (i : Z) : option Z :=
  (λ p, i + Z.of_nat p) <$> (fst <$> list_find (λ x, x = v) (drop (Z.to_nat i) b)).
Definition prev (b : list bool) (i : Z) : option Z :=
  if decide (i < Z.of_nat (length b)) then
    (λ p, i - Z.of_nat p) <$>
      (fst <$> list_find (λ x, x = true) (reverse (take (S (Z.to_nat i)) b)))
  else None.

#[export] Instance ops : BitSetOps (list bool) := {
  bs_new n := replicate (Z.to_nat n) false;
  bs_len b := Z.of_nat (length b);
  bs_test := test;
  bs_set := set;
  bs_clear_all b := replicate (length b) false;
  bs_next_set := find_from true;
  bs_next_clear := find_from false;
  bs_prev_set := prev;
}.

Lemma find_from_Some v b i j :
  0 ≤ i → find_from v b i = Some j →
  i ≤ j ∧ b !! Z.to_nat j = Some v ∧ ∀ k, i ≤ k < j → b !! Z.to_nat k = Some (negb v).
Proof.
  intros Hi. unfold find_from.
  destruct (list_find _ _) as [[p x]|] eqn:E; simpl; [|done]. intros [= <-].
  apply list_find_Some in E as (Hp & -> & Hbefore). rewrite lookup_drop in Hp.
  split; [lia|]. split.
  - rewrite <-Hp. f_equal. lia.
  - intros k Hk. destruct (b !! Z.to_nat k) as [y|] eqn:Ey.
    + f_equal. specialize (Hbefore (Z.to_nat k - Z.to_nat i)%nat y).
      rewrite lookup_drop in Hbefore.
      replace (Z.to_nat i + (Z.to_nat k - Z.to_nat i))%nat with (Z.to_nat k) in Hbefore by lia.
      specialize (Hbefore Ey ltac:(lia)). destruct y, v; simpl; congruence.
    + apply lookup_ge_None in Ey. apply lookup_lt_Some in Hp. lia.
Qed.

Lemma find_from_None v b i k :
  0 ≤ i → find_from v b i = None → i ≤ k < Z.of_nat (length b) →
  b !! Z.to_nat k = Some (negb v).
Proof.
  intros Hi. unfold find_from.
  destruct (list_find _ _) as [[p x]|] eqn:E; simpl; [done|]. intros _ Hk.
  apply list_find_None in E. rewrite Forall_forall in E.
  destruct (lookup_lt_is_Some_2 b (Z.to_nat k)) as [y Hy]; [lia|].
  rewrite Hy. f_equal. assert (y ≠ v) as Hne.
  { apply E. apply list_elem_of_lookup. exists (Z.to_nat k - Z.to_nat i)%nat.
    rewrite lookup_drop. rewrite <-Hy. f_equal. lia. }
  destruct y, v; simpl; congruence.
Qed.

Lemma prev_spec b i :
  0 ≤ i < Z.of_nat (length b) →
  match prev b i with
  | Some j => 0 ≤ j ≤ i ∧ test b j = true ∧ ∀ k, j < k ≤ i → test b k = false
  | None => ∀ k, 0 ≤ k ≤ i → test b k = false
  end.
Proof.
  intros Hi. unfold prev. rewrite decide_True by lia. unfold test.
  assert (length (take (S (Z.to_nat i)) b) = S (Z.to_nat i)) as Hlen
    by (rewrite length_take; lia).
  assert (∀ k, 0 ≤ k ≤ i → ∃ y, b !! Z.to_nat k = Some y ∧
    reverse (take (S (Z.to_nat i)) b) !! (Z.to_nat i - Z.to_nat k)%nat = Some y) as Hrev.
  { intros k Hk. destruct (lookup_lt_is_Some_2 b (Z.to_nat k)) as [y Hy]; [lia|].
    exists y. split; [done|]. rewrite reverse_lookup by lia. rewrite Hlen.
    rewrite lookup_take_lt by lia. rewrite <-Hy. f_equal. lia. }
  destruct (list_find _ _) as [[p x]|] eqn:E; simpl.
  - apply list_find_Some in E as (Hp & -> & Hbefore).
    assert (p < S (Z.to_nat i))%nat by (apply lookup_lt_Some in Hp; rewrite length_reverse in Hp; lia).
    split; [lia|]. split.
    + destruct (Hrev (i - Z.of_nat p)) as (y & Hy & Hy'); [lia|]. rewrite Hy. simpl.
      replace (Z.to_nat i - Z.to_nat (i - Z.of_nat p))%nat with p in Hy' by lia. congruence.
    + intros k Hk. destruct (Hrev k) as (y & Hy & Hy'); [lia|]. rewrite Hy. simpl.
      specialize (Hbefore _ _ Hy' ltac:(lia)). destruct y; congruence.
  - apply list_find_None in E. rewrite Forall_forall in E.
    intros k Hk. destruct (Hrev k) as (y & Hy & Hy'); [lia|]. rewrite Hy. simpl.
    specialize (E y). destruct y; [|done]. exfalso. apply E; [|done].
    by eapply list_elem_of_lookup_2.
Qed.

#[export] Instance laws : BitSetLaws (list bool).
Proof.
  split; simpl; intros.
  - lia.
  - rewrite length_replicate. lia.
  - unfold test. destruct (_ !! _) eqn:E; [|done]. apply lookup_replicate in E as [-> _]. done.
  - unfold test, set, grow. destruct (Z.eqb_spec i j) as [->|Hne]; simpl.
    + rewrite list_lookup_insert_eq; [done|]. rewrite length_app, length_replicate. lia.
    + rewrite list_lookup_insert_ne by lia.
      destruct (decide (Z.to_nat j < length b)%nat).
      * by rewrite lookup_app_l by lia.
      * rewrite lookup_app_r by lia. rewrite (lookup_ge_None_2 b) by lia.
        destruct (replicate _ _ !! _) eqn:E; [|done]. by apply lookup_replicate in E as [-> _].
  - unfold set, grow. rewrite length_insert, length_app, length_replicate. lia.
  - unfold test in *. destruct (_ !! _) eqn:E; [|done].
    apply lookup_lt_Some in E. lia.
  - unfold test. destruct (_ !! _) eqn:E; [|done]. apply lookup_replicate in E as [-> _]. done.
  - by rewrite length_replicate.
  - destruct (find_from_Some true b i j) as (? & Hj & Hk); [done..|].
    split; [done|]. unfold test. rewrite Hj. split; [done|].
    intros k ?. by rewrite Hk.
  - unfold test. destruct (decide (k < Z.of_nat (length b))).
    + by rewrite (find_from_None true b i k).
    + by rewrite lookup_ge_None_2 by lia.
  - destruct (find_from_Some false b i j) as (? & Hj & Hk); [done..|].
    apply lookup_lt_Some in Hj as Hlt. split; [lia|]. unfold test. rewrite Hj. split; [done|].
    intros k ?. by rewrite Hk.
  - unfold test. by rewrite (find_from_None false b i k).
  - pose proof (prev_spec b i) as Hp. rewrite H0 in Hp. by apply Hp.
  - pose proof (prev_spec b i) as Hp. rewrite H0 in Hp. by apply Hp.
Qed.
End BoolBits.
