(* ===== verification/Uuid.v ===== *)
(** * Build identifiers

    [uuid.UUID] (github.com/google/uuid) is not part of the repository: the code
    compares identifiers, uses the zero value [uuid.Nil] and, when a header is
    written, the sixteen bytes of an identifier.  [UuidOps] holds those
    operations, [UuidLaws] what the package documents ("a 16 byte array"), and
    [Bytes16] is an instance for evaluating the definitions. *)
From Stdlib Require Import Init.Byte.
From stdpp Require Import vector.
From S2P Require Import Prelude.

#[export] Instance byte_eq_dec : EqDecision byte := Byte.byte_eq_dec.

Class UuidOps (ID : Type) := {
  uuid_nil : ID;
  uuid_bytes : ID → list byte;
  uuid_of_bytes : list byte → ID;
}.

Class UuidLaws (ID : Type) `{UuidOps ID} : Prop := {
  uuid_bytes_length id : length (uuid_bytes id) = 16%nat;
  uuid_of_bytes_bytes id : uuid_of_bytes (uuid_bytes id) = id;
  uuid_bytes_of_bytes bs : length bs = 16%nat → uuid_bytes (uuid_of_bytes bs) = bs;
}.

Module Bytes16.
Definition t : Type := vec byte 16.
Definition of_bytes (bs : list byte) : t :=
  match decide (length bs = 16%nat) with
  | left H => eq_rect _ (vec byte) (list_to_vec bs) _ H
  | right _ => vreplicate 16 x00
  end.

#[export] Instance eq_dec : EqDecision t := _.
#[export] Instance ops : UuidOps t := {
  uuid_nil := vreplicate 16 x00;
  uuid_bytes := vec_to_list;
  uuid_of_bytes := of_bytes;
}.

Lemma vec_to_list_eq_rect n m (v : vec byte n) (H : n = m) :
  vec_to_list (eq_rect _ (vec byte) v _ H) = vec_to_list v.
Proof. by destruct H. Qed.

Lemma bytes_of_bytes bs : length bs = 16%nat → vec_to_list (of_bytes bs) = bs.
Proof.
  intros H. unfold of_bytes. destruct (decide _) as [E|?]; [|done].
  by rewrite vec_to_list_eq_rect, vec_to_list_to_vec.
Qed.

#[export] Instance laws : UuidLaws t.
Proof.
  split; simpl.
  - intros id. apply length_vec_to_list.
  - intros id. apply vec_to_list_inj2. apply bytes_of_bytes, length_vec_to_list.
  - apply bytes_of_bytes.
Qed.

(** The identifier whose sixteen bytes are all [b]. *)
Definition rep (b : byte) : t := vreplicate 16 b.
End Bytes16.
