(* ===== verification/Mapping.v ===== *)
(** * Block arithmetic and build mappings

    packages/shared/pkg/storage/header: [block.go] and the data and
    [CreateMapping] of [mapping.go].

    A [BuildMap] says that the bytes [Offset, Offset+Length) of a virtual device
    are stored in the data file of the build [BuildId] from
    [BuildStorageOffset] on.  The abstract reading of a list of mappings is
    [resolve]: the build and the position in its data file that hold a byte. *)
From S2P Require Import Prelude Bitset.

(** ** block.go *)
Definition TotalBlocks {E} (size blockSize : Z) : res E Z :=
  go_div (i64 (i64 (size + blockSize) - 1)) blockSize.
Definition BlockIdx {E} (off blockSize : Z) : res E Z := go_div off blockSize.
Definition BlockOffset (idx blockSize : Z) : Z := i64 (idx * blockSize).

(** [make([]int64, n)] panics for a negative [n]. *)
Definition BlocksOffsets {E} (size blockSize : Z) : res E (list Z) :=
  n ← TotalBlocks size blockSize;
  if n <? 0 then Panic else Ok ((λ i, BlockOffset i blockSize) <$> seqZ 0 n).

Lemma BlockIdx_eq {E} off bs : 0 < bs → 0 ≤ off ≤ maxI64 → BlockIdx off bs = Ok (E := E) (off / bs).
Proof.
  intros. unfold BlockIdx, go_div. destruct (Z.eqb_spec bs 0); [lia|].
  rewrite Z.quot_div_nonneg by lia. unfold maxI64 in *. pose proof (div_self_bound off bs).
  by unwrap.
Qed.
Lemma TotalBlocks_eq {E} size bs :
  0 < bs → 0 ≤ size → size + bs ≤ maxI64 → TotalBlocks size bs = Ok (E := E) ((size + bs - 1) / bs).
Proof.
  intros. unfold TotalBlocks. unfold maxI64 in *. unwrap.
  apply (BlockIdx_eq (size + bs - 1)); unfold maxI64; lia.
Qed.
Lemma BlocksOffsets_eq {E} size bs :
  0 < bs → 0 ≤ size → size + bs ≤ maxI64 →
  BlocksOffsets size bs = Ok (E := E) ((λ i, i * bs) <$> seqZ 0 ((size + bs - 1) / bs)).
Proof.
  intros. unfold BlocksOffsets. rewrite TotalBlocks_eq by done. simpl.
  assert (0 ≤ (size + bs - 1) / bs) by (apply Z.div_pos; lia).
  destruct (Z.ltb_spec ((size + bs - 1) / bs) 0); [lia|]. f_equal.
  apply list_fmap_ext. intros ? i Hi%list_elem_of_lookup_2%elem_of_seqZ.
  unfold BlockOffset, maxI64 in *. apply i64_small.
  pose proof (Z.mul_div_le (size + bs - 1) bs). nia.
Qed.

(** ** mapping.go *)
Record BuildMap (ID : Type) := mkBuildMap {
  Offset : Z;
  Length : Z;
  BuildId : ID;
  BuildStorageOffset : Z;
}.
Arguments mkBuildMap {ID}.
Arguments Offset {ID}.
Arguments Length {ID}.
Arguments BuildId {ID}.
Arguments BuildStorageOffset {ID}.

#[export] Instance BuildMap_eq_dec {ID} `{EqDecision ID} : EqDecision (BuildMap ID).
Proof. solve_decision. Defined.

Definition Copy {ID} (mapping : BuildMap ID) : BuildMap ID :=
  mkBuildMap (Offset mapping) (Length mapping) (BuildId mapping) (BuildStorageOffset mapping).

Section create.
Context {ID B : Type} `{BitSetOps B}.

(** The variables of the loop of [CreateMapping]. *)
Record create_state := mkCreate {
  startBlock : Z;
  blockLength : Z;
  buildStorageOffset : Z;
  mappings : list (BuildMap ID);
}.

Definition create_emit (buildId : ID) (blockSize : Z) (st : create_state) : BuildMap ID :=
  mkBuildMap (u64 (startBlock st * u64 blockSize)) (u64 (blockLength st * u64 blockSize))
    buildId (buildStorageOffset st).

(** The body of the loop for the set bit [blockIdx]. *)
Definition create_body (buildId : ID) (blockSize : Z) (st : create_state) (blockIdx : Z)
    : create_state :=
  if u64 (startBlock st + blockLength st) =? blockIdx then
    mkCreate (startBlock st) (u64 (blockLength st + 1)) (buildStorageOffset st) (mappings st)
  else if 0 <? blockLength st then
    let m := create_emit buildId blockSize st in
    mkCreate blockIdx 1 (u64 (buildStorageOffset st + Length m)) (mappings st ++ [m])
  else mkCreate blockIdx 1 (buildStorageOffset st) (mappings st).

(** [for blockIdx, e := dirty.NextSet(0); e; blockIdx, e = dirty.NextSet(blockIdx+1)];
    [None] is running out of fuel. *)
Fixpoint create_loop (fuel : nat) (buildId : ID) (dirty : B) (blockSize : Z)
    (next : option Z) (st : create_state) : option create_state :=
  match next with
  | None => Some st
  | Some blockIdx =>
      match fuel with
      | O => None
      | S fuel =>
          create_loop fuel buildId dirty blockSize (bs_next_set dirty (u64 (blockIdx + 1)))
            (create_body buildId blockSize st blockIdx)
      end
  end.

Definition create_final (buildId : ID) (blockSize : Z) (st : create_state) : list (BuildMap ID) :=
  if 0 <? blockLength st then mappings st ++ [create_emit buildId blockSize st]
  else mappings st.

Definition CreateMapping (buildId : ID) (dirty : B) (blockSize : Z)
    : option (list (BuildMap ID)) :=
  create_final buildId blockSize <$>
    create_loop (Z.to_nat (bs_len dirty)) buildId dirty blockSize
      (bs_next_set dirty 0) (mkCreate 0 0 0 []).
End create.
Arguments create_state ID : clear implicits.

(** ** The meaning of a list of mappings *)
Section resolve.
Context {ID : Type}.
Implicit Types (m : BuildMap ID) (l : list (BuildMap ID)).

Definition End m : Z := Offset m + Length m.
Definition covers m (off : Z) : bool := (Offset m <=? off) && (off <? End m).

(** The build, and the position in its data, of the byte [off]. *)
Fixpoint resolve l (off : Z) : option (ID * Z) :=
  match l with
  | [] => None
  | m :: l =>
      if covers m off then Some (BuildId m, BuildStorageOffset m + (off - Offset m))
      else resolve l off
  end.

(** A mapping of positive length that fits the signed 64-bit range. *)
Definition wf_map m : Prop :=
  0 ≤ Offset m ∧ 0 < Length m ∧ End m ≤ maxI64 ∧
  0 ≤ BuildStorageOffset m ∧ BuildStorageOffset m + Length m ≤ maxI64.

(** Well-formed mappings in increasing order, without overlap, from [lo] on. *)
Fixpoint sorted_from (lo : Z) l : Prop :=
  match l with
  | [] => True
  | m :: l => lo ≤ Offset m ∧ wf_map m ∧ sorted_from (End m) l
  end.

(** Mappings that follow each other from [lo] to [hi]. *)
Fixpoint contig (lo : Z) l (hi : Z) : Prop :=
  match l with
  | [] => lo = hi
  | m :: l => Offset m = lo ∧ contig (End m) l hi
  end.

(** Starts and lengths are multiples of the block size. *)
Definition aligned (bs : Z) l : Prop :=
  Forall (λ m, (bs | Offset m) ∧ (bs | Length m)) l.

Lemma covers_spec m off : covers m off = true ↔ Offset m ≤ off < End m.
Proof. unfold covers. rewrite andb_true_iff, Z.leb_le, Z.ltb_lt. lia. Qed.
Lemma not_covers_spec m off : covers m off = false ↔ ¬ (Offset m ≤ off < End m).
Proof. rewrite <-covers_spec. by destruct (covers m off). Qed.

Lemma resolve_cons m l off :
  resolve (m :: l) off =
    if decide (Offset m ≤ off < End m) then Some (BuildId m, BuildStorageOffset m + (off - Offset m))
    else resolve l off.
Proof.
  simpl. destruct (covers m off) eqn:E; case_decide as D; try done.
  - by apply covers_spec in E.
  - apply not_covers_spec in E. done.
Qed.

Lemma resolve_app l1 l2 off :
  resolve (l1 ++ l2) off = match resolve l1 off with Some r => Some r | None => resolve l2 off end.
Proof. induction l1 as [|m l1 IH]; simpl; [done|]. by destruct (covers m off). Qed.

Lemma sorted_from_weaken lo lo' l : lo' ≤ lo → sorted_from lo l → sorted_from lo' l.
Proof. destruct l; simpl; [done|]. intros ? (? & ? & ?). split_lia; try done. Qed.

Lemma resolve_below lo l off : sorted_from lo l → off < lo → resolve l off = None.
Proof.
  revert lo. induction l as [|m l IH]; intros lo; [done|].
  intros (Hlo & (? & ? & ?) & Hs) Hoff. rewrite resolve_cons. rewrite decide_False by lia.
  apply (IH (End m)); [done|]. unfold End. lia.
Qed.

(** A mapping of a sorted list is found for each of its bytes. *)
Lemma resolve_elem lo l m off :
  sorted_from lo l → m ∈ l → Offset m ≤ off < End m →
  resolve l off = Some (BuildId m, BuildStorageOffset m + (off - Offset m)).
Proof.
  revert lo. induction l as [|m' l IH]; intros lo; [by intros _ ?%not_elem_of_nil|].
  intros (Hlo & Hwf & Hs) Hin Hoff. rewrite resolve_cons.
  apply elem_of_cons in Hin as [->|Hin]; [by rewrite decide_True|].
  case_decide as D; [|by eapply IH].
  assert (resolve l off = None) as HN by (apply (resolve_below (End m')); [done|lia]).
  by rewrite (IH (End m')) in HN.
Qed.

Lemma resolve_Some_elem l off r :
  resolve l off = Some r →
  ∃ m, m ∈ l ∧ Offset m ≤ off < End m ∧ r = (BuildId m, BuildStorageOffset m + (off - Offset m)).
Proof.
  induction l as [|m l IH]; [done|]. rewrite resolve_cons. case_decide as D.
  - intros [= <-]. exists m. split; [left|done].
  - intros Hr. destruct (IH Hr) as (m' & ? & ?). exists m'. split; [by right|done].
Qed.

Lemma sorted_from_elem lo l m : sorted_from lo l → m ∈ l → lo ≤ Offset m ∧ wf_map m.
Proof.
  revert lo. induction l as [|m' l IH]; intros lo; [by intros _ ?%not_elem_of_nil|].
  intros (Hlo & Hwf & Hs) [->|Hin]%elem_of_cons; [done|].
  destruct (IH (End m') Hs Hin). split; [|done]. destruct Hwf as (? & ? & ?).
  unfold End in *. lia.
Qed.

Lemma sorted_from_snoc lo l m :
  sorted_from lo l → wf_map m → lo ≤ Offset m →
  (∀ m', m' ∈ l → End m' ≤ Offset m) → sorted_from lo (l ++ [m]).
Proof.
  revert lo. induction l as [|m' l IH]; intros lo; simpl; [done|].
  intros (? & ? & ?) ? ? Hend. split_lia; try done.
  apply IH; [done..| |]; [apply Hend; by left|]. intros m'' ?. apply Hend. by right.
Qed.

(** A sorted list that covers every byte of [lo, hi) and no other one has no gap. *)
Lemma sorted_cover_contig lo l hi :
  sorted_from lo l → lo ≤ hi →
  (∀ off, lo ≤ off → is_Some (resolve l off) ↔ off < hi) → contig lo l hi.
Proof.
  revert lo. induction l as [|m l IH]; intros lo; simpl sorted_from.
  - intros _ ? Hc. simpl. destruct (decide (lo < hi)) as [D|]; [|lia].
    apply (Hc lo ltac:(lia)) in D. simpl in D. by destruct D.
  - intros (Hlo & Hwf & Hs) Hhi Hc. destruct Hwf as (? & ? & ?).
    assert (Hne : lo < hi).
    { assert (Offset m < hi); [|lia]. apply (Hc (Offset m)); [lia|].
      rewrite resolve_cons, decide_True by (unfold End; lia). eauto. }
    assert (Offset m = lo) as Hm.
    { apply (Hc lo ltac:(lia)) in Hne. rewrite resolve_cons in Hne.
      case_decide as D; [unfold End in *; lia|].
      rewrite (resolve_below (End m)) in Hne by (done || unfold End; lia). by destruct Hne. }
    assert (End m ≤ hi).
    { unfold End in *. assert (Offset m + Length m - 1 < hi); [|lia].
      apply Hc; [lia|]. rewrite resolve_cons, decide_True by (unfold End; lia). eauto. }
    split; [done|]. apply IH; [done..|]. intros off Hoff. rewrite <-(Hc off) by (unfold End in *; lia).
    rewrite resolve_cons, decide_False by lia. done.
Qed.

Lemma contig_bounds lo l hi : contig lo l hi → Forall (λ m, 0 ≤ Length m) l → lo ≤ hi.
Proof.
  revert lo. induction l as [|m l IH]; intros lo; simpl; [lia|].
  intros (? & Hc) Hp. apply Forall_cons in Hp as [Hm Hp]. specialize (IH _ Hc Hp).
  unfold End in *. lia.
Qed.

Lemma contig_cover lo l hi off :
  contig lo l hi → sorted_from lo l → is_Some (resolve l off) ↔ lo ≤ off < hi.
Proof.
  revert lo. induction l as [|m l IH]; intros lo; simpl contig.
  - intros -> _. simpl. split; [by intros [? ?]|lia].
  - intros (Hm & Hc) (Hlo & Hwf & Hs). rewrite resolve_cons. destruct Hwf as (? & ? & ?).
    assert (End m ≤ hi).
    { apply (contig_bounds _ l); [done|]. apply Forall_forall. intros m' Hm'.
      apply (sorted_from_elem (End m) l m') in Hm' as [_ (? & ? & ?)]; [lia|done]. }
    case_decide as D; [split; [|by eauto]; unfold End in *; lia|].
    rewrite (IH _ Hc Hs). unfold End in *. lia.
Qed.
End resolve.
#[export] Hint Resolve sorted_from_weaken : e2b.

(** ** Dense storage

    [CreateMapping] stores the blocks of a bit set one after the other: the
    [p]-th set bit is block [p] of the data file.  [packed s l] says that the
    data of the mappings [l] follow each other from [s] on, [blocks_in] are the
    block numbers they map. *)
Section packed.
Context {ID : Type} (bs : Z).
Implicit Types (m : BuildMap ID) (l : list (BuildMap ID)).

Fixpoint packed (s : Z) l : Prop :=
  match l with
  | [] => True
  | m :: l => BuildStorageOffset m = s ∧ packed (s + Length m) l
  end.

Fixpoint total l : Z := match l with [] => 0 | m :: l => Length m + total l end.
Definition blocks_of m : list Z := seqZ (Offset m / bs) (Length m / bs).
Definition blocks_in l : list Z := concat (blocks_of <$> l).

Hypothesis bs_pos : 0 < bs.

Lemma blocks_in_app l1 l2 : blocks_in (l1 ++ l2) = blocks_in l1 ++ blocks_in l2.
Proof. unfold blocks_in. by rewrite fmap_app, concat_app. Qed.

Lemma blocks_in_cons m l : blocks_in (m :: l) = blocks_of m ++ blocks_in l.
Proof. done. Qed.

Lemma blocks_of_mk st n (id : ID) s :
  0 ≤ n → blocks_of (mkBuildMap (st * bs) (n * bs) id s) = seqZ st n.
Proof. intros. unfold blocks_of. simpl. by rewrite !Z.div_mul by lia. Qed.

Lemma aligned_length_blocks l :
  aligned bs l → Forall wf_map l →
  total l = Z.of_nat (length (blocks_in l)) * bs.
Proof.
  intros Ha Hw. induction l as [|m l IH]; [done|].
  apply Forall_cons in Ha as [[_ [k Hk]] Ha]. apply Forall_cons in Hw as [(_ & ? & _) Hw].
  rewrite blocks_in_cons, length_app, Nat2Z.inj_add, Z.mul_add_distr_r, <-IH by done.
  simpl total. unfold blocks_of. rewrite length_seqZ, Hk, Z.div_mul by lia.
  rewrite Z2Nat.id by nia. lia.
Qed.

Lemma total_app l1 l2 : total (l1 ++ l2) = total l1 + total l2.
Proof. induction l1 as [|m l1 IH]; simpl; lia. Qed.

Lemma packed_snoc s l m :
  packed s l → BuildStorageOffset m = s + total l → packed s (l ++ [m]).
Proof.
  revert s. induction l as [|m' l IH]; intros s; simpl; [intros _ ?; split; [lia|done]|].
  intros [? Hp] Hm. split; [done|]. apply IH; [done|lia].
Qed.

(** In a packed, aligned, sorted list the [p]-th mapped block is stored at [p]. *)
Lemma packed_resolve lo l (s p : Z) i r id :
  sorted_from lo l → aligned bs l → packed (s * bs) l → Forall (λ m, BuildId m = id) l →
  0 ≤ p → blocks_in l !! Z.to_nat p = Some i → 0 ≤ r < bs →
  resolve l (i * bs + r) = Some (id, (s + p) * bs + r).
Proof.
  revert lo s p. induction l as [|m l IH]; intros lo s p; [done|].
  intros (Hlo & Hwf & Hs) Ha [Hb Hp] Hid Hp0 Hi Hr.
  apply Forall_cons in Ha as [[[a Ha1] [n Hn]] Ha]. apply Forall_cons in Hid as [Hidm Hid].
  destruct Hwf as (? & ? & ?). assert (0 < n) by nia.
  rewrite blocks_in_cons in Hi. unfold blocks_of in Hi.
  rewrite Ha1, Hn, !Z.div_mul in Hi by lia.
  rewrite resolve_cons. unfold End. rewrite Ha1, Hn.
  apply lookup_app_Some in Hi as [Hi|[Hge Hi]].
  - apply lookup_seqZ in Hi as [-> Hlt]. rewrite Z2Nat.id in Hlt |- * by lia.
    rewrite decide_True by nia. rewrite Hidm, Hb. do 2 f_equal. lia.
  - rewrite length_seqZ in Hge, Hi.
    assert (resolve l (i * bs + r) = Some (id, (s + n + (p - n)) * bs + r)) as HIH.
    { apply (IH (End m)); try done.
      - by replace ((s + n) * bs) with (s * bs + Length m) by lia.
      - lia.
      - rewrite <-Hi. f_equal. lia. }
    case_decide as D.
    + assert (resolve l (i * bs + r) = None) as HN; [|congruence].
      apply (resolve_below (End m)); [done|]. unfold End. lia.
    + rewrite HIH. do 2 f_equal. lia.
Qed.

Lemma packed_resolve_None lo l i r :
  sorted_from lo l → aligned bs l → i ∉ blocks_in l → 0 ≤ r < bs →
  resolve l (i * bs + r) = None.
Proof.
  intros Hs Ha Hi Hr. destruct (resolve l (i * bs + r)) as [x|] eqn:E; [|done].
  destruct Hi. apply resolve_Some_elem in E as (m & Hm & Hoff & _).
  apply list_elem_of_split in Hm as (l1 & l2 & ->).
  rewrite blocks_in_app, blocks_in_cons. apply elem_of_app. right.
  apply elem_of_app. left. unfold blocks_of. apply elem_of_seqZ.
  apply Forall_app in Ha as [_ Ha]. apply Forall_cons in Ha as [[[a Ha1] [n Hn]] _].
  unfold End in Hoff. rewrite Ha1, Hn in Hoff |- *. rewrite !Z.div_mul by lia. nia.
Qed.
End packed.

(** ** CreateMapping *)
Section create_spec.
Context {ID B : Type} `{BitSetLaws B}.
Context (buildId : ID) (b : B) (bs : Z).
Hypothesis bs_pos : 0 < bs.
Hypothesis fits : bs_len b * bs ≤ maxI64.

Lemma bs_small : bs_len b > 0 → u64 bs = bs.
Proof. intros. apply u64_small. unfold maxI64 in *. nia. Qed.

Lemma len_small : bs_len b ≤ maxI64.
Proof. pose proof (bs_len_nonneg b). nia. Qed.

(** The loop over [NextSet] is a fold over the set bits. *)
Lemma create_loop_fold fuel k st :
  0 ≤ k → (length (set_bits_in b k (bs_len b - k)) ≤ fuel)%nat →
  create_loop fuel buildId b bs (bs_next_set b k) st =
    Some (foldl (create_body buildId bs) st (set_bits_in b k (bs_len b - k))).
Proof.
  pose proof len_small. revert k st. induction fuel as [|fuel IH]; intros k st Hk Hf;
    destruct (bs_next_set b k) as [j|] eqn:E.
  - apply set_bits_in_Some in E as [_ E]; [|done]. rewrite E in Hf. simpl in Hf. lia.
  - by rewrite set_bits_in_None.
  - apply set_bits_in_Some in E as [? E]; [|done]. rewrite E in Hf |- *. simpl in *.
    unfold maxI64 in *. unwrap. apply IH; lia.
  - by rewrite set_bits_in_None.
Qed.

(** What the loop has built after the set bits [ks]: the emitted mappings and
    the pending run [startBlock, startBlock+blockLength) map the blocks [ks]. *)
Record create_inv (ks : list Z) (st : create_state ID) : Prop := {
  ci_start : 0 ≤ startBlock st;
  ci_len : 0 ≤ blockLength st;
  ci_bound : startBlock st + blockLength st ≤ bs_len b;
  ci_empty : blockLength st = 0 → startBlock st = 0 ∧ mappings st = [];
  ci_blocks : blocks_in bs (mappings st) ++ seqZ (startBlock st) (blockLength st) = ks;
  ci_sorted : sorted_from 0 (mappings st);
  ci_aligned : aligned bs (mappings st);
  ci_packed : packed 0 (mappings st);
  ci_ids : Forall (λ m, BuildId m = buildId) (mappings st);
  ci_ends : Forall (λ m, End m ≤ startBlock st * bs) (mappings st);
  ci_total : buildStorageOffset st = total (mappings st);
  ci_total_le : 0 ≤ total (mappings st) ≤ startBlock st * bs;
}.

Lemma create_inv_init : create_inv [] (mkCreate 0 0 0 []).
Proof.
  pose proof (bs_len_nonneg b).
  split; simpl; try done; try lia; constructor.
Qed.

Lemma create_emit_eq ks st :
  create_inv ks st → 0 < blockLength st →
  create_emit buildId bs st =
    mkBuildMap (startBlock st * bs) (blockLength st * bs) buildId (total (mappings st)).
Proof.
  intros [] Hl. pose proof (bs_len_nonneg b). unfold create_emit.
  rewrite bs_small by lia. unfold maxI64 in *. rewrite ci_total0.
  f_equal; apply u64_small; nia.
Qed.

(** Emitting the pending run keeps the list well formed. *)
Lemma create_emit_snoc ks st :
  create_inv ks st → 0 < blockLength st →
  let l := mappings st ++ [create_emit buildId bs st] in
  blocks_in bs l = ks ∧ sorted_from 0 l ∧ aligned bs l ∧ packed 0 l ∧
  Forall (λ m, BuildId m = buildId) l ∧
  Forall (λ m, End m ≤ (startBlock st + blockLength st) * bs) l ∧
  total l = total (mappings st) + blockLength st * bs.
Proof.
  intros Hi Hl. simpl. rewrite (create_emit_eq ks) by done. destruct Hi.
  split_and!.
  - rewrite blocks_in_app, blocks_in_cons, blocks_of_mk by lia.
    unfold blocks_in at 2. simpl. by rewrite app_nil_r.
  - apply sorted_from_snoc; [done| |simpl; nia|].
    + unfold wf_map, End, maxI64 in *. simpl. nia.
    + intros m' Hm'. rewrite Forall_forall in ci_ends0. simpl. auto.
  - apply Forall_app. split; [done|]. constructor; [|constructor]. simpl.
    split; eexists; reflexivity.
  - apply packed_snoc; [done|]. simpl. lia.
  - apply Forall_app. split; [done|]. by constructor.
  - apply Forall_app. split.
    + eapply Forall_impl; [done|]. simpl. intros m Hm. nia.
    + constructor; [|constructor]. unfold End. simpl. nia.
  - rewrite total_app. simpl. lia.
Qed.

Lemma create_body_inv ks k st :
  create_inv ks st → 0 ≤ k < bs_len b → (∀ j, j ∈ ks → j < k) →
  create_inv (ks ++ [k]) (create_body buildId bs st k).
Proof.
  intros Hi Hk Hks. pose proof len_small. unfold maxI64 in *.
  assert (Hle : startBlock st + blockLength st ≤ k).
  { destruct Hi. destruct (decide (blockLength st = 0)) as [E|E].
    { destruct (ci_empty0 E). lia. }
    assert (startBlock st + blockLength st - 1 < k); [|lia]. apply Hks.
    rewrite <-ci_blocks0. apply elem_of_app. right. apply elem_of_seqZ. lia. }
  unfold create_body. pose proof Hi as Hi'. destruct Hi'.
  rewrite (u64_small (startBlock st + blockLength st)) by lia.
  destruct (Z.eqb_spec (startBlock st + blockLength st) k) as [E|E].
  - rewrite u64_small by lia. split; simpl; try done; try lia.
    rewrite seqZ_snoc by lia. rewrite app_assoc, ci_blocks0. by rewrite E.
  - destruct (Z.ltb_spec 0 (blockLength st)) as [Hl|Hl].
    + destruct (create_emit_snoc ks st Hi Hl) as (Hb & Hs & Ha & Hp & Hid & He & Ht).
      cbv zeta. rewrite (create_emit_eq ks st Hi Hl) in *.
      split; simpl; try done; try lia.
      * by rewrite Hb.
      * eapply Forall_impl; [exact He|]. simpl. nia.
      * rewrite Ht, ci_total0. apply u64_small. nia.
      * rewrite Ht. nia.
    + destruct (ci_empty0 ltac:(lia)) as [H0s H0m]. rewrite H0m in *.
      assert (blockLength st = 0) as Hb0 by lia. rewrite Hb0 in *.
      assert (ks = []) as -> by (rewrite <-ci_blocks0; by rewrite seqZ_nil by lia).
      split; simpl in *; try done; nia.
Qed.

Lemma create_fold_inv l ks st :
  create_inv ks st → StronglySorted Z.lt (ks ++ l) → (∀ k, k ∈ l → 0 ≤ k < bs_len b) →
  create_inv (ks ++ l) (foldl (create_body buildId bs) st l).
Proof.
  revert ks st. induction l as [|k l IH]; intros ks st Hi Hs Hr; simpl; [by rewrite app_nil_r|].
  rewrite <-app_nil_cons_eq in Hs |- *. apply IH; [|done|intros; apply Hr; by right].
  apply create_body_inv; [done|apply Hr; by left|].
  intros j Hj. apply StronglySorted_app_1_l in Hs.
  eapply StronglySorted_app_1_elem_of; [exact Hs|done|left].
Qed.

Lemma CreateMapping_structure :
  ∃ l, CreateMapping buildId b bs = Some l ∧ blocks_in bs l = set_bits b ∧
    sorted_from 0 l ∧ aligned bs l ∧ packed 0 l ∧ Forall (λ m, BuildId m = buildId) l.
Proof.
  assert (Hf : create_inv (set_bits b) (foldl (create_body buildId bs) (mkCreate 0 0 0 []) (set_bits b))).
  { apply (create_fold_inv (set_bits b) []); [apply create_inv_init|apply set_bits_sorted|].
    apply set_bits_range. }
  unfold CreateMapping. pose proof (bs_len_nonneg b).
  rewrite create_loop_fold; [|lia|].
  - replace (bs_len b - 0) with (bs_len b) by lia. fold (set_bits b).
    set (st := foldl _ _ _) in *. simpl. eexists. split; [done|]. unfold create_final.
    destruct (Z.ltb_spec 0 (blockLength st)) as [Hl|Hl].
    + destruct (create_emit_snoc _ st Hf Hl) as (? & ? & ? & ? & ? & _). done.
    + destruct Hf. split_and!; try done. rewrite <-ci_blocks0.
      rewrite (seqZ_nil _ (blockLength st)) by lia. by rewrite app_nil_r.
  - unfold set_bits_in. etrans; [apply length_filter|]. rewrite length_seqZ. lia.
Qed.
End create_spec.

(** The position of block [i] among the blocks [ks]. *)
Fixpoint rank (ks : list Z) (i : Z) : option Z :=
  match ks with
  | [] => None
  | k :: ks => if k =? i then Some 0 else Z.succ <$> rank ks i
  end.

Lemma rank_Some ks i p : rank ks i = Some p → 0 ≤ p ∧ ks !! Z.to_nat p = Some i.
Proof.
  revert p. induction ks as [|k ks IH]; intros p; simpl; [done|].
  destruct (Z.eqb_spec k i) as [->|]; [by intros [= <-]|].
  destruct (rank ks i) as [q|]; [|done]. intros [= <-]. destruct (IH q eq_refl).
  split; [lia|]. by rewrite Z2Nat.inj_succ.
Qed.
Lemma rank_None ks i : rank ks i = None ↔ i ∉ ks.
Proof.
  induction ks as [|k ks IH]; simpl.
  { split; [intros _; apply not_elem_of_nil|done]. }
  rewrite not_elem_of_cons, <-IH. destruct (Z.eqb_spec k i) as [->|]; [by split; [|intros []]|].
  clear IH. destruct (rank ks i); simpl; [by split; [|intros []]|by split].
Qed.
Lemma rank_cons_lt k ks i :
  StronglySorted Z.lt (k :: ks) → i ∈ ks → rank (k :: ks) i = Z.succ <$> rank ks i ∧ k < i.
Proof.
  intros [_ Hk]%StronglySorted_inv Hi. rewrite Forall_forall in Hk. specialize (Hk _ Hi).
  simpl. by destruct (Z.eqb_spec k i); [lia|].
Qed.
Lemma rank_lookup ks i p :
  StronglySorted Z.lt ks → ks !! p = Some i → rank ks i = Some (Z.of_nat p).
Proof.
  revert p. induction ks as [|k ks IH]; intros p Hs Hp; [done|].
  destruct p as [|p]; simplify_eq/=; [by rewrite Z.eqb_refl|].
  destruct (rank_cons_lt k ks i Hs) as [_ Hlt]; [by eapply list_elem_of_lookup_2|].
  destruct (Z.eqb_spec k i); [lia|]. apply StronglySorted_inv in Hs as [Hs _].
  rewrite (IH p) by done. simpl. f_equal. lia.
Qed.
(** Consecutive blocks of a sorted list have consecutive ranks. *)
Lemma rank_succ ks i p q :
  StronglySorted Z.lt ks → rank ks i = Some p → rank ks (i + 1) = Some q → q = p + 1.
Proof.
  revert p q. induction ks as [|k ks IH]; intros p q Hs; simpl; [done|].
  apply StronglySorted_inv in Hs as [Hs Hk]. rewrite Forall_forall in Hk.
  destruct (Z.eqb_spec k i) as [Hi|Hi]; destruct (Z.eqb_spec k (i + 1)) as [E|Hi']; [lia| | |].
  1: subst k.
  - destruct ks as [|h ks]; [done|]. intros [= <-] Hq.
    destruct (rank (h :: ks) (i + 1)) as [q'|] eqn:Eq; [|done]. simplify_eq/=.
    assert (h = i + 1) as ->; [|rewrite Z.eqb_refl in Eq; simplify_eq; lia].
    specialize (Hk h ltac:(left)). destruct (Z.eqb_spec h (i + 1)) as [|Hne]; [done|].
    destruct (rank ks (i + 1)) as [r|] eqn:Er; [|done].
    apply rank_Some in Er as [_ Er%list_elem_of_lookup_2].
    apply StronglySorted_inv in Hs as [_ Hh]. rewrite Forall_forall in Hh.
    specialize (Hh _ Er). lia.
  - destruct (rank ks i) as [r|] eqn:Er; [|done].
    apply rank_Some in Er as [_ Er%list_elem_of_lookup_2]. specialize (Hk _ Er). lia.
  - destruct (rank ks i) as [r|]; [|done]. destruct (rank ks (i + 1)) as [r'|]; [|done].
    intros [= <-] [= <-]. rewrite (IH r r' Hs eq_refl eq_refl). lia.
Qed.

(** A block comes at or after its rank. *)
Lemma rank_le ks i p lo :
  StronglySorted Z.lt ks → Forall (λ k, lo ≤ k) ks → rank ks i = Some p → lo + p ≤ i.
Proof.
  revert lo p. induction ks as [|k ks IH]; intros lo p Hs Hl; simpl; [done|].
  apply StronglySorted_inv in Hs as [Hs Hk]. apply Forall_cons in Hl as [Hlo _].
  destruct (Z.eqb_spec k i) as [->|]; [by intros [= <-]; lia|].
  destruct (rank ks i) as [q|] eqn:E; [|done]. intros [= <-].
  assert (k + 1 + q ≤ i); [|lia]. apply IH; [done| |done].
  eapply Forall_impl; [exact Hk|]. simpl. lia.
Qed.

(** ** Storage that follows the device

    Two neighbouring bytes of the device that are stored in the same build
    (other than the null build, whose data is never read) are neighbours in its
    data.  This is what makes [NormalizeMappings] sound. *)
Definition coherent {ID} (nil : ID) (l : list (BuildMap ID)) : Prop :=
  ∀ off id s s', resolve l off = Some (id, s) → resolve l (off + 1) = Some (id, s') →
    id ≠ nil → s' = s + 1.

Section create_resolve.
Context {ID B : Type} `{BitSetLaws B}.
Context (buildId : ID) (b : B) (bs : Z).
Hypothesis bs_pos : 0 < bs.
Hypothesis fits : bs_len b * bs ≤ maxI64.

Lemma CreateMapping_resolve :
  ∃ l, CreateMapping buildId b bs = Some l ∧ sorted_from 0 l ∧ aligned bs l ∧
    ∀ i r, 0 ≤ r < bs →
      resolve l (i * bs + r) = (λ p, (buildId, p * bs + r)) <$> rank (set_bits b) i.
Proof.
  destruct (CreateMapping_structure buildId b bs) as (l & Hl & Hb & Hs & Ha & Hp & Hid); [done..|].
  exists l. split_and!; [done..|]. intros i r Hr.
  destruct (rank (set_bits b) i) as [p|] eqn:E.
  - apply rank_Some in E as [Hp0 E]. simpl.
    apply (packed_resolve bs bs_pos 0 l 0 p i r buildId); try done. by rewrite Hb.
  - apply rank_None in E. simpl. apply (packed_resolve_None bs bs_pos 0 l i r); try done.
    by rewrite Hb.
Qed.

Lemma CreateMapping_coherent nil l :
  CreateMapping buildId b bs = Some l → coherent nil l.
Proof.
  intros Hl. destruct CreateMapping_resolve as (l' & Hl' & _ & _ & Hr).
  rewrite Hl in Hl'. injection Hl' as <-. intros off id s s' H1 H2 _.
  assert (Hdiv : off = off / bs * bs + off mod bs) by (pose proof (Z.div_mod off bs); lia).
  pose proof (Z.mod_pos_bound off bs bs_pos) as Hm.
  set (i := off / bs) in *. set (r := off mod bs) in *. clearbody i r. subst off.
  rewrite Hr in H1 by done. destruct (rank _ i) as [p|] eqn:Ep; [|done]. simplify_eq/=.
  destruct (decide (r + 1 = bs)) as [E|E].
  - replace (i * bs + r + 1) with ((i + 1) * bs + 0) in H2 by lia.
    rewrite Hr in H2 by lia. destruct (rank _ (i + 1)) as [q|] eqn:Eq; [|done]. simplify_eq/=.
    rewrite (rank_succ _ i p q) by (done || apply set_bits_sorted). nia.
  - replace (i * bs + r + 1) with (i * bs + (r + 1)) in H2 by lia.
    rewrite Hr in H2 by lia. rewrite Ep in H2. simplify_eq/=. lia.
Qed.
End create_resolve.

(** ** Properties *)

(** [CreateMapping] returns sorted, block-aligned mappings of the build
    that map exactly the bytes of the dirty blocks, and the [p]-th dirty block
    (counted in increasing order) is block [p] of the build's data file. *)
Theorem CreateMapping_places {ID B : Type} `{BitSetLaws B} (buildId : ID) (b : B) (bs : Z) :
  0 < bs → bs_len b * bs ≤ maxI64 →
  ∃ l, CreateMapping buildId b bs = Some l ∧ sorted_from 0 l ∧ aligned bs l ∧
    ∀ i r, 0 ≤ r < bs →
      resolve l (i * bs + r) = (λ p, (buildId, p * bs + r)) <$> rank (set_bits b) i.
Proof. apply CreateMapping_resolve. Qed.

#[local] Existing Instances BoolBits.ops BoolBits.laws.

Lemma CreateMapping_places_witness :
  ∃ l, CreateMapping 7%nat [true; false; true; true] 4096 = Some l ∧
    resolve l (3 * 4096 + 5) = Some (7%nat, 2 * 4096 + 5).
Proof.
  destruct (CreateMapping_places 7%nat [true; false; true; true] 4096) as (l & Hl & _ & _ & Hr);
    [done|by vm_compute|].
  exists l. split; [exact Hl|]. rewrite Hr by lia. reflexivity.
Defined.
