(* ===== verification/Merge.v ===== *)
(** * Merging and normalizing mappings

    packages/shared/pkg/storage/header/[mapping.go]: [MergeMappings] lays the
    mappings of a diff over those of the build it was taken from,
    [NormalizeMappings] joins neighbouring mappings of one build.

    Pointers: both functions build new [BuildMap] values and never write through
    an input pointer ([MergeMappings] copies the slice before it replaces an
    element, [NormalizeMappings] copies a mapping before it adds to its length),
    so values model the slices of pointers. *)
From S2P Require Import Prelude Bitset Uuid Mapping.

Section merge.
Context {ID : Type}.
Implicit Types (m base diff : BuildMap ID) (l : list (BuildMap ID)).

Definition m_end m : Z := u64 (Offset m + Length m).

(** The part of [base] in front of [diff] and its (signed) length. *)
Definition leftBaseLength base diff : Z := i64 (i64 (Offset diff) - i64 (Offset base)).
Definition leftBase base diff : BuildMap ID :=
  mkBuildMap (Offset base) (u64 (leftBaseLength base diff)) (BuildId base)
    (BuildStorageOffset base).

(** The part of [base] behind [diff]. *)
Definition rightBaseShift base diff : Z :=
  i64 (i64 (i64 (Offset diff) + i64 (Length diff)) - i64 (Offset base)).
Definition rightBaseLength base diff : Z :=
  i64 (i64 (Length base) - rightBaseShift base diff).
Definition rightBase base diff : BuildMap ID :=
  mkBuildMap (u64 (Offset base + u64 (rightBaseShift base diff)))
    (u64 (rightBaseLength base diff)) (BuildId base)
    (u64 (BuildStorageOffset base + u64 (rightBaseShift base diff))).

(** [baseMapping[baseIdx] = rightBase] or [baseIdx++]. *)
Definition rest_of_base base diff l : list (BuildMap ID) :=
  if 0 <? rightBaseLength base diff then rightBase base diff :: l else l.

Definition left_of_base base diff : list (BuildMap ID) :=
  if 0 <? leftBaseLength base diff then [leftBase base diff] else [].

(** The loop; [baseMapping] and [diffMapping] are the slices from [baseIdx] and
    [diffIdx] on, [None] is running out of fuel. *)
Fixpoint merge_loop (fuel : nat) (baseMapping diffMapping mappings : list (BuildMap ID))
    : option (list (BuildMap ID)) :=
  match baseMapping, diffMapping with
  | base :: baseRest, diff :: diffRest =>
      match fuel with
      | O => None
      | S fuel =>
          if Length base =? 0 then merge_loop fuel baseRest diffMapping mappings
          else if Length diff =? 0 then merge_loop fuel baseMapping diffRest mappings
          (* base is before diff and there is no overlap *)
          else if m_end base <=? Offset diff then
            merge_loop fuel baseRest diffMapping (mappings ++ [base])
          (* diff is before base and there is no overlap *)
          else if m_end diff <=? Offset base then
            merge_loop fuel baseMapping diffRest (mappings ++ [diff])
          (* base is inside diff *)
          else if (Offset diff <=? Offset base) && (m_end base <=? m_end diff) then
            merge_loop fuel baseRest diffMapping mappings
          (* diff is inside base *)
          else if (Offset base <=? Offset diff) && (m_end diff <=? m_end base) then
            merge_loop fuel (rest_of_base base diff baseRest) diffRest
              ((mappings ++ left_of_base base diff) ++ [diff])
          (* base is after diff and there is overlap *)
          else if Offset diff <? Offset base then
            merge_loop fuel (rest_of_base base diff baseRest) diffRest (mappings ++ [diff])
          (* diff is after base and there is overlap *)
          else if Offset base <? Offset diff then
            merge_loop fuel baseRest diffMapping (mappings ++ left_of_base base diff)
          (* invalid case: nothing advances *)
          else merge_loop fuel baseMapping diffMapping mappings
      end
  | _, _ => Some ((mappings ++ baseMapping) ++ diffMapping)
  end.

Definition MergeMappings (baseMapping diffMapping : list (BuildMap ID))
    : option (list (BuildMap ID)) :=
  match diffMapping with
  | [] => Some baseMapping
  | _ => merge_loop (length baseMapping + length diffMapping) baseMapping diffMapping []
  end.

(** *** NormalizeMappings *)
Context `{EqDecision ID}.

Definition extend m (n : Z) : BuildMap ID :=
  mkBuildMap (Offset m) (u64 (Length m + n)) (BuildId m) (BuildStorageOffset m).

Fixpoint normalize_loop (current : BuildMap ID) l (result : list (BuildMap ID))
    : list (BuildMap ID) :=
  match l with
  | [] => result ++ [current]
  | mp :: l =>
      if decide (BuildId mp ≠ BuildId current) then
        normalize_loop (Copy mp) l (result ++ [current])
      else normalize_loop (extend current (Length mp)) l result
  end.

Definition NormalizeMappings (mappings : list (BuildMap ID)) : list (BuildMap ID) :=
  match mappings with
  | [] => []
  | m :: l => normalize_loop (Copy m) l []
  end.
End merge.

(** ** Termination

    Every iteration drops a mapping of one of the two lists; the branch the
    source calls the "invalid case", which would loop forever, is never taken. *)
Section termination.
Context {ID : Type}.
Implicit Types (base diff : BuildMap ID) (l : list (BuildMap ID)).

Lemma length_rest_of_base base diff l : (length (rest_of_base base diff l) ≤ S (length l))%nat.
Proof. unfold rest_of_base. case_Z; simpl; lia. Qed.

Lemma merge_loop_total fuel (bases diffs acc : list (BuildMap ID)) :
  (length bases + length diffs ≤ fuel)%nat → is_Some (merge_loop fuel bases diffs acc).
Proof.
  revert bases diffs acc. induction fuel as [|fuel IH]; intros bases diffs acc Hf.
  { destruct bases, diffs; simpl in *; try lia; eauto. }
  destruct bases as [|base bases], diffs as [|diff diffs]; simpl in *; [eauto..|].
  (* in the invalid case the comparisons contradict each other *)
  repeat case_match; apply IH; pose proof (length_rest_of_base base diff bases); simpl; lia.
Qed.
End termination.

(** ** What a merge means

    [overlay d b]: a byte comes from the diff when the diff maps it, else from
    the base. *)
Section merge_spec.
Context {ID : Type}.
Implicit Types (m base diff : BuildMap ID) (l bases diffs acc : list (BuildMap ID)).

Definition overlay (d b : option (ID * Z)) : option (ID * Z) :=
  match d with Some r => Some r | None => b end.

Lemma m_end_eq m : wf_map m → m_end m = End m.
Proof. unfold wf_map, m_end, End, maxI64. intros. by rewrite u64_small by lia. Qed.

Lemma leftBaseLength_eq base diff :
  wf_map base → wf_map diff → leftBaseLength base diff = Offset diff - Offset base.
Proof. unfold wf_map, leftBaseLength, End, maxI64. intros. by unwrap. Qed.

Lemma rightBaseShift_eq base diff :
  wf_map base → wf_map diff → rightBaseShift base diff = End diff - Offset base.
Proof. unfold wf_map, rightBaseShift, End, maxI64. intros. by unwrap. Qed.

Lemma rightBaseLength_eq base diff :
  wf_map base → wf_map diff → rightBaseLength base diff = End base - End diff.
Proof.
  intros Hb Hd. unfold rightBaseLength. rewrite rightBaseShift_eq by done.
  unfold wf_map, End, maxI64 in *. unwrap. lia.
Qed.

(** The left part of [base] is its restriction to the bytes before [diff]. *)
Lemma left_of_base_spec base diff lo :
  wf_map base → wf_map diff → lo ≤ Offset base → Offset diff < End base →
  sorted_from lo (left_of_base base diff) ∧
  Forall (λ m, End m ≤ Offset diff) (left_of_base base diff) ∧
  (∀ off, resolve (left_of_base base diff) off =
    if decide (off < Offset diff) then resolve [base] off else None) ∧
  (∀ bs, aligned bs [base] → aligned bs [diff] → aligned bs (left_of_base base diff)).
Proof.
  intros Hb Hd Hlo Ho. unfold left_of_base, leftBase. rewrite leftBaseLength_eq by done.
  unfold wf_map, maxI64, End in *.
  destruct (Z.ltb_spec 0 (Offset diff - Offset base)); [rewrite u64_small by lia|]; split_and!.
  - simpl. unfold wf_map, End, maxI64. simpl. split_and!; lia.
  - constructor; [|constructor]. simpl. lia.
  - intros off. rewrite !resolve_cons. unfold End. simpl. repeat case_decide; try done; lia.
  - intros bs [[? _] _]%Forall_cons [[? _] _]%Forall_cons.
    constructor; [|constructor]. simpl. split; [done|]. by apply Z.divide_sub_r.
  - done.
  - constructor.
  - intros off. rewrite resolve_cons. unfold End. repeat case_decide; try done; lia.
  - intros. constructor.
Qed.

(** The right part of [base] is its restriction to the bytes behind [diff]. *)
Lemma rest_of_base_spec base diff l :
  wf_map base → wf_map diff → Offset base < End diff ≤ End base →
  sorted_from (End base) l → sorted_from (End diff) (rest_of_base base diff l).
Proof.
  intros Hb Hd Ho Hs. unfold rest_of_base, rightBase.
  rewrite rightBaseLength_eq, rightBaseShift_eq by done.
  destruct (Z.ltb_spec 0 (End base - End diff)); [|by replace (End diff) with (End base) by lia].
  unfold wf_map, maxI64, End in *. unwrap. simpl.
  unfold wf_map, maxI64, End. simpl. split_and!; try lia.
  replace (Offset base + (Offset diff + Length diff - Offset base) +
    (Offset base + Length base - (Offset diff + Length diff))) with
    (Offset base + Length base) by lia. done.
Qed.

Lemma aligned_rest_of_base base diff l bs :
  wf_map base → wf_map diff → Offset base < End diff ≤ End base →
  aligned bs (base :: l) → aligned bs [diff] → aligned bs (rest_of_base base diff l).
Proof.
  intros Hb Hd Ho [[? ?] Ha]%Forall_cons [[? ?] _]%Forall_cons.
  unfold rest_of_base, rightBase. rewrite rightBaseLength_eq, rightBaseShift_eq by done.
  destruct (Z.ltb_spec 0 (End base - End diff)); [|done].
  unfold wf_map, maxI64, End in *. unwrap. constructor; [|done]. simpl.
  split; auto using Z.divide_add_r, Z.divide_sub_r.
Qed.

Lemma resolve_rest_of_base base diff l off :
  wf_map base → wf_map diff → Offset base < End diff ≤ End base → End diff ≤ off →
  resolve (rest_of_base base diff l) off = resolve (base :: l) off.
Proof.
  intros Hb Hd Ho Hoff. unfold rest_of_base, rightBase.
  rewrite rightBaseLength_eq, rightBaseShift_eq by done.
  unfold wf_map, maxI64, End in *.
  destruct (Z.ltb_spec 0 (Offset base + Length base - (Offset diff + Length diff))).
  - unwrap. rewrite !resolve_cons. unfold End. simpl.
    repeat case_decide; try done; try lia. do 2 f_equal. lia.
  - rewrite resolve_cons. unfold End. case_decide; [lia|done].
Qed.

(** [out] is the merge of [diffs] over [bases], from [lo] on. *)
Definition merged (lo : Z) bases diffs l : Prop :=
  sorted_from lo l ∧
  (∀ off, resolve l off = overlay (resolve diffs off) (resolve bases off)) ∧
  (∀ bs, aligned bs bases → aligned bs diffs → aligned bs l).

Lemma merged_nil_base lo diffs : sorted_from lo diffs → merged lo [] diffs diffs.
Proof. intros. split_and!; [done|intros; simpl; by destruct (resolve _ _)|done]. Qed.
Lemma merged_nil_diff lo bases : sorted_from lo bases → merged lo bases [] bases.
Proof. intros. split_and!; done. Qed.

Lemma sorted_from_app lo mid l1 l2 :
  sorted_from lo l1 → Forall (λ m, End m ≤ mid) l1 → lo ≤ mid →
  sorted_from mid l2 → sorted_from lo (l1 ++ l2).
Proof.
  revert lo. induction l1 as [|m l1 IH]; intros lo; simpl; [by eauto with e2b|].
  intros (? & ? & ?) [? ?]%Forall_cons ? ?. split_and!; try done. by apply IH.
Qed.

Lemma resolve_at_or_above lo l off :
  sorted_from lo l → is_Some (resolve l off) → lo ≤ off.
Proof.
  intros Hs [r Hr]. destruct (decide (lo ≤ off)); [done|].
  rewrite (resolve_below lo) in Hr by (done || lia). done.
Qed.

(** *** One lemma per branch of the loop *)
Section branches.
Context (lo : Z) (base diff : BuildMap ID) (bases diffs out : list (BuildMap ID)).
Hypothesis sorted_base : sorted_from lo (base :: bases).
Hypothesis sorted_diff : sorted_from lo (diff :: diffs).

Lemma branch_base_before :
  End base ≤ Offset diff → merged (End base) bases (diff :: diffs) out →
  merged lo (base :: bases) (diff :: diffs) (base :: out).
Proof.
  destruct sorted_base as (? & ? & ?), sorted_diff as (? & ? & Hds).
  intros He (Hs & Hr & Ha). split_and!.
  - done.
  - intros off. rewrite !(resolve_cons base), Hr. case_decide; [|done].
    rewrite (resolve_below (Offset diff)); [done| |lia]. by split_and!.
  - intros bs Hb Hd. apply Forall_cons in Hb as [? ?]. constructor; [done|]. by apply Ha.
Qed.

Lemma branch_diff_before :
  End diff ≤ Offset base → merged (End diff) (base :: bases) diffs out →
  merged lo (base :: bases) (diff :: diffs) (diff :: out).
Proof.
  destruct sorted_base as (? & ? & ?), sorted_diff as (? & ? & ?).
  intros He (Hs & Hr & Ha). split_and!.
  - done.
  - intros off. rewrite !(resolve_cons diff), Hr. by case_decide.
  - intros bs Hb Hd. apply Forall_cons in Hd as [? ?]. constructor; [done|]. by apply Ha.
Qed.

Lemma branch_base_inside :
  Offset diff ≤ Offset base → End base ≤ End diff → merged lo bases (diff :: diffs) out →
  merged lo (base :: bases) (diff :: diffs) out.
Proof.
  intros ? ? (Hs & Hr & Ha). split_and!; [done| |].
  - intros off. rewrite Hr, !(resolve_cons diff), (resolve_cons base).
    repeat case_decide; try done. lia.
  - intros bs Hb Hd. apply Forall_cons in Hb as [? ?]. by apply Ha.
Qed.

Lemma branch_split :
  Offset diff < End base → Offset base < End diff ≤ End base →
  merged (End diff) (rest_of_base base diff bases) diffs out →
  merged lo (base :: bases) (diff :: diffs) (left_of_base base diff ++ diff :: out).
Proof.
  destruct sorted_base as (? & Hb & ?), sorted_diff as (? & Hd & ?).
  intros ? ? (Hs & Hr & Ha).
  destruct (left_of_base_spec base diff lo) as (Hl1 & Hl2 & Hl3 & Hl4); [done..|].
  split_and!.
  - apply (sorted_from_app lo (Offset diff)); [done..|]. by split_and!.
  - intros off. rewrite resolve_app, Hl3, !(resolve_cons diff), Hr.
    destruct (decide (off < Offset diff)) as [E|E].
    + rewrite !(decide_False (P := Offset diff ≤ off < End diff)) by lia.
      rewrite (resolve_below (End diff) diffs) by (done || unfold wf_map, End in *; lia).
      rewrite !resolve_cons. case_decide; [done|]. simpl.
      rewrite (resolve_below (End diff)); [|by apply rest_of_base_spec|unfold wf_map, End in *; lia].
      by rewrite (resolve_below (End base) bases) by (done || lia).
    + case_decide; [done|]. rewrite resolve_rest_of_base by (done || lia). done.
  - intros bs Hab Had. apply Forall_app. split.
    + apply Forall_cons in Hab as [? _], Had as [? _]. apply Hl4; by constructor.
    + apply Forall_cons in Had as Had'. destruct Had' as [? ?]. constructor; [done|].
      apply Ha; [|done]. apply aligned_rest_of_base; try done. constructor; [done|constructor].
Qed.

Lemma branch_diff_after :
  Offset base < Offset diff < End base → End base < End diff →
  merged (Offset diff) bases (diff :: diffs) out →
  merged lo (base :: bases) (diff :: diffs) (left_of_base base diff ++ out).
Proof.
  destruct sorted_base as (? & Hb & ?), sorted_diff as (? & Hd & ?).
  intros ? ? (Hs & Hr & Ha).
  destruct (left_of_base_spec base diff lo) as (Hl1 & Hl2 & Hl3 & Hl4); [done..|lia|].
  split_and!.
  - by apply (sorted_from_app lo (Offset diff)).
  - intros off. rewrite resolve_app, Hl3, Hr, !(resolve_cons diff), !(resolve_cons base).
    destruct (decide (off < Offset diff)) as [E|E].
    + rewrite !(decide_False (P := Offset diff ≤ off < End diff)) by lia.
      rewrite (resolve_below (End diff) diffs) by (done || unfold wf_map, End in *; lia).
      by case_decide.
    + repeat case_decide; try done. lia.
  - intros bs Hab Had. apply Forall_app. split.
    + apply Forall_cons in Hab as [? _], Had as [? _]. apply Hl4; by constructor.
    + apply Ha; [|done]. by apply Forall_cons in Hab as [? ?].
Qed.
End branches.

Lemma merge_loop_spec fuel lo bases diffs acc r :
  sorted_from lo bases → sorted_from lo diffs → merge_loop fuel bases diffs acc = Some r →
  ∃ out, r = acc ++ out ∧ merged lo bases diffs out.
Proof.
  revert lo bases diffs acc. induction fuel as [|fuel IH]; intros lo bases diffs acc Hb Hd.
  { destruct bases; simpl; [|destruct diffs; simpl; [|done]]; intros [= <-]; rewrite app_nil_r;
      rewrite ?app_nil_r; eauto using merged_nil_base, merged_nil_diff. }
  destruct bases as [|base bases]; simpl.
  { intros [= <-]. rewrite app_nil_r. eauto using merged_nil_base. }
  destruct diffs as [|diff diffs]; simpl.
  { intros [= <-]. rewrite app_nil_r. eauto using merged_nil_diff. }
  pose proof Hb as (? & Hwb & Hsb). pose proof Hd as (? & Hwd & Hsd).
  rewrite !m_end_eq by done.
  assert (Length base ≠ 0 ∧ Length diff ≠ 0) as [? ?] by (unfold wf_map in *; lia).
  destruct (Z.eqb_spec (Length base) 0); [lia|]. destruct (Z.eqb_spec (Length diff) 0); [lia|].
  assert (Offset base < End base ∧ Offset diff < End diff) as [? ?]
    by (unfold wf_map, End in *; lia).
  assert (∀ lo', lo' ≤ Offset base → sorted_from lo' (base :: bases)) by (intros; by split_and!).
  assert (∀ lo', lo' ≤ Offset diff → sorted_from lo' (diff :: diffs)) as Hdiff' by (intros; by split_and!).
  assert (∀ lo', lo' ≤ End base → sorted_from lo' bases) as Hsb'
    by (intros; by apply (sorted_from_weaken (End base))).
  repeat case_match; rewrite ?andb_true_iff, ?andb_false_iff, ?Z.leb_le, ?Z.leb_gt,
    ?Z.ltb_lt, ?Z.ltb_ge in *; intros Hr.
  - destruct (IH (End base) _ _ _ Hsb ltac:(auto) Hr) as (out & -> & ?). exists (base :: out).
    rewrite app_nil_cons_eq. by eauto using branch_base_before.
  - destruct (IH (End diff) _ _ _ ltac:(auto) Hsd Hr) as (out & -> & ?). exists (diff :: out).
    rewrite app_nil_cons_eq. by eauto using branch_diff_before.
  - destruct (IH lo _ _ _ (Hsb' lo ltac:(lia)) Hd Hr) as (out & -> & ?).
    exists out. split; [done|]. apply branch_base_inside; try done; lia.
  - destruct (IH (End diff) _ _ _ (rest_of_base_spec _ _ _ Hwb Hwd ltac:(lia) Hsb) Hsd Hr)
      as (out & -> & ?). exists (left_of_base base diff ++ diff :: out).
    rewrite app_nil_cons_eq, <-app_assoc. split; [done|]. apply branch_split; try done; lia.
  - destruct (IH (End diff) _ _ _ (rest_of_base_spec _ _ _ Hwb Hwd ltac:(lia) Hsb) Hsd Hr)
      as (out & -> & ?). exists (left_of_base base diff ++ diff :: out).
    rewrite app_nil_cons_eq. split; [|apply branch_split; try done; lia].
    unfold left_of_base. rewrite leftBaseLength_eq by done.
    by destruct (Z.ltb_spec 0 (Offset diff - Offset base)); [lia|].
  - destruct (IH (Offset diff) _ _ _ (Hsb' (Offset diff) ltac:(lia)) (Hdiff' (Offset diff) ltac:(lia)) Hr)
      as (out & -> & ?). exists (left_of_base base diff ++ out).
    rewrite app_assoc. split; [done|]. apply branch_diff_after; try done; lia.
  - lia.
Qed.

Lemma MergeMappings_merged bases diffs :
  sorted_from 0 bases → sorted_from 0 diffs →
  ∃ r, MergeMappings bases diffs = Some r ∧ merged 0 bases diffs r.
Proof.
  intros Hb Hd. unfold MergeMappings. destruct diffs as [|diff diffs].
  { eauto using merged_nil_diff. }
  destruct (merge_loop_total (length bases + length (diff :: diffs)) bases (diff :: diffs) [])
    as [r Hr]; [lia|].
  destruct (merge_loop_spec _ 0 _ _ _ _ Hb Hd Hr) as (out & -> & ?). eauto.
Qed.
End merge_spec.

(** ** What normalization means

    The data of the null build is never read, so two readings of a byte that
    both name the null build are the same: [canon] forgets the position there. *)
Section canon.
Context {ID : Type} `{EqDecision ID} (nil : ID).
Implicit Types (m : BuildMap ID) (l : list (BuildMap ID)).

Definition canon (r : option (ID * Z)) : option (ID * Z) :=
  match r with
  | Some (id, s) => Some (id, if decide (id = nil) then 0 else s)
  | None => None
  end.

Lemma canon_is_Some r : is_Some (canon r) ↔ is_Some r.
Proof. destruct r as [[]|]; simpl; [by split; eauto|done]. Qed.

Lemma canon_Some_inv r r' id s :
  canon r = canon r' → r = Some (id, s) → id ≠ nil → r' = Some (id, s).
Proof.
  intros Hc -> Hid. destruct r' as [[id' s']|]; simpl in *; [|done].
  rewrite decide_False in Hc by done. injection Hc as <- Hs.
  by rewrite decide_False in Hs by done; subst.
Qed.

(** Stored no later than mapped: block [p] of a diff is at least block [p] of
    the device. *)
Definition dense l : Prop := ∀ off id s, resolve l off = Some (id, s) → s ≤ off.

Lemma coherent_canon l l' :
  (∀ off, canon (resolve l off) = canon (resolve l' off)) → coherent nil l' → coherent nil l.
Proof.
  intros Hc Hcoh off id s s' H1 H2 Hid.
  eapply Hcoh; [|by apply (canon_Some_inv (resolve l (off + 1)))|done].
  by apply (canon_Some_inv (resolve l off)).
Qed.

Lemma resolve_tail lo m l off r :
  sorted_from lo (m :: l) → resolve l off = Some r → resolve (m :: l) off = Some r.
Proof.
  intros (_ & _ & Hs) Hr. rewrite resolve_cons, decide_False; [done|].
  assert (End m ≤ off) by (apply (resolve_at_or_above (End m) l); eauto). lia.
Qed.

Lemma dense_tail lo m l : sorted_from lo (m :: l) → dense (m :: l) → dense l.
Proof. intros Hs Hd off id s Hr. eapply Hd, resolve_tail; eauto. Qed.
Lemma coherent_tail lo m l : sorted_from lo (m :: l) → coherent nil (m :: l) → coherent nil l.
Proof. intros Hs Hc off id s s' H1 H2. eapply Hc; eapply resolve_tail; eauto. Qed.

Lemma dense_head lo m l : sorted_from lo (m :: l) → dense (m :: l) → BuildStorageOffset m ≤ Offset m.
Proof.
  intros (_ & (? & ? & ?) & _) Hd. apply (Hd (Offset m) (BuildId m)).
  rewrite resolve_cons, decide_True by (unfold End; lia). do 2 f_equal. lia.
Qed.

Lemma coherent_overlay bases diffs l lo :
  merged lo bases diffs l → coherent nil bases → coherent nil diffs →
  (∀ o o' id s s', resolve diffs o = Some (id, s) → resolve bases o' = Some (id, s') → id = nil) →
  coherent nil l.
Proof.
  intros (_ & Hr & _) Hb Hd Hids off id s s' H1 H2 Hid. rewrite Hr in H1, H2.
  destruct (resolve diffs off) as [r1|] eqn:E1, (resolve diffs (off + 1)) as [r2|] eqn:E2;
    simplify_eq/=; eauto; exfalso; eauto.
Qed.

Lemma dense_overlay bases diffs l lo :
  merged lo bases diffs l → dense bases → dense diffs → dense l.
Proof.
  intros (_ & Hr & _) Hb Hd off id s H1. rewrite Hr in H1.
  destruct (resolve diffs off) as [r|] eqn:E; simplify_eq/=; eauto.
Qed.

Fixpoint separated l : Prop :=
  match l with
  | [] => True
  | m :: l => (BuildId <$> head l) ≠ Some (BuildId m) ∧ separated l
  end.

(** Extending a mapping over the next one of the same build. *)
Lemma extend_spec lo hi m n l bs :
  sorted_from lo (m :: n :: l) → contig (Offset m) (m :: n :: l) hi →
  dense (m :: n :: l) → coherent nil (m :: n :: l) → BuildId n = BuildId m →
  let l' := extend m (Length n) :: l in
  sorted_from lo l' ∧ contig (Offset m) l' hi ∧ dense l' ∧
  (∀ off, canon (resolve l' off) = canon (resolve (m :: n :: l) off)) ∧
  (aligned bs (m :: n :: l) → aligned bs l').
Proof.
  intros Hs Hc Hd Hcoh Hid l'. pose proof (dense_head lo m _ Hs Hd) as Hm.
  pose proof Hs as (Hlo & Hwm & Hon & Hwn & Hsl). pose proof Hc as (_ & Hcn & Hcl).
  assert (extend m (Length n) =
    mkBuildMap (Offset m) (Length m + Length n) (BuildId m) (BuildStorageOffset m)) as He.
  { unfold extend. f_equal. unfold wf_map, End, maxI64 in *. apply u64_small. lia. }
  assert (End (extend m (Length n)) = End n) as Hend by (rewrite He; unfold End in *; simpl; lia).
  assert (sorted_from lo l') as Hs'.
  { subst l'. simpl. rewrite Hend. rewrite He. unfold wf_map, End, maxI64 in *. simpl.
    split_and!; done || lia. }
  split_and!; [done| | | |].
  - subst l'. simpl. by rewrite Hend.
  - intros off id s. subst l'. rewrite resolve_cons, Hend. case_decide.
    + rewrite He. intros [= <- <-]. simpl. lia.
    + intros Hr. eapply Hd. eapply (resolve_tail lo); [done|].
      eapply (resolve_tail (End m)); [|done]. apply Hs.
  - intros off. subst l'. rewrite !resolve_cons, Hend. rewrite He. simpl.
    repeat case_decide; unfold wf_map, End in *; try done; try lia.
    rewrite Hid. simpl. repeat case_decide; try done. do 2 f_equal.
    assert (BuildStorageOffset n = (BuildStorageOffset m + (Offset m + Length m - 1 - Offset m)) + 1); [|lia].
    apply (Hcoh (Offset m + Length m - 1) (BuildId m)); [| |done].
    + by rewrite resolve_cons, decide_True by (unfold End; lia).
    + rewrite !resolve_cons. unfold End. rewrite decide_False, decide_True by lia.
      rewrite Hid. do 2 f_equal. lia.
  - intros [[? ?] [[? ?] ?]%Forall_cons]%Forall_cons. constructor; [|done].
    rewrite He. simpl. split; [done|]. by apply Z.divide_add_r.
Qed.

Definition normalized lo hi l out : Prop :=
  sorted_from lo out ∧ contig lo out hi ∧ dense out ∧ separated out ∧
  (∀ off, canon (resolve out off) = canon (resolve l off)) ∧
  (∀ bs, aligned bs l → aligned bs out).

Lemma normalize_loop_spec cur l res hi :
  sorted_from (Offset cur) (cur :: l) → contig (Offset cur) (cur :: l) hi →
  dense (cur :: l) → coherent nil (cur :: l) →
  ∃ out, normalize_loop cur l res = res ++ out ∧ (BuildId <$> head out) = Some (BuildId cur) ∧
    normalized (Offset cur) hi (cur :: l) out.
Proof.
  revert cur res. induction l as [|n l IH]; intros cur res Hs Hc Hd Hcoh; simpl normalize_loop.
  - exists [cur]. split_and!; done.
  - case_decide as Hid; [|].
    + pose proof Hs as (? & ? & Hs'). pose proof Hc as (? & Hcn & Hc').
      assert (sorted_from (Offset n) (n :: l)) by by rewrite Hcn.
      destruct (IH (Copy n) (res ++ [cur])) as (out & -> & Hh & Hs1 & Hc1 & Hd1 & Hsep & Hr & Ha).
      all: replace (Copy n) with n in * by by destruct n.
      all: eauto using dense_tail, coherent_tail.
      { by split. }
      exists (cur :: out). rewrite app_nil_cons_eq. split; [done|]. split; [done|].
      rewrite Hcn in *. split; [by split_and!|]. split; [done|]. split_and!; try done.
      { intros off id s. rewrite resolve_cons. case_decide; [|apply Hd1].
        intros [= <- <-]. pose proof (dense_head _ _ _ Hs Hd). lia. }
      { simpl. rewrite Hh. split; [congruence|done]. }
      { intros off. rewrite !(resolve_cons cur). by case_decide. }
      { intros bs [? ?]%Forall_cons. constructor; [done|]. by apply Ha. }
    + destruct (extend_spec (Offset cur) hi cur n l 1) as (Hs' & Hc' & Hd' & Hr' & _); [done..|].
      destruct (IH (extend cur (Length n)) res) as (out & -> & Hh & Hs1 & Hc1 & Hd1 & Hsep & Hr & Ha);
        [done|done|done|by eapply coherent_canon|].
      exists out. split; [done|]. split; [done|]. unfold normalized. split_and!; try done.
      * intros off. by rewrite Hr, Hr'.
      * intros bs Hal. apply Ha. by apply (extend_spec (Offset cur) hi cur n l bs).
Qed.

Lemma NormalizeMappings_normalized l hi :
  0 ≤ hi → sorted_from 0 l → contig 0 l hi → dense l → coherent nil l →
  normalized 0 hi l (NormalizeMappings l).
Proof.
  intros Hhi Hs Hc Hd Hcoh. destruct l as [|m l]; simpl.
  { by split_and!. }
  replace (Copy m) with m by by destruct m.
  assert (Offset m = 0) as H0 by apply Hc.
  destruct (normalize_loop_spec m l [] hi) as (out & -> & _ & Hn); [by rewrite H0..|done|done|].
  by rewrite H0 in Hn.
Qed.
End canon.

(** ** Properties *)

(** [MergeMappings] returns for every pair of lists, even for lists that
    are unsorted, overlap or wrap around: the loop never reaches its "invalid
    case", in which it would make no progress. *)
Theorem MergeMappings_terminates {ID} (bases diffs : list (BuildMap ID)) :
  is_Some (MergeMappings bases diffs).
Proof. unfold MergeMappings. destruct diffs; [eauto|]. by apply merge_loop_total. Qed.

(** Merging the sorted mappings of a diff over those of a base gives a
    sorted list in which each byte is stored where the diff says, and where the
    base says when the diff does not map it; block alignment is kept. *)
Theorem MergeMappings_overlay {ID} (bases diffs : list (BuildMap ID)) (bs : Z) :
  sorted_from 0 bases → sorted_from 0 diffs → aligned bs bases → aligned bs diffs →
  ∃ r, MergeMappings bases diffs = Some r ∧ sorted_from 0 r ∧ aligned bs r ∧
    ∀ off, resolve r off = overlay (resolve diffs off) (resolve bases off).
Proof.
  intros Hb Hd Hab Had. destruct (MergeMappings_merged bases diffs) as (r & Hr & Hs & Ho & Ha); eauto 7.
Qed.

Definition ex_base : list (BuildMap nat) :=
  [mkBuildMap 0 16384 1%nat 0; mkBuildMap 16384 8192 2%nat 4096].
Definition ex_diff : list (BuildMap nat) :=
  [mkBuildMap 4096 4096 3%nat 0; mkBuildMap 12288 8192 3%nat 4096].

Lemma aligned_dec_ok bs (l : list (BuildMap nat)) :
  Forall (λ m, Offset m mod bs = 0 ∧ Length m mod bs = 0) l → bs ≠ 0 → aligned bs l.
Proof.
  intros Hl Hbs. eapply Forall_impl; [exact Hl|]. simpl. intros m [? ?].
  split; by apply Z.mod_divide.
Qed.

Lemma ex_sorted : sorted_from 0 ex_base ∧ sorted_from 0 ex_diff.
Proof. unfold ex_base, ex_diff, sorted_from, wf_map, End, maxI64; simpl; lia. Qed.
Lemma ex_aligned : aligned 4096 ex_base ∧ aligned 4096 ex_diff.
Proof. split; apply aligned_dec_ok; try done; repeat constructor. Qed.

Lemma MergeMappings_overlay_witness :
  ∃ r, MergeMappings ex_base ex_diff = Some r ∧
    resolve r 5000 = Some (3%nat, 904) ∧ resolve r 9000 = Some (1%nat, 9000) ∧
    resolve r 20480 = Some (2%nat, 8192).
Proof.
  destruct (MergeMappings_overlay ex_base ex_diff 4096) as (r & Hr & _ & _ & Ho);
    [apply ex_sorted|apply ex_sorted|apply ex_aligned|apply ex_aligned|].
  exists r. split; [exact Hr|]. rewrite !Ho. clear. by vm_compute.
Defined.

(** When the base covers the device without a gap and the diff maps only
    bytes of the device, the merge covers the device without a gap. *)
Theorem MergeMappings_covers {ID} (bases diffs : list (BuildMap ID)) (size : Z) :
  0 ≤ size → sorted_from 0 bases → contig 0 bases size → sorted_from 0 diffs →
  Forall (λ m, End m ≤ size) diffs →
  ∃ r, MergeMappings bases diffs = Some r ∧ contig 0 r size.
Proof.
  intros Hsz Hb Hc Hd Hin.
  destruct (MergeMappings_merged bases diffs) as (r & Hr & Hs & Ho & _); [done..|].
  exists r. split; [done|]. apply sorted_cover_contig; [done..|]. intros off Hoff.
  rewrite Ho. destruct (resolve diffs off) as [x|] eqn:E; simpl.
  - apply resolve_Some_elem in E as (m & Hm & ? & _). rewrite Forall_forall in Hin.
    specialize (Hin m Hm). split; [lia|eauto].
  - rewrite (contig_cover 0 bases size) by done. lia.
Qed.

Lemma MergeMappings_covers_witness :
  ∃ r, MergeMappings ex_base ex_diff = Some r ∧ contig 0 r 24576.
Proof.
  apply MergeMappings_covers; [lia|apply ex_sorted|by vm_compute|apply ex_sorted|].
  repeat constructor; by vm_compute.
Defined.

(** Normalizing a gapless list keeps every byte of the device on the same
    build and position (positions in the null build, which are never read, may
    change), keeps the list gapless and aligned, and leaves no two neighbours of
    the same build - provided neighbouring bytes of one build are neighbours in
    its data, which holds for the lists the code normalizes. *)
Theorem NormalizeMappings_preserves {ID} `{EqDecision ID} (nil : ID) (l : list (BuildMap ID)) (hi bs : Z) :
  0 ≤ hi → sorted_from 0 l → contig 0 l hi → dense l → coherent nil l → aligned bs l →
  let r := NormalizeMappings l in
  sorted_from 0 r ∧ contig 0 r hi ∧ aligned bs r ∧ separated r ∧
  ∀ off, canon nil (resolve r off) = canon nil (resolve l off).
Proof.
  intros ? ? ? ? ? Ha. destruct (NormalizeMappings_normalized nil l hi) as (? & ? & ? & ? & ? & Hal);
    eauto 10.
Qed.

Definition ex_split : list (BuildMap nat) :=
  [mkBuildMap 0 4096 1%nat 0; mkBuildMap 4096 4096 1%nat 4096; mkBuildMap 8192 4096 0%nat 0;
   mkBuildMap 12288 4096 0%nat 0].

Lemma ex_split_resolve off r :
  resolve ex_split off = Some r →
  (0 ≤ off < 8192 ∧ r = (1%nat, off)) ∨ (8192 ≤ off < 16384 ∧ r.1 = 0%nat ∧ r.2 ≤ off).
Proof.
  unfold ex_split. rewrite !resolve_cons. unfold End. simpl.
  repeat case_decide; intros [= <-]; simpl; [left|left|right|right]; split_lia; f_equal; lia.
Qed.

Lemma NormalizeMappings_preserves_witness :
  NormalizeMappings ex_split = [mkBuildMap 0 8192 1%nat 0; mkBuildMap 8192 8192 0%nat 0] ∧
  contig 0 (NormalizeMappings ex_split) 16384.
Proof.
  split; [reflexivity|].
  apply (NormalizeMappings_preserves 0%nat ex_split 16384 4096).
  - lia.
  - unfold ex_split, sorted_from, wf_map, End, maxI64; simpl; lia.
  - by vm_compute.
  - intros off id s Hr. apply ex_split_resolve in Hr as [[? [= -> ->]]|(? & ? & ?)]; simpl in *; lia.
  - intros off id s s' H1 H2 Hid.
    apply ex_split_resolve in H1 as [[? [= -> ->]]|(? & ? & ?)]; simpl in *; [|done].
    apply ex_split_resolve in H2 as [[? [= ->]]|(? & ? & ?)]; simpl in *; done.
  - apply aligned_dec_ok; [repeat constructor|done].
Defined.
