(* ===== verification/Header.v ===== *)
(** * Headers

    packages/shared/pkg/storage/header: [Metadata] of [serialization.go],
    [header.go], [ValidateMappings], [Equal] and [Layers] of [inspect.go],
    [DiffMetadata] of [metadata.go].

    A header says, for every block of a virtual device, which build stores it
    and where.  [GetShiftedMapping] answers that question for one offset through
    the index [blockStarts]/[startMap]; the answer is compared with [resolve].
    Log and trace calls are left out. *)
From S2P Require Import Prelude Bitset Uuid Mapping Merge.

(** ** Data *)
Definition metadataVersion : Z := 3.
Definition NormalizeFixVersion : Z := 3.

Record Metadata (ID : Type) := mkMetadata {
  Version : Z;
  BlockSize : Z;
  Size : Z;
  Generation : Z;
  MetaBuildId : ID;   (** [BuildId] *)
  BaseBuildId : ID;
}.
Arguments mkMetadata {ID}.
Arguments Version {ID}.
Arguments BlockSize {ID}.
Arguments Size {ID}.
Arguments Generation {ID}.
Arguments MetaBuildId {ID}.
Arguments BaseBuildId {ID}.

#[export] Instance Metadata_eq_dec {ID} `{EqDecision ID} : EqDecision (Metadata ID).
Proof. solve_decision. Defined.

Record Header (ID B : Type) := mkHeader {
  HMetadata : Metadata ID;   (** [Metadata] *)
  blockStarts : B;
  startMap : gmap Z (BuildMap ID);
  HMapping : list (BuildMap ID);   (** [Mapping] *)
}.
Arguments mkHeader {ID B}.
Arguments HMetadata {ID B}.
Arguments blockStarts {ID B}.
Arguments startMap {ID B}.
Arguments HMapping {ID B}.

(** The errors the component returns, one constructor per message. *)
Inductive HeaderError (ID : Type) : Type :=
  | ErrBlockSizeZero
  | ErrOutOfBounds (offset size : Z)
  | ErrNotAligned (offset blockSize : Z)
  | ErrNoSource (offset : Z)
  | ErrNoMapping (offset : Z)
  | ErrBeyondMapping (offset block start end_ : Z)
  | ErrNegativeLength (offset mappedLength : Z)
  | ErrWrongStart (m : BuildMap ID) (currentOffset : Z)
  | ErrBadLength (m : BuildMap ID)
  | ErrBeyondSize (m : BuildMap ID) (currentOffset size : Z)
  | ErrNotCovered (m : BuildMap ID) (currentOffset size : Z)
  | ErrInvalidMappings (e : HeaderError ID).
Arguments ErrBlockSizeZero {ID}.
Arguments ErrOutOfBounds {ID}.
Arguments ErrNotAligned {ID}.
Arguments ErrNoSource {ID}.
Arguments ErrNoMapping {ID}.
Arguments ErrBeyondMapping {ID}.
Arguments ErrNegativeLength {ID}.
Arguments ErrWrongStart {ID}.
Arguments ErrBadLength {ID}.
Arguments ErrBeyondSize {ID}.
Arguments ErrNotCovered {ID}.
Arguments ErrInvalidMappings {ID}.

(** ** Operations *)
Section header.
Context {ID B : Type} `{EqDecision ID, UuidOps ID, BitSetOps B}.
Implicit Types (md : Metadata ID) (h : Header ID B) (m : BuildMap ID).
Abbreviation result := (res (HeaderError ID)).

Definition NewTemplateMetadata (buildId : ID) (blockSize size : Z) : Metadata ID :=
  mkMetadata metadataVersion blockSize size 0 buildId buildId.

Definition NextGeneration md (buildID : ID) : Metadata ID :=
  mkMetadata (Version md) (BlockSize md) (Size md) (u64 (Generation md + 1)) buildID
    (BaseBuildId md).

(** The loop of [NewHeader] over the mappings. *)
Fixpoint index_mappings (blockSize : Z) (l : list (BuildMap ID))
    (intervals : B) (startMap : gmap Z (BuildMap ID)) : result (B * gmap Z (BuildMap ID)) :=
  match l with
  | [] => Ok (intervals, startMap)
  | m :: l =>
      block ← BlockIdx (i64 (Offset m)) (i64 blockSize);
      index_mappings blockSize l (bs_set intervals (u64 block)) (<[block := m]> startMap)
  end.

Definition NewHeader md (mapping : list (BuildMap ID)) : result (Header ID B) :=
  if BlockSize md =? 0 then Err ErrBlockSizeZero
  else
    let mapping :=
      match mapping with [] => [mkBuildMap 0 (Size md) (MetaBuildId md) 0] | _ => mapping end in
    blocks ← TotalBlocks (i64 (Size md)) (i64 (BlockSize md));
    '(intervals, startMap) ←
      index_mappings (BlockSize md) mapping (bs_new (u64 blocks)) ∅;
    Ok (mkHeader md intervals startMap mapping).

Definition IsNormalizeFixApplied h : bool := NormalizeFixVersion <=? Version (HMetadata h).

(** An error of an old header is only logged. *)
Definition soft_fail {A} h (e : HeaderError ID) (k : result A) : result A :=
  if IsNormalizeFixApplied h then Err e else k.

Definition getMapping h (offset : Z) : result (BuildMap ID * Z) :=
  let md := HMetadata h in
  let rest3 start m block :=
    let shift := i64 (i64 (block - start) * i64 (BlockSize md)) in
    if i64 (Length m) <=? shift then
      soft_fail h (ErrBeyondMapping offset block (Offset m) (m_end m)) (Ok (m, shift))
    else Ok (m, shift) in
  let rest2 :=
    block ← BlockIdx offset (i64 (BlockSize md));
    match bs_prev_set (blockStarts h) (u64 block) with
    | None => Err (ErrNoSource offset)
    | Some start =>
        match startMap h !! i64 start with
        | None => Err (ErrNoMapping offset)
        | Some m => rest3 (i64 start) m block
        end
    end in
  let rest1 :=
    r ← go_rem offset (i64 (BlockSize md));
    if negb (r =? 0) then soft_fail h (ErrNotAligned offset (BlockSize md)) rest2 else rest2 in
  if (offset <? 0) || (i64 (Size md) <=? offset) then
    soft_fail h (ErrOutOfBounds offset (Size md)) rest1
  else rest1.

Definition GetShiftedMapping h (offset : Z) : result (Z * Z * ID) :=
  '(m, shift) ← getMapping h offset;
  let mappedOffset := i64 (i64 (BuildStorageOffset m) + shift) in
  let mappedLength := i64 (i64 (Length m) - shift) in
  if mappedLength <? 0 then
    soft_fail h (ErrNegativeLength offset mappedLength) (Ok (mappedOffset, mappedLength, BuildId m))
  else Ok (mappedOffset, mappedLength, BuildId m).

(** *** inspect.go *)

(** The error messages divide by the block size. *)
Definition formatted {A} (blockSize : Z) (e : HeaderError ID) : result A :=
  if blockSize =? 0 then Panic else Err e.

Fixpoint validate_loop (mappings : list (BuildMap ID)) (size blockSize currentOffset : Z)
    : result Z :=
  match mappings with
  | [] => Ok currentOffset
  | m :: l =>
      if negb (currentOffset =? Offset m) then formatted blockSize (ErrWrongStart m currentOffset)
      else if blockSize =? 0 then Panic
      else if negb (Length m mod blockSize =? 0) then formatted blockSize (ErrBadLength m)
      else if size <? u64 (currentOffset + Length m) then
        formatted blockSize (ErrBeyondSize m currentOffset size)
      else validate_loop l size blockSize (u64 (currentOffset + Length m))
  end.

Definition ValidateMappings (mappings : list (BuildMap ID)) (size blockSize : Z) : result () :=
  currentOffset ← validate_loop mappings size blockSize 0;
  if negb (currentOffset =? size) then
    match last mappings with
    | None => Panic (* mappings[-1] *)
    | Some m => formatted blockSize (ErrNotCovered m currentOffset size)
    end
  else Ok ().

Definition BuildMap_Equal m (other : BuildMap ID) : bool :=
  (Offset m =? Offset other) && (Length m =? Length other) && bool_decide (BuildId m = BuildId other).

Fixpoint equal_loop (a b : list (BuildMap ID)) : bool :=
  match a, b with
  | x :: a, y :: b => if negb (BuildMap_Equal x y) then false else equal_loop a b
  | _, _ => true
  end.
Definition Equal (a b : list (BuildMap ID)) : bool :=
  if negb (Nat.eqb (length a) (length b)) then false else equal_loop a b.

(** *** metadata.go *)
Record DiffMetadata := mkDiffMetadata {
  Dirty : B;
  Empty : B;
  DiffBlockSize : Z;   (** [BlockSize] *)
}.

Definition toDiffMapping (d : DiffMetadata) (buildID : ID) : option (list (BuildMap ID)) :=
  dirtyMappings ← CreateMapping buildID (Dirty d) (DiffBlockSize d);
  emptyMappings ← CreateMapping uuid_nil (Empty d) (DiffBlockSize d);
  MergeMappings dirtyMappings emptyMappings.

(** [None] is running out of the fuel of a loop. *)
Definition ToDiffHeader (d : DiffMetadata) (originalHeader : Header ID B) (buildID : ID)
    : option (result (Header ID B)) :=
  diffMapping ← toDiffMapping d buildID;
  m ← MergeMappings (HMapping originalHeader) diffMapping;
  let m := NormalizeMappings m in
  let metadata := NextGeneration (HMetadata originalHeader) buildID in
  Some (
    header ← NewHeader metadata m;
    match ValidateMappings (HMapping header) (Size (HMetadata header)) (BlockSize (HMetadata header)) with
    | Ok _ => Ok header
    | Err e => soft_fail header (ErrInvalidMappings e) (Ok header)
    | Panic => Panic
    end).
End header.
Arguments DiffMetadata B : clear implicits.
Arguments mkDiffMetadata {B}.

Definition Layers {ID} `{Countable ID} (mappings : list (BuildMap ID)) : gset ID :=
  foldl (λ layers m, {[BuildId m]} ∪ layers) ∅ mappings.

(** ** The index of a header *)
Section valid.
Context {ID : Type}.
Implicit Types (m : BuildMap ID) (l : list (BuildMap ID)).

(** The mappings cover the device [0, size) without gap in whole blocks. *)
Definition valid (size bs : Z) l : Prop :=
  sorted_from 0 l ∧ contig 0 l size ∧ aligned bs l.

Lemma contig_divide bs lo l size : (bs | lo) → contig lo l size → aligned bs l → (bs | size).
Proof.
  intros Hlo Hc Ha. revert lo Hlo Hc.
  induction Ha as [|m l [? ?] Ha IH]; simpl; [by intros ? ? <-|].
  intros lo Hlo [<- Hc]. apply (IH (End m)); [|done]. by apply Z.divide_add_r.
Qed.

Lemma sorted_disjoint lo l m m' :
  sorted_from lo l → m ∈ l → m' ∈ l → Offset m < Offset m' → End m ≤ Offset m'.
Proof.
  revert lo. induction l as [|n l IH]; intros lo; [by intros _ ?%not_elem_of_nil|].
  intros (_ & Hn & Hs) [->|Hm]%elem_of_cons [->|Hm']%elem_of_cons Hlt.
  - lia.
  - by apply (sorted_from_elem (End n) l m').
  - apply (sorted_from_elem (End n) l m) in Hm as [? _]; [|done].
    unfold wf_map, End in *. lia.
  - by eapply IH.
Qed.

Lemma sorted_cover_unique lo l m m' off :
  sorted_from lo l → m ∈ l → m' ∈ l → Offset m ≤ off < End m → Offset m' ≤ off < End m' → m = m'.
Proof.
  revert lo. induction l as [|n l IH]; intros lo; [by intros _ ?%not_elem_of_nil|].
  intros Hs [->|Hm]%elem_of_cons [->|Hm']%elem_of_cons Hc Hc'; [done| | |].
  - destruct Hs as (_ & _ & Hs). apply (sorted_from_elem (End n) l m') in Hm' as [? _]; [lia|done].
  - destruct Hs as (_ & _ & Hs). apply (sorted_from_elem (End n) l m) in Hm as [? _]; [lia|done].
  - destruct Hs as (_ & _ & Hs). by eapply IH.
Qed.

Lemma sorted_Forall_wf lo l : sorted_from lo l → Forall wf_map l.
Proof.
  intros Hs. apply Forall_forall. intros m Hm. by apply (sorted_from_elem lo l m).
Qed.
End valid.

Section index.
Context {ID B : Type} `{EqDecision ID, UuidOps ID, BitSetLaws B}.
Implicit Types (m : BuildMap ID) (l : list (BuildMap ID)) (md : Metadata ID) (h : Header ID B).
Context (bs : Z).
Hypothesis bs_pos : 0 < bs ≤ maxI64.

Lemma index_mappings_spec lo l (b : B) (sm : gmap Z (BuildMap ID)) :
  0 ≤ lo → sorted_from lo l → aligned bs l →
  ∃ b' sm', index_mappings bs l b sm = Ok (b', sm') ∧ bs_len b ≤ bs_len b' ∧
    (∀ k, 0 ≤ k → bs_test b' k = true ↔ bs_test b k = true ∨ ∃ m, m ∈ l ∧ Offset m = k * bs) ∧
    (∀ m, m ∈ l → sm' !! (Offset m / bs) = Some m) ∧
    (∀ k, k * bs < lo → sm' !! k = sm !! k).
Proof.
  revert lo b sm. induction l as [|m l IH]; intros lo b sm Hlo0.
  - intros _ _. exists b, sm. split_and!; [done..| | |done].
    + intros k _. split; [by left|]. intros [?|(m & Hm & _)]; [done|by apply not_elem_of_nil in Hm].
    + intros m Hm. by apply not_elem_of_nil in Hm.
  - intros (Hlo & Hwf & Hs) [[[a Hoff] _] Ha]%Forall_cons. simpl.
    unfold wf_map, End, maxI64 in Hwf. rewrite !i64_small by (unfold maxI64 in *; lia).
    rewrite BlockIdx_eq by (unfold maxI64; lia). simpl.
    rewrite Hoff, Z.div_mul by lia. assert (0 ≤ a) by nia.
    rewrite u64_small by (unfold maxI64 in *; nia).
    destruct (IH (End m) (bs_set b a) (<[a := m]> sm)) as (b' & sm' & -> & Hl' & Ht & Hm & Hk);
      [unfold End; lia|done|done|].
    exists b', sm'. split_and!; [done| | | |].
    + rewrite bs_len_set in Hl' by done. lia.
    + intros k Hk0. rewrite Ht by done. rewrite bs_test_set, orb_true_iff, Z.eqb_eq by done.
      setoid_rewrite elem_of_cons. split.
      * intros [[->|?]|(m' & ? & ?)]; eauto 7.
      * intros [?|(m' & [->|?] & ?)]; [by auto| |by eauto].
        left. left. nia.
    + intros m' [->|Hin]%elem_of_cons; [|by auto].
      rewrite Hoff, Z.div_mul by lia. rewrite Hk; [by rewrite lookup_insert_eq|].
      unfold End. lia.
    + intros k Hkb. rewrite Hk by (unfold End; lia). apply lookup_insert_ne. nia.
Qed.

Definition indexed h l : Prop :=
  HMapping h = l ∧
  Size (HMetadata h) / bs ≤ bs_len (blockStarts h) ∧
  (∀ k, 0 ≤ k → bs_test (blockStarts h) k = true ↔ ∃ m, m ∈ l ∧ Offset m = k * bs) ∧
  (∀ m, m ∈ l → startMap h !! (Offset m / bs) = Some m).

Lemma NewHeader_indexed md l :
  BlockSize md = bs → 0 ≤ Size md → Size md + bs ≤ maxI64 → l ≠ [] →
  sorted_from 0 l → aligned bs l →
  ∃ h : Header ID B, NewHeader md l = Ok h ∧ HMetadata h = md ∧ indexed h l.
Proof.
  intros Hbs Hsz Hfit Hne Hs Ha. unfold NewHeader. rewrite Hbs.
  destruct (Z.eqb_spec bs 0); [lia|].
  replace (match l with [] => [mkBuildMap 0 (Size md) (MetaBuildId md) 0] | _ => l end) with l
    by by destruct l.
  rewrite !i64_small by (unfold maxI64 in *; lia). rewrite TotalBlocks_eq by (done || lia). simpl.
  assert (Size md / bs ≤ (Size md + bs - 1) / bs) by (apply Z.div_le_mono; lia).
  assert (0 ≤ Size md / bs) by (apply Z.div_pos; lia).
  assert ((Size md + bs - 1) / bs ≤ maxI64).
  { pose proof (div_self_bound (Size md + bs - 1) bs). lia. }
  rewrite u64_small by (unfold maxI64 in *; lia).
  destruct (index_mappings_spec 0 l (bs_new ((Size md + bs - 1) / bs)) ∅)
    as (b' & sm' & -> & Hl & Ht & Hm & _); [done..|]. simpl.
  eexists. split; [done|]. split; [done|]. unfold indexed. simpl. split_and!; [done| | |done].
  - rewrite bs_len_new in Hl by lia. lia.
  - intros k Hk. rewrite Ht by done. rewrite bs_test_new by done. split; [by intros [?|?]|by right].
Qed.

(** The search of the index finds the mapping of the block. *)
Lemma index_search h l size off :
  indexed h l → Size (HMetadata h) = size → valid size bs l → size ≤ maxI64 → 0 ≤ off < size →
  ∃ m, m ∈ l ∧ Offset m ≤ off < End m ∧ (bs | Offset m) ∧
    bs_prev_set (blockStarts h) (u64 (off / bs)) = Some (Offset m / bs) ∧
    startMap h !! (Offset m / bs) = Some m.
Proof.
  intros (_ & Hlen & Ht & Hsm) Hsize (Hs & Hc & Ha) Hmax Hoff.
  pose proof (div_self_bound off bs ltac:(lia) ltac:(lia)) as Hk.
  rewrite u64_small by (unfold maxI64 in *; lia).
  assert (is_Some (resolve l off)) as [r Hr] by (apply (contig_cover 0 l size); done).
  apply resolve_Some_elem in Hr as (m & Hm & Hcov & _).
  assert ((bs | Offset m)) as [a Hoffm].
  { by apply (proj1 (Forall_forall _ _) Ha). }
  exists m. split_and!; [done|lia|lia|by exists a| |by apply Hsm].
  rewrite Hoffm, Z.div_mul by lia. pose proof (sorted_Forall_wf _ _ Hs) as Hwf.
  assert (0 ≤ a ∧ a ≤ off / bs) as [Ha0 Hak].
  { rewrite Forall_forall in Hwf. pose proof (Hwf m Hm) as (? & ? & ?).
    split; [nia|]. apply Z.div_le_lower_bound; lia. }
  assert (off / bs < bs_len (blockStarts h)) as Hlt.
  { assert (off / bs < size / bs); [|rewrite Hsize in Hlen; lia].
    destruct (contig_divide bs 0 l size (Z.divide_0_r bs) Hc Ha) as [n Hn].
    rewrite Hn, Z.div_mul by lia. apply Z.div_lt_upper_bound; lia. }
  destruct (bs_prev_set (blockStarts h) (off / bs)) as [s|] eqn:Ep.
  - apply bs_prev_set_Some in Ep as (Hs1 & Hs2 & Hs3); [|lia]. f_equal.
    apply (Ht s) in Hs2 as (m' & Hm' & Hoff'); [|lia].
    destruct (Z.lt_trichotomy a s) as [Hlt'|[->|Hlt']]; [|done|].
    + assert (End m ≤ Offset m').
      { apply (sorted_disjoint 0 l); try done. nia. }
      assert (s * bs ≤ off / bs * bs) by nia.
      pose proof (Z.mul_div_le off bs). lia.
    + assert (bs_test (blockStarts h) a = true) as Hta by (apply Ht; eauto).
      rewrite Hs3 in Hta by lia. done.
  - eapply bs_prev_set_None in Ep; [|lia|split; [exact Ha0|exact Hak]].
    assert (bs_test (blockStarts h) a = true) as Hta by (apply Ht; eauto).
    by rewrite Hta in Ep.
Qed.
End index.

(** ** Lookup *)
Section lookup.
Context {ID B : Type} `{EqDecision ID, UuidOps ID, BitSetLaws B}.
Implicit Types (m : BuildMap ID) (l : list (BuildMap ID)) (md : Metadata ID) (h : Header ID B).
Context (bs : Z) (h : Header ID B) (l : list (BuildMap ID)).
Hypothesis bs_pos : 0 < bs ≤ maxI64.
Hypothesis bs_eq : BlockSize (HMetadata h) = bs.
Hypothesis size_ok : 0 ≤ Size (HMetadata h) ≤ maxI64.
Hypothesis idx : indexed bs h l.
Hypothesis ok : valid (Size (HMetadata h)) bs l.

Lemma go_rem_nonneg {E} off : 0 ≤ off ≤ maxI64 → go_rem off bs = Ok (E := E) (off mod bs).
Proof using bs_pos.
  intros. unfold go_rem. destruct (Z.eqb_spec bs 0); [lia|].
  rewrite Z.rem_mod_nonneg by lia. pose proof (Z.mod_pos_bound off bs).
  unfold maxI64 in *. by unwrap.
Qed.

Lemma mod_zero_iff off : (bs | off) ↔ off mod bs = 0.
Proof using bs_pos. symmetry. apply Z.mod_divide. lia. Qed.

(** The lookup without its checks: the mapping of the block of [off]. *)
Lemma getMapping_block off :
  0 ≤ off < Size (HMetadata h) →
  ∃ m, m ∈ l ∧ Offset m ≤ off / bs * bs < End m ∧ wf_map m ∧
    getMapping h off =
      if IsNormalizeFixApplied h && negb (off mod bs =? 0) then Err (ErrNotAligned off bs)
      else Ok (m, off / bs * bs - Offset m).
Proof using All.
  intros Hoff. destruct (index_search bs bs_pos h l _ off idx eq_refl ok) as
    (m & Hm & Hcov & [a Ha] & Hp & Hs); [lia|done|].
  exists m. pose proof (sorted_Forall_wf 0 l (proj1 ok)) as Hwf. rewrite Forall_forall in Hwf.
  pose proof (Hwf m Hm) as Hwm. pose proof (Z.mul_div_le off bs).
  pose proof (div_self_bound off bs ltac:(lia) ltac:(lia)).
  assert (Offset m ≤ off / bs * bs < End m) as Hblk.
  { split; [|lia]. rewrite Ha. assert (a ≤ off / bs); [|nia].
    apply Z.div_le_lower_bound; lia. }
  assert (0 ≤ a ≤ off / bs) by (unfold wf_map in *; nia).
  split; [done|]. split; [done|]. split; [done|].
  unfold getMapping. cbv zeta. rewrite bs_eq.
  destruct (Z.ltb_spec off 0); [lia|]. rewrite (i64_small (Size _)) by (unfold maxI64 in *; lia).
  destruct (Z.leb_spec (Size (HMetadata h)) off); [lia|]. simpl.
  rewrite (i64_small bs) by (unfold maxI64 in *; lia).
  rewrite go_rem_nonneg, BlockIdx_eq by (done || lia). simpl. rewrite Hp.
  assert (Offset m / bs = a) as Hdiv by (rewrite Ha; apply Z.div_mul; lia).
  rewrite Hdiv in *. rewrite (i64_small a) by (unfold maxI64 in *; lia). rewrite Hs.
  unfold wf_map, End, maxI64 in *.
  rewrite (i64_small (off / bs - a)) by lia.
  rewrite (i64_small ((off / bs - a) * bs)) by nia.
  rewrite (i64_small (Length m)) by lia.
  replace ((off / bs - a) * bs) with (off / bs * bs - Offset m) by lia.
  destruct (Z.leb_spec (Length m) (off / bs * bs - Offset m)); [lia|].
  unfold soft_fail. by destruct (IsNormalizeFixApplied h), (off mod bs =? 0).
Qed.

Lemma GetShiftedMapping_block off :
  0 ≤ off < Size (HMetadata h) →
  ∃ m, m ∈ l ∧ Offset m ≤ off / bs * bs < End m ∧
    GetShiftedMapping h off =
      if IsNormalizeFixApplied h && negb (off mod bs =? 0) then Err (ErrNotAligned off bs)
      else Ok (BuildStorageOffset m + (off / bs * bs - Offset m), End m - off / bs * bs, BuildId m).
Proof using All.
  intros Hoff. destruct (getMapping_block off Hoff) as (m & Hm & Hcov & Hwm & Hg).
  exists m. split; [done|]. split; [done|]. unfold GetShiftedMapping. rewrite Hg.
  destruct (_ && _); [done|]. simpl. unfold wf_map, End, maxI64 in *.
  rewrite (i64_small (BuildStorageOffset m)) by lia.
  rewrite (i64_small (Length m)) by lia.
  rewrite (i64_small (Length m - _)) by lia.
  rewrite i64_small by lia.
  destruct (Z.ltb_spec (Length m - (off / bs * bs - Offset m)) 0); [lia|].
  do 3 f_equal. lia.
Qed.

Lemma getMapping_out off :
  off < 0 ∨ Size (HMetadata h) ≤ off → IsNormalizeFixApplied h = true →
  GetShiftedMapping h off = Err (ErrOutOfBounds off (Size (HMetadata h))).
Proof using size_ok.
  intros Hoff Hv. unfold GetShiftedMapping, getMapping. cbv zeta.
  rewrite (i64_small (Size _)) by (unfold maxI64 in *; lia).
  assert ((off <? 0) || (Size (HMetadata h) <=? off) = true) as ->.
  { rewrite orb_true_iff, Z.ltb_lt, Z.leb_le. done. }
  unfold soft_fail. by rewrite Hv.
Qed.
End lookup.

(** ** Validation *)
Section validate.
Context {ID : Type}.
Implicit Types (m : BuildMap ID) (l : list (BuildMap ID)).

Definition u64_map m : Prop := 0 ≤ Offset m ∧ 0 ≤ Length m ≤ maxI64.

Lemma validate_loop_spec l size bs cur :
  0 < bs → 0 ≤ size ≤ maxI64 → Forall u64_map l → 0 ≤ cur ≤ size →
  match validate_loop l size bs cur with
  | Ok hi => contig cur l hi ∧ hi ≤ size ∧ Forall (λ m, (bs | Length m)) l
  | Err _ => ∀ hi, hi ≤ size → contig cur l hi → ¬ Forall (λ m, (bs | Length m)) l
  | Panic => False
  end.
Proof.
  intros Hbs Hsize. revert cur. induction l as [|m l IH]; intros cur Hl Hcur; simpl.
  { split_and!; [done|lia|constructor]. }
  apply Forall_cons in Hl as [[? ?] Hl]. unfold formatted.
  destruct (Z.eqb_spec bs 0); [lia|].
  destruct (Z.eqb_spec cur (Offset m)); simpl; [|by intros hi _ [? _]].
  destruct (Z.eqb_spec (Length m mod bs) 0) as [E|E]; simpl.
  2:{ intros hi _ _ [[k Hk] _]%Forall_cons. rewrite Hk, Z.mod_mul in E by lia. done. }
  rewrite u64_small by (unfold maxI64 in *; lia).
  destruct (Z.ltb_spec size (cur + Length m)) as [Hlt|Hge].
  { intros hi Hhi [_ Hc] _. apply contig_bounds in Hc; [unfold End in *; lia|].
    eapply Forall_impl; [exact Hl|]. unfold u64_map. simpl. lia. }
  specialize (IH (cur + Length m) Hl ltac:(lia)).
  replace (End m) with (cur + Length m) by (unfold End; lia).
  destruct (validate_loop _ _ _ _) as [hi| |]; [|intros hi Hhi [_ Hc] [_ Hd]%Forall_cons; by eapply IH|done].
  destruct IH as (? & ? & ?). split_and!; [done|done|done|]. constructor; [|done].
  by apply Z.mod_divide.
Qed.

Lemma contig_det lo l hi hi' : contig lo l hi → contig lo l hi' → hi = hi'.
Proof.
  revert lo. induction l as [|m l IH]; intros lo; simpl; [congruence|].
  intros [_ ?] [_ ?]. by eapply IH.
Qed.

Lemma ValidateMappings_exact l size bs :
  0 < bs → 0 ≤ size ≤ maxI64 → Forall u64_map l →
  match ValidateMappings l size bs with
  | Ok _ => contig 0 l size ∧ Forall (λ m, (bs | Length m)) l
  | Err _ => ¬ (contig 0 l size ∧ Forall (λ m, (bs | Length m)) l)
  | Panic => l = [] ∧ size ≠ 0
  end.
Proof.
  intros Hbs Hsize Hl. unfold ValidateMappings.
  pose proof (validate_loop_spec l size bs 0 Hbs Hsize Hl ltac:(lia)) as Hv.
  destruct (validate_loop l size bs 0) as [hi| |] eqn:E; simpl;
    [|intros [? ?]; by apply (Hv size)|done].
  destruct Hv as (Hc & Hhi & Hd). destruct (Z.eqb_spec hi size) as [->|Hne]; simpl; [done|].
  destruct (last l) as [m|] eqn:El; simpl.
  - unfold formatted. destruct (Z.eqb_spec bs 0); [lia|]. intros [Hc' _].
    by apply Hne, (contig_det 0 l).
  - apply last_None in El as ->. simpl in Hc. split; [done|congruence].
Qed.

Lemma ValidateMappings_valid l size bs :
  0 < bs → 0 ≤ size ≤ maxI64 → l ≠ [] → valid size bs l → ValidateMappings l size bs = Ok ().
Proof.
  intros Hbs Hsize Hne (Hs & Hc & Ha).
  assert (Forall u64_map l) as Hl.
  { eapply Forall_impl; [by apply (sorted_Forall_wf 0)|]. unfold wf_map, u64_map, End. simpl. lia. }
  pose proof (ValidateMappings_exact l size bs Hbs Hsize Hl) as Hv.
  destruct (ValidateMappings l size bs) as [[]| |]; [done| |destruct Hv as [? _]; congruence].
  destruct Hv. split; [done|]. eapply Forall_impl; [exact Ha|]. simpl. by intros m [_ ?].
Qed.
End validate.

(** ** Layering a snapshot over a header *)
Section layering.
Context {ID B : Type} `{EqDecision ID, UuidOps ID, BitSetLaws B}.
Implicit Types (m : BuildMap ID) (l : list (BuildMap ID)) (md : Metadata ID) (h : Header ID B).

(** What every header the services build satisfies: it describes a device of
    whole blocks of [bs] bytes, without gaps, each build's data in device
    order, and its index agrees with its mappings. *)
Record header_wf (bs : Z) h : Prop := {
  hw_bs : BlockSize (HMetadata h) = bs;
  hw_size : 0 < Size (HMetadata h) ∧ Size (HMetadata h) + bs ≤ maxI64;
  hw_valid : valid (Size (HMetadata h)) bs (HMapping h);
  hw_dense : dense (HMapping h);
  hw_coherent : coherent uuid_nil (HMapping h);
  hw_indexed : indexed bs h (HMapping h);
}.

(** The dirty blocks are stored in [buildID], the empty ones in no build. *)
Definition diff_reading (d : DiffMetadata B) (buildID : ID) (i r : Z) : option (ID * Z) :=
  overlay ((λ p, (uuid_nil, p * DiffBlockSize d + r)) <$> rank (set_bits (Empty d)) i)
    ((λ p, (buildID, p * DiffBlockSize d + r)) <$> rank (set_bits (Dirty d)) i).

Definition bits_fit (b : B) (bs size : Z) : Prop :=
  bs_len b * bs ≤ maxI64 ∧ ∀ i, i ∈ set_bits b → (i + 1) * bs ≤ size.

(** A list that reads like the blocks of a bit set is dense. *)
Lemma blocks_dense bs l :
  0 < bs → (∀ i r, 0 ≤ r < bs → ∃ ks id, StronglySorted Z.lt ks ∧ Forall (λ k, 0 ≤ k) ks ∧
    ∀ x, resolve l (i * bs + r) = Some x → (λ p, (id, p * bs + r)) <$> rank ks i = Some x) →
  dense l.
Proof.
  intros Hbs Hl off id s Hr.
  assert (off = off / bs * bs + off mod bs) as Hoff by (pose proof (Z.div_mod off bs); lia).
  pose proof (Z.mod_pos_bound off bs Hbs) as Hm. rewrite Hoff in Hr.
  destruct (Hl (off / bs) (off mod bs) Hm) as (ks & id' & Hs & Hk & Hx).
  apply Hx in Hr. destruct (rank ks (off / bs)) as [p|] eqn:E; simplify_eq/=.
  apply (rank_le ks _ p 0) in E; [nia|done|done].
Qed.

Lemma set_bits_nonneg (b : B) : Forall (λ k, 0 ≤ k) (set_bits b).
Proof. apply Forall_forall. intros k Hk%set_bits_range. lia. Qed.

Lemma toDiffMapping_spec (d : DiffMetadata B) (buildID : ID) size :
  0 < DiffBlockSize d → bits_fit (Dirty d) (DiffBlockSize d) size →
  bits_fit (Empty d) (DiffBlockSize d) size → buildID ≠ uuid_nil →
  ∃ l, toDiffMapping d buildID = Some l ∧ sorted_from 0 l ∧ aligned (DiffBlockSize d) l ∧
    dense l ∧ coherent uuid_nil l ∧ Forall (λ m, End m ≤ size) l ∧
    ∀ i r, 0 ≤ r < DiffBlockSize d →
      resolve l (i * DiffBlockSize d + r) = diff_reading d buildID i r.
Proof.
  set (bs := DiffBlockSize d). intros Hbs [Hd Hdb] [He Heb] Hid.
  destruct (CreateMapping_resolve buildID (Dirty d) bs Hbs Hd) as (ld & Hld & Hsd & Had & Hrd).
  destruct (CreateMapping_resolve uuid_nil (Empty d) bs Hbs He) as (le & Hle & Hse & Hae & Hre).
  pose proof (CreateMapping_coherent buildID (Dirty d) bs Hbs Hd uuid_nil ld Hld) as Hcd.
  pose proof (CreateMapping_coherent uuid_nil (Empty d) bs Hbs He uuid_nil le Hle) as Hce.
  destruct (MergeMappings_merged ld le Hsd Hse) as (l & Hl & Hm).
  pose proof Hm as (Hs & Hr & Ha). exists l. unfold toDiffMapping.
  fold bs. rewrite Hld. simpl. rewrite Hle. simpl.
  assert (∀ i r, 0 ≤ r < bs → resolve l (i * bs + r) = diff_reading d buildID i r) as Hrl.
  { intros i r Hir. by rewrite Hr, Hrd, Hre. }
  assert (∀ off, ∃ i r, off = i * bs + r ∧ 0 ≤ r < bs) as Hsplit.
  { intros off. exists (off / bs), (off mod bs).
    pose proof (Z.div_mod off bs). pose proof (Z.mod_pos_bound off bs). lia. }
  split_and!; [done|done|by apply Ha| | | |done].
  - apply (dense_overlay ld le l 0 Hm); eapply (blocks_dense bs); [done| |done|].
    + intros i r ?. exists (set_bits (Dirty d)), buildID. rewrite Hrd by done.
      split_and!; [apply set_bits_sorted|apply set_bits_nonneg|done].
    + intros i r ?. exists (set_bits (Empty d)), uuid_nil. rewrite Hre by done.
      split_and!; [apply set_bits_sorted|apply set_bits_nonneg|done].
  - apply (coherent_overlay uuid_nil ld le l 0 Hm Hcd Hce).
    intros o o' id s s' Hx _. destruct (Hsplit o) as (i & r & -> & ?).
    rewrite Hre in Hx by done. by destruct (rank _ i); simplify_eq/=.
  - apply Forall_forall. intros m Hin.
    pose proof (sorted_from_elem 0 l m Hs Hin) as [_ (? & ? & _)].
    assert (Hlast : is_Some (resolve l (End m - 1))).
    { rewrite (resolve_elem 0 l m); [eauto|done|done|unfold End; lia]. }
    destruct (Hsplit (End m - 1)) as (i & r & Hoff & ?). rewrite Hoff, Hrl in Hlast by done.
    assert (i ∈ set_bits (Empty d) ∨ i ∈ set_bits (Dirty d)) as [Hi|Hi].
    { unfold diff_reading in Hlast. destruct (rank (set_bits (Empty d)) i) as [p|] eqn:E1.
      - left. by apply rank_Some in E1 as [_ ?%list_elem_of_lookup_2].
      - right. destruct (rank (set_bits (Dirty d)) i) as [p|] eqn:E2; [|by destruct Hlast].
        by apply rank_Some in E2 as [_ ?%list_elem_of_lookup_2]. }
    + apply Heb in Hi. lia.
    + apply Hdb in Hi. lia.
Qed.

Lemma NewHeader_wf bs md l :
  0 < bs → BlockSize md = bs → 0 < Size md → Size md + bs ≤ maxI64 →
  valid (Size md) bs l → dense l → coherent uuid_nil l →
  ∃ h : Header ID B, NewHeader md l = Ok h ∧ HMetadata h = md ∧ HMapping h = l ∧ header_wf bs h.
Proof.
  intros Hbs Hb Hsz Hfit (Hs & Hc & Ha) Hd Hcoh.
  assert (l ≠ []) as Hne by (intros ->; simpl in Hc; lia).
  destruct (NewHeader_indexed bs ltac:(lia) md l) as (h & Hh & Hmd & Hi); [done|lia|done..|].
  exists h. pose proof Hi as (Hl & _). split_and!; [done..|].
  split; rewrite ?Hmd, ?Hl; try done.
Qed.

Lemma ToDiffHeader_wf bs (d : DiffMetadata B) (h : Header ID B) (buildID : ID) :
  0 < bs → header_wf bs h → DiffBlockSize d = bs →
  bits_fit (Dirty d) bs (Size (HMetadata h)) → bits_fit (Empty d) bs (Size (HMetadata h)) →
  buildID ≠ uuid_nil → (∀ off s, resolve (HMapping h) off ≠ Some (buildID, s)) →
  ∃ h' : Header ID B, ToDiffHeader d h buildID = Some (Ok h') ∧
    HMetadata h' = NextGeneration (HMetadata h) buildID ∧ header_wf bs h' ∧
    ∀ i r, 0 ≤ r < bs →
      canon uuid_nil (resolve (HMapping h') (i * bs + r)) =
      canon uuid_nil (overlay (diff_reading d buildID i r) (resolve (HMapping h) (i * bs + r))).
Proof.
  intros Hbs [Hb [Hsz Hfit] (Hs & Hc & Ha) Hde Hcoh _] <- Hdf Hef Hid Hfresh.
  destruct (toDiffMapping_spec d buildID _ Hbs Hdf Hef Hid)
    as (ld & Hld & Hsd & Had & Hdd & Hcd & Hend & Hrd).
  destruct (MergeMappings_merged _ ld Hs Hsd) as (lm & Hlm & Hm).
  pose proof Hm as (Hsm & Hrm & Ham).
  assert (contig 0 lm (Size (HMetadata h))) as Hcm.
  { apply sorted_cover_contig; [done|lia|]. intros off Hoff.
    rewrite Hrm. destruct (resolve ld off) as [x|] eqn:E; simpl.
    - apply resolve_Some_elem in E as (m & Hin & ? & _). rewrite Forall_forall in Hend.
      specialize (Hend m Hin). split; [lia|eauto].
    - rewrite (contig_cover 0 (HMapping h) (Size (HMetadata h))) by done. lia. }
  assert (coherent uuid_nil lm) as Hcohm.
  { apply (coherent_overlay uuid_nil _ _ _ _ Hm Hcoh Hcd).
    intros o o' id s s' H1' H2'.
    assert (o = o / DiffBlockSize d * DiffBlockSize d + o mod DiffBlockSize d) as Ho
      by (pose proof (Z.div_mod o (DiffBlockSize d)); lia).
    rewrite Ho, Hrd in H1' by (apply Z.mod_pos_bound; lia). unfold diff_reading in H1'.
    destruct (rank (set_bits (Empty d)) _); simplify_eq/=; [done|].
    destruct (rank (set_bits (Dirty d)) _); simplify_eq/=. by destruct (Hfresh o' s'). }
  destruct (NormalizeMappings_normalized uuid_nil lm (Size (HMetadata h)))
    as (Hsn & Hcn & Hdn & _ & Hrn & Han); [lia|done|done|by eapply dense_overlay|done|].
  pose proof (coherent_canon uuid_nil _ _ Hrn Hcohm) as Hcoh'.
  assert (valid (Size (HMetadata h)) (DiffBlockSize d) (NormalizeMappings lm)) as Hv
    by (split_and!; [done|done|by apply Han, Ham]).
  destruct (NewHeader_wf (DiffBlockSize d) (NextGeneration (HMetadata h) buildID)
    (NormalizeMappings lm)) as (h' & Hh' & Hmd & Hmap & Hwf); [done..|].
  exists h'. split_and!; [|done|done|].
  - unfold ToDiffHeader. rewrite Hld. simpl. rewrite Hlm. simpl. rewrite Hh'. simpl.
    rewrite Hmd, Hmap. simpl. rewrite Hb, ValidateMappings_valid; [done|lia|lia| |done].
    intros E. rewrite E in Hcn. simpl in Hcn. lia.
  - intros i r Hr. by rewrite Hmap, Hrn, Hrm, Hrd.
Qed.

Lemma ToDiffHeader_size (d : DiffMetadata B) (h h' : Header ID B) (buildID : ID) :
  ToDiffHeader d h buildID = Some (Ok h') →
  Size (HMetadata h') = Size (HMetadata h) ∧ BlockSize (HMetadata h') = BlockSize (HMetadata h).
Proof.
  unfold ToDiffHeader. destruct (toDiffMapping d buildID); simpl; [|done].
  destruct (MergeMappings _ _); simpl; [|done]. intros [= Hh]. revert Hh.
  unfold NewHeader. destruct (_ =? 0); simpl; [done|].
  destruct (TotalBlocks _ _); simpl; try done. destruct (index_mappings _ _ _ _) as [[]| |]; simpl; try done.
  destruct (ValidateMappings _ _ _); unfold soft_fail; simpl; try done; [by intros [= <-]|].
  destruct (IsNormalizeFixApplied _); [done|]. by intros [= <-].
Qed.

(** A template header maps the device onto its own build, byte for byte. *)
Lemma template_wf bs size (buildId : ID) :
  0 < bs → 0 < size → (bs | size) → size + bs ≤ maxI64 →
  ∃ h : Header ID B, NewHeader (NewTemplateMetadata buildId bs size) [] = Ok h ∧
    HMetadata h = NewTemplateMetadata buildId bs size ∧
    HMapping h = [mkBuildMap 0 size buildId 0] ∧ header_wf bs h.
Proof.
  intros Hbs Hsz Hdiv Hfit.
  destruct (NewHeader_wf bs (NewTemplateMetadata buildId bs size) [mkBuildMap 0 size buildId 0])
    as (h & Hh & Hmd & Hmap & Hwf); [done..| | | |].
  - split; [|split].
    + unfold sorted_from, wf_map, End, maxI64 in *. simpl. lia.
    + done.
    + constructor; [|constructor]. simpl. split; [apply Z.divide_0_r|done].
  - intros off id s. rewrite resolve_cons. case_decide; simpl; intros [= <- <-]. lia.
  - intros off id s s'. rewrite !resolve_cons. repeat case_decide; simpl; intros [= <- <-] [= <-]. lia.
  - by exists h.
Qed.

Lemma GetShiftedMapping_run (bs : Z) (h : Header ID B) (off : Z) :
  0 < bs → header_wf bs h → 0 ≤ off < Size (HMetadata h) → (bs | off) →
  ∃ id s len, GetShiftedMapping h off = Ok (s, len, id) ∧
    0 < len ∧ (bs | len) ∧ off + len ≤ Size (HMetadata h) ∧
    ∀ d, 0 ≤ d < len → resolve (HMapping h) (off + d) = Some (id, s + d).
Proof.
  intros Hbs [Hb [Hsz Hfit] Hv _ _ Hi] Hoff Hdiv. pose proof Hdiv as [k ->].
  destruct (GetShiftedMapping_block bs h (HMapping h) ltac:(lia) Hb ltac:(lia) Hi Hv (k * bs) Hoff)
    as (m & Hm & Hcov & ->).
  rewrite Z.mod_mul, Z.div_mul in * by lia. simpl. rewrite andb_false_r.
  pose proof Hv as (Hs & Hc & Ha). pose proof (sorted_from_elem 0 _ m Hs Hm) as [_ Hwf].
  do 3 eexists. split; [done|]. split; [lia|]. split; [|split].
  - apply (proj1 (Forall_forall _ _) Ha) in Hm as [? ?].
    apply Z.divide_sub_r; [by apply Z.divide_add_r|done].
  - assert (End m - 1 < Size (HMetadata h)); [|lia].
    apply (contig_cover 0 (HMapping h) (Size (HMetadata h))); [done|done|].
    rewrite (resolve_elem 0 (HMapping h) m) by (done || lia). eauto.
  - intros d Hd. rewrite (resolve_elem 0 (HMapping h) m) by (done || lia). do 2 f_equal. lia.
Qed.
End layering.

(** ** Properties *)

Section properties.
Context {ID B : Type} `{EqDecision ID, UuidOps ID, BitSetLaws B}.

(** A new template header describes a device of whole blocks without gap
    whose byte [off] is byte [off] of the template's own build. *)
Theorem NewHeader_template (bs size : Z) (buildId : ID) :
  0 < bs → 0 < size → (bs | size) → size + bs ≤ maxI64 →
  ∃ h : Header ID B, NewHeader (NewTemplateMetadata buildId bs size) [] = Ok h ∧ header_wf bs h ∧
    ∀ off, 0 ≤ off < size → resolve (HMapping h) off = Some (buildId, off).
Proof.
  intros Hbs Hsz Hdiv Hfit. destruct (template_wf bs size buildId) as (h & Hh & _ & Hmap & Hwf); [done..|].
  exists h. split_and!; [done|done|]. intros off Hoff.
  rewrite Hmap, resolve_cons, decide_True by (unfold End; simpl; lia). simpl. do 2 f_equal. lia.
Qed.

(** C4: on a well-formed header [GetShiftedMapping] returns, for a block
    boundary inside the device, the build and position of that byte and the
    length of a run of whole blocks that stays inside the device and is stored
    consecutively from there: its binary search over [blockStarts] and
    [startMap] agrees with a linear scan of the mappings. *)
Theorem GetShiftedMapping_resolves (bs : Z) (h : Header ID B) (off : Z) :
  0 < bs → header_wf bs h → 0 ≤ off < Size (HMetadata h) → (bs | off) →
  ∃ id s len, GetShiftedMapping h off = Ok (s, len, id) ∧
    0 < len ∧ (bs | len) ∧ off + len ≤ Size (HMetadata h) ∧
    ∀ d, 0 ≤ d < len → resolve (HMapping h) (off + d) = Some (id, s + d).
Proof. apply GetShiftedMapping_run. Qed.

(** A header of version 3 or later rejects an offset outside the device
    and an offset that is not a block boundary; an older header only logs, and
    answers an unaligned offset with the answer for the start of its block. *)
Theorem GetShiftedMapping_bounds (bs : Z) (h : Header ID B) (off : Z) :
  0 < bs → header_wf bs h →
  if IsNormalizeFixApplied h then
    (¬ 0 ≤ off < Size (HMetadata h) → GetShiftedMapping h off = Err (ErrOutOfBounds off (Size (HMetadata h)))) ∧
    (0 ≤ off < Size (HMetadata h) → ¬ (bs | off) → GetShiftedMapping h off = Err (ErrNotAligned off bs))
  else
    0 ≤ off < Size (HMetadata h) → GetShiftedMapping h off = GetShiftedMapping h (off / bs * bs).
Proof.
  intros Hbs [Hb [Hsz Hfit] Hv _ _ Hi].
  pose proof (GetShiftedMapping_block bs h (HMapping h) ltac:(lia) Hb ltac:(lia) Hi Hv) as Hblk.
  destruct (IsNormalizeFixApplied h) eqn:Ev.
  - split; [intros ?; apply getMapping_out; [lia|lia|done]|]. intros Hoff Hdiv.
    destruct (Hblk off Hoff) as (m & _ & _ & ->).
    destruct (Z.eqb_spec (off mod bs) 0) as [E|E]; [|done].
    destruct Hdiv. apply Z.mod_divide; [lia|done].
  - intros Hoff. pose proof (div_self_bound off bs ltac:(lia) Hbs). pose proof (Z.mul_div_le off bs Hbs).
    destruct (Hblk off Hoff) as (m & Hm & Hc & ->).
    destruct (Hblk (off / bs * bs)) as (m' & Hm' & Hc' & ->); [nia|].
    rewrite Z.div_mul in * by lia. simpl. destruct Hv as (Hs & _ & _).
    by rewrite (sorted_cover_unique 0 (HMapping h) m m' (off / bs * bs)).
Qed.

(** C3: the header of a snapshot reads a block from nowhere (the null build)
    when the diff says it became empty, from the snapshot's data file - at the
    rank of the block among the dirty ones - when it is dirty, and from where
    the original header reads it otherwise; the new header is again well formed,
    validated, and one generation later. *)
Theorem ToDiffHeader_layers (bs : Z) (d : DiffMetadata B) (h : Header ID B) (buildID : ID) :
  0 < bs → header_wf bs h → DiffBlockSize d = bs →
  bits_fit (Dirty d) bs (Size (HMetadata h)) → bits_fit (Empty d) bs (Size (HMetadata h)) →
  buildID ≠ uuid_nil → (∀ off s, resolve (HMapping h) off ≠ Some (buildID, s)) →
  ∃ h' : Header ID B, ToDiffHeader d h buildID = Some (Ok h') ∧
    HMetadata h' = NextGeneration (HMetadata h) buildID ∧ header_wf bs h' ∧
    ∀ i r, 0 ≤ r < bs →
      canon uuid_nil (resolve (HMapping h') (i * bs + r)) =
      canon uuid_nil
        (match rank (set_bits (Empty d)) i, rank (set_bits (Dirty d)) i with
         | Some _, _ => Some (uuid_nil, 0)
         | None, Some p => Some (buildID, p * bs + r)
         | None, None => resolve (HMapping h) (i * bs + r)
         end).
Proof.
  intros Hbs Hwf Hd Hdf Hef Hid Hfresh.
  destruct (ToDiffHeader_wf bs d h buildID) as (h' & Hh' & Hmd & Hwf' & Hr); [done..|].
  exists h'. split_and!; [done..|]. intros i r Hir. rewrite Hr by done.
  unfold diff_reading. rewrite Hd.
  destruct (rank (set_bits (Empty d)) i); simpl; [by rewrite !decide_True by done|].
  by destruct (rank (set_bits (Dirty d)) i).
Qed.
End properties.

(** For mappings whose lengths fit the signed range, [ValidateMappings]
    accepts exactly the lists that follow each other from 0 to [size] in whole
    blocks; it panics (on [mappings[-1]]) only for an empty list and a non-empty
    device. *)
Theorem ValidateMappings_decides {ID} (l : list (BuildMap ID)) (size bs : Z) :
  0 < bs → 0 ≤ size ≤ maxI64 → Forall u64_map l →
  match ValidateMappings l size bs with
  | Ok _ => contig 0 l size ∧ Forall (λ m, (bs | Length m)) l
  | Err _ => ¬ (contig 0 l size ∧ Forall (λ m, (bs | Length m)) l)
  | Panic => l = [] ∧ size ≠ 0
  end.
Proof. apply ValidateMappings_exact. Qed.

Lemma ValidateMappings_decides_witness :
  contig 0 ex_base 24576 ∧ Forall (λ m, (4096 | Length m)) ex_base.
Proof.
  refine (ValidateMappings_decides ex_base 24576 4096 _ _ _).
  - lia.
  - by vm_compute.
  - repeat constructor; by vm_compute.
Defined.

(** The second mapping of this list is almost 2^64 bytes long; the third starts
    where the second one's end wraps to, before the end of the first. *)
Definition ex_wrapping : list (BuildMap nat) :=
  [mkBuildMap 0 8192 1%nat 0; mkBuildMap 8192 18446744073709547520 2%nat 0;
   mkBuildMap 4096 4096 3%nat 0].

(** The bound on the lengths is needed: the sum [currentOffset +
    mapping.Length] is not checked for overflow, so a list with a mapping that
    reaches past the device and wraps around is accepted. *)
Theorem ValidateMappings_accepts_overflow :
  ValidateMappings ex_wrapping 8192 4096 = Ok () ∧
  ∃ m, m ∈ ex_wrapping ∧ End m > 8192.
Proof.
  split; [by vm_compute|]. exists (mkBuildMap 8192 18446744073709547520 2%nat 0).
  split; [right; left|by vm_compute].
Qed.

(** *** A header to evaluate the definitions on *)
#[local] Existing Instances BoolBits.ops BoolBits.laws Bytes16.ops Bytes16.eq_dec.

Module Example.
Definition base : Bytes16.t := Bytes16.rep Byte.x01.
Definition snap : Bytes16.t := Bytes16.rep Byte.x02.
Definition header : Header Bytes16.t (list bool) :=
  mkHeader (NewTemplateMetadata base 4096 16384) [true; false; false; false]
    {[ 0 := mkBuildMap 0 16384 base 0 ]} [mkBuildMap 0 16384 base 0].
Definition diff : DiffMetadata (list bool) :=
  mkDiffMetadata [false; true; false; true] [false; false; true] 4096.

Lemma header_is_new :
  NewHeader (NewTemplateMetadata base 4096 16384) [] = Ok header.
Proof. by vm_compute. Qed.

Lemma wf : header_wf 4096 header.
Proof.
  destruct (template_wf (B := list bool) 4096 16384 base) as (h & Hh & _ & _ & Hwf);
    [lia|lia|by exists 4|by vm_compute|].
  rewrite header_is_new in Hh. by injection Hh as <-.
Qed.
End Example.

Lemma NewHeader_template_witness :
  resolve (HMapping Example.header) 5000 = Some (Example.base, 5000).
Proof.
  destruct (NewHeader_template (B := list bool) 4096 16384 Example.base) as (h & Hh & _ & Hr);
    [lia|lia|by exists 4|by vm_compute|].
  rewrite Example.header_is_new in Hh. injection Hh as <-. apply Hr. lia.
Defined.

Lemma GetShiftedMapping_resolves_witness :
  GetShiftedMapping Example.header 4096 = Ok (4096, 12288, Example.base) ∧
  ∃ id s len, GetShiftedMapping Example.header 4096 = Ok (s, len, id) ∧ 0 < len.
Proof.
  split; [by vm_compute|].
  destruct (GetShiftedMapping_resolves 4096 Example.header 4096) as (id & s & len & H & Hl & _);
    [lia|exact Example.wf|by vm_compute|by exists 1|].
  by exists id, s, len.
Defined.

Lemma GetShiftedMapping_bounds_witness :
  GetShiftedMapping Example.header 16384 = Err (ErrOutOfBounds 16384 16384) ∧
  GetShiftedMapping Example.header 100 = Err (ErrNotAligned 100 4096).
Proof.
  pose proof (GetShiftedMapping_bounds 4096 Example.header 16384 ltac:(lia) Example.wf) as H1.
  pose proof (GetShiftedMapping_bounds 4096 Example.header 100 ltac:(lia) Example.wf) as H2.
  split.
  - apply (proj1 H1). simpl. lia.
  - apply (proj2 H2); [simpl; lia|]. intros [k Hk]. lia.
Defined.

Lemma ToDiffHeader_layers_witness :
  ∃ h', ToDiffHeader Example.diff Example.header Example.snap = Some (Ok h') ∧
    resolve (HMapping h') (3 * 4096 + 7) = Some (Example.snap, 4096 + 7).
Proof.
  destruct (ToDiffHeader_layers 4096 Example.diff Example.header Example.snap)
    as (h' & Hh' & _ & _ & Hr).
  - lia.
  - exact Example.wf.
  - reflexivity.
  - split; [by vm_compute|]. apply Forall_forall. repeat constructor; by vm_compute.
  - split; [by vm_compute|]. apply Forall_forall. repeat constructor; by vm_compute.
  - by vm_compute.
  - intros off s. change (HMapping Example.header) with [mkBuildMap 0 16384 Example.base 0].
    rewrite resolve_cons. case_decide; [|done]. by vm_compute.
  - exists h'. split; [exact Hh'|].
    specialize (Hr 3 7 ltac:(lia)).
    eapply (canon_Some_inv uuid_nil); [symmetry; exact Hr|by vm_compute|by vm_compute].
Defined.
