(* ===== verification/Serialization.v ===== *)
(** * Serialized headers

    packages/shared/pkg/storage/header/[serialization.go]: [Serialize] writes a
    header's metadata and mappings with [binary.Write] (little endian, fields in
    declaration order, no padding), [DeserializeBytes] reads them back with
    [binary.Read] until the end of the data.

    [binary.Read] of the Go standard library is modelled for these two structs:
    it returns [io.EOF] when no byte is left, [io.ErrUnexpectedEOF] when some but
    not enough bytes are left, and decodes the fields otherwise. *)
From Stdlib Require Import Init.Byte.
From S2P Require Import Prelude Bitset Uuid Mapping Merge Header.

(** ** Little-endian integers *)
Definition byte_of_Z (z : Z) : byte := default x00 (Byte.of_N (Z.to_N (z mod 256))).
Definition Z_of_byte (b : byte) : Z := Z.of_N (Byte.to_N b).

Fixpoint le_encode (n : nat) (z : Z) : list byte :=
  match n with O => [] | S n => byte_of_Z z :: le_encode n (z / 256) end.
Fixpoint le_decode (bs : list byte) : Z :=
  match bs with [] => 0 | b :: bs => Z_of_byte b + 256 * le_decode bs end.

Lemma Z_of_byte_range b : 0 ≤ Z_of_byte b < 256.
Proof. unfold Z_of_byte. pose proof (Byte.to_N_bounded b). lia. Qed.
Lemma Z_of_byte_of_Z z : Z_of_byte (byte_of_Z z) = z mod 256.
Proof.
  pose proof (Z.mod_pos_bound z 256). unfold byte_of_Z, Z_of_byte.
  destruct (Byte.of_N (Z.to_N (z mod 256))) as [b|] eqn:E; simpl.
  - apply Byte.to_of_N in E. rewrite E. lia.
  - apply Byte.of_N_None_iff in E. lia.
Qed.
Lemma byte_of_Z_of_byte b z : byte_of_Z (Z_of_byte b + 256 * z) = b.
Proof.
  pose proof (Z_of_byte_range b). unfold byte_of_Z.
  replace (Z_of_byte b + 256 * z) with (Z_of_byte b + z * 256) by lia.
  rewrite Z.mod_add, Z.mod_small by lia. unfold Z_of_byte. by rewrite N2Z.id, Byte.of_to_N.
Qed.

Lemma length_le_encode n z : length (le_encode n z) = n.
Proof. revert z. induction n as [|n IH]; intros z; simpl; [done|]. by rewrite IH. Qed.
Lemma le_decode_encode n z : le_decode (le_encode n z) = z mod 256 ^ Z.of_nat n.
Proof.
  revert z. induction n as [|n IH]; intros z; [by rewrite Z.mod_1_r|].
  simpl le_decode. rewrite IH, Z_of_byte_of_Z.
  rewrite Nat2Z.inj_succ, Z.pow_succ_r by lia. rewrite (Z.mul_comm 256 (256 ^ _)).
  rewrite (Z.mul_comm (256 ^ Z.of_nat n) 256).
  rewrite Z.rem_mul_r by lia. lia.
Qed.
Lemma le_encode_decode bs : le_encode (length bs) (le_decode bs) = bs.
Proof.
  induction bs as [|b bs IH]; simpl; [done|]. rewrite byte_of_Z_of_byte. f_equal.
  replace ((Z_of_byte b + 256 * le_decode bs) / 256) with (le_decode bs); [done|].
  pose proof (Z_of_byte_range b). symmetry.
  rewrite Z.mul_comm, Z.div_add, Z.div_small; lia.
Qed.
Lemma le_decode_range bs : 0 ≤ le_decode bs < 256 ^ Z.of_nat (length bs).
Proof.
  induction bs as [|b bs IH]; simpl; [lia|].
  pose proof (Z_of_byte_range b). rewrite Nat2Z.inj_succ, Z.pow_succ_r by lia. lia.
Qed.

Definition is_u64 (z : Z) : Prop := 0 ≤ z < 18446744073709551616.
Lemma le8 z : is_u64 z → le_decode (le_encode 8 z) = z.
Proof. intros. rewrite le_decode_encode. by apply Z.mod_small. Qed.
Lemma le8_range bs : length bs = 8%nat → is_u64 (le_decode bs).
Proof. intros H. pose proof (le_decode_range bs) as Hr. by rewrite H in Hr. Qed.

(** ** Encoding *)
Inductive BlobError (ID : Type) : Type :=
  | ErrGetBlob
  | ErrReadMetadata
  | ErrReadMapping
  | ErrNewHeader (e : HeaderError ID).
Arguments ErrGetBlob {ID}.
Arguments ErrReadMetadata {ID}.
Arguments ErrReadMapping {ID}.
Arguments ErrNewHeader {ID}.

Inductive read_res (A : Type) : Type :=
  | ReadEOF
  | ReadUnexpectedEOF
  | ReadOk (a : A) (rest : list byte).
Arguments ReadEOF {A}.
Arguments ReadUnexpectedEOF {A}.
Arguments ReadOk {A}.

Section codec.
Context {ID B : Type} `{EqDecision ID, UuidOps ID, BitSetOps B}.

Definition write_metadata (md : Metadata ID) : list byte :=
  le_encode 8 (Version md) ++ le_encode 8 (BlockSize md) ++ le_encode 8 (Size md) ++
  le_encode 8 (Generation md) ++ uuid_bytes (MetaBuildId md) ++ uuid_bytes (BaseBuildId md).

Definition write_mapping (m : BuildMap ID) : list byte :=
  le_encode 8 (Offset m) ++ le_encode 8 (Length m) ++ uuid_bytes (BuildId m) ++
  le_encode 8 (BuildStorageOffset m).

Definition Serialize (metadata : Metadata ID) (mappings : list (BuildMap ID)) : list byte :=
  foldl (λ buf m, buf ++ write_mapping m) (write_metadata metadata) mappings.

(** [binary.Read] of a struct of [n] bytes. *)
Definition read_struct {A} (n : nat) (decode : list byte → A) (data : list byte) : read_res A :=
  match data with
  | [] => ReadEOF
  | _ =>
      if (length data <? n)%nat then ReadUnexpectedEOF
      else ReadOk (decode (take n data)) (drop n data)
  end.

(** The field of [n] bytes at [i]. *)
Definition field (i n : nat) (bs : list byte) : list byte := take n (drop i bs).

Definition decode_metadata (bs : list byte) : Metadata ID :=
  mkMetadata (le_decode (field 0 8 bs)) (le_decode (field 8 8 bs)) (le_decode (field 16 8 bs))
    (le_decode (field 24 8 bs)) (uuid_of_bytes (field 32 16 bs)) (uuid_of_bytes (field 48 16 bs)).

Definition decode_mapping (bs : list byte) : BuildMap ID :=
  mkBuildMap (le_decode (field 0 8 bs)) (le_decode (field 8 8 bs))
    (uuid_of_bytes (field 16 16 bs)) (le_decode (field 32 8 bs)).

Definition read_metadata := read_struct 64 decode_metadata.
Definition read_mapping := read_struct 40 decode_mapping.

(** The loop of [DeserializeBytes]; the outer [None] is running out of fuel. *)
Fixpoint read_mappings (fuel : nat) (data : list byte) (mappings : list (BuildMap ID))
    : option (res (BlobError ID) (list (BuildMap ID))) :=
  match fuel with
  | O => None
  | S fuel =>
      match read_mapping data with
      | ReadEOF => Some (Ok mappings)
      | ReadUnexpectedEOF => Some (Err ErrReadMapping)
      | ReadOk m rest => read_mappings fuel rest (mappings ++ [m])
      end
  end.

Definition lift_header {A} (r : res (HeaderError ID) A) : res (BlobError ID) A :=
  match r with Ok a => Ok a | Err e => Err (ErrNewHeader e) | Panic => Panic end.

Definition DeserializeBytes (data : list byte) : option (res (BlobError ID) (Header ID B)) :=
  match read_metadata data with
  | ReadEOF | ReadUnexpectedEOF => Some (Err ErrReadMetadata)
  | ReadOk metadata rest =>
      mappings ← read_mappings (S (length rest)) rest [];
      Some (l ← mappings; lift_header (NewHeader metadata l))
  end.

(** [storage.GetBlob] is the argument [GetBlob]. *)
Definition Deserialize {Blob} (GetBlob : Blob → option (list byte)) (in_ : Blob)
    : option (res (BlobError ID) (Header ID B)) :=
  match GetBlob in_ with
  | None => Some (Err ErrGetBlob)
  | Some data => DeserializeBytes data
  end.
End codec.

(** ** Laws *)
Section codec_laws.
Context {ID B : Type} `{EqDecision ID, UuidLaws ID, BitSetOps B}.
Implicit Types (m : BuildMap ID) (md : Metadata ID).

Definition u64_fields m : Prop :=
  is_u64 (Offset m) ∧ is_u64 (Length m) ∧ is_u64 (BuildStorageOffset m).
Definition u64_metadata md : Prop :=
  is_u64 (Version md) ∧ is_u64 (BlockSize md) ∧ is_u64 (Size md) ∧ is_u64 (Generation md).

Lemma field_app_l i n l1 l2 :
  length l1 = i → field i n (l1 ++ l2) = take n l2.
Proof. intros <-. unfold field. by rewrite drop_app_length. Qed.

Lemma length_write_mapping m : length (write_mapping m) = 40%nat.
Proof. unfold write_mapping. rewrite !length_app, !length_le_encode, uuid_bytes_length. done. Qed.
Lemma length_write_metadata md : length (write_metadata md) = 64%nat.
Proof. unfold write_metadata. rewrite !length_app, !length_le_encode, !uuid_bytes_length. done. Qed.

(** The field at [i] of a concatenation that starts with [i] bytes. *)
Lemma field_skip (l l' : list byte) i n :
  (length l ≤ i)%nat → field i n (l ++ l') = field (i - length l) n l'.
Proof. intros. unfold field. by rewrite drop_app_ge. Qed.
Lemma field_first (l l' : list byte) n : length l = n → field 0 n (l ++ l') = l.
Proof. intros <-. unfold field. by rewrite drop_0, take_app_length. Qed.
Lemma field_only (l : list byte) n : length l = n → field 0 n l = l.
Proof. intros <-. unfold field. by rewrite drop_0, firstn_all. Qed.

Ltac field_step :=
  first [ rewrite field_first by (rewrite ?length_le_encode, ?uuid_bytes_length; done)
        | rewrite field_only by (rewrite ?length_le_encode, ?uuid_bytes_length; done)
        | rewrite field_skip by (rewrite ?length_le_encode, ?uuid_bytes_length; lia);
          rewrite ?length_le_encode, ?uuid_bytes_length; simpl Nat.sub ].

Lemma decode_write_mapping m : u64_fields m → decode_mapping (write_mapping m) = m.
Proof.
  intros (? & ? & ?). unfold decode_mapping, write_mapping. repeat field_step.
  rewrite uuid_of_bytes_bytes, !le8 by done. by destruct m.
Qed.
Lemma decode_write_metadata md : u64_metadata md → decode_metadata (write_metadata md) = md.
Proof.
  intros (? & ? & ? & ?). unfold decode_metadata, write_metadata. repeat field_step.
  rewrite !uuid_of_bytes_bytes, !le8 by done. by destruct md.
Qed.

Lemma field_split i n k (l : list byte) : field i n (drop k l) = field (k + i) n l.
Proof. unfold field. by rewrite drop_drop. Qed.
Lemma length_field i n (l : list byte) : (i + n ≤ length l)%nat → length (field i n l) = n.
Proof. intros. unfold field. rewrite length_take, length_drop. lia. Qed.
Lemma field_cons i n k (l : list byte) :
  (n ≤ k)%nat → field i n l ++ field (i + n) (k - n) l = field i k l.
Proof.
  intros. unfold field. rewrite <-(drop_drop _ n i).
  rewrite <-(firstn_skipn n (take k (drop i l))) at 1.
  rewrite take_take, Nat.min_l by lia. f_equal.
  rewrite skipn_firstn_comm. done.
Qed.

Lemma le_field i (l : list byte) :
  (i + 8 ≤ length l)%nat → le_encode 8 (le_decode (field i 8 l)) = field i 8 l.
Proof.
  intros Hl. pose proof (le_encode_decode (field i 8 l)) as E. by rewrite length_field in E.
Qed.

Lemma write_decode_mapping bs : length bs = 40%nat → write_mapping (decode_mapping bs) = bs.
Proof.
  intros Hl. unfold write_mapping, decode_mapping.
  cbn [Offset Length BuildId BuildStorageOffset].
  rewrite uuid_bytes_of_bytes by (apply length_field; lia).
  rewrite !le_field by lia.
  rewrite (field_cons 16 16 24), (field_cons 8 8 32), (field_cons 0 8 40) by lia.
  by apply field_only.
Qed.
Lemma write_decode_metadata bs : length bs = 64%nat → write_metadata (decode_metadata bs) = bs.
Proof.
  intros Hl. unfold write_metadata, decode_metadata.
  cbn [Version BlockSize Size Generation MetaBuildId BaseBuildId].
  rewrite !uuid_bytes_of_bytes by (apply length_field; lia).
  rewrite !le_field by lia.
  rewrite (field_cons 32 16 32), (field_cons 24 8 40), (field_cons 16 8 48), (field_cons 8 8 56),
    (field_cons 0 8 64) by lia.
  by apply field_only.
Qed.

Lemma Serialize_concat md l :
  Serialize md l = write_metadata md ++ concat (write_mapping <$> l).
Proof.
  unfold Serialize. generalize (write_metadata md). induction l as [|m l IH]; intros buf; simpl.
  - by rewrite app_nil_r.
  - rewrite IH. by rewrite <-app_assoc.
Qed.

Lemma read_struct_app {A} n (decode : list byte → A) bs rest :
  length bs = n → (0 < n)%nat → read_struct n decode (bs ++ rest) = ReadOk (decode bs) rest.
Proof.
  intros Hl Hn. unfold read_struct. destruct (bs ++ rest) as [|b l] eqn:E.
  { destruct bs; simpl in *; [lia|done]. }
  rewrite <-E. rewrite length_app. destruct (Nat.ltb_spec (length bs + length rest) n); [lia|].
  subst n. by rewrite take_app_length, drop_app_length.
Qed.

Lemma read_mappings_concat fuel l acc :
  Forall u64_fields l → (length l < fuel)%nat →
  read_mappings fuel (concat (write_mapping <$> l)) acc = Some (Ok (acc ++ l)).
Proof.
  revert fuel acc. induction l as [|m l IH]; intros fuel acc Hl Hf.
  - destruct fuel; simpl in *; [lia|]. by rewrite app_nil_r.
  - apply Forall_cons in Hl as [Hm Hl]. cbn [length] in Hf. destruct fuel as [|fuel]; [lia|].
    rewrite fmap_cons. cbn [concat read_mappings]. unfold read_mapping. rewrite read_struct_app by (apply length_write_mapping || lia).
    rewrite IH, decode_write_mapping by (done || lia). by rewrite <-app_assoc.
Qed.

(** Reading, for any bytes: a whole number of records or an error. *)
Lemma read_mappings_total fuel data acc :
  (length data < fuel)%nat →
  if (length data mod 40 =? 0)%nat then
    ∃ l, read_mappings fuel data acc = Some (Ok (acc ++ l)) ∧
      concat (write_mapping <$> l) = data ∧ Forall u64_fields l
  else read_mappings fuel data acc = Some (Err ErrReadMapping).
Proof.
  revert data acc. induction fuel as [|fuel IH]; intros data acc Hf; [lia|].
  cbn [read_mappings].
  unfold read_mapping, read_struct. destruct data as [|b data'] eqn:Ed.
  { simpl. exists []. by rewrite app_nil_r. }
  rewrite <-Ed in *. destruct (Nat.ltb_spec (length data) 40) as [Hlt|Hge].
  { rewrite Nat.mod_small by lia.
    destruct (Nat.eqb_spec (length data) 0) as [E|]; [|done]. subst data. simpl in E. lia. }
  assert (length (drop 40 data) = length data - 40)%nat as Hld by apply length_drop.
  assert (length data mod 40 = length (drop 40 data) mod 40)%nat as ->.
  { rewrite Hld. replace (length data) with (length data - 40 + 1 * 40)%nat at 1 by lia.
    apply Nat.Div0.mod_add. }
  specialize (IH (drop 40 data) (acc ++ [decode_mapping (take 40 data)])).
  destruct (Nat.eqb_spec (length (drop 40 data) mod 40) 0); [|apply IH; lia].
  destruct IH as (l & -> & Hl & Hu); [lia|].
  exists (decode_mapping (take 40 data) :: l). rewrite <-app_assoc. split; [done|].
  assert (length (take 40 data) = 40%nat) as Ht by (rewrite length_take; lia).
  split.
  - rewrite fmap_cons. cbn [concat]. rewrite write_decode_mapping, Hl by done. apply firstn_skipn.
  - constructor; [|done]. unfold u64_fields, decode_mapping. cbn [Offset Length BuildStorageOffset].
    split_and!; apply le8_range, length_field; lia.
Qed.
End codec_laws.

(** ** Properties *)
Section properties.
Context {ID B : Type} `{EqDecision ID, UuidLaws ID, BitSetOps B}.

(** C17: reading back the bytes [Serialize] wrote gives the header [NewHeader]
    builds from the same metadata and mappings (or its error). *)
Theorem DeserializeBytes_Serialize (md : Metadata ID) (l : list (BuildMap ID)) :
  u64_metadata md → Forall u64_fields l →
  DeserializeBytes (B := B) (Serialize md l) = Some (lift_header (NewHeader md l)).
Proof.
  intros Hmd Hl. rewrite Serialize_concat. unfold DeserializeBytes, read_metadata.
  rewrite read_struct_app by (apply length_write_metadata || lia).
  rewrite decode_write_metadata by done.
  rewrite read_mappings_concat; [done|done|].
  rewrite (concat_length_uniform 40).
  - rewrite length_fmap. lia.
  - apply Forall_fmap, Forall_true. intros m. apply length_write_mapping.
Qed.

(** For arbitrary bytes [DeserializeBytes] terminates; it fails exactly
    when the metadata is cut short or a mapping is cut short, and otherwise the
    bytes are exactly the serialization of the metadata and mappings it read. *)
Theorem DeserializeBytes_canonical (data : list byte) :
  ∃ r, DeserializeBytes (ID := ID) (B := B) data = Some r ∧
    if (length data <? 64)%nat then r = Err ErrReadMetadata
    else if ((length data - 64) mod 40 =? 0)%nat then
      ∃ md l, u64_metadata md ∧ Forall u64_fields l ∧ Serialize md l = data ∧
        r = lift_header (NewHeader md l)
    else r = Err ErrReadMapping.
Proof.
  unfold DeserializeBytes, read_metadata, read_struct. destruct data as [|b data'] eqn:Ed.
  { eexists. split; [done|]. done. }
  rewrite <-Ed. destruct (Nat.ltb_spec (length data) 64) as [Hlt|Hge]; [eauto|].
  assert (length (take 64 data) = 64%nat) as Ht by (rewrite length_take; lia).
  pose proof (read_mappings_total (S (length (drop 64 data))) (drop 64 data) [] ltac:(lia)) as Hr.
  rewrite <-(length_drop data 64).
  destruct (length (drop 64 data) mod 40 =? 0)%nat; [|rewrite Hr; by eexists].
  destruct Hr as (l & -> & Hl & Hu). eexists. split; [done|].
  exists (decode_metadata (take 64 data)), l. split; [|split; [done|split; [|done]]].
  - unfold u64_metadata, decode_metadata. cbn [Version BlockSize Size Generation].
    split_and!; apply le8_range, length_field; lia.
  - rewrite Serialize_concat, Hl, write_decode_metadata by done. apply firstn_skipn.
Qed.
End properties.

#[local] Existing Instances BoolBits.ops BoolBits.laws Bytes16.ops Bytes16.eq_dec Bytes16.laws.

Lemma DeserializeBytes_Serialize_witness :
  DeserializeBytes (Serialize (HMetadata Example.header) (HMapping Example.header)) =
    Some (Ok Example.header).
Proof.
  etrans; [apply (DeserializeBytes_Serialize (HMetadata Example.header) (HMapping Example.header))|].
  - repeat split; by vm_compute.
  - repeat constructor; by vm_compute.
  - by vm_compute.
Defined.

Lemma DeserializeBytes_canonical_witness :
  ∃ r, DeserializeBytes (ID := Bytes16.t) (B := list bool) (replicate 104 Byte.x01) = Some r ∧
    ∃ md l, Serialize md l = replicate 104 Byte.x01 ∧ r = lift_header (NewHeader md l).
Proof.
  destruct (DeserializeBytes_canonical (ID := Bytes16.t) (B := list bool) (replicate 104 Byte.x01))
    as (r & Hr & md & l & _ & _ & Hs & He).
  exists r. split; [exact Hr|]. by exists md, l.
Defined.
