(* ===== verification/Diff.v ===== *)
(** * Building a diff

    packages/shared/pkg/storage/header: [IsEmptyBlock] of [diff.go] and the
    [DiffMetadataBuilder] of [metadata.go], which sorts the blocks of a snapshot
    into empty ones (recorded only) and dirty ones (recorded and appended to the
    data file).

    The [io.Writer] the data goes to is the caller's: it is an instance of
    [WriterOps], and [AppendingWriter] is what the standard library promises of
    a writer that does not fail. *)
From Stdlib Require Import Init.Byte.
From S2P Require Import Prelude Bitset Uuid Mapping Merge Header.

Class WriterOps (W : Type) := {
  w_write : W → list byte → W * Z * bool;  (** [n, err := out.Write(p)]; [true] is [err == nil] *)
  w_data : W → list byte;                  (** what has been written *)
}.
Class AppendingWriter (W : Type) `{WriterOps W} : Prop := {
  w_write_all w p : (w_write w p).1.2 = zlength p ∧ (w_write w p).2 = true;
  w_write_data w p : w_data (w_write w p).1.1 = w_data w ++ p;
}.

(** [bytes.Buffer] *)
#[export] Instance buffer_ops : WriterOps (list byte) := {
  w_write w p := (w ++ p, zlength p, true);
  w_data w := w;
}.
#[export] Instance buffer_appends : AppendingWriter (list byte).
Proof. by split. Qed.

(** ** diff.go *)
Definition PageSize : Z := Z.shiftl 2 11.
Definition HugepageSize : Z := Z.shiftl 2 20.
Definition RootfsBlockSize : Z := Z.shiftl 2 11.

Definition EmptyHugePage : list byte := replicate (Z.to_nat HugepageSize) x00.
Definition EmptyBlock : list byte := replicate (Z.to_nat RootfsBlockSize) x00.

Inductive DiffError : Type :=
  | ErrBlockSizeNotSupported (blockSize : Z)
  | ErrWrite
  | ErrShortWrite (n blockSize : Z).
#[export] Instance DiffError_eq_dec : EqDecision DiffError.
Proof. solve_decision. Defined.

Definition IsEmptyBlock (block : list byte) (blockSize : Z) : res DiffError bool :=
  if blockSize =? HugepageSize then Ok (bool_decide (block = EmptyHugePage))
  else if blockSize =? RootfsBlockSize then Ok (bool_decide (block = EmptyBlock))
  else Err (ErrBlockSizeNotSupported blockSize).

(** ** DiffMetadataBuilder *)
Section builder.
Context {B W : Type} `{BitSetOps B, WriterOps W}.

Record DiffMetadataBuilder := mkBuilder { bdirty : B; bempty : B; bblockSize : Z }.

Definition NewDiffMetadataBuilder {E} (size blockSize : Z) : res E DiffMetadataBuilder :=
  blocks ← TotalBlocks size blockSize;
  Ok (mkBuilder (bs_new (u64 blocks)) (bs_new 0) blockSize).

(** The builder and the writer after the call, and its result. *)
Definition Process (b : DiffMetadataBuilder) (block : list byte) (out : W) (offset : Z)
    : DiffMetadataBuilder * W * res DiffError () :=
  match BlockIdx offset (bblockSize b) with
  | Panic => (b, out, Panic)
  | Err e => (b, out, Err e)
  | Ok blockIdx =>
      match IsEmptyBlock block (bblockSize b) with
      | Panic => (b, out, Panic)
      | Err e => (b, out, Err e)
      | Ok true =>
          (mkBuilder (bdirty b) (bs_set (bempty b) (u64 blockIdx)) (bblockSize b), out, Ok ())
      | Ok false =>
          let b := mkBuilder (bs_set (bdirty b) (u64 blockIdx)) (bempty b) (bblockSize b) in
          let '(out, n, ok) := w_write out block in
          if negb ok then (b, out, Err ErrWrite)
          else if negb (n =? bblockSize b) then (b, out, Err (ErrShortWrite n (bblockSize b)))
          else (b, out, Ok ())
      end
  end.

Definition Build (b : DiffMetadataBuilder) : DiffMetadata B :=
  mkDiffMetadata (bdirty b) (bempty b) (bblockSize b).
End builder.
Arguments DiffMetadataBuilder : clear implicits.

(** ** Laws *)
Definition supported (bs : Z) : Prop := bs = HugepageSize ∨ bs = RootfsBlockSize.
Definition zeros (bs : Z) : list byte := replicate (Z.to_nat bs) x00.

Lemma supported_pos bs : supported bs → 0 < bs ≤ 2097152.
Proof. intros [->| ->]; by vm_compute. Qed.

Lemma IsEmptyBlock_eq block bs :
  supported bs → IsEmptyBlock block bs = Ok (bool_decide (block = zeros bs)).
Proof.
  assert ((RootfsBlockSize =? HugepageSize) = false) as Hne by by vm_compute.
  intros [->| ->]; unfold IsEmptyBlock, EmptyHugePage, EmptyBlock, zeros.
  - rewrite Z.eqb_refl. exact eq_refl.
  - rewrite Hne, Z.eqb_refl. exact eq_refl.
Qed.

Section builder_laws.
Context {B W : Type} `{BitSetLaws B, AppendingWriter W}.
Implicit Types (b : DiffMetadataBuilder B) (w : W).
Context (bs : Z) (content : Z → list byte).
Hypothesis bs_ok : supported bs.

(** The builder after the blocks [ks]: [content k] are the bytes of block [k]. *)
Definition nonempty_blocks (ks : list Z) : list Z := filter (λ k, content k ≠ zeros bs) ks.
Definition empty_blocks (ks : list Z) : list Z := filter (λ k, content k = zeros bs) ks.

Lemma empty_blocks_snoc ks k :
  empty_blocks (ks ++ [k]) = empty_blocks ks ++ (if decide (content k = zeros bs) then [k] else []).
Proof. unfold empty_blocks. rewrite filter_app, filter_cons. by case_decide. Qed.
Lemma nonempty_blocks_snoc ks k :
  nonempty_blocks (ks ++ [k]) = nonempty_blocks ks ++ (if decide (content k = zeros bs) then [] else [k]).
Proof.
  unfold nonempty_blocks. rewrite filter_app, filter_cons.
  case_decide as D; case_decide as D'; try done.
Qed.
Lemma blocks_sub ks j : j ∈ empty_blocks ks ∨ j ∈ nonempty_blocks ks → j ∈ ks.
Proof. by intros [[_ ?]%list_elem_of_filter|[_ ?]%list_elem_of_filter]. Qed.

Record built (size : Z) (ks : list Z) b w : Prop := {
  bu_bs : bblockSize b = bs;
  bu_dirty : set_bits (bdirty b) = nonempty_blocks ks;
  bu_empty : set_bits (bempty b) = empty_blocks ks;
  bu_dirty_len : bs_len (bdirty b) * bs ≤ size;
  bu_empty_len : bs_len (bempty b) * bs ≤ size;
  bu_data : w_data w = concat (content <$> nonempty_blocks ks);
}.

Lemma Process_built size ks b w k :
  built size ks b w → (∀ j, j ∈ ks → j < k) → 0 ≤ k → (k + 1) * bs ≤ size → size ≤ maxI64 →
  zlength (content k) = bs →
  ∃ b' w', Process b (content k) w (k * bs) = (b', w', Ok ()) ∧ built size (ks ++ [k]) b' w'.
Proof using All.
  intros [] Hks Hk Hsz Hmax content_len. pose proof (supported_pos bs bs_ok). unfold Process.
  rewrite bu_bs0, BlockIdx_eq by lia. rewrite Z.div_mul by lia.
  rewrite IsEmptyBlock_eq by done. assert (k ≤ maxI64) by nia.
  rewrite u64_small by (unfold maxI64 in *; lia).
  case_bool_decide as Hc.
  - eexists _, _. split; [done|].
    split; cbn [bdirty bempty bblockSize];
      rewrite ?nonempty_blocks_snoc, ?empty_blocks_snoc, ?(decide_True (P := content k = zeros bs)),
        ?app_nil_r by done; try done.
    + rewrite set_bits_set_snoc; [by rewrite bu_empty0|done|].
      rewrite bu_empty0. intros j Hj. apply Hks, blocks_sub. by left.
    + rewrite bs_len_set by done. nia.
  - pose proof (w_write_all w (content k)) as [Hn Hok].
    pose proof (w_write_data w (content k)) as Hd.
    destruct (w_write w (content k)) as [[w' n] ok]. simpl in *. subst n ok. simpl.
    rewrite content_len, Z.eqb_refl. simpl. eexists _, _. split; [done|].
    split; cbn [bdirty bempty bblockSize];
      rewrite ?nonempty_blocks_snoc, ?empty_blocks_snoc, ?(decide_False (P := content k = zeros bs)),
        ?app_nil_r by done; try done.
    + rewrite set_bits_set_snoc; [by rewrite bu_dirty0|done|].
      rewrite bu_dirty0. intros j Hj. apply Hks, blocks_sub. by right.
    + rewrite bs_len_set by done. nia.
    + rewrite fmap_app, concat_app, Hd, bu_data0. simpl. by rewrite app_nil_r.
Qed.

Lemma NewDiffMetadataBuilder_built {E} size w :
  0 ≤ size → size + bs ≤ maxI64 → (bs | size) → w_data w = [] →
  ∃ b, NewDiffMetadataBuilder size bs = Ok (E := E) b ∧ built size [] b w.
Proof using All.
  intros Hsz Hfit [n Hn] Hw. pose proof (supported_pos bs bs_ok).
  unfold NewDiffMetadataBuilder. rewrite TotalBlocks_eq by lia. simpl.
  assert ((size + bs - 1) / bs = n) as ->.
  { symmetry. apply (Z.div_unique _ bs n (bs - 1)); lia. }
  assert (0 ≤ n ≤ maxI64) by (unfold maxI64 in *; nia).
  rewrite u64_small by (unfold maxI64 in *; lia).
  eexists. split; [done|]. split; simpl; try done.
  - apply set_bits_new. lia.
  - by apply set_bits_new.
  - rewrite bs_len_new by lia. lia.
  - rewrite bs_len_new by lia. lia.
Qed.
End builder_laws.
