(* ===== verification/BlockRange.v ===== *)
(** * Ranges and trackers of blocks

    packages/orchestrator/internal/sandbox/block: [range.go] (byte ranges and
    the maximal runs of a bit set), [tracker.go] (the set of touched blocks),
    [prefetch_tracker.go] (the order in which blocks were first touched),
    [iov.go] and [splitOversizedRanges] of [cache.go]. *)
From S2P Require Import Prelude Bitset Mapping.

(** ** range.go *)
Record Range := mkRange { Start : Z; RSize : Z (** [Size] *) }.
#[export] Instance Range_eq_dec : EqDecision Range.
Proof. solve_decision. Defined.

Definition REnd (r : Range) : Z := i64 (Start r + RSize r).
Definition NewRange (start size : Z) : Range := mkRange start size.
Definition NewRangeFromBlocks (startIdx numberOfBlocks blockSize : Z) : Range :=
  mkRange (BlockOffset startIdx blockSize) (BlockOffset numberOfBlocks blockSize).

Definition GetSize (rs : list Range) : Z := foldl (λ size r, i64 (size + RSize r)) 0 rs.

Section ranges.
Context {B S : Type} `{BitSetOps B}.

(** The iterator runs the loop body [yield] on each range, threading its state,
    until [yield] returns [false]; [None] is running out of fuel. *)
Fixpoint ranges_loop (fuel : nat) (b : B) (blockSize : Z) (yield : S → Range → S * bool)
    (next : option Z) (s : S) : option S :=
  match next with
  | None => Some s
  | Some start =>
      match fuel with
      | O => None
      | Datatypes.S fuel =>
          match bs_next_clear b start with
          | None =>
              Some (yield s (NewRangeFromBlocks (i64 start) (i64 (u64 (bs_len b - start))) blockSize)).1
          | Some end_ =>
              let '(s, continue) :=
                yield s (NewRangeFromBlocks (i64 start) (i64 (u64 (end_ - start))) blockSize) in
              if negb continue then Some s
              else ranges_loop fuel b blockSize yield (bs_next_set b (u64 (end_ + 1))) s
          end
      end
  end.

Definition BitsetRanges (b : B) (blockSize : Z) (yield : S → Range → S * bool) (s : S) : option S :=
  ranges_loop (Datatypes.S (Z.to_nat (bs_len b))) b blockSize yield (bs_next_set b 0) s.

(** Running a loop body over the elements of a list. *)
Fixpoint iterate (yield : S → Range → S * bool) (rs : list Range) (s : S) : S :=
  match rs with
  | [] => s
  | r :: rs => let '(s, continue) := yield s r in if continue then iterate yield rs s else s
  end.
End ranges.

(** ** iov.go *)
Definition MaxInt32 : Z := 2147483647.
Section iov.
(** [os.Getpagesize()] and [sysconf(_SC_IOV_MAX)]. *)
Context (PAGE_SIZE : Z).
Definition PAGE_MASK : Z := Z.lnot (i64 (PAGE_SIZE - 1)).
Definition MAX_RW_COUNT : Z := Z.land MaxInt32 PAGE_MASK.
Definition getAlignedMaxRwCount {E} (blockSize : Z) : res E Z :=
  q ← go_div MAX_RW_COUNT blockSize; Ok (i64 (q * blockSize)).
End iov.

(** ** splitOversizedRanges *)
Fixpoint split_loop (fuel : nat) (r : Range) (maxSize offset : Z) (result : list Range)
    : option (list Range) :=
  match fuel with
  | O => None
  | S fuel =>
      if offset <? RSize r then
        split_loop fuel r maxSize (i64 (offset + maxSize))
          (result ++ [mkRange (i64 (Start r + offset)) (Z.min (i64 (RSize r - offset)) maxSize)])
      else Some result
  end.

Fixpoint split_ranges (ranges : list Range) (maxSize : Z) (result : list Range)
    : option (list Range) :=
  match ranges with
  | [] => Some result
  | r :: ranges =>
      if RSize r <=? maxSize then split_ranges ranges maxSize (result ++ [r])
      else
        result ← split_loop (S (Z.to_nat (RSize r))) r maxSize 0 result;
        split_ranges ranges maxSize result
  end.
Definition splitOversizedRanges (ranges : list Range) (maxSize : Z) : option (list Range) :=
  split_ranges ranges maxSize [].

(** ** tracker.go

    The methods hold the tracker's lock, so each is one atomic step. *)
Section tracker.
Context {B : Type} `{BitSetOps B}.
Record Tracker := mkTracker { tb : B; tblockSize : Z }.

Definition NewTracker (blockSize : Z) : Tracker := mkTracker (bs_new 0) blockSize.
Definition Has {E} (t : Tracker) (off : Z) : res E bool :=
  idx ← BlockIdx off (tblockSize t); Ok (bs_test (tb t) (u64 idx)).
Definition Add {E} (t : Tracker) (off : Z) : res E Tracker :=
  idx ← BlockIdx off (tblockSize t); Ok (mkTracker (bs_set (tb t) (u64 idx)) (tblockSize t)).
Definition Reset_ (t : Tracker) : Tracker := mkTracker (bs_clear_all (tb t)) (tblockSize t).
Definition BitSet (t : Tracker) : B := tb t.
Definition BlockSize_ (t : Tracker) : Z := tblockSize t.
Definition Clone (t : Tracker) : Tracker := mkTracker (tb t) (tblockSize t).
Definition bitsetOffsets (b : B) (blockSize : Z) : list Z :=
  (λ idx, BlockOffset (i64 idx) blockSize) <$> set_bits b.
Definition Offsets (t : Tracker) : list Z := bitsetOffsets (tb t) (tblockSize t).
End tracker.
Arguments Tracker : clear implicits.

(** ** prefetch_tracker.go *)
Inductive AccessType := Read | Write | Prefetch.
Record PrefetchBlockEntry := mkEntry { Index : Z; Order : Z; EAccessType : AccessType }.
Record PrefetchData_ := mkPrefetchData { BlockEntries : gmap Z PrefetchBlockEntry; PDBlockSize : Z }.
Record PrefetchTracker := mkPrefetchTracker {
  ptblockSize : Z;
  blockEntries : gmap Z PrefetchBlockEntry;
  orderCounter : Z;
  isTracking : bool;
}.

Definition NewPrefetchTracker (blockSize : Z) : PrefetchTracker :=
  mkPrefetchTracker blockSize ∅ 1 true.

Definition PAdd {E} (t : PrefetchTracker) (off : Z) (accessType : AccessType) : res E PrefetchTracker :=
  if negb (isTracking t) then Ok t
  else
    i ← BlockIdx off (ptblockSize t);
    let idx := u64 i in
    match blockEntries t !! idx with
    | Some _ => Ok t
    | None =>
        Ok (mkPrefetchTracker (ptblockSize t)
              (<[idx := mkEntry idx (orderCounter t) accessType]> (blockEntries t))
              (u64 (orderCounter t + 1)) (isTracking t))
    end.

Definition PrefetchData (t : PrefetchTracker) : PrefetchData_ * PrefetchTracker :=
  (mkPrefetchData (blockEntries t) (ptblockSize t),
   mkPrefetchTracker (ptblockSize t) (blockEntries t) (orderCounter t) false).

(** ** The ranges of a bit set are its maximal runs *)
Section runs.
Context {B : Type} `{BitSetLaws B}.
Context (b : B) (bs : Z).
Hypothesis bs_pos : 0 < bs.
Hypothesis fits : bs_len b * bs ≤ maxI64.

Definition range_blocks (r : Range) : list Z := seqZ (Start r / bs) (RSize r / bs).

(** Runs of whole blocks, at least one clear block apart, from block [lo] on. *)
Fixpoint runs_from (lo : Z) (rs : list Range) : Prop :=
  match rs with
  | [] => True
  | r :: rs =>
      ∃ i n, r = mkRange (i * bs) (n * bs) ∧ lo ≤ i ∧ 0 < n ∧ runs_from (i + n + 1) rs
  end.

Lemma NewRangeFromBlocks_eq i n :
  0 ≤ i → 0 ≤ n → i + n ≤ bs_len b →
  NewRangeFromBlocks (i64 i) (i64 (u64 n)) bs = mkRange (i * bs) (n * bs).
Proof.
  intros. unfold NewRangeFromBlocks, BlockOffset, maxI64 in *.
  pose proof (bs_len_nonneg b). assert (bs_len b ≤ bs_len b * bs) by nia.
  rewrite (u64_small n), (i64_small i), (i64_small n) by lia.
  f_equal; apply i64_small; nia.
Qed.

Lemma range_blocks_eq i n : range_blocks (mkRange (i * bs) (n * bs)) = seqZ i n.
Proof. unfold range_blocks. simpl. by rewrite !Z.div_mul by lia. Qed.

Lemma ranges_loop_spec fuel k :
  0 ≤ k → bs_len b - k ≤ Z.of_nat fuel →
  ∃ rs, (∀ S (yield : S → Range → S * bool) s,
      ranges_loop fuel b bs yield (bs_next_set b k) s = Some (iterate yield rs s)) ∧
    concat (range_blocks <$> rs) = set_bits_in b k (bs_len b - k) ∧ runs_from k rs.
Proof.
  assert (bs_len b ≤ maxI64) by (pose proof (bs_len_nonneg b); nia). unfold maxI64 in *.
  revert k. induction fuel as [|fuel IH]; intros k Hk Hf.
  all: destruct (bs_next_set b k) as [j|] eqn:E;
    [apply set_bits_in_Some in E as E'; [destruct E' as [Hj Es]|done]|].
  - lia.
  - exists []. by rewrite set_bits_in_None.
  - pose proof (bs_next_set_Some b k j Hk E) as (_ & Hjt & Hskip).
    rewrite (set_bits_in_skip b k j) by (done || lia).
    replace (k + (bs_len b - k) - j) with (bs_len b - j) by lia.
    destruct (bs_next_clear b j) as [e|] eqn:Ec.
    + pose proof (bs_next_clear_Some b j e ltac:(lia) Ec) as (He & Het & Hrun).
      assert (e ≠ j) by congruence.
      destruct (IH (e + 1)) as (rs & Hl & Hc & Hr); [lia|lia|].
      exists (mkRange (j * bs) ((e - j) * bs) :: rs). split_and!.
      * intros S yield s. simpl. rewrite Ec. rewrite NewRangeFromBlocks_eq by lia.
        destruct (yield s _) as [s' []]; simpl; [|done]. rewrite u64_small by lia. apply Hl.
      * rewrite fmap_cons. simpl. rewrite range_blocks_eq, Hc.
        rewrite (set_bits_in_run b j e) by (lia || done). f_equal.
        replace (j + (bs_len b - j) - e) with (bs_len b - e) by lia.
        rewrite (set_bits_in_skip b e (e + 1)); [f_equal; lia|lia| |lia].
        intros x ?. by replace x with e by lia.
      * exists j, (e - j). split_and!; [done|lia|lia|]. by replace (j + (e - j) + 1) with (e + 1) by lia.
    + exists [mkRange (j * bs) ((bs_len b - j) * bs)]. split_and!.
      * intros S yield s. simpl. rewrite Ec, NewRangeFromBlocks_eq by lia.
        by destruct (yield s _) as [s' []].
      * rewrite fmap_cons. simpl. rewrite range_blocks_eq, app_nil_r.
        pose proof (bs_next_clear_None b j ltac:(lia) Ec) as Hall.
        rewrite (set_bits_in_run b j (bs_len b)); [|lia|done].
        replace (j + (bs_len b - j) - bs_len b) with 0 by lia.
        symmetry. apply app_nil_r.
      * exists j, (bs_len b - j). split_and!; [done|lia|lia|done].
  - exists []. split_and!; [done| |done]. by rewrite set_bits_in_None.
Qed.

Lemma BitsetRanges_spec :
  ∃ rs, (∀ S (yield : S → Range → S * bool) s,
      BitsetRanges b bs yield s = Some (iterate yield rs s)) ∧
    concat (range_blocks <$> rs) = set_bits b ∧ runs_from 0 rs.
Proof.
  destruct (ranges_loop_spec (S (Z.to_nat (bs_len b))) 0) as (rs & Hl & Hc & Hr); [lia|lia|].
  exists rs. split_and!; [done| |done]. rewrite Hc. unfold set_bits. f_equal. lia.
Qed.
End runs.

(** ** Splitting keeps the bytes *)
Definition bytes_of (r : Range) : list Z := seqZ (Start r) (RSize r).

Section split.
Context (maxSize : Z).
Hypothesis max_pos : 0 < maxSize.

Definition range_ok (r : Range) : Prop :=
  0 ≤ Start r ∧ 0 ≤ RSize r ∧ Start r + RSize r ≤ maxI64 ∧ RSize r + maxSize ≤ maxI64.

Lemma split_loop_spec fuel r off acc :
  range_ok r → 0 ≤ off → off ≤ RSize r + maxSize → Z.max 0 (RSize r - off) < Z.of_nat fuel →
  ∃ out, split_loop fuel r maxSize off acc = Some (acc ++ out) ∧
    concat (bytes_of <$> out) = seqZ (Start r + off) (RSize r - off) ∧
    Forall (λ r', 0 < RSize r' ≤ maxSize) out ∧
    (∀ bs, (bs | maxSize) → (bs | RSize r) → (bs | off) → Forall (λ r', (bs | RSize r')) out).
Proof.
  intros (? & ? & ? & ?). revert off acc. unfold maxI64 in *.
  induction fuel as [|fuel IH]; intros off acc Hoff Hle Hf; simpl;
    destruct (Z.ltb_spec off (RSize r)) as [Hlt|Hge].
  - lia.
  - lia.
  - unwrap. destruct (IH (off + maxSize) (acc ++ [mkRange (Start r + off) (Z.min (RSize r - off) maxSize)]))
      as (out & -> & Hc & Hm & Hd); [lia..|].
    exists (mkRange (Start r + off) (Z.min (RSize r - off) maxSize) :: out).
    split_and!.
    + by rewrite <-app_assoc.
    + rewrite fmap_cons. simpl. rewrite Hc. unfold bytes_of. simpl.
      destruct (Z.min_spec (RSize r - off) maxSize) as [[? ->]|[? ->]].
      * rewrite (seqZ_nil (Start r + (off + maxSize))) by lia. by rewrite app_nil_r.
      * replace (RSize r - off) with (maxSize + (RSize r - (off + maxSize))) by lia.
        rewrite seqZ_app by lia. do 2 f_equal. lia.
    + constructor; [simpl; lia|done].
    + intros bs Hbm Hbr Hbo. constructor; [|by apply Hd, Z.divide_add_r].
      simpl. destruct (Z.min_spec (RSize r - off) maxSize) as [[? ->]|[? ->]]; [|done].
      by apply Z.divide_sub_r.
  - exists []. rewrite app_nil_r. split_and!; [done| |done|done].
    simpl. by rewrite seqZ_nil by lia.
Qed.

Lemma split_ranges_spec rs acc :
  Forall range_ok rs →
  ∃ out, split_ranges rs maxSize acc = Some (acc ++ out) ∧
    concat (bytes_of <$> out) = concat (bytes_of <$> rs) ∧
    Forall (λ r, RSize r ≤ maxSize) out ∧
    (Forall (λ r, 0 < RSize r) rs → Forall (λ r, 0 < RSize r) out) ∧
    (∀ bs, (bs | maxSize) → Forall (λ r, (bs | RSize r)) rs → Forall (λ r, (bs | RSize r)) out).
Proof.
  intros Hrs. revert acc. induction Hrs as [|r rs Hr Hrs IH]; intros acc; cbn [split_ranges].
  { exists []. by rewrite app_nil_r. }
  destruct (Z.leb_spec (RSize r) maxSize) as [Hle|Hgt].
  - destruct (IH (acc ++ [r])) as (out & -> & Hc & Hm & Hp & Hd). exists (r :: out).
    split_and!; [by rewrite <-app_assoc| | | |].
    + rewrite fmap_cons. simpl. by rewrite Hc.
    + by constructor.
    + intros [? ?]%Forall_cons. constructor; [done|]. by apply Hp.
    + intros bs Hb [? ?]%Forall_cons. constructor; [done|]. by apply Hd.
  - destruct (split_loop_spec (S (Z.to_nat (RSize r))) r 0 acc Hr) as (o1 & Ho1 & Hc1 & Hm1 & Hd1);
      [lia..|].
    rewrite Ho1. cbn [mbind option_bind]. destruct (IH (acc ++ o1)) as (out & -> & Hc & Hm & Hp & Hd).
    exists (o1 ++ out). split_and!.
    + by rewrite <-app_assoc.
    + rewrite fmap_app, concat_app, Hc, Hc1, Z.add_0_r, Z.sub_0_r. done.
    + apply Forall_app. split; [|done]. eapply Forall_impl; [exact Hm1|]. simpl. lia.
    + intros [? ?]%Forall_cons. apply Forall_app. split; [|by apply Hp].
      eapply Forall_impl; [exact Hm1|]. simpl. lia.
    + intros bs Hb [? ?]%Forall_cons. apply Forall_app. split; [|by apply Hd].
      apply Hd1; [done|done|apply Z.divide_0_r].
Qed.
End split.

(** The limit of one read, in whole blocks. *)
Lemma getAlignedMaxRwCount_spec {E} PAGE_SIZE bs :
  0 < bs ≤ MAX_RW_COUNT PAGE_SIZE →
  ∃ a, getAlignedMaxRwCount PAGE_SIZE bs = Ok (E := E) a ∧ 0 < a ≤ MaxInt32 ∧ (bs | a).
Proof.
  intros Hbs. assert (0 ≤ MAX_RW_COUNT PAGE_SIZE ≤ MaxInt32) as Hmax.
  { unfold MAX_RW_COUNT. split; [apply Z.land_nonneg; left; by vm_compute|].
    rewrite Z.land_comm. change MaxInt32 with (Z.ones 31). rewrite Z.land_ones by lia.
    pose proof (Z.mod_pos_bound (PAGE_MASK PAGE_SIZE) (2 ^ 31) ltac:(by vm_compute)).
    change (Z.ones 31) with 2147483647. change (2 ^ 31) with 2147483648 in *. lia. }
  unfold getAlignedMaxRwCount. assert (MaxInt32 ≤ maxI64) by by vm_compute.
  change (go_div ?a ?b) with (BlockIdx (E := E) a b). rewrite BlockIdx_eq by lia. simpl.
  set (M := MAX_RW_COUNT PAGE_SIZE) in *. pose proof (Z.mul_div_le M bs ltac:(lia)).
  assert (1 ≤ M / bs) by (apply Z.div_le_lower_bound; lia).
  unfold maxI64, MaxInt32 in *. rewrite i64_small by nia.
  exists (M / bs * bs). split; [done|]. split; [nia|]. by exists (M / bs).
Qed.

Lemma length_bytes_of r : length (bytes_of r) = Z.to_nat (RSize r).
Proof. apply length_seqZ. Qed.

(** ** Histories *)
Inductive tracker_op := TAdd (off : Z) | TReset.

Section tracker_history.
Context {B : Type} `{BitSetLaws B}.

Definition tracker_step (t : Tracker B) (op : tracker_op) : res () (Tracker B) :=
  match op with TAdd off => Add t off | TReset => Ok (Reset_ t) end.
Fixpoint tracker_run (t : Tracker B) (ops : list tracker_op) : res () (Tracker B) :=
  match ops with [] => Ok t | op :: ops => t ← tracker_step t op; tracker_run t ops end.

(** The offsets added since the last reset. *)
Definition live (acc : list Z) (ops : list tracker_op) : list Z :=
  foldl (λ acc op, match op with TAdd off => off :: acc | TReset => [] end) acc ops.

Definition off_ok (off : Z) : Prop := 0 ≤ off ≤ maxI64.
Definition op_ok (op : tracker_op) : Prop :=
  match op with TAdd off => off_ok off | TReset => True end.

Definition tracks (bs : Z) (t : Tracker B) (offs : list Z) : Prop :=
  tblockSize t = bs ∧
  ∀ k, 0 ≤ k → bs_test (tb t) k = true ↔ ∃ off, off ∈ offs ∧ off / bs = k.

Lemma tracker_run_tracks bs t offs ops :
  0 < bs → tracks bs t offs → Forall op_ok ops →
  ∃ t', tracker_run t ops = Ok t' ∧ tracks bs t' (live offs ops).
Proof.
  intros Hbs Ht Hops. revert t offs Ht. induction Hops as [|op ops Hop Hops IH]; intros t offs [Hb Ht].
  { exists t. by split_and!. }
  destruct op as [off|]; simpl.
  - unfold Add. rewrite Hb, BlockIdx_eq by done. simpl.
    pose proof (div_self_bound off bs ltac:(apply Hop) Hbs). unfold op_ok, off_ok, maxI64 in Hop.
    rewrite u64_small by lia. apply IH. split; [done|]. simpl. intros k Hk.
    rewrite bs_test_set, orb_true_iff, Z.eqb_eq, Ht by lia. setoid_rewrite elem_of_cons.
    split; [intros [<-|(o & ? & ?)]; eauto|]. intros (o & [->|?] & ?); eauto.
  - apply IH. split; [done|]. intros k Hk. simpl. rewrite bs_test_clear_all by done.
    split; [done|]. by intros (o & ?%not_elem_of_nil & _).
Qed.

Lemma NewTracker_tracks bs : tracks bs (NewTracker bs) [].
Proof.
  split; [done|]. intros k Hk. simpl. rewrite bs_test_new by done.
  split; [done|]. by intros (o & ?%not_elem_of_nil & _).
Qed.
End tracker_history.

Section prefetch_history.
Fixpoint prefetch_run (t : PrefetchTracker) (ops : list (Z * AccessType)) : res () PrefetchTracker :=
  match ops with
  | [] => Ok t
  | (off, a) :: ops => t ← PAdd t off a; prefetch_run t ops
  end.

(** The first access to each block, in order. *)
Fixpoint firsts (bs : Z) (seen : list (Z * AccessType)) (ops : list (Z * AccessType))
    : list (Z * AccessType) :=
  match ops with
  | [] => seen
  | (off, a) :: ops =>
      if decide (off / bs ∈ seen.*1) then firsts bs seen ops
      else firsts bs (seen ++ [(off / bs, a)]) ops
  end.

Definition prefetches (bs : Z) (t : PrefetchTracker) (seen : list (Z * AccessType)) : Prop :=
  ptblockSize t = bs ∧ isTracking t = true ∧ NoDup seen.*1 ∧
  orderCounter t = Z.of_nat (length seen) + 1 ∧
  ∀ k e, blockEntries t !! k = Some e ↔
    ∃ p a, seen !! p = Some (k, a) ∧ e = mkEntry k (Z.of_nat p + 1) a.

Lemma prefetches_step bs t seen off a :
  0 < bs → prefetches bs t seen → off_ok off → Z.of_nat (length seen) < maxI64 →
  ∃ t', PAdd (E := ()) t off a = Ok t' ∧
    prefetches bs t' (if decide (off / bs ∈ seen.*1) then seen else seen ++ [(off / bs, a)]).
Proof.
  intros Hbs (Hb & Htr & Hnd & Hc & Hm) Hoff Hlen. unfold PAdd. rewrite Htr, Hb, BlockIdx_eq by done.
  simpl. pose proof (div_self_bound off bs ltac:(apply Hoff) Hbs). unfold off_ok, maxI64 in *.
  rewrite u64_small by lia. case_decide as Hin.
  - apply list_elem_of_fmap in Hin as ([k a'] & Hk & [p Hp]%list_elem_of_lookup). simpl in Hk. subst k.
    assert (blockEntries t !! (off / bs) = Some (mkEntry (off / bs) (Z.of_nat p + 1) a')) as ->
      by (apply Hm; eauto).
    by exists t.
  - destruct (blockEntries t !! (off / bs)) as [e|] eqn:E.
    { apply Hm in E as (p & a' & Hp & _). destruct Hin. apply list_elem_of_fmap.
      exists (off / bs, a'). split; [done|]. by eapply list_elem_of_lookup_2. }
    eexists. split; [done|]. split_and!; simpl.
    + done.
    + done.
    + rewrite fmap_app. simpl. apply NoDup_app. split_and!; [done| |].
      * intros x Hx ->%list_elem_of_singleton. done.
      * apply NoDup_singleton.
    + rewrite Hc, length_app. simpl. rewrite u64_small by lia. lia.
    + intros k e. destruct (decide (k = off / bs)) as [->|Hne].
      * rewrite lookup_insert_eq. split.
        -- intros [= <-]. exists (length seen), a. rewrite lookup_app_r, Nat.sub_diag by lia.
           split; [done|]. by rewrite Hc.
        -- intros (p & a' & Hp & ->). apply lookup_app_Some in Hp as [Hp|[Hge Hp]].
           ++ destruct Hin. apply list_elem_of_fmap. exists (off / bs, a').
              split; [done|]. by eapply list_elem_of_lookup_2.
           ++ destruct (p - length seen)%nat eqn:Ep; [|done]. injection Hp as ->.
              rewrite Hc. do 2 f_equal. lia.
      * rewrite lookup_insert_ne by done. rewrite Hm. split.
        -- intros (p & a' & Hp & ->). exists p, a'. split; [|done]. by apply lookup_app_l_Some.
        -- intros (p & a' & Hp & ->). exists p, a'. split; [|done].
           apply lookup_app_Some in Hp as [Hp|[Hge Hp]]; [done|].
           destruct (p - length seen)%nat; [|done]. by injection Hp as <- _.
Qed.

Lemma prefetch_run_spec bs t seen ops :
  0 < bs → prefetches bs t seen → Forall (λ op, off_ok op.1) ops →
  Z.of_nat (length seen + length ops) ≤ maxI64 →
  ∃ t', prefetch_run t ops = Ok t' ∧ prefetches bs t' (firsts bs seen ops).
Proof.
  intros Hbs Ht Hops. revert t seen Ht. induction Hops as [|[off a] ops Hop Hops IH];
    intros t seen Ht Hlen; simpl in *; [by exists t|].
  destruct (prefetches_step bs t seen off a Hbs Ht Hop) as (t' & -> & Ht'); [lia|]. simpl.
  case_decide; [apply IH; [done|lia]|]. apply IH; [done|]. rewrite length_app. simpl. lia.
Qed.

Lemma NewPrefetchTracker_prefetches bs : prefetches bs (NewPrefetchTracker bs) [].
Proof.
  split_and!; [done|done|constructor|done|]. intros k e. simpl. rewrite lookup_empty.
  split; [done|]. by intros (p & a & ? & _).
Qed.
End prefetch_history.

(** ** Properties *)

(** [BitsetRanges] yields the maximal runs of set bits in increasing order
    as byte ranges: the blocks of the ranges are the set bits, two ranges are at
    least one block apart, and a loop body that stops early sees a prefix. *)
Theorem BitsetRanges_runs {B} `{BitSetLaws B} (b : B) (bs : Z) :
  0 < bs → bs_len b * bs ≤ maxI64 →
  ∃ rs, concat (range_blocks bs <$> rs) = set_bits b ∧ runs_from bs 0 rs ∧
    ∀ S (yield : S → Range → S * bool) s, BitsetRanges b bs yield s = Some (iterate yield rs s).
Proof. intros Hbs Hf. destruct (BitsetRanges_spec b bs Hbs Hf) as (rs & ? & ? & ?); eauto. Qed.

#[local] Existing Instances BoolBits.ops BoolBits.laws.

Definition collect (rs : list Range) (r : Range) : list Range * bool := (rs ++ [r], true).

Lemma BitsetRanges_runs_witness :
  BitsetRanges [false; true; true; false; true] 4096 collect [] =
    Some [mkRange 4096 8192; mkRange 16384 4096] ∧
  ∃ rs, concat (range_blocks 4096 <$> rs) = [1; 2; 4].
Proof.
  split; [by vm_compute|].
  destruct (BitsetRanges_runs [false; true; true; false; true] 4096) as (rs & Hc & _ & _);
    [lia|by vm_compute|].
  exists rs. rewrite Hc. by vm_compute.
Defined.

(** [splitOversizedRanges] terminates and replaces the ranges by ranges of
    at most [maxSize] bytes that cover the same bytes in the same order; block
    alignment of the sizes is kept when [maxSize] is aligned. *)
Theorem splitOversizedRanges_covers (rs : list Range) (maxSize bs : Z) :
  0 < maxSize → Forall (range_ok maxSize) rs → (bs | maxSize) → Forall (λ r, (bs | RSize r)) rs →
  ∃ out, splitOversizedRanges rs maxSize = Some out ∧
    concat (bytes_of <$> out) = concat (bytes_of <$> rs) ∧
    Forall (λ r, RSize r ≤ maxSize ∧ (bs | RSize r)) out.
Proof.
  intros Hmax Hrs Hbm Hbr. destruct (split_ranges_spec maxSize Hmax rs [] Hrs) as (out & Ho & Hc & Hm & _ & Hd).
  exists out. split_and!; [done|done|]. apply Forall_and. split; [done|by apply Hd].
Qed.

Lemma splitOversizedRanges_covers_witness :
  ∃ out, splitOversizedRanges [mkRange 100 10; mkRange 300 4] 4 = Some out ∧
    Forall (λ r, RSize r ≤ 4 ∧ (2 | RSize r)) out.
Proof.
  destruct (splitOversizedRanges_covers [mkRange 100 10; mkRange 300 4] 4 2) as (out & Ho & _ & Hf).
  - lia.
  - repeat constructor; by vm_compute.
  - by exists 2.
  - constructor; [by exists 5|]. constructor; [by exists 2|constructor].
  - by exists out.
Defined.

(** After any sequence of [Add] and [Reset] a tracker has an offset exactly
    when an offset of the same block was added since the last [Reset], and
    [Offsets] lists the starts of those blocks in increasing order. *)
Theorem Tracker_history {B} `{BitSetLaws B} (bs : Z) (ops : list tracker_op) :
  0 < bs → Forall op_ok ops →
  ∃ t : Tracker B, tracker_run (NewTracker bs) ops = Ok t ∧
    (∀ off, off_ok off → ∃ has, Has (E := ()) t off = Ok has ∧
       (has = true ↔ ∃ off', off' ∈ live [] ops ∧ off' / bs = off / bs)) ∧
    ∃ ks, StronglySorted Z.lt ks ∧ Offsets t = (λ k, BlockOffset (i64 k) bs) <$> ks ∧
      ∀ k, 0 ≤ k → k ∈ ks ↔ ∃ off', off' ∈ live [] ops ∧ off' / bs = k.
Proof.
  intros Hbs Hops.
  destruct (tracker_run_tracks bs (NewTracker bs) [] ops Hbs (NewTracker_tracks bs) Hops) as (t & Ht & Hb & Hk).
  exists t. split; [done|]. split.
  - intros off Hoff. unfold Has. rewrite Hb, BlockIdx_eq by done. simpl.
    pose proof (div_self_bound off bs ltac:(apply Hoff) Hbs). unfold off_ok, maxI64 in *.
    rewrite u64_small by lia. eexists. split; [done|]. apply Hk. lia.
  - exists (set_bits (tb t)). split; [apply set_bits_sorted|]. split; [by rewrite <-Hb|].
    intros k Hk0. rewrite elem_of_set_bits by done. by apply Hk.
Qed.

Lemma Tracker_history_witness :
  ∃ t : Tracker (list bool),
    tracker_run (NewTracker 4096) [TAdd 4096; TReset; TAdd 9000; TAdd 100] = Ok t ∧
    Offsets t = [0; 8192].
Proof.
  destruct (Tracker_history (B := list bool) 4096 [TAdd 4096; TReset; TAdd 9000; TAdd 100])
    as (t & Ht & _ & _); [lia|repeat constructor; by vm_compute|].
  exists t. split; [exact Ht|]. by vm_compute in Ht; injection Ht as <-.
Defined.

(** After any sequence of accesses the prefetch tracker holds one entry per
    block, with the type of the first access to it, and the entries are numbered
    1, 2, ... in the order of those first accesses; taking the data stops the
    tracking. *)
Theorem PrefetchTracker_order (bs : Z) (ops : list (Z * AccessType)) (off : Z) (a : AccessType) :
  0 < bs → Forall (λ op, off_ok op.1) ops → Z.of_nat (length ops) ≤ maxI64 →
  ∃ t, prefetch_run (NewPrefetchTracker bs) ops = Ok t ∧
    NoDup (firsts bs [] ops).*1 ∧
    (∀ k e, BlockEntries (PrefetchData t).1 !! k = Some e ↔
       ∃ p a, firsts bs [] ops !! p = Some (k, a) ∧ e = mkEntry k (Z.of_nat p + 1) a) ∧
    PAdd (E := ()) (PrefetchData t).2 off a = Ok (PrefetchData t).2.
Proof.
  intros Hbs Hops Hlen.
  destruct (prefetch_run_spec bs _ [] ops Hbs (NewPrefetchTracker_prefetches bs) Hops Hlen)
    as (t & Ht & _ & _ & Hnd & _ & Hm).
  exists t. by split_and!.
Qed.

Lemma PrefetchTracker_order_witness :
  ∃ t, prefetch_run (NewPrefetchTracker 4096) [(8192, Read); (0, Write); (9000, Prefetch)] = Ok t ∧
    BlockEntries (PrefetchData t).1 !! 2 = Some (mkEntry 2 1 Read).
Proof.
  destruct (PrefetchTracker_order 4096 [(8192, Read); (0, Write); (9000, Prefetch)] 0 Read)
    as (t & Ht & _ & Hm & _); [lia|repeat constructor; by vm_compute|by vm_compute|].
  exists t. split; [exact Ht|]. apply Hm. exists 0%nat, Read. split; by vm_compute.
Defined.
