(* ===== verification/BlockCache.v ===== *)
(** * The block cache

    packages/orchestrator/internal/sandbox/block/[cache.go]: a memory-mapped file
    with a set of the blocks that hold data, the write layer of a sandbox's disk
    and the store of fetched or snapshotted blocks.

    The map [dirty] is keyed by byte offsets.  The methods hold the cache's lock
    (or are called under it), so each is one atomic step on a value of [Cache].
    The results of the operating system - opening, sizing and mapping the file,
    flushing, [process_vm_readv] - are arguments.  Reading or writing outside the
    mapping is [Panic]. *)
From Stdlib Require Import Init.Byte.
From S2P Require Import Prelude Bitset Uuid Mapping Merge Header Diff BlockRange.

Record Cache := mkCache {
  filePath : string;
  csize : Z;                      (** [size] *)
  cblockSize : Z;                 (** [blockSize] *)
  cmmap : option (list byte);     (** [mmap], [None] for [nil] *)
  cdirty : gset Z;                (** the keys of [dirty] *)
  dirtyFile : bool;
  cclosed : bool;                 (** [closed] *)
}.

Inductive CacheError : Type :=
  | CacheClosedError (filePath : string)
  | BytesNotAvailableError
  | ErrOpeningFile
  | ErrAllocatingFile
  | ErrMappingFile
  | ErrSyncing
  | ErrUnmapping
  | ErrRemoving
  | ErrSlicing (e : CacheError)
  | ErrOutOfBoundsAt (off : Z)
  | ErrProcessingBlock (off : Z) (e : DiffError)
  | ErrContext
  | ErrReadMemory
  | ErrReadMemoryShort (expected got : Z).
#[export] Instance CacheError_eq_dec : EqDecision CacheError.
Proof. solve_decision. Defined.

Abbreviation result := (res CacheError).

(** What the operating system does for [NewCache]. *)
Record FileResult := mkFile {
  file_open : option (list byte);   (** the content of the opened file *)
  file_truncate : bool;
  file_map : bool;
}.

(** [f.Truncate(n)]: cut or extended with zeros. *)
Definition truncated (content : list byte) (n : Z) : list byte :=
  take (Z.to_nat n) content ++ replicate (Z.to_nat n - length content) x00.

Definition NewCache (f : FileResult) (size blockSize : Z) (filePath : string) (dirtyFile : bool)
    : result Cache :=
  match file_open f with
  | None => Err ErrOpeningFile
  | Some content =>
      if size =? 0 then Ok (mkCache filePath size blockSize None ∅ dirtyFile false)
      else if negb (file_truncate f) then Err ErrAllocatingFile
      else if negb (file_map f) then Err ErrMappingFile
      else Ok (mkCache filePath size blockSize (Some (truncated content size)) ∅ dirtyFile false)
  end.

Section cache.
Implicit Types c : Cache.

Definition isClosed c : bool := cclosed c.

(** [flush] is the result of [c.mmap.Flush()]. *)
Definition Sync c (flush : bool) : result () :=
  if isClosed c then Err (CacheClosedError (filePath c))
  else match cmmap c with
       | None => Ok ()
       | Some _ => if flush then Ok () else Err ErrSyncing
       end.

Fixpoint all_cached c (off : Z) (blockOffs : list Z) : bool :=
  match blockOffs with
  | [] => true
  | blockOff :: blockOffs =>
      if negb (bool_decide (i64 (off + blockOff) ∈ cdirty c)) then false
      else all_cached c off blockOffs
  end.
Definition isCached c (off length : Z) : result bool :=
  offs ← BlocksOffsets length (cblockSize c);
  Ok (all_cached c off offs).

Definition set_dirty c (keys : gset Z) : Cache :=
  mkCache (filePath c) (csize c) (cblockSize c) (cmmap c) (keys ∪ cdirty c) (dirtyFile c) (cclosed c).
Definition set_mmap c (m : list byte) : Cache :=
  mkCache (filePath c) (csize c) (cblockSize c) (Some m) (cdirty c) (dirtyFile c) (cclosed c).

Definition setIsCached c (off length : Z) : result Cache :=
  offs ← BlocksOffsets length (cblockSize c);
  Ok (set_dirty c (list_to_set ((λ blockOff, i64 (off + blockOff)) <$> offs))).

Definition Slice c (off length : Z) : result (list byte) :=
  if isClosed c then Err (CacheClosedError (filePath c))
  else match cmmap c with
       | None => Ok []
       | Some m =>
           available ← (if dirtyFile c then Ok true else isCached c off length);
           if (available : bool) then go_slice m off (Z.min (i64 (off + length)) (csize c))
           else Err BytesNotAvailableError
       end.

(** [ReadAt(b, off)] for a buffer of [n] bytes: the bytes copied into it. *)
Definition ReadAt c (n off : Z) : result (list byte) :=
  match cmmap c with
  | None => Ok []
  | Some _ =>
      if isClosed c then Err (CacheClosedError (filePath c))
      else match Slice c off n with
           | Ok slice => Ok (take (Z.to_nat n) slice)
           | Err e => Err (ErrSlicing e)
           | Panic => Panic
           end
  end.

Definition WriteAtWithoutLock c (b : list byte) (off : Z) : result (Z * Cache) :=
  if isClosed c then Err (CacheClosedError (filePath c))
  else match cmmap c with
       | None => Ok (0, c)
       | Some m =>
           let end_ := Z.min (i64 (off + zlength b)) (csize c) in
           dst ← (go_slice m off end_ : result (list byte));
           let n := Z.min (zlength dst) (zlength b) in
           c ← setIsCached (set_mmap c (splice m off (take (Z.to_nat n) b))) off (i64 (end_ - off));
           Ok (n, c)
       end.

Definition WriteAt c (b : list byte) (off : Z) : result (Z * Cache) :=
  match cmmap c with
  | None => Ok (0, c)
  | Some _ =>
      if isClosed c then Err (CacheClosedError (filePath c)) else WriteAtWithoutLock c b off
  end.

(** [errors.Join] of the failures of [Unmap] and [RemoveAll]. *)
Definition Close c (unmap remove : bool) : Cache * list CacheError :=
  match cmmap c with
  | None => (c, if remove then [] else [ErrRemoving])
  | Some m =>
      if cclosed c then (c, [CacheClosedError (filePath c)])
      else
        (mkCache (filePath c) (csize c) (cblockSize c) (cmmap c) (cdirty c) (dirtyFile c) true,
         (if unmap then [] else [ErrUnmapping]) ++ (if remove then [] else [ErrRemoving]))
  end.

Definition Size_ c : result Z :=
  if isClosed c then Err (CacheClosedError (filePath c)) else Ok (csize c).

Definition dirtySortedKeys c : list Z := merge_sort Z.le (elements (cdirty c)).

Definition address c (off : Z) : result (option Z) :=
  match cmmap c with
  | None => Ok None
  | Some m =>
      if csize c <=? off then Err (ErrOutOfBoundsAt off)
      else if (off <? 0) || (zlength m <=? off) then Panic else Ok (Some off)
  end.

Definition addressBytes c (off length : Z) : result (list byte) :=
  match cmmap c with
  | None => Ok []
  | Some m =>
      if isClosed c then Err (CacheClosedError (filePath c))
      else if csize c <=? off then Err (ErrOutOfBoundsAt off)
      else go_slice m off (Z.min (i64 (off + length)) (csize c))
  end.

(** *** ExportToDiff *)
Section export.
Context {B W : Type} `{BitSetOps B, WriterOps W}.

Fixpoint export_loop c (m : list byte) (keys : list Z) (b : DiffMetadataBuilder B) (out : W)
    : W * result (DiffMetadataBuilder B) :=
  match keys with
  | [] => (out, Ok b)
  | offset :: keys =>
      match go_slice m offset (i64 (offset + cblockSize c)) with
      | Ok block =>
          let '(b, out, r) := Process b block out offset in
          match r with
          | Ok _ => export_loop c m keys b out
          | Err e => (out, Err (ErrProcessingBlock offset e))
          | Panic => (out, Panic)
          end
      | Err e => (out, Err e)
      | Panic => (out, Panic)
      end
  end.

Definition ExportToDiff c (flush : bool) (out : W) : W * result (DiffMetadata B) :=
  if isClosed c then (out, Err (CacheClosedError (filePath c)))
  else match cmmap c with
       | None => (out, Ok (mkDiffMetadata (bs_new 0) (bs_new 0) (cblockSize c)))
       | Some m =>
           if negb flush then (out, Err ErrSyncing)
           else match NewDiffMetadataBuilder (csize c) (cblockSize c) with
                | Ok b =>
                    let '(out, r) := export_loop c m (dirtySortedKeys c) b out in
                    (out, Build <$> r)
                | Err e => (out, Err e)
                | Panic => (out, Panic)
                end
       end.
End export.
End cache.

(** ** copyProcessMemory

    [mem] is the memory of the process; each attempt to read takes one outcome
    of the kernel from the list [outcomes] ([ReadBytes missing] copies all of the
    requested bytes but the last [missing] ones); running out of outcomes is
    [None]. *)
Inductive vm_outcome := CtxDone | EAGAIN | EINTR | ENOMEM | EOther | ReadBytes (missing : Z).

Section copy.
Context (IOV_MAX : nat) (mem : Z → byte).

(** The inner loop over [ranges]: the segment, its size, the ranges left. *)
Fixpoint gather (alignedRwCount : Z) (ranges remote : list Range) (segmentSize : Z)
    : list Range * Z * list Range :=
  match ranges with
  | [] => (remote, segmentSize, [])
  | r :: rest =>
      if Nat.eqb (length remote) IOV_MAX then (remote, segmentSize, ranges)
      else if alignedRwCount <? i64 (segmentSize + RSize r) then (remote, segmentSize, ranges)
      else gather alignedRwCount rest (remote ++ [r]) (i64 (segmentSize + RSize r))
  end.

Definition remote_bytes (remote : list Range) : list byte :=
  mem <$> concat (bytes_of <$> remote).

(** The retry loop around [ProcessVMReadv]. *)
Fixpoint read_segment (outcomes : list vm_outcome) (c : Cache) (remote : list Range)
    (offset segmentSize : Z) : option (result Cache * list vm_outcome) :=
  match outcomes with
  | [] => None
  | o :: outcomes =>
      match o with
      | CtxDone => Some (Err ErrContext, outcomes)
      | EAGAIN | EINTR | ENOMEM => read_segment outcomes c remote offset segmentSize
      | EOther => Some (Err ErrReadMemory, outcomes)
      | ReadBytes missing =>
          match cmmap c with
          | None => Some (Panic, outcomes)
          | Some m =>
              let n := segmentSize - missing in
              if zlength m <? offset + segmentSize then Some (Panic, outcomes)
              else if negb (n =? segmentSize) then Some (Err (ErrReadMemoryShort segmentSize n), outcomes)
              else
                Some (
                  offs ← BlocksOffsets segmentSize (cblockSize c);
                  Ok (set_dirty (set_mmap c (splice m offset (remote_bytes remote)))
                        (list_to_set ((λ blockOff, i64 (offset + blockOff)) <$> offs))),
                  outcomes)
          end
      end
  end.

Fixpoint copy_loop (fuel : nat) (outcomes : list vm_outcome) (c : Cache) (alignedRwCount : Z)
    (ranges : list Range) (offset : Z) : option (result Cache) :=
  match fuel with
  | O => None
  | S fuel =>
      let '(remote, segmentSize, rest) := gather alignedRwCount ranges [] 0 in
      match remote with
      | [] => Some (Ok c)
      | _ =>
          match address c offset with
          | Err e => Some (Err e)
          | Panic => Some Panic
          | Ok _ =>
              '(r, outcomes) ← read_segment outcomes c remote offset segmentSize;
              match r with
              | Ok c => copy_loop fuel outcomes c alignedRwCount rest (i64 (offset + segmentSize))
              | Err e => Some (Err e)
              | Panic => Some Panic
              end
          end
      end
  end.

Definition copyProcessMemory (PAGE_SIZE : Z) (outcomes : list vm_outcome) (c : Cache)
    (rs : list Range) : option (result Cache) :=
  match getAlignedMaxRwCount PAGE_SIZE (cblockSize c) with
  | Ok alignedRwCount =>
      ranges ← splitOversizedRanges rs alignedRwCount;
      copy_loop (S (length ranges)) outcomes c alignedRwCount ranges 0
  | Err e => Some (Err e)
  | Panic => Some Panic
  end.

Definition NewCacheFromProcessMemory (PAGE_SIZE : Z) (f : FileResult) (outcomes : list vm_outcome)
    (blockSize : Z) (filePath : string) (ranges : list Range) : option (result Cache) :=
  let size := GetSize ranges in
  match NewCache f size blockSize filePath false with
  | Ok cache =>
      if size =? 0 then Some (Ok cache)
      else (* on an error the cache is closed and the error returned *) copyProcessMemory PAGE_SIZE outcomes cache ranges
  | Err e => Some (Err e)
  | Panic => Some Panic
  end.
End copy.

(** ** The bytes a cache holds *)
Section laws.
Implicit Types c : Cache.

(** The blocks that hold the bytes [off, off+n). *)
Definition block_keys (bs off n k : Z) : Prop := ∃ x, off ≤ x < off + n ∧ x / bs * bs = k.

Record cache_wf (c : Cache) (m : list byte) : Prop := {
  cw_mmap : cmmap c = Some m;
  cw_len : zlength m = csize c;
  cw_size : 0 ≤ csize c;
  cw_bs : 0 < cblockSize c;
  cw_fit : csize c + cblockSize c ≤ maxI64;
  cw_open : cclosed c = false;
  cw_keys : ∀ k, k ∈ cdirty c → block_keys (cblockSize c) 0 (csize c) k;
}.

(** A byte is available when its block has been written. *)
Definition peek (c : Cache) (m : list byte) (x : Z) : option byte :=
  if decide (x / cblockSize c * cblockSize c ∈ cdirty c) then m !! Z.to_nat x else None.

Lemma blocks_offsets_keys bs off n k :
  0 < bs → 0 ≤ off → (bs | off) → 0 ≤ n → off + n + bs ≤ maxI64 →
  k ∈ (λ o, i64 (off + o)) <$> ((λ i, i * bs) <$> seqZ 0 ((n + bs - 1) / bs)) ↔
  block_keys bs off n k.
Proof.
  intros Hbs Hoff [a ->] Hn Hfit. rewrite <-list_fmap_compose, list_elem_of_fmap.
  unfold maxI64 in *. pose proof (Z.mul_div_le (n + bs - 1) bs Hbs).
  split.
  - intros (i & -> & Hi%elem_of_seqZ). simpl. rewrite i64_small by nia.
    assert (i * bs ≤ n - 1) by nia.
    exists (a * bs + i * bs). split; [nia|].
    replace (a * bs + i * bs) with ((a + i) * bs) by lia. by rewrite Z.div_mul by lia.
  - intros (x & Hx & <-). exists (x / bs - a). simpl.
    assert (x / bs * bs ≤ x) by (pose proof (Z.mul_div_le x bs Hbs); lia).
    assert (a ≤ x / bs) by (apply Z.div_le_lower_bound; lia).
    assert (0 ≤ (x / bs - a) * bs < n) by nia.
    split; [rewrite i64_small; lia|]. apply elem_of_seqZ. split; [lia|].
    assert ((x / bs - a) * bs < n) by nia.
    assert (x / bs - a < (n + bs - 1) / bs); [|lia].
    assert (x / bs - a + 1 ≤ (n + bs - 1) / bs); [|lia]. apply Z.div_le_lower_bound; nia.
Qed.

Lemma all_cached_spec c off offs :
  all_cached c off offs = true ↔ ∀ o, o ∈ offs → i64 (off + o) ∈ cdirty c.
Proof.
  induction offs as [|o offs IH]; simpl.
  { split; [by intros _ o ?%not_elem_of_nil|done]. }
  case_bool_decide as D; simpl.
  - rewrite IH. setoid_rewrite elem_of_cons. split; [by intros Hc o' [->|?]; auto|]. auto.
  - split; [done|]. intros Hc. destruct D. apply Hc. left.
Qed.

Lemma isCached_spec c off n :
  0 < cblockSize c → 0 ≤ off → (cblockSize c | off) → 0 ≤ n → off + n + cblockSize c ≤ maxI64 →
  ∃ r, isCached c off n = Ok r ∧
    (r = true ↔ ∀ x, off ≤ x < off + n → x / cblockSize c * cblockSize c ∈ cdirty c).
Proof.
  intros Hbs Hoff Hdiv Hn Hfit. unfold isCached. rewrite BlocksOffsets_eq by lia. simpl.
  eexists. split; [done|]. rewrite all_cached_spec. split.
  - intros Hc x Hx.
    pose proof (blocks_offsets_keys (cblockSize c) off n (x / cblockSize c * cblockSize c) Hbs Hoff Hdiv Hn Hfit) as Hk.
    assert (block_keys (cblockSize c) off n (x / cblockSize c * cblockSize c)) as Hb by (by exists x).
    apply Hk in Hb. apply list_elem_of_fmap in Hb as (o & -> & Ho). by apply Hc.
  - intros Hc o Ho.
    pose proof (blocks_offsets_keys (cblockSize c) off n (i64 (off + o)) Hbs Hoff Hdiv Hn Hfit) as Hk.
    destruct Hk as [Hk _]. destruct Hk as (x & Hx & <-); [|by apply Hc].
    apply list_elem_of_fmap. eauto.
Qed.

(** Reading an aligned range inside the cache. *)
Lemma Slice_spec c m off n :
  cache_wf c m → dirtyFile c = false → 0 ≤ off → (cblockSize c | off) → 0 ≤ n → off + n ≤ csize c →
  match Slice c off n with
  | Ok s => zlength s = n ∧ ∀ i, 0 ≤ i < n → peek c m (off + i) = s !! Z.to_nat i
  | Err e => e = BytesNotAvailableError ∧ ∃ i, 0 ≤ i < n ∧ peek c m (off + i) = None
  | Panic => False
  end.
Proof.
  intros [] Hdf Hoff Hdiv Hn Hin. unfold Slice, isClosed. rewrite cw_open0, cw_mmap0, Hdf.
  destruct (isCached_spec c off n) as (r & Hr & Hiff); [done..|lia|]. rewrite Hr. simpl.
  destruct r.
  - destruct Hiff as [Hall _]. unfold maxI64 in *. rewrite i64_small by lia. rewrite Z.min_l by lia.
    rewrite go_slice_ok by lia. split; [rewrite slice_length; lia|].
    intros i Hi. unfold peek. rewrite decide_True by (apply Hall; [done|lia]).
    by rewrite slice_lookup by lia.
  - split; [done|]. destruct Hiff as [_ Hno].
    destruct (decide (Forall (λ x, x / cblockSize c * cblockSize c ∈ cdirty c) (seqZ off n))) as [Hf|Hf].
    + exfalso. enough (false = true) by done. apply Hno. intros x Hx.
      rewrite Forall_forall in Hf. apply Hf. by apply elem_of_seqZ.
    + apply not_Forall_Exists in Hf; [|apply _]. apply Exists_exists in Hf as (x & Hx%elem_of_seqZ & Hnd).
      exists (x - off). split; [lia|]. unfold peek. replace (off + (x - off)) with x by lia.
      by rewrite decide_False.
Qed.

(** A write of whole blocks (the last one may be cut by the end of the cache). *)
Lemma WriteAt_spec c m b off :
  cache_wf c m → 0 ≤ off → (cblockSize c | off) → off + zlength b ≤ csize c →
  (cblockSize c | zlength b) ∨ off + zlength b = csize c →
  ∃ c', WriteAt c b off = Ok (zlength b, c') ∧ cache_wf c' (splice m off b) ∧
    dirtyFile c' = dirtyFile c ∧ cblockSize c' = cblockSize c ∧ csize c' = csize c ∧
    (∀ x, 0 ≤ x → peek c' (splice m off b) x =
      if decide (off ≤ x < off + zlength b) then b !! Z.to_nat (x - off) else peek c m x).
Proof.
  intros [] Hoff Hdiv Hin Hend. assert (0 ≤ zlength b) by (unfold zlength; lia).
  unfold WriteAt, WriteAtWithoutLock, isClosed. rewrite cw_mmap0, cw_open0.
  unfold maxI64 in *. rewrite (i64_small (off + zlength b)) by lia. rewrite Z.min_l by lia.
  rewrite go_slice_ok by lia. cbn [mbind res_bind]. rewrite slice_length by lia.
  replace (off + zlength b - off) with (zlength b) by lia. rewrite Z.min_id.
  rewrite (firstn_all2 b) by (unfold zlength; lia). rewrite i64_small by lia.
  unfold setIsCached. rewrite BlocksOffsets_eq by (simpl; unfold maxI64; lia). simpl.
  eexists. split; [done|].
  assert (∀ k, k ∈ (list_to_set ((λ o, i64 (off + o)) <$>
      ((λ i, i * cblockSize c) <$> seqZ 0 ((zlength b + cblockSize c - 1) / cblockSize c))) : gset Z) ↔
      block_keys (cblockSize c) off (zlength b) k) as Hkeys.
  { intros k. rewrite elem_of_list_to_set. apply blocks_offsets_keys; unfold maxI64; try done; lia. }
  split_and!; [|done..|].
  - split; simpl; try done; [by rewrite splice_length by lia|].
    intros k. rewrite elem_of_union, Hkeys. intros [(x & Hx & <-)|?]; [|by apply cw_keys0].
    exists x. split; [lia|done].
  - intros x Hx. unfold peek. simpl. rewrite splice_lookup by lia.
    destruct (decide (off ≤ x < off + zlength b)) as [D|D].
    + rewrite decide_True; [done|]. apply elem_of_union_l, Hkeys. by exists x.
    + assert (x < csize c → ¬ block_keys (cblockSize c) off (zlength b) (x / cblockSize c * cblockSize c)) as Hnot.
      { intros Hxs (y & Hy & Heq). destruct Hdiv as [a ->].
        pose proof (Z.mul_div_le y _ cw_bs0). pose proof (Z.mul_div_le x _ cw_bs0).
        pose proof (Z.mul_succ_div_gt y _ cw_bs0). pose proof (Z.mul_succ_div_gt x _ cw_bs0).
        assert (a ≤ y / cblockSize c) by (apply Z.div_le_lower_bound; lia).
        assert (y / cblockSize c = x / cblockSize c) as Hq by nia. rewrite Hq in *.
        set (q := x / cblockSize c) in *. clearbody q.
        assert (a * cblockSize c ≤ q * cblockSize c) by nia.
        destruct Hend as [[n Hn]|Hn]; [|lia].
        assert (q * cblockSize c < (a + n) * cblockSize c) by lia.
        assert (q < a + n) by nia. assert ((q + 1) * cblockSize c ≤ (a + n) * cblockSize c) by nia.
        lia. }
      destruct (decide (x < csize c)) as [Hxs|Hxs].
      * destruct (decide (x / cblockSize c * cblockSize c ∈ cdirty c)) as [Hd|Hd].
        -- by rewrite decide_True by (by apply elem_of_union_r).
        -- rewrite decide_False; [done|]. rewrite elem_of_union, Hkeys. intros [?|?]; [|done].
           by apply Hnot.
      * rewrite lookup_ge_None_2 by (unfold zlength in *; lia).
        by repeat case_decide.
Qed.
End laws.

(** ** Exporting *)
Section export_laws.
Context {B W : Type} `{BitSetLaws B, AppendingWriter W}.
Implicit Types c : Cache.

Definition block_bytes c (m : list byte) (k : Z) : list byte :=
  slice m (k * cblockSize c) ((k + 1) * cblockSize c).
(** The numbers of the dirty blocks, in increasing order. *)
Definition dirty_blocks c : list Z := (λ key, key / cblockSize c) <$> dirtySortedKeys c.

Lemma strongly_sorted_lt (l : list Z) :
  StronglySorted Z.le l → NoDup l → StronglySorted Z.lt l.
Proof.
  induction 1 as [|x l Hs IH Hx]; intros Hnd; constructor.
  - apply IH. by apply NoDup_cons_1_2 in Hnd.
  - apply NoDup_cons in Hnd as [Hnin _]. rewrite Forall_forall in Hx |- *.
    intros y Hy. specialize (Hx y Hy). assert (x ≠ y) by (intros ->; done). lia.
Qed.

Lemma dirtySortedKeys_sorted c : StronglySorted Z.lt (dirtySortedKeys c).
Proof.
  apply strongly_sorted_lt; unfold dirtySortedKeys.
  - apply Sorted_StronglySorted; [apply _|]. apply Sorted_merge_sort. apply _.
  - rewrite merge_sort_Permutation. apply NoDup_elements.
Qed.
Lemma elem_of_dirtySortedKeys c k : k ∈ dirtySortedKeys c ↔ k ∈ cdirty c.
Proof. unfold dirtySortedKeys. by rewrite merge_sort_Permutation, elem_of_elements. Qed.

Lemma dirty_blocks_spec c m :
  cache_wf c m → (cblockSize c | csize c) →
  StronglySorted Z.lt (dirty_blocks c) ∧
  (λ k, k * cblockSize c) <$> dirty_blocks c = dirtySortedKeys c ∧
  (∀ k, k ∈ dirty_blocks c ↔ k * cblockSize c ∈ cdirty c) ∧
  (∀ k, k ∈ dirty_blocks c → 0 ≤ k ∧ (k + 1) * cblockSize c ≤ csize c).
Proof.
  intros [] [n Hn].
  assert (∀ key, key ∈ dirtySortedKeys c → ∃ q, key = q * cblockSize c ∧ 0 ≤ q ∧ (q + 1) * cblockSize c ≤ csize c) as Hkey.
  { intros key Hk%elem_of_dirtySortedKeys. destruct (cw_keys0 key Hk) as (x & Hx & <-).
    exists (x / cblockSize c). split; [done|].
    assert (0 ≤ x / cblockSize c) by (apply Z.div_pos; lia). split; [done|].
    assert (x / cblockSize c < n) by (apply Z.div_lt_upper_bound; lia). nia. }
  unfold dirty_blocks. pose proof (dirtySortedKeys_sorted c) as Hs.
  pose proof (elem_of_dirtySortedKeys c) as He.
  revert Hs Hkey He. generalize (dirtySortedKeys c) as l. intros l Hs Hkey He.
  assert (∀ k, k ∈ (λ key, key / cblockSize c) <$> l ↔ k * cblockSize c ∈ l) as Hel.
  { intros k. rewrite list_elem_of_fmap. split.
    - intros (key & -> & Hin). destruct (Hkey key Hin) as (q & -> & _). by rewrite Z.div_mul by lia.
    - intros Hin. exists (k * cblockSize c). by rewrite Z.div_mul by lia. }
  split_and!.
  - clear Hel He. induction Hs as [|x l Hs IH Hx]; [constructor|]. rewrite fmap_cons. constructor.
    + apply IH. intros key Hin. apply Hkey. by right.
    + apply Forall_fmap, Forall_forall. intros y Hy. simpl.
      destruct (Hkey x) as (q & -> & _); [by left|]. destruct (Hkey y) as (q' & -> & _); [by right|].
      rewrite Forall_forall in Hx. specialize (Hx _ Hy). rewrite !Z.div_mul by lia. nia.
  - rewrite <-list_fmap_compose. rewrite <-(list_fmap_id l) at 2. apply list_fmap_ext.
    intros ? key Hin%list_elem_of_lookup_2. destruct (Hkey key Hin) as (q & -> & _). simpl.
    by rewrite Z.div_mul by lia.
  - intros k. by rewrite Hel, He.
  - intros k. rewrite Hel. intros Hin. destruct (Hkey _ Hin) as (q & Hq & ? & ?).
    assert (k = q) by nia. by subst.
Qed.

Lemma export_loop_spec c m rest ks (b : DiffMetadataBuilder B) (w : W) :
  cache_wf c m → supported (cblockSize c) →
  StronglySorted Z.lt (ks ++ rest) → (∀ k, k ∈ rest → 0 ≤ k ∧ (k + 1) * cblockSize c ≤ csize c) →
  built (cblockSize c) (block_bytes c m) (csize c) ks b w →
  ∃ b' w', export_loop c m ((λ k, k * cblockSize c) <$> rest) b w = (w', Ok b') ∧
    built (cblockSize c) (block_bytes c m) (csize c) (ks ++ rest) b' w'.
Proof.
  intros [] Hsup. pose proof (supported_pos _ Hsup). revert ks b w.
  induction rest as [|k rest IH]; intros ks b w Hs Hin Hb.
  { exists b, w. by rewrite app_nil_r. }
  destruct (Hin k) as [Hk0 Hk]; [by left|]. unfold maxI64 in *.
  rewrite fmap_cons. cbn [export_loop].
  assert (0 ≤ k * cblockSize c) by nia.
  rewrite i64_small by lia. replace (k * cblockSize c + cblockSize c) with ((k + 1) * cblockSize c) by lia.
  rewrite go_slice_ok by lia. fold (block_bytes c m k).
  destruct (Process_built (cblockSize c) (block_bytes c m) Hsup (csize c) ks b w k Hb)
    as (b' & w' & -> & Hb').
  - intros j Hj. eapply StronglySorted_app_1_elem_of; [exact Hs|done|left].
  - done.
  - lia.
  - unfold maxI64. lia.
  - unfold block_bytes. rewrite slice_length; lia.
  - destruct (IH (ks ++ [k]) b' w') as (b2 & w2 & -> & Hb2).
    + by rewrite app_nil_cons_eq.
    + intros j Hj. apply Hin. by right.
    + done.
    + exists b2, w2. split; [done|]. by rewrite app_nil_cons_eq in Hb2.
Qed.

Lemma ExportToDiff_built c m (w : W) :
  cache_wf c m → supported (cblockSize c) → (cblockSize c | csize c) → w_data w = [] →
  ∃ (d : DiffMetadata B) w' b', ExportToDiff c true w = (w', Ok d) ∧ d = Build b' ∧
    built (cblockSize c) (block_bytes c m) (csize c) (dirty_blocks c) b' w'.
Proof.
  intros Hwf Hsup Hdiv Hw. pose proof Hwf as [].
  destruct (dirty_blocks_spec c m Hwf Hdiv) as (Hs & Hk & _ & Hin).
  destruct (NewDiffMetadataBuilder_built (B := B) (W := W) (E := CacheError) (cblockSize c) (block_bytes c m) Hsup (csize c) w)
    as (b & Hb & Hbuilt); [done..|].
  destruct (export_loop_spec c m (dirty_blocks c) [] b w Hwf Hsup Hs Hin Hbuilt) as (b' & w' & He & Hb').
  unfold ExportToDiff, isClosed. rewrite cw_open0, cw_mmap0. simpl. rewrite Hb, <-Hk, He. simpl.
  by exists (Build b'), w', b'.
Qed.
End export_laws.

(** ** Copying process memory *)
Section copy_laws.
Context (IOV_MAX : nat) (mem : Z → byte).
Implicit Types (c : Cache) (rs : list Range).
Hypothesis iov_pos : (0 < IOV_MAX)%nat.
Abbreviation rbytes := (remote_bytes mem).

Lemma remote_bytes_app rs1 rs2 : rbytes (rs1 ++ rs2) = rbytes rs1 ++ rbytes rs2.
Proof. unfold remote_bytes. by rewrite fmap_app, concat_app, fmap_app. Qed.
Lemma remote_bytes_nonneg rs : 0 ≤ zlength (rbytes rs).
Proof. unfold zlength. lia. Qed.
Lemma zlength_app {A} (l1 l2 : list A) : zlength (l1 ++ l2) = zlength l1 + zlength l2.
Proof. unfold zlength. rewrite length_app. lia. Qed.
Lemma remote_bytes_cons r rs :
  0 ≤ RSize r → zlength (rbytes (r :: rs)) = RSize r + zlength (rbytes rs).
Proof.
  intros. change (r :: rs) with ([r] ++ rs). rewrite remote_bytes_app, zlength_app. f_equal.
  unfold remote_bytes, zlength. simpl. rewrite app_nil_r, length_fmap, length_bytes_of. lia.
Qed.
Lemma remote_bytes_divide bs rs :
  Forall (λ r, 0 ≤ RSize r) rs → Forall (λ r, (bs | RSize r)) rs → (bs | zlength (rbytes rs)).
Proof.
  induction 1 as [|r rs Hr Hrs IH]; intros Hd; [apply Z.divide_0_r|].
  apply Forall_cons in Hd as [? ?]. rewrite remote_bytes_cons by done. apply Z.divide_add_r; auto.
Qed.

Lemma GetSize_spec rs acc :
  Forall (λ r, 0 ≤ RSize r) rs → 0 ≤ acc → acc + zlength (rbytes rs) ≤ maxI64 →
  foldl (λ size r, i64 (size + RSize r)) acc rs = acc + zlength (rbytes rs).
Proof.
  intros Hrs. revert acc. induction Hrs as [|r rs Hr Hrs IH]; intros acc Hacc Hfit; simpl.
  - unfold zlength. simpl. lia.
  - rewrite remote_bytes_cons in Hfit |- * by done. pose proof (remote_bytes_nonneg rs).
    unfold maxI64 in *. rewrite i64_small by lia. rewrite IH by lia. lia.
Qed.

Lemma gather_spec a rs remote seg :
  Forall (λ r, 0 < RSize r ≤ a) rs → 0 ≤ seg ≤ a → a ≤ MaxInt32 →
  ∃ taken rest, gather IOV_MAX a rs remote seg = (remote ++ taken, seg + zlength (rbytes taken), rest) ∧
    rs = taken ++ rest ∧ (remote = [] → seg = 0 → rs ≠ [] → taken ≠ []).
Proof using iov_pos.
  intros Hrs. revert remote seg. unfold MaxInt32.
  induction Hrs as [|r rs Hr Hrs IH]; intros remote seg Hseg Ha; simpl.
  { exists [], []. rewrite app_nil_r. split_and!; [f_equal; f_equal; unfold zlength; simpl; lia|done|done]. }
  assert (∀ P : Prop, (remote ≠ [] ∨ seg ≠ 0 → P) → (remote = [] → seg = 0 → P) → P) as Hcase.
  { intros P H1 H2. destruct remote; [|by apply H1; left].
    destruct (decide (seg = 0)); [by apply H2|apply H1; by right]. }
  destruct (Nat.eqb_spec (length remote) IOV_MAX) as [E|E].
  { exists [], (r :: rs). rewrite app_nil_r. split_and!; [f_equal; f_equal; unfold zlength; simpl; lia|done|].
    intros ->. simpl in E. lia. }
  rewrite i64_small by lia. destruct (Z.ltb_spec a (seg + RSize r)) as [Hlt|Hge].
  { exists [], (r :: rs). rewrite app_nil_r. split_and!; [f_equal; f_equal; unfold zlength; simpl; lia|done|].
    intros _ ->. lia. }
  destruct (IH (remote ++ [r]) (seg + RSize r)) as (taken & rest & -> & -> & _); [lia|done|].
  exists (r :: taken), rest. rewrite app_nil_cons_eq, remote_bytes_cons by lia.
  split_and!; [f_equal; f_equal; lia|done|done].
Qed.

(** Outcomes after which the copy succeeds: only transient errors and full reads. *)
Definition harmless (o : vm_outcome) : bool :=
  match o with EAGAIN | EINTR | ENOMEM => true | ReadBytes missing => missing =? 0 | _ => false end.
Definition full (o : vm_outcome) : bool :=
  match o with ReadBytes missing => missing =? 0 | _ => false end.
Definition reads (os : list vm_outcome) : nat := length (filter (λ o, full o = true) os).

Lemma read_segment_spec os c m remote off :
  cache_wf c m → Forall (λ o, harmless o = true) os → (0 < reads os)%nat →
  0 ≤ off → (cblockSize c | off) → off + zlength (rbytes remote) ≤ csize c →
  (cblockSize c | zlength (rbytes remote)) →
  ∃ c' os', read_segment mem os c remote off (zlength (rbytes remote)) = Some (Ok c', os') ∧
    cache_wf c' (splice m off (rbytes remote)) ∧ cblockSize c' = cblockSize c ∧ csize c' = csize c ∧
    cdirty c ⊆ cdirty c' ∧ dirtyFile c' = dirtyFile c ∧
    (∀ x, off ≤ x < off + zlength (rbytes remote) → x / cblockSize c * cblockSize c ∈ cdirty c') ∧
    Forall (λ o, harmless o = true) os' ∧ (reads os = S (reads os'))%nat.
Proof.
  intros Hwf Hos Hr Hoff Hdiv Hin Hdl. pose proof Hwf as []. pose proof (remote_bytes_nonneg remote).
  induction Hos as [|o os Ho Hos IH]; [unfold reads in Hr; simpl in Hr; lia|].
  assert (∀ b : bool, full o = b → b = false → reads (o :: os) = reads os) as Hskip.
  { intros b Hb ->. unfold reads. by rewrite filter_cons_False by (by rewrite Hb). }
  destruct o as [| | | | |missing]; try done; cbn [read_segment].
  1-3: rewrite (Hskip false) in Hr |- * by done; by apply IH.
  simpl in Ho. assert (missing = 0) as -> by by apply Z.eqb_eq. rewrite cw_mmap0, cw_len0.
  destruct (Z.ltb_spec (csize c) (off + zlength (rbytes remote))); [lia|].
  rewrite Z.sub_0_r, Z.eqb_refl. simpl negb. cbv iota.
  rewrite BlocksOffsets_eq by lia. simpl.
  assert (∀ k, k ∈ (list_to_set ((λ o, i64 (off + o)) <$>
      ((λ i, i * cblockSize c) <$> seqZ 0 ((zlength (rbytes remote) + cblockSize c - 1) / cblockSize c))) : gset Z) ↔
      block_keys (cblockSize c) off (zlength (rbytes remote)) k) as Hkeys.
  { intros k. rewrite elem_of_list_to_set. apply blocks_offsets_keys; try done; lia. }
  eexists _, os. split; [done|]. split_and!; try done.
  - split; simpl; try done; [by rewrite splice_length by lia|].
    intros k. rewrite elem_of_union, Hkeys. intros [(x & Hx & <-)|?]; [|by apply cw_keys0].
    exists x. split; [lia|done].
  - simpl. apply union_subseteq_r.
  - intros x Hx. simpl. apply elem_of_union_l, Hkeys. by exists x.
Qed.

Lemma splice_app {A} (l tail b : list A) :
  zlength b ≤ zlength tail → splice (l ++ tail) (zlength l) b = (l ++ b) ++ drop (length b) tail.
Proof.
  unfold splice, zlength. intros. rewrite Nat2Z.id, take_app_length, <-app_assoc. do 2 f_equal.
  rewrite drop_app_ge by lia. f_equal. lia.
Qed.

Lemma copy_loop_spec a fuel os c finished tail rs :
  cache_wf c (rbytes finished ++ tail) → a ≤ MaxInt32 →
  (∀ x, 0 ≤ x < zlength (rbytes finished) → x / cblockSize c * cblockSize c ∈ cdirty c) →
  Forall (λ r, 0 < RSize r ≤ a) rs → Forall (λ r, (cblockSize c | RSize r)) rs →
  (cblockSize c | zlength (rbytes finished)) →
  zlength (rbytes finished) + zlength (rbytes rs) = csize c →
  Forall (λ o, harmless o = true) os → zlength (rbytes rs) ≤ Z.of_nat (reads os) * cblockSize c →
  (length rs < fuel)%nat →
  ∃ c', copy_loop IOV_MAX mem fuel os c a rs (zlength (rbytes finished)) = Some (Ok c') ∧
    cache_wf c' (rbytes (finished ++ rs)) ∧ cblockSize c' = cblockSize c ∧
    (∀ x, 0 ≤ x < csize c → x / cblockSize c * cblockSize c ∈ cdirty c').
Proof using iov_pos.
  revert os c finished tail rs. induction fuel as [|fuel IH]; intros os c finished tail rs
    Hwf Ha Hdirty Hrs Hdivs Hdf Htot Hos Hreads Hf; [lia|].
  pose proof Hwf as []. cbn [copy_loop].
  destruct rs as [|r0 rs0] eqn:Ers.
  { simpl. exists c. rewrite app_nil_r. unfold zlength in Htot at 2. simpl in Htot.
    split_and!; [done| |done|intros x ?; apply Hdirty; lia].
    rewrite zlength_app in cw_len0. destruct tail as [|b tail].
    - by rewrite app_nil_r in Hwf.
    - unfold zlength in cw_len0, Htot. simpl in cw_len0. lia. }
  rewrite <-Ers in *. assert (rs ≠ []) as Hne by by rewrite Ers.
  destruct (decide (a < 0)) as [Hneg|Hneg].
  { rewrite Ers in Hrs. apply Forall_cons in Hrs as [? _]. lia. }
  destruct (gather_spec a rs [] 0 Hrs ltac:(lia) Ha) as (taken & rest & -> & Hsplit & Htne).
  specialize (Htne eq_refl eq_refl Hne). simpl app. rewrite Z.add_0_l.
  destruct taken as [|t0 taken0] eqn:Et; [done|]. rewrite <-Et in *.
  rewrite Hsplit in Hrs, Hdivs. apply Forall_app in Hrs as [Hrt Hrr], Hdivs as [Hdt Hdr].
  rewrite Hsplit, remote_bytes_app, zlength_app in Htot, Hreads.
  assert (cblockSize c | zlength (rbytes taken)) as Hdl.
  { apply remote_bytes_divide; [|done]. eapply Forall_impl; [exact Hrt|]. simpl. lia. }
  assert (0 < zlength (rbytes taken)) as Hpos.
  { rewrite Et in Hrt |- *. apply Forall_cons in Hrt as [? _].
    rewrite remote_bytes_cons by lia. pose proof (remote_bytes_nonneg taken0). lia. }
  assert (cblockSize c ≤ zlength (rbytes taken)) as Hge by (apply Z.divide_pos_le; done).
  pose proof (remote_bytes_nonneg finished) as Hf0. pose proof (remote_bytes_nonneg rest) as Hr0.
  unfold address. rewrite cw_mmap0.
  destruct (Z.leb_spec (csize c) (zlength (rbytes finished))); [lia|].
  assert ((zlength (rbytes finished) <? 0) || (zlength (rbytes finished ++ tail) <=? zlength (rbytes finished)) = false) as ->.
  { apply orb_false_iff. rewrite Z.ltb_ge, Z.leb_gt. rewrite cw_len0. lia. }
  destruct (read_segment_spec os c _ taken (zlength (rbytes finished)) Hwf Hos) as
    (c' & os' & -> & Hwf' & Hb' & Hs' & Hsub & Hdf' & Hd' & Hos' & Hre); [nia|lia|done|lia|done|].
  simpl. rewrite i64_small by (unfold maxI64 in *; lia).
  rewrite splice_app in Hwf' by (rewrite zlength_app in cw_len0; lia).
  rewrite <-remote_bytes_app in Hwf'. rewrite <-zlength_app, <-remote_bytes_app.
  destruct (IH os' c' (finished ++ taken) _ rest Hwf' Ha) as (c2 & Hc2 & Hwf2 & Hb2 & Hd2); rewrite ?Hb', ?Hs'.
  - intros x Hx. rewrite remote_bytes_app, zlength_app in Hx.
    destruct (decide (x < zlength (rbytes finished))); [apply Hsub, Hdirty; lia|apply Hd'; lia].
  - done.
  - done.
  - rewrite remote_bytes_app, zlength_app. by apply Z.divide_add_r.
  - rewrite remote_bytes_app, zlength_app. lia.
  - done.
  - nia.
  - rewrite Hsplit, length_app, Et in Hf. simpl in Hf. lia.
  - exists c2. rewrite Hc2. rewrite Hsplit, app_assoc.
    rewrite Hb', Hs' in *. by split_and!.
Qed.

Lemma NewCacheFromProcessMemory_spec PAGE_SIZE f os bs path rs :
  0 < bs ≤ MAX_RW_COUNT PAGE_SIZE →
  Forall (λ r, 0 ≤ Start r ∧ 0 < RSize r ∧ (bs | RSize r) ∧ Start r + RSize r ≤ maxI64 ∧
    RSize r + MaxInt32 ≤ maxI64) rs →
  rs ≠ [] → zlength (rbytes rs) + bs ≤ maxI64 →
  is_Some (file_open f) → file_truncate f = true → file_map f = true →
  Forall (λ o, harmless o = true) os → zlength (rbytes rs) ≤ Z.of_nat (reads os) * bs →
  ∃ c, NewCacheFromProcessMemory IOV_MAX mem PAGE_SIZE f os bs path rs = Some (Ok c) ∧
    cache_wf c (rbytes rs) ∧ cblockSize c = bs ∧
    ∀ x, 0 ≤ x < zlength (rbytes rs) → peek c (rbytes rs) x = rbytes rs !! Z.to_nat x.
Proof using iov_pos.
  intros Hbs Hrs Hne Hfit [content Hopen] Htr Hmap Hos Hreads. unfold NewCacheFromProcessMemory.
  assert (Forall (λ r, 0 < RSize r) rs) as Hpos by (eapply Forall_impl; [exact Hrs|]; simpl; lia).
  assert (GetSize rs = zlength (rbytes rs)) as ->.
  { unfold GetSize. rewrite GetSize_spec; [lia| |lia|lia].
    eapply Forall_impl; [exact Hpos|]. simpl. lia. }
  assert (0 < zlength (rbytes rs)) as Hsz.
  { destruct rs as [|r rs]; [done|]. apply Forall_cons in Hpos as [? _].
    rewrite remote_bytes_cons by lia. pose proof (remote_bytes_nonneg rs). lia. }
  unfold NewCache. rewrite Hopen, Htr, Hmap. destruct (Z.eqb_spec (zlength (rbytes rs)) 0); [lia|]. simpl.
  unfold copyProcessMemory. simpl.
  destruct (getAlignedMaxRwCount_spec (E := CacheError) PAGE_SIZE bs Hbs) as (a & -> & Ha & Hda).
  destruct (split_ranges_spec a ltac:(lia) rs []) as (out & Ho & Hc & Hm & Hp & Hd).
  { eapply Forall_impl; [exact Hrs|]. unfold range_ok. simpl. lia. }
  unfold splitOversizedRanges. rewrite Ho. cbn [mbind option_bind app].
  assert (rbytes out = rbytes rs) as Hrb by (unfold remote_bytes; by rewrite Hc).
  destruct (copy_loop_spec a (S (length out)) os
    (mkCache path (zlength (rbytes rs)) bs (Some (truncated content (zlength (rbytes rs)))) ∅ false false)
    [] (truncated content (zlength (rbytes rs))) out) as (c & Hcl & Hwf & Hb & Hdirty).
  - split; simpl; try done; try lia. unfold truncated, zlength.
    rewrite length_app, length_take, length_replicate. lia.
  - lia.
  - intros x Hx. unfold zlength in Hx. simpl in Hx. lia.
  - apply Forall_and. split; [|done]. by apply Hp.
  - simpl. apply Hd; [done|]. eapply Forall_impl; [exact Hrs|]. simpl. tauto.
  - apply Z.divide_0_r.
  - rewrite Hrb. simpl. unfold zlength. simpl. lia.
  - done.
  - by rewrite Hrb.
  - lia.
  - exists c. unfold zlength in Hcl at 3. simpl in Hcl, Hb, Hwf. rewrite Hrb in Hwf.
    split; [exact Hcl|]. split_and!; [done|done|].
    intros x Hx. unfold peek. rewrite decide_True; [done|]. rewrite Hb. by apply Hdirty.
Qed.
End copy_laws.

(** ** Properties *)

(** Writing whole blocks into an open cache makes exactly the bytes of the
    buffer available at their offsets and leaves every other byte - its value and
    whether it is available - as it was; the cache stays well formed. *)
Theorem WriteAt_updates (c : Cache) (m b : list byte) (off : Z) :
  cache_wf c m → 0 ≤ off → (cblockSize c | off) → off + zlength b ≤ csize c →
  (cblockSize c | zlength b) ∨ off + zlength b = csize c →
  ∃ c', WriteAt c b off = Ok (zlength b, c') ∧ cache_wf c' (splice m off b) ∧
    ∀ x, 0 ≤ x → peek c' (splice m off b) x =
      if decide (off ≤ x < off + zlength b) then b !! Z.to_nat (x - off) else peek c m x.
Proof.
  intros Hwf Ho Hd Hin Hend. destruct (WriteAt_spec c m b off Hwf Ho Hd Hin Hend) as (c' & ? & ? & _ & _ & _ & ?).
  eauto.
Qed.

Definition ex_cache : Cache := mkCache "f" 8 4 (Some (replicate 8 x00)) {[ 4 ]} false false.
Lemma ex_cache_wf : cache_wf ex_cache (replicate 8 x00).
Proof.
  split; try done. intros k Hk. change (cdirty ex_cache) with ({[4]} : gset Z) in Hk.
  apply elem_of_singleton in Hk as ->. exists 4. split; [simpl; lia|done].
Qed.

Lemma WriteAt_updates_witness :
  ∃ c', WriteAt ex_cache [x01; x02; x03; x04] 0 = Ok (4, c') ∧
    peek c' (splice (replicate 8 x00) 0 [x01; x02; x03; x04]) 2 = Some x03 ∧
    peek c' (splice (replicate 8 x00) 0 [x01; x02; x03; x04]) 6 = Some x00.
Proof.
  destruct (WriteAt_updates ex_cache (replicate 8 x00) [x01; x02; x03; x04] 0) as (c' & Hc & _ & Hp).
  - exact ex_cache_wf.
  - lia.
  - by exists 0.
  - by vm_compute.
  - left. by exists 1.
  - exists c'. split; [exact Hc|]. rewrite !Hp by lia. by vm_compute.
Defined.

(** [Slice] of a block-aligned range inside an open cache returns exactly
    the available bytes, and [BytesNotAvailableError] exactly when some byte of
    the range has never been written. *)
Theorem Slice_reads (c : Cache) (m : list byte) (off n : Z) :
  cache_wf c m → dirtyFile c = false → 0 ≤ off → (cblockSize c | off) → 0 ≤ n → off + n ≤ csize c →
  match Slice c off n with
  | Ok s => zlength s = n ∧ ∀ i, 0 ≤ i < n → peek c m (off + i) = s !! Z.to_nat i
  | Err e => e = BytesNotAvailableError ∧ ∃ i, 0 ≤ i < n ∧ peek c m (off + i) = None
  | Panic => False
  end.
Proof. apply Slice_spec. Qed.

Lemma Slice_reads_witness :
  zlength [x00; x00] = 2 ∧ ∃ i, 0 ≤ i < 4 ∧ peek ex_cache (replicate 8 x00) (0 + i) = None.
Proof.
  split.
  - refine (proj1 (Slice_reads ex_cache (replicate 8 x00) 4 2 ex_cache_wf eq_refl _ _ _ _));
      [lia|by exists 1|lia|by vm_compute].
  - refine (proj2 (Slice_reads ex_cache (replicate 8 x00) 0 4 ex_cache_wf eq_refl _ _ _ _));
      [lia|by exists 0|lia|by vm_compute].
Defined.

(** Once an open cache with a mapping has been closed, every operation
    reports that it is closed, a second [Close] included. *)
Theorem Close_closes {B W} `{BitSetOps B, WriterOps W} (c : Cache) (m : list byte)
    (unmap remove : bool) (b : list byte) (off n : Z) (w : W) :
  cmmap c = Some m → cclosed c = false →
  let c' := (Close c unmap remove).1 in
  let e := CacheClosedError (filePath c) in
  Slice c' off n = Err e ∧ ReadAt c' n off = Err e ∧ WriteAt c' b off = Err e ∧
  Sync c' true = Err e ∧ Size_ c' = Err e ∧ addressBytes c' off n = Err e ∧
  ExportToDiff (B := B) c' true w = (w, Err e) ∧ Close c' unmap remove = (c', [e]).
Proof. intros Hm Hc. unfold Close. rewrite Hm, Hc. by split_and!. Qed.

Lemma Close_closes_witness :
  Slice (Close ex_cache true true).1 4 4 = Err (CacheClosedError "f").
Proof.
  exact (proj1 (Close_closes (B := list bool) (H := BoolBits.ops) ex_cache (replicate 8 x00) true true
    [] 4 4 ([] : list byte) eq_refl eq_refl)).
Defined.

(** Copying the memory of a process into a new cache, with a kernel that
    interrupts, asks to retry or is short of memory any number of times but then
    reads fully, ends, and the cache holds the bytes of the ranges one after the
    other: segments limited to [IOV_MAX] ranges and [MAX_RW_COUNT] bytes lose and
    reorder nothing, and every block of the cache is available. *)
Theorem NewCacheFromProcessMemory_copies (IOV_MAX : nat) (mem : Z → byte) (PAGE_SIZE : Z)
    (f : FileResult) (os : list vm_outcome) (bs : Z) (path : string) (rs : list Range) :
  (0 < IOV_MAX)%nat → 0 < bs ≤ MAX_RW_COUNT PAGE_SIZE →
  Forall (λ r, 0 ≤ Start r ∧ 0 < RSize r ∧ (bs | RSize r) ∧ Start r + RSize r ≤ maxI64 ∧
    RSize r + MaxInt32 ≤ maxI64) rs →
  rs ≠ [] → zlength (remote_bytes mem rs) + bs ≤ maxI64 →
  is_Some (file_open f) → file_truncate f = true → file_map f = true →
  Forall (λ o, harmless o = true) os → zlength (remote_bytes mem rs) ≤ Z.of_nat (reads os) * bs →
  ∃ c, NewCacheFromProcessMemory IOV_MAX mem PAGE_SIZE f os bs path rs = Some (Ok c) ∧
    cache_wf c (remote_bytes mem rs) ∧ cblockSize c = bs ∧
    ∀ x, 0 ≤ x < zlength (remote_bytes mem rs) →
      peek c (remote_bytes mem rs) x = remote_bytes mem rs !! Z.to_nat x.
Proof. intros Hiov. by apply NewCacheFromProcessMemory_spec. Qed.

Lemma NewCacheFromProcessMemory_copies_witness :
  ∃ c, NewCacheFromProcessMemory 1024 (λ z, if z =? 13 then x07 else x01) 4096 (mkFile (Some []) true true)
      [EINTR; ReadBytes 0; ReadBytes 0; ReadBytes 0] 4 "f" [mkRange 12 4; mkRange 40 8] = Some (Ok c) ∧
    cmmap c = Some [x01; x07; x01; x01; x01; x01; x01; x01; x01; x01; x01; x01].
Proof.
  destruct (NewCacheFromProcessMemory_copies 1024 (λ z, if z =? 13 then x07 else x01) 4096
    (mkFile (Some []) true true) [EINTR; ReadBytes 0; ReadBytes 0; ReadBytes 0] 4 "f"
    [mkRange 12 4; mkRange 40 8]) as (c & Hc & [Hm] & _).
  - lia.
  - by vm_compute.
  - constructor; [|constructor; [|constructor]]; simpl; unfold maxI64, MaxInt32; split_and!; try lia.
    + by exists 1.
    + by exists 2.
  - done.
  - by vm_compute.
  - by eexists.
  - done.
  - done.
  - repeat constructor.
  - by vm_compute.
  - exists c. split; [exact Hc|]. exact Hm.
Defined.
