(* ===== verification/MemMap.v ===== *)
(** * Guest memory regions

    packages/orchestrator/internal/sandbox/uffd/memory: [region.go] and
    [mapping.go] translate offsets of the guest memory to virtual addresses of
    the Firecracker process and back; packages/orchestrator/internal/sandbox/fc:
    [ExportMemory] of [memory.go] copies the dirty blocks of the guest through
    that translation.

    [uintptr] is 64 bits wide. *)
From Stdlib Require Import Init.Byte.
From S2P Require Import Prelude Bitset Uuid Mapping Merge Header Diff BlockRange BlockCache.

(** ** region.go *)
Record Region := mkRegion {
  BaseHostVirtAddr : Z;
  RegionSize : Z;     (** [Size] *)
  ROffset : Z;        (** [Offset] *)
  RPageSize : Z;      (** [PageSize] *)
}.

Definition endOffset (r : Region) : Z := i64 (u64 (ROffset r + RegionSize r)).
Definition endHostVirtAddr (r : Region) : Z := u64 (BaseHostVirtAddr r + RegionSize r).
Definition shiftedOffset (r : Region) (addr : Z) : Z :=
  i64 (u64 (u64 (addr - BaseHostVirtAddr r) + ROffset r)).
Definition shiftedHostVirtAddr (r : Region) (off : Z) : Z :=
  u64 (u64 (u64 off + BaseHostVirtAddr r) - ROffset r).

(** ** mapping.go *)
Inductive MemError : Type :=
  | AddressNotFoundError (hostVirtAddr : Z)
  | OffsetNotFoundError (offset : Z)
  | ErrMissingField (i : nat)
  | ErrGetRanges (e : MemError)
  | ErrMemoryMapping
  | ErrPid
  | ErrCreateCache (e : CacheError).

(** The fields of [models.GuestMemoryRegionMapping], [None] for [nil]. *)
Record FcRegion := mkFcRegion {
  fcBase : option Z; fcSize : option Z; fcOffset : option Z; fcPageSize : option Z;
}.

Fixpoint regions_from_fc (i : nat) (regions : list FcRegion) : res MemError (list Region) :=
  match regions with
  | [] => Ok []
  | r :: regions =>
      match fcBase r, fcSize r, fcOffset r, fcPageSize r with
      | Some b, Some s, Some o, Some p =>
          rs ← regions_from_fc (S i) regions; Ok (mkRegion (u64 b) (u64 s) (u64 o) (u64 p) :: rs)
      | _, _, _, _ => Err (ErrMissingField i)
      end
  end.
Definition NewMappingFromFc (regions : list FcRegion) : res MemError (list Region) :=
  regions_from_fc 0 regions.

Section mapping.
Implicit Types regions : list Region.

Fixpoint GetOffset regions (hostVirtAddr : Z) : res MemError (Z * Z) :=
  match regions with
  | [] => Err (AddressNotFoundError hostVirtAddr)
  | r :: regions =>
      if (BaseHostVirtAddr r <=? hostVirtAddr) && (hostVirtAddr <? endHostVirtAddr r) then
        Ok (shiftedOffset r hostVirtAddr, RPageSize r)
      else GetOffset regions hostVirtAddr
  end.

Fixpoint getHostVirtRegion regions (off : Z) : res MemError Region :=
  match regions with
  | [] => Err (OffsetNotFoundError off)
  | r :: regions =>
      if (i64 (ROffset r) <=? off) && (off <? endOffset r) then Ok r
      else getHostVirtRegion regions off
  end.

Definition GetHostVirtAddr regions (off : Z) : res MemError (Z * Z) :=
  region ← getHostVirtRegion regions off;
  Ok (shiftedHostVirtAddr region off, RPageSize region).

(** The loop of [GetHostVirtRanges]; [None] is running out of fuel. *)
Fixpoint ranges_of (fuel : nat) regions (off size n : Z) (hostVirtRanges : list Range)
    : option (res MemError (list Range)) :=
  if negb (n <? size) then Some (Ok hostVirtRanges)
  else match fuel with
       | O => None
       | S fuel =>
           let currentOff := i64 (off + n) in
           match getHostVirtRegion regions currentOff with
           | Ok region =>
               let start := shiftedHostVirtAddr region currentOff in
               let remainingSize :=
                 Z.min (i64 (u64 (endHostVirtAddr region - start))) (i64 (size - n)) in
               let r := NewRange (i64 start) remainingSize in
               ranges_of fuel regions off size (i64 (n + RSize r)) (hostVirtRanges ++ [r])
           | Err e => Some (Err e)
           | Panic => Some Panic
           end
       end.
Definition GetHostVirtRanges regions (off size : Z) : option (res MemError (list Range)) :=
  ranges_of (Z.to_nat size) regions off size 0 [].
End mapping.

(** ** ExportMemory *)
Section export.
Context {B : Type} `{BitSetOps B}.

(** The loop body over [BitsetRanges]: the ranges so far, or why it stopped. *)
Definition export_body (regions : list Region) (st : option (res MemError (list Range))) (r : Range)
    : option (res MemError (list Range)) * bool :=
  match st with
  | Some (Ok remoteRanges) =>
      match GetHostVirtRanges regions (Start r) (RSize r) with
      | Some (Ok hostVirtRanges) => (Some (Ok (remoteRanges ++ hostVirtRanges)), true)
      | Some (Err e) => (Some (Err (ErrGetRanges e)), false)
      | Some Panic => (Some Panic, false)
      | None => (None, false)
      end
  | _ => (st, false)
  end.

(** [mapping] and [pid] are the answers of Firecracker. *)
Definition ExportMemory (IOV_MAX : nat) (mem : Z → byte) (PAGE_SIZE : Z) (f : FileResult)
    (os : list vm_outcome) (mapping : option (list Region)) (pid : bool)
    (include : B) (cachePath : string) (blockSize : Z) : option (res MemError Cache) :=
  match mapping with
  | None => Some (Err ErrMemoryMapping)
  | Some m =>
      st ← BitsetRanges include blockSize (export_body m) (Some (Ok []));
      remoteRanges ← st;
      match remoteRanges with
      | Ok remoteRanges =>
          if negb pid then Some (Err ErrPid)
          else
            r ← NewCacheFromProcessMemory IOV_MAX mem PAGE_SIZE f os blockSize cachePath remoteRanges;
            Some (match r with
                  | Ok cache => Ok cache
                  | Err e => Err (ErrCreateCache e)
                  | Panic => Panic
                  end)
      | Err e => Some (Err e)
      | Panic => Some Panic
      end
  end.
End export.

(** ** Laws *)
Section laws.
Implicit Types (r : Region) (regions : list Region).

(** A region that does not wrap around, at signed addresses. *)
Definition region_ok r : Prop :=
  0 ≤ ROffset r ∧ 0 < RegionSize r ∧ ROffset r + RegionSize r ≤ maxI64 ∧
  0 ≤ BaseHostVirtAddr r ∧ BaseHostVirtAddr r + RegionSize r ≤ maxI64.

Definition holds_off r (off : Z) : Prop := ROffset r ≤ off < ROffset r + RegionSize r.
Definition holds_addr r (a : Z) : Prop := BaseHostVirtAddr r ≤ a < BaseHostVirtAddr r + RegionSize r.

(** The address of an offset: in the first region that holds it. *)
Fixpoint addr_of regions (off : Z) : option Z :=
  match regions with
  | [] => None
  | r :: regions =>
      if decide (holds_off r off) then Some (BaseHostVirtAddr r + (off - ROffset r))
      else addr_of regions off
  end.

Lemma getHostVirtRegion_spec regions off :
  Forall region_ok regions →
  match getHostVirtRegion regions off with
  | Ok r => r ∈ regions ∧ holds_off r off ∧
      addr_of regions off = Some (BaseHostVirtAddr r + (off - ROffset r))
  | Err e => e = OffsetNotFoundError off ∧ addr_of regions off = None
  | Panic => False
  end.
Proof.
  induction 1 as [|r regions Hr Hrs IH]; simpl; [done|].
  unfold region_ok, maxI64, endOffset, holds_off in *. rewrite (u64_small (ROffset r + _)), !i64_small by lia.
  destruct (Z.leb_spec (ROffset r) off), (Z.ltb_spec off (ROffset r + RegionSize r)); simpl.
  1: { rewrite decide_True by lia. split; [by left|]. split; [lia|done]. }
  all: rewrite decide_False by lia; destruct (getHostVirtRegion regions off); [|done|done].
  all: destruct IH as (? & ? & ?); split; [by right|done].
Qed.

Lemma shiftedHostVirtAddr_eq r off :
  region_ok r → holds_off r off →
  shiftedHostVirtAddr r off = BaseHostVirtAddr r + (off - ROffset r).
Proof.
  unfold region_ok, holds_off, maxI64, shiftedHostVirtAddr. intros. unwrap. lia.
Qed.

(** [l] are the addresses of the offsets [off, off+n). *)
Lemma ranges_of_spec fuel regions off size n acc :
  Forall region_ok regions → 0 ≤ off → 0 ≤ n ≤ size → off + size ≤ maxI64 →
  (∀ r r' o, r ∈ regions → r' ∈ regions → holds_off r o → holds_off r' o → r = r') →
  (∀ x, off + n ≤ x < off + size → is_Some (addr_of regions x)) →
  size - n ≤ Z.of_nat fuel →
  ∃ out, ranges_of fuel regions off size n acc = Some (Ok (acc ++ out)) ∧
    Some <$> concat (bytes_of <$> out) = addr_of regions <$> seqZ (off + n) (size - n) ∧
    Forall (λ g : Range, 0 ≤ Start g ∧ 0 < RSize g ≤ size ∧ Start g + RSize g ≤ maxI64) out ∧
    (∀ bs, (bs | off) → (bs | size) → (bs | n) →
      Forall (λ r, (bs | ROffset r) ∧ (bs | RegionSize r)) regions → Forall (λ g : Range, (bs | RSize g)) out).
Proof.
  intros Hok Hoff Hn Hfit Hdis Hcov. revert n acc Hn Hcov.
  induction fuel as [|fuel IH]; intros n acc Hn Hcov Hf; simpl;
    destruct (Z.ltb_spec n size) as [Hlt|Hge]; simpl.
  1: lia.
  1, 3: exists []; rewrite app_nil_r; split_and!; [done| |constructor|constructor];
      by rewrite seqZ_nil by lia.
  rewrite (i64_small (off + n)) by (unfold maxI64 in *; lia).
  pose proof (getHostVirtRegion_spec regions (off + n) Hok) as Hg.
  destruct (getHostVirtRegion regions (off + n)) as [r| |]; [|destruct Hg as [_ Hg]|done].
  2: { destruct (Hcov (off + n)) as [? E]; [lia|]. by rewrite Hg in E. }
  destruct Hg as (Hin & Hho & Haddr).
  pose proof (proj1 (Forall_forall _ _) Hok r Hin) as Hr.
  rewrite shiftedHostVirtAddr_eq by done.
  unfold region_ok, holds_off, maxI64, endHostVirtAddr in *.
  rewrite (u64_small (BaseHostVirtAddr r + RegionSize r)) by lia.
  set (w := Z.min (ROffset r + RegionSize r - (off + n)) (size - n)).
  assert (Z.min (i64 (u64 (BaseHostVirtAddr r + RegionSize r - (BaseHostVirtAddr r + (off + n - ROffset r)))))
    (i64 (size - n)) = w) as -> by (unwrap; lia).
  unfold NewRange. cbn [RSize]. assert (0 < w ≤ size - n) by lia.
  rewrite (i64_small (n + w)), (i64_small (BaseHostVirtAddr r + _)) by lia.
  set (rg := mkRange (BaseHostVirtAddr r + (off + n - ROffset r)) w).
  destruct (IH (n + w) (acc ++ [rg])) as (out & -> & Hc & Hw & Hd); [lia| |lia|].
  { intros x Hx. apply Hcov. lia. }
  exists (rg :: out). split_and!.
  - by rewrite app_nil_cons_eq.
  - rewrite fmap_cons. simpl concat. rewrite fmap_app, Hc.
    replace (size - n) with (w + (size - (n + w))) by lia. rewrite seqZ_app by lia. rewrite fmap_app.
    replace (off + n + w) with (off + (n + w)) by lia. f_equal.
    unfold bytes_of, rg. simpl. apply list_eq. intros i. rewrite !list_lookup_fmap.
    destruct (decide (Z.of_nat i < w)) as [Hi|Hi].
    + rewrite !lookup_seqZ_lt by lia. simpl. f_equal.
      assert (holds_off r (off + n + Z.of_nat i)) as Hh by (unfold holds_off; lia).
      pose proof (getHostVirtRegion_spec regions (off + n + Z.of_nat i)) as Hg. unfold region_ok, maxI64 in Hg.
      specialize (Hg Hok). destruct (getHostVirtRegion regions (off + n + Z.of_nat i)) as [r'| |]; [| |done].
      * destruct Hg as (Hin' & Hho' & ->). rewrite (Hdis r' r _ Hin' Hin Hho' Hh). f_equal. lia.
      * destruct Hg as [_ Hg]. destruct (Hcov (off + n + Z.of_nat i)) as [? E]; [lia|]. by rewrite Hg in E.
    + rewrite !lookup_seqZ_ge by lia. done.
  - constructor; [|done]. unfold rg. simpl. lia.
  - intros bs H1 H2 H3 H4. pose proof (proj1 (Forall_forall _ _) H4 r Hin) as [Hd1 Hd2].
    assert (bs | w) as Hbw.
    { unfold w. destruct (Z.min_spec (ROffset r + RegionSize r - (off + n)) (size - n)) as [[_ ->]|[_ ->]];
        auto using Z.divide_add_r, Z.divide_sub_r. }
    constructor; [done|]. apply Hd; auto using Z.divide_add_r.
Qed.
End laws.

Section export_laws.
Context {B : Type} `{BitSetLaws B}.
Context (bs : Z) (regions : list Region).
Hypothesis bs_pos : 0 < bs.
Hypothesis regions_ok : Forall region_ok regions.
Hypothesis regions_disjoint :
  ∀ r r' o, r ∈ regions → r' ∈ regions → holds_off r o → holds_off r' o → r = r'.
Hypothesis regions_aligned : Forall (λ r, (bs | ROffset r) ∧ (bs | RegionSize r)) regions.

Definition block_offsets (k : Z) : list Z := seqZ (k * bs) bs.

(** The bytes of a run are the bytes of its blocks. *)
Lemma seqZ_blocks i n : 0 ≤ n → seqZ (i * bs) (n * bs) = concat (block_offsets <$> seqZ i n).
Proof using bs_pos.
  intros Hn. revert i. pattern n. apply natlike_ind; [intros i; by rewrite !seqZ_nil by lia| |done].
  clear n Hn. intros n Hn IH i. rewrite (seqZ_cons i) by lia. rewrite Z.pred_succ, fmap_cons. simpl concat.
  rewrite <-IH. unfold block_offsets.
  replace (Z.succ n * bs) with (bs + n * bs) by lia. rewrite seqZ_app by nia. do 2 f_equal. lia.
Qed.

Lemma runs_bytes lo rs :
  runs_from bs lo rs →
  concat (bytes_of <$> rs) = concat (block_offsets <$> concat (range_blocks bs <$> rs)).
Proof using bs_pos.
  revert lo. induction rs as [|r rs IH]; intros lo; [done|].
  intros (i & n & -> & _ & Hn & Hr). rewrite !fmap_cons. simpl concat.
  rewrite fmap_app, concat_app, (IH _ Hr). f_equal.
  rewrite range_blocks_eq by done. unfold bytes_of. simpl. apply seqZ_blocks. lia.
Qed.

Definition exported (acc out : list Range) (offs : list Z) (total : Z) : Prop :=
  Some <$> concat (bytes_of <$> out) = addr_of regions <$> offs ∧
  Forall (λ g, 0 ≤ Start g ∧ 0 < RSize g ∧ (bs | RSize g) ∧ Start g + RSize g ≤ maxI64 ∧
    RSize g ≤ total) out.

Lemma export_iterate lo hi rs acc :
  0 ≤ lo → runs_from bs lo rs → hi * bs ≤ maxI64 →
  (∀ k, k ∈ concat (range_blocks bs <$> rs) →
    k < hi ∧ ∀ x, x ∈ block_offsets k → is_Some (addr_of regions x)) →
  ∃ out, iterate (export_body regions) rs (Some (Ok acc)) = Some (Ok (acc ++ out)) ∧
    exported acc out (concat (bytes_of <$> rs)) (hi * bs).
Proof using All.
  revert lo acc. induction rs as [|r rs IH]; intros lo acc Hlo Hruns Hhi Hcov.
  { exists []. rewrite app_nil_r. split; [done|]. by split. }
  destruct Hruns as (i & n & -> & Hi & Hn & Hruns).
  assert (∀ k, i ≤ k < i + n → k < hi ∧ ∀ x, x ∈ block_offsets k → is_Some (addr_of regions x)) as Hk.
  { intros k Hk. apply Hcov. rewrite fmap_cons. simpl. apply elem_of_app. left.
    rewrite range_blocks_eq by done. by apply elem_of_seqZ. }
  destruct (Hk (i + n - 1)) as [Hlt _]; [lia|].
  destruct (ranges_of_spec (Z.to_nat (n * bs)) regions (i * bs) (n * bs) 0 []) as (o1 & Ho1 & Hc1 & Hf1 & Hd1);
    [done|nia|nia|nia|done| |lia|].
  { intros x Hx. apply (Hk (x / bs)).
    - split; [apply Z.div_le_lower_bound; lia|apply Z.div_lt_upper_bound; lia].
    - apply elem_of_seqZ. pose proof (Z.div_mod x bs). pose proof (Z.mod_pos_bound x bs). lia. }
  rewrite Z.add_0_r, Z.sub_0_r in Hc1.
  destruct (IH (i + n + 1) (acc ++ o1)) as (out & Ho & Hc & Hf); [lia|done|done| |].
  { intros k Hin. apply Hcov. rewrite fmap_cons. simpl. apply elem_of_app. by right. }
  exists (o1 ++ out). unfold GetHostVirtRanges. cbn [iterate export_body Start RSize].
  unfold GetHostVirtRanges. rewrite Ho1. simpl. rewrite Ho, app_assoc. split; [done|]. split.
  - rewrite (fmap_app bytes_of), concat_app, fmap_app, Hc1, Hc.
    change (concat (bytes_of <$> mkRange (i * bs) (n * bs) :: rs)) with
      (seqZ (i * bs) (n * bs) ++ concat (bytes_of <$> rs)). by rewrite fmap_app.
  - apply Forall_app. split; [|done].
    specialize (Hd1 bs ltac:(by exists i) ltac:(by exists n) (Z.divide_0_r bs) regions_aligned).
    apply Forall_forall. intros g Hg.
    pose proof (proj1 (Forall_forall _ _) Hf1 g Hg). pose proof (proj1 (Forall_forall _ _) Hd1 g Hg).
    assert (n * bs ≤ hi * bs) by nia. simpl in *. split_and!; try done; lia.
Qed.
End export_laws.

(** ** Properties *)

(** For regions that do not wrap around or overlap, [GetHostVirtRanges]
    terminates and splits a range of guest memory into host ranges whose bytes,
    in order, are the addresses of the bytes of the guest range, crossing region
    boundaries where needed. *)
Theorem GetHostVirtRanges_translates (regions : list Region) (off size : Z) :
  Forall region_ok regions → 0 ≤ off → 0 ≤ size → off + size ≤ maxI64 →
  (∀ r r' o, r ∈ regions → r' ∈ regions → holds_off r o → holds_off r' o → r = r') →
  (∀ x, off ≤ x < off + size → is_Some (addr_of regions x)) →
  ∃ out, GetHostVirtRanges regions off size = Some (Ok out) ∧
    Some <$> concat (bytes_of <$> out) = addr_of regions <$> seqZ off size.
Proof.
  intros Hok Hoff Hsz Hfit Hdis Hcov.
  destruct (ranges_of_spec (Z.to_nat size) regions off size 0 []) as (out & Ho & Hc & _); try done; try lia.
  { intros x Hx. apply Hcov. lia. }
  exists out. split; [done|]. by rewrite Z.add_0_r, Z.sub_0_r in Hc.
Qed.

Definition ex_regions : list Region := [mkRegion 1000 8 0 4; mkRegion 500 8 8 4].
Lemma ex_regions_ok : Forall region_ok ex_regions.
Proof. repeat constructor; simpl; unfold maxI64; lia. Qed.
Lemma ex_regions_disjoint r r' o :
  r ∈ ex_regions → r' ∈ ex_regions → holds_off r o → holds_off r' o → r = r'.
Proof.
  unfold ex_regions, holds_off. rewrite !elem_of_cons.
  intros [->|[->|?%not_elem_of_nil]] [->|[->|?%not_elem_of_nil]]; simpl; done || lia.
Qed.
Lemma ex_regions_cover x : 0 ≤ x < 16 → is_Some (addr_of ex_regions x).
Proof. intros. unfold ex_regions, holds_off. simpl. repeat case_decide; eauto. unfold holds_off in *. simpl in *. lia. Qed.

Lemma GetHostVirtRanges_translates_witness :
  GetHostVirtRanges ex_regions 4 8 = Some (Ok [mkRange 1004 4; mkRange 500 4]) ∧
  ∃ out, GetHostVirtRanges ex_regions 4 8 = Some (Ok out) ∧
    Some <$> concat (bytes_of <$> out) = addr_of ex_regions <$> seqZ 4 8.
Proof.
  split; [by vm_compute|]. apply GetHostVirtRanges_translates.
  - exact ex_regions_ok.
  - lia.
  - lia.
  - by vm_compute.
  - exact ex_regions_disjoint.
  - intros x Hx. apply ex_regions_cover. lia.
Defined.
