(* ===== verification/Snapshot.v ===== *)
(** * Snapshots, end to end

    Pausing a sandbox exports its write cache ([Cache.ExportToDiff]) to a data
    file and derives the header of the new build ([DiffMetadata.ToDiffHeader]);
    resuming reads the device through that header.  Memory is exported from the
    process instead ([NewCacheFromProcessMemory] over the [BitsetRanges] of the
    dirty blocks).  This file composes the components: what is read back is what
    the sandbox saw. *)
From Stdlib Require Import Init.Byte.
From S2P Require Import Prelude Bitset Uuid Mapping Merge Header Diff BlockRange BlockCache MemMap.

Section fetch.
Context {ID : Type} `{EqDecision ID, UuidOps ID}.

(** The byte at a reading, given the data file of every build; the null build
    reads as zeros. *)
Definition fetch (data : ID → list byte) (r : option (ID * Z)) : option byte :=
  match r with
  | None => None
  | Some (id, s) => if decide (id = uuid_nil) then Some x00 else data id !! Z.to_nat s
  end.

(** The data files with the one of [id] added. *)
Definition with_build (data : ID → list byte) (id : ID) (l : list byte) (id' : ID) : list byte :=
  if decide (id' = id) then l else data id'.

Lemma fetch_canon data r r' : canon uuid_nil r = canon uuid_nil r' → fetch data r = fetch data r'.
Proof.
  destruct r as [[id s]|], r' as [[id' s']|]; simpl; try done.
  intros [= -> Hs]. repeat case_decide; by subst.
Qed.

Lemma fetch_fresh data id l r :
  (∀ s, r ≠ Some (id, s)) → fetch (with_build data id l) r = fetch data r.
Proof.
  intros Hf. destruct r as [[id' s]|]; simpl; [|done]. case_decide; [done|].
  unfold with_build. case_decide; [|done]. subst. by destruct (Hf s).
Qed.
End fetch.

(** Blocks stored one after the other. *)
Lemma concat_blocks_lookup {A} (bs : Z) (content : Z → list A) (ks : list Z) (p i r : Z) :
  0 < bs → (∀ k, k ∈ ks → zlength (content k) = bs) → rank ks i = Some p → 0 ≤ r < bs →
  concat (content <$> ks) !! Z.to_nat (p * bs + r) = content i !! Z.to_nat r.
Proof.
  intros Hbs Hlen Hp Hr. apply rank_Some in Hp as [Hp0 Hp].
  assert (Forall (λ l, length l = Z.to_nat bs) (content <$> ks)) as Hu.
  { apply Forall_fmap, Forall_forall. intros k Hk. simpl.
    specialize (Hlen k Hk). unfold zlength in Hlen. lia. }
  assert ((content <$> ks) !! Z.to_nat p = Some (content i)) as Hb
    by by rewrite list_lookup_fmap, Hp.
  pose proof (concat_block (Z.to_nat bs) _ _ _ Hu Hb) as <-.
  rewrite lookup_take_lt by lia. rewrite lookup_drop. f_equal.
  rewrite Z2Nat.inj_add, Z2Nat.inj_mul by nia. lia.
Qed.

Lemma split_off bs off : 0 < bs → ∃ i r, off = i * bs + r ∧ 0 ≤ r < bs ∧ off / bs = i.
Proof.
  intros. exists (off / bs), (off mod bs).
  pose proof (Z.div_mod off bs). pose proof (Z.mod_pos_bound off bs). lia.
Qed.

Section disk.
Context {ID B W : Type} `{EqDecision ID, UuidOps ID, BitSetLaws B, AppendingWriter W}.

Lemma rank_filter_None (P : Z → Prop) `{∀ x, Decision (P x)} ks i :
  rank (filter P ks) i = None ↔ ¬ (P i ∧ i ∈ ks).
Proof. by rewrite rank_None, list_elem_of_filter. Qed.
Lemma rank_in ks i : i ∈ ks → is_Some (rank ks i).
Proof.
  intros Hi. destruct (rank ks i) eqn:E; [by eexists|]. by apply rank_None in E.
Qed.

Lemma snapshot_bytes (c : Cache) (m : list byte) (h : Header ID B) (buildID : ID) (w : W)
    (data : ID → list byte) :
  cache_wf c m → supported (cblockSize c) → header_wf (cblockSize c) h →
  Size (HMetadata h) = csize c → w_data w = [] →
  buildID ≠ uuid_nil → (∀ off s, resolve (HMapping h) off ≠ Some (buildID, s)) →
  ∃ (d : DiffMetadata B) w' h', ExportToDiff c true w = (w', Ok d) ∧
    ToDiffHeader d h buildID = Some (Ok h') ∧ header_wf (cblockSize c) h' ∧
    ∀ off, 0 ≤ off < csize c →
      fetch (with_build data buildID (w_data w')) (resolve (HMapping h') off) =
      match peek c m off with Some b => Some b | None => fetch data (resolve (HMapping h) off) end.
Proof.
  intros Hwf Hsup Hh Hsize Hw Hid Hfresh.
  pose proof (supported_pos _ Hsup) as [Hbs _]. pose proof Hwf as [].
  assert (Hdiv : (cblockSize c | csize c)).
  { destruct Hh as [_ _ (_ & Hc & Ha) _ _ _]. rewrite <-Hsize.
    apply (contig_divide (cblockSize c) 0 (HMapping h)); [apply Z.divide_0_r|done|done]. }
  destruct (ExportToDiff_built (B := B) c m w Hwf Hsup Hdiv Hw) as (d & w' & b' & He & -> & []).
  destruct (dirty_blocks_spec c m Hwf Hdiv) as (Hs & _ & Hmem & Hin).
  assert (∀ bits, bs_len bits * cblockSize c ≤ csize c →
    bits_fit bits (cblockSize c) (Size (HMetadata h))) as Hfit.
  { intros bits Hl. split; [lia|]. intros i Hi%set_bits_range. rewrite Hsize. nia. }
  destruct (ToDiffHeader_wf (cblockSize c) (Build b') h buildID) as (h' & Hh' & _ & Hwf' & Hr);
    [done|done|done|by apply Hfit|by apply Hfit|done|done|].
  exists (Build b'), w', h'. split_and!; [done..|]. intros off Hoff.
  destruct (split_off (cblockSize c) off Hbs) as (i & r & -> & Hr0 & Hi).
  rewrite (fetch_canon _ _ _ (Hr i r Hr0)). unfold peek. rewrite Hi.
  unfold diff_reading. simpl. rewrite bu_bs, bu_empty, bu_dirty.
  destruct (decide (i * cblockSize c ∈ cdirty c)) as [Hd|Hd].
  - assert (i ∈ dirty_blocks c) as Hik by by apply Hmem. destruct (Hin i Hik) as [Hi0 Hi1].
    assert (m !! Z.to_nat (i * cblockSize c + r) = block_bytes c m i !! Z.to_nat r) as Hm.
    { unfold block_bytes. rewrite slice_lookup by lia. done. }
    assert (is_Some (m !! Z.to_nat (i * cblockSize c + r))) as [x Hx].
    { apply lookup_lt_is_Some_2. unfold zlength in *. lia. }
    rewrite Hx. rewrite Hm in Hx.
    destruct (rank (empty_blocks _ _ (dirty_blocks c)) i) as [p|] eqn:E1; simpl.
    + rewrite decide_True by done. apply rank_Some in E1 as [_ E1%list_elem_of_lookup_2].
      apply list_elem_of_filter in E1 as [Hz _]. rewrite Hz in Hx.
      unfold zeros in Hx. by apply lookup_replicate in Hx as [-> _].
    + unfold empty_blocks in E1. rewrite rank_filter_None in E1.
      destruct (rank_in (nonempty_blocks (cblockSize c) (block_bytes c m) (dirty_blocks c)) i) as [p Hp].
      { apply list_elem_of_filter. split; [|done]. intros Hz. by apply E1. }
      rewrite Hp. simpl. rewrite decide_False by done. unfold with_build. rewrite decide_True by done.
      rewrite bu_data, (concat_blocks_lookup (cblockSize c) _ _ p i r); [done|done| |done|done].
      intros k [_ Hk]%list_elem_of_filter. destruct (Hin k Hk).
      unfold block_bytes. rewrite slice_length; lia.
  - assert (∀ P `{∀ x, Decision (P x)}, rank (filter P (dirty_blocks c)) i = None) as Hno.
    { intros P ?. apply rank_filter_None. intros [_ Hik]. by apply Hd, Hmem. }
    unfold empty_blocks, nonempty_blocks. rewrite !Hno. simpl.
    apply fetch_fresh. intros s. apply Hfresh.
Qed.

(** C2: pause and resume. Export an open write cache over a well-formed header
    and build the header of the snapshot: each byte of the device read through the
    new header and the exported data file is the byte of the cache when its block
    was written, and otherwise the byte the original header reads. *)
Theorem snapshot_reads_back (c : Cache) (m : list byte) (h : Header ID B) (buildID : ID) (w : W)
    (data : ID → list byte) :
  cache_wf c m → supported (cblockSize c) → header_wf (cblockSize c) h →
  Size (HMetadata h) = csize c → w_data w = [] →
  buildID ≠ uuid_nil → (∀ off s, resolve (HMapping h) off ≠ Some (buildID, s)) →
  ∃ (d : DiffMetadata B) w' h', ExportToDiff c true w = (w', Ok d) ∧
    ToDiffHeader d h buildID = Some (Ok h') ∧ header_wf (cblockSize c) h' ∧
    ∀ off, 0 ≤ off < csize c →
      fetch (with_build data buildID (w_data w')) (resolve (HMapping h') off) =
      match peek c m off with Some b => Some b | None => fetch data (resolve (HMapping h) off) end.
Proof. apply snapshot_bytes. Qed.
End disk.

(** ** Memory *)
Section memory.
Context {ID B : Type} `{BitSetLaws B}.

Lemma concat_block_offsets_lookup bs ks p i r :
  0 < bs → rank ks i = Some p → 0 ≤ r < bs →
  concat (block_offsets bs <$> ks) !! Z.to_nat (p * bs + r) = Some (i * bs + r).
Proof.
  intros Hbs Hp Hr. rewrite (concat_blocks_lookup bs (block_offsets bs) ks p i r); [|done| |done|done].
  - unfold block_offsets. rewrite lookup_seqZ_lt by lia. f_equal. lia.
  - intros k _. unfold block_offsets, zlength. rewrite length_seqZ. lia.
Qed.

Lemma remote_lookup mem (out : list Range) (offs : list Z) regions x o :
  Some <$> concat (bytes_of <$> out) = addr_of regions <$> offs →
  offs !! x = Some o → remote_bytes mem out !! x = mem <$> addr_of regions o.
Proof.
  intros Hc Ho. unfold remote_bytes. rewrite list_lookup_fmap.
  pose proof (f_equal (λ l, l !! x) Hc) as Hx. simpl in Hx. rewrite !list_lookup_fmap, Ho in Hx.
  simpl in Hx. destruct (concat (bytes_of <$> out) !! x) as [a|]; simplify_eq/=. by rewrite <-Hx.
Qed.

(** The byte at an offset of the guest memory, read through the mapping [l] from
    the file of the build, is the process's byte at its host address. *)
Definition guest_byte (mem : Z → byte) (regions : list Region) (buildID : ID) (l : list (BuildMap ID))
    (c : Cache) (m : list byte) (off : Z) : Prop :=
  ∃ s a, resolve l off = Some (buildID, s) ∧ addr_of regions off = Some a ∧ peek c m s = Some (mem a).

(** C5: exporting the dirty blocks of the guest memory ends, and the bytes of
    the exported file sit where [CreateMapping] says: byte [r] of the dirty block
    [k], read through the mapping of the new build, is the byte of the Firecracker
    process at the host address of offset [k * bs + r]. *)
Theorem ExportMemory_places (IOV_MAX : nat) (mem : Z → byte) (PAGE_SIZE : Z) (f : FileResult)
    (os : list vm_outcome) (regions : list Region) (b : B) (path : string) (bs : Z) (buildID : ID) :
  (0 < IOV_MAX)%nat → 0 < bs ≤ MAX_RW_COUNT PAGE_SIZE →
  Forall region_ok regions →
  (∀ r r' o, r ∈ regions → r' ∈ regions → holds_off r o → holds_off r' o → r = r') →
  Forall (λ r, (bs | ROffset r) ∧ (bs | RegionSize r)) regions →
  bs_len b * bs + MaxInt32 ≤ maxI64 → set_bits b ≠ [] →
  (∀ k x, k ∈ set_bits b → x ∈ block_offsets bs k → is_Some (addr_of regions x)) →
  is_Some (file_open f) → file_truncate f = true → file_map f = true →
  Forall (λ o, harmless o = true) os → (length (set_bits b) ≤ reads os)%nat →
  ∃ c m l, ExportMemory IOV_MAX mem PAGE_SIZE f os (Some regions) true b path bs = Some (Ok c) ∧
    cache_wf c m ∧ CreateMapping buildID b bs = Some l ∧
    ∀ k r, k ∈ set_bits b → 0 ≤ r < bs → guest_byte mem regions buildID l c m (k * bs + r).
Proof.
  intros Hiov Hbs Hok Hdis Hal Hfit Hne Hcov Hopen Htr Hmap Hos Hreads.
  assert (MAX_RW_COUNT PAGE_SIZE ≤ MaxInt32 ∧ MaxInt32 ≤ maxI64) as [Hmx Hmx'].
  { split; [|by vm_compute]. unfold MAX_RW_COUNT. rewrite Z.land_comm. change MaxInt32 with (Z.ones 31). rewrite Z.land_ones by lia.
    pose proof (Z.mod_pos_bound (PAGE_MASK PAGE_SIZE) (2 ^ 31) ltac:(by vm_compute)).
    change (Z.ones 31) with 2147483647. change (2 ^ 31) with 2147483648 in *. lia. }
  assert (0 ≤ MaxInt32) by by vm_compute. assert (bs_len b * bs ≤ maxI64) as Hfit' by lia.
  destruct (BitsetRanges_spec b bs ltac:(lia) Hfit') as (rs & Hrun & Hbits & Hruns).
  destruct (export_iterate bs regions ltac:(lia) Hok Hdis Hal 0 (bs_len b) rs []) as (out & Hout & Hc & Hf);
    [lia|done|done| |].
  { intros k Hk. rewrite Hbits in Hk. split; [apply set_bits_range in Hk; lia|]. intros x. by apply Hcov. }
  rewrite (runs_bytes bs ltac:(lia) 0 rs Hruns), Hbits in Hc.
  assert (zlength (remote_bytes mem out) = zlength (set_bits b) * bs) as Hlen.
  { unfold remote_bytes, zlength. rewrite length_fmap.
    pose proof (f_equal length Hc) as E. rewrite !length_fmap in E. rewrite E.
    rewrite (concat_length_uniform (Z.to_nat bs)).
    - rewrite length_fmap. lia.
    - apply Forall_fmap, Forall_true. intros k. simpl. unfold block_offsets. apply length_seqZ. }
  assert (0 < zlength (set_bits b) ≤ bs_len b) as Hcount.
  { pose proof (bs_len_nonneg b). unfold zlength. split; [destruct (set_bits b); [done|simpl; lia]|].
    unfold set_bits, set_bits_in. pose proof (length_filter (λ k, bs_test b k = true) (seqZ 0 (bs_len b))) as Hl.
    rewrite length_seqZ in Hl. lia. }
  destruct (NewCacheFromProcessMemory_spec IOV_MAX mem Hiov PAGE_SIZE f os bs path out) as
    (c & Hcache & Hwf & Hcb & Hpeek); try done.
  - eapply Forall_impl; [exact Hf|]. simpl. unfold MaxInt32 in *. intros g (? & ? & ? & ? & ?). split_and!; try done; lia.
  - intros ->. unfold zlength in Hlen. simpl in Hlen. unfold zlength in Hcount. nia.
  - rewrite Hlen. nia.
  - rewrite Hlen. unfold zlength. nia.
  - destruct (CreateMapping_resolve buildID b bs ltac:(lia) Hfit') as (l & Hl & _ & _ & Hres).
    exists c, (remote_bytes mem out), l. split_and!; [|done|done|].
    + unfold ExportMemory. rewrite Hrun, Hout. simpl. by rewrite Hcache.
    + intros k r Hk Hr. unfold guest_byte. rewrite Hres by done. destruct (rank_in (set_bits b) k Hk) as [p Hp]. rewrite Hp. simpl.
      destruct (Hcov k (k * bs + r) Hk) as [a Ha].
      { unfold block_offsets. apply elem_of_seqZ. lia. }
      exists (p * bs + r), a. split_and!; [done|done|].
      pose proof (rank_Some _ _ _ Hp) as [Hp0 Hpl]. apply lookup_lt_Some in Hpl.
      rewrite Hpeek by (rewrite Hlen; unfold zlength in *; nia).
      rewrite (remote_lookup mem out _ regions _ (k * bs + r) Hc); [by rewrite Ha|].
      apply concat_block_offsets_lookup; done || lia.
Qed.
End memory.

(** ** Witnesses *)
#[local] Existing Instances BoolBits.ops BoolBits.laws Bytes16.ops Bytes16.eq_dec Bytes16.laws.

Definition ex_image : list byte := replicate 4096 x00 ++ replicate 4096 x01 ++ replicate 8192 x00.
Definition ex_disk : Cache := mkCache "rootfs" 16384 4096 (Some ex_image) {[4096; 12288]} false false.

Lemma ex_disk_wf : cache_wf ex_disk ex_image.
Proof.
  split; try done; try (by vm_compute).
  intros k Hk. change (cdirty ex_disk) with ({[4096; 12288]} : gset Z) in Hk.
  apply elem_of_union in Hk as [->%elem_of_singleton| ->%elem_of_singleton].
  - exists 4096. by vm_compute.
  - exists 12288. by vm_compute.
Qed.

Lemma snapshot_reads_back_witness :
  ∃ (d : DiffMetadata (list bool)) w' h', ExportToDiff ex_disk true ([] : list byte) = (w', Ok d) ∧
    ToDiffHeader d Example.header Example.snap = Some (Ok h') ∧
    fetch (with_build (λ _, replicate 16384 x07) Example.snap (w_data w')) (resolve (HMapping h') 5000) = Some x01 ∧
    fetch (with_build (λ _, replicate 16384 x07) Example.snap (w_data w')) (resolve (HMapping h') 100) = Some x07.
Proof.
  destruct (snapshot_reads_back (B := list bool) ex_disk ex_image Example.header Example.snap []
    (λ _, replicate 16384 x07)) as (d & w' & h' & He & Hh & _ & Hr).
  - exact ex_disk_wf.
  - right. reflexivity.
  - exact Example.wf.
  - reflexivity.
  - reflexivity.
  - by vm_compute.
  - intros off s. change (HMapping Example.header) with [mkBuildMap 0 16384 Example.base 0].
    rewrite resolve_cons. case_decide; [|done]. by vm_compute.
  - exists d, w', h'. split; [exact He|]. split; [exact Hh|].
    assert (csize ex_disk = 16384) as Hsz by reflexivity.
    split; (rewrite Hr; [by vm_compute|rewrite Hsz; lia]).
Defined.

Lemma ExportMemory_places_witness :
  ∃ c m l, ExportMemory 1024 (λ z, if z =? 501 then x07 else x01) 4096 (mkFile (Some []) true true)
      [ENOMEM; ReadBytes 0; ReadBytes 0] (Some ex_regions) true [false; true; true] "mem" 4 = Some (Ok c) ∧
    cache_wf c m ∧ CreateMapping 5%nat [false; true; true] 4 = Some l ∧
    guest_byte (λ z, if z =? 501 then x07 else x01) ex_regions 5%nat l c m (2 * 4 + 1).
Proof.
  destruct (ExportMemory_places 1024 (λ z, if z =? 501 then x07 else x01) 4096 (mkFile (Some []) true true)
    [ENOMEM; ReadBytes 0; ReadBytes 0] ex_regions [false; true; true] "mem" 4 5%nat)
    as (c & m & l & He & Hwf & Hl & Hr).
  - lia.
  - by vm_compute.
  - exact ex_regions_ok.
  - exact ex_regions_disjoint.
  - constructor; [split; [by exists 0|by exists 2]|].
    constructor; [split; by exists 2|constructor].
  - by vm_compute.
  - by vm_compute.
  - intros k x Hk Hx. apply ex_regions_cover. apply set_bits_range in Hk. simpl in Hk.
    unfold block_offsets in Hx. apply elem_of_seqZ in Hx. lia.
  - by eexists.
  - done.
  - done.
  - repeat constructor.
  - by vm_compute.
  - exists c, m, l. split; [exact He|]. split; [exact Hwf|]. split; [exact Hl|].
    apply Hr; [|lia]. by apply (elem_of_set_bits [false; true; true] 2).
Defined.
