(* ===== verification/Device.v ===== *)
(** * Block devices

    packages/orchestrator/internal/sandbox/block: the interface [ReadonlyDevice]
    of [device.go], the devices of [empty.go] and [local.go], the write layer of
    [overlay.go]; packages/orchestrator/internal/sandbox/build: [File] of
    [build.go], a device stored in the data of several builds.

    The interface is the class [ReadonlyDevice]; what a client relies on is
    [device_reads].  The overlay is verified against the interface, the devices
    are verified to implement it. *)
From Stdlib Require Import Init.Byte.
From S2P Require Import Prelude Bitset Uuid Mapping Merge Header Diff BlockRange BlockCache MemMap Snapshot.

Inductive DevError : Type :=
  | ErrReadCache (e : CacheError)
  | ErrReadDevice (e : DevError)
  | ErrCache (e : CacheError)
  | ErrNotImplemented
  | ErrCacheEjected
  | ErrOpenFile | ErrStat | ErrHeader
  | ErrSliceEmpty (e : DevError) | ErrSliceLocal (e : DevError)
  | ErrFileRead | ErrFileClose
  | ErrUpdateSize
  | ErrGetMapping
  | ErrEOF
  | ErrGetBuild (e : DevError)
  | ErrReadSource (e : DevError)
  | ErrNoDiff
  | ErrBuild.

Abbreviation dresult := (res DevError).

(** [ReadAt(p, off)] takes the buffer and returns it with what was read. *)
Class ReadonlyDevice (H D : Type) := {
  dev_ReadAt : D → list byte → Z → list byte * dresult Z;
  dev_Slice : D → Z → Z → dresult (list byte);
  dev_Size : D → dresult Z;
  dev_BlockSize : D → Z;
  dev_Header : D → H;
}.

(** [copy(p, slice)] into the whole buffer. *)
Definition copy_into (p src : list byte) : list byte * Z :=
  let n := Z.min (zlength p) (zlength src) in (splice p 0 (take (Z.to_nat n) src), n).
Arguments copy_into : simpl never.

(** ** empty.go *)
Section empty.
Context {ID B : Type} `{EqDecision ID, UuidOps ID, BitSetOps B}.
Record Empty := mkEmpty { eheader : Header ID B }.

Definition NewEmpty (size blockSize : Z) (buildID : ID) : dresult Empty :=
  match NewHeader (NewTemplateMetadata buildID (u64 blockSize) (u64 size)) [] with
  | Ok h => Ok (mkEmpty h)
  | Err _ => Err ErrHeader
  | Panic => Panic
  end.

(** [make([]byte, n)] panics for a negative [n]. *)
Definition make_bytes (n : Z) : dresult (list byte) :=
  if n <? 0 then Panic else Ok (replicate (Z.to_nat n) x00).

(** The length left before the end of the device. *)
Definition cut_length (size off length : Z) : Z :=
  let end_ := i64 (off + length) in
  if size <? end_ then i64 (size - off) else length.

Definition Empty_Slice (e : Empty) (off length : Z) : dresult (list byte) :=
  make_bytes (cut_length (i64 (Size (HMetadata (eheader e)))) off length).

Definition Empty_ReadAt (e : Empty) (p : list byte) (off : Z) : list byte * dresult Z :=
  match Empty_Slice e off (zlength p) with
  | Ok slice => let '(p, n) := copy_into p slice in (p, Ok n)
  | Err err => (p, Err (ErrSliceEmpty err))
  | Panic => (p, Panic)
  end.
Definition Empty_Size (e : Empty) : dresult Z := Ok (i64 (Size (HMetadata (eheader e)))).
Definition Empty_BlockSize (e : Empty) : Z := i64 (BlockSize (HMetadata (eheader e))).
Definition Empty_Close (e : Empty) : dresult () := Ok ().
Definition Empty_UpdateSize (e : Empty) : dresult () := Err ErrUpdateSize.

#[export] Instance Empty_device : ReadonlyDevice (Header ID B) Empty := {
  dev_ReadAt := Empty_ReadAt; dev_Slice := Empty_Slice; dev_Size := Empty_Size;
  dev_BlockSize := Empty_BlockSize; dev_Header := eheader;
}.
End empty.
Arguments Empty : clear implicits.

(** ** local.go

    A file of the operating system; [content] are its bytes, [readable] whether
    [ReadAt] succeeds (it returns [io.EOF] when it cannot fill the buffer). *)
Section local.
Context {ID B : Type} `{EqDecision ID, UuidOps ID, BitSetOps B}.
Record Local_ := mkLocal { lcontent : list byte; lreadable : bool; lheader : Header ID B }.

Definition NewLocal (opened : option (list byte)) (stat : bool) (blockSize : Z) (buildID : ID)
    : dresult Local_ :=
  match opened with
  | None => Err ErrOpenFile
  | Some content =>
      if negb stat then Err ErrStat
      else match NewHeader (NewTemplateMetadata buildID (u64 blockSize) (u64 (zlength content))) [] with
           | Ok h => Ok (mkLocal content true h)
           | Err _ => Err ErrHeader
           | Panic => Panic
           end
  end.

Definition Local_Slice (d : Local_) (off length : Z) : dresult (list byte) :=
  let length := cut_length (i64 (Size (HMetadata (lheader d)))) off length in
  out ← make_bytes length;
  if negb (lreadable d) || (off <? 0) || (zlength (lcontent d) <? off + zlength out) then Err ErrFileRead
  else Ok (slice (lcontent d) off (off + zlength out)).

Definition Local_ReadAt (d : Local_) (p : list byte) (off : Z) : list byte * dresult Z :=
  match Local_Slice d off (zlength p) with
  | Ok slice => let '(p, n) := copy_into p slice in (p, Ok n)
  | Err err => (p, Err (ErrSliceLocal err))
  | Panic => (p, Panic)
  end.
Definition Local_Size (d : Local_) : dresult Z := Ok (i64 (Size (HMetadata (lheader d)))).
Definition Local_BlockSize (d : Local_) : Z := i64 (BlockSize (HMetadata (lheader d))).
Definition Local_Close (d : Local_) (closed : bool) : dresult () :=
  if closed then Ok () else Err ErrFileClose.
Definition UpdateHeaderSize (d : Local_) (stat : bool) : dresult Local_ :=
  if negb stat then Err ErrStat
  else
    let h := lheader d in
    let md := HMetadata h in
    Ok (mkLocal (lcontent d) (lreadable d)
          (mkHeader (mkMetadata (Version md) (BlockSize md) (u64 (zlength (lcontent d)))
             (Generation md) (MetaBuildId md) (BaseBuildId md)) (blockStarts h) (startMap h) (HMapping h))).

#[export] Instance Local_device : ReadonlyDevice (Header ID B) Local_ := {
  dev_ReadAt := Local_ReadAt; dev_Slice := Local_Slice; dev_Size := Local_Size;
  dev_BlockSize := Local_BlockSize; dev_Header := lheader;
}.
End local.
Arguments Local_ : clear implicits.

(** ** overlay.go *)
Section overlay.
Context {H D : Type} `{ReadonlyDevice H D}.
Record Overlay := mkOverlay { odevice : D; ocache : Cache; cacheEjected : bool; oblockSize : Z }.

Definition NewOverlay (device : D) (cache : Cache) : Overlay :=
  mkOverlay device cache false (dev_BlockSize device).

(** [errors.As(err, &BytesNotAvailableError{})] looks through the wrappers. *)
Fixpoint is_not_available (e : CacheError) : bool :=
  match e with BytesNotAvailableError => true | ErrSlicing e => is_not_available e | _ => false end.

(** The loop of [ReadAt] over the blocks of the buffer; a part of the buffer is
    handed to the cache or the device and written back in place. *)
Fixpoint overlay_loop (o : Overlay) (blocks : list Z) (p : list byte) (off : Z)
    : list byte * dresult Z :=
  match blocks with
  | [] => (p, Ok (zlength p))
  | blockOff :: blocks =>
      match go_slice (E := DevError) p blockOff (i64 (blockOff + oblockSize o)) with
      | Ok part =>
          match ReadAt (ocache o) (zlength part) (i64 (off + blockOff)) with
          | Ok bytes => overlay_loop o blocks (splice p blockOff bytes) off
          | Err err =>
              if negb (is_not_available err) then (p, Err (ErrReadCache err))
              else
                let '(part, r) := dev_ReadAt (odevice o) part (i64 (off + blockOff)) in
                let p := splice p blockOff part in
                match r with
                | Ok _ => overlay_loop o blocks p off
                | Err err => (p, Err (ErrReadDevice err))
                | Panic => (p, Panic)
                end
          | Panic => (p, Panic)
          end
      | _ => (p, Panic)
      end
  end.
Definition Overlay_ReadAt (o : Overlay) (p : list byte) (off : Z) : list byte * dresult Z :=
  match BlocksOffsets (E := DevError) (zlength p) (oblockSize o) with
  | Ok blocks => overlay_loop o blocks p off
  | _ => (p, Panic)
  end.

Definition EjectCache (o : Overlay) : Overlay * dresult Cache :=
  if cacheEjected o then (o, Err ErrCacheEjected)
  else (mkOverlay (odevice o) (ocache o) true (oblockSize o), Ok (ocache o)).

Definition Overlay_Slice (o : Overlay) (off length : Z) : dresult (list byte) := Err ErrNotImplemented.

Definition lift_cache {A} (r : res CacheError A) : dresult A :=
  match r with Ok a => Ok a | Err e => Err (ErrCache e) | Panic => Panic end.

Definition Overlay_WriteAt (o : Overlay) (p : list byte) (off : Z) : dresult (Z * Overlay) :=
  '(n, c) ← lift_cache (WriteAt (ocache o) p off);
  Ok (n, mkOverlay (odevice o) c (cacheEjected o) (oblockSize o)).
Definition Overlay_Size (o : Overlay) : dresult Z := lift_cache (Size_ (ocache o)).
Definition Overlay_BlockSize (o : Overlay) : Z := oblockSize o.
Definition Overlay_Close (o : Overlay) (unmap remove : bool) : Overlay * list CacheError :=
  if cacheEjected o then (o, [])
  else let '(c, errs) := Close (ocache o) unmap remove in
       (mkOverlay (odevice o) c (cacheEjected o) (oblockSize o), errs).
Definition Overlay_Header (o : Overlay) : H := dev_Header (odevice o).

#[export] Instance Overlay_device : ReadonlyDevice H Overlay := {
  dev_ReadAt := Overlay_ReadAt; dev_Slice := Overlay_Slice; dev_Size := Overlay_Size;
  dev_BlockSize := Overlay_BlockSize; dev_Header := Overlay_Header;
}.
End overlay.
Arguments Overlay D : clear implicits.

(** ** build.go

    [getBuild] opens the data of a build through the diff store; the data are a
    device too.  A [File] reads each byte where the header says. *)
Section file.
Context {ID B S D H : Type} `{EqDecision ID, UuidOps ID, BitSetOps B, ReadonlyDevice H D}.

Record File := mkFileDev { fheader : Header ID B; getBuild : ID → dresult D }.

(** The loop of [ReadAt]; [None] is running out of fuel. *)
Fixpoint file_loop (fuel : nat) (b : File) (p : list byte) (off n : Z)
    : option (list byte * dresult Z) :=
  if negb (n <? zlength p) then Some (p, Ok n)
  else match fuel with
       | O => None
       | Datatypes.S fuel =>
           match GetShiftedMapping (fheader b) (i64 (off + n)) with
           | Ok (mappedOffset, mappedLength, buildID) =>
               let remainingReadLength := i64 (zlength p - n) in
               let readLength := Z.min mappedLength remainingReadLength in
               if readLength <=? 0 then Some (p, Err ErrEOF)
               else if decide (buildID = uuid_nil) then file_loop fuel b p off (i64 (n + readLength))
               else match getBuild b buildID with
                    | Ok mappedBuild =>
                        match go_slice (E := DevError) p n (i64 (n + readLength)) with
                        | Ok part =>
                            let '(part, r) := dev_ReadAt mappedBuild part mappedOffset in
                            let p := splice p n part in
                            match r with
                            | Ok buildN => file_loop fuel b p off (i64 (n + buildN))
                            | Err e => Some (p, Err (ErrReadSource e))
                            | Panic => Some (p, Panic)
                            end
                        | _ => Some (p, Panic)
                        end
                    | Err e => Some (p, Err (ErrGetBuild e))
                    | Panic => Some (p, Panic)
                    end
           | Err _ => Some (p, Err ErrGetMapping)
           | Panic => Some (p, Panic)
           end
       end.
Definition File_ReadAt (b : File) (p : list byte) (off : Z) : option (list byte * dresult Z) :=
  file_loop (length p) b p off 0.

Definition File_Slice (b : File) (off length : Z) : dresult (list byte) :=
  match GetShiftedMapping (fheader b) off with
  | Ok (mappedOffset, _, buildID) =>
      if decide (buildID = uuid_nil) then Ok EmptyHugePage
      else match getBuild b buildID with
           | Ok build => dev_Slice build mappedOffset (i64 (BlockSize (HMetadata (fheader b))))
           | Err e => Err (ErrGetBuild e)
           | Panic => Panic
           end
  | Err _ => Err ErrGetMapping
  | Panic => Panic
  end.
End file.
Arguments File : clear implicits.

(** ** local_diff.go: a diff kept in a cache *)
Section local_diff.
Record localDiff := mkLocalDiff { cacheKey : string; ld_cache : Cache }.

Definition localDiff_ReadAt (d : localDiff) (p : list byte) (off : Z) : list byte * dresult Z :=
  match ReadAt (ld_cache d) (zlength p) off with
  | Ok bytes => (splice p 0 bytes, Ok (zlength bytes))
  | Err e => (p, Err (ErrCache e))
  | Panic => (p, Panic)
  end.
Definition localDiff_Slice (d : localDiff) (off length : Z) : dresult (list byte) :=
  lift_cache (Slice (ld_cache d) off length).
Definition localDiff_Size (d : localDiff) : dresult Z := lift_cache (Size_ (ld_cache d)).
Definition localDiff_BlockSize (d : localDiff) : Z := cblockSize (ld_cache d).

Definition NewLocalDiffFromCache (key : string) (cache : Cache) : localDiff := mkLocalDiff key cache.
Definition newLocalDiff (f : FileResult) (key cachePath : string) (size blockSize : Z) : dresult localDiff :=
  match NewCache f size blockSize cachePath true with
  | Ok c => Ok (NewLocalDiffFromCache key c)
  | Err e => Err (ErrCache e)
  | Panic => Panic
  end.

#[export] Instance localDiff_device : ReadonlyDevice () localDiff := {
  dev_ReadAt := localDiff_ReadAt; dev_Slice := localDiff_Slice; dev_Size := localDiff_Size;
  dev_BlockSize := localDiff_BlockSize; dev_Header _ := ();
}.
End local_diff.

(** ** What a device promises

    [device_reads al d bs size content]: a read of whole blocks at a multiple of
    [al] inside the device into a zeroed buffer fills it with [content]. *)
Section spec.
Context {H D : Type} `{ReadonlyDevice H D}.

Definition zeroed (p : list byte) : Prop := p = replicate (length p) x00.

Definition reads_into (r : list byte * dresult Z) (p : list byte) (off : Z) (content : Z → option byte) : Prop :=
  r.2 = Ok (zlength p) ∧ zlength r.1 = zlength p ∧
  ∀ i, 0 ≤ i < zlength p → r.1 !! Z.to_nat i = content (off + i).

Definition device_reads (al : Z) (d : D) (bs size : Z) (content : Z → option byte) : Prop :=
  dev_BlockSize d = bs ∧
  ∀ p off, zeroed p → 0 ≤ off → (al | off) → (bs | zlength p) → off + zlength p ≤ size →
    reads_into (dev_ReadAt d p off) p off content.

(** Two devices with the same content fill a buffer in the same way. *)
Lemma reads_into_unique r r' p off content content' :
  reads_into r p off content → reads_into r' p off content' →
  (∀ i, 0 ≤ i < zlength p → content (off + i) = content' (off + i)) → r = r'.
Proof.
  intros (H1 & H2 & H3) (H1' & H2' & H3') Hc. destruct r as [l x], r' as [l' x']. simpl in *. subst. f_equal.
  apply list_eq_Z; [congruence|]. intros i Hi. rewrite H3, H3' by lia. apply Hc. lia.
Qed.

Lemma zeroed_lookup p i : zeroed p → 0 ≤ i < zlength p → p !! Z.to_nat i = Some x00.
Proof.
  unfold zeroed, zlength. intros -> Hi. rewrite length_replicate in Hi.
  apply lookup_replicate. split; [done|lia].
Qed.
Lemma lookup_zeroed p : (∀ i, 0 ≤ i < zlength p → p !! Z.to_nat i = Some x00) → zeroed p.
Proof.
  intros Hp. unfold zeroed. apply list_eq_Z; [unfold zlength; by rewrite length_replicate|].
  intros i Hi. rewrite Hp by done. symmetry. apply lookup_replicate. unfold zlength in Hi. split; [done|lia].
Qed.
Lemma zlength_nonneg (p : list byte) : 0 ≤ zlength p.
Proof. unfold zlength. lia. Qed.
End spec.

Section overlay_laws.
Context {H D : Type} `{ReadonlyDevice H D}.
Context (d : D) (c : Cache) (m : list byte) (content : Z → option byte) (ejected : bool).
Hypothesis wf : cache_wf c m.
Hypothesis clean : dirtyFile c = false.
Hypothesis dev : device_reads (cblockSize c) d (cblockSize c) (csize c) content.

Definition overlay_content (x : Z) : option byte :=
  match peek c m x with Some b => Some b | None => content x end.

(** All bytes of a block are available, or none. *)
Lemma peek_block k i :
  0 ≤ i < cblockSize c → 0 ≤ k * cblockSize c + i < csize c →
  peek c m (k * cblockSize c + i) =
    if decide (k * cblockSize c ∈ cdirty c) then m !! Z.to_nat (k * cblockSize c + i) else None.
Proof.
  intros Hi Hk. unfold peek.
  replace ((k * cblockSize c + i) / cblockSize c) with k; [done|].
  apply (Z.div_unique _ _ _ i); lia.
Qed.

Lemma ReadAt_block k :
  0 ≤ k → (k + 1) * cblockSize c ≤ csize c →
  match ReadAt c (cblockSize c) (k * cblockSize c) with
  | Ok bytes => zlength bytes = cblockSize c ∧
      ∀ i, 0 ≤ i < cblockSize c → bytes !! Z.to_nat i = overlay_content (k * cblockSize c + i)
  | Err e => is_not_available e = true ∧
      ∀ i, 0 ≤ i < cblockSize c → overlay_content (k * cblockSize c + i) = content (k * cblockSize c + i)
  | Panic => False
  end.
Proof using wf clean.
  intros Hk Hin. pose proof wf as []. unfold ReadAt, isClosed. rewrite cw_mmap, cw_open.
  pose proof (Slice_spec c m (k * cblockSize c) (cblockSize c) wf clean) as Hs.
  specialize (Hs ltac:(nia) ltac:(by exists k) ltac:(lia) ltac:(lia)).
  destruct (Slice c (k * cblockSize c) (cblockSize c)) as [s|e|]; [| |done].
  - destruct Hs as [Hl Hs]. rewrite firstn_all2 by (unfold zlength in Hl; lia). split; [done|].
    intros i Hi. unfold overlay_content. rewrite Hs by done.
    destruct (lookup_lt_is_Some_2 s (Z.to_nat i)) as [b ->]; [unfold zlength in Hl; lia|done].
  - destruct Hs as [-> (i0 & Hi0 & Hn)]. split; [done|]. intros i Hi. unfold overlay_content.
    rewrite peek_block in Hn |- * by lia. case_decide; [|done].
    apply lookup_ge_None in Hn. unfold zlength in cw_len. lia.
Qed.

(** The loop from block [k] of the buffer on: the blocks before are done, the
    others are still zero. *)
Lemma overlay_loop_spec (n : nat) k off p o :
  ocache o = c → odevice o = d → oblockSize o = cblockSize c →
  0 ≤ k → (cblockSize c | off) → 0 ≤ off → zlength p = (k + Z.of_nat n) * cblockSize c →
  off + zlength p ≤ csize c →
  (∀ i, 0 ≤ i < k * cblockSize c → p !! Z.to_nat i = overlay_content (off + i)) →
  (∀ i, k * cblockSize c ≤ i < zlength p → p !! Z.to_nat i = Some x00) →
  reads_into (overlay_loop o ((λ j, j * cblockSize c) <$> seqZ k (Z.of_nat n)) p off) p off overlay_content.
Proof using All.
  intros Hoc Hod Hob. pose proof wf as []. revert k p.
  induction n as [|n IH]; intros k p Hk [a ->] Hoff Hl Hin Hdone Hrest.
  { simpl. unfold reads_into. simpl. split_and!; [done|done|]. intros i Hi. apply Hdone. lia. }
  rewrite seqZ_cons by lia. replace (Z.pred (Z.of_nat (S n))) with (Z.of_nat n) by lia.
  rewrite fmap_cons. cbn [overlay_loop]. rewrite Hoc, Hod, Hob.
  set (bs := cblockSize c) in *. assert (0 ≤ a) by nia.
  assert (k * bs + bs ≤ zlength p) by nia. assert (0 ≤ k * bs) by nia. unfold maxI64 in *.
  rewrite (i64_small (k * bs + bs)), (i64_small (a * bs + k * bs)) by nia.
  rewrite go_slice_ok by lia. rewrite slice_length by lia.
  replace (k * bs + bs - k * bs) with bs by lia.
  replace (a * bs + k * bs) with ((a + k) * bs) by lia.
  pose proof (ReadAt_block (a + k) ltac:(lia)) as Hr. fold bs in Hr. specialize (Hr ltac:(nia)).
  assert (Hstep : ∀ bytes, zlength bytes = bs →
    (∀ i, 0 ≤ i < bs → bytes !! Z.to_nat i = overlay_content ((a + k) * bs + i)) →
    reads_into (overlay_loop o ((λ j, j * bs) <$> seqZ (Z.succ k) (Z.of_nat n)) (splice p (k * bs) bytes) (a * bs))
      p (a * bs) overlay_content).
  { intros bytes Hbl Hb. assert (zlength (splice p (k * bs) bytes) = zlength p) as Hsl by (apply splice_length; lia).
    destruct (IH (Z.succ k) (splice p (k * bs) bytes)) as (E1 & E2 & E3); rewrite ?Hsl; try lia; try (by exists a).
    - intros i Hi. rewrite splice_lookup by lia. rewrite Hbl. case_decide.
      + rewrite Hb by lia. f_equal. lia.
      + apply Hdone. lia.
    - intros i Hi. rewrite splice_lookup by lia. rewrite Hbl. rewrite decide_False by lia. apply Hrest. lia.
    - split_and!; [by rewrite E1, Hsl|by rewrite E2, Hsl|]. intros i Hi. apply E3. by rewrite Hsl. }
  destruct (ReadAt c bs ((a + k) * bs)) as [bytes|e|]; [|destruct Hr as [-> Hr]|done].
  { destruct Hr as [Hbl Hb]. by apply Hstep. }
  simpl negb. cbv iota.
  assert (zlength (slice p (k * bs) (k * bs + bs)) = bs) as Hpl by (rewrite slice_length; lia).
  destruct dev as [_ Hdev].
  destruct (Hdev (slice p (k * bs) (k * bs + bs)) ((a + k) * bs)) as (E1 & E2 & E3).
  - apply lookup_zeroed. rewrite Hpl. intros i Hi. rewrite slice_lookup by lia. apply Hrest. lia.
  - nia.
  - by exists (a + k).
  - rewrite Hpl. by exists 1; lia.
  - rewrite Hpl. nia.
  - destruct (dev_ReadAt d _ _) as [part r]. simpl in *. subst r. apply Hstep; [by rewrite E2|].
    intros i Hi. rewrite E3 by lia. symmetry. by apply Hr.
Qed.

Lemma Overlay_reads :
  device_reads (cblockSize c) (mkOverlay d c ejected (cblockSize c)) (cblockSize c) (csize c) overlay_content.
Proof using All.
  pose proof wf as []. split; [done|]. intros p off Hz Hoff Hal [n Hn] Hin. simpl. unfold Overlay_ReadAt. simpl.
  pose proof (zlength_nonneg p). assert (0 ≤ n) by nia.
  rewrite BlocksOffsets_eq by lia. rewrite Hn.
  assert ((n * cblockSize c + cblockSize c - 1) / cblockSize c = n) as ->.
  { symmetry. apply (Z.div_unique _ _ _ (cblockSize c - 1)); lia. }
  rewrite <-(Z2Nat.id n) by lia. apply overlay_loop_spec; simpl; try done; try lia.
  intros i Hi. apply zeroed_lookup; [done|lia].
Qed.
End overlay_laws.

(** ** The devices implement the interface *)
Section cache_device.
(** A diff kept in a cache over a complete file. *)
Lemma localDiff_reads key c m :
  cache_wf c m → dirtyFile c = true →
  device_reads 1 (mkLocalDiff key c) (cblockSize c) (csize c) (λ x, m !! Z.to_nat x).
Proof.
  intros [] Hdf. split; [done|]. intros p off _ Hoff _ _ Hin. pose proof (zlength_nonneg p). simpl.
  unfold localDiff_ReadAt, ReadAt, Slice, isClosed. simpl. rewrite cw_mmap, cw_open, Hdf. simpl.
  unfold maxI64 in *. rewrite i64_small by lia. rewrite Z.min_l by lia. rewrite go_slice_ok by lia.
  assert (zlength (slice m off (off + zlength p)) = zlength p) as Hl by (rewrite slice_length; lia).
  rewrite firstn_all2 by (unfold zlength in *; lia).
  split_and!; simpl; [by rewrite Hl|rewrite splice_length; lia|]. intros i Hi.
  rewrite splice_lookup by lia. rewrite decide_True by lia. rewrite slice_lookup by lia. do 2 f_equal. lia.
Qed.
End cache_device.

Section make_devices.
Context {ID B : Type} `{EqDecision ID, UuidOps ID, BitSetOps B}.

Lemma copy_into_full p src :
  zlength src = zlength p → copy_into p src = (src, zlength p).
Proof.
  intros Hl. unfold copy_into. rewrite Hl, Z.min_id. f_equal.
  rewrite firstn_all2 by (unfold zlength in *; lia). unfold splice. simpl.
  unfold zlength in Hl. assert (length p = length src) as E by lia. by rewrite <-E, drop_all, app_nil_r.
Qed.

Lemma cut_length_inside size off n :
  0 ≤ off → 0 ≤ n → off + n ≤ size → size ≤ maxI64 → cut_length size off n = n.
Proof.
  intros. unfold cut_length. unfold maxI64 in *. rewrite i64_small by lia.
  destruct (Z.ltb_spec size (off + n)); lia.
Qed.

Lemma Empty_reads (e : Empty ID B) bs size :
  BlockSize (HMetadata (eheader e)) = bs → Size (HMetadata (eheader e)) = size →
  0 < bs ≤ maxI64 → 0 ≤ size ≤ maxI64 → device_reads 1 e bs size (λ _, Some x00).
Proof.
  intros Hb Hs Hbs Hsz. unfold maxI64 in *. split; [simpl; unfold Empty_BlockSize; rewrite Hb; apply i64_small; lia|].
  intros p off Hz Hoff _ _ Hin. pose proof (zlength_nonneg p). simpl. unfold Empty_ReadAt, Empty_Slice.
  rewrite Hs, (i64_small size) by lia. rewrite cut_length_inside by (unfold maxI64; lia).
  unfold make_bytes. destruct (Z.ltb_spec (zlength p) 0); [lia|]. cbn beta iota.
  assert (replicate (Z.to_nat (zlength p)) x00 = p) as -> by (unfold zlength; by rewrite Nat2Z.id).
  cbn beta iota. rewrite copy_into_full by done. split_and!; [done|done|]. intros i Hi. by apply zeroed_lookup.
Qed.

Lemma Local_reads (d : Local_ ID B) bs :
  BlockSize (HMetadata (lheader d)) = bs → Size (HMetadata (lheader d)) = zlength (lcontent d) →
  lreadable d = true → 0 < bs ≤ maxI64 → zlength (lcontent d) ≤ maxI64 →
  device_reads 1 d bs (zlength (lcontent d)) (λ x, lcontent d !! Z.to_nat x).
Proof.
  intros Hb Hs Hr Hbs Hsz. pose proof (zlength_nonneg (lcontent d)). unfold maxI64 in *.
  split; [simpl; unfold Local_BlockSize; rewrite Hb; apply i64_small; lia|].
  intros p off _ Hoff _ _ Hin. pose proof (zlength_nonneg p). simpl. unfold Local_ReadAt, Local_Slice.
  rewrite Hs, (i64_small (zlength (lcontent d))) by lia. rewrite cut_length_inside by (unfold maxI64; lia).
  unfold make_bytes. destruct (Z.ltb_spec (zlength p) 0); [lia|].
  cbn [mbind res_bind]. rewrite Hr. cbn [negb orb].
  assert (zlength (replicate (Z.to_nat (zlength p)) x00) = zlength p) as ->
    by (unfold zlength; rewrite length_replicate; lia).
  destruct (Z.ltb_spec off 0); [lia|]. destruct (Z.ltb_spec (zlength (lcontent d)) (off + zlength p)); [lia|].
  cbn [orb]. assert (zlength (slice (lcontent d) off (off + zlength p)) = zlength p) as Hl by (rewrite slice_length; lia).
  rewrite copy_into_full by done. split_and!; [done|done|]. intros i Hi. simpl. by rewrite slice_lookup by lia.
Qed.
End make_devices.

Section file_laws.
Context {ID B D H : Type} `{EqDecision ID, UuidOps ID, BitSetLaws B, ReadonlyDevice H D}.
Implicit Types (f : File ID B D).

(** The builds the header names can be opened, and read as [data]. *)
Definition builds_open (bs : Z) f (data : ID → list byte) : Prop :=
  ∀ off id s, resolve (HMapping (fheader f)) off = Some (id, s) → id ≠ uuid_nil →
    ∃ d, getBuild f id = Ok d ∧ device_reads 1 d bs (zlength (data id)) (λ x, data id !! Z.to_nat x).
(** No byte the header names is past the end of its build's data. *)
Definition data_there f (data : ID → list byte) : Prop :=
  ∀ off, 0 ≤ off < Size (HMetadata (fheader f)) → is_Some (fetch data (resolve (HMapping (fheader f)) off)).
Definition builds_ok (bs : Z) f (data : ID → list byte) : Prop :=
  builds_open bs f data ∧ data_there f data.

Lemma file_loop_spec bs f data fuel p off n :
  0 < bs → header_wf bs (fheader f) → builds_ok bs f data →
  0 ≤ off → (bs | off) → (bs | zlength p) → off + zlength p ≤ Size (HMetadata (fheader f)) →
  0 ≤ n ≤ zlength p → (bs | n) → zlength p - n ≤ Z.of_nat fuel →
  (∀ i, 0 ≤ i < n → p !! Z.to_nat i = fetch data (resolve (HMapping (fheader f)) (off + i))) →
  (∀ i, n ≤ i < zlength p → p !! Z.to_nat i = Some x00) →
  ∃ p', file_loop fuel f p off n = Some (p', Ok (zlength p)) ∧ zlength p' = zlength p ∧
    ∀ i, 0 ≤ i < zlength p → p' !! Z.to_nat i = fetch data (resolve (HMapping (fheader f)) (off + i)).
Proof.
  intros Hbs Hwf (Hbuilds & Hdata) Hoff Hal. pose proof Hwf as [_ [_ Hfit] (Hsorted & _) _ _ _].
  assert (Hpos : ∀ off id s, resolve (HMapping (fheader f)) off = Some (id, s) → 0 ≤ s).
  { intros o id s (m & Hm & Ho & [= -> ->])%resolve_Some_elem.
    apply (sorted_from_elem 0 _ m Hsorted) in Hm as [_ (? & ? & ? & ? & ?)]. lia. }
  unfold maxI64 in *. revert p n. induction fuel as [|fuel IH]; intros p n Hpl Hin Hn Hnd Hf Hdone Hrest; simpl.
  all: destruct (Z.ltb_spec n (zlength p)) as [Hlt|Hge]; simpl.
  1: lia.
  1, 3: assert (n = zlength p) as -> by lia; by exists p.
  rewrite (i64_small (off + n)) by lia.
  destruct (GetShiftedMapping_run bs (fheader f) (off + n)) as (id & s & len & -> & Hl & Hld & Hle & Hrun);
    [done|done|lia|by apply Z.divide_add_r|].
  rewrite (i64_small (zlength p - n)) by lia.
  set (w := Z.min len (zlength p - n)) in *.
  assert (0 < w ≤ zlength p - n) as Hw by lia.
  assert (bs | w) as Hwd.
  { unfold w. destruct (Z.min_spec len (zlength p - n)) as [[_ ->]|[_ ->]]; [done|by apply Z.divide_sub_r]. }
  destruct (Z.leb_spec w 0); [lia|]. rewrite (i64_small (n + w)) by lia.
  assert (Hstep : ∀ p1, zlength p1 = zlength p →
    (∀ i, 0 ≤ i < n ∨ n + w ≤ i < zlength p → p1 !! Z.to_nat i = p !! Z.to_nat i) →
    (∀ i, n ≤ i < n + w → p1 !! Z.to_nat i = fetch data (resolve (HMapping (fheader f)) (off + i))) →
    ∃ p', file_loop fuel f p1 off (n + w) = Some (p', Ok (zlength p)) ∧ zlength p' = zlength p ∧
    ∀ i, 0 ≤ i < zlength p → p' !! Z.to_nat i = fetch data (resolve (HMapping (fheader f)) (off + i))).
  { intros p1 Hl1 Hsame Hnew. rewrite <-Hl1. apply IH; rewrite ?Hl1; try done; try lia.
    - by apply Z.divide_add_r.
    - intros i Hi. destruct (decide (i < n)); [rewrite Hsame by lia; apply Hdone; lia|apply Hnew; lia].
    - intros i Hi. rewrite Hsame by lia. apply Hrest. lia. }
  assert (Hres : ∀ i, n ≤ i < n + w → resolve (HMapping (fheader f)) (off + i) = Some (id, s + (i - n))).
  { intros i Hi. rewrite <-(Hrun (i - n)) by lia. f_equal. lia. }
  destruct (decide (id = uuid_nil)) as [Hid|Hid].
  { apply Hstep; [done|done|]. intros i Hi. rewrite Hres by done. simpl. rewrite decide_True by done.
    apply Hrest. lia. }
  pose proof (Hres n ltac:(lia)) as Hn0. destruct (Hbuilds _ _ _ Hn0 Hid) as (d & -> & _ & Hd).
  pose proof (Hpos _ _ _ Hn0) as Hs0.
  rewrite go_slice_ok by lia. pose proof (slice_length p n (n + w) ltac:(lia) ltac:(lia)) as Hpart.
  assert (s + w ≤ zlength (data id)) as Hsw.
  { destruct (Hdata (off + (n + w - 1))) as [b Hb]; [lia|]. rewrite Hres in Hb by lia. simpl in Hb.
    rewrite decide_False in Hb by done. apply lookup_lt_Some in Hb. unfold zlength. lia. }
  destruct (Hd (slice p n (n + w)) s) as (E1 & E2 & E3); [|lia|apply Z.divide_1_l|by replace w with (n + w - n) in Hwd by lia; rewrite Hpart|lia|].
  { apply lookup_zeroed. intros i Hi. rewrite slice_lookup by lia. apply Hrest. lia. }
  destruct (dev_ReadAt d (slice p n (n + w)) s) as [part r]. simpl in *. subst r. rewrite Hpart in *.
  replace (n + w - n) with w in * by lia. rewrite (i64_small (n + w)) by lia.
  apply Hstep; [apply splice_length; lia| |].
  - intros i Hi. rewrite splice_lookup by lia. by rewrite decide_False by lia.
  - intros i Hi. rewrite splice_lookup by lia. rewrite decide_True by lia. rewrite E3 by lia.
    rewrite Hres by done. simpl. rewrite decide_False by done. do 2 f_equal.
Qed.

Lemma File_ReadAt_spec bs f data p off :
  0 < bs → header_wf bs (fheader f) → builds_ok bs f data → zeroed p →
  0 ≤ off → (bs | off) → (bs | zlength p) → off + zlength p ≤ Size (HMetadata (fheader f)) →
  ∃ r, File_ReadAt f p off = Some r ∧
    reads_into r p off (λ x, fetch data (resolve (HMapping (fheader f)) x)).
Proof.
  intros Hbs Hwf Hb Hz Hoff Hal Hpl Hin. pose proof (zlength_nonneg p).
  destruct (file_loop_spec bs f data (length p) p off 0) as (p' & Hp & Hl & Hc); try done; try lia.
  - apply Z.divide_0_r.
  - unfold zlength. lia.
  - intros i Hi. by apply zeroed_lookup.
  - by exists (p', Ok (zlength p)).
Qed.

(** A read that does not end would be [None]; by [File_ReadAt_spec] there is none. *)
#[export] Instance File_device : ReadonlyDevice (Header ID B) (File ID B D) := {
  dev_ReadAt b p off := default (p, Panic) (File_ReadAt b p off);
  dev_Slice := File_Slice;
  dev_Size b := Ok (i64 (Size (HMetadata (fheader b))));
  dev_BlockSize b := i64 (BlockSize (HMetadata (fheader b)));
  dev_Header b := fheader b;
}.

Lemma File_reads bs f data :
  0 < bs → header_wf bs (fheader f) → builds_ok bs f data →
  device_reads bs f bs (Size (HMetadata (fheader f)))
    (λ x, fetch data (resolve (HMapping (fheader f)) x)).
Proof.
  intros Hbs Hwf Hb. split.
  - destruct Hwf as [E [? ?] _ _ _ _]. simpl. rewrite E. unfold maxI64 in *. apply i64_small. lia.
  - intros p off Hz Hoff Hal Hpl Hin.
    destruct (File_ReadAt_spec bs f data p off) as (r & Hr & Hin'); try done. simpl. by rewrite Hr.
Qed.
End file_laws.

(** ** Properties *)

(** A read of whole blocks from an overlay returns for every byte what was
    written to the cache, and what the underlying device holds where nothing was
    written - for any device that keeps the promise of its interface; reading and
    then falling back block by block loses nothing. *)
Theorem Overlay_ReadAt_overlays {H D} `{ReadonlyDevice H D} (d : D) (c : Cache) (m : list byte)
    (content : Z → option byte) :
  cache_wf c m → dirtyFile c = false →
  device_reads (cblockSize c) d (cblockSize c) (csize c) content →
  device_reads (cblockSize c) (NewOverlay d c) (cblockSize c) (csize c)
    (λ x, match peek c m x with Some b => Some b | None => content x end).
Proof.
  intros Hwf Hc Hd. unfold NewOverlay. rewrite (proj1 Hd). by apply Overlay_reads.
Qed.

(** A [File] read of whole blocks ends and fills the buffer byte by byte
    from the build and position the header names (zeros for the null build),
    however the range is split over mappings and builds. *)
Theorem File_ReadAt_follows_header {ID B D H} `{EqDecision ID, UuidOps ID, BitSetLaws B, ReadonlyDevice H D}
    (bs : Z) (f : File ID B D) (data : ID → list byte) (p : list byte) (off : Z) :
  0 < bs → header_wf bs (fheader f) → builds_ok bs f data → zeroed p →
  0 ≤ off → (bs | off) → (bs | zlength p) → off + zlength p ≤ Size (HMetadata (fheader f)) →
  ∃ p', File_ReadAt f p off = Some (p', Ok (zlength p)) ∧ zlength p' = zlength p ∧
    ∀ i, 0 ≤ i < zlength p → p' !! Z.to_nat i = fetch data (resolve (HMapping (fheader f)) (off + i)).
Proof.
  intros Hbs Hwf Hb Hz Hoff Hal Hpl Hin.
  destruct (File_ReadAt_spec bs f data p off) as ([p' r] & Hr & (E1 & E2 & E3)); try done.
  simpl in *. subst r. by exists p'.
Qed.

(** C1: a resumed sandbox sees the disk the paused one saw.  Reading through
    the header of the snapshot, with the exported data as the new build, gives -
    call by call - what the overlay of the write cache over the original device
    gave. *)
Theorem resume_reads_overlay {ID B W D H D' H'}
    `{EqDecision ID, UuidOps ID, BitSetLaws B, AppendingWriter W, ReadonlyDevice H D, ReadonlyDevice H' D'}
    (c : Cache) (m : list byte) (f : File ID B D) (buildID : ID) (w : W) (data : ID → list byte) :
  cache_wf c m → dirtyFile c = false → supported (cblockSize c) →
  header_wf (cblockSize c) (fheader f) → Size (HMetadata (fheader f)) = csize c →
  builds_ok (cblockSize c) f data → w_data w = [] → buildID ≠ uuid_nil →
  (∀ off s, resolve (HMapping (fheader f)) off ≠ Some (buildID, s)) →
  ∃ (d : DiffMetadata B) w' h', ExportToDiff c true w = (w', Ok d) ∧
    ToDiffHeader d (fheader f) buildID = Some (Ok h') ∧
    ∀ (f' : File ID B D') p off, fheader f' = h' →
      builds_open (cblockSize c) f' (with_build data buildID (w_data w')) →
      zeroed p → 0 ≤ off → (cblockSize c | off) → (cblockSize c | zlength p) → off + zlength p ≤ csize c →
      File_ReadAt f' p off = Some (Overlay_ReadAt (NewOverlay f c) p off).
Proof.
  intros Hwf Hdf Hsup Hh Hsize Hb Hw Hid Hfresh. pose proof (supported_pos _ Hsup) as [Hbs _].
  destruct (snapshot_bytes (B := B) c m (fheader f) buildID w data) as (d & w' & h' & He & Hh' & Hwf' & Hr); try done.
  exists d, w', h'. split; [done|]. split; [done|]. intros f' p off <- Hopen Hz Hoff Hal Hpl Hin.
  assert (Size (HMetadata (fheader f')) = csize c) as Hsz'.
  { destruct (ToDiffHeader_size _ _ _ _ Hh') as [E _]. congruence. }
  destruct (File_ReadAt_spec (cblockSize c) f' (with_build data buildID (w_data w')) p off) as (r & -> & Hreads);
    try done; [split; [done|]|lia|].
  { intros x Hx. rewrite Hsz' in Hx. rewrite Hr by done. destruct (peek c m x); [by eexists|].
    destruct Hb as [_ Hb]. apply Hb. lia. }
  f_equal. pose proof (File_reads (cblockSize c) f data Hbs Hh Hb) as Hdev. rewrite Hsize in Hdev.
  assert (NewOverlay f c = mkOverlay f c false (cblockSize c)) as -> by (unfold NewOverlay; by rewrite (proj1 Hdev)).
  destruct (Overlay_reads f c m _ false Hwf Hdf Hdev) as [_ Hov].
  eapply (reads_into_unique _ _ p off); [exact Hreads|by apply Hov|].
  intros i Hi. simpl. rewrite Hr by lia. done.
Qed.

(** ** Witnesses *)
#[local] Existing Instances BoolBits.ops BoolBits.laws Bytes16.ops Bytes16.eq_dec Bytes16.laws.

Definition base_bytes : list byte := replicate (Z.to_nat 16384) x07.
Definition data_cache (l : list byte) : Cache := mkCache "diff" (zlength l) 4096 (Some l) ∅ true false.
Definition ex_file : File Bytes16.t (list bool) localDiff :=
  mkFileDev Example.header (λ _, Ok (mkLocalDiff "base" (data_cache base_bytes))).
Definition ex_data (_ : Bytes16.t) : list byte := base_bytes.

Lemma data_cache_wf l : zlength l + 4096 ≤ maxI64 → cache_wf (data_cache l) l.
Proof.
  intros. pose proof (zlength_nonneg l). split; simpl; try done.
Qed.

Lemma data_cache_reads l key :
  zlength l + 4096 ≤ maxI64 →
  device_reads 1 (mkLocalDiff key (data_cache l)) 4096 (zlength l) (λ x, l !! Z.to_nat x).
Proof. intros. apply (localDiff_reads key (data_cache l) l); [by apply data_cache_wf|done]. Qed.

Lemma ex_header_resolve off r :
  resolve (HMapping Example.header) off = Some r → 0 ≤ off < 16384 ∧ r = (Example.base, off).
Proof.
  change (HMapping Example.header) with [mkBuildMap 0 16384 Example.base 0].
  rewrite resolve_cons. unfold End. simpl. case_decide as E; [|done]. intros [= <-].
  split; [lia|]. f_equal. lia.
Qed.

Lemma ex_file_ok : builds_ok 4096 ex_file ex_data.
Proof.
  split.
  - intros off id s _ _. eexists. split; [reflexivity|]. by apply data_cache_reads; vm_compute.
  - intros off Hoff. change (Size (HMetadata (fheader ex_file))) with 16384 in Hoff.
    assert (resolve (HMapping (fheader ex_file)) off = Some (Example.base, off)) as ->.
    { change (HMapping (fheader ex_file)) with [mkBuildMap 0 16384 Example.base 0].
      rewrite resolve_cons, decide_True by (unfold End; simpl; lia). cbn [BuildId BuildStorageOffset Offset].
      do 2 f_equal. lia. }
    unfold fetch. rewrite decide_False by by vm_compute. unfold ex_data, base_bytes.
    apply lookup_lt_is_Some_2. rewrite length_replicate. lia.
Qed.

Definition ex_buffer : list byte := replicate (Z.to_nat 4096) x00.
Lemma ex_buffer_zeroed : zeroed ex_buffer.
Proof. unfold zeroed, ex_buffer. by rewrite length_replicate. Qed.
Lemma ex_buffer_length : zlength ex_buffer = 4096.
Proof. by vm_compute. Qed.

Lemma Overlay_ReadAt_overlays_witness :
  (Overlay_ReadAt (NewOverlay (mkEmpty Example.header) ex_disk) ex_buffer 4096).2 = Ok 4096.
Proof.
  destruct (Overlay_ReadAt_overlays (mkEmpty Example.header) ex_disk ex_image (λ _, Some x00)) as [_ Hr].
  - exact ex_disk_wf.
  - reflexivity.
  - split; [reflexivity|]. intros p off Hz Hoff Hal Hpl Hin.
    apply (Empty_reads (mkEmpty Example.header) 4096 16384); try done.
    by apply Z.divide_1_l.
  - rewrite <-ex_buffer_length. apply (Hr ex_buffer 4096).
    + exact ex_buffer_zeroed.
    + lia.
    + by exists 1.
    + rewrite ex_buffer_length. by exists 1.
    + rewrite ex_buffer_length. by vm_compute.
Defined.

Lemma File_ReadAt_follows_header_witness :
  ∃ p', File_ReadAt ex_file ex_buffer 8192 = Some (p', Ok (zlength ex_buffer)) ∧
    p' !! Z.to_nat 100 = Some x07.
Proof.
  destruct (File_ReadAt_follows_header 4096 ex_file ex_data ex_buffer 8192) as (p' & Hp & _ & Hc).
  - lia.
  - exact Example.wf.
  - exact ex_file_ok.
  - exact ex_buffer_zeroed.
  - lia.
  - by exists 2.
  - rewrite ex_buffer_length. by exists 1.
  - rewrite ex_buffer_length. by vm_compute.
  - exists p'. split; [exact Hp|]. rewrite Hc by (rewrite ex_buffer_length; lia). by vm_compute.
Defined.

Lemma resume_reads_overlay_witness :
  ∃ f' : File Bytes16.t (list bool) localDiff,
    File_ReadAt f' ex_buffer 4096 = Some (Overlay_ReadAt (NewOverlay ex_file ex_disk) ex_buffer 4096).
Proof.
  destruct (resume_reads_overlay (B := list bool) (D' := localDiff) ex_disk ex_image ex_file Example.snap
    ([] : list byte) ex_data) as (d & w' & h' & He & Hh' & Hr).
  - exact ex_disk_wf.
  - reflexivity.
  - right. reflexivity.
  - exact Example.wf.
  - reflexivity.
  - exact ex_file_ok.
  - reflexivity.
  - by vm_compute.
  - intros off s Hs. apply ex_header_resolve in Hs as [_ Hs]. by vm_compute in Hs.
  - exists (mkFileDev h' (λ id, if decide (id = Example.snap) then Ok (mkLocalDiff "snap" (data_cache w'))
                                else Ok (mkLocalDiff "base" (data_cache base_bytes)))).
    apply Hr.
    + reflexivity.
    + intros off id s _ _. simpl. unfold with_build. case_decide; eexists; (split; [reflexivity|]).
      * apply data_cache_reads. vm_compute in He. injection He as <- _. by vm_compute.
      * apply data_cache_reads. by vm_compute.
    + exact ex_buffer_zeroed.
    + lia.
    + by exists 1.
    + rewrite ex_buffer_length. by exists 1.
    + rewrite ex_buffer_length. by vm_compute.
Defined.
