(* ===== verification/Smap.v ===== *)
(** * Concurrent maps

    packages/shared/pkg/[smap] wraps [github.com/orcaman/concurrent-map/v2], which
    is not part of the repository: [CMapOps] holds the operations the code calls,
    [CMapLaws] what that package documents, stated through the finite map
    [cm_items] of the entries.  Each operation runs under the lock of the key's
    shard, so it is one atomic step; a callback runs once, inside that step. *)
From S2P Require Import Prelude.

Class CMapOps (M : Type → Type) := {
  cm_new {V} : M V;
  cm_items {V} : M V → gmap string V;
  cm_set {V} : M V → string → V → M V;
  cm_get {V} : M V → string → option V;
  cm_has {V} : M V → string → bool;
  cm_remove {V} : M V → string → M V;
  cm_set_if_absent {V} : M V → string → V → M V * bool;
  (** [Upsert(key, value, cb)]; the callback sees the entry, if there is one, and
      hands a result to the variables it captures *)
  cm_upsert {V O} : M V → string → (option V → V * O) → M V * V * O;
  (** [RemoveCb(key, cb)]; the callback may change a mutable entry *)
  cm_remove_cb {V} : M V → string → (option V → option V * bool) → M V;
  (** the order in which [IterCb] visits the entries *)
  cm_iter {V} : M V → list (string * V);
}.

Class CMapLaws (M : Type → Type) `{CMapOps M} : Prop := {
  cm_items_new V : cm_items (cm_new : M V) = ∅;
  cm_items_set V (m : M V) k v : cm_items (cm_set m k v) = <[k := v]> (cm_items m);
  cm_get_items V (m : M V) k : cm_get m k = cm_items m !! k;
  cm_has_items V (m : M V) k : cm_has m k = bool_decide (is_Some (cm_items m !! k));
  cm_items_remove V (m : M V) k : cm_items (cm_remove m k) = delete k (cm_items m);
  cm_set_if_absent_spec V (m : M V) k v :
    let '(m', ok) := cm_set_if_absent m k v in
    match cm_items m !! k with
    | Some _ => ok = false ∧ cm_items m' = cm_items m
    | None => ok = true ∧ cm_items m' = <[k := v]> (cm_items m)
    end;
  cm_upsert_spec V O (m : M V) k (cb : option V → V * O) :
    let '(m', v, o) := cm_upsert m k cb in
    (v, o) = cb (cm_items m !! k) ∧ cm_items m' = <[k := v]> (cm_items m);
  cm_remove_cb_spec V (m : M V) k (cb : option V → option V * bool) :
    cm_items (cm_remove_cb m k cb) =
      let '(v, rm) := cb (cm_items m !! k) in
      if rm then delete k (cm_items m)
      else match v with Some v => <[k := v]> (cm_items m) | None => cm_items m end;
  cm_iter_items V (m : M V) : cm_iter m ≡ₚ map_to_list (cm_items m);
}.

(** An implementation: a finite map. *)
Module GMapC.
Definition t (V : Type) : Type := gmap string V.
#[export] Instance ops : CMapOps t := {
  cm_new V := ∅;
  cm_items V m := m;
  cm_set V m k v := <[k := v]> m;
  cm_get V m k := m !! k;
  cm_has V m k := bool_decide (is_Some (m !! k));
  cm_remove V m k := delete k m;
  cm_set_if_absent V m k v :=
    match m !! k with Some _ => (m, false) | None => (<[k := v]> m, true) end;
  cm_upsert V O m k cb := let '(v, o) := cb (m !! k) in (<[k := v]> m, v, o);
  cm_remove_cb V m k cb :=
    let '(v, rm) := cb (m !! k) in
    if (rm : bool) then delete k m else match v with Some v => <[k := v]> m | None => m end;
  cm_iter V m := map_to_list m;
}.
#[export] Instance laws : CMapLaws t.
Proof.
  split; try done.
  - intros V m k v. simpl. unfold t in *. destruct (m !! k); by split.
  - intros V O m k cb. simpl. destruct (cb (m !! k)) as [v o] eqn:E. by split.
Qed.
End GMapC.

(** ** smap *)
Section smap.
Context {M : Type → Type} `{CMapOps M} {V : Type}.
Definition smap_New : M V := cm_new.
Definition smap_Remove (m : M V) (key : string) : M V := cm_remove m key.
Definition smap_Get (m : M V) (key : string) : option V := cm_get m key.
Definition smap_Insert (m : M V) (key : string) (value : V) : M V := cm_set m key value.
Definition smap_Upsert {O} (m : M V) (key : string) (cb : option V → V * O) : M V * V * O :=
  cm_upsert m key cb.
Definition smap_InsertIfAbsent (m : M V) (key : string) (value : V) : M V * bool :=
  cm_set_if_absent m key value.
Definition smap_Items (m : M V) : gmap string V := cm_items m.
Definition smap_RemoveCb (m : M V) (key : string) (cb : option V → option V * bool) : M V :=
  cm_remove_cb m key cb.
Definition smap_Count (m : M V) : nat := size (cm_items m).
End smap.
