(* ===== verification/SyncUtils.v ===== *)
(** * Synchronization

    packages/shared/pkg/utils: [set_once.go], [error_once.go],
    [resizable_semaphore.go] and [wait_map.go]; packages/shared/pkg/connlimit:
    [limiter.go].

    [SetOnce] is modelled at the grain of its atomic accesses, with any number of
    setters in flight; the others at the grain of their critical sections. *)
From S2P Require Import Prelude Smap.

(** ** set_once.go *)
Section set_once.
Context {T E : Type}.

(** [result[T]]: a value or an error. *)
Definition once_result : Type := T + E.

Record SetOnce := mkSetOnce {
  once_done : bool;                 (** [Done] is closed *)
  once_res : option once_result;    (** [res] *)
}.
Definition NewSetOnce : SetOnce := mkSetOnce false None.

(** A call of [setResult(r)]: before the [select], past its [default], after
    the lock is released and before the deferred [setDone], returned.  The
    result is [true] for [nil] and [false] for [ErrAlreadySet]. *)
Inductive setter :=
  | Entering (r : once_result)
  | Locking (r : once_result)
  | Closing (ok : bool)
  | Returned (ok : bool).

Definition setter_step (s : SetOnce) (t : setter) : SetOnce * setter :=
  match t with
  | Entering r => if once_done s then (s, Closing false) else (s, Locking r)
  | Locking r =>
      match once_res s with
      | Some _ => (s, Closing false)
      | None => (mkSetOnce (once_done s) (Some r), Closing true)
      end
  | Closing ok => (mkSetOnce true (once_res s), Returned ok)
  | Returned ok => (s, Returned ok)
  end.

(** Any setter may take the next step; a new call may begin at any time. *)
Inductive once_step : SetOnce * list setter → SetOnce * list setter → Prop :=
  | once_call s ts r : once_step (s, ts) (s, ts ++ [Entering r])
  | once_move s s' ts i t t' :
      ts !! i = Some t → setter_step s t = (s', t') → once_step (s, ts) (s', <[i := t']> ts).
Definition once_reachable (c : SetOnce * list setter) : Prop := rtc once_step (NewSetOnce, []) c.

(** One uninterrupted call. *)
Definition setResult (s : SetOnce) (r : once_result) : SetOnce * bool :=
  if once_done s then (mkSetOnce true (once_res s), false)
  else match once_res s with
       | Some _ => (mkSetOnce true (once_res s), false)
       | None => (mkSetOnce true (Some r), true)
       end.
Definition SetValue (s : SetOnce) (v : T) : SetOnce * bool := setResult s (inl v).
Definition SetError (s : SetOnce) (e : E) : SetOnce * bool := setResult s (inr e).
Definition SetResult (s : SetOnce) (v : T) (err : option E) : SetOnce * bool :=
  match err with Some e => SetError s e | None => SetValue s v end.

(** [Result]: [None] is [NotSetError]. *)
Definition Result_ (s : SetOnce) : option once_result := once_res s.
(** [Wait]: [None] is blocked, [Some None] is [NotSetError]. *)
Definition Wait (s : SetOnce) : option (option once_result) :=
  if once_done s then Some (Result_ s) else None.
(** [WaitWithContext] with both channels ready may return either; [ctx] is the
    context's error and [pick] the choice of [select]. *)
Definition WaitWithContext (s : SetOnce) (ctx : option E) (pick : bool)
    : option (option once_result + E) :=
  match once_done s, ctx with
  | true, None => Some (inl (Result_ s))
  | false, Some e => Some (inr e)
  | true, Some e => Some (if pick then inl (Result_ s) else inr e)
  | false, None => None
  end.

Definition succeeded (t : setter) : bool :=
  match t with Closing true | Returned true => true | _ => false end.

Record once_inv (c : SetOnce * list setter) : Prop := {
  oi_done : once_done c.1 = true → is_Some (once_res c.1);
  oi_none : once_res c.1 = None → Forall (λ t, match t with Closing _ | Returned _ => False | _ => True end) c.2;
  oi_count : length (filter (λ t, succeeded t = true) c.2) =
    match once_res c.1 with Some _ => 1%nat | None => 0%nat end;
}.

Lemma filter_insert_length (P : setter → Prop) `{∀ t, Decision (P t)} ts i t t' :
  ts !! i = Some t →
  (length (filter P (<[i := t']> ts)) + (if decide (P t) then 1 else 0) =
   length (filter P ts) + (if decide (P t') then 1 else 0))%nat.
Proof.
  revert i. induction ts as [|x ts IH]; intros i Hi; [done|]. destruct i as [|i]; simplify_eq/=.
  - rewrite !filter_cons. repeat case_decide; simpl; lia.
  - specialize (IH i Hi). rewrite !filter_cons. repeat case_decide; simpl in *; lia.
Qed.

(** The result never changes once it is there. *)
Lemma once_step_stable c c' r : once_step c c' → once_res c.1 = Some r → once_res c'.1 = Some r.
Proof.
  intros Hs Hr. destruct Hs as [s ts r'|s s' ts i t t' Hi Ht]; simpl in *; [done|].
  destruct t; simpl in Ht; [destruct (once_done s)|rewrite Hr in Ht| |]; by injection Ht as <- _.
Qed.
Lemma once_steps_stable c c' r : rtc once_step c c' → once_res c.1 = Some r → once_res c'.1 = Some r.
Proof. induction 1; eauto using once_step_stable. Qed.
Lemma once_step_done c c' : once_step c c' → once_done c.1 = true → once_done c'.1 = true.
Proof.
  intros Hs Hd. destruct Hs as [s ts r'|s s' ts i t t' Hi Ht]; simpl in *; [done|].
  destruct t; simpl in Ht; [rewrite Hd in Ht|destruct (once_res s)| |]; by injection Ht as <- _.
Qed.
Lemma once_steps_done c c' : rtc once_step c c' → once_done c.1 = true → once_done c'.1 = true.
Proof. induction 1; eauto using once_step_done. Qed.

Lemma once_step_inv c c' : once_inv c → once_step c c' → once_inv c'.
Proof.
  intros [Hd Hn Hc] Hs. destruct Hs as [s ts r|s s' ts i t t' Hi Ht]; simpl in *.
  - split; simpl; [done| |].
    + intros E'. apply Forall_app. split; [by apply Hn|by constructor].
    + rewrite filter_app, length_app. simpl. lia.
  - pose proof (filter_insert_length (λ t, succeeded t = true) ts i t t' Hi) as Hl.
    destruct t as [r|r|ok|ok]; simpl in Ht.
    + assert (Hres : is_Some (once_res s) ∨ once_res s = None) by (destruct (once_res s); eauto).
      destruct (once_done s) eqn:Ed; injection Ht as <- <-; split; simpl in *; try done; rewrite ?Ed; try done; try lia.
      * intros E'. destruct Hd as [? Hd]; [done|]. congruence.
      * intros E'. apply Forall_insert; [by apply Hn|done].
    + destruct (once_res s) as [r'|] eqn:Er; injection Ht as <- <-; split; simpl in *; rewrite ?Er; try done; try lia.
    + injection Ht as <- <-. split; simpl in *.
      * intros _. destruct (once_res s) eqn:Er; [done|]. specialize (Hn eq_refl).
        rewrite Forall_forall in Hn. destruct (Hn (Closing ok)). by eapply list_elem_of_lookup_2.
      * intros E'. specialize (Hn E'). rewrite Forall_forall in Hn.
        destruct (Hn (Closing ok)). by eapply list_elem_of_lookup_2.
      * destruct ok; simpl in Hl; lia.
    + injection Ht as <- <-. by rewrite list_insert_id.
Qed.

Lemma once_reachable_inv c : once_reachable c → once_inv c.
Proof.
  assert (once_inv (NewSetOnce, [])) as H0 by by split.
  intros Hr. revert H0. unfold once_reachable in Hr. generalize (NewSetOnce, [] : list setter) Hr.
  intros c0 Hc. induction Hc as [|c1 c2 c3 H1 _ IH]; [done|]. intros H0. apply IH; [done|].
  by eapply once_step_inv.
Qed.
End set_once.

Arguments SetOnce : clear implicits.
Arguments setter : clear implicits.

(** ** error_once.go: a [SetOnce[struct{}]] whose error may be [nil] *)
Section error_once.
Context {E : Type}.
Definition ErrorOnce : Type := SetOnce () (option E).
Definition NewErrorOnce : ErrorOnce := NewSetOnce.
Definition EO_SetError (e : ErrorOnce) (err : option E) : ErrorOnce * bool := SetError e err.
Definition EO_SetSuccess (e : ErrorOnce) : ErrorOnce * bool := SetError e None.

(** [Wait]: [None] is blocked; the error otherwise. *)
Definition EO_Wait (e : ErrorOnce) : option (option E) :=
  match Wait e with
  | Some (Some (inr err)) => Some err
  | Some (Some (inl _)) => Some None
  | Some None | None => None
  end.
Definition EO_Done (e : ErrorOnce) : bool := once_done e.

Lemma EO_new_blocks : EO_Wait NewErrorOnce = None.
Proof. done. Qed.
Lemma EO_set_wait e err : once_res e = None → once_done e = false →
  EO_SetError e err = (mkSetOnce true (Some (inr err)), true) ∧
  EO_Wait (EO_SetError e err).1 = Some err.
Proof. intros Hr Hd. unfold EO_SetError, SetError, setResult. rewrite Hd, Hr. done. Qed.
End error_once.
Arguments ErrorOnce : clear implicits.

(** ** resizable_semaphore.go *)
Record AdjustableSemaphore := mkSem { used : Z; limit : Z }.

Inductive acquire_result := AcqRejected | AcqCancelled | AcqBlocked | Acquired (s : AdjustableSemaphore).

Definition NewAdjustableSemaphore (limit : Z) : res () AdjustableSemaphore :=
  if limit <=? 0 then Err () else Ok (mkSem 0 limit).

(** One pass of [Acquire] through the loop test, from the start or woken up;
    [cancelled] is [ctx.Err() != nil]. *)
Definition Acquire (s : AdjustableSemaphore) (n : Z) (cancelled : bool) : acquire_result :=
  if n <=? 0 then AcqRejected
  else if limit s <? i64 (used s + n) then (if cancelled then AcqCancelled else AcqBlocked)
  else Acquired (mkSem (i64 (used s + n)) (limit s)).

Definition TryAcquire (s : AdjustableSemaphore) (n : Z) : AdjustableSemaphore * bool :=
  if n <=? 0 then (s, false)
  else if limit s <? i64 (used s + n) then (s, false)
  else (mkSem (i64 (used s + n)) (limit s), true).

Definition SetLimit (s : AdjustableSemaphore) (limit : Z) : res () AdjustableSemaphore :=
  if limit <=? 0 then Err () else Ok (mkSem (used s) limit).

Definition Release (s : AdjustableSemaphore) (n : Z) : res () AdjustableSemaphore :=
  if n <=? 0 then Panic else if used s <? n then Panic else Ok (mkSem (i64 (used s - n)) (limit s)).

Section semaphore.
(** [s] is in use by acquisitions of the sizes [held]. *)
Definition sem_inv (s : AdjustableSemaphore) (held : list Z) : Prop :=
  0 < limit s ≤ maxI64 ∧ used s = foldr Z.add 0 held ∧ Forall (λ n, 0 < n) held ∧ used s ≤ maxI64.

Lemma sum_nonneg held : Forall (λ n, 0 < n) held → 0 ≤ foldr Z.add 0 held.
Proof. induction 1; simpl; lia. Qed.

(** An acquisition that cannot overflow keeps the sum within the limit. *)
Lemma TryAcquire_spec s held n :
  sem_inv s held → used s + n ≤ maxI64 → n ≤ maxI64 →
  TryAcquire s n = (if decide (0 < n ∧ used s + n ≤ limit s)
                    then (mkSem (used s + n) (limit s), true) else (s, false)) ∧
  (0 < n → used s + n ≤ limit s → sem_inv (mkSem (used s + n) (limit s)) (n :: held)).
Proof.
  intros (Hl & Hu & Hp & Hm) Hfit Hn. pose proof (sum_nonneg held Hp). unfold TryAcquire, maxI64 in *. split.
  - destruct (Z.leb_spec n 0); [by rewrite decide_False by lia|]. rewrite i64_small by lia.
    destruct (Z.ltb_spec (limit s) (used s + n)); [by rewrite decide_False by lia|by rewrite decide_True by lia].
  - intros. unfold sem_inv, maxI64. simpl. split_and!; try lia. by constructor.
Qed.

Lemma Release_spec s held n l1 l2 :
  sem_inv s held → held = l1 ++ n :: l2 →
  ∃ s', Release s n = Ok s' ∧ sem_inv s' (l1 ++ l2) ∧ limit s' = limit s.
Proof.
  intros (Hl & Hu & Hp & Hm) ->. apply Forall_app in Hp as [Hp1 [Hn Hp2]%Forall_cons].
  assert (∀ l1 l2, foldr Z.add 0 (l1 ++ l2) = foldr Z.add 0 l1 + foldr Z.add 0 l2) as Happ.
  { intros k1 k2. induction k1; simpl; lia. }
  rewrite Happ in Hu. simpl in Hu. pose proof (sum_nonneg _ Hp1). pose proof (sum_nonneg _ Hp2).
  unfold Release, maxI64 in *. destruct (Z.leb_spec n 0); [lia|]. destruct (Z.ltb_spec (used s) n); [lia|].
  rewrite i64_small by lia. eexists. split; [done|]. split; [|done]. unfold sem_inv, maxI64. simpl. rewrite Happ.
  split_and!; try lia. by apply Forall_app.
Qed.

(** Without a bound on [n] the sum overflows and the limit is passed. *)
Lemma TryAcquire_overflow :
  TryAcquire (mkSem 1 10) maxI64 = (mkSem minI64 10, true).
Proof. by vm_compute. Qed.
End semaphore.

(** ** wait_map.go

    The entry of a key is a [sync.OnceValue]: the first caller runs the function,
    every caller gets its result.  [run] is what the function returns. *)
Section wait_map.
Context {E : Type}.
(** The memoized results, [None] is [nil]. *)
Abbreviation WaitMap := (gmap Z (option E)).
Definition NewWaitMap : WaitMap := ∅.
Definition WM_Wait (m : WaitMap) (key : Z) (run : option E) : WaitMap * option E :=
  match m !! key with
  | Some r => (m, r)
  | None => (<[key := run]> m, run)
  end.

(** The first result of a key, an error included, is the result for ever. *)
Lemma WM_Wait_sticky m key r1 r2 :
  m !! key = None → WM_Wait (WM_Wait m key r1).1 key r2 = ((WM_Wait m key r1).1, r1).
Proof. intros Hk. unfold WM_Wait. rewrite Hk. cbn [fst].
  by rewrite lookup_insert_eq. Qed.
End wait_map.

(** ** limiter.go

    The counter of a key and the calls in flight; [TryAcquire] and [Release]
    retry their compare-and-swap. *)
Inductive conn_call :=
  | AcqLoad (maxLimit : Z) | AcqCas (maxLimit current : Z) | AcqDone (count : Z) (ok : bool)
  | RelLoad | RelCas (current : Z) | RelDone (released : bool).

Definition conn_step (counter : Z) (t : conn_call) : Z * conn_call :=
  match t with
  | AcqLoad maxLimit =>
      if (0 <=? maxLimit) && (maxLimit <=? counter) then (counter, AcqDone counter false)
      else (counter, AcqCas maxLimit counter)
  | AcqCas maxLimit current =>
      if counter =? current then (i64 (current + 1), AcqDone (i64 (current + 1)) true)
      else (counter, AcqLoad maxLimit)
  | RelLoad => if counter <=? 0 then (counter, RelDone false) else (counter, RelCas counter)
  | RelCas current =>
      if counter =? current then (i64 (current - 1), RelDone true) else (counter, RelLoad)
  | AcqDone _ _ | RelDone _ => (counter, t)
  end.

Inductive conn_sys_step : Z * list conn_call → Z * list conn_call → Prop :=
  | conn_acquire c ts maxLimit : conn_sys_step (c, ts) (c, ts ++ [AcqLoad maxLimit])
  | conn_release c ts : conn_sys_step (c, ts) (c, ts ++ [RelLoad])
  | conn_move c c' ts i t t' :
      ts !! i = Some t → conn_step c t = (c', t') → conn_sys_step (c, ts) (c', <[i := t']> ts).

Section limiter.
Context {M : Type → Type} `{CMapOps M}.
(** The map from keys to counters; a counter is created on first use. *)
Definition getCounter (l : M Z) (sandboxID : string) : M Z * Z :=
  let '(l, v, _) := smap_Upsert l sandboxID (λ v, (default 0 v, ())) in (l, v).
(** Uncontended calls. *)
Definition ConnTryAcquire (l : M Z) (sandboxID : string) (maxLimit : Z) : M Z * Z * bool :=
  let '(l, current) := getCounter l sandboxID in
  if (0 <=? maxLimit) && (maxLimit <=? current) then (l, current, false)
  else (smap_Insert l sandboxID (i64 (current + 1)), i64 (current + 1), true).
Definition ConnRelease (l : M Z) (sandboxID : string) : M Z :=
  match smap_Get l sandboxID with
  | None => l
  | Some current => if current <=? 0 then l else smap_Insert l sandboxID (i64 (current - 1))
  end.
Definition ConnRemove (l : M Z) (sandboxID : string) : M Z := smap_Remove l sandboxID.
Definition ConnCount (l : M Z) (sandboxID : string) : Z := default 0 (smap_Get l sandboxID).
End limiter.

Section conn_inv.
Context (L : Z).
Hypothesis L_ok : 0 ≤ L ≤ maxI64.

Definition uses_limit (t : conn_call) : Prop :=
  match t with AcqLoad m => m = L | AcqCas m cur => m = L ∧ 0 ≤ cur < L
             | RelCas cur => 0 < cur | _ => True end.
Definition acquired (t : conn_call) : bool := match t with AcqDone _ true => true | _ => false end.
Definition released (t : conn_call) : bool := match t with RelDone true => true | _ => false end.

(** [count] of the calls that satisfy [f]. *)
Definition calls (f : conn_call → bool) (ts : list conn_call) : Z :=
  Z.of_nat (length (filter (λ t, f t = true) ts)).

Record conn_ok (c : Z * list conn_call) : Prop := {
  co_range : 0 ≤ c.1 ≤ L;
  co_calls : Forall uses_limit c.2;
  co_count : c.1 = calls acquired c.2 - calls released c.2;
}.

Lemma calls_insert f ts i t t' :
  ts !! i = Some t →
  calls f (<[i := t']> ts) = calls f ts - (if f t then 1 else 0) + (if f t' then 1 else 0).
Proof.
  unfold calls. revert i. induction ts as [|x ts IH]; intros i Hi; [done|].
  destruct i as [|i]; simplify_eq/=.
  - rewrite !filter_cons. destruct (f t), (f t'); simpl; lia.
  - specialize (IH i Hi). rewrite !filter_cons. destruct (f x); simpl; lia.
Qed.
Lemma calls_snoc f ts t : calls f (ts ++ [t]) = calls f ts + (if f t then 1 else 0).
Proof. unfold calls. rewrite filter_app, length_app, filter_cons. destruct (f t); simpl; lia. Qed.

(** Every acquisition is made with the limit [L]. *)
Definition same_limit (t : conn_call) : Prop :=
  match t with AcqLoad m | AcqCas m _ => m = L | _ => True end.

Lemma conn_step_uses c c' t t' :
  0 ≤ c ≤ L → uses_limit t → conn_step c t = (c', t') → uses_limit t'.
Proof using L_ok.
  intros Hc Hu Ht. destruct t as [m|m cur|cnt ok| |cur|ok]; simpl in *.
  1: subst m; destruct (Z.leb_spec 0 L); [|lia]; destruct (Z.leb_spec L c); simpl in Ht;
    injection Ht as <- <-; simpl; lia.
  1: destruct Hu as [-> ?]; destruct (c =? cur); by injection Ht as <- <-.
  all: repeat match type of Ht with
       | (if ?b then _ else _) = _ => let E := fresh in destruct b eqn:E
       end; injection Ht as <- <-; simpl; rewrite ?Z.leb_gt in *; done || lia.
Qed.

Lemma conn_step_ok c c' :
  conn_ok c → conn_sys_step c c' → Forall same_limit c'.2 → conn_ok c'.
Proof using L_ok.
  intros [Hr Hc Hn] Hs Hc'. unfold maxI64 in *. destruct Hs as [c ts m|c ts|c c' ts i t t' Hi Ht]; simpl in *.
  1-2: apply Forall_app in Hc' as [_ Hl]; split; simpl; [done| |rewrite !calls_snoc; simpl; lia].
  1-2: apply Forall_app; split; [done|]; apply Forall_cons in Hl as [Hl _]; constructor; [exact Hl|constructor].
  pose proof (proj1 (Forall_forall _ _) Hc t ltac:(by eapply list_elem_of_lookup_2)) as Hu.
  pose proof (conn_step_uses c c' t t' Hr Hu Ht) as Hu'.
  split; simpl; [|by apply Forall_insert|]; rewrite ?(calls_insert _ ts i t t') by done;
    destruct t as [m|m cur|cnt ok| |cur|ok]; simpl in *.
  all: repeat match type of Ht with
       | (if ?b then _ else _) = _ => let E := fresh in destruct b eqn:E
       end; injection Ht as <- <-; simpl in *; rewrite ?Z.eqb_eq in *; try lia.
  all: try (rewrite i64_small by lia; lia).
  all: destruct ok; lia.
Qed.

(** Runs in which every acquisition is made with the limit [L]. *)
Definition limit_step (c c' : Z * list conn_call) : Prop :=
  conn_sys_step c c' ∧ Forall same_limit c'.2.
Lemma limit_steps_ok c c' : rtc limit_step c c' → conn_ok c → conn_ok c'.
Proof using L_ok. induction 1 as [|c1 c2 c3 [Hs Hl] _ IH]; [done|]. intros. apply IH. by eapply conn_step_ok. Qed.
End conn_inv.

(** ** Properties *)

(** With any number of concurrent [SetValue]/[SetError] calls at most one
    succeeds; the [Done] channel is closed only after the result is stored, so
    [Wait] never sees [NotSetError]; and once stored the result never changes, so
    every waiter, then and later, gets the same one. *)
Theorem SetOnce_single_assignment {T E} (s : SetOnce T E) (ts : list (setter T E)) :
  once_reachable (s, ts) →
  (length (filter (λ t, succeeded t = true) ts) ≤ 1)%nat ∧
  (once_done s = true → ∃ r, Wait s = Some (Some r) ∧
     ∀ s' ts', rtc once_step (s, ts) (s', ts') → Wait s' = Some (Some r)).
Proof.
  intros Hr. destruct (once_reachable_inv _ Hr) as [Hd _ Hc]. simpl in *. split.
  - rewrite Hc. destruct (once_res s); lia.
  - intros Hdone. destruct (Hd Hdone) as [r Hres]. exists r. unfold Wait, Result_. rewrite Hdone, Hres.
    split; [done|]. intros s' ts' Hs.
    pose proof (once_steps_stable _ _ r Hs Hres) as E1. pose proof (once_steps_done _ _ Hs Hdone) as E2.
    simpl in E1, E2. by rewrite E1, E2.
Qed.

Lemma SetOnce_single_assignment_witness :
  (length (filter (λ t : setter nat nat, succeeded t = true) [Returned true; Locking (inr 7%nat)]) ≤ 1)%nat ∧
  ∃ r, Wait (mkSetOnce true (Some (inl 5%nat)) : SetOnce nat nat) = Some (Some r).
Proof.
  assert (once_reachable (mkSetOnce true (Some (inl 5%nat)) : SetOnce nat nat, [Returned true; Locking (inr 7%nat)])) as Hr.
  { unfold once_reachable.
    eapply rtc_l; [eapply (once_call _ _ (inl 5%nat))|].
    eapply rtc_l; [eapply (once_call _ _ (inr 7%nat))|]. simpl.
    eapply rtc_l; [by eapply (once_move _ _ _ 0%nat (Entering (inl 5%nat)))|].
    eapply rtc_l; [by eapply (once_move _ _ _ 1%nat (Entering (inr 7%nat)))|].
    eapply rtc_l; [by eapply (once_move _ _ _ 0%nat (Locking (inl 5%nat)))|].
    eapply rtc_l; [by eapply (once_move _ _ _ 0%nat (Closing true))|]. apply rtc_refl. }
  destruct (SetOnce_single_assignment _ _ Hr) as [Hc Hw]. split; [exact Hc|].
  destruct (Hw eq_refl) as (r & Hr' & _). by exists r.
Defined.

(** However the loads and compare-and-swaps of concurrent [TryAcquire] and
    [Release] calls interleave, the counter of a key stays between zero and the
    limit and equals the acquisitions granted minus the releases performed: no
    connection is admitted over the limit and none is counted twice. *)
Theorem connlimit_bounded (L : Z) (c : Z) (ts : list conn_call) :
  0 ≤ L ≤ maxI64 → rtc (limit_step L) (0, []) (c, ts) →
  0 ≤ c ≤ L ∧ c = calls acquired ts - calls released ts.
Proof.
  intros HL Hr. destruct (limit_steps_ok L HL _ _ Hr) as [H1 _ H2]; [split; [simpl; lia|constructor|done]|done].
Qed.

Lemma connlimit_bounded_witness : 0 ≤ 1 ≤ 1 ∧ 1 = calls acquired [AcqDone 1 true; AcqDone 1 false] - 0.
Proof.
  refine (connlimit_bounded 1 1 [AcqDone 1 true; AcqDone 1 false] _ _); [by vm_compute|].
  eapply rtc_l; [split; [eapply (conn_acquire _ _ 1)|by repeat constructor]|].
  eapply rtc_l; [split; [eapply (conn_acquire _ _ 1)|by repeat constructor]|]. simpl.
  eapply rtc_l; [split; [by eapply (conn_move _ _ _ 0%nat (AcqLoad 1))|by repeat constructor]|].
  eapply rtc_l; [split; [by eapply (conn_move _ _ _ 1%nat (AcqLoad 1))|by repeat constructor]|].
  eapply rtc_l; [split; [by eapply (conn_move _ _ _ 0%nat (AcqCas 1 0))|by repeat constructor]|].
  eapply rtc_l; [split; [by eapply (conn_move _ _ _ 1%nat (AcqCas 1 0))|by repeat constructor]|].
  eapply rtc_l; [split; [by eapply (conn_move _ _ _ 1%nat (AcqLoad 1))|by repeat constructor]|].
  apply rtc_refl.
Defined.
