(* ===== verification/Reservations.v ===== *)
(** * Reservations of sandbox starts

    packages/api/internal/sandbox/reservations: [reservation.go].

    The storage keeps, for each team, the sandboxes that are starting or running
    and the [SetOnce] through which a start publishes its outcome.  A [*SetOnce]
    is an index into [res_starts], the [SetOnce]s allocated so far, so two callers
    that hold the same start share it.  [Upsert] and [RemoveCb] run their callback
    under the lock of the team's shard: each is one atomic step, and a history is
    any sequence of such steps by any number of callers. *)
From S2P Require Import Prelude Smap SyncUtils.

Section reservations.
Context {M : Type → Type} `{CMapOps M} {T E : Type}.

(** [map[string]*sandboxReservation], a reservation being its [start]. *)
Abbreviation TeamSandboxes := (gmap string nat).

Record ReservationStorage := mkReservations {
  reservations : M TeamSandboxes;
  res_starts : list (SetOnce T E);
}.
Definition NewReservationStorage : ReservationStorage := mkReservations smap_New [].

(** What [Reserve] hands out: an error, [waitForStart] or [finishStart]. *)
Inductive reserve_result :=
  | LimitExceeded
  | WaitForStart (start : nat)
  | FinishStart (start : nat).

(** The callback of [Upsert]; [fresh] is the [SetOnce] it would allocate. *)
Definition reserve_cb (fresh : nat) (sandboxID : string) (limit : Z) (exist : option TeamSandboxes)
    : TeamSandboxes * reserve_result :=
  let teamSandboxes := default ∅ exist in
  match teamSandboxes !! sandboxID with
  | Some start => (teamSandboxes, WaitForStart start)
  | None =>
      if (0 <=? limit) && (limit <=? Z.of_nat (size teamSandboxes)) then (teamSandboxes, LimitExceeded)
      else (<[sandboxID := fresh]> teamSandboxes, FinishStart fresh)
  end.

Definition Reserve (s : ReservationStorage) (teamID sandboxID : string) (limit : Z)
    : ReservationStorage * reserve_result :=
  let fresh := length (res_starts s) in
  let '(m, _, r) := smap_Upsert (reservations s) teamID (reserve_cb fresh sandboxID limit) in
  (mkReservations m (match r with FinishStart _ => res_starts s ++ [NewSetOnce] | _ => res_starts s end), r).

Definition release_cb (sandboxID : string) (exists_ : option TeamSandboxes) : option TeamSandboxes * bool :=
  match exists_ with
  | None => (None, true)
  | Some ts => let ts := delete sandboxID ts in (Some ts, bool_decide (size ts = 0%nat))
  end.

Definition ResRelease (s : ReservationStorage) (teamID sandboxID : string) : ReservationStorage :=
  mkReservations (smap_RemoveCb (reservations s) teamID (release_cb sandboxID)) (res_starts s).

(** [startResult.SetResult(sbx, err)] *)
Definition set_start (s : ReservationStorage) (start : nat) (sbx : T) (err : option E) : ReservationStorage :=
  mkReservations (reservations s) (alter (λ o, (SetResult o sbx err).1) start (res_starts s)).

(** The function [Reserve] returns to the caller that is to start the sandbox. *)
Definition finishStart (s : ReservationStorage) (teamID sandboxID : string) (start : nat)
    (sbx : T) (err : option E) : ReservationStorage :=
  let s := set_start s start sbx err in
  match err with
  | Some _ => ResRelease s teamID sandboxID
  | None => s
  end.

(** The atomic steps. *)
Inductive res_op :=
  | OpReserve (teamID sandboxID : string) (limit : Z)
  | OpSetResult (start : nat) (sbx : T) (err : option E)
  | OpRelease (teamID sandboxID : string).

Definition res_step (s : ReservationStorage) (op : res_op) : ReservationStorage :=
  match op with
  | OpReserve teamID sandboxID limit => (Reserve s teamID sandboxID limit).1
  | OpSetResult start sbx err => set_start s start sbx err
  | OpRelease teamID sandboxID => ResRelease s teamID sandboxID
  end.
Definition res_run : ReservationStorage → list res_op → ReservationStorage := foldl res_step.

(** The starts that were handed out, in order, with what they were for. *)
Fixpoint granted (s : ReservationStorage) (ops : list res_op) : list (string * string * nat) :=
  match ops with
  | [] => []
  | op :: ops =>
      match op with
      | OpReserve teamID sandboxID limit =>
          match (Reserve s teamID sandboxID limit).2 with
          | FinishStart p => (teamID, sandboxID, p) :: granted (res_step s op) ops
          | _ => granted (res_step s op) ops
          end
      | _ => granted (res_step s op) ops
      end
  end.

(** The reservations of a team. *)
Definition held (s : ReservationStorage) (teamID : string) : TeamSandboxes :=
  default ∅ (cm_items (reservations s) !! teamID).
End reservations.

Arguments ReservationStorage _ _ _ : clear implicits.
Arguments res_op _ _ : clear implicits.

Section reservation_laws.
Context {M : Type → Type} `{CMapLaws M} {T E : Type}.
Implicit Types (s : ReservationStorage M T E) (op : res_op T E).

(** [Reserve] on every branch. *)
Lemma Reserve_spec s team id limit :
  let '(s', r) := Reserve s team id limit in
  match held s team !! id with
  | Some p => r = WaitForStart p ∧ res_starts s' = res_starts s ∧ ∀ t, held s' t = held s t
  | None =>
      if (0 <=? limit) && (limit <=? Z.of_nat (size (held s team))) then
        r = LimitExceeded ∧ res_starts s' = res_starts s ∧ ∀ t, held s' t = held s t
      else
        let p := length (res_starts s) in
        r = FinishStart p ∧ res_starts s' = res_starts s ++ [NewSetOnce] ∧
        ∀ t, held s' t = if decide (t = team) then <[id := p]> (held s team) else held s t
  end.
Proof using All.
  unfold Reserve, smap_Upsert.
  pose proof (cm_upsert_spec _ _ (reservations s) team (reserve_cb (length (res_starts s)) id limit)) as Hu.
  destruct (cm_upsert _ _ _) as [[m v] o]. destruct Hu as [Hcb Hi].
  change (default ∅ (cm_items (reservations s) !! team)) with (held s team) in *.
  unfold reserve_cb in Hcb. fold (held s team) in Hcb.
  assert (∀ t, held (mkReservations m (match o with FinishStart _ => res_starts s ++ [NewSetOnce] | _ => res_starts s end)) t
            = if decide (t = team) then v else held s t) as Hheld.
  { intros t. unfold held. cbn [reservations]. rewrite Hi. case_decide as Ht.
    - subst t. by rewrite lookup_insert_eq.
    - by rewrite lookup_insert_ne. }
  destruct (held s team !! id) as [p|] eqn:Ep.
  - injection Hcb as -> ->. split_and!; [done|done|]. intros t. rewrite Hheld. by case_decide; subst.
  - destruct ((0 <=? limit) && (limit <=? Z.of_nat (size (held s team)))) eqn:El; injection Hcb as -> ->;
      (split_and!; [done|done|]); intros t; rewrite Hheld; [by case_decide; subst|done].
Qed.

Lemma ResRelease_spec s team id t :
  held (ResRelease s team id) t = if decide (t = team) then delete id (held s team) else held s t.
Proof using All.
  unfold held, ResRelease, smap_RemoveCb. cbn [reservations].
  rewrite (cm_remove_cb_spec _ (reservations s) team (release_cb id)).
  destruct (cm_items (reservations s) !! team) as [ts|] eqn:Et; simpl.
  - case_bool_decide as Hz; case_decide as Ht; subst.
    + rewrite lookup_delete_eq. simpl. symmetry. by apply map_size_empty_iff.
    + by rewrite lookup_delete_ne.
    + by rewrite lookup_insert_eq.
    + by rewrite lookup_insert_ne.
  - case_decide as Ht; subst.
    + rewrite lookup_delete_eq. simpl. by rewrite delete_empty.
    + by rewrite lookup_delete_ne.
Qed.

Lemma set_start_starts s p v e q :
  res_starts (set_start s p v e) !! q =
    if decide (p = q) then (λ o, (SetResult o v e).1) <$> res_starts s !! q else res_starts s !! q.
Proof using.
  unfold set_start. cbn [res_starts]. case_decide as Hd; [subst; by rewrite list_lookup_alter_eq|].
  by rewrite list_lookup_alter_ne.
Qed.

(** Each reservation holds a start of its own. *)
Record res_inv s : Prop := {
  ri_alloc t id p : held s t !! id = Some p → (p < length (res_starts s))%nat;
  ri_inj t id t' id' p : held s t !! id = Some p → held s t' !! id' = Some p → t = t' ∧ id = id';
}.

Lemma set_start_length s p v e : length (res_starts (set_start s p v e)) = length (res_starts s).
Proof using. unfold set_start. cbn [res_starts]. by rewrite length_alter. Qed.

Lemma res_step_inv s op : res_inv s → res_inv (res_step s op).
Proof using All.
  intros [Ha Hi]. destruct op as [team id limit|p v e|team id]; cbn [res_step].
  - pose proof (Reserve_spec s team id limit) as Hr. destruct (Reserve s team id limit) as [s' r]. cbn [fst].
    destruct (held s team !! id) as [p|] eqn:Ep; [|destruct (_ && _)]; destruct Hr as (_ & Hs & Hh).
    1-2: split; intros *; rewrite ?Hs, ?Hh; eauto.
    assert (∀ t id' p, held s' t !! id' = Some p →
      (t = team ∧ id' = id ∧ p = length (res_starts s)) ∨ (held s t !! id' = Some p ∧ (p < length (res_starts s))%nat)) as Hc.
    { intros t id' p. rewrite Hh. case_decide; subst; [|eauto]. rewrite lookup_insert_Some. naive_solver. }
    split.
    + intros t id' p [(_ & _ & ->)|[_ ?]]%Hc; rewrite Hs, length_app; simpl; lia.
    + intros t1 id1 t2 id2 p [(-> & -> & ->)|[? ?]]%Hc [(-> & -> & ?)|[? ?]]%Hc; try done; try lia. by eapply Hi.
  - split; [|done]. intros t id q Hq. rewrite set_start_length. by eapply Ha.
  - assert (∀ t id' p, held (ResRelease s team id) t !! id' = Some p → held s t !! id' = Some p) as Hc.
    { intros t id' p. rewrite ResRelease_spec. case_decide; subst; [|done]. by rewrite lookup_delete_Some; intros [_ ?]. }
    split; [intros t id' p ?%Hc; cbn; by eapply Ha|]. intros t1 id1 t2 id2 p ?%Hc ?%Hc. by eapply Hi.
Qed.
Lemma res_run_inv s ops : res_inv s → res_inv (res_run s ops).
Proof using All.
  revert s. induction ops as [|op ops IH]; intros s Hs; [done|]. by apply IH, res_step_inv.
Qed.
Lemma held_new t : held (NewReservationStorage : ReservationStorage M T E) t = ∅.
Proof using All. unfold held, NewReservationStorage, smap_New. cbn [reservations]. by rewrite cm_items_new. Qed.
Lemma res_inv_new : res_inv NewReservationStorage.
Proof using All. split; intros *; rewrite held_new; done. Qed.

(** The reservations with a limit of at most [L] keep a team within [L]. *)
Definition limited (L : Z) (team : string) (op : res_op T E) : Prop :=
  match op with OpReserve t _ limit => t = team → 0 ≤ limit ≤ L | _ => True end.
Lemma res_step_limit L team s op :
  limited L team op → Z.of_nat (size (held s team)) ≤ L → Z.of_nat (size (held (res_step s op) team)) ≤ L.
Proof using All.
  intros Hl Hs. destruct op as [t id limit|p v e|t id]; cbn [res_step limited] in *; [|done|].
  - pose proof (Reserve_spec s t id limit) as Hr. destruct (Reserve s t id limit) as [s' r]. cbn [fst].
    destruct (held s t !! id) as [p|] eqn:Ep; [by destruct Hr as (_ & _ & ->)|].
    destruct ((0 <=? limit) && (limit <=? _)) eqn:Eb; destruct Hr as (_ & _ & ->); [done|].
    case_decide; subst; [|done]. rewrite map_size_insert_None by done.
    specialize (Hl eq_refl). lia.
  - rewrite ResRelease_spec. case_decide; subst; [|done].
    destruct (held s t !! id) as [p|] eqn:Ep.
    + rewrite map_size_delete, Ep. lia.
    + by rewrite delete_id.
Qed.
Lemma res_run_limit L team s ops :
  Forall (limited L team) ops → Z.of_nat (size (held s team)) ≤ L →
  Z.of_nat (size (held (res_run s ops) team)) ≤ L.
Proof using All.
  intros Hf. revert s. induction Hf as [|op ops Hop _ IH]; intros s Hs; [done|].
  apply IH. by apply res_step_limit.
Qed.

Lemma res_step_starts s op : (length (res_starts s) ≤ length (res_starts (res_step s op)))%nat.
Proof using All.
  destruct op as [t id limit|p v e|t id]; cbn [res_step]; [|by rewrite set_start_length|done].
  pose proof (Reserve_spec s t id limit) as Hr. destruct (Reserve s t id limit) as [s' r]. cbn [fst].
  destruct (held s t !! id); [|destruct (_ && _)]; destruct Hr as (_ & -> & _); rewrite ?length_app; lia.
Qed.

(** Every start is handed out once: later ones are allocated later. *)
Lemma granted_fresh s ops : Forall (λ g, (length (res_starts s) ≤ g.2)%nat) (granted s ops) ∧ NoDup (granted s ops).*2.
Proof using All.
  revert s. induction ops as [|op ops IH]; intros s; [split; constructor|].
  destruct (IH (res_step s op)) as [Hf Hn]. pose proof (res_step_starts s op) as Hl.
  assert (Forall (λ g, (length (res_starts s) ≤ g.2)%nat) (granted (res_step s op) ops)) as Hf'.
  { eapply Forall_impl; [exact Hf|]. simpl. lia. }
  cbn [granted]. destruct op as [t id limit|p v e|t id]; [|done|done].
  pose proof (Reserve_spec s t id limit) as Hr. cbn [res_step] in *.
  destruct (Reserve s t id limit) as [s' r]. cbn [fst snd] in *.
  destruct r as [|p|p]; [done|done|].
  destruct (held s t !! id); [by destruct Hr|]. destruct (_ && _); [by destruct Hr|].
  destruct Hr as ([= ->] & Hs & _). split; [by constructor|]. cbn. constructor; [|done].
  rewrite list_elem_of_fmap. intros (g & Hg & Hin). rewrite Forall_forall in Hf. specialize (Hf _ Hin).
  rewrite Hs, length_app in Hf. simpl in Hf. lia.
Qed.

(** A published result stays. *)
Lemma res_step_published s op p o r :
  res_starts s !! p = Some o → o = mkSetOnce true (Some r) → res_starts (res_step s op) !! p = Some o.
Proof using All.
  intros Hp Ho. destruct op as [t id limit|q v e|t id]; cbn [res_step]; [| |done].
  - pose proof (Reserve_spec s t id limit) as Hr. destruct (Reserve s t id limit) as [s' r']. cbn [fst].
    destruct (held s t !! id); [|destruct (_ && _)]; destruct Hr as (_ & -> & _); [done|done|].
    by apply lookup_app_l_Some.
  - rewrite set_start_starts. case_decide; [|done]. rewrite Hp. subst o. by destruct e.
Qed.
Lemma res_run_published s ops p r :
  res_starts s !! p = Some (mkSetOnce true (Some r)) → res_starts (res_run s ops) !! p = Some (mkSetOnce true (Some r)).
Proof using All.
  revert s. induction ops as [|op ops IH]; intros s Hs; [done|]. apply IH. by eapply res_step_published.
Qed.
End reservation_laws.

(** ** Properties *)
Section reservation_properties.
Context {M : Type → Type} `{CMapLaws M} {T E : Type}.

(** C9: over any interleaving of reservations, results and releases, when every
    reservation of a team comes with a limit between zero and [L], the team never
    holds more than [L] sandboxes; each start is handed to exactly one caller; and
    no two reservations ever share a start. *)
Theorem Reserve_history (L : Z) (team : string) (ops : list (res_op T E)) :
  0 ≤ L → Forall (limited L team) ops →
  let s := res_run (NewReservationStorage : ReservationStorage M T E) ops in
  Z.of_nat (size (held s team)) ≤ L ∧
  NoDup (granted (NewReservationStorage : ReservationStorage M T E) ops).*2 ∧
  (∀ t id t' id' p, held s t !! id = Some p → held s t' !! id' = Some p → t = t' ∧ id = id').
Proof using All.
  intros HL Hf s. split_and!.
  - apply res_run_limit; [done|]. rewrite held_new. by rewrite map_size_empty.
  - apply granted_fresh.
  - apply ri_inj, res_run_inv, res_inv_new.
Qed.

(** When the caller that was handed a start finishes it, everybody who waits
    on it, however late, receives that very outcome; and when the start failed the
    sandbox is no longer reserved while every other reservation is left alone. *)
Theorem finishStart_publishes (s : ReservationStorage M T E) (team id : string) (p : nat)
    (sbx : T) (err : option E) (ops : list (res_op T E)) :
  res_starts s !! p = Some NewSetOnce →
  let s' := finishStart s team id p sbx err in
  (∃ o, res_starts (res_run s' ops) !! p = Some o ∧
     Wait o = Some (Some (match err with Some e => inr e | None => inl sbx end))) ∧
  (∀ t id', held s' t !! id' = if decide (err ≠ None ∧ t = team ∧ id' = id) then None else held s t !! id').
Proof using All.
  intros Hp s'. split.
  - eexists. split; [apply res_run_published with (r := match err with Some e => inr e | None => inl sbx end)|done].
    subst s'. unfold finishStart.
    assert (res_starts (set_start s p sbx err) !! p =
      Some (mkSetOnce true (Some (match err with Some e => inr e | None => inl sbx end)))) as E1.
    { rewrite set_start_starts, decide_True, Hp by done. by destruct err. }
    by destruct err.
  - intros t id'. subst s'. unfold finishStart. destruct err as [e|].
    + rewrite ResRelease_spec. change (held (set_start s p sbx (Some e))) with (held s).
      destruct (decide (t = team)) as [->|]; [|by rewrite decide_False by naive_solver].
      destruct (decide (id' = id)) as [->|]; [by rewrite lookup_delete_eq, decide_True by done|].
      by rewrite lookup_delete_ne, decide_False by naive_solver.
    + by rewrite decide_False by naive_solver.
Qed.
End reservation_properties.

#[local] Existing Instances GMapC.ops GMapC.laws.

Definition ex_ops : list (res_op Z Z) :=
  [OpReserve "team" "a" 1; OpReserve "team" "b" 1; OpReserve "team" "a" 1; OpSetResult 0 0 (Some 7);
   OpRelease "team" "a"; OpReserve "team" "b" 1].

Lemma Reserve_history_witness :
  Z.of_nat (size (held (res_run (NewReservationStorage : ReservationStorage GMapC.t Z Z) ex_ops) "team")) ≤ 1 ∧
  NoDup (granted (NewReservationStorage : ReservationStorage GMapC.t Z Z) ex_ops).*2.
Proof.
  destruct (Reserve_history (M := GMapC.t) 1 "team" ex_ops) as (E1 & E2 & _); [lia| |by split].
  unfold ex_ops. repeat constructor; simpl; lia.
Defined.

Lemma finishStart_publishes_witness :
  let s := (Reserve (NewReservationStorage : ReservationStorage GMapC.t Z Z) "team" "a" 1).1 in
  ∃ o, res_starts (res_run (finishStart s "team" "a" 0 0 (Some 7)) ex_ops) !! 0%nat = Some o ∧
       Wait o = Some (Some (inr 7)).
Proof.
  intros s. destruct (finishStart_publishes s "team" "a" 0 0 (Some 7) ex_ops) as [(o & E1 & E2) _]; [by vm_compute|].
  by exists o.
Defined.
