(* ===== verification/SandboxState.v ===== *)
(** * Sandboxes and their states

    packages/api/internal/sandbox: [states.go], [sandbox.go]; [memorySandbox] of
    storage/memory/[sandbox.go]; the update of
    packages/api/internal/orchestrator/[keep_alive.go].

    A [time.Time] and a [time.Duration] are integers, in nanoseconds; a duration
    has 64 bits, and [Time.Sub] saturates at its bounds. *)
From S2P Require Import Prelude SyncUtils.

(** ** time *)
Definition time_Sub (t u : Z) : Z := Z.max minI64 (Z.min maxI64 (t - u)).
Definition time_Add (t d : Z) : Z := t + d.
Definition time_After (t u : Z) : bool := u <? t.
Definition time_Before (t u : Z) : bool := t <? u.

(** ** states.go *)
Inductive TransitionEffect := TransitionExpires | TransitionTransient.
#[export] Instance TransitionEffect_eq_dec : EqDecision TransitionEffect.
Proof. solve_decision. Defined.
Inductive State := StateRunning | StatePausing | StateKilling | StateSnapshotting.
#[export] Instance State_eq_dec : EqDecision State.
Proof. solve_decision. Defined.

Record StateAction := mkAction { TargetState : State; Effect : TransitionEffect }.
Definition StateActionPause : StateAction := mkAction StatePausing TransitionExpires.
Definition StateActionKill : StateAction := mkAction StateKilling TransitionExpires.
Definition StateActionSnapshot : StateAction := mkAction StateSnapshotting TransitionTransient.

Record RemoveOpts := mkOpts { Action : StateAction; Eviction : bool }.

(** [AllowedTransitions[from][to]]; every entry of the map is [true]. *)
Definition AllowedTransitions (from to : State) : bool :=
  match from, to with
  | StateRunning, (StatePausing | StateKilling | StateSnapshotting) => true
  | StatePausing, StateKilling => true
  | StateSnapshotting, (StateRunning | StateKilling | StatePausing) => true
  | _, _ => false
  end.

(** ** sandbox.go *)
Section sandbox.
(** [ID] stands for [uuid.UUID]; [rest] for the fields that no operation of the
    store looks at (template, build, resources, versions, network, ...). *)
Context {ID Rest : Type}.

Record Sandbox := mkSandbox {
  SandboxID : string;
  TeamID : ID;
  NodeID : string;
  MaxInstanceLength : Z;
  StartTime : Z;
  EndTime : Z;
  AutoPause : bool;
  SState : State;
  rest : Rest;
}.
Definition NewSandbox (sandboxID : string) (teamID : ID) (nodeID : string)
    (maxInstanceLength startTime endTime : Z) (autoPause : bool) (r : Rest) : Sandbox :=
  mkSandbox sandboxID teamID nodeID maxInstanceLength startTime endTime autoPause StateRunning r.

Definition with_end (s : Sandbox) (t : Z) : Sandbox :=
  mkSandbox (SandboxID s) (TeamID s) (NodeID s) (MaxInstanceLength s) (StartTime s) t (AutoPause s) (SState s) (rest s).
Definition with_state (s : Sandbox) (st : State) : Sandbox :=
  mkSandbox (SandboxID s) (TeamID s) (NodeID s) (MaxInstanceLength s) (StartTime s) (EndTime s) (AutoPause s) st (rest s).

Definition IsExpired (s : Sandbox) (now : Z) : bool := time_After now (EndTime s).

(** ** storage/memory/sandbox.go

    [transition] points into the [ErrorOnce]s that were allocated. *)
Record memorySandbox := mkMemory { data_ : Sandbox; transition : option nat }.
Definition newMemorySandbox (data : Sandbox) : memorySandbox := mkMemory data None.

Definition expire (now : Z) (s : Sandbox) : Sandbox := if negb (IsExpired s now) then with_end s now else s.
(** [setExpired], under the lock, and [SetExpired], that takes it *)
Definition setExpired (now : Z) (i : memorySandbox) : memorySandbox :=
  mkMemory (expire now (data_ i)) (transition i).
Definition Data (i : memorySandbox) : Sandbox := data_ i.
Definition State_ (i : memorySandbox) : State := SState (data_ i).

(** ** keep_alive.go *)
Definition getMaxAllowedTTL (now startTime duration maxInstanceLength : Z) : Z :=
  let timeLeft := i64 (maxInstanceLength - time_Sub now startTime) in
  if timeLeft <=? 0 then 0 else Z.min timeLeft duration.

Inductive keep_alive_error := NotRunning (st : State) | MaxInstanceLengthExceeded.

(** The [updateFunc] of [KeepAliveFor]: [now] is read when [KeepAliveFor] is
    called, [since] is the clock of [time.Since], under the sandbox's lock. *)
Definition keep_alive (now since duration : Z) (allowShorter : bool) (sbx : Sandbox)
    : res keep_alive_error Sandbox :=
  if negb (bool_decide (SState sbx = StateRunning)) then Err (NotRunning (SState sbx))
  else
    let ttl := getMaxAllowedTTL now (StartTime sbx) duration (MaxInstanceLength sbx) in
    let endTime := time_Add now ttl in
    if MaxInstanceLength sbx <? time_Sub since (StartTime sbx) then Err MaxInstanceLengthExceeded
    else if negb allowShorter && time_Before endTime (EndTime sbx) then Ok sbx
    else Ok (with_end sbx endTime).
End sandbox.

Arguments Sandbox : clear implicits.
Arguments memorySandbox : clear implicits.

Section sandbox_laws.
Context {ID Rest : Type}.
Implicit Types s : Sandbox ID Rest.

Lemma expire_state now s : SState (expire now s) = SState s.
Proof. unfold expire. by destruct (IsExpired s now). Qed.
Lemma expire_end now s : EndTime (expire now s) = Z.min (EndTime s) now.
Proof.
  unfold expire, IsExpired, time_After. destruct (Z.ltb_spec (EndTime s) now); simpl; lia.
Qed.

Lemma keep_alive_state now since d sh s s' : keep_alive now since d sh s = Ok s' → SState s = StateRunning ∧ SState s' = StateRunning.
Proof.
  unfold keep_alive. case_bool_decide as Hr; simpl; [|done]. repeat case_match; naive_solver.
Qed.

(** [getMaxAllowedTTL] stays within what is left of the instance's length. *)
Lemma getMaxAllowedTTL_bound now st d mx :
  0 ≤ mx ≤ maxI64 → 0 ≤ now - st ≤ maxI64 → 0 ≤ d →
  0 ≤ getMaxAllowedTTL now st d mx ≤ Z.max 0 (mx - (now - st)) ∧
  getMaxAllowedTTL now st d mx = Z.min d (Z.max 0 (mx - (now - st))).
Proof.
  unfold getMaxAllowedTTL, time_Sub, maxI64, minI64. intros.
  rewrite Z.min_r, Z.max_r by lia. rewrite i64_small by lia. case_Z; lia.
Qed.

Lemma keep_alive_spec now since d sh s :
  0 ≤ MaxInstanceLength s ≤ maxI64 → 0 ≤ d ≤ maxI64 →
  StartTime s ≤ now ≤ since → since - StartTime s ≤ maxI64 →
  keep_alive now since d sh s =
    if decide (SState s ≠ StateRunning) then Err (NotRunning (SState s))
    else if decide (StartTime s + MaxInstanceLength s < since) then Err MaxInstanceLengthExceeded
    else
      let e := Z.min (now + d) (StartTime s + MaxInstanceLength s) in
      Ok (if decide (sh = false ∧ e < EndTime s) then s else with_end s e).
Proof.
  unfold maxI64. intros Hm Hd Hn Hs. unfold keep_alive.
  case_bool_decide as Hr; cbn [negb]; [rewrite decide_False by naive_solver|by rewrite decide_True].
  destruct (getMaxAllowedTTL_bound now (StartTime s) d (MaxInstanceLength s)) as [Hb1 Hb2]; [unfold maxI64; lia..|].
  unfold time_Add, time_Before. unfold time_Sub, maxI64, minI64. rewrite Z.min_r, Z.max_r by lia.
  destruct (Z.ltb_spec (MaxInstanceLength s) (since - StartTime s)); [by rewrite decide_True by lia|].
  rewrite decide_False by lia. rewrite Hb2.
  replace (now + Z.min d (Z.max 0 (MaxInstanceLength s - (now - StartTime s))))
    with (Z.min (now + d) (StartTime s + MaxInstanceLength s)) by lia.
  destruct sh; cbn [negb andb]; [by rewrite decide_False by naive_solver|].
  destruct (Z.ltb_spec (Z.min (now + d) (StartTime s + MaxInstanceLength s)) (EndTime s)) as [?|?];
    [by rewrite decide_True by naive_solver|rewrite decide_False; [done|lia]].
Qed.
End sandbox_laws.
