(* ===== verification/Removal.v ===== *)
(** * Removing a sandbox

    packages/api/internal/sandbox/storage/memory: [startRemoving] and
    [waitForStateChange] of [operations.go]; [RemoveSandbox] and
    [removeSandboxFromNode] of packages/api/internal/orchestrator:
    [delete_instance.go]; the evictor's action (evictor/[evict.go]).

    [startRemoving] is a protocol between any number of callers: each enters the
    sandbox's critical section, and leaves it as the owner of a transition, as a
    waiter on the transition that is under way, or with an answer.  A call is
    modelled by where it stands ([call]), and the system by the sandbox, the
    [ErrorOnce]s allocated for its transitions, the clock and the calls.  A step
    ([label]) is one critical section, one wake-up or one cancellation; a run is
    any list of steps, so a theorem on runs holds of every interleaving. *)
From S2P Require Import Prelude SyncUtils SandboxState.

Section removal.
Context {ID Rest E : Type}.

Inductive removal_error :=
  | ErrNotFound
  | ErrNotEvictable
  | InvalidStateTransition (CurrentState TargetState : State)
  | FailedState (e : E)
  | UnexpectedTransition.
Inductive outcome := Failed (e : removal_error) | AlreadyDone | Completed.

Inductive call :=
  | Calling (opts : RemoveOpts)                              (** before [sbx.mu.Lock()] *)
  | Waiting (opts : RemoveOpts) (currentState : State) (t : nat)  (** in [transition.WaitWithContext] *)
  | Owning (opts : RemoveOpts)                               (** holds the callback *)
  | Finished (r : outcome).

(** The critical section of [startRemoving]; [now] is the clock of the expiry
    check, [now'] the one of [setExpired]. *)
Definition start_enter (sbx : memorySandbox ID Rest) (heap : list (ErrorOnce E)) (opts : RemoveOpts) (now now' : Z)
    : memorySandbox ID Rest * list (ErrorOnce E) * call :=
  let newState := TargetState (Action opts) in
  if Eviction opts && bool_decide (is_Some (transition sbx)) then (sbx, heap, Finished (Failed ErrNotEvictable))
  else if Eviction opts && negb (IsExpired (data_ sbx) now) then (sbx, heap, Finished (Failed ErrNotEvictable))
  else
    let currentState := SState (data_ sbx) in
    match transition sbx with
    | Some t =>
        if negb (bool_decide (currentState = newState)) && negb (AllowedTransitions currentState newState)
        then (sbx, heap, Finished (Failed (InvalidStateTransition currentState newState)))
        else (sbx, heap, Waiting opts currentState t)
    | None =>
        if bool_decide (currentState = newState) then (sbx, heap, Finished AlreadyDone)
        else if negb (AllowedTransitions currentState newState)
        then (sbx, heap, Finished (Failed (InvalidStateTransition currentState newState)))
        else
          let sbx := match Effect (Action opts) with TransitionExpires => setExpired now' sbx | TransitionTransient => sbx end in
          (mkMemory (with_state (data_ sbx) newState) (Some (length heap)), heap ++ [NewErrorOnce], Owning opts)
    end.

(** After [transition.WaitWithContext(ctx)] returned [werr]; the retry drops the
    eviction flag. *)
Definition after_wait (opts : RemoveOpts) (currentState : State) (werr : option E) : call :=
  let newState := TargetState (Action opts) in
  match werr with
  | Some e => Finished (Failed (FailedState e))
  | None =>
      if bool_decide (currentState = newState) then Finished AlreadyDone
      else if AllowedTransitions currentState newState then Calling (mkOpts (Action opts) false)
      else Finished (Failed UnexpectedTransition)
  end.

(** The callback; [sbx.transition] is read when it runs, and is dereferenced. *)
Definition transition_callback (sbx : memorySandbox ID Rest) (heap : list (ErrorOnce E)) (opts : RemoveOpts) (err : option E)
    : res () (memorySandbox ID Rest * list (ErrorOnce E)) :=
  let newState := TargetState (Action opts) in
  let '(data, err) :=
    match Effect (Action opts) with
    | TransitionTransient =>
        (if bool_decide (err = None) && bool_decide (SState (data_ sbx) = newState)
         then with_state (data_ sbx) StateRunning else data_ sbx, None)
    | TransitionExpires => (data_ sbx, err)
    end in
  match transition sbx with
  | None => Panic
  | Some t =>
      let heap := alter (λ o, (EO_SetError o err).1) t heap in
      Ok (mkMemory data (match err with Some _ => Some t | None => None end), heap)
  end.

(** [waitForStateChange]: the transition to wait on, if there is one. *)
Definition waitForStateChange (sbx : memorySandbox ID Rest) : option nat := transition sbx.

(** ** delete_instance.go

    What the node answers: whether the node is known and managed by Nomad (or
    the environment local), the error of the pause, with [true] for a violated
    foreign key, and the error of the delete request. *)
Inductive node_error := NodeNotFound | PauseFailed (e : E) | KillFailed (e : E).
Inductive remove_effect :=
  | DeleteRoute | PauseOnNode | KillOnNode                 (** remote calls *)
  | StoreRemove | Analytics | CountersRemove               (** the deferred calls *)
  | Finish (err : option node_error).                      (** the callback *)
Inductive api_error := ErrSandboxNotFound | ErrSandboxOperationFailed
  | InState (st : State) | Propagated (e : removal_error).

Definition killSandboxOnNode (kill : option E) : option node_error := KillFailed <$> kill.

Definition removeSandboxFromNode (node_found managed : bool) (action : StateAction)
    (pause : option (E * bool)) (kill : option E) : list remove_effect * option node_error :=
  if negb node_found then ([], Some NodeNotFound)
  else
    let route := if managed then [DeleteRoute] else [] in
    match TargetState action, Effect action with
    | StatePausing, TransitionExpires =>
        match pause with
        | Some (e, true) => (route ++ [PauseOnNode; KillOnNode], Some (PauseFailed e))
        | Some (e, false) => (route ++ [PauseOnNode], Some (PauseFailed e))
        | None => (route ++ [PauseOnNode], None)
        end
    | StateKilling, TransitionExpires => (route ++ [KillOnNode], killSandboxOnNode kill)
    | _, _ => (route, None)
    end.

(** [RemoveSandbox], from what [StartRemoving] returned ([start], with the state
    [st] of the sandbox it returned) and what [removeSandboxFromNode] does. *)
Definition RemoveSandbox (opts : RemoveOpts) (st : State) (start : outcome)
    (node : list remove_effect * option node_error) : list remove_effect * option api_error :=
  match start with
  | Failed err =>
      if Eviction opts then ([], Some (Propagated err))
      else
        match TargetState (Action opts), Effect (Action opts) with
        | StateKilling, TransitionExpires =>
            match err with
            | ErrNotFound => ([], Some ErrSandboxNotFound)
            | _ => match st with
                   | StateKilling => ([], None)
                   | _ => ([], Some ErrSandboxOperationFailed)
                   end
            end
        | StatePausing, TransitionExpires =>
            match err with
            | ErrNotFound => ([], Some ErrSandboxNotFound)
            | InvalidStateTransition cur _ =>
                match cur with
                | StateKilling => ([], Some ErrSandboxNotFound)
                | _ => ([], Some (InState cur))
                end
            | _ => ([], Some ErrSandboxOperationFailed)
            end
        | _, _ => ([], Some ErrSandboxOperationFailed)
        end
  | AlreadyDone => ([Finish None], None)
  | Completed =>
      let '(effects, err) := node in
      (effects ++ [StoreRemove; Analytics; CountersRemove; Finish err],
       match err with Some _ => Some ErrSandboxOperationFailed | None => None end)
  end.

(** ** evictor: what it asks for an expired sandbox *)
Definition evict_opts (autoPause : bool) : RemoveOpts :=
  mkOpts (if autoPause then StateActionPause else StateActionKill) true.

(** ** The system *)
Record sys := mkSys {
  box : memorySandbox ID Rest;
  heap : list (ErrorOnce E);
  clock : Z;
  calls_ : list call;
}.
Definition sys_init (data : Sandbox ID Rest) (now : Z) : sys := mkSys (newMemorySandbox data) [] now [].

Inductive label :=
  | LCall (opts : RemoveOpts)                     (** a new call of [startRemoving] *)
  | LEnter (i : nat) (now now' : Z)               (** its critical section *)
  | LWake (i : nat)                               (** the transition it waits on is done *)
  | LCancel (i : nat) (e : E)                     (** its context is done first *)
  | LFinish (i : nat) (err : option E)            (** the owner runs the callback *)
  | LKeepAlive (now since d : Z) (allowShorter : bool)  (** [KeepAliveFor]'s update *)
  | LExpire (now : Z).                            (** [SetExpired], by the node sync *)

Definition is_action (a : StateAction) : bool :=
  match a with
  | mkAction StatePausing TransitionExpires | mkAction StateKilling TransitionExpires
  | mkAction StateSnapshotting TransitionTransient => true
  | _ => false
  end.

Definition sys_step (s : sys) (l : label) : option sys :=
  match l with
  | LCall opts =>
      if is_action (Action opts) then Some (mkSys (box s) (heap s) (clock s) (calls_ s ++ [Calling opts])) else None
  | LEnter i now now' =>
      match calls_ s !! i with
      | Some (Calling opts) =>
          if (clock s <=? now) && (now <=? now') then
            let '(b, h, c) := start_enter (box s) (heap s) opts now now' in
            Some (mkSys b h now' (<[i := c]> (calls_ s)))
          else None
      | _ => None
      end
  | LWake i =>
      match calls_ s !! i with
      | Some (Waiting opts cur t) =>
          match heap s !! t ≫= EO_Wait with
          | Some werr => Some (mkSys (box s) (heap s) (clock s) (<[i := after_wait opts cur werr]> (calls_ s)))
          | None => None
          end
      | _ => None
      end
  | LCancel i e =>
      match calls_ s !! i with
      | Some (Waiting opts cur t) =>
          Some (mkSys (box s) (heap s) (clock s) (<[i := after_wait opts cur (Some e)]> (calls_ s)))
      | _ => None
      end
  | LFinish i err =>
      match calls_ s !! i with
      | Some (Owning opts) =>
          match transition_callback (box s) (heap s) opts err with
          | Ok (b, h) => Some (mkSys b h (clock s) (<[i := Finished Completed]> (calls_ s)))
          | _ => None
          end
      | _ => None
      end
  | LKeepAlive now since d allowShorter =>
      if clock s <=? since then
        match keep_alive now since d allowShorter (data_ (box s)) with
        | Ok data => Some (mkSys (mkMemory data (transition (box s))) (heap s) since (calls_ s))
        | _ => Some (mkSys (box s) (heap s) since (calls_ s))
        end
      else None
  | LExpire now =>
      if clock s <=? now then Some (mkSys (setExpired now (box s)) (heap s) now (calls_ s)) else None
  end.

Fixpoint sys_run (s : sys) (ls : list label) : option sys :=
  match ls with
  | [] => Some s
  | l :: ls => sys_step s l ≫= λ s', sys_run s' ls
  end.

Definition is_owner (c : call) : bool := match c with Owning _ => true | _ => false end.
Definition owners (s : sys) : nat := count_if is_owner (calls_ s).
Definition sstate (s : sys) : State := SState (data_ (box s)).
(** [StatePausing] and [StateKilling]: the sandbox is on its way out. *)
Definition leaving (st : State) : bool := match st with StatePausing | StateKilling => true | _ => false end.
End removal.

Arguments removal_error : clear implicits.
Arguments outcome : clear implicits.
Arguments call : clear implicits.
Arguments sys : clear implicits.
Arguments label : clear implicits.

Section removal_laws.
Context {ID Rest E : Type}.
Implicit Types (s : sys ID Rest E) (sbx : memorySandbox ID Rest) (heap : list (ErrorOnce E)) (l : label E).

(** [start_enter] either leaves the sandbox alone or makes the caller the owner
    of a new transition. *)
Lemma start_enter_spec sbx heap opts now now' b h (c : call E) :
  start_enter sbx heap opts now now' = (b, h, c) →
  (b = sbx ∧ h = heap ∧
     match c with
     | Finished r => Eviction opts = true → transition sbx ≠ None → r = Failed ErrNotEvictable
     | Waiting o cur t => o = opts ∧ transition sbx = Some t ∧ Eviction opts = false
     | _ => False
     end) ∨
  (transition sbx = None ∧ AllowedTransitions (SState (data_ sbx)) (TargetState (Action opts)) = true ∧
   c = Owning opts ∧ h = heap ++ [NewErrorOnce] ∧ (Eviction opts = true → IsExpired (data_ sbx) now = true) ∧
   b = mkMemory (with_state (match Effect (Action opts) with TransitionExpires => expire now' (data_ sbx)
                             | TransitionTransient => data_ sbx end) (TargetState (Action opts))) (Some (length heap))).
Proof.
  unfold start_enter. intros Hs.
  destruct (Eviction opts) eqn:Ee; simpl in Hs.
  - case_bool_decide as Ht; [injection Hs as <- <- <-; naive_solver|].
    destruct (IsExpired (data_ sbx) now) eqn:Ex; simpl in Hs; [|injection Hs as <- <- <-; naive_solver].
    destruct (transition sbx) as [t|] eqn:Etr; [destruct Ht; eauto|].
    case_bool_decide; [injection Hs as <- <- <-; naive_solver|].
    destruct (AllowedTransitions _ _) eqn:Ea; simpl in Hs; injection Hs as <- <- <-; [|naive_solver].
    right. destruct (Effect (Action opts)); naive_solver.
  - destruct (transition sbx) as [t|] eqn:Etr.
    + destruct (negb _ && negb _); injection Hs as <- <- <-; naive_solver.
    + case_bool_decide; [injection Hs as <- <- <-; naive_solver|].
      destruct (AllowedTransitions _ _) eqn:Ea; simpl in Hs; injection Hs as <- <- <-; [|naive_solver].
      right. destruct (Effect (Action opts)); naive_solver.
Qed.

Definition call_opts (c : call E) : option RemoveOpts :=
  match c with Calling o | Waiting o _ _ | Owning o => Some o | Finished _ => None end.
Definition call_ok s (c : call E) : Prop :=
  match c with
  | Calling opts => is_action (Action opts) = true
  | Waiting opts _ t => is_action (Action opts) = true ∧ (t < length (heap s))%nat
  | Owning opts => is_action (Action opts) = true ∧ TargetState (Action opts) = sstate s
  | Finished _ => True
  end.

Record sys_inv s : Prop := {
  si_calls : Forall (call_ok s) (calls_ s);
  si_heap t (o : ErrorOnce E) : heap s !! t = Some o → transition (box s) = Some t ∨ ∃ r, o = mkSetOnce true (Some (inr r));
  si_end : leaving (sstate s) = true → EndTime (data_ (box s)) ≤ clock s;
  si_tr : match transition (box s) with
          | None => owners s = 0%nat
          | Some t => sstate s ≠ StateRunning ∧
              ((heap s !! t = Some NewErrorOnce ∧ owners s = 1%nat) ∨
               (∃ e, heap s !! t = Some (mkSetOnce true (Some (inr (Some e)))) ∧ owners s = 0%nat ∧
                     leaving (sstate s) = true))
          end;
}.

Lemma call_ok_mono s s' c : call_ok s c → (length (heap s) ≤ length (heap s'))%nat →
  (is_owner c = true → sstate s' = sstate s) → call_ok s' c.
Proof. destruct c; simpl; [done| |intros [? ->] _ Hst; split; [done|]; symmetry; by apply Hst|done]. intros [? ?] ? _. split; [done|lia]. Qed.

Lemma no_owners s c : owners s = 0%nat → c ∈ calls_ s → is_owner c = false.
Proof.
  intros Ho Hin. apply list_elem_of_lookup_1 in Hin as [i Hi]. destruct (is_owner c) eqn:Ec; [|done].
  pose proof (count_if_pos is_owner (calls_ s) i c Hi Ec). unfold owners in Ho. lia.
Qed.
Lemma sole_owner s i c : owners s = 1%nat → calls_ s !! i = Some c → is_owner c = true →
  ∀ c' x, is_owner c' = false → x ∈ <[i := c']> (calls_ s) → is_owner x = false.
Proof.
  intros Ho Hi Hc c' x Hc' Hx. pose proof (count_if_insert is_owner (calls_ s) i c c' Hi) as Hn.
  unfold owners in Ho. rewrite Ho, Hc, Hc' in Hn. apply list_elem_of_lookup_1 in Hx as [j Hj].
  destruct (is_owner x) eqn:Ex; [|done]. pose proof (count_if_pos is_owner _ _ _ Hj Ex). lia.
Qed.

(** Replacing a call that is not an owner by another that is not. *)
Lemma owners_insert s i c c' : calls_ s !! i = Some c → is_owner c = false → is_owner c' = false →
  count_if is_owner (<[i := c']> (calls_ s)) = owners s.
Proof. intros Hi Hc Hc'. pose proof (count_if_insert is_owner _ _ _ c' Hi) as Hn. rewrite Hc, Hc' in Hn. unfold owners. lia. Qed.

Lemma sys_inv_calls s cs : sys_inv s → Forall (call_ok s) cs → count_if is_owner cs = owners s →
  sys_inv (mkSys (box s) (heap s) (clock s) cs).
Proof. intros [Hc Hh He Ht] Hok Ho. split; unfold owners, sstate in *; cbn [box heap clock calls_] in *; rewrite ?Ho; done. Qed.

Lemma after_wait_ok s opts cur t werr : call_ok s (Waiting opts cur t) →
  call_ok s (after_wait opts cur werr) ∧ is_owner (after_wait opts cur werr) = false.
Proof. intros [Ha _]. unfold after_wait. destruct werr; [done|]. case_bool_decide; [done|]. by destruct (AllowedTransitions _ _). Qed.

Lemma call_lookup_ok s i c : sys_inv s → calls_ s !! i = Some c → call_ok s c.
Proof. intros Hi Hc. by eapply Forall_lookup_1; [apply si_calls|]. Qed.

(** Steps that only change the sandbox's data, not its state. *)
Lemma sys_inv_data s data now : sys_inv s → SState data = sstate s →
  (leaving (sstate s) = true → EndTime data ≤ now) →
  sys_inv (mkSys (mkMemory data (transition (box s))) (heap s) now (calls_ s)).
Proof.
  intros [Hc Hh He Ht] Hst Hend. split; unfold owners, sstate in *; cbn in *; [|done|by rewrite Hst|by rewrite Hst].
  eapply Forall_impl; [exact Hc|]. intros c Hok. eapply call_ok_mono; [exact Hok|done|]. intros _. exact Hst.
Qed.

Lemma enter_inv s i opts now now' b h (c : call E) :
  sys_inv s → calls_ s !! i = Some (Calling opts) → clock s ≤ now ≤ now' →
  start_enter (box s) (heap s) opts now now' = (b, h, c) →
  sys_inv (mkSys b h now' (<[i := c]> (calls_ s))).
Proof.
  intros Hinv Hi Hn Hs. pose proof (call_lookup_ok _ _ _ Hinv Hi) as Hact. cbn in Hact.
  destruct (start_enter_spec _ _ _ _ _ _ _ _ Hs) as [(-> & -> & Hc)|(Htr & Hal & -> & -> & _ & ->)].
  - assert (call_ok s c ∧ is_owner c = false) as [Hok Ho].
    { destruct c; try done. destruct Hc as (-> & Ht & _). split; [|done]. split; [done|].
      pose proof (si_tr _ Hinv) as Hx. rewrite Ht in Hx.
      destruct Hx as (_ & [[Hx _]|(e & Hx & _)]); eapply lookup_lt_Some, Hx. }
    apply (sys_inv_calls s) with (cs := <[i := c]> (calls_ s)) in Hinv.
    + destruct Hinv as [Hc' Hh He Ht]. split; unfold sstate in *; cbn in *; [done..| |done]. intros Hl. specialize (He Hl). lia.
    + by apply Forall_insert; [apply si_calls|].
    + by eapply owners_insert.
  - assert (owners s = 0%nat) as Hno. { pose proof (si_tr _ Hinv) as Hx. by rewrite Htr in Hx. }
    split; cbn [box heap clock calls_ transition].
    + apply Forall_insert; [|by split]. apply Forall_forall. intros x Hx.
      eapply call_ok_mono; [by eapply Forall_forall; [apply si_calls|]|cbn; rewrite length_app; lia|].
      intros Hox. by rewrite (no_owners _ _ Hno Hx) in Hox.
    + intros t o. rewrite lookup_app. destruct (heap s !! t) as [o'|] eqn:Et.
      * intros Ho; simplify_eq. destruct (si_heap _ Hinv _ _ Et) as [Hx|Hx]; [by rewrite Htr in Hx|by right].
      * intros Ho. apply lookup_ge_None in Et. left. f_equal.
        assert (t - length (heap s) = 0)%nat as Hz; [|lia].
        destruct (t - length (heap s))%nat; [done|by destruct n].
    + unfold sstate. cbn. intros Hl. destruct (Effect (Action opts)) eqn:Ef; [rewrite expire_end; lia|].
      destruct (Action opts) as [[] []]; simpl in *; done.
    + split; [unfold sstate; cbn; by destruct (Action opts) as [[] []]|]. left. split.
      * rewrite lookup_app_r, Nat.sub_diag by lia. done.
      * unfold owners in *. cbn [calls_]. pose proof (count_if_insert is_owner _ _ _ (Owning opts : call E) Hi) as Hx. cbn in Hx. lia.
Qed.

(** The owner's callback: it never meets a missing transition. *)
Lemma callback_spec s i opts err : sys_inv s → calls_ s !! i = Some (Owning opts) →
  ∃ t, transition (box s) = Some t ∧ heap s !! t = Some NewErrorOnce ∧ owners s = 1%nat ∧
  let err' := match Effect (Action opts) with TransitionExpires => err | TransitionTransient => None end in
  transition_callback (box s) (heap s) opts err =
    Ok (mkMemory (if decide (Effect (Action opts) = TransitionTransient ∧ err = None)
                  then with_state (data_ (box s)) StateRunning else data_ (box s))
                 (match err' with Some _ => Some t | None => None end),
        <[t := mkSetOnce true (Some (inr err'))]> (heap s)).
Proof.
  intros Hinv Hi. pose proof (count_if_pos is_owner _ _ _ Hi eq_refl) as Hpos.
  pose proof (si_tr _ Hinv) as Htr. destruct (call_lookup_ok _ _ _ Hinv Hi) as [Ha Ht].
  destruct (transition (box s)) as [t|] eqn:Et; [|unfold owners in Htr; lia].
  destruct Htr as (_ & [[Hh Ho]|(e & _ & Ho & _)]); [|unfold owners in Ho; lia].
  exists t. split_and!; [done..|]. unfold transition_callback. rewrite Et. unfold sstate in Ht.
  assert (∀ e, alter (λ o : ErrorOnce E, (EO_SetError o e).1) t (heap s) = <[t := mkSetOnce true (Some (inr e))]> (heap s)) as Hal.
  { intros e. apply list_eq. intros j. destruct (decide (t = j)) as [<-|].
    - rewrite list_lookup_insert_eq by (by eapply lookup_lt_Some).
      etrans; [apply list_lookup_alter_eq|]. etrans; [apply (f_equal (fmap _) Hh)|]. done.
    - by rewrite list_lookup_alter_ne, list_lookup_insert_ne. }
  destruct (Effect (Action opts)).
  - rewrite decide_False by naive_solver. by rewrite Hal.
  - rewrite (bool_decide_eq_true_2 (SState _ = _)) by done. rewrite Hal, andb_true_r. destruct err; [|done].
    by rewrite decide_False by naive_solver.
Qed.

Lemma finish_inv s i opts err b h :
  sys_inv s → calls_ s !! i = Some (Owning opts) → transition_callback (box s) (heap s) opts err = Ok (b, h) →
  sys_inv (mkSys b h (clock s) (<[i := Finished Completed]> (calls_ s))).
Proof.
  intros Hinv Hi Hcb. destruct (callback_spec s i opts err Hinv Hi) as (t & Ht & Hh & Ho & Hspec).
  rewrite Hspec in Hcb. injection Hcb as <- <-. destruct (call_lookup_ok _ _ _ Hinv Hi) as [Ha Hst].
  pose proof (sole_owner s i _ Ho Hi eq_refl (Finished Completed)) as Hsole.
  assert (count_if is_owner (<[i := Finished Completed]> (calls_ s)) = 0%nat) as Hzero.
  { pose proof (count_if_insert is_owner _ _ _ (Finished Completed : call E) Hi) as Hx. unfold owners in Ho. cbn in Hx. lia. }
  assert (t < length (heap s))%nat as Hlt by by eapply lookup_lt_Some.
  split; cbn [box heap clock calls_ transition].
  - apply Forall_forall. intros x Hx. assert (call_ok s x) as Hok.
    { eapply Forall_forall; [|exact Hx]. by apply Forall_insert; [apply si_calls|]. }
    eapply call_ok_mono; [exact Hok|cbn; by rewrite length_insert|]. intros Hox. by rewrite (Hsole x eq_refl Hx) in Hox.
  - intros t' o. destruct (decide (t' = t)) as [->|].
    + rewrite list_lookup_insert_eq by done. intros [= <-]. by right; eexists.
    + rewrite list_lookup_insert_ne by done. intros Ho'. destruct (si_heap _ Hinv _ _ Ho') as [Hx|]; [|by right].
      rewrite Ht in Hx. by injection Hx as <-.
  - intros Hl. case_decide as Hd; [done|]. by apply (si_end _ Hinv).
  - destruct (Effect (Action opts)) eqn:Ef; [|done]. destruct err as [e|]; [|done].
    rewrite decide_False by naive_solver. pose proof (si_tr _ Hinv) as Hx. rewrite Ht in Hx. destruct Hx as [Hr _].
    split; [exact Hr|]. right. exists e. split_and!; [by rewrite list_lookup_insert_eq|exact Hzero|].
    unfold sstate in *. cbn. rewrite <-Hst. by destruct (Action opts) as [[] []].
Qed.

Lemma sys_step_inv s l s' : sys_inv s → sys_step s l = Some s' → sys_inv s'.
Proof.
  intros Hinv Hs. destruct l as [opts|i now now'|i|i e|i err|now since d sh|now]; cbn [sys_step] in Hs.
  - destruct (is_action (Action opts)) eqn:Ea; [|done]. injection Hs as <-. apply sys_inv_calls; [done| |].
    + apply Forall_app. split; [apply (si_calls _ Hinv)|by constructor].
    + rewrite count_if_snoc. simpl. unfold owners. lia.
  - destruct (calls_ s !! i) as [[opts| | |]|] eqn:Ei; try done.
    destruct ((clock s <=? now) && (now <=? now')) eqn:Eb; [|done].
    destruct (start_enter _ _ _ _ _) as [[b h] c] eqn:Es. injection Hs as <-. eapply enter_inv; [done..| |done]. lia.
  - destruct (calls_ s !! i) as [[|opts cur t| |]|] eqn:Ei; try done. destruct (_ ≫= _) as [werr|]; [|done].
    injection Hs as <-. destruct (after_wait_ok s opts cur t werr) as [? ?]; [by eapply call_lookup_ok|].
    apply sys_inv_calls; [done|by apply Forall_insert; [apply si_calls|]|by eapply owners_insert].
  - destruct (calls_ s !! i) as [[|opts cur t| |]|] eqn:Ei; try done.
    injection Hs as <-. destruct (after_wait_ok s opts cur t (Some e)) as [? ?]; [by eapply call_lookup_ok|].
    apply sys_inv_calls; [done|by apply Forall_insert; [apply si_calls|]|by eapply owners_insert].
  - destruct (calls_ s !! i) as [[| |opts|]|] eqn:Ei; try done.
    destruct (transition_callback _ _ _ _) as [[b h]| |] eqn:Ec; try done. injection Hs as <-. by eapply finish_inv.
  - destruct (Z.leb_spec (clock s) since); [|done].
    assert (sys_inv (mkSys (box s) (heap s) since (calls_ s))) as Hsame.
    { destruct s as [[data tr] h c cs]. apply (sys_inv_data _ data since Hinv eq_refl). intros Hl.
      pose proof (si_end _ Hinv Hl). simpl in *. lia. }
    destruct (keep_alive now since d sh (data_ (box s))) as [data|e|] eqn:Ek; injection Hs as <-; [|done..].
    destruct (keep_alive_state _ _ _ _ _ _ Ek) as [E1 E2]. apply sys_inv_data; [done|unfold sstate; congruence|].
    unfold sstate. rewrite E1. done.
  - destruct (Z.leb_spec (clock s) now); [|done]. injection Hs as <-.
    apply sys_inv_data; [done|by rewrite expire_state|]. rewrite expire_end. lia.
Qed.
Lemma sys_run_inv s ls s' : sys_inv s → sys_run s ls = Some s' → sys_inv s'.
Proof.
  revert s. induction ls as [|l ls IH]; intros s Hinv Hs; cbn in Hs; [by injection Hs as <-|].
  destruct (sys_step s l) as [s1|] eqn:El; [|done]. eapply IH; [|exact Hs]. by eapply sys_step_inv.
Qed.
Lemma sys_init_inv data now : SState data = StateRunning → sys_inv (sys_init data now : sys ID Rest E).
Proof. intros Hr. split; unfold sstate; cbn; [constructor|done| |done]. by rewrite Hr. Qed.
(** An owner always takes the sandbox out of the store, and only then completes
    the transition, whatever the node answered; a caller that found the work
    done touches nothing. *)
Lemma RemoveSandbox_owner opts st effects (err : option (node_error (E := E))) :
  ∃ done_ r, RemoveSandbox opts st (Completed : outcome E) (effects, err) = (done_, r) ∧
    done_ = effects ++ [StoreRemove; Analytics; CountersRemove; Finish err] ∧ (r = None ↔ err = None).
Proof. do 2 eexists. split; [done|]. split; [done|]. by destruct err. Qed.

Lemma start_enter_state sbx heap opts now now' b h (c : call E) :
  start_enter sbx heap opts now now' = (b, h, c) →
  SState (data_ b) = SState (data_ sbx) ∨ AllowedTransitions (SState (data_ sbx)) (SState (data_ b)) = true.
Proof.
  intros Hs. destruct (start_enter_spec _ _ _ _ _ _ _ _ Hs) as [(-> & _)|(_ & Hal & _ & _ & _ & ->)]; [by left|by right].
Qed.

(** A step changes the state along [AllowedTransitions], if at all. *)
Lemma sys_step_state s l s' : sys_inv s → sys_step s l = Some s' →
  sstate s' = sstate s ∨ AllowedTransitions (sstate s) (sstate s') = true.
Proof.
  intros Hinv Hs. unfold sstate. destruct l as [opts|i now now'|i|i e|i err|now since d sh|now]; cbn [sys_step] in Hs.
  - destruct (is_action (Action opts)); [|done]. injection Hs as <-. by left.
  - destruct (calls_ s !! i) as [[opts| | |]|]; try done. destruct (_ && _); [|done].
    destruct (start_enter _ _ _ _ _) as [[b h] c] eqn:Es. injection Hs as <-. by eapply start_enter_state.
  - destruct (calls_ s !! i) as [[|opts cur t| |]|]; try done. destruct (_ ≫= _); [|done]. injection Hs as <-. by left.
  - destruct (calls_ s !! i) as [[|opts cur t| |]|]; try done. injection Hs as <-. by left.
  - destruct (calls_ s !! i) as [[| |opts|]|] eqn:Ei; try done.
    destruct (callback_spec s i opts err Hinv Ei) as (t & _ & _ & _ & Hc). rewrite Hc in Hs. injection Hs as <-. cbn.
    case_decide as Hd; [|by left]. destruct (call_lookup_ok _ _ _ Hinv Ei) as [Ha Ht]. unfold sstate in Ht. rewrite <-Ht.
    right. destruct Hd as [Hd _]. by destruct (Action opts) as [[] []].
  - destruct (_ <=? _); [|done]. left.
    destruct (keep_alive now since d sh (data_ (box s))) as [data|e|] eqn:Ek; injection Hs as <-; [|done..].
    destruct (keep_alive_state _ _ _ _ _ _ Ek). cbn. congruence.
  - destruct (_ <=? _); [|done]. injection Hs as <-. left. cbn. apply expire_state.
Qed.

Lemma leaving_step st st' : leaving st = true → st' = st ∨ AllowedTransitions st st' = true →
  leaving st' = true ∧ (st = StateKilling → st' = StateKilling).
Proof. intros Hl [->|Ha]; [done|]. by destruct st, st'. Qed.

Lemma sys_run_leaving s ls s' : sys_inv s → leaving (sstate s) = true → sys_run s ls = Some s' →
  leaving (sstate s') = true ∧ (sstate s = StateKilling → sstate s' = StateKilling) ∧ EndTime (data_ (box s')) ≤ clock s'.
Proof.
  revert s. induction ls as [|l ls IH]; intros s Hinv Hl Hs; cbn in Hs.
  - injection Hs as <-. split_and!; [done..|]. by apply (si_end _ Hinv).
  - destruct (sys_step s l) as [s1|] eqn:El; [|done]. pose proof (sys_step_inv _ _ _ Hinv El) as Hinv1.
    destruct (leaving_step _ _ Hl (sys_step_state _ _ _ Hinv El)) as [Hl1 Hk1].
    destruct (IH _ Hinv1 Hl1 Hs) as (? & ? & ?). split_and!; auto.
Qed.

(** A failed transition is for ever. *)
Definition failed_with (t : nat) (e : E) (st : State) s : Prop :=
  transition (box s) = Some t ∧ heap s !! t = Some (mkSetOnce true (Some (inr (Some e)))) ∧ sstate s = st.
Lemma failed_no_owner t e st s : sys_inv s → failed_with t e st s → owners s = 0%nat ∧ leaving st = true.
Proof.
  intros Hinv (Ht & Hh & <-). pose proof (si_tr _ Hinv) as Hx. rewrite Ht in Hx.
  destruct Hx as (_ & [[Hh' _]|(e' & _ & ? & ?)]); [|done].
  pose proof (eq_trans (eq_sym Hh) Hh') as Hx. by injection Hx.
Qed.
Lemma sys_step_failed t e st s l s' : sys_inv s → failed_with t e st s → sys_step s l = Some s' → failed_with t e st s'.
Proof.
  intros Hinv Hf Hs. destruct (failed_no_owner _ _ _ _ Hinv Hf) as [Hno _]. destruct Hf as (Ht & Hh & Hst).
  unfold sstate in Hst. destruct l as [opts|i now now'|i|i e'|i err|now since d sh|now]; cbn [sys_step] in Hs.
  - destruct (is_action (Action opts)); [|done]. by injection Hs as <-.
  - destruct (calls_ s !! i) as [[opts| | |]|]; try done. destruct (_ && _); [|done].
    destruct (start_enter _ _ _ _ _) as [[b h] c] eqn:Es. injection Hs as <-.
    destruct (start_enter_spec _ _ _ _ _ _ _ _ Es) as [(-> & -> & _)|(Htr & _)]; [done|congruence].
  - destruct (calls_ s !! i) as [[|opts cur u| |]|]; try done. destruct (_ ≫= _); [|done]. by injection Hs as <-.
  - destruct (calls_ s !! i) as [[|opts cur u| |]|]; try done. by injection Hs as <-.
  - destruct (calls_ s !! i) as [[| |opts|]|] eqn:Ei; try done. apply list_elem_of_lookup_2 in Ei.
    by apply (no_owners _ _ Hno) in Ei.
  - destruct (_ <=? _); [|done].
    destruct (keep_alive now since d sh (data_ (box s))) as [data|e'|] eqn:Ek; injection Hs as <-; [|done..].
    destruct (keep_alive_state _ _ _ _ _ _ Ek). split_and!; [done..|]. unfold sstate. cbn. congruence.
  - destruct (_ <=? _); [|done]. injection Hs as <-. split_and!; [done..|]. unfold sstate. cbn. by rewrite expire_state.
Qed.
Lemma sys_run_failed t e s ls s' : sys_inv s → transition (box s) = Some t →
  heap s !! t = Some (mkSetOnce true (Some (inr (Some e)))) → sys_run s ls = Some s' →
  owners s' = 0%nat ∧ sstate s' = sstate s.
Proof.
  intros Hinv Ht Hh Hs. assert (failed_with t e (sstate s) s) as Hf by done.
  generalize dependent (sstate s). intros st Hf. clear Ht Hh. revert s Hinv Hf Hs.
  induction ls as [|l ls IH]; intros s Hinv Hf Hs; cbn in Hs.
  - injection Hs as <-. split; [by eapply failed_no_owner|by destruct Hf as (_ & _ & ?)].
  - destruct (sys_step s l) as [s1|] eqn:El; [|done]. eapply IH; [by eapply sys_step_inv| |done]. by eapply sys_step_failed.
Qed.
End removal_laws.

(** ** Properties *)
Section removal_properties.
Context {ID Rest E : Type}.
Implicit Types (data : Sandbox ID Rest) (s : sys ID Rest E) (ls : list (label E)).

(** C6: however removals, snapshots, keep-alives, node syncs and cancellations of
    one sandbox interleave, at most one caller owns its transition; the owner's
    callback never dereferences a missing transition; a caller that waits can
    wake up now or there is an owner whose callback will wake it; and the state
    only ever changes along [AllowedTransitions]. *)
Theorem removal_exclusive data now ls s :
  SState data = StateRunning → sys_run (sys_init data now) ls = Some s →
  (owners s ≤ 1)%nat ∧
  (∀ i opts err, calls_ s !! i = Some (Owning opts) → ∃ r, transition_callback (box s) (heap s) opts err = Ok r) ∧
  (∀ i opts cur t, calls_ s !! i = Some (Waiting opts cur t) → is_Some (sys_step s (LWake i)) ∨ owners s = 1%nat) ∧
  (∀ l s', sys_step s l = Some s' → sstate s' = sstate s ∨ AllowedTransitions (sstate s) (sstate s') = true).
Proof.
  intros Hr Hs. assert (sys_inv s) as Hinv by (eapply sys_run_inv; [by apply sys_init_inv|done]). split_and!.
  - pose proof (si_tr _ Hinv) as Ht. destruct (transition (box s)); [|lia].
    destruct Ht as (_ & [[_ ->]|(e & _ & -> & _)]); lia.
  - intros i opts err Hi. destruct (callback_spec s i opts err Hinv Hi) as (t & _ & _ & _ & Hc). eauto.
  - intros i opts cur t Hi. destruct (call_lookup_ok _ _ _ Hinv Hi) as [_ Hlt].
    destruct (lookup_lt_is_Some_2 _ _ Hlt) as [o Ho]. cbn [sys_step]. rewrite Hi, Ho.
    destruct (si_heap _ Hinv _ _ Ho) as [Htr|(r & ->)]; [|left; eauto].
    pose proof (si_tr _ Hinv) as Hx. rewrite Htr in Hx. destruct Hx as (_ & [[_ ->]|(e & Hh & _)]); [by right|left].
    pose proof (eq_trans (eq_sym Ho) Hh) as E1. injection E1 as ->. eauto.
  - intros l s' Hl. by eapply sys_step_state.
Qed.

(** C7: once a sandbox is being paused or killed there is no way back: it stays
    on its way out (and a kill stays a kill), its end time is never moved past the
    present again, so no keep-alive can revive it; and if its transition failed,
    nobody ever owns a transition of this sandbox again. *)
Theorem removal_irreversible data now ls s ls' s' :
  SState data = StateRunning → sys_run (sys_init data now) ls = Some s →
  leaving (sstate s) = true → sys_run s ls' = Some s' →
  leaving (sstate s') = true ∧ (sstate s = StateKilling → sstate s' = StateKilling) ∧
  EndTime (data_ (box s')) ≤ clock s' ∧
  (∀ t e, transition (box s) = Some t → heap s !! t = Some (mkSetOnce true (Some (inr (Some e)))) →
     owners s' = 0%nat ∧ sstate s' = sstate s).
Proof.
  intros Hr Hs Hl Hs'. assert (sys_inv s) as Hinv by (eapply sys_run_inv; [by apply sys_init_inv|done]).
  destruct (sys_run_leaving _ _ _ Hinv Hl Hs') as (Hl' & Hk & He). split_and!; [done..|].
  intros t e Ht Hh. by eapply sys_run_failed.
Qed.

(** An eviction takes a sandbox exactly when, inside the critical section, no
    transition is under way, the end time has passed and the state allows it; in
    every other case (a keep-alive came first, somebody else is removing it) the
    sandbox and its transitions are left as they were. *)
Theorem eviction_guarded s i opts now now' s' :
  calls_ s !! i = Some (Calling opts) → Eviction opts = true →
  sys_step s (LEnter i now now') = Some s' →
  (calls_ s' !! i = Some (Owning opts) ↔
     transition (box s) = None ∧ EndTime (data_ (box s)) < now ∧
     AllowedTransitions (sstate s) (TargetState (Action opts)) = true) ∧
  (calls_ s' !! i ≠ Some (Owning opts) → box s' = box s ∧ heap s' = heap s) ∧
  (calls_ s' !! i = Some (Owning opts) → sstate s' = TargetState (Action opts) ∧ owners s' = S (owners s)).
Proof.
  intros Hi Hev Hs. cbn [sys_step] in Hs. rewrite Hi in Hs. destruct (_ && _); [|done].
  destruct (start_enter _ _ _ _ _) as [[b h] c] eqn:Es. injection Hs as <-. cbn [calls_ box heap].
  pose proof (lookup_lt_Some _ _ _ Hi) as Hlt. rewrite list_lookup_insert_eq by done.
  pose proof (count_if_insert is_owner _ _ _ c Hi) as Hcount.
  destruct (start_enter_spec _ _ _ _ _ _ _ _ Es) as [(-> & -> & Hc)|(Htr & Hal & -> & -> & Hex & ->)].
  - assert (Some c ≠ Some (Owning opts)) as Hno by (intros [= ->]; done).
    split_and!; [split; [done|]|done|done]. intros (Htr & Hex & Hal). exfalso. apply Hno. f_equal.
    unfold start_enter, IsExpired, time_After, sstate in *. rewrite Hev, Htr in Es. cbn in Es.
    destruct (Z.ltb_spec (EndTime (data_ (box s))) now); [|lia]. cbn in Es.
    case_bool_decide as Hsame; [rewrite Hsame in Hal; by destruct (TargetState (Action opts))|].
    rewrite Hal in Es. cbn in Es. destruct (Effect (Action opts)); by injection Es.
  - specialize (Hex Hev). unfold IsExpired, time_After in Hex. apply Z.ltb_lt in Hex.
    split_and!; [done|done|]. intros _. split; [done|]. unfold owners. cbn [is_owner calls_] in *. lia.
Qed.
End removal_properties.

Definition ex_sandbox : Sandbox nat () := NewSandbox "sbx" 1%nat "node" 100 0 50 false ().
(** A pause is refused by the node while a kill waits for it. *)
Definition ex_removal : list (label nat) :=
  [LCall (mkOpts StateActionPause false); LCall (mkOpts StateActionKill false); LEnter 0 10 10; LEnter 1 11 11;
   LKeepAlive 12 12 60 true; LFinish 0 (Some 7%nat)].
Definition ex_failed : sys nat () nat :=
  default (sys_init ex_sandbox 0) (sys_run (sys_init ex_sandbox 0) ex_removal).

Lemma removal_exclusive_witness :
  (owners ex_failed ≤ 1)%nat ∧
  (is_Some (sys_step ex_failed (LWake 1)) ∨ owners ex_failed = 1%nat).
Proof.
  destruct (removal_exclusive ex_sandbox 0 ex_removal ex_failed) as (E1 & _ & E2 & _); [done|by vm_compute|].
  split; [exact E1|]. by apply (E2 1%nat (mkOpts StateActionKill false) StatePausing 0%nat).
Defined.

Definition ex_later : sys nat () nat :=
  default ex_failed (sys_run ex_failed
    [LWake 1; LCall (mkOpts StateActionKill false); LEnter 2 20 20; LKeepAlive 21 21 60 true]).

Lemma removal_irreversible_witness : leaving (sstate ex_later) = true ∧ owners ex_later = 0%nat.
Proof.
  destruct (removal_irreversible ex_sandbox 0 ex_removal ex_failed
    [LWake 1; LCall (mkOpts StateActionKill false); LEnter 2 20 20; LKeepAlive 21 21 60 true] ex_later) as (E1 & _ & _ & E2);
    [done|by vm_compute|by vm_compute|by vm_compute|].
  split; [exact E1|]. by apply (E2 0%nat 7%nat).
Defined.

Definition ex_expired : sys nat () nat := mkSys (newMemorySandbox ex_sandbox) [] 0 [Calling (evict_opts false)].
Lemma eviction_guarded_witness :
  calls_ (default ex_expired (sys_step ex_expired (LEnter 0 60 60))) !! 0%nat = Some (Owning (evict_opts false)).
Proof.
  destruct (eviction_guarded ex_expired 0 (evict_opts false) 60 60
    (default ex_expired (sys_step ex_expired (LEnter 0 60 60)))) as [E1 _]; [by vm_compute..|].
  apply E1. by split_and!.
Defined.
