(* ===== verification/SandboxStore.v ===== *)
(** * The sandbox store

    packages/api/internal/sandbox: [store.go]; storage/memory: [main.go],
    [operations.go] (all but the body of [startRemoving], see Removal.v) and
    [sync.go]; [KeepAliveFor] of packages/api/internal/orchestrator:
    [keep_alive.go] and the evictor's round.

    The memory storage maps a sandbox's ID to a [*memorySandbox]; the pointers are
    indices into [objs], the objects allocated so far, so a caller that holds a
    sandbox keeps it after it is removed from the map.  The map is the concurrent
    map of Smap.v; [IterCb] visits the entries in an order of its own. *)
From S2P Require Import Prelude Smap SyncUtils SandboxState Removal Reservations.

Section storage.
Context {M : Type → Type} `{CMapOps M} {ID Rest E : Type} `{Countable ID}.
Abbreviation Sandbox := (Sandbox ID Rest).
Abbreviation memorySandbox := (memorySandbox ID Rest).

Record Storage := mkStorage {
  items : M nat;
  objs : list memorySandbox;
  onces : list (ErrorOnce E);     (** the transitions' [ErrorOnce]s *)
}.
Definition NewStorage : Storage := mkStorage cm_new [] [].
Definition with_objs (s : Storage) (os : list memorySandbox) : Storage := mkStorage (items s) os (onces s).

Inductive storage_error := NotFound | AlreadyExists.

Definition S_Add (s : Storage) (sbx : Sandbox) : Storage * option storage_error :=
  let '(m, added) := cm_set_if_absent (items s) (SandboxID sbx) (length (objs s)) in
  (mkStorage m (objs s ++ [newMemorySandbox sbx]) (onces s), if (added : bool) then None else Some AlreadyExists).

Definition S_exists (s : Storage) (sandboxID : string) : bool := cm_has (items s) sandboxID.
Definition S_get (s : Storage) (sandboxID : string) : option nat := cm_get (items s) sandboxID.
(** the object an ID leads to *)
Definition S_item (s : Storage) (sandboxID : string) : option memorySandbox := S_get s sandboxID ≫= λ p, objs s !! p.

Definition S_Get (s : Storage) (teamID : ID) (sandboxID : string) : res storage_error Sandbox :=
  match S_item s sandboxID with
  | None => Err NotFound
  | Some item => if bool_decide (TeamID (Data item) = teamID) then Ok (Data item) else Err NotFound
  end.
Definition S_Remove (s : Storage) (sandboxID : string) : Storage :=
  mkStorage (cm_remove (items s) sandboxID) (objs s) (onces s).

(** The sandboxes in the order of [IterCb]. *)
Definition S_iter (s : Storage) : list (string * memorySandbox) :=
  omap (λ kp : string * nat, (λ b, (kp.1, b)) <$> objs s !! kp.2) (cm_iter (items s)).
Definition getItems (s : Storage) (teamID : option ID) (states : list State) : list Sandbox :=
  filter (λ data : Sandbox,
      match teamID with Some t => bool_decide (t = TeamID data) | None => true end
      && (bool_decide (states = []) || bool_decide (SState data ∈ states)) = true)
    ((λ kb, Data kb.2) <$> S_iter s).
Definition TeamItems (s : Storage) (teamID : ID) (states : list State) : list Sandbox := getItems s (Some teamID) states.
Definition TeamsWithSandboxCount (s : Storage) : gmap ID Z :=
  foldl (λ teams kb, <[TeamID (data_ kb.2) := i64 (default 0 (teams !! TeamID (data_ kb.2)) + 1)]> teams) ∅ (S_iter s).
Definition ExpiredItems (s : Storage) (now : Z) : list Sandbox :=
  filter (λ sbx : Sandbox, SState sbx = StateRunning ∧ IsExpired sbx now = true) ((λ kb, Data kb.2) <$> S_iter s).

Definition S_Update {F} (s : Storage) (teamID : ID) (sandboxID : string) (updateFunc : Sandbox → res F Sandbox)
    : Storage * res (storage_error + F) Sandbox :=
  match S_get s sandboxID with
  | None => (s, Err (inl NotFound))
  | Some p =>
      match objs s !! p with
      | None => (s, Panic)
      | Some item =>
          if negb (bool_decide (TeamID (data_ item) = teamID)) then (s, Err (inl NotFound))
          else match updateFunc (data_ item) with
               | Ok sbx => (with_objs s (<[p := mkMemory sbx (transition item)]> (objs s)), Ok sbx)
               | Err e => (s, Err (inr e))
               | Panic => (s, Panic)
               end
      end
  end.

(** [StartRemoving] up to the end of the first critical section. *)
Definition S_StartRemoving (s : Storage) (teamID : ID) (sandboxID : string) (opts : RemoveOpts) (now now' : Z)
    : Storage * call E :=
  match S_get s sandboxID with
  | None => (s, Finished (Failed ErrNotFound))
  | Some p =>
      match objs s !! p with
      | None => (s, Finished (Failed ErrNotFound))
      | Some sbx =>
          if negb (bool_decide (TeamID (Data sbx) = teamID)) then (s, Finished (Failed ErrNotFound))
          else
            let '(b, h, c) := start_enter sbx (onces s) opts now now' in
            (mkStorage (items s) (<[p := b]> (objs s)) h, c)
      end
  end.
Definition WaitForStateChange (s : Storage) (sandboxID : string) : res storage_error (option nat) :=
  match S_item s sandboxID with
  | None => Err NotFound
  | Some sbx => Ok (waitForStateChange sbx)
  end.

(** ** sync.go *)
Definition syncSandboxRemoveGracePeriod : Z := 10 * 1000000000.

(** Whether the callback of [IterCb] expires a sandbox; [since] is the clock of
    its [time.Since]. *)
Definition sync_gone (sandboxMap : gmap string Sandbox) (nodeID : string) (now since : Z) (data : Sandbox) : bool :=
  if IsExpired data now then false
  else if negb (bool_decide (NodeID data = nodeID)) then false
  else if time_Sub since (StartTime data) <=? syncSandboxRemoveGracePeriod then false
  else match sandboxMap !! SandboxID data with Some _ => false | None => true end.

(** [IterCb] visits a key once: [clk] gives the clocks read for it, by
    [time.Since] and by [SetExpired]. *)
Definition sync_loop (sandboxMap : gmap string Sandbox) (nodeID : string) (now : Z) (clk : string → Z * Z)
    : list memorySandbox → list (string * nat) → list memorySandbox :=
  foldl (λ os kp,
    alter (λ item, if sync_gone sandboxMap nodeID now (clk kp.1).1 (Data item) then setExpired (clk kp.1).2 item else item)
      kp.2 os).

Definition S_Sync (s : Storage) (sandboxes : list Sandbox) (nodeID : string) (now : Z) (clk : string → Z * Z)
    : Storage * list Sandbox :=
  let sandboxMap := foldl (λ m (sandbox : Sandbox), <[SandboxID sandbox := sandbox]> m) ∅ sandboxes in
  let s := with_objs s (sync_loop sandboxMap nodeID now clk (objs s) (cm_iter (items s))) in
  (s, filter (λ sandbox : Sandbox, S_exists s (SandboxID sandbox) = false) sandboxes).

(** ** store.go *)
Record Store := mkStore {
  storage : Storage;
  store_res : ReservationStorage M Sandbox E;
}.
Inductive callback_call :=
  | AddSandboxToRoutingTable (sbx : Sandbox)
  | AsyncSandboxCounter (sbx : Sandbox)
  | AsyncNewlyCreatedSandbox (sbx : Sandbox).

Definition cap_end (sandbox : Sandbox) : Sandbox :=
  if MaxInstanceLength sandbox <? time_Sub (EndTime sandbox) (StartTime sandbox)
  then with_end sandbox (time_Add (StartTime sandbox) (MaxInstanceLength sandbox)) else sandbox.

(** [team] is [teamID.String()]. *)
Context (team : ID → string).

Definition Store_Add (s : Store) (sandbox : Sandbox) (newlyCreated : bool) : Store * list callback_call :=
  let sandbox := cap_end sandbox in
  let '(st, err) := S_Add (storage s) sandbox in
  let calls := match err with
               | None => [AddSandboxToRoutingTable sandbox; AsyncSandboxCounter sandbox]
               | Some _ => []
               end in
  let '(r, reserved) := Reserve (store_res s) (team (TeamID sandbox)) (SandboxID sandbox) (-1) in
  let r := match reserved with
           | FinishStart p => finishStart r (team (TeamID sandbox)) (SandboxID sandbox) p sandbox None
           | _ => r
           end in
  (mkStore st r, calls ++ if newlyCreated then [AsyncNewlyCreatedSandbox sandbox] else []).

Definition Store_Remove (s : Store) (teamID : ID) (sandboxID : string) : Store :=
  mkStore (S_Remove (storage s) sandboxID) (ResRelease (store_res s) (team teamID) sandboxID).

Definition Store_Sync (s : Store) (sandboxes : list Sandbox) (nodeID : string) (now : Z) (clk : string → Z * Z)
    : Store * list callback_call :=
  let '(st, sbxs) := S_Sync (storage s) sandboxes nodeID now clk in
  foldl (λ '(s, cs) sbx, let '(s, c) := Store_Add s sbx false in (s, cs ++ c)) (mkStore st (store_res s), []) sbxs.

Definition Store_Reserve (s : Store) (teamID : ID) (sandboxID : string) (limit : Z) : Store * reserve_result :=
  let '(r, reserved) := Reserve (store_res s) (team teamID) sandboxID limit in (mkStore (storage s) r, reserved).

(** ** keep_alive.go; [node] is the error of [UpdateSandbox], [true] for
    [ErrSandboxNotFound] *)
Inductive keep_alive_api_error := StatusConflict (st : State) | StatusNotFound | StatusBadRequest | StatusInternal.
Definition KeepAliveFor (s : Storage) (teamID : ID) (sandboxID : string) (now since duration : Z) (allowShorter : bool)
    (node : option bool) : Storage * res keep_alive_api_error Sandbox :=
  let '(s, r) := S_Update s teamID sandboxID (keep_alive now since duration allowShorter) in
  (s, match r with
      | Err (inr (NotRunning st)) => Err (StatusConflict st)
      | Err (inl NotFound) => Err StatusNotFound
      | Err (inr MaxInstanceLengthExceeded) => Err StatusBadRequest
      | Err (inl AlreadyExists) => Err StatusInternal
      | Panic => Panic
      | Ok sbx => match node with
                  | Some true => Err StatusNotFound
                  | Some false => Err StatusInternal
                  | None => Ok sbx
                  end
      end).

(** One tick of the evictor: what it asks [RemoveSandbox] for. *)
Definition evict_round (s : Storage) (now : Z) : list (ID * string * RemoveOpts) :=
  (λ item, (TeamID item, SandboxID item, evict_opts (AutoPause item))) <$> ExpiredItems s now.
End storage.

Arguments Storage : clear implicits.
Arguments Store : clear implicits.

Section store_laws.
Context {M : Type → Type} `{CMapLaws M} {ID Rest E : Type} `{Countable ID}.
Implicit Types (s : Storage M ID Rest E) (x : Sandbox ID Rest).

(** Every ID of the map leads to an object, that carries it. *)
Definition storage_wf s : Prop :=
  ∀ id p, cm_items (items s) !! id = Some p → ∃ b, objs s !! p = Some b ∧ SandboxID (data_ b) = id.

Lemma S_item_eq s id : S_item s id = cm_items (items s) !! id ≫= λ p, objs s !! p.
Proof using All. unfold S_item, S_get. by rewrite cm_get_items. Qed.

Lemma storage_wf_new : storage_wf NewStorage.
Proof using All. intros id p. cbn. rewrite cm_items_new. done. Qed.

Lemma S_item_get s id p b : storage_wf s → cm_items (items s) !! id = Some p → objs s !! p = Some b → S_item s id = Some b.
Proof using All. intros _ Hp Hb. by rewrite S_item_eq, Hp. Qed.
Lemma S_item_none s id : storage_wf s → S_item s id = None ↔ cm_items (items s) !! id = None.
Proof using All.
  intros Hwf. rewrite S_item_eq. destruct (_ !! id) as [p|] eqn:Ep; [|done]. destruct (Hwf _ _ Ep) as (b & Hb & _).
  cbn. rewrite Hb. done.
Qed.
Lemma S_item_id s id b : storage_wf s → S_item s id = Some b → SandboxID (data_ b) = id.
Proof using All.
  intros Hwf. rewrite S_item_eq. destruct (_ !! id) as [p|] eqn:Ep; [|done]. cbn. intros Hb.
  destruct (Hwf _ _ Ep) as (b' & Hb' & Hid). congruence.
Qed.

(** [Add] keeps the sandbox that is there. *)
Lemma S_Add_spec s x : storage_wf s →
  let '(s', err) := S_Add s x in
  storage_wf s' ∧
  (∀ id, S_item s' id = match S_item s id with
                        | Some b => Some b
                        | None => if decide (id = SandboxID x) then Some (newMemorySandbox x) else None
                        end) ∧
  err = match S_item s (SandboxID x) with Some _ => Some AlreadyExists | None => None end.
Proof using All.
  intros Hwf. unfold S_Add. pose proof (cm_set_if_absent_spec _ (items s) (SandboxID x) (length (objs s))) as Hs.
  destruct (cm_set_if_absent _ _ _) as [m added].
  assert (∀ p b, objs s !! p = Some b → (objs s ++ [newMemorySandbox x]) !! p = Some b) as Hold.
  { intros p b Hb. by apply lookup_app_l_Some. }
  assert ((objs s ++ [newMemorySandbox x]) !! length (objs s) = Some (newMemorySandbox x)) as Hnew.
  { by rewrite lookup_app_r, Nat.sub_diag by lia. }
  destruct (cm_items (items s) !! SandboxID x) as [p0|] eqn:Ep; destruct Hs as [-> Hm].
  - destruct (Hwf _ _ Ep) as (b0 & Hb0 & Hid0). split_and!.
    + intros id p. cbn. rewrite Hm. intros Hp. destruct (Hwf _ _ Hp) as (b & Hb & ?). eauto.
    + intros id. rewrite !S_item_eq. cbn. rewrite Hm. destruct (_ !! id) as [p|] eqn:Eid; cbn.
      * destruct (Hwf _ _ Eid) as (b & Hb & ?). by rewrite Hb, (Hold _ _ Hb).
      * rewrite decide_False; [done|]. intros ->. congruence.
    + by rewrite S_item_eq, Ep; cbn; rewrite Hb0.
  - split_and!.
    + intros id p. cbn. rewrite Hm. intros [[<- <-]|[Hne Hp]]%lookup_insert_Some; [by eexists|].
      destruct (Hwf _ _ Hp) as (b & Hb & ?). eauto.
    + intros id. rewrite !S_item_eq. cbn. rewrite Hm. case_decide as Hd.
      * subst id. rewrite lookup_insert_eq, Ep. cbn. exact Hnew.
      * rewrite lookup_insert_ne by done. destruct (_ !! id) as [p|] eqn:Eid; cbn; [|done].
        destruct (Hwf _ _ Eid) as (b & Hb & ?). by rewrite Hb, (Hold _ _ Hb).
    + by rewrite S_item_eq, Ep.
Qed.

Lemma objs_distinct s id id' p : storage_wf s →
  cm_items (items s) !! id = Some p → cm_items (items s) !! id' = Some p → id = id'.
Proof using All.
  intros Hwf E1 E2. destruct (Hwf _ _ E1) as (b & Hb & <-). destruct (Hwf _ _ E2) as (b' & Hb' & <-). congruence.
Qed.

Lemma iter_pointers_NoDup s : storage_wf s → NoDup (cm_iter (items s)).*2.
Proof using All.
  intros Hwf. rewrite (cm_iter_items _ (items s)). apply NoDup_fmap_2_strong; [|apply NoDup_map_to_list].
  intros [k1 p1] [k2 p2] E1%elem_of_map_to_list E2%elem_of_map_to_list. cbn. intros ->.
  by rewrite (objs_distinct _ _ _ _ Hwf E1 E2).
Qed.

(** The loop changes each object once. *)
Lemma sync_loop_spec mp node now clk os l :
  NoDup l.*2 →
  (∀ p, p ∉ l.*2 → sync_loop mp node now clk os l !! p = os !! p) ∧
  (∀ k p b, (k, p) ∈ l → os !! p = Some b →
     sync_loop mp node now clk os l !! p =
       Some (if sync_gone mp node now (clk k).1 (Data b) then setExpired (clk k).2 b else b) (A := memorySandbox ID Rest)).
Proof using.
  revert os. induction l as [|[k0 p0] l IH]; intros os Hnd; cbn in *.
  - split; [done|]. intros k p b Hin. by apply elem_of_nil in Hin.
  - apply NoDup_cons in Hnd as [Hni Hnd].
    destruct (IH (alter (λ item, if sync_gone mp node now (clk k0).1 (Data item) then setExpired (clk k0).2 item else item) p0 os) Hnd) as [IH1 IH2].
    split.
    + intros p Hp. apply not_elem_of_cons in Hp as [Hne Hp]. etrans; [by apply IH1|]. by apply list_lookup_alter_ne.
    + intros k p b Hin Hb. apply elem_of_cons in Hin as [[= -> ->]|Hin].
      * etrans; [by apply IH1|]. etrans; [apply list_lookup_alter_eq|]. by rewrite Hb.
      * apply (IH2 k p b Hin). rewrite list_lookup_alter_ne; [done|]. intros <-. apply Hni.
        apply list_elem_of_fmap. by exists (k, p0).
Qed.

Lemma sandboxMap_lookup (l : list (Sandbox ID Rest)) id (m : gmap string (Sandbox ID Rest)) :
  foldl (λ m x, <[SandboxID x := x]> m) m l !! id = None ↔ m !! id = None ∧ id ∉ SandboxID <$> l.
Proof using.
  revert m. induction l as [|x l IH]; intros m; cbn; [split; [intros; split; [done|apply not_elem_of_nil]|by intros [? _]]|].
  rewrite IH, not_elem_of_cons. rewrite lookup_insert_None. naive_solver.
Qed.

Definition stale (sbxs : list (Sandbox ID Rest)) (node id : string) (now since : Z) x : Prop :=
  now ≤ EndTime x ∧ NodeID x = node ∧ syncSandboxRemoveGracePeriod < time_Sub since (StartTime x) ∧
  id ∉ SandboxID <$> sbxs.
#[global] Instance stale_dec sbxs node id now since x : Decision (stale sbxs node id now since x).
Proof. unfold stale. apply _. Defined.

Lemma sync_gone_spec sbxs node now since x :
  sync_gone (foldl (λ m x, <[SandboxID x := x]> m) ∅ sbxs) node now since x =
    bool_decide (stale sbxs node (SandboxID x) now since x).
Proof using.
  unfold sync_gone, stale, IsExpired, time_After.
  pose proof (sandboxMap_lookup sbxs (SandboxID x) ∅) as Hl.
  destruct (Z.ltb_spec (EndTime x) now); [by rewrite bool_decide_eq_false_2 by (intros (? & _); lia)|].
  case_bool_decide as Hn; cbn [negb]; [|by rewrite bool_decide_eq_false_2 by naive_solver].
  destruct (Z.leb_spec (time_Sub since (StartTime x)) syncSandboxRemoveGracePeriod);
    [by rewrite bool_decide_eq_false_2 by (intros (_ & _ & ? & _); lia)|].
  destruct (_ !! SandboxID x); symmetry; [apply bool_decide_eq_false_2|apply bool_decide_eq_true_2].
  - intros (_ & _ & _ & Hni). destruct Hl as [_ Hl]. discriminate (Hl (conj (lookup_empty _) Hni)).
  - split_and!; [lia|done|lia|]. by apply Hl.
Qed.

Lemma S_Sync_spec s sbxs node now clk : storage_wf s →
  let '(s', add) := S_Sync s sbxs node now clk in
  storage_wf s' ∧
  (∀ id, S_item s' id = (λ b, if decide (stale sbxs node id now (clk id).1 (data_ b)) then setExpired (clk id).2 b else b) <$> S_item s id) ∧
  add = filter (λ x, S_item s (SandboxID x) = None) sbxs.
Proof using All.
  intros Hwf. unfold S_Sync. cbn.
  destruct (sync_loop_spec (foldl (λ m x, <[SandboxID x := x]> m) ∅ sbxs) node now clk (objs s) (cm_iter (items s))
              (iter_pointers_NoDup s Hwf)) as [_ Hin].
  assert (∀ id p b, cm_items (items s) !! id = Some p → objs s !! p = Some b →
    sync_loop (foldl (λ m x, <[SandboxID x := x]> m) ∅ sbxs) node now clk (objs s) (cm_iter (items s)) !! p =
      Some (if decide (stale sbxs node id now (clk id).1 (data_ b)) then setExpired (clk id).2 b else b)) as Hloop.
  { intros id p b Hp Hb. rewrite (Hin id p b); [|by rewrite (cm_iter_items _ (items s)), elem_of_map_to_list|done].
    rewrite sync_gone_spec. destruct (Hwf _ _ Hp) as (b' & Hb' & Hid). assert (b' = b) as -> by congruence.
    unfold Data. rewrite Hid. repeat case_decide; case_bool_decide; naive_solver. }
  split_and!.
  - intros id p Hp. cbn in *. destruct (Hwf _ _ Hp) as (b & Hb & Hid). eexists. split; [by eapply Hloop|].
    case_decide; [|done]. cbn. unfold expire. by destruct (negb _).
  - intros id. rewrite !S_item_eq. cbn. destruct (_ !! id) as [p|] eqn:Ep; [|done]. cbn.
    destruct (Hwf _ _ Ep) as (b & Hb & Hid). rewrite Hb. by apply Hloop.
  - apply list_filter_iff. intros x. unfold S_exists. cbn. rewrite cm_has_items, S_item_none by done.
    case_bool_decide as Hd; [|by rewrite eq_None_not_Some]. rewrite eq_None_not_Some. naive_solver.
Qed.
(** [Update] on every branch. *)
Lemma S_Update_spec {F} s t id (f : Sandbox ID Rest → res F (Sandbox ID Rest)) b :
  storage_wf s → S_item s id = Some b →
  (∀ x, f (data_ b) = Ok x → SandboxID x = id) →
  let '(s', r) := S_Update s t id f in
  storage_wf s' ∧ (∀ id', id' ≠ id → S_item s' id' = S_item s id') ∧
  S_item s' id = Some (match f (data_ b) with
                       | Ok x => if decide (TeamID (data_ b) = t) then mkMemory x (transition b) else b
                       | _ => b
                       end) ∧
  r = (if decide (TeamID (data_ b) = t)
       then match f (data_ b) with Ok x => Ok x | Err e => Err (inr e) | Panic => Panic end else Err (inl NotFound)).
Proof using All.
  intros Hwf Hb Hid. unfold S_Update, S_get. pose proof Hb as Hb'. rewrite S_item_eq in Hb'. rewrite cm_get_items.
  destruct (cm_items (items s) !! id) as [p|] eqn:Ep; [|done]. cbn in Hb'. rewrite Hb'.
  case_bool_decide as Ht; cbn [negb]; [rewrite decide_True by done|rewrite decide_False by done]; [|destruct (f (data_ b)); rewrite ?decide_False by done; by split_and!].
  destruct (f (data_ b)) as [x|e|] eqn:Ef; [|rewrite ?decide_True by done; by split_and!..].
  rewrite decide_True by done. pose proof (lookup_lt_Some _ _ _ Hb') as Hlt. split_and!; [| | |done].
  - intros id' p' Hp'. cbn in *. destruct (decide (p' = p)) as [->|Hne].
    + rewrite list_lookup_insert_eq by done. eexists. split; [done|]. cbn. rewrite (Hid x) by done.
      by eapply objs_distinct.
    + rewrite list_lookup_insert_ne by done. by apply Hwf.
  - intros id' Hne. rewrite !S_item_eq. cbn. destruct (_ !! id') as [p'|] eqn:Ep'; [|done]. cbn.
    apply list_lookup_insert_ne. intros <-. by apply Hne, (objs_distinct s id' id p).
  - rewrite S_item_eq. cbn. rewrite Ep. cbn. by rewrite list_lookup_insert_eq.
Qed.

(** ** The store *)
Context (team : ID → string).

Definition reserved (st : Store M ID Rest E) (t : ID) (id : string) : Prop :=
  is_Some (held (store_res st) (team t) !! id).

Lemma finishStart_none (r : ReservationStorage M (Sandbox ID Rest) E) t id p x t' :
  held (finishStart r t id p x None) t' = held r t'.
Proof using. done. Qed.

Lemma Store_Add_spec (st : Store M ID Rest E) x nc :
  storage_wf (storage st) →
  let '(st', calls) := Store_Add team st x nc in
  storage_wf (storage st') ∧
  (∀ id, S_item (storage st') id =
     match S_item (storage st) id with
     | Some b => Some b
     | None => if decide (id = SandboxID x) then Some (newMemorySandbox (cap_end x)) else None
     end) ∧
  reserved st' (TeamID x) (SandboxID x) ∧ (∀ t id, reserved st t id → reserved st' t id).
Proof using All.
  intros Hwf. unfold Store_Add.
  assert (SandboxID (cap_end x) = SandboxID x ∧ TeamID (cap_end x) = TeamID x) as [Eid Et].
  { unfold cap_end. by destruct (_ <? _). }
  pose proof (S_Add_spec (storage st) (cap_end x) Hwf) as Ha. destruct (S_Add _ _) as [s' err].
  pose proof (Reserve_spec (store_res st) (team (TeamID (cap_end x))) (SandboxID (cap_end x)) (-1)) as Hr.
  destruct (Reserve _ _ _ _) as [r o]. rewrite Eid, Et in *. destruct Ha as (Hwf' & Hit & _).
  unfold reserved. cbn [storage store_res]. split_and!; [done|done|..].
  - destruct (held (store_res st) (team (TeamID x)) !! SandboxID x) as [p|] eqn:Ep; destruct Hr as (-> & _ & Hh).
    + rewrite Hh, Ep. eauto.
    + rewrite finishStart_none, Hh, decide_True by done. rewrite lookup_insert_eq. eauto.
  - intros t id Hres. destruct (held (store_res st) (team (TeamID x)) !! SandboxID x) as [p|] eqn:Ep; destruct Hr as (-> & _ & Hh).
    + by rewrite Hh.
    + rewrite finishStart_none, Hh. case_decide as Hd; [|done]. rewrite Hd in Hres.
      destruct (decide (id = SandboxID x)) as [->|]; [rewrite lookup_insert_eq; eauto|by rewrite lookup_insert_ne].
Qed.

Lemma Store_Adds_spec (l : list (Sandbox ID Rest)) (st : Store M ID Rest E) cs :
  storage_wf (storage st) →
  let '(st', _) := foldl (λ '(s, cs) x, let '(s, c) := Store_Add team s x false in (s, cs ++ c)) (st, cs) l in
  storage_wf (storage st') ∧
  (∀ id b, S_item (storage st) id = Some b → S_item (storage st') id = Some b) ∧
  (∀ id b, S_item (storage st') id = Some b → S_item (storage st) id = Some b ∨
     ∃ x, x ∈ l ∧ SandboxID x = id ∧ b = newMemorySandbox (cap_end x)) ∧
  (∀ x, x ∈ l → is_Some (S_item (storage st') (SandboxID x)) ∧ reserved st' (TeamID x) (SandboxID x)) ∧
  (∀ t id, reserved st t id → reserved st' t id).
Proof using All.
  revert st cs. induction l as [|x l IH]; intros st cs Hwf.
  - cbn. split_and!; [done|done|by left| |done]. intros x Hin. by apply elem_of_nil in Hin.
  - cbn [foldl]. pose proof (Store_Add_spec st x false Hwf) as Ha. destruct (Store_Add team st x false) as [st1 c].
    destruct Ha as (Hwf1 & Hit & Hres & Hmono). specialize (IH st1 (cs ++ c) Hwf1).
    destruct (foldl _ _ l) as [st' cs']. destruct IH as (Hwf' & Hold & Hnew & Hin & Hmono'). split_and!; [done|..].
    + intros id b Hb. apply Hold. by rewrite Hit, Hb.
    + intros id b Hb. destruct (Hnew _ _ Hb) as [Hb1|(y & Hy & <- & ->)].
      * rewrite Hit in Hb1. destruct (S_item (storage st) id) as [b0|] eqn:E0; [by left; simplify_eq|].
        case_decide; [|done]. right. exists x. split; [by left|]. split; [done|]. by injection Hb1 as <-.
      * right. exists y. split; [by right|done].
    + intros y [->|Hy]%elem_of_cons; [|by apply Hin]. split; [|by apply Hmono'].
      specialize (Hit (SandboxID x)). destruct (S_item (storage st) (SandboxID x)) as [b|].
      * eexists. by apply Hold.
      * rewrite decide_True in Hit by done. eexists. by apply Hold.
    + auto.
Qed.

End store_laws.

(** ** Properties *)
Section store_properties.
Context {M : Type → Type} `{CMapLaws M} {ID Rest E : Type} `{Countable ID}.

(** A node sync expires exactly the sandboxes that the store places on that
    node, that are past the grace period, not yet expired and not reported by the
    node; it leaves every other sandbox as it was, adds the reported ones that are
    missing (with their lifetime capped), and afterwards every reported sandbox
    that was missing is in the store and counted against its team. *)
Theorem Store_Sync_reconciles (team : ID → string) (st : Store M ID Rest E) (sbxs : list (Sandbox ID Rest))
    (node : string) (now : Z) (clk : string → Z * Z) :
  storage_wf (storage st) →
  let '(st', _) := Store_Sync team st sbxs node now clk in
  (∀ id b, S_item (storage st) id = Some b →
     S_item (storage st') id =
       Some (if decide (stale sbxs node id now (clk id).1 (data_ b)) then setExpired (clk id).2 b else b)) ∧
  (∀ x, x ∈ sbxs → is_Some (S_item (storage st') (SandboxID x)) ∧
     (S_item (storage st) (SandboxID x) = None → reserved team st' (TeamID x) (SandboxID x))) ∧
  (∀ id b, S_item (storage st') id = Some b → S_item (storage st) id = None →
     ∃ x, x ∈ sbxs ∧ SandboxID x = id ∧ b = newMemorySandbox (cap_end x)).
Proof using All.
  intros Hwf. unfold Store_Sync. pose proof (S_Sync_spec (storage st) sbxs node now clk Hwf) as Hs.
  destruct (S_Sync _ _ _ _ _) as [s add]. destruct Hs as (Hwf1 & Hit & ->).
  pose proof (Store_Adds_spec team (filter (λ x, S_item (storage st) (SandboxID x) = None) sbxs) (mkStore s (store_res st)) [] Hwf1) as Ha.
  destruct (foldl _ _ _) as [st' cs]. destruct Ha as (_ & Hold & Hnew & Hin & _). split_and!.
  - intros id b Hb. apply Hold. cbn. by rewrite Hit, Hb.
  - intros x Hx. destruct (S_item (storage st) (SandboxID x)) as [b|] eqn:Ex.
    + split; [|done]. eexists. apply Hold. cbn. by rewrite Hit, Ex.
    + destruct (Hin x) as [? ?]; [by apply list_elem_of_filter|]. by split.
  - intros id b Hb Hnone. destruct (Hnew _ _ Hb) as [Hb'|(x & Hx & ? & ?)].
    + cbn in Hb'. by rewrite Hit, Hnone in Hb'.
    + apply list_elem_of_filter in Hx as [_ Hx]. eauto.
Qed.

(** Extending a sandbox's life never passes its start time plus the maximum
    instance length and, unless a shorter life is asked for, never shortens it; it
    is refused for another team's sandbox, for one that is being paused, killed or
    snapshotted and for one that has used up its length, each with its own error
    and with the store unchanged; no other sandbox is ever touched. *)
Theorem KeepAliveFor_bounded (s : Storage M ID Rest E) (t : ID) (id : string) (b : memorySandbox ID Rest)
    (now since d : Z) (sh : bool) (node : option bool) :
  storage_wf s → S_item s id = Some b →
  let x := data_ b in
  0 ≤ MaxInstanceLength x ≤ maxI64 → 0 ≤ d ≤ maxI64 → StartTime x ≤ now ≤ since → since - StartTime x ≤ maxI64 →
  let '(s', r) := KeepAliveFor s t id now since d sh node in
  let e := Z.min (now + d) (StartTime x + MaxInstanceLength x) in
  let x' := if decide (sh = false ∧ e < EndTime x) then x else with_end x e in
  (∀ id', id' ≠ id → S_item s' id' = S_item s id') ∧
  if decide (TeamID x ≠ t) then r = Err StatusNotFound ∧ S_item s' id = Some b
  else if decide (SState x ≠ StateRunning) then r = Err (StatusConflict (SState x)) ∧ S_item s' id = Some b
  else if decide (StartTime x + MaxInstanceLength x < since) then r = Err StatusBadRequest ∧ S_item s' id = Some b
  else S_item s' id = Some (mkMemory x' (transition b)) ∧
       r = match node with
           | Some true => Err StatusNotFound
           | Some false => Err StatusInternal
           | None => Ok x'
           end.
Proof using All.
  intros Hwf Hb x Hm Hd Hn Hs. unfold KeepAliveFor.
  pose proof (keep_alive_spec now since d sh x Hm Hd Hn Hs) as Hk. cbn in Hk.
  pose proof (S_Update_spec s t id (keep_alive now since d sh) b Hwf Hb) as Hu. fold x in Hu. rewrite Hk in Hu.
  pose proof (S_item_id _ _ _ Hwf Hb) as Hid. fold x in Hid.
  destruct (S_Update _ _ _ _) as [s' r].
  destruct Hu as (_ & Hne & Hit & ->).
  { intros y. repeat case_decide; intros [= <-]; done. }
  split; [exact Hne|].
  destruct (decide (TeamID x = t)) as [Ht|Ht];
    [rewrite decide_False by (intros Hf; by apply Hf)|rewrite decide_True by done; repeat case_decide; by split].
  destruct (decide (SState x ≠ StateRunning)); [by split|].
  destruct (decide (StartTime x + MaxInstanceLength x < since)); [by split|]. by split.
Qed.
End store_properties.

#[local] Existing Instances GMapC.ops GMapC.laws.

Definition ex_store : Store GMapC.t nat () nat :=
  (Store_Add (λ _, "team"%string) (mkStore NewStorage NewReservationStorage) ex_sandbox false).1.
Definition ex_reported : Sandbox nat () := NewSandbox "new" 1%nat "node" 100 0 500 false ().

Lemma ex_store_wf : storage_wf (storage ex_store).
Proof.
  pose proof (Store_Add_spec (λ _, "team"%string) (mkStore NewStorage NewReservationStorage : Store GMapC.t nat () nat)
    ex_sandbox false storage_wf_new) as Ha. unfold ex_store. destruct (Store_Add _ _ _ _) as [st c]. apply Ha.
Qed.

(** The reported sandbox is added with its lifetime cut to 100; the other one is
    not expired yet and past the grace period, so it is expired. *)
Lemma Store_Sync_reconciles_witness :
  let st' := (Store_Sync (λ _, "team"%string) ex_store [ex_reported] "node" 40 (λ _, (20000000000, 45))).1 in
  EndTime ∘ data_ <$> S_item (storage st') "sbx" = Some 45 ∧ is_Some (S_item (storage st') "new").
Proof.
  pose proof (Store_Sync_reconciles (λ _, "team"%string) ex_store [ex_reported] "node" 40 (λ _, (20000000000, 45)) ex_store_wf) as Hs.
  destruct (Store_Sync _ _ _ _ _ _) as [st' c]. destruct Hs as (E1 & E2 & _). cbn [fst]. split.
  - rewrite (E1 "sbx"%string (newMemorySandbox ex_sandbox)) by by vm_compute. rewrite decide_True by (apply (bool_decide_unpack _); by vm_compute). by vm_compute.
  - apply (E2 ex_reported). by left.
Defined.

Lemma KeepAliveFor_bounded_witness :
  let s := storage ex_store in
  EndTime ∘ data_ <$> S_item (KeepAliveFor s 1%nat "sbx" 60 61 80 false None).1 "sbx" = Some 100.
Proof.
  intros s. pose proof (KeepAliveFor_bounded s 1%nat "sbx" (newMemorySandbox ex_sandbox) 60 61 80 false None ex_store_wf) as Hk.
  destruct (KeepAliveFor _ _ _ _ _ _ _ _) as [s' r].
  destruct Hk as [_ Hk]; [by vm_compute..|]. destruct Hk as [Hk _]. cbn [fst]. by rewrite Hk.
Defined.
