(* ===== verification/Slots.v ===== *)
(** * Network slots

    packages/orchestrator/internal/sandbox/network: [slot.go], [storage.go] and its
    three implementations [storage_memory.go], [storage_local.go], [storage_kv.go].

    An IPv4 address is an integer of 32 bits, a network ([net.IPNet]) its first
    address and the length of its mask.  [SlotStorage] is the interface of
    [storage.go]; [SlotStorageLaws] what its client, the pool, relies on: a slot
    is never handed out while it is held.  [Env] is what an acquisition reads from
    outside (the namespaces of the host, the random numbers, the time that is
    left).  Consul's key-value store is a service: [ConsulOps] and [ConsulLaws]. *)
From stdpp Require Import pretty.
From S2P Require Import Prelude.

(** ** slot.go *)
Record IPNet := mkNet { net_ip : Z; net_ones : Z }.

(** [k8s.io/utils/net.GetIndexedIP]: the address at an index of a network. *)
Class IndexedIP := GetIndexedIP : IPNet → Z → res () Z.
Class IndexedIPLaws `{IndexedIP} : Prop :=
  GetIndexedIP_spec n i : 0 ≤ net_ones n ≤ 32 →
    GetIndexedIP n i = if (0 <=? i) && (i <? 2 ^ (32 - net_ones n)) then Ok (net_ip n + i) else Err ().
Module IndexedIPs.
#[export] Instance ops : IndexedIP := λ n i,
  if (0 <=? i) && (i <? 2 ^ (32 - net_ones n)) then Ok (net_ip n + i) else Err ().
#[export] Instance laws : IndexedIPLaws.
Proof. by intros n i _. Qed.
End IndexedIPs.

Definition hostMask : Z := 32.
Definition vrtMask : Z := 31.
Definition vrtAddressPerSlot : Z := Z.shiftl 1 (32 - vrtMask).
(** 169.254.0.22/30 *)
Definition tapIp : Z := 2851995670.
Definition tapMask : Z := 30.

Record Slot := mkSlot {
  Key : string;
  Idx : Z;
  vPeerIp : Z; vEthIp : Z; slot_vrtMask : Z;
  slot_tapIp : Z; slot_tapMask : Z;
  HostIP : Z; hostNet : IPNet;
  firewallCustomRules : bool;
  fw_rules : list string;      (** the user's rules in the slot's namespace *)
}.

Section slot.
Context `{IndexedIP}.
(** [hostNetworkCIDR] and [vrtNetworkCIDR], from the environment *)
Context (hostNetworkCIDR vrtNetworkCIDR : IPNet).

Definition GetVrtSlotsSize : Z :=
  let totalIPs := Z.shiftl 1 (32 - net_ones vrtNetworkCIDR) in
  totalIPs `quot` vrtAddressPerSlot - vrtAddressPerSlot.

(** [net.ParseCIDR] of an address and a mask: the network that contains it. *)
Definition cidr_of (ip ones : Z) : IPNet := mkNet (Z.land ip (Z.shiftl (-1) (32 - ones))) ones.

Definition NewSlot (key : string) (idx : Z) : res () Slot :=
  if (idx <? 1) || (GetVrtSlotsSize <? idx) then Err ()
  else
    vEthIp ← GetIndexedIP vrtNetworkCIDR (idx * vrtAddressPerSlot);
    vPeerIp ← GetIndexedIP vrtNetworkCIDR (idx * vrtAddressPerSlot + 1);
    let vrtNet := cidr_of vPeerIp vrtMask in
    hostIp ← GetIndexedIP hostNetworkCIDR idx;
    let hostNet := cidr_of hostIp hostMask in
    Ok (mkSlot key idx vPeerIp vEthIp (net_ones vrtNet) tapIp (net_ones (cidr_of tapIp tapMask))
          hostIp hostNet false []).

(** [ConfigureInternet]: [ns_ok] tells whether the namespace is there, [n] how
    many rules are added before the first error. *)
Definition with_rules (s : Slot) (custom : bool) (rules : list string) : Slot :=
  mkSlot (Key s) (Idx s) (vPeerIp s) (vEthIp s) (slot_vrtMask s) (slot_tapIp s) (slot_tapMask s)
    (HostIP s) (hostNet s) custom rules.
Definition ConfigureInternet (s : Slot) (allowed denied domains : list string) (ns_ok : bool) (n : nat) : Slot * res () () :=
  if bool_decide (allowed = []) && bool_decide (denied = []) && bool_decide (domains = []) then (s, Ok ())
  else if negb ns_ok then (with_rules s true (fw_rules s), Err ())
  else
    let cidrs := allowed ++ denied in
    (with_rules s true (fw_rules s ++ take n cidrs), if (length cidrs <=? n)%nat then Ok () else Err ()).
(** [ResetInternet]: [reset_ok] tells whether the namespace is there and the
    firewall's [Reset] succeeds. *)
Definition ResetInternet (s : Slot) (reset_ok : bool) : Slot * res () () :=
  if negb (firewallCustomRules s) then (s, Ok ())
  else if reset_ok then (with_rules s false [], Ok ())
  else (with_rules s false (fw_rules s), Err ()).
End slot.

(** Consul's key-value store: a key has a [ModifyIndex]; a compare-and-swap with
    index zero only creates a key.  A request that fails may have been carried
    out. *)
Class ConsulOps (C : Type) := {
  kv_view : C → gmap string Z;
  kv_cas : C → string → Z → C * res () bool;
  kv_keys : C → string → res () (list string);
  kv_get : C → string → res () (option Z);
  kv_delete_cas : C → string → Z → C * res () bool;
}.
Class ConsulLaws (C : Type) `{ConsulOps C} : Prop := {
  kv_cas_spec c k :
    let '(c', r) := kv_cas c k 0 in
    (∀ k', k' ≠ k → kv_view c' !! k' = kv_view c !! k') ∧
    match r with
    | Ok true => kv_view c !! k = None ∧ is_Some (kv_view c' !! k)
    | Ok false => is_Some (kv_view c !! k) ∧ kv_view c' !! k = kv_view c !! k
    | _ => is_Some (kv_view c !! k) → is_Some (kv_view c' !! k)
    end;
  kv_delete_spec c k i :
    let '(c', r) := kv_delete_cas c k i in
    (∀ k', k' ≠ k → kv_view c' !! k' = kv_view c !! k') ∧
    (is_Some (kv_view c' !! k) → is_Some (kv_view c !! k));
}.

(** An implementation: a finite map whose keys count their changes from one. *)
Module ConsulMap.
#[export] Instance ops : ConsulOps (gmap string Z) := {
  kv_view c := c;
  kv_cas c k i :=
    let free := match c !! k with None => i =? 0 | Some j => negb (i =? 0) && (j =? i) end in
    if free : bool then (<[k := i + 1]> c, Ok true) else (c, Ok false);
  kv_keys c prefix := Ok (filter (λ k, String.prefix prefix k = true) (map_to_list c).*1);
  kv_get c k := Ok (c !! k);
  kv_delete_cas c k i :=
    if bool_decide (c !! k = Some i) then (delete k c, Ok true) else (c, Ok false);
}.
#[export] Instance laws : ConsulLaws (gmap string Z).
Proof.
  split.
  - intros c k. cbn. destruct (c !! k) as [j|] eqn:Ek; cbn; [by rewrite Ek; eauto|].
    split; [intros k' Hk'; by apply lookup_insert_ne|]. rewrite lookup_insert_eq. eauto.
  - intros c k i. cbn. case_bool_decide; cbn; [|done].
    split; [intros k' Hk'; by apply lookup_delete_ne|]. rewrite lookup_delete_eq. by intros [].
Qed.
End ConsulMap.

(** ** storage.go *)
Class SlotStorage (S Env : Type) := {
  st_acquire : Env → S → S * res () Slot;
  st_release : S → Slot → S * res () ();
}.
Class SlotStorageLaws (S Env : Type) `{SlotStorage S Env} := {
  st_held : S → Z → Prop;
  (** a slot that this storage handed out *)
  st_slot : S → Slot → Prop;
  (** a failed acquisition may leave a slot marked *)
  st_acquire_spec env s :
    let '(s', r) := st_acquire env s in
    (∀ j, st_held s j → st_held s' j) ∧ (∀ slot, st_slot s slot → st_slot s' slot) ∧
    match r with
    | Ok slot => ¬ st_held s (Idx slot) ∧ (∀ j, st_held s' j → st_held s j ∨ j = Idx slot) ∧
                 st_held s' (Idx slot) ∧ st_slot s' slot ∧ firewallCustomRules slot = false ∧ fw_rules slot = []
    | _ => True
    end;
  st_release_spec s slot : st_slot s slot →
    let '(s', _) := st_release s slot in
    (∀ j, st_held s' j → st_held s j) ∧ (∀ j, st_held s j → j ≠ Idx slot → st_held s' j) ∧
    (∀ slot, st_slot s slot → st_slot s' slot);
  (** the user's rules are no part of a slot's identity *)
  st_slot_rules s slot custom rules : st_slot s slot → st_slot s (with_rules slot custom rules);
}.

Section storages.
Context `{IndexedIP} (hostNetworkCIDR vrtNetworkCIDR : IPNet).
Abbreviation NewSlot := (NewSlot hostNetworkCIDR vrtNetworkCIDR).

(** ** storage_memory.go *)
Record StorageMemory := mkStorageMemory { slotsSize : Z; freeSlots : list bool }.
Definition NewStorageMemory (slotsSize : Z) : StorageMemory :=
  mkStorageMemory slotsSize (replicate (Z.to_nat slotsSize) false).
Definition getMemoryKey (slotIdx : Z) : string := pretty slotIdx.

Fixpoint memory_loop (fuel : nat) (s : StorageMemory) (slotIdx : Z) : StorageMemory * res () Slot :=
  match fuel with
  | O => (s, Err ())
  | S fuel =>
      if slotIdx <? slotsSize s then
        match freeSlots s !! Z.to_nat slotIdx with
        | None => (s, Panic)
        | Some false =>
            (mkStorageMemory (slotsSize s) (<[Z.to_nat slotIdx := true]> (freeSlots s)),
             NewSlot (getMemoryKey slotIdx) slotIdx)
        | Some true => memory_loop fuel s (slotIdx + 1)
        end
      else (s, Err ())
  end.
Definition Memory_Acquire (s : StorageMemory) : StorageMemory * res () Slot :=
  memory_loop (Z.to_nat (slotsSize s)) s 1.
Definition Memory_Release (s : StorageMemory) (ips : Slot) : StorageMemory * res () () :=
  if (0 <=? Idx ips) && (Idx ips <? zlength (freeSlots s)) then
    (mkStorageMemory (slotsSize s) (<[Z.to_nat (Idx ips) := false]> (freeSlots s)), Ok ())
  else (s, Panic).

(** ** storage_local.go *)
Record StorageLocal := mkStorageLocal {
  l_slotsSize : Z;
  foreignNs : gset string;
  acquiredNs : gset string;
}.
Definition getSlotName (slotIdx : Z) : string := "ns-" +:+ pretty slotIdx.
Definition getLocalKey (slotIdx : Z) : string := pretty slotIdx.

(** [os.Stat] of the namespace's file: it is there, it is not, another error *)
Inductive stat_result := StatExists | StatNotExist | StatError.
Definition isNamespaceAvailable (stat : string → stat_result) (name : string) : res () bool :=
  match stat name with StatNotExist => Ok true | StatError => Err () | StatExists => Ok false end.

(** [os.ReadDir]: [None] when the folder is missing; a name and [IsDir]. *)
Definition getForeignNamespaces (files : res () (option (list (string * bool)))) : res () (list string) :=
  match files with
  | Ok None => Ok []
  | Ok (Some files) => Ok ((filter (λ f, f.2 = false ∧ f.1 ≠ "host"%string) files).*1)
  | Err e => Err e
  | Panic => Panic
  end.
Definition NewStorageLocal (files : res () (option (list (string * bool)))) : res () StorageLocal :=
  foreign ← getForeignNamespaces files;
  Ok (mkStorageLocal (GetVrtSlotsSize vrtNetworkCIDR) (list_to_set foreign) ∅).

(** [budget]: the passes of the loop before the half second is over *)
Fixpoint local_loop (budget : nat) (stat : string → stat_result) (s : StorageLocal) (slotIdx : Z)
    : StorageLocal * res () Slot :=
  match budget with
  | O => (s, Err ())
  | S budget =>
      if l_slotsSize s <? Z.of_nat (size (acquiredNs s)) then (s, Err ())
      else
        let slotIdx := slotIdx + 1 in
        let slotName := getSlotName slotIdx in
        if bool_decide (slotName ∈ foreignNs s) then local_loop budget stat s slotIdx
        else if bool_decide (slotName ∈ acquiredNs s) then local_loop budget stat s slotIdx
        else
          match isNamespaceAvailable stat slotName with
          | Err e => (s, Err e)
          | Panic => (s, Panic)
          | Ok false =>
              local_loop budget stat (mkStorageLocal (l_slotsSize s) ({[slotName]} ∪ foreignNs s) (acquiredNs s)) slotIdx
          | Ok true =>
              (mkStorageLocal (l_slotsSize s) (foreignNs s) ({[slotName]} ∪ acquiredNs s),
               NewSlot (getLocalKey slotIdx) slotIdx)
          end
  end.
Definition Local_Acquire (env : nat * (string → stat_result)) (s : StorageLocal) : StorageLocal * res () Slot :=
  local_loop env.1 env.2 s 1.
Definition Local_Release (s : StorageLocal) (ips : Slot) : StorageLocal * res () () :=
  (mkStorageLocal (l_slotsSize s) (foreignNs s) (acquiredNs s ∖ {[getSlotName (Idx ips)]}), Ok ()).

(** ** storage_kv.go *)
Section kv.
Context {C : Type} `{ConsulOps C}.
Record StorageKV := mkStorageKV { kv_slotsSize : Z; consulClient : C; nodeID : string }.
Definition getKVKey (node : string) (slotIdx : Z) : string := node +:+ "/" +:+ pretty slotIdx.

(** The closure [trySlot]: [Ok None] when somebody holds the key. *)
Definition trySlot (kv : C) (slotIdx : Z) (key : string) : C * res () (option Slot) :=
  match kv_cas kv key 0 with
  | (kv, Ok true) => (kv, Some <$> NewSlot key slotIdx)
  | (kv, Ok false) => (kv, Ok None)
  | (kv, Err e) => (kv, Err e)
  | (kv, Panic) => (kv, Panic)
  end.

(** [rand.Intn(slotsSize)] at each of the ten tries *)
Fixpoint random_loop (tries : nat) (rand : nat → Z) (node : string) (kv : C) : C * res () (option Slot) :=
  match tries with
  | O => (kv, Ok None)
  | S tries =>
      let slotIdx := rand tries in
      match trySlot kv slotIdx (getKVKey node slotIdx) with
      | (kv, Ok None) => random_loop tries rand node kv
      | r => r
      end
  end.
Fixpoint scan_loop (fuel : nat) (slotIdx : Z) (reservedKeys : list string) (node : string) (kv : C) : C * res () (option Slot) :=
  match fuel with
  | O => (kv, Ok None)
  | S fuel =>
      let key := getKVKey node slotIdx in
      if bool_decide (key ∈ reservedKeys) then scan_loop fuel (slotIdx + 1) reservedKeys node kv
      else match trySlot kv slotIdx key with
           | (kv, Ok None) => scan_loop fuel (slotIdx + 1) reservedKeys node kv
           | r => r
           end
  end.

Definition KV_Acquire (rand : nat → Z) (s : StorageKV) : StorageKV * res () Slot :=
  let '(kv, r) := random_loop 10 rand (nodeID s) (consulClient s) in
  let '(kv, r) :=
    match r with
    | Ok None =>
        match kv_keys kv (nodeID s +:+ "/") with
        | Ok reservedKeys => scan_loop (Z.to_nat (kv_slotsSize s)) 0 reservedKeys (nodeID s) kv
        | Err e => (kv, Err e)
        | Panic => (kv, Panic)
        end
    | r => (kv, r)
    end in
  (mkStorageKV (kv_slotsSize s) kv (nodeID s),
   match r with Ok (Some slot) => Ok slot | Ok None => Err () | Err e => Err e | Panic => Panic end).

Definition KV_Release (s : StorageKV) (ips : Slot) : StorageKV * res () () :=
  match kv_get (consulClient s) (Key ips) with
  | Ok (Some modifyIndex) =>
      let '(kv, r) := kv_delete_cas (consulClient s) (Key ips) modifyIndex in
      (mkStorageKV (kv_slotsSize s) kv (nodeID s), match r with Ok true => Ok () | Panic => Panic | _ => Err () end)
  | Ok None => (s, Err ())
  | Err e => (s, Err e)
  | Panic => (s, Panic)
  end.
End kv.
End storages.
Arguments StorageKV : clear implicits.

(** ** The storages implement the interface *)
Section slot_laws.
Context `{IndexedIP} (hostNetworkCIDR vrtNetworkCIDR : IPNet).
Abbreviation NewSlot := (NewSlot hostNetworkCIDR vrtNetworkCIDR).

Lemma NewSlot_fields key idx slot : NewSlot key idx = Ok slot →
  Key slot = key ∧ Idx slot = idx ∧ firewallCustomRules slot = false ∧ fw_rules slot = [].
Proof using.
  unfold Slots.NewSlot. destruct (_ || _); [done|].
  destruct (GetIndexedIP vrtNetworkCIDR (idx * vrtAddressPerSlot)) as [a| |]; cbn; [|done..].
  destruct (GetIndexedIP vrtNetworkCIDR _) as [b| |]; cbn; [|done..].
  destruct (GetIndexedIP hostNetworkCIDR _) as [c| |]; cbn; [|done..]. by intros [= <-].
Qed.

(** What an acquisition promises, for a storage that holds [held] before and
    [held'] after. *)
Definition acquired_slot (held held' : Z → Prop) (keyed : Slot → Prop) (r : res () Slot) : Prop :=
  (∀ j, held j → held' j) ∧
  match r with
  | Ok slot => ¬ held (Idx slot) ∧ (∀ j, held' j → held j ∨ j = Idx slot) ∧ held' (Idx slot) ∧ keyed slot ∧
               firewallCustomRules slot = false ∧ fw_rules slot = []
  | _ => True
  end.

(** *** memory *)
Definition memory_held (s : StorageMemory) (j : Z) : Prop := 0 ≤ j ∧ freeSlots s !! Z.to_nat j = Some true.

Lemma memory_loop_spec fuel s i : 0 ≤ i →
  let '(s', r) := memory_loop hostNetworkCIDR vrtNetworkCIDR fuel s i in
  acquired_slot (memory_held s) (memory_held s') (λ _, True) r.
Proof using.
  unfold acquired_slot. revert i. induction fuel as [|fuel IH]; intros i Hi; cbn; [done|].
  destruct (i <? slotsSize s); [|done]. destruct (freeSlots s !! Z.to_nat i) as [[]|] eqn:Ei; [apply IH; lia| |done].
  unfold memory_held. cbn. pose proof (lookup_lt_Some _ _ _ Ei) as Hlt. split.
  - intros j [Hj Hjt]. split; [done|]. rewrite list_lookup_insert_ne; [done|]. intros E1. rewrite E1 in Ei. congruence.
  - destruct (NewSlot _ _) as [slot| |] eqn:En; [|done..]. destruct (NewSlot_fields _ _ _ En) as (_ & -> & -> & ->).
    split_and!; [| | | |done..].
    + intros [_ E1]. congruence.
    + intros j [Hj E1]. destruct (decide (j = i)); [by right|left]. split; [done|].
      rewrite list_lookup_insert_ne in E1 by lia. done.
    + lia.
    + by rewrite list_lookup_insert_eq.
Qed.

#[local] Instance memory_storage : SlotStorage StorageMemory () :=
  { st_acquire _ := Memory_Acquire hostNetworkCIDR vrtNetworkCIDR; st_release := Memory_Release }.
#[local] Program Instance memory_storage_laws : SlotStorageLaws StorageMemory () := { st_held := memory_held; st_slot _ _ := True }.
Next Obligation. 
  intros [] s. pose proof (memory_loop_spec (Z.to_nat (slotsSize s)) s 1 ltac:(lia)) as Hs. unfold acquired_slot in Hs.
  cbn. unfold Memory_Acquire. destruct (memory_loop _ _ _ _ _) as [s' r]. by destruct Hs.
Qed.
Next Obligation.
  intros s slot _. cbn. unfold Memory_Release, zlength. destruct (Z.leb_spec 0 (Idx slot)); cbn [andb]; [|done].
  destruct (Z.ltb_spec (Idx slot) (Z.of_nat (length (freeSlots s)))) as [Hlt|]; [|done]. unfold memory_held. cbn. split; [|split; [|done]].
  - intros j [Hj E1]. split; [done|]. destruct (decide (Z.to_nat j = Z.to_nat (Idx slot))) as [E2|];
      [rewrite E2, list_lookup_insert_eq in E1 by lia; done|by rewrite list_lookup_insert_ne in E1].
  - intros j [Hj E1] Hne. split; [done|]. by rewrite list_lookup_insert_ne by lia.
Qed.
Next Obligation. done. Qed.

(** *** local *)
Lemma getSlotName_inj i j : getSlotName i = getSlotName j → i = j.
Proof using. unfold getSlotName. intros E1. apply (inj _) in E1. by apply (inj pretty) in E1. Qed.
Definition local_held (s : StorageLocal) (j : Z) : Prop := getSlotName j ∈ acquiredNs s.

Lemma local_loop_spec budget stat s i :
  let '(s', r) := local_loop hostNetworkCIDR vrtNetworkCIDR budget stat s i in
  acquired_slot (local_held s) (local_held s') (λ _, True) r.
Proof using.
  unfold acquired_slot. revert s i. induction budget as [|budget IH]; intros s i; cbn; [done|].
  destruct (_ <? _); [done|]. case_bool_decide; [apply IH|]. case_bool_decide as Hni; [apply IH|].
  destruct (isNamespaceAvailable _ _) as [[]| |]; [|apply (IH (mkStorageLocal _ _ _))|done..].
  unfold local_held. cbn. split; [set_solver|].
  destruct (NewSlot _ _) as [slot| |] eqn:En; [|done..]. destruct (NewSlot_fields _ _ _ En) as (_ & -> & -> & ->).
  split_and!; [done| |set_solver|done..].
  intros j [->%elem_of_singleton%getSlotName_inj|]%elem_of_union; auto.
Qed.

#[local] Instance local_storage : SlotStorage StorageLocal (nat * (string → stat_result)) :=
  { st_acquire := Local_Acquire hostNetworkCIDR vrtNetworkCIDR; st_release := Local_Release }.
#[local] Program Instance local_storage_laws : SlotStorageLaws StorageLocal (nat * (string → stat_result)) :=
  { st_held := local_held; st_slot _ _ := True }.
Next Obligation. 
  intros [budget stat] s. pose proof (local_loop_spec budget stat s 1) as Hs. unfold acquired_slot in Hs.
  cbn. unfold Local_Acquire. cbn [fst snd]. destruct (local_loop _ _ _ _ _ _) as [s' r]. by destruct Hs.
Qed.
Next Obligation.
  intros s slot _. cbn. unfold local_held. cbn. split; [set_solver|]. split; [|done]. intros j Hj Hne.
  apply elem_of_difference. split; [done|]. by intros E1%elem_of_singleton%getSlotName_inj.
Qed.
Next Obligation. done. Qed.

(** *** kv *)
Section kv_laws.
Context {C : Type} `{ConsulLaws C}.
Lemma getKVKey_inj node i j : getKVKey node i = getKVKey node j → i = j.
Proof using. unfold getKVKey. intros E1. apply (inj (String.append node)) in E1. apply (inj _) in E1. by apply (inj pretty) in E1. Qed.
Definition kv_held (node : string) (c : C) (j : Z) : Prop := is_Some (kv_view c !! getKVKey node j).

Definition keyed (node : string) (slot : Slot) : Prop := Key slot = getKVKey node (Idx slot).

(** what [trySlot] and the loops guarantee; [Ok None] holds nothing new *)
Definition kv_acquired (node : string) (c c' : C) (r : res () (option Slot)) : Prop :=
  match r with
  | Ok None => ∀ j, kv_held node c' j ↔ kv_held node c j
  | Ok (Some slot) => acquired_slot (kv_held node c) (kv_held node c') (keyed node) (Ok slot)
  | _ => acquired_slot (kv_held node c) (kv_held node c') (keyed node) Panic
  end.
Lemma kv_acquired_trans node c1 c2 c3 r :
  kv_acquired node c1 c2 (Ok None) → kv_acquired node c2 c3 r → kv_acquired node c1 c3 r.
Proof using. unfold kv_acquired, acquired_slot. intros E1 E2. destruct r as [[slot|]| |]; naive_solver. Qed.

Lemma trySlot_spec node c i :
  let '(c', r) := trySlot hostNetworkCIDR vrtNetworkCIDR c i (getKVKey node i) in kv_acquired node c c' r.
Proof using All.
  unfold trySlot, kv_acquired, acquired_slot, kv_held. pose proof (kv_cas_spec c (getKVKey node i)) as Hs.
  destruct (kv_cas _ _ _) as [c' r]. destruct Hs as [Hne Hr].
  assert (∀ j, j ≠ i → kv_view c' !! getKVKey node j = kv_view c !! getKVKey node j) as Hne'.
  { intros j Hj. apply Hne. by intros ?%getKVKey_inj. }
  assert (∀ P : Prop, (is_Some (kv_view c !! getKVKey node i) → is_Some (kv_view c' !! getKVKey node i)) →
    ∀ j, is_Some (kv_view c !! getKVKey node j) → is_Some (kv_view c' !! getKVKey node j)) as Hmono.
  { intros _ Hi j Hj. destruct (decide (j = i)) as [->|]; [auto|by rewrite Hne']. }
  destruct r as [[]|e|].
  - destruct Hr as [E1 E2].
    destruct (NewSlot _ _) as [slot| |] eqn:En; cbn; (split; [apply (Hmono True); auto|]); [|done..].
    unfold keyed. destruct (NewSlot_fields _ _ _ En) as (-> & -> & -> & ->).
    split_and!; [by apply eq_None_not_Some| |done..].
    intros j Hj. destruct (decide (j = i)); [by right|left]. by rewrite <-Hne'.
  - destruct Hr as [E1 E2]. intros j. destruct (decide (j = i)) as [->|]; [by rewrite E2|by rewrite Hne'].
  - split; [by apply (Hmono True)|done].
  - split; [by apply (Hmono True)|done].
Qed.
Lemma kv_acquired_refl node c : kv_acquired node c c (Ok None).
Proof using. by split. Qed.
Lemma random_loop_spec tries rand node c :
  let '(c', r) := random_loop hostNetworkCIDR vrtNetworkCIDR tries rand node c in kv_acquired node c c' r.
Proof using All.
  revert c. induction tries as [|tries IH]; intros c; cbn; [apply kv_acquired_refl|].
  pose proof (trySlot_spec node c (rand tries)) as Ht. destruct (trySlot _ _ _ _ _) as [c1 [[slot|]| |]]; try exact Ht.
  specialize (IH c1). destruct (random_loop _ _ _ _ _ _) as [c' r]. by eapply kv_acquired_trans.
Qed.
Lemma scan_loop_spec fuel i keys node c :
  let '(c', r) := scan_loop hostNetworkCIDR vrtNetworkCIDR fuel i keys node c in kv_acquired node c c' r.
Proof using All.
  revert i c. induction fuel as [|fuel IH]; intros i c; cbn; [apply kv_acquired_refl|].
  case_bool_decide; [apply IH|].
  pose proof (trySlot_spec node c i) as Ht. destruct (trySlot _ _ _ _ _) as [c1 [[slot|]| |]]; try exact Ht.
  specialize (IH (i + 1) c1). destruct (scan_loop _ _ _ _ _ _ _) as [c' r]. by eapply kv_acquired_trans.
Qed.

#[local] Instance kv_storage : SlotStorage (StorageKV C) (nat → Z) :=
  { st_acquire := KV_Acquire hostNetworkCIDR vrtNetworkCIDR; st_release := KV_Release }.

Lemma KV_Acquire_spec rand (s : StorageKV C) :
  let '(s', r) := KV_Acquire hostNetworkCIDR vrtNetworkCIDR rand s in
  nodeID s' = nodeID s ∧
  acquired_slot (kv_held (nodeID s) (consulClient s)) (kv_held (nodeID s) (consulClient s')) (keyed (nodeID s)) r.
Proof using All.
  unfold KV_Acquire. pose proof (random_loop_spec 10 rand (nodeID s) (consulClient s)) as Hr.
  destruct (random_loop _ _ _ _ _ _) as [c1 [[slot|]|e|]]; [by split| |by split..].
  destruct (kv_keys c1 _) as [keys|e|]; [|cbn; split; [done|]; by split; [intros j ?; apply Hr|]..].
  pose proof (scan_loop_spec (Z.to_nat (kv_slotsSize s)) 0 keys (nodeID s) c1) as Hsc.
  destruct (scan_loop _ _ _ _ _ _ _) as [c2 r]. pose proof (kv_acquired_trans _ _ _ _ _ Hr Hsc) as Ht.
  destruct r as [[slot|]|e|]; (split; [done|]); try exact Ht. by split; [intros j ?; apply Ht|].
Qed.

#[local] Program Instance kv_storage_laws : SlotStorageLaws (StorageKV C) (nat → Z) :=
  { st_held s := kv_held (nodeID s) (consulClient s); st_slot s := keyed (nodeID s) }.
Next Obligation.
  intros rand s. cbn. pose proof (KV_Acquire_spec rand s) as Hs. destruct (KV_Acquire _ _ _ _) as [s' r].
  destruct Hs as [-> [Hm Hs]]. by split_and!.
Qed.
Next Obligation.
  intros s slot Hk. cbn. unfold KV_Release. destruct (kv_get _ _) as [[i|]| |]; [|by split_and!..].
  pose proof (kv_delete_spec (consulClient s) (Key slot) i) as Hd. destruct (kv_delete_cas _ _ _) as [c r].
  destruct Hd as [Hne Hi]. cbn. unfold kv_held. split_and!; [| |done].
  - intros j Hj. destruct (decide (getKVKey (nodeID s) j = Key slot)) as [E1|]; [rewrite E1 in *; auto|by rewrite <-Hne].
  - intros j Hj Hnj. rewrite Hne; [done|]. rewrite Hk. by intros ?%getKVKey_inj.
Qed.
Next Obligation. done. Qed.
End kv_laws.
End slot_laws.

(** ** The addresses of a slot *)
Definition net_wf (n : IPNet) : Prop := 0 ≤ net_ones n ≤ 32 ∧ 0 ≤ net_ip n ∧ net_ip n mod 2 ^ (32 - net_ones n) = 0.

Lemma cidr_31 x : cidr_of x 31 = mkNet (2 * (x / 2)) 31.
Proof.
  unfold cidr_of. f_equal. change (Z.shiftl (-1) (32 - 31)) with (Z.lnot 1). rewrite <-Z.ldiff_land.
  change 1 with (Z.ones 1). rewrite Z.ldiff_ones_r by lia. rewrite Z.shiftl_mul_pow2, Z.shiftr_div_pow2 by lia.
  change (2 ^ 1) with 2. lia.
Qed.

Lemma GetVrtSlotsSize_eq vrt : 0 ≤ net_ones vrt ≤ 31 → GetVrtSlotsSize vrt = 2 ^ (31 - net_ones vrt) - 2.
Proof.
  intros Ho. unfold GetVrtSlotsSize. change vrtAddressPerSlot with 2. rewrite Z.shiftl_1_l.
  replace (32 - net_ones vrt) with (Z.succ (31 - net_ones vrt)) by lia. rewrite Z.pow_succ_r by lia.
  rewrite Z.mul_comm, Z.quot_mul by lia. done.
Qed.

Section slot_properties.
Context `{IndexedIPLaws}.

Lemma NewSlot_spec host vrt key idx : net_wf host → net_wf vrt → net_ones vrt ≤ 31 →
  NewSlot host vrt key idx =
    if decide (1 ≤ idx ≤ 2 ^ (31 - net_ones vrt) - 2 ∧ idx < 2 ^ (32 - net_ones host)) then
      Ok (mkSlot key idx (net_ip vrt + 2 * idx + 1) (net_ip vrt + 2 * idx) 31 tapIp 30
            (net_ip host + idx) (mkNet (net_ip host + idx) 32) false [])
    else Err ().
Proof using All.
  intros (Hoh & Hh0 & _) (Hov & Hv0 & _) Ho. unfold NewSlot. rewrite GetVrtSlotsSize_eq by lia.
  change vrtAddressPerSlot with 2.
  assert (2 ^ (32 - net_ones vrt) = 2 * 2 ^ (31 - net_ones vrt)) as Hp.
  { replace (32 - net_ones vrt) with (Z.succ (31 - net_ones vrt)) by lia. by rewrite Z.pow_succ_r by lia. }
  rewrite !GetIndexedIP_spec, Hp by lia. clear Hp.
  destruct (Z.ltb_spec idx 1); [rewrite decide_False by lia; done|]. cbn [orb].
  destruct (Z.ltb_spec (2 ^ (31 - net_ones vrt) - 2) idx); [rewrite decide_False by lia; done|].
  destruct (Z.leb_spec 0 (idx * 2)); [|lia]. destruct (Z.ltb_spec (idx * 2) (2 * 2 ^ (31 - net_ones vrt))); [|lia].
  destruct (Z.leb_spec 0 (idx * 2 + 1)); [|lia]. destruct (Z.ltb_spec (idx * 2 + 1) (2 * 2 ^ (31 - net_ones vrt))); [|lia].
  destruct (Z.leb_spec 0 idx); [|lia]. cbn [andb mbind res_bind].
  destruct (Z.ltb_spec idx (2 ^ (32 - net_ones host))); cbn [mbind res_bind]; [rewrite decide_True by lia|by rewrite decide_False by lia].
  f_equal. unfold cidr_of. cbn [net_ones]. rewrite Z.land_m1_r. f_equal; lia.
Qed.

(** The addresses of a slot. A slot exists exactly for the indices from 1 up
    to the number of slots of the virtual network (and within the host network);
    its virtual pair lies inside the virtual network, in one /31 block, the veth
    address first; its host address lies inside the host network; and two slots
    with different indices share no address at all. *)
Theorem NewSlot_addresses (host vrt : IPNet) : net_wf host → net_wf vrt → net_ones vrt ≤ 31 →
  (∀ key idx, (∃ slot, NewSlot host vrt key idx = Ok slot) ↔
     1 ≤ idx ≤ GetVrtSlotsSize vrt ∧ idx < 2 ^ (32 - net_ones host)) ∧
  (∀ key idx slot, NewSlot host vrt key idx = Ok slot →
     vEthIp slot = net_ip vrt + 2 * idx ∧ vPeerIp slot = vEthIp slot + 1 ∧
     cidr_of (vEthIp slot) 31 = cidr_of (vPeerIp slot) 31 ∧
     vPeerIp slot < net_ip vrt + 2 ^ (32 - net_ones vrt) ∧
     net_ip host < HostIP slot < net_ip host + 2 ^ (32 - net_ones host)) ∧
  (∀ key key' idx idx' slot slot', NewSlot host vrt key idx = Ok slot → NewSlot host vrt key' idx' = Ok slot' →
     idx ≠ idx' → HostIP slot ≠ HostIP slot' ∧ hostNet slot ≠ hostNet slot' ∧
     ∀ a, ¬ (a ∈ [vEthIp slot; vPeerIp slot] ∧ a ∈ [vEthIp slot'; vPeerIp slot'])).
Proof using All.
  intros Hh Hv Ho. pose proof Hv as (Hov & Hv0 & Hmod). split_and!.
  - intros key idx. rewrite NewSlot_spec, GetVrtSlotsSize_eq by (done || lia). case_decide; naive_solver.
  - intros key idx slot. rewrite NewSlot_spec by done. case_decide as Hd; [|done]. intros [= <-]. cbn.
    assert (2 ^ (32 - net_ones vrt) = 2 * 2 ^ (31 - net_ones vrt)) as Hp.
    { replace (32 - net_ones vrt) with (Z.succ (31 - net_ones vrt)) by lia. by rewrite Z.pow_succ_r by lia. }
    assert (net_ip vrt mod 2 = 0) as Heven.
    { rewrite Hp in Hmod. apply Z.mod_divide in Hmod; [|lia]. apply Z.mod_divide; [lia|]. etrans; [|exact Hmod]. apply Z.divide_factor_l. }
    split_and!; [lia..| |lia|lia|lia]. rewrite !cidr_31. f_equal.
    pose proof (Z.div_mod (net_ip vrt) 2 ltac:(lia)) as Hdm. rewrite Heven in Hdm. rewrite Hdm.
    replace (2 * (net_ip vrt / 2) + 0 + 2 * idx) with ((net_ip vrt / 2 + idx) * 2) by lia.
    rewrite Z.div_mul, Z.div_add_l by lia. change (1 / 2) with 0. lia.
  - intros key key' idx idx' slot slot'. rewrite !NewSlot_spec by done. do 2 (case_decide; [|done]).
    intros [= <-] [= <-] Hne. cbn. split_and!; [lia|intros [=]; lia|].
    intros a. rewrite !elem_of_cons, !elem_of_nil. lia.
Qed.
End slot_properties.

Definition ex_host : IPNet := mkNet 168493056 16.   (* 10.11.0.0/16 *)
Definition ex_vrt : IPNet := mkNet 168558592 16.    (* 10.12.0.0/16 *)

Lemma NewSlot_addresses_witness :
  GetVrtSlotsSize ex_vrt = 32766 ∧
  ∃ slot, NewSlot (H := IndexedIPs.ops) ex_host ex_vrt "1" 1 = Ok slot.
Proof.
  split; [by vm_compute|].
  destruct (NewSlot_addresses (H := IndexedIPs.ops) (H0 := IndexedIPs.laws) ex_host ex_vrt) as [E1 _];
    [by split_and!|by split_and!|done|]. apply E1. by split_and!.
Defined.
