(* ===== verification/Pool.v ===== *)
(** * The pool of network slots

    packages/orchestrator/internal/sandbox/network: [pool.go].

    Two channels hold the slots that are ready: [newSlots], filled by [Populate],
    and [reusedSlots], filled by [Return].  The pool is a state machine whose steps
    are the channel operations of any number of goroutines; a step that Go would
    choose at random among the ready cases of a [select] is a step of its own.
    Besides the channels the state keeps where every other slot is: in the hands of
    [Populate], of a sandbox, of a [Return] before or after its reset, or dropped
    (returned with an error, in no channel and not released).  [crashed] is a
    run-time panic.  The pool is proved against the interface [SlotStorage] of
    Slots.v. *)
From S2P Require Import Prelude Slots.

Section pool.
Context {S Env : Type} `{SlotStorage S Env}.

Definition NewSlotsPoolSize : Z := 32.
Definition ReusedSlotsPoolSize : Z := 100.

Record Pool := mkPool {
  slotStorage : S;
  done_ : bool;                    (** [done] is closed *)
  newSlots : list Slot; newCap : Z; newClosed : bool;
  reusedSlots : list Slot; reusedCap : Z; reusedClosed : bool;
  populating : option Slot;        (** created, being sent to [newSlots] *)
  users : list Slot;               (** handed out by [Get] *)
  pending : list Slot;             (** in [Return], before [ResetInternet] *)
  returning : list Slot;           (** in [Return], after [ResetInternet] *)
  dropped : list Slot;
  crashed : bool;
}.

Definition NewPool (newSlotsPoolSize reusedSlotsPoolSize : Z) (storage : S) : Pool :=
  mkPool storage false [] (newSlotsPoolSize - 1) false [] reusedSlotsPoolSize false None [] [] [] [] false.

Definition with_storage (p : Pool) (s : S) : Pool :=
  mkPool s (done_ p) (newSlots p) (newCap p) (newClosed p) (reusedSlots p) (reusedCap p) (reusedClosed p)
    (populating p) (users p) (pending p) (returning p) (dropped p) (crashed p).
Definition with_new (p : Pool) (l : list Slot) (pop : option Slot) (closed : bool) : Pool :=
  mkPool (slotStorage p) (done_ p) l (newCap p) closed (reusedSlots p) (reusedCap p) (reusedClosed p)
    pop (users p) (pending p) (returning p) (dropped p) (crashed p).
Definition with_reused (p : Pool) (l : list Slot) (closed : bool) : Pool :=
  mkPool (slotStorage p) (done_ p) (newSlots p) (newCap p) (newClosed p) l (reusedCap p) closed
    (populating p) (users p) (pending p) (returning p) (dropped p) (crashed p).
Definition with_out (p : Pool) (us ps rs ds : list Slot) : Pool :=
  mkPool (slotStorage p) (done_ p) (newSlots p) (newCap p) (newClosed p) (reusedSlots p) (reusedCap p) (reusedClosed p)
    (populating p) us ps rs ds (crashed p).
Definition with_done (p : Pool) : Pool :=
  mkPool (slotStorage p) true (newSlots p) (newCap p) (newClosed p) (reusedSlots p) (reusedCap p) (reusedClosed p)
    (populating p) (users p) (pending p) (returning p) (dropped p) (crashed p).
Definition crash (p : Pool) : Pool :=
  mkPool (slotStorage p) (done_ p) (newSlots p) (newCap p) (newClosed p) (reusedSlots p) (reusedCap p) (reusedClosed p)
    (populating p) (users p) (pending p) (returning p) (dropped p) true.

(** [net_ok]: whether [CreateNetwork] succeeds *)
Definition createNetworkSlot (p : Pool) (env : Env) (net_ok : bool) : Pool * res () Slot :=
  match st_acquire env (slotStorage p) with
  | (s, Ok ips) =>
      if net_ok then (with_storage p s, Ok ips)
      else (with_storage p (st_release s ips).1, Err ())
  | (s, Err e) => (with_storage p s, Err e)
  | (s, Panic) => (with_storage p s, Panic)
  end.

(** [cleanup]: the slot goes back to the storage whether or not its network
    could be removed. *)
Definition cleanup (p : Pool) (slot : Slot) : Pool :=
  let '(s, r) := st_release (slotStorage p) slot in
  match r with Panic => crash (with_storage p s) | _ => with_storage p s end.

(** [Populate]: one pass of the loop, up to the send; the default case is taken
    when neither [done] nor the context is closed. *)
Definition populate_create (p : Pool) (env : Env) (net_ok : bool) : option Pool :=
  if done_ p || newClosed p || bool_decide (is_Some (populating p)) then None
  else match createNetworkSlot p env net_ok with
       | (p, Ok slot) => Some (with_new p (newSlots p) (Some slot) (newClosed p))
       | (p, Err _) => Some p
       | (p, Panic) => Some (crash p)
       end.
Definition populate_send (p : Pool) : option Pool :=
  match populating p with
  | Some slot => if zlength (newSlots p) <? newCap p then Some (with_new p (newSlots p ++ [slot]) None (newClosed p)) else None
  | None => None
  end.
Definition populate_stop (p : Pool) (ctx_done : bool) : option Pool :=
  if (done_ p || ctx_done) && bool_decide (populating p = None) && negb (newClosed p)
  then Some (with_new p (newSlots p) None true) else None.

Inductive get_case := GetReused | GetNew.
(** [Get], when it receives a slot; a receive from a closed channel yields [nil],
    which [ConfigureInternet] dereferences. *)
Definition pool_get (p : Pool) (c : get_case) (allowed denied domains : list string) (ns_ok : bool) (n : nat) : option Pool :=
  let configure p slot :=
    match ConfigureInternet slot allowed denied domains ns_ok n with
    | (slot, Ok _) => with_out p (users p ++ [slot]) (pending p) (returning p) (dropped p)
    | (slot, _) => with_out p (users p) (pending p ++ [slot]) (returning p) (dropped p)
    end in
  match c with
  | GetReused =>
      match reusedSlots p with
      | slot :: l => Some (configure (with_reused p l (reusedClosed p)) slot)
      | [] => if reusedClosed p then Some (crash p) else None
      end
  | GetNew =>
      match newSlots p with
      | slot :: l => Some (configure (with_new p l (populating p) (newClosed p)) slot)
      | [] => if newClosed p then Some (crash p) else None
      end
  end.

(** A sandbox calls [Return]. *)
Definition return_call (p : Pool) (i : nat) : option Pool :=
  match users p !! i with
  | Some slot => Some (with_out p (delete i (users p)) (pending p ++ [slot]) (returning p) (dropped p))
  | None => None
  end.
(** The first [select] of [Return] and [ResetInternet]. *)
Definition return_reset (p : Pool) (i : nat) (ctx_done reset_ok : bool) : option Pool :=
  match pending p !! i with
  | None => None
  | Some slot =>
      let p := with_out p (users p) (delete i (pending p)) (returning p) (dropped p) in
      if ctx_done || done_ p then Some (with_out p (users p) (pending p) (returning p) (dropped p ++ [slot]))
      else match ResetInternet slot reset_ok with
           | (slot, Ok _) => Some (with_out p (users p) (pending p) (returning p ++ [slot]) (dropped p))
           | (slot, _) => Some (cleanup p slot)
           end
  end.
Inductive return_case := ReturnCtx | ReturnDone | ReturnSend | ReturnDefault.
(** The second [select]; a send on the closed channel panics. *)
Definition return_send (p : Pool) (i : nat) (c : return_case) : option Pool :=
  match returning p !! i with
  | None => None
  | Some slot =>
      let full := reusedCap p <=? zlength (reusedSlots p) in
      let p' := with_out p (users p) (pending p) (delete i (returning p)) (dropped p) in
      match c with
      | ReturnCtx => Some (with_out p' (users p') (pending p') (returning p') (dropped p' ++ [slot]))
      | ReturnDone => if done_ p then Some (with_out p' (users p') (pending p') (returning p') (dropped p' ++ [slot])) else None
      | ReturnSend =>
          if reusedClosed p then Some (crash p)
          else if full then None else Some (with_reused p' (reusedSlots p ++ [slot]) (reusedClosed p))
      | ReturnDefault => if done_ p || reusedClosed p || negb full then None else Some (cleanup p' slot)
      end
  end.

(** [Close]: its steps in order; closing [reusedSlots] twice panics. *)
Definition close_done (p : Pool) : Pool := with_done p.
Definition close_new (p : Pool) : option Pool :=
  match newSlots p with
  | slot :: l => if done_ p then Some (cleanup (with_new p l (populating p) (newClosed p)) slot) else None
  | [] => None
  end.
Definition close_reused (p : Pool) : option Pool :=
  if done_ p && newClosed p && bool_decide (newSlots p = [])
  then Some (if reusedClosed p then crash p else with_reused p (reusedSlots p) true) else None.
Definition close_drain (p : Pool) : option Pool :=
  match reusedSlots p with
  | slot :: l => if reusedClosed p then Some (cleanup (with_reused p l (reusedClosed p)) slot) else None
  | [] => None
  end.

Inductive pool_label :=
  | PCreate (env : Env) (net_ok : bool) | PSend | PStop (ctx_done : bool)
  | PGet (c : get_case) (allowed denied domains : list string) (ns_ok : bool) (n : nat)
  | PReturn (i : nat) | PReset (i : nat) (ctx_done reset_ok : bool) | PReturnSend (i : nat) (c : return_case)
  | PClose | PCloseNew | PCloseReused | PCloseDrain.

Definition pool_step (p : Pool) (l : pool_label) : option Pool :=
  if crashed p then None
  else match l with
       | PCreate env net_ok => populate_create p env net_ok
       | PSend => populate_send p
       | PStop ctx_done => populate_stop p ctx_done
       | PGet c allowed denied domains ns_ok n => pool_get p c allowed denied domains ns_ok n
       | PReturn i => return_call p i
       | PReset i ctx_done reset_ok => return_reset p i ctx_done reset_ok
       | PReturnSend i c => return_send p i c
       | PClose => Some (close_done p)
       | PCloseNew => close_new p
       | PCloseReused => close_reused p
       | PCloseDrain => close_drain p
       end.
Fixpoint pool_run (p : Pool) (ls : list pool_label) : option Pool :=
  match ls with
  | [] => Some p
  | l :: ls => pool_step p l ≫= λ p', pool_run p' ls
  end.

(** The slots that are somewhere. *)
Definition ready (p : Pool) : list Slot := newSlots p ++ reusedSlots p ++ option_list (populating p).
Definition out (p : Pool) : list Slot := users p ++ pending p ++ returning p ++ dropped p.
Definition all_slots (p : Pool) : list Slot := ready p ++ out p.
Definition clean (s : Slot) : Prop := firewallCustomRules s = false ∧ fw_rules s = [].
End pool.
Arguments Pool : clear implicits.
Arguments pool_label : clear implicits.

Section pool_laws.
Context {S Env : Type} `{SlotStorageLaws S Env}.
Implicit Types (p : Pool S) (s : S) (l : list Slot) (x : Slot).

(** The storage holds the slots of [l], which are all different. *)
Definition held_ok s l : Prop := NoDup (Idx <$> l) ∧ Forall (λ x, st_held s (Idx x) ∧ st_slot s x) l.

Lemma held_ok_perm s l l' : l ≡ₚ l' → held_ok s l → held_ok s l'.
Proof using. intros Hp [Hn Hf]. split; by rewrite <-Hp. Qed.
Lemma held_ok_rules s l x c rules : held_ok s (x :: l) → held_ok s (with_rules x c rules :: l).
Proof using. intros [Hn [[? ?] Hf]%Forall_cons]. split; [done|]. constructor; [|done]. split; [done|]. by apply st_slot_rules. Qed.
Lemma held_ok_release s l x : held_ok s (x :: l) → held_ok (st_release s x).1 l.
Proof using.
  intros [Hn [[Hh Hs] Hf]%Forall_cons]. cbn in Hn. apply NoDup_cons in Hn as [Hni Hn].
  pose proof (st_release_spec s x Hs) as Hr. destruct (st_release s x) as [s' r]. destruct Hr as (_ & Hkeep & Hslot).
  split; [done|]. apply Forall_forall. intros y Hy. rewrite Forall_forall in Hf. destruct (Hf y Hy) as [? ?].
  split; [|by apply Hslot]. apply Hkeep; [done|]. intros E1. apply Hni. rewrite <-E1. by apply list_elem_of_fmap_2.
Qed.
Lemma held_ok_mono s s' l : (∀ j, st_held s j → st_held s' j) → (∀ x, st_slot s x → st_slot s' x) → held_ok s l → held_ok s' l.
Proof using. intros E1 E2 [Hn Hf]. split; [done|]. eapply Forall_impl; [exact Hf|]. naive_solver. Qed.
Lemma held_ok_acquire s l env : held_ok s l →
  let '(s', r) := st_acquire env s in
  held_ok s' l ∧ match r with Ok x => held_ok s' (x :: l) ∧ clean x | _ => True end.
Proof using.
  intros Hok. pose proof (st_acquire_spec env s) as Ha. destruct (st_acquire env s) as [s' r].
  destruct Ha as (Hm & Hs & Hr). pose proof (held_ok_mono _ _ _ Hm Hs Hok) as Hok'. split; [done|].
  destruct r as [x| |]; [|done..]. destruct Hr as (Hni & _ & Hh & Hx & ? & ?). split; [|done].
  destruct Hok as [Hn Hf], Hok' as [_ Hf']. split; [|by constructor]. cbn. constructor; [|done].
  intros (y & Hy & Hin)%list_elem_of_fmap. rewrite Forall_forall in Hf. destruct (Hf y Hin) as [Hh' _]. by rewrite <-Hy in Hh'.
Qed.

(** A slot without user rules has the flag down, and is clean. *)
Definition tidy x : Prop := firewallCustomRules x = false → fw_rules x = [].
Record pool_inv p : Prop := {
  pi_held : held_ok (slotStorage p) (all_slots p);
  pi_ready : Forall clean (ready p);
  pi_out : Forall tidy (out p);
  pi_returning : Forall clean (returning p);
}.

Lemma clean_tidy x : clean x → tidy x.
Proof using. by intros [? ?] ?. Qed.

Lemma cleanup_storage p x : slotStorage (cleanup p x) = (st_release (slotStorage p) x).1 ∧
  ready (cleanup p x) = ready p ∧ out (cleanup p x) = out p ∧ returning (cleanup p x) = returning p.
Proof using. unfold cleanup. destruct (st_release _ _) as [s' []]; done. Qed.

Lemma cleanup_inv p x : held_ok (slotStorage p) (x :: all_slots p) → Forall clean (ready p) → Forall tidy (out p) →
  Forall clean (returning p) → pool_inv (cleanup p x).
Proof using.
  intros Hh Hr Ho Ht. destruct (cleanup_storage p x) as (E1 & E2 & E3 & E4).
  split; unfold all_slots; rewrite ?E1, ?E2, ?E3, ?E4; [by apply held_ok_release|done..].
Qed.
Lemma crash_inv p : pool_inv p → pool_inv (crash p).
Proof using. by intros []. Qed.

Lemma configure_spec x allowed denied domains ns_ok n x' r :
  tidy x → ConfigureInternet x allowed denied domains ns_ok n = (x', r) →
  tidy x' ∧ (clean x → r = Ok () → fw_rules x' = allowed ++ denied) ∧ (∃ c rules, x' = x ∨ x' = with_rules x c rules).
Proof using.
  unfold ConfigureInternet, tidy, clean. intros Ht.
  destruct (_ && _) eqn:Eb.
  - intros [= <- <-]. split; [done|]. split; [|by exists false, []; left]. intros [_ ->] _.
    apply andb_prop in Eb as [[->%bool_decide_eq_true_1 ->%bool_decide_eq_true_1]%andb_prop _]. done.
  - destruct ns_ok; cbn [negb]; intros [= <- <-]; (split; [done|]; split; [|by eexists _, _; right]); intros [_ Hf]; [|done].
    destruct (Nat.leb_spec (length (allowed ++ denied)) n); [|done]. intros _. cbn [fw_rules with_rules]. rewrite Hf. by apply take_ge.
Qed.

(** Moving a slot between the places that hold it. *)
Lemma get_inv p p' x x' (b : bool) :
  (∃ c rules, x' = x ∨ x' = with_rules x c rules) →
  slotStorage p' = slotStorage p → ready p ≡ₚ x :: ready p' →
  (if b then users p' = users p ++ [x'] ∧ pending p' = pending p else users p' = users p ∧ pending p' = pending p ++ [x']) →
  returning p' = returning p → dropped p' = dropped p → tidy x' → pool_inv p → pool_inv p'.
Proof using.
  intros (c & rules & Hx) Hs Hr Hup Hret Hd Ht [Hh Hre Ho Hretc].
  assert (out p' ≡ₚ x' :: out p) as Hout.
  { unfold out. rewrite Hret, Hd. destruct b, Hup as [-> ->]; solve_Permutation. }
  rewrite Hr in Hre. apply Forall_cons in Hre as [_ Hre].
  split; [|done|rewrite Hout; by constructor|by rewrite Hret].
  rewrite Hs. apply (held_ok_perm _ (x' :: ready p' ++ out p)); [unfold all_slots; rewrite Hout; solve_Permutation|].
  assert (held_ok (slotStorage p) (x :: ready p' ++ out p)) as Hh'.
  { eapply held_ok_perm; [|exact Hh]. unfold all_slots. rewrite Hr. solve_Permutation. }
  destruct Hx as [->| ->]; [done|by apply held_ok_rules].
Qed.

Lemma step_create p p' env ok : pool_inv p → populate_create p env ok = Some p' → pool_inv p'.
Proof using.
  intros [Hh Hr Ho Ht] Hs. unfold populate_create in Hs. destruct (_ || _) eqn:Eg; [done|].
  apply orb_false_elim in Eg as [_ Hpop]. apply bool_decide_eq_false_1 in Hpop.
  assert (populating p = None) as Epop by by apply eq_None_not_Some. clear Hpop.
  unfold createNetworkSlot in Hs. pose proof (held_ok_acquire _ _ env Hh) as Ha.
  destruct (st_acquire env (slotStorage p)) as [s [x|e|]]; destruct Ha as [Hh' Hx].
  - destruct Hx as [Hx Hc]. destruct ok; injection Hs as <-.
    + split; unfold all_slots, ready, out in *; cbn in *; [|rewrite Epop in Hr; cbn in Hr|done..].
      * rewrite Epop in Hx. eapply held_ok_perm; [|exact Hx]. cbn. solve_Permutation.
      * rewrite !Forall_app in *. split_and!; [apply Hr|apply Hr|by constructor].
    + split; [|done..]. by apply held_ok_release.
  - injection Hs as <-. by split.
  - injection Hs as <-. by split.
Qed.
Lemma step_send p p' : pool_inv p → populate_send p = Some p' → pool_inv p'.
Proof using.
  intros [Hh Hr Ho Ht] Hs. unfold populate_send in Hs. destruct (populating p) as [x|] eqn:Epop; [|done].
  destruct (_ <? _); [|done]. injection Hs as <-.
  assert (ready p ≡ₚ (newSlots p ++ [x]) ++ reusedSlots p ++ []) as Hp.
  { unfold ready. rewrite Epop. cbn. solve_Permutation. }
  split; unfold all_slots, out, ready in *; cbn in *; [|by rewrite <-Hp|done..].
  eapply held_ok_perm; [|exact Hh]. by rewrite Hp.
Qed.
Lemma step_stop p p' c : pool_inv p → populate_stop p c = Some p' → pool_inv p'.
Proof using.
  intros [Hh Hr Ho Ht] Hs. unfold populate_stop in Hs. case_bool_decide as Epop; [|by rewrite andb_false_r in Hs].
  destruct (_ && _); [|done]. injection Hs as <-. split; unfold all_slots, ready in *; cbn in *; rewrite Epop in *; done.
Qed.
Lemma step_get p p' c allowed denied domains ns_ok n :
  pool_inv p → pool_get p c allowed denied domains ns_ok n = Some p' → pool_inv p'.
Proof using.
  intros Hinv Hs. pose proof (pi_ready _ Hinv) as Hc.
  assert (∀ q x r, ready p ≡ₚ x :: ready q → slotStorage q = slotStorage p → out q = out p →
    users q = users p ∧ pending q = pending p ∧ returning q = returning p ∧ dropped q = dropped p →
    ConfigureInternet x allowed denied domains ns_ok n = r →
    pool_inv (let '(x', r) := r in match r with
      | Ok _ => with_out q (users q ++ [x']) (pending q) (returning q) (dropped q)
      | _ => with_out q (users q) (pending q ++ [x']) (returning q) (dropped q) end)) as Hgo.
  { intros q x [x' r] Hp Hst _ (Eu & Ep & Er & Ed) Hcf.
    assert (tidy x) as Htx. { apply clean_tidy. rewrite Hp in Hc. by apply Forall_cons in Hc as [? _]. }
    destruct (configure_spec _ _ _ _ _ _ _ _ Htx Hcf) as (Ht & _ & Hx).
    destruct r; [apply (get_inv p _ x x' true)|apply (get_inv p _ x x' false)..]; try done; cbn; by rewrite ?Eu, ?Ep. }
  unfold pool_get in Hs. destruct c.
  - destruct (reusedSlots p) as [|x l] eqn:El; [destruct (reusedClosed p); [|done]; injection Hs as <-; by apply crash_inv|].
    injection Hs as <-. apply (Hgo (with_reused p l (reusedClosed p)) x); [|done..]. unfold ready. cbn. rewrite El. solve_Permutation.
  - destruct (newSlots p) as [|x l] eqn:El; [destruct (newClosed p); [|done]; injection Hs as <-; by apply crash_inv|].
    injection Hs as <-. apply (Hgo (with_new p l (populating p) (newClosed p)) x); [|done..].
    unfold ready. cbn. rewrite El. solve_Permutation.
Qed.

Lemma step_return p p' i : pool_inv p → return_call p i = Some p' → pool_inv p'.
Proof using.
  intros [Hh Hr Ho Ht] Hs. unfold return_call in Hs. destruct (users p !! i) as [x|] eqn:Ei; [|done]. injection Hs as <-.
  apply delete_Permutation in Ei.
  assert (out p ≡ₚ delete i (users p) ++ (pending p ++ [x]) ++ returning p ++ dropped p) as Hp.
  { unfold out. rewrite Ei at 1. solve_Permutation. }
  split; [|done|unfold out in *; cbn; by rewrite <-Hp|done].
  eapply held_ok_perm; [|exact Hh]. unfold all_slots. by rewrite Hp.
Qed.
Lemma step_reset p p' i c ok : pool_inv p → return_reset p i c ok = Some p' → pool_inv p'.
Proof using.
  intros [Hh Hr Ho Ht] Hs. unfold return_reset in Hs. destruct (pending p !! i) as [x|] eqn:Ei; [|done].
  apply delete_Permutation in Ei.
  assert (out p ≡ₚ x :: users p ++ delete i (pending p) ++ returning p ++ dropped p) as Hp.
  { unfold out. rewrite Ei at 1. solve_Permutation. }
  assert (held_ok (slotStorage p) (x :: ready p ++ users p ++ delete i (pending p) ++ returning p ++ dropped p)) as Hh'.
  { eapply held_ok_perm; [|exact Hh]. unfold all_slots. rewrite Hp. solve_Permutation. }
  rewrite Hp in Ho. apply Forall_cons in Ho as [Htx Ho]. cbn in Hs. destruct (c || done_ p).
  - injection Hs as <-. split; [|done| |done].
    + eapply held_ok_perm; [|exact Hh']. unfold all_slots, ready, out. cbn. solve_Permutation.
    + unfold out. cbn. rewrite !Forall_app in *. split_and!; try apply Ho. by constructor.
  - destruct (ResetInternet x ok) as [x' r] eqn:Er.
    assert ((r = Ok () → clean x') ∧ (∃ c rules, x' = x ∨ x' = with_rules x c rules)) as [Hc Hx].
    { unfold ResetInternet in Er. destruct (firewallCustomRules x) eqn:Ef; cbn in Er; [destruct ok|]; injection Er as <- <-.
      - split; [done|]. by eexists _, _; right.
      - split; [done|]. by eexists _, _; right.
      - split; [|by exists false, []; left]. intros _. split; [done|]. by apply Htx. }
    assert (held_ok (slotStorage p) (x' :: ready p ++ users p ++ delete i (pending p) ++ returning p ++ dropped p)) as Hh2.
    { destruct Hx as (c' & rules & [->| ->]); [done|by apply held_ok_rules]. }
    destruct r as [[]|e|]; injection Hs as <-.
    + specialize (Hc eq_refl). split; [|done| |].
      * eapply held_ok_perm; [|exact Hh2]. unfold all_slots, ready, out. cbn. solve_Permutation.
      * unfold out. cbn. rewrite !Forall_app in *. split_and!; try apply Ho. constructor; [by apply clean_tidy|done].
      * cbn. apply Forall_app. split; [done|by constructor].
    + apply cleanup_inv; [|done..]. done.
    + apply cleanup_inv; [|done..]. done.
Qed.
Lemma step_return_send p p' i c : pool_inv p → return_send p i c = Some p' → pool_inv p'.
Proof using.
  intros Hinv Hs. pose proof Hinv as [Hh Hr Ho Ht]. unfold return_send in Hs.
  destruct (returning p !! i) as [x|] eqn:Ei; [|done]. apply delete_Permutation in Ei. cbn in Hs.
  rewrite Ei in Ht. apply Forall_cons in Ht as [Hcx Ht].
  assert (out p ≡ₚ x :: users p ++ pending p ++ delete i (returning p) ++ dropped p) as Hp.
  { unfold out. rewrite Ei at 1. solve_Permutation. }
  assert (held_ok (slotStorage p) (x :: ready p ++ users p ++ pending p ++ delete i (returning p) ++ dropped p)) as Hh'.
  { eapply held_ok_perm; [|exact Hh]. unfold all_slots. rewrite Hp. solve_Permutation. }
  rewrite Hp in Ho. apply Forall_cons in Ho as [Htx Ho].
  assert (pool_inv (with_out p (users p) (pending p) (delete i (returning p)) (dropped p ++ [x]))) as Hdrop.
  { split; [|done| |done].
    - eapply held_ok_perm; [|exact Hh']. unfold all_slots, ready, out. cbn. solve_Permutation.
    - unfold out. cbn. rewrite !Forall_app in *. split_and!; try apply Ho. by constructor. }
  destruct c.
  - by injection Hs as <-.
  - destruct (done_ p); [|done]. by injection Hs as <-.
  - destruct (reusedClosed p); [injection Hs as <-; by apply crash_inv|]. destruct (_ <=? _); [done|]. injection Hs as <-.
    split; [| |done|done].
    + eapply held_ok_perm; [|exact Hh']. unfold all_slots, ready, out. cbn. solve_Permutation.
    + unfold ready in *. cbn. rewrite !Forall_app in *. split_and!; try apply Hr. by constructor.
  - destruct (_ || _); [done|]. injection Hs as <-. by apply cleanup_inv.
Qed.
Lemma step_close p p' : pool_inv p →
  (close_new p = Some p' ∨ close_reused p = Some p' ∨ close_drain p = Some p') → pool_inv p'.
Proof using.
  intros Hinv. pose proof Hinv as [Hh Hr Ho Ht]. unfold close_new, close_reused, close_drain. intros [Hs|[Hs|Hs]].
  - destruct (newSlots p) as [|x l] eqn:El; [done|]. destruct (done_ p); [|done]. injection Hs as <-.
    assert (ready p ≡ₚ x :: ready (with_new p l (populating p) (newClosed p))) as Hp.
    { unfold ready. cbn. rewrite El. solve_Permutation. }
    rewrite Hp in Hr. apply Forall_cons in Hr as [_ Hr]. apply cleanup_inv; [|done..].
    eapply held_ok_perm; [|exact Hh]. unfold all_slots. rewrite Hp. solve_Permutation.
  - destruct (_ && _); [|done]. destruct (reusedClosed p); injection Hs as <-; [by apply crash_inv|by split].
  - destruct (reusedSlots p) as [|x l] eqn:El; [done|]. destruct (reusedClosed p); [|done]. injection Hs as <-.
    assert (ready p ≡ₚ x :: ready (with_reused p l true)) as Hp.
    { unfold ready. cbn. rewrite El. solve_Permutation. }
    rewrite Hp in Hr. apply Forall_cons in Hr as [_ Hr]. apply cleanup_inv; [|done..].
    eapply held_ok_perm; [|exact Hh]. unfold all_slots. rewrite Hp. solve_Permutation.
Qed.

Lemma pool_step_inv p lb p' : pool_inv p → pool_step p lb = Some p' → pool_inv p'.
Proof using.
  intros Hinv. unfold pool_step. destruct (crashed p); [done|].
  destruct lb; [apply step_create|apply step_send|apply step_stop|apply step_get|apply step_return|apply step_reset|apply step_return_send| | | |]; try done.
  - intros [= <-]. by destruct Hinv.
  - intros Hs. apply (step_close p); auto.
  - intros Hs. apply (step_close p); auto.
  - intros Hs. apply (step_close p); auto.
Qed.
Lemma pool_run_inv p ls p' : pool_inv p → pool_run p ls = Some p' → pool_inv p'.
Proof using.
  revert p. induction ls as [|lb ls IH]; intros p Hinv Hs; cbn in Hs; [by injection Hs as <-|].
  destruct (pool_step p lb) as [p1|] eqn:El; [|done]. eapply IH; [|exact Hs]. by eapply pool_step_inv.
Qed.
Lemma pool_get_spec p p' c allowed denied domains ns_ok n :
  pool_inv p → pool_get p c allowed denied domains ns_ok n = Some p' →
  users p' = users p ∨ ∃ x, users p' = users p ++ [x] ∧ fw_rules x = allowed ++ denied.
Proof using.
  intros [_ Hr _ _] Hs. unfold ready in Hr. rewrite !Forall_app in Hr. destruct Hr as (Hn & Hre & _).
  assert (∀ x x', clean x → ConfigureInternet x allowed denied domains ns_ok n = (x', Ok ()) →
    fw_rules x' = allowed ++ denied) as Hgo.
  { intros x x' Hc Hcf. destruct (configure_spec _ _ _ _ _ _ _ _ (clean_tidy _ Hc) Hcf) as (_ & Hx & _). by apply Hx. }
  unfold pool_get in Hs. destruct c.
  - destruct (reusedSlots p) as [|x l]; [destruct (reusedClosed p); [|done]; injection Hs as <-; by left|].
    apply Forall_cons in Hre as [Hc _].
    destruct (ConfigureInternet _ _ _ _ _ _) as [x' [[]|e|]] eqn:Ec; injection Hs as <-; [right; eauto|by left..].
  - destruct (newSlots p) as [|x l]; [destruct (newClosed p); [|done]; injection Hs as <-; by left|].
    apply Forall_cons in Hn as [Hc _].
    destruct (ConfigureInternet _ _ _ _ _ _) as [x' [[]|e|]] eqn:Ec; injection Hs as <-; [right; eauto|by left..].
Qed.
Lemma pool_inv_new n r s : pool_inv (NewPool n r s).
Proof using. by repeat split; constructor. Qed.
End pool_laws.

(** ** Properties *)
Section pool_properties.
Context {S Env : Type} `{SlotStorageLaws S Env}.

(** C8: whatever the goroutines of the pool do and however they interleave, no
    network slot is ever in two places: the slots that are ready, in use, being
    returned or dropped are pairwise different and held in the storage; a slot that
    is ready carries no rule of an earlier sandbox; and [Get] hands out a slot that
    no other sandbox uses, with exactly the rules that were asked for. *)
Theorem Pool_exclusive (storage : S) (new_size reused_size : Z) (ls : list (pool_label Env)) (p : Pool S) :
  pool_run (NewPool new_size reused_size storage) ls = Some p →
  NoDup (Idx <$> all_slots p) ∧
  Forall (λ x, st_held (slotStorage p) (Idx x)) (all_slots p) ∧
  Forall clean (ready p) ∧
  (∀ c allowed denied domains ns_ok n p',
     pool_step p (PGet c allowed denied domains ns_ok n) = Some p' →
     users p' = users p ∨
     ∃ x, users p' = users p ++ [x] ∧ fw_rules x = allowed ++ denied ∧ Idx x ∉ Idx <$> users p).
Proof using All.
  intros Hs. assert (pool_inv p) as Hinv by (eapply pool_run_inv; [apply pool_inv_new|exact Hs]).
  pose proof Hinv as [[Hn Hf] Hr _ _]. split_and!; [done|by eapply Forall_impl; [exact Hf|]; intros ? []|done|].
  intros c allowed denied domains ns_ok n p' Hg.
  pose proof (pi_held _ (pool_step_inv _ _ _ Hinv Hg)) as [Hn' _].
  unfold pool_step in Hg. destruct (crashed p); [done|].
  destruct (pool_get_spec _ _ _ _ _ _ _ _ Hinv Hg) as [Hu|(x & Hu & Hx)]; [by left|right]. exists x. split_and!; [done..|].
  unfold all_slots, out in Hn'. rewrite Hu, !fmap_app in Hn'. apply NoDup_app in Hn' as (_ & _ & Hn').
  apply NoDup_app in Hn' as (Hn' & _ & _). apply NoDup_app in Hn' as (_ & Hd & _).
  intros Hin. apply (Hd _ Hin). cbn. by left.
Qed.
End pool_properties.

#[local] Existing Instance IndexedIPs.ops.
#[local] Instance ex_storage : SlotStorage StorageMemory () := memory_storage ex_host ex_vrt.
#[local] Instance ex_storage_laws : SlotStorageLaws StorageMemory () := memory_storage_laws ex_host ex_vrt.

Definition ex_pool : Pool StorageMemory := NewPool NewSlotsPoolSize ReusedSlotsPoolSize (NewStorageMemory 8).
(** A sandbox with a rule returns its slot, and another one reuses it. *)
Definition ex_reuse : list (pool_label ()) :=
  [PCreate () true; PSend; PCreate () true; PGet GetNew ["1.1.1.1/32"%string] [] [] true 1; PReturn 0; PReset 0 false true;
   PReturnSend 0 ReturnSend; PGet GetReused [] ["8.8.8.8/32"%string] [] true 1; PSend; PGet GetNew [] [] [] true 0].

Lemma Pool_exclusive_witness :
  ∃ p, pool_run ex_pool ex_reuse = Some p ∧ length (users p) = 2%nat ∧ NoDup (Idx <$> users p) ∧
       fw_rules <$> users p = [["8.8.8.8/32"%string]; []].
Proof.
  destruct (pool_run ex_pool ex_reuse) as [p|] eqn:Ep; [|by vm_compute in Ep]. exists p.
  destruct (Pool_exclusive _ _ _ ex_reuse p Ep) as (Hn & _). vm_compute in Ep. injection Ep as <-.
  split_and!; [done|done| |done]. unfold all_slots in Hn. rewrite fmap_app in Hn. apply NoDup_app in Hn as (_ & _ & Hn).
  unfold out in Hn. rewrite fmap_app in Hn. by apply NoDup_app in Hn as (Hn & _ & _).
Defined.

(** The pool can panic while it shuts down. A [Return] that is between its
    two [select]s while [Close] closes [reusedSlots] may pick the send on the closed
    channel; a [Get] after [Populate] has stopped receives a nil slot and
    dereferences it; and a second [Close] closes [reusedSlots] again. *)
Theorem Pool_shutdown_panics :
  crashed <$> pool_run ex_pool
    [PCreate () true; PSend; PGet GetNew [] [] [] true 0; PReturn 0; PReset 0 false true;
     PClose; PStop false; PCloseReused; PReturnSend 0 ReturnSend] = Some true ∧
  crashed <$> pool_run ex_pool [PStop true; PGet GetNew [] [] [] true 0] = Some true ∧
  crashed <$> pool_run ex_pool [PClose; PStop false; PCloseReused; PClose; PCloseReused] = Some true.
Proof. by vm_compute. Qed.
