(* ===== verification/Chunk.v ===== *)
(** * Fetching remote data in chunks

    packages/orchestrator/internal/sandbox/block/[chunk.go]: [FullFetchChunker], a
    cache in front of a remote object that fetches whole chunks of 4 MiB, each at
    most once (through the [WaitMap] of SyncUtils.v).

    [src] is the remote object, byte by byte; what a fetch meets - a cancelled
    context, or a read of some bytes with or without an error - is an argument, per
    chunk.  The goroutines of one [errgroup] write disjoint parts of the cache, so
    they are run one after the other. *)
From Stdlib Require Import Init.Byte.
From S2P Require Import Prelude Bitset Mapping BlockRange BlockCache SyncUtils.

Definition MemoryChunkSize : Z := 4 * 1024 * 1024.

Inductive ChunkError : Type :=
  | ErrFetchContext                      (** the context was done *)
  | ErrAddress (e : CacheError)          (** [addressBytes] *)
  | ErrUpstream (off : Z)                (** the read failed *)
  | ErrShortRead (off expected got : Z)
  | ErrRecovered                         (** a panic in the fetch handler *)
  | ErrLocalRead (e : CacheError)
  | ErrEnsure (e : ChunkError)
  | ErrReadAgain (e : CacheError)
  | ErrWriter.

(** What a fetch meets: [Upstream n err] copies [n] bytes (at most the buffer). *)
Inductive fetch_outcome := CtxIsDone | Upstream (n : Z) (err : bool).

Section chunker.
Context (src : Z → byte).

(** The bytes [off, off+n) of the object. *)
Definition object_bytes (off n : Z) : list byte := src <$> seqZ off n.

Record FullFetchChunker := mkFullFetch {
  ff_cache : Cache;
  ff_size : Z;
  fetchers : gmap Z (option ChunkError);   (** the results of the [WaitMap] *)
}.

Definition NewFullFetchChunker (f : FileResult) (size blockSize : Z) (cachePath : string)
    : res CacheError FullFetchChunker :=
  c ← NewCache f size blockSize cachePath false;
  Ok (mkFullFetch c size NewWaitMap).

(** The function given to [fetchers.Wait]; [None] is [nil]. *)
Definition fetch_chunk (c : Cache) (fetchOff : Z) (o : fetch_outcome) : Cache * option ChunkError :=
  match o with
  | CtxIsDone => (c, Some ErrFetchContext)
  | Upstream n err =>
      match addressBytes c fetchOff MemoryChunkSize with
      | Err e => (c, Some (ErrAddress e))
      | Panic => (c, Some ErrRecovered)
      | Ok b =>
          let readBytes := Z.max 0 (Z.min n (zlength b)) in
          let c := match cmmap c with
                   | Some m => set_mmap c (splice m fetchOff (object_bytes fetchOff readBytes))
                   | None => c
                   end in
          if err then (c, Some (ErrUpstream fetchOff))
          else if negb (readBytes =? zlength b) then (c, Some (ErrShortRead fetchOff (zlength b) readBytes))
          else match setIsCached c fetchOff readBytes with
               | Ok c => (c, None)
               | _ => (c, Some ErrRecovered)
               end
      end
  end.

(** One goroutine of [fetchToCache]. *)
Definition fetch_one (f : FullFetchChunker) (fetchOff : Z) (o : fetch_outcome) : FullFetchChunker * option ChunkError :=
  let '(c, run) := match fetchers f !! fetchOff with
                   | Some _ => (ff_cache f, None)
                   | None => fetch_chunk (ff_cache f) fetchOff o
                   end in
  let '(fs, err) := WM_Wait (fetchers f) fetchOff run in
  (mkFullFetch c (ff_size f) fs, err).

(** All of them, with the first error of the group. *)
Fixpoint fetch_loop (f : FullFetchChunker) (startingChunkOffset : Z) (chunks : list Z) (os : Z → fetch_outcome)
    (first : option ChunkError) : FullFetchChunker * option ChunkError :=
  match chunks with
  | [] => (f, first)
  | chunkOff :: chunks =>
      let fetchOff := i64 (startingChunkOffset + chunkOff) in
      let '(f, err) := fetch_one f fetchOff (os fetchOff) in
      fetch_loop f startingChunkOffset chunks os (match first with Some e => Some e | None => err end)
  end.
Definition fetchToCache (f : FullFetchChunker) (off length : Z) (os : Z → fetch_outcome)
    : res ChunkError (FullFetchChunker * option ChunkError) :=
  chunks ← BlocksOffsets length MemoryChunkSize;
  startingChunk ← BlockIdx off MemoryChunkSize;
  Ok (fetch_loop f (BlockOffset startingChunk MemoryChunkSize) chunks os None).

Definition FF_Slice (f : FullFetchChunker) (off length : Z) (os : Z → fetch_outcome)
    : FullFetchChunker * res ChunkError (list byte) :=
  match Slice (ff_cache f) off length with
  | Ok b => (f, Ok b)
  | Panic => (f, Panic)
  | Err BytesNotAvailableError =>
      match fetchToCache f off length os with
      | Ok (f, Some e) => (f, Err (ErrEnsure e))
      | Ok (f, None) =>
          (f, match Slice (ff_cache f) off length with
              | Ok b => Ok b
              | Err e => Err (ErrReadAgain e)
              | Panic => Panic
              end)
      | Err e => (f, Err e)
      | Panic => (f, Panic)
      end
  | Err e => (f, Err (ErrLocalRead e))
  end.

(** [ReadAt] into a buffer of [n] bytes: the bytes copied. *)
Definition FF_ReadAt (f : FullFetchChunker) (n off : Z) (os : Z → fetch_outcome) : FullFetchChunker * res ChunkError (list byte) :=
  let '(f, r) := FF_Slice f off n os in (f, take (Z.to_nat n) <$> r).

(** [WriteTo]: the bytes written; the fetches [os] and the success of the write [ws]
    may differ from round to round. *)
Fixpoint writeto_loop (fuel : nat) (f : FullFetchChunker) (i : Z) (os : nat → Z → fetch_outcome) (ws : nat → bool)
    (out : list byte) : FullFetchChunker * option (res ChunkError (list byte)) :=
  if negb (i <? ff_size f) then (f, Some (Ok out))
  else match fuel with
       | O => (f, None)
       | S fuel =>
           match FF_ReadAt f MemoryChunkSize i (os fuel) with
           | (f, Ok chunk) =>
               if negb (ws fuel) then (f, Some (Err ErrWriter))
               else writeto_loop fuel f (i64 (i + MemoryChunkSize)) os ws (out ++ chunk)
           | (f, Err e) => (f, Some (Err e))
           | (f, Panic) => (f, Some Panic)
           end
       end.
Definition FF_WriteTo (f : FullFetchChunker) (os : nat → Z → fetch_outcome) (ws : nat → bool)
    : FullFetchChunker * option (res ChunkError (list byte)) :=
  writeto_loop (Z.to_nat (ff_size f)) f 0 os ws [].

Definition FF_Close (f : FullFetchChunker) (unmap remove : bool) : FullFetchChunker * list CacheError :=
  let '(c, errs) := Close (ff_cache f) unmap remove in (mkFullFetch c (ff_size f) (fetchers f), errs).
End chunker.

(** ** What a chunker holds *)
Section chunker_laws.
Context (src : Z → byte).
Implicit Types (c : Cache) (f : FullFetchChunker).

Lemma object_bytes_length off n : 0 ≤ n → zlength (object_bytes src off n) = n.
Proof. intros. unfold object_bytes, zlength. rewrite length_fmap, length_seqZ. lia. Qed.
Lemma object_bytes_lookup off n i : 0 ≤ i < n → object_bytes src off n !! Z.to_nat i = Some (src (off + i)).
Proof. intros. unfold object_bytes. rewrite list_lookup_fmap, lookup_seqZ_lt by lia. simpl. do 2 f_equal. lia. Qed.

(** The chunk at [k]: its bytes inside the object. *)
Definition in_chunk (size k x : Z) : Prop := k ≤ x < Z.min (k + MemoryChunkSize) size.

(** A cached byte is the object's; a chunk that was fetched is cached. *)
Record chunk_inv f (m : list byte) : Prop := {
  ci_wf : cache_wf (ff_cache f) m;
  ci_clean : dirtyFile (ff_cache f) = false;
  ci_size : ff_size f = csize (ff_cache f);
  ci_fit : csize (ff_cache f) + 2 * MemoryChunkSize ≤ maxI64;
  ci_bs : (cblockSize (ff_cache f) | MemoryChunkSize);
  ci_src x b : 0 ≤ x → peek (ff_cache f) m x = Some b → b = src x;
  ci_done k x : fetchers f !! k = Some None → 0 ≤ k → in_chunk (ff_size f) k x → is_Some (peek (ff_cache f) m x);
}.

Lemma MemoryChunkSize_pos : 0 < MemoryChunkSize.
Proof. done. Qed.

(** Filling the mapping with bytes of the object changes no cached byte. *)
Lemma splice_object c m off n :
  cache_wf c m → (∀ x b, 0 ≤ x → peek c m x = Some b → b = src x) → 0 ≤ off → 0 ≤ n → off + n ≤ csize c →
  let m' := splice m off (object_bytes src off n) in
  cache_wf (set_mmap c m') m' ∧ ∀ x, 0 ≤ x → peek (set_mmap c m') m' x = peek c m x.
Proof.
  intros [] Hsrc Hoff Hn Hin m'. pose proof (object_bytes_length off n Hn) as Hl. split.
  - split; simpl; try done. unfold m'. by rewrite splice_length by lia.
  - intros x Hx. pose proof (Hsrc x) as Hsx. unfold peek in *. simpl. case_decide as D; [|done].
    unfold m'. rewrite splice_lookup by lia. case_decide as D2; [|done]. rewrite Hl in D2.
    rewrite object_bytes_lookup by lia. replace (off + (x - off)) with x by lia.
    destruct (m !! Z.to_nat x) as [b|] eqn:E; [by rewrite (Hsx b)|].
    apply lookup_ge_None in E. unfold zlength in *. lia.
Qed.

(** A fetch that the upstream serves in full. *)
Definition healthy (size k : Z) (o : fetch_outcome) : Prop :=
  match o with Upstream n false => Z.min MemoryChunkSize (size - k) ≤ n | _ => False end.

Lemma fetch_chunk_spec f m k o :
  chunk_inv f m → 0 ≤ k → (MemoryChunkSize | k) → fetchers f !! k = None →
  let '(c', r) := fetch_chunk src (ff_cache f) k o in
  ∃ m', chunk_inv (mkFullFetch c' (ff_size f) (<[k := r]> (fetchers f))) m' ∧
    csize c' = csize (ff_cache f) ∧ cblockSize c' = cblockSize (ff_cache f) ∧
    (∀ x, 0 ≤ x → is_Some (peek (ff_cache f) m x) → is_Some (peek c' m' x)) ∧
    (healthy (ff_size f) k o → k < csize (ff_cache f) → r = None) ∧
    (∀ x, 0 ≤ x → ¬ in_chunk (ff_size f) k x → peek c' m' x = peek (ff_cache f) m x).
Proof.
  intros Hinv Hk Hdiv Hnew. pose proof Hinv as [Hwf Hcl Hsz Hfit Hbs Hsrc Hdone]. pose proof Hwf as [Hmm Hml Hms Hmb Hmf Hmo Hmk].
  pose proof MemoryChunkSize_pos as HCS. set (c := ff_cache f) in *.
  (* the cache is unchanged or only its mapping is *)
  assert (∀ c' m' e, cache_wf c' m' → dirtyFile c' = false → csize c' = csize c → cblockSize c' = cblockSize c →
    (∀ x, 0 ≤ x → peek c' m' x = peek c m x) →
    chunk_inv (mkFullFetch c' (ff_size f) (<[k := Some e]> (fetchers f))) m') as Hsame.
  { intros c' m' e Hwf' Hcl' Es Eb Hp. split; cbn [ff_cache ff_size fetchers]; rewrite ?Es, ?Eb; try done.
    - intros x b Hx. rewrite Hp by done. by apply Hsrc.
    - intros k' x [[<- ?]|[Hne Hk']]%lookup_insert_Some Hk0 Hin; [done|].
      rewrite Hp by (unfold in_chunk in Hin; lia). by apply (Hdone k'). }
  unfold fetch_chunk. destruct o as [|n err].
  { exists m. split_and!; [by apply Hsame|done..]. }
  unfold addressBytes, isClosed. rewrite Hmm, Hmo.
  destruct (Z.leb_spec (csize c) k) as [Hge|Hlt].
  { exists m. split_and!; [by apply Hsame|done..|lia|done]. }
  unfold maxI64 in *. rewrite i64_small by lia. rewrite go_slice_ok by lia.
  rewrite slice_length by lia. set (len := Z.min (k + MemoryChunkSize) (csize c) - k).
  set (rb := Z.max 0 (Z.min n len)). assert (0 ≤ rb ≤ len ∧ k + len ≤ csize c ∧ 0 < len) as (Hrb & Hkl & Hlen) by lia.
  destruct (splice_object c m k rb Hwf Hsrc Hk ltac:(lia) ltac:(lia)) as [Hwf' Hpk]. cbn zeta in Hwf', Hpk.
  set (m' := splice m k (object_bytes src k rb)) in *.
  destruct err.
  { exists m'. split_and!; [by apply Hsame|done|done|intros x Hx; by rewrite Hpk|done|intros x Hx _; by apply Hpk]. }
  destruct (Z.eqb_spec rb len) as [Efull|Hshort]; cbn [negb].
  2:{ exists m'. split_and!; [by apply Hsame|done|done|intros x Hx; by rewrite Hpk| |intros x Hx _; by apply Hpk].
      unfold healthy. rewrite Hsz. fold c. lia. }
  (* the full read is a write of the bytes *)
  assert ((cblockSize c | k)) as Hbk by (by etrans).
  destruct (WriteAt_spec c m (object_bytes src k rb) k) as (c' & Hw & Hwf2 & Hcl2 & Eb2 & Es2 & Hpeek); [done..| | |].
  { rewrite object_bytes_length by lia. lia. }
  { rewrite object_bytes_length by lia. subst len.
    destruct (Z.min_spec (k + MemoryChunkSize) (csize c)) as [[_ Em]|[_ Em]]; rewrite Em in *; [left|right; lia].
    rewrite Efull. replace (k + MemoryChunkSize - k) with MemoryChunkSize by lia. done. }
  unfold WriteAt, WriteAtWithoutLock, isClosed in Hw. rewrite Hmm, Hmo in Hw.
  rewrite object_bytes_length in Hw by lia. rewrite (i64_small (k + rb)) in Hw by lia. rewrite Z.min_l in Hw by lia.
  rewrite go_slice_ok in Hw by lia. cbn [mbind res_bind] in Hw. rewrite slice_length in Hw by lia.
  replace (k + rb - k) with rb in Hw by lia. rewrite Z.min_id in Hw.
  rewrite (firstn_all2 (object_bytes src k rb)) in Hw by (pose proof (object_bytes_length k rb ltac:(lia)); unfold zlength in *; lia).
  rewrite i64_small in Hw by lia. fold m' in Hw, Hwf2, Hpeek. fold c.
  destruct (setIsCached (set_mmap c m') k rb) as [c2|e|]; cbn in Hw; [|done..].
  injection Hw as ->. exists m'.
  assert (∀ x, 0 ≤ x → peek c' m' x = if decide (k ≤ x < k + rb) then Some (src x) else peek c m x) as Hpeek'.
  { intros x Hx. rewrite Hpeek by done. rewrite object_bytes_length by lia. case_decide as D; [|done].
    rewrite object_bytes_lookup by lia. do 2 f_equal. lia. }
  split_and!; [|done|done| |done|].
  - split; cbn [ff_cache ff_size fetchers]; rewrite ?Es2, ?Eb2; try done; [by rewrite Hcl2| |].
    + intros x b Hx. rewrite Hpeek' by done. case_decide; [by intros [= <-]|by apply Hsrc].
    + intros k' x Hf' Hk0 Hin. assert (0 ≤ x) by (unfold in_chunk in Hin; lia). rewrite Hpeek' by done. case_decide as D; [done|].
      apply lookup_insert_Some in Hf' as [[<- _]|[_ Hf']]; [|by apply (Hdone k')].
      unfold in_chunk in Hin. subst len. lia.
  - intros x Hx Hs. rewrite Hpeek' by done. by case_decide.
  - intros x Hx Hn. rewrite Hpeek' by done. rewrite decide_False; [done|]. intros D. apply Hn. unfold in_chunk. subst len. lia.
Qed.

(** The chunker only grows: what is cached stays cached, a result stays. *)
Record grows f m f' m' : Prop := {
  gr_csize : csize (ff_cache f') = csize (ff_cache f);
  gr_bs : cblockSize (ff_cache f') = cblockSize (ff_cache f);
  gr_size : ff_size f' = ff_size f;
  gr_peek x : 0 ≤ x → is_Some (peek (ff_cache f) m x) → is_Some (peek (ff_cache f') m' x);
  gr_fetch k v : fetchers f !! k = Some v → fetchers f' !! k = Some v;
}.
Lemma grows_refl f m : grows f m f m.
Proof. by split. Qed.
Lemma grows_trans f1 m1 f2 m2 f3 m3 : grows f1 m1 f2 m2 → grows f2 m2 f3 m3 → grows f1 m1 f3 m3.
Proof. intros [] []. split; try congruence; eauto. Qed.

(** The chunk was not fetched before, or successfully. *)
Definition unpoisoned f (k : Z) : Prop := ∀ e, fetchers f !! k ≠ Some (Some e).

Lemma fetch_one_spec f m k o :
  chunk_inv f m → 0 ≤ k → (MemoryChunkSize | k) →
  let '(f', r) := fetch_one src f k o in
  ∃ m', chunk_inv f' m' ∧ grows f m f' m' ∧ fetchers f' !! k = Some r ∧
    (∀ k', k' ≠ k → fetchers f' !! k' = fetchers f !! k') ∧
    (∀ x, 0 ≤ x → ¬ in_chunk (ff_size f) k x → peek (ff_cache f') m' x = peek (ff_cache f) m x) ∧
    (healthy (ff_size f) k o → k < ff_size f → unpoisoned f k → r = None).
Proof.
  intros Hinv Hk Hdiv. pose proof (ci_size _ _ Hinv) as Hsz.
  unfold fetch_one, WM_Wait. destruct (fetchers f !! k) as [r|] eqn:Ef.
  - exists m. split_and!; [by destruct f|by destruct f|done..|].
    intros _ _ Hup. destruct r as [e|]; [by destruct (Hup e)|done].
  - pose proof (fetch_chunk_spec f m k o Hinv Hk Hdiv Ef) as Hspec.
    destruct (fetch_chunk src (ff_cache f) k o) as [c' r]. destruct Hspec as (m' & Hinv' & Es & Eb & Hp & Hh & Hout).
    exists m'. split_and!; [done| |by simplify_map_eq/=|intros k' Hne; by simplify_map_eq/=|done|].
    + split; try done. intros k' v Hk'. simpl. rewrite lookup_insert_ne; [done|]. by intros ->; simplify_eq.
    + intros. apply Hh; [done|lia].
Qed.

Lemma fetch_loop_spec start chunks os first f m :
  chunk_inv f m → 0 ≤ start → (MemoryChunkSize | start) →
  (∀ k, k ∈ chunks → 0 ≤ k ∧ (MemoryChunkSize | k) ∧ start + k < ff_size f) →
  let '(f', r) := fetch_loop src f start chunks os first in
  ∃ m', chunk_inv f' m' ∧ grows f m f' m' ∧
    (r = None ↔ first = None ∧ ∀ k, k ∈ chunks → fetchers f' !! (start + k) = Some None) ∧
    (∀ x, 0 ≤ x → (∀ k, k ∈ chunks → ¬ in_chunk (ff_size f) (start + k) x) →
       peek (ff_cache f') m' x = peek (ff_cache f) m x) ∧
    (∀ k, k ∈ chunks → healthy (ff_size f) (start + k) (os (start + k)) → unpoisoned f (start + k) →
       fetchers f' !! (start + k) = Some None) ∧
    ((∀ k, healthy (ff_size f) k (os k)) → (∀ k, unpoisoned f k) → ∀ k, unpoisoned f' k).
Proof.
  intros Hinv Hst Hsd. revert f m first Hinv. induction chunks as [|k chunks IH]; intros f m first Hinv Hks; simpl.
  { exists m. split_and!; [done|apply grows_refl| |done|set_solver|auto]. split; [intros ->; set_solver|by intros []]. }
  destruct (Hks k ltac:(set_solver)) as (Hk & Hkd & Hks'). pose proof (ci_fit _ _ Hinv) as Hfit.
  pose proof (ci_size _ _ Hinv) as Hsz. pose proof MemoryChunkSize_pos. unfold maxI64 in *. rewrite i64_small by lia.
  pose proof (fetch_one_spec f m (start + k) (os (start + k)) Hinv ltac:(lia) ltac:(by apply Z.divide_add_r)) as H1.
  destruct (fetch_one src f (start + k) (os (start + k))) as [f1 r1]. destruct H1 as (m1 & Hinv1 & Hg1 & Hf1 & Hne1 & Hp1 & Hh1).
  set (first1 := match first with Some e => Some e | None => r1 end).
  pose proof (gr_size _ _ _ _ Hg1) as Es1.
  specialize (IH f1 m1 first1 Hinv1). rewrite Es1 in IH. specialize (IH ltac:(set_solver)).
  destruct (fetch_loop src f1 start chunks os first1) as [f' r]. destruct IH as (m' & Hinv' & Hg & Hr & Hp & Hh & Hup').
  pose proof (gr_fetch _ _ _ _ Hg _ _ Hf1) as Hf'.
  exists m'. split_and!; [done|by eapply grows_trans| | | |].
  - rewrite Hr. unfold first1. destruct first; [naive_solver|]. split.
    + intros [-> Hall]. split; [done|]. intros k' [->|?]%elem_of_cons; auto.
    + intros [_ Hall]. split; [|set_solver]. specialize (Hall k ltac:(set_solver)). congruence.
  - intros x Hx Hn. rewrite Hp by set_solver. apply Hp1; [done|]. apply Hn. set_solver.
  - intros k' Hk' Hk'h Hup. destruct (decide (k' = k)) as [->|Hne].
    { rewrite Hf', Hh1 by (done || lia). done. }
    apply Hh; [set_solver|done|]. intros e. rewrite Hne1 by lia. apply Hup.
  - intros Hall Hun. apply Hup'; [done|]. intros k' e. destruct (decide (k' = start + k)) as [->|Hne].
    + rewrite Hf1, Hh1 by (done || lia). done.
    + rewrite Hne1 by done. apply Hun.
Qed.

(** ** Slice, ReadAt and WriteTo *)

(** The chunks [fetchToCache] asks for: as many as [length] needs, from the one of [off]. *)
Definition first_chunk (off : Z) : Z := off / MemoryChunkSize * MemoryChunkSize.
Definition covered (off n x : Z) : Prop :=
  first_chunk off ≤ x < first_chunk off + (n + MemoryChunkSize - 1) / MemoryChunkSize * MemoryChunkSize.

(** Every chunk asked for begins inside the object. *)
Definition chunks_inside f (off n : Z) : Prop :=
  0 ≤ off < ff_size f ∧ 0 ≤ n ≤ ff_size f + MemoryChunkSize ∧
  ∀ i, 0 ≤ i < (n + MemoryChunkSize - 1) / MemoryChunkSize → first_chunk off + i * MemoryChunkSize < ff_size f.

Lemma first_chunk_bounds off : 0 ≤ off → 0 ≤ first_chunk off ≤ off.
Proof.
  intros. unfold first_chunk. pose proof (Z.mul_div_le off MemoryChunkSize). pose proof (Z.div_pos off MemoryChunkSize).
  pose proof MemoryChunkSize_pos. nia.
Qed.

Lemma in_range_inside f off n : 0 ≤ off → 0 < n → off + n ≤ ff_size f → chunks_inside f off n.
Proof.
  intros Hoff Hn Hin. pose proof MemoryChunkSize_pos. pose proof (first_chunk_bounds off Hoff). split_and!; [lia..|].
  intros i Hi. pose proof (Z.mul_div_le (n + MemoryChunkSize - 1) MemoryChunkSize). nia.
Qed.

Lemma fetchToCache_eq f m off n os :
  chunk_inv f m → chunks_inside f off n →
  fetchToCache src f off n os =
    Ok (fetch_loop src f (first_chunk off)
          ((λ i, i * MemoryChunkSize) <$> seqZ 0 ((n + MemoryChunkSize - 1) / MemoryChunkSize)) os None).
Proof.
  intros [_ _ Hsz Hfit _ _ _] (Hoff & Hn & Hin). pose proof MemoryChunkSize_pos. unfold fetchToCache.
  rewrite BlocksOffsets_eq, BlockIdx_eq by (unfold maxI64 in *; lia). cbn [mbind res_bind].
  unfold BlockOffset, first_chunk. pose proof (Z.mul_div_le off MemoryChunkSize). rewrite i64_small; [done|].
  pose proof (Z.div_pos off MemoryChunkSize). unfold maxI64 in *. nia.
Qed.

(** A covered byte lies in one of the chunks. *)
Lemma covered_chunk off n x :
  covered off n x ↔ ∃ i, 0 ≤ i < (n + MemoryChunkSize - 1) / MemoryChunkSize ∧
    first_chunk off + i * MemoryChunkSize ≤ x < first_chunk off + (i + 1) * MemoryChunkSize.
Proof.
  unfold covered. pose proof MemoryChunkSize_pos. split.
  - intros Hx. exists ((x - first_chunk off) / MemoryChunkSize).
    pose proof (Z.div_mod (x - first_chunk off) MemoryChunkSize). pose proof (Z.mod_pos_bound (x - first_chunk off) MemoryChunkSize).
    split; [|nia]. split; [apply Z.div_pos; lia|]. apply Z.div_lt_upper_bound; lia.
  - intros (i & Hi & Hx). nia.
Qed.

Lemma fetchToCache_spec f m off n os :
  chunk_inv f m → chunks_inside f off n →
  ∃ f' r m', fetchToCache src f off n os = Ok (f', r) ∧ chunk_inv f' m' ∧ grows f m f' m' ∧
    (r = None → ∀ x, covered off n x → x < ff_size f → is_Some (peek (ff_cache f') m' x)) ∧
    (∀ x, 0 ≤ x → ¬ covered off n x → peek (ff_cache f') m' x = peek (ff_cache f) m x) ∧
    ((∀ k, (MemoryChunkSize | k) → covered off n k → healthy (ff_size f) k (os k) ∧ unpoisoned f k) → r = None) ∧
    (∀ k e, (MemoryChunkSize | k) → covered off n k → fetchers f !! k = Some (Some e) → r ≠ None) ∧
    ((∀ k, healthy (ff_size f) k (os k)) → (∀ k, unpoisoned f k) → ∀ k, unpoisoned f' k).
Proof.
  intros Hinv Hins. rewrite (fetchToCache_eq _ m) by done. destruct Hins as (Hoff & Hn & Hin). pose proof MemoryChunkSize_pos as HCS.
  set (nc := (n + MemoryChunkSize - 1) / MemoryChunkSize).
  pose proof (first_chunk_bounds off ltac:(lia)) as Hfc.
  assert ((MemoryChunkSize | first_chunk off)) as Hfd by (by apply Z.divide_factor_r).
  assert (∀ k, k ∈ (λ i, i * MemoryChunkSize) <$> seqZ 0 nc ↔ ∃ i, k = i * MemoryChunkSize ∧ 0 ≤ i < nc) as Hel.
  { intros k. rewrite list_elem_of_fmap. by setoid_rewrite elem_of_seqZ. }
  assert (∀ k, (MemoryChunkSize | k) → covered off n k → k - first_chunk off ∈ (λ i, i * MemoryChunkSize) <$> seqZ 0 nc) as Hcov.
  { intros k Hkd Hk%covered_chunk. destruct Hk as (i & Hi & Hk). apply Hel. exists i. split; [|done].
    destruct Hkd as [a ->], Hfd as [b Eb]. rewrite Eb in *. assert (a = b + i) as ->; [|lia].
    assert (b + i < a + 1 ∧ a < b + i + 1); [|lia]. split; apply (Z.mul_lt_mono_pos_r MemoryChunkSize); lia. }
  pose proof (fetch_loop_spec (first_chunk off) ((λ i, i * MemoryChunkSize) <$> seqZ 0 nc) os None f m Hinv ltac:(lia) Hfd) as Hl.
  destruct (fetch_loop src f (first_chunk off) _ os None) as [f' r]. destruct Hl as (m' & Hinv' & Hg & Hr & Hout & Hheal & Hun).
  { intros k (i & -> & Hi)%Hel. split_and!; [nia|by apply Z.divide_factor_r|by apply Hin]. }
  pose proof (gr_size _ _ _ _ Hg) as Es.
  exists f', r, m'. split_and!; [done..| | | | |done].
  - intros [_ Hall]%Hr x (i & Hi & Hx)%covered_chunk Hxs.
    apply (ci_done _ _ Hinv' (first_chunk off + i * MemoryChunkSize)); [|nia|unfold in_chunk; lia].
    apply Hall, Hel. by exists i.
  - intros x Hx Hnc. apply Hout; [done|]. intros k (i & -> & Hi)%Hel Hin'. apply Hnc, covered_chunk. exists i.
    split; [done|]. unfold in_chunk in Hin'. lia.
  - intros Hall. apply Hr. split; [done|]. intros k Hk. apply Hel in Hk as Hi. destruct Hi as (i & -> & Hi).
    destruct (Hall (first_chunk off + i * MemoryChunkSize)).
    { apply Z.divide_add_r; [done|by apply Z.divide_factor_r]. }
    { apply covered_chunk. exists i. lia. }
    by apply Hheal.
  - intros k e Hkd Hk Hf [_ Hall]%Hr. specialize (Hall (k - first_chunk off) (Hcov k Hkd Hk)).
    rewrite Z.add_sub_assoc, Z.add_simpl_l in Hall. pose proof (gr_fetch _ _ _ _ Hg _ _ Hf). congruence.
Qed.

(** The bytes a successful [Slice] of the cache gives are the object's. *)
Lemma cached_slice_object f m off n s :
  chunk_inv f m → 0 ≤ off → zlength s = n →
  (∀ i, 0 ≤ i < n → peek (ff_cache f) m (off + i) = s !! Z.to_nat i) → s = object_bytes src off n.
Proof.
  intros Hinv Hoff Hl Hp. apply list_eq_same_length with (Z.to_nat n).
  { pose proof (object_bytes_length off n ltac:(unfold zlength in Hl; lia)). unfold zlength in *. lia. }
  { unfold zlength in *. lia. }
  intros i x y Hi Hx Hy. specialize (Hp (Z.of_nat i) ltac:(lia)). rewrite Nat2Z.id, Hx in Hp.
  apply (ci_src _ _ Hinv) in Hp; [|lia].
  rewrite <- (Nat2Z.id i), object_bytes_lookup in Hy by lia. congruence.
Qed.

Lemma cached_Slice f m off n :
  chunk_inv f m → 0 ≤ off → (cblockSize (ff_cache f) | off) → 0 ≤ n → off + n ≤ ff_size f →
  (Slice (ff_cache f) off n = Ok (object_bytes src off n) ∧
   ∀ x, off ≤ x < off + n → is_Some (peek (ff_cache f) m x)) ∨
  (Slice (ff_cache f) off n = Err BytesNotAvailableError ∧
   ∃ x, off ≤ x < off + n ∧ peek (ff_cache f) m x = None).
Proof.
  intros Hinv Hoff Hd Hn Hin. pose proof (ci_size _ _ Hinv) as Hsz.
  pose proof (Slice_spec (ff_cache f) m off n (ci_wf _ _ Hinv) (ci_clean _ _ Hinv) Hoff Hd Hn ltac:(lia)) as Hs.
  destruct (Slice (ff_cache f) off n) as [s|e|]; [left|right|done].
  - destruct Hs as [Hl Hp]. split; [f_equal; by eapply cached_slice_object|].
    intros x Hx. replace x with (off + (x - off)) by lia. rewrite Hp by lia.
    apply lookup_lt_is_Some. unfold zlength in Hl. lia.
  - destruct Hs as [-> (i & Hi & Hp)]. split; [done|]. exists (off + i). split; [lia|done].
Qed.

Lemma FF_Slice_spec f m off n os :
  chunk_inv f m → 0 ≤ off → (cblockSize (ff_cache f) | off) → 0 ≤ n → off + n ≤ ff_size f →
  let '(f', r) := FF_Slice src f off n os in
  ∃ m', chunk_inv f' m' ∧ grows f m f' m' ∧
    match r with
    | Ok b => b = object_bytes src off n ∧ ∀ x, off ≤ x < off + n → is_Some (peek (ff_cache f') m' x)
    | Err e => (∃ e', e = ErrEnsure e') ∨
        e = ErrReadAgain BytesNotAvailableError ∧ ∃ x, off ≤ x < off + n ∧ ¬ covered off n x
    | Panic => False
    end ∧
    (∀ x, off ≤ x < off + n → ¬ covered off n x → peek (ff_cache f) m x = None →
       ¬ is_Some (peek (ff_cache f') m' x)) ∧
    ((∀ k, (MemoryChunkSize | k) → covered off n k → healthy (ff_size f) k (os k) ∧ unpoisoned f k) →
     ∀ e', r ≠ Err (ErrEnsure e')) ∧
    (∀ k e, (MemoryChunkSize | k) → covered off n k → fetchers f !! k = Some (Some e) →
       (∃ x, off ≤ x < off + n ∧ peek (ff_cache f) m x = None) → ∃ e', r = Err (ErrEnsure e')) ∧
    ((∀ k, healthy (ff_size f) k (os k)) → (∀ k, unpoisoned f k) → ∀ k, unpoisoned f' k).
Proof.
  intros Hinv Hoff Hd Hn Hin. unfold FF_Slice.
  destruct (cached_Slice f m off n Hinv Hoff Hd Hn Hin) as [[-> Hall]|[-> (x0 & Hx0 & Hnone)]].
  { exists m. split_and!; [done|apply grows_refl|done|done|intros x ? _ -> []%eq_None_not_Some; done|done| |auto].
    intros k e _ _ _ (x & Hx & Hp). destruct (Hall x Hx). congruence. }
  destruct (fetchToCache_spec f m off n os Hinv ltac:(apply in_range_inside; lia))
    as (f' & r & m' & -> & Hinv' & Hg & Hr & Hout & Hok & Hbad & Hun).
  pose proof (gr_size _ _ _ _ Hg) as Es. pose proof (gr_bs _ _ _ _ Hg) as Eb.
  assert (∀ x, off ≤ x < off + n → ¬ covered off n x → peek (ff_cache f) m x = None → ¬ is_Some (peek (ff_cache f') m' x)) as Hstay.
  { intros x Hx Hnc Hp. rewrite Hout by (done || lia). rewrite Hp. apply is_Some_None. }
  destruct r as [e|].
  { exists m'. split_and!; [done..|by left; eexists|done| |by eauto|done].
    intros Hall e' _. by specialize (Hok Hall). }
  destruct (cached_Slice f' m' off n Hinv') as [[-> Hall]|[-> (x & Hx & Hp)]]; [done|by rewrite Eb|done|lia| |].
  all: exists m'; split_and!; try done.
  1, 3: intros k e Hkd Hk Hf _; by destruct (Hbad k e Hkd Hk Hf).
  right. split; [done|]. exists x. split; [done|]. intros Hc. destruct (Hr eq_refl x Hc ltac:(lia)). congruence.
Qed.

(** A range inside the object whose start is the start of a block. *)
Definition slice_ok (size bs off n : Z) : Prop := 0 ≤ off ∧ (bs | off) ∧ 0 ≤ n ∧ off + n ≤ size.

Lemma NewFullFetchChunker_inv file size bs path f :
  NewFullFetchChunker file size bs path = Ok f → 0 < size → 0 < bs → (bs | MemoryChunkSize) →
  size + 2 * MemoryChunkSize ≤ maxI64 →
  (∃ m, chunk_inv f m) ∧ ff_size f = size ∧ cblockSize (ff_cache f) = bs ∧ ∀ k, unpoisoned f k.
Proof.
  intros Hnew Hs Hb Hd Hfit. unfold NewFullFetchChunker, NewCache in Hnew.
  destruct (file_open file) as [content|]; [|done]. destruct (Z.eqb_spec size 0); [lia|].
  destruct (file_truncate file), (file_map file); simpl in Hnew; try done. injection Hnew as <-.
  assert (bs ≤ MemoryChunkSize) by (apply Z.divide_pos_le; done). pose proof MemoryChunkSize_pos.
  split; [|split_and!; [done..|by intros k e]]. exists (truncated content size). split; simpl; try done.
  split; simpl; try done; try lia. unfold truncated, zlength. rewrite length_app, length_take, length_replicate. lia.
Qed.

(** A sequence of [Slice] calls, each with what its fetches meet. *)
Fixpoint slices f (reqs : list (Z * Z * (Z → fetch_outcome))) : FullFetchChunker * list (res ChunkError (list byte)) :=
  match reqs with
  | [] => (f, [])
  | (off, n, os) :: reqs => let '(f, r) := FF_Slice src f off n os in let '(f, rs) := slices f reqs in (f, r :: rs)
  end.

(** What a caller can rely on; with [up] the upstream serves every fetch in full. *)
Definition served (size : Z) (up : bool) (req : Z * Z * (Z → fetch_outcome)) (r : res ChunkError (list byte)) : Prop :=
  let '(off, n, _) := req in
  match r with
  | Ok b => b = object_bytes src off n
  | Err _ => up = false ∨ ∃ x, off ≤ x < off + n ∧ ¬ covered off n x
  | Panic => False
  end.

Lemma slices_served bs size up reqs : ∀ f m,
  chunk_inv f m → ff_size f = size → cblockSize (ff_cache f) = bs →
  (∀ off n os, (off, n, os) ∈ reqs → slice_ok size bs off n) →
  (up = true → (∀ k, unpoisoned f k) ∧ ∀ off n os k, (off, n, os) ∈ reqs → healthy size k (os k)) →
  Forall2 (served size up) reqs (slices f reqs).2.
Proof.
  induction reqs as [|[[off n] os] reqs IH]; intros f m Hinv Es Eb Hreqs Hup; simpl; [constructor|].
  destruct (Hreqs off n os ltac:(set_solver)) as (Hoff & Hd & Hn & Hin).
  pose proof (FF_Slice_spec f m off n os Hinv Hoff ltac:(by rewrite Eb) Hn ltac:(lia)) as Hspec.
  destruct (FF_Slice src f off n os) as [f1 r] eqn:E1. destruct Hspec as (m1 & Hinv1 & Hg & Hr & _ & Hok & _ & Hun).
  specialize (IH f1 m1 Hinv1 ltac:(by rewrite (gr_size _ _ _ _ Hg)) ltac:(by rewrite (gr_bs _ _ _ _ Hg))).
  destruct (slices f1 reqs) as [f2 rs]. simpl in *. constructor.
  - destruct r as [b|e|]; simpl; [by destruct Hr| |done]. destruct up; [right|by left].
    destruct (Hup eq_refl) as [Hunp Hh]. destruct Hr as [[e' ->]|[_ Hx]]; [|done].
    exfalso. refine (Hok _ e' eq_refl). intros k _ _. rewrite Es. split; [|done]. apply (Hh off n). set_solver.
  - apply IH; [set_solver|]. intros Hu. destruct (Hup Hu) as [Hunp Hh]. split; [|intros off' n' os' k Hin'; apply (Hh off' n'); set_solver].
    apply Hun; [|done]. intros k. rewrite Es. apply (Hh off n). set_solver.
Qed.

(** A new chunker returns, for any sequence of [Slice] calls on ranges inside
    the object and whatever the fetches meet - cancelled contexts, failed and short
    reads - only the object's bytes or an error, and it never panics.  While the
    upstream serves every fetch in full, a call whose range lies in the chunks
    [fetchToCache] asks for returns its bytes. *)
Theorem FF_Slice_serves (file : FileResult) (size bs : Z) (path : string) (f : FullFetchChunker)
    (reqs : list (Z * Z * (Z → fetch_outcome))) (up : bool) :
  NewFullFetchChunker file size bs path = Ok f → 0 < size → 0 < bs → (bs | MemoryChunkSize) →
  size + 2 * MemoryChunkSize ≤ maxI64 →
  (∀ off n os, (off, n, os) ∈ reqs → slice_ok size bs off n) →
  (up = true → ∀ off n os k, (off, n, os) ∈ reqs → healthy size k (os k)) →
  Forall2 (served size up) reqs (slices f reqs).2.
Proof.
  intros Hnew Hs Hb Hd Hfit Hreqs Hup.
  destruct (NewFullFetchChunker_inv _ _ _ _ _ Hnew Hs Hb Hd Hfit) as ((m & Hinv) & Es & Eb & Hun).
  apply (slices_served bs size up reqs f m); [done..|]. intros Hu. split; [done|by apply Hup].
Qed.

(** Two ways a [Slice] fails although the upstream is healthy.  The error of a
    fetch is the chunk's result for ever: once a chunk failed, every later [Slice]
    that asks for it and needs a byte not cached fails, whatever the fetches meet.
    And [fetchToCache] counts the chunks from the length alone: when the range ends
    in a chunk it does not ask for, the call fails unless those bytes are cached
    already. *)
Theorem FF_Slice_fails (f : FullFetchChunker) (m : list byte) (off n : Z) (os : Z → fetch_outcome) :
  chunk_inv f m → slice_ok (ff_size f) (cblockSize (ff_cache f)) off n →
  (∀ k e x, (MemoryChunkSize | k) → covered off n k → fetchers f !! k = Some (Some e) →
     off ≤ x < off + n → peek (ff_cache f) m x = None →
     ∃ e', (FF_Slice src f off n os).2 = Err (ErrEnsure e') ∧
       fetchers (FF_Slice src f off n os).1 !! k = Some (Some e)) ∧
  (∀ x, off ≤ x < off + n → ¬ covered off n x → peek (ff_cache f) m x = None →
     ∃ e', (FF_Slice src f off n os).2 = Err e').
Proof.
  intros Hinv (Hoff & Hd & Hn & Hin). pose proof (FF_Slice_spec f m off n os Hinv Hoff Hd Hn Hin) as Hspec.
  destruct (FF_Slice src f off n os) as [f' r]. destruct Hspec as (m' & _ & Hg & Hr & Hstay & _ & Hbad & _). split.
  - intros k e x Hkd Hk Hf Hx Hp. destruct (Hbad k e Hkd Hk Hf) as [e' ->]; [by exists x|].
    exists e'. split; [done|]. by apply (gr_fetch _ _ _ _ Hg).
  - intros x Hx Hnc Hp. simpl. destruct r as [b|e|]; [|by eexists|done].
    destruct Hr as [_ Hall]. by destruct (Hstay x Hx Hnc Hp (Hall x Hx)).
Qed.

(** ** WriteTo *)
Lemma peek_end f m x : chunk_inv f m → (cblockSize (ff_cache f) | ff_size f) → ff_size f ≤ x →
  x / cblockSize (ff_cache f) * cblockSize (ff_cache f) ∉ cdirty (ff_cache f).
Proof.
  intros Hinv [q Hq] Hx Hin. pose proof (ci_size _ _ Hinv) as Hsz. pose proof (ci_wf _ _ Hinv) as Hwf.
  destruct (cw_keys _ _ Hwf _ Hin) as (y & Hy & Eyx). pose proof (cw_bs _ _ Hwf) as Hbs.
  set (bs := cblockSize (ff_cache f)) in *. pose proof (Z.mul_div_le y bs Hbs). pose proof (Z.div_le_lower_bound x bs q Hbs).
  nia.
Qed.

(** A read that passes the end of the object never succeeds. *)
Lemma FF_Slice_past_end f m off n os :
  chunk_inv f m → chunks_inside f off n → (cblockSize (ff_cache f) | ff_size f) → (cblockSize (ff_cache f) | off) →
  n ≤ MemoryChunkSize → ff_size f < off + n →
  ∃ e m', (FF_Slice src f off n os).2 = Err e ∧ chunk_inv (FF_Slice src f off n os).1 m'.
Proof.
  intros Hinv Hins Hbsz Hd Hn Hpast.
  assert (∀ f m, chunk_inv f m → (cblockSize (ff_cache f) | ff_size f) → (cblockSize (ff_cache f) | off) →
    0 ≤ off ≤ ff_size f → ff_size f < off + n → Slice (ff_cache f) off n = Err BytesNotAvailableError) as Hna.
  { clear f m Hinv Hins Hbsz Hd Hpast. intros f m Hinv Hbsz Hd Hoff Hpast. pose proof (ci_wf _ _ Hinv) as Hwf.
    pose proof (ci_size _ _ Hinv) as Hsz. pose proof (ci_fit _ _ Hinv) as Hfit. pose proof (cw_bs _ _ Hwf) as Hbs.
    assert (cblockSize (ff_cache f) ≤ MemoryChunkSize) by (apply Z.divide_pos_le; [done|apply (ci_bs _ _ Hinv)]).
    unfold Slice, isClosed. rewrite (cw_open _ _ Hwf), (cw_mmap _ _ Hwf), (ci_clean _ _ Hinv).
    destruct (isCached_spec (ff_cache f) off n) as (r & -> & Hr); [done|lia|done|lia|lia|]. simpl.
    destruct r; [|done]. exfalso. apply (peek_end f m (off + n - 1) Hinv Hbsz ltac:(lia)), Hr; [done|lia]. }
  pose proof Hins as (Hoff & _ & _). unfold FF_Slice. rewrite (Hna f m) by (done || lia).
  destruct (fetchToCache_spec f m off n os Hinv Hins) as (f' & r & m' & -> & Hinv' & Hg & _).
  destruct r as [e|]; [by eexists _, m'|].
  rewrite (Hna f' m'); [by eexists _, m'|done|rewrite ?(gr_bs _ _ _ _ Hg), ?(gr_size _ _ _ _ Hg); (done || lia)..].
Qed.

Lemma first_chunk_aligned i : (MemoryChunkSize | i) → first_chunk i = i.
Proof. intros [a ->]. unfold first_chunk. by rewrite Z.div_mul by done. Qed.
Lemma one_chunk : (MemoryChunkSize + MemoryChunkSize - 1) / MemoryChunkSize = 1.
Proof. done. Qed.
Lemma aligned_covered i x : (MemoryChunkSize | i) → i ≤ x < i + MemoryChunkSize → covered i MemoryChunkSize x.
Proof. intros Hi Hx. unfold covered. rewrite first_chunk_aligned, one_chunk by done. lia. Qed.

Lemma copy_all (n : Z) (r : res ChunkError (list byte)) (b : list byte) :
  zlength b = n → r = Ok b → take (Z.to_nat n) <$> r = Ok b.
Proof. intros Hl ->. cbn. f_equal. apply firstn_all2. unfold zlength in Hl. lia. Qed.

(** The read of one whole chunk. *)
Lemma FF_ReadAt_chunk f m i os :
  chunk_inv f m → 0 ≤ i → (MemoryChunkSize | i) → i + MemoryChunkSize ≤ ff_size f →
  let '(f', r) := FF_ReadAt src f MemoryChunkSize i os in
  ∃ m', chunk_inv f' m' ∧ grows f m f' m' ∧
    match r with Ok b => b = object_bytes src i MemoryChunkSize | Err _ => True | Panic => False end ∧
    ((∀ k, healthy (ff_size f) k (os k)) → (∀ k, unpoisoned f k) →
     (∀ k, unpoisoned f' k) ∧ r = Ok (object_bytes src i MemoryChunkSize)).
Proof.
  intros Hinv Hi Hd Hin. unfold FF_ReadAt.
  pose proof (FF_Slice_spec f m i MemoryChunkSize os Hinv Hi) as Hs.
  destruct (FF_Slice src f i MemoryChunkSize os) as [f' r].
  destruct Hs as (m' & Hinv' & Hg & Hr & _ & Hok & _ & Hun); [etrans; [apply (ci_bs _ _ Hinv)|done]|done|done|].
  pose proof (object_bytes_length i MemoryChunkSize ltac:(done)) as Hl.
  assert (∀ e, r = Err e → take (Z.to_nat MemoryChunkSize) <$> r = Err e) as Herr by (by intros e ->).
  exists m'. split_and!; [done|done| |].
  - destruct r as [b|e|]; [|by rewrite (Herr e)|destruct Hr].
    destruct Hr as [-> _]. by rewrite (copy_all _ _ _ Hl eq_refl).
  - intros Hh Hu. split; [by apply Hun|]. destruct r as [b|e|]; [| |destruct Hr].
    + destruct Hr as [-> _]. exact (copy_all _ _ _ Hl eq_refl).
    + exfalso. destruct Hr as [[e' ->]|[-> (x & Hx & Hnc)]].
      * refine (Hok _ e' eq_refl). auto.
      * by apply Hnc, aligned_covered.
Qed.

Lemma object_bytes_app a b : 0 ≤ a → 0 ≤ b →
  object_bytes src 0 a ++ object_bytes src a b = object_bytes src 0 (a + b).
Proof. intros. unfold object_bytes. rewrite seqZ_app, fmap_app by lia. by rewrite Z.add_0_l. Qed.

Lemma writeto_copies fuel os ws : ∀ f m i,
  chunk_inv f m → 0 ≤ i ≤ ff_size f → (MemoryChunkSize | i) → (MemoryChunkSize | ff_size f) →
  ff_size f - i ≤ Z.of_nat fuel → (∀ r k, healthy (ff_size f) k (os r k)) → (∀ k, unpoisoned f k) →
  (∀ r, ws r = true) →
  (writeto_loop src fuel f i os ws (object_bytes src 0 i)).2 = Some (Ok (object_bytes src 0 (ff_size f))).
Proof.
  pose proof MemoryChunkSize_pos as HCS.
  induction fuel as [|fuel IH]; intros f m i Hinv Hi Hd Hds Hfuel Hh Hu Hw; cbn [writeto_loop].
  all: destruct (Z.ltb_spec i (ff_size f)); cbn [negb]; [|by replace i with (ff_size f) by lia].
  1: lia.
  assert (i + MemoryChunkSize ≤ ff_size f) as Hle.
  { assert (MemoryChunkSize ≤ ff_size f - i); [|lia]. apply Z.divide_pos_le; [lia|]. by apply Z.divide_sub_r. }
  pose proof (FF_ReadAt_chunk f m i (os fuel) Hinv ltac:(lia) Hd Hle) as Hc.
  destruct (FF_ReadAt src f MemoryChunkSize i (os fuel)) as [f' r].
  destruct Hc as (m' & Hinv' & Hg & _ & Hok). destruct (Hok (Hh fuel) Hu) as [Hu' ->]. rewrite (Hw fuel). cbn [negb].
  pose proof (ci_fit _ _ Hinv) as Hfit. pose proof (ci_size _ _ Hinv) as Hsz. pose proof (gr_size _ _ _ _ Hg) as Es.
  unfold maxI64 in *. rewrite i64_small, object_bytes_app by lia. rewrite (IH f' m'); rewrite ?Es; try done; try lia.
  by apply Z.divide_add_r.
Qed.

Lemma writeto_fails fuel os ws : ∀ f m i out,
  chunk_inv f m → 0 ≤ i ≤ ff_size f → (MemoryChunkSize | i) → ¬ (MemoryChunkSize | ff_size f) →
  (cblockSize (ff_cache f) | ff_size f) → ff_size f - i ≤ Z.of_nat fuel →
  ∃ e, (writeto_loop src fuel f i os ws out).2 = Some (Err e).
Proof.
  pose proof MemoryChunkSize_pos as HCS.
  induction fuel as [|fuel IH]; intros f m i out Hinv Hi Hd Hnd Hbsz Hfuel; cbn [writeto_loop].
  all: destruct (Z.ltb_spec i (ff_size f)); cbn [negb]; [|by replace i with (ff_size f) in Hd by lia].
  1: lia.
  destruct (decide (i + MemoryChunkSize ≤ ff_size f)) as [Hle|Hgt].
  - pose proof (FF_ReadAt_chunk f m i (os fuel) Hinv ltac:(lia) Hd Hle) as Hc.
    destruct (FF_ReadAt src f MemoryChunkSize i (os fuel)) as [f' r].
    destruct Hc as (m' & Hinv' & Hg & Hb & _). destruct r as [b|e|]; [|by eexists|destruct Hb].
    destruct (ws fuel); cbn [negb]; [|by eexists].
    pose proof (ci_fit _ _ Hinv) as Hfit. pose proof (ci_size _ _ Hinv) as Hsz. pose proof (gr_size _ _ _ _ Hg) as Es.
    unfold maxI64 in *. rewrite i64_small by lia. apply (IH f' m'); rewrite ?Es, ?(gr_bs _ _ _ _ Hg); try done; try lia.
    by apply Z.divide_add_r.
  - destruct (FF_Slice_past_end f m i MemoryChunkSize (os fuel) Hinv) as (e & m' & He & _); [|done| |lia|lia|].
    + split_and!; [lia..|]. rewrite one_chunk, first_chunk_aligned by done. intros j Hj. assert (j = 0) as -> by lia. lia.
    + etrans; [apply (ci_bs _ _ Hinv)|done].
    + unfold FF_ReadAt. destruct (FF_Slice src f i MemoryChunkSize (os fuel)) as [f' r]. simpl in He. subst r. by eexists.
Qed.

(** [WriteTo] always ends.  It writes exactly the object when the size is a
    multiple of the chunk size and the fetches and the writes succeed; for any other size it fails,
    whatever the fetches meet: the last read asks for a whole chunk, past the end,
    and those blocks never become available. *)
Theorem FF_WriteTo_copies (f : FullFetchChunker) (m : list byte) (os : nat → Z → fetch_outcome) (ws : nat → bool) :
  chunk_inv f m → (cblockSize (ff_cache f) | ff_size f) →
  ((MemoryChunkSize | ff_size f) → (∀ r k, healthy (ff_size f) k (os r k)) → (∀ k, unpoisoned f k) →
     (∀ r, ws r = true) → (FF_WriteTo src f os ws).2 = Some (Ok (object_bytes src 0 (ff_size f)))) ∧
  (¬ (MemoryChunkSize | ff_size f) → ∃ e, (FF_WriteTo src f os ws).2 = Some (Err e)).
Proof.
  intros Hinv Hbsz. pose proof (cw_size _ _ (ci_wf _ _ Hinv)) as Hs. rewrite <- (ci_size _ _ Hinv) in Hs.
  unfold FF_WriteTo. split.
  - intros Hd Hh Hu Hw. apply (writeto_copies _ os ws f m 0); first [done|apply Z.divide_0_r|rewrite Z2Nat.id by lia; lia|lia].
  - intros Hnd. apply (writeto_fails _ os ws f m 0); first [done|apply Z.divide_0_r|rewrite Z2Nat.id by lia; lia|lia].
Qed.
End chunker_laws.

(** ** Concrete chunkers *)
Definition ex_src : Z → byte := λ _, x01.
Definition ex_file : FileResult := mkFile (Some []) true true.
Definition ex_full : Z → fetch_outcome := λ _, Upstream MemoryChunkSize false.
Definition ex_chunker (size : Z) (done : gmap Z (option ChunkError)) : FullFetchChunker :=
  mkFullFetch (mkCache "c" size 4 (Some (truncated [] size)) ∅ false false) size done.

Lemma ex_full_healthy size k : healthy size k (ex_full k).
Proof. apply Z.le_min_l. Qed.

Lemma ex_chunker_inv size done :
  0 < size → size + 2 * MemoryChunkSize ≤ maxI64 → (∀ k, done !! k ≠ Some None) →
  chunk_inv ex_src (ex_chunker size done) (truncated [] size).
Proof.
  intros Hs Hfit Hdone. pose proof MemoryChunkSize_pos. assert (4 ≤ MemoryChunkSize) by done.
  split; simpl; try done; [|by exists 1048576|intros k x Hk; by destruct (Hdone k)].
  split; simpl; try done; try lia. unfold truncated, zlength. rewrite length_app, length_take, length_replicate. simpl. lia.
Qed.

Lemma FF_Slice_serves_witness :
  ∃ f, NewFullFetchChunker ex_file 8 4 "c" = Ok f ∧
    Forall2 (served ex_src 8 true) [(4, 4, ex_full); (0, 8, ex_full)]
      (slices ex_src f [(4, 4, ex_full); (0, 8, ex_full)]).2.
Proof.
  eexists. split; [reflexivity|].
  apply (FF_Slice_serves ex_src ex_file 8 4 "c"); [reflexivity|reflexivity|reflexivity|by exists 1048576|by vm_compute| |].
  - intros off n os Hin. rewrite !elem_of_cons in Hin. destruct Hin as [[= -> -> ->]|[[= -> -> ->]|[]%not_elem_of_nil]].
    + split_and!; first [done|by exists 1].
    + split_and!; first [done|by exists 0].
  - intros _ off n os k Hin. rewrite !elem_of_cons in Hin.
    destruct Hin as [[= -> -> ->]|[[= -> -> ->]|[]%not_elem_of_nil]]; apply ex_full_healthy.
Defined.

Lemma FF_Slice_fails_witness :
  (∃ e, (FF_Slice ex_src (ex_chunker 8 {[0 := Some ErrFetchContext]}) 0 4 ex_full).2 = Err (ErrEnsure e)) ∧
  (∃ e, (FF_Slice ex_src (ex_chunker (MemoryChunkSize + 8) ∅) (MemoryChunkSize - 4) 8 ex_full).2 = Err e).
Proof.
  split.
  - destruct (FF_Slice_fails ex_src (ex_chunker 8 {[0 := Some ErrFetchContext]}) (truncated [] 8) 0 4 ex_full) as [Hp _].
    + apply ex_chunker_inv; [done..|]. intros k [_ Hk]%lookup_singleton_Some. discriminate.
    + split_and!; first [done|apply Z.divide_0_r].
    + destruct (Hp 0 ErrFetchContext 0) as (e & He & _); [apply Z.divide_0_r|done|reflexivity|done|reflexivity|]. by exists e.
  - destruct (FF_Slice_fails ex_src (ex_chunker (MemoryChunkSize + 8) ∅) (truncated [] (MemoryChunkSize + 8))
      (MemoryChunkSize - 4) 8 ex_full) as [_ Hc].
    + apply ex_chunker_inv; [done..|]. intros k. rewrite lookup_empty. discriminate.
    + split_and!; first [done|by exists 1048575].
    + apply (Hc MemoryChunkSize); [done| |reflexivity]. by intros [_ ?].
Defined.

Lemma FF_WriteTo_copies_witness :
  (FF_WriteTo ex_src (ex_chunker MemoryChunkSize ∅) (λ _, ex_full) (λ _, true)).2 =
    Some (Ok (object_bytes ex_src 0 MemoryChunkSize)) ∧
  ∃ e, (FF_WriteTo ex_src (ex_chunker 8 ∅) (λ _, ex_full) (λ _, true)).2 = Some (Err e).
Proof.
  split.
  - apply (FF_WriteTo_copies ex_src (ex_chunker MemoryChunkSize ∅) (truncated [] MemoryChunkSize) (λ _, ex_full) (λ _, true)).
    + apply ex_chunker_inv; [done..|]. intros k. rewrite lookup_empty. discriminate.
    + by exists 1048576.
    + by exists 1.
    + intros _ k. apply ex_full_healthy.
    + intros k e. simpl. rewrite lookup_empty. discriminate.
    + done.
  - apply (FF_WriteTo_copies ex_src (ex_chunker 8 ∅) (truncated [] 8) (λ _, ex_full) (λ _, true)).
    + apply ex_chunker_inv; [done..|]. intros k. rewrite lookup_empty. discriminate.
    + by exists 2.
    + intros [q Hq]. simpl in Hq. unfold MemoryChunkSize in Hq. lia.
Defined.
