(* ===== verification/Stream.v ===== *)
(** * Streaming fetches of a remote object

    packages/orchestrator/internal/sandbox/block/[streaming_chunk.go]:
    [StreamingChunker] fetches chunks of 4 MiB in the background and serves a
    reader as soon as the blocks it needs have arrived.  A chunk that is being
    fetched has a [fetchSession]; goroutines that need it register as waiters and
    sleep on a channel that the fetch closes.

    The system is the cache, the sessions, the channels, the goroutines of the
    [Slice] calls and the calls.  A step ([slabel]) is one critical section
    ([fetchMu] or the session's [mu]), one atomic load, one update of the cache or
    one operation on a channel; what the upstream does is in the label.  The reader
    of a fetch delivers the bytes of the object in order and may end early, after
    [avail] bytes.  [setIsCached] and [isCached] are one step each, and the chunker
    is not closed while calls are under way ([Close] waits for the fetches). *)
From Stdlib Require Import Init.Byte.
From S2P Require Import Prelude Bitset Mapping BlockRange BlockCache SyncUtils Chunk.

Definition defaultMinReadBatchSize : Z := 16 * 1024.

Inductive StreamError : Type :=
  | ErrChunkAddress (e : CacheError)       (** [addressBytes] *)
  | ErrOpenRangeReader
  | ErrReadingAt (totalRead : Z)
  | ErrFetchPanicked
  | ErrFetchFailed (e : StreamError)
  | ErrRangeNotCached
  | ErrWaiterContext                       (** the caller's context was done *)
  | ErrStreamLocalRead (e : CacheError)
  | ErrStreamEnsure (e : StreamError)
  | ErrStreamReadAgain (e : CacheError).

(** A channel of capacity 1 that is written at most once before it is closed. *)
Inductive chan := ChOpen | ChClosed (sent : option StreamError).

Record rangeWaiter := mkWaiter { endByte : Z; wch : nat }.

Inductive read_err := NoErr | EOF | OtherErr.
#[export] Instance read_err_eq_dec : EqDecision read_err.
Proof. solve_decision. Defined.

(** The variables of [progressiveRead]; [mlen] is [len(mmapSlice)]. *)
Record reading := mkReading { mlen : Z; avail : Z; readBatch : Z; totalRead : Z; prevCompleted : Z }.

(** Where [runFetch] stands. *)
Inductive fetch_pc :=
  | FAddress                                   (** [addressBytes] *)
  | FOpen (mlen : Z)                           (** [OpenRangeReader] *)
  | FRead (r : reading)                        (** [reader.Read] *)
  | FMark (r : reading) (completed : Z) (e : read_err)  (** [setIsCached] *)
  | FNotify (r : reading) (e : read_err)       (** [bytesReady.Store], [notifyWaiters] *)
  | FAfter (r : reading) (e : read_err)        (** the tests of [readErr] *)
  | FFail (e : StreamError) (onlyIfRunning : bool)  (** [setError] *)
  | FFinish                                    (** [setDone] *)
  | FDelete                                    (** the deferred [delete] *)
  | FEnd.

Record fetchSession := mkSession {
  chunkOff : Z;
  chunkLen : Z;
  waiters : list rangeWaiter;
  fetchErr : option StreamError;
  bytesReady : Z;
  fpc : fetch_pc;
}.
Definition with_waiters (s : fetchSession) (ws : list rangeWaiter) : fetchSession :=
  mkSession (chunkOff s) (chunkLen s) ws (fetchErr s) (bytesReady s) (fpc s).
Definition with_fetchErr (s : fetchSession) (e : StreamError) : fetchSession :=
  mkSession (chunkOff s) (chunkLen s) (waiters s) (Some e) (bytesReady s) (fpc s).
Definition with_bytesReady (s : fetchSession) (n : Z) : fetchSession :=
  mkSession (chunkOff s) (chunkLen s) (waiters s) (fetchErr s) n (fpc s).
Definition with_fpc (s : fetchSession) (p : fetch_pc) : fetchSession :=
  mkSession (chunkOff s) (chunkLen s) (waiters s) (fetchErr s) (bytesReady s) p.

Definition terminated (s : fetchSession) : bool :=
  bool_decide (is_Some (fetchErr s)) || (bytesReady s =? chunkLen s).

(** [slices.BinarySearchFunc] finds the first waiter of a sorted list whose
    [endByte] is not below the target; [slices.Insert] puts the new one there. *)
Fixpoint insert_waiter (w : rangeWaiter) (ws : list rangeWaiter) : list rangeWaiter :=
  match ws with
  | [] => [w]
  | x :: ws' => if endByte w <=? endByte x then w :: ws else x :: insert_waiter w ws'
  end.

(** [notifyWaiters]: the session, and the channels to close with what is sent. *)
Fixpoint pop_ready (ready : Z) (ws : list rangeWaiter) : list rangeWaiter * list rangeWaiter :=
  match ws with
  | [] => ([], [])
  | w :: ws' => if endByte w <=? ready then let '(l, r) := pop_ready ready ws' in (w :: l, r) else ([], ws)
  end.
Definition notifyWaiters (s : fetchSession) (sendErr : option StreamError)
    : fetchSession * list (nat * option StreamError) :=
  let ready := bytesReady s in
  if terminated s then
    (with_waiters s [],
     (λ w, (wch w, if bool_decide (is_Some sendErr) && (ready <? endByte w) then sendErr else None)) <$> waiters s)
  else
    let '(l, r) := pop_ready ready (waiters s) in
    (with_waiters s r, (λ w, (wch w, None)) <$> l).

Definition setDone (s : fetchSession) : fetchSession * list (nat * option StreamError) :=
  notifyWaiters (with_bytesReady s (chunkLen s)) None.
Definition setError (s : fetchSession) (err : StreamError) (onlyIfRunning : bool)
    : fetchSession * list (nat * option StreamError) :=
  if onlyIfRunning && terminated s then (s, [])
  else notifyWaiters (with_fetchErr s err) (Some err).

(** Closing a closed channel panics. *)
Fixpoint close_all (chans : list chan) (cs : list (nat * option StreamError)) : res () (list chan) :=
  match cs with
  | [] => Ok chans
  | (i, e) :: cs =>
      match chans !! i with
      | Some ChOpen => close_all (<[i := ChClosed e]> chans) cs
      | _ => Panic
      end
  end.

(** What the upstream does. *)
Inductive fetch_event :=
  | FvNext                                    (** a step of our own *)
  | FvOpen (r : option (Z * Z))               (** the reader ([avail]), with [getMinReadBatchSize] *)
  | FvRead (n : Z) (e : read_err)
  | FvPanic.                                  (** the upstream panics *)

Section stream.
Context (src : Z → byte).

(** The test of the [for] loop of [progressiveRead]. *)
Definition read_loop (s : fetchSession) (r : reading) : fetch_pc :=
  if totalRead r <? chunkLen s then FRead r else FFinish.

(** One [Read] and what follows it up to the marking; [Err] is a label the reader
    cannot follow. *)
Definition read_step (c : Cache) (s : fetchSession) (r : reading) (n : Z) (e : read_err) : res () (Cache * fetch_pc) :=
  let readEnd := Z.min (i64 (totalRead r + readBatch r)) (chunkLen s) in
  if negb ((0 <=? totalRead r) && (totalRead r <=? readEnd) && (readEnd <=? mlen r)) then Ok (c, FFail ErrFetchPanicked true)
  else if negb ((0 <=? n) && (n <=? readEnd - totalRead r) && (totalRead r + n <=? avail r)
                && (bool_decide (e ≠ EOF) || (totalRead r + n =? avail r))) then Err ()
  else
    let c := match cmmap c with
             | Some m => set_mmap c (splice m (chunkOff s + totalRead r) (object_bytes src (chunkOff s + totalRead r) n))
             | None => c
             end in
    let r := mkReading (mlen r) (avail r) (readBatch r) (i64 (totalRead r + n)) (prevCompleted r) in
    match go_div (E := ()) (totalRead r) (cblockSize c) with
    | Ok completed => Ok (c, if prevCompleted r <? completed then FMark r completed e else FAfter r e)
    | _ => Ok (c, FFail ErrFetchPanicked true)
    end.

(** One step of [runFetch] and [progressiveRead]; the third component is what is
    closed. *)
Definition fetch_step (c : Cache) (s : fetchSession) (ev : fetch_event)
    : res () (Cache * fetchSession * list (nat * option StreamError)) :=
  let bs := cblockSize c in
  match fpc s, ev with
  | FAddress, FvNext =>
      match addressBytes c (chunkOff s) (chunkLen s) with
      | Ok b => Ok (c, with_fpc s (FOpen (zlength b)), [])
      | Err e => Ok (c, with_fpc s (FFail (ErrChunkAddress e) false), [])
      | Panic => Ok (c, with_fpc s (FFail ErrFetchPanicked true), [])
      end
  | FOpen _, FvOpen None => Ok (c, with_fpc s (FFail ErrOpenRangeReader false), [])
  | FOpen len, FvOpen (Some (av, minReadBatchSize)) =>
      Ok (c, with_fpc s (read_loop s (mkReading len (Z.max 0 (Z.min av (chunkLen s))) (Z.max bs minReadBatchSize) 0 0)), [])
  | (FOpen _ | FRead _), FvPanic => Ok (c, with_fpc s (FFail ErrFetchPanicked true), [])
  | FRead r, FvRead n e => '(c, p) ← read_step c s r n e; Ok (c, with_fpc s p, [])
  | FMark r completed e, FvNext =>
      match setIsCached c (i64 (chunkOff s + i64 (prevCompleted r * bs))) (i64 (i64 (completed - prevCompleted r) * bs)) with
      | Ok c => Ok (c, with_fpc s (FNotify (mkReading (mlen r) (avail r) (readBatch r) (totalRead r) completed) e), [])
      | _ => Ok (c, with_fpc s (FFail ErrFetchPanicked true), [])
      end
  | FNotify r e, FvNext =>
      let '(s, cs) := notifyWaiters (with_bytesReady s (i64 (prevCompleted r * bs))) None in
      Ok (c, with_fpc s (FAfter r e), cs)
  | FAfter r e, FvNext =>
      match e with
      | EOF =>
          if i64 (prevCompleted r * bs) <? totalRead r then
            match setIsCached c (i64 (chunkOff s + i64 (prevCompleted r * bs))) (i64 (totalRead r - i64 (prevCompleted r * bs))) with
            | Ok c => Ok (c, with_fpc s FFinish, [])
            | _ => Ok (c, with_fpc s (FFail ErrFetchPanicked true), [])
            end
          else Ok (c, with_fpc s FFinish, [])
      | OtherErr => Ok (c, with_fpc s (FFail (ErrReadingAt (totalRead r)) false), [])
      | NoErr => Ok (c, with_fpc s (read_loop s r), [])
      end
  | FFail err onlyIfRunning, FvNext =>
      let '(s, cs) := setError s err onlyIfRunning in Ok (c, with_fpc s FDelete, cs)
  | FFinish, FvNext => let '(s, cs) := setDone s in Ok (c, with_fpc s FDelete, cs)
  | FDelete, FvNext => Ok (c, with_fpc s FEnd, [])
  | _, _ => Err ()
  end.

(** ** The callers *)
Inductive go_pc :=
  | GStart                              (** before [getOrCreateSession] *)
  | GRegister (sid : nat)               (** the lock-free check of [registerAndWait] *)
  | GLock (sid : nat)                   (** its critical section *)
  | GCheck (sid : nat) (fetchErr : option StreamError)   (** terminated: [isCached] *)
  | GWait (sid : nat) (ch : nat)        (** the [select] *)
  | GDone (err : option StreamError).

(** A goroutine of the [errgroup] of [Slice], with its clipped range. *)
Record goroutine := mkGo { fetchOff : Z; clippedOff : Z; clippedLen : Z; gpc : go_pc }.
Definition with_gpc (g : goroutine) (p : go_pc) : goroutine := mkGo (fetchOff g) (clippedOff g) (clippedLen g) p.

Record slice_call := mkCall {
  s_off : Z;
  s_len : Z;
  s_gos : list nat;
  s_res : option (res StreamError (list byte));
}.

Record stream_sys := mkStream {
  s_cache : Cache;
  s_size : Z;
  sessions : list fetchSession;
  fetchMap : gmap Z nat;
  chans : list chan;
  gos : list goroutine;
  s_calls : list slice_call;
}.
Definition with_cache (t : stream_sys) (c : Cache) : stream_sys :=
  mkStream c (s_size t) (sessions t) (fetchMap t) (chans t) (gos t) (s_calls t).
Definition with_session (t : stream_sys) (sid : nat) (s : fetchSession) : stream_sys :=
  mkStream (s_cache t) (s_size t) (<[sid := s]> (sessions t)) (fetchMap t) (chans t) (gos t) (s_calls t).
Definition with_fetchMap (t : stream_sys) (m : gmap Z nat) : stream_sys :=
  mkStream (s_cache t) (s_size t) (sessions t) m (chans t) (gos t) (s_calls t).
Definition with_chans (t : stream_sys) (cs : list chan) : stream_sys :=
  mkStream (s_cache t) (s_size t) (sessions t) (fetchMap t) cs (gos t) (s_calls t).
Definition with_go (t : stream_sys) (i : nat) (g : goroutine) : stream_sys :=
  mkStream (s_cache t) (s_size t) (sessions t) (fetchMap t) (chans t) (<[i := g]> (gos t)) (s_calls t).
Definition with_call (t : stream_sys) (i : nat) (c : slice_call) : stream_sys :=
  mkStream (s_cache t) (s_size t) (sessions t) (fetchMap t) (chans t) (gos t) (<[i := c]> (s_calls t)).

Definition NewStreamingChunker (f : FileResult) (size blockSize : Z) (cachePath : string) : res CacheError stream_sys :=
  c ← NewCache f size blockSize cachePath false;
  Ok (mkStream c size [] ∅ [] [] []).

(** [registerAndWait]: the end of the last block of the range, in the chunk. *)
Definition endByteOf (bs off length chunkOff : Z) : res () Z :=
  lastBlockIdx ← go_div (i64 (i64 (i64 (off + length) - 1) - chunkOff)) bs;
  Ok (i64 (i64 (lastBlockIdx + 1) * bs)).

Definition getOrCreateSession (t : stream_sys) (fetchOff : Z) : res () (stream_sys * option nat) :=
  let chunkLen := Z.min MemoryChunkSize (i64 (s_size t - fetchOff)) in
  match fetchMap t !! fetchOff with
  | Some existing => Ok (t, Some existing)
  | None =>
      match isCached (s_cache t) fetchOff chunkLen with
      | Ok true => Ok (t, None)
      | Ok false =>
          let sid := length (sessions t) in
          Ok (mkStream (s_cache t) (s_size t)
                (sessions t ++ [mkSession fetchOff chunkLen [] None 0 FAddress])
                (<[fetchOff := sid]> (fetchMap t)) (chans t) (gos t) (s_calls t), Some sid)
      | _ => Panic
      end
  end.

(** The critical section of [registerAndWait]. *)
Definition register (t : stream_sys) (sid : nat) (g : goroutine) : res () (stream_sys * go_pc) :=
  match sessions t !! sid with
  | None => Err ()
  | Some s =>
      eb ← endByteOf (cblockSize (s_cache t)) (clippedOff g) (clippedLen g) (chunkOff s);
      if eb <=? bytesReady s then Ok (t, GDone None)
      else if terminated s then Ok (t, GCheck sid (fetchErr s))
      else
        let ch := length (chans t) in
        Ok (with_chans (with_session t sid (with_waiters s (insert_waiter (mkWaiter eb ch) (waiters s)))) (chans t ++ [ChOpen]),
            GWait sid ch)
  end.

(** A step of a goroutine; [ctx_done] picks the context in the [select]. *)
Definition go_step (t : stream_sys) (g : goroutine) (ctx_done : bool) : res () (stream_sys * go_pc) :=
  match gpc g with
  | GStart =>
      if clippedLen g <=? 0 then Ok (t, GDone None)
      else
        '(t, o) ← getOrCreateSession t (fetchOff g);
        Ok (t, match o with Some sid => GRegister sid | None => GDone None end)
  | GRegister sid =>
      match sessions t !! sid with
      | None => Err ()
      | Some s =>
          eb ← endByteOf (cblockSize (s_cache t)) (clippedOff g) (clippedLen g) (chunkOff s);
          Ok (t, if eb <=? bytesReady s then GDone None else GLock sid)
      end
  | GLock sid => register t sid g
  | GCheck sid ferr =>
      match isCached (s_cache t) (clippedOff g) (clippedLen g) with
      | Ok true => Ok (t, GDone None)
      | Ok false => Ok (t, GDone (Some (match ferr with Some e => ErrFetchFailed e | None => ErrRangeNotCached end)))
      | _ => Panic
      end
  | GWait sid ch =>
      if ctx_done then Ok (t, GDone (Some ErrWaiterContext))
      else match chans t !! ch with
           | Some (ChClosed e) => Ok (t, GDone e)
           | _ => Err ()
           end
  | GDone _ => Err ()
  end.

(** The [for] loop over the chunks that overlap the range, one goroutine each. *)
Fixpoint chunk_loop (fuel : nat) (fetchOff lastChunkOff : Z) : list Z :=
  match fuel with
  | O => []
  | S fuel => if fetchOff <=? lastChunkOff then fetchOff :: chunk_loop fuel (i64 (fetchOff + MemoryChunkSize)) lastChunkOff else []
  end.
Definition clip (size off length fetchOff : Z) : goroutine :=
  let chunkEnd := i64 (fetchOff + MemoryChunkSize) in
  let clippedOff := Z.max off fetchOff in
  let clippedEnd := Z.min (Z.min (i64 (off + length)) chunkEnd) size in
  mkGo fetchOff clippedOff (i64 (clippedEnd - clippedOff)) GStart.

(** [Slice] up to the start of its goroutines. *)
Definition slice_start (t : stream_sys) (off len : Z) : res () stream_sys :=
  let finish r := Ok (mkStream (s_cache t) (s_size t) (sessions t) (fetchMap t) (chans t) (gos t)
                        (s_calls t ++ [mkCall off len [] (Some r)])) in
  match Slice (s_cache t) off len with
  | Ok b => finish (Ok b)
  | Panic => Panic
  | Err BytesNotAvailableError =>
      firstChunk ← BlockIdx off MemoryChunkSize;
      lastChunk ← BlockIdx (i64 (i64 (off + len) - 1)) MemoryChunkSize;
      let first := BlockOffset firstChunk MemoryChunkSize in
      let last := BlockOffset lastChunk MemoryChunkSize in
      let gs := clip (s_size t) off len <$> chunk_loop (S (Z.to_nat (last - first))) first last in
      Ok (mkStream (s_cache t) (s_size t) (sessions t) (fetchMap t) (chans t) (gos t ++ gs)
            (s_calls t ++ [mkCall off len (seq (length (gos t)) (length gs)) None]))
  | Err e => finish (Err (ErrStreamLocalRead e))
  end.

(** [eg.Wait] and the rest of [Slice]; [k] is the goroutine whose error was first. *)
Definition go_result (t : stream_sys) (i : nat) : option (option StreamError) :=
  match gos t !! i with Some g => match gpc g with GDone e => Some e | _ => None end | None => None end.
Definition join (t : stream_sys) (c : slice_call) (k : nat) : res () (res StreamError (list byte)) :=
  match mapM (go_result t) (s_gos c) with
  | None => Err ()
  | Some rs =>
      if forallb (λ r, match r with None => true | _ => false end) rs then
        match Slice (s_cache t) (s_off c) (s_len c) with
        | Ok b => Ok (Ok b)
        | Err e => Ok (Err (ErrStreamReadAgain e))
        | Panic => Panic
        end
      else match rs !! k with
           | Some (Some e) => Ok (Err (ErrStreamEnsure e))
           | _ => Err ()
           end
  end.

Inductive slabel :=
  | LSlice (off len : Z)
  | LGo (i : nat) (ctx_done : bool)
  | LJoin (i : nat) (k : nat)
  | LFetch (sid : nat) (ev : fetch_event).

Definition stream_step (t : stream_sys) (l : slabel) : res () stream_sys :=
  match l with
  | LSlice off len => slice_start t off len
  | LGo i ctx_done =>
      match gos t !! i with
      | None => Err ()
      | Some g => '(t, p) ← go_step t g ctx_done; Ok (with_go t i (with_gpc g p))
      end
  | LJoin i k =>
      match s_calls t !! i with
      | Some c =>
          match s_res c with
          | None => r ← join t c k; Ok (with_call t i (mkCall (s_off c) (s_len c) (s_gos c) (Some r)))
          | Some _ => Err ()
          end
      | None => Err ()
      end
  | LFetch sid ev =>
      match sessions t !! sid with
      | None => Err ()
      | Some s =>
          '(c, s', cs) ← fetch_step (s_cache t) s ev;
          chs ← close_all (chans t) cs;
          let t := with_chans (with_session (with_cache t c) sid s') chs in
          Ok (match fpc s with FDelete => with_fetchMap t (delete (chunkOff s) (fetchMap t)) | _ => t end)
      end
  end.

(** A run; [Err] when a label cannot be taken. *)
Fixpoint stream_run (t : stream_sys) (ls : list slabel) : res () stream_sys :=
  match ls with
  | [] => Ok t
  | l :: ls => t ← stream_step t l; stream_run t ls
  end.

(** [WriteTo] and [ReadAt] go through [Slice]; [Close] closes the cache. *)
Definition SC_Close (t : stream_sys) (unmap remove : bool) : stream_sys * list CacheError :=
  let '(c, errs) := Close (s_cache t) unmap remove in (with_cache t c, errs).
End stream.
