(* ===== verification/StreamSafety.v ===== *)
(** * What the streaming chunker guarantees

    The invariant of the system of Stream.v and its theorems: what [Slice] may
    return, that no waiter is lost and a fetch ends, and what goes wrong when the
    reader of a fetch ends early. *)
From Stdlib Require Import Init.Byte.
From S2P Require Import Prelude Bitset Mapping BlockRange BlockCache SyncUtils Chunk Stream.

(** ** What the cache and the sessions keep

    The theorems hold at three levels of trust in the upstream: [AnyUp] nothing,
    [Aligned] a reader that ends early ends at a block boundary, [Healthy] a reader
    delivers its whole range. *)
Inductive level := AnyUp | Aligned | Healthy.

Section stream_laws.
Context (src : Z → byte) (lvl : level) (bs size : Z).
Implicit Types (c : Cache) (s : fetchSession) (t : stream_sys) (g : goroutine).

Definition cached c (x : Z) : Prop := x / bs * bs ∈ cdirty c.
Definition cached_range c (a b : Z) : Prop := ∀ x, a ≤ x < b → cached c x.
(** The first [n] bytes of the chunk have been written to the mapping. *)
Definition filled (m : list byte) (off n : Z) : Prop := ∀ x, off ≤ x < off + n → m !! Z.to_nat x = Some (src x).

Record cache_ok c (m : list byte) : Prop := {
  co_wf : cache_wf c m;
  co_clean : dirtyFile c = false;
  co_size : csize c = size;
  co_bs : cblockSize c = bs;
  co_pos : 0 < size ∧ 0 < bs;
  co_fit : size + 2 * MemoryChunkSize ≤ maxI64;
  co_div : (bs | MemoryChunkSize);
  co_div' : lvl = Healthy → (bs | size);
  co_src : lvl ≠ AnyUp → ∀ x b, 0 ≤ x → peek c m x = Some b → b = src x;
}.

(** What may change while others run. *)
Definition cache_grows c m c' m' : Prop :=
  (∀ x, cached c x → cached c' x) ∧ (∀ off n, 0 ≤ off → filled m off n → filled m' off n).
Lemma cache_grows_refl c m : cache_grows c m c m.
Proof. done. Qed.

Lemma co_bounds c m : cache_ok c m → 0 < bs ≤ MemoryChunkSize.
Proof. intros [_ _ _ _ [_ ?] _ Hd _ _]. split; [done|]. apply Z.divide_pos_le; [apply MemoryChunkSize_pos|done]. Qed.

Lemma aligned_block x off : 0 < bs → (bs | off) → off ≤ x → off ≤ x / bs * bs ≤ x.
Proof.
  intros Hbs [q ->] Hx. pose proof (Z.mul_div_le x bs Hbs). split; [|lia].
  apply Z.mul_le_mono_nonneg_r; [lia|]. apply Z.div_le_lower_bound; lia.
Qed.

(** Marking a range of which only bytes of the object are in the mapping. *)
Lemma mark_spec c m off n :
  cache_ok c m → 0 ≤ off → (bs | off) → 0 ≤ n → off + n ≤ size →
  (lvl ≠ AnyUp → (bs | n) ∨ off + n = size) → filled m off n →
  ∃ c', setIsCached c off n = Ok c' ∧ cache_ok c' m ∧ cache_grows c m c' m ∧ cached_range c' off (off + n).
Proof.
  intros Hc Hoff Hd Hn Hin Hend Hfill. pose proof (co_bounds _ _ Hc) as Hb.
  destruct Hc as [Hwf Hcl Hsz Hbs Hpos Hfit Hdiv Hdiv' Hsrc]. unfold maxI64 in *.
  unfold setIsCached. rewrite Hbs, BlocksOffsets_eq by (unfold maxI64; lia). cbn [mbind res_bind].
  set (c' := set_dirty c _). exists c'. split; [done|].
  assert (∀ k, k ∈ cdirty c' ↔ block_keys bs off n k ∨ k ∈ cdirty c) as Hk.
  { intros k. unfold c'. cbn [set_dirty cdirty]. rewrite elem_of_union, elem_of_list_to_set.
    rewrite blocks_offsets_keys by (unfold maxI64; done || lia). done. }
  assert (∀ x, cached c x → cached c' x) as Hmono by (intros x Hx; apply Hk; by right).
  split; [|split; [done|intros x Hx; apply Hk; left; by exists x]].
  split; try done.
  - destruct Hwf as [H1 H2 H3 H4 H5 H6 H7]. split; try done. intros k [(x & Hx & <-)|Hkc]%Hk; [|by apply H7].
    exists x. cbn. rewrite Hsz, Hbs. split; [lia|done].
  - intros Hl x b Hx0 Hpk. unfold peek in Hpk. change (cblockSize c') with (cblockSize c) in Hpk. rewrite Hbs in Hpk.
    case_decide as D; [|done]. apply Hk in D as [(y & Hy & Eyx)|D].
    + assert (off ≤ x) as Hox.
      { pose proof (Z.mul_div_le x bs). pose proof (aligned_block y off ltac:(lia) Hd ltac:(lia)). lia. }
      destruct (decide (x < off + n)) as [Hxn|Hxn].
      { rewrite Hfill in Hpk by lia. by injection Hpk as <-. }
      exfalso. destruct (Hend Hl) as [[q Hq]|He].
      * pose proof (aligned_block x (off + n) ltac:(lia) ltac:(apply Z.divide_add_r; [done|by exists q]) ltac:(lia)).
        pose proof (Z.mul_div_le y bs). lia.
      * apply lookup_lt_Some in Hpk. pose proof (cw_len _ _ Hwf) as Hl'. unfold zlength in Hl'. lia.
    + apply (Hsrc Hl x b Hx0). unfold peek. rewrite Hbs. by rewrite decide_True.
Qed.

(** Writing bytes of the object to the mapping. *)
Lemma fill_spec c m off n :
  cache_ok c m → 0 ≤ off → 0 ≤ n → off + n ≤ size →
  let m' := splice m off (object_bytes src off n) in
  cache_ok (set_mmap c m') m' ∧ cache_grows c m (set_mmap c m') m' ∧ filled m' off n.
Proof.
  intros [Hwf Hcl Hsz Hbs Hp Hfit Hdiv Hdiv' Hsrc] Hoff Hn Hin m'.
  pose proof (cw_len _ _ Hwf) as Hl. pose proof (object_bytes_length src off n Hn) as Hol.
  assert (∀ x, 0 ≤ x → m' !! Z.to_nat x = if decide (off ≤ x < off + n) then Some (src x) else m !! Z.to_nat x) as Hm'.
  { intros x Hx. unfold m'. rewrite splice_lookup by lia. rewrite Hol. case_decide as D; [|done].
    rewrite object_bytes_lookup by lia. do 2 f_equal. lia. }
  split_and!.
  - split; try done.
    + destruct Hwf as [H1 H2 H3 H4 H5 H6 H7]. split; try done. unfold m'. rewrite splice_length by lia. done.
    + intros Hlv x b Hx Hpk. unfold peek in Hpk. cbn [set_mmap cblockSize cdirty] in Hpk. case_decide as D; [|done].
      rewrite Hm' in Hpk by done. case_decide; [by injection Hpk as <-|].
      apply (Hsrc Hlv x b Hx). unfold peek. by rewrite decide_True.
  - split; [done|]. intros off' n' Ho' Hf x Hx. rewrite Hm' by lia. case_decide; [done|]. by apply Hf.
  - intros x Hx. rewrite Hm' by lia. by rewrite decide_True.
Qed.

(** ** Sessions *)
Definition avail_ok (len a : Z) : Prop :=
  0 ≤ a ≤ len ∧ (lvl ≠ AnyUp → (bs | a) ∨ a = len) ∧ (lvl = Healthy → a = len).

(** The loop of [progressiveRead]: what was read is in the mapping, whole blocks of
    it are marked. *)
Record reading_ok c (m : list byte) (off len : Z) (r : reading) : Prop := {
  rd_len : mlen r = len;
  rd_avail : avail_ok len (avail r);
  rd_prev : 0 ≤ prevCompleted r ∧ prevCompleted r * bs ≤ totalRead r ≤ avail r;
  rd_filled : filled m off (totalRead r);
  rd_cached : cached_range c off (off + prevCompleted r * bs);
}.
Definition pc_ok c m (off len : Z) (p : fetch_pc) : Prop :=
  match p with
  | FAddress | FFail _ _ | FDelete | FEnd => True
  | FOpen n => n = len
  | FRead r => reading_ok c m off len r ∧ totalRead r < len ∧ prevCompleted r = totalRead r / bs
  | FMark r completed e => reading_ok c m off len r ∧ completed = totalRead r / bs ∧ prevCompleted r < completed ∧
      (e = EOF → totalRead r = avail r)
  | FNotify r e | FAfter r e => reading_ok c m off len r ∧ prevCompleted r = totalRead r / bs ∧ (e = EOF → totalRead r = avail r)
  | FFinish => lvl = Healthy → cached_range c off (off + len)
  end.

Definition running (p : fetch_pc) : bool := match p with FDelete | FEnd => false | _ => true end.

Record session_ok c m (chs : list chan) s : Prop := {
  so_off : 0 ≤ chunkOff s < size ∧ (MemoryChunkSize | chunkOff s);
  so_len : chunkLen s = Z.min MemoryChunkSize (size - chunkOff s);
  so_ready : 0 ≤ bytesReady s ≤ chunkLen s;
  so_cached : lvl = Healthy → cached_range c (chunkOff s) (chunkOff s + bytesReady s);
  so_term : terminated s = true → waiters s = [];
  so_done : running (fpc s) = false → terminated s = true;
  so_err : running (fpc s) = true → fetchErr s = None;
  so_open w : w ∈ waiters s → chs !! wch w = Some ChOpen;
  so_nodup : NoDup (wch <$> waiters s);
  so_sorted : Sorted (λ v w, endByte v ≤ endByte w) (waiters s);
  so_asleep w : w ∈ waiters s → bytesReady s < endByte w;
  so_pc : pc_ok c m (chunkOff s) (chunkLen s) (fpc s);
}.

Lemma pc_ok_mono c m c' m' off len p : 0 ≤ off → cache_grows c m c' m' → pc_ok c m off len p → pc_ok c' m' off len p.
Proof.
  intros Ho [Hc Hm]. assert (∀ a b, cached_range c a b → cached_range c' a b) as Hr by (intros a b H x Hx; apply Hc, H, Hx).
  assert (∀ r, reading_ok c m off len r → reading_ok c' m' off len r) as Hrd by (intros r []; split; auto).
  destruct p; simpl; [done|done|intros (? & ? & ?)|intros (? & ? & ? & ?)|intros (? & ? & ?)|intros (? & ? & ?)|done|auto|done|done]; auto.
Qed.

Lemma session_ok_mono c m c' m' chs chs' s :
  cache_grows c m c' m' → (∀ w, w ∈ waiters s → chs' !! wch w = chs !! wch w) →
  session_ok c m chs s → session_ok c' m' chs' s.
Proof.
  intros Hg Hchs []. split; try done.
  - intros Hl x Hx. apply Hg. by apply so_cached0.
  - intros w Hw. rewrite Hchs by done. auto.
  - eapply pc_ok_mono; [|done|done]. lia.
Qed.

(** The channels that [close_all] closes. *)
Lemma close_all_spec chs cs :
  NoDup cs.*1 → (∀ i, i ∈ cs.*1 → chs !! i = Some ChOpen) →
  ∃ chs', close_all chs cs = Ok chs' ∧ (∀ i e, (i, e) ∈ cs → chs' !! i = Some (ChClosed e)) ∧
    (∀ i, i ∉ cs.*1 → chs' !! i = chs !! i).
Proof.
  revert chs. induction cs as [|[i e] cs IH]; intros chs Hnd Ho; simpl.
  { exists chs. split_and!; [done| |done]. intros i e []%not_elem_of_nil. }
  apply NoDup_cons in Hnd as [Hni Hnd]. rewrite (Ho i) by left.
  destruct (IH (<[i:=ChClosed e]> chs)) as (chs' & -> & Hin & Hout); [done| |].
  { intros j Hj. rewrite list_lookup_insert_ne by (intros ->; done). apply Ho. by right. }
  assert (i < length chs)%nat by (eapply lookup_lt_Some, Ho; left).
  exists chs'. split_and!; [done| |].
  - intros j e' [[= -> ->]|Hj]%elem_of_cons; [|by apply Hin].
    rewrite Hout by done. by apply list_lookup_insert_eq.
  - intros j [Hne Hj]%not_elem_of_cons. rewrite Hout by done. by apply list_lookup_insert_ne.
Qed.

Lemma close_all_not_err cs x : ∀ chs, close_all chs cs ≠ Err x.
Proof. induction cs as [|[i e] cs IH]; intros chs; simpl; [done|]. destruct (chs !! i) as [[|]|]; [apply IH|done..]. Qed.

Lemma pop_ready_spec ready ws l r :
  pop_ready ready ws = (l, r) → ws = l ++ r ∧ (∀ w, w ∈ l → endByte w ≤ ready) ∧
    (Sorted (λ v w, endByte v ≤ endByte w) ws → ∀ w, w ∈ r → ready < endByte w).
Proof.
  revert l r. induction ws as [|w ws IH]; intros l r Hp; simpl in Hp.
  { injection Hp as <- <-. split_and!; [done|set_solver|set_solver]. }
  destruct (Z.leb_spec (endByte w) ready).
  - destruct (pop_ready ready ws) as [l' r'] eqn:E. injection Hp as <- <-.
    destruct (IH l' r' eq_refl) as (-> & Hl & Hr). split_and!; [done| |].
    + intros v [->|Hv]%elem_of_cons; auto.
    + intros Hs. apply Sorted_inv in Hs as [Hs _]. auto.
  - injection Hp as <- <-. split_and!; [done|set_solver|].
    intros Hs v Hv. apply Sorted_StronglySorted in Hs; [|intros x y z; lia].
    apply StronglySorted_inv in Hs as [_ Hs]. rewrite Forall_forall in Hs.
    apply elem_of_cons in Hv as [->|Hv]; [done|]. specialize (Hs v Hv). simpl in Hs. lia.
Qed.

(** [notifyWaiters] wakes a prefix of the waiters, all of them at the end; one that
    is told [nil] has its bytes, or the fetch has reached the end of the chunk. *)
Lemma notify_spec s err s' cs :
  notifyWaiters s err = (s', cs) → Sorted (λ v w, endByte v ≤ endByte w) (waiters s) →
  ∃ l, waiters s = l ++ waiters s' ∧ s' = with_waiters s (waiters s') ∧ cs.*1 = wch <$> l ∧
    (terminated s = true → waiters s' = []) ∧
    (terminated s = false → ∀ w, w ∈ waiters s' → bytesReady s < endByte w) ∧
    (∀ i e, (i, e) ∈ cs → ∃ w, w ∈ l ∧ wch w = i ∧
       (e = None → (err = None → fetchErr s = None) → endByte w ≤ bytesReady s ∨ bytesReady s = chunkLen s)).
Proof.
  unfold notifyWaiters. intros Hn Hs. destruct (terminated s) eqn:Et.
  - injection Hn as <- <-. exists (waiters s). simpl. rewrite app_nil_r, <-list_fmap_compose. split_and!; try done.
    intros i e (w & [= -> ->] & Hw)%list_elem_of_fmap. exists w. split_and!; [done..|]. intros He Hne.
    unfold terminated in Et. apply orb_true_iff in Et as [Ee%bool_decide_eq_true|Eb%Z.eqb_eq]; [|by right].
    destruct err as [err|]; [|rewrite Hne in Ee by done; by destruct Ee].
    rewrite bool_decide_eq_true_2 in He by eauto. simpl in He. destruct (Z.ltb_spec (bytesReady s) (endByte w)); [done|by left].
  - destruct (pop_ready (bytesReady s) (waiters s)) as [l r] eqn:Ep. injection Hn as <- <-.
    destruct (pop_ready_spec _ _ _ _ Ep) as (Hw & Hl & Hr). exists l. simpl. rewrite <-list_fmap_compose.
    split_and!; try done; [by intros _; apply Hr|].
    intros i e (w & [= -> ->] & Hwl)%list_elem_of_fmap. exists w. split_and!; [done..|]. intros _ _. left. by apply Hl.
Qed.

Lemma insert_waiter_perm w ws : insert_waiter w ws ≡ₚ w :: ws.
Proof. induction ws as [|x ws IH]; simpl; [done|]. case_match; [done|]. rewrite IH. constructor. Qed.
Lemma insert_waiter_sorted w ws :
  Sorted (λ v w, endByte v ≤ endByte w) ws → Sorted (λ v w, endByte v ≤ endByte w) (insert_waiter w ws).
Proof.
  induction ws as [|x ws IH]; intros Hs; simpl; [by repeat constructor|].
  destruct (Z.leb_spec (endByte w) (endByte x)); [constructor; [done|by constructor]|].
  apply Sorted_inv in Hs as [Hs Hx]. constructor; [by apply IH|].
  destruct ws as [|y ws]; simpl; [constructor; lia|]. apply HdRel_inv in Hx. case_match; constructor; lia.
Qed.

Lemma chunkLen_pos c m chs s : cache_ok c m → session_ok c m chs s →
  0 < chunkLen s ≤ MemoryChunkSize ∧ chunkOff s + chunkLen s ≤ size ∧ (bs | chunkOff s) ∧ (lvl = Healthy → (bs | chunkLen s)) ∧
  (chunkLen s = MemoryChunkSize ∨ chunkOff s + chunkLen s = size).
Proof.
  intros Hc []. pose proof MemoryChunkSize_pos. pose proof (co_div _ _ Hc) as Hd. destruct so_off0 as [? Ho].
  assert (bs | chunkOff s) by (by etrans). split_and!; [lia..|done| |lia].
  intros Hl. rewrite so_len0. apply Z.min_case; [done|]. apply Z.divide_sub_r; [by apply (co_div' _ _ Hc)|done].
Qed.

(** What a step of a fetch does to its session and to the channels. *)
Definition closes_ok c s (l : list rangeWaiter) (cs : list (nat * option StreamError)) : Prop :=
  cs.*1 = wch <$> l ∧ ∀ i e, (i, e) ∈ cs → ∃ w, w ∈ l ∧ wch w = i ∧
    (e = None → lvl = Healthy → cached_range c (chunkOff s) (chunkOff s + Z.min (endByte w) (chunkLen s))).

Record session_step c m s c' m' s' (cs : list (nat * option StreamError)) : Prop := {
  ss_cache : cache_ok c' m';
  ss_grows : cache_grows c m c' m';
  ss_off : chunkOff s' = chunkOff s;
  ss_len : chunkLen s' = chunkLen s;
  ss_closes : ∃ l, waiters s = l ++ waiters s' ∧ closes_ok c' s l cs;
  ss_ok chs : (∀ w, w ∈ waiters s' → chs !! wch w = Some ChOpen) → session_ok c' m' chs s';
}.

Lemma step_pc c m chs s c' m' p :
  session_ok c m chs s → running (fpc s) = true → running p = true →
  cache_ok c' m' → cache_grows c m c' m' → pc_ok c' m' (chunkOff s) (chunkLen s) p → session_step c m s c' m' (with_fpc s p) [].
Proof.
  intros Hs Hr Hp Hc Hg Hpc. split; try done.
  - exists []. split; [done|]. split; [done|]. set_solver.
  - intros chs' Ho. destruct (session_ok_mono c m c' m' chs chs s Hg ltac:(done) Hs). split; try done.
    + by simpl; rewrite Hp.
    + intros _. by apply (so_err _ _ _ _ Hs).
Qed.

Lemma step_notify c m chs s s1 err s2 cs p :
  session_ok c m chs s → cache_ok c m →
  chunkOff s1 = chunkOff s → chunkLen s1 = chunkLen s → waiters s1 = waiters s →
  0 ≤ bytesReady s1 ≤ chunkLen s → (lvl = Healthy → cached_range c (chunkOff s) (chunkOff s + bytesReady s1)) →
  (running p = true ∨ err = None → fetchErr s1 = None) → (running p = false → terminated s1 = true) →
  pc_ok c m (chunkOff s) (chunkLen s) p → notifyWaiters s1 err = (s2, cs) → session_step c m s c m (with_fpc s2 p) cs.
Proof.
  intros Hs Hc Eo El Ew Hr Hca Hfe Hte Hpc Hn. pose proof (so_sorted _ _ _ _ Hs) as Hso. rewrite <- Ew in Hso.
  destruct (notify_spec s1 err s2 cs Hn Hso) as (l & Hws & E2 & Hfst & Hterm & Hasl & Hcl).
  rewrite Ew in Hws. rewrite Hws in *. rewrite Ew in Hso. pose proof (chunkLen_pos _ _ _ _ Hc Hs) as (Hlp & _).
  assert (terminated s2 = terminated s1) as Et by (by rewrite E2).
  assert (bytesReady s2 = bytesReady s1) as Eb by (by rewrite E2).
  assert (chunkOff s2 = chunkOff s ∧ chunkLen s2 = chunkLen s) as [Eo2 El2] by (rewrite E2; by split).
  assert (fetchErr s2 = fetchErr s1) as Ef by (by rewrite E2).
  pose proof (so_nodup _ _ _ _ Hs) as Hnd. rewrite Hws, fmap_app in Hnd. apply NoDup_app in Hnd as (_ & _ & Hnd).
  split; simpl; try done.
  - exists l. split; [done|]. split; [done|]. intros i e Hie. destruct (Hcl i e Hie) as (w & Hw & Hwi & He).
    exists w. split_and!; [done..|]. intros Hen Hl. destruct (He Hen) as [Hle|Heq]; [by auto| |].
    + intros x Hx. apply (Hca Hl). lia.
    + rewrite El in Heq. intros x Hx. apply (Hca Hl). lia.
  - intros chs' Ho. split; simpl; rewrite ?Eo2, ?El2, ?Eb; try done.
    + apply (so_off _ _ _ _ Hs). 
    + apply (so_len _ _ _ _ Hs).
    + change (terminated (with_fpc s2 p)) with (terminated s2). by rewrite Et.
    + change (terminated (with_fpc s2 p)) with (terminated s2). by rewrite Et.
    + intros Hrp. rewrite Ef. auto.
    + clear -Hso. induction l as [|w l IH]; [done|]. by apply IH; apply Sorted_inv in Hso as [? _].
    + destruct (terminated s1) eqn:Et1; [rewrite (Hterm eq_refl); set_solver|]. by apply Hasl.
Qed.

Definition event_ok (ev : fetch_event) : Prop :=
  match ev with
  | FvOpen (Some (av, _)) => (lvl ≠ AnyUp → (bs | av) ∨ MemoryChunkSize ≤ av) ∧ (lvl = Healthy → MemoryChunkSize ≤ av)
  | _ => True
  end.

Lemma avail_clamp len av : 0 < len ≤ MemoryChunkSize → event_ok (FvOpen (Some (av, 0))) → avail_ok len (Z.max 0 (Z.min av len)).
Proof.
  intros Hlen [Ha Hh]. split; [lia|]. split; [|intros Hl; specialize (Hh Hl); lia].
  intros Hl. destruct (Z.le_gt_cases av 0).
  { left. rewrite Z.max_l by lia. apply Z.divide_0_r. }
  destruct (Z.le_gt_cases len av); [right; lia|]. rewrite Z.min_l, Z.max_r by lia. destruct (Ha Hl); [by left|lia].
Qed.

Lemma whole_blocks len r c m off : 0 < bs → reading_ok c m off len r → prevCompleted r = totalRead r / bs →
  totalRead r = len → (bs | len) → cached_range c off (off + len).
Proof. intros Hb [] Hp Ht [q Hq]. rewrite Hp, Ht, Hq, Z.div_mul in rd_cached0 by lia. by rewrite Hq. Qed.

(** The test of the loop. *)
Lemma read_loop_ok c m chs s r : cache_ok c m → session_ok c m chs s →
  reading_ok c m (chunkOff s) (chunkLen s) r → prevCompleted r = totalRead r / bs →
  running (read_loop s r) = true ∧ pc_ok c m (chunkOff s) (chunkLen s) (read_loop s r).
Proof.
  intros Hc Hs Hr Hp. unfold read_loop. pose proof (chunkLen_pos _ _ _ _ Hc Hs) as (_ & _ & _ & Hd & _).
  destruct (Z.ltb_spec (totalRead r) (chunkLen s)); [done|]. split; [done|]. intros Hl.
  pose proof (rd_avail _ _ _ _ _ Hr) as [? _]. pose proof (rd_prev _ _ _ _ _ Hr).
  apply (whole_blocks _ r c m); try done; [apply (co_pos _ _ Hc)|lia|auto].
Qed.

Lemma read_step_ok c m chs s r n e : cache_ok c m → session_ok c m chs s →
  reading_ok c m (chunkOff s) (chunkLen s) r → prevCompleted r = totalRead r / bs →
  match read_step src c s r n e with
  | Ok (c', p) => ∃ m', cache_ok c' m' ∧ cache_grows c m c' m' ∧ running p = true ∧
      pc_ok c' m' (chunkOff s) (chunkLen s) p
  | Err _ => True
  | Panic => False
  end.
Proof.
  intros Hc Hs Hr Hp. pose proof (chunkLen_pos _ _ _ _ Hc Hs) as (Hlen & Hin & _). pose proof (so_off _ _ _ _ Hs) as [Ho _].
  pose proof (co_bounds _ _ Hc) as Hb. pose proof (co_fit _ _ Hc) as Hfit. pose proof (rd_avail _ _ _ _ _ Hr) as Hav.
  pose proof (rd_prev _ _ _ _ _ Hr) as Hpr. unfold read_step, maxI64 in *.
  destruct (negb _); [exists m; by split_and!|].
  destruct (Z.leb_spec 0 n); cbn [negb andb]; [|done].
  destruct (n <=? _); cbn [negb andb]; [|done].
  destruct (Z.leb_spec (totalRead r + n) (avail r)); cbn [negb andb]; [|done].
  destruct (bool_decide (e ≠ EOF) || (totalRead r + n =? avail r)) eqn:Ee; cbn [negb]; [|done].
  rewrite (cw_mmap _ _ (co_wf _ _ Hc)). destruct Hav as (Ha & Hav).
  destruct (fill_spec c m (chunkOff s + totalRead r) n Hc) as (Hc' & Hg & Hf); [nia|lia|nia|].
  set (m' := splice _ _ _) in *. cbn [totalRead prevCompleted set_mmap cblockSize]. rewrite (co_bs _ _ Hc).
  rewrite (i64_small (totalRead r + n)) by nia. unfold go_div.
  destruct (Z.eqb_spec bs 0); [lia|]. rewrite Z.quot_div_nonneg by nia.
  pose proof (div_self_bound (totalRead r + n) bs). rewrite i64_small by nia.
  assert (e = EOF → totalRead r + n = avail r) as HE.
  { intros ->. rewrite bool_decide_eq_false_2 in Ee by (intros H'; by apply H'). by apply Z.eqb_eq in Ee. }
  assert (reading_ok (set_mmap c m') m' (chunkOff s) (chunkLen s)
    (mkReading (mlen r) (avail r) (readBatch r) (totalRead r + n) (prevCompleted r))) as Hr'.
  { split; cbn; [apply Hr|by split|lia| |apply Hr].
    intros x Hx. destruct (decide (x < chunkOff s + totalRead r)).
    - destruct Hg as [_ Hg]. apply (Hg (chunkOff s) (totalRead r)); [lia|apply Hr|lia].
    - apply Hf. lia. }
  exists m'. split_and!; [done|done|by destruct (_ <? _)|]. destruct (Z.ltb_spec (prevCompleted r) ((totalRead r + n) / bs)).
  - by split_and!.
  - split_and!; [done| |done]. cbn. assert (totalRead r / bs ≤ (totalRead r + n) / bs); [|lia]. apply Z.div_le_mono; lia.
Qed.

(** A part of the chunk that starts at a block and has been read can be marked. *)
Lemma mark_part c m chs s a n : cache_ok c m → session_ok c m chs s → 0 ≤ a → 0 ≤ n → a * bs + n ≤ chunkLen s →
  filled m (chunkOff s) (a * bs + n) → (lvl ≠ AnyUp → (bs | n) ∨ a * bs + n = chunkLen s) →
  ∃ c', setIsCached c (i64 (chunkOff s + i64 (a * bs))) n = Ok c' ∧ cache_ok c' m ∧ cache_grows c m c' m ∧
    cached_range c' (chunkOff s + a * bs) (chunkOff s + a * bs + n).
Proof.
  intros Hc Hs Ha Hn Hin Hf Hend. pose proof (chunkLen_pos _ _ _ _ Hc Hs) as (Hlen & Hins & Hd & _ & Hcl).
  pose proof (so_off _ _ _ _ Hs) as [Ho _]. pose proof (co_bounds _ _ Hc) as Hb. pose proof (co_fit _ _ Hc) as Hfit.
  unfold maxI64 in *. rewrite !i64_small by (rewrite ?i64_small by nia; nia).
  apply mark_spec; try done; [nia|apply Z.divide_add_r; [done|apply Z.divide_factor_r]|lia| |].
  - intros Hl. destruct (Hend Hl) as [Hbn|He]; [by left|]. destruct Hcl as [Hcs|Hend']; [left|right; lia].
    assert (n = MemoryChunkSize - a * bs) as -> by lia. apply Z.divide_sub_r; [apply (co_div _ _ Hc)|apply Z.divide_factor_r].
  - intros x Hx. apply Hf. nia.
Qed.

Lemma fetch_mark_ok c m chs s r completed e : cache_ok c m → session_ok c m chs s → fpc s = FMark r completed e →
  match fetch_step src c s FvNext with
  | Ok (c', s', cs) => ∃ m', session_step c m s c' m' s' cs | Err _ => True | Panic => False
  end.
Proof.
  intros Hc Hs Ep. pose proof (so_pc _ _ _ _ Hs) as Hpc. pose proof (chunkLen_pos _ _ _ _ Hc Hs) as (Hlen & _).
  pose proof (co_bounds _ _ Hc) as Hb. rewrite Ep in Hpc. destruct Hpc as (Hr & -> & Hlt & HE).
  pose proof (rd_prev _ _ _ _ _ Hr) as Hpr. pose proof (rd_avail _ _ _ _ _ Hr) as [Ha _].
  pose proof (Z.mul_div_le (totalRead r) bs ltac:(lia)) as Hmd. unfold fetch_step. rewrite Ep, (co_bs _ _ Hc).
  pose proof MemoryChunkSize_pos. assert (MemoryChunkSize = 4194304) as HCS by done.
  assert (totalRead r / bs ≤ totalRead r) by (apply Z.div_le_upper_bound; nia).
  rewrite (i64_small (totalRead r / bs - prevCompleted r)) by lia.
  rewrite (i64_small ((totalRead r / bs - prevCompleted r) * bs)) by nia.
  destruct (mark_part c m chs s (prevCompleted r) ((totalRead r / bs - prevCompleted r) * bs) Hc Hs)
    as (c' & -> & Hc' & Hg & Hca); [lia|nia|nia| |intros _; left; apply Z.divide_factor_r|].
  { intros x Hx. apply (rd_filled _ _ _ _ _ Hr). nia. }
  exists m. apply (step_pc c m chs); try done; [by rewrite Ep|].
  cbn. split_and!; [|done|done]. split; cbn; [apply Hr..|lia|apply Hr|].
  intros x Hx. destruct (decide (x < chunkOff s + prevCompleted r * bs)).
  - apply Hg, (rd_cached _ _ _ _ _ Hr). lia.
  - apply Hca. nia.
Qed.

Lemma fetch_after_ok c m chs s r e : cache_ok c m → session_ok c m chs s → fpc s = FAfter r e →
  match fetch_step src c s FvNext with
  | Ok (c', s', cs) => ∃ m', session_step c m s c' m' s' cs | Err _ => True | Panic => False
  end.
Proof.
  intros Hc Hs Ep. pose proof (so_pc _ _ _ _ Hs) as Hpc. pose proof (chunkLen_pos _ _ _ _ Hc Hs) as (Hlen & _).
  pose proof (co_bounds _ _ Hc) as Hb. rewrite Ep in Hpc. destruct Hpc as (Hr & Hp & HE).
  pose proof (rd_prev _ _ _ _ _ Hr) as Hpr. pose proof (rd_avail _ _ _ _ _ Hr) as (Ha & Hal & Hah).
  unfold fetch_step. rewrite Ep, (co_bs _ _ Hc). pose proof MemoryChunkSize_pos.
  assert (MemoryChunkSize = 4194304) as HCS by done.
  assert (running (fpc s) = true) as Hrun by (by rewrite Ep).
  destruct e.
  - exists m. destruct (read_loop_ok c m chs s r Hc Hs Hr Hp). by apply (step_pc c m chs).
  - rewrite (i64_small (prevCompleted r * bs)) by nia. specialize (HE eq_refl).
    destruct (Z.ltb_spec (prevCompleted r * bs) (totalRead r)).
    + rewrite (i64_small (totalRead r - prevCompleted r * bs)) by nia.
      destruct (mark_part c m chs s (prevCompleted r) (totalRead r - prevCompleted r * bs) Hc Hs)
        as (c' & Hm & Hc' & Hg & Hca); [lia|lia|lia| | |].
      { intros x Hx. apply (rd_filled _ _ _ _ _ Hr). lia. }
      { intros Hl. destruct (Hal Hl) as [Hd|He]; [left|right; lia]. rewrite HE. apply Z.divide_sub_r; [done|apply Z.divide_factor_r]. }
      rewrite (i64_small (prevCompleted r * bs)) in Hm by nia. rewrite Hm.
      exists m. apply (step_pc c m chs); try done. intros Hl x Hx. specialize (Hah Hl).
      destruct (decide (x < chunkOff s + prevCompleted r * bs)); [apply Hg, (rd_cached _ _ _ _ _ Hr); lia|apply Hca; lia].
    + exists m. apply (step_pc c m chs); try done. intros Hl x Hx. specialize (Hah Hl). apply (rd_cached _ _ _ _ _ Hr). lia.
  - exists m. by apply (step_pc c m chs).
Qed.

Lemma fetch_notify_ok c m chs s ev : cache_ok c m → session_ok c m chs s →
  match fpc s with FNotify _ _ | FFail _ _ | FFinish => True | _ => False end →
  match fetch_step src c s ev with
  | Ok (c', s', cs) => ∃ m', session_step c m s c' m' s' cs | Err _ => True | Panic => False
  end.
Proof.
  intros Hc Hs Hp. destruct ev; [|by unfold fetch_step; destruct (fpc s)..].
  pose proof (so_pc _ _ _ _ Hs) as Hpc. pose proof (chunkLen_pos _ _ _ _ Hc Hs) as (Hlen & _).
  pose proof (so_ready _ _ _ _ Hs). pose proof (so_cached _ _ _ _ Hs). pose proof (so_err _ _ _ _ Hs) as Herr.
  unfold fetch_step. destruct (fpc s) as [| | | |r e| |err only| | |] eqn:Ep; try done; cbn in Herr.
  - destruct Hpc as (Hr & Hpv & HE). pose proof (rd_prev _ _ _ _ _ Hr) as Hpr. pose proof (rd_avail _ _ _ _ _ Hr) as [Ha _].
    pose proof (co_bounds _ _ Hc). rewrite (co_bs _ _ Hc). assert (MemoryChunkSize = 4194304) by done. rewrite (i64_small (prevCompleted r * bs)) by nia.
    destruct (notifyWaiters _ None) as [s2 cs] eqn:En. exists m.
    eapply (step_notify c m chs s (with_bytesReady s (prevCompleted r * bs)) None); [done|done|reflexivity..| | | | | |exact En]; cbn; try done; [lia|intros _; apply Hr|auto].
  - destruct only, (terminated s) eqn:Et; cbn [andb setError].
    all: unfold setError; rewrite ?Et; cbn [andb].
    1: { exists m. split; try done; [exists []; split; [done|]; split; [done|set_solver]|]. intros chs' Ho.
         destruct (session_ok_mono c m c m chs chs s (cache_grows_refl _ _) ltac:(done) Hs). split; done. }
    all: destruct (notifyWaiters _ (Some err)) as [s2 cs] eqn:En; exists m;
      (eapply (step_notify c m chs s (with_fetchErr s err) (Some err)); [done|done|reflexivity..| | | | | |exact En]); cbn; try done;
      first [by intros []|by unfold terminated; cbn; rewrite bool_decide_eq_true_2 by eauto].
  - unfold setDone. destruct (notifyWaiters _ None) as [s2 cs] eqn:En. exists m.
    eapply (step_notify c m chs s (with_bytesReady s (chunkLen s)) None); [done|done|reflexivity..| | | | | |exact En]; cbn; try done; [lia|auto|].
    intros _. unfold terminated. cbn. rewrite Z.eqb_refl. apply orb_true_r.
Qed.

Lemma fetch_step_ok c m chs s ev : cache_ok c m → session_ok c m chs s → event_ok ev →
  match fetch_step src c s ev with
  | Ok (c', s', cs) => ∃ m', session_step c m s c' m' s' cs | Err _ => True | Panic => False
  end.
Proof.
  intros Hc Hs Hev. pose proof (so_pc _ _ _ _ Hs) as Hpc. pose proof (chunkLen_pos _ _ _ _ Hc Hs) as (Hlen & Hin & _).
  pose proof (so_off _ _ _ _ Hs) as [Ho _]. pose proof (co_fit _ _ Hc) as Hfit. assert (MemoryChunkSize = 4194304) as HCS by done.
  destruct (fpc s) as [|len|r|r completed e|r e|r e|err only| | |] eqn:Ep.
  - unfold fetch_step. rewrite Ep. destruct ev; try done. unfold addressBytes, isClosed.
    rewrite (cw_mmap _ _ (co_wf _ _ Hc)), (cw_open _ _ (co_wf _ _ Hc)), (co_size _ _ Hc).
    destruct (Z.leb_spec size (chunkOff s)); [lia|]. unfold maxI64 in *. rewrite i64_small by lia.
    pose proof (cw_len _ _ (co_wf _ _ Hc)) as Hl. rewrite (co_size _ _ Hc) in Hl. rewrite go_slice_ok by lia.
    exists m. apply (step_pc c m chs); try done; [by rewrite Ep|]. cbn. rewrite slice_length by lia. lia.
  - cbn in Hpc. subst len. unfold fetch_step. rewrite Ep. destruct ev as [|[[av mb]|]|?|]; try done.
    + assert (reading_ok c m (chunkOff s) (chunkLen s)
        (mkReading (chunkLen s) (Z.max 0 (Z.min av (chunkLen s))) (Z.max (cblockSize c) mb) 0 0)) as Hr.
      { split; cbn; [done|by apply avail_clamp|lia|intros x; lia|intros x; lia]. }
      exists m. destruct (read_loop_ok c m chs s _ Hc Hs Hr) as [? ?]; [done|].
      apply (step_pc c m chs); try done. by rewrite Ep.
    + exists m. apply (step_pc c m chs); try done. by rewrite Ep.
    + exists m. apply (step_pc c m chs); try done. by rewrite Ep.
  - destruct Hpc as (Hr & _ & Hp). unfold fetch_step. rewrite Ep. destruct ev as [|?|n e|]; try done.
    + pose proof (read_step_ok c m chs s r n e Hc Hs Hr Hp) as Hrs. destruct (read_step src c s r n e) as [[c' p]|?|]; [|done..].
      destruct Hrs as (m' & ? & ? & ? & ?). exists m'. cbn. apply (step_pc c m chs); try done. by rewrite Ep.
    + exists m. apply (step_pc c m chs); try done. by rewrite Ep.
  - destruct ev; [by eapply fetch_mark_ok|by unfold fetch_step; rewrite Ep..].
  - apply (fetch_notify_ok c m chs s ev Hc Hs). by rewrite Ep.
  - destruct ev; [by eapply fetch_after_ok|by unfold fetch_step; rewrite Ep..].
  - apply (fetch_notify_ok c m chs s ev Hc Hs). by rewrite Ep.
  - apply (fetch_notify_ok c m chs s ev Hc Hs). by rewrite Ep.
  - unfold fetch_step. rewrite Ep. destruct ev; try done. exists m. split; try done.
    { exists []. split; [done|]. split; [done|set_solver]. }
    intros chs' Hop. destruct (session_ok_mono c m c m chs chs s (cache_grows_refl _ _) ltac:(done) Hs). split; try done.
    intros _. apply so_done0. by rewrite Ep.
  - unfold fetch_step. rewrite Ep. by destruct ev.
Qed.

(** ** The system *)
Implicit Types (cl : slice_call).

Definition eb_of g : Z := ((clippedOff g + clippedLen g - 1 - fetchOff g) / bs + 1) * bs.
Definition go_range c g : Prop := cached_range c (clippedOff g) (clippedOff g + clippedLen g).
Definition go_static g : Prop :=
  0 < clippedLen g →
  0 ≤ fetchOff g ≤ clippedOff g ∧ (MemoryChunkSize | fetchOff g) ∧ (bs | clippedOff g) ∧
  clippedOff g + clippedLen g ≤ Z.min (fetchOff g + MemoryChunkSize) size.
Definition on_session t g (sid : nat) (P : fetchSession → Prop) : Prop :=
  0 < clippedLen g ∧ ∃ s, sessions t !! sid = Some s ∧ chunkOff s = fetchOff g ∧ P s.
Definition go_ok t g : Prop :=
  go_static g ∧
  match gpc g with
  | GStart | GDone (Some _) => True
  | GRegister sid | GLock sid | GCheck sid _ => on_session t g sid (λ _, True)
  | GWait sid ch => on_session t g sid (λ s,
      match chans t !! ch with
      | Some ChOpen => mkWaiter (eb_of g) ch ∈ waiters s
      | Some (ChClosed None) => lvl = Healthy → go_range (s_cache t) g
      | Some (ChClosed (Some _)) => True
      | None => False
      end)
  | GDone None => 0 < clippedLen g → lvl = Healthy → go_range (s_cache t) g
  end.

Definition call_ok t cl : Prop :=
  0 ≤ s_off cl ∧ (bs | s_off cl) ∧ 0 ≤ s_len cl ∧ s_off cl + s_len cl ≤ size ∧
  match s_res cl with
  | None => ∀ x, s_off cl ≤ x < s_off cl + s_len cl →
      ∃ i g, i ∈ s_gos cl ∧ gos t !! i = Some g ∧ clippedOff g ≤ x < clippedOff g + clippedLen g
  | Some (Ok b) => lvl ≠ AnyUp → b = object_bytes src (s_off cl) (s_len cl)
  | Some (Err e) => lvl = Healthy → ∃ e', e = ErrStreamEnsure e'
  | Some Panic => False
  end.

Record stream_ok t (m : list byte) : Prop := {
  st_cache : cache_ok (s_cache t) m;
  st_size : s_size t = size;
  st_sess sid s : sessions t !! sid = Some s → session_ok (s_cache t) m (chans t) s;
  st_map sid s : sessions t !! sid = Some s → fpc s ≠ FEnd → fetchMap t !! chunkOff s = Some sid;
  st_map' k sid : fetchMap t !! k = Some sid → ∃ s, sessions t !! sid = Some s ∧ chunkOff s = k ∧ fpc s ≠ FEnd;
  st_disj sid1 sid2 s1 s2 w1 w2 : sessions t !! sid1 = Some s1 → sessions t !! sid2 = Some s2 →
    w1 ∈ waiters s1 → w2 ∈ waiters s2 → wch w1 = wch w2 → sid1 = sid2;
  st_gos i g : gos t !! i = Some g → go_ok t g;
  st_calls i cl : s_calls t !! i = Some cl → call_ok t cl;
}.

(** A call is not disturbed as long as its goroutines keep their ranges. *)
Lemma stream_call_mono t t' cl :
  (∀ i g, gos t !! i = Some g → ∃ g', gos t' !! i = Some g' ∧ clippedOff g' = clippedOff g ∧ clippedLen g' = clippedLen g) →
  call_ok t cl → call_ok t' cl.
Proof.
  intros Hg (? & ? & ? & ? & Hr). split_and!; [done..|]. destruct (s_res cl) as [r|]; [by destruct r|].
  intros x Hx. destruct (Hr x Hx) as (i & g & Hi & Hgi & Hxg). destruct (Hg i g Hgi) as (g' & ? & E1 & E2).
  exists i, g'. by rewrite E1, E2.
Qed.

Lemma go_ok_mono t t' g :
  (∀ x, cached (s_cache t) x → cached (s_cache t') x) →
  (∀ sid s, sessions t !! sid = Some s →
     ∃ s', sessions t' !! sid = Some s' ∧ chunkOff s' = chunkOff s ∧ ∀ w, w ∈ waiters s → w ∈ waiters s') →
  (∀ ch x, chans t !! ch = Some x → chans t' !! ch = Some x) →
  go_ok t g → go_ok t' g.
Proof.
  intros Hc Hs Hch [Hst Hp]. split; [done|].
  assert (go_range (s_cache t) g → go_range (s_cache t') g) as Hr by (intros H x Hx; apply Hc, H, Hx).
  assert (∀ sid, on_session t g sid (λ _, True) → on_session t' g sid (λ _, True)) as Hon.
  { intros sid (? & s & Hsid & Ho & _). split; [done|]. destruct (Hs sid s Hsid) as (s' & ? & E & _). exists s'. by rewrite E. }
  destruct (gpc g) as [|sid|sid|sid e|sid ch|[e|]]; auto.
  destruct Hp as (? & s & Hsid & Ho & Hw). split; [done|]. destruct (Hs sid s Hsid) as (s' & ? & E & Hin). exists s'.
  rewrite E. split_and!; [done..|]. destruct (chans t !! ch) as [x|] eqn:Ex; [|done]. rewrite (Hch ch x Ex).
  destruct x as [|[|]]; auto.
Qed.

Lemma with_go_ok t m i g p :
  stream_ok t m → gos t !! i = Some g → go_ok t (with_gpc g p) → stream_ok (with_go t i (with_gpc g p)) m.
Proof.
  intros [] Hi Hg. split; try done.
  - intros j g' Hj. apply list_lookup_insert_Some in Hj as [(<- & <- & _)|[_ Hj]]; [done|]. by apply (st_gos0 j).
  - intros j cl Hj. apply (stream_call_mono t); [|by eapply st_calls0]. intros k g' Hk. simpl.
    destruct (decide (k = i)) as [->|Hne]; [|exists g'; by rewrite list_lookup_insert_ne].
    assert (g' = g) as -> by congruence. exists (with_gpc g p). rewrite list_lookup_insert_eq by (by eapply lookup_lt_Some). done.
Qed.

Lemma cached_of_isCached c m off n : cache_ok c m → 0 ≤ off → (bs | off) → 0 ≤ n → off + n ≤ size →
  ∃ r, isCached c off n = Ok r ∧ (r = true ↔ cached_range c off (off + n)).
Proof.
  intros Hc Ho Hd Hn Hin. pose proof (co_bounds _ _ Hc) as Hb. pose proof (co_fit _ _ Hc).
  pose proof (isCached_spec c off n) as H'. rewrite (co_bs _ _ Hc) in H'. apply H'; first [done|lia].
Qed.

Lemma endByteOf_eq c m g : cache_ok c m → go_static g → 0 < clippedLen g →
  endByteOf (cblockSize c) (clippedOff g) (clippedLen g) (fetchOff g) = Ok (eb_of g) ∧
  clippedOff g + clippedLen g ≤ fetchOff g + eb_of g.
Proof.
  intros Hc Hg Hl. destruct (Hg Hl) as (H1 & H2 & H3 & H4). pose proof (co_bounds _ _ Hc) as Hb.
  pose proof (co_fit _ _ Hc) as Hfit. assert (MemoryChunkSize = 4194304) as HCS by done. unfold maxI64 in *.
  unfold endByteOf, eb_of. rewrite (co_bs _ _ Hc).
  rewrite (i64_small (clippedOff g + clippedLen g)), (i64_small (_ - 1)), (i64_small (_ - _)) by lia.
  set (a := clippedOff g + clippedLen g - 1 - fetchOff g). assert (0 ≤ a < MemoryChunkSize) by lia.
  unfold go_div. destruct (Z.eqb_spec bs 0); [lia|]. rewrite Z.quot_div_nonneg by lia.
  pose proof (div_self_bound a bs ltac:(lia) ltac:(lia)) as Hq. pose proof (Z.mul_div_le a bs ltac:(lia)).
  pose proof (Z.mul_succ_div_gt a bs ltac:(lia)). rewrite (i64_small (a / bs)) by lia. cbn [mbind res_bind].
  rewrite (i64_small (a / bs + 1)), i64_small by nia. split; [done|]. lia.
Qed.

Lemma new_session_ok c m chs off : 0 ≤ off < size → (MemoryChunkSize | off) → cache_ok c m →
  session_ok c m chs (mkSession off (Z.min MemoryChunkSize (size - off)) [] None 0 FAddress).
Proof.
  intros Ho Hd Hc. pose proof MemoryChunkSize_pos. split; simpl; try done.
  all: first [lia|by intros w ?%not_elem_of_nil|intros _ x Hx; lia|constructor].
Qed.

(** [getOrCreateSession] finds the session of the chunk, or makes one. *)
Lemma getOrCreateSession_ok t m g : stream_ok t m → go_static g → 0 < clippedLen g →
  ∃ t' o, getOrCreateSession t (fetchOff g) = Ok (t', o) ∧ stream_ok t' m ∧ gos t' = gos t ∧
    match o with Some sid => on_session t' g sid (λ _, True) | None => go_range (s_cache t') g end.
Proof.
  intros Ht Hst Hl. destruct (Hst Hl) as (Ho & Hd & Hdb & Hin). pose proof (st_cache _ _ Ht) as Hc.
  pose proof (co_fit _ _ Hc) as Hfit. unfold getOrCreateSession. rewrite (st_size _ _ Ht). unfold maxI64 in *.
  pose proof MemoryChunkSize_pos. rewrite i64_small by lia.
  set (len := Z.min MemoryChunkSize (size - fetchOff g)).
  destruct (fetchMap t !! fetchOff g) as [sid|] eqn:Em.
  { destruct (st_map' _ _ Ht _ _ Em) as (s & Hsid & Hso & _). exists t, (Some sid). split_and!; [done..|]. split; [done|by exists s]. }
  destruct (cached_of_isCached _ _ (fetchOff g) len Hc) as (r & -> & Hr);
    [lia|by etrans; [apply (co_div _ _ Hc)|]|lia|lia|]. destruct r.
  { exists t, None. split_and!; [done..|]. intros x Hx. destruct Hr as [Hr _]. apply (Hr eq_refl). lia. }
  eexists _, _. split; [reflexivity|]. set (t' := mkStream _ _ _ _ _ _ _).
  assert (∀ sid s, sessions t' !! sid = Some s →
    (sessions t !! sid = Some s) ∨ (sid = length (sessions t) ∧ s = mkSession (fetchOff g) len [] None 0 FAddress)) as Hcase.
  { intros sid s Hs. apply lookup_app_Some in Hs as [?|[? Hs]]; [by left|right].
    apply list_lookup_singleton_Some in Hs as [? <-]. split; [lia|done]. }
  split_and!; [|done|].
  - split; try done.
    + intros sid s [Hs|[-> ->]]%Hcase; [by apply (st_sess _ _ Ht sid)|].
      apply new_session_ok; [lia|done|done].
    + intros sid s [Hs|[-> ->]]%Hcase Hp; simpl; [|by rewrite lookup_insert_eq].
      pose proof (st_map _ _ Ht _ _ Hs Hp) as Hm. rewrite lookup_insert_ne; [done|]. intros E. by rewrite <- E, Em in Hm.
    + intros k sid Hk. simpl in Hk. apply lookup_insert_Some in Hk as [[<- <-]|[Hne Hk]].
      * exists (mkSession (fetchOff g) len [] None 0 FAddress). simpl. rewrite lookup_app_r, Nat.sub_diag by done. done.
      * destruct (st_map' _ _ Ht _ _ Hk) as (s & Hs & ?). exists s. split; [|done]. simpl. by apply lookup_app_l_Some.
    + intros sid1 sid2 s1 s2 w1 w2 [H1|[-> ->]]%Hcase [H2|[-> ->]]%Hcase Hw1 Hw2;
        try (by apply not_elem_of_nil in Hw1); try (by apply not_elem_of_nil in Hw2). by apply (st_disj _ _ Ht sid1 sid2 s1 s2 w1 w2).
    + intros i g' Hg'. apply (go_ok_mono t); [done| |done|by eapply (st_gos _ _ Ht)].
      intros sid s Hs. exists s. split; [|done]. simpl. by apply lookup_app_l_Some.
    + intros i cl Hcl. apply (stream_call_mono t); [|by eapply (st_calls _ _ Ht)]. intros j g' Hj. by exists g'.
  - split; [done|]. exists (mkSession (fetchOff g) len [] None 0 FAddress). simpl. rewrite lookup_app_r, Nat.sub_diag by done. done.
Qed.

(** Registering: the bytes are there, the fetch is over, or the goroutine is a waiter. *)
Lemma register_ok t m g sid : stream_ok t m → go_static g → on_session t g sid (λ _, True) →
  match register t sid g with
  | Ok (t', p) => stream_ok t' m ∧ gos t' = gos t ∧ go_ok t' (with_gpc g p)
  | Err _ => True
  | Panic => False
  end.
Proof.
  intros Ht Hst (Hl & s & Hs & Ho & _). unfold register. rewrite Hs, Ho.
  pose proof (st_cache _ _ Ht) as Hc. destruct (endByteOf_eq _ _ g Hc Hst Hl) as [-> Heb]. cbn [mbind res_bind].
  pose proof (st_sess _ _ Ht _ _ Hs) as Hok.
  destruct (Z.leb_spec (eb_of g) (bytesReady s)).
  { split_and!; [done..|]. split; [done|]. intros _ Hlv x Hx. apply (so_cached _ _ _ _ Hok Hlv). cbn in Hx.
    destruct (Hst Hl). lia. }
  destruct (terminated s) eqn:Et.
  { split_and!; [done..|]. split; [done|]. split; [done|]. by exists s. }
  set (ch := length (chans t)). set (s' := with_waiters s _). set (t' := with_chans _ _).
  assert (sid < length (sessions t))%nat as Hlt by by eapply lookup_lt_Some.
  assert (∀ w, w ∈ waiters s' ↔ w = mkWaiter (eb_of g) ch ∨ w ∈ waiters s) as Hw'.
  { intros w. simpl. rewrite insert_waiter_perm. apply elem_of_cons. }
  assert (∀ i s, sessions t !! i = Some s → ∀ w, w ∈ waiters s → (wch w < ch)%nat) as Hlow.
  { intros i s0 Hi w Hw. eapply lookup_lt_Some, (so_open _ _ _ _ (st_sess _ _ Ht _ _ Hi) _ Hw). }
  assert (∀ (j : nat) x, chans t !! j = Some x → chans t' !! j = Some x) as Hchs by (intros; by apply lookup_app_l_Some).
  assert (∀ i s0, sessions t' !! i = Some s0 → (i = sid ∧ s0 = s') ∨ (i ≠ sid ∧ sessions t !! i = Some s0)) as Hcase.
  { intros i s0 Hi. apply list_lookup_insert_Some in Hi as [(-> & <- & _)|[? ?]]; auto. }
  assert (sessions t' !! sid = Some s') as Hs' by by apply list_lookup_insert_eq.
  assert (∀ i s0, sessions t !! i = Some s0 → ∃ s1, sessions t' !! i = Some s1 ∧ chunkOff s1 = chunkOff s0 ∧
    fpc s1 = fpc s0 ∧ ∀ w, w ∈ waiters s0 → w ∈ waiters s1) as Hup.
  { intros i s0 Hi. destruct (decide (i = sid)) as [->|Hne].
    - exists s'. assert (s0 = s) as -> by congruence. split_and!; [done..|]. intros w Hw. apply Hw'. by right.
    - exists s0. split_and!; try done. unfold t'. simpl. by rewrite list_lookup_insert_ne. }
  assert (chans t' !! ch = Some ChOpen) as Hnew by (unfold t', ch; simpl; by rewrite lookup_app_r, Nat.sub_diag by done).
  split_and!; [|done|].
  - split; try done.
    + exact (st_size _ _ Ht).
    + intros i s0 [[-> ->]|[_ Hi]]%Hcase.
      * destruct (session_ok_mono (s_cache t) m (s_cache t) m (chans t) (chans t') s (cache_grows_refl _ _)) as [];
          [|done|split; try done].
        -- intros w Hw. pose proof (so_open _ _ _ _ Hok w Hw) as Hwo. by rewrite Hwo, (Hchs _ _ Hwo).
        -- change (terminated s') with (terminated s). by rewrite Et.
        -- intros w [->|Hw]%Hw'; auto.
        -- simpl. rewrite insert_waiter_perm. simpl. constructor; [|done]. intros (w & Hwe & Hw)%list_elem_of_fmap.
           specialize (Hlow _ _ Hs _ Hw). lia.
        -- by apply insert_waiter_sorted.
        -- intros w [->|Hw]%Hw'; [simpl; lia|auto].
      * apply (session_ok_mono (s_cache t) m (s_cache t) m (chans t)); [apply cache_grows_refl| |by eapply (st_sess _ _ Ht)].
        intros w Hw. pose proof (so_open _ _ _ _ (st_sess _ _ Ht _ _ Hi) w Hw) as Hwo. by rewrite Hwo, (Hchs _ _ Hwo).
    + intros i s0 [[-> ->]|[_ Hi]]%Hcase Hp; [by apply (st_map _ _ Ht _ s)|by eapply (st_map _ _ Ht)].
    + intros k i Hk. destruct (st_map' _ _ Ht _ _ Hk) as (s0 & Hi & <- & Hp). destruct (Hup i s0 Hi) as (s1 & ? & E & Ep & _).
      exists s1. by rewrite E, Ep.
    + intros i1 i2 s1 s2 w1 w2 [[-> ->]|[? H1]]%Hcase [[-> ->]|[? H2]]%Hcase Hw1 Hw2 E; try done.
      * apply Hw' in Hw1 as [->|Hw1]; [|by apply (st_disj _ _ Ht sid i2 s s2 w1 w2)].
        specialize (Hlow _ _ H2 _ Hw2). simpl in E. lia.
      * apply Hw' in Hw2 as [->|Hw2]; [|by apply (st_disj _ _ Ht i1 sid s1 s w1 w2)].
        specialize (Hlow _ _ H1 _ Hw1). simpl in E. lia.
      * by apply (st_disj _ _ Ht i1 i2 s1 s2 w1 w2).
    + intros i g' Hg'. apply (go_ok_mono t); [done| |done|by eapply (st_gos _ _ Ht)].
      intros j s0 Hj. destruct (Hup j s0 Hj) as (s1 & ? & ? & _ & ?). by exists s1.
    + intros i cl Hcl. apply (stream_call_mono t); [|by eapply (st_calls _ _ Ht)]. intros j g' Hj. by exists g'.
  - split; [done|]. split; [done|]. exists s'. rewrite Hnew. split_and!; [done..|]. apply Hw'. by left.
Qed.

Lemma go_step_ok t m i g d : stream_ok t m → gos t !! i = Some g →
  match go_step t g d with
  | Ok (t', p) => stream_ok (with_go t' i (with_gpc g p)) m
  | Err _ => True
  | Panic => False
  end.
Proof.
  intros Ht Hi. pose proof (st_gos _ _ Ht _ _ Hi) as [Hst Hp]. pose proof (st_cache _ _ Ht) as Hc. unfold go_step.
  destruct (gpc g) as [|sid|sid|sid ferr|sid ch|r] eqn:Ep; [| | | | |done].
  - destruct (Z.leb_spec (clippedLen g) 0).
    { apply with_go_ok; [done..|]. split; [done|]. intros Hl. simpl in Hl. lia. }
    destruct (getOrCreateSession_ok t m g Ht Hst) as (t' & o & -> & Ht' & Eg & Ho); [lia|]. cbn [mbind res_bind].
    apply with_go_ok; [done|by rewrite Eg|]. destruct o as [sid|]; (split; [done|]); [done|]. by intros _ _.
  - destruct Hp as (Hl & s & Hs & Ho & _). rewrite Hs, Ho. destruct (endByteOf_eq _ _ g Hc Hst Hl) as [-> Heb].
    cbn [mbind res_bind]. apply with_go_ok; [done..|]. pose proof (st_sess _ _ Ht _ _ Hs) as Hok.
    destruct (Z.leb_spec (eb_of g) (bytesReady s)); (split; [done|]); [|split; [done|by exists s]].
    intros _ Hlv x Hx. apply (so_cached _ _ _ _ Hok Hlv). cbn in Hx. destruct (Hst Hl). lia.
  - pose proof (register_ok t m g sid Ht Hst Hp) as Hr. destruct (register t sid g) as [[t' p]|?|]; [|done..].
    destruct Hr as (Ht' & Eg & Hg). apply with_go_ok; [done|by rewrite Eg|done].
  - destruct Hp as (Hl & _). destruct (Hst Hl) as (H1 & H2 & H3 & H4).
    destruct (cached_of_isCached _ _ (clippedOff g) (clippedLen g) Hc) as (r & -> & Hr); [lia|done|lia|lia|].
    destruct r; (apply with_go_ok; [done..|]); (split; [done|]); [|done]. intros _ _. by apply Hr.
  - destruct d; [apply with_go_ok; [done..|]; by split|]. destruct Hp as (Hl & s & Hs & Ho & Hch).
    destruct (chans t !! ch) as [[|e]|]; [done| |done]. apply with_go_ok; [done..|]. split; [done|]. destruct e; [done|]. intros _. done.
Qed.

(** The loop starts one goroutine per chunk of the range. *)
Lemma chunk_loop_elem fuel : ∀ a last k, 0 ≤ a → last + MemoryChunkSize ≤ maxI64 → (MemoryChunkSize | a) →
  k ∈ chunk_loop fuel a last → (MemoryChunkSize | k) ∧ a ≤ k ≤ last.
Proof.
  assert (MemoryChunkSize = 4194304) as HCS by done. unfold maxI64.
  induction fuel as [|fuel IH]; intros a last k Ha Hl Hd Hk; simpl in Hk; [by apply not_elem_of_nil in Hk|].
  destruct (Z.leb_spec a last); [|by apply not_elem_of_nil in Hk]. rewrite i64_small in Hk by lia.
  apply elem_of_cons in Hk as [->|Hk]; [by split|].
  destruct (IH (a + MemoryChunkSize) last k) as [? ?]; [lia|lia|by apply Z.divide_add_r|done|]. split; [done|lia].
Qed.
Lemma chunk_loop_all fuel : ∀ a last k, 0 ≤ a → last + MemoryChunkSize ≤ maxI64 → (MemoryChunkSize | a) →
  (MemoryChunkSize | k) → a ≤ k ≤ last → last - a < Z.of_nat fuel → k ∈ chunk_loop fuel a last.
Proof.
  assert (MemoryChunkSize = 4194304) as HCS by done. unfold maxI64.
  induction fuel as [|fuel IH]; intros a last k Ha Hl Hd Hkd Hk Hf; simpl; [lia|].
  destruct (Z.leb_spec a last); [|lia]. rewrite i64_small by lia. apply elem_of_cons.
  destruct (decide (k = a)) as [->|Hne]; [by left|right]. apply IH; try done; [lia|by apply Z.divide_add_r| |lia].
  destruct Hd as [p ->], Hkd as [q ->]. nia.
Qed.

(** The bytes of a [Slice] of the cache. *)
Lemma cache_Slice c m off n : cache_ok c m → 0 ≤ off → (bs | off) → 0 ≤ n → off + n ≤ size →
  match Slice c off n with
  | Ok b => lvl ≠ AnyUp → b = object_bytes src off n
  | Err e => e = BytesNotAvailableError ∧ 0 < n ∧ ¬ cached_range c off (off + n)
  | Panic => False
  end.
Proof.
  intros Hc Ho Hd Hn Hin. pose proof (Slice_spec c m off n (co_wf _ _ Hc) (co_clean _ _ Hc) Ho) as Hs.
  rewrite (co_bs _ _ Hc), (co_size _ _ Hc) in Hs. specialize (Hs Hd Hn Hin). destruct (Slice c off n) as [b|e|]; [|split|done].
  - intros Hl. destruct Hs as [Hlb Hp]. pose proof (object_bytes_length src off n Hn) as Hol.
    apply list_eq_Z; [lia|]. intros i Hi. rewrite <- Hp by lia. rewrite object_bytes_lookup by lia.
    destruct (peek c m (off + i)) as [x|] eqn:Ex; [by rewrite (co_src _ _ Hc Hl (off + i) x) by (done || lia)|].
    rewrite Hp in Ex by lia. apply lookup_ge_None in Ex. unfold zlength in *. lia.
  - apply Hs.
  - destruct Hs as [_ (i & Hi & Hp)]. split; [lia|]. intros Hall. specialize (Hall (off + i) ltac:(lia)).
    unfold peek in Hp. rewrite (co_bs _ _ Hc), decide_True in Hp by done. apply lookup_ge_None in Hp.
    pose proof (cw_len _ _ (co_wf _ _ Hc)) as Hl. rewrite (co_size _ _ Hc) in Hl. unfold zlength in Hl. lia.
Qed.

Lemma add_call_ok t m cl : stream_ok t m → call_ok t cl →
  stream_ok (mkStream (s_cache t) (s_size t) (sessions t) (fetchMap t) (chans t) (gos t) (s_calls t ++ [cl])) m.
Proof.
  intros [] Hcl. split; try done. intros i cl' Hi.
  assert (call_ok t cl') as Hok; [|by apply (stream_call_mono t); [intros j g Hj; by exists g|]].
  apply lookup_app_Some in Hi as [Hi|[_ Hi]]; [by eapply st_calls0|]. by apply list_lookup_singleton_Some in Hi as [_ <-].
Qed.

Definition slice_label_ok (off len : Z) : Prop := 0 ≤ off ∧ (bs | off) ∧ 0 ≤ len ∧ off + len ≤ size.

Lemma clip_ok off len k : size + 2 * MemoryChunkSize ≤ maxI64 → (bs | MemoryChunkSize) → slice_label_ok off len →
  0 ≤ k < size → (MemoryChunkSize | k) →
  let g := clip size off len k in
  go_static g ∧ gpc g = GStart ∧ fetchOff g = k ∧ clippedOff g = Z.max off k ∧
  clippedOff g + clippedLen g = Z.min (off + len) (Z.min (k + MemoryChunkSize) size).
Proof.
  intros Hfit Hdb (Ho & Hd & Hl & Hin) Hk Hkd g. assert (MemoryChunkSize = 4194304) as HCS by done. unfold maxI64 in *.
  assert (clippedOff g + clippedLen g = Z.min (off + len) (Z.min (k + MemoryChunkSize) size)) as He.
  { unfold g, clip. cbn. rewrite !i64_small by (rewrite ?i64_small by lia; lia). lia. }
  split_and!; [|done..]. intros Hpos. change (clippedOff g) with (Z.max off k) in *. change (fetchOff g) with k.
  split_and!; [lia|lia|done| |lia].
  destruct (Z.max_spec off k) as [[_ ->]|[_ ->]]; [exact (Z.divide_trans _ _ _ Hdb Hkd)|done].
Qed.

Lemma slice_start_ok t m off len : stream_ok t m → slice_label_ok off len →
  match slice_start t off len with Ok t' => stream_ok t' m | Err _ => True | Panic => False end.
Proof.
  intros Ht Hlab. pose proof Hlab as (Ho & Hd & Hl & Hin). pose proof (st_cache _ _ Ht) as Hc.
  pose proof (cache_Slice _ _ off len Hc Ho Hd Hl Hin) as Hs. unfold slice_start.
  destruct (Slice (s_cache t) off len) as [b|e|]; [|destruct Hs as (-> & Hlen & _)|done].
  { apply add_call_ok; [done|]. by split_and!. }
  assert (MemoryChunkSize = 4194304) as HCS by done. pose proof (co_fit _ _ Hc) as Hfit. unfold maxI64 in *.
  rewrite (i64_small (off + len)), (i64_small (off + len - 1)) by lia.
  rewrite !BlockIdx_eq by (unfold maxI64; lia). cbn [mbind res_bind]. rewrite (st_size _ _ Ht). unfold BlockOffset.
  pose proof (Z.mul_div_le off MemoryChunkSize). pose proof (Z.mul_div_le (off + len - 1) MemoryChunkSize).
  pose proof (Z.div_pos off MemoryChunkSize). pose proof (Z.div_pos (off + len - 1) MemoryChunkSize).
  rewrite !i64_small by lia. set (first := off / MemoryChunkSize * MemoryChunkSize).
  set (last := (off + len - 1) / MemoryChunkSize * MemoryChunkSize).
  set (ks := chunk_loop _ first last). set (gs := clip size off len <$> ks).
  assert ((MemoryChunkSize | first)) as Hfd by apply Z.divide_factor_r.
  assert (∀ k, k ∈ ks → 0 ≤ k < size ∧ (MemoryChunkSize | k)) as Hks.
  { intros k Hk. apply chunk_loop_elem in Hk as [? ?]; [|lia|unfold maxI64; lia|done]. split; [lia|done]. }
  assert (∀ i g, (gos t ++ gs) !! i = Some g → gos t !! i = Some g ∨ ∃ k, k ∈ ks ∧ g = clip size off len k) as Hcase.
  { intros i g [?|[_ Hg]]%lookup_app_Some; [by left|right]. apply list_lookup_fmap_Some in Hg as (k & -> & Hk).
    exists k. split; [by eapply list_elem_of_lookup_2|done]. }
  set (t1 := mkStream (s_cache t) size (sessions t) (fetchMap t) (chans t) (gos t ++ gs) (s_calls t)).
  assert (stream_ok t1 m) as Ht1.
  { destruct Ht. split; try done.
    - intros i g [Hg|(k & Hk & ->)]%Hcase; [by apply (st_gos0 i)|]. destruct (Hks k Hk).
      destruct (clip_ok off len k) as (? & Ep & _); [unfold maxI64; lia|apply (co_div _ _ Hc)|done..|]. split; [done|]. by rewrite Ep.
    - intros i cl Hcl. apply (stream_call_mono t); [|by eapply st_calls0].
      intros j g Hj. exists g. split; [|done]. by apply lookup_app_l_Some. }
  apply (add_call_ok t1 m _ Ht1). split_and!; [done..|]. cbn [s_off s_len s_gos s_res gos t1]. intros x Hx.
  assert (x / MemoryChunkSize * MemoryChunkSize ∈ ks) as Hk.
  { apply chunk_loop_all; [lia|unfold maxI64; lia|done|apply Z.divide_factor_r| |lia].
    split; apply Z.mul_le_mono_nonneg_r; try lia; apply Z.div_le_mono; lia. }
  apply list_elem_of_lookup_1 in Hk as [j Hj]. set (k := x / MemoryChunkSize * MemoryChunkSize) in *.
  exists (length (gos t) + j)%nat, (clip size off len k).
  assert (gs !! j = Some (clip size off len k)) as Hgj by (unfold gs; by rewrite list_lookup_fmap, Hj).
  split_and!.
  - apply elem_of_seq. apply lookup_lt_Some in Hgj. lia.
  - rewrite lookup_app_r by lia. by replace (length (gos t) + j - length (gos t))%nat with j by lia.
  - destruct (Hks k) as [? ?]; [by eapply list_elem_of_lookup_2|].
    destruct (clip_ok off len k) as (_ & _ & _ & Eo & _); [unfold maxI64; lia|apply (co_div _ _ Hc)|done..|].
    rewrite Eo. pose proof (Z.mul_div_le x MemoryChunkSize ltac:(lia)). unfold k. lia.
  - destruct (Hks k) as [? ?]; [by eapply list_elem_of_lookup_2|].
    destruct (clip_ok off len k) as (_ & _ & _ & _ & Ee); [unfold maxI64; lia|apply (co_div _ _ Hc)|done..|].
    rewrite Ee. pose proof (Z.mul_succ_div_gt x MemoryChunkSize ltac:(lia)). unfold k. lia.
Qed.

Lemma with_call_ok t m i cl : stream_ok t m → call_ok t cl → stream_ok (with_call t i cl) m.
Proof.
  intros [] Hcl. split; try done. intros j cl' Hj.
  assert (call_ok t cl') as Hok; [|by apply (stream_call_mono t); [intros k g Hk; by exists g|]].
  apply list_lookup_insert_Some in Hj as [(_ & <- & _)|[_ Hj]]; [done|by eapply st_calls0].
Qed.

Lemma join_ok t m i cl k : stream_ok t m → s_calls t !! i = Some cl → s_res cl = None →
  match join t cl k with
  | Ok r => stream_ok (with_call t i (mkCall (s_off cl) (s_len cl) (s_gos cl) (Some r))) m
  | Err _ => True
  | Panic => False
  end.
Proof.
  intros Ht Hi Hres. pose proof (st_calls _ _ Ht _ _ Hi) as (Ho & Hd & Hl & Hin & Hcov). rewrite Hres in Hcov.
  pose proof (st_cache _ _ Ht) as Hc. unfold join. destruct (mapM (go_result t) (s_gos cl)) as [rs|] eqn:Em; [|done].
  apply mapM_Some_1 in Em. destruct (forallb _ rs) eqn:Eall.
  - pose proof (cache_Slice _ _ (s_off cl) (s_len cl) Hc Ho Hd Hl Hin) as Hs.
    destruct (Slice _ _ _) as [b|e|]; [| |done].
    + apply with_call_ok; [done|]. by split_and!.
    + apply with_call_ok; [done|]. split_and!; [done..|]. cbn. intros Hlv. exfalso. destruct Hs as (_ & _ & Hn). apply Hn.
      intros x Hx. destruct (Hcov x Hx) as (j & g & Hj & Hg & Hxg). apply (list_elem_of_lookup_1 (s_gos cl) j) in Hj as [p Hp].
      destruct (Forall2_lookup_l _ _ _ _ _ Em Hp) as (r & Hr & Hgr). unfold go_result in Hgr. rewrite Hg in Hgr.
      rewrite forallb_forall in Eall. specialize (Eall r). rewrite <- list_elem_of_In in Eall.
      specialize (Eall (list_elem_of_lookup_2 _ _ _ Hr)). destruct r; [done|].
      pose proof (st_gos _ _ Ht _ _ Hg) as [_ Hok]. destruct (gpc g); try done. injection Hgr as ->.
      apply Hok; [lia|done|done].
  - destruct (rs !! k) as [[e|]|]; [|done..]. apply with_call_ok; [done|]. split_and!; [done..|]. cbn. intros _. by exists e.
Qed.

(** A step of a fetch: its session is replaced, the channels it closes are woken. *)
Lemma session_step_ok t m sid s c' m' s' cs chs' :
  stream_ok t m → sessions t !! sid = Some s → session_step (s_cache t) m s c' m' s' cs →
  (fpc s' = FEnd ↔ fpc s = FDelete) → fpc s ≠ FEnd → close_all (chans t) cs = Ok chs' →
  let t' := with_chans (with_session (with_cache t c') sid s') chs' in
  stream_ok (match fpc s with FDelete => with_fetchMap t' (delete (chunkOff s) (fetchMap t')) | _ => t' end) m'.
Proof.
  intros Ht Hs [Hc' Hg Eo El (l & Hws & Hcf & Hcs) Hok'] Hend Hne Hclose t'.
  set (t'' := match fpc s with FDelete => _ | _ => _ end).
  pose proof (st_sess _ _ Ht _ _ Hs) as Hok. pose proof (so_nodup _ _ _ _ Hok) as Hnd. rewrite Hws, fmap_app in Hnd.
  apply NoDup_app in Hnd as (Hnd & Hdis & _).
  destruct (close_all_spec (chans t) cs) as (chs & Hc2 & Hin & Hout).
  { by rewrite Hcf. } { intros i Hi. rewrite Hcf in Hi. apply list_elem_of_fmap in Hi as (w & -> & Hw).
    apply (so_open _ _ _ _ Hok). rewrite Hws. apply elem_of_app. by left. }
  rewrite Hc2 in Hclose. injection Hclose as ->.
  assert (s_cache t'' = c' ∧ s_size t'' = s_size t ∧ sessions t'' = <[sid:=s']> (sessions t) ∧ chans t'' = chs' ∧
    gos t'' = gos t ∧ s_calls t'' = s_calls t) as (E1 & E2 & E3 & E4 & E5 & E6) by (unfold t''; by destruct (fpc s)).
  assert (∀ k i, fetchMap t'' !! k = Some i ↔ fetchMap t !! k = Some i ∧ (fpc s = FDelete → k ≠ chunkOff s)) as Hmap.
  { intros k i. unfold t''. destruct (fpc s); simpl; try (split; [intros Hk; split; [exact Hk|discriminate]|by intros [Hk _]]).
    rewrite lookup_delete_Some. split; [intros [Hk1 Hk2]; split; [done|intros _ ->; by apply Hk1]|intros [Hk1 Hk2]; split; [intros <-; by apply Hk2|done]]. }
  clearbody t''. assert (sid < length (sessions t))%nat as Hlt by by eapply lookup_lt_Some.
  assert (∀ i s0, sessions t'' !! i = Some s0 → (i = sid ∧ s0 = s') ∨ (i ≠ sid ∧ sessions t !! i = Some s0)) as Hcase.
  { intros i s0 Hi. rewrite E3 in Hi. apply list_lookup_insert_Some in Hi as [(-> & <- & _)|[? ?]]; auto. }
  assert (∀ i s0 w, i ≠ sid → sessions t !! i = Some s0 → w ∈ waiters s0 → chs' !! wch w = chans t !! wch w) as Hother.
  { intros i s0 w Hi Hi0 Hw. apply Hout. rewrite Hcf. intros (v & Ev & Hv)%list_elem_of_fmap. apply Hi.
    apply (st_disj _ _ Ht i sid s0 s w v); try done. rewrite Hws. apply elem_of_app. by left. }
  assert (∀ w, w ∈ waiters s' → chs' !! wch w = Some ChOpen) as Hopen'.
  { intros w Hw. rewrite Hout.
    - apply (so_open _ _ _ _ Hok). rewrite Hws. apply elem_of_app. by right.
    - rewrite Hcf. intros Hin'. apply (Hdis _ Hin'). by apply list_elem_of_fmap_2. }
  split.
  - by rewrite E1.
  - by rewrite E2, (st_size _ _ Ht).
  - rewrite E1, E4. intros i s0 [[-> ->]|[Hi Hi0]]%Hcase; [by apply Hok'|].
    apply (session_ok_mono (s_cache t) m c' m' (chans t)); [done| |by apply (st_sess _ _ Ht i)]. intros w Hw. by eapply Hother.
  - intros i s0 [[-> ->]|[Hi Hi0]]%Hcase Hp; apply Hmap.
    + rewrite Eo. split; [by apply (st_map _ _ Ht)|]. intros Ed. by destruct Hp; apply Hend.
    + pose proof (st_map _ _ Ht _ _ Hi0 Hp) as Hm. split; [done|]. intros _ E. rewrite E in Hm.
      pose proof (st_map _ _ Ht _ _ Hs Hne). congruence.
  - intros k i [Hk Hd]%Hmap. destruct (st_map' _ _ Ht _ _ Hk) as (s0 & Hi & Hko & Hp).
    destruct (decide (i = sid)) as [->|Hi'].
    + assert (s0 = s) as -> by congruence. exists s'. rewrite E3, list_lookup_insert_eq by done. split_and!; [done|congruence|].
      intros He. apply Hend in He. by apply (Hd He).
    + exists s0. rewrite E3, list_lookup_insert_ne by done. done.
  - intros i1 i2 s1 s2 w1 w2 [[-> ->]|[? H1]]%Hcase [[-> ->]|[? H2]]%Hcase Hw1 Hw2 E; try done.
    + apply (st_disj _ _ Ht sid i2 s s2 w1 w2); try done. rewrite Hws. apply elem_of_app. by right.
    + apply (st_disj _ _ Ht i1 sid s1 s w1 w2); try done. rewrite Hws. apply elem_of_app. by right.
    + by apply (st_disj _ _ Ht i1 i2 s1 s2 w1 w2).
  - rewrite E5. intros i g Hgi. pose proof (st_gos _ _ Ht _ _ Hgi) as [Hst Hp]. split; [done|].
    assert (go_range (s_cache t) g → go_range c' g) as Hr by (intros H x Hx; apply Hg, H, Hx).
    assert (∀ j s0, sessions t !! j = Some s0 → ∃ s1, sessions t'' !! j = Some s1 ∧ chunkOff s1 = chunkOff s0) as Hup.
    { intros j s0 Hj. rewrite E3. destruct (decide (j = sid)) as [->|Hj'].
      - exists s'. rewrite list_lookup_insert_eq by done. split; [done|congruence].
      - exists s0. by rewrite list_lookup_insert_ne by done. }
    assert (∀ j, on_session t g j (λ _, True) → on_session t'' g j (λ _, True)) as Hon.
    { intros j (? & s0 & Hj & Ho & _). split; [done|]. destruct (Hup j s0 Hj) as (s1 & ? & E). exists s1. by rewrite E. }
    destruct (gpc g) as [|j|j|j e|j ch|[e|]]; rewrite ?E1; auto.
    destruct Hp as (Hl & s0 & Hj & Ho & Hch). split; [done|].
    destruct (decide (j = sid)) as [->|Hj'].
    + assert (s0 = s) as -> by congruence. exists s'. rewrite E3, list_lookup_insert_eq by done.
      split_and!; [done|congruence|]. rewrite E4.
      destruct (chans t !! ch) as [x|] eqn:Ech; [|done]. destruct x as [|x].
      * rewrite Hws in Hch. apply elem_of_app in Hch as [Hch|Hch].
        -- assert (ch ∈ cs.*1) as Hchc by (rewrite Hcf; apply list_elem_of_fmap; by exists (mkWaiter (eb_of g) ch)).
           apply list_elem_of_fmap in Hchc as ([n e] & En & Hce). simpl in En. subst n. rewrite (Hin _ _ Hce). destruct e; [done|].
           intros Hlv x Hx. destruct (Hcs _ _ Hce) as (w & Hw & Ew & Hrange). apply (Hrange eq_refl Hlv).
           assert (w = mkWaiter (eb_of g) ch) as ->.
           { apply list_elem_of_lookup_1 in Hw as [a Ha], Hch as [b Hb].
             assert (a = b) as -> by (eapply NoDup_lookup; [exact Hnd|by rewrite list_lookup_fmap, Ha|by rewrite list_lookup_fmap, Hb, <- Ew]).
             congruence. }
           destruct (endByteOf_eq _ _ g (st_cache _ _ Ht) Hst Hl) as [_ Heb]. destruct (Hst Hl) as (H1 & H2 & H3 & H4).
           simpl. rewrite Ho, (so_len _ _ _ _ Hok), Ho. lia.
        -- pose proof (Hopen' _ Hch) as Hop. simpl in Hop. by rewrite Hop.
      * assert (chs' !! ch = Some (ChClosed x)) as ->; [|destruct x; auto].
        rewrite Hout; [done|]. rewrite Hcf. intros (w & -> & Hw)%list_elem_of_fmap.
        rewrite (so_open _ _ _ _ Hok) in Ech; [done|]. rewrite Hws. apply elem_of_app. by left.
    + exists s0. rewrite E3, list_lookup_insert_ne, E4 by done. split_and!; [done..|].
      destruct (chans t !! ch) as [x|] eqn:Ech; [|done]. destruct x as [|x].
      * pose proof (Hother j s0 _ Hj' Hj Hch) as Ho'. simpl in Ho'. by rewrite Ho', Ech.
      * assert (chs' !! ch = Some (ChClosed x)) as ->; [|destruct x; auto].
        rewrite Hout; [done|]. rewrite Hcf. intros (w & -> & Hw)%list_elem_of_fmap.
        rewrite (so_open _ _ _ _ Hok) in Ech; [done|]. rewrite Hws. apply elem_of_app. by left.
  - rewrite E6. intros i cl Hi. apply (stream_call_mono t); [|by eapply (st_calls _ _ Ht)]. rewrite E5. intros j g Hj. by exists g.
Qed.

Lemma fetch_step_end c s ev c' s' cs : fetch_step src c s ev = Ok (c', s', cs) →
  fpc s ≠ FEnd ∧ (fpc s' = FEnd ↔ fpc s = FDelete).
Proof.
  unfold fetch_step, read_step, read_loop. intros H. destruct (fpc s) eqn:Ep, ev; try done;
    repeat case_match; simplify_eq; simpl; (split; [done|]); try done; simplify_option_eq; repeat case_match; simplify_eq/=; try done.
Qed.

Definition label_ok (l : slabel) : Prop :=
  match l with
  | LSlice off len => slice_label_ok off len
  | LFetch _ ev => event_ok ev
  | LGo _ _ | LJoin _ _ => True
  end.

Lemma stream_step_ok t m l : stream_ok t m → label_ok l →
  match stream_step src t l with Ok t' => ∃ m', stream_ok t' m' | Err _ => True | Panic => False end.
Proof.
  intros Ht Hl. destruct l as [off len|i d|i k|sid ev]; simpl.
  - pose proof (slice_start_ok t m off len Ht Hl). destruct (slice_start t off len); [by exists m|done..].
  - destruct (gos t !! i) as [g|] eqn:Hi; [|done]. pose proof (go_step_ok t m i g d Ht Hi).
    destruct (go_step t g d) as [[t' p]|?|]; [by exists m|done..].
  - destruct (s_calls t !! i) as [cl|] eqn:Hi; [|done]. destruct (s_res cl) eqn:Hres; [done|].
    pose proof (join_ok t m i cl k Ht Hi Hres). destruct (join t cl k); [by exists m|done..].
  - destruct (sessions t !! sid) as [s|] eqn:Hs; [|done]. pose proof (st_sess _ _ Ht _ _ Hs) as Hok.
    pose proof (fetch_step_ok _ _ _ s ev (st_cache _ _ Ht) Hok Hl) as Hf.
    destruct (fetch_step src (s_cache t) s ev) as [[[c' s'] cs]|?|] eqn:Ef; [|done..]. destruct Hf as (m' & Hst).
    cbn [mbind res_bind]. destruct (fetch_step_end _ _ _ _ _ _ Ef) as [Hne Hend].
    destruct (ss_closes _ _ _ _ _ _ _ Hst) as (l & Hws & Hcf & _).
    destruct (close_all_spec (chans t) cs) as (chs' & Hc & _).
    { rewrite Hcf. pose proof (so_nodup _ _ _ _ Hok) as Hnd. rewrite Hws, fmap_app in Hnd. by apply NoDup_app in Hnd as (? & _ & _). }
    { intros i Hi. rewrite Hcf in Hi. apply list_elem_of_fmap in Hi as (w & -> & Hw). apply (so_open _ _ _ _ Hok).
      rewrite Hws. apply elem_of_app. by left. }
    rewrite Hc. exists m'. exact (session_step_ok t m sid s c' m' s' cs chs' Ht Hs Hst Hend Hne Hc).
Qed.

Lemma stream_run_ok ls : ∀ t m, stream_ok t m → Forall label_ok ls →
  match stream_run src t ls with Ok t' => ∃ m', stream_ok t' m' | Err _ => True | Panic => False end.
Proof.
  induction ls as [|l ls IH]; intros t m Ht Hls; simpl; [by exists m|]. apply Forall_cons in Hls as [Hl Hls].
  pose proof (stream_step_ok t m l Ht Hl) as Hs. destruct (stream_step src t l) as [t'|?|]; [|done..].
  destruct Hs as (m' & Ht'). by apply (IH t' m').
Qed.

Lemma NewStreamingChunker_ok file path t0 : NewStreamingChunker file size bs path = Ok t0 →
  0 < size → 0 < bs → (bs | MemoryChunkSize) → (lvl = Healthy → (bs | size)) → size + 2 * MemoryChunkSize ≤ maxI64 →
  ∃ m, stream_ok t0 m.
Proof.
  intros Hnew Hs Hb Hd Hd' Hfit. unfold NewStreamingChunker, NewCache in Hnew.
  destruct (file_open file) as [content|]; [|done]. destruct (Z.eqb_spec size 0); [lia|].
  destruct (file_truncate file), (file_map file); simpl in Hnew; try done. injection Hnew as <-.
  assert (bs ≤ MemoryChunkSize) by (apply Z.divide_pos_le; done). pose proof MemoryChunkSize_pos.
  exists (truncated content size). split; simpl; try done. split; simpl; try done.
  split; simpl; try done; try lia. unfold truncated, zlength. rewrite length_app, length_take, length_replicate. lia.
Qed.

(** ** How long a fetch takes *)
Definition fetch_rest s : Z :=
  let left r := 4 * (chunkLen s - totalRead r) in
  let rest r (e : read_err) k := match e with NoErr => left r + k | _ => k - 1 end in
  match fpc s with
  | FAddress => 4 * chunkLen s + 5
  | FOpen _ => 4 * chunkLen s + 4
  | FRead r => left r + 3
  | FMark r _ e => rest r e 6
  | FNotify r e => rest r e 5
  | FAfter r e => rest r e 4
  | FFail _ _ | FFinish => 2
  | FDelete => 1
  | FEnd => 0
  end.
(** A [Read] that returns nothing and no error is no progress. *)
Definition progress (l : slabel) : bool :=
  match l with LFetch _ (FvRead n NoErr) => 0 <? n | _ => true end.
Definition is_fetch (sid : nat) (l : slabel) : bool :=
  match l with LFetch i _ => bool_decide (i = sid) | _ => false end.

Lemma notify_static s1 err s2 cs : notifyWaiters s1 err = (s2, cs) → chunkLen s2 = chunkLen s1.
Proof. unfold notifyWaiters. intros H. destruct (terminated s1); [by simplify_eq|]. by destruct (pop_ready _ _); simplify_eq. Qed.

Lemma fetch_rest_decr c m chs s ev c' s' cs : cache_ok c m → session_ok c m chs s →
  fetch_step src c s ev = Ok (c', s', cs) → progress (LFetch 0 ev) = true → 0 ≤ fetch_rest s' < fetch_rest s.
Proof.
  intros Hc Hs Hf Hpr. pose proof (chunkLen_pos _ _ _ _ Hc Hs) as (Hlen & _). pose proof (so_pc _ _ _ _ Hs) as Hpc.
  assert (MemoryChunkSize = 4194304) as HCS by done.
  unfold fetch_step in Hf. destruct (fpc s) as [|n|r|r q e|r e|r e|err only| | |] eqn:Ep, ev as [|[[av mb]|]|n' e'|];
    try done; unfold fetch_rest; rewrite Ep; cbn in Hpc.
  - destruct (addressBytes _ _ _); simplify_eq; cbn; lia.
  - unfold read_loop in Hf. cbn in Hf. case_match; simplify_eq; cbn; lia.
  - simplify_eq. cbn. lia.
  - simplify_eq. cbn. lia.
  - destruct Hpc as (Hr & Hlt & Hp). pose proof (rd_avail _ _ _ _ _ Hr) as [Ha _].
    unfold read_step in Hf. destruct (negb _); [by injection Hf as <- <- <-; cbn; lia|].
    destruct (Z.leb_spec 0 n'); cbn [negb andb] in Hf; [|done]. destruct (n' <=? _); cbn [negb andb] in Hf; [|done].
    destruct (Z.leb_spec (totalRead r + n') (avail r)); cbn [negb andb] in Hf; [|done].
    destruct (bool_decide _ || _); cbn [negb] in Hf; [|done].
    destruct (rd_prev _ _ _ _ _ Hr). pose proof (co_bounds _ _ Hc). assert (0 ≤ totalRead r) by nia.
    rewrite (i64_small (totalRead r + n')) in Hf by lia. cbn [totalRead] in Hf.
    destruct (go_div _ _) as [q|?|]; cbn in Hf; [|by injection Hf as <- <- <-; cbn; lia..].
    destruct (prevCompleted r <? q); injection Hf as <- <- <-; destruct e'; cbn in Hpr |- *; try lia.
    all: apply Z.ltb_lt in Hpr; lia.
  - injection Hf as <- <- <-. cbn. destruct Hpc. lia.
  - destruct Hpc as (Hr & _). pose proof (rd_avail _ _ _ _ _ Hr) as [Ha _]. pose proof (rd_prev _ _ _ _ _ Hr).
    destruct (setIsCached _ _ _); injection Hf as <- <- <-; cbn; destruct e; lia.
  - destruct Hpc as (Hr & _). pose proof (rd_avail _ _ _ _ _ Hr) as [Ha _]. pose proof (rd_prev _ _ _ _ _ Hr).
    destruct (notifyWaiters _ None) as [s2 cs2] eqn:En. injection Hf as <- <- <-. apply notify_static in En. cbn in En.
    cbn. rewrite En. destruct e; lia.
  - destruct Hpc as (Hr & _). pose proof (rd_avail _ _ _ _ _ Hr) as [Ha _]. pose proof (rd_prev _ _ _ _ _ Hr).
    destruct e.
    + injection Hf as <- <- <-. unfold read_loop. destruct (Z.ltb_spec (totalRead r) (chunkLen s)); cbn; lia.
    + repeat case_match; simplify_eq; cbn; lia.
    + injection Hf as <- <- <-. cbn. lia.
  - destruct (setError _ _ _) as [s2 cs2]. injection Hf as <- <- <-. cbn. lia.
  - destruct (setDone _) as [s2 cs2]. injection Hf as <- <- <-. cbn. lia.
  - injection Hf as <- <- <-. cbn. lia.
Qed.

(** Only the fetch itself moves its session forward. *)
Lemma go_step_session t g d t' p sid s : go_step t g d = Ok (t', p) → sessions t !! sid = Some s →
  ∃ s', sessions t' !! sid = Some s' ∧ fetch_rest s' = fetch_rest s.
Proof.
  intros Hg Hs. assert (sessions t' = sessions t → ∃ s', sessions t' !! sid = Some s' ∧ fetch_rest s' = fetch_rest s) as Hsame.
  { intros E. exists s. by rewrite E. }
  unfold go_step, getOrCreateSession, register in Hg. destruct (gpc g) as [|j|j|j ferr|j ch|r].
  - destruct (_ <=? 0); [by simplify_eq; auto|]. destruct (fetchMap t !! _); [by simplify_eq/=; auto|].
    destruct (isCached _ _ _) as [[|]|?|]; simplify_eq/=; auto. exists s. split; [by apply lookup_app_l_Some|done].
  - destruct (sessions t !! j); [|done]. destruct (endByteOf _ _ _ _); simplify_eq/=; auto.
  - destruct (sessions t !! j) as [s0|] eqn:Hj; [|done]. destruct (endByteOf _ _ _ _); simplify_eq/=.
    destruct (_ <=? _); [by simplify_eq; auto|]. destruct (terminated s0); simplify_eq/=; auto.
    destruct (decide (j = sid)) as [->|Hne].
    + rewrite list_lookup_insert_eq by (by eapply lookup_lt_Some). eexists. split; [done|]. assert (s0 = s) as -> by congruence. done.
    + rewrite list_lookup_insert_ne by done. by exists s.
  - destruct (isCached _ _ _) as [[|]|?|]; simplify_eq/=; auto.
  - destruct d; simplify_eq/=; auto. destruct (chans t !! ch) as [[|]|]; simplify_eq/=; auto.
  - done.
Qed.

Lemma slice_start_sessions t off len t' : slice_start t off len = Ok t' → sessions t' = sessions t.
Proof.
  unfold slice_start. intros H. destruct (Slice _ _ _) as [b|e|]; [by injection H as <-| |done].
  destruct e; lazymatch type of H with Ok _ = _ => by injection H as <- | _ => idtac end.
  destruct (BlockIdx off MemoryChunkSize) as [q|?|]; cbn [mbind res_bind] in H; [|done..].
  destruct (BlockIdx _ MemoryChunkSize) as [q'|?|]; cbn [mbind res_bind] in H; [|done..]. by injection H as <-.
Qed.

Lemma step_session t m l t' sid s : stream_ok t m → stream_step src t l = Ok t' → progress l = true →
  sessions t !! sid = Some s → 0 ≤ fetch_rest s →
  ∃ s', sessions t' !! sid = Some s' ∧ 0 ≤ fetch_rest s' ∧
    fetch_rest s' + (if is_fetch sid l then 1 else 0) ≤ fetch_rest s.
Proof.
  intros Ht Hstep Hpr Hs H0. destruct l as [off len|i d|i k|j ev]; cbn [stream_step is_fetch] in *.
  - exists s. split; [|lia]. by rewrite (slice_start_sessions _ _ _ _ Hstep).
  - destruct (gos t !! i) as [g|]; [|done]. destruct (go_step t g d) as [[t1 p]|?|] eqn:Eg; simplify_eq/=.
    destruct (go_step_session _ _ _ _ _ _ _ Eg Hs) as (s' & ? & E). exists s'. rewrite E. split; [done|lia].
  - destruct (s_calls t !! i) as [cl|]; [|done]. destruct (s_res cl); [done|]. destruct (join t cl k); simplify_eq/=.
    exists s. split; [done|lia].
  - destruct (sessions t !! j) as [s0|] eqn:Hj; [|done].
    destruct (fetch_step src (s_cache t) s0 ev) as [[[c' s1] cs]|?|] eqn:Ef; [|done..]. cbn in Hstep.
    destruct (close_all (chans t) cs) as [chs|?|]; [|done..]. cbn in Hstep.
    assert (sessions t' = <[j:=s1]> (sessions t)) as -> by (destruct (fpc s0); by injection Hstep as <-).
    case_bool_decide as Ejs.
    + subst j. assert (s0 = s) as -> by congruence. exists s1. rewrite list_lookup_insert_eq by (by eapply lookup_lt_Some).
      split; [done|]. pose proof (fetch_rest_decr _ _ _ _ _ _ _ _ (st_cache _ _ Ht) (st_sess _ _ Ht _ _ Hs) Ef Hpr). lia.
    + exists s. rewrite list_lookup_insert_ne by done. split; [done|lia].
Qed.

Lemma run_session ls : ∀ t m t' sid s, stream_ok t m → Forall label_ok ls → forallb progress ls = true →
  stream_run src t ls = Ok t' → sessions t !! sid = Some s → 0 ≤ fetch_rest s →
  Z.of_nat (count_if (is_fetch sid) ls) ≤ fetch_rest s.
Proof.
  induction ls as [|l ls IH]; intros t m t' sid s Ht Hls Hpr Hrun Hs H0; [unfold count_if; simpl; lia|].
  apply Forall_cons in Hls as [Hl Hls]. apply andb_prop in Hpr as [Hpl Hpr]. simpl in Hrun.
  pose proof (stream_step_ok t m l Ht Hl) as Hok. destruct (stream_step src t l) as [t1|?|] eqn:Est; [|done..].
  destruct Hok as (m1 & Ht1). destruct (step_session t m l t1 sid s Ht Est Hpl Hs H0) as (s1 & Hs1 & H1 & Hle).
  specialize (IH t1 m1 t' sid s1 Ht1 Hls Hpr Hrun Hs1 H1). unfold count_if in *. rewrite filter_cons.
  destruct (is_fetch sid l); simpl in *; lia.
Qed.

Lemma reading_bounds c m off len r : 0 < bs → reading_ok c m off len r → 0 ≤ totalRead r ≤ len.
Proof.
  intros Hb []. destruct rd_avail0 as [Ha _], rd_prev0 as [Hp Ht].
  pose proof (Z.mul_nonneg_nonneg (prevCompleted r) bs). lia.
Qed.

Lemma fetch_rest_bound c m chs s : cache_ok c m → session_ok c m chs s → 0 ≤ fetch_rest s ≤ 4 * chunkLen s + 5.
Proof.
  intros Hc Hs. pose proof (chunkLen_pos _ _ _ _ Hc Hs) as (Hlen & _). pose proof (so_pc _ _ _ _ Hs) as Hpc.
  pose proof (co_bounds _ _ Hc) as [Hb _]. unfold fetch_rest.
  destruct (fpc s) as [|n|r|r q e|r e|r e|err only| | |]; cbn in Hpc; try lia.
  - destruct Hpc as (Hr & ? & _). pose proof (reading_bounds _ _ _ _ _ Hb Hr). lia.
  - destruct Hpc as (Hr & Hq & Hlt & _). pose proof (reading_bounds _ _ _ _ _ Hb Hr).
    assert (totalRead r ≠ 0) by (intros E; rewrite E, Z.div_0_l in Hq by lia; destruct (rd_prev _ _ _ _ _ Hr); lia).
    destruct e; lia.
  - destruct Hpc as (Hr & _). pose proof (reading_bounds _ _ _ _ _ Hb Hr). destruct e; lia.
  - destruct Hpc as (Hr & _). pose proof (reading_bounds _ _ _ _ _ Hb Hr). destruct e; lia.
Qed.

(** A fetch that is under way can always go on. *)
Lemma fetch_enabled t m sid s : stream_ok t m → sessions t !! sid = Some s → running (fpc s) = true →
  ∃ ev t', progress (LFetch sid ev) = true ∧ event_ok ev ∧ stream_step src t (LFetch sid ev) = Ok t'.
Proof.
  intros Ht Hs Hrun. pose proof (st_cache _ _ Ht) as Hc.
  assert (∃ ev, progress (LFetch sid ev) = true ∧ event_ok ev ∧ ∃ x, fetch_step src (s_cache t) s ev = Ok x) as (ev & Hp & Hev & x & Hx).
  { unfold fetch_step. destruct (fpc s) as [|n|r|r q e|r e|r e|err only| | |] eqn:Ep; try done.
    - exists FvNext. split_and!; [done..|]. destruct (addressBytes _ _ _); by eexists.
    - exists (FvOpen None). split_and!; [done..|]. by eexists.
    - exists (FvRead 0 OtherErr). split_and!; [done..|]. unfold read_step.
      destruct ((0 <=? totalRead r) && _ && _) eqn:Eg; cbn [negb]; [|by eexists].
      apply andb_prop in Eg as [[_ Eg%Z.leb_le]%andb_prop _].
      pose proof (so_pc _ _ _ _ (st_sess _ _ Ht _ _ Hs)) as Hpc. rewrite Ep in Hpc. destruct Hpc as (Hr & _).
      destruct (rd_prev _ _ _ _ _ Hr). destruct (Z.leb_spec 0 (Z.min (i64 (totalRead r + readBatch r)) (chunkLen s) - totalRead r)); [|lia].
      destruct (Z.leb_spec (totalRead r + 0) (avail r)); [|lia]. cbn [negb andb].
      unfold go_div. destruct (_ =? 0); by eexists.
    - exists FvNext. split_and!; [done..|]. destruct (setIsCached _ _ _); by eexists.
    - exists FvNext. split_and!; [done..|]. destruct (notifyWaiters _ _). by eexists.
    - exists FvNext. split_and!; [done..|]. destruct e; [by eexists| |by eexists]. destruct (_ <? _); [|by eexists].
      destruct (setIsCached _ _ _); by eexists.
    - exists FvNext. split_and!; [done..|]. destruct (setError _ _ _). by eexists.
    - exists FvNext. split_and!; [done..|]. destruct (setDone _). by eexists. }
  pose proof (stream_step_ok t m (LFetch sid ev) Ht Hev) as Hok. simpl in Hok. rewrite Hs, Hx in Hok.
  destruct x as [[c' s'] cs]. cbn in Hok. exists ev. simpl. rewrite Hs, Hx. cbn.
  destruct (close_all (chans t) cs) as [chs|?|] eqn:Ec; [by eexists|exfalso|done].
  by apply close_all_not_err in Ec.
Qed.
End stream_laws.

(** ** What the chunker promises *)
Definition stream_params (bs size : Z) : Prop :=
  0 < size ∧ 0 < bs ∧ (bs | MemoryChunkSize) ∧ size + 2 * MemoryChunkSize ≤ maxI64.

(** What a call may have returned. *)
Definition result_ok (src : Z → byte) (lvl : level) (cl : slice_call) : Prop :=
  match s_res cl with
  | Some (Ok b) => lvl ≠ AnyUp → b = object_bytes src (s_off cl) (s_len cl)
  | Some (Err e) => lvl = Healthy → ∃ e', e = ErrStreamEnsure e'
  | Some Panic => False
  | None => True
  end.


(** C19: no waiter is lost.  Whatever the upstream does, a goroutine that waits is
    either still registered with a fetch that is under way, can go on and has not
    reached the waiter's blocks, or its channel is closed and it can go on; and while
    every [Read] delivers bytes or an error, the fetch takes at most
    [4 * chunkLen + 5] more steps, however its steps are interleaved with others. *)
Theorem Stream_no_lost_waiter (src : Z → byte) (bs size : Z) (file : FileResult) (path : string)
    (t0 t : stream_sys) (ls : list slabel) (i : nat) (g : goroutine) (sid ch : nat) :
  NewStreamingChunker file size bs path = Ok t0 → stream_params bs size → Forall (label_ok AnyUp bs size) ls →
  stream_run src t0 ls = Ok t → gos t !! i = Some g → gpc g = GWait sid ch →
  ∃ s, sessions t !! sid = Some s ∧
    ((chans t !! ch = Some ChOpen ∧ bytesReady s < eb_of bs g ∧
      ∃ ev t', progress (LFetch sid ev) = true ∧ stream_step src t (LFetch sid ev) = Ok t') ∨
     ∃ e t', chans t !! ch = Some (ChClosed e) ∧ stream_step src t (LGo i false) = Ok t') ∧
    ∀ ls' t', Forall (label_ok AnyUp bs size) ls' → forallb progress ls' = true → stream_run src t ls' = Ok t' →
      Z.of_nat (count_if (is_fetch sid) ls') ≤ 4 * chunkLen s + 5.
Proof.
  intros Hnew (Hs & Hb & Hd & Hfit) Hls Hrun Hi Hp.
  destruct (NewStreamingChunker_ok src AnyUp bs size file path t0 Hnew Hs Hb Hd ltac:(done) Hfit) as (m0 & Ht0).
  pose proof (stream_run_ok src AnyUp bs size ls t0 m0 Ht0 Hls) as Hr. rewrite Hrun in Hr. destruct Hr as (m & Ht).
  pose proof (st_gos _ _ _ _ _ _ Ht _ _ Hi) as [_ Hok]. rewrite Hp in Hok. destruct Hok as (_ & s & Hsid & Ho & Hch).
  pose proof (st_sess _ _ _ _ _ _ Ht _ _ Hsid) as Hso. pose proof (st_cache _ _ _ _ _ _ Ht) as Hc.
  exists s. split; [done|]. split.
  - destruct (chans t !! ch) as [[|e]|] eqn:Ech; [left|right|done].
    + split; [done|]. split; [by apply (so_asleep _ _ _ _ _ _ _ _ Hso (mkWaiter (eb_of bs g) ch))|].
      destruct (running (fpc s)) eqn:Er.
      * destruct (fetch_enabled src AnyUp bs size t m sid s Ht Hsid Er) as (ev & t' & ? & _ & ?). by exists ev, t'.
      * rewrite (so_term _ _ _ _ _ _ _ _ Hso) in Hch by (by apply (so_done _ _ _ _ _ _ _ _ Hso)). by apply not_elem_of_nil in Hch.
    + exists e. simpl. rewrite Hi. unfold go_step. rewrite Hp, Ech. by eexists.
  - intros ls' t' Hls' Hpr Hrun'. pose proof (fetch_rest_bound src AnyUp bs size _ _ _ s Hc Hso) as [H0 Hle].
    pose proof (run_session src AnyUp bs size ls' t m t' sid s Ht Hls' Hpr Hrun' Hsid H0). lia.
Qed.

(** ** Concrete runs *)
Definition ex_sys (size : Z) : stream_sys := mkStream (mkCache "c" size 4 (Some (truncated [] size)) ∅ false false) size [] ∅ [] [] [].
Definition ex_wait : list slabel := [LGo 0 false; LGo 0 false; LGo 0 false].
Definition ex_next : slabel := LFetch 0 FvNext.
(** A reader of the last block, of a fetch that delivers [av] of 8 bytes. *)
Definition ex_short (av n2 : Z) (rest : nat) : list slabel :=
  [LSlice 4 4] ++ ex_wait ++ [ex_next; LFetch 0 (FvOpen (Some (av, 4)))] ++
  [LFetch 0 (FvRead 4 (if bool_decide (n2 = 0) then EOF else NoErr)); ex_next; ex_next; ex_next] ++
  (if bool_decide (n2 = 0) then [] else [LFetch 0 (FvRead n2 EOF)]) ++
  replicate rest ex_next ++ [LGo 0 false; LJoin 0 0].
Definition ex_result (size : Z) (ls : list slabel) : option (res StreamError (list byte)) :=
  match stream_run ex_src (ex_sys size) ls with Ok t => s_calls t !! 0%nat ≫= s_res | _ => None end.

(** A reader that ends early is taken for a complete one: [progressiveRead]
    does not compare [totalRead] with the length of the chunk at [EOF].  If it ends
    inside a block, the whole block is marked and [Slice] returns bytes that were
    never fetched; if it ends at a block boundary, the waiters are told that all is
    well and their [Slice] fails.  And the last, partial block of an object is marked
    only if the reader reports [EOF] together with its last bytes. *)
Theorem Stream_early_end :
  ex_result 8 (ex_short 6 2 3) = Some (Ok [x01; x01; x00; x00]) ∧
  ex_result 8 (ex_short 4 0 2) = Some (Err (ErrStreamReadAgain BytesNotAvailableError)) ∧
  ex_result 6 ([LSlice 4 2] ++ ex_wait ++ [ex_next; LFetch 0 (FvOpen (Some (6, 6))); LFetch 0 (FvRead 6 NoErr)] ++
    replicate 5 ex_next ++ [LGo 0 false; LJoin 0 0]) = Some (Err (ErrStreamReadAgain BytesNotAvailableError)).
Proof. by vm_compute. Qed.

Lemma ex_sys_new size : 0 < size → NewStreamingChunker ex_file size 4 "c" = Ok (ex_sys size).
Proof. intros. unfold NewStreamingChunker, NewCache. simpl. by destruct (Z.eqb_spec size 0); [lia|]. Qed.
Lemma ex_params : stream_params 4 8.
Proof. split_and!; try done. by exists 1048576. Qed.

Definition ex_good : list slabel :=
  [LSlice 4 4] ++ ex_wait ++ [ex_next; LFetch 0 (FvOpen (Some (MemoryChunkSize, 4)))] ++
  [LFetch 0 (FvRead 4 NoErr); ex_next; ex_next; ex_next; LFetch 0 (FvRead 4 EOF)] ++
  replicate 5 ex_next ++ [LGo 0 false; LJoin 0 0].

Lemma ex_good_ok : Forall (label_ok Healthy 4 8) ex_good.
Proof.
  unfold ex_good. simpl. repeat (apply Forall_cons; split); try done.
  split; [by right|done].
Qed.


Definition ex_waiting : stream_sys :=
  match stream_run ex_src (ex_sys 8) (LSlice 4 4 :: ex_wait) with Ok t => t | _ => ex_sys 8 end.

Lemma Stream_no_lost_waiter_witness :
  ∃ s, sessions ex_waiting !! 0%nat = Some s ∧ ∃ ev t', stream_step ex_src ex_waiting (LFetch 0 ev) = Ok t'.
Proof.
  destruct (Stream_no_lost_waiter ex_src 4 8 ex_file "c" (ex_sys 8) ex_waiting (LSlice 4 4 :: ex_wait) 0
    (mkGo 0 4 4 (GWait 0 0)) 0 0 (ex_sys_new 8 eq_refl) ex_params) as (s & Hs & Hor & _).
  - simpl. by repeat (apply Forall_cons; split).
  - by vm_compute.
  - by vm_compute.
  - done.
  - exists s. split; [done|]. destruct Hor as [(_ & _ & ev & t' & _ & H)|(e & t' & H & _)]; [by exists ev, t'|].
    exfalso. revert H. vm_compute. discriminate.
Defined.
