(* ===== verification/NfsCache.v ===== *)
(** * The shared cache of remote objects

    packages/shared/pkg/storage: [cachedSeekable] ([storage_cache_seekable.go]) keeps
    the chunks of a remote object as files of a directory that all nodes share;
    [RenameOrDeleteFile] of shared/pkg/utils [move.go] links a temporary file into
    place.

    The state is the directory - the file that each chunk's name leads to and the
    size file -, the write-backs that run in the background, the copies of local files
    into the directory and the range readers that are open.  A write-back links a
    finished temporary file into place; a copy truncates the file under the final name
    and writes it piece by piece, where everybody can see it.  A step ([nlabel]) is one
    call, one write-back or one piece of a copy; what the inner storage answers, whether
    a lock is obtained and whether a write succeeds is in the label. *)
From Stdlib Require Import Init.Byte Strings.Byte.
From S2P Require Import Prelude Chunk Stream StreamSafety.

Inductive NfsError :=
  | ErrBufferTooSmall | ErrBufferTooLarge | ErrOffsetUnaligned | ErrMultipleChunks
  | ErrUncachedRead                 (** the inner read failed *)
  | ErrInnerRangeReader
  | ErrTempFile | ErrLink | ErrLocked | ErrInnerSize.

(** [io.EOF] or [nil] next to the bytes of a read. *)
Abbreviation read_result := (list byte * bool)%type.

(** A [cachedSeekable] has [chunkSize]; a file is named by the number of its chunk. *)
Section nfs.
Context (src : Z → byte) (chunkSize : Z).

Definition validateReadAtParams (buffSize offset : Z) : res NfsError () :=
  if buffSize =? 0 then Err ErrBufferTooSmall
  else if chunkSize <? buffSize then Err ErrBufferTooLarge
  else
    r ← go_rem offset chunkSize;
    if negb (r =? 0) then Err ErrOffsetUnaligned
    else if chunkSize <? i64 (r + buffSize) then Err ErrMultipleChunks
    else Ok ().

(** [makeChunkFilename] names the file after this number. *)
Definition chunk_number (offset : Z) : res NfsError Z := go_div offset chunkSize.

(** The range readers: an open file of the cache with the position in it, the
    write-through reader with its buffer, and the bare inner reader. *)
Inductive range_reader :=
  | FileReader (inode : nat) (pos length : Z)
  | ThroughReader (off length : Z) (buf : list byte)
  | InnerReader (off length : Z)
  | ClosedReader.

(** A chunk that is being copied from a local file, and the call that copies it. *)
Record chunk_writer := mkWriter { w_job : nat; w_chunk : Z; w_inode : nat; w_pos : nat; w_data : list byte }.
Record store_job := mkJob { j_size : Z; j_todo : list (Z * list byte); j_failed : bool; j_ended : bool }.
(** A name leads to a file; a file that lost its name can still be read and written by
    who has it open. *)
Record nfs_sys := mkNfs {
  names : gmap Z nat;
  inodes : list (list byte);
  size_file : option Z;
  writebacks : list (Z * list byte);     (** the goroutines of [goCtx]: chunk number, data *)
  size_writebacks : list Z;
  readers : list range_reader;
  stores : list store_job;
  writers : list chunk_writer;
}.
Definition with_writebacks (t : nfs_sys) ws : nfs_sys :=
  mkNfs (names t) (inodes t) (size_file t) ws (size_writebacks t) (readers t) (stores t) (writers t).
Definition with_readers (t : nfs_sys) rs : nfs_sys :=
  mkNfs (names t) (inodes t) (size_file t) (writebacks t) (size_writebacks t) rs (stores t) (writers t).
Definition with_sizes (t : nfs_sys) file sizes : nfs_sys :=
  mkNfs (names t) (inodes t) file (writebacks t) sizes (readers t) (stores t) (writers t).
Definition with_files (t : nfs_sys) ns fs : nfs_sys :=
  mkNfs ns fs (size_file t) (writebacks t) (size_writebacks t) (readers t) (stores t) (writers t).
Definition with_stores (t : nfs_sys) js ws : nfs_sys :=
  mkNfs (names t) (inodes t) (size_file t) (writebacks t) (size_writebacks t) (readers t) js ws.
Definition file_of (t : nfs_sys) (c : Z) : option (list byte) := i ← names t !! c; inodes t !! i.

(** One [fp.Read(buff)] of the file. *)
Definition readAtFromCache (t : nfs_sys) (n chunk : Z) : option read_result :=
  match file_of t n with
  | None => None
  | Some content =>
      let b := take (Z.to_nat chunk) content in
      Some (b, bool_decide (b = []))
  end.

(** [ReadAt] into a buffer of [n] bytes; the inner storage reads [count] bytes and
    answers [nil], [EOF] or an error; [skip] is [skipCacheWriteback]. *)
Definition nfs_ReadAt (t : nfs_sys) (n offset : Z) (skip : bool) (count : Z) (e : read_err)
    : nfs_sys * res NfsError read_result :=
  match validateReadAtParams n offset with
  | Err err => (t, Err err)
  | Panic => (t, Panic)
  | Ok _ =>
      match chunk_number offset with
      | Ok c =>
          match readAtFromCache t c n with
          | Some r => (t, Ok r)
          | None =>
              match e with
              | OtherErr => (t, Err ErrUncachedRead)
              | _ =>
                  let b := object_bytes src offset (Z.max 0 (Z.min count n)) in
                  (if skip then t else with_writebacks t (writebacks t ++ [(c, b)]), Ok (b, bool_decide (e = EOF)))
              end
          end
      | Err err => (t, Err err)
      | Panic => (t, Panic)
      end
  end.

Definition OpenRangeReader (t : nfs_sys) (off length : Z) (inner_ok skip : bool) : nfs_sys * res NfsError nat :=
  match chunk_number off with
  | Ok c =>
      match names t !! c with
      | Some i => (with_readers t (readers t ++ [FileReader i 0 length]), Ok (List.length (readers t)))
      | None =>
          if negb inner_ok then (t, Err ErrInnerRangeReader)
          else (with_readers t (readers t ++ [if skip then InnerReader off length else ThroughReader off length []]), Ok (List.length (readers t)))
      end
  | Err e => (t, Err e)
  | Panic => (t, Panic)
  end.

(** [Read] into a buffer of [n] bytes; the inner reader delivers [count] of them, and
    no more than its range has. *)
Definition reader_Read (t : nfs_sys) (r : range_reader) (n count : Z) : range_reader * list byte :=
  match r with
  | FileReader i pos length =>
      let content := default [] (inodes t !! i) in
      let b := slice content pos (Z.min (pos + n) (Z.min length (zlength content))) in
      (FileReader i (pos + zlength b) length, b)
  | ThroughReader off length buf =>
      let b := object_bytes src (off + zlength buf) (Z.max 0 (Z.min (Z.min count n) (length - zlength buf))) in
      (ThroughReader off length (buf ++ b), b)
  | InnerReader off length =>
      let b := object_bytes src off (Z.max 0 (Z.min (Z.min count n) length)) in
      (InnerReader (off + zlength b) (length - zlength b), b)
  | ClosedReader => (ClosedReader, [])
  end.

(** [Close]: what was read so far is written back, however the reading ended. *)
Definition reader_Close (t : nfs_sys) (rid : nat) (r : range_reader) : nfs_sys :=
  let t := with_readers t (<[rid := ClosedReader]> (readers t)) in
  match r with
  | ThroughReader off _ buf =>
      if bool_decide (buf = []) then t
      else match chunk_number off with Ok c => with_writebacks t (writebacks t ++ [(c, buf)]) | _ => t end
  | _ => t
  end.

(** [RenameOrDeleteFile]: the temporary file is linked to its name, which fails when
    there is a file already, and removed in any case. *)
Definition RenameOrDeleteFile (t : nfs_sys) (c : Z) (temp : list byte) (link_ok : bool) : nfs_sys * option NfsError :=
  match names t !! c with
  | Some _ => (t, Some ErrLink)
  | None => if link_ok then (with_files t (<[c := length (inodes t)]> (names t)) (inodes t ++ [temp]), None) else (t, Some ErrLink)
  end.

(** [writeChunkToCache]: no error when the lock is taken by another. *)
Definition writeChunkToCache (t : nfs_sys) (c : Z) (data : list byte) (locked temp_ok link_ok : bool) : nfs_sys * option NfsError :=
  if negb locked then (t, None)
  else if negb temp_ok then (t, Some ErrTempFile)
  else RenameOrDeleteFile t c data link_ok.

(** [Size], with the answer of the inner storage, and [writeLocalSize]. *)
Definition nfs_Size (t : nfs_sys) (inner : option Z) (skip : bool) : nfs_sys * res NfsError Z :=
  match size_file t with
  | Some size => (t, Ok size)
  | None =>
      match inner with
      | None => (t, Err ErrInnerSize)
      | Some size =>
          (if skip then t else with_sizes t (size_file t) (size_writebacks t ++ [size]), Ok size)
      end
  end.
Definition writeLocalSize (file : option Z) (size : Z) (locked temp_ok link_ok : bool) : option Z * option NfsError :=
  if negb locked then (file, Some ErrLocked)
  else if negb temp_ok then (file, Some ErrTempFile)
  else match file with
       | Some _ => (file, Some ErrLink)
       | None => if link_ok then (Some size, None) else (None, Some ErrLink)
       end.

(** [createCacheBlocksFromFile]: the chunks of a local file, with the bytes that are
    copied to each ([io.CopyN] of at most [chunkSize]). *)
Fixpoint file_chunks (fuel : nat) (input : list byte) (offset : Z) : list (Z * list byte) :=
  match fuel with
  | O => []
  | S fuel =>
      if zlength input <=? offset then []
      else (offset / chunkSize, slice input offset (Z.min (offset + chunkSize) (zlength input)))
           :: file_chunks fuel input (offset + chunkSize)
  end.
(** The goroutine of [StoreFile] starts a goroutine for each chunk. *)
Definition nfs_StoreFile (t : nfs_sys) (input : list byte) : nfs_sys :=
  with_stores t (stores t ++ [mkJob (zlength input) (file_chunks (S (length input)) input 0) false false]) (writers t).
(** [writeChunkFromFile] opens the file under its final name, which is emptied or made. *)
Definition writeChunkFromFile (t : nfs_sys) (j : nat) (job : store_job) (k : nat) (c : Z) (data : list byte) (open_ok : bool) : nfs_sys :=
  let job' := mkJob (j_size job) (delete k (j_todo job)) (j_failed job || negb open_ok) (j_ended job) in
  let t := with_stores t (<[j := job']> (stores t)) (writers t) in
  if negb open_ok then t
  else match names t !! c with
       | Some i => with_stores (with_files t (names t) (<[i := []]> (inodes t))) (stores t) (writers t ++ [mkWriter j c i 0 data])
       | None =>
           let i := length (inodes t) in
           with_stores (with_files t (<[c := i]> (names t)) (inodes t ++ [[]])) (stores t) (writers t ++ [mkWriter j c i 0 data])
       end.
(** A write at a position of a file; what lies between its end and there reads as zeros. *)
Definition write_at (content : list byte) (pos : nat) (b : list byte) : list byte :=
  take pos content ++ replicate (pos - length content) x00 ++ b ++ drop (pos + length b) content.
(** A piece of [io.CopyN]. *)
Definition copy_piece (t : nfs_sys) (k : nat) (w : chunk_writer) (n : nat) : nfs_sys :=
  let b := take n (drop (w_pos w) (w_data w)) in
  let content := default [] (inodes t !! w_inode w) in
  with_stores (with_files t (names t) (<[w_inode w := write_at content (w_pos w) b]> (inodes t))) (stores t)
    (<[k := mkWriter (w_job w) (w_chunk w) (w_inode w) (w_pos w + length b) (w_data w)]> (writers t)).
(** The end of [writeChunkFromFile]: everything was copied, or a write failed and the
    name is removed. *)
Definition end_copy (t : nfs_sys) (k : nat) (w : chunk_writer) (ok : bool) : option nfs_sys :=
  if ok then if (length (w_data w) <=? w_pos w)%nat then Some (with_stores t (stores t) (delete k (writers t))) else None
  else
    let fail job := mkJob (j_size job) (j_todo job) true (j_ended job) in
    Some (with_stores (with_files t (delete (w_chunk w) (names t)) (inodes t)) (alter fail (w_job w) (stores t)) (delete k (writers t))).
(** [ec.Wait]: the size is written back when every chunk was copied. *)
Definition end_store (t : nfs_sys) (j : nat) (job : store_job) : option nfs_sys :=
  if negb (j_ended job) && bool_decide (j_todo job = []) && forallb (λ w, negb (bool_decide (w_job w = j))) (writers t) then
    let t := with_stores t (<[j := mkJob (j_size job) [] (j_failed job) true]> (stores t)) (writers t) in
    Some (if j_failed job then t else with_sizes t (size_file t) (size_writebacks t ++ [j_size job]))
  else None.

(** ** The directory and everybody who uses it *)
Inductive nlabel :=
  | NReadAt (n offset : Z) (skip : bool) (count : Z) (e : read_err)
  | NOpen (off length : Z) (inner_ok skip : bool)
  | NRead (rid : nat) (n count : Z)
  | NClose (rid : nat)
  | NWriteback (i : nat) (locked temp_ok link_ok : bool)
  | NSize (inner : option Z) (skip : bool)
  | NSizeWriteback (i : nat) (locked temp_ok link_ok : bool)
  | NStore (input : list byte)
  | NCopyOpen (j k : nat) (open_ok : bool)   (** the [k]-th chunk that is left of a copy *)
  | NCopy (k n : nat)
  | NCopyEnd (k : nat) (ok : bool)
  | NStoreEnd (j : nat)
  | NCrash (j : nat).                        (** the process of a copy ends *)

Definition nfs_step (t : nfs_sys) (l : nlabel) : option nfs_sys :=
  match l with
  | NReadAt n offset skip count e => Some (nfs_ReadAt t n offset skip count e).1
  | NOpen off length inner_ok skip => Some (OpenRangeReader t off length inner_ok skip).1
  | NRead rid n count =>
      match readers t !! rid with
      | Some r => Some (with_readers t (<[rid := (reader_Read t r n count).1]> (readers t)))
      | None => None
      end
  | NClose rid => match readers t !! rid with Some r => Some (reader_Close t rid r) | None => None end
  | NWriteback i locked temp_ok link_ok =>
      match writebacks t !! i with
      | Some (c, data) =>
          Some (with_writebacks (writeChunkToCache t c data locked temp_ok link_ok).1 (delete i (writebacks t)))
      | None => None
      end
  | NSize inner skip => Some (nfs_Size t inner skip).1
  | NSizeWriteback i locked temp_ok link_ok =>
      match size_writebacks t !! i with
      | Some size =>
          let '(file, _) := writeLocalSize (size_file t) size locked temp_ok link_ok in
          Some (with_sizes t file (delete i (size_writebacks t)))
      | None => None
      end
  | NStore input => Some (nfs_StoreFile t input)
  | NCopyOpen j k open_ok =>
      job ← stores t !! j; cd ← j_todo job !! k;
      Some (writeChunkFromFile t j job k cd.1 cd.2 open_ok)
  | NCopy k n => w ← writers t !! k; Some (copy_piece t k w n)
  | NCopyEnd k ok => w ← writers t !! k; end_copy t k w ok
  | NStoreEnd j => job ← stores t !! j; end_store t j job
  | NCrash j =>
      let stop job := mkJob (j_size job) (j_todo job) (j_failed job) true in
      Some (with_stores t (alter stop j (stores t)) (filter (λ w, w_job w ≠ j) (writers t)))
  end.
Fixpoint nfs_run (t : nfs_sys) (ls : list nlabel) : option nfs_sys :=
  match ls with
  | [] => Some t
  | l :: ls => nfs_step t l ≫= λ t, nfs_run t ls
  end.
Definition nfs_empty : nfs_sys := mkNfs ∅ [] None [] [] [] [] [].
End nfs.

(** ** What the files hold *)
Section nfs_laws.
Context (src : Z → byte) (chunkSize size : Z).
Context (Hcs : 0 < chunkSize) (Hsize : 0 < size) (Hfit : size + chunkSize ≤ maxI64).
Implicit Types (t : nfs_sys).

(** The bytes of a chunk. *)
Definition chunk_length (c : Z) : Z := Z.min chunkSize (size - c * chunkSize).
Definition whole_chunk (c : Z) (data : list byte) : Prop :=
  0 ≤ c ∧ c * chunkSize < size ∧ data = object_bytes src (c * chunkSize) (chunk_length c).

(** Calls that read or write whole chunks: an inner read that is written back
    returns the chunk, a range is a chunk, and a reader that wrote anything to
    its buffer is closed at the end of its range.  No process ends in the middle of a
    copy. *)
Definition whole_label t (l : nlabel) : Prop :=
  match l with
  | NReadAt n off skip count e =>
      skip = true ∨ e = OtherErr ∨ ∃ c, off = c * chunkSize ∧ 0 ≤ c ∧ off < size ∧ Z.min count n = chunk_length c
  | NOpen off length _ skip => skip = true ∨ ∃ c, off = c * chunkSize ∧ 0 ≤ c ∧ off < size ∧ length = chunk_length c
  | NClose rid => ∀ off length buf, readers t !! rid = Some (ThroughReader off length buf) → buf = [] ∨ zlength buf = length
  | NSize inner _ => inner = None ∨ inner = Some size
  | NStore input => input = object_bytes src 0 size
  | NCrash _ => False
  | _ => True
  end.
Fixpoint whole_run t (ls : list nlabel) : Prop :=
  match ls with
  | [] => True
  | l :: ls => whole_label t l ∧ match nfs_step src chunkSize t l with Some t' => whole_run t' ls | None => True end
  end.

Definition reader_ok (r : range_reader) : Prop :=
  match r with
  | ThroughReader off length buf =>
      ∃ c, off = c * chunkSize ∧ 0 ≤ c ∧ off < size ∧ length = chunk_length c ∧ zlength buf ≤ length ∧
        buf = object_bytes src off (zlength buf)
  | _ => True
  end.
(** The bytes of a chunk that a file does not have yet are still to be written. *)
Definition full (c : Z) : list byte := object_bytes src (c * chunkSize) (chunk_length c).
Definition covered (ws : list chunk_writer) (c : Z) (i : nat) (d : list byte) : Prop :=
  (length d ≤ length (full c))%nat ∧
  ∀ p b, full c !! p = Some b → d !! p = Some b ∨ ∃ w, w ∈ ws ∧ w_inode w = i ∧ (w_pos w ≤ p)%nat.
Record nfs_ok t : Prop := {
  nf_names c i : names t !! c = Some i → (0 ≤ c ∧ c * chunkSize < size) ∧ ∃ d, inodes t !! i = Some d ∧ covered (writers t) c i d;
  nf_inj c c' i : names t !! c = Some i → names t !! c' = Some i → c = c';
  nf_writers w : w ∈ writers t → w_data w = full (w_chunk w) ∧ (w_pos w ≤ length (w_data w))%nat ∧ (w_inode w < length (inodes t))%nat ∧
    ∀ c, names t !! c = Some (w_inode w) → c = w_chunk w;
  nf_back c data : (c, data) ∈ writebacks t → whole_chunk c data;
  nf_size n : size_file t = Some n → n = size;
  nf_sizes n : n ∈ size_writebacks t → n = size;
  nf_readers r : r ∈ readers t → reader_ok r;
  nf_stores j : j ∈ stores t → j_size j = size ∧ Forall (λ '(c, data), whole_chunk c data) (j_todo j);
}.

Lemma chunk_number_eq c : 0 ≤ c → c * chunkSize < size → chunk_number chunkSize (c * chunkSize) = Ok c.
Proof.
  intros Hc Hs. unfold chunk_number, go_div. destruct (Z.eqb_spec chunkSize 0); [lia|].
  rewrite Z.quot_mul by lia. unfold maxI64 in *. rewrite i64_small by nia. done.
Qed.

Lemma object_bytes_snoc off a b : 0 ≤ a → 0 ≤ b →
  object_bytes src off a ++ object_bytes src (off + a) b = object_bytes src off (a + b).
Proof. intros. unfold object_bytes. by rewrite seqZ_app, fmap_app by lia. Qed.

Lemma reader_Read_ok t r n count : reader_ok r → reader_ok (reader_Read src t r n count).1.
Proof.
  destruct r as [|off length buf| |]; simpl; try done. intros (c & ? & ? & ? & ? & Hl & Hb). exists c.
  set (k := Z.max 0 _). assert (0 ≤ k ∧ zlength buf + k ≤ length) as [Hk Hlk] by (unfold k; lia).
  assert (zlength (buf ++ object_bytes src (off + zlength buf) k) = zlength buf + k) as E.
  { pose proof (object_bytes_length src (off + zlength buf) k Hk). unfold zlength in *. rewrite length_app. lia. }
  split_and!; try done; [lia|]. rewrite E, <- object_bytes_snoc by (unfold zlength; lia). by rewrite <- Hb.
Qed.

(** A write-back puts its data in place, or leaves the file that is there. *)
Lemma writeChunkToCache_cases t c data locked temp_ok link_ok :
  (writeChunkToCache t c data locked temp_ok link_ok).1 = t ∨
  names t !! c = None ∧ (writeChunkToCache t c data locked temp_ok link_ok).1 = with_files t (<[c := length (inodes t)]> (names t)) (inodes t ++ [data]).
Proof.
  unfold writeChunkToCache, RenameOrDeleteFile. destruct locked, temp_ok; simpl; auto. destruct (names t !! c); simpl; auto.
  destruct link_ok; simpl; auto.
Qed.
(** A step that touches no chunk. *)
Lemma ok_same t t' : nfs_ok t → names t' = names t → inodes t' = inodes t → writers t' = writers t →
  (∀ c data, (c, data) ∈ writebacks t' → whole_chunk c data) → (∀ n, size_file t' = Some n → n = size) → (∀ n, n ∈ size_writebacks t' → n = size) →
  (∀ r, r ∈ readers t' → reader_ok r) → (∀ j, j ∈ stores t' → j_size j = size ∧ Forall (λ '(c, data), whole_chunk c data) (j_todo j)) → nfs_ok t'.
Proof. intros [] En Ei Ew. split; rewrite ?En, ?Ei, ?Ew; done. Qed.
Lemma whole_full c data : whole_chunk c data ↔ (0 ≤ c ∧ c * chunkSize < size) ∧ data = full c.
Proof. unfold whole_chunk, full. tauto. Qed.
Lemma covered_more ws ws' c i d : ws ⊆ ws' → covered ws c i d → covered ws' c i d.
Proof. intros Hw [Hl Hc]. split; [done|]. intros p b Hp. destruct (Hc p b Hp) as [?|(w & ? & ? & ?)]; [by left|right]. exists w. split_and!; auto. Qed.
Lemma covered_full ws c i : covered ws c i (full c).
Proof. split; [done|]. by left. Qed.
Lemma covered_new ws c i w : w ∈ ws → w_inode w = i → w_pos w = 0%nat → covered ws c i [].
Proof. intros Hw Hi Hp. split; [simpl; lia|]. intros p b _. right. exists w. split_and!; [done|done|lia]. Qed.
(** No copy is under way: the file is the chunk. *)
Lemma covered_done ws c i d : covered ws c i d → (∀ w, w ∈ ws → w_inode w ≠ i) → d = full c.
Proof.
  intros [Hl Hc] Hw. apply list_eq_same_length with (length d); [|done|].
  - apply Nat.le_antisymm; [|done]. destruct (Nat.le_gt_cases (length (full c)) (length d)) as [?|Hlt]; [done|].
    destruct (lookup_lt_is_Some_2 (full c) (length d) Hlt) as [b Hb]. destruct (Hc _ _ Hb) as [Hd|(w & Hin & Hi & _)]; [apply lookup_lt_Some in Hd; lia|by destruct (Hw w)].
  - intros p x y _ Hx Hy. destruct (Hc _ _ Hy) as [Hd|(w & Hin & Hi & _)]; [congruence|by destruct (Hw w)].
Qed.
Lemma write_at_lookup content pos b p : write_at content pos b !! p =
  if decide (p < pos)%nat then if decide (p < length content)%nat then content !! p else Some x00
  else if decide (p < pos + length b)%nat then b !! (p - pos)%nat else content !! p.
Proof.
  unfold write_at. destruct (decide (p < pos)%nat).
  - case_decide.
    + rewrite lookup_app_l by (rewrite length_take; lia). by rewrite lookup_take_lt.
    + rewrite lookup_app_r by (rewrite length_take; lia). rewrite lookup_app_l by (rewrite length_replicate, length_take; lia). apply lookup_replicate_2. rewrite length_take. lia.
  - rewrite app_assoc, lookup_app_r by (rewrite length_app, length_take, length_replicate; lia). rewrite length_app, length_take, length_replicate.
    replace (p - (pos `min` length content + (pos - length content)))%nat with (p - pos)%nat by lia. case_decide.
    + by rewrite lookup_app_l by lia.
    + rewrite lookup_app_r by lia. rewrite lookup_drop. f_equal. lia.
Qed.
Lemma write_at_length content pos b : length (write_at content pos b) = (length content `max` (pos + length b))%nat.
Proof. unfold write_at. rewrite !length_app, length_take, length_replicate, length_drop. lia. Qed.
(** A piece of a copy writes bytes of the chunk. *)
Lemma covered_write ws c i d k w n : ws !! k = Some w → w_inode w = i → w_data w = full c → (w_pos w ≤ length (full c))%nat → covered ws c i d →
  let b := take n (drop (w_pos w) (w_data w)) in
  covered (<[k := mkWriter (w_job w) (w_chunk w) (w_inode w) (w_pos w + length b) (w_data w)]> ws) c i (write_at d (w_pos w) b).
Proof.
  intros Hk Hi Hd Hpos [Hl Hc] b. assert (length b ≤ length (full c) - w_pos w)%nat as Hb by (unfold b; rewrite Hd, length_take, length_drop; lia).
  assert (∀ p, (p < length b)%nat → b !! p = full c !! (w_pos w + p)%nat) as Hbl.
  { intros p Hp. unfold b in *. rewrite Hd in *. rewrite length_take in Hp. by rewrite lookup_take_lt, lookup_drop by lia. }
  split; [rewrite write_at_length; lia|]. intros p x Hx. rewrite write_at_lookup.
  assert ((∃ w', w' ∈ ws ∧ w_inode w' = i ∧ (w_pos w' ≤ p)%nat ∧ ((w_pos w + length b ≤ p)%nat ∨ (p < w_pos w)%nat)) → ∃ w',
    w' ∈ <[k := mkWriter (w_job w) (w_chunk w) (w_inode w) (w_pos w + length b) (w_data w)]> ws ∧ w_inode w' = i ∧ (w_pos w' ≤ p)%nat) as Hw.
  { intros (w' & Hin & Hi' & Hp' & Hq). apply list_elem_of_lookup in Hin as [k' Hk']. destruct (decide (k = k')) as [<-|Hne].
    - rewrite Hk in Hk'. injection Hk' as <-. eexists. split; [eapply list_elem_of_lookup_2, list_lookup_insert_eq, lookup_lt_Some, Hk|]. simpl. split; [done|lia].
    - exists w'. split; [|done]. apply list_elem_of_lookup_2 with k'. by rewrite list_lookup_insert_ne. }
  destruct (decide (p < w_pos w)%nat) as [Hlt|Hge].
  - destruct (Hc p x Hx) as [Hp|(w' & ? & ? & ?)]; [left; by rewrite decide_True by by eapply lookup_lt_Some|right; apply Hw; eauto 10].
  - destruct (decide (p < w_pos w + length b)%nat) as [Hin|Hout]; [left; rewrite Hbl by lia; rewrite <- Hx; f_equal; lia|].
    destruct (Hc p x Hx) as [Hp|(w' & ? & ? & ?)]; [by left|right; apply Hw; exists w'; split_and!; auto; lia].
Qed.
Lemma full_length c : 0 ≤ chunk_length c → zlength (full c) = chunk_length c.
Proof. intros. unfold full. by apply object_bytes_length. Qed.

Lemma file_chunks_whole fuel : ∀ c, 0 ≤ c →
  Forall (λ '(c, data), whole_chunk c data) (file_chunks chunkSize fuel (object_bytes src 0 size) (c * chunkSize)).
Proof.
  pose proof (object_bytes_length src 0 size ltac:(lia)) as Hl.
  induction fuel as [|fuel IH]; intros c Hc; simpl; [constructor|]. rewrite Hl.
  destruct (Z.leb_spec size (c * chunkSize)); [constructor|]. constructor.
  - rewrite Z.div_mul by lia. split_and!; [done|done|].
    assert (0 ≤ chunk_length c) as Hcl by (unfold chunk_length; lia).
    pose proof (object_bytes_length src (c * chunkSize) (chunk_length c) Hcl) as Hr.
    assert (Z.min (c * chunkSize + chunkSize) size = c * chunkSize + chunk_length c) as -> by (unfold chunk_length; lia).
    assert (0 ≤ c * chunkSize) by nia.
    assert (zlength (slice (object_bytes src 0 size) (c * chunkSize) (c * chunkSize + chunk_length c)) = chunk_length c) as Hs.
    { rewrite slice_length; [lia|lia|]. unfold chunk_length. lia. }
    apply list_eq_Z; [by rewrite Hs, Hr|].
    intros i Hi. rewrite Hs in Hi. rewrite slice_lookup by lia. unfold chunk_length in *.
    by rewrite !object_bytes_lookup by lia.
  - replace (c * chunkSize + chunkSize) with ((c + 1) * chunkSize) by lia. apply IH. lia.
Qed.

Lemma nfs_ReadAt_state t n off skip count e : (nfs_ReadAt src chunkSize t n off skip count e).1 = t ∨
  ∃ c, skip = false ∧ e ≠ OtherErr ∧ validateReadAtParams chunkSize n off = Ok () ∧ chunk_number chunkSize off = Ok c ∧
    (nfs_ReadAt src chunkSize t n off skip count e).1 =
      with_writebacks t (writebacks t ++ [(c, object_bytes src off (Z.max 0 (Z.min count n)))]).
Proof.
  unfold nfs_ReadAt. destruct (validateReadAtParams chunkSize n off) as [[]|?|] eqn:Ev; [|by left..].
  destruct (chunk_number chunkSize off) as [c|?|] eqn:Ec; [|by left..].
  destruct (readAtFromCache t c n); [by left|]. destruct e, skip; simpl; auto.
  - right. exists c. by split_and!.
  - right. exists c. by split_and!.
Qed.

(** A copy opens its file, under a name that is there or a new one. *)
Lemma open_copy_ok t j job k c data ok : nfs_ok t → stores t !! j = Some job → j_todo job !! k = Some (c, data) → nfs_ok (writeChunkFromFile t j job k c data ok).
Proof.
  intros Ht Hj Hk. pose proof (nf_stores _ Ht job ltac:(by eapply list_elem_of_lookup_2)) as [Hjs Htodo].
  pose proof (proj1 (Forall_lookup _ _) Htodo k (c, data) Hk) as Hw. apply whole_full in Hw as [Hc ->].
  set (job' := mkJob (j_size job) (delete k (j_todo job)) (j_failed job || negb ok) (j_ended job)).
  assert (∀ x, x ∈ <[j := job']> (stores t) → j_size x = size ∧ Forall (λ '(c, data), whole_chunk c data) (j_todo x)) as Hst.
  { intros x [->|?]%elem_of_insert_inv; [|by apply (nf_stores _ Ht)]. split; [done|]. simpl. apply Forall_forall. intros y Hy%elem_of_delete_inv. exact (proj1 (Forall_forall _ _) Htodo y Hy). }
  destruct Ht as [Hn Hi Hw' Hb Hz Hzs Hr _]. unfold writeChunkFromFile. destruct ok; simpl negb.
  2:{ cbn iota. by split. }
  cbn iota zeta. unfold with_stores at 1. cbn [names]. destruct (names t !! c) as [i|] eqn:Ec.
  - destruct (Hn _ _ Ec) as [_ (d & Hd & _)]. pose proof (lookup_lt_Some _ _ _ Hd) as Hlt. split; simpl; try done.
    + intros c' i' Hc'. destruct (Hn _ _ Hc') as (? & d' & Hd' & Hcov). split; [done|]. destruct (decide (i = i')) as [<-|Hne].
      * rewrite (Hi _ _ _ Ec Hc') in *. exists []. split; [by apply list_lookup_insert_eq|].
        eapply covered_new; [apply elem_of_app; right; apply list_elem_of_singleton; reflexivity|done|done].
      * exists d'. split; [by rewrite list_lookup_insert_ne|]. eapply covered_more; [|exact Hcov]. intros w Hin. apply elem_of_app. by left.
    + intros w [Hin| ->%list_elem_of_singleton]%elem_of_app; rewrite length_insert; simpl; [by apply Hw'|].
      split_and!; [done|lia|done|]. intros c' Hc'. by eapply Hi.
  - split; simpl; try done.
    + intros c' i' [[<- <-]|[Hne Hc']]%lookup_insert_Some.
      * split; [done|]. exists []. split; [by rewrite lookup_app_r, Nat.sub_diag by done|].
        eapply covered_new; [apply elem_of_app; right; apply list_elem_of_singleton; reflexivity|done|done].
      * destruct (Hn _ _ Hc') as (? & d' & Hd' & Hcov). split; [done|]. exists d'. split; [by apply lookup_app_l_Some|].
        eapply covered_more; [|exact Hcov]. intros w Hin. apply elem_of_app. by left.
    + intros c1 c2 i' [[<- <-]|[Hne1 H1']]%lookup_insert_Some [[<- E]|[Hne2 H2']]%lookup_insert_Some; [done| | |by eapply Hi].
      * destruct (Hn _ _ H2') as (_ & d' & Hd' & _). apply lookup_lt_Some in Hd'. lia.
      * subst i'. destruct (Hn _ _ H1') as (_ & d' & Hd' & _). apply lookup_lt_Some in Hd'. lia.
    + intros w [Hin| ->%list_elem_of_singleton]%elem_of_app; rewrite length_app; simpl.
      * destruct (Hw' _ Hin) as (? & ? & ? & Hnm). split_and!; [done|done|lia|]. intros c' [[<- E]|[_ Hc']]%lookup_insert_Some; [lia|by apply Hnm].
      * split_and!; [done|lia|lia|]. intros c' [[<- _]|[_ Hc']]%lookup_insert_Some; [done|]. destruct (Hn _ _ Hc') as (_ & d' & Hd' & _). apply lookup_lt_Some in Hd'. lia.
Qed.
Lemma copy_piece_ok t k w n : nfs_ok t → writers t !! k = Some w → nfs_ok (copy_piece t k w n).
Proof.
  intros [Hn Hi Hw Hb Hz Hzs Hr Hst] Hk. pose proof (list_elem_of_lookup_2 _ _ _ Hk) as Hin. destruct (Hw _ Hin) as (Hd & Hpos & Hlt & Hnm).
  assert (∀ w', w' ∈ <[k := mkWriter (w_job w) (w_chunk w) (w_inode w) (w_pos w + length (take n (drop (w_pos w) (w_data w)))) (w_data w)]> (writers t) →
    w_inode w' = w_inode w ∧ w_chunk w' = w_chunk w ∧ w_data w' = w_data w ∧ (w_pos w' ≤ length (w_data w))%nat ∨ w' ∈ writers t) as Hcases.
  { intros w' [->|?]%elem_of_insert_inv; [left|by right]. split_and!; try done. simpl. rewrite length_take, length_drop. lia. }
  unfold copy_piece. split; simpl; try done.
  - intros c i Hc. destruct (Hn _ _ Hc) as (? & d & Hdi & Hcov). split; [done|]. destruct (decide (w_inode w = i)) as [<-|Hne].
    + rewrite Hdi. simpl. eexists. split; [by apply list_lookup_insert_eq|]. assert (w_chunk w = c) as Ec by (symmetry; by apply Hnm).
      apply (covered_write _ _ _ _ _ _ _ Hk); [done|by rewrite Hd, Ec|by rewrite <- Ec, <- Hd|done].
    + exists d. split; [by rewrite list_lookup_insert_ne|]. destruct Hcov as [Hl Hcv]. split; [done|]. intros p b Hp.
      destruct (Hcv p b Hp) as [?|(w' & Hin' & Hi' & Hp')]; [by left|right]. exists w'. split; [|done]. apply list_elem_of_lookup in Hin' as [k' Hk'].
      apply list_elem_of_lookup_2 with k'. rewrite list_lookup_insert_ne; [done|]. intros ->. rewrite Hk in Hk'. by injection Hk' as ->.
  - intros w' [(E1 & E2 & E3 & E4)|?]%Hcases; rewrite length_insert; [|by apply Hw]. rewrite E1, E2, E3. split_and!; try done.
Qed.
(** A writer that ends, when the file has all it could still write or lost its name. *)
Lemma drop_writer_ok t ns js k w : nfs_ok t → writers t !! k = Some w → (∀ c i, ns !! c = Some i → names t !! c = Some i) →
  ((w_pos w = length (w_data w)) ∨ ns !! w_chunk w = None) →
  (∀ x, x ∈ js → j_size x = size ∧ Forall (λ '(c, data), whole_chunk c data) (j_todo x)) →
  nfs_ok (with_stores (with_files t ns (inodes t)) js (delete k (writers t))).
Proof.
  intros [Hn Hi Hw Hb Hz Hzs Hr Hst] Hk Hns Hdone Hjs. pose proof (list_elem_of_lookup_2 _ _ _ Hk) as Hin. destruct (Hw _ Hin) as (Hd & Hpos & Hlt & Hnm). split; simpl; try done.
  - intros c i Hc. destruct (Hn _ _ (Hns _ _ Hc)) as (? & d & Hdi & [Hl Hcv]). split; [done|]. exists d. split; [done|]. split; [done|]. intros p b Hp.
    destruct (Hcv p b Hp) as [?|(w' & Hin' & Hi' & Hp')]; [by left|right]. apply list_elem_of_lookup in Hin' as [k' Hk'].
    destruct (decide (k' = k)) as [->|Hne].
    + exfalso. rewrite Hk in Hk'. injection Hk' as <-. assert (c = w_chunk w) as -> by (apply Hnm; rewrite Hi'; by apply Hns).
      destruct Hdone as [E|E]; [|congruence]. apply lookup_lt_Some in Hp. rewrite E, Hd in Hp'. lia.
    + exists w'. split; [|done]. destruct (decide (k' < k)%nat); [apply list_elem_of_lookup_2 with k'; by rewrite list_lookup_delete_lt|].
      apply list_elem_of_lookup_2 with (k' - 1)%nat. rewrite list_lookup_delete_ge by lia. replace (S (k' - 1)) with k' by lia. done.
  - intros c c' i H1' H2'. by eapply Hi; apply Hns.
  - intros w' Hin'%elem_of_delete_inv. destruct (Hw _ Hin') as (? & ? & ? & ?). split_and!; auto.
Qed.
Lemma end_copy_ok t k w ok t' : nfs_ok t → writers t !! k = Some w → end_copy t k w ok = Some t' → nfs_ok t'.
Proof.
  intros Ht Hk He. unfold end_copy in He. destruct ok.
  - destruct (Nat.leb_spec (length (w_data w)) (w_pos w)); [|done]. injection He as <-.
    destruct (nf_writers _ Ht w ltac:(by eapply list_elem_of_lookup_2)) as (_ & Hpos & _).
    apply (drop_writer_ok t (names t) (stores t) k w); [done|done|done|left; lia|apply (nf_stores _ Ht)].
  - injection He as <-. apply (drop_writer_ok t (delete (w_chunk w) (names t)) _ k w); [done|done|by intros c i [_ ?]%lookup_delete_Some|right; by rewrite lookup_delete_eq|].
    intros x Hx. apply list_elem_of_lookup in Hx as [j Hj]. rewrite list_lookup_alter in Hj. case_decide; [|by eapply (nf_stores _ Ht), list_elem_of_lookup_2].
    apply fmap_Some in Hj as (y & Hy & ->). exact (nf_stores _ Ht y (list_elem_of_lookup_2 _ _ _ Hy)).
Qed.
(** A write-back links a whole chunk. *)
Lemma link_ok t c data : nfs_ok t → whole_chunk c data → names t !! c = None → nfs_ok (with_files t (<[c := length (inodes t)]> (names t)) (inodes t ++ [data])).
Proof.
  intros [Hn Hi Hw Hb Hz Hzs Hr Hst] [Hc ->]%whole_full Hnone. split; simpl; try done.
  - intros c' i [[<- <-]|[_ Hc']]%lookup_insert_Some.
    + split; [done|]. exists (full c). split; [by rewrite lookup_app_r, Nat.sub_diag by done|apply covered_full].
    + destruct (Hn _ _ Hc') as (? & d & Hd & Hcov). split; [done|]. exists d. split; [by apply lookup_app_l_Some|done].
  - intros c1 c2 i [[<- <-]|[_ H1']]%lookup_insert_Some [[<- E]|[_ H2']]%lookup_insert_Some; [done| | |by eapply Hi].
    + destruct (Hn _ _ H2') as (_ & d & Hd & _). apply lookup_lt_Some in Hd. lia.
    + subst i. destruct (Hn _ _ H1') as (_ & d & Hd & _). apply lookup_lt_Some in Hd. lia.
  - intros w Hin. destruct (Hw _ Hin) as (? & ? & ? & Hnm). rewrite length_app. split_and!; [done|done|lia|].
    intros c' [[<- E]|[_ Hc']]%lookup_insert_Some; [lia|by apply Hnm].
Qed.

Lemma nfs_step_ok t l t' : nfs_ok t → whole_label t l → nfs_step src chunkSize t l = Some t' → nfs_ok t'.
Proof.
  intros Ht Hl Hs. pose proof Ht as [Hn Hi Hw Hb Hz Hzs Hr Hst].
  destruct l as [n off skip count e|off len inner skip|rid n count|rid|i lk tm ln|inner skip|i lk tm ln|input|j k ok|k n|k ok|j|j]; simpl in Hl, Hs.
  - injection Hs as <-. destruct (nfs_ReadAt_state t n off skip count e) as [->|(c & -> & He & _ & Hc & ->)]; [done|].
    destruct Hl as [Hl|[Hl|(c' & -> & Hc0 & Hoff & Hcnt)]]; [done..|].
    rewrite chunk_number_eq in Hc by done. injection Hc as <-. apply (ok_same t); try done. simpl.
    intros k data [Hk|Hk]%elem_of_app; [auto|]. apply list_elem_of_singleton in Hk as [= -> ->].
    split_and!; [done..|]. f_equal. unfold chunk_length in *. lia.
  - injection Hs as <-. unfold OpenRangeReader. destruct (chunk_number chunkSize off) as [c|?|]; [|done..].
    assert (∀ r, reader_ok r → nfs_ok (with_readers t (readers t ++ [r]))) as Hadd.
    { intros r Hrr. apply (ok_same t); try done. simpl. intros r' [?|?%list_elem_of_singleton]%elem_of_app; naive_solver. }
    destruct (names t !! c); [by apply Hadd|]. destruct inner; [|done]. apply Hadd. destruct skip; [done|].
    destruct Hl as [?|(k & ? & ? & ? & ->)]; [done|]. exists k. split_and!; try done. unfold zlength, chunk_length. simpl. nia.
  - destruct (readers t !! rid) as [r|] eqn:Er; [|done]. injection Hs as <-. apply (ok_same t); try done. simpl.
    intros r' [->|?]%elem_of_insert_inv; [|auto]. apply reader_Read_ok, Hr. by eapply list_elem_of_lookup_2.
  - destruct (readers t !! rid) as [r|] eqn:Er; [|done]. injection Hs as <-.
    assert (∀ r', r' ∈ <[rid := ClosedReader]> (readers t) → reader_ok r') as Hrs by (intros r' [->|?]%elem_of_insert_inv; [done|auto]).
    pose proof (Hr r ltac:(by eapply list_elem_of_lookup_2)) as Hrr.
    destruct r as [|off len buf| |]; simpl; try (by apply (ok_same t)). case_bool_decide as Hbf; [by apply (ok_same t)|].
    destruct Hrr as (c & -> & Hc & Hoff & -> & Hlen & Hbuf). rewrite chunk_number_eq by done.
    destruct (Hl _ _ _ eq_refl) as [?|Hfull]; [done|]. apply (ok_same t); try done. simpl.
    intros k data [Hk|Hk]%elem_of_app; [auto|]. apply list_elem_of_singleton in Hk as [= -> ->].
    split_and!; [done..|]. by rewrite Hbuf, Hfull.
  - destruct (writebacks t !! i) as [[c data]|] eqn:Ei; [|done]. injection Hs as <-.
    assert (nfs_ok (writeChunkToCache t c data lk tm ln).1 ∧ writebacks (writeChunkToCache t c data lk tm ln).1 = writebacks t) as [Hok _].
    { destruct (writeChunkToCache_cases t c data lk tm ln) as [->|[Hnone ->]]; [done|]. split; [|done]. apply link_ok; [done| |done]. apply Hb. by eapply list_elem_of_lookup_2. }
    apply (ok_same (writeChunkToCache t c data lk tm ln).1); try done; try apply Hok. simpl. intros k d Hk%elem_of_delete_inv. auto.
  - injection Hs as <-. unfold nfs_Size. destruct (size_file t); [done|]. destruct inner as [n|]; [|done]. destruct skip; [done|].
    apply (ok_same t); try done; simpl. intros k [?|?%list_elem_of_singleton]%elem_of_app; [auto|]. naive_solver.
  - destruct (size_writebacks t !! i) as [n|] eqn:Ei; [|done].
    assert (n = size) as -> by (apply Hzs; by eapply list_elem_of_lookup_2).
    assert ((writeLocalSize (size_file t) size lk tm ln).1 = size_file t ∨ (writeLocalSize (size_file t) size lk tm ln).1 = Some size) as Hc.
    { unfold writeLocalSize. destruct lk, tm; simpl; auto. destruct (size_file t); simpl; auto. destruct ln; simpl; auto. }
    destruct (writeLocalSize _ _ _ _ _) as [file err]. injection Hs as <-. apply (ok_same t); try done; simpl.
    + intros k Hk. simpl in Hc. destruct Hc as [->| ->]; [auto|]. naive_solver.
    + intros k Hk%elem_of_delete_inv. auto.
  - injection Hs as <-. subst input. apply (ok_same t); try done. cbn [nfs_StoreFile with_stores stores].
    intros j [?| ->%list_elem_of_singleton]%elem_of_app; [auto|]. cbn [j_size j_todo]. rewrite object_bytes_length by lia. split; [done|].
    exact (file_chunks_whole (S (length (object_bytes src 0 size))) 0 ltac:(lia)).
  - apply bind_Some in Hs as (job & Hj & Hs). apply bind_Some in Hs as ([c data] & Hk & [= <-]). by apply open_copy_ok.
  - apply bind_Some in Hs as (w & Hk & [= <-]). by apply copy_piece_ok.
  - apply bind_Some in Hs as (w & Hk & Hs). by eapply end_copy_ok.
  - apply bind_Some in Hs as (job & Hj & Hs). unfold end_store in Hs. destruct (_ && _); [|done]. injection Hs as <-.
    pose proof (Hst job ltac:(by eapply list_elem_of_lookup_2)) as [Hjs _].
    assert (∀ x, x ∈ <[j := mkJob (j_size job) [] (j_failed job) true]> (stores t) → j_size x = size ∧ Forall (λ '(c, data), whole_chunk c data) (j_todo x)) as Hx
      by (intros x [->|?]%elem_of_insert_inv; [by split|auto]).
    destruct (j_failed job); apply (ok_same t); try done; simpl. intros n [?| ->%list_elem_of_singleton]%elem_of_app; auto.
  - done.
Qed.

Lemma nfs_run_ok ls : ∀ t t', nfs_ok t → whole_run t ls → nfs_run src chunkSize t ls = Some t' → nfs_ok t'.
Proof.
  induction ls as [|l ls IH]; intros t t' Ht Hw Hr; simpl in *; [by injection Hr as <-|]. destruct Hw as [Hl Hw].
  destruct (nfs_step src chunkSize t l) as [t1|] eqn:E; [|done]. simpl in Hr. apply (IH t1); try done. by eapply nfs_step_ok.
Qed.
Lemma nfs_empty_ok : nfs_ok nfs_empty.
Proof. split; simpl; try done; intros *; rewrite ?not_elem_of_nil, ?(lookup_empty (M := gmap Z)); try done; by intros ?%not_elem_of_nil. Qed.

Lemma validate_aligned c n : 0 < n ≤ chunkSize → validateReadAtParams chunkSize n (c * chunkSize) = Ok ().
Proof.
  intros Hn. unfold validateReadAtParams, go_rem. destruct (Z.eqb_spec n 0); [lia|]. destruct (Z.ltb_spec chunkSize n); [lia|].
  destruct (Z.eqb_spec chunkSize 0); [lia|]. rewrite Z.rem_mul by lia. simpl. change (i64 0) with 0. simpl.
  unfold maxI64 in *. rewrite i64_small by lia. destruct (Z.ltb_spec chunkSize (0 + n)); [lia|done].
Qed.
Lemma take_object_bytes off n k : 0 ≤ n → 0 ≤ k →
  take (Z.to_nat n) (object_bytes src off k) = object_bytes src off (Z.min n k).
Proof.
  intros. unfold object_bytes. rewrite <- fmap_take. f_equal. apply list_eq_Z; unfold zlength.
  - rewrite length_take, !length_seqZ. lia.
  - intros i. rewrite length_take, length_seqZ. intros Hi. rewrite lookup_take_lt by lia. by rewrite !lookup_seqZ_lt by lia.
Qed.


(** ** A file of the cache is written once *)
Definition not_store (l : nlabel) : Prop :=
  match l with NStore _ | NCopyOpen _ _ _ | NCopy _ _ | NCopyEnd _ _ => False | _ => True end.
Definition holds t (c : Z) (i : nat) (data : list byte) : Prop := names t !! c = Some i ∧ inodes t !! i = Some data.

Lemma nfs_step_once t l t' c i data :
  not_store l → nfs_step src chunkSize t l = Some t' → holds t c i data → holds t' c i data.
Proof.
  intros Hl Hs [Hc Hd]. destruct l as [n off skip count e|off len inner skip|rid n count|rid|k lk tm ln|inner skip|k lk tm ln|input|j k ok|k n|k ok|j|j];
    simpl in Hs; try done.
  - injection Hs as <-. by destruct (nfs_ReadAt_state t n off skip count e) as [->|(? & _ & _ & _ & _ & ->)].
  - injection Hs as <-. unfold OpenRangeReader. destruct (chunk_number chunkSize off) as [k|?|]; [|done..].
    destruct (names t !! k); [done|]. by destruct inner.
  - destruct (readers t !! rid); [|done]. by injection Hs as <-.
  - destruct (readers t !! rid) as [r|]; [|done]. injection Hs as <-. destruct r; simpl; try done. case_bool_decide; [done|].
    by destruct (chunk_number chunkSize off).
  - destruct (writebacks t !! k) as [[k' d]|]; [|done]. injection Hs as <-. unfold holds. simpl.
    destruct (writeChunkToCache_cases t k' d lk tm ln) as [->|[Hk ->]]; [done|]. simpl. rewrite lookup_insert_ne by congruence. split; [done|]. by apply lookup_app_l_Some.
  - injection Hs as <-. unfold nfs_Size. destruct (size_file t); [done|]. destruct inner; [|done]. by destruct skip.
  - destruct (size_writebacks t !! k) as [n|]; [|done]. destruct (writeLocalSize _ _ _ _ _). by injection Hs as <-.
  - apply bind_Some in Hs as (job & _ & Hs). unfold end_store in Hs. destruct (_ && _); [|done]. injection Hs as <-. by destruct (j_failed job).
  - by injection Hs as <-.
Qed.
Lemma nfs_run_once ls : ∀ t t' c i data, Forall not_store ls → nfs_run src chunkSize t ls = Some t' → holds t c i data → holds t' c i data.
Proof.
  induction ls as [|l ls IH]; intros t t' c i data Hl Hr Hc; simpl in Hr; [by injection Hr as <-|].
  apply Forall_cons in Hl as [Hl Hls]. destruct (nfs_step src chunkSize t l) as [t1|] eqn:E; [|done].
  apply (IH t1); try done. by eapply nfs_step_once.
Qed.

(** Somebody opens the range of chunk [c], reads [k] bytes of it, fails or gives up
    and closes the reader; its write-back finds the lock free. *)
Definition early_close (c k : Z) : list nlabel :=
  [NOpen (c * chunkSize) (chunk_length c) true false; NRead 0 k k; NClose 0; NWriteback 0 true true true].

(** A reader that is closed before the end of its range leaves a short file
    in the cache: the bytes read so far become the chunk, no later write-back by any
    node replaces them, and every later range reader of the chunk reads the short
    file. *)
Theorem NFS_early_close_poisons (c k : Z) (ls : list nlabel) (t : nfs_sys) (inner_ok skip : bool) :
  0 ≤ c → c * chunkSize < size → 0 < k < chunk_length c → Forall not_store ls →
  nfs_run src chunkSize nfs_empty (early_close c k ++ ls) = Some t →
  file_of t c = Some (object_bytes src (c * chunkSize) k) ∧
  ∃ i, OpenRangeReader chunkSize t (c * chunkSize) (chunk_length c) inner_ok skip = (with_readers t (readers t ++ [FileReader i 0 (chunk_length c)]), Ok (length (readers t))) ∧
    inodes t !! i = Some (object_bytes src (c * chunkSize) k).
Proof.
  intros Hc Hin Hk Hls Hr. set (b := object_bytes src (c * chunkSize) k).
  assert (nfs_run src chunkSize nfs_empty (early_close c k) = Some (mkNfs {[c := 0%nat]} [b] None [] [] [ClosedReader] [] [])) as E.
  { unfold early_close. cbn [nfs_run nfs_step]. unfold OpenRangeReader. rewrite chunk_number_eq by done. cbn [names nfs_empty].
    rewrite (lookup_empty (M := gmap Z)). simpl. rewrite Z.add_0_r. replace (Z.max 0 _) with k by (unfold zlength; simpl; lia). fold b.
    assert (b ≠ []) as Hb. { intros E. apply (f_equal zlength) in E. unfold b in E. rewrite object_bytes_length in E by lia. unfold zlength in E. simpl in E. lia. }
    rewrite bool_decide_eq_false_2 by done. rewrite chunk_number_eq by done. simpl. done. }
  assert (∀ ls1 ls2 t, nfs_run src chunkSize t (ls1 ++ ls2) = nfs_run src chunkSize t ls1 ≫= λ t, nfs_run src chunkSize t ls2) as Happ.
  { intros ls1 ls2. induction ls1 as [|l ls1 IH]; intros t0; [done|]. simpl. destruct (nfs_step src chunkSize t0 l); [apply IH|done]. }
  rewrite Happ, E in Hr. simpl in Hr.
  assert (holds t c 0 b) as [Hf Hd] by (eapply nfs_run_once; [done|done|]; split; [apply (lookup_singleton_eq (M := gmap Z))|done]).
  split; [unfold file_of; by rewrite Hf|]. exists 0%nat. split; [|done]. unfold OpenRangeReader. by rewrite chunk_number_eq, Hf by done.
Qed.
End nfs_laws.

(** ** Examples *)
Definition nfs_src (i : Z) : byte := default x00 (Byte.of_N (Z.to_N i)).
(** A [ReadAt] is written back while a [StoreFile] copies the other chunk. *)
Definition nfs_object : list byte := object_bytes nfs_src 0 6.
Definition nfs_ex : list nlabel :=
  [NStore nfs_object; NReadAt 4 0 false 4 NoErr; NCopyOpen 0 1 true; NWriteback 0 true true true; NCopy 0 1; NCopy 0 4; NCopyEnd 0 true;
   NOpen 4 2 true false; NSize (Some 6) false; NSizeWriteback 0 true true true; NCopyOpen 0 0 true; NCopy 0 3].

(** A node reads a chunk that another is copying: it gets the bytes that are there, or
    the end of the file, without an error. *)
Lemma NFS_reads_half_copied :
  (λ t, (nfs_ReadAt nfs_src 4 t 4 0 false 4 NoErr).2) <$> nfs_run nfs_src 4 nfs_empty nfs_ex = Some (Ok ([x00; x01; x02], false)) ∧
  (λ t, (nfs_ReadAt nfs_src 4 t 4 0 false 4 NoErr).2) <$> nfs_run nfs_src 4 nfs_empty [NStore nfs_object; NCopyOpen 0 0 true] = Some (Ok ([], true)).
Proof. by vm_compute. Qed.
(** A process that ends in the middle of a copy leaves a short file for good. *)
Lemma NFS_crash_leaves_short_chunk :
  (λ t, ((nfs_ReadAt nfs_src 4 t 4 0 false 4 NoErr).2, writers t)) <$> nfs_run nfs_src 4 nfs_empty [NStore nfs_object; NCopyOpen 0 0 true; NCopy 0 3; NCrash 0;
    NReadAt 4 0 false 4 NoErr] = Some (Ok ([x00; x01; x02], false), []).
Proof. by vm_compute. Qed.

Definition nfs_ex_after : list nlabel :=
  [NReadAt 4 4 false 2 EOF; NWriteback 0 true true true; NOpen 0 4 true false; NRead 1 4 4; NClose 1].
Lemma NFS_early_close_poisons_witness :
  match nfs_run nfs_src 4 nfs_empty (early_close 4 6 0 3 ++ nfs_ex_after) with
  | Some t => file_of t 0 = Some [x00; x01; x02]
  | None => False
  end.
Proof.
  destruct (nfs_run nfs_src 4 nfs_empty (early_close 4 6 0 3 ++ nfs_ex_after)) as [t|] eqn:E; [|vm_compute in E; discriminate].
  pose proof (NFS_early_close_poisons nfs_src 4 6 eq_refl eq_refl ltac:(vm_compute; discriminate) 0 3 nfs_ex_after t true true) as H.
  specialize (H ltac:(lia) ltac:(lia) ltac:(unfold chunk_length; lia) ltac:(repeat constructor) E). exact (proj1 H).
Defined.
