(* ===== verification/DiffStore.v ===== *)
(** * The store of diffs

    packages/orchestrator/internal/sandbox/build: [DiffStore] ([cache.go]) keeps the
    diffs of builds that sandboxes read from, [StorageDiff] ([storage_diff.go]) and
    [NoDiff] ([diff.go]).  The store sits on a TTL cache; a background loop watches
    the disk and schedules the deletion of old diffs, which a new user cancels.

    The TTL cache is the third-party package ttlcache: [TtlOps] are the operations the
    code calls, [TtlLaws] what they do to the items in the order of their last use.
    The system has the diffs that were allocated, the cache, the scheduled deletions
    with their goroutines, the goroutines of the eviction callback, the disk loop and
    the callers; a step ([dlabel]) is one call of the cache, one critical section of
    [pdMu] or one operation on a channel.  [Init] is one step, as the chunker of a
    diff changes once, at its end.  The walk of [RangeBackwards] sees the items that
    were there when it began, and an expired item leaves the cache when it expires. *)
From S2P Require Import Prelude SyncUtils.

(** ** The TTL cache *)
Definition lru_get (l : list (string * nat)) (k : string) : option nat :=
  snd <$> head (filter (λ x, x.1 = k) l).
Definition lru_drop (l : list (string * nat)) (k : string) : list (string * nat) := filter (λ x, x.1 ≠ k) l.

Class TtlOps (C : Type) := {
  ttl_new : C;
  ttl_items : C → list (string * nat);        (** the least recently used first *)
  ttl_Set : C → string → nat → C;
  ttl_GetOrSet : C → string → nat → C * (nat * bool);
  ttl_Get : C → string → C * option nat;
  ttl_Has : C → string → bool;
  (** [Delete] and [DeleteAll], with what the eviction callback is called on *)
  ttl_Delete : C → string → C * option nat;
  ttl_DeleteAll : C → C * list (string * nat);
}.
Class TtlLaws (C : Type) `{TtlOps C} : Prop := {
  ttl_new_items : ttl_items (ttl_new : C) = [];
  ttl_Set_items (c : C) k v : ttl_items (ttl_Set c k v) = lru_drop (ttl_items c) k ++ [(k, v)];
  ttl_GetOrSet_items (c : C) k v :
    let w := default v (lru_get (ttl_items c) k) in
    ttl_items (ttl_GetOrSet c k v).1 = lru_drop (ttl_items c) k ++ [(k, w)] ∧
    (ttl_GetOrSet c k v).2 = (w, bool_decide (is_Some (lru_get (ttl_items c) k)));
  ttl_Get_items (c : C) k :
    (ttl_Get c k).2 = lru_get (ttl_items c) k ∧
    ttl_items (ttl_Get c k).1 =
      match lru_get (ttl_items c) k with Some v => lru_drop (ttl_items c) k ++ [(k, v)] | None => ttl_items c end;
  ttl_Has_items (c : C) k : ttl_Has c k = bool_decide (is_Some (lru_get (ttl_items c) k));
  ttl_Delete_items (c : C) k :
    ttl_items (ttl_Delete c k).1 = lru_drop (ttl_items c) k ∧ (ttl_Delete c k).2 = lru_get (ttl_items c) k;
  ttl_DeleteAll_items (c : C) : ttl_items (ttl_DeleteAll c).1 = [] ∧ (ttl_DeleteAll c).2 = ttl_items c;
}.
#[export] Instance list_ttl : TtlOps (list (string * nat)) := {
  ttl_new := [];
  ttl_items l := l;
  ttl_Set l k v := lru_drop l k ++ [(k, v)];
  ttl_GetOrSet l k v :=
    let w := default v (lru_get l k) in (lru_drop l k ++ [(k, w)], (w, bool_decide (is_Some (lru_get l k))));
  ttl_Get l k := (match lru_get l k with Some v => lru_drop l k ++ [(k, v)] | None => l end, lru_get l k);
  ttl_Has l k := bool_decide (is_Some (lru_get l k));
  ttl_Delete l k := (lru_drop l k, lru_get l k);
  ttl_DeleteAll l := ([], l);
}.
#[export] Instance list_ttl_laws : TtlLaws (list (string * nat)).
Proof. split; done. Qed.

(** ** Diffs *)
Inductive DiffError :=
  | ErrOpenSeekable | ErrObjectSize | ErrCreateChunker   (** [StorageDiff.Init] *)
  | ErrAlreadySet
  | NoDiffError
  | UnknownDiffTypeError (diffType : string)
  | ErrFileSize
  | ErrInitSource (e : DiffError)
  | ErrFailedToGetSource.

Definition Memfile : string := "memfile".
Definition Rootfs : string := "rootfs.ext4".
Inductive SeekableObjectType := MemfileObjectType | RootFSObjectType | UnknownSeekableObjectType.
Definition storageObjectType (diffType : string) : SeekableObjectType * bool :=
  if bool_decide (diffType = Memfile) then (MemfileObjectType, true)
  else if bool_decide (diffType = Rootfs) then (RootFSObjectType, true)
  else (UnknownSeekableObjectType, false).
Definition storagePath (buildId diffType : string) : string := (buildId +:+ "/" +:+ diffType)%string.
Definition GetDiffStoreKey (buildID diffType : string) : string := (buildID +:+ "/" +:+ diffType)%string.

(** The diffs of the store; [chunker] says whether there is a chunker yet, or the
    error of [Init]; [closes] counts the calls of [Close] that came through. *)
Inductive diff_kind :=
  | StorageDiff (chunker : SetOnce () DiffError)
  | LocalDiff
  | NoDiff.
Record diff_obj := mkDiff { cacheKey : string; kind : diff_kind; closes : nat }.

Definition newStorageDiff (buildId diffType : string) : res DiffError diff_obj :=
  let '(_, ok) := storageObjectType diffType in
  if ok then Ok (mkDiff (GetDiffStoreKey buildId diffType) (StorageDiff NewSetOnce) 0)
  else Err (UnknownDiffTypeError diffType).

(** What the storage and the disk answer to [Init]. *)
Inductive init_outcome := OpenFails | SizeFails | ChunkerFails | InitOk.
Definition StorageDiff_Init (chunker : SetOnce () DiffError) (o : init_outcome) : SetOnce () DiffError * option DiffError :=
  match o with
  | OpenFails => (chunker, Some ErrOpenSeekable)
  | SizeFails => ((SetError chunker ErrObjectSize).1, Some ErrObjectSize)
  | ChunkerFails => ((SetError chunker ErrCreateChunker).1, Some ErrCreateChunker)
  | InitOk => let '(c, ok) := SetValue chunker () in (c, if ok then None else Some ErrAlreadySet)
  end.
Definition diff_Init (d : diff_obj) (o : init_outcome) : diff_obj * option DiffError :=
  match kind d with
  | StorageDiff c => let '(c, e) := StorageDiff_Init c o in (mkDiff (cacheKey d) (StorageDiff c) (closes d), e)
  | LocalDiff => (d, None)
  | NoDiff => (d, Some NoDiffError)
  end.

(** [FileSize], [Close], [ReadAt] and [Slice] of a storage diff begin with
    [chunker.Wait]: [None] is blocked, otherwise the error it gives. *)
Definition diff_wait (d : diff_obj) : option (option DiffError) :=
  match kind d with
  | StorageDiff c =>
      match Wait c with
      | None => None
      | Some (Some (inr e)) => Some (Some e)
      | Some (Some (inl _)) => Some None
      | Some None => Some (Some ErrFailedToGetSource)
      end
  | LocalDiff => Some None
  | NoDiff => Some (Some NoDiffError)
  end.
(** [FileSize]; [r] is what the chunker or the file answers. *)
Definition diff_FileSize (d : diff_obj) (r : option Z) : option (res DiffError Z) :=
  match diff_wait d with
  | None => None
  | Some (Some e) => Some (Err e)
  | Some None => Some (match r with Some n => Ok n | None => Err ErrFileSize end)
  end.
(** [Close]; a storage diff without a chunker has nothing to close. *)
Definition diff_Close (d : diff_obj) : option diff_obj :=
  match kind d, diff_wait d with
  | NoDiff, _ => Some (mkDiff (cacheKey d) (kind d) (S (closes d)))
  | _, None => None
  | _, Some _ => Some (mkDiff (cacheKey d) (kind d) (S (closes d)))
  end.

(** ** The store *)
Definition ToMBShift : Z := 20.
Definition fallbackDiffSize : Z := Z.shiftl 100 ToMBShift.

Record deleteDiff := mkDelete { dd_size : Z; cancel : nat; closeOnce : bool }.

(** The goroutine of [scheduleDelete]. *)
Inductive deleter_pc := DSelect | DDelete | DEnd.
Record deleter := mkDeleter { del_key : string; del_cancel : nat; del_pc : deleter_pc }.
(** The goroutine of the eviction callback. *)
Inductive evictor_pc := EClose | EReset | EEnd.
Record evictor := mkEvictor { ev_key : string; ev_diff : nat; ev_pc : evictor_pc }.
(** [startDiskSpaceEviction] and [deleteOldestFromCache]. *)
Inductive loop_pc :=
  | LTimer
  | LRange (items : list (string * nat))
  | LSize (key : string) (diff : nat)        (** [FileSize] *)
  | LSchedule (key : string) (size : Z)
  | LStopped.
(** Calls of [Get] and [Add]. *)
Inductive caller_pc :=
  | GetReset | GetCache | GetInit | AddReset | AddCache
  | Returned (r : res DiffError nat).
Record caller := mkCaller { c_diff : nat; c_pc : caller_pc }.

Section store.
Context {C : Type} `{TtlOps C}.

Record diff_store := mkStore {
  diffs : list diff_obj;
  cache : C;
  pdSizes : gmap string deleteDiff;
  cancels : list bool;              (** the cancel channels; true when closed *)
  deleters : list deleter;
  evictors : list evictor;
  loop : loop_pc;
  callers : list caller;
}.
Definition with_diff (t : diff_store) (i : nat) (d : diff_obj) : diff_store :=
  mkStore (<[i := d]> (diffs t)) (cache t) (pdSizes t) (cancels t) (deleters t) (evictors t) (loop t) (callers t).
Definition with_items (t : diff_store) (c : C) (ev : list evictor) : diff_store :=
  mkStore (diffs t) c (pdSizes t) (cancels t) (deleters t) (evictors t ++ ev) (loop t) (callers t).
Definition with_pd (t : diff_store) (pd : gmap string deleteDiff) (cs : list bool) : diff_store :=
  mkStore (diffs t) (cache t) pd cs (deleters t) (evictors t) (loop t) (callers t).
Definition with_deleter (t : diff_store) (i : nat) (d : deleter) : diff_store :=
  mkStore (diffs t) (cache t) (pdSizes t) (cancels t) (<[i := d]> (deleters t)) (evictors t) (loop t) (callers t).
Definition with_evictor (t : diff_store) (i : nat) (e : evictor) : diff_store :=
  mkStore (diffs t) (cache t) (pdSizes t) (cancels t) (deleters t) (<[i := e]> (evictors t)) (loop t) (callers t).
Definition with_loop (t : diff_store) (l : loop_pc) : diff_store :=
  mkStore (diffs t) (cache t) (pdSizes t) (cancels t) (deleters t) (evictors t) l (callers t).
Definition with_caller (t : diff_store) (i : nat) (c : caller) : diff_store :=
  mkStore (diffs t) (cache t) (pdSizes t) (cancels t) (deleters t) (evictors t) (loop t) (<[i := c]> (callers t)).

Definition NewDiffStore : diff_store := mkStore [] ttl_new ∅ [] [] [] LTimer [].

Definition getPendingDeletesSize (t : diff_store) : Z :=
  map_fold (λ _ d n, i64 (n + dd_size d)) 0 (pdSizes t).
Definition isBeingDeleted (t : diff_store) (key : string) : bool := bool_decide (is_Some (pdSizes t !! key)).

Definition resetDelete (t : diff_store) (key : string) : res () diff_store :=
  match pdSizes t !! key with
  | None => Ok t
  | Some d =>
      if closeOnce d then Ok (with_pd t (delete key (pdSizes t)) (cancels t))
      else match cancels t !! cancel d with
           | Some false => Ok (with_pd t (delete key (pdSizes t)) (<[cancel d := true]> (cancels t)))
           | _ => Panic
           end
  end.

Definition scheduleDelete (t : diff_store) (key : string) (dSize : Z) : diff_store :=
  let cancelCh := length (cancels t) in
  mkStore (diffs t) (cache t) (<[key := mkDelete dSize cancelCh false]> (pdSizes t)) (cancels t ++ [false])
    (deleters t ++ [mkDeleter key cancelCh DSelect]) (evictors t) (loop t) (callers t).

(** An item leaves the cache: the callback runs in a goroutine of its own. *)
Definition cache_delete (t : diff_store) (key : string) : diff_store :=
  let '(c, o) := ttl_Delete (cache t) key in
  with_items t c (match o with Some d => [mkEvictor key d EClose] | None => [] end).
Definition RemoveCache (t : diff_store) : diff_store :=
  let '(c, l) := ttl_DeleteAll (cache t) in
  with_items t c ((λ x, mkEvictor x.1 x.2 EClose) <$> l).

Definition store_Has (t : diff_store) (d : diff_obj) : bool := ttl_Has (cache t) (cacheKey d).
Definition Lookup (t : diff_store) (key : string) : diff_store * option nat :=
  let '(c, o) := ttl_Get (cache t) key in (with_items t c [], o).

(** The walk of [deleteOldestFromCache]: the first item that is not scheduled. *)
Definition range_step (t : diff_store) (items : list (string * nat)) : loop_pc :=
  match items with
  | [] => LTimer
  | (k, d) :: items => if isBeingDeleted t k then LRange items else LSize k d
  end.

(** A step of a caller: [Get] is [resetDelete], [GetOrSet] and, for a new item,
    [Init]. *)
Definition caller_step (t : diff_store) (c : caller) (o : init_outcome) : res () (diff_store * caller_pc) :=
  match diffs t !! c_diff c with
  | None => Err ()
  | Some d =>
      match c_pc c with
      | GetReset => t ← resetDelete t (cacheKey d); Ok (t, GetCache)
      | GetCache =>
          let '(c', (value, found)) := ttl_GetOrSet (cache t) (cacheKey d) (c_diff c) in
          Ok (with_items t c' [], if found : bool then Returned (Ok value) else GetInit)
      | GetInit =>
          let '(d', e) := diff_Init d o in
          Ok (with_diff t (c_diff c) d', Returned (match e with Some e => Err (ErrInitSource e) | None => Ok (c_diff c) end))
      | AddReset => t ← resetDelete t (cacheKey d); Ok (t, AddCache)
      | AddCache => Ok (with_items t (ttl_Set (cache t) (cacheKey d) (c_diff c)) [], Returned (Ok (c_diff c)))
      | Returned _ => Err ()
      end
  end.

Inductive dlabel :=
  | DGet (d : diff_obj)                     (** [Get] is called with a new diff *)
  | DAdd (d : diff_obj)
  | DCaller (i : nat) (o : init_outcome)
  | DLookup (key : string)
  | DExpire (key : string)                  (** the item's time is up *)
  | DRemoveCache
  | DEvictor (i : nat)
  | DTimer (over : option bool)             (** disk usage above the threshold, or an error *)
  | DRange (panics : bool)                  (** one item of the walk; a panic is recovered *)
  | DFileSize (r : option Z)
  | DSchedule
  | DFire (i : nat)                         (** [time.After] *)
  | DCancel (i : nat)                       (** the cancel channel *)
  | DDeleteNow (i : nat)
  | DContext (i : nat)                      (** the loop's context ends *)
  | DStop.

Definition diff_step (t : diff_store) (l : dlabel) : res () diff_store :=
  match l with
  | DGet d => Ok (mkStore (diffs t ++ [d]) (cache t) (pdSizes t) (cancels t) (deleters t) (evictors t) (loop t)
                    (callers t ++ [mkCaller (length (diffs t)) GetReset]))
  | DAdd d => Ok (mkStore (diffs t ++ [d]) (cache t) (pdSizes t) (cancels t) (deleters t) (evictors t) (loop t)
                    (callers t ++ [mkCaller (length (diffs t)) AddReset]))
  | DCaller i o =>
      match callers t !! i with
      | None => Err ()
      | Some c => '(t, p) ← caller_step t c o; Ok (with_caller t i (mkCaller (c_diff c) p))
      end
  | DLookup key => Ok (Lookup t key).1
  | DExpire key => Ok (cache_delete t key)
  | DRemoveCache => Ok (RemoveCache t)
  | DEvictor i =>
      match evictors t !! i with
      | Some (mkEvictor k d EClose) =>
          match diffs t !! d ≫= diff_Close with
          | Some d' => Ok (with_evictor (with_diff t d d') i (mkEvictor k d EReset))
          | None => Err ()
          end
      | Some (mkEvictor k d EReset) => t ← resetDelete t k; Ok (with_evictor t i (mkEvictor k d EEnd))
      | _ => Err ()
      end
  | DTimer over =>
      match loop t with
      | LTimer => Ok (match over with Some true => with_loop t (LRange (ttl_items (cache t))) | _ => t end)
      | _ => Err ()
      end
  | DRange panics =>
      match loop t with
      | LRange items => Ok (with_loop t (if (panics : bool) then LTimer else range_step t items))
      | _ => Err ()
      end
  | DFileSize r =>
      match loop t with
      | LSize k d =>
          match diffs t !! d ≫= λ d, diff_FileSize d r with
          | Some (Ok n) => Ok (with_loop t (LSchedule k n))
          | Some _ => Ok (with_loop t (LSchedule k fallbackDiffSize))
          | None => Err ()
          end
      | _ => Err ()
      end
  | DSchedule =>
      match loop t with
      | LSchedule k n => Ok (with_loop (scheduleDelete t k n) LTimer)
      | _ => Err ()
      end
  | DFire i =>
      match deleters t !! i with
      | Some (mkDeleter k c DSelect) => Ok (with_deleter t i (mkDeleter k c DDelete))
      | _ => Err ()
      end
  | DCancel i =>
      match deleters t !! i with
      | Some (mkDeleter k c DSelect) =>
          if bool_decide (cancels t !! c = Some true) then Ok (with_deleter t i (mkDeleter k c DEnd)) else Err ()
      | _ => Err ()
      end
  | DDeleteNow i =>
      match deleters t !! i with
      | Some (mkDeleter k c DDelete) => Ok (with_deleter (cache_delete t k) i (mkDeleter k c DEnd))
      | _ => Err ()
      end
  | DContext i =>
      match deleters t !! i with
      | Some (mkDeleter k c DSelect) => Ok (with_deleter t i (mkDeleter k c DEnd))
      | _ => Err ()
      end
  | DStop => match loop t with LTimer => Ok (with_loop t LStopped) | _ => Err () end
  end.
Fixpoint diff_run (t : diff_store) (ls : list dlabel) : res () diff_store :=
  match ls with
  | [] => Ok t
  | l :: ls => t ← diff_step t l; diff_run t ls
  end.
End store.
Arguments diff_store C : clear implicits.

(** ** Laws *)
Lemma lru_drop_elem l k x : x ∈ lru_drop l k ↔ x ∈ l ∧ x.1 ≠ k.
Proof. unfold lru_drop. rewrite list_elem_of_filter. tauto. Qed.
Lemma lru_drop_sublist l k : lru_drop l k `sublist_of` l.
Proof. unfold lru_drop. induction l as [|x l IH]; [done|]. rewrite filter_cons. case_decide; by constructor. Qed.
Lemma lru_get_elem l k v : lru_get l k = Some v → (k, v) ∈ l.
Proof.
  unfold lru_get. intros H. destruct (filter _ l) as [|[k' v'] r] eqn:E; [done|]. simpl in H. injection H as ->.
  assert ((k', v) ∈ filter (λ x : string * nat, x.1 = k) l) as Hx by (rewrite E; left).
  apply list_elem_of_filter in Hx as [<- Hx]. done.
Qed.
Lemma lru_get_None l k : lru_get l k = None → ∀ v, (k, v) ∉ l.
Proof.
  unfold lru_get. intros H v Hv. destruct (filter _ l) eqn:E; [|done].
  assert ((k, v) ∈ filter (λ x : string * nat, x.1 = k) l) as Hx by by apply list_elem_of_filter.
  rewrite E in Hx. by apply not_elem_of_nil in Hx.
Qed.
Lemma lru_set_keys l k v : NoDup l.*1 → NoDup (lru_drop l k ++ [(k, v)]).*1.
Proof.
  intros Hl. rewrite fmap_app. apply NoDup_app. split_and!; [|intros x Hx|apply NoDup_singleton].
  - eapply sublist_NoDup; [done|]. apply fmap_sublist, lru_drop_sublist.
  - apply list_elem_of_fmap in Hx as (y & -> & Hy). apply lru_drop_elem in Hy as [_ Hy].
    simpl. by rewrite list_elem_of_singleton.
Qed.

Lemma lru_get_drop l k k' : lru_get (lru_drop l k') k = if bool_decide (k = k') then None else lru_get l k.
Proof.
  destruct (lru_get (lru_drop l k') k) as [v|] eqn:E.
  - pose proof (lru_get_elem _ _ _ E) as [_ Hne]%lru_drop_elem. rewrite bool_decide_eq_false_2 by done. rewrite <- E.
    unfold lru_get, lru_drop. do 2 f_equal. rewrite list_filter_filter. apply list_filter_iff. naive_solver.
  - case_bool_decide as D; [done|]. destruct (lru_get l k) as [v|] eqn:E'; [|done]. exfalso.
    apply (lru_get_None _ _ E v), lru_drop_elem. split; [by apply lru_get_elem|done].
Qed.
Lemma lru_get_set_ne l k k' v : k ≠ k' → lru_get (lru_drop l k' ++ [(k', v)]) k = lru_get l k.
Proof.
  intros Hne. pose proof (lru_get_drop l k k') as Hd. rewrite bool_decide_eq_false_2 in Hd by done. rewrite <- Hd.
  unfold lru_get. do 2 f_equal. rewrite filter_app, filter_cons_False, app_nil_r; [done|]. simpl. congruence.
Qed.

Section laws.
Context {C : Type} `{TtlLaws C}.
Implicit Types t : diff_store C.

Definition is_new (p : caller_pc) : bool :=
  match p with GetReset | GetCache | AddReset | AddCache => true | _ => false end.
(** [Get] and [Add] are called with a diff that is not in the store: a new storage
    diff, or one that needs no [Init]. *)
Definition label_fresh (l : dlabel) : Prop :=
  match l with
  | DGet d | DAdd d => closes d = 0%nat ∧ match kind d with StorageDiff c => c = NewSetOnce | _ => True end
  | _ => True
  end.

Record store_ok t : Prop := {
  ok_items k d : (k, d) ∈ ttl_items (cache t) → ∃ o, diffs t !! d = Some o ∧ cacheKey o = k ∧ closes o = 0%nat;
  ok_keys : NoDup (ttl_items (cache t)).*1;
  ok_once d o : diffs t !! d = Some o → (closes o ≤ 1)%nat;
  ok_caller i c : callers t !! i = Some c → is_Some (diffs t !! c_diff c);
  ok_caller_inj i j ci cj : callers t !! i = Some ci → callers t !! j = Some cj → c_diff ci = c_diff cj → i = j;
  ok_new i c : callers t !! i = Some c → is_new (c_pc c) = true →
    (∀ k, (k, c_diff c) ∉ ttl_items (cache t)) ∧ (∀ j e, evictors t !! j = Some e → ev_diff e ≠ c_diff c) ∧
    ∀ o, diffs t !! c_diff c = Some o → closes o = 0%nat;
  ok_init i c o : callers t !! i = Some c → is_new (c_pc c) = true ∨ c_pc c = GetInit → diffs t !! c_diff c = Some o →
    match kind o with StorageDiff ch => ch = NewSetOnce | _ => True end;
  ok_evictor j e : evictors t !! j = Some e →
    (∀ k, (k, ev_diff e) ∉ ttl_items (cache t)) ∧
    ∃ o, diffs t !! ev_diff e = Some o ∧ (ev_pc e = EClose → closes o = 0%nat);
  ok_evictor_inj i j ei ej : evictors t !! i = Some ei → evictors t !! j = Some ej → ev_diff ei = ev_diff ej → i = j;
  ok_pd k d : pdSizes t !! k = Some d → closeOnce d = false ∧ cancels t !! cancel d = Some false;
  ok_pd_inj k k' d d' : pdSizes t !! k = Some d → pdSizes t !! k' = Some d' → cancel d = cancel d' → k = k';
}.

Lemma NewDiffStore_ok : store_ok NewDiffStore.
Proof.
  split; simpl; rewrite ?ttl_new_items; try done.
  - by intros k d ?%not_elem_of_nil.
  - constructor.
Qed.

(** [resetDelete] never closes a closed channel, and only forgets the key. *)
Lemma resetDelete_ok t k : store_ok t → ∃ t', resetDelete t k = Ok t' ∧ store_ok t' ∧
  diffs t' = diffs t ∧ cache t' = cache t ∧ pdSizes t' = delete k (pdSizes t) ∧ deleters t' = deleters t ∧
  evictors t' = evictors t ∧ loop t' = loop t ∧ callers t' = callers t.
Proof.
  intros Ht. unfold resetDelete. destruct (pdSizes t !! k) as [d|] eqn:E.
  - destruct (ok_pd _ Ht k d E) as [-> ->]. eexists. split; [done|]. split; [|done].
    destruct Ht. split; simpl; try done.
    + intros k' d' [Hne Hd]%lookup_delete_Some. destruct (ok_pd0 k' d' Hd) as [-> Hc]. split; [done|].
      rewrite list_lookup_insert_ne; [done|]. intros Ec. by apply Hne, (ok_pd_inj0 k k' d d').
    + intros k1 k2 d1 d2 [_ ?]%lookup_delete_Some [_ ?]%lookup_delete_Some. by apply ok_pd_inj0.
  - eexists. split; [done|]. split_and!; try done. by rewrite delete_id.
Qed.

(** An operation of the cache that moves, replaces or removes items: every item that
    is left was there or is the caller's new diff. *)
Lemma items_ok t c ev :
  store_ok t → NoDup (ttl_items c).*1 →
  (∀ x, x ∈ ttl_items c → x ∈ ttl_items (cache t)) →
  (∀ j e, ev !! j = Some e → ev_pc e = EClose ∧ (ev_key e, ev_diff e) ∈ ttl_items (cache t) ∧
     ∀ k, (k, ev_diff e) ∉ ttl_items c) →
  (∀ i j ei ej, ev !! i = Some ei → ev !! j = Some ej → ev_diff ei = ev_diff ej → i = j) →
  store_ok (with_items t c ev).
Proof.
  intros Ht Hk Hi Hev Hinj. pose proof Ht as Ht'. destruct Ht. split; simpl; try done.
  - intros k d Hx. by apply ok_items0, Hi.
  - intros i cl Hcl Hn. destruct (ok_new0 i cl Hcl Hn) as (H1 & H2 & H3). split_and!; [|intros j e|done].
    + intros k Hx. by apply (H1 k), Hi.
    + intros [Hj|[_ Hj]]%lookup_app_Some; [by eapply H2|]. destruct (Hev _ _ Hj) as (_ & Hin & _).
      intros E. rewrite E in Hin. by apply H1 in Hin.
  - intros j e [Hj|[_ Hj]]%lookup_app_Some.
    + destruct (ok_evictor0 j e Hj) as [H1 H2]. split; [|done]. intros k Hx. by apply (H1 k), Hi.
    + destruct (Hev _ _ Hj) as (Hpc & Hin & Hout). split; [done|].
      destruct (ok_items0 _ _ Hin) as (o & ? & _ & ?). by exists o.
  - intros i j ei ej [Hi1|[Hle Hi1]]%lookup_app_Some [Hj1|[Hle' Hj1]]%lookup_app_Some E.
    + by eapply ok_evictor_inj0.
    + destruct (Hev _ _ Hj1) as (_ & Hin & _). destruct (ok_evictor0 i ei Hi1) as [Hno _].
      rewrite E in Hno. by apply Hno in Hin.
    + destruct (Hev _ _ Hi1) as (_ & Hin & _). destruct (ok_evictor0 j ej Hj1) as [Hno _].
      rewrite <- E in Hno. by apply Hno in Hin.
    + assert (i - length (evictors t) = j - length (evictors t))%nat by by eapply Hinj. lia.
Qed.

Lemma item_key_unique t k k' d : store_ok t → (k, d) ∈ ttl_items (cache t) → (k', d) ∈ ttl_items (cache t) → k = k'.
Proof.
  intros Ht H1 H2. destruct (ok_items _ Ht _ _ H1) as (o & Ho & <- & _). destruct (ok_items _ Ht _ _ H2) as (o' & Ho' & <- & _).
  congruence.
Qed.

Lemma cache_delete_ok t k : store_ok t → store_ok (cache_delete t k).
Proof.
  intros Ht. unfold cache_delete. pose proof (ttl_Delete_items (cache t) k) as [Hi Hr].
  destruct (ttl_Delete (cache t) k) as [c o]. simpl in Hi, Hr. subst o. apply items_ok; rewrite ?Hi; try done.
  - eapply sublist_NoDup; [by apply (ok_keys _ Ht)|]. apply fmap_sublist, lru_drop_sublist.
  - intros x [? _]%lru_drop_elem. done.
  - intros j e. destruct (lru_get _ k) as [d|] eqn:E; [|done]. intros Hj. destruct j; [|done]. injection Hj as <-.
    split; [done|]. simpl. split; [by apply lru_get_elem|]. intros k' [Hin Hk]%lru_drop_elem. simpl in Hk. apply Hk.
    apply (item_key_unique t k' k d); [done|done|]. by apply lru_get_elem.
  - intros i j ei ej. destruct (lru_get _ k); [|done]. by destruct i, j.
Qed.

Lemma RemoveCache_ok t : store_ok t → store_ok (RemoveCache t).
Proof.
  intros Ht. unfold RemoveCache. pose proof (ttl_DeleteAll_items (cache t)) as [Hi Hr].
  destruct (ttl_DeleteAll (cache t)) as [c l]. simpl in Hi, Hr. subst l. apply items_ok; rewrite ?Hi; try done.
  - constructor.
  - by intros x ?%not_elem_of_nil.
  - intros j e Hj. apply list_lookup_fmap_Some in Hj as (x & -> & Hx). split; [done|]. split; [|by intros k ?%not_elem_of_nil].
    simpl. destruct x. by eapply list_elem_of_lookup_2.
  - intros i j ei ej Hi1 Hj1 E. apply list_lookup_fmap_Some in Hi1 as ([k1 d1] & -> & H1), Hj1 as ([k2 d2] & -> & H2).
    simpl in E. subst d2. assert (k1 = k2) as -> by (eapply item_key_unique; [done|by eapply list_elem_of_lookup_2..]).
    eapply (NoDup_lookup _ _ _ k2 (ok_keys _ Ht)); by rewrite list_lookup_fmap, ?H1, ?H2.
Qed.

Lemma with_caller_ok t i c p : store_ok t → callers t !! i = Some c → is_new p = true → is_new (c_pc c) = true →
  store_ok (with_caller t i (mkCaller (c_diff c) p)).
Proof.
  intros Ht Hi Hp Hc. destruct Ht. split; simpl; try done.
  - intros j cj [(-> & <- & _)|[_ Hj]]%list_lookup_insert_Some; [exact (ok_caller0 _ c Hi)|by eapply ok_caller0].
  - intros j k cj ck [(-> & <- & _)|[? Hj]]%list_lookup_insert_Some [(-> & <- & _)|[? Hk]]%list_lookup_insert_Some E;
      simpl in E; [done|by eapply ok_caller_inj0..].
  - intros j cj [(-> & <- & _)|[? Hj]]%list_lookup_insert_Some; [by intros _; apply (ok_new0 j c)|by apply (ok_new0 j)].
  - intros j cj o [(-> & <- & _)|[? Hj]]%list_lookup_insert_Some Hn; [|by apply (ok_init0 j)].
    apply (ok_init0 j c o Hi). by left.
Qed.

(** A caller that is done with the cache. *)
Lemma caller_done_ok t i c p : store_ok t → callers t !! i = Some c → is_new p = false → p ≠ GetInit →
  store_ok (with_caller t i (mkCaller (c_diff c) p)).
Proof.
  intros Ht Hi Hp Hpi. destruct Ht. split; simpl; try done.
  - intros j cj [(-> & <- & _)|[_ Hj]]%list_lookup_insert_Some; [exact (ok_caller0 _ c Hi)|by eapply ok_caller0].
  - intros j k cj ck [(-> & <- & _)|[? Hj]]%list_lookup_insert_Some [(-> & <- & _)|[? Hk]]%list_lookup_insert_Some E;
      simpl in E; [done|by eapply ok_caller_inj0..].
  - intros j cj [(-> & <- & _)|[? Hj]]%list_lookup_insert_Some; [simpl; by rewrite Hp|by apply (ok_new0 j)].
  - intros j cj o [(-> & <- & _)|[? Hj]]%list_lookup_insert_Some Hn; [simpl in Hn; rewrite Hp in Hn; by destruct Hn|].
    by apply (ok_init0 j).
Qed.

(** The caller's new diff goes into the cache. *)
Lemma insert_item_ok t i c o c' p :
  store_ok t → callers t !! i = Some c → is_new (c_pc c) = true → is_new p = false →
  diffs t !! c_diff c = Some o → ttl_items c' = lru_drop (ttl_items (cache t)) (cacheKey o) ++ [(cacheKey o, c_diff c)] →
  store_ok (with_caller (with_items t c' []) i (mkCaller (c_diff c) p)).
Proof.
  intros Ht Hi Hn Hp Ho Hc. pose proof Ht as []. destruct (ok_new0 i c Hi Hn) as (Hnot & Hev & Hcl).
  assert (∀ k d, (k, d) ∈ ttl_items c' → (k, d) ∈ ttl_items (cache t) ∨ k = cacheKey o ∧ d = c_diff c) as Hin.
  { intros k d. rewrite Hc. intros [[? _]%lru_drop_elem|Hx%list_elem_of_singleton]%elem_of_app; [by left|]. right. by injection Hx. }
  split; simpl; rewrite ?app_nil_r; try done.
  - intros k d [?|[-> ->]]%Hin; [by apply ok_items0|]. exists o. split_and!; try done. by apply Hcl.
  - rewrite Hc. by apply lru_set_keys.
  - intros j cj [(-> & <- & _)|[_ Hj]]%list_lookup_insert_Some; [exact (ok_caller0 _ c Hi)|by eapply ok_caller0].
  - intros j k cj ck [(-> & <- & _)|[? Hj]]%list_lookup_insert_Some [(-> & <- & _)|[? Hk]]%list_lookup_insert_Some E;
      simpl in E; [done|by eapply ok_caller_inj0..].
  - intros j cj [(-> & <- & _)|[Hne Hj]]%list_lookup_insert_Some Hnj; [simpl in Hnj; by rewrite Hp in Hnj|].
    destruct (ok_new0 j cj Hj Hnj) as (H1 & H2 & H3). split_and!; try done.
    intros k [Hx|[_ Hx]]%Hin; [by apply (H1 k)|]. apply Hne. by eapply ok_caller_inj0.
  - intros j cj o' [(-> & <- & _)|[? Hj]]%list_lookup_insert_Some Hn' Ho'; [|by apply (ok_init0 j cj)].
    apply (ok_init0 j c o' Hi); [by left|done].
  - intros j e Hj. destruct (ok_evictor0 j e Hj) as [H1 H2]. split; [|done]. intros k [Hx|[_ Hx]]%Hin; [by apply (H1 k)|].
    by apply (Hev j e).
Qed.

(** An update of a diff that leaves its key and [closes]. *)
Lemma with_diff_ok t i c o o' r : store_ok t → callers t !! i = Some c → c_pc c = GetInit → diffs t !! c_diff c = Some o →
  cacheKey o' = cacheKey o → closes o' = closes o →
  store_ok (with_caller (with_diff t (c_diff c) o') i (mkCaller (c_diff c) (Returned r))).
Proof.
  intros Ht Hi Hp Ho Hk Hc.
  assert (∀ d x, diffs (with_diff t (c_diff c) o') !! d = Some x →
    ∃ y, diffs t !! d = Some y ∧ cacheKey x = cacheKey y ∧ closes x = closes y ∧ (d ≠ c_diff c → x = y)) as Hd.
  { intros d x [(<- & <- & _)|[? Hx]]%list_lookup_insert_Some; [exists o|exists x]; naive_solver. }
  assert (∀ d, is_Some (diffs t !! d) → is_Some (diffs (with_diff t (c_diff c) o') !! d)) as Hs.
  { intros d. simpl. rewrite !lookup_lt_is_Some, length_insert. done. }
  destruct Ht. split; simpl in *; try done.
  - intros k d Hx. destruct (ok_items0 k d Hx) as (y & Hy & Hky & Hcy). destruct (Hs d) as [x Hx']; [by exists y|].
    exists x. destruct (Hd d x Hx') as (y' & Hy' & -> & -> & _). split_and!; congruence.
  - intros d x Hx. destruct (Hd d x Hx) as (y & Hy & _ & -> & _). by eapply ok_once0.
  - intros j cj [(-> & <- & _)|[_ Hj]]%list_lookup_insert_Some; apply Hs; [exact (ok_caller0 _ c Hi)|by eapply ok_caller0].
  - intros j k cj ck [(-> & <- & _)|[? Hj]]%list_lookup_insert_Some [(-> & <- & _)|[? Hk']]%list_lookup_insert_Some E;
      simpl in E; [done|by eapply ok_caller_inj0..].
  - intros j cj [(-> & <- & _)|[Hne Hj]]%list_lookup_insert_Some Hn; [done|].
    destruct (ok_new0 j cj Hj Hn) as (H1 & H2 & H3). split_and!; try done. intros x Hx. destruct (Hd _ x Hx) as (y & Hy & _ & -> & _).
    by apply H3.
  - intros j cj x [(-> & <- & _)|[Hne Hj]]%list_lookup_insert_Some Hn Hx; [by destruct Hn|].
    destruct (Hd _ x Hx) as (y & Hy & _ & _ & ->); [by apply (ok_init0 j cj)|]. intros E. apply Hne. by eapply ok_caller_inj0.
  - intros j e Hj. destruct (ok_evictor0 j e Hj) as [H1 (y & Hy & Hcy)]. split; [done|].
    destruct (Hs (ev_diff e)) as [x Hx']; [by exists y|]. exists x. split; [done|].
    destruct (Hd _ x Hx') as (y' & Hy' & _ & -> & _). assert (y' = y) as -> by congruence. done.
Qed.

Lemma diff_Init_same o out : cacheKey (diff_Init o out).1 = cacheKey o ∧ closes (diff_Init o out).1 = closes o.
Proof. unfold diff_Init. destruct (kind o); try done. by destruct (StorageDiff_Init _ _). Qed.

Lemma caller_ok t i c out : store_ok t → callers t !! i = Some c →
  match caller_step t c out with
  | Ok (t', p) => store_ok (with_caller t' i (mkCaller (c_diff c) p))
  | Err _ => True
  | Panic => False
  end.
Proof.
  intros Ht Hi. unfold caller_step. destruct (diffs t !! c_diff c) as [o|] eqn:Ho; [|done].
  destruct (c_pc c) eqn:Hp; try done.
  - destruct (resetDelete_ok t (cacheKey o) Ht) as (t' & -> & Ht' & _ & _ & _ & _ & _ & _ & Hcs). simpl.
    apply with_caller_ok; [done|by rewrite Hcs|done|by rewrite Hp].
  - pose proof (ttl_GetOrSet_items (cache t) (cacheKey o) (c_diff c)) as [Hit Hr].
    destruct (ttl_GetOrSet _ _ _) as [c' [v found]]. simpl in Hit, Hr. injection Hr as -> ->.
    destruct (lru_get (ttl_items (cache t)) (cacheKey o)) as [w|] eqn:Hg; simpl in *.
    + apply caller_done_ok; [|done..]. apply lru_get_elem in Hg.
      apply items_ok; rewrite ?Hit; try done.
      * by apply lru_set_keys, ok_keys.
      * intros x [[? _]%lru_drop_elem| ->%list_elem_of_singleton]%elem_of_app; done.
    + eapply insert_item_ok; try done. by rewrite Hp.
  - destruct (diff_Init o out) as [o' e] eqn:Ei. pose proof (diff_Init_same o out) as [Hk Hc]. rewrite Ei in Hk, Hc.
    by apply (with_diff_ok t i c o).
  - destruct (resetDelete_ok t (cacheKey o) Ht) as (t' & -> & Ht' & _ & _ & _ & _ & _ & _ & Hcs). simpl.
    apply with_caller_ok; [done|by rewrite Hcs|done|by rewrite Hp].
  - eapply insert_item_ok; try done; [by rewrite Hp|]. by rewrite ttl_Set_items.
Qed.

Lemma with_loop_ok t l : store_ok t → store_ok (with_loop t l).
Proof. by intros []. Qed.
Lemma with_deleter_ok t i d : store_ok t → store_ok (with_deleter t i d).
Proof. by intros []. Qed.

Lemma scheduleDelete_ok t k n : store_ok t → store_ok (scheduleDelete t k n).
Proof.
  intros []. assert (∀ k' d, pdSizes t !! k' = Some d → (cancel d < length (cancels t))%nat) as Hlt.
  { intros k' d [_ Hd]%ok_pd0. by eapply lookup_lt_Some. }
  split; simpl; try done.
  - intros k' d [[<- <-]|[_ Hd]]%lookup_insert_Some; simpl; [by rewrite lookup_app_r, Nat.sub_diag|].
    destruct (ok_pd0 k' d Hd) as [-> Hc]. split; [done|]. by rewrite lookup_app_l by by eapply lookup_lt_Some.
  - intros k1 k2 d1 d2 [[<- <-]|[_ H1]]%lookup_insert_Some [[<- <-]|[_ H2]]%lookup_insert_Some E; simpl in E; [done| | |].
    + apply Hlt in H2. lia.
    + apply Hlt in H1. lia.
    + by eapply ok_pd_inj0.
Qed.

Lemma new_call_ok t d p : store_ok t → is_new p = true → label_fresh (DGet d) →
  store_ok (mkStore (diffs t ++ [d]) (cache t) (pdSizes t) (cancels t) (deleters t) (evictors t) (loop t)
    (callers t ++ [mkCaller (length (diffs t)) p])).
Proof.
  intros Ht Hp [Hcl Hk]. pose proof Ht as [].
  assert (∀ d', is_Some (diffs t !! d') → (d' < length (diffs t))%nat) as Hlt by (intros d'; apply lookup_lt_is_Some_1).
  assert (∀ i c, callers t !! i = Some c → c_diff c ≠ length (diffs t)) as Hne.
  { intros i c Hc%ok_caller0%Hlt. lia. }
  assert (∀ d' o, diffs t !! d' = Some o → (diffs t ++ [d]) !! d' = Some o) as Hmono.
  { intros d' o Ho. by apply lookup_app_l_Some. }
  split; simpl; try done.
  - intros k d' Hx. destruct (ok_items0 k d' Hx) as (o & Ho & ?). exists o. split; [by apply Hmono|done].
  - intros d' o [Ho|[_ Ho]]%lookup_app_Some; [by eapply ok_once0|].
    apply list_lookup_singleton_Some in Ho as [_ <-]. lia.
  - intros i c [Hc|[_ Hc]]%lookup_app_Some.
    + destruct (ok_caller0 i c Hc) as [o Ho]. exists o. by apply Hmono.
    + apply list_lookup_singleton_Some in Hc as [_ <-]. exists d. simpl. by rewrite lookup_app_r, Nat.sub_diag.
  - intros i j ci cj [Hi|[Hi Hci]]%lookup_app_Some [Hj|[Hj Hcj]]%lookup_app_Some E.
    + by eapply ok_caller_inj0.
    + apply list_lookup_singleton_Some in Hcj as [_ <-]. by destruct (Hne _ _ Hi).
    + apply list_lookup_singleton_Some in Hci as [_ <-]. by destruct (Hne _ _ Hj).
    + apply list_lookup_singleton_Some in Hci as [? <-], Hcj as [? <-]. lia.
  - intros i c [Hc|[_ Hc]]%lookup_app_Some Hn.
    + destruct (ok_new0 i c Hc Hn) as (H1 & H2 & H3). split_and!; [done..|].
      intros o [Ho|[Hle Ho]]%lookup_app_Some; [by apply H3|]. pose proof (Hlt _ (ok_caller0 i c Hc)). lia.
    + apply list_lookup_singleton_Some in Hc as [_ <-]. simpl. split_and!.
      * intros k Hx. destruct (ok_items0 _ _ Hx) as (o & Ho & _). specialize (Hlt _ (mk_is_Some _ _ Ho)). lia.
      * intros j e Hj. destruct (ok_evictor0 j e Hj) as [_ (o & Ho & _)]. specialize (Hlt _ (mk_is_Some _ _ Ho)). lia.
      * intros o. rewrite lookup_app_r, Nat.sub_diag by done. by intros [= <-].
  - intros i c o [Hc|[_ Hc]]%lookup_app_Some Hn.
    + intros [Ho|[Hle Ho]]%lookup_app_Some; [by eapply (ok_init0 i)|]. pose proof (Hlt _ (ok_caller0 i c Hc)). lia.
    + apply list_lookup_singleton_Some in Hc as [_ <-]. simpl. rewrite lookup_app_r, Nat.sub_diag by done. by intros [= <-].
  - intros j e Hj. destruct (ok_evictor0 j e Hj) as [H1 (o & Ho & ?)]. split; [done|]. exists o. split; [by apply Hmono|done].
Qed.

Lemma diff_Close_spec o o' : diff_Close o = Some o' → cacheKey o' = cacheKey o ∧ kind o' = kind o ∧ closes o' = S (closes o).
Proof. unfold diff_Close. destruct (kind o) eqn:E; [destruct (diff_wait o)|destruct (diff_wait o)|]; by intros [= <-]. Qed.

Lemma evictor_close_ok t i k d o o' : store_ok t → evictors t !! i = Some (mkEvictor k d EClose) →
  diffs t !! d = Some o → diff_Close o = Some o' → store_ok (with_evictor (with_diff t d o') i (mkEvictor k d EReset)).
Proof.
  intros Ht Hi Ho Hc. apply diff_Close_spec in Hc as (Hk & Hkind & Hcl). pose proof Ht as [].
  destruct (ok_evictor0 i _ Hi) as [Hnot (o1 & Ho1 & Hz)]. simpl in Hnot, Ho1, Hz.
  assert (o1 = o) as -> by congruence. specialize (Hz eq_refl).
  assert (∀ d' x, <[d := o']> (diffs t) !! d' = Some x → d' = d ∧ x = o' ∨ d' ≠ d ∧ diffs t !! d' = Some x) as Hd.
  { intros d' x [(-> & <- & _)|[? Hx]]%list_lookup_insert_Some; auto. }
  assert (∀ d', is_Some (diffs t !! d') → is_Some (<[d := o']> (diffs t) !! d')) as Hs.
  { intros d'. rewrite !lookup_lt_is_Some, length_insert. done. }
  split; simpl; try done.
  - intros k' d' Hx. destruct (ok_items0 k' d' Hx) as (x & ?). exists x. rewrite list_lookup_insert_ne; [done|].
    intros ->. by apply Hnot in Hx.
  - intros d' x [[-> ->]|[_ Hx]]%Hd; [lia|by eapply ok_once0].
  - intros j c Hj. by eapply Hs, ok_caller0.
  - intros j c Hj Hn. destruct (ok_new0 j c Hj Hn) as (H1 & H2 & H3). split_and!; [done| |].
    + intros j' e [(-> & <- & _)|[_ He]]%list_lookup_insert_Some; [exact (H2 _ _ Hi)|by eapply H2].
    + intros x [[E ->]|[_ Hx]]%Hd; [|by apply H3]. destruct (H2 _ _ Hi). done.
  - intros j c x Hj Hn [[E ->]|[_ Hx]]%Hd; [|by eapply (ok_init0 j)]. rewrite Hkind. eapply (ok_init0 j c o); [done..|]. by rewrite E.
  - intros j e [(-> & <- & _)|[Hne He]]%list_lookup_insert_Some.
    + split; [done|]. simpl. exists o'. split; [|done]. apply list_lookup_insert_eq. by eapply lookup_lt_Some.
    + destruct (ok_evictor0 j e He) as [H1 (x & Hx & ?)]. split; [done|]. exists x. rewrite list_lookup_insert_ne; [done|].
      intros E. apply Hne. eapply (ok_evictor_inj0 i j); [exact Hi|done..].
  - intros j1 j2 e1 e2 [(-> & <- & _)|[Hne1 He1]]%list_lookup_insert_Some [(-> & <- & _)|[Hne2 He2]]%list_lookup_insert_Some E;
      simpl in E; [done| | |by eapply ok_evictor_inj0].
    + exact (ok_evictor_inj0 _ _ _ _ Hi He2 E).
    + exact (ok_evictor_inj0 _ _ _ _ He1 Hi E).
Qed.

Lemma evictor_done_ok t i k d : store_ok t → evictors t !! i = Some (mkEvictor k d EReset) →
  store_ok (with_evictor t i (mkEvictor k d EEnd)).
Proof.
  intros Ht Hi. pose proof Ht as []. split; simpl; try done.
  - intros j c Hj Hn. destruct (ok_new0 j c Hj Hn) as (H1 & H2 & H3). split_and!; [done| |done].
    intros j' e [(-> & <- & _)|[_ He]]%list_lookup_insert_Some; [exact (H2 _ _ Hi)|by eapply H2].
  - intros j e [(-> & <- & _)|[Hne He]]%list_lookup_insert_Some; [|by eapply ok_evictor0].
    destruct (ok_evictor0 _ _ Hi) as [H1 (o & Ho & _)]. split; [done|]. by exists o.
  - intros j1 j2 e1 e2 [(-> & <- & _)|[Hne1 He1]]%list_lookup_insert_Some [(-> & <- & _)|[Hne2 He2]]%list_lookup_insert_Some E;
      simpl in E; [done| | |by eapply ok_evictor_inj0].
    + exact (ok_evictor_inj0 _ _ _ _ Hi He2 E).
    + exact (ok_evictor_inj0 _ _ _ _ He1 Hi E).
Qed.

Lemma diff_step_ok t l : store_ok t → label_fresh l →
  match diff_step t l with Ok t' => store_ok t' | Err _ => True | Panic => False end.
Proof.
  intros Ht Hl. destruct l as [d|d|i out|key|key| |i|over|panics|r| |i|i|i|i|]; simpl.
  - by apply new_call_ok.
  - by apply new_call_ok.
  - destruct (callers t !! i) as [c|] eqn:Hi; [|done]. pose proof (caller_ok t i c out Ht Hi) as Hc.
    by destruct (caller_step t c out) as [[t' p]|?|].
  - unfold Lookup. pose proof (ttl_Get_items (cache t) key) as [_ Hit]. destruct (ttl_Get (cache t) key) as [c o]. simpl in *.
    destruct (lru_get (ttl_items (cache t)) key) as [v|] eqn:E; apply items_ok; rewrite ?Hit; try done.
    + by apply lru_set_keys, ok_keys.
    + intros x [[? _]%lru_drop_elem| ->%list_elem_of_singleton]%elem_of_app; [done|]. by apply lru_get_elem.
    + by apply ok_keys.
  - by apply cache_delete_ok.
  - by apply RemoveCache_ok.
  - destruct (evictors t !! i) as [[k d []]|] eqn:Hi; try done.
    + destruct (diffs t !! d) as [o|] eqn:Ho; [|done]. simpl. destruct (diff_Close o) as [o'|] eqn:Hc; [|done].
      by eapply evictor_close_ok.
    + destruct (resetDelete_ok t k Ht) as (t' & -> & Ht' & _ & _ & _ & _ & He & _). simpl.
      apply evictor_done_ok; [done|by rewrite He].
  - destruct (loop t); try done. by destruct over as [[]|]; [apply with_loop_ok|..].
  - destruct (loop t); try done. by apply with_loop_ok.
  - destruct (loop t); try done. destruct (diffs t !! diff) as [o|]; [|done]. simpl.
    destruct (diff_FileSize o r) as [[]|]; [by apply with_loop_ok..|done].
  - destruct (loop t); try done. by apply with_loop_ok, scheduleDelete_ok.
  - destruct (deleters t !! i) as [[k c []]|]; try done. by apply with_deleter_ok.
  - destruct (deleters t !! i) as [[k c []]|]; try done. destruct (bool_decide _); [|done]. by apply with_deleter_ok.
  - destruct (deleters t !! i) as [[k c []]|]; try done. by apply with_deleter_ok, cache_delete_ok.
  - destruct (deleters t !! i) as [[k c []]|]; try done. by apply with_deleter_ok.
  - destruct (loop t); try done. by apply with_loop_ok.
Qed.

Lemma diff_run_ok ls : ∀ t, store_ok t → Forall label_fresh ls →
  match diff_run t ls with Ok t' => store_ok t' | Err _ => True | Panic => False end.
Proof.
  induction ls as [|l ls IH]; intros t Ht Hl; [done|]. apply Forall_cons in Hl as [Hl Hls]. simpl.
  pose proof (diff_step_ok t l Ht Hl) as Hs. destruct (diff_step t l) as [t'|?|]; [|done..]. by apply IH.
Qed.

(** C20: in every interleaving of [Get], [Add], expiry, removal, the disk loop and
    the delayed deletions the store does not panic (no cancel channel is closed
    twice); a diff in the cache is filed under its key and has not been closed; a
    diff is closed at most once, and only after it left the cache.  [Get] cancels a
    scheduled deletion of its key and returns the diff that is in the cache, or puts
    its own there and initialises it. *)
Theorem DiffStore_safe (ls : list dlabel) :
  Forall label_fresh ls →
  match diff_run NewDiffStore ls with
  | Ok t =>
      (∀ k d, (k, d) ∈ ttl_items (cache t) → ∃ o, diffs t !! d = Some o ∧ cacheKey o = k ∧ closes o = 0%nat) ∧
      NoDup (ttl_items (cache t)).*1 ∧
      (∀ d o, diffs t !! d = Some o → (closes o ≤ 1)%nat) ∧
      (∀ i c d out, callers t !! i = Some c → diffs t !! c_diff c = Some d →
         (c_pc c = GetReset → ∃ t', diff_step t (DCaller i out) = Ok t' ∧ isBeingDeleted t' (cacheKey d) = false) ∧
         (c_pc c = GetCache → ∃ t' v, diff_step t (DCaller i out) = Ok t' ∧
            (cacheKey d, v) ∈ ttl_items (cache t') ∧ (c_pc <$> callers t' !! i) = Some (if bool_decide (v = c_diff c) then GetInit else Returned (Ok v))))
  | Err _ => True
  | Panic => False
  end.
Proof.
  intros Hls. pose proof (diff_run_ok ls _ NewDiffStore_ok Hls) as Ht. destruct (diff_run _ ls) as [t|?|]; [|done..].
  pose proof Ht as []. split_and!; [done..|]. intros i c d out Hi Hd. simpl. rewrite Hi. unfold caller_step. rewrite Hd. split.
  - intros ->. destruct (resetDelete_ok t (cacheKey d) Ht) as (t' & -> & _ & _ & _ & Hpd & _). simpl. eexists. split; [done|].
    unfold isBeingDeleted. simpl. rewrite Hpd, lookup_delete_eq. done.
  - intros Hp. rewrite Hp. pose proof (ttl_GetOrSet_items (cache t) (cacheKey d) (c_diff c)) as [Hit Hr].
    destruct (ttl_GetOrSet _ _ _) as [c' [v found]]. simpl in Hit, Hr. injection Hr as -> ->.
    exists (with_caller (with_items t c' []) i (mkCaller (c_diff c)
      (if bool_decide (is_Some (lru_get (ttl_items (cache t)) (cacheKey d))) then
         Returned (Ok (default (c_diff c) (lru_get (ttl_items (cache t)) (cacheKey d)))) else GetInit))).
    eexists. split; [done|]. simpl. split; [rewrite Hit; apply elem_of_app; right; by apply list_elem_of_singleton|].
    rewrite list_lookup_insert_eq by by eapply lookup_lt_Some. simpl. f_equal.
    destruct (lru_get _ _) as [w|] eqn:E; simpl; [|by rewrite bool_decide_eq_true_2].
    rewrite bool_decide_eq_false_2; [done|]. intros ->. apply lru_get_elem in E.
    destruct (ok_new0 i c Hi) as (Hno & _); [by rewrite Hp|]. by apply Hno in E.
Qed.

(** A storage diff without a chunker that nobody is initialising. *)
Definition dead t (d : nat) : Prop :=
  (∃ o c, diffs t !! d = Some o ∧ kind o = StorageDiff c ∧ once_done c = false) ∧
  ∀ i c, callers t !! i = Some c → c_diff c = d → ∃ r, c_pc c = Returned r.

Lemma dead_waits t d : dead t d → ∃ o, diffs t !! d = Some o ∧ diff_wait o = None ∧ ∀ r, diff_FileSize o r = None.
Proof.
  intros [(o & c & Ho & Hk & Hc) _]. exists o. assert (diff_wait o = None) as Hw by (unfold diff_wait, Wait; by rewrite Hk, Hc).
  split_and!; try done. intros r. unfold diff_FileSize. by rewrite Hw.
Qed.
Lemma dead_same t t' d : dead t d → diffs t' = diffs t → callers t' = callers t → dead t' d.
Proof. unfold dead. by intros ? -> ->. Qed.

Lemma dead_other t t' d d' o' : dead t d → d' ≠ d → diffs t' = <[d' := o']> (diffs t) →
  (∀ i c, callers t' !! i = Some c → c_diff c = d → ∃ r, c_pc c = Returned r) → dead t' d.
Proof.
  intros [(o & c & Ho & ?) _] Hne Hd Hc. split; [|done]. exists o, c. rewrite Hd, list_lookup_insert_ne; done.
Qed.

Lemma resetDelete_frame t k t' : resetDelete t k = Ok t' →
  diffs t' = diffs t ∧ callers t' = callers t ∧ evictors t' = evictors t ∧ loop t' = loop t ∧ cache t' = cache t.
Proof.
  unfold resetDelete. destruct (pdSizes t !! k) as [x|]; [|by intros [= <-]]. destruct (closeOnce x); [by intros [= <-]|].
  destruct (cancels t !! cancel x) as [[]|]; by intros [= <-].
Qed.
Lemma cache_delete_frame t k : diffs (cache_delete t k) = diffs t ∧ callers (cache_delete t k) = callers t ∧
  loop (cache_delete t k) = loop t ∧ evictors t `prefix_of` evictors (cache_delete t k).
Proof. unfold cache_delete. destruct (ttl_Delete _ _). split_and!; try done. by eexists. Qed.

(** What stays with a dead diff: it is dead, and who waits for it waits. *)
Definition stuck t t' (d : nat) : Prop :=
  dead t' d ∧ (∀ k, loop t = LSize k d → loop t' = LSize k d) ∧
  ∀ j k, evictors t !! j = Some (mkEvictor k d EClose) → evictors t' !! j = Some (mkEvictor k d EClose).

Lemma stuck_frame t t' d : dead t d → diffs t' = diffs t → callers t' = callers t → loop t' = loop t →
  evictors t `prefix_of` evictors t' → stuck t t' d.
Proof.
  intros Hd ? ? Hl [ev Hev]. split_and!; [by eapply dead_same|by rewrite Hl|]. intros j k Hj. rewrite Hev. by apply lookup_app_l_Some.
Qed.
Lemma stuck_loop t l d : dead t d → (∀ k, loop t ≠ LSize k d) → stuck t (with_loop t l) d.
Proof. intros Hd Hl. split_and!; [done| |done]. by intros k ?%Hl. Qed.

Lemma caller_stuck t i c out t' p d : dead t d → callers t !! i = Some c → caller_step t c out = Ok (t', p) →
  stuck t (with_caller t' i (mkCaller (c_diff c) p)) d.
Proof.
  intros Hd Hi Hs.
  assert (∀ r, c_pc c ≠ Returned r) as Hpc.
  { intros r E. unfold caller_step in Hs. destruct (diffs t !! c_diff c); [|done]. by rewrite E in Hs. }
  assert (c_diff c ≠ d) as Hne. { intros E. destruct (proj2 Hd i c Hi E) as [r ?]. by apply (Hpc r). }
  assert (∀ cs, cs = callers t → ∀ j x, <[i := mkCaller (c_diff c) p]> cs !! j = Some x → c_diff x = d → ∃ r, c_pc x = Returned r) as Hcs.
  { intros cs -> j x [(_ & <- & _)|[_ Hj]]%list_lookup_insert_Some E; [done|by eapply (proj2 Hd)]. }
  assert (∀ t1, diffs t1 = diffs t → callers t1 = callers t → loop t1 = loop t → evictors t1 = evictors t →
    stuck t (with_caller t1 i (mkCaller (c_diff c) p)) d) as Hsame.
  { intros t1 E1 E2 E3 E4. split_and!; simpl; rewrite ?E3, ?E4; try done. split; [|by apply Hcs].
    simpl. rewrite E1. apply Hd. }
  unfold caller_step in Hs. destruct (diffs t !! c_diff c) as [o|]; [|done]. destruct (c_pc c); try done.
  - destruct (resetDelete t _) as [t1|?|] eqn:E; [|done..]. simpl in Hs. injection Hs as <- <-.
    apply resetDelete_frame in E as (? & ? & ? & ? & _). by apply Hsame.
  - destruct (ttl_GetOrSet _ _ _) as [c' [v f]]. injection Hs as <- <-. apply Hsame; try done. apply app_nil_r.
  - destruct (diff_Init o out) as [o' e]. injection Hs as <- <-. split_and!; try done.
    eapply (dead_other t); [done|exact Hne|done|]. by apply Hcs.
  - destruct (resetDelete t _) as [t1|?|] eqn:E; [|done..]. simpl in Hs. injection Hs as <- <-.
    apply resetDelete_frame in E as (? & ? & ? & ? & _). by apply Hsame.
  - injection Hs as <- <-. apply Hsame; try done. apply app_nil_r.
Qed.

Lemma dead_step t l t' d : dead t d → diff_step t l = Ok t' → stuck t t' d.
Proof.
  intros Hd Hs. destruct (dead_waits t d Hd) as (o & Ho & Hw & Hfs).
  assert (∀ x r, dead (mkStore (diffs t ++ [x]) (cache t) (pdSizes t) (cancels t) (deleters t) (evictors t) (loop t)
    (callers t ++ [mkCaller (length (diffs t)) r])) d) as Hnew.
  { intros x r. destruct Hd as [(o1 & c1 & Ho1 & ?) Hc]. split; [exists o1, c1; split; [by apply lookup_app_l_Some|done]|].
    intros i c [Hi|[_ Hi]]%lookup_app_Some E; [by eapply Hc|]. apply list_lookup_singleton_Some in Hi as [_ <-].
    simpl in E. apply lookup_lt_Some in Ho1. lia. }
  assert (∀ l, (∀ k, loop t = LSize k d → False) → stuck t (with_loop t l) d) as Hloop.
  { intros l' ?. by apply stuck_loop. }
  destruct l as [x|x|i out|key|key| |i|over|panics|r| |i|i|i|i|]; simpl in Hs.
  - injection Hs as <-. split_and!; [apply Hnew|done..].
  - injection Hs as <-. split_and!; [apply Hnew|done..].
  - destruct (callers t !! i) as [c|] eqn:Hi; [|done]. destruct (caller_step t c out) as [[t1 p]|?|] eqn:E; [|done..].
    simpl in Hs. injection Hs as <-. by eapply caller_stuck.
  - injection Hs as <-. unfold Lookup. destruct (ttl_Get _ _). apply stuck_frame; try done. by eexists.
  - injection Hs as <-. destruct (cache_delete_frame t key) as (? & ? & ? & ?). by apply stuck_frame.
  - injection Hs as <-. unfold RemoveCache. destruct (ttl_DeleteAll _). apply stuck_frame; try done. by eexists.
  - destruct (evictors t !! i) as [[k x []]|] eqn:Hi; try done.
    + destruct (decide (x = d)) as [->|Hne].
      { rewrite Ho in Hs. simpl in Hs. unfold diff_Close in Hs. rewrite Hw in Hs. destruct Hd as [(o1 & c1 & Ho1 & Hk & _) _].
        assert (o1 = o) as -> by congruence. by rewrite Hk in Hs. }
      destruct (diffs t !! x ≫= diff_Close) as [o'|]; [|done]. injection Hs as <-. split_and!; [|done|].
      * eapply (dead_other t); [done|exact Hne|done|apply Hd].
      * intros j k' Hj. simpl. rewrite list_lookup_insert_ne; [done|]. intros ->. rewrite Hi in Hj. by injection Hj.
    + destruct (resetDelete t k) as [t1|?|] eqn:E; [|done..]. simpl in Hs. injection Hs as <-.
      apply resetDelete_frame in E as (E1 & E2 & E3 & E4 & _). split_and!; simpl; [|by rewrite E4|].
      * by eapply (dead_same t).
      * intros j k' Hj. rewrite E3, list_lookup_insert_ne; [done|]. intros ->. rewrite Hi in Hj. by injection Hj.
  - destruct (loop t) eqn:El; try done. destruct over as [[]|]; injection Hs as <-; [by apply Hloop|by apply stuck_frame..].
  - destruct (loop t) eqn:El; try done. injection Hs as <-. by apply Hloop.
  - destruct (loop t) as [| |k x| |] eqn:El; try done. destruct (decide (x = d)) as [->|Hne].
    { rewrite Ho in Hs. simpl in Hs. by rewrite Hfs in Hs. }
    destruct (_ ≫= _) as [[]|]; [..|done]; injection Hs as <-; apply Hloop; intros k' [=]; by subst.
  - destruct (loop t) eqn:El; try done. injection Hs as <-. split_and!; [by eapply (dead_same t)| |done]. intros k'. by rewrite El.
  - destruct (deleters t !! i) as [[k c []]|]; try done. injection Hs as <-. by apply stuck_frame.
  - destruct (deleters t !! i) as [[k c []]|]; try done. destruct (bool_decide _); [|done]. injection Hs as <-. by apply stuck_frame.
  - destruct (deleters t !! i) as [[k c []]|]; try done. injection Hs as <-.
    destruct (cache_delete_frame t k) as (? & ? & ? & ?). by apply stuck_frame.
  - destruct (deleters t !! i) as [[k c []]|]; try done. injection Hs as <-. by apply stuck_frame.
  - destruct (loop t) eqn:El; try done. injection Hs as <-. by apply Hloop.
Qed.
Lemma dead_run ls : ∀ t t' d, dead t d → diff_run t ls = Ok t' → stuck t t' d.
Proof.
  induction ls as [|l ls IH]; intros t t' d Hd Hr; simpl in Hr; [injection Hr as <-; by apply stuck_frame|].
  destruct (diff_step t l) as [t1|?|] eqn:E; [|done..]. simpl in Hr. destruct (dead_step t l t1 d Hd E) as (Hd1 & Hl1 & He1).
  destruct (IH t1 t' d Hd1 Hr) as (Hd2 & Hl2 & He2). split_and!; [done| |]; naive_solver.
Qed.

(** [Init] of a new storage diff either leaves a chunker or an error for its
    users, or - when [OpenSeekable] fails - nothing at all: the diff stays in the
    cache and, whatever happens afterwards, everybody who reads it, its eviction and
    the disk loop (if it asks for its size) wait for ever. *)
Theorem DiffStore_failed_open (ls : list dlabel) t (i : nat) (c : caller) (o : diff_obj) (ch : SetOnce () DiffError) :
  Forall label_fresh ls → diff_run NewDiffStore ls = Ok t → callers t !! i = Some c → c_pc c = GetInit →
  diffs t !! c_diff c = Some o → kind o = StorageDiff ch →
  (∀ out t1, diff_step t (DCaller i out) = Ok t1 → out ≠ OpenFails →
     ∃ o1 r, diffs t1 !! c_diff c = Some o1 ∧ diff_wait o1 = Some r ∧ (r = None ↔ out = InitOk)) ∧
  (∀ t1 ls' t', diff_step t (DCaller i OpenFails) = Ok t1 → diff_run t1 ls' = Ok t' →
     ttl_items (cache t1) = ttl_items (cache t) ∧
     (∃ o', diffs t' !! c_diff c = Some o' ∧ diff_wait o' = None) ∧
     (∀ k, loop t1 = LSize k (c_diff c) → loop t' = LSize k (c_diff c)) ∧
     (∀ j k, evictors t1 !! j = Some (mkEvictor k (c_diff c) EClose) → evictors t' !! j = Some (mkEvictor k (c_diff c) EClose))).
Proof.
  intros Hls Hr Hi Hp Ho Hk. pose proof (diff_run_ok ls _ NewDiffStore_ok Hls) as Ht. rewrite Hr in Ht.
  pose proof (ok_init _ Ht i c o Hi (or_intror Hp) Ho) as Hch. rewrite Hk in Hch. subst ch.
  assert (∀ out, diff_step t (DCaller i out) = Ok (let '(d', e) := diff_Init o out in
    with_caller (with_diff t (c_diff c) d') i (mkCaller (c_diff c)
      (Returned (match e with Some e => Err (ErrInitSource e) | None => Ok (c_diff c) end))))) as Hstep.
  { intros out. simpl. rewrite Hi. unfold caller_step. rewrite Ho, Hp. by destruct (diff_Init o out). }
  assert (c_diff c < length (diffs t))%nat as Hlt by by eapply lookup_lt_Some.
  split.
  - intros out t1 Hs Hout. rewrite Hstep in Hs. unfold diff_Init in Hs. rewrite Hk in Hs.
    destruct out; simpl in Hs; injection Hs as <-; [done|..]; do 2 eexists;
      (split; [by apply list_lookup_insert_eq|]); (split; [done|done]).
  - intros t1 ls' t' Hs Hr'. rewrite Hstep in Hs. unfold diff_Init in Hs. rewrite Hk in Hs. simpl in Hs. injection Hs as <-.
    split; [done|]. assert (dead (with_caller (with_diff t (c_diff c) (mkDiff (cacheKey o) (StorageDiff NewSetOnce) (closes o))) i
      (mkCaller (c_diff c) (Returned (Err (ErrInitSource ErrOpenSeekable))))) (c_diff c)) as Hd.
    { split; simpl; [do 2 eexists; split; [by apply list_lookup_insert_eq|done]|].
      intros j x [(_ & <- & _)|[Hne Hj]]%list_lookup_insert_Some E; [by eexists|].
      destruct Hne. by apply (ok_caller_inj _ Ht i j c x). }
    destruct (dead_run ls' _ t' _ Hd Hr') as (Hd' & Hl & He). split; [|done].
    destruct (dead_waits _ _ Hd') as (o' & ? & ? & _). by exists o'.
Qed.

(** A scheduled deletion that nothing will ever take back: the key is not in the
    cache and nobody is about to put it there, evict it or delete it. *)
Definition phantom t (k : string) (n : Z) : Prop :=
  (∃ dd, pdSizes t !! k = Some dd ∧ dd_size dd = n) ∧ lru_get (ttl_items (cache t)) k = None ∧
  (∀ i c o, callers t !! i = Some c → diffs t !! c_diff c = Some o → cacheKey o = k → is_new (c_pc c) = false) ∧
  (∀ j e, evictors t !! j = Some e → ev_key e = k → ev_pc e = EEnd) ∧
  (∀ d, loop t ≠ LSize k d) ∧ (∀ m, loop t ≠ LSchedule k m).
Definition not_for (k : string) (l : dlabel) : Prop :=
  match l with DGet d | DAdd d => cacheKey d ≠ k | _ => True end.
Lemma phantom_frame t t' k n :
  phantom t k n → pdSizes t' !! k = pdSizes t !! k → lru_get (ttl_items (cache t')) k = None →
  (∀ i c o, callers t' !! i = Some c → diffs t' !! c_diff c = Some o → cacheKey o = k → is_new (c_pc c) = false) →
  (∀ j e, evictors t' !! j = Some e → ev_key e = k → ev_pc e = EEnd) →
  (∀ d, loop t' ≠ LSize k d) → (∀ m, loop t' ≠ LSchedule k m) → phantom t' k n.
Proof. intros [(dd & ? & ?) _] E ? ? ? ? ?. split_and!; try done. exists dd. by rewrite E. Qed.

Lemma resetDelete_phantom t k k' n t' : phantom t k n → k' ≠ k → resetDelete t k' = Ok t' → phantom t' k n.
Proof.
  intros Hp Hne E. pose proof (resetDelete_frame t k' t' E) as (E1 & E2 & E3 & E4 & E5). pose proof Hp as (_ & ? & ? & ? & ? & ?).
  eapply phantom_frame; rewrite ?E1, ?E2, ?E3, ?E4, ?E5; try done. unfold resetDelete in E.
  destruct (pdSizes t !! k') as [x|]; [|by injection E as <-]. destruct (closeOnce x); [injection E as <-; by apply lookup_delete_ne|].
  destruct (cancels t !! cancel x) as [[]|]; try done. injection E as <-. by apply lookup_delete_ne.
Qed.
Lemma cache_delete_phantom t k k' n : phantom t k n → phantom (cache_delete t k') k n.
Proof.
  intros Hp. pose proof Hp as (_ & Hno & ? & Hev & ? & ?). unfold cache_delete.
  pose proof (ttl_Delete_items (cache t) k') as [Hi Hr]. destruct (ttl_Delete (cache t) k') as [c o]. simpl in Hi, Hr. subst o.
  eapply phantom_frame; try done; simpl.
  - rewrite Hi, lru_get_drop. by case_bool_decide.
  - intros j e [Hj|[_ Hj]]%lookup_app_Some; [by eapply Hev|]. destruct (lru_get _ k') as [d|] eqn:E; [|done].
    apply list_lookup_singleton_Some in Hj as [_ <-]. intros <-. simpl in *. congruence.
Qed.
Lemma caller_phantom t i c out t' p k n : phantom t k n → callers t !! i = Some c → caller_step t c out = Ok (t', p) →
  phantom (with_caller t' i (mkCaller (c_diff c) p)) k n.
Proof.
  intros Hp Hi Hs. pose proof Hp as (_ & Hno & Hcs & Hev & ? & ?). unfold caller_step in Hs.
  destruct (diffs t !! c_diff c) as [o|] eqn:Ho; [|done].
  assert (∀ t1 p1, phantom t1 k n → diffs t1 = diffs t → callers t1 = callers t →
    (is_new (c_pc c) = false → is_new p1 = false) → phantom (with_caller t1 i (mkCaller (c_diff c) p1)) k n) as Hwith.
  { intros t1 p1 Hp1 E1 E2 Hpc. pose proof Hp1 as (_ & ? & Hcs1 & ? & ? & ?). eapply phantom_frame; try done. simpl. rewrite E1, E2.
    intros j x y [(-> & <- & _)|[_ Hj]]%list_lookup_insert_Some Hy Hk; [|by eapply Hcs]. apply Hpc. by eapply Hcs. }
  assert (is_new (c_pc c) = true → cacheKey o ≠ k) as Hkey.
  { intros Hn E. by rewrite (Hcs i c o Hi Ho E) in Hn. }
  destruct (c_pc c) eqn:Hpc; try done.
  - destruct (resetDelete t _) as [t1|?|] eqn:E; [|done..]. simpl in Hs. injection Hs as <- <-.
    pose proof (resetDelete_frame _ _ _ E) as (? & ? & _). apply Hwith; try done. eapply (resetDelete_phantom t); [done| |done]. by apply Hkey.
  - pose proof (ttl_GetOrSet_items (cache t) (cacheKey o) (c_diff c)) as [Hit _].
    destruct (ttl_GetOrSet _ _ _) as [c' [v f]]. injection Hs as <- <-. apply Hwith; try done.
    eapply phantom_frame; simpl; rewrite ?app_nil_r; try done. simpl in Hit. rewrite Hit, lru_get_set_ne; [done|]. intros E. by apply (Hkey eq_refl).
  - pose proof (diff_Init_same o out) as [Hk _]. destruct (diff_Init o out) as [o' e]. injection Hs as <- <-.
    eapply phantom_frame; try done. simpl. intros j x y [(_ & <- & _)|[_ Hj]]%list_lookup_insert_Some; [done|].
    intros [(E & <- & _)|[_ Hy]]%list_lookup_insert_Some Hky; [|by eapply Hcs]. simpl in Hk. rewrite Hk in Hky.
    eapply Hcs; [done| |exact Hky]. by rewrite <- E.
  - destruct (resetDelete t _) as [t1|?|] eqn:E; [|done..]. simpl in Hs. injection Hs as <- <-.
    pose proof (resetDelete_frame _ _ _ E) as (? & ? & _). apply Hwith; try done. eapply (resetDelete_phantom t); [done| |done]. by apply Hkey.
  - injection Hs as <- <-. apply Hwith; try done. eapply phantom_frame; simpl; rewrite ?app_nil_r; try done.
    rewrite ttl_Set_items, lru_get_set_ne; [done|]. intros E. by apply (Hkey eq_refl).
Qed.

Lemma phantom_step t l t' k n : phantom t k n → store_ok t → not_for k l → diff_step t l = Ok t' → phantom t' k n.
Proof.
  intros Hp Ht Hl Hs. pose proof Hp as (Hpd & Hno & Hcs & Hev & Hls & Hlc).
  assert (∀ l', (∀ d, l' ≠ LSize k d) → (∀ m, l' ≠ LSchedule k m) → phantom (with_loop t l') k n) as Hloop.
  { intros l' ? ?. by eapply phantom_frame. }
  assert (∀ x p, cacheKey x ≠ k → phantom (mkStore (diffs t ++ [x]) (cache t) (pdSizes t) (cancels t) (deleters t) (evictors t) (loop t)
    (callers t ++ [mkCaller (length (diffs t)) p])) k n) as Hnew.
  { intros x p Hx. eapply phantom_frame; try done. simpl.
    intros i c o [Hi|[_ Hi]]%lookup_app_Some Ho Hk.
    - destruct (ok_caller _ Ht i c Hi) as [o1 Ho1]. rewrite (lookup_app_l_Some _ _ _ _ Ho1) in Ho. injection Ho as <-. by eapply Hcs.
    - apply list_lookup_singleton_Some in Hi as [_ <-]. simpl in Ho. rewrite lookup_app_r, Nat.sub_diag in Ho by done. by injection Ho as <-. }
  destruct l as [x|x|i out|key|key| |i|over|panics|r| |i|i|i|i|]; simpl in Hs, Hl.
  - injection Hs as <-. by apply Hnew.
  - injection Hs as <-. by apply Hnew.
  - destruct (callers t !! i) as [c|] eqn:Hi; [|done]. destruct (caller_step t c out) as [[t1 p]|?|] eqn:E; [|done..].
    simpl in Hs. injection Hs as <-. by eapply caller_phantom.
  - injection Hs as <-. unfold Lookup. pose proof (ttl_Get_items (cache t) key) as [_ Hi]. destruct (ttl_Get (cache t) key) as [c o].
    eapply phantom_frame; simpl; rewrite ?app_nil_r; try done. simpl in Hi. rewrite Hi.
    destruct (lru_get _ key) as [v|] eqn:E; [|done]. rewrite lru_get_set_ne; [done|]. congruence.
  - injection Hs as <-. by apply cache_delete_phantom.
  - injection Hs as <-. unfold RemoveCache. pose proof (ttl_DeleteAll_items (cache t)) as [Hi Hr].
    destruct (ttl_DeleteAll (cache t)) as [c l]. simpl in Hi, Hr. subst l. eapply phantom_frame; try done; simpl; [by rewrite Hi|].
    intros j e [Hj|[_ Hj]]%lookup_app_Some; [by eapply Hev|]. apply list_lookup_fmap_Some in Hj as ([k1 d1] & -> & Hj). simpl. intros ->.
    destruct (lru_get_None _ _ Hno d1). by eapply list_elem_of_lookup_2.
  - destruct (evictors t !! i) as [[k1 x []]|] eqn:Hi; try done.
    + destruct (diffs t !! x) as [o|] eqn:Ho; [|done]. simpl in Hs. destruct (diff_Close o) as [o'|] eqn:Hc; [|done].
      injection Hs as <-. apply diff_Close_spec in Hc as (Hk & _). eapply phantom_frame; try done; simpl.
      * intros j c y Hj [(E & <- & _)|[_ Hy]]%list_lookup_insert_Some Hky; [|by eapply Hcs]. rewrite Hk in Hky.
        eapply Hcs; [done| |exact Hky]. by rewrite <- E.
      * intros j e [(-> & <- & _)|[_ He]]%list_lookup_insert_Some Hke; [|by eapply Hev]. by specialize (Hev _ _ Hi Hke).
    + destruct (resetDelete t k1) as [t1|?|] eqn:E; [|done..]. simpl in Hs. injection Hs as <-.
      assert (k1 ≠ k) as Hne by (intros ->; by specialize (Hev _ _ Hi eq_refl)).
      pose proof (resetDelete_phantom _ _ _ _ _ Hp Hne E) as Hp1. pose proof Hp1 as (_ & ? & ? & Hev1 & ? & ?).
      eapply phantom_frame; try done. simpl. intros j e [(-> & <- & _)|[_ He]]%list_lookup_insert_Some Hke; [done|by eapply Hev1].
  - destruct (loop t) eqn:El; try done. destruct over as [[]|]; injection Hs as <-; [by apply Hloop|done..].
  - destruct (loop t) as [|items| | |] eqn:El; try done. injection Hs as <-. destruct panics; [by apply Hloop|].
    destruct items as [|[k1 d1] items]; simpl; [by apply Hloop|]. unfold isBeingDeleted. case_bool_decide as D; [by apply Hloop|].
    apply Hloop; [|done]. intros d [= -> ->]. apply D. destruct Hpd as (dd & Hd & _). by exists dd.
  - destruct (loop t) as [| |k1 x| |] eqn:El; try done.
    destruct (_ ≫= _) as [[]|]; [..|done]; injection Hs as <-; apply Hloop; try done; intros m [=]; subst; by eapply Hls.
  - destruct (loop t) as [| | |k1 m|] eqn:El; try done. injection Hs as <-. eapply phantom_frame; try done. simpl.
    rewrite lookup_insert_ne; [done|]. intros ->. by eapply Hlc.
  - destruct (deleters t !! i) as [[k1 c []]|]; try done. by injection Hs as <-.
  - destruct (deleters t !! i) as [[k1 c []]|]; try done. destruct (bool_decide _); [|done]. by injection Hs as <-.
  - destruct (deleters t !! i) as [[k1 c []]|]; try done. injection Hs as <-.
    pose proof (cache_delete_phantom t k k1 n Hp) as Hp1. pose proof Hp1 as (_ & ? & ? & ? & ? & ?). by eapply phantom_frame.
  - destruct (deleters t !! i) as [[k1 c []]|]; try done. by injection Hs as <-.
  - destruct (loop t) eqn:El; try done. injection Hs as <-. by apply Hloop.
Qed.
Lemma phantom_run ls : ∀ t t' k n, phantom t k n → store_ok t → Forall label_fresh ls → Forall (not_for k) ls →
  diff_run t ls = Ok t' → phantom t' k n.
Proof.
  induction ls as [|l ls IH]; intros t t' k n Hp Ht Hf Hl Hr; simpl in Hr; [by injection Hr as <-|].
  apply Forall_cons in Hf as [Hf Hfs], Hl as [Hl Hls]. pose proof (diff_step_ok t l Ht Hf) as Hs.
  destruct (diff_step t l) as [t1|?|] eqn:E; [|done..]. simpl in Hr. eapply IH; [|done..|exact Hr]. by eapply phantom_step.
Qed.
End laws.

(** ** Examples *)
Abbreviation items_t := (list (string * nat)).
Definition ds_local : diff_obj := mkDiff "b/rootfs.ext4" LocalDiff 0.
Definition ds_remote : diff_obj := mkDiff "b/rootfs.ext4" (StorageDiff NewSetOnce) 0.
(** The item expires while the disk loop is between choosing and scheduling it. *)
Definition ds_phantom : list dlabel :=
  [DAdd ds_local; DCaller 0 InitOk; DCaller 0 InitOk; DTimer (Some true); DRange false; DExpire "b/rootfs.ext4";
   DEvictor 0; DEvictor 0; DFileSize (Some 7); DSchedule; DFire 0; DDeleteNow 0].
(** [OpenSeekable] fails, a second reader gets the diff, the disk fills up. *)
Definition ds_failed : list dlabel :=
  [DGet ds_remote; DCaller 0 InitOk; DCaller 0 InitOk].
Definition ds_after : list dlabel :=
  [DGet ds_remote; DCaller 1 InitOk; DCaller 1 InitOk; DTimer (Some true); DRange false].

(** The bookkeeping of deletions can leak.  When an item expires between the
    choice of the disk loop and [scheduleDelete], its size is counted as about to be
    freed for ever - unless somebody asks for the same build again - although the
    file is long gone; the disk loop then believes that less is used. *)
Theorem DiffStore_phantom_delete (ls : list dlabel) (t : diff_store items_t) :
  Forall label_fresh ls → Forall (not_for "b/rootfs.ext4") ls →
  diff_run (C := items_t) NewDiffStore (ds_phantom ++ ls) = Ok t →
  (∃ dd, pdSizes t !! "b/rootfs.ext4"%string = Some dd ∧ dd_size dd = 7) ∧
  lru_get (ttl_items (cache t)) "b/rootfs.ext4" = None.
Proof.
  intros Hf Hl Hr.
  assert (∀ ls1 ls2 t, diff_run (C := items_t) t (ls1 ++ ls2) = diff_run t ls1 ≫= λ t, diff_run t ls2) as Happ.
  { intros ls1 ls2. induction ls1 as [|l ls1 IH]; intros t0; [done|]. simpl. destruct (diff_step t0 l); [apply IH|done..]. }
  rewrite Happ in Hr. destruct (diff_run NewDiffStore ds_phantom) as [t0|?|] eqn:E; [|done..]. simpl in Hr.
  assert (store_ok t0) as Ht0.
  { pose proof (diff_run_ok ds_phantom NewDiffStore NewDiffStore_ok) as H0. rewrite E in H0. apply H0.
    unfold ds_phantom. repeat (apply Forall_cons; split); done. }
  assert (phantom t0 "b/rootfs.ext4" 7) as Hp0.
  { vm_compute in E. injection E as <-. split_and!; try done.
    - eexists. split; [vm_compute; reflexivity|done].
    - intros i c o Hi _ _. by apply list_lookup_singleton_Some in Hi as [_ <-].
    - intros j e Hj _. by apply list_lookup_singleton_Some in Hj as [_ <-]. }
  by destruct (phantom_run ls t0 t _ _ Hp0 Ht0 Hf Hl Hr) as (? & ? & _).
Qed.

(** The second reader gets the diff that the first one is initialising. *)
Lemma DiffStore_safe_witness :
  match diff_run (C := items_t) NewDiffStore (ds_failed ++ ds_after) with
  | Ok t => (∀ d o, diffs t !! d = Some o → (closes o ≤ 1)%nat) ∧ callers t !! 1%nat = Some (mkCaller 1 (Returned (Ok 0%nat)))
  | _ => False
  end.
Proof.
  pose proof (DiffStore_safe (C := items_t) (ds_failed ++ ds_after)) as H.
  assert (Forall label_fresh (ds_failed ++ ds_after)) as Hl.
  { unfold ds_failed, ds_after. simpl. repeat (apply Forall_cons; split); done. }
  specialize (H Hl). destruct (diff_run (C := items_t) NewDiffStore (ds_failed ++ ds_after)) as [t|e|] eqn:E.
  - destruct H as (_ & _ & H & _). split; [exact H|]. clear -E. vm_compute in E. injection E as <-. reflexivity.
  - vm_compute in E. discriminate.
  - exact H.
Defined.

Lemma DiffStore_failed_open_witness :
  match diff_run (C := items_t) NewDiffStore ds_failed with
  | Ok t =>
      match diff_step t (DCaller 0 OpenFails) with
      | Ok t1 =>
          match diff_run t1 ds_after with
          | Ok t' => (∃ o', diffs t' !! 0%nat = Some o' ∧ diff_wait o' = None) ∧ loop t' = LSize "b/rootfs.ext4" 0
          | _ => False
          end
      | _ => False
      end
  | _ => False
  end.
Proof.
  destruct (diff_run (C := items_t) NewDiffStore ds_failed) as [t|?|] eqn:E; [|vm_compute in E; discriminate..].
  pose proof (DiffStore_failed_open (C := items_t) ds_failed t 0%nat (mkCaller 0 GetInit) ds_remote NewSetOnce) as H.
  assert (Forall label_fresh ds_failed) as Hl by (unfold ds_failed; repeat (apply Forall_cons; split); done).
  specialize (H Hl E). vm_compute in E. injection E as <-. specialize (H eq_refl eq_refl eq_refl eq_refl). destruct H as [_ H].
  destruct (diff_step _ (DCaller 0 OpenFails)) as [t1|?|] eqn:E1; [|vm_compute in E1; discriminate..].
  destruct (diff_run t1 ds_after) as [t'|?|] eqn:E2.
  - destruct (H t1 ds_after t' eq_refl E2) as (_ & H1 & _ & _). split; [exact H1|].
    vm_compute in E1. injection E1 as <-. vm_compute in E2. injection E2 as <-. reflexivity.
  - vm_compute in E1. injection E1 as <-. vm_compute in E2. discriminate.
  - vm_compute in E1. injection E1 as <-. vm_compute in E2. discriminate.
Defined.

Lemma DiffStore_phantom_delete_witness :
  ∃ t, diff_run (C := items_t) NewDiffStore (ds_phantom ++ [DTimer (Some true); DRange false; DFire 0] ) = Err () ∧
    diff_run (C := items_t) NewDiffStore (ds_phantom ++ [DTimer (Some true); DRange false]) = Ok t ∧
    lru_get (ttl_items (cache t)) "b/rootfs.ext4" = None.
Proof.
  eexists. split; [vm_compute; reflexivity|]. split; [vm_compute; reflexivity|].
  refine (proj2 (DiffStore_phantom_delete [DTimer (Some true); DRange false] _ _ _ _)).
  - repeat (apply Forall_cons; split); done.
  - repeat (apply Forall_cons; split); done.
  - vm_compute. reflexivity.
Defined.
