(* ===== verification/Nbd.v ===== *)
(** * Serving a network block device

    packages/orchestrator/internal/sandbox/nbd [dispatch.go]: [Dispatch.Handle] reads
    the requests of the kernel from a socket, in whatever pieces they arrive, and runs
    each one in a goroutine of its own, which answers on the same socket.

    The state has the handler with the valid part of its buffer, the requests
    that were started, the bytes written to the socket, the channel [fatal], the
    pending counter and [Drain].  A step ([blabel]) is one read of the socket, one
    turn of the handler's loop, one critical section of [shuttingDownLock] or
    [writeLock], or one operation of a request's goroutines.  The provider is an
    argument. *)
From Stdlib Require Import Init.Byte.
From S2P Require Import Prelude Bitset Uuid Mapping Merge Header Serialization.

(** [binary.BigEndian]. *)
Definition be_encode (n : nat) (z : Z) : list byte := rev (le_encode n z).
Definition be_decode (bs : list byte) : Z := le_decode (rev bs).

Definition dispatchBufferSize : Z := 4 * 1024 * 1024.
Definition dispatchMaxWriteBufferSize : Z := 32 * 1024 * 1024.
Definition NBDCmdRead : Z := 0.
Definition NBDCmdWrite : Z := 1.
Definition NBDCmdDisconnect : Z := 2.
Definition NBDCmdFlush : Z := 3.
Definition NBDCmdTrim : Z := 4.
Definition NBDRequestMagic : Z := 0x25609513.
Definition NBDResponseMagic : Z := 0x67446698.

Record Request := mkRequest { Magic : Z; Type_ : Z; Handle_ : Z; From_ : Z; Length_ : Z }.
Definition header_size : Z := 28.
(** The fields of a header of 28 bytes. *)
Definition parse_header (h : list byte) : Request :=
  mkRequest (be_decode (slice h 0 4)) (be_decode (slice h 4 8)) (be_decode (slice h 8 16))
    (be_decode (slice h 16 24)) (be_decode (slice h 24 28)).

Inductive command :=
  | CmdRead (handle from length : Z)
  | CmdWrite (handle from : Z) (data : list byte)
  | CmdTrim (handle from length : Z).

(** How [Handle] returns; [EndDisconnect] is [nil]. *)
Inductive handle_end :=
  | EndDisconnect
  | EndMagic | EndFlush | EndTooLong (length : Z) | EndNotImplemented (ty : Z)
  | EndRead | EndWriteRead              (** the socket fails *)
  | EndFatal | EndContext | EndShuttingDown | EndTrimResponse.

(** [writeResponse]. *)
Definition responseHeader (respError respHandle : Z) : list byte :=
  be_encode 4 NBDResponseMagic ++ be_encode 4 respError ++ be_encode 8 respHandle.
Definition response_bytes (r : Z * Z * list byte) : list byte := responseHeader r.1.1 r.1.2 ++ r.2.

(** The provider: [ReadAt] fills the buffer it is given, an error is [false]. *)
Class Provider (D : Type) := {
  prov_ReadAt : D → list byte → Z → list byte * bool;
  prov_WriteAt : D → list byte → Z → D * bool;
}.
Class ProviderLaws (D : Type) `{Provider D} : Prop := {
  prov_ReadAt_length (d : D) p off : length (prov_ReadAt d p off).1 = length p;
}.

(** A request that was started: [prov] is the goroutine that calls the provider, with
    what it sent on [errchan] (and the data of a read); [opc] the one that answers. *)
Inductive op_pc :=
  | OWait
  | ORespond (error : Z) (data : list byte)
  | OFinish (failed : bool)             (** after [writeResponse] *)
  | ODone.
Record op := mkOp { ocmd : command; prov : option (list byte * bool); opc : op_pc; answer : option (Z * Z * list byte) }.

(** Where [Handle] stands; the list is [buffer[:wp]], the number [rp]. *)
Inductive handle_pc :=
  | HRead (buf : list byte)
  | HLoop (buf : list byte) (rp : Z)
  | HData (req : Request) (data : list byte)     (** the rest of a write; the buffer is used up *)
  | HPoll (req : Request) (data : list byte)     (** the [select] after that read *)
  | HStart (c : command) (buf : list byte) (rp : Z)
  | HReturned (e : handle_end).

Inductive drain_pc := NotDraining | Draining | Drained.

Definition handle_of (c : command) : Z :=
  match c with CmdRead h _ _ | CmdWrite h _ _ | CmdTrim h _ _ => h end.

Section nbd.
Context {D : Type} `{Provider D}.

Record dispatch := mkDispatch {
  device : D;
  hpc : handle_pc;
  ops : list op;
  out : list byte;                 (** what was written to the socket *)
  fatal : bool;                    (** the channel of capacity 1 *)
  pendingResponses : Z;
  shuttingDown : bool;
  drain : drain_pc;
  ctx_done : bool;
}.
Definition with_hpc (t : dispatch) (p : handle_pc) : dispatch :=
  mkDispatch (device t) p (ops t) (out t) (fatal t) (pendingResponses t) (shuttingDown t) (drain t) (ctx_done t).
Definition with_ops (t : dispatch) (os : list op) (pending : Z) : dispatch :=
  mkDispatch (device t) (hpc t) os (out t) (fatal t) pending (shuttingDown t) (drain t) (ctx_done t).
Definition with_out (t : dispatch) (o : list byte) : dispatch :=
  mkDispatch (device t) (hpc t) (ops t) o (fatal t) (pendingResponses t) (shuttingDown t) (drain t) (ctx_done t).
Definition with_fatal (t : dispatch) (f : bool) : dispatch :=
  mkDispatch (device t) (hpc t) (ops t) (out t) f (pendingResponses t) (shuttingDown t) (drain t) (ctx_done t).
Definition with_device (t : dispatch) (d : D) : dispatch :=
  mkDispatch d (hpc t) (ops t) (out t) (fatal t) (pendingResponses t) (shuttingDown t) (drain t) (ctx_done t).
Definition with_drain (t : dispatch) (s : bool) (p : drain_pc) : dispatch :=
  mkDispatch (device t) (hpc t) (ops t) (out t) (fatal t) (pendingResponses t) s p (ctx_done t).
Definition with_op (t : dispatch) (i : nat) (o : op) : dispatch := with_ops t (<[i := o]> (ops t)) (pendingResponses t).

Definition NewDispatch (prov : D) : dispatch := mkDispatch prov (HRead []) [] [] false 0 false NotDraining false.

(** The choice of a [select] on [fatal], the context and [default]. *)
Inductive poll := PollFatal | PollContext | PollDefault.
Definition poll_ok (t : dispatch) (p : poll) : bool :=
  match p with
  | PollFatal => fatal t
  | PollContext => ctx_done t
  | PollDefault => negb (fatal t) && negb (ctx_done t)
  end.

(** One turn of the inner loop after its [select]. *)
Definition process (buf : list byte) (rp : Z) : handle_pc :=
  let wp := zlength buf in
  if wp - rp <? header_size then
    (* the partial packet moves to the start *)
    HRead (slice buf rp wp)
  else
    let request := parse_header (slice buf rp (rp + header_size)) in
    if negb (Magic request =? NBDRequestMagic) then HReturned EndMagic
    else if Type_ request =? NBDCmdDisconnect then HReturned EndDisconnect
    else if Type_ request =? NBDCmdFlush then HReturned EndFlush
    else if Type_ request =? NBDCmdRead then
      HStart (CmdRead (Handle_ request) (From_ request) (Length_ request)) buf (rp + header_size)
    else if Type_ request =? NBDCmdWrite then
      let rp := rp + header_size in
      if dispatchMaxWriteBufferSize <? Length_ request then HReturned (EndTooLong (Length_ request))
      else
        let data := slice buf rp (Z.min wp (rp + Length_ request)) in
        if zlength data <? Length_ request then HData request data
        else HStart (CmdWrite (Handle_ request) (From_ request) data) buf (rp + zlength data)
    else if Type_ request =? NBDCmdTrim then
      HStart (CmdTrim (Handle_ request) (From_ request) (Length_ request)) buf (rp + header_size)
    else HReturned (EndNotImplemented (Type_ request)).

(** [cmdRead], [cmdWrite] and [cmdTrim]; [fails] says that the write of a trim's
    response fails, after some bytes. *)
Definition start (t : dispatch) (c : command) (buf : list byte) (rp : Z) (fails : option nat) : res () dispatch :=
  match c with
  | CmdTrim handle _ _ =>
      let b := response_bytes (0, handle, []) in
      match fails with
      | None =>
          Ok (with_hpc (with_ops (with_out t (out t ++ b))
                (ops t ++ [mkOp c None ODone (Some (0, handle, []))]) (pendingResponses t)) (HLoop buf rp))
      | Some n => Ok (with_hpc (with_out t (out t ++ take n b)) (HReturned EndTrimResponse))
      end
  | _ =>
      match drain t with
      | Draining => Err ()                   (* the lock is held *)
      | _ =>
          if shuttingDown t then Ok (with_hpc t (HReturned EndShuttingDown))
          else Ok (with_hpc (with_ops t (ops t ++ [mkOp c None OWait None]) (pendingResponses t + 1)) (HLoop buf rp))
      end
  end.

(** The call of the provider. *)
Definition call_provider (d : D) (c : command) : D * (list byte * bool) :=
  match c with
  | CmdRead _ from length => (d, prov_ReadAt d (replicate (Z.to_nat length) x00) (i64 from))
  | CmdWrite _ from data => let '(d, ok) := prov_WriteAt d data (i64 from) in (d, ([], ok))
  | CmdTrim _ _ _ => (d, ([], true))
  end.

Inductive blabel :=
  | BRead (chunk : list byte)            (** the socket delivers bytes *)
  | BReadFails
  | BLoop (p : poll)
  | BPoll (p : poll)
  | BStart (fails : option nat)
  | BProvider (i : nat)
  | BTake (i : nat)                      (** [errchan] *)
  | BGiveUp (i : nat)                    (** the context *)
  | BRespond (i : nat) (fails : option nat)
  | BFinish (i : nat)
  | BCancel
  | BDrain                               (** [Drain] takes the lock *)
  | BDrained.

Definition nbd_step (t : dispatch) (l : blabel) : res () dispatch :=
  match l with
  | BRead chunk =>
      match hpc t with
      | HRead buf =>
          if (zlength chunk <=? dispatchBufferSize - zlength buf) then Ok (with_hpc t (HLoop (buf ++ chunk) 0)) else Err ()
      | HData req data =>
          if (zlength chunk <=? Length_ req - zlength data) then Ok (with_hpc t (HPoll req (data ++ chunk))) else Err ()
      | _ => Err ()
      end
  | BReadFails =>
      match hpc t with
      | HRead _ => Ok (with_hpc t (HReturned EndRead))
      | HData _ _ => Ok (with_hpc t (HReturned EndWriteRead))
      | _ => Err ()
      end
  | BLoop p =>
      match hpc t with
      | HLoop buf rp =>
          if negb (poll_ok t p) then Err ()
          else match p with
               | PollFatal => Ok (with_hpc (with_fatal t false) (HReturned EndFatal))
               | PollContext => Ok (with_hpc t (HReturned EndContext))
               | PollDefault => Ok (with_hpc t (process buf rp))
               end
      | _ => Err ()
      end
  | BPoll p =>
      match hpc t with
      | HPoll req data =>
          if negb (poll_ok t p) then Err ()
          else match p with
               | PollFatal => Ok (with_hpc (with_fatal t false) (HReturned EndFatal))
               | PollContext => Ok (with_hpc t (HReturned EndContext))
               | PollDefault =>
                   Ok (with_hpc t (if zlength data <? Length_ req then HData req data
                                   else HStart (CmdWrite (Handle_ req) (From_ req) data) [] 0))
               end
      | _ => Err ()
      end
  | BStart fails =>
      match hpc t with
      | HStart c buf rp => start t c buf rp fails
      | _ => Err ()
      end
  | BProvider i =>
      match ops t !! i with
      | Some (mkOp (CmdRead _ _ _ as c) None p a) | Some (mkOp (CmdWrite _ _ _ as c) None p a) =>
          let '(d, r) := call_provider (device t) c in Ok (with_op (with_device t d) i (mkOp c (Some r) p a))
      | _ => Err ()
      end
  | BTake i =>
      match ops t !! i with
      | Some (mkOp c (Some (data, ok)) OWait a) =>
          Ok (with_op t i (mkOp c (Some (data, ok)) (if (ok : bool) then ORespond 0 data else ORespond 1 []) a))
      | _ => Err ()
      end
  | BGiveUp i =>
      match ops t !! i with
      | Some (mkOp c r OWait a) => if ctx_done t then Ok (with_op t i (mkOp c r (ORespond 1 []) a)) else Err ()
      | _ => Err ()
      end
  | BRespond i fails =>
      match ops t !! i with
      | Some (mkOp c r (ORespond error data) a) =>
          let b := response_bytes (error, handle_of c, data) in
          match fails with
          | None => Ok (with_op (with_out t (out t ++ b)) i (mkOp c r (OFinish false) (Some (error, handle_of c, data))))
          | Some n => Ok (with_op (with_out t (out t ++ take n b)) i (mkOp c r (OFinish true) a))
          end
      | _ => Err ()
      end
  | BFinish i =>
      match ops t !! i with
      | Some (mkOp c r (OFinish failed) a) =>
          let t := with_fatal t (fatal t || failed) in
          if pendingResponses t - 1 <? 0 then Panic
          else Ok (with_ops t (<[i := mkOp c r ODone a]> (ops t)) (pendingResponses t - 1))
      | _ => Err ()
      end
  | BCancel => Ok (mkDispatch (device t) (hpc t) (ops t) (out t) (fatal t) (pendingResponses t) (shuttingDown t) (drain t) true)
  | BDrain => match drain t with Draining => Err () | _ => Ok (with_drain t true Draining) end
  | BDrained =>
      match drain t with
      | Draining => if pendingResponses t =? 0 then Ok (with_drain t (shuttingDown t) Drained) else Err ()
      | _ => Err ()
      end
  end.
Fixpoint nbd_run (t : dispatch) (ls : list blabel) : res () dispatch :=
  match ls with
  | [] => Ok t
  | l :: ls => t ← nbd_step t l; nbd_run t ls
  end.
End nbd.
Arguments dispatch D : clear implicits.

(** ** The reference parser

    [parse1] reads one command from the front of a byte string; [parses] reads as many
    as there are.  It knows nothing of buffers and pieces. *)
Inductive parsed := PNeed | PCmd (c : command) (n : Z) | PEnd (e : handle_end).
Definition parse1 (bs : list byte) : parsed :=
  if zlength bs <? header_size then PNeed
  else
    let req := parse_header (slice bs 0 header_size) in
    if negb (Magic req =? NBDRequestMagic) then PEnd EndMagic
    else if Type_ req =? NBDCmdRead then PCmd (CmdRead (Handle_ req) (From_ req) (Length_ req)) header_size
    else if Type_ req =? NBDCmdTrim then PCmd (CmdTrim (Handle_ req) (From_ req) (Length_ req)) header_size
    else if Type_ req =? NBDCmdWrite then
      if dispatchMaxWriteBufferSize <? Length_ req then PEnd (EndTooLong (Length_ req))
      else if zlength bs <? header_size + Length_ req then PNeed
      else PCmd (CmdWrite (Handle_ req) (From_ req) (slice bs header_size (header_size + Length_ req))) (header_size + Length_ req)
    else if Type_ req =? NBDCmdDisconnect then PEnd EndDisconnect
    else if Type_ req =? NBDCmdFlush then PEnd EndFlush
    else PEnd (EndNotImplemented (Type_ req)).
Inductive parses : list byte → list command → list byte → Prop :=
  | parses_nil bs : parses bs [] bs
  | parses_cons bs c n cs rest :
      parse1 bs = PCmd c n → parses (drop (Z.to_nat n) bs) cs rest → parses bs (c :: cs) rest.

Lemma be_decode_range bs : 0 ≤ be_decode bs < 256 ^ Z.of_nat (length bs).
Proof. unfold be_decode. rewrite <- (length_rev bs). apply le_decode_range. Qed.
Lemma be_decode_encode n z : be_decode (be_encode n z) = z mod 256 ^ Z.of_nat n.
Proof. unfold be_decode, be_encode. rewrite rev_involutive. apply le_decode_encode. Qed.

Lemma slice_app_l {A} (l k : list A) lo hi : 0 ≤ lo → hi ≤ zlength l → slice (l ++ k) lo hi = slice l lo hi.
Proof.
  unfold slice, zlength. intros. destruct (decide (hi <= lo)).
  - replace (Z.to_nat (hi - lo)) with 0%nat by lia. done.
  - rewrite drop_app_le by lia. rewrite take_app_le; [done|]. rewrite length_drop. lia.
Qed.

Lemma parse_header_length bs : 0 ≤ Length_ (parse_header bs).
Proof. unfold parse_header. cbn [Length_]. pose proof (be_decode_range (slice bs 24 28)). lia. Qed.

Lemma parse1_bounds bs c n : parse1 bs = PCmd c n → header_size ≤ n ≤ zlength bs.
Proof.
  unfold parse1. destruct (Z.ltb_spec (zlength bs) header_size) as [|Hl]; [done|].
  set (req := parse_header (slice bs 0 header_size)). pose proof (parse_header_length (slice bs 0 header_size)) as Hle. fold req in Hle.
  destruct (negb _); [done|]. destruct (_ =? _); [intros [= _ <-]; lia|]. destruct (_ =? _); [intros [= _ <-]; lia|].
  destruct (_ =? _); [|destruct (_ =? _); [done|]; by destruct (_ =? _)].
  destruct (_ <? _); [done|]. destruct (Z.ltb_spec (zlength bs) (header_size + Length_ req)); [done|]. intros E. assert (n = header_size + Length_ req) as -> by congruence. lia.
Qed.

(** What has been parsed does not change when more bytes arrive. *)
Lemma parse1_app bs x : parse1 bs ≠ PNeed → parse1 (bs ++ x) = parse1 bs.
Proof.
  unfold parse1. assert (zlength (bs ++ x) = zlength bs + zlength x) as Hx by (unfold zlength; rewrite length_app; lia).
  assert (0 ≤ zlength x) by (unfold zlength; lia).
  destruct (Z.ltb_spec (zlength bs) header_size) as [|Hl]; [done|]. destruct (Z.ltb_spec (zlength (bs ++ x)) header_size); [lia|].
  rewrite slice_app_l by (unfold header_size in *; lia). set (req := parse_header (slice bs 0 header_size)).
  destruct (negb _); [done|]. destruct (_ =? _); [done|]. destruct (_ =? _); [done|]. destruct (_ =? _); [|done].
  destruct (_ <? _); [done|]. destruct (Z.ltb_spec (zlength bs) (header_size + Length_ req)); [done|]. intros _.
  destruct (Z.ltb_spec (zlength (bs ++ x)) (header_size + Length_ req)); [lia|]. rewrite slice_app_l; [done|done|lia].
Qed.
Lemma parses_app bs cs rest x : parses bs cs rest → parses (bs ++ x) cs (rest ++ x).
Proof.
  induction 1 as [|bs c n cs rest Hp _ IH]; [constructor|]. pose proof (parse1_bounds _ _ _ Hp) as Hb.
  apply (parses_cons _ c n); [by rewrite parse1_app, Hp by (by rewrite Hp)|].
  unfold zlength in Hb. by rewrite drop_app_le by lia.
Qed.
Lemma parses_snoc bs cs rest c n : parses bs cs rest → parse1 rest = PCmd c n → parses bs (cs ++ [c]) (drop (Z.to_nat n) rest).
Proof. induction 1 as [bs|bs c' n' cs rest Hp _ IH]; intros Hc; simpl; [|econstructor; eauto]. econstructor; [done|constructor]. Qed.

(** A run of the inner loop does what the parser does. *)
Definition starts_write (bs : list byte) (req : Request) : Prop :=
  Magic req = NBDRequestMagic ∧ Type_ req = NBDCmdWrite ∧ Length_ req ≤ dispatchMaxWriteBufferSize ∧
  header_size ≤ zlength bs ∧ req = parse_header (slice bs 0 header_size).
Lemma slice_drop {A} (l : list A) rp lo hi : 0 ≤ rp → 0 ≤ lo → slice l (rp + lo) (rp + hi) = slice (drop (Z.to_nat rp) l) lo hi.
Proof. intros. unfold slice. rewrite drop_drop. f_equal; [lia|]. f_equal. lia. Qed.
Lemma zlength_drop {A} (l : list A) rp : 0 ≤ rp ≤ zlength l → zlength (drop (Z.to_nat rp) l) = zlength l - rp.
Proof. unfold zlength. intros. rewrite length_drop. lia. Qed.

Lemma process_parse buf rp : 0 ≤ rp ≤ zlength buf →
  let rest := drop (Z.to_nat rp) buf in
  match parse1 rest with
  | PNeed =>
      process buf rp = HRead rest ∧ zlength rest < header_size ∨
      ∃ req, starts_write rest req ∧ zlength rest < header_size + Length_ req ∧
        process buf rp = HData req (drop (Z.to_nat header_size) rest)
  | PCmd c n => process buf rp = HStart c buf (rp + n)
  | PEnd e => process buf rp = HReturned e
  end.
Proof.
  intros Hrp rest. assert (zlength rest = zlength buf - rp) as Hr by by apply zlength_drop.
  unfold parse1, process. rewrite <- Hr.
  destruct (Z.ltb_spec (zlength rest) header_size) as [Hlt|Hge].
  { left. split; [|done]. f_equal. unfold slice. rewrite take_ge; [done|]. rewrite length_drop. unfold zlength in *. lia. }
  assert (slice buf rp (rp + header_size) = slice rest 0 header_size) as ->.
  { unfold rest. rewrite <- slice_drop by lia. by rewrite Z.add_0_r. }
  set (req := parse_header (slice rest 0 header_size)).
  pose proof (parse_header_length (slice rest 0 header_size)) as Hle. fold req in Hle.
  destruct (Z.eqb_spec (Magic req) NBDRequestMagic) as [Hm|]; cbn [negb]; [|done].
  destruct (Z.eqb_spec (Type_ req) NBDCmdRead) as [->|]; [done|]. destruct (Z.eqb_spec (Type_ req) NBDCmdTrim) as [->|]; [done|].
  destruct (Z.eqb_spec (Type_ req) NBDCmdWrite) as [Ew|].
  2: { destruct (Z.eqb_spec (Type_ req) NBDCmdDisconnect); [done|]. by destruct (Z.eqb_spec (Type_ req) NBDCmdFlush). }
  rewrite Ew. change (NBDCmdWrite =? NBDCmdDisconnect) with false. change (NBDCmdWrite =? NBDCmdFlush) with false.
  cbn [andb]. cbv iota.
  destruct (Z.ltb_spec dispatchMaxWriteBufferSize (Length_ req)); [done|].
  assert (0 ≤ header_size) by done.
  set (data := slice buf (rp + header_size) (Z.min (zlength buf) (rp + header_size + Length_ req))).
  assert (data = slice rest header_size (Z.min (zlength rest) (header_size + Length_ req))) as Hd.
  { unfold data. rewrite <- (slice_drop buf rp) by lia. f_equal. lia. }
  assert (zlength data = Z.min (zlength rest) (header_size + Length_ req) - header_size) as Hdl by (rewrite Hd, slice_length; lia).
  destruct (Z.ltb_spec (zlength rest) (header_size + Length_ req)) as [Hs|Hs].
  - right. exists req. rewrite Hdl. destruct (Z.ltb_spec (Z.min (zlength rest) (header_size + Length_ req) - header_size) (Length_ req)); [|lia].
    split_and!; [done..|]. f_equal. rewrite Hd, Z.min_l by lia. unfold slice. apply take_ge. rewrite length_drop. unfold zlength in *. lia.
  - rewrite Hdl. destruct (Z.ltb_spec (Z.min (zlength rest) (header_size + Length_ req) - header_size) (Length_ req)); [lia|].
    rewrite Hd, Z.min_r by lia. f_equal. lia.
Qed.

(** ** Invariants *)
Definition protocol_end (e : handle_end) : bool :=
  match e with EndDisconnect | EndMagic | EndFlush | EndTooLong _ | EndNotImplemented _ => true | _ => false end.
Definition is_done (o : op) : bool := match opc o with ODone => true | _ => false end.
Definition received (ls : list blabel) : list byte :=
  concat ((λ l, match l with BRead chunk => chunk | _ => [] end) <$> ls).

Lemma write_complete h data req : zlength h = header_size → starts_write (h ++ data) req → zlength data = Length_ req →
  parse1 (h ++ data) = PCmd (CmdWrite (Handle_ req) (From_ req) data) (header_size + Length_ req).
Proof.
  intros Hh (Hm & Hty & Hmax & Hlen & Hreq) Hd. unfold parse1. rewrite <- Hreq, Hm, Hty.
  assert (zlength (h ++ data) = header_size + Length_ req) as Hl by (unfold zlength in *; rewrite length_app; lia).
  rewrite Hl in *. destruct (Z.ltb_spec (header_size + Length_ req) header_size); [lia|].
  change (negb (NBDRequestMagic =? NBDRequestMagic)) with false. change (NBDCmdWrite =? NBDCmdRead) with false.
  change (NBDCmdWrite =? NBDCmdTrim) with false. change (NBDCmdWrite =? NBDCmdWrite) with true. cbv iota.
  destruct (Z.ltb_spec dispatchMaxWriteBufferSize (Length_ req)); [lia|]. rewrite Z.ltb_irrefl. do 2 f_equal.
  unfold slice. unfold zlength in *. rewrite drop_app_ge by lia. replace (Z.to_nat header_size - length h)%nat with 0%nat by lia.
  rewrite drop_0. apply take_ge. lia.
Qed.
Lemma write_incomplete bs req : starts_write bs req → zlength bs < header_size + Length_ req → parse1 bs = PNeed.
Proof.
  intros (Hm & Hty & Hmax & Hlen & Hreq) Hd. unfold parse1. rewrite <- Hreq, Hm, Hty.
  destruct (Z.ltb_spec (zlength bs) header_size); [done|].
  change (negb (NBDRequestMagic =? NBDRequestMagic)) with false. change (NBDCmdWrite =? NBDCmdRead) with false.
  change (NBDCmdWrite =? NBDCmdTrim) with false. change (NBDCmdWrite =? NBDCmdWrite) with true. cbv iota.
  destruct (Z.ltb_spec dispatchMaxWriteBufferSize (Length_ req)); [lia|].
  by destruct (Z.ltb_spec (zlength bs) (header_size + Length_ req)); [|lia].
Qed.
Lemma starts_write_app bs x req : starts_write bs req → starts_write (bs ++ x) req.
Proof.
  intros (? & ? & ? & Hlen & ->). split_and!; try done; [unfold zlength in *; rewrite length_app; lia|].
  by rewrite slice_app_l by done.
Qed.

Section laws.
Context {D : Type} `{ProviderLaws D}.
Implicit Types t : dispatch D.

Definition pc_parse (p : handle_pc) (rest : list byte) : Prop :=
  match p with
  | HRead buf => rest = buf ∧ zlength buf < header_size
  | HLoop buf rp => 0 ≤ rp ≤ zlength buf ∧ rest = drop (Z.to_nat rp) buf
  | HData req data =>
      ∃ h, zlength h = header_size ∧ rest = h ++ data ∧ starts_write rest req ∧ zlength data < Length_ req
  | HPoll req data =>
      ∃ h, zlength h = header_size ∧ rest = h ++ data ∧ starts_write rest req ∧ zlength data ≤ Length_ req
  | HStart c buf rp =>
      ∃ n, parse1 rest = PCmd c n ∧ 0 ≤ rp ≤ zlength buf ∧ drop (Z.to_nat n) rest = drop (Z.to_nat rp) buf
  | HReturned e => protocol_end e = true → parse1 rest = PEnd e
  end.
Definition inv_parse (input : list byte) t : Prop :=
  ∃ rest, parses input (ocmd <$> ops t) rest ∧ pc_parse (hpc t) rest.

Record inv_pending t : Prop := {
  ip_count : pendingResponses t = Z.of_nat (count_if (λ o, negb (is_done o)) (ops t));
  ip_down : shuttingDown t = match drain t with NotDraining => false | _ => true end;
  ip_drained : drain t = Drained → pendingResponses t = 0;
}.

Lemma process_ok buf rp : 0 ≤ rp ≤ zlength buf → pc_parse (process buf rp) (drop (Z.to_nat rp) buf).
Proof.
  intros Hrp. pose proof (process_parse buf rp Hrp) as Hp. simpl in Hp. set (rest := drop (Z.to_nat rp) buf) in *.
  destruct (parse1 rest) as [|c n|e] eqn:E.
  - destruct Hp as [[-> ?]|(req & Hw & Hlt & ->)]; [done|]. pose proof Hw as (_ & _ & _ & Hl & _).
    exists (take (Z.to_nat header_size) rest). assert (0 ≤ header_size) by done. split_and!; [|by rewrite take_drop|done|].
    + unfold zlength in *. rewrite length_take. lia.
    + rewrite zlength_drop by lia. lia.
  - rewrite Hp. exists n. pose proof (parse1_bounds _ _ _ E) as Hb. assert (0 ≤ header_size) by done.
    assert (zlength rest = zlength buf - rp) by by apply zlength_drop. split_and!; [done|lia|lia|].
    unfold rest. rewrite drop_drop. f_equal. lia.
  - rewrite Hp. intros _. exact E.
Qed.

(** Only the handler and the operations that were started matter. *)
Lemma inv_parse_same input t t' : inv_parse input t → hpc t' = hpc t → ocmd <$> ops t' = ocmd <$> ops t → inv_parse input t'.
Proof. unfold inv_parse. by intros ? -> ->. Qed.
Lemma with_op_cmds t i o o' : ops t !! i = Some o → ocmd o' = ocmd o → ocmd <$> <[i := o']> (ops t) = ocmd <$> ops t.
Proof. intros Hi Hc. rewrite list_fmap_insert, Hc. apply list_insert_id. by rewrite list_lookup_fmap, Hi. Qed.

Lemma start_parse input t c buf rp fails t' : inv_parse input t → hpc t = HStart c buf rp → start t c buf rp fails = Ok t' →
  inv_parse input t'.
Proof.
  intros (rest & Hp & Hpc) Hh Hs. rewrite Hh in Hpc. destruct Hpc as (n & Hn & Hrp & Hd).
  assert (∀ o, ocmd o = c → inv_parse input (with_hpc (with_ops t (ops t ++ [o]) (pendingResponses t)) (HLoop buf rp))) as Hgo.
  { intros o Ho. exists (drop (Z.to_nat n) rest). split; [|done]. simpl. rewrite fmap_app. simpl. rewrite Ho. by apply parses_snoc. }
  unfold start in Hs. destruct c as [h f l|h f data|h f l].
  - destruct (drain t); try done; (destruct (shuttingDown t); injection Hs as <-; [exists rest; split; done|]);
      (eapply inv_parse_same; [exact (Hgo (mkOp (CmdRead h f l) None OWait None) eq_refl)|done..]).
  - destruct (drain t); try done; (destruct (shuttingDown t); injection Hs as <-; [exists rest; split; done|]);
      (eapply inv_parse_same; [exact (Hgo (mkOp (CmdWrite h f data) None OWait None) eq_refl)|done..]).
  - destruct fails as [k|]; injection Hs as <-; [exists rest; split; done|].
    eapply inv_parse_same; [exact (Hgo (mkOp (CmdTrim h f l) None ODone (Some (0, h, []))) eq_refl)|done..].
Qed.

Lemma nbd_step_parse input t l t' : inv_parse input t → nbd_step t l = Ok t' →
  inv_parse (input ++ match l with BRead chunk => chunk | _ => [] end) t'.
Proof.
  intros Hinv Hs. pose proof Hinv as (rest & Hp & Hpc).
  destruct l as [chunk| |p|p|fails|i|i|i|i fails|i| | |]; simpl in Hs; rewrite ?app_nil_r.
  - destruct (hpc t) as [buf| |req data| | |] eqn:Eh; try done.
    + destruct (zlength chunk <=? _); [|done]. injection Hs as <-. destruct Hpc as [-> _].
      exists (buf ++ chunk). split; [by apply parses_app|]. simpl. split; [|done]. unfold zlength. lia.
    + destruct (Z.leb_spec (zlength chunk) (Length_ req - zlength data)); [|done]. injection Hs as <-.
      destruct Hpc as (h & Hh & -> & Hw & Hlt). exists ((h ++ data) ++ chunk). split; [by apply parses_app|].
      exists h. split_and!; [done|by rewrite app_assoc|by apply starts_write_app|].
      unfold zlength in *. rewrite length_app. lia.
  - destruct (hpc t) eqn:Eh; try done; injection Hs as <-; exists rest; by split.
  - destruct (hpc t) as [|buf rp| | | |] eqn:Eh; try done. destruct (negb _); [done|].
    destruct p; injection Hs as <-; exists rest; (split; [done|]); [done..|]. simpl. destruct Hpc as [Hrp ->]. by apply process_ok.
  - destruct (hpc t) as [| | |req data| |] eqn:Eh; try done. destruct (negb _); [done|].
    destruct p; injection Hs as <-; exists rest; (split; [done|]); [done..|]. destruct Hpc as (h & Hh & -> & Hw & Hle). simpl.
    destruct (Z.ltb_spec (zlength data) (Length_ req)); [by exists h|].
    exists (header_size + Length_ req). split; [apply write_complete; [done|done|lia]|]. split; [done|].
    rewrite drop_nil. apply drop_ge. unfold zlength in *. rewrite length_app. lia.
  - destruct (hpc t) as [| | | |c buf rp|] eqn:Eh; try done. by eapply start_parse.
  - destruct (ops t !! i) as [[c [r|] p a]|] eqn:Ei; [by destruct c|destruct c|done]; [..|done].
    all: destruct (call_provider _ _) as [d r]; injection Hs as <-;
      (eapply inv_parse_same; [done|done|]); by apply (with_op_cmds t i _ _ Ei).
  - destruct (ops t !! i) as [[c [[data ok]|] [] a]|] eqn:Ei; try done. injection Hs as <-.
    eapply inv_parse_same; [done|done|]. by apply (with_op_cmds t i _ _ Ei).
  - destruct (ops t !! i) as [[c r [] a]|] eqn:Ei; try done. destruct (ctx_done t); [|done]. injection Hs as <-.
    eapply inv_parse_same; [done|done|]. by apply (with_op_cmds t i _ _ Ei).
  - destruct (ops t !! i) as [[c r [|er data| |] a]|] eqn:Ei; try done. destruct fails; injection Hs as <-;
      (eapply inv_parse_same; [done|done|]; by apply (with_op_cmds t i _ _ Ei)).
  - destruct (ops t !! i) as [[c r [| |failed|] a]|] eqn:Ei; try done. simpl in Hs. destruct (_ <? 0); [done|]. injection Hs as <-.
    eapply inv_parse_same; [done|done|]. by apply (with_op_cmds t i _ _ Ei).
  - injection Hs as <-. by eapply inv_parse_same.
  - destruct (drain t); try done; injection Hs as <-; by eapply inv_parse_same.
  - destruct (drain t); try done. destruct (_ =? _); [|done]. injection Hs as <-; by eapply inv_parse_same.
Qed.

Lemma nbd_step_pending t l : inv_pending t →
  match nbd_step t l with Ok t' => inv_pending t' | Err _ => True | Panic => False end.
Proof.
  intros Hi. pose proof Hi as [Hc Hdn Hdr].
  assert (∀ t', pendingResponses t' = pendingResponses t → shuttingDown t' = shuttingDown t → drain t' = drain t →
    count_if (λ o, negb (is_done o)) (ops t') = count_if (λ o, negb (is_done o)) (ops t) → inv_pending t') as Hsame.
  { intros t' E1 E2 E3 E4. split; rewrite ?E1, ?E2, ?E3, ?E4; done. }
  assert (∀ i o o', ops t !! i = Some o → is_done o' = is_done o →
    count_if (λ o, negb (is_done o)) (<[i := o']> (ops t)) = count_if (λ o, negb (is_done o)) (ops t)) as Hop.
  { intros i o o' Ho E. pose proof (count_if_insert (λ o, negb (is_done o)) (ops t) i o o' Ho) as Hx. simpl in Hx. rewrite E in Hx. lia. }
  destruct l as [chunk| |p|p|fails|i|i|i|i fails|i| | |]; simpl.
  - destruct (hpc t); try done; destruct (_ <=? _); done || by apply Hsame.
  - destruct (hpc t); try done; by apply Hsame.
  - destruct (hpc t); try done. destruct (negb _); [done|]. destruct p; by apply Hsame.
  - destruct (hpc t); try done. destruct (negb _); [done|]. destruct p; by apply Hsame.
  - destruct (hpc t) as [| | | |c buf rp|]; try done. unfold start.
    assert (∀ o, is_done o = false → drain t ≠ Drained →
      inv_pending (with_hpc (with_ops t (ops t ++ [o]) (pendingResponses t + 1)) (HLoop buf rp))) as Hnew.
    { intros o Ho Hnd. split; simpl; [|done|by intros ?%Hnd]. rewrite count_if_snoc, Ho, Hc. simpl. lia. }
    destruct c as [h f len|h f data|h f len]; rewrite ?Hdn.
    + destruct (drain t) eqn:Ed; [by apply Hnew|done|by apply Hsame].
    + destruct (drain t) eqn:Ed; [by apply Hnew|done|by apply Hsame].
    + destruct fails; apply Hsame; try done. simpl. rewrite count_if_snoc. simpl. lia.
  - destruct (ops t !! i) as [[c [r|] p a]|] eqn:Ei; [by destruct c|destruct c|done]; [..|done].
    all: destruct (call_provider _ _) as [d r]; apply Hsame; try done; by apply (Hop i _ _ Ei).
  - destruct (ops t !! i) as [[c [[data ok]|] [] a]|] eqn:Ei; try done. apply Hsame; try done. eapply Hop; [done|]. by destruct ok.
  - destruct (ops t !! i) as [[c r [] a]|] eqn:Ei; try done. destruct (ctx_done t); [|done]. apply Hsame; try done. by apply (Hop i _ _ Ei).
  - destruct (ops t !! i) as [[c r [|er data| |] a]|] eqn:Ei; try done. destruct fails; apply Hsame; try done; by apply (Hop i _ _ Ei).
  - destruct (ops t !! i) as [[c r [| |failed|] a]|] eqn:Ei; try done. simpl.
    pose proof (count_if_insert (λ o, negb (is_done o)) (ops t) i _ (mkOp c r ODone a) Ei) as Hx. simpl in Hx.
    pose proof (count_if_pos (λ o, negb (is_done o)) (ops t) i _ Ei eq_refl).
    destruct (Z.ltb_spec (pendingResponses t - 1) 0); [lia|]. split; simpl; [lia|done|]. intros Hd. apply Hdr in Hd. lia.
  - by apply Hsame.
  - destruct (drain t) eqn:Ed; [|done|]; by split.
  - destruct (drain t) eqn:Ed; [done| |done]. destruct (Z.eqb_spec (pendingResponses t) 0); [|done]. split; simpl; done.
Qed.

Lemma nbd_run_inv ls : ∀ input t, inv_parse input t → inv_pending t →
  match nbd_run t ls with Ok t' => inv_parse (input ++ received ls) t' ∧ inv_pending t' | Err _ => True | Panic => False end.
Proof.
  induction ls as [|l ls IH]; intros input t Hp Hi; simpl; [unfold received; simpl; by rewrite app_nil_r|].
  pose proof (nbd_step_pending t l Hi) as Hi'. destruct (nbd_step t l) as [t'|?|] eqn:E; [|done..]. simpl.
  pose proof (IH _ t' (nbd_step_parse _ _ _ _ Hp E) Hi') as Hr. by rewrite <- app_assoc in Hr.
Qed.
Lemma NewDispatch_parse d : inv_parse [] (NewDispatch d).
Proof. exists []. split; [constructor|]. split; [done|]. done. Qed.
Lemma NewDispatch_pending d : inv_pending (NewDispatch d).
Proof. by split. Qed.

(** ** Answers *)
Definition good_answer (c : command) (error : Z) (data : list byte) : Prop :=
  error = 1 ∧ data = [] ∨ error = 0 ∧ zlength data = match c with CmdRead _ _ length => Z.max 0 length | _ => 0 end.
Definition op_ok (o : op) : Prop :=
  (∀ data, prov o = Some (data, true) → good_answer (ocmd o) 0 data) ∧
  match opc o with
  | OWait => answer o = None
  | ORespond error data => answer o = None ∧ good_answer (ocmd o) error data
  | OFinish failed => failed = false ∧ ∃ error data, answer o = Some (error, handle_of (ocmd o), data) ∧ good_answer (ocmd o) error data
  | ODone => ∃ error data, answer o = Some (error, handle_of (ocmd o), data) ∧ good_answer (ocmd o) error data
  end.
Definition inv_answers t : Prop :=
  Forall op_ok (ops t) ∧ ∃ rs, out t = concat (response_bytes <$> rs) ∧ rs ≡ₚ omap answer (ops t).
(** The writes of responses succeed. *)
Definition writes_ok (l : blabel) : Prop := match l with BStart f | BRespond _ f => f = None | _ => True end.

Lemma list_omap_insert {A B} (f : A → option B) (l : list A) (i : nat) x y : l !! i = Some x → f y = f x → omap f (<[i := y]> l) = omap f l.
Proof.
  revert i. induction l as [|z l IH]; intros i Hi E; [done|]. destruct i as [|i]; simplify_eq/=; [by rewrite E|].
  by rewrite (IH i).
Qed.
Lemma list_omap_insert_new {A B} (f : A → option B) (l : list A) (i : nat) x y b : l !! i = Some x → f x = None → f y = Some b →
  omap f (<[i := y]> l) ≡ₚ omap f l ++ [b].
Proof.
  revert i. induction l as [|z l IH]; intros i Hi Ex Ey; [done|]. destruct i as [|i]; simplify_eq/=.
  - rewrite Ex, Ey. by rewrite Permutation_app_comm.
  - destruct (f z); simpl; by rewrite (IH i).
Qed.

Lemma inv_answers_same t t' : inv_answers t → ops t' = ops t → out t' = out t → inv_answers t'.
Proof. unfold inv_answers. by intros ? -> ->. Qed.
Lemma inv_answers_op t t' i o o' : inv_answers t → ops t !! i = Some o → ops t' = <[i := o']> (ops t) → out t' = out t →
  answer o' = answer o → op_ok o' → inv_answers t'.
Proof.
  intros [Ho (rs & Hout & Hrs)] Hi E1 E2 Ha Hok. split; [rewrite E1; by apply Forall_insert|].
  exists rs. rewrite E2. split; [done|]. rewrite E1. by rewrite (list_omap_insert answer _ i o).
Qed.
Lemma concat_snoc {A B} (f : A → list B) l x : concat (f <$> (l ++ [x])) = concat (f <$> l) ++ f x.
Proof. rewrite fmap_app, concat_app. simpl. by rewrite app_nil_r. Qed.

Lemma call_provider_good d c : good_answer c 0 (call_provider d c).2.1.
Proof.
  right. split; [done|]. destruct c as [h f l|h f data|h f l]; simpl.
  - unfold zlength. rewrite prov_ReadAt_length, length_replicate. lia.
  - by destruct (prov_WriteAt d data (i64 f)).
  - done.
Qed.

Lemma nbd_step_answers t l t' : inv_answers t → writes_ok l → nbd_step t l = Ok t' → inv_answers t'.
Proof.
  intros Ha Hl Hs. pose proof Ha as [Hops (rs & Hout & Hrs)].
  assert (∀ i o, ops t !! i = Some o → op_ok o) as Hok by (intros i o Hi; by eapply Forall_lookup_1).
  assert (∀ b p, inv_answers (with_hpc (with_fatal t b) p)) as Hf by (intros; by eapply inv_answers_same).
  destruct l as [chunk| |p|p|fails|i|i|i|i fails|i| | |]; simpl in Hs, Hl; subst.
  - destruct (hpc t); try done; destruct (_ <=? _); try done; injection Hs as <-; by eapply inv_answers_same.
  - destruct (hpc t); try done; injection Hs as <-; by eapply inv_answers_same.
  - destruct (hpc t); try done. destruct (negb _); [done|]. destruct p; injection Hs as <-; [apply Hf|by eapply inv_answers_same..].
  - destruct (hpc t); try done. destruct (negb _); [done|]. destruct p; injection Hs as <-; [apply Hf|by eapply inv_answers_same..].
  - destruct (hpc t) as [| | | |c buf rp|]; try done. unfold start in Hs.
    assert (∀ c n, inv_answers (with_hpc (with_ops t (ops t ++ [mkOp c None OWait None]) n) (HLoop buf rp))) as Hnew.
    { intros c' n. split; simpl; [apply Forall_app; split; [done|]; by apply Forall_singleton|]. exists rs. split; [done|].
      by rewrite omap_app, app_nil_r. }
    destruct c as [h f len|h f data|h f len].
    + destruct (drain t); try done; destruct (shuttingDown t); injection Hs as <-; apply Hnew || by eapply inv_answers_same.
    + destruct (drain t); try done; destruct (shuttingDown t); injection Hs as <-; apply Hnew || by eapply inv_answers_same.
    + injection Hs as <-. split; simpl.
      * apply Forall_app. split; [done|]. apply Forall_singleton. split; [done|]. exists 0, []. split; [done|]. by right.
      * exists (rs ++ [(0, h, [])]). rewrite concat_snoc, <- Hout. split; [done|]. rewrite omap_app. simpl. by rewrite Hrs.
  - assert (∀ c p a, ops t !! i = Some (mkOp c None p a) → ∀ d r, call_provider (device t) c = (d, r) →
      inv_answers (with_op (with_device t d) i (mkOp c (Some r) p a))) as Hp.
    { intros c p a Hi d r E. eapply (inv_answers_op t); [done..|]. pose proof (Hok i _ Hi) as [_ Ho]. split; [|done].
      simpl. intros data [= ->]. pose proof (call_provider_good (device t) c) as Hg. by rewrite E in Hg. }
    destruct (ops t !! i) as [[c [r|] p a]|] eqn:Ei; [by destruct c|destruct c|done]; [..|done].
    all: destruct (call_provider _ _) as [d r] eqn:E; injection Hs as <-; by eapply Hp.
  - destruct (ops t !! i) as [[c [[data ok]|] [] a]|] eqn:Ei; try done. injection Hs as <-. pose proof (Hok i _ Ei) as [Hpr Hno].
    eapply (inv_answers_op t); [done..|]. split; [done|]. simpl in *. destruct ok; split; try done; [by apply Hpr|by left].
  - destruct (ops t !! i) as [[c r [] a]|] eqn:Ei; try done. destruct (ctx_done t); [|done]. injection Hs as <-.
    pose proof (Hok i _ Ei) as [Hpr Hno]. eapply (inv_answers_op t); [done..|]. split; [done|]. split; [done|]. by left.
  - destruct (ops t !! i) as [[c r [|er data| |] a]|] eqn:Ei; try done. injection Hs as <-.
    pose proof (Hok i _ Ei) as [Hpr [Hno Hg]]. simpl in Hno, Hg. split; simpl.
    + apply Forall_insert; [done|]. split; [done|]. split; [done|]. by exists er, data.
    + exists (rs ++ [(er, handle_of c, data)]). rewrite concat_snoc, <- Hout. split; [done|]. rewrite Hrs. symmetry.
      by apply (list_omap_insert_new answer _ i _ _ _ Ei).
  - destruct (ops t !! i) as [[c r [| |failed|] a]|] eqn:Ei; try done. simpl in Hs. destruct (_ <? 0); [done|]. injection Hs as <-.
    pose proof (Hok i _ Ei) as [Hpr [_ Hg]]. eapply (inv_answers_op t); [done..|]. by split.
  - injection Hs as <-. by eapply inv_answers_same.
  - destruct (drain t); try done; injection Hs as <-; by eapply inv_answers_same.
  - destruct (drain t); try done. destruct (_ =? _); [|done]. injection Hs as <-; by eapply inv_answers_same.
Qed.
Lemma nbd_run_answers ls : ∀ t t', inv_answers t → Forall writes_ok ls → nbd_run t ls = Ok t' → inv_answers t'.
Proof.
  induction ls as [|l ls IH]; intros t t' Ha Hl Hr; simpl in Hr; [by injection Hr as <-|]. apply Forall_cons in Hl as [Hl Hls].
  destruct (nbd_step t l) as [t1|?|] eqn:E; [|done..]. simpl in Hr. apply (IH t1); try done. by eapply nbd_step_answers.
Qed.
Lemma NewDispatch_answers d : inv_answers (NewDispatch d).
Proof. split; [by constructor|]. by exists []. Qed.

(** C22: [Handle] is the reference parser.  However the socket cuts the stream into
    pieces and however the answers interleave, the requests that were started are the
    ones the parser reads from the bytes received so far, in their order and with
    their data; when the handler waits for the socket the parser has nothing more to
    read, and when it returns because of what it received the parser says so. *)
Theorem Handle_parses_stream (d : D) (ls : list blabel) :
  match nbd_run (NewDispatch d) ls with
  | Ok t =>
      ∃ rest, parses (received ls) (ocmd <$> ops t) rest ∧
        match hpc t with
        | HRead buf => parse1 rest = PNeed ∧ rest = buf
        | HData _ _ => parse1 rest = PNeed
        | HStart c _ _ => ∃ n, parse1 rest = PCmd c n
        | HReturned e => protocol_end e = true → parse1 rest = PEnd e
        | _ => True
        end
  | Err _ => True
  | Panic => False
  end.
Proof.
  pose proof (nbd_run_inv ls [] _ (NewDispatch_parse d) (NewDispatch_pending d)) as Hr.
  destruct (nbd_run (NewDispatch d) ls) as [t|?|]; [|done..]. destruct Hr as [(rest & Hp & Hpc) _].
  exists rest. split; [exact Hp|]. destruct (hpc t) as [buf|buf rp|req data|req data|c buf rp|e]; try done.
  - destruct Hpc as [-> Hl]. split; [|done]. unfold parse1. by destruct (Z.ltb_spec (zlength buf) header_size); [|lia].
  - destruct Hpc as (h & Hh & -> & Hw & Hlt). eapply write_incomplete; [done|]. unfold zlength in *. rewrite length_app. lia.
  - destruct Hpc as (n & Hn & _). by exists n.
Qed.

(** C23: Each request is answered exactly once, under its handle.  While the socket
    takes what is written, the bytes written are the responses of the requests that
    were answered, whole and in some order; a read that succeeds is answered with as
    many bytes as it asked for, everything else with none; and the pending counter is
    the number of requests that are under way, so that it is zero when all have been
    answered. *)
Theorem Handle_answers_once (d : D) (ls : list blabel) (t : dispatch D) :
  Forall writes_ok ls → nbd_run (NewDispatch d) ls = Ok t →
  (∃ rs, out t = concat (response_bytes <$> rs) ∧ rs ≡ₚ omap answer (ops t)) ∧
  (∀ i o, ops t !! i = Some o →
     match answer o with
     | Some (error, handle, data) => handle = handle_of (ocmd o) ∧ good_answer (ocmd o) error data
     | None => is_done o = false
     end) ∧
  pendingResponses t = Z.of_nat (count_if (λ o, negb (is_done o)) (ops t)) ∧
  (pendingResponses t = 0 → length (omap answer (ops t)) = length (ops t)).
Proof.
  intros Hl Hr. pose proof (nbd_run_answers ls _ t (NewDispatch_answers d) Hl Hr) as [Ho Hout].
  pose proof (nbd_run_inv ls [] _ (NewDispatch_parse d) (NewDispatch_pending d)) as Hi. rewrite Hr in Hi. destruct Hi as [_ [Hc _ _]].
  assert (∀ i o, ops t !! i = Some o → match answer o with
     | Some (error, handle, data) => handle = handle_of (ocmd o) ∧ good_answer (ocmd o) error data
     | None => is_done o = false end) as Hans.
  { intros i o Hi. pose proof (Forall_lookup_1 _ _ _ _ Ho Hi) as [_ Hp]. unfold is_done. destruct (opc o).
    - by rewrite Hp.
    - by destruct Hp as [-> _].
    - destruct Hp as (_ & e & x & -> & ?). done.
    - destruct Hp as (e & x & -> & ?). done. }
  split_and!; [done..|]. intros Hz. rewrite Hc in Hz. clear -Hz Hans. revert Hz Hans. generalize (ops t). intros os.
  induction os as [|o os IH]; intros Hz Hans; [done|]. pose proof (Hans 0%nat o eq_refl) as Ha. unfold count_if in *.
  rewrite filter_cons in Hz. destruct (is_done o) eqn:Ed; simpl in Hz; [|lia].
  simpl. destruct (answer o) as [a|]; [|done]. simpl. f_equal. apply IH; [done|]. intros i x Hx. by apply (Hans (S i)).
Qed.

(** ** Draining *)
Definition quiet t : Prop := shuttingDown t = true ∧ Forall (λ o, is_done o = true) (ops t).
Definition trim_response (c : command) : list byte := response_bytes (0, handle_of c, []).
(** From [t] to [t'] only trims were started and answered. *)
Definition only_trims t t' : Prop :=
  ∃ trims, ocmd <$> ops t' = (ocmd <$> ops t) ++ trims ∧ Forall (λ c, match c with CmdTrim _ _ _ => True | _ => False end) trims ∧
    out t' = out t ++ concat (trim_response <$> trims).

Lemma only_trims_refl t t' : ocmd <$> ops t' = ocmd <$> ops t → out t' = out t → only_trims t t'.
Proof. intros E1 E2. exists []. rewrite E1, E2, !app_nil_r. by split_and!. Qed.
Lemma only_trims_trans t t' t'' : only_trims t t' → only_trims t' t'' → only_trims t t''.
Proof.
  intros (c & E1 & Hc & E2) (c' & E1' & Hc' & E2'). exists (c ++ c'). rewrite E1', E1, E2', E2, fmap_app, concat_app, !app_assoc.
  split_and!; [done| |done]. by apply Forall_app.
Qed.

Lemma quiet_step t l t' : quiet t → writes_ok l → nbd_step t l = Ok t' → quiet t' ∧ only_trims t t'.
Proof.
  intros [Hdn Hq] Hl Hs.
  assert (∀ t', ops t' = ops t → out t' = out t → shuttingDown t' = true → quiet t' ∧ only_trims t t') as Hsame.
  { intros t1 E1 E2 E3. split; [by split; rewrite ?E1|]. apply only_trims_refl; by rewrite ?E1. }
  assert (∀ i o, ops t !! i = Some o → is_done o = true) as Hd by (intros i o Hi; by eapply (Forall_lookup_1 _ _ _ _ Hq)).
  destruct l as [chunk| |p|p|fails|i|i|i|i fails|i| | |]; simpl in Hs, Hl; subst.
  - destruct (hpc t); try done; destruct (_ <=? _); try done; injection Hs as <-; by apply Hsame.
  - destruct (hpc t); try done; injection Hs as <-; by apply Hsame.
  - destruct (hpc t); try done. destruct (negb _); [done|]. destruct p; injection Hs as <-; by apply Hsame.
  - destruct (hpc t); try done. destruct (negb _); [done|]. destruct p; injection Hs as <-; by apply Hsame.
  - destruct (hpc t) as [| | | |c buf rp|]; try done. unfold start in Hs. destruct c as [h f len|h f data|h f len].
    + rewrite Hdn in Hs. destruct (drain t); try done; injection Hs as <-; by apply Hsame.
    + rewrite Hdn in Hs. destruct (drain t); try done; injection Hs as <-; by apply Hsame.
    + injection Hs as <-. split; [split; [done|]; simpl; apply Forall_app; split; [done|]; by apply Forall_singleton|].
      exists [CmdTrim h f len]. split_and!; [simpl; by rewrite fmap_app|by apply Forall_singleton|].
      cbn [fmap list_fmap concat]. by rewrite app_nil_r.
  - assert (∀ c p a, ops t !! i = Some (mkOp c None p a) → ∀ d r, quiet (with_op (with_device t d) i (mkOp c (Some r) p a)) ∧
      only_trims t (with_op (with_device t d) i (mkOp c (Some r) p a))) as Hp.
    { intros c p a Hi d r. split; [split; [done|]; simpl; apply Forall_insert; [done|]; by apply (Hd i _ Hi)|].
      apply only_trims_refl; [|done]. by apply (with_op_cmds t i _ _ Hi). }
    destruct (ops t !! i) as [[c [r|] p a]|] eqn:Ei; [by destruct c|destruct c|done]; [..|done].
    all: destruct (call_provider _ _) as [d r]; injection Hs as <-; by apply Hp.
  - destruct (ops t !! i) as [[c [[data ok]|] [] a]|] eqn:Ei; try done. by specialize (Hd i _ Ei).
  - destruct (ops t !! i) as [[c r [] a]|] eqn:Ei; try done. by specialize (Hd i _ Ei).
  - destruct (ops t !! i) as [[c r [|er data| |] a]|] eqn:Ei; try done. by specialize (Hd i _ Ei).
  - destruct (ops t !! i) as [[c r [| |failed|] a]|] eqn:Ei; try done. by specialize (Hd i _ Ei).
  - injection Hs as <-. by apply Hsame.
  - destruct (drain t); try done; injection Hs as <-; by apply Hsame.
  - destruct (drain t); try done. destruct (_ =? _); [|done]. injection Hs as <-; by apply Hsame.
Qed.
Lemma quiet_run ls : ∀ t t', quiet t → Forall writes_ok ls → nbd_run t ls = Ok t' → quiet t' ∧ only_trims t t'.
Proof.
  induction ls as [|l ls IH]; intros t t' Hq Hl Hr; simpl in Hr; [injection Hr as <-; split; [done|by apply only_trims_refl]|].
  apply Forall_cons in Hl as [Hl Hls]. destruct (nbd_step t l) as [t1|?|] eqn:E; [|done..]. simpl in Hr.
  destruct (quiet_step t l t1 Hq Hl E) as [Hq1 Ht1]. destruct (IH t1 t' Hq1 Hls Hr) as [Hq2 Ht2]. split; [done|].
  by eapply only_trims_trans.
Qed.

(** When [Drain] has returned, every read and write that was started has been
    answered and none is started afterwards; only trims, which do not look at
    [shuttingDown], are still served. *)
Theorem Drain_quiesces (d : D) (ls ls' : list blabel) (t t' : dispatch D) :
  nbd_run (NewDispatch d) ls = Ok t → drain t = Drained → Forall writes_ok ls' → nbd_run t ls' = Ok t' →
  Forall (λ o, is_done o = true) (ops t) ∧ Forall (λ o, is_done o = true) (ops t') ∧ only_trims t t'.
Proof.
  intros Hr Hd Hl Hr'.
  pose proof (nbd_run_inv ls [] _ (NewDispatch_parse d) (NewDispatch_pending d)) as Hi. rewrite Hr in Hi. destruct Hi as [_ [Hc Hdn Hz]].
  specialize (Hz Hd). rewrite Hd in Hdn.
  assert (quiet t) as Hq.
  { split; [done|]. apply Forall_lookup_2. intros i o Hi. destruct (is_done o) eqn:E; [done|].
    pose proof (count_if_pos (λ o, negb (is_done o)) (ops t) i o Hi) as Hp. simpl in Hp. rewrite E in Hp. specialize (Hp eq_refl). lia. }
  split; [by destruct Hq|]. destruct (quiet_run ls' t t' Hq Hl Hr') as [[_ Hq'] Ht]. done.
Qed.
End laws.

(** ** Examples *)
#[export] Instance bytes_provider : Provider (list byte) := {
  prov_ReadAt d p off :=
    if (0 <=? off) && (off + zlength p <=? zlength d) then (slice d off (off + zlength p), true) else (p, false);
  prov_WriteAt d data off :=
    if (0 <=? off) && (off + zlength data <=? zlength d) then (splice d off data, true) else (d, false);
}.
#[export] Instance bytes_provider_laws : ProviderLaws (list byte).
Proof.
  split. intros d p off. simpl. destruct (Z.leb_spec 0 off), (Z.leb_spec (off + zlength p) (zlength d)); simpl; try done.
  pose proof (slice_length d off (off + zlength p)) as Hl. unfold zlength in *. lia.
Qed.

Definition nbd_header (ty handle from len : Z) : list byte :=
  be_encode 4 NBDRequestMagic ++ be_encode 4 ty ++ be_encode 8 handle ++ be_encode 8 from ++ be_encode 4 len.
(** A write of four bytes cut into three pieces, and a read of them. *)
Definition nbd_stream : list byte := nbd_header 1 7 4 4 ++ [x01; x02; x03; x04] ++ nbd_header 0 8 2 4.
Definition nbd_ex : list blabel :=
  [BRead (slice nbd_stream 0 20); BLoop PollDefault; BRead (slice nbd_stream 20 30); BLoop PollDefault; BRead (slice nbd_stream 30 32);
   BPoll PollDefault; BStart None; BLoop PollDefault; BProvider 0; BTake 0; BRead (slice nbd_stream 32 60); BLoop PollDefault;
   BStart None; BLoop PollDefault; BProvider 1; BTake 1; BRespond 1 None; BRespond 0 None; BFinish 0; BFinish 1; BDrain; BDrained].
Definition nbd_device : list byte := replicate 16 x00.

Lemma nbd_ex_ok : Forall writes_ok nbd_ex.
Proof. unfold nbd_ex. repeat (apply Forall_cons; split); done. Qed.

Lemma Handle_answers_once_witness :
  match nbd_run (NewDispatch nbd_device) nbd_ex with
  | Ok t => omap answer (ops t) = [(0, 7, []); (0, 8, [x00; x00; x01; x02])] ∧
            ∃ rs, out t = concat (response_bytes <$> rs) ∧ rs ≡ₚ omap answer (ops t)
  | _ => False
  end.
Proof.
  destruct (nbd_run (NewDispatch nbd_device) nbd_ex) as [t|?|] eqn:E; [|vm_compute in E; discriminate..].
  split; [vm_compute in E; injection E as <-; reflexivity|].
  exact (proj1 (Handle_answers_once nbd_device nbd_ex t nbd_ex_ok E)).
Defined.
Lemma Drain_quiesces_witness :
  match nbd_run (NewDispatch nbd_device) nbd_ex with
  | Ok t =>
      match nbd_run t [BRead (nbd_header 4 9 0 4); BLoop PollDefault; BStart None] with
      | Ok t' => only_trims t t'
      | _ => False
      end
  | _ => False
  end.
Proof.
  destruct (nbd_run (NewDispatch nbd_device) nbd_ex) as [t|?|] eqn:E; [|vm_compute in E; discriminate..].
  destruct (nbd_run t [BRead (nbd_header 4 9 0 4); BLoop PollDefault; BStart None]) as [t'|?|] eqn:E';
    [|vm_compute in E; injection E as <-; vm_compute in E'; discriminate..].
  refine (proj2 (proj2 (Drain_quiesces nbd_device nbd_ex [BRead (nbd_header 4 9 0 4); BLoop PollDefault; BStart None] t t' E _ _ E'))).
  - vm_compute in E. injection E as <-. reflexivity.
  - repeat (apply Forall_cons; split); done.
Defined.
Lemma Handle_parses_stream_witness :
  match nbd_run (NewDispatch nbd_device) nbd_ex with
  | Ok t => ∃ rest, parses nbd_stream (ocmd <$> ops t) rest ∧ rest = []
  | _ => False
  end.
Proof.
  pose proof (Handle_parses_stream nbd_device nbd_ex) as Hx.
  destruct (nbd_run (NewDispatch nbd_device) nbd_ex) as [t|?|] eqn:E; [|vm_compute in E; discriminate..].
  destruct Hx as (rest & Hp & Hpc). exists rest. split; [exact Hp|].
  assert (hpc t = HRead []) as Eh by (vm_compute in E; injection E as <-; reflexivity).
  rewrite Eh in Hpc. exact (proj2 Hpc).
Defined.
