(* ===== verification/DevicePool.v ===== *)
(** * The pool of network block devices

    packages/orchestrator/internal/sandbox/nbd [pool.go]: [DevicePool] looks for
    devices that the kernel does not use, keeps some of them ready in a channel, hands
    them out and takes them back.

    The state is the set of used slots, the channel, [Populate] and the slots that
    are handed out; a step ([vlabel]) is one critical section, one question to the
    kernel or one operation on a channel, and what the kernel answers is in the label. *)
From S2P Require Import Prelude Bitset.

(** [b.Clear(i)] of the bit sets. *)
Class BitSetClear (B : Type) := { bs_clear : B → Z → B }.
Class BitSetClearLaws (B : Type) `{BitSetOps B, BitSetClear B} : Prop := {
  bs_test_clear (b : B) i j : 0 ≤ i → 0 ≤ j → bs_test (bs_clear b i) j = negb (i =? j) && bs_test b j;
  bs_len_clear (b : B) i : 0 ≤ i → bs_len (bs_clear b i) = bs_len b;
}.
#[local] Existing Instances BoolBits.ops BoolBits.laws.
#[export] Instance bool_clear : BitSetClear (list bool) := { bs_clear b i := <[Z.to_nat i := false]> b }.
#[export] Instance bool_clear_laws : BitSetClearLaws (list bool).
Proof.
  split.
  - intros b i j Hi Hj. change (bs_test ?b ?j) with (BoolBits.test b j). unfold BoolBits.test, bs_clear. simpl.
    destruct (Z.eqb_spec i j) as [->|Hne]; simpl.
    + destruct (decide (Z.to_nat j < length b)%nat); [by rewrite list_lookup_insert_eq by done|].
      rewrite list_insert_ge by lia. by rewrite lookup_ge_None_2 by lia.
    + by rewrite list_lookup_insert_ne by lia.
  - intros b i Hi. simpl. by rewrite length_insert.
Qed.

Inductive PoolError := ErrStatPidFile | ErrSizeFile | ErrCheckDevice (e : PoolError) | NoFreeSlotsError | DeviceInUseError | ErrPoolClosed | ErrPoolContext.

Definition maxSlotsReady : Z := 64.
(** [NewDevicePool]: the capacity of the channel. *)
Definition slotsCap (maxDevices : Z) : Z := Z.min maxSlotsReady maxDevices.

(** What the kernel says of a device: the pid file, and the number in the size file. *)
Inductive stat_answer := StatExists | StatNotExist | StatFails.
Record kernel_dev := mkKernel { pid_file : stat_answer; size_file : option Z }.
Definition isDeviceFree (k : kernel_dev) : res PoolError bool :=
  match pid_file k with
  | StatExists => Ok false
  | StatFails => Err ErrStatPidFile
  | StatNotExist => match size_file k with Some n => Ok (n =? 0) | None => Err ErrSizeFile end
  end.

Section pool.
Context {B : Type} `{BitSetOps B, BitSetClear B}.

Definition getMaybeEmptySlot (b : B) (start : Z) : B * option Z :=
  match bs_next_clear b start with
  | None => (b, None)
  | Some slot => (bs_set b slot, Some slot)
  end.

(** [getFreeDeviceSlot] without anybody else around; [None] is out of fuel, and
    [dev n s] is what the kernel says of [s] at the [n]-th question. *)
Fixpoint free_loop (fuel n : nat) (dev : nat → Z → kernel_dev) (b : B) (start : Z) : option (B * res PoolError Z) :=
  match fuel with
  | O => None
  | S fuel =>
      match getMaybeEmptySlot b start with
      | (b, None) => Some (b, Err NoFreeSlotsError)
      | (b, Some slot) =>
          match isDeviceFree (dev n slot) with
          | Err e => Some (bs_clear b slot, Err (ErrCheckDevice e))
          | Panic => Some (b, Panic)
          | Ok true => Some (b, Ok slot)
          | Ok false => free_loop fuel (S n) dev (bs_clear b slot) (u32 (start + 1))
          end
      end
  end.
Definition getFreeDeviceSlot (dev : nat → Z → kernel_dev) (b : B) : option (B * res PoolError Z) :=
  free_loop (S (Z.to_nat (bs_len b))) 0 dev b 0.

(** ** The pool with its users *)
Inductive populate_pc :=
  | PSelect | PFind (start : Z) | PCheck (start slot : Z) | PCleanup (start slot : Z) (again : bool) | PSend (slot : Z) | PStopped.
Record device_pool := mkPool {
  used : B;
  slots : list Z;                (** the channel *)
  slots_cap : Z;
  slots_closed : bool;
  done_ : bool;
  populate : populate_pc;
  held : list Z;                 (** handed out by [GetDevice] *)
  releasing : list Z;            (** between the check of [release] and [Clear] *)
}.
Definition with_populate (p : device_pool) (u : B) (pc : populate_pc) : device_pool :=
  mkPool u (slots p) (slots_cap p) (slots_closed p) (done_ p) pc (held p) (releasing p).

Definition NewDevicePool (maxDevices : option Z) : option device_pool :=
  match maxDevices with
  | None => None
  | Some n => if n =? 0 then None else Some (mkPool (bs_new n) [] (slotsCap n) false false PSelect [] [])
  end.

Inductive vlabel :=
  | VPopulate (k : kernel_dev)           (** a step of [Populate], with the answer of the kernel *)
  | VStop                                (** its context, or [done] *)
  | VGet                                 (** a receive of [GetDevice] *)
  | VRelease (i : nat) (k : kernel_dev)  (** the holder of a slot calls [release] *)
  | VClear (i : nat)
  | VClose.                              (** [Close] closes [done] *)

Definition pool_stop (p : device_pool) : device_pool :=
  mkPool (used p) (slots p) (slots_cap p) true (done_ p) PStopped (held p) (releasing p).

(** [None]: the step cannot be taken. *)
Definition device_step (p : device_pool) (l : vlabel) : option device_pool :=
  match l with
  | VPopulate k =>
      match populate p with
      | PSelect => if done_ p then None else Some (with_populate p (used p) (PFind 0))
      | PFind start =>
          match getMaybeEmptySlot (used p) start with
          | (b, None) => Some (with_populate p b PSelect)
          | (b, Some slot) => Some (with_populate p b (PCheck start slot))
          end
      | PCheck start slot =>
          match isDeviceFree k with
          | Ok true => Some (with_populate p (used p) (PSend slot))
          | Ok false => Some (with_populate p (used p) (PCleanup start slot true))
          | _ => Some (with_populate p (used p) (PCleanup start slot false))
          end
      | PCleanup start slot again =>
          Some (with_populate p (bs_clear (used p) slot) (if again then PFind (u32 (start + 1)) else PSelect))
      | PSend slot =>
          if Z.of_nat (length (slots p)) <? slots_cap p then
            Some (mkPool (used p) (slots p ++ [slot]) (slots_cap p) (slots_closed p) (done_ p) PSelect (held p) (releasing p))
          else None
      | PStopped => None
      end
  | VStop => match populate p with PSelect | PSend _ => Some (pool_stop p) | _ => None end
  | VGet =>
      match slots p with
      | slot :: rest =>
          Some (mkPool (used p) rest (slots_cap p) (slots_closed p) (done_ p) (populate p) (held p ++ [slot]) (releasing p))
      | [] =>
          (* a receive from a closed channel gives the zero value *)
          if slots_closed p then
            Some (mkPool (used p) [] (slots_cap p) (slots_closed p) (done_ p) (populate p) (held p ++ [0]) (releasing p))
          else None
      end
  | VRelease i k =>
      match held p !! i, isDeviceFree k with
      | Some slot, Ok true =>
          Some (mkPool (used p) (slots p) (slots_cap p) (slots_closed p) (done_ p) (populate p) (delete i (held p)) (releasing p ++ [slot]))
      | Some _, _ => Some p                  (* an error: the caller still holds it *)
      | None, _ => None
      end
  | VClear i =>
      match releasing p !! i with
      | Some slot =>
          Some (mkPool (bs_clear (used p) slot) (slots p) (slots_cap p) (slots_closed p) (done_ p) (populate p) (held p) (delete i (releasing p)))
      | None => None
      end
  | VClose => Some (mkPool (used p) (slots p) (slots_cap p) (slots_closed p) true (populate p) (held p) (releasing p))
  end.
Fixpoint device_run (p : device_pool) (ls : list vlabel) : option device_pool :=
  match ls with
  | [] => Some p
  | l :: ls => device_step p l ≫= λ p, device_run p ls
  end.
End pool.
Arguments device_pool B : clear implicits.

Section laws.
Context {B : Type} `{BitSetLaws B, !BitSetClear B, !BitSetClearLaws B}.

(** The same bits. *)
Definition same_bits (b b' : B) : Prop := bs_len b' = bs_len b ∧ ∀ i, 0 ≤ i → bs_test b' i = bs_test b i.
Lemma same_bits_undo b b' s : same_bits b b' → 0 ≤ s < bs_len b → bs_test b s = false → same_bits b (bs_clear (bs_set b' s) s).
Proof.
  intros [Hl Ht] Hs Hb. split; [rewrite bs_len_clear, bs_len_set by lia; lia|].
  intros i Hi. rewrite bs_test_clear, bs_test_set by lia. destruct (Z.eqb_spec s i) as [<-|]; simpl; [by rewrite Hb|by apply Ht].
Qed.

Lemma getMaybeEmptySlot_spec b b' start : same_bits b b' → 0 ≤ start →
  match getMaybeEmptySlot b' start with
  | (b1, None) => b1 = b' ∧ ∀ k, start ≤ k < bs_len b → bs_test b k = true
  | (b1, Some s) => b1 = bs_set b' s ∧ start ≤ s < bs_len b ∧ bs_test b s = false ∧ ∀ k, start ≤ k < s → bs_test b k = true
  end.
Proof.
  intros [Hl Ht] Hs. unfold getMaybeEmptySlot. destruct (bs_next_clear b' start) as [s|] eqn:E.
  - apply bs_next_clear_Some in E as (Hr & Hc & Hk); [|done]. rewrite Hl in Hr. split_and!; [done|lia|lia| |].
    + by rewrite <- Ht by lia.
    + intros k Hr'. rewrite <- Ht by lia. by apply Hk.
  - split; [done|]. intros k Hk. rewrite <- Ht by lia. apply (bs_next_clear_None b' start); [done|done|lia].
Qed.

(** What [getFreeDeviceSlot] does to the set and what it returns; [n] questions were
    asked before. *)
Definition free_result (dev : nat → Z → kernel_dev) (b : B) (r : B * res PoolError Z) : Prop :=
  match r.2 with
  | Ok s => 0 ≤ s < bs_len b ∧ bs_test b s = false ∧ (∃ n, isDeviceFree (dev n s) = Ok true) ∧
      bs_len r.1 = bs_len b ∧ ∀ i, 0 ≤ i → bs_test r.1 i = (s =? i) || bs_test b i
  | Err _ => same_bits b r.1
  | Panic => False
  end.
Lemma free_loop_spec dev b : ∀ fuel n b' start, bs_len b < 4294967296 → same_bits b b' → 0 ≤ start ≤ bs_len b →
  bs_len b - start < Z.of_nat fuel → ∃ r, free_loop fuel n dev b' start = Some r ∧ free_result dev b r.
Proof.
  induction fuel as [|fuel IH]; intros n b' start Hlen Hb Hs Hf; [lia|]. simpl.
  pose proof (getMaybeEmptySlot_spec b b' start Hb ltac:(lia)) as Hg. destruct (getMaybeEmptySlot b' start) as [b1 [s|]].
  - destruct Hg as (-> & Hr & Hc & Hk). pose proof Hb as [Hl Ht].
    assert (same_bits b (bs_clear (bs_set b' s) s)) as Hundo by (apply same_bits_undo; [done|lia|done]).
    destruct (isDeviceFree (dev n s)) as [[]|e|] eqn:Ed.
    + eexists. split; [done|]. unfold free_result. simpl. split_and!; [lia|lia|done|by exists n| |].
      * rewrite bs_len_set by lia. lia.
      * intros i Hi. rewrite bs_test_set by lia. by rewrite Ht by done.
    + rewrite u32_small by lia. apply IH; [done|done|lia|lia].
    + eexists. split; [done|]. done.
    + unfold isDeviceFree in Ed. by destruct (pid_file _); try done; destruct (size_file _).
  - destruct Hg as [-> _]. eexists. split; [done|]. done.
Qed.

(** Looking for a device always ends, whatever the kernel answers.  It returns a
    slot that was not used and that the kernel called free, and marks exactly this
    slot; when it fails no mark is left.  When the kernel's answers do not change, it
    is the lowest such slot, and [NoFreeSlotsError] means that there is none. *)
Theorem getFreeDeviceSlot_finds (dev : nat → Z → kernel_dev) (b : B) :
  bs_len b < 4294967296 →
  ∃ r, getFreeDeviceSlot dev b = Some r ∧ free_result dev b r ∧
    ∀ dev0, (∀ n s, dev n s = dev0 s) →
      match r.2 with
      | Ok s => ∀ k, 0 ≤ k < s → bs_test b k = true ∨ isDeviceFree (dev0 k) = Ok false
      | Err NoFreeSlotsError => ∀ k, 0 ≤ k < bs_len b → bs_test b k = true ∨ isDeviceFree (dev0 k) = Ok false
      | _ => True
      end.
Proof.
  intros Hlen. pose proof (bs_len_nonneg b) as Hnn. unfold getFreeDeviceSlot.
  destruct (free_loop_spec dev b (S (Z.to_nat (bs_len b))) 0 b 0) as (r & Hr & Hres); [done|by split|lia|lia|].
  exists r. split_and!; [done|done|]. intros dev0 Hd.
  assert (∀ fuel n b' start r, same_bits b b' → 0 ≤ start ≤ bs_len b → free_loop fuel n dev b' start = Some r →
    (∀ k, 0 ≤ k < start → bs_test b k = true ∨ isDeviceFree (dev0 k) = Ok false) →
    match r.2 with
      | Ok s => ∀ k, 0 ≤ k < s → bs_test b k = true ∨ isDeviceFree (dev0 k) = Ok false
      | Err NoFreeSlotsError => ∀ k, 0 ≤ k < bs_len b → bs_test b k = true ∨ isDeviceFree (dev0 k) = Ok false
      | _ => True
    end) as Hloop.
  { induction fuel as [|fuel IH]; intros n b' start r' Hb Hs E Hk; [done|]. simpl in E.
    pose proof (getMaybeEmptySlot_spec b b' start Hb ltac:(lia)) as Hg. destruct (getMaybeEmptySlot b' start) as [b1 [s|]].
    - destruct Hg as (-> & Hrg & Hc & Hu). rewrite Hd in E.
      assert (∀ k, 0 ≤ k < s → bs_test b k = true ∨ isDeviceFree (dev0 k) = Ok false) as Hks.
      { intros k Hk'. destruct (decide (k < start)); [by apply Hk; lia|]. left. apply Hu. lia. }
      destruct (isDeviceFree (dev0 s)) as [[]|e|] eqn:Ed.
      + by injection E as <-.
      + rewrite u32_small in E by lia. apply (IH (S n) (bs_clear (bs_set b' s) s) (start + 1) r'); [|lia|exact E|].
        * apply same_bits_undo; [done|lia|done].
        * intros k Hk'. destruct (decide (k < start)); [by apply Hk; lia|]. assert (k = start) as -> by lia.
          destruct (decide (start < s)); [left; apply Hu; lia|]. assert (start = s) as -> by lia. by right.
      + injection E as <-. simpl. by destruct e.
      + unfold isDeviceFree in Ed. by destruct (pid_file _); try done; destruct (size_file _).
    - destruct Hg as [_ Hu]. injection E as <-. simpl. intros k Hk'. destruct (decide (k < start)); [by apply Hk; lia|].
      left. apply Hu. lia. }
  eapply Hloop; [| |exact Hr|]; [by split|lia|]. intros k Hk. lia.
Qed.

(** ** Who has a slot *)
Definition hand (pc : populate_pc) : list Z :=
  match pc with PCheck _ s | PCleanup _ s _ | PSend s => [s] | _ => [] end.
Definition places (p : device_pool B) : list Z := hand (populate p) ++ slots p ++ held p ++ releasing p.
Definition pc_start (pc : populate_pc) : Prop :=
  match pc with PFind s | PCheck s _ | PCleanup s _ _ => 0 ≤ s | _ => True end.
Definition running (l : vlabel) : Prop := match l with VStop | VClose => False | _ => True end.

Record pool_ok (p : device_pool B) : Prop := {
  pk_nodup : NoDup (places p);
  pk_nonneg i : i ∈ places p → 0 ≤ i;
  pk_used i : 0 ≤ i → bs_test (used p) i = true ↔ i ∈ places p;
  pk_start : pc_start (populate p);
  pk_open : slots_closed p = false;
  pk_cap : Z.of_nat (length (slots p)) ≤ slots_cap p;
}.

(** A step that moves slots between places. *)
Lemma pool_ok_perm p p' : pool_ok p → places p' ≡ₚ places p → used p' = used p → pc_start (populate p') →
  slots_closed p' = false → Z.of_nat (length (slots p')) ≤ slots_cap p' → pool_ok p'.
Proof.
  intros [] E1 E2 ? ? ?. split; try done.
  - by rewrite E1.
  - intros i. rewrite E1. apply pk_nonneg0.
  - intros i Hi. rewrite E2, E1. by apply pk_used0.
Qed.
(** A step that gives a slot back. *)
Lemma pool_ok_clear p p' s : pool_ok p → places p ≡ₚ s :: places p' → used p' = bs_clear (used p) s → pc_start (populate p') →
  slots_closed p' = false → Z.of_nat (length (slots p')) ≤ slots_cap p' → pool_ok p'.
Proof.
  intros [] E1 E2 ? ? ?. rewrite E1 in pk_nodup0. apply NoDup_cons in pk_nodup0 as [Hs Hnd].
  assert (0 ≤ s) by (apply pk_nonneg0; rewrite E1; left). split; try done.
  - intros i Hi. apply pk_nonneg0. rewrite E1. by right.
  - intros i Hi. rewrite E2, bs_test_clear by done. pose proof (pk_used0 i Hi) as Hu. rewrite E1, elem_of_cons in Hu.
    destruct (Z.eqb_spec s i) as [->|Hne]; simpl; [naive_solver|]. rewrite Hu. naive_solver.
Qed.
Lemma delete_Permutation' {A} (l : list A) i x : l !! i = Some x → l ≡ₚ x :: delete i l.
Proof. apply delete_Permutation. Qed.

Lemma device_step_ok p l p' : pool_ok p → running l → device_step p l = Some p' → pool_ok p'.
Proof.
  intros Hp Hl Hs. pose proof Hp as []. destruct l as [k| | |i k|i|]; simpl in Hs; try done.
  - destruct (populate p) as [|start|start slot|start slot again|slot|] eqn:Ep.
    + destruct (done_ p); [done|]. injection Hs as <-. apply (pool_ok_perm p); try done. unfold places. simpl. by rewrite Ep.
    + simpl in pk_start0. pose proof (getMaybeEmptySlot_spec (used p) (used p) start ltac:(by split) pk_start0) as Hg.
      destruct (getMaybeEmptySlot (used p) start) as [b [s|]]; injection Hs as <-.
      * destruct Hg as (-> & Hr & Hc & _). assert (places p = slots p ++ held p ++ releasing p) as Epl by (unfold places; by rewrite Ep).
        assert (s ∉ places p) as Hns. { intros Hin. apply pk_used0 in Hin; [congruence|lia]. }
        split; try done; unfold places in *; cbn [populate with_populate hand slots held releasing app] in *; rewrite Ep in *; simpl in *.
        -- by apply NoDup_cons.
        -- intros i [->|Hi]%elem_of_cons; [lia|by apply pk_nonneg0].
        -- intros i Hi. rewrite bs_test_set by lia. rewrite elem_of_cons. pose proof (pk_used0 i Hi).
           destruct (Z.eqb_spec s i) as [->|]; simpl; naive_solver.
      * destruct Hg as [-> _]. apply (pool_ok_perm p); try done. unfold places. simpl. by rewrite Ep.
    + destruct (isDeviceFree k) as [[]|e|]; injection Hs as <-; (apply (pool_ok_perm p); try done); unfold places; simpl; by rewrite Ep.
    + injection Hs as <-. apply (pool_ok_clear p _ slot); try done; [unfold places; by destruct again; rewrite Ep|].
      destruct again; simpl; [apply u32_range|done].
    + destruct (Z.ltb_spec (Z.of_nat (length (slots p))) (slots_cap p)); [|done]. injection Hs as <-.
      apply (pool_ok_perm p); try done; unfold places; simpl.
      * rewrite Ep. simpl. rewrite <- app_assoc. simpl. symmetry. apply Permutation_middle.
      * rewrite length_app. simpl. lia.
    + done.
  - destruct (slots p) as [|slot rest] eqn:Es; [by rewrite pk_open0 in Hs|]. injection Hs as <-.
    apply (pool_ok_perm p); try done; unfold places; simpl.
    + rewrite Es. apply Permutation_app_head. simpl. rewrite <- !app_assoc. simpl. rewrite app_assoc.
      rewrite <- Permutation_middle. by rewrite <- app_assoc.
    + simpl in pk_cap0. lia.
  - destruct (held p !! i) as [slot|] eqn:Ei; [|done]. destruct (isDeviceFree k) as [[]|e|]; injection Hs as <-; [|done..].
    apply (pool_ok_perm p); try done. unfold places. simpl. do 2 apply Permutation_app_head.
    rewrite (delete_Permutation' (held p) i slot Ei) at 2. simpl. rewrite app_assoc. by rewrite Permutation_app_comm.
  - destruct (releasing p !! i) as [slot|] eqn:Ei; [|done]. injection Hs as <-.
    apply (pool_ok_clear p _ slot); try done. unfold places. simpl. rewrite (delete_Permutation' (releasing p) i slot Ei) at 1.
    rewrite !app_assoc. by rewrite <- Permutation_middle.
Qed.

(** C24: while the pool runs, a slot is in one place at a time - in the hands of
    [Populate], in the channel, with one holder, or being released - and it is marked
    as used exactly when it is in one of them: no slot is handed out twice and none is
    lost, and the channel holds at most its capacity. *)
Theorem DevicePool_exclusive (n : Z) (p0 p : device_pool B) (ls : list vlabel) :
  0 < n < 4294967296 → NewDevicePool (Some n) = Some p0 → Forall running ls → device_run p0 ls = Some p →
  NoDup (places p) ∧ (∀ i, 0 ≤ i → bs_test (used p) i = true ↔ i ∈ places p) ∧ Z.of_nat (length (slots p)) ≤ slotsCap n.
Proof.
  intros Hn Hnew Hls Hr.
  assert (pool_ok p0 ∧ slots_cap p0 = slotsCap n) as [Hp Hc].
  { unfold NewDevicePool in Hnew. destruct (Z.eqb_spec n 0); [lia|]. injection Hnew as <-. split; [|done]. split; simpl; try done.
    - constructor.
    - by intros i ?%not_elem_of_nil.
    - intros i Hi. rewrite bs_test_new by done. split; [done|]. by intros ?%not_elem_of_nil.
    - unfold slotsCap, maxSlotsReady. lia. }
  clear Hnew. revert p0 Hp Hc Hr. induction Hls as [|l ls Hl Hls IH]; intros p0 Hp Hc Hr; simpl in Hr.
  - injection Hr as ->. pose proof Hp as []. by rewrite <- Hc.
  - destruct (device_step p0 l) as [p1|] eqn:E; [|done]. apply (IH p1); [by eapply device_step_ok| |done].
    rewrite <- Hc. clear -E Hl. unfold device_step, pool_stop, with_populate in E. by repeat case_match; simplify_eq/=.
Qed.
End laws.

(** ** Examples *)
#[local] Existing Instances BoolBits.ops BoolBits.laws.
Definition free_dev : kernel_dev := mkKernel StatNotExist (Some 0).
Definition busy_dev : kernel_dev := mkKernel StatExists None.
Abbreviation bits := (list bool).
Definition new_pool (n : Z) : device_pool bits := mkPool (bs_new n) [] (slotsCap n) false false PSelect [] [].
(** [Populate] puts a slot into the channel. *)
Definition ready : list vlabel := [VPopulate free_dev; VPopulate free_dev; VPopulate free_dev; VPopulate free_dev].
Definition pool_ex : list vlabel :=
  ready ++ ready ++ [VGet; VPopulate free_dev; VPopulate free_dev; VPopulate busy_dev; VPopulate free_dev; VRelease 0 busy_dev; VRelease 0 free_dev].

(** When the context of [Populate] ends it closes the channel, and from then on
    [GetDevice] - although the pool has not been closed - hands out device 0 to
    everybody who asks, the holder of device 0 notwithstanding; a device that
    [Populate] was about to offer stays marked as used with nobody to release it. *)
Theorem DevicePool_stopped (n : nat) :
  match device_run (new_pool 4) (ready ++ [VGet] ++ ready ++ take 3 ready ++ [VStop; VGet] ++ replicate n VGet) with
  | Some p => done_ p = false ∧ held p = [0; 1] ++ replicate n 0 ∧ bs_test (used p) 2 = true ∧ 2 ∉ places p
  | None => False
  end.
Proof.
  assert (∀ ls1 ls2 (t : device_pool bits), device_run t (ls1 ++ ls2) = device_run t ls1 ≫= λ t, device_run t ls2) as Happ.
  { intros ls1 ls2. induction ls1 as [|l ls1 IH]; intros t; [done|]. simpl. destruct (device_step t l); [apply IH|done]. }
  rewrite !app_assoc. rewrite Happ. destruct (device_run (new_pool 4) _) as [p|] eqn:E; [|vm_compute in E; discriminate].
  simpl. assert (∀ k, device_run p (replicate k VGet) = Some (mkPool (used p) [] (slots_cap p) true false PStopped ([0; 1] ++ replicate k 0) [])) as Hk.
  { vm_compute in E. injection E as <-. intros k.
    assert (∀ k h, device_run (mkPool [true; true; true; false] [] 4 true false PStopped h []) (replicate k VGet) =
      Some (mkPool [true; true; true; false] [] 4 true false PStopped (h ++ replicate k 0) [])) as Hg; [|apply (Hg k [0; 1])].
    clear k. induction k as [|k IH]; intros h; [simpl; by rewrite app_nil_r|]. simpl. rewrite IH. do 2 f_equal. by rewrite <- app_assoc. }
  rewrite Hk. split_and!; [done|done| |].
  - vm_compute in E. injection E as <-. done.
  - unfold places. simpl. rewrite app_nil_r. intros [?|[?|Hi]%elem_of_cons]%elem_of_cons; [done|done|].
    apply elem_of_replicate in Hi as [? _]. done.
Qed.

Definition ex_bits : bits := [true; false; false; false].
Definition ex_dev (n : nat) (s : Z) : kernel_dev := if s =? 1 then busy_dev else free_dev.
Lemma getFreeDeviceSlot_finds_witness : ∃ r, getFreeDeviceSlot ex_dev ex_bits = Some r ∧ r.2 = Ok 2.
Proof.
  assert (bs_len ex_bits < 4294967296) as Hl by reflexivity.
  pose proof (getFreeDeviceSlot_finds ex_dev ex_bits Hl) as (r & Hr & _). exists r. split; [exact Hr|].
  vm_compute in Hr. injection Hr as <-. reflexivity.
Defined.
Lemma DevicePool_exclusive_witness :
  match device_run (new_pool 4) pool_ex with
  | Some p => places p = [1; 0] ∧ NoDup (places p)
  | None => False
  end.
Proof.
  destruct (device_run (new_pool 4) pool_ex) as [p|] eqn:E; [|vm_compute in E; discriminate].
  split; [vm_compute in E; injection E as <-; reflexivity|].
  refine (proj1 (DevicePool_exclusive (B := bits) 4 (new_pool 4) p pool_ex _ eq_refl _ E)); [lia|].
  unfold pool_ex, ready. simpl. repeat (apply Forall_cons; split); done.
Defined.
