(* ===== verification/Uffd.v ===== *)
(** * Serving page faults

    packages/orchestrator/internal/sandbox/uffd: [Userfaultfd]
    ([userfaultfd/userfaultfd.go]) serves the memory of a resumed sandbox: [Serve]
    reads the page faults of the guest from the kernel, and a goroutine per fault
    copies the page from the memory file; [Prefault] copies pages ahead of time.

    The system has the kernel's table of installed pages and its queue of events, the
    serving loop, the goroutines of [faultPage] and the trackers.  A step ([ulabel])
    is one system call, one read of the source or one update of a tracker.  The
    kernel is a label, but for what it promises: a page is installed once, and a
    second copy fails with [EEXIST].  A goroutine holds [settleRequests] for reading
    from [WSlice] to [WMark]; [faulted] and [PrefetchData] need it for writing. *)
From Stdlib Require Import Init.Byte.
From S2P Require Import Prelude Bitset Uuid Mapping Merge Header Diff BlockRange BlockCache MemMap.

Definition maxRequestsInProgress : Z := 4096.
Definition UFFD_PAGEFAULT_FLAG_WRITE : Z := 1.

Inductive UffdError :=
  | ErrBlockSizeMismatch (base : Z)
  | ErrPolling | ErrReadEvent | ErrUnexpectedEventType
  | ErrFailedToMap (e : MemError)
  | ErrUnexpectedFlags (flags : Z)
  | ErrReadFromSource | ErrUffdioCopy
  | ErrHostVirtAddr (e : MemError)
  | ErrDataLength (n pagesize : Z)
  | ErrHandleUffd (e : UffdError).

(** Where a call of [faultPage] reads from. *)
Inductive data_source := SrcDevice | DirectDataSource (data : list byte).

Inductive fault_pc :=
  | WLock | WSlice
  | WCopy (b : list byte)
  | WMark | WTrack                       (** the two trackers *)
  | WDone (err : option UffdError)
  | WRecovered.                          (** a panic: the call returns nil *)
Record fault_call := mkFault {
  w_addr : Z; w_off : Z; w_page : Z;
  w_source : data_source;
  w_serve : bool;                        (** started by [Serve], with [onFailure] *)
  w_access : AccessType;
  w_pc : fault_pc;
}.
Definition with_wpc (w : fault_call) (p : fault_pc) : fault_call :=
  mkFault (w_addr w) (w_off w) (w_page w) (w_source w) (w_serve w) (w_access w) p.

Inductive serve_pc :=
  | SPoll | SRead
  | SSpawn (addr off page : Z) (access : AccessType)    (** [u.wg.Go], which may wait for the limit *)
  | SWait                                               (** [u.wg.Wait] *)
  | SReturned (addr : option Z) (err : option UffdError). (** with the address of an event it did not serve *)

(** An installed page: its bytes, and whether it is write-protected. *)
Abbreviation page := (list byte * bool)%type.

Inductive slice_outcome := SliceOk | SliceFails | SlicePanics.
Inductive copy_outcome := CopyOk (stray : list byte) | CopyFails.

Section uffd.
Context {B : Type} `{BitSetOps B}.
Context (src : Z → list byte) (regions : list Region).

Record uffd_sys := mkUffd {
  pages : gmap Z page;
  events : list (Z * Z);                 (** address and flags *)
  calls : list fault_call;
  missingRequests : Tracker B;
  prefetchTracker : PrefetchTracker;
  serve : serve_pc;
  exitSignal : bool;
}.
Definition with_serve (t : uffd_sys) (s : serve_pc) : uffd_sys :=
  mkUffd (pages t) (events t) (calls t) (missingRequests t) (prefetchTracker t) s (exitSignal t).
Definition with_call (t : uffd_sys) (i : nat) (w : fault_call) : uffd_sys :=
  mkUffd (pages t) (events t) (<[i := w]> (calls t)) (missingRequests t) (prefetchTracker t) (serve t) (exitSignal t).
Definition with_exit (t : uffd_sys) (b : bool) : uffd_sys :=
  mkUffd (pages t) (events t) (calls t) (missingRequests t) (prefetchTracker t) (serve t) b.

(** [NewUserfaultfdFromFd]. *)
Definition NewUserfaultfdFromFd (blockSize : Z) : res UffdError uffd_sys :=
  match filter (λ r, RPageSize r ≠ u64 blockSize) regions with
  | r :: _ => Err (ErrBlockSizeMismatch (BaseHostVirtAddr r))
  | [] => Ok (mkUffd ∅ [] [] (NewTracker blockSize) (NewPrefetchTracker blockSize) SPoll false)
  end.

(** What [Serve] does with a page fault. *)
Definition serve_fault (addr flags : Z) : serve_pc :=
  match GetOffset regions addr with
  | Err e => SReturned (Some addr) (Some (ErrFailedToMap e))
  | Panic => SReturned (Some addr) None
  | Ok (offset, pagesize) =>
      if negb (Z.land flags UFFD_PAGEFAULT_FLAG_WRITE =? 0) then SSpawn addr offset pagesize Write
      else if flags =? 0 then SSpawn addr offset pagesize Read
      else SReturned (Some addr) (Some (ErrUnexpectedFlags flags))
  end.

(** The calls of [wg] that have not returned, and their errors. *)
Definition in_progress (w : fault_call) : bool :=
  w_serve w && match w_pc w with WDone _ | WRecovered => false | _ => true end.
Definition call_error (w : fault_call) : option UffdError :=
  if w_serve w then match w_pc w with WDone e => e | _ => None end else None.
Definition holds_lock (w : fault_call) : bool :=
  match w_pc w with WSlice | WCopy _ | WMark | WTrack => true | _ => false end.

(** [fd.copy]: the page's address. *)
Definition page_addr (addr pagesize : Z) : Z := Z.ldiff addr (u64 (pagesize - 1)).

Definition finish (t : uffd_sys) (i : nat) (w : fault_call) (e : UffdError) : uffd_sys :=
  with_exit (with_call t i (with_wpc w (WDone (Some e)))) (exitSignal t || w_serve w).

Inductive ulabel :=
  | UFault (addr flags : Z)              (** the guest touches a page that is not there *)
  | UPoll (exit : bool)                  (** [poll] returns: the exit pipe or the events *)
  | UPollFails
  | UReadEvent (other : bool)            (** an event; [other]: not a page fault *)
  | UReadAgain                           (** [EAGAIN] *)
  | UReadFails
  | USpawn
  | UWaited (k : option nat)             (** [wg.Wait]; call [k] was the first to fail *)
  | UStop                                (** [fdExit.SignalExit] from outside *)
  | UPrefault (offset : Z) (data : list byte)
  | ULock (i : nat)
  | USlice (i : nat) (o : slice_outcome)
  | UCopy (i : nat) (o : copy_outcome)
  | UMark (i : nat)
  | UPrefetchData.                       (** [PrefetchData] *)

(** The serving loop. *)
Definition Serve_step (t : uffd_sys) (l : ulabel) : res () uffd_sys :=
  match l with
  | UPoll exit =>
      match serve t with
      | SPoll =>
          if exit then (if exitSignal t then Ok (with_serve t SWait) else Err ())
          else if exitSignal t then Err () else Ok (with_serve t SRead)
      | _ => Err ()
      end
  | UPollFails => match serve t with SPoll => Ok (with_serve t (SReturned None (Some ErrPolling))) | _ => Err () end
  | UReadEvent other =>
      match serve t with
      | SRead =>
          if (other : bool) then Ok (with_serve t (SReturned None (Some ErrUnexpectedEventType)))
          else match events t with
               | (addr, flags) :: rest =>
                   Ok (mkUffd (pages t) rest (calls t) (missingRequests t) (prefetchTracker t) (serve_fault addr flags) (exitSignal t))
               | [] => Err ()
               end
      | _ => Err ()
      end
  | UReadAgain => match serve t with SRead => Ok (with_serve t SPoll) | _ => Err () end
  | UReadFails => match serve t with SRead => Ok (with_serve t (SReturned None (Some ErrReadEvent))) | _ => Err () end
  | USpawn =>
      match serve t with
      | SSpawn addr off page access =>
          if Z.of_nat (count_if in_progress (calls t)) <? maxRequestsInProgress then
            Ok (mkUffd (pages t) (events t) (calls t ++ [mkFault addr off page SrcDevice true access WLock])
                  (missingRequests t) (prefetchTracker t) SPoll (exitSignal t))
          else Err ()
      | _ => Err ()
      end
  | UWaited k =>
      match serve t with
      | SWait =>
          if bool_decide (count_if in_progress (calls t) = 0%nat) then
            match k with
            | None =>
                if forallb (λ w, match call_error w with None => true | _ => false end) (calls t)
                then Ok (with_serve t (SReturned None None)) else Err ()
            | Some k =>
                match calls t !! k ≫= call_error with
                | Some e => Ok (with_serve t (SReturned None (Some (ErrHandleUffd e))))
                | None => Err ()
                end
            end
          else Err ()
      | _ => Err ()
      end
  | _ => Err ()
  end.

(** A call of [faultPage]. *)
Definition faultPage_step (t : uffd_sys) (l : ulabel) : res () uffd_sys :=
  match l with
  | ULock i =>
      match calls t !! i with
      | Some w => match w_pc w with WLock => Ok (with_call t i (with_wpc w WSlice)) | _ => Err () end
      | None => Err ()
      end
  | USlice i o =>
      match calls t !! i with
      | Some w =>
          match w_pc w with
          | WSlice =>
              match w_source w, o with
              | DirectDataSource data, _ => Ok (with_call t i (with_wpc w (WCopy data)))
              | SrcDevice, SliceOk => Ok (with_call t i (with_wpc w (WCopy (src (w_off w)))))
              | SrcDevice, SliceFails => Ok (finish t i w ErrReadFromSource)
              | SrcDevice, SlicePanics => Ok (with_call t i (with_wpc w WRecovered))
              end
          | _ => Err ()
          end
      | None => Err ()
      end
  | UCopy i o =>
      match calls t !! i with
      | Some w =>
          match w_pc w with
          | WCopy [] => Ok (with_call t i (with_wpc w WRecovered))        (* [&b[0]] panics *)
          | WCopy b =>
              let a := page_addr (w_addr w) (w_page w) in
              match pages t !! a with
              | Some _ => Ok (with_call t i (with_wpc w (WDone None)))     (* [EEXIST] *)
              | None =>
                  match o with
                  | CopyFails => Ok (finish t i w ErrUffdioCopy)
                  | CopyOk stray =>
                      (* the kernel copies a whole page from the address of [b] *)
                      if zlength (b ++ stray) <? w_page w then Err ()
                      else
                        let data := take (Z.to_nat (w_page w)) (b ++ stray) in
                        let t := mkUffd (<[a := (data, match w_access w with Write => false | _ => true end)]> (pages t))
                                   (events t) (calls t) (missingRequests t) (prefetchTracker t) (serve t) (exitSignal t) in
                        Ok (with_call t i (with_wpc w WMark))
                  end
              end
          | _ => Err ()
          end
      | None => Err ()
      end
  | UMark i =>
      match calls t !! i with
      | Some w =>
          match w_pc w with
          | WMark =>
              m ← Add (missingRequests t) (w_off w);
              Ok (with_call (mkUffd (pages t) (events t) (calls t) m (prefetchTracker t) (serve t) (exitSignal t)) i (with_wpc w WTrack))
          | WTrack =>
              p ← PAdd (prefetchTracker t) (w_off w) (w_access w);
              Ok (with_call (mkUffd (pages t) (events t) (calls t) (missingRequests t) p (serve t) (exitSignal t)) i (with_wpc w (WDone None)))
          | _ => Err ()
          end
      | None => Err ()
      end
  | _ => Err ()
  end.

(** [Prefault]; on an error nothing is done. *)
Definition Prefault (t : uffd_sys) (offset : Z) (data : list byte) : res () uffd_sys :=
  match GetHostVirtAddr regions offset with
    | Ok (addr, pagesize) =>
        if negb (zlength data =? i64 pagesize) then Ok t
        else Ok (mkUffd (pages t) (events t) (calls t ++ [mkFault addr offset pagesize (DirectDataSource data) false Prefetch WLock])
                  (missingRequests t) (prefetchTracker t) (serve t) (exitSignal t))
    | _ => Ok t
    end.

(** [PrefetchData] stops the tracking. *)
Definition take_prefetch (t : uffd_sys) : res () uffd_sys :=
    if bool_decide (count_if holds_lock (calls t) = 0%nat) then
      Ok (mkUffd (pages t) (events t) (calls t) (missingRequests t) (PrefetchData (prefetchTracker t)).2 (serve t) (exitSignal t))
    else Err ().

Definition uffd_step (t : uffd_sys) (l : ulabel) : res () uffd_sys :=
  match l with
  | UFault addr flags =>
      Ok (mkUffd (pages t) (events t ++ [(addr, flags)]) (calls t) (missingRequests t) (prefetchTracker t) (serve t) (exitSignal t))
  | UStop => Ok (with_exit t true)
  | UPrefault offset data => Prefault t offset data
  | UPrefetchData => take_prefetch t
  | ULock _ | USlice _ _ | UCopy _ _ | UMark _ => faultPage_step t l
  | _ => Serve_step t l
  end.
Fixpoint uffd_run (t : uffd_sys) (ls : list ulabel) : res () uffd_sys :=
  match ls with
  | [] => Ok t
  | l :: ls => t ← uffd_step t l; uffd_run t ls
  end.

(** [faulted]: a copy of the tracker, when no request is under way. *)
Definition faulted (t : uffd_sys) : option (Tracker B) :=
  if bool_decide (count_if holds_lock (calls t) = 0%nat) then Some (Clone (missingRequests t)) else None.
End uffd.
Arguments uffd_sys B : clear implicits.

(** ** Laws *)
Section laws.
Context {B : Type} `{BitSetLaws B}.
Context (src : Z → list byte) (regions : list Region) (bs : Z).
(** The regions Firecracker reports do not overlap and consist of whole pages; the
    memory file gives whole blocks. *)
Hypothesis bs_pow : ∃ k, 0 ≤ k < 63 ∧ bs = 2 ^ k.
Hypothesis regions_good : Forall (λ r, region_ok r ∧ RPageSize r = bs ∧ (bs | ROffset r) ∧ (bs | BaseHostVirtAddr r)) regions.
Hypothesis addr_disjoint : ∀ r r' a, r ∈ regions → r' ∈ regions → holds_addr r a → holds_addr r' a → r = r'.
Hypothesis off_disjoint : ∀ r r' o, r ∈ regions → r' ∈ regions → holds_off r o → holds_off r' o → r = r'.
Hypothesis src_whole : ∀ off, zlength (src off) = bs.
Implicit Types (t : uffd_sys B) (w : fault_call).

(** The page at [a] shows the block of the memory file at [off]. *)
Definition located (a off : Z) : Prop := GetOffset regions a = Ok (off, bs) ∧ (bs | a).

Lemma GetOffset_spec a : match GetOffset regions a with
  | Ok (off, ps) => ∃ r, r ∈ regions ∧ holds_addr r a ∧ off = ROffset r + (a - BaseHostVirtAddr r) ∧ ps = bs
  | Err _ => ∀ r, r ∈ regions → ¬ holds_addr r a
  | Panic => False
  end.
Proof using regions_good.
  clear addr_disjoint off_disjoint. revert regions_good. induction regions as [|r rs IH]; intros Hg; simpl; [by intros r ?%not_elem_of_nil|].
  apply Forall_cons in Hg as [(Hr & Hps & _) Hg]. unfold region_ok, maxI64, endHostVirtAddr in *.
  rewrite (u64_small (BaseHostVirtAddr r + _)) by lia.
  destruct (Z.leb_spec (BaseHostVirtAddr r) a), (Z.ltb_spec a (BaseHostVirtAddr r + RegionSize r)); simpl.
  1: { exists r. split_and!; [left|unfold holds_addr; lia| |done]. unfold shiftedOffset. unwrap. lia. }
  all: specialize (IH Hg); destruct (GetOffset rs a) as [[off ps]|?|]; [|..|done];
    [destruct IH as (r' & ? & ?); exists r'; split; [by right|done]|].
  all: intros r' [->|Hin]%elem_of_cons; [unfold holds_addr; lia|by apply IH].
Qed.
Lemma bs_pos : 0 < bs.
Proof using bs_pow. destruct bs_pow as (k & Hk & E). rewrite E. apply Z.pow_pos_nonneg; lia. Qed.

Lemma located_range a off : located a off → 0 ≤ a ≤ maxI64 ∧ off_ok off ∧ (bs | off).
Proof using regions_good.
  intros [Ha Hd]. pose proof (GetOffset_spec a) as Hs. rewrite Ha in Hs. destruct Hs as (r & Hr & Hh & -> & _).
  pose proof (proj1 (Forall_forall _ _) regions_good r Hr) as (Hok & _ & H1 & H2).
  unfold region_ok, holds_addr, maxI64, off_ok, maxI64 in *. split_and!; try lia.
  apply Z.divide_add_r; [done|]. by apply Z.divide_sub_r.
Qed.
Lemma located_page a off : located a off → page_addr a bs = a.
Proof using bs_pow regions_good.
  intros Hl. pose proof (located_range a off Hl) as (Hr & _). destruct Hl as [_ [q Hq]]. destruct bs_pow as (k & Hk & Hbs).
  pose proof bs_pos. assert (2 ^ k ≤ 2 ^ 62) by (apply Z.pow_le_mono_r; lia).
  unfold page_addr. rewrite u64_small by lia. assert (bs - 1 = Z.ones k) as -> by (rewrite Z.ones_equiv; lia).
  rewrite Z.ldiff_ones_r by lia. rewrite Z.shiftl_mul_pow2, Z.shiftr_div_pow2 by lia. rewrite <- Hbs, Hq, Z.div_mul by lia. done.
Qed.

(** [Prefault]: the translation there and back. *)
Lemma GetHostVirtAddr_located off a ps : GetHostVirtAddr regions off = Ok (a, ps) → (bs | off) → located a off ∧ ps = bs.
Proof using regions_good addr_disjoint.
  unfold GetHostVirtAddr. intros Hg Hd.
  assert (Forall region_ok regions) as Hok by (eapply Forall_impl; [exact regions_good|]; by intros r []).
  pose proof (getHostVirtRegion_spec regions off Hok) as Hs. destruct (getHostVirtRegion regions off) as [r|?|]; [|done..].
  simpl in Hg. injection Hg as <- <-. destruct Hs as (Hr & Hh & _).
  pose proof (proj1 (Forall_forall _ _) regions_good r Hr) as (Hro & Hps & H1 & H2).
  rewrite shiftedHostVirtAddr_eq by done. split; [|done]. unfold holds_off in Hh.
  assert (holds_addr r (BaseHostVirtAddr r + (off - ROffset r))) as Ha by (unfold holds_addr; lia).
  split; [|apply Z.divide_add_r; [done|by apply Z.divide_sub_r]].
  pose proof (GetOffset_spec (BaseHostVirtAddr r + (off - ROffset r))) as Hs.
  destruct (GetOffset regions _) as [[off' ps']|?|]; [|by destruct (Hs r Hr)|done].
  destruct Hs as (r' & Hr' & Ha' & -> & ->). rewrite (addr_disjoint r' r _ Hr' Hr Ha' Ha). do 2 f_equal. lia.
Qed.

(** ** Invariants *)
Definition is_write (a : AccessType) : bool := match a with Write => true | _ => false end.
Definition installed t (a : Z) : Prop := is_Some (pages t !! a).
Definition call_ok t w : Prop :=
  located (w_addr w) (w_off w) ∧ w_page w = bs ∧
  match w_source w with DirectDataSource data => data = src (w_off w) | SrcDevice => True end ∧
  match w_pc w with
  | WCopy b => b = src (w_off w)
  | WMark | WTrack => ∃ data, pages t !! w_addr w = Some (data, negb (is_write (w_access w)))
  | WDone None => installed t (w_addr w)
  | WDone (Some _) => w_serve w = true → exitSignal t = true
  | _ => True
  end.
Definition marking w (a : Z) : Prop := w_addr w = a ∧ w_pc w = WMark.
Definition tracking w (a : Z) : Prop := w_addr w = a ∧ (w_pc w = WMark ∨ w_pc w = WTrack).

Definition served w : bool := match w_pc w with WDone None => true | _ => false end.

Record uffd_ok t : Prop := {
  uo_calls i w : calls t !! i = Some w → call_ok t w;
  uo_pages a p : pages t !! a = Some p → ∃ off, located a off ∧ p.1 = src off;
  uo_events a f : (a, f) ∈ events t → (bs | a);
  uo_serve : match serve t with SSpawn a off ps _ => located a off ∧ ps = bs | _ => True end;
  uo_track : ∃ offs, tracks bs (missingRequests t) offs ∧
    (∀ off, off ∈ offs → ∃ a, located a off ∧ installed t a) ∧
    (∀ a off, located a off → installed t a → off ∈ offs ∨ ∃ i w, calls t !! i = Some w ∧ marking w a);
  uo_prefetch : isTracking (prefetchTracker t) = true → ∃ seen, prefetches bs (prefetchTracker t) seen ∧
    (length seen ≤ count_if served (calls t))%nat ∧
    (∀ k acc, (k, acc) ∈ seen → ∃ a off data, located a off ∧ off / bs = k ∧ pages t !! a = Some (data, negb (is_write acc))) ∧
    (∀ a off, located a off → installed t a → off / bs ∈ seen.*1 ∨ ∃ i w, calls t !! i = Some w ∧ tracking w a);
}.

Definition label_ok (l : ulabel) : Prop :=
  match l with
  | UFault addr _ => (bs | addr)
  | UPrefault off data => (bs | off) ∧ data = src off
  | _ => True
  end.

Lemma served_insert t i w w' : calls t !! i = Some w → served w = false →
  (count_if served (calls t) + (if served w' then 1 else 0) = count_if served (<[i := w']> (calls t)))%nat.
Proof. intros Hi Hs. pose proof (count_if_insert served (calls t) i w w' Hi) as Hc. rewrite Hs in Hc. lia. Qed.

Lemma fault_ok_mono t t' w : call_ok t w → pages t ⊆ pages t' → (exitSignal t = true → exitSignal t' = true) → call_ok t' w.
Proof.
  intros (Hl & Hp & Hs & Hpc) Hsub He. split_and!; try done. destruct (w_pc w) as [| |b| | |[e|]|]; try done.
  - destruct Hpc as [d Hd]. exists d. by eapply lookup_weaken.
  - destruct Hpc as [d Hd]. exists d. by eapply lookup_weaken.
  - naive_solver.
  - destruct Hpc as [d Hd]. exists d. by eapply lookup_weaken.
Qed.

(** A step that changes neither pages nor calls nor trackers. *)
Lemma uffd_ok_frame t t' : uffd_ok t → pages t' = pages t → calls t' = calls t → missingRequests t' = missingRequests t →
  prefetchTracker t' = prefetchTracker t → (exitSignal t = true → exitSignal t' = true) →
  (∀ a f, (a, f) ∈ events t' → (bs | a)) → match serve t' with SSpawn a off ps _ => located a off ∧ ps = bs | _ => True end → uffd_ok t'.
Proof.
  intros [] E1 E2 E3 E4 He Hev Hs. split; unfold installed in *; rewrite ?E1, ?E2, ?E3, ?E4; try done.
  intros i w Hi. eapply fault_ok_mono; [by apply uo_calls0 in Hi|by rewrite E1|done].
Qed.

(** A step of one call that does not come from the trackers. *)
Lemma call_update t i w w' ex : uffd_ok t → calls t !! i = Some w → w_pc w ≠ WMark → w_pc w ≠ WTrack → served w = false →
  (exitSignal t = true → ex = true) → call_ok (with_exit t ex) w' → uffd_ok (with_exit (with_call t i w') ex).
Proof.
  intros [] Hi Hm Ht Hsv He Hok. pose proof (served_insert t i w w' Hi Hsv) as Hcnt.
  assert (∀ j x, calls t !! j = Some x → (w_pc x = WMark ∨ w_pc x = WTrack) → <[i := w']> (calls t) !! j = Some x) as Hkeep.
  { intros j x Hj Hx. rewrite list_lookup_insert_ne; [done|]. intros ->. assert (x = w) as -> by congruence. by destruct Hx. }
  split; simpl; try done.
  - intros j x [(-> & <- & _)|[_ Hj]]%list_lookup_insert_Some; [done|]. eapply fault_ok_mono; [by apply uo_calls0 in Hj|done|done].
  - destruct uo_track0 as (offs & H1 & H2 & H3). exists offs. split_and!; [done..|]. intros a off Hl Hin.
    destruct (H3 a off Hl Hin) as [?|(j & x & Hj & Hx)]; [by left|]. right. exists j, x. split; [|done]. apply Hkeep; [done|]. left. apply Hx.
  - intros Htr. destruct (uo_prefetch0 Htr) as (seen & H1 & H2 & H3 & H4). exists seen. split_and!; [done|lia|done|].
    intros a off Hl Hin. destruct (H4 a off Hl Hin) as [?|(j & x & Hj & Hx)]; [by left|]. right. exists j, x. split; [|done].
    apply Hkeep; [done|]. apply Hx.
Qed.
Lemma with_fault_ok t i w p : uffd_ok t → calls t !! i = Some w → w_pc w ≠ WMark → w_pc w ≠ WTrack → served w = false →
  call_ok t (with_wpc w p) → uffd_ok (with_call t i (with_wpc w p)).
Proof.
  intros Ht Hi Hm Htr Hsv Hok. pose proof (call_update t i w (with_wpc w p) (exitSignal t) Ht Hi Hm Htr Hsv) as Hu.
  destruct t. apply Hu; done.
Qed.
Lemma finish_ok t i w e : uffd_ok t → calls t !! i = Some w → w_pc w ≠ WMark → w_pc w ≠ WTrack → served w = false → uffd_ok (finish t i w e).
Proof.
  intros Ht Hi Hm Htr Hsv. unfold finish. eapply call_update; try done; [by intros ->|].
  destruct (uo_calls _ Ht i w Hi) as (H1 & H2 & H3 & _). split_and!; try done. simpl. intros ->. by rewrite orb_true_r.
Qed.

(** A new call. *)
Lemma new_fault_ok t w s : uffd_ok t → w_pc w = WLock → call_ok t w →
  match s with SSpawn a off ps _ => located a off ∧ ps = bs | _ => True end →
  uffd_ok (mkUffd (pages t) (events t) (calls t ++ [w]) (missingRequests t) (prefetchTracker t) s (exitSignal t)).
Proof.
  intros [] Hpc Hok Hs. split; simpl; try done.
  - intros j x [Hj|[_ Hj]]%lookup_app_Some; [by eapply uo_calls0|]. by apply list_lookup_singleton_Some in Hj as [_ <-].
  - destruct uo_track0 as (offs & H1 & H2 & H3). exists offs. split_and!; [done..|]. intros a off Hl Hin.
    destruct (H3 a off Hl Hin) as [?|(j & x & Hj & Hx)]; [by left|]. right. exists j, x. split; [by apply lookup_app_l_Some|done].
  - intros Htr. destruct (uo_prefetch0 Htr) as (seen & H1 & H2 & H3 & H4). exists seen. rewrite count_if_snoc. split_and!; [done|lia|done|].
    intros a off Hl Hin. destruct (H4 a off Hl Hin) as [?|(j & x & Hj & Hx)]; [by left|]. right. exists j, x. split; [by apply lookup_app_l_Some|done].
Qed.

(** The copy of a page. *)
Lemma copy_ok t i w b stray : uffd_ok t → calls t !! i = Some w → w_pc w = WCopy b → pages t !! w_addr w = None →
  uffd_ok (with_call (mkUffd (<[w_addr w := (take (Z.to_nat (w_page w)) (b ++ stray), match w_access w with Write => false | _ => true end)]> (pages t))
    (events t) (calls t) (missingRequests t) (prefetchTracker t) (serve t) (exitSignal t)) i (with_wpc w WMark)).
Proof.
  intros Ht Hi Hpc Hno. pose proof (uo_calls _ Ht i w Hi) as (Hl & Hp & Hs & Hb). rewrite Hpc in Hb. subst b.
  assert (take (Z.to_nat (w_page w)) (src (w_off w) ++ stray) = src (w_off w)) as ->.
  { rewrite Hp. pose proof (src_whole (w_off w)) as Hw. unfold zlength in Hw. rewrite take_app_length'; [done|lia]. }
  assert (match w_access w with Write => false | _ => true end = negb (is_write (w_access w))) as -> by by destruct (w_access w).
  set (pg := <[w_addr w := (src (w_off w), negb (is_write (w_access w)))]> (pages t)).
  assert (pages t ⊆ pg) as Hsub by by apply insert_subseteq.
  assert (∀ a, is_Some (pg !! a) → is_Some (pages t !! a) ∨ a = w_addr w) as Hinst.
  { intros a [p [[-> _]|[_ Ha]]%lookup_insert_Some]; [by right|]. left. by exists p. }
  assert (∀ j x, calls t !! j = Some x → (w_pc x = WMark ∨ w_pc x = WTrack) → <[i := with_wpc w WMark]> (calls t) !! j = Some x) as Hkeep.
  { intros j x Hj Hx. rewrite list_lookup_insert_ne; [done|]. intros ->. assert (x = w) as -> by congruence. rewrite Hpc in Hx. by destruct Hx. }
  assert (<[i := with_wpc w WMark]> (calls t) !! i = Some (with_wpc w WMark)) as Hself.
  { apply list_lookup_insert_eq. by eapply lookup_lt_Some. }
  destruct Ht. split; simpl; try done.
  - intros j x [(-> & <- & _)|[_ Hj]]%list_lookup_insert_Some.
    + split_and!; try done. simpl. eexists. apply lookup_insert_eq.
    + eapply fault_ok_mono; [by apply uo_calls0 in Hj|done|done].
  - intros a p [[<- <-]|[_ Ha]]%lookup_insert_Some; [by exists (w_off w)|by apply uo_pages0].
  - destruct uo_track0 as (offs & H1 & H2 & H3). exists offs. split_and!; [done| |].
    + intros off Hoff. destruct (H2 off Hoff) as (a & Ha & [p Hin]). exists a. split; [done|]. exists p. by eapply lookup_weaken.
    + intros a off Hla [Hin| ->]%Hinst; [|right; by exists i, (with_wpc w WMark)].
      destruct (H3 a off Hla Hin) as [?|(j & x & Hj & Hx)]; [by left|]. right. exists j, x. split; [|done]. apply Hkeep; [done|]. left. apply Hx.
  - intros Htr. destruct (uo_prefetch0 Htr) as (seen & H1 & H2 & H3 & H4). exists seen. split_and!; [done| | |].
    + pose proof (served_insert t i w (with_wpc w WMark) Hi) as Hcnt. unfold served in Hcnt at 1. rewrite Hpc in Hcnt.
      specialize (Hcnt eq_refl). lia.
    + intros k acc Hk. destruct (H3 k acc Hk) as (a & off & data & ? & ? & Ha). exists a, off, data. split_and!; try done. by eapply lookup_weaken.
    + intros a off Hla [Hin| ->]%Hinst; [|right; exists i, (with_wpc w WMark); split; [done|split; [done|by left]]].
      destruct (H4 a off Hla Hin) as [?|(j & x & Hj & Hx)]; [by left|]. right. exists j, x. split; [|done]. apply Hkeep; [done|]. apply Hx.
Qed.

Lemma same_block a off a' off' : located a off → located a' off' → off / bs = off' / bs → off = off'.
Proof using All.
  intros (_ & _ & [q ->])%located_range (_ & _ & [q' ->])%located_range. pose proof bs_pos. rewrite !Z.div_mul by lia. by intros ->.
Qed.

Lemma located_inj a a' off : located a off → located a' off → a = a'.
Proof using regions_good off_disjoint.
  intros [Ha _] [Ha' _]. pose proof (GetOffset_spec a) as Hs. pose proof (GetOffset_spec a') as Hs'. rewrite Ha in Hs. rewrite Ha' in Hs'.
  destruct Hs as (r & Hr & Hh & Ho & _), Hs' as (r' & Hr' & Hh' & Ho' & _). unfold holds_addr in *.
  assert (r = r') as <- by (apply (off_disjoint r r' off); unfold holds_off; try done; lia). lia.
Qed.

(** The two trackers. *)
Lemma mark_ok t i w : uffd_ok t → calls t !! i = Some w → w_pc w = WMark →
  ∃ m, Add (E := ()) (missingRequests t) (w_off w) = Ok m ∧
    uffd_ok (with_call (mkUffd (pages t) (events t) (calls t) m (prefetchTracker t) (serve t) (exitSignal t)) i (with_wpc w WTrack)).
Proof using All.
  intros Ht Hi Hpc. pose proof (uo_calls _ Ht i w Hi) as (Hl & Hp & Hs & Hd). rewrite Hpc in Hd.
  pose proof (located_range _ _ Hl) as (_ & Hoff & _). pose proof bs_pos.
  destruct Ht. destruct uo_track0 as (offs & F1 & F2 & F3).
  destruct (tracker_run_tracks bs (missingRequests t) offs [TAdd (w_off w)]) as (m & Hm & Htr); [done|done|by apply Forall_singleton|].
  simpl in Hm. destruct (Add (missingRequests t) (w_off w)) as [m'|?|]; [|done..]. simpl in Hm. injection Hm as ->.
  exists m. split; [done|].
  assert (∀ j x, calls t !! j = Some x → j ≠ i → <[i := with_wpc w WTrack]> (calls t) !! j = Some x) as Hkeep.
  { intros j x Hj Hne. by rewrite list_lookup_insert_ne. }
  assert (<[i := with_wpc w WTrack]> (calls t) !! i = Some (with_wpc w WTrack)) as Hself.
  { apply list_lookup_insert_eq. by eapply lookup_lt_Some. }
  split; simpl; try done.
  - intros j x [(-> & <- & _)|[_ Hj]]%list_lookup_insert_Some; [by split_and!|by eapply uo_calls0].
  - exists (w_off w :: offs). split_and!; [done| |].
    + intros off [->|Hin]%elem_of_cons; [|by apply F2]. exists (w_addr w). split; [done|]. destruct Hd as [d Hd]. by exists (d, negb (is_write (w_access w))).
    + intros a off Hla Hin. destruct (F3 a off Hla Hin) as [?|(j & x & Hj & Ha & Hx)]; [left; by right|].
      destruct (decide (j = i)) as [->|Hne]; [|right; exists j, x; split; [by apply Hkeep|done]].
      assert (x = w) as -> by congruence. subst a. left. destruct Hla as [E _], Hl as [E' _]. rewrite E in E'. injection E' as ->. left.
  - intros Htrk. destruct (uo_prefetch0 Htrk) as (seen & G1 & G2 & G3 & G4). exists seen. split_and!; [done| |done|].
    { pose proof (served_insert t i w (with_wpc w WTrack) Hi) as Hcnt. unfold served in Hcnt at 1. rewrite Hpc in Hcnt.
      specialize (Hcnt eq_refl). lia. }
    intros a off Hla Hin. destruct (G4 a off Hla Hin) as [?|(j & x & Hj & Ha & Hx)]; [by left|]. right.
    destruct (decide (j = i)) as [->|Hne]; [|exists j, x; split; [by apply Hkeep|done]].
    assert (x = w) as -> by congruence. exists i, (with_wpc w WTrack). split; [done|]. split; [done|by right].
Qed.

Lemma track_ok t i w : uffd_ok t → calls t !! i = Some w → w_pc w = WTrack → Z.of_nat (length (calls t)) < maxI64 →
  ∃ p, PAdd (E := ()) (prefetchTracker t) (w_off w) (w_access w) = Ok p ∧
    uffd_ok (with_call (mkUffd (pages t) (events t) (calls t) (missingRequests t) p (serve t) (exitSignal t)) i (with_wpc w (WDone None))).
Proof using All.
  intros Ht Hi Hpc Hlen. pose proof (uo_calls _ Ht i w Hi) as (Hl & Hp & Hs & Hd). rewrite Hpc in Hd. destruct Hd as [d Hd].
  pose proof (located_range _ _ Hl) as (_ & Hoff & _). pose proof bs_pos.
  pose proof (served_insert t i w (with_wpc w (WDone None)) Hi) as Hcnt. unfold served in Hcnt at 1. rewrite Hpc in Hcnt.
  specialize (Hcnt eq_refl). simpl in Hcnt.
  assert (count_if served (calls t) ≤ length (calls t))%nat as Hle by (unfold count_if; apply length_filter).
  assert (∃ p, PAdd (E := ()) (prefetchTracker t) (w_off w) (w_access w) = Ok p ∧ (isTracking p = true → ∃ seen, prefetches bs p seen ∧
    (length seen ≤ S (count_if served (calls t)))%nat ∧
    (∀ k acc, (k, acc) ∈ seen → ∃ a off data, located a off ∧ off / bs = k ∧ pages t !! a = Some (data, negb (is_write acc))) ∧
    (∀ a off, located a off → installed t a → off / bs ∈ seen.*1 ∨ ∃ i' w', i' ≠ i ∧ calls t !! i' = Some w' ∧ tracking w' a))) as (p & Hpadd & Hseen).
  { destruct (isTracking (prefetchTracker t)) eqn:Etr.
    2: { exists (prefetchTracker t). unfold PAdd. rewrite Etr. by split. }
    destruct (uo_prefetch _ Ht Etr) as (seen & G1 & G2 & G3 & G4).
    destruct (prefetches_step bs (prefetchTracker t) seen (w_off w) (w_access w)) as (p & Hpa & Hpp); [done|done|done|lia|].
    exists p. split; [done|]. intros _. set (seen' := if decide _ then _ else _) in Hpp.
    assert (seen' = seen ∧ w_off w / bs ∈ seen.*1 ∨ seen' = seen ++ [(w_off w / bs, w_access w)]) as Hs' by (unfold seen'; case_decide; auto).
    assert (w_off w / bs ∈ seen'.*1 ∧ seen.*1 ⊆ seen'.*1) as [Hself Hsub].
    { destruct Hs' as [[-> ?]| ->]; [done|]. rewrite fmap_app. split; [apply elem_of_app; right; by left|].
      intros x Hx. apply elem_of_app. by left. }
    exists seen'. split_and!; [done| | |].
    - destruct Hs' as [[-> ?]| ->]; [lia|]. rewrite length_app. simpl. lia.
    - intros k acc Hk. assert ((k, acc) ∈ seen ∨ (k, acc) = (w_off w / bs, w_access w)) as [?|[= -> ->]].
      { destruct Hs' as [[E ?]|E]; rewrite E in Hk; [by left|]. apply elem_of_app in Hk as [?|?%list_elem_of_singleton]; auto. }
      + by apply G3.
      + by exists (w_addr w), (w_off w), d.
    - intros a off Hla Hin. destruct (G4 a off Hla Hin) as [?|(j & x & Hj & Hx)]; [left; by apply Hsub|].
      destruct (decide (j = i)) as [->|Hne]; [|right; by exists j, x]. left. assert (x = w) as -> by congruence. destruct Hx as [Ha _]. subst a.
      destruct Hla as [E _], Hl as [E' _]. rewrite E in E'. injection E' as ->. done. }
  exists p. split; [done|]. destruct Ht. split; simpl; try done.
  - intros j x [(-> & <- & _)|[_ Hj]]%list_lookup_insert_Some; [|by eapply uo_calls0]. split_and!; try done. simpl. by eexists.
  - destruct uo_track0 as (offs & F1 & F2 & F3). exists offs. split_and!; [done..|]. intros a off Hla Hin.
    destruct (F3 a off Hla Hin) as [?|(j & x & Hj & Ha & Hx)]; [by left|]. right. exists j, x. split; [|done].
    rewrite list_lookup_insert_ne; [done|]. intros ->. assert (x = w) as -> by congruence. congruence.
  - intros Htrk. destruct (Hseen Htrk) as (seen & G1 & G2 & G3 & G4). exists seen. split_and!; [done|lia|done|].
    intros a off Hla Hin. destruct (G4 a off Hla Hin) as [?|(j & x & Hne & Hj & Hx)]; [by left|]. right. exists j, x.
    by rewrite list_lookup_insert_ne.
Qed.

Lemma serve_fault_located a f : (bs | a) →
  match serve_fault regions a f with SSpawn x off ps _ => x = a ∧ located x off ∧ ps = bs | SReturned x _ => x = Some a | _ => False end.
Proof using regions_good.
  intros Hd. unfold serve_fault. pose proof (GetOffset_spec a) as Hs. destruct (GetOffset regions a) as [[off ps]|?|] eqn:E; [|done..].
  destruct Hs as (_ & _ & _ & _ & ->). destruct (negb _); [by split_and!|]. by destruct (f =? 0).
Qed.

Lemma uffd_step_ok t l : uffd_ok t → label_ok l → Z.of_nat (length (calls t)) < maxI64 →
  match uffd_step src regions t l with Ok t' => uffd_ok t' | Err _ => True | Panic => False end.
Proof using All.
  intros Ht Hl Hlen. pose proof (uo_events _ Ht) as Hev. pose proof (uo_serve _ Ht) as Hsv.
  assert (∀ s, match s with SSpawn _ _ _ _ => False | _ => True end → uffd_ok (with_serve t s)) as Hserve.
  { intros s Hs. eapply uffd_ok_frame; try done. simpl. by destruct s. }
  unfold uffd_step, Prefault, take_prefetch in *; destruct l as [a f|ex| |other| | | |k| |off data|i|i o|i o|i|]; simpl.
  - eapply uffd_ok_frame; try done. simpl. intros a' f' [?|Hx%list_elem_of_singleton]%elem_of_app; [by eapply Hev|]. by injection Hx as -> ->.
  - destruct (serve t); try done. destruct ex, (exitSignal t); try done; by apply Hserve.
  - destruct (serve t); try done. by apply Hserve.
  - destruct (serve t); try done. destruct other; [by apply Hserve|]. destruct (events t) as [|[a f] rest] eqn:Ee; [done|].
    eapply uffd_ok_frame; try done; simpl.
    + intros a' f' Hin. apply (Hev a' f'). by right.
    + pose proof (serve_fault_located a f) as Hdl. destruct (serve_fault regions a f); try done. destruct Hdl as (_ & ? & ?); [|done].
      apply (Hev a f). left.
  - destruct (serve t); try done. by apply Hserve.
  - destruct (serve t); try done. by apply Hserve.
  - destruct (serve t) as [| |a off ps acc| |] eqn:Es; try done. destruct (_ <? _); [|done]. destruct Hsv as [? ->].
    by apply new_fault_ok.
  - destruct (serve t); try done. destruct (bool_decide _); [|done]. destruct k as [k|].
    + destruct (calls t !! k ≫= call_error); [by apply Hserve|done].
    + destruct (forallb _ _); [by apply Hserve|done].
  - eapply uffd_ok_frame; done.
  - destruct Hl as [Hd ->]. destruct (GetHostVirtAddr regions off) as [[a ps]|?|] eqn:E; [|done..].
    destruct (GetHostVirtAddr_located off a ps E Hd) as [Hloc ->]. destruct (negb _); [done|].
    apply (new_fault_ok t); [done|done|by split_and!|done].
  - destruct (calls t !! i) as [w|] eqn:Ei; [|done]. destruct (w_pc w) eqn:Ew; try done.
    destruct (uo_calls _ Ht i w Ei) as (? & ? & ? & _). apply with_fault_ok; try congruence; [unfold served; by rewrite Ew|by split_and!].
  - destruct (calls t !! i) as [w|] eqn:Ei; [|done]. destruct (w_pc w) eqn:Ew; try done.
    destruct (uo_calls _ Ht i w Ei) as (? & ? & Hsrc & _). assert (served w = false) by (unfold served; by rewrite Ew).
    destruct (w_source w) as [|data] eqn:Esrc; [destruct o|].
    + apply with_fault_ok; try congruence. split_and!; try done. simpl. by rewrite Esrc.
    + apply finish_ok; congruence.
    + apply with_fault_ok; try congruence. split_and!; try done. simpl. by rewrite Esrc.
    + apply with_fault_ok; try congruence. split_and!; try done. simpl. by rewrite Esrc.
  - destruct (calls t !! i) as [w|] eqn:Ei; [|done]. destruct (w_pc w) as [| |b| | | |] eqn:Ew; try done.
    pose proof (uo_calls _ Ht i w Ei) as (Hlo & Hps & Hsrc & Hb). rewrite Ew in Hb.
    assert (served w = false) by (unfold served; by rewrite Ew).
    destruct b as [|x b]; [apply with_fault_ok; try congruence; by split_and!|].
    rewrite Hps, (located_page _ _ Hlo). destruct (pages t !! w_addr w) as [pg|] eqn:Ep.
    + apply with_fault_ok; try congruence. split_and!; try done. simpl. by exists pg.
    + destruct o as [stray|]; [|apply finish_ok; congruence]. destruct (_ <? _); [done|].
      pose proof (copy_ok t i w (x :: b) stray Ht Ei Ew Ep) as Hco. by rewrite Hps in Hco.
  - destruct (calls t !! i) as [w|] eqn:Ei; [|done]. destruct (w_pc w) eqn:Ew; try done.
    + destruct (mark_ok t i w Ht Ei Ew) as (m & -> & Hm). exact Hm.
    + destruct (track_ok t i w Ht Ei Ew Hlen) as (p & -> & Hp). exact Hp.
  - destruct (bool_decide _); [|done]. destruct Ht. split; done.
Qed.

Lemma step_calls t l t' : uffd_step src regions t l = Ok t' → (length (calls t') ≤ S (length (calls t)))%nat.
Proof using.
  assert (∀ i w, length (<[i := w]> (calls t)) = length (calls t)) as Hins by (intros; apply length_insert).
  assert (∀ w, length (calls t ++ [w]) = S (length (calls t))) as Happ by (intros; rewrite length_app; simpl; lia).
  unfold uffd_step, Prefault, take_prefetch in *; destruct l as [a f|ex| |other| | | |k| |off data|i|i o|i o|i|]; simpl; try (destruct (calls t !! i) as [w|]; [|done]).
  all: try (destruct (w_pc w); try done).
  1-9: repeat case_match; intros; simplify_eq/=; rewrite ?Happ; lia.
  1-6: try (repeat case_match; intros; simplify_eq/=; rewrite ?Happ, ?Hins; lia).
  - destruct (Add _ _) as [m|?|]; simpl; [|done..]. intros [= <-]. simpl. rewrite Hins. lia.
  - destruct (PAdd _ _ _) as [m|?|]; simpl; [|done..]. intros [= <-]. simpl. rewrite Hins. lia.
  - destruct (bool_decide _); [|done]. intros [= <-]. simpl. lia.
Qed.
Lemma uffd_run_ok ls : ∀ t, uffd_ok t → Forall label_ok ls → Z.of_nat (length (calls t) + length ls) < maxI64 →
  match uffd_run src regions t ls with Ok t' => uffd_ok t' | Err _ => True | Panic => False end.
Proof using All.
  induction ls as [|l ls IH]; intros t Ht Hl Hlen; simpl in *; [done|]. apply Forall_cons in Hl as [Hl Hls].
  pose proof (uffd_step_ok t l Ht Hl ltac:(lia)) as Hs. destruct (uffd_step src regions t l) as [t'|?|] eqn:E; [|done..]. simpl.
  apply IH; [done|done|]. pose proof (step_calls t l t' E). lia.
Qed.
Lemma NewUserfaultfd_ok t : NewUserfaultfdFromFd regions bs = Ok t → uffd_ok t.
Proof using All.
  unfold NewUserfaultfdFromFd. destruct (filter _ _); [|done]. intros [= <-]. split; simpl; try done.
  - by intros a f ?%not_elem_of_nil.
  - exists []. split_and!; [apply NewTracker_tracks|by intros off ?%not_elem_of_nil|]. intros a off _ [p Hp]. simpl in Hp. by rewrite lookup_empty in Hp.
  - intros _. exists []. split_and!; [apply NewPrefetchTracker_prefetches|done|by intros k acc ?%not_elem_of_nil|].
    intros a off _ [p Hp]. simpl in Hp. by rewrite lookup_empty in Hp.
Qed.

(** ** No fault is forgotten *)
Definition raised (ls : list ulabel) : list Z := omap (λ l, match l with UFault a _ => Some a | _ => None end) ls.
Definition pending (s : serve_pc) : list Z :=
  match s with SSpawn a _ _ _ | SReturned (Some a) _ => [a] | _ => [] end.
Definition accounted t : list Z := (w_addr <$> filter (λ w, w_serve w = true) (calls t)) ++ pending (serve t) ++ (events t).*1.
Definition panics (ls : list ulabel) : bool := existsb (λ l, match l with USlice _ SlicePanics => true | _ => false end) ls.
Definition recovered w : bool := match w_pc w with WRecovered => true | _ => false end.

Lemma filter_serve_insert (ws : list fault_call) i w w' : ws !! i = Some w → w_serve w' = w_serve w → w_addr w' = w_addr w →
  w_addr <$> filter (λ w, w_serve w = true) (<[i := w']> ws) = w_addr <$> filter (λ w, w_serve w = true) ws.
Proof using.
  revert i. induction ws as [|x ws IH]; intros [|i] Hi Hs Ha; simplify_eq/=.
  - rewrite !filter_cons, Hs. case_decide; simpl; [by rewrite Ha|done].
  - rewrite !filter_cons. case_decide; simpl; [f_equal|]; by apply IH.
Qed.

Lemma step_accounted t l t' : uffd_ok t → uffd_step src regions t l = Ok t' → accounted t' = accounted t ++ raised [l].
Proof using All.
  intros Ht Hs. pose proof (uo_events _ Ht) as Hev.
  assert (∀ p i w, calls t !! i = Some w →
    w_addr <$> filter (λ w, w_serve w = true) (<[i := with_wpc w p]> (calls t)) = w_addr <$> filter (λ w, w_serve w = true) (calls t)) as Hins.
  { intros p i w Hi. by eapply filter_serve_insert. }
  unfold accounted, raised. unfold uffd_step, Prefault, take_prefetch in *; destruct l as [a f|ex| |other| | | |k| |off data|i|i o|i o|i|]; simpl in *; rewrite ?app_nil_r.
  - injection Hs as <-. simpl. by rewrite fmap_app, <-!app_assoc.
  - destruct (serve t); try done. destruct ex, (exitSignal t); by simplify_eq/=.
  - destruct (serve t); by simplify_eq/=.
  - destruct (serve t); try done. destruct other; [by simplify_eq/=|]. destruct (events t) as [|[a f] rest]; [done|]. injection Hs as <-. simpl.
    pose proof (serve_fault_located a f ltac:(apply (Hev a f); left)) as Hd. f_equal.
    destruct (serve_fault regions a f); try done; [by destruct Hd as (-> & _)|by subst].
  - destruct (serve t); by simplify_eq/=.
  - destruct (serve t); by simplify_eq/=.
  - destruct (serve t); try done. destruct (_ <? _); [|done]. injection Hs as <-. simpl. rewrite filter_app, fmap_app. simpl.
    by rewrite <- app_assoc.
  - destruct (serve t); try done. destruct (bool_decide _); [|done]. destruct k as [k|]; [destruct (calls t !! k ≫= call_error)|destruct (forallb _ _)];
      by simplify_eq/=.
  - by simplify_eq/=.
  - destruct (GetHostVirtAddr regions off) as [[a ps]|?|]; try (by simplify_eq/=). destruct (negb _); simplify_eq/=; [done|].
    rewrite filter_app, fmap_app. simpl. by rewrite app_nil_r.
  - destruct (calls t !! i) as [w|] eqn:Ei; [|done]. destruct (w_pc w); simplify_eq/=. by rewrite Hins.
  - destruct (calls t !! i) as [w|] eqn:Ei; [|done]. destruct (w_pc w), (w_source w), o; simplify_eq/=; by rewrite Hins.
  - destruct (calls t !! i) as [w|] eqn:Ei; [|done]. destruct (w_pc w) as [| |[|x b]| | | |]; simplify_eq/=; [by rewrite Hins|].
    destruct (pages t !! _); [simplify_eq/=; by rewrite Hins|]. destruct o; [destruct (_ <? _); [done|]|]; simplify_eq/=; by rewrite Hins.
  - destruct (calls t !! i) as [w|] eqn:Ei; [|done]. destruct (w_pc w); try done.
    + destruct (Add _ _); simplify_eq/=. by rewrite Hins.
    + destruct (PAdd _ _ _); simplify_eq/=. by rewrite Hins.
  - destruct (bool_decide _); by simplify_eq/=.
Qed.

(** A call recovers only from a panic of the source. *)
Lemma step_recovered t l t' : uffd_ok t → panics [l] = false → Forall (λ w, recovered w = false) (calls t) →
  uffd_step src regions t l = Ok t' → Forall (λ w, recovered w = false) (calls t').
Proof using All.
  intros Ht Hp Hr Hs.
  assert (∀ i w p, p ≠ WRecovered → Forall (λ w, recovered w = false) (<[i := with_wpc w p]> (calls t))) as Hins.
  { intros i w p Hn. apply Forall_insert; [done|]. by destruct p. }
  assert (∀ w, w_pc w = WLock → Forall (λ w, recovered w = false) (calls t ++ [w])) as Happ.
  { intros w Hw. apply Forall_app. split; [done|]. apply Forall_singleton. unfold recovered. by rewrite Hw. }
  unfold uffd_step, Prefault, take_prefetch in *; destruct l as [a f|ex| |other| | | |k| |off data|i|i o|i o|i|]; simpl in *; try (repeat case_match; simplify_eq/=; done).
  - destruct (serve t); try done. destruct (_ <? _); simplify_eq/=. by apply Happ.
  - destruct (GetHostVirtAddr regions off) as [[a ps]|?|]; try (by simplify_eq/=). destruct (negb _); simplify_eq/=; [done|]. by apply Happ.
  - destruct (calls t !! i) as [w|] eqn:Ei; [|done]. destruct (w_pc w); simplify_eq/=. by apply Hins.
  - destruct (calls t !! i) as [w|] eqn:Ei; [|done]. destruct (w_pc w), (w_source w), o; simplify_eq/=; by apply Hins.
  - destruct (calls t !! i) as [w|] eqn:Ei; [|done]. destruct (uo_calls _ Ht i w Ei) as (_ & _ & _ & Hb).
    destruct (w_pc w) as [| |[|x b]| | | |]; try done.
    { pose proof (src_whole (w_off w)) as Hw. rewrite <- Hb in Hw. pose proof bs_pos. change (0 = bs) in Hw. lia. }
    destruct (pages t !! _); [simplify_eq/=; by apply Hins|]. destruct o; [destruct (_ <? _); [done|]|]; simplify_eq/=; by apply Hins.
  - destruct (calls t !! i) as [w|] eqn:Ei; [|done]. destruct (w_pc w); try done.
    + destruct (Add _ _); simplify_eq/=. by apply Hins.
    + destruct (PAdd _ _ _); simplify_eq/=. by apply Hins.
Qed.

(** The steps a call has left. *)
Definition rank w : option nat :=
  match w_pc w with
  | WLock => Some 5%nat | WSlice => Some 4%nat | WCopy _ => Some 3%nat | WMark => Some 2%nat | WTrack => Some 1%nat
  | WDone None => Some 0%nat
  | _ => None
  end.

Lemma advance t i w n : uffd_ok t → Z.of_nat (length (calls t)) < maxI64 → calls t !! i = Some w → rank w = Some (S n) →
  ∃ l t' w' m, uffd_step src regions t l = Ok t' ∧ label_ok l ∧ calls t' !! i = Some w' ∧ w_addr w' = w_addr w ∧
    rank w' = Some m ∧ (m ≤ n)%nat ∧ length (calls t') = length (calls t).
Proof using All.
  intros Ht Hlen Hi Hr. destruct (uo_calls _ Ht i w Hi) as (Hlo & Hps & Hsrc & Hb).
  assert (∀ p, <[i := with_wpc w p]> (calls t) !! i = Some (with_wpc w p)) as Hself.
  { intros p. apply list_lookup_insert_eq. by eapply lookup_lt_Some. }
  pose proof (λ w', length_insert (calls t) i w') as Hins.
  unfold rank in Hr. destruct (w_pc w) as [| |b| | |[e|]|] eqn:Ew; try done; injection Hr as <-.
  - exists (ULock i), (with_call t i (with_wpc w WSlice)), (with_wpc w WSlice), 4%nat. simpl. rewrite Hi, Ew. by split_and!.
  - destruct (w_source w) as [|data] eqn:Es; eexists (USlice i SliceOk), _, (with_wpc w (WCopy _)), 3%nat;
      simpl; rewrite Hi, Ew, Es; (split_and!; [done|done|apply Hself|done|done|lia|apply Hins]).
  - destruct b as [|x b].
    { pose proof (src_whole (w_off w)) as Hw. rewrite <- Hb in Hw. pose proof bs_pos. change (0 = bs) in Hw. lia. }
    destruct (pages t !! w_addr w) as [pg|] eqn:Ep.
    + exists (UCopy i CopyFails), (with_call t i (with_wpc w (WDone None))), (with_wpc w (WDone None)), 0%nat.
      simpl. rewrite Hi, Ew, Hps, (located_page _ _ Hlo), Ep. split_and!; [done..|lia|apply Hins].
    + eexists (UCopy i (CopyOk [])), _, (with_wpc w WMark), 2%nat. simpl.
      rewrite Hi, Ew, Hps, (located_page _ _ Hlo), Ep, app_nil_r, Hb, src_whole, Z.ltb_irrefl. split_and!; [done|done|apply Hself|done|done|lia|apply Hins].
  - destruct (mark_ok t i w Ht Hi Ew) as (m & Hm & _). eexists (UMark i), _, (with_wpc w WTrack), 1%nat. simpl.
    rewrite Hi, Ew, Hm. split_and!; [done|done|apply Hself|done|done|lia|apply Hins].
  - destruct (track_ok t i w Ht Hi Ew Hlen) as (p & Hp & _). eexists (UMark i), _, (with_wpc w (WDone None)), 0%nat. simpl.
    rewrite Hi, Ew, Hp. split_and!; [done|done|apply Hself|done|done|lia|apply Hins].
Qed.

Lemma complete n : ∀ t i w, uffd_ok t → Z.of_nat (length (calls t)) < maxI64 → calls t !! i = Some w → rank w = Some n →
  ∃ ls t', (length ls ≤ n)%nat ∧ uffd_run src regions t ls = Ok t' ∧ installed t' (w_addr w).
Proof using All.
  induction (lt_wf n) as [n _ IH]. intros t i w Ht Hlen Hi Hr. destruct n as [|n].
  { exists [], t. split_and!; [done..|]. destruct (uo_calls _ Ht i w Hi) as (_ & _ & _ & Hb). unfold rank in Hr.
    destruct (w_pc w) as [| |b| | |[e|]|]; done. }
  destruct (advance t i w n Ht Hlen Hi Hr) as (l & t' & w' & m & Hs & Hl & Hi' & Ha & Hr' & Hm & Hlen').
  pose proof (uffd_step_ok t l Ht Hl Hlen) as Ht'. rewrite Hs in Ht'.
  destruct (IH m ltac:(lia) t' i w' Ht' ltac:(lia) Hi' Hr') as (ls & t2 & Hls & Hrun & Hin).
  exists (l :: ls), t2. simpl. rewrite Hs. split_and!; [lia|done|]. by rewrite <- Ha.
Qed.

Lemma uffd_run_history ls : ∀ t t', uffd_ok t → Forall label_ok ls → Z.of_nat (length (calls t) + length ls) < maxI64 →
  uffd_run src regions t ls = Ok t' →
  accounted t' = accounted t ++ raised ls ∧
  (panics ls = false → Forall (λ w, recovered w = false) (calls t) → Forall (λ w, recovered w = false) (calls t')) ∧
  Z.of_nat (length (calls t')) < maxI64.
Proof using All.
  induction ls as [|l ls IH]; intros t t' Ht Hl Hlen Hrun; simpl in *.
  { injection Hrun as <-. rewrite app_nil_r. split_and!; [done..|lia]. }
  apply Forall_cons in Hl as [Hl Hls]. pose proof (uffd_step_ok t l Ht Hl ltac:(lia)) as Ht1.
  destruct (uffd_step src regions t l) as [t1|?|] eqn:E; [|done..]. simpl in Hrun. pose proof (step_calls t l t1 E).
  destruct (IH t1 t' Ht1 Hls ltac:(lia) Hrun) as (Ha & Hr & Hb). split_and!; [| |done].
  - rewrite Ha, (step_accounted t l t1 Ht E), <- app_assoc. unfold raised. by rewrite <- omap_app.
  - intros [Hp Hps]%orb_false_iff Hrec. apply Hr; [done|]. eapply (step_recovered t l); try done. simpl. by rewrite Hp.
Qed.

(** ** Properties *)

(** C25: however the guest's faults, the goroutines of [faultPage], [Prefault]
    and the failures interleave, a page of the guest is only ever filled with the
    block of the memory file it stands for, nothing panics, and a copy of the
    missing tracker taken by [faulted] holds exactly the offsets of the pages that
    are installed; while prefetch tracking is on, the recorded access of a block says whether its page
    was installed write-protected. *)
Theorem Uffd_safe t0 ls :
  NewUserfaultfdFromFd regions bs = Ok t0 → Forall label_ok ls → Z.of_nat (length ls) < maxI64 →
  match uffd_run src regions t0 ls with
  | Ok t =>
      (∀ a p, pages t !! a = Some p → ∃ off, located a off ∧ p.1 = src off) ∧
      (∀ m, faulted t = Some m → ∀ a off, located a off → Has (E := ()) m off = Ok (bool_decide (is_Some (pages t !! a)))) ∧
      (isTracking (prefetchTracker t) = true → ∀ k e, BlockEntries (PrefetchData (prefetchTracker t)).1 !! k = Some e →
         ∃ a off, located a off ∧ off / bs = k ∧ pages t !! a = Some (src off, negb (is_write (EAccessType e))))
  | Err _ => True
  | Panic => False
  end.
Proof using All.
  intros Hn Hl Hlen. pose proof (NewUserfaultfd_ok t0 Hn) as Ht0.
  assert (calls t0 = []) as Hc. { unfold NewUserfaultfdFromFd in Hn. destruct (filter _ _); [|done]. by injection Hn as <-. }
  pose proof (uffd_run_ok ls t0 Ht0 Hl) as Hok. rewrite Hc in Hok. specialize (Hok Hlen).
  destruct (uffd_run src regions t0 ls) as [t|?|]; [|done..]. clear Hn Ht0 Hc. pose proof bs_pos as Hbs. split_and!.
  - apply (uo_pages t Hok).
  - unfold faulted. intros m Hm a off Hla. destruct (bool_decide _) eqn:Eh; [|done]. injection Hm as <-. apply bool_decide_eq_true in Eh.
    destruct (uo_track _ Hok) as (offs & [Hb F1] & F2 & F3). pose proof (located_range _ _ Hla) as (_ & Hoff & _).
    unfold Has, Clone. simpl. rewrite Hb, BlockIdx_eq by done. simpl. unfold off_ok, maxI64 in Hoff.
    pose proof (div_self_bound off bs ltac:(lia) Hbs). rewrite u64_small by lia. f_equal.
    apply eq_bool_prop_intro. rewrite bool_decide_spec, Is_true_true, F1 by (apply Z.div_pos; lia). split.
    + intros (off' & Hin & Hdiv). destruct (F2 off' Hin) as (a' & Hla' & Hin').
      assert (off' = off) as -> by by eapply same_block. by rewrite (located_inj a a' off Hla Hla').
    + intros Hin. destruct (F3 a off Hla Hin) as [?|(i & w & Hi & Ha & Hpc)]; [by exists off|]. exfalso.
      pose proof (count_if_pos holds_lock (calls t) i w Hi) as Hz. unfold holds_lock at 1 in Hz. rewrite Hpc in Hz. specialize (Hz eq_refl). lia.
  - intros Htr k e He. destruct (uo_prefetch _ Hok Htr) as (seen & (_ & _ & _ & _ & G1) & _ & G2 & _).
    destruct (proj1 (G1 k e) He) as (p & acc & Hp & ->). apply list_elem_of_lookup_2 in Hp. destruct (G2 k acc Hp) as (a & off & data & Hla & Hk & Hpg).
    exists a, off. split_and!; [done..|]. simpl. rewrite Hpg. destruct (uo_pages _ Hok a _ Hpg) as (off' & [E _] & Hd). destruct Hla as [E' _].
    rewrite E in E'. injection E' as ->. simpl in Hd. by rewrite Hd.
Qed.

(** C26: no page fault is forgotten.  Every fault the guest raised is in the
    kernel's queue, held by the serving loop, or the address of a call of
    [faultPage]; and a call that has not failed can be completed by at most five of
    its own steps, whatever the rest of the system is doing, after which its page is
    installed.  A call [Serve] started that failed has asked the system to exit, and a call
    dies without an error only when the source panics. *)
Theorem Uffd_no_fault_lost t0 ls t :
  NewUserfaultfdFromFd regions bs = Ok t0 → Forall label_ok ls → Z.of_nat (length ls) < maxI64 →
  uffd_run src regions t0 ls = Ok t →
  raised ls = (w_addr <$> filter (λ w, w_serve w = true) (calls t)) ++ pending (serve t) ++ (events t).*1 ∧
  ∀ i w, calls t !! i = Some w →
    match w_pc w with
    | WDone (Some _) => w_serve w = true → exitSignal t = true
    | WRecovered => panics ls = true
    | _ => ∃ ls' t', (length ls' ≤ 5)%nat ∧ uffd_run src regions t ls' = Ok t' ∧ is_Some (pages t' !! w_addr w)
    end.
Proof using All.
  intros Hn Hl Hlen Hrun. pose proof (NewUserfaultfd_ok t0 Hn) as Ht0.
  assert (calls t0 = [] ∧ accounted t0 = []) as [Hc Ha].
  { unfold NewUserfaultfdFromFd in Hn. destruct (filter _ _); [|done]. by injection Hn as <-. }
  pose proof (uffd_run_ok ls t0 Ht0 Hl) as Hok. rewrite Hc, Hrun in Hok. specialize (Hok Hlen).
  destruct (uffd_run_history ls t0 t Ht0 Hl) as (Hacc & Hrec & Hb); [by rewrite Hc|done|]. rewrite Ha in Hacc. split; [done|].
  intros i w Hi. pose proof (λ n, complete n t i w Hok Hb Hi) as Hcomp. unfold rank, installed in Hcomp.
  destruct (w_pc w) as [| |b| | |[e|]|] eqn:Ew.
  all: try (destruct (Hcomp _ eq_refl) as (ls' & t' & Hle & ?); exists ls', t'; split; [lia|done]).
  - pose proof (uo_calls _ Hok i w Hi) as (_ & _ & _ & Hx). by rewrite Ew in Hx.
  - destruct (panics ls); [done|]. rewrite Hc in Hrec. pose proof (proj1 (Forall_lookup _ _) (Hrec eq_refl (Forall_nil_2 _)) i w Hi) as Hx.
    simpl in Hx. unfold recovered in Hx. by rewrite Ew in Hx.
Qed.
End laws.

(** ** Witnesses *)
#[local] Existing Instances BoolBits.ops BoolBits.laws.

(** Two pages of two bytes at host address 8, which the memory file holds from 0. *)
Definition two_pages : list Region := [mkRegion 8 4 0 2].
Definition ex_src (off : Z) : list byte := if off =? 0 then [x01; x02] else [x03; x04].

Lemma two_pages_good : Forall (λ r, region_ok r ∧ RPageSize r = 2 ∧ (2 | ROffset r) ∧ (2 | BaseHostVirtAddr r)) two_pages.
Proof. apply Forall_singleton. unfold region_ok, maxI64. simpl. split_and!; try lia; [by exists 0|by exists 4]. Qed.
Lemma ex_one (P : Region → Z → Prop) r r' a : r ∈ two_pages → r' ∈ two_pages → P r a → P r' a → r = r'.
Proof. by intros ->%list_elem_of_singleton ->%list_elem_of_singleton. Qed.
Lemma ex_src_whole off : zlength (ex_src off) = 2.
Proof. unfold ex_src. by destruct (off =? 0). Qed.

Definition ex_start : uffd_sys (list bool) := mkUffd ∅ [] [] (NewTracker 2) (NewPrefetchTracker 2) SPoll false.
(** A read of the second page and a prefault of the first. *)
Definition ex_labels : list ulabel :=
  [UFault 10 0; UPoll false; UReadEvent false; UPrefault 0 [x01; x02]; USpawn; ULock 1; ULock 0; USlice 0 SliceOk;
   USlice 1 SliceOk; UCopy 1 (CopyOk []); UMark 1; UCopy 0 (CopyOk []); UMark 1; UMark 0].
Lemma ex_labels_ok : Forall (label_ok ex_src 2) ex_labels.
Proof. repeat constructor; simpl; try done; [by exists 5|by exists 0]. Qed.

Lemma Uffd_safe_witness :
  match uffd_run ex_src two_pages ex_start ex_labels with
  | Ok t => pages t = {[8 := ([x01; x02], true); 10 := ([x03; x04], true)]} ∧ bool_decide (faulted t = None) = true ∧
      ∀ a p, pages t !! a = Some p → ∃ off, located two_pages 2 a off ∧ p.1 = ex_src off
  | _ => False
  end.
Proof.
  pose proof (Uffd_safe ex_src two_pages 2 ltac:(by exists 1) two_pages_good (ex_one holds_addr) (ex_one holds_off) ex_src_whole
    ex_start ex_labels eq_refl ex_labels_ok ltac:(by vm_compute)) as Hs.
  destruct (uffd_run ex_src two_pages ex_start ex_labels) as [t|?|] eqn:E; vm_compute in E; [|discriminate..].
  injection E as <-. split_and!; [by vm_compute|by vm_compute|]. apply Hs.
Defined.

Lemma Uffd_no_fault_lost_witness :
  ∃ t, uffd_run ex_src two_pages ex_start ex_labels = Ok t ∧ raised ex_labels = [10] ∧
    ∃ ls' t', (length ls' ≤ 5)%nat ∧ uffd_run ex_src two_pages t ls' = Ok t' ∧ is_Some (pages t' !! 10).
Proof.
  pose proof (Uffd_no_fault_lost ex_src two_pages 2 ltac:(by exists 1) two_pages_good (ex_one holds_addr) (ex_one holds_off) ex_src_whole
    ex_start ex_labels) as Hs.
  destruct (uffd_run ex_src two_pages ex_start ex_labels) as [t|?|] eqn:E; [|vm_compute in E; discriminate..].
  exists t. split; [done|]. split; [done|].
  destruct (Hs t eq_refl ex_labels_ok) as [_ Hc]; [by vm_compute|done|].
  specialize (Hc 1%nat). clear Hs. vm_compute in E. injection E as <-. exact (Hc _ eq_refl).
Defined.

(** A panic while a page is read from the source is recovered and the call
    reports success: the page is missing, the exit signal is not raised, and when the
    system is stopped [Serve] returns no error. *)
Theorem Uffd_panic_is_success :
  ∃ t, uffd_run ex_src two_pages ex_start
      [UFault 10 0; UPoll false; UReadEvent false; USpawn; ULock 0; USlice 0 SlicePanics] = Ok t ∧
    pages t = ∅ ∧ exitSignal t = false ∧ events t = [] ∧ serve t = SPoll ∧ count_if in_progress (calls t) = 0%nat ∧
    ∃ t', uffd_run ex_src two_pages t [UStop; UPoll true; UWaited None] = Ok t' ∧ serve t' = SReturned None None.
Proof. eexists. split; [by vm_compute|]. split_and!; try by vm_compute. eexists. split; [by vm_compute|]. by vm_compute. Qed.
