(* ===== verification/Nodes.v ===== *)
(** * Nodes

    packages/api/internal/orchestrator: the nodes sandboxes run on.  nodemanager:
    [node.go], [status.go], [metrics.go], [placement_metrics.go], [labels.go],
    [machine_info.go], [client.go] (the status mapper) and [sync.go]; [client.go]
    and [cache.go]: the registry of nodes and the periodic synchronisation;
    shared/pkg/machineinfo.

    A node is reached through a pointer, an index into the nodes allocated so far;
    the registry is the concurrent map from scoped identifiers to pointers.  What a
    node answers over gRPC is an argument ([ServiceInfo], [sync_answer]). *)
From S2P Require Import Prelude Smap SyncUtils SandboxState Removal Reservations SandboxStore.

(** ** machineinfo *)
Record MachineInfo := mkMachineInfo {
  CPUArchitecture : string; CPUFamily : string; CPUModel : string; CPUModelName : string; CPUFlags : list string;
}.
Definition IsCompatibleWith (m other : MachineInfo) : bool :=
  bool_decide (CPUArchitecture m = CPUArchitecture other) && bool_decide (CPUFamily m = CPUFamily other) &&
  bool_decide (CPUModel m = CPUModel other).
Definition FromGRPCInfo (info : option MachineInfo) : MachineInfo :=
  match info with None => mkMachineInfo "" "" "" "" [] | Some i => i end.

(** ** Status *)
Inductive NodeStatus := NodeStatusReady | NodeStatusDraining | NodeStatusConnecting | NodeStatusUnhealthy.
#[export] Instance NodeStatus_eq_dec : EqDecision NodeStatus.
Proof. solve_decision. Defined.
Inductive ServiceInfoStatus := Healthy | Draining | Unhealthy | UnknownStatus (n : Z).
(** The state of the gRPC connection. *)
Inductive conn_state := ConnIdle | ConnConnecting | ConnReady | ConnTransientFailure | ConnShutdown.

Definition OrchestratorToApiNodeStateMapper (s : ServiceInfoStatus) : option NodeStatus :=
  match s with
  | Healthy => Some NodeStatusReady
  | Draining => Some NodeStatusDraining
  | Unhealthy => Some NodeStatusUnhealthy
  | UnknownStatus _ => None
  end.
Definition ApiNodeToOrchestratorStateMapper (s : NodeStatus) : option ServiceInfoStatus :=
  match s with
  | NodeStatusReady => Some Healthy
  | NodeStatusDraining => Some Draining
  | NodeStatusUnhealthy => Some Unhealthy
  | NodeStatusConnecting => None
  end.

(** ** Metrics *)
Record DiskMetrics := mkDisk {
  MountPoint : string; Device : string; FilesystemType : string; UsedBytes : Z; TotalBytes : Z;
}.
Record Metrics := mkMetrics {
  CpuAllocated : Z; CpuPercent : Z; CpuCount : Z;                              (** [uint32] *)
  MemoryAllocatedBytes : Z; MemoryUsedBytes : Z; MemoryTotalBytes : Z;         (** [uint64] *)
  SandboxCount : Z;
  HostDisks : list DiskMetrics;
}.
Record SandboxResources := mkResources { CPUs : Z; MiBMemory : Z }.

Record NodeMetadata := mkNodeMeta { ServiceInstanceID : string; Commit : string; Version : string }.

(** [ServiceInfoResponse]. *)
Record ServiceInfo := mkInfo {
  si_node_id : string;
  si_status : ServiceInfoStatus;
  si_meta : NodeMetadata;
  si_metrics : Metrics;
  si_machine : option MachineInfo;
  si_labels : list string;
}.

Section nodes.
Context {M : Type → Type} `{CMapOps M}.

Record PlacementMetrics := mkPlacement {
  sandboxesInProgress : M SandboxResources;
  createSuccess : Z;
  createFails : Z;
}.
Definition removeSandbox (p : PlacementMetrics) (sandboxID : string) : PlacementMetrics :=
  mkPlacement (smap_Remove (sandboxesInProgress p) sandboxID) (createSuccess p) (createFails p).
Definition Success (p : PlacementMetrics) (sandboxID : string) : PlacementMetrics :=
  removeSandbox (mkPlacement (sandboxesInProgress p) (u64 (createSuccess p + 1)) (createFails p)) sandboxID.
Definition Skip (p : PlacementMetrics) (sandboxID : string) : PlacementMetrics := removeSandbox p sandboxID.
Definition Fail_ (p : PlacementMetrics) (sandboxID : string) : PlacementMetrics :=
  removeSandbox (mkPlacement (sandboxesInProgress p) (createSuccess p) (u64 (createFails p + 1))) sandboxID.
Definition InProgressCount (p : PlacementMetrics) : Z := u32 (Z.of_nat (smap_Count (sandboxesInProgress p))).
Definition StartPlacing (p : PlacementMetrics) (sandboxID : string) (resources : SandboxResources) : PlacementMetrics :=
  mkPlacement (smap_Insert (sandboxesInProgress p) sandboxID resources) (createSuccess p) (createFails p).
Definition NewPlacementMetrics : PlacementMetrics := mkPlacement smap_New 0 0.

Section cluster.
(** [ID] stands for [uuid.UUID]. *)
Context {ID : Type}.

Record Node := mkNode {
  NomadNodeShortID : string;
  NID : string;                    (** [ID] *)
  ClusterID : ID;
  status : NodeStatus;
  conn : conn_state;               (** [client.Connection.GetState()] *)
  metrics : Metrics;
  machineInfo : MachineInfo;
  labels : gset string;
  meta : NodeMetadata;
  placement : PlacementMetrics;
}.

Definition setStatus (n : Node) (s : NodeStatus) : Node :=
  mkNode (NomadNodeShortID n) (NID n) (ClusterID n) s (conn n) (metrics n) (machineInfo n) (labels n) (meta n) (placement n).
Definition setMachineInfo (n : Node) (info : option MachineInfo) : Node :=
  mkNode (NomadNodeShortID n) (NID n) (ClusterID n) (status n) (conn n) (metrics n) (FromGRPCInfo info) (labels n) (meta n) (placement n).
Definition setLabels (n : Node) (ls : list string) : Node :=
  mkNode (NomadNodeShortID n) (NID n) (ClusterID n) (status n) (conn n) (metrics n) (machineInfo n) (list_to_set ls) (meta n) (placement n).
Definition setMetadata (n : Node) (md : NodeMetadata) : Node :=
  mkNode (NomadNodeShortID n) (NID n) (ClusterID n) (status n) (conn n) (metrics n) (machineInfo n) (labels n) md (placement n).
Definition UpdateMetricsFromServiceInfoResponse (n : Node) (info : ServiceInfo) : Node :=
  mkNode (NomadNodeShortID n) (NID n) (ClusterID n) (status n) (conn n) (si_metrics info) (machineInfo n) (labels n) (meta n) (placement n).
Definition with_placement (n : Node) (p : PlacementMetrics) : Node :=
  mkNode (NomadNodeShortID n) (NID n) (ClusterID n) (status n) (conn n) (metrics n) (machineInfo n) (labels n) (meta n) p.

Definition Status (n : Node) : NodeStatus :=
  if negb (bool_decide (status n = NodeStatusReady)) then status n
  else match conn n with
       | ConnShutdown => NodeStatusUnhealthy
       | ConnTransientFailure => NodeStatusConnecting
       | ConnConnecting => NodeStatusConnecting
       | _ => status n
       end.

Definition UnknownNomadNodeShortID : string := "unknown".
Definition IsNomadManaged (n : Node) : bool := negb (bool_decide (NomadNodeShortID n = UnknownNomadNodeShortID)).

Definition node_status (s : ServiceInfoStatus) : NodeStatus := default NodeStatusUnhealthy (OrchestratorToApiNodeStateMapper s).

(** [New]; no answer is an error. *)
Definition NewNode (local : ID) (shortID : string) (c : conn_state) (nodeInfo : option ServiceInfo) : option Node :=
  match nodeInfo with
  | None => None
  | Some info =>
      let n := mkNode shortID (si_node_id info) local (node_status (si_status info)) c
                 (mkMetrics 0 0 0 0 0 0 0 []) (FromGRPCInfo None) ∅ (si_meta info) NewPlacementMetrics in
      Some (setLabels (setMachineInfo (UpdateMetricsFromServiceInfoResponse n info) (si_machine info)) (si_labels info))
  end.

(** [NewClusterNode]: what the cluster knows of the instance, then the node's own
    answer, which may be missing. *)
Definition NewClusterNode (clusterID : ID) (nodeID : string) (st : ServiceInfoStatus) (md : NodeMetadata) (c : conn_state)
    (nodeInfo : option ServiceInfo) : Node :=
  let n := mkNode UnknownNomadNodeShortID nodeID clusterID (node_status st) c
             (mkMetrics 0 0 0 0 0 0 0 []) (FromGRPCInfo None) ∅ md NewPlacementMetrics in
  match nodeInfo with
  | None => n
  | Some info => setLabels (setMachineInfo (UpdateMetricsFromServiceInfoResponse n info) (si_machine info)) (si_labels info)
  end.

(** ** sync.go *)
Context {Rest E : Type} `{Countable ID} (team : ID → string).
Abbreviation Sandbox := (Sandbox ID Rest).
Abbreviation Store := (Store M ID Rest E).

Definition syncMaxRetries : nat := 4.
(** One attempt: the node's info, then its sandboxes with the clocks of the store. *)
Inductive sync_answer :=
  | InfoFails
  | ListFails (info : ServiceInfo)
  | Synced (info : ServiceInfo) (sbxs : list Sandbox) (now : Z) (clk : string → Z * Z).

Definition update_node (n : Node) (info : ServiceInfo) : Node :=
  let n := setStatus n (node_status (si_status info)) in
  let n := setMachineInfo n (si_machine info) in
  let n := setLabels n (si_labels info) in
  let n := setMetadata n (si_meta info) in
  UpdateMetricsFromServiceInfoResponse n info.

Fixpoint sync_tries (tries : nat) (answer : nat → sync_answer) (n : Node) (store : Store) : Node * Store * list (@callback_call ID Rest) * bool :=
  match tries with
  | O => (n, store, [], false)
  | S tries =>
      match answer tries with
      | InfoFails => sync_tries tries answer n store
      | ListFails info => sync_tries tries answer (update_node n info) store
      | Synced info sbxs now clk =>
          let n := update_node n info in
          let '(store, calls) := Store_Sync team store sbxs (NID n) now clk in
          (n, store, calls, true)
      end
  end.
Definition node_Sync (answer : nat → sync_answer) (n : Node) (store : Store) : Node * Store * list (@callback_call ID Rest) :=
  let '(n, store, calls, ok) := sync_tries syncMaxRetries answer n store in
  if (ok : bool) then (n, store, calls) else (setStatus n NodeStatusUnhealthy, store, calls).

(** ** The registry *)
(** [uuid_string] is [ID.String()]. *)
Context (LocalClusterID : ID) (uuid_string : ID → string).

Record registry := mkRegistry {
  node_objs : list Node;
  nodes : M nat;
  reg_store : Store;
}.

Definition scopedNodeID (clusterID : ID) (nodeID : string) : string :=
  if bool_decide (clusterID = LocalClusterID) then nodeID
  else (uuid_string clusterID +:+ "-" +:+ nodeID)%string.

Definition registerNode (o : registry) (node : Node) : registry :=
  mkRegistry (node_objs o ++ [node]) (smap_Insert (nodes o) (scopedNodeID (ClusterID node) (NID node)) (length (node_objs o)))
    (reg_store o).
Definition deregisterNode (o : registry) (node : Node) : registry :=
  mkRegistry (node_objs o) (smap_Remove (nodes o) (scopedNodeID (ClusterID node) (NID node))) (reg_store o).

Definition GetNode (o : registry) (clusterID : ID) (nodeID : string) : option nat := smap_Get (nodes o) (scopedNodeID clusterID nodeID).
(** The nodes in the order of [Items()]. *)
Definition node_items (o : registry) : list (nat * Node) :=
  omap (λ kp : string * nat, pair kp.2 <$> node_objs o !! kp.2) (cm_iter (nodes o)).
Definition GetClusterNodes (o : registry) (clusterID : ID) : list nat :=
  (filter (λ pn : nat * Node, ClusterID pn.2 = clusterID) (node_items o)).*1.
Definition GetNodeByNomadShortID (o : registry) (id : string) : option nat :=
  (λ ip : nat * (nat * Node), ip.2.1) <$> list_find (λ pn : nat * Node, NomadNodeShortID pn.2 = id) (node_items o).

(** ** cache.go *)
Definition connectToNode (o : registry) (n : option Node) : registry :=
  match n with Some n => registerNode o n | None => o end.
(** [syncLocalDiscoveredNodes] and [syncClusterDiscoveredNodes]: the loop looks the
    nodes up, the goroutines register the new ones; [dial] is what [New] or
    [NewClusterNode] makes of a node that is not registered. *)
Definition syncLocalDiscoveredNodes (o : registry) (discovered : list string) (dial : string → option Node) : registry :=
  foldl connectToNode o
    (dial <$> filter (λ id, GetNodeByNomadShortID o id = None) discovered).
Definition syncClusterDiscoveredNodes (o : registry) (clusters : list (ID * list string)) (dial : ID → string → option Node) : registry :=
  foldl connectToNode o
    ((λ ci, dial ci.1 ci.2) <$> filter (λ ci : ID * string, GetNode o ci.1 ci.2 = None)
      (clusters ≫= λ c : ID * list string, pair c.1 <$> c.2)).

(** [syncNode] and [syncClusterNode]: may the node be synced? *)
Definition is_discovered (n : Node) (discovered : list string) (instance : ID → string → bool) : bool :=
  if IsNomadManaged n then bool_decide (NomadNodeShortID n ∈ discovered)
  else instance (ClusterID n) (ServiceInstanceID (meta n)).
Definition sync_one (o : registry) (p : nat) (discovered : list string) (instance : ID → string → bool) (answer : nat → sync_answer)
    : registry :=
  match node_objs o !! p with
  | None => o
  | Some n =>
      if is_discovered n discovered instance then
        let '(n, store, _) := node_Sync answer n (reg_store o) in
        mkRegistry (<[p := n]> (node_objs o)) (nodes o) store
      else deregisterNode o n
  end.
(** [syncNodes], after the discovered nodes are connected. *)
Definition sync_existing (o : registry) (discovered : list string) (instance : ID → string → bool) (answer : nat → nat → sync_answer)
    : registry :=
  foldl (λ o' p, sync_one o' p discovered instance (answer p)) o (node_items o).*1.
(** A round; [listed] is the answer of Nomad. *)
Definition syncNodes (o : registry) (listed : option (list string)) (clusters : list (ID * list string))
    (dial : string → option Node) (dial_cluster : ID → string → option Node)
    (instance : ID → string → bool) (answer : nat → nat → sync_answer) : registry :=
  match listed with
  | None => o
  | Some discovered =>
      let o := syncLocalDiscoveredNodes o discovered dial in
      let o := syncClusterDiscoveredNodes o clusters dial_cluster in
      sync_existing o discovered instance answer
  end.
End cluster.
End nodes.

(** ** Laws *)
Section node_laws.
Context {M : Type → Type} `{CMapLaws M} {ID Rest E : Type} `{Countable ID} (team : ID → string).
Context (LocalClusterID : ID) (uuid_string : ID → string).
Abbreviation Node := (Node (M := M) (ID := ID)).
Abbreviation sync_answer := (@sync_answer ID Rest).
Abbreviation registry := (registry (M := M) (ID := ID) (Rest := Rest) (E := E)).
Implicit Types (n : Node) (o : registry) (store : Store M ID Rest E) (answer : nat → sync_answer).

(** The first attempt, counted down from [tries], that went through. *)
Fixpoint first_synced (tries : nat) answer : option (ServiceInfo * list (Sandbox ID Rest) * Z * (string → Z * Z)) :=
  match tries with
  | O => None
  | S tries => match answer tries with Synced info sbxs now clk => Some (info, sbxs, now, clk) | _ => first_synced tries answer end
  end.

(** What a sync never changes. *)
Definition same_node n n' : Prop :=
  NomadNodeShortID n' = NomadNodeShortID n ∧ NID n' = NID n ∧ ClusterID n' = ClusterID n ∧ conn n' = conn n ∧ placement n' = placement n.
#[local] Instance same_node_preorder : PreOrder same_node.
Proof. split; [by intros n|]. intros a b c (? & ? & ? & ? & ?) (? & ? & ? & ? & ?). split_and!; congruence. Qed.
Lemma update_node_same n info : same_node n (update_node n info).
Proof. done. Qed.
Lemma update_node_twice n info info' : update_node (update_node n info) info' = update_node n info'.
Proof. done. Qed.

Lemma sync_tries_spec tries answer : ∀ n store,
  let '(n', store', calls, ok) := sync_tries team tries answer n store in
  same_node n n' ∧
  match first_synced tries answer with
  | Some (info, sbxs, now, clk) => ok = true ∧ n' = update_node n info ∧ (store', calls) = Store_Sync team store sbxs (NID n) now clk
  | None => ok = false ∧ store' = store ∧ calls = []
  end.
Proof.
  induction tries as [|tries IH]; intros n store; simpl; [done|].
  destruct (answer tries) as [|info|info sbxs now clk]; [apply IH| |].
  - specialize (IH (update_node n info) store). destruct (sync_tries _ _ _ _ _) as [[[n' store'] calls] ok]. destruct IH as [Hs IH].
    split; [done|]. by destruct (first_synced tries answer) as [[[[? ?] ?] ?]|].
  - change (NID (update_node n info)) with (NID n). by destruct (Store_Sync team store sbxs (NID n) now clk).
Qed.
Lemma Sync_same answer n store : same_node n (node_Sync team answer n store).1.1.
Proof.
  unfold node_Sync. pose proof (sync_tries_spec syncMaxRetries answer n store) as Hs.
  destruct (sync_tries _ _ _ _ _) as [[[n' store'] calls] ok]. destruct Hs as [Hs _]. by destruct ok.
Qed.

(** ** The registry *)
Abbreviation scoped := (scopedNodeID LocalClusterID uuid_string).
Definition node_at o (key : string) : option Node := cm_items (nodes o) !! key ≫= λ p, node_objs o !! p.
Record registry_ok o : Prop := {
  ro_key key p : cm_items (nodes o) !! key = Some p → ∃ n, node_objs o !! p = Some n ∧ key = scoped (ClusterID n) (NID n);
}.

Lemma registerNode_at o n key : registry_ok o →
  registry_ok (registerNode LocalClusterID uuid_string o n) ∧
  node_at (registerNode LocalClusterID uuid_string o n) key =
    if decide (key = scoped (ClusterID n) (NID n)) then Some n else node_at o key.
Proof.
  intros [Ho]. split.
  - split. intros k p. simpl. unfold smap_Insert. rewrite cm_items_set. intros [[<- <-]|[_ Hk]]%lookup_insert_Some.
    + exists n. split; [|done]. by rewrite lookup_app_r, Nat.sub_diag by lia.
    + destruct (Ho k p Hk) as (m & Hm & ?). exists m. split; [by apply lookup_app_l_Some|done].
  - unfold node_at. simpl. unfold smap_Insert. rewrite cm_items_set. case_decide as Hk.
    + subst key. rewrite lookup_insert_eq. simpl. by rewrite lookup_app_r, Nat.sub_diag by lia.
    + rewrite lookup_insert_ne by done. destruct (cm_items (nodes o) !! key) as [p|] eqn:Eo; [|done]. simpl.
      destruct (Ho key p Eo) as (m & Hm & _). rewrite Hm. by apply lookup_app_l_Some.
Qed.
Lemma deregisterNode_at o n key : registry_ok o →
  registry_ok (deregisterNode LocalClusterID uuid_string o n) ∧
  node_at (deregisterNode LocalClusterID uuid_string o n) key =
    if decide (key = scoped (ClusterID n) (NID n)) then None else node_at o key.
Proof.
  intros [Ho]. split.
  - split. intros k p. simpl. unfold smap_Remove. rewrite cm_items_remove. intros [_ Hk]%lookup_delete_Some. by apply Ho.
  - unfold node_at. simpl. unfold smap_Remove. rewrite cm_items_remove. case_decide as Hk; [subst; by rewrite lookup_delete_eq|].
    by rewrite lookup_delete_ne.
Qed.
Lemma node_at_key o key n : registry_ok o → node_at o key = Some n → key = scoped (ClusterID n) (NID n).
Proof.
  intros [Ho] Hn. unfold node_at in Hn. destruct (cm_items (nodes o) !! key) as [p|] eqn:Eo; [|done]. simpl in Hn.
  destruct (Ho key p Eo) as (m & Hm & ->). by simplify_eq.
Qed.

(** [node_items] lists the registered nodes once each. *)
Lemma elem_of_node_items o p n : (p, n) ∈ node_items o ↔ node_objs o !! p = Some n ∧ ∃ key, cm_items (nodes o) !! key = Some p.
Proof.
  unfold node_items. rewrite list_elem_of_omap. split.
  - intros ([key p'] & Hin & Hn). rewrite cm_iter_items, elem_of_map_to_list in Hin. simpl in Hn.
    destruct (node_objs o !! p') eqn:Eo; simplify_eq/=. eauto.
  - intros (Hn & key & Hk). exists (key, p). split; [by rewrite cm_iter_items, elem_of_map_to_list|]. simpl. by rewrite Hn.
Qed.

Lemma node_items_NoDup o : registry_ok o → NoDup (node_items o).*1.
Proof.
  intros [Ho]. unfold node_items.
  assert (NoDup (cm_iter (nodes o))) as Hnd. { rewrite cm_iter_items. apply NoDup_map_to_list. }
  assert (∀ key p, (key, p) ∈ cm_iter (nodes o) → ∃ n, node_objs o !! p = Some n ∧ key = scoped (ClusterID n) (NID n)) as Hk.
  { intros key p Hin. rewrite cm_iter_items, elem_of_map_to_list in Hin. by apply Ho. }
  revert Hnd Hk. generalize (cm_iter (nodes o)) as l. induction l as [|[key p] l IH]; intros Hnd Hk; [constructor|].
  apply NoDup_cons in Hnd as [Hni Hnd]. destruct (Hk key p) as (n & Hn & Hkey); [left|]. simpl. rewrite Hn. simpl. apply NoDup_cons. split.
  - intros Hin. apply list_elem_of_fmap in Hin as ([q m] & Hq & Hin). simpl in Hq. subst q.
    apply list_elem_of_omap in Hin as ([key' p'] & Hin & Hm). simpl in Hm. destruct (node_objs o !! p') as [m'|] eqn:Ep; simplify_eq/=.
    destruct (Hk key' p) as (n' & Hn' & Hkey'); [by right|]. simplify_eq. done.
  - apply IH; [done|]. intros key' p' Hin. apply Hk. by right.
Qed.

Section round.
Context (discovered : list string) (instance : ID → string → bool) (answers : nat → nat → sync_answer).

Lemma sync_one_spec o p n :
  registry_ok o → node_objs o !! p = Some n → (∃ key, cm_items (nodes o) !! key = Some p) →
  let o' := sync_one team LocalClusterID uuid_string o p discovered instance (answers p) in
  registry_ok o' ∧ (∀ q, q ≠ p → node_objs o' !! q = node_objs o !! q) ∧
  (∀ key q, cm_items (nodes o') !! key = Some q ↔
     cm_items (nodes o) !! key = Some q ∧ (q = p → is_discovered n discovered instance = true)) ∧
  (is_discovered n discovered instance = true → node_objs o' !! p = Some (node_Sync team (answers p) n (reg_store o)).1.1).
Proof.
  intros [Ho] Hn [key0 Hk0]. unfold sync_one. rewrite Hn. destruct (is_discovered n discovered instance) eqn:Hd.
  - pose proof (Sync_same (answers p) n (reg_store o)) as Hs. destruct (node_Sync _ _ _ _) as [[n' store'] calls]. simpl in *. split_and!.
    + split. simpl. intros key q Hq. destruct (Ho key q Hq) as (m & Hm & Hkey). destruct (decide (q = p)) as [->|Hne].
      * simplify_eq. exists n'. rewrite list_lookup_insert_eq by (by eapply lookup_lt_Some). split; [done|].
        destruct Hs as (_ & -> & -> & _). done.
      * exists m. by rewrite list_lookup_insert_ne.
    + intros q Hq. by rewrite list_lookup_insert_ne.
    + naive_solver.
    + intros _. apply list_lookup_insert_eq. by eapply lookup_lt_Some.
  - pose proof (deregisterNode_at o n "" ltac:(by split)) as [Hok _]. split_and!; [done|done| |done].
    intros key q. simpl. unfold smap_Remove. rewrite cm_items_remove, lookup_delete_Some. split.
    + intros [Hne Hq]. split; [done|]. intros ->. destruct (Ho key p Hq) as (m & Hm & Hkey). simplify_eq.
    + intros [Hq Hp]. split; [|done]. intros Hkey'. destruct (Ho _ _ Hk0) as (m & Hm & Hkey). simplify_eq.
      specialize (Hp eq_refl). congruence.
Qed.

Lemma sync_existing_spec ps : ∀ o, registry_ok o → NoDup ps →
  (∀ p, p ∈ ps → is_Some (node_objs o !! p) ∧ ∃ key, cm_items (nodes o) !! key = Some p) →
  let o' := foldl (λ o' p, sync_one team LocalClusterID uuid_string o' p discovered instance (answers p)) o ps in
  registry_ok o' ∧ (∀ q, q ∉ ps → node_objs o' !! q = node_objs o !! q) ∧
  (∀ key q, cm_items (nodes o') !! key = Some q ↔
     cm_items (nodes o) !! key = Some q ∧ (q ∈ ps → ∃ n, node_objs o !! q = Some n ∧ is_discovered n discovered instance = true)) ∧
  (∀ p n, p ∈ ps → node_objs o !! p = Some n → is_discovered n discovered instance = true →
     ∃ store, node_objs o' !! p = Some (node_Sync team (answers p) n store).1.1).
Proof.
  induction ps as [|p ps IH]; intros o Ho Hnd Hps; simpl.
  { split_and!; [done|done| |by intros p n ?%not_elem_of_nil]. intros key q. split; [|by intros []]. intros Hq. split; [done|]. by intros ?%not_elem_of_nil. }
  apply NoDup_cons in Hnd as [Hni Hnd]. destruct (Hps p) as [[n Hn] Hkey]; [left|].
  destruct (sync_one_spec o p n Ho Hn Hkey) as (Ho1 & Hsame & Hkeys & Hsync). set (o1 := sync_one _ _ _ _ _ _ _ _) in *.
  destruct (IH o1) as (Ho2 & Hsame2 & Hkeys2 & Hsync2); [done|done| |].
  { intros q Hq. assert (q ≠ p) by (by intros ->). destruct (Hps q) as [Hq1 [key Hk]]; [by right|]. rewrite Hsame by done. split; [done|].
    exists key. by apply Hkeys. }
  split_and!; [done| | |].
  - intros q Hq. apply not_elem_of_cons in Hq as [Hq1 Hq2]. by rewrite Hsame2, Hsame.
  - intros key q. rewrite Hkeys2, Hkeys. setoid_rewrite elem_of_cons. split.
    + intros [[Hq Hd] Hin]. split; [done|]. intros [->|Hq']; [eauto|]. rewrite <- Hsame; [by apply Hin|by intros ->].
    + intros [Hq Hd]. split_and!; [done| |].
      * intros ->. destruct Hd as (m & Hm & Hd); [by left|]. by simplify_eq.
      * intros Hq'. rewrite Hsame by (by intros ->). apply Hd. by right.
  - intros q m [->|Hq]%elem_of_cons Hm Hd.
    + simplify_eq. rewrite Hsame2 by done. eauto.
    + apply Hsync2; [done| |done]. by rewrite Hsame by (by intros ->).
Qed.
End round.

(** Connecting the discovered nodes. *)
Lemma connect_spec (ns : list (option Node)) : ∀ o, registry_ok o →
  let o' := foldl (connectToNode LocalClusterID uuid_string) o ns in
  registry_ok o' ∧
  (∀ key, node_at o' key = node_at o key ∨ ∃ n, Some n ∈ ns ∧ node_at o' key = Some n) ∧
  (∀ n, Some n ∈ ns → ∃ n', Some n' ∈ ns ∧ node_at o' (scoped (ClusterID n) (NID n)) = Some n').
Proof.
  induction ns as [|m ns IH]; intros o Ho; simpl; [split_and!; [done|auto|by intros n ?%not_elem_of_nil]|].
  assert (registry_ok (connectToNode LocalClusterID uuid_string o m) ∧
    ∀ key, node_at (connectToNode LocalClusterID uuid_string o m) key = node_at o key ∨
      ∃ n, m = Some n ∧ key = scoped (ClusterID n) (NID n) ∧ node_at (connectToNode LocalClusterID uuid_string o m) key = Some n) as [Ho1 Hat1].
  { destruct m as [n|]; simpl; [|auto]. split; [by apply (registerNode_at o n "")|]. intros key.
    destruct (registerNode_at o n key Ho) as [_ ->]. case_decide; [right; eauto|by left]. }
  destruct (IH _ Ho1) as (Ho2 & Hat2 & Hin2). split_and!; [done| |].
  - intros key. destruct (Hat2 key) as [E2|(n & ? & ?)]; [|right; exists n; split; [by right|done]].
    rewrite E2. destruct (Hat1 key) as [->|(n & -> & _ & ->)]; [by left|]. right. exists n. split; [left|done].
  - intros n [<-|Hin]%elem_of_cons; [|destruct (Hin2 n Hin) as (n' & ? & ?); exists n'; split; [by right|done]].
    destruct (Hat2 (scoped (ClusterID n) (NID n))) as [->|(n' & ? & ->)]; [|exists n'; split; [by right|done]].
    exists n. split; [left|]. destruct (registerNode_at o n (scoped (ClusterID n) (NID n)) Ho) as [_ Hr]. simpl in *. rewrite Hr. by rewrite decide_True.
Qed.

Lemma sync_existing_at o discovered instance answers key : registry_ok o →
  let o' := sync_existing team LocalClusterID uuid_string o discovered instance answers in
  registry_ok o' ∧
  match node_at o key with
  | Some n => if is_discovered n discovered instance
              then ∃ p store, node_at o' key = Some (node_Sync team (answers p) n store).1.1
              else node_at o' key = None
  | None => node_at o' key = None
  end.
Proof.
  intros Ho. unfold sync_existing.
  assert (∀ p, p ∈ (node_items o).*1 ↔ is_Some (node_objs o !! p) ∧ ∃ key, cm_items (nodes o) !! key = Some p) as Hps.
  { intros p. rewrite list_elem_of_fmap. split.
    - intros ([q n] & -> & Hin). apply elem_of_node_items in Hin as [Hn Hk]. simpl. by rewrite Hn.
    - intros [[n Hn] Hk]. exists (p, n). split; [done|]. by apply elem_of_node_items. }
  destruct (sync_existing_spec discovered instance answers (node_items o).*1 o Ho (node_items_NoDup o Ho)) as (Ho' & _ & Hkeys & Hsync).
  { intros p Hp. by apply Hps. }
  split; [done|]. unfold node_at in *. set (o' := foldl _ _ _) in *.
  destruct (cm_items (nodes o) !! key) as [p|] eqn:Ek; simpl.
  - destruct (ro_key _ Ho key p Ek) as (n & Hn & _). rewrite Hn. simpl.
    assert (p ∈ (node_items o).*1) as Hin by (apply Hps; rewrite Hn; eauto).
    destruct (is_discovered n discovered instance) eqn:Hd.
    + destruct (Hsync p n Hin Hn Hd) as [store Hst]. exists p, store.
      assert (cm_items (nodes o') !! key = Some p) as -> by (apply Hkeys; eauto). done.
    + destruct (cm_items (nodes o') !! key) as [q|] eqn:Ek'; [|done]. exfalso. apply Hkeys in Ek' as [Eq Hq].
      rewrite Ek in Eq. injection Eq as <-. destruct (Hq Hin) as (m & Hm & Hdm). congruence.
  - destruct (cm_items (nodes o') !! key) as [q|] eqn:Ek'; [|done]. apply Hkeys in Ek' as [Eq _]. congruence.
Qed.
End node_laws.

(** ** Properties *)
Section node_properties.
Context {M : Type → Type} `{CMapLaws M} {ID Rest E : Type} `{Countable ID} (team : ID → string).
Context (LocalClusterID : ID) (uuid_string : ID → string).

(** A sync tries at most four times.  When an attempt reaches the node and
    lists its sandboxes, the node takes over exactly what it reported in that
    attempt and the store is synced once with the list; otherwise the store is left
    alone and the node counts as unhealthy, whatever it reported before.  The
    node's identity, connection and placement counters never change. *)
Theorem Node_Sync_outcome (answer : nat → @sync_answer ID Rest) (n : Node) (store : Store M ID Rest E) :
  let '(n', store', calls) := node_Sync team answer n store in
  same_node n n' ∧
  match first_synced syncMaxRetries answer with
  | Some (info, sbxs, now, clk) => n' = update_node n info ∧ (store', calls) = Store_Sync team store sbxs (NID n) now clk
  | None => Status n' = NodeStatusUnhealthy ∧ store' = store ∧ calls = []
  end.
Proof using All.
  pose proof (sync_tries_spec team syncMaxRetries answer n store) as Hs. unfold node_Sync.
  destruct (sync_tries _ _ _ _ _) as [[[n' store'] calls] ok]. destruct Hs as [Hsame Hs].
  destruct (first_synced _ _) as [[[[info sbxs] now] clk]|]; [by destruct Hs as (-> & ? & ?)|]. by destruct Hs as (-> & -> & ->).
Qed.

(** After a round of [syncNodes] the registry holds only nodes that service
    discovery still reports - a Nomad node by its short id, a cluster node by the
    service instance it last reported - each synced in this round and filed under
    its own scoped identifier; no discovered node is dropped, and every newly
    discovered node that answers is registered. *)
Theorem syncNodes_tracks_discovery (o : registry (M := M) (ID := ID) (Rest := Rest) (E := E)) (discovered : list string)
    (clusters : list (ID * list string)) (dial : string → option Node) (dial_cluster : ID → string → option Node)
    (instance : ID → string → bool) (answers : nat → nat → @sync_answer ID Rest) (key : string) :
  registry_ok LocalClusterID uuid_string o →
  (∀ id n, dial id = Some n → id ∈ discovered → is_discovered n discovered instance = true) →
  (∀ c id n, dial_cluster c id = Some n → is_discovered n discovered instance = true) →
  let o' := syncNodes team LocalClusterID uuid_string o (Some discovered) clusters dial dial_cluster instance answers in
  registry_ok LocalClusterID uuid_string o' ∧
  (∀ n', node_at o' key = Some n' → key = scopedNodeID LocalClusterID uuid_string (ClusterID n') (NID n') ∧
     ∃ p n (store : Store M ID Rest E), is_discovered n discovered instance = true ∧ n' = (node_Sync team (answers p) n store).1.1) ∧
  (∀ n, node_at o key = Some n → is_discovered n discovered instance = true → is_Some (node_at o' key)) ∧
  (∀ id n, id ∈ discovered → GetNodeByNomadShortID o id = None → dial id = Some n →
     key = scopedNodeID LocalClusterID uuid_string (ClusterID n) (NID n) → is_Some (node_at o' key)).
Proof using All.
  intros Ho Hdial Hcl. unfold syncNodes, syncLocalDiscoveredNodes, syncClusterDiscoveredNodes.
  set (news := dial <$> _). destruct (connect_spec LocalClusterID uuid_string news o Ho) as (Ho1 & Hat1 & Hin1).
  set (o1 := foldl _ o news) in *. set (cnews := (λ ci, dial_cluster ci.1 ci.2) <$> _).
  destruct (connect_spec LocalClusterID uuid_string cnews o1 Ho1) as (Ho2 & Hat2 & _). set (o2 := foldl _ o1 cnews) in *.
  destruct (sync_existing_at team LocalClusterID uuid_string o2 discovered instance answers key Ho2) as [Ho3 Hat3].
  set (o3 := sync_existing _ _ _ _ _ _ _) in *.
  assert (∀ n, Some n ∈ news → is_discovered n discovered instance = true) as Hnews.
  { intros n Hin. apply list_elem_of_fmap in Hin as (id & Hd & [_ Hid]%list_elem_of_filter). by eapply Hdial. }
  assert (∀ n, Some n ∈ cnews → is_discovered n discovered instance = true) as Hcnews.
  { intros n Hin. apply list_elem_of_fmap in Hin as ([c id] & Hd & _). by eapply Hcl. }
  assert (∀ n, node_at o1 key = Some n → is_discovered n discovered instance = true → is_Some (node_at o3 key)) as Hkeep.
  { intros n Hn Hd. assert (∃ n2, node_at o2 key = Some n2 ∧ is_discovered n2 discovered instance = true) as (n2 & Hn2 & Hd2).
    { destruct (Hat2 key) as [->|(n2 & Hin & ->)]; eauto. }
    rewrite Hn2, Hd2 in Hat3. destruct Hat3 as (p & store & ->). done. }
  split_and!; [done| | |].
  - intros n' Hn'. split; [by apply (node_at_key LocalClusterID uuid_string o3)|].
    destruct (node_at o2 key) as [n2|]; [|congruence]. destruct (is_discovered n2 discovered instance) eqn:Hd; [|congruence].
    destruct Hat3 as (p & store & Hs). exists p, n2, store. split; [done|]. congruence.
  - intros n Hn Hd. destruct (Hat1 key) as [E1|(n1 & Hin & E1)]; [|by apply (Hkeep n1); [|apply Hnews]].
    rewrite Hn in E1. by eapply Hkeep.
  - intros id n Hid Hnone Hd ->. assert (Some n ∈ news) as Hin.
    { apply list_elem_of_fmap. exists id. split; [done|]. by apply list_elem_of_filter. }
    destruct (Hin1 n Hin) as (m & Hmin & Hm). by apply (Hkeep m Hm), Hnews.
Qed.
End node_properties.

(** ** Witnesses *)
#[local] Existing Instances GMapC.ops GMapC.laws.
Definition ex_info (id : string) : ServiceInfo :=
  mkInfo id Healthy (mkNodeMeta "s" "c" "v") (mkMetrics 2 50 8 0 0 0 1 []) None [].
Definition ex_dial (id : string) : option (Node (M := GMapC.t) (ID := nat)) := NewNode 0%nat id ConnReady (Some (ex_info (id +:+ "-node"))).
Definition ex_registry : registry (M := GMapC.t) (ID := nat) (Rest := ()) (E := ()) :=
  connectToNode 0%nat (λ _, "") (mkRegistry [] ∅ (mkStore NewStorage NewReservationStorage)) (ex_dial "old").

(** Nomad stops reporting the old node and reports a new one. *)
Lemma syncNodes_tracks_discovery_witness :
  let o' := syncNodes (λ _, "team") 0%nat (λ _, "") ex_registry (Some ["new"]) [] ex_dial (λ _ _, None) (λ _ _, false)
              (λ _ _, Synced (ex_info "x") [] 0 (λ _, (0, 0))) in
  is_Some (node_at o' "new-node") ∧ node_at o' "old-node" = None.
Proof.
  split; [|by vm_compute].
  destruct (syncNodes_tracks_discovery (λ _ : nat, "team") 0%nat (λ _, "") ex_registry ["new"] [] ex_dial (λ _ _, None) (λ _ _, false)
    (λ _ _, Synced (ex_info "x") [] 0 (λ _, (0, 0))) "new-node") as (_ & _ & _ & Hnew).
  - split. intros key p. vm_compute. destruct (decide (key = "old-node")) as [->|Hne].
    + intros [= <-]. by eexists.
    + intros Hk. exfalso. apply Hne. change (({["old-node" := 0%nat]} : gmap string nat) !! key = Some p) in Hk.
      by apply lookup_singleton_Some in Hk as [<- _].
  - intros id n [= <-] ->%list_elem_of_singleton. done.
  - done.
  - destruct (ex_dial "new") as [n|] eqn:En; [|done]. apply (Hnew "new" n); [left|by vm_compute|done|].
    vm_compute in En. injection En as <-. done.
Defined.
