(* ===== verification/Placement.v ===== *)
(** * Placement of sandboxes

    packages/api/internal/orchestrator/placement: [PlaceSandbox] ([placement.go])
    starts a sandbox on a node it chooses with the best-of-K algorithm
    ([placement_best_of_K.go], [cpu_compatibility.go], [label_compatibility.go]).

    [sample] and [chooseNode] are functions; the random numbers are an argument.
    [float64] arithmetic is that of IEEE 754 ([Float64]).  Any number of [PlaceSandbox] calls run over the same nodes: a step
    ([plabel]) is one pass of the loop up to the call of [SandboxCreate], the
    answer of that call, or a change of a node from outside.  [chooseNode] reads
    the nodes one after the other; what it saw is part of the label. *)
From S2P Require Import Prelude Float64 Smap SyncUtils SandboxState Removal Reservations SandboxStore Nodes.

Definition maxRetries : Z := 3.
Definition maxStartingInstancesPerNode : Z := 3.

(** ** sample *)
(** [indices[j], indices[remaining-1] = indices[remaining-1], indices[j]] *)
Definition swap (l : list nat) (j k : nat) : option (list nat) :=
  x ← l !! j; y ← l !! k; Some (<[j := y]> (<[k := x]> l)).

(** [rand.Intn(remaining)] with the random number [draw remaining]; [None] is an
    index out of range. *)
Fixpoint sample_loop {A} (ok : A → bool) (K : Z) (items : list A) (draw : nat → nat)
    (remaining : nat) (indices : list nat) (candidates : list A) : option (list A) :=
  if negb (zlength candidates <? K) then Some candidates
  else match remaining with
       | O => Some candidates
       | S last =>
           let j := (draw remaining `mod` remaining)%nat in
           pick ← indices !! j;
           indices ← swap indices j last;
           n ← items !! pick;
           sample_loop ok K items draw last indices (if ok n then candidates ++ [n] else candidates)
       end.
Definition sample {A} (ok : A → bool) (K : Z) (items : list A) (draw : nat → nat) : option (list A) :=
  if (K <=? 0) || (zlength items =? 0) then Some []
  else sample_loop ok K items draw (length items) (seq 0 (length items)) [].

Record BestOfKConfig := mkConfig {
  R : f64; Alpha : f64; K : Z; TooManyStarting : bool; use_CanFit : bool;   (** [CanFit] *)
}.
Definition DefaultBestOfKConfig : BestOfKConfig := mkConfig (f64_of_Z 4) (S754_finite false 4503599627370496 (-53)) 3 false false.

(** [getBestOfKConfig] of [orchestrator.go]: the flags are percentages. *)
Definition getBestOfKConfig (k maxOvercommitPercent alphaPercent : Z) (canFit tooManyStarting : bool) : BestOfKConfig :=
  let alpha := f64_div (f64_of_Z alphaPercent) (f64_of_Z 100) in
  let maxOvercommit := f64_div (f64_of_Z maxOvercommitPercent) (f64_of_Z 100) in
  mkConfig maxOvercommit alpha k tooManyStarting canFit.

(** ** Labels *)
Definition defaultLabel : string := "default".
Definition effectiveNodeLabels (nodeLabels : gset string) : gset string :=
  if decide (size nodeLabels = 0%nat) then {[defaultLabel]} else nodeLabels.
Definition effectiveSandboxLabels (requiredLabels : list string) : list string :=
  match requiredLabels with [] => [defaultLabel] | _ => requiredLabels end.

(** The answer of [SandboxCreate]: the gRPC code decides.  An error does not say
    whether the node created the sandbox ([made]): its reply may be lost, or come
    after the deadline. *)
Inductive create_result := Created | ResourceExhausted (made : bool) | CreateFails (made : bool).
Definition is_created (r : create_result) : bool := match r with Created => true | _ => false end.
Definition is_failure (r : create_result) : bool := match r with CreateFails _ => true | _ => false end.
(** The node has the sandbox, whatever it answered. *)
Definition has_sandbox (r : create_result) : bool := match r with Created => true | ResourceExhausted made | CreateFails made => made end.
Definition is_lost (r : create_result) : bool := has_sandbox r && negb (is_created r).

Section placement.
Context {M : Type → Type} `{CMapOps M} {ID : Type}.
Abbreviation Node := (Node (M := M) (ID := ID)).

Definition isNodeLabelsCompatible (node : Node) (requiredLabels : list string) : bool :=
  forallb (λ req, bool_decide (req ∈ effectiveNodeLabels (labels node))) (effectiveSandboxLabels requiredLabels).

Definition isNodeCPUCompatible (node : Node) (buildMachineInfo : MachineInfo) : bool :=
  if bool_decide (CPUArchitecture buildMachineInfo = "") then true
  else IsCompatibleWith buildMachineInfo (machineInfo node).

(** ** Score and fit *)
Definition Score (node : Node) (resources : SandboxResources) (config : BestOfKConfig) : f64 :=
  let reserved := CpuAllocated (metrics node) in
  let usageAvg := f64_div (f64_of_Z (CpuPercent (metrics node))) (f64_of_Z 100) in
  let cpuCount := f64_of_Z (CpuCount (metrics node)) in
  if SFeqb cpuCount (f64_of_Z 0) then MaxFloat64
  else
    let totalCapacity := f64_mul (R config) cpuCount in
    let cpuRequested := f64_of_Z (CPUs resources) in
    f64_div (f64_add (f64_add cpuRequested (f64_of_Z reserved)) (f64_mul (Alpha config) usageAvg)) totalCapacity.

Definition CanFit (node : Node) (sandboxResources : SandboxResources) (config : BestOfKConfig) : bool :=
  let reserved := CpuAllocated (metrics node) in
  let cpuCount := f64_of_Z (CpuCount (metrics node)) in
  if SFeqb cpuCount (f64_of_Z 0) then false
  else
    let totalCapacity := f64_mul (R config) cpuCount in
    SFleb (f64_of_Z (u32 (reserved + u32 (CPUs sandboxResources)))) totalCapacity.

(** ** chooseNode *)
Section choose.
Context (config : BestOfKConfig) (excludedNodes : gset string) (resources : SandboxResources)
  (buildMachineInfo : MachineInfo) (filterByLabels : bool) (requiredLabels : list string).

(** The filters of [sample]. *)
Definition eligible (n : Node) : bool :=
  negb (bool_decide (NID n ∈ excludedNodes)) &&
  bool_decide (Status n = NodeStatusReady) &&
  isNodeCPUCompatible n buildMachineInfo &&
  negb (filterByLabels && negb (isNodeLabelsCompatible n requiredLabels)) &&
  negb (use_CanFit config && negb (CanFit n resources config)) &&
  negb (TooManyStarting config && (maxStartingInstancesPerNode <? InProgressCount (placement n))).

(** A node is seen with the pointer that leads to it. *)
Definition choose_best (best : option (nat * Node) * f64) (pn : nat * Node) : option (nat * Node) * f64 :=
  let score := Score pn.2 resources config in
  if SFltb score best.2 then (Some pn, score) else best.
Definition chooseNode (nodes : list (nat * Node)) (draw : nat → nat) : option (option nat) :=
  candidates ← sample (λ pn, eligible pn.2) (K config) nodes draw;
  Some (fst <$> (foldl choose_best (None, MaxFloat64) candidates).1).
End choose.

(** ** PlaceSandbox *)
Inductive place_error := ErrTimedOut (attempt : Z) | ErrNoNodes | ErrNoNodeAvailable | errSandboxCreateFailed.

Record request := mkRequest {
  q_id : string; q_res : SandboxResources; q_build : MachineInfo; q_filter : bool; q_labels : list string;
  q_cluster : list nat;                   (** [clusterNodes] *)
}.
Inductive place_pc := PLoop (node : option nat) | PCreating (node : nat) | PDone (r : res place_error nat).
Record place := mkPlace { p_req : request; p_excluded : gset string; p_attempt : Z; p_pc : place_pc }.

Record place_sys := mkPlaceSys {
  pnodes : list Node;
  places : list place;
  pconfig : BestOfKConfig;
  creates : list (nat * nat * create_result);   (** the answered calls of [SandboxCreate]: placement, node, answer *)
}.
Definition with_place (t : place_sys) (i : nat) (w : place) : place_sys :=
  mkPlaceSys (pnodes t) (<[i := w]> (places t)) (pconfig t) (creates t).
Definition with_pnode (t : place_sys) (p : nat) (f : PlacementMetrics (M := M) → PlacementMetrics (M := M)) : place_sys :=
  mkPlaceSys (alter (λ n, with_placement n (f (placement n))) p (pnodes t)) (places t) (pconfig t) (creates t).

Inductive plabel :=
  | LPlace (req : request) (preferred : option nat)
  | LIter (i : nat) (cancelled : bool) (view : nat → Node) (draw : nat → nat)
  | LCreate (i : nat) (r : create_result)
  | LNode (p : nat) (n : Node)            (** a sync of a node *)
  | LConfig (c : BestOfKConfig).          (** [UpdateConfig] *)

(** A pass of the loop. *)
Definition place_iter (t : place_sys) (i : nat) (w : place) (node : option nat) (cancelled : bool) (view : nat → Node) (draw : nat → nat)
    : res () place_sys :=
  let q := p_req w in
  let return_ r := Ok (with_place t i (mkPlace q (p_excluded w) (p_attempt w) (PDone r))) in
  let create p := Ok (with_place (with_pnode t p (λ pm, StartPlacing pm (q_id q) (q_res q))) i
                        (mkPlace q (p_excluded w) (p_attempt w) (PCreating p))) in
  if negb (p_attempt w <? maxRetries) then return_ (Err errSandboxCreateFailed)
  else if cancelled then return_ (Err (ErrTimedOut (p_attempt w + 1)))
  else match node with
       | Some p => create p
       | None =>
           if zlength (q_cluster q) <=? Z.of_nat (size (p_excluded w)) then return_ (Err ErrNoNodes)
           else match chooseNode (pconfig t) (p_excluded w) (q_res q) (q_build q) (q_filter q) (q_labels q)
                        ((λ p, (p, view p)) <$> q_cluster q) draw with
                | None => Panic
                | Some None => return_ (Err ErrNoNodeAvailable)
                | Some (Some p) => create p
                end
       end.

(** The answer of [SandboxCreate]. *)
Definition place_answer (t : place_sys) (i : nat) (w : place) (p : nat) (n : Node) (r : create_result) : place_sys :=
  let q := p_req w in
  let t := mkPlaceSys (pnodes t) (places t) (pconfig t) (creates t ++ [(i, p, r)]) in
  match r with
  | Created => with_place (with_pnode t p (λ pm, Success pm (q_id q))) i (mkPlace q (p_excluded w) (p_attempt w) (PDone (Ok p)))
  | ResourceExhausted _ => with_place (with_pnode t p (λ pm, Skip pm (q_id q))) i (mkPlace q (p_excluded w) (p_attempt w) (PLoop None))
  | CreateFails _ => with_place (with_pnode t p (λ pm, Fail_ pm (q_id q))) i (mkPlace q ({[NID n]} ∪ p_excluded w) (p_attempt w + 1) (PLoop None))
  end.

Definition place_step (t : place_sys) (l : plabel) : res () place_sys :=
  match l with
  | LPlace req preferred => Ok (mkPlaceSys (pnodes t) (places t ++ [mkPlace req ∅ 0 (PLoop preferred)]) (pconfig t) (creates t))
  | LIter i cancelled view draw =>
      match places t !! i with
      | Some w => match p_pc w with PLoop node => place_iter t i w node cancelled view draw | _ => Err () end
      | None => Err ()
      end
  | LCreate i r =>
      match places t !! i with
      | Some w =>
          match p_pc w with
          | PCreating p => match pnodes t !! p with Some n => Ok (place_answer t i w p n r) | None => Err () end
          | _ => Err ()
          end
      | None => Err ()
      end
  | LNode p n => Ok (mkPlaceSys (<[p := n]> (pnodes t)) (places t) (pconfig t) (creates t))
  | LConfig c => Ok (mkPlaceSys (pnodes t) (places t) c (creates t))
  end.
Fixpoint place_run (t : place_sys) (ls : list plabel) : res () place_sys :=
  match ls with
  | [] => Ok t
  | l :: ls => t ← place_step t l; place_run t ls
  end.
End placement.
Arguments place_sys M ID : clear implicits.

(** ** sample *)
Lemma swap_perm (l : list nat) (j last x : nat) : l !! j = Some x → (j ≤ last)%nat → (last < length l)%nat →
  ∃ l', swap l j last = Some l' ∧ take (S last) l ≡ₚ x :: take last l' ∧ length l' = length l.
Proof.
  intros Hj Hle Hlt. destruct (lookup_lt_is_Some_2 l last Hlt) as [y Hy]. unfold swap. rewrite Hj, Hy. simpl.
  eexists. split; [done|]. rewrite !length_insert. split; [|done]. rewrite (take_S_r _ _ y) by done.
  destruct (decide (j = last)) as [->|Hne].
  - simplify_eq. rewrite list_insert_insert_eq, take_insert_ge by lia. by rewrite Permutation_app_comm.
  - rewrite take_insert_lt by lia. rewrite take_insert_ge by lia.
    assert (take last l !! j = Some x) as Hj' by (by rewrite lookup_take_lt by lia).
    rewrite <- (take_drop_middle (take last l) j x Hj') at 1. rewrite insert_take_drop by (rewrite length_take; lia).
    solve_Permutation.
Qed.

Section sample.
Context {A : Type} (ok : A → bool) (K : Z) (items : list A).

(** [cs] are [items] at the positions [ps]. *)
Definition at_positions (ps : list nat) (cs : list A) : Prop := Forall2 (λ i c, items !! i = Some c ∧ ok c = true) ps cs.

Lemma sample_loop_spec draw remaining : ∀ indices cands,
  (remaining ≤ length indices)%nat → Forall (λ i, i < length items)%nat (take remaining indices) → NoDup (take remaining indices) →
  ∃ ps cs, sample_loop ok K items draw remaining indices cands = Some (cands ++ cs) ∧ at_positions ps cs ∧ NoDup ps ∧
    ps ⊆ take remaining indices ∧ zlength (cands ++ cs) ≤ Z.max K (zlength cands) ∧
    (zlength (cands ++ cs) < K → ∀ i c, i ∈ take remaining indices → items !! i = Some c → ok c = true → i ∈ ps).
Proof.
  induction remaining as [|last IH]; intros indices cands Hlen Hin Hnd.
  { exists [], []. simpl. rewrite app_nil_r. destruct (negb _); (split_and!; [done|constructor|constructor|done|lia|]); by intros _ i c ?%not_elem_of_nil. }
  cbn [sample_loop]. destruct (Z.ltb_spec (zlength cands) K) as [HK|HK]; cbn [negb].
  2: { exists [], []. rewrite app_nil_r. split_and!; [done|constructor|constructor|by intros i ?%not_elem_of_nil|lia|lia]. }
  set (j := (draw (S last) `mod` S last)%nat). assert (j < S last)%nat as Hj by (apply Nat.mod_upper_bound; lia).
  destruct (lookup_lt_is_Some_2 indices j) as [pick Hpick]; [lia|].
  destruct (swap_perm indices j last pick Hpick ltac:(lia) ltac:(lia)) as (indices' & Hsw & Hperm & Hlen').
  change (draw (S last) `mod` S last)%nat with j. cbv zeta. rewrite Hpick. cbn [mbind option_bind]. rewrite Hsw. cbn [mbind option_bind].
  rewrite Hperm in Hnd. apply NoDup_cons in Hnd as [Hnp Hnd]. rewrite Hperm in Hin. apply Forall_cons in Hin as [Hp Hin].
  destruct (lookup_lt_is_Some_2 items pick Hp) as [n Hn]. rewrite Hn. cbn [mbind option_bind].
  destruct (IH indices' (if ok n then cands ++ [n] else cands) ltac:(lia) Hin Hnd) as (ps & cs & -> & Hat & Hps & Hsub & Hle & Hall).
  destruct (ok n) eqn:Hok.
  - exists (pick :: ps), (n :: cs). rewrite <- app_assoc in *. simpl in *. split_and!.
    + done.
    + by constructor.
    + apply NoDup_cons. split; [|done]. intros Hx. by apply Hnp, Hsub.
    + rewrite Hperm. intros i [->|Hi]%elem_of_cons; [left|right; by apply Hsub].
    + unfold zlength in *. rewrite !length_app in *. simpl in *. lia.
    + intros HlK i c Hi Hc Hokc. rewrite Hperm in Hi. apply elem_of_cons in Hi as [->|Hi]; [left|right]. by eapply Hall.
  - exists ps, cs. split_and!; [done|done|done| |done|].
    + rewrite Hperm. intros i Hi. right. by apply Hsub.
    + intros HlK i c Hi Hc Hokc. rewrite Hperm in Hi. apply elem_of_cons in Hi as [->|Hi]; [congruence|]. by eapply Hall.
Qed.

(** Any selection can be drawn. *)
Lemma sample_loop_any (ps : list nat) : ∀ remaining indices cands cs,
  (remaining ≤ length indices)%nat → at_positions ps cs → NoDup ps → ps ⊆ take remaining indices → zlength cands + zlength cs = K →
  ∃ draw, ∀ draw', (∀ r, (r ≤ remaining)%nat → draw' r = draw r) → sample_loop ok K items draw' remaining indices cands = Some (cands ++ cs).
Proof.
  induction ps as [|p ps IH]; intros remaining indices cands cs Hlen Hat Hnd Hsub HK.
  { apply Forall2_nil_inv_l in Hat as ->. exists (λ _, 0%nat). intros draw' _. rewrite app_nil_r.
    assert (zlength cands <? K = false) as E by (unfold zlength in *; simpl in HK; lia). destruct remaining; simpl; by rewrite E. }
  apply Forall2_cons_inv_l in Hat as (n & cs' & [Hn Hok] & Hat' & ->). apply NoDup_cons in Hnd as [Hnp Hnd].
  assert (p ∈ take remaining indices) as Hp by (apply Hsub; left). apply list_elem_of_lookup in Hp as [j Hj].
  destruct remaining as [|last]; [done|]. apply lookup_take_Some in Hj as [Hj Hjl].
  destruct (swap_perm indices j last p Hj ltac:(lia) ltac:(lia)) as (indices' & Hsw & Hperm & Hlen').
  assert (ps ⊆ take last indices') as Hsub'.
  { intros i Hi. assert (i ∈ take (S last) indices) as Hi' by (apply Hsub; by right). rewrite Hperm in Hi'.
    apply elem_of_cons in Hi' as [->|?]; done. }
  destruct (IH last indices' (cands ++ [n]) cs') as [draw Hdraw]; [lia|done|done|done| |].
  { unfold zlength in *. rewrite length_app. simpl in *. lia. }
  exists (λ r, if decide (r = S last) then j else draw r). intros draw' Hd'. cbn [sample_loop].
  assert (zlength cands <? K = true) as -> by (unfold zlength in *; simpl in HK; lia). cbn [negb].
  rewrite (Hd' (S last)) by lia. rewrite decide_True by done. cbv zeta. rewrite Nat.mod_small by lia. rewrite Hj. cbn [mbind option_bind]. rewrite Hsw. cbn [mbind option_bind].
  rewrite Hn. simpl. rewrite Hok. rewrite Hdraw; [by rewrite <- app_assoc|]. intros r Hr. rewrite Hd' by lia. by rewrite decide_False by lia.
Qed.
End sample.

(** ** The best candidate *)
Lemma SFltb_trans x y z : SFltb x y = true → SFltb y z = true → SFltb x z = true.
Proof.
  unfold SFltb, SFcompare. change (Pos.compare_cont Eq) with Pos.compare.
  destruct x as [sx|sx| |sx mx ex], y as [sy|sy| |sy my ey], z as [sz|sz| |sz mz ez]; try done.
  all: try (destruct sx); try (destruct sy); try (destruct sz); try done.
  all: destruct (Z.compare_spec ex ey); try done; destruct (Z.compare_spec ey ez); try done.
  all: destruct (Z.compare_spec ex ez); try done; try lia.
  all: destruct (Pos.compare_spec mx my); try done; destruct (Pos.compare_spec my mz); try done;
    destruct (Pos.compare_spec mx mz); try done; lia.
Qed.

Section choose_laws.
Context {M : Type → Type} `{CMapOps M} {ID : Type}.
Abbreviation Node := (Node (M := M) (ID := ID)).
Context (config : BestOfKConfig) (resources : SandboxResources).
Implicit Types (cands : list (nat * Node)).
Abbreviation score pn := (Score (M := M) (ID := ID) (snd pn) resources config).

Lemma choose_best_spec cands : ∀ best bs,
  match best with Some pn => bs = score pn | None => True end →
  let '(best', bs') := foldl (choose_best config resources) (best, bs) cands in
  match best' with Some pn => bs' = score pn | None => True end ∧
  (bs' = bs ∧ best' = best ∨ SFltb bs' bs = true ∧ ∃ pn, best' = Some pn ∧ pn ∈ cands) ∧
  ∀ pn, pn ∈ cands → SFltb (score pn) bs' = false.
Proof.
  induction cands as [|pn cands IH]; intros best bs Hbs; simpl.
  { split_and!; [done|by left|by intros pn ?%not_elem_of_nil]. }
  unfold choose_best at 2. simpl. destruct (SFltb (score pn) bs) eqn:Hlt.
  - specialize (IH (Some pn) (score pn) eq_refl). destruct (foldl _ _ cands) as [best' bs']. destruct IH as (H1 & H2 & H3). split_and!; [done| |].
    + right. destruct H2 as [[-> ->]|[Hlt' (pn' & -> & ?)]].
      * split; [done|]. exists pn. split; [done|left].
      * split; [by eapply SFltb_trans|]. exists pn'. split; [done|by right].
    + intros pn' [->|Hin]%elem_of_cons; [|by apply H3]. destruct H2 as [[-> ->]|[Hlt' _]].
      * unfold SFltb, SFcompare. destruct (score pn) as [[]|[]| |s m e]; try done.
        rewrite Z.compare_refl. assert (Pos.compare_cont Eq m m = Eq) as -> by apply Pos.compare_refl. by destruct s.
      * destruct (SFltb (score pn) bs') eqn:Hc; [|done]. pose proof (SFltb_trans _ _ _ Hc Hlt') as Hirr.
        clear -Hirr. exfalso. revert Hirr. unfold SFltb, SFcompare. destruct (score pn) as [[]|[]| |s m e]; try done.
        rewrite Z.compare_refl. assert (Pos.compare_cont Eq m m = Eq) as -> by apply Pos.compare_refl. by destruct s.
  - specialize (IH best bs Hbs). destruct (foldl _ _ cands) as [best' bs']. destruct IH as (H1 & H2 & H3). split_and!; [done| |].
    + destruct H2 as [?|[? (pn' & -> & ?)]]; [by left|]. right. split; [done|]. exists pn'. split; [done|by right].
    + intros pn' [->|Hin]%elem_of_cons; [|by apply H3]. destruct H2 as [[-> _]|[Hlt' _]]; [done|].
      destruct (SFltb (score pn) bs') eqn:Hc; [|done]. by rewrite (SFltb_trans _ _ _ Hc Hlt') in Hlt.
Qed.
End choose_laws.

Lemma sample_spec {A} (ok : A → bool) K items draw : ∃ ps cs, sample ok K items draw = Some cs ∧ at_positions ok items ps cs ∧ NoDup ps ∧
  zlength cs ≤ Z.max 0 K ∧ (zlength cs < K → ∀ i c, items !! i = Some c → ok c = true → i ∈ ps).
Proof.
  unfold sample. destruct (_ || _) eqn:E.
  - exists [], []. split_and!; [done|constructor|constructor|unfold zlength; simpl; lia|]. intros HK i c Hi. exfalso.
    apply lookup_lt_Some in Hi. unfold zlength in *. simpl in HK. lia.
  - apply orb_false_iff in E as [E1 E2].
    destruct (sample_loop_spec ok K items draw (length items) (seq 0 (length items)) []) as (ps & cs & Hs & Hat & Hnd & _ & Hle & Hall).
    + by rewrite length_seq.
    + apply Forall_take, Forall_forall. intros i Hi%elem_of_seq. lia.
    + rewrite take_ge by (by rewrite length_seq). apply NoDup_seq.
    + exists ps, cs. split_and!; [done|done|done|unfold zlength in *; simpl in *; lia|]. intros HK i c Hi Hok. eapply Hall; [done| |done|done].
      rewrite take_ge by (by rewrite length_seq). apply elem_of_seq. apply lookup_lt_Some in Hi. lia.
Qed.

Section place_laws.
Context {M : Type → Type} `{CMapLaws M} {ID : Type}.
Abbreviation Node := (Node (M := M) (ID := ID)).
Abbreviation place_sys := (place_sys M ID).
Implicit Types (t : place_sys) (w : place) (n : Node).

Lemma chooseNode_spec config excl rs build flt lbls (nodes : list (nat * Node)) draw :
  ∃ cands best, chooseNode config excl rs build flt lbls nodes draw = Some (fst <$> best) ∧
    (∀ pn, pn ∈ cands → pn ∈ nodes ∧ eligible config excl rs build flt lbls pn.2 = true) ∧
    zlength cands ≤ Z.max 0 (K config) ∧
    (zlength cands < K config → ∀ pn, pn ∈ nodes → eligible config excl rs build flt lbls pn.2 = true → pn ∈ cands) ∧
    match best with
    | Some pn => pn ∈ cands ∧ SFltb (Score pn.2 rs config) MaxFloat64 = true ∧
        ∀ pn', pn' ∈ cands → SFltb (Score pn'.2 rs config) (Score pn.2 rs config) = false
    | None => ∀ pn', pn' ∈ cands → SFltb (Score pn'.2 rs config) MaxFloat64 = false
    end.
Proof using.
  unfold chooseNode. destruct (sample_spec (λ pn : nat * Node, eligible config excl rs build flt lbls pn.2) (K config) nodes draw)
    as (ps & cs & -> & Hat & _ & Hle & Hall). simpl.
  pose proof (choose_best_spec config rs cs None MaxFloat64 I) as Hb. destruct (foldl _ _ cs) as [best bs]. destruct Hb as (H1 & H2 & H3).
  exists cs, best. split; [done|]. split_and!; [| done| |].
  - intros pn Hpn. apply list_elem_of_lookup in Hpn as [k Hk]. destruct (Forall2_lookup_r _ _ _ _ _ Hat Hk) as (i & _ & Hi & Hok).
    split; [by eapply list_elem_of_lookup_2|done].
  - intros HK pn Hpn Hok. apply list_elem_of_lookup in Hpn as [i Hi]. specialize (Hall HK i pn Hi Hok).
    apply list_elem_of_lookup in Hall as [k Hk]. destruct (Forall2_lookup_l _ _ _ _ _ Hat Hk) as (c & Hc & Hi' & _). simplify_eq.
    by eapply list_elem_of_lookup_2.
  - destruct H2 as [[-> ->]|[Hlt (pn & -> & Hin)]]; [done|]. subst bs. done.
Qed.

(** ** Invariant *)
Definition finished w : bool := match p_pc w with PDone _ => true | _ => false end.
Definition answered (i : nat) (f : create_result → bool) (e : nat * nat * create_result) : option nat :=
  let '(j, p, r) := e in if decide (j = i ∧ f r = true) then Some p else None.
(** For placement [i]: the nodes that reported success, those that reported a
    failure, those that have its sandbox, and those of them that reported an error. *)
Definition wins t i : list nat := omap (answered i is_created) (creates t).
Definition fails t i : list nat := omap (answered i is_failure) (creates t).
Definition hosts t i : list nat := omap (answered i has_sandbox) (creates t).
Definition lost t i : list nat := omap (answered i is_lost) (creates t).
Lemma hosts_split t i p : p ∈ hosts t i ↔ p ∈ wins t i ∨ p ∈ lost t i.
Proof using.
  unfold hosts, wins, lost. rewrite !list_elem_of_omap. split.
  - intros ([[j q] r] & Hin & Hx). simpl in Hx. case_decide as Hd; [|done]. destruct Hd as [-> Hr]. simplify_eq.
    destruct (is_created r) eqn:Ec; [left|right]; exists (i, p, r); (split; [done|]); simpl; rewrite decide_True; try done.
    unfold is_lost. by rewrite Hr, Ec.
  - intros [([[j q] r] & Hin & Hx)|([[j q] r] & Hin & Hx)]; simpl in Hx; case_decide as Hd; try done; destruct Hd as [-> Hr]; simplify_eq;
      exists (i, p, r); (split; [done|]); simpl; rewrite decide_True; try done.
    + split; [done|]. by destruct r.
    + split; [done|]. unfold is_lost in Hr. by apply andb_true_iff in Hr as [? _].
Qed.
Definition valid t (p : nat) : Prop := is_Some (pnodes t !! p).
Definition has_id t (p : nat) (id : string) : Prop := NID <$> pnodes t !! p = Some id.

Definition pc_ok t i w : Prop :=
  match p_pc w with
  | PLoop None => wins t i = []
  | PLoop (Some p) => wins t i = [] ∧ fails t i = [] ∧ valid t p
  | PCreating p => wins t i = [] ∧ p_attempt w < maxRetries ∧ ∃ id, has_id t p id ∧ id ∉ p_excluded w
  | PDone (Ok p) => wins t i = [p]
  | PDone (Err _) => wins t i = []
  | PDone Panic => False
  end.
Record place_ok t i w : Prop := {
  po_attempt : p_attempt w = zlength (fails t i);
  po_bound : p_attempt w ≤ maxRetries;
  po_excluded : ∃ ids, Forall2 (has_id t) (fails t i) ids ∧ NoDup ids ∧ p_excluded w = list_to_set ids;
  po_cluster : Forall (valid t) (q_cluster (p_req w));
  po_pc : pc_ok t i w;
}.
Record placement_ok t : Prop := {
  pl_places i w : places t !! i = Some w → place_ok t i w;
  pl_creates i p r : (i, p, r) ∈ creates t → (i < length (places t))%nat;
  pl_ids i j w w' : places t !! i = Some w → places t !! j = Some w' → finished w = false → finished w' = false →
    q_id (p_req w) = q_id (p_req w') → i = j;
  pl_progress p n id rs : pnodes t !! p = Some n →
    cm_items (sandboxesInProgress (placement n)) !! id = Some rs ↔
    ∃ i w, places t !! i = Some w ∧ p_pc w = PCreating p ∧ q_id (p_req w) = id ∧ q_res (p_req w) = rs;
  pl_counts p n : pnodes t !! p = Some n →
    createSuccess (placement n) = u64 (Z.of_nat (count_if (λ e, bool_decide (e.1.2 = p ∧ is_created e.2 = true)) (creates t))) ∧
    createFails (placement n) = u64 (Z.of_nat (count_if (λ e, bool_decide (e.1.2 = p ∧ is_failure e.2 = true)) (creates t)));
}.

(** The placements that wait for node [p] to create a sandbox. *)
Definition creating (ws : list place) (p : nat) (id : string) (rs : SandboxResources) : Prop :=
  ∃ i w, ws !! i = Some w ∧ p_pc w = PCreating p ∧ q_id (p_req w) = id ∧ q_res (p_req w) = rs.
Definition ids_unique (ws : list place) : Prop :=
  ∀ i j w w', ws !! i = Some w → ws !! j = Some w' → finished w = false → finished w' = false → q_id (p_req w) = q_id (p_req w') → i = j.

Lemma creating_insert ws i w w' p id rs : ws !! i = Some w → ids_unique ws → p_req w' = p_req w →
  creating (<[i := w']> ws) p id rs ↔
    creating ws p id rs ∧ (p_pc w ≠ PCreating p ∨ id ≠ q_id (p_req w)) ∨
    p_pc w' = PCreating p ∧ q_id (p_req w) = id ∧ q_res (p_req w) = rs.
Proof using.
  intros Hi Hu Hq. split.
  - intros (j & x & [(-> & <- & _)|[Hne Hj]]%list_lookup_insert_Some & Hpc & Hid & Hrs); [right; by rewrite <- Hq|].
    left. split; [by exists j, x|]. destruct (decide (id = q_id (p_req w))) as [->|?]; [left|by right].
    intros Hw. destruct Hne. eapply Hu; try done; unfold finished; [by rewrite Hw|by rewrite Hpc].
  - intros [[(j & x & Hj & Hpc & Hid & Hrs) Hor]|(Hpc & Hid & Hrs)].
    + exists j, x. split; [|done]. apply list_lookup_insert_Some. right. split; [|done]. intros ->. assert (x = w) as -> by congruence.
      by destruct Hor.
    + exists i, w'. rewrite Hq. split; [|done]. apply list_lookup_insert_eq. by eapply lookup_lt_Some.
Qed.
Lemma ids_unique_insert ws i w w' : ws !! i = Some w → finished w = false → ids_unique ws → p_req w' = p_req w → ids_unique (<[i := w']> ws).
Proof using.
  intros Hi Hf Hu Hq a b x y [(-> & <- & _)|[Hna Ha]]%list_lookup_insert_Some [(-> & <- & _)|[Hnb Hb]]%list_lookup_insert_Some Hx Hy; try done;
    rewrite ?Hq; intros Hid; by eapply Hu.
Qed.

(** Nodes keep their identity. *)
Definition same_ids t t' : Prop := ∀ p, NID <$> pnodes t' !! p = NID <$> pnodes t !! p.
Lemma same_ids_valid t t' p : same_ids t t' → valid t p → valid t' p.
Proof using. intros Hs [n Hn]. unfold valid. specialize (Hs p). rewrite Hn in Hs. destruct (pnodes t' !! p); [by eexists|done]. Qed.
Lemma place_ok_mono t t' i w : same_ids t t' → wins t' i = wins t i → fails t' i = fails t i → place_ok t i w → place_ok t' i w.
Proof using.
  intros Hs Hw Hf [H1 H2 (ids & H3 & H4) H5 H6].
  assert (∀ p id, has_id t p id → has_id t' p id) as Hid by (intros p id; unfold has_id; by rewrite Hs).
  split; [by rewrite Hf|done| | |].
  - exists ids. rewrite Hf. split; [|done]. eapply Forall2_impl; [done|]. auto.
  - eapply Forall_impl; [done|]. intros p. by apply same_ids_valid.
  - unfold pc_ok in *. rewrite Hw, Hf. destruct (p_pc w) as [[p|]|p|[p|e|]]; try done.
    + destruct H6 as (? & ? & ?). split_and!; [done|done|by eapply same_ids_valid].
    + destruct H6 as (? & ? & id & ? & ?). split_and!; [done|done|]. exists id. auto.
Qed.
Lemma with_pnode_ids t p f : same_ids t (with_pnode t p f).
Proof using. intros q. simpl. destruct (decide (q = p)) as [->|Hne]; [rewrite list_lookup_alter_eq; by destruct (pnodes t !! p)|by rewrite list_lookup_alter_ne]. Qed.

Definition place_label_ok t (l : plabel (M := M) (ID := ID)) : Prop :=
  match l with
  | LPlace q pref => Forall (valid t) (q_cluster q) ∧ match pref with Some p => valid t p | None => True end ∧
      ∀ i w, places t !! i = Some w → finished w = false → q_id (p_req w) ≠ q_id q
  | LIter _ _ view _ => ∀ p n, pnodes t !! p = Some n → NID (view p) = NID n
  | LCreate _ _ => True
  | LNode p n' => ∀ n, pnodes t !! p = Some n → same_node n n'
  | LConfig _ => True
  end.

(** A placement gives up. *)
Lemma return_ok t i w node e : placement_ok t → places t !! i = Some w → p_pc w = PLoop node →
  placement_ok (with_place t i (mkPlace (p_req w) (p_excluded w) (p_attempt w) (PDone (Err e)))).
Proof using.
  intros [H1 H2 H3 H4 H5] Hi Hpc. set (w' := mkPlace _ _ _ _).
  assert (finished w = false) as Hf by (unfold finished; by rewrite Hpc).
  split; simpl; [| | | |done].
  - intros j x Hj. eapply (place_ok_mono t); [by intros p|done|done|].
    apply list_lookup_insert_Some in Hj as [(<- & <- & _)|[Hne Hj]]; [|by apply H1].
    destruct (H1 i w Hi) as [G1 G2 G3 G4 G5]. split; [done..|]. unfold pc_ok in *. simpl. rewrite Hpc in G5. destruct node; [by destruct G5|done].
  - intros j p r Hin. rewrite length_insert. by eapply H2.
  - by eapply ids_unique_insert.
  - intros p n id rs Hn. rewrite (H4 p n id rs Hn). change (creating (places t) p id rs ↔ creating (<[i := w']> (places t)) p id rs).
    rewrite (creating_insert _ i w) by done. simpl. rewrite Hpc. naive_solver.
Qed.

(** A placement calls [SandboxCreate]. *)
Lemma create_ok t i w node p id : placement_ok t → places t !! i = Some w → p_pc w = PLoop node →
  p_attempt w < maxRetries → has_id t p id → id ∉ p_excluded w →
  placement_ok (with_place (with_pnode t p (λ pm, StartPlacing pm (q_id (p_req w)) (q_res (p_req w)))) i
    (mkPlace (p_req w) (p_excluded w) (p_attempt w) (PCreating p))).
Proof using All.
  intros [H1 H2 H3 H4 H5] Hi Hpc Hatt Hid Hnex. set (w' := mkPlace _ _ _ _).
  set (t1 := with_pnode _ _ _). pose proof (with_pnode_ids t p (λ pm, StartPlacing pm (q_id (p_req w)) (q_res (p_req w)))) as Hsame.
  assert (finished w = false) as Hf by (unfold finished; by rewrite Hpc).
  split; simpl.
  - intros j x Hj. eapply (place_ok_mono t); [apply Hsame|done|done|].
    apply list_lookup_insert_Some in Hj as [(<- & <- & _)|[Hne Hj]]; [|by apply H1].
    destruct (H1 i w Hi) as [G1 G2 G3 G4 G5]. split; [done..|]. unfold pc_ok in *. simpl. rewrite Hpc in G5. destruct node; [destruct G5|]; eauto.
  - intros j q r Hin. rewrite length_insert. by eapply H2.
  - by eapply ids_unique_insert.
  - intros q n id' rs Hn. change (cm_items (sandboxesInProgress (placement n)) !! id' = Some rs ↔ creating (<[i := w']> (places t)) q id' rs).
    rewrite (creating_insert _ i w) by done. simpl. rewrite Hpc.
    destruct (decide (q = p)) as [->|Hne].
    + rewrite list_lookup_alter_eq in Hn. destruct (pnodes t !! p) as [n0|] eqn:Hn0; [|done]. injection Hn as <-. simpl.
      unfold smap_Insert. rewrite cm_items_set, lookup_insert_Some, (H4 p n0 id' rs Hn0). split.
      { intros [[? ?]|[? Hc]]; [by right|left]. split; [exact Hc|right; congruence]. }
      intros [[Hc _]|(_ & -> & ->)]; [|by left]. right. split; [|done]. intros <-. destruct Hc as (j & x & Hj & Hx & Hxid & _).
      assert (i = j) as <-; [|congruence]. eapply H3; try done. unfold finished. by rewrite Hx.
    + rewrite list_lookup_alter_ne in Hn by done. rewrite (H4 q n id' rs Hn). split.
      { intros Hc. left. split; [exact Hc|by left]. } intros [[? _]|[? _]]; [done|]. congruence.
  - intros q n Hn. destruct (decide (q = p)) as [->|Hne].
    + rewrite list_lookup_alter_eq in Hn. destruct (pnodes t !! p) as [n0|] eqn:Hn0; [|done]. injection Hn as <-. simpl. by apply H5.
    + rewrite list_lookup_alter_ne in Hn by done. by apply H5.
Qed.

(** [SandboxCreate] answers. *)
Lemma place_answer_ok t i w p n r : placement_ok t → places t !! i = Some w → p_pc w = PCreating p → pnodes t !! p = Some n →
  placement_ok (place_answer t i w p n r).
Proof using All.
  intros [H1 H2 H3 H4 H5] Hi Hpc Hn.
  assert (finished w = false) as Hf by (unfold finished; by rewrite Hpc).
  set (pm' := match r with Created => Success (placement n) (q_id (p_req w)) | ResourceExhausted _ => Skip (placement n) (q_id (p_req w))
              | CreateFails _ => Fail_ (placement n) (q_id (p_req w)) end).
  set (w' := match r with
    | Created => mkPlace (p_req w) (p_excluded w) (p_attempt w) (PDone (Ok p))
    | ResourceExhausted _ => mkPlace (p_req w) (p_excluded w) (p_attempt w) (PLoop None)
    | CreateFails _ => mkPlace (p_req w) ({[NID n]} ∪ p_excluded w) (p_attempt w + 1) (PLoop None) end).
  assert (place_answer t i w p n r = mkPlaceSys (<[p := with_placement n pm']> (pnodes t)) (<[i := w']> (places t)) (pconfig t)
    (creates t ++ [(i, p, r)])) as ->.
  { assert (∀ f, alter (λ n, with_placement n (f (placement n))) p (pnodes t) = <[p := with_placement n (f (placement n))]> (pnodes t)) as Ha.
    { intros f. apply list_eq. intros q. destruct (decide (q = p)) as [->|Hne].
      - rewrite list_lookup_alter_eq, list_lookup_insert_eq, Hn by (by eapply lookup_lt_Some). done.
      - by rewrite list_lookup_alter_ne, list_lookup_insert_ne. }
    unfold place_answer, with_place, with_pnode. simpl. destruct r; simpl; f_equal;
      [apply (Ha (λ pm, Success pm (q_id (p_req w))))|apply (Ha (λ pm, Skip pm (q_id (p_req w))))|apply (Ha (λ pm, Fail_ pm (q_id (p_req w))))]. }
  assert (p_req w' = p_req w) as Hq by by destruct r.
  assert (p_pc w' ≠ PCreating p) as Hnc by by destruct r.
  set (t' := mkPlaceSys _ _ _ _).
  assert (same_ids t t') as Hsame.
  { intros q. simpl. destruct (decide (q = p)) as [->|Hne]; [|by rewrite list_lookup_insert_ne].
    rewrite list_lookup_insert_eq by (by eapply lookup_lt_Some). by rewrite Hn. }
  assert (∀ j f, omap (answered j f) (creates t') = omap (answered j f) (creates t) ++ if decide (i = j ∧ f r = true) then [p] else []) as Hlog.
  { intros j f. simpl. rewrite omap_app. f_equal. simpl. by case_decide. }
  split.
  - intros j x [(<- & <- & _)|[Hne Hj]]%list_lookup_insert_Some.
    2: { apply (place_ok_mono t); [done| | |by apply H1]; unfold wins, fails; rewrite Hlog, decide_False by naive_solver; by rewrite app_nil_r. }
    destruct (H1 i w Hi) as [G1 G2 (ids & G3 & G4 & G6) G5 G7]. unfold pc_ok in G7. rewrite Hpc in G7. destruct G7 as (Gw & Ga & id & Gid & Gex).
    assert (id = NID n) as -> by (unfold has_id in Gid; rewrite Hn in Gid; by injection Gid as <-).
    assert (∀ q, has_id t q = has_id t' q) as Hhas by (intros q; unfold has_id; by rewrite Hsame).
    assert (Forall (valid t') (q_cluster (p_req w))) as Gc by (eapply Forall_impl; [done|]; intros; by eapply same_ids_valid).
    assert (Forall2 (has_id t') (fails t i) ids) as G3'.
    { eapply Forall2_impl; [done|]. intros q d. by rewrite Hhas. }
    assert (∀ f, f r = false → omap (answered i f) (creates t') = omap (answered i f) (creates t)) as Hother.
    { intros f Hr. rewrite Hlog, decide_False by (intros [_ ?]; congruence). by rewrite app_nil_r. }
    assert (∀ f, f r = true → omap (answered i f) (creates t') = omap (answered i f) (creates t) ++ [p]) as Hmine by (intros; by rewrite Hlog, decide_True).
    destruct r; split; simpl; unfold pc_ok, wins, fails in *; simpl p_pc; cbv iota;
      first [rewrite (Hmine is_created) by done|rewrite (Hother is_created) by done|idtac];
      first [rewrite (Hmine is_failure) by done|rewrite (Hother is_failure) by done|idtac]; try done.
    + by exists ids.
    + by rewrite Gw.
    + by exists ids.
    + unfold zlength in *. rewrite length_app. simpl. lia.
    + unfold maxRetries in *. lia.
    + exists (ids ++ [NID n]). split_and!.
      * apply Forall2_app; [done|]. constructor; [|done]. by rewrite <- Hhas.
      * apply NoDup_app. split_and!; [done| |apply NoDup_singleton]. intros d Hd ->%list_elem_of_singleton. apply Gex. rewrite G6. by apply elem_of_list_to_set.
      * rewrite G6, list_to_set_app_L. simpl. set_solver.
  - intros j q r' Hin. simpl in *. rewrite length_insert. apply elem_of_app in Hin as [Hin|Hin]; [by eapply H2|].
    apply list_elem_of_singleton in Hin as [= -> _ _]. by eapply lookup_lt_Some.
  - by eapply ids_unique_insert.
  - intros q m id rs Hm. change (cm_items (sandboxesInProgress (placement m)) !! id = Some rs ↔ creating (<[i := w']> (places t)) q id rs).
    rewrite (creating_insert _ i w) by done. rewrite Hpc. simpl in Hm.
    apply list_lookup_insert_Some in Hm as [(<- & <- & _)|[Hne Hm]].
    + assert (cm_items (sandboxesInProgress (placement (with_placement n pm'))) = delete (q_id (p_req w)) (cm_items (sandboxesInProgress (placement n)))) as ->.
      { unfold pm'. destruct r; simpl; unfold smap_Remove; by rewrite cm_items_remove. }
      rewrite lookup_delete_Some, (H4 p n id rs Hn). split; [intros [? ?]; left; split; [done|by right]|].
      intros [[? [?|?]]|[? _]]; done.
    + rewrite (H4 q m id rs Hm). split; [intros ?; left; split; [done|left; congruence]|]. intros [[? _]|[Hx _]]; [done|]. by destruct r.
  - intros q m Hm. simpl in *. rewrite !count_if_snoc. simpl. apply list_lookup_insert_Some in Hm as [(<- & <- & _)|[Hne Hm]].
    + destruct (H5 p n Hn) as [E1 E2].
      assert (∀ b : bool, bool_decide (p = p ∧ b = true) = b) as Hd by (intros []; [by apply bool_decide_true|by apply bool_decide_false; intros [_ ?]]).
      rewrite !Hd. unfold pm'. destruct r; simpl; rewrite ?E1, ?E2, ?Nat.add_0_r; split; try done;
        rewrite Nat2Z.inj_add; unfold u64; by rewrite Zplus_mod_idemp_l.
    + destruct (H5 q m Hm) as [E1 E2]. rewrite !bool_decide_false by (by intros [-> _]). by rewrite !Nat.add_0_r.
Qed.

Lemma place_step_ok t l : placement_ok t → place_label_ok t l →
  match place_step t l with Ok t' => placement_ok t' | Err _ => True | Panic => False end.
Proof using All.
  intros Ht Hl. destruct l as [q pref|i cancelled view draw|i r|p n'|c]; simpl.
  - destruct Hl as (Hcl & Hpref & Hid). destruct Ht as [H1 H2 H3 H4 H5]. set (w := mkPlace _ _ _ _).
    assert (∀ r, omap (answered (length (places t)) r) (creates t) = []) as Hnone.
    { intros r. apply elem_of_nil_inv. intros x ([[j p] r'] & Hin & Hx)%list_elem_of_omap. specialize (H2 j p r' Hin).
      simpl in Hx. rewrite decide_False in Hx by lia. done. }
    split; simpl.
    + intros j x [Hj|[Hge Hj]]%lookup_app_Some; (eapply (place_ok_mono t); [by intros p|done|done|]); [by apply H1|].
      assert (j = length (places t)) as -> by (apply lookup_lt_Some in Hj; simpl in Hj; lia). rewrite Nat.sub_diag in Hj. injection Hj as <-.
      split; unfold wins, fails, pc_ok, wins, fails; simpl; rewrite ?Hnone; [done|done|exists []; by split_and!; [constructor|constructor|]|done|].
      by destruct pref.
    + intros j p r Hin. rewrite length_app. specialize (H2 j p r Hin). simpl. lia.
    + intros j k x y [Hj|[Hgej Hj]]%lookup_app_Some [Hk|[Hgek Hk]]%lookup_app_Some Hfx Hfy Heq.
      * by eapply H3.
      * apply list_lookup_singleton_Some in Hk as [_ <-]. by destruct (Hid j x Hj Hfx).
      * apply list_lookup_singleton_Some in Hj as [_ <-]. by destruct (Hid k y Hk Hfy).
      * apply list_lookup_singleton_Some in Hj as [? _]. apply list_lookup_singleton_Some in Hk as [? _]. lia.
    + intros p n id rs Hn. rewrite (H4 p n id rs Hn). split.
      * intros (j & x & Hj & ?). exists j, x. split; [by apply lookup_app_l_Some|done].
      * intros (j & x & [Hj|[_ Hj]]%lookup_app_Some & Hx); [by exists j, x|]. apply list_lookup_singleton_Some in Hj as [_ <-]. by destruct Hx.
    + done.
  - destruct (places t !! i) as [w|] eqn:Hi; [|done]. destruct (p_pc w) as [node| |] eqn:Hpc; try done. unfold place_iter.
    pose proof (pl_places _ Ht i w Hi) as [_ _ (ids & Hids & _ & Hex) Hcl Hpo]. unfold pc_ok in Hpo. rewrite Hpc in Hpo.
    destruct (Z.ltb_spec (p_attempt w) maxRetries) as [Ha|Ha]; simpl; [|by eapply return_ok]. destruct cancelled; [by eapply return_ok|].
    destruct node as [p|].
    + destruct Hpo as (_ & Hnof & [n Hn]). eapply (create_ok t i w _ p (NID n)); try done; [unfold has_id; by rewrite Hn|].
      rewrite Hnof in Hids. apply Forall2_nil_inv_l in Hids as ->. rewrite Hex. simpl. set_solver.
    + destruct (_ <=? _); [by eapply return_ok|].
      destruct (chooseNode_spec (pconfig t) (p_excluded w) (q_res (p_req w)) (q_build (p_req w)) (q_filter (p_req w)) (q_labels (p_req w))
        ((λ p, (p, view p)) <$> q_cluster (p_req w)) draw) as (cands & best & -> & Hc & _ & _ & Hb).
      destruct best as [[p v]|]; simpl; [|by eapply return_ok]. destruct Hb as (Hin & _). apply Hc in Hin as [Hin Hel].
      apply list_elem_of_fmap in Hin as (p' & [= <- ->] & Hp). pose proof (proj1 (Forall_forall _ _) Hcl p Hp) as [n Hn]. simpl in Hel.
      eapply (create_ok t i w _ p (NID n)); try done; [unfold has_id; by rewrite Hn|]. rewrite <- (Hl p n Hn).
      unfold eligible in Hel. rewrite !andb_true_iff, negb_true_iff, bool_decide_eq_false in Hel. naive_solver.
  - destruct (places t !! i) as [w|] eqn:Hi; [|done]. destruct (p_pc w) as [|p|] eqn:Hpc; try done.
    destruct (pnodes t !! p) as [n|] eqn:Hn; [|done]. by apply place_answer_ok.
  - destruct Ht as [H1 H2 H3 H4 H5].
    assert (∀ q m, <[p := n']> (pnodes t) !! q = Some m → ∃ m0, pnodes t !! q = Some m0 ∧ NID m = NID m0 ∧ placement m = placement m0) as Hnode.
    { intros q m [(<- & <- & Hlt)|[_ Hm]]%list_lookup_insert_Some; [|by exists m]. destruct (lookup_lt_is_Some_2 _ _ Hlt) as [m0 Hm0].
      exists m0. specialize (Hl m0 Hm0). destruct Hl as (_ & ? & _ & _ & ?). done. }
    split; simpl; [|done|done| |].
    + intros i w Hi. eapply (place_ok_mono t); [|done|done|by apply H1]. intros q. simpl. destruct (decide (p = q)) as [<-|Hne].
      * destruct (pnodes t !! p) as [m0|] eqn:Hm0.
        -- rewrite list_lookup_insert_eq by (by eapply lookup_lt_Some). destruct (Hl m0 Hm0) as (_ & E & _). simpl. by rewrite E.
        -- rewrite list_insert_ge by (by apply lookup_ge_None_1). by rewrite Hm0.
      * by rewrite list_lookup_insert_ne.
    + intros q m id rs Hm. destruct (Hnode q m Hm) as (m0 & Hm0 & _ & ->). by apply H4.
    + intros q m Hm. destruct (Hnode q m Hm) as (m0 & Hm0 & _ & ->). by apply H5.
  - destruct Ht as [H1 H2 H3 H4 H5]. split; try done. intros i w Hi. eapply (place_ok_mono t); [by intros p|done|done|by apply H1].
Qed.

(** Runs whose labels are well formed all the way. *)
Fixpoint labels_ok t (ls : list (plabel (M := M) (ID := ID))) : Prop :=
  match ls with
  | [] => True
  | l :: ls => place_label_ok t l ∧ match place_step t l with Ok t' => labels_ok t' ls | _ => True end
  end.
Lemma place_run_ok ls : ∀ t, placement_ok t → labels_ok t ls →
  match place_run t ls with Ok t' => placement_ok t' | Err _ => True | Panic => False end.
Proof using All.
  induction ls as [|l ls IH]; intros t Ht Hls; simpl in *; [done|]. destruct Hls as [Hl Hls].
  pose proof (place_step_ok t l Ht Hl) as Hs. destruct (place_step t l) as [t'|?|]; [|done..]. by apply IH.
Qed.

(** No sandbox is being placed yet. *)
Definition fresh t : Prop :=
  places t = [] ∧ creates t = [] ∧
  Forall (λ n : Node, cm_items (sandboxesInProgress (placement n)) = ∅ ∧ createSuccess (placement n) = 0 ∧ createFails (placement n) = 0) (pnodes t).
Lemma fresh_ok t : fresh t → placement_ok t.
Proof using.
  intros (Hp & Hc & Hn). split; rewrite ?Hp, ?Hc; try done.
  - by intros i p r ?%not_elem_of_nil.
  - intros p n id rs Hpn. pose proof (proj1 (Forall_lookup _ _) Hn p n Hpn) as (-> & _). rewrite lookup_empty.
    split; [done|]. by intros (i & w & Hi & _).
  - intros p n Hpn. pose proof (proj1 (Forall_lookup _ _) Hn p n Hpn) as (_ & -> & ->). done.
Qed.

(** ** Properties *)


(** [chooseNode] picks among the nodes that pass every filter, and when the
    sample is larger than the cluster its choice is optimal: no eligible node has a
    lower score, and it fails only if no eligible node has a finite score. *)
Theorem chooseNode_optimal config excl rs build flt lbls (nodes : list (nat * Node)) draw :
  zlength nodes < K config →
  match chooseNode config excl rs build flt lbls nodes draw with
  | Some (Some p) => ∃ n, (p, n) ∈ nodes ∧ eligible config excl rs build flt lbls n = true ∧
      SFltb (Score n rs config) MaxFloat64 = true ∧
      ∀ p' n', (p', n') ∈ nodes → eligible config excl rs build flt lbls n' = true → SFltb (Score n' rs config) (Score n rs config) = false
  | Some None => ∀ p' n', (p', n') ∈ nodes → eligible config excl rs build flt lbls n' = true → SFltb (Score n' rs config) MaxFloat64 = false
  | None => False
  end.
Proof using.
  intros HK. unfold chooseNode. destruct (sample_spec (λ pn : nat * Node, eligible config excl rs build flt lbls pn.2) (K config) nodes draw)
    as (ps & cs & -> & Hat & Hnd & Hle & Hall). simpl.
  assert (zlength cs < K config) as Hlt.
  { unfold zlength in *. rewrite <- (Forall2_length _ _ _ Hat). assert (length ps ≤ length (seq 0 (length nodes)))%nat as Hps; [|rewrite length_seq in Hps; lia].
    apply NoDup_incl_length; [by apply NoDup_ListNoDup|]. intros i Hi%list_elem_of_In. apply list_elem_of_In, elem_of_seq.
    apply list_elem_of_lookup in Hi as [k Hk]. destruct (Forall2_lookup_l _ _ _ _ _ Hat Hk) as (c & _ & Hc & _). apply lookup_lt_Some in Hc. lia. }
  assert (∀ pn, pn ∈ nodes → eligible config excl rs build flt lbls pn.2 = true → pn ∈ cs) as Hin.
  { intros pn Hpn Hok. apply list_elem_of_lookup in Hpn as [i Hi]. specialize (Hall Hlt i pn Hi Hok).
    apply list_elem_of_lookup in Hall as [k Hk]. destruct (Forall2_lookup_l _ _ _ _ _ Hat Hk) as (c & Hc & Hi' & _). simplify_eq.
    by eapply list_elem_of_lookup_2. }
  pose proof (choose_best_spec config rs cs None MaxFloat64 I) as Hb. destruct (foldl _ _ cs) as [best bs]. destruct Hb as (H1 & H2 & H3).
  destruct H2 as [[-> ->]|[Hbs ([p n] & -> & Hpn)]]; simpl.
  - intros p' n' Hp' Hel. by apply (H3 (p', n')), Hin.
  - subst bs. simpl in *. exists n. apply list_elem_of_lookup in Hpn as [k Hk].
    destruct (Forall2_lookup_r _ _ _ _ _ Hat Hk) as (i & _ & Hi & Hok). split_and!; [by eapply list_elem_of_lookup_2|done|done|].
    intros p' n' Hp' Hel. by apply (H3 (p', n')), Hin.
Qed.
End place_laws.

(** [sample] returns different items that pass the filter, up to [K] of them,
    and fewer only when it returns all that pass; and with the right random numbers
    any [K] different items that pass, in any order. *)
Theorem sample_selects {A} (ok : A → bool) (K : Z) (items : list A) :
  0 < K →
  (∀ draw, ∃ ps cs, sample ok K items draw = Some cs ∧ at_positions ok items ps cs ∧ NoDup ps ∧ zlength cs ≤ K ∧
     (zlength cs < K → ∀ i c, items !! i = Some c → ok c = true → i ∈ ps)) ∧
  (∀ ps cs, at_positions ok items ps cs → NoDup ps → zlength cs = K → ∃ draw, sample ok K items draw = Some cs).
Proof.
  intros HK. split.
  - intros draw. destruct (sample_spec ok K items draw) as (ps & cs & ? & ? & ? & ? & ?). exists ps, cs. split_and!; try done. lia.
  - intros ps cs Hat Hnd Hcs. destruct (sample_loop_any ok K items ps (length items) (seq 0 (length items)) [] cs) as [draw Hd].
    + by rewrite length_seq.
    + done.
    + done.
    + intros i Hi. rewrite take_ge by (by rewrite length_seq). apply elem_of_seq. apply list_elem_of_lookup in Hi as [k Hk].
      destruct (Forall2_lookup_l _ _ _ _ _ Hat Hk) as (c & _ & Hc & _). apply lookup_lt_Some in Hc. lia.
    + done.
    + exists draw. unfold sample. rewrite Hd by done. simpl. destruct (_ || _) eqn:E; [|done]. exfalso.
      apply orb_true_iff in E as [E|E]; [lia|]. apply Z.eqb_eq in E. unfold zlength in *. destruct items; [|done].
      destruct cs as [|c cs]; simpl in Hcs; [lia|]. inversion Hat as [|? ? ? ? [Hc _]]. done.
Qed.

(** ** Witnesses *)
#[local] Existing Instances GMapC.ops GMapC.laws.

(** A healthy node with [cpus] processors of which [alloc] are given away. *)
Definition ex_node (id : string) (cpus alloc : Z) : Node (M := GMapC.t) (ID := nat) :=
  mkNode id id 0%nat NodeStatusReady ConnReady (mkMetrics alloc 0 cpus 0 0 0 0 []) (mkMachineInfo "" "" "" "" []) ∅
    (mkNodeMeta "" "" "") NewPlacementMetrics.
Definition ex_cluster : list (Node (M := GMapC.t) (ID := nat)) := [ex_node "a" 8 4; ex_node "b" 8 2].
Definition ex_request : request := mkRequest "sbx" (mkResources 2 512) (mkMachineInfo "" "" "" "" []) false [] [0%nat; 1%nat].
Definition ex_placement : place_sys GMapC.t nat := mkPlaceSys ex_cluster [] DefaultBestOfKConfig [].
Definition ex_view (p : nat) : Node (M := GMapC.t) (ID := nat) := default (ex_node "" 0 0) (ex_cluster !! p).

(** The preferred node fails, the other one creates the sandbox. *)
Definition ex_placing : list (plabel (M := GMapC.t) (ID := nat)) :=
  [LPlace ex_request (Some 0%nat); LIter 0 false ex_view (λ _, 0%nat); LCreate 0 (CreateFails false);
   LIter 0 false ex_view (λ _, 0%nat); LCreate 0 Created].
Lemma ex_fresh : fresh ex_placement.
Proof. split_and!; [done|done|]. by repeat constructor. Qed.
Lemma ex_view_ok (t : place_sys GMapC.t nat) p n : (λ n, NID n) <$> pnodes t = ["a"; "b"] → pnodes t !! p = Some n → NID (ex_view p) = NID n.
Proof.
  intros Hids Hn. apply (f_equal (.!! p)) in Hids. rewrite list_lookup_fmap, Hn in Hids. simpl in Hids.
  destruct p as [|[|p]]; simpl in Hids; [by injection Hids as ->|by injection Hids as ->|done].
Qed.
Ltac next_label :=
  lazymatch goal with |- match ?s with _ => _ end => let v := eval vm_compute in s in change s with v; cbv beta iota end; cbn [labels_ok].
Lemma ex_placing_ok : labels_ok ex_placement ex_placing.
Proof.
  unfold ex_placing. cbn [labels_ok]. split.
  { split_and!; [|by eexists|done]. repeat constructor; by eexists. }
  next_label. split; [intros p n; by apply ex_view_ok|]. next_label. split; [done|].
  next_label. split; [intros p n; by apply ex_view_ok|]. next_label. split; [done|]. by next_label.
Qed.


(** The reply of the first node is lost: two nodes have the sandbox, and the second
    is returned. *)
Lemma lost_reply_places_twice :
  match place_run ex_placement [LPlace ex_request (Some 0%nat); LIter 0 false ex_view (λ _, 0%nat); LCreate 0 (CreateFails true);
      LIter 0 false ex_view (λ _, 0%nat); LCreate 0 Created] with
  | Ok t => hosts t 0 = [0%nat; 1%nat] ∧ wins t 0 = [1%nat] ∧ p_pc <$> places t = [PDone (Ok 1%nat)]
  | _ => False
  end.
Proof. by vm_compute. Qed.

(** Node [b] has more room; with a sample of all nodes it is chosen. *)
Lemma chooseNode_optimal_witness :
  let config := mkConfig (f64_of_Z 4) (f64_of_Z 0) 5 false true in
  chooseNode config ∅ (mkResources 2 512) (mkMachineInfo "" "" "" "" []) false [] [(0%nat, ex_node "a" 8 4); (1%nat, ex_node "b" 8 2)] (λ _, 1%nat) = Some (Some 1%nat) ∧
  SFltb (Score (ex_node "a" 8 4) (mkResources 2 512) config) (Score (ex_node "b" 8 2) (mkResources 2 512) config) = false.
Proof.
  intros config. split; [by vm_compute|].
  pose proof (chooseNode_optimal config ∅ (mkResources 2 512) (mkMachineInfo "" "" "" "" []) false []
    [(0%nat, ex_node "a" 8 4); (1%nat, ex_node "b" 8 2)] (λ _, 1%nat) ltac:(by vm_compute)) as Hc.
  destruct (chooseNode _ _ _ _ _ _ _ _) as [[p|]|] eqn:E; vm_compute in E; [|discriminate..]. injection E as <-.
  destruct Hc as (n & Hin & _ & _ & Hbest).
  assert (n = ex_node "b" 8 2) as -> by (rewrite !elem_of_cons in Hin; destruct Hin as [|[|?%not_elem_of_nil]]; by simplify_eq).
  apply (Hbest 0%nat); [left|by vm_compute].
Defined.

Lemma sample_selects_witness : ∃ draw, sample Z.even 2 [1; 2; 4; 6] draw = Some [6; 2].
Proof.
  destruct (sample_selects Z.even 2 [1; 2; 4; 6] ltac:(lia)) as [_ Hs]. apply (Hs [3%nat; 1%nat]).
  - repeat constructor; by vm_compute.
  - apply (bool_decide_unpack _). by vm_compute.
  - done.
Defined.

(** ** A full node is asked for ever

    A node that answers [ResourceExhausted] is neither excluded nor counted as an
    attempt. *)
Definition ex_small : request := mkRequest "sbx" (mkResources 2 512) (mkMachineInfo "" "" "" "" []) false [] [0%nat].
Definition ex_spin (log : list (nat * nat * create_result)) : place_sys GMapC.t nat :=
  mkPlaceSys [ex_node "a" 8 4] [mkPlace ex_small ∅ 0 (PLoop None)] DefaultBestOfKConfig log.
Lemma spin log : place_run (ex_spin log) [LIter 0 false ex_view (λ _, 0%nat); LCreate 0 (ResourceExhausted false)] =
  Ok (ex_spin (log ++ [(0%nat, 0%nat, ResourceExhausted false)])).
Proof. by vm_compute. Qed.

(** While the only suitable node is full, [PlaceSandbox] asks it again and
    again: for every [n] there is a run after which it has made [n] attempts, counted
    none of them and is still looking, although at most three are allowed. *)
Theorem Placement_exhausted_spins (n : nat) :
  ∃ ls, place_run (ex_spin []) ls = Ok (ex_spin (replicate n (0%nat, 0%nat, ResourceExhausted false))).
Proof.
  induction n as [|n [ls Hls]]; [by exists []|].
  exists (ls ++ [LIter 0 false ex_view (λ _, 0%nat); LCreate 0 (ResourceExhausted false)]).
  assert (∀ ls t t' ls', place_run t ls = Ok t' → place_run t (ls ++ ls') = place_run (M := GMapC.t) (ID := nat) t' ls') as Happ.
  { clear. induction ls as [|l ls IH]; intros t t' ls' Ht; simpl in *; [by injection Ht as <-|].
    destruct (place_step t l) as [t1|?|]; simpl in *; [|done..]. by apply IH. }
  rewrite (Happ _ _ _ _ Hls), spin. by rewrite replicate_S_end.
Qed.
