(* ===== verification/Redis.v ===== *)
(** * Redis

    The commands the API's backends send to Redis, as an interface: [RedisOps] holds
    the commands, [RedisLaws] what the Redis documentation says of them, through the
    keyspace [rview]; [RedisMap] implements it.  A Lua script runs as one step.  A
    command may fail before it is executed or lose its answer after it ([reply]).
    Expiry of a key is a step of the component that sets its TTL.  Also the key
    helpers of packages/shared/pkg/redis ([keys.go]). *)
From Stdlib Require Import Ascii.
From S2P Require Import Prelude.

(** ** keys.go *)
Definition CreateKey (keyParts : list string) : string := String.concat ":" keyParts.
Definition SameSlot (key : string) : string := "{" +:+ key +:+ "}".

(** Strings, for keys with a common prefix. *)
Lemma str_app_assoc (a b c : string) : (a +:+ b) +:+ c = a +:+ (b +:+ c).
Proof. induction a as [|ch a IH]; [done|]. exact (f_equal (String ch) IH). Qed.
Lemma str_app_inj (p a b : string) : p +:+ a = p +:+ b → a = b.
Proof. induction p as [|ch p IH]; simpl; [done|]. intros [= E]. auto. Qed.
Lemma str_app_nonempty (p a : string) ch : p +:+ String ch a ≠ p.
Proof. induction p as [|ch' p IH]; simpl; [done|]. intros [= E]. auto. Qed.

(** ** The keyspace and the commands *)
Inductive rvalue (P : Type) := RStr (p : P) | RSet (members : gset string) | RZSet (scores : gmap string Z).
Arguments RStr {P} p.
Arguments RSet {P} members.
Arguments RZSet {P} scores.

(** [P]: what the strings hold. *)
Class RedisOps (P K : Type) := {
  rview : K → gmap string (rvalue P);
  GET : K → string → option P;
  SET : K → string → P → K;
  DEL : K → string → K;
  SADD : K → string → string → K;
  SREM : K → string → string → K;
  SISMEMBER : K → string → string → bool;
  SCARD : K → string → Z;
  SMEMBERS : K → string → list string;
  ZADD : K → string → Z → string → K;
  ZREM : K → string → string → K;
  ZCARD : K → string → Z;
  ZSCORE : K → string → string → option Z;
  (** [ZRANGE key 0 -1 WITHSCORES] *)
  ZRANGE : K → string → list (string * Z);
  (** [ZRANGEBYSCORE key -inf max LIMIT 0 count] *)
  ZRANGEBYSCORE : K → string → Z → nat → list string;
  (** [ZREMRANGEBYSCORE key -inf max] *)
  ZREMRANGEBYSCORE : K → string → Z → K;
}.

Section views.
Context {P : Type}.
Implicit Types v : gmap string (rvalue P).
(** A key that holds a value of another kind has none of these. *)
Definition str_at v (k : string) : option (option P) :=
  match v !! k with None => Some None | Some (RStr p) => Some (Some p) | _ => None end.
Definition set_at v (k : string) : option (gset string) :=
  match v !! k with None => Some ∅ | Some (RSet A) => Some A | _ => None end.
Definition zset_at v (k : string) : option (gmap string Z) :=
  match v !! k with None => Some ∅ | Some (RZSet zs) => Some zs | _ => None end.
(** Redis removes a key whose set becomes empty. *)
Definition put_set (k : string) (A : gset string) v : gmap string (rvalue P) :=
  if decide (A = ∅) then delete k v else <[k := RSet A]> v.
Definition put_zset (k : string) (zs : gmap string Z) v : gmap string (rvalue P) :=
  if decide (zs = ∅) then delete k v else <[k := RZSet zs]> v.
(** The members with their scores in the order of the scores. *)
Definition by_score (l : list (string * Z)) (zs : gmap string Z) : Prop := l ≡ₚ map_to_list zs ∧ StronglySorted Z.le l.*2.
End views.

Class RedisLaws (P K : Type) `{RedisOps P K} : Prop := {
  r_GET s k o : str_at (rview s) k = Some o → GET s k = o;
  r_SET s k p : rview (SET s k p) = <[k := RStr p]> (rview s);
  r_DEL s k : rview (DEL s k) = delete k (rview s);
  r_SADD s k m A : set_at (rview s) k = Some A → rview (SADD s k m) = put_set k ({[m]} ∪ A) (rview s);
  r_SREM s k m A : set_at (rview s) k = Some A → rview (SREM s k m) = put_set k (A ∖ {[m]}) (rview s);
  r_SISMEMBER s k m A : set_at (rview s) k = Some A → SISMEMBER s k m = bool_decide (m ∈ A);
  r_SCARD s k A : set_at (rview s) k = Some A → SCARD s k = Z.of_nat (size A);
  r_SMEMBERS s k A : set_at (rview s) k = Some A → SMEMBERS s k ≡ₚ elements A;
  r_ZADD s k sc m zs : zset_at (rview s) k = Some zs → rview (ZADD s k sc m) = put_zset k (<[m := sc]> zs) (rview s);
  r_ZREM s k m zs : zset_at (rview s) k = Some zs → rview (ZREM s k m) = put_zset k (delete m zs) (rview s);
  r_ZCARD s k zs : zset_at (rview s) k = Some zs → ZCARD s k = Z.of_nat (size zs);
  r_ZSCORE s k m zs : zset_at (rview s) k = Some zs → ZSCORE s k m = zs !! m;
  r_ZRANGE s k zs : zset_at (rview s) k = Some zs → by_score (ZRANGE s k) zs;
  r_ZRANGEBYSCORE s k hi count zs : zset_at (rview s) k = Some zs →
    ∃ l, by_score l (filter (λ ms, ms.2 ≤ hi) zs) ∧ ZRANGEBYSCORE s k hi count = take count l.*1;
  r_ZREMRANGEBYSCORE s k hi zs : zset_at (rview s) k = Some zs →
    rview (ZREMRANGEBYSCORE s k hi) = put_zset k (filter (λ ms, hi < ms.2) zs) (rview s);
}.

(** An implementation: the keyspace itself. *)
Module RedisMap.
Section map.
Context (P : Type).
Definition t : Type := gmap string (rvalue P).
Definition score_le (x y : string * Z) : Prop := x.2 ≤ y.2.
#[local] Instance score_le_dec x y : Decision (score_le x y) := decide (x.2 ≤ y.2).
#[local] Instance score_le_trans : Transitive score_le.
Proof. intros x y z. unfold score_le. lia. Qed.
#[local] Instance score_le_total : Total score_le.
Proof. intros x y. unfold score_le. lia. Qed.
Definition sorted (zs : gmap string Z) : list (string * Z) := merge_sort score_le (map_to_list zs).
Definition str (v : t) k : option P := default None (str_at v k).
Definition members (v : t) k : gset string := default ∅ (set_at v k).
Definition scores (v : t) k : gmap string Z := default ∅ (zset_at v k).
#[export] Instance ops : RedisOps P t := {
  rview v := v;
  GET v k := str v k;
  SET v k p := <[k := RStr p]> v;
  DEL v k := delete k v;
  SADD v k m := put_set k ({[m]} ∪ members v k) v;
  SREM v k m := put_set k (members v k ∖ {[m]}) v;
  SISMEMBER v k m := bool_decide (m ∈ members v k);
  SCARD v k := Z.of_nat (size (members v k));
  SMEMBERS v k := elements (members v k);
  ZADD v k sc m := put_zset k (<[m := sc]> (scores v k)) v;
  ZREM v k m := put_zset k (delete m (scores v k)) v;
  ZCARD v k := Z.of_nat (size (scores v k));
  ZSCORE v k m := scores v k !! m;
  ZRANGE v k := sorted (scores v k);
  ZRANGEBYSCORE v k hi count := take count (sorted (filter (λ ms, ms.2 ≤ hi) (scores v k))).*1;
  ZREMRANGEBYSCORE v k hi := put_zset k (filter (λ ms, hi < ms.2) (scores v k)) v;
}.
Lemma sorted_by_score zs : by_score (sorted zs) zs.
Proof.
  unfold sorted. split; [apply merge_sort_Permutation|].
  assert (StronglySorted score_le (merge_sort score_le (map_to_list zs))) as Hs.
  { apply (StronglySorted_merge_sort _). }
  revert Hs. generalize (merge_sort score_le (map_to_list zs)). induction l as [|x l IH]; intros Hs; simpl; [constructor|].
  inversion Hs as [|? ? Hl Hx]; subst. constructor; [by apply IH|]. apply Forall_fmap. exact Hx.
Qed.
#[export] Instance laws : RedisLaws P t.
Proof.
  split; simpl; unfold str, members, scores; try (by intros * ->); try done.
  - intros s k zs ->. apply sorted_by_score.
  - intros s k hi count zs ->. simpl. eexists. split; [apply sorted_by_score|done].
Qed.
End map.
End RedisMap.

(** ** Replies *)
Inductive reply := RDone | RLost | RFailed.
(** The command and whether the caller sees an error. *)
Definition send {K} (r : reply) (f : K → K) (s : K) : K * bool :=
  match r with RDone => (f s, false) | RLost => (f s, true) | RFailed => (s, true) end.

(** ** Laws of the keyspace *)
Section views_laws.
Context {P : Type}.
Implicit Types v : gmap string (rvalue P).
Lemma put_set_at k A v : set_at (put_set k A v) k = Some A.
Proof. unfold put_set, set_at. case_decide as HA; [by rewrite lookup_delete_eq, HA|by rewrite lookup_insert_eq]. Qed.
Lemma put_zset_at k zs v : zset_at (put_zset k zs v) k = Some zs.
Proof. unfold put_zset, zset_at. case_decide as HA; [by rewrite lookup_delete_eq, HA|by rewrite lookup_insert_eq]. Qed.
Lemma put_set_ne k k' A v : k ≠ k' → put_set k A v !! k' = v !! k'.
Proof. intros Hk. unfold put_set. case_decide; [by rewrite lookup_delete_ne|by rewrite lookup_insert_ne]. Qed.
Lemma put_zset_ne k k' zs v : k ≠ k' → put_zset k zs v !! k' = v !! k'.
Proof. intros Hk. unfold put_zset. case_decide; [by rewrite lookup_delete_ne|by rewrite lookup_insert_ne]. Qed.
End views_laws.

Lemma foldl_delete_lookup (l : list string) (zs : gmap string Z) mem :
  foldl (λ zs mem, delete mem zs) zs l !! mem = if decide (mem ∈ l) then None else zs !! mem.
Proof.
  revert zs. induction l as [|a l IH]; intros zs; cbn [foldl]; [by rewrite decide_False by apply not_elem_of_nil|].
  rewrite IH. destruct (decide (mem = a)) as [->|Hne].
  - rewrite (decide_True (P := a ∈ a :: l)) by left. rewrite lookup_delete_eq. by case_decide.
  - rewrite lookup_delete_ne by done. repeat case_decide; set_solver.
Qed.
