(* ===== verification/RedisStore.v ===== *)
(** * The Redis backend of the sandbox store

    packages/api/internal/sandbox/storage/redis: [utils.go], [scripts.go],
    [operations.go] and [items.go] (state_change.go: see RedisTransition.v), over the
    commands of Redis.v.  A Lua script runs as one step; [Update] and [Remove] run
    under the lock of the sandbox's key. *)
From Stdlib Require Import Ascii.
From S2P Require Import Prelude Smap SyncUtils SandboxState Redis SandboxStore.

(** ** Keys *)
Definition sandboxKeyPrefix : string := "sandbox:storage".
Definition transitionKeyPrefix : string := "transition:".
Definition sandboxesKey : string := "sandboxes".
Definition indexKey : string := "index".
Definition globalTeamsSet : string := CreateKey [sandboxKeyPrefix; "global:teams"].
Definition globalExpirationSet : string := CreateKey [sandboxKeyPrefix; "global:expiration"].

Definition expirationMember (teamID sandboxID : string) : string := CreateKey [teamID; sandboxID].
(** [strings.Cut(member, ":")] *)
Fixpoint parseExpirationMember (member : string) : option (string * string) :=
  match member with
  | EmptyString => None
  | String c rest =>
      if decide (c = ":"%char) then Some (EmptyString, rest)
      else match parseExpirationMember rest with Some (a, b) => Some (String c a, b) | None => None end
  end.

Definition GetTeamPrefix (teamID : string) : string := CreateKey [sandboxKeyPrefix; SameSlot teamID].
Definition getSandboxKey (teamID sandboxID : string) : string := CreateKey [GetTeamPrefix teamID; sandboxesKey; sandboxID].
Definition GetSandboxStorageTeamIndexKey (teamID : string) : string := CreateKey [GetTeamPrefix teamID; indexKey].
Definition getTransitionKey (teamID sandboxID : string) : string := CreateKey [GetTeamPrefix teamID; transitionKeyPrefix; sandboxID].
Definition getTransitionResultKey (teamID sandboxID transitionID : string) : string :=
  CreateKey [getTransitionKey teamID sandboxID; transitionID].

Fixpoint lacks (c : ascii) (s : string) : bool :=
  match s with EmptyString => true | String c' s => negb (bool_decide (c' = c)) && lacks c s end.
(** A team's identifier is a UUID. *)
Definition team_name (t : string) : Prop := lacks ":" t = true ∧ lacks "}" t = true.

Lemma parse_member t id : lacks ":" t = true → parseExpirationMember (expirationMember t id) = Some (t, id).
Proof.
  unfold expirationMember, CreateKey. simpl. induction t as [|c t IH]; simpl; [done|].
  rewrite andb_true_iff, negb_true_iff, bool_decide_eq_false. intros [Hc Ht]. rewrite decide_False by done. by rewrite IH.
Qed.
Lemma expirationMember_inj t id t' id' : lacks ":" t = true → lacks ":" t' = true →
  expirationMember t id = expirationMember t' id' → t = t' ∧ id = id'.
Proof. intros Ht Ht' E. apply (f_equal parseExpirationMember) in E. rewrite !parse_member in E by done. by simplify_eq. Qed.

Lemma brace_inj t t' a b : lacks "}" t = true → lacks "}" t' = true → (t +:+ "}") +:+ a = (t' +:+ "}") +:+ b → t = t' ∧ a = b.
Proof.
  revert t'. induction t as [|c t IH]; intros [|c' t']; cbn; rewrite ?andb_true_iff, ?negb_true_iff, ?bool_decide_eq_false.
  - intros _ _ E. by simplify_eq.
  - intros _ [Hc _] E. by simplify_eq.
  - intros [Hc _] _ E. by simplify_eq.
  - intros [_ Ht] [_ Ht'] E. simplify_eq. by destruct (IH t' Ht Ht' ltac:(done)) as [-> ->].
Qed.
(** Every key of a team starts with its prefix. *)
Lemma team_key_inj t t' a b : team_name t → team_name t' → CreateKey [GetTeamPrefix t; a] = CreateKey [GetTeamPrefix t'; b] → t = t' ∧ a = b.
Proof.
  intros [_ Ht] [_ Ht'] E. unfold CreateKey, GetTeamPrefix, SameSlot, sandboxKeyPrefix in E. simpl in E.
  injection E as E. destruct (brace_inj t t' _ _ Ht Ht' E) as [-> E']. split; [done|]. by injection E'.
Qed.

(** A stored string is the JSON of a sandbox or a text; [encoding/json] reads back
    what it wrote. *)
Inductive payload (ID Rest : Type) := PSandbox (x : Sandbox ID Rest) | PText (t : string).
Arguments PSandbox {ID Rest} x.
Arguments PText {ID Rest} t.

Section storage.
Context {ID Rest K : Type} `{EqDecision ID} `{RedisOps (payload ID Rest) K}.
(** [team] is [teamID.String()], [parse_team] is [uuid.Parse]. *)
Context (team : ID → string) (parse_team : string → option ID).
Abbreviation Sandbox := (Sandbox ID Rest).
Implicit Types (s : K) (x : Sandbox).

Definition UnixMilli (t : Z) : Z := t `div` 1000000.
Definition Unix (t : Z) : Z := t `div` 1000000000.

Definition addSandboxScript (key teamKey : string) (data : payload ID Rest) (sandboxID : string) s : K :=
  SADD (SET s key data) teamKey sandboxID.
Definition removeSandboxScript (key teamKey sandboxID : string) s : K :=
  SREM (DEL s key) teamKey sandboxID.

Inductive redis_error (E : Type) := ErrRedis | ErrLock | RNotFound | ErrUnmarshal | ErrUpdate (e : E).
#[local] Arguments ErrRedis {E}.
#[local] Arguments ErrLock {E}.
#[local] Arguments RNotFound {E}.
#[local] Arguments ErrUnmarshal {E}.
#[local] Arguments ErrUpdate {E} e.

Definition redis_Add s (sbx : Sandbox) (now : Z) (r1 r2 r3 : reply) : K * option (redis_error False) :=
  let t := team (TeamID sbx) in
  let key := getSandboxKey t (SandboxID sbx) in
  let teamKey := GetSandboxStorageTeamIndexKey t in
  let '(s, err) := send r1 (λ s, ZADD s globalExpirationSet (UnixMilli (EndTime sbx)) (expirationMember t (SandboxID sbx))) s in
  if err then (s, Some ErrRedis) else
  let '(s, err) := send r2 (addSandboxScript key teamKey (PSandbox sbx) (SandboxID sbx)) s in
  if err then (s, Some ErrRedis) else
  let '(s, _) := send r3 (λ s, ZADD s globalTeamsSet (Unix now) t) s in (s, None).

Definition decode {E} (data : option (payload ID Rest)) : res (redis_error E) Sandbox :=
  match data with None => Err RNotFound | Some (PSandbox x) => Ok x | Some (PText _) => Err ErrUnmarshal end.
Definition redis_Get s (teamID : ID) (sandboxID : string) (ok : bool) : res (redis_error False) Sandbox :=
  if negb ok then Err ErrRedis else decode (GET s (getSandboxKey (team teamID) sandboxID)).

(** Under the lock of the sandbox's key. *)
Definition redis_Remove s (teamID : ID) (sandboxID : string) (locked : bool) (r1 r2 : reply) : K * option (redis_error False) :=
  let t := team teamID in
  if negb locked then (s, Some ErrLock) else
  let '(s, err) := send r1 (removeSandboxScript (getSandboxKey t sandboxID) (GetSandboxStorageTeamIndexKey t) sandboxID) s in
  if err then (s, Some ErrRedis) else
  let '(s, _) := send r2 (λ s, ZREM s globalExpirationSet (expirationMember t sandboxID)) s in (s, None).

Definition redis_Update {E} s (teamID : ID) (sandboxID : string) (updateFunc : Sandbox → res E Sandbox)
    (locked get_ok : bool) (r1 r2 : reply) : K * res (redis_error E) Sandbox :=
  let t := team teamID in
  let key := getSandboxKey t sandboxID in
  if negb locked then (s, Err ErrLock) else
  if negb get_ok then (s, Err ErrRedis) else
  match decode (GET s key) with
  | Err e => (s, Err e)
  | Panic => (s, Panic)
  | Ok sbx =>
      match updateFunc sbx with
      | Err e => (s, Err (ErrUpdate e))
      | Panic => (s, Panic)
      | Ok updatedSbx =>
          let '(s, err) := send r1 (λ s, SET s key (PSandbox updatedSbx)) s in
          if err then (s, Err ErrRedis)
          else if EndTime updatedSbx =? EndTime sbx then (s, Ok updatedSbx)
          else
            let '(s, err) := send r2 (λ s, ZADD s globalExpirationSet (UnixMilli (EndTime updatedSbx)) (expirationMember t sandboxID)) s in
            (s, if err then Err ErrRedis else Ok updatedSbx)
      end
  end.

(** The sandboxes under [keys], [MGET]. *)
Definition fetch_sandboxes s (keys : list string) : list Sandbox :=
  omap (λ k, match GET s k with Some (PSandbox x) => Some x | _ => None end) keys.
Definition redis_TeamItems s (teamID : ID) (states : list State) : list Sandbox :=
  let t := team teamID in
  filter (λ x : Sandbox, (bool_decide (states = []) || bool_decide (SState x ∈ states)) = true)
    (fetch_sandboxes s (getSandboxKey t <$> SMEMBERS s (GetSandboxStorageTeamIndexKey t))).

(** [Sync]: nothing is added here for what a node reports. *)
Definition redis_Sync (_ : list Sandbox) (_ : string) : list Sandbox := [].

(** ** items.go

    Three commands: the query of the index, the fetch of the sandboxes, and the
    removal of entries without a sandbox.  The code groups the members by team; the
    model keeps the order of the index. *)
Definition expiredItemsBatchSize : nat := 256.
Definition staleCutoff : Z := 3600 * 1000000000.
Definition expired_query s (now : Z) : list string := ZRANGEBYSCORE s globalExpirationSet (UnixMilli now) expiredItemsBatchSize.
Definition expired_fetch s (members : list string) : list (string * option (payload ID Rest)) :=
  omap (λ m, (λ ti : string * string, (m, GET s (getSandboxKey ti.1 ti.2))) <$> parseExpirationMember m) members.
Definition expired_select (now later : Z) (raw : list (string * option (payload ID Rest))) : list Sandbox :=
  omap (λ mr : string * option (payload ID Rest),
    match mr.2 with
    | Some (PSandbox sbx) =>
        if negb (IsExpired sbx now) then None
        else if negb (bool_decide (SState sbx = StateRunning)) && (time_Sub later (EndTime sbx) <=? staleCutoff) then None
        else Some sbx
    | _ => None
    end) raw.
Definition expired_stale (raw : list (string * option (payload ID Rest))) : list string :=
  (filter (λ mr : string * option (payload ID Rest), mr.2 = None) raw).*1.
Definition expired_clean s (stale : list string) (r : reply) : K :=
  match stale with [] => s | _ => (send r (λ s, foldl (λ s m, ZREM s globalExpirationSet m) s stale) s).1 end.
Definition redis_ExpiredItems s (now later : Z) (r : reply) : K * list Sandbox :=
  let raw := expired_fetch s (expired_query s now) in
  (expired_clean s (expired_stale raw) r, expired_select now later raw).

(** [TeamsWithSandboxCount]: a team's entry with its count, the teams, and those that
    are pruned. *)
Definition teams_entries s : list (ID * Z * Z) :=
  omap (λ ms : string * Z, (λ id, (id, ms.2, SCARD s (GetSandboxStorageTeamIndexKey ms.1))) <$> parse_team ms.1)
    (ZRANGE s globalTeamsSet).
Definition teams_stale s (now : Z) : list string :=
  let cutoff := Unix now - staleCutoff `div` 1000000000 in
  omap (λ e : ID * Z * Z, let '(id, score, count) := e in
    if 0 <? count then None else if score <? cutoff then Some (team id) else None) (teams_entries s).
Definition redis_TeamsWithSandboxCount `{Countable ID} s (now : Z) (r : reply) : K * gmap ID Z :=
  let teams := foldl (λ m (e : ID * Z * Z), let '(id, _, count) := e in if 0 <? count then <[id := count]> m else m) ∅ (teams_entries s) in
  let stale := teams_stale s now in
  (match stale with [] => s | _ => (send r (λ s, foldl (λ s m, ZREM s globalTeamsSet m) s stale) s).1 end, teams).
End storage.
Arguments ErrRedis {E}.
Arguments ErrLock {E}.
Arguments RNotFound {E}.
Arguments ErrUnmarshal {E}.
Arguments ErrUpdate {E} e.

Lemma sandbox_key_inj t t' id id' : team_name t → team_name t' → getSandboxKey t id = getSandboxKey t' id' → t = t' ∧ id = id'.
Proof. intros Ht Ht' E. destruct (team_key_inj t t' (CreateKey [sandboxesKey; id]) (CreateKey [sandboxesKey; id']) Ht Ht' E) as [-> E']. by simplify_eq/=. Qed.
Lemma index_key_inj t t' : team_name t → team_name t' → GetSandboxStorageTeamIndexKey t = GetSandboxStorageTeamIndexKey t' → t = t'.
Proof. intros Ht Ht' E. by destruct (team_key_inj t t' indexKey indexKey Ht Ht' E). Qed.
Lemma sandbox_index_ne t t' id : team_name t → team_name t' → getSandboxKey t id ≠ GetSandboxStorageTeamIndexKey t'.
Proof. intros Ht Ht' E. by destruct (team_key_inj t t' (CreateKey [sandboxesKey; id]) indexKey Ht Ht' E). Qed.
Lemma global_sandbox_ne t id : globalExpirationSet ≠ getSandboxKey t id ∧ globalTeamsSet ≠ getSandboxKey t id.
Proof. by split. Qed.
Lemma global_index_ne t : globalExpirationSet ≠ GetSandboxStorageTeamIndexKey t ∧ globalTeamsSet ≠ GetSandboxStorageTeamIndexKey t.
Proof. by split. Qed.
Lemma globals_ne : globalExpirationSet ≠ globalTeamsSet.
Proof. done. Qed.

Section storage_laws.
Context {ID Rest K : Type} `{Countable ID} `{RedisLaws (payload ID Rest) K}.
Context (team : ID → string).
Hypothesis team_names : ∀ i, team_name (team i).
Abbreviation Sandbox := (Sandbox ID Rest).
Implicit Types (s : K) (x : Sandbox) (m : gmap (string * string) Sandbox).

(** The keyspace shows the sandboxes [m] and the expiration index [zs]. *)
Record shows s m (zs : gmap string Z) : Prop := {
  sh_sbx t id : team_name t → rview s !! getSandboxKey t id = (λ x, RStr (PSandbox x)) <$> m !! (t, id);
  sh_index t : team_name t → ∃ A, set_at (rview s) (GetSandboxStorageTeamIndexKey t) = Some A ∧ ∀ id, id ∈ A ↔ is_Some (m !! (t, id));
  sh_exp : zset_at (rview s) globalExpirationSet = Some zs;
  sh_teams : ∃ ts, zset_at (rview s) globalTeamsSet = Some ts;
}.

Lemma shows_GET s m zs t id : shows s m zs → team_name t → GET s (getSandboxKey t id) = PSandbox <$> m !! (t, id).
Proof.
  intros Hs Ht. apply r_GET. unfold str_at. rewrite (sh_sbx _ _ _ Hs) by done. by destruct (m !! (t, id)).
Qed.
Lemma shows_zadd s m zs sc mem : shows s m zs → shows (ZADD s globalExpirationSet sc mem) m (<[mem := sc]> zs).
Proof.
  intros [H1' H2' H3' [ts H4']]. pose proof (r_ZADD s globalExpirationSet sc mem zs H3') as E. split; rewrite ?E.
  - intros t id Ht. rewrite put_zset_ne by apply global_sandbox_ne. by apply H1'.
  - intros t Ht. unfold set_at. rewrite ?E, put_zset_ne by apply global_index_ne. by apply H2'.
  - apply put_zset_at.
  - exists ts. unfold zset_at. rewrite put_zset_ne by apply globals_ne. exact H4'.
Qed.
Lemma shows_zrem s m zs mem : shows s m zs → shows (ZREM s globalExpirationSet mem) m (delete mem zs).
Proof.
  intros [H1' H2' H3' [ts H4']]. pose proof (r_ZREM s globalExpirationSet mem zs H3') as E. split; rewrite ?E.
  - intros t id Ht. rewrite put_zset_ne by apply global_sandbox_ne. by apply H1'.
  - intros t Ht. unfold set_at. rewrite ?E, put_zset_ne by apply global_index_ne. by apply H2'.
  - apply put_zset_at.
  - exists ts. unfold zset_at. rewrite put_zset_ne by apply globals_ne. exact H4'.
Qed.
Lemma shows_teams s m zs (f : K → K) (g : gmap string Z → gmap string Z) : shows s m zs →
  (∀ ts, zset_at (rview s) globalTeamsSet = Some ts → rview (f s) = put_zset globalTeamsSet (g ts) (rview s)) → shows (f s) m zs.
Proof.
  intros [H1' H2' H3' [ts H4']] Hf. specialize (Hf ts H4'). split; rewrite ?Hf.
  - intros t id Ht. rewrite put_zset_ne by apply global_sandbox_ne. by apply H1'.
  - intros t Ht. unfold set_at. rewrite ?Hf, put_zset_ne by apply global_index_ne. by apply H2'.
  - unfold zset_at. rewrite put_zset_ne by (by apply not_eq_sym, globals_ne). exact H3'.
  - eexists. apply put_zset_at.
Qed.

Lemma shows_set s m zs t id x : shows s m zs → team_name t → is_Some (m !! (t, id)) →
  shows (SET s (getSandboxKey t id) (PSandbox x)) (<[(t, id) := x]> m) zs.
Proof.
  intros [H1' H2' H3' [ts H4']] Ht Hin. split; rewrite ?r_SET.
  - intros t' id' Ht'. destruct (decide ((t', id') = (t, id))) as [[= -> ->]|Hne]; [by rewrite !lookup_insert_eq|].
    rewrite !lookup_insert_ne; [by apply H1'|congruence|]. intros E. by destruct (sandbox_key_inj t t' id id' Ht Ht' E) as [-> ->].
  - intros t' Ht'. destruct (H2' t' Ht') as (A & HA & Hid). exists A. unfold set_at. rewrite ?r_SET, lookup_insert_ne by (by apply sandbox_index_ne).
    split; [done|]. intros id'. rewrite Hid. destruct (decide ((t, id) = (t', id'))) as [[= -> ->]|Hne]; [by rewrite lookup_insert_eq|by rewrite lookup_insert_ne].
  - unfold zset_at. rewrite lookup_insert_ne by (apply not_eq_sym, global_sandbox_ne). exact H3'.
  - exists ts. unfold zset_at. rewrite lookup_insert_ne by (apply not_eq_sym, global_sandbox_ne). exact H4'.
Qed.
Lemma shows_add s m zs t id x : shows s m zs → team_name t →
  shows (addSandboxScript (getSandboxKey t id) (GetSandboxStorageTeamIndexKey t) (PSandbox x) id s) (<[(t, id) := x]> m) zs.
Proof.
  intros [H1' H2' H3' [ts H4']] Ht. unfold addSandboxScript. set (s1 := SET _ _ _).
  assert (rview s1 = <[getSandboxKey t id := RStr (PSandbox x)]> (rview s)) as E1 by apply r_SET.
  destruct (H2' t Ht) as (A & HA & Hid).
  assert (set_at (rview s1) (GetSandboxStorageTeamIndexKey t) = Some A) as HA1.
  { unfold set_at. rewrite E1, lookup_insert_ne by (by apply sandbox_index_ne). exact HA. }
  pose proof (r_SADD s1 _ id A HA1) as E2. split; rewrite ?E2.
  - intros t' id' Ht'. rewrite put_set_ne by (by apply not_eq_sym, sandbox_index_ne). rewrite E1.
    destruct (decide ((t', id') = (t, id))) as [[= -> ->]|Hne]; [by rewrite !lookup_insert_eq|].
    rewrite !lookup_insert_ne; [by apply H1'|congruence|]. intros E. by destruct (sandbox_key_inj t t' id id' Ht Ht' E) as [-> ->].
  - intros t' Ht'. destruct (decide (t' = t)) as [->|Hne].
    + exists ({[id]} ∪ A). rewrite ?E2, put_set_at. split; [done|]. intros id'. rewrite elem_of_union, elem_of_singleton, Hid.
      destruct (decide (id = id')) as [->|Hne]; [rewrite lookup_insert_eq; naive_solver|]. rewrite lookup_insert_ne by congruence. naive_solver.
    + destruct (H2' t' Ht') as (A' & HA' & Hid'). exists A'. unfold set_at. rewrite ?E2, put_set_ne by (intros E; by apply Hne, eq_sym, index_key_inj).
      rewrite E1, lookup_insert_ne by (by apply sandbox_index_ne). split; [exact HA'|]. intros id'. by rewrite lookup_insert_ne by congruence.
  - unfold zset_at. rewrite put_set_ne by (apply not_eq_sym, global_index_ne). rewrite E1, lookup_insert_ne by (apply not_eq_sym, global_sandbox_ne). exact H3'.
  - exists ts. unfold zset_at. rewrite put_set_ne by (apply not_eq_sym, global_index_ne). rewrite E1, lookup_insert_ne by (apply not_eq_sym, global_sandbox_ne). exact H4'.
Qed.
Lemma shows_remove s m zs t id : shows s m zs → team_name t →
  shows (removeSandboxScript (getSandboxKey t id) (GetSandboxStorageTeamIndexKey t) id s) (delete (t, id) m) zs.
Proof.
  intros [H1' H2' H3' [ts H4']] Ht. unfold removeSandboxScript. set (s1 := DEL _ _).
  assert (rview s1 = delete (getSandboxKey t id) (rview s)) as E1 by apply r_DEL.
  destruct (H2' t Ht) as (A & HA & Hid).
  assert (set_at (rview s1) (GetSandboxStorageTeamIndexKey t) = Some A) as HA1.
  { unfold set_at. rewrite E1, lookup_delete_ne by (by apply sandbox_index_ne). exact HA. }
  pose proof (r_SREM s1 _ id A HA1) as E2. split; rewrite ?E2.
  - intros t' id' Ht'. rewrite put_set_ne by (by apply not_eq_sym, sandbox_index_ne). rewrite E1.
    destruct (decide ((t', id') = (t, id))) as [[= -> ->]|Hne]; [by rewrite !lookup_delete_eq|].
    rewrite !lookup_delete_ne; [by apply H1'|congruence|]. intros E. by destruct (sandbox_key_inj t t' id id' Ht Ht' E) as [-> ->].
  - intros t' Ht'. destruct (decide (t' = t)) as [->|Hne].
    + exists (A ∖ {[id]}). rewrite ?E2, put_set_at. split; [done|]. intros id'. rewrite elem_of_difference, elem_of_singleton, Hid.
      destruct (decide (id = id')) as [->|Hne]; [rewrite lookup_delete_eq; split; [by intros []|by intros []]|]. rewrite lookup_delete_ne by congruence. naive_solver.
    + destruct (H2' t' Ht') as (A' & HA' & Hid'). exists A'. unfold set_at. rewrite ?E2, put_set_ne by (intros E; by apply Hne, eq_sym, index_key_inj).
      rewrite E1, lookup_delete_ne by (by apply sandbox_index_ne). split; [exact HA'|]. intros id'. by rewrite lookup_delete_ne by congruence.
  - unfold zset_at. rewrite put_set_ne by (apply not_eq_sym, global_index_ne). rewrite E1, lookup_delete_ne by (apply not_eq_sym, global_sandbox_ne). exact H3'.
  - exists ts. unfold zset_at. rewrite put_set_ne by (apply not_eq_sym, global_index_ne). rewrite E1, lookup_delete_ne by (apply not_eq_sym, global_sandbox_ne). exact H4'.
Qed.

(** ** Commands

    What the operations send, in any interleaving. *)
Definition matched m : Prop := ∀ t id x, m !! (t, id) = Some x → t = team (TeamID x) ∧ id = SandboxID x.
Definition indexed_members (zs : gmap string Z) : Prop := ∀ mem, is_Some (zs !! mem) → ∃ i id, mem = expirationMember (team i) id.

Inductive redis_command :=
  | CIndex (x : Sandbox)
  | CStore (x : Sandbox)
  | CTeam (t : ID) (sec : Z)
  | CForget (t : ID) (id : string)
  | CUnindex (members : list string)
  | CSet (x : Sandbox)
  | CPrune (teams : list string).
Definition exec (c : redis_command) s : K :=
  match c with
  | CIndex x => ZADD s globalExpirationSet (UnixMilli (EndTime x)) (expirationMember (team (TeamID x)) (SandboxID x))
  | CStore x => addSandboxScript (getSandboxKey (team (TeamID x)) (SandboxID x))
                  (GetSandboxStorageTeamIndexKey (team (TeamID x))) (PSandbox x) (SandboxID x) s
  | CTeam t sec => ZADD s globalTeamsSet sec (team t)
  | CForget t id => removeSandboxScript (getSandboxKey (team t) id) (GetSandboxStorageTeamIndexKey (team t)) id s
  | CUnindex members => foldl (λ s mem, ZREM s globalExpirationSet mem) s members
  | CSet x => SET s (getSandboxKey (team (TeamID x)) (SandboxID x)) (PSandbox x)
  | CPrune teams => foldl (λ s t, ZREM s globalTeamsSet t) s teams
  end.
(** What [Update] finds, since it writes under the lock that [Remove] takes
    (RedisLocks.v): the key it read is there. *)
Definition enabled s (c : redis_command) : Prop :=
  match c with CSet x => GET s (getSandboxKey (team (TeamID x)) (SandboxID x)) ≠ None | _ => True end.
Definition c_sbx (c : redis_command) m : gmap (string * string) Sandbox :=
  match c with
  | CStore x | CSet x => <[(team (TeamID x), SandboxID x) := x]> m
  | CForget t id => delete (team t, id) m
  | _ => m
  end.
Definition c_exp (c : redis_command) (zs : gmap string Z) : gmap string Z :=
  match c with
  | CIndex x => <[expirationMember (team (TeamID x)) (SandboxID x) := UnixMilli (EndTime x)]> zs
  | CUnindex members => foldl (λ zs mem, delete mem zs) zs members
  | _ => zs
  end.

Lemma exec_shows s m zs c : shows s m zs → enabled s c → shows (exec c s) (c_sbx c m) (c_exp c zs).
Proof using All.
  intros Hs He. destruct c; simpl.
  - by apply shows_zadd.
  - by apply shows_add.
  - eapply (shows_teams _ _ _ (λ s, ZADD s globalTeamsSet sec (team t)) _ Hs). intros ts. apply r_ZADD.
  - by apply shows_remove.
  - clear He. revert s zs Hs. induction members as [|mem l IH]; intros s zs Hs; simpl; [done|]. by apply IH, shows_zrem.
  - apply shows_set; [done..|]. simpl in He. rewrite (shows_GET _ _ _ _ _ Hs) in He by done. destruct (m !! _); [by eexists|done].
  - clear He. revert s Hs. induction teams as [|t l IH]; intros s Hs; simpl; [done|]. apply IH.
    eapply (shows_teams _ _ _ (λ s, ZREM s globalTeamsSet t) _ Hs). intros ts. apply r_ZREM.
Qed.
Lemma c_sbx_matched c m : matched m → matched (c_sbx c m).
Proof using All.
  intros Hm. destruct c; simpl; try done; intros t' id' y; rewrite ?lookup_insert_Some, ?lookup_delete_Some.
  - intros [[[= <- <-] <-]|[_ Hy]]; [done|by apply Hm].
  - intros [_ Hy]. by apply Hm.
  - intros [[[= <- <-] <-]|[_ Hy]]; [done|by apply Hm].
Qed.
Lemma c_exp_indexed c zs : indexed_members zs → indexed_members (c_exp c zs).
Proof using All.
  intros Hz. destruct c; simpl; try done; intros mem [sc Hsc].
  - apply lookup_insert_Some in Hsc as [[<- _]|[_ Hsc]]; [by eauto|by apply Hz].
  - rewrite foldl_delete_lookup in Hsc. case_decide; [done|]. by apply Hz.
Qed.

(** ** What the readers see *)
Lemma query_entry s m zs now mem : shows s m zs → mem ∈ expired_query s now → ∃ sc, zs !! mem = Some sc ∧ sc ≤ UnixMilli now.
Proof using All.
  intros Hs Hin. unfold expired_query in Hin. destruct (r_ZRANGEBYSCORE s _ (UnixMilli now) expiredItemsBatchSize zs (sh_exp _ _ _ Hs)) as (l & [Hl _] & Eq).
  rewrite Eq in Hin. apply elem_of_take in Hin as (k & Hk & _). apply list_elem_of_lookup_2 in Hk.
  apply list_elem_of_fmap in Hk as ([mem' sc] & -> & Hk). rewrite Hl in Hk. apply elem_of_map_to_list, map_lookup_filter_Some in Hk as [? ?]. eauto.
Qed.
Lemma query_complete s m zs now mem sc : shows s m zs → (length (expired_query s now) < expiredItemsBatchSize)%nat →
  zs !! mem = Some sc → sc ≤ UnixMilli now → mem ∈ expired_query s now.
Proof using All.
  intros Hs Hlen Hz Hle. unfold expired_query in *. destruct (r_ZRANGEBYSCORE s _ (UnixMilli now) expiredItemsBatchSize zs (sh_exp _ _ _ Hs)) as (l & [Hl _] & Eq).
  rewrite Eq in *. rewrite length_take in Hlen. rewrite take_ge by lia. apply list_elem_of_fmap. exists (mem, sc). split; [done|].
  rewrite Hl. by apply elem_of_map_to_list, map_lookup_filter_Some.
Qed.
Lemma selected s now later l x : x ∈ expired_select now later (expired_fetch s l) ↔
  ∃ mem t id, mem ∈ l ∧ parseExpirationMember mem = Some (t, id) ∧ GET s (getSandboxKey t id) = Some (PSandbox x) ∧
    IsExpired x now = true ∧ (SState x = StateRunning ∨ staleCutoff < time_Sub later (EndTime x)).
Proof using.
  unfold expired_select, expired_fetch. rewrite list_elem_of_omap. split.
  - intros ([mem o] & Hin & Hsel). apply list_elem_of_omap in Hin as (mem' & Hin & Hp).
    destruct (parseExpirationMember mem') as [[t id]|] eqn:Ep; [|done]. simplify_eq/=.
    destruct (GET s _) as [[y|]|] eqn:Eg; [|done..]. destruct (IsExpired y now) eqn:Ex; [|done]. simpl in Hsel.
    exists mem, t, id. case_bool_decide; simpl in Hsel; [by simplify_eq; eauto 10|].
    destruct (Z.leb_spec (time_Sub later (EndTime y)) staleCutoff); [done|]. simplify_eq. eauto 10.
  - intros (mem & t & id & Hin & Hp & Hg & Hx & Hst). exists (mem, Some (PSandbox x)). split.
    + apply list_elem_of_omap. exists mem. split; [done|]. by rewrite Hp; simpl; rewrite Hg.
    + simpl. rewrite Hx. simpl. case_bool_decide; [done|]. simpl. destruct Hst as [?|Hst]; [done|].
      destruct (Z.leb_spec (time_Sub later (EndTime x)) staleCutoff); [lia|done].
Qed.
Lemma Get_shows s m zs i id : shows s m zs → redis_Get team s i id true = match m !! (team i, id) with Some x => Ok x | None => Err RNotFound end.
Proof using All. intros Hs. unfold redis_Get. simpl. rewrite (shows_GET _ _ _ _ _ Hs) by done. by destruct (m !! _). Qed.
Lemma TeamItems_shows s m zs i states x : shows s m zs → x ∈ redis_TeamItems team s i states ↔
  (∃ id, m !! (team i, id) = Some x) ∧ (states = [] ∨ SState x ∈ states).
Proof using All.
  intros Hs. unfold redis_TeamItems, fetch_sandboxes.
  rewrite list_elem_of_filter, orb_true_iff, !bool_decide_eq_true, list_elem_of_omap. rewrite (and_comm (_ ∨ _)). apply and_iff_compat_r.
  destruct (sh_index _ _ _ Hs (team i) (team_names i)) as (A & HA & Hid). setoid_rewrite list_elem_of_fmap.
  setoid_rewrite (r_SMEMBERS _ _ _ HA). setoid_rewrite elem_of_elements. split.
  - intros (k & (id & -> & Hin) & Hg). rewrite (shows_GET _ _ _ _ _ Hs) in Hg by done. exists id. by destruct (m !! _); simplify_eq/=.
  - intros (id & Hx). eexists. split; [exists id; split; [done|apply Hid; eauto]|]. rewrite (shows_GET _ _ _ _ _ Hs) by done. by rewrite Hx.
Qed.

(** ** A complete index *)
Record good s m (zs : gmap string Z) : Prop := {
  g_shows : shows s m zs;
  g_matched : matched m;
  g_indexed : indexed_members zs;
  g_covered t id : is_Some (m !! (t, id)) → is_Some (zs !! expirationMember t id);
}.
(** The scores are the ends of life. *)
Definition accurate m (zs : gmap string Z) : Prop :=
  ∀ t id x, m !! (t, id) = Some x → zs !! expirationMember t id = Some (UnixMilli (EndTime x)).

(** What a command must find for the index to stay complete. *)
Definition safe (c : redis_command) m (zs : gmap string Z) : Prop :=
  match c with
  | CStore x => is_Some (zs !! expirationMember (team (TeamID x)) (SandboxID x))
  | CSet x => is_Some (m !! (team (TeamID x), SandboxID x))
  | CUnindex members => ∀ i id, expirationMember (team i) id ∈ members → m !! (team i, id) = None
  | _ => True
  end.
Fixpoint safe_all (cs : list redis_command) m zs : Prop :=
  match cs with [] => True | c :: cs => safe c m zs ∧ safe_all cs (c_sbx c m) (c_exp c zs) end.

Lemma member_eq i id i' id' : expirationMember (team i) id = expirationMember (team i') id' → team i = team i' ∧ id = id'.
Proof using team_names. apply expirationMember_inj; apply team_names. Qed.

Lemma good_exec s m zs c : good s m zs → safe c m zs → good (exec c s) (c_sbx c m) (c_exp c zs).
Proof using All.
  intros [Hs Hm Hz Hc] Hsafe. assert (enabled s c) as He.
  { destruct c; simpl in *; try done. rewrite (shows_GET _ _ _ _ _ Hs) by done. by destruct Hsafe as [? ->]. }
  split; [by apply exec_shows|by apply c_sbx_matched|by apply c_exp_indexed|].
  intros t id [y Hy]. destruct (c_sbx_matched c m Hm _ _ _ Hy) as [-> ->]. destruct c; simpl in *.
  - apply lookup_insert_is_Some'. right. apply Hc. eauto.
  - apply lookup_insert_Some in Hy as [[[= <- <-] ->]|[_ Hy]]; [done|]. apply Hc. eauto.
  - apply Hc. eauto.
  - apply lookup_delete_Some in Hy as [_ Hy]. apply Hc. eauto.
  - rewrite foldl_delete_lookup. case_decide as Hin; [|apply Hc; eauto]. by rewrite (Hsafe _ _ Hin) in Hy.
  - apply lookup_insert_Some in Hy as [[[= <- <-] ->]|[_ Hy]]; apply Hc; eauto.
  - apply Hc. eauto.
Qed.

Definition run_sbx (cs : list redis_command) m := foldl (λ m c, c_sbx c m) m cs.
Definition run_exp (cs : list redis_command) (zs : gmap string Z) := foldl (λ zs c, c_exp c zs) zs cs.
Lemma good_execs s m zs cs n : good s m zs → safe_all cs m zs →
  good (foldl (λ s c, exec c s) s (take n cs)) (run_sbx (take n cs) m) (run_exp (take n cs) zs).
Proof using All.
  revert s m zs n. induction cs as [|c cs IH]; intros s m zs [|n] Hg Hsafe; [done..|]. destruct Hsafe as [Hc Hcs].
  simpl. apply IH; [by apply good_exec|done].
Qed.

Lemma good_empty s : rview s = ∅ → good s ∅ ∅ ∧ accurate ∅ ∅.
Proof using All.
  intros Hs. split; [|intros ???; by rewrite lookup_empty]. split; [|intros ???; by rewrite lookup_empty|intros mem; rewrite lookup_empty; by intros []|intros t id; rewrite lookup_empty; by intros []].
  split; unfold set_at, zset_at; rewrite ?Hs; intros; rewrite ?lookup_empty; try done; [|by eauto].
  exists ∅. split; [done|]. intros id. rewrite lookup_empty. split; [set_solver|by intros []].
Qed.
(** ** Operations *)
Context {E : Type} (parse_team : string → option ID).
Inductive redis_op :=
  | OpAdd (x : Sandbox) (now : Z) (r1 r2 r3 : reply)
  | OpRemove (t : ID) (id : string) (locked : bool) (r1 r2 : reply)
  | OpUpdate (t : ID) (id : string) (f : Sandbox → res E Sandbox) (locked get_ok : bool) (r1 r2 : reply)
  | OpExpired (now later : Z) (r : reply)
  | OpTeams (now : Z) (r : reply).
Definition op_step s (op : redis_op) : K :=
  match op with
  | OpAdd x now r1 r2 r3 => (redis_Add team s x now r1 r2 r3).1
  | OpRemove t id locked r1 r2 => (redis_Remove team s t id locked r1 r2).1
  | OpUpdate t id f locked get_ok r1 r2 => (redis_Update team s t id f locked get_ok r1 r2).1
  | OpExpired now later r => (redis_ExpiredItems s now later r).1
  | OpTeams now r => (redis_TeamsWithSandboxCount team parse_team s now r).1
  end.
Definition op_run s : list redis_op → K := foldl op_step s.
(** The code's update functions keep the identity of the sandbox. *)
Definition keeps_identity (op : redis_op) : Prop :=
  match op with OpUpdate _ _ f _ _ _ _ => ∀ x y, f x = Ok y → TeamID y = TeamID x ∧ SandboxID y = SandboxID x | _ => True end.
(** No command fails. *)
Definition all_done (op : redis_op) : Prop :=
  match op with
  | OpAdd _ _ r1 r2 r3 => r1 = RDone ∧ r2 = RDone ∧ r3 = RDone
  | OpRemove _ _ _ r1 r2 => r1 = RDone ∧ r2 = RDone
  | OpUpdate _ _ _ _ _ r1 r2 => r1 = RDone ∧ r2 = RDone
  | OpExpired _ _ r | OpTeams _ r => r = RDone
  end.

(** ** The commands of an operation

    The replies decide how many of them are executed. *)
Definition op_cmds s (op : redis_op) : list redis_command :=
  match op with
  | OpAdd x now _ _ _ => [CIndex x; CStore x; CTeam (TeamID x) (Unix now)]
  | OpRemove t id locked _ _ => if locked : bool then [CForget t id; CUnindex [expirationMember (team t) id]] else []
  | OpUpdate t id f locked get_ok _ _ =>
      if (locked : bool) && get_ok then
        match GET s (getSandboxKey (team t) id) with
        | Some (PSandbox x) => match f x with Ok y => if EndTime y =? EndTime x then [CSet y] else [CSet y; CIndex y] | _ => [] end
        | _ => []
        end
      else []
  | OpExpired now _ _ => [CUnindex (expired_stale (expired_fetch s (expired_query s now)))]
  | OpTeams now _ => [CPrune (teams_stale team parse_team s now)]
  end.
Lemma op_step_cmds s m zs op : good s m zs → keeps_identity op → ∃ n, op_step s op = foldl (λ s c, exec c s) s (take n (op_cmds s op)) ∧
  (all_done op → n = length (op_cmds s op)).
Proof using All.
  intros Hg Hok. destruct op as [x now r1 r2 r3|t id locked r1 r2|t id f locked get_ok r1 r2|now later r|now r]; simpl.
  - unfold redis_Add. destruct r1; [|exists 1%nat; split; [done|naive_solver]|exists 0%nat; split; [done|naive_solver]].
    destruct r2; [|exists 2%nat; split; [done|naive_solver]|exists 1%nat; split; [done|naive_solver]].
    destruct r3; [exists 3%nat|exists 3%nat|exists 2%nat]; split; (done || naive_solver).
  - unfold redis_Remove. destruct locked; simpl; [|exists 0%nat; by split].
    destruct r1; [|exists 1%nat; split; [done|naive_solver]|exists 0%nat; split; [done|naive_solver]].
    destruct r2; [exists 2%nat|exists 2%nat|exists 1%nat]; split; (done || naive_solver).
  - unfold redis_Update. destruct locked, get_ok; simpl; [|exists 0%nat; by split..].
    rewrite (shows_GET _ _ _ _ _ (g_shows _ _ _ Hg)) by done. destruct (m !! _) as [x|] eqn:Ex; simpl; [|exists 0%nat; by split].
    destruct (f x) as [y|e|] eqn:Ef; [|exists 0%nat; by split..].
    destruct (g_matched _ _ _ Hg _ _ _ Ex) as [Et ->]. destruct (Hok _ _ Ef) as [Et' Eid]. rewrite Et, <- Et', <- Eid.
    destruct (EndTime y =? EndTime x).
    + destruct r1; [exists 1%nat|exists 1%nat|exists 0%nat]; split; (done || naive_solver).
    + destruct r1; [|exists 1%nat; split; [done|naive_solver]|exists 0%nat; split; [done|naive_solver]].
      destruct r2; [exists 2%nat|exists 2%nat|exists 1%nat]; split; (done || naive_solver).
  - unfold redis_ExpiredItems, expired_clean. simpl. destruct (expired_stale _) as [|a l].
    + exists 1%nat. by split.
    + destruct r; [exists 1%nat|exists 1%nat|exists 0%nat]; split; (done || naive_solver).
  - unfold redis_TeamsWithSandboxCount. simpl. destruct (teams_stale _ _ _ _) as [|a l].
    + exists 1%nat. by split.
    + destruct r; [exists 1%nat|exists 1%nat|exists 0%nat]; split; (done || naive_solver).
Qed.

Lemma stale_gone s mem l : mem ∈ expired_stale (expired_fetch s l) ↔
  mem ∈ l ∧ ∃ t id, parseExpirationMember mem = Some (t, id) ∧ GET s (getSandboxKey t id) = None.
Proof using.
  unfold expired_stale, expired_fetch. rewrite list_elem_of_fmap. split.
  - intros ([mem' o] & -> & [Ho Hin]%list_elem_of_filter). apply list_elem_of_omap in Hin as (mem & Hin & Hp). simpl in *.
    destruct (parseExpirationMember mem) as [[t id]|] eqn:E'; [|done]. simplify_eq/=. eauto 10.
  - intros (Hin & t & id & Hp & Hg). exists (mem, None). split; [done|]. apply list_elem_of_filter. split; [done|].
    apply list_elem_of_omap. exists mem. split; [done|]. by rewrite Hp; simpl; rewrite Hg.
Qed.

Lemma op_safe s m zs op : good s m zs → keeps_identity op → safe_all (op_cmds s op) m zs.
Proof using All.
  intros Hg Hok. destruct op as [x now ? ? ?|t id locked ? ?|t id f locked get_ok ? ?|now ? ?|now ?]; simpl.
  - split_and!; [done| |done|done]. rewrite lookup_insert_eq. eauto.
  - destruct locked; [|done]. simpl. split_and!; [done| |done]. intros i id' [Et ->]%list_elem_of_singleton%member_eq.
    by rewrite Et, lookup_delete_eq.
  - destruct (_ && _); [|done]. rewrite (shows_GET _ _ _ _ _ (g_shows _ _ _ Hg)) by done. destruct (m !! _) as [x|] eqn:Ex; [|done]. simpl.
    destruct (f x) as [y|e|] eqn:Ef; [|done..]. destruct (g_matched _ _ _ Hg _ _ _ Ex) as [Et Eid]. destruct (Hok _ _ Ef) as [Et' Eid'].
    assert (is_Some (m !! (team (TeamID y), SandboxID y))) as Hin by (rewrite Et', Eid', <- Et, <- Eid; eauto).
    destruct (_ =? _); simpl; auto.
  - split; [|done]. intros i id (Hin & t & id' & Hp & Hget)%stale_gone.
    rewrite parse_member in Hp by apply team_names. injection Hp as <- <-.
    rewrite (shows_GET _ _ _ _ _ (g_shows _ _ _ Hg)) in Hget by done. by destruct (m !! _).
  - done.
Qed.

Lemma op_good s m zs op : good s m zs → keeps_identity op → ∃ m' zs', good (op_step s op) m' zs'.
Proof using All.
  intros Hg Hok. destruct (op_step_cmds s m zs op Hg Hok) as (n & -> & _). do 2 eexists. by apply good_execs; [|apply op_safe].
Qed.
Lemma accurate_insert m zs x : matched m → accurate m zs →
  accurate (<[(team (TeamID x), SandboxID x) := x]> m) (<[expirationMember (team (TeamID x)) (SandboxID x) := UnixMilli (EndTime x)]> zs).
Proof using team_names.
  intros Hm Ha t id y [[[= <- <-] <-]|[Hne Hy]]%lookup_insert_Some; [by rewrite lookup_insert_eq|].
  destruct (Hm _ _ _ Hy) as [-> ->]. rewrite lookup_insert_ne; [by apply Ha|]. intros [E1 E2]%member_eq. congruence.
Qed.
Lemma op_accurate s m zs op : good s m zs → accurate m zs → keeps_identity op → all_done op →
  ∃ m' zs', good (op_step s op) m' zs' ∧ accurate m' zs'.
Proof using All.
  intros Hg Ha Hok Hd. destruct (op_step_cmds s m zs op Hg Hok) as (n & -> & Hn). specialize (Hn Hd). subst n.
  pose proof (good_execs s m zs _ (length (op_cmds s op)) Hg (op_safe s m zs op Hg Hok)) as Hg'. rewrite take_ge in * by done.
  do 2 eexists. split; [exact Hg'|]. clear Hg'. pose proof (g_matched _ _ _ Hg) as Hm.
  destruct op as [x now ? ? ?|t id locked ? ?|t id f locked get_ok ? ?|now ? ?|now ?]; simpl.
  - by apply accurate_insert.
  - destruct locked; [|done]. simpl. intros t' id' y [Hne Hy]%lookup_delete_Some. destruct (Hm _ _ _ Hy) as [-> ->].
    rewrite lookup_delete_ne; [by apply Ha|]. intros [E1 E2]%member_eq. congruence.
  - destruct (_ && _); [|done]. rewrite (shows_GET _ _ _ _ _ (g_shows _ _ _ Hg)) by done. destruct (m !! _) as [x|] eqn:Ex; [|done]. simpl.
    destruct (f x) as [y|e|] eqn:Ef; [|done..]. destruct (Hm _ _ _ Ex) as [Et Eid]. destruct (Hok _ _ Ef) as [Et' Eid'].
    destruct (Z.eqb_spec (EndTime y) (EndTime x)) as [Ee|_]; simpl; [|by apply accurate_insert].
    intros t' id' z [[[= <- <-] <-]|[_ Hz]]%lookup_insert_Some; [|by apply Ha]. rewrite Ee, Et', Eid'. rewrite Et, Eid in Ex. by apply Ha.
  - intros t id y Hy. rewrite foldl_delete_lookup. case_decide as Hin; [|by apply Ha].
    destruct (Hm _ _ _ Hy) as [-> ->]. pose proof (op_safe s m zs (OpExpired now 0 RDone) Hg I) as [Hs _]. by rewrite (Hs _ _ Hin) in Hy.
  - done.
Qed.

Lemma op_run_good s ops : rview s = ∅ → Forall keeps_identity ops → ∃ m zs, good (op_run s ops) m zs.
Proof using All.
  intros Hs. induction ops as [|op ops IH] using rev_ind; intros Hok.
  - exists ∅, ∅. by destruct (good_empty s Hs).
  - apply Forall_app in Hok as [Hok Hop]. inversion Hop; subst. destruct (IH Hok) as (m & zs & Hg). unfold op_run. rewrite foldl_snoc.
    by eapply op_good.
Qed.
Lemma op_run_accurate s ops : rview s = ∅ → Forall keeps_identity ops → Forall all_done ops →
  ∃ m zs, good (op_run s ops) m zs ∧ accurate m zs.
Proof using All.
  intros Hs. induction ops as [|op ops IH] using rev_ind; intros Hok Hd.
  - exists ∅, ∅. by apply good_empty.
  - apply Forall_app in Hok as [Hok Hop]. apply Forall_app in Hd as [Hd Hdp]. inversion Hop; inversion Hdp; subst.
    destruct (IH Hok Hd) as (m & zs & Hg & Ha). unfold op_run. rewrite foldl_snoc. by eapply op_accurate.
Qed.

End storage_laws.

(** ** Properties *)
Section storage_properties.
Context {ID Rest K E : Type} `{Countable ID} `{RedisLaws (payload ID Rest) K}.
Context (team : ID → string) (parse_team : string → option ID).
Hypothesis team_names : ∀ i, team_name (team i).
Context `{!Inj (=) (=) team}.
Implicit Types (s : K) (x : Sandbox ID Rest).

(** After any sequence of operations, whatever commands fail or lose their
    answers, every stored sandbox has an entry in the expiration index and is listed
    under its team: no sandbox can be left that the evictor never looks at. *)
Theorem Redis_expiry_covered s (ops : list (redis_op (ID := ID) (Rest := Rest) (E := E))) i id x :
  rview s = ∅ → Forall keeps_identity ops → redis_Get team (op_run team parse_team s ops : K) i id true = Ok x →
  is_Some (ZSCORE (op_run team parse_team s ops) globalExpirationSet (expirationMember (team i) id)) ∧
  TeamID x = i ∧ SandboxID x = id ∧ x ∈ redis_TeamItems team (op_run team parse_team s ops) i [].
Proof using All.
  intros Hs Hok. destruct (op_run_good team team_names parse_team s (E := E) ops Hs Hok) as (m & zs & Hg). pose proof (g_shows _ _ _ _ Hg) as Hsh.
  rewrite (Get_shows _ team_names _ _ _ _ _ Hsh). destruct (m !! _) as [y|] eqn:Ey; [|done]. intros [= ->].
  destruct (g_matched _ _ _ _ Hg _ _ _ Ey) as [Et Eid]. rewrite (r_ZSCORE _ _ _ _ (sh_exp _ _ _ Hsh)). split_and!.
  - apply (g_covered _ _ _ _ Hg). eauto.
  - by apply (inj team).
  - done.
  - apply (TeamItems_shows _ team_names _ _ _ _ _ _ Hsh). split; [eauto|by left].
Qed.

Lemma UnixMilli_mono t u : t ≤ u → UnixMilli t ≤ UnixMilli u.
Proof using. intros. unfold UnixMilli. apply Z.div_le_mono; lia. Qed.

(** When no command failed, an eviction round whose batch is not full returns
    exactly the stored sandboxes that have expired and are running, or have been
    expired for more than an hour in whatever state. *)
Theorem Redis_evicts_expired s (ops : list (redis_op (ID := ID) (Rest := Rest) (E := E))) now later r x :
  rview s = ∅ → Forall keeps_identity ops → Forall all_done ops →
  let s' := op_run team parse_team s ops in
  (length (expired_query s' now) < expiredItemsBatchSize)%nat →
  x ∈ (redis_ExpiredItems s' now later r).2 ↔
    redis_Get team s' (TeamID x) (SandboxID x) true = Ok x ∧ IsExpired x now = true ∧
    (SState x = StateRunning ∨ staleCutoff < time_Sub later (EndTime x)).
Proof using All.
  intros Hs Hok Hd s' Hlen. destruct (op_run_accurate team team_names parse_team s ops Hs Hok Hd) as (m & zs & Hg & Ha). fold s' in Hg.
  pose proof (g_shows _ _ _ _ Hg) as Hsh. unfold redis_ExpiredItems. simpl. rewrite selected, (Get_shows _ team_names _ _ _ _ _ Hsh). split.
  - intros (mem & t & id & Hin & Hp & Hget & Hx & Hst). destruct (query_entry team team_names s' m zs now mem Hsh Hin) as (sc & Hsc & _).
    destruct (g_indexed _ _ _ _ Hg mem) as (i & id' & ->); [eauto|]. rewrite parse_member in Hp by apply team_names. injection Hp as <- <-.
    rewrite (shows_GET _ _ _ _ _ Hsh) in Hget by done. destruct (m !! _) as [y|] eqn:Ey; simplify_eq/=.
    destruct (g_matched _ _ _ _ Hg _ _ _ Ey) as [Et Eid]. rewrite Et, Eid in Ey. by rewrite Ey.
  - intros (Hget & Hx & Hst). destruct (m !! _) as [y|] eqn:Ey; simplify_eq.
    exists (expirationMember (team (TeamID x)) (SandboxID x)), (team (TeamID x)), (SandboxID x). split_and!; [|by apply parse_member, team_names| |done..].
    + eapply (query_complete team team_names s' m zs _ _ _ Hsh Hlen); [by apply Ha|]. apply UnixMilli_mono.
      unfold IsExpired, time_After in Hx. apply Z.ltb_lt in Hx. lia.
    + rewrite (shows_GET _ _ _ _ _ Hsh) by done. by rewrite Ey.
Qed.
End storage_properties.

(** ** A sandbox that is never evicted

    Teams are ["a"], ["b"] here. *)
#[local] Existing Instances RedisMap.ops RedisMap.laws.
Definition ex_team (b : bool) : string := if b then "a" else "b".
Definition ex_parse (t : string) : option bool :=
  if String.eqb t "a" then Some true else if String.eqb t "b" then Some false else None.
#[global] Instance ex_team_inj : Inj (=) (=) ex_team.
Proof. by intros [] []. Qed.
Lemma ex_team_names i : team_name (ex_team i).
Proof. by destruct i. Qed.
Definition ex_rs : Sandbox bool () := NewSandbox "sbx" true "node" 100 0 50 false ().
Definition ex_rs2 : Sandbox bool () := NewSandbox "sbx" true "node" 100 0 9000000 false ().
Abbreviation ex_keyspace := (RedisMap.t (payload bool ())).
Definition ex_redis_ops : list (redis_op (ID := bool) (Rest := ()) (E := Empty_set)) :=
  [OpAdd ex_rs 3 RDone RDone RDone; OpUpdate true "sbx" (λ x, Ok (with_end x 70)) true true RDone RDone].

Lemma ex_redis_ok : Forall keeps_identity ex_redis_ops.
Proof. constructor; [exact I|]. constructor; [|constructor]. intros x y [= <-]. done. Qed.
Lemma Redis_expiry_covered_witness :
  ZSCORE (op_run ex_team ex_parse (∅ : ex_keyspace) ex_redis_ops) globalExpirationSet "a:sbx" = Some 0.
Proof.
  destruct (Redis_expiry_covered ex_team ex_parse ex_team_names (∅ : ex_keyspace) ex_redis_ops true "sbx" (with_end ex_rs 70)) as [[z Hz] _];
    [done|exact ex_redis_ok|by vm_compute|]. cbn in Hz |- *. revert Hz. by vm_compute.
Defined.
Lemma Redis_evicts_expired_witness :
  with_end ex_rs 70 ∈ (redis_ExpiredItems (op_run ex_team ex_parse (∅ : ex_keyspace) ex_redis_ops) 80 90 RDone).2.
Proof.
  apply (Redis_evicts_expired ex_team ex_parse ex_team_names (∅ : ex_keyspace) ex_redis_ops 80 90 RDone (with_end ex_rs 70));
    [done|exact ex_redis_ok|by repeat constructor|by apply Nat.ltb_lt; vm_compute|].
  split; [by vm_compute|]. split; [done|by left].
Defined.

(** The evictor reads the index while the sandbox is being removed, finds its key
    gone, and deletes its entry after the sandbox was resumed under the same ID. *)
Definition race_removed : ex_keyspace :=
  (redis_Remove ex_team (op_step ex_team ex_parse (∅ : ex_keyspace) (OpAdd (E := Empty_set) ex_rs 0 RDone RDone RDone)) true "sbx" true RDone RFailed).1.
Definition race_stale : list string := expired_stale (expired_fetch race_removed (expired_query race_removed 60)).
Definition race_resumed : ex_keyspace := (redis_Add ex_team race_removed ex_rs2 70 RDone RDone RDone).1.
Definition race_cleaned : ex_keyspace := expired_clean race_resumed race_stale RDone.

(** The cleanup of the expiration index is not atomic with the look-up that
    found an entry stale: an entry that is renewed in between is deleted, and the
    running sandbox it belongs to is then never returned for eviction, at any time. *)
Theorem ExpiredItems_loses_resumed now later r :
  redis_Get ex_team race_cleaned true "sbx" true = Ok ex_rs2 ∧ SState ex_rs2 = StateRunning ∧
  (redis_ExpiredItems race_resumed 10000000 10000000 r).2 = [ex_rs2] ∧
  (redis_ExpiredItems race_cleaned now later r).2 = [].
Proof.
  split_and!; [by vm_compute|done|by destruct r; vm_compute|]. unfold redis_ExpiredItems. cbn [snd].
  assert (expired_query race_cleaned now = []) as ->; [|done]. unfold expired_query.
  assert (zset_at race_cleaned globalExpirationSet = Some ∅) as Hz by by vm_compute.
  destruct (@r_ZRANGEBYSCORE _ _ (RedisMap.ops _) _ race_cleaned globalExpirationSet (UnixMilli now) expiredItemsBatchSize ∅ Hz) as (l & [Hl _] & ->).
  rewrite map_filter_empty, map_to_list_empty in Hl. apply Permutation_nil_r in Hl as ->. done.
Qed.
