(* ===== verification/RedisTransition.v ===== *)
(** * State transitions of the Redis backend

    packages/api/internal/sandbox/storage/redis/state_change.go and the third script
    of scripts.go, for one sandbox: [StartRemoving], the callback it returns,
    [restoreToRunning], [waitForTransition] and [checkTransitionResult], as the
    interleaved commands of any number of API instances.  The lock of the sandbox's
    key, the transition key and the results are shared; the TTLs of the keys
    (70 s and 30 s) and of the lock (1 min) are steps of the environment. *)
From Stdlib Require Import Ascii.
From S2P Require Import Prelude SyncUtils SandboxState Removal Redis RedisStore.

Inductive transition_error :=
  | TNotFound
  | TNotEvictable
  | TInvalid (CurrentState TargetState : State)
  | TFailed (result : string)     (** [transition failed: result] *)
  | TCancelled
  | TRedis.
Inductive transition_outcome := TErr (e : transition_error) | TAlreadyDone.

Section transition.
Context {ID Rest K : Type} `{RedisOps (payload ID Rest) K}.
Context (name : ID → string) (team_id : ID) (sandboxID : string).
Abbreviation Sandbox := (Sandbox ID Rest).
Implicit Types (s : K) (x : Sandbox).

Definition skey : string := getSandboxKey (name team_id) sandboxID.
Definition tkey : string := getTransitionKey (name team_id) sandboxID.
Definition rkey (transitionID : string) : string := getTransitionResultKey (name team_id) sandboxID transitionID.

Definition startTransitionScript (newData : Sandbox) (transitionID : string) s : K :=
  SET (SET (SET s skey (PSandbox newData)) tkey (PText transitionID)) (rkey transitionID) (PText "").

(** A call of [StartRemoving] and of the callback it returned. *)
Inductive rcall :=
  | Entering (opts : RemoveOpts)                          (** before [Obtain] *)
  | Locked (opts : RemoveOpts)                            (** holds the lock *)
  | GotSandbox (opts : RemoveOpts) (sbx : Sandbox)        (** has read the sandbox *)
  | Starting (opts : RemoveOpts) (updated : Sandbox)      (** before the script *)
  | WaitingFor (opts : RemoveOpts) (sbx : Sandbox) (transitionID : string)
  | Checking (opts : RemoveOpts) (sbx : Sandbox) (transitionID : string)  (** before [checkTransitionResult] *)
  | Owner (action : StateAction) (transitionID : string)  (** holds the callback *)
  | Closing (transitionID resultValue : string)           (** before [SET] of the result *)
  | Closed (transitionID resultValue : string)            (** before [DEL] of the transition key *)
  | OwnerDone (transitionID resultValue : string)
  | Abandoned (transitionID : string)                     (** the callback got no lock *)
  | Ended (r : transition_outcome).

(** After the sandbox was read. *)
Definition read_sandbox (opts : RemoveOpts) s : rcall :=
  match decode (E := False) (GET s skey) with
  | Ok x => GotSandbox opts x
  | Err RNotFound => Ended (TErr TNotFound)
  | _ => Ended (TErr TRedis)
  end.
Definition transaction s : option string := match GET s tkey with Some (PText t) => if String.eqb t "" then None else Some t | _ => None end.
Definition handleExistingTransition (sbx : Sandbox) (opts : RemoveOpts) (transactionID : string) : rcall :=
  let newState := TargetState (Action opts) in
  if bool_decide (SState sbx = newState) then WaitingFor opts sbx transactionID
  else if negb (AllowedTransitions (SState sbx) newState) then Ended (TErr (TInvalid (SState sbx) newState))
  else WaitingFor opts sbx transactionID.
(** After the transition key was read; [now] and [now'] are the clocks of the expiry
    check and of the new end of life. *)
Definition check_transition (opts : RemoveOpts) (sbx : Sandbox) (now now' : Z) s : rcall :=
  let newState := TargetState (Action opts) in
  if Eviction opts && bool_decide (is_Some (transaction s)) then Ended (TErr TNotEvictable)
  else if Eviction opts && negb (IsExpired sbx now) then Ended (TErr TNotEvictable)
  else match transaction s with
  | Some transactionID => handleExistingTransition sbx opts transactionID
  | None =>
      if bool_decide (SState sbx = newState) then Ended TAlreadyDone
      else if negb (AllowedTransitions (SState sbx) newState) then Ended (TErr (TInvalid (SState sbx) newState))
      else
        let updated := with_state sbx newState in
        Starting opts (match Effect (Action opts) with
                       | TransitionExpires => if negb (IsExpired updated now') then with_end updated now' else updated
                       | TransitionTransient => updated
                       end)
  end.

(** One round of [waitForTransition]: whether it goes on to [checkTransitionResult].  The
    text of a GET that fails is empty, so its error counts as a change of the transition. *)
Definition poll_transition s (transitionID : string) (ok : bool) : bool :=
  negb (ok && match GET s tkey with Some (PText current) => String.eqb current transitionID | _ => false end).
(** [None] without an error. *)
Definition checkTransitionResult s (transitionID : string) (ok : bool) : option transition_error :=
  if negb ok then Some TRedis
  else match GET s (rkey transitionID) with
  | None => None
  | Some (PText result) => if String.eqb result "" then None else Some (TFailed result)
  | Some (PSandbox _) => Some TRedis
  end.
(** [WaitForStateChange]: the transition to wait on, if there is one. *)
Definition redis_WaitForStateChange s (ok : bool) : res transition_error (option string) :=
  if negb ok then Err TRedis
  else match GET s tkey with None => Ok None | Some (PText t) => Ok (Some t) | Some (PSandbox _) => Err TRedis end.
(** The rest of [handleExistingTransition]; the retry drops the eviction flag. *)
Definition after_transition (opts : RemoveOpts) (sbx : Sandbox) (err : option transition_error) : rcall :=
  match err with
  | Some e => Ended (TErr e)
  | None => if bool_decide (SState sbx = TargetState (Action opts)) then Ended TAlreadyDone else Entering (mkOpts (Action opts) false)
  end.

(** [restoreToRunning] *)
Definition restore (fromState : State) (sbx : Sandbox) : res False Sandbox :=
  if negb (bool_decide (SState sbx = fromState)) then Ok sbx else Ok (with_state sbx StateRunning).
(** The callback up to its lock; [text] is the text of the error of the restore. *)
Definition callback_enter (action : StateAction) (transitionID : string) (cbErr : option string)
    (locked get_ok : bool) (r : reply) (text : string) s : K * rcall :=
  let transient := match Effect action with TransitionTransient => true | TransitionExpires => false end in
  let '(s, restoreErr) :=
    if transient && bool_decide (cbErr = None) then
      let '(s, res) := redis_Update name s team_id sandboxID (restore (TargetState action)) locked get_ok r RDone in
      (s, match res with Ok _ => None | _ => Some text end)
    else (s, None) in
  (s, Closing transitionID
        (match restoreErr with
         | Some text => "failed to restore sandbox to running: " +:+ text
         | None => match cbErr with Some e => if transient then "" else e | None => "" end
         end)).

(** ** The system *)
Record tsys := mkTsys {
  keyspace : K;
  holder : option nat;       (** who holds the lock of the sandbox's key *)
  tcalls : list rcall;
  used : list string;        (** the transition IDs drawn so far *)
}.
Definition put (i : nat) (c : rcall) (y : tsys) : tsys := mkTsys (keyspace y) (holder y) (<[i := c]> (tcalls y)) (used y).
Definition with_ks (k : K) (y : tsys) : tsys := mkTsys k (holder y) (tcalls y) (used y).
Definition with_holder (h : option nat) (y : tsys) : tsys := mkTsys (keyspace y) h (tcalls y) (used y).
(** The lock has a token: who lost it does not release it. *)
Definition release (i : nat) (y : tsys) : tsys := if decide (holder y = Some i) then with_holder None y else y.
(** The critical section goes on, or the deferred release runs. *)
Definition settle (i : nat) (c : rcall) (y : tsys) : tsys :=
  match c with GotSandbox _ _ | Starting _ _ => put i c y | _ => release i (put i c y) end.

Inductive tlabel :=
  | TRequest (opts : RemoveOpts)
  | TObtain (i : nat)
  | TRead (i : nat) (ok : bool)
  | TCheck (i : nat) (now now' : Z) (ok : bool)
  | TScript (i : nat) (transitionID : string) (r : reply)
  | TPoll (i : nat) (ok : bool)
  | TOutcome (i : nat) (ok : bool)
  | TCancel (i : nat)
  | TFinish (i : nat) (cbErr : option string) (locked get_ok : bool) (r : reply) (text : string) (cb_locked : bool)
  | TResult (i : nat) (r : reply)
  | TDelete (i : nat) (r : reply)
  | TStore (o : option Sandbox)          (** [Add], [Update] or [Remove] *)
  | TExpireTransition
  | TExpireResult (transitionID : string)
  | TLoseLock.

Definition tstep (y : tsys) (l : tlabel) : option tsys :=
  let s := keyspace y in
  match l with
  | TRequest opts => Some (mkTsys s (holder y) (tcalls y ++ [Entering opts]) (used y))
  | TObtain i =>
      match tcalls y !! i, holder y with
      | Some (Entering opts), None => Some (with_holder (Some i) (put i (Locked opts) y))
      | _, _ => None
      end
  | TRead i ok =>
      match tcalls y !! i with
      | Some (Locked opts) => Some (settle i (if ok then read_sandbox opts s else Ended (TErr TRedis)) y)
      | _ => None
      end
  | TCheck i now now' ok =>
      match tcalls y !! i with
      | Some (GotSandbox opts x) => Some (settle i (if ok then check_transition opts x now now' s else Ended (TErr TRedis)) y)
      | _ => None
      end
  | TScript i transitionID r =>
      match tcalls y !! i with
      | Some (Starting opts x) =>
          if bool_decide (transitionID ∈ used y) || String.eqb transitionID "" then None
          else
            let '(s, err) := send r (startTransitionScript x transitionID) s in
            let c := if err then Ended (TErr TRedis) else Owner (Action opts) transitionID in
            Some (release i (mkTsys s (holder y) (<[i := c]> (tcalls y)) (transitionID :: used y)))
      | _ => None
      end
  | TPoll i ok =>
      match tcalls y !! i with
      | Some (WaitingFor opts x transitionID) =>
          if poll_transition s transitionID ok then Some (put i (Checking opts x transitionID) y) else None
      | _ => None
      end
  | TOutcome i ok =>
      match tcalls y !! i with
      | Some (Checking opts x transitionID) => Some (put i (after_transition opts x (checkTransitionResult s transitionID ok)) y)
      | _ => None
      end
  | TCancel i =>
      match tcalls y !! i with
      | Some (WaitingFor _ _ _) => Some (put i (Ended (TErr TCancelled)) y)
      | _ => None
      end
  | TFinish i cbErr locked get_ok r text cb_locked =>
      match tcalls y !! i with
      | Some (Owner action transitionID) =>
          if (locked : bool) && bool_decide (is_Some (holder y)) then None
          else
            let '(s, c) := callback_enter action transitionID cbErr locked get_ok r text s in
            Some (put i (if cb_locked : bool then c else Abandoned transitionID) (with_ks s y))
      | _ => None
      end
  | TResult i r =>
      match tcalls y !! i with
      | Some (Closing transitionID v) => Some (put i (Closed transitionID v) (with_ks (send r (λ s, SET s (rkey transitionID) (PText v)) s).1 y))
      | _ => None
      end
  | TDelete i r =>
      match tcalls y !! i with
      | Some (Closed transitionID v) => Some (put i (OwnerDone transitionID v) (with_ks (send r (λ s, DEL s tkey) s).1 y))
      | _ => None
      end
  | TStore o => Some (with_ks (match o with Some x => SET s skey (PSandbox x) | None => DEL s skey end) y)
  | TExpireTransition => Some (with_ks (DEL s tkey) y)
  | TExpireResult transitionID => Some (with_ks (DEL s (rkey transitionID)) y)
  | TLoseLock => Some (with_holder None y)
  end.
Fixpoint trun (y : tsys) (ls : list tlabel) : option tsys :=
  match ls with [] => Some y | l :: ls => match tstep y l with Some y => trun y ls | None => None end end.
Definition tsys_init s : tsys := mkTsys s None [] [].

(** The transition a call owns. *)
Definition owning (c : rcall) : option string :=
  match c with Owner _ t | Closing t _ | Closed t _ => Some t | _ => None end.
End transition.


(** ** Laws *)
Section transition_laws.
Context {ID Rest K : Type} `{RedisLaws (payload ID Rest) K}.
Context (name : ID → string) (team_id : ID) (sandboxID : string).
Abbreviation Sandbox := (Sandbox ID Rest).
Abbreviation tsys := (tsys (ID := ID) (Rest := Rest) (K := K)).
Abbreviation rcall := (rcall (ID := ID) (Rest := Rest)).
Abbreviation tlabel := (tlabel (ID := ID) (Rest := Rest)).
Implicit Types (s : K) (y : tsys) (c : rcall) (l : tlabel).
Abbreviation skey := (skey name team_id sandboxID).
Abbreviation tkey := (tkey name team_id sandboxID).
Abbreviation rkey := (rkey name team_id sandboxID).
Abbreviation tstep := (tstep name team_id sandboxID).
Abbreviation trun := (trun name team_id sandboxID).

Lemma skey_tkey : skey ≠ tkey.
Proof using.
  unfold RedisTransition.skey, RedisTransition.tkey, getSandboxKey, getTransitionKey, CreateKey. simpl. intros E.
  injection E as E. by apply str_app_inj in E.
Qed.
Lemma skey_rkey t : skey ≠ rkey t.
Proof using.
  unfold RedisTransition.skey, RedisTransition.rkey, getSandboxKey, getTransitionResultKey, getTransitionKey, CreateKey. simpl. intros E.
  injection E as E. rewrite !str_app_assoc in E. by do 2 apply str_app_inj in E.
Qed.
Lemma tkey_rkey t : tkey ≠ rkey t.
Proof using. unfold RedisTransition.rkey, getTransitionResultKey, CreateKey. simpl. intros E. by eapply str_app_nonempty, eq_sym. Qed.
Lemma rkey_inj t t' : rkey t = rkey t' → t = t'.
Proof using. unfold RedisTransition.rkey, getTransitionResultKey, CreateKey. simpl. intros E. apply str_app_inj in E. by injection E. Qed.

Abbreviation tk y := (rview (keyspace y) !! tkey).
Definition in_section (c : rcall) : bool := match c with Locked _ | GotSandbox _ _ | Starting _ _ => true | _ => false end.
Record tinv y : Prop := {
  ti_key : tk y = None ∨ ∃ t, tk y = Some (RStr (PText t)) ∧ t ∈ used y ∧ t ≠ "";
  ti_own i c t : tcalls y !! i = Some c → owning c = Some t → tk y = Some (RStr (PText t));
  ti_uniq i j ci cj t t' : tcalls y !! i = Some ci → tcalls y !! j = Some cj → owning ci = Some t → owning cj = Some t' → i = j;
  ti_lock i c : tcalls y !! i = Some c → in_section c = true → holder y = Some i;
  ti_start i opts x : tcalls y !! i = Some (Starting opts x) → tk y = None;
}.
Lemma tinv_init s : rview s !! tkey = None → tinv (tsys_init s).
Proof using. intros Hk. split; simpl; [by left|..]; intros *; by rewrite lookup_nil. Qed.

(** One call changes, and the transition key does not. *)
Lemma tinv_put y y' i c0 c' : tinv y → tcalls y !! i = Some c0 → tcalls y' = <[i := c']> (tcalls y) → used y' = used y → tk y' = tk y →
  (∀ t, owning c' = Some t → owning c0 = Some t) → (in_section c' = true → holder y' = Some i) →
  (∀ j, j ≠ i → holder y = Some j → holder y' = Some j) → (∀ opts x, c' = Starting opts x → tk y = None) → tinv y'.
Proof using.
  intros Hi Hc0 Hcs Hu Hk Hown Hsec Hh Hst.
  assert (∀ j c, tcalls y' !! j = Some c → (j = i ∧ c = c') ∨ (j ≠ i ∧ tcalls y !! j = Some c)) as Hl.
  { intros j c. rewrite Hcs. intros [(-> & <- & _)|[? ?]]%list_lookup_insert_Some; eauto. }
  split.
  - rewrite Hk, Hu. apply (ti_key _ Hi).
  - rewrite Hk. intros j c t [[-> ->]|[_ Hj]]%Hl Hc; [|by eapply ti_own]. by eapply ti_own; eauto.
  - intros j k cj ck t t' [[-> ->]|[_ Hj]]%Hl [[-> ->]|[_ Hk']]%Hl E1 E2; [done|..]; eapply (ti_uniq _ Hi); eauto.
  - intros j c [[-> ->]|[Hne Hj]]%Hl Hs; [by apply Hsec|]. apply Hh; [done|]. by eapply ti_lock.
  - rewrite Hk. intros j opts x [[-> ?]|[_ Hj]]%Hl; [by eapply Hst|]. by eapply ti_start.
Qed.

Lemma rview_set_skey s p : rview (SET s skey p) !! tkey = rview s !! tkey.
Proof using All. rewrite r_SET. apply lookup_insert_ne, skey_tkey. Qed.
Lemma rview_del_skey s : rview (DEL s skey) !! tkey = rview s !! tkey.
Proof using All. rewrite r_DEL. apply lookup_delete_ne, skey_tkey. Qed.
Lemma rview_rkey s t p : rview (SET s (rkey t) p) !! tkey = rview s !! tkey.
Proof using All. rewrite r_SET. apply lookup_insert_ne. apply not_eq_sym, tkey_rkey. Qed.

Lemma restore_update s st locked get_ok r : let '(s', _) := redis_Update name s team_id sandboxID (restore st) locked get_ok r RDone in
  s' = s ∨ ∃ p, s' = SET s skey p.
Proof using All.
  unfold redis_Update. destruct locked, get_ok; simpl; try by left. destruct (decode _) as [x|e|]; try by left.
  assert (∃ u : Sandbox, restore st x = Ok u ∧ EndTime u = EndTime x) as (u & -> & ->).
  { unfold restore. case_bool_decide; simpl; eauto. }
  rewrite Z.eqb_refl. destruct r; simpl; eauto.
Qed.
Lemma callback_enter_ks action t cbErr locked get_ok r text s :
  let '(s', c) := callback_enter name team_id sandboxID action t cbErr locked get_ok r text s in
  (s' = s ∨ ∃ p, s' = SET s skey p) ∧ ∃ v, c = Closing t v.
Proof using All.
  unfold callback_enter. destruct (_ && bool_decide _).
  - pose proof (restore_update s (TargetState action) locked get_ok r) as Hu. destruct (redis_Update _ _ _ _ _ _ _ _ _) as [s' res]. eauto.
  - eauto.
Qed.
Lemma transaction_key y : tinv y → transaction name team_id sandboxID (keyspace y) = None → tk y = None.
Proof using All.
  intros Hi Ht. unfold transaction in Ht. destruct (ti_key _ Hi) as [?|(t & Hk & _ & Hne)]; [done|].
  rewrite (r_GET _ _ (Some (PText t))) in Ht by (unfold str_at; by rewrite Hk). apply String.eqb_neq in Hne. by rewrite Hne in Ht.
Qed.

(** No key expires while it is in use, and the lock is kept. *)
Definition steady l : Prop := match l with TExpireTransition | TLoseLock => False | _ => True end.

Lemma check_cases opts x now now' s : (∃ r, check_transition name team_id sandboxID opts x now now' s = Ended r) ∨
  (∃ t, check_transition name team_id sandboxID opts x now now' s = WaitingFor opts x t ∧ transaction name team_id sandboxID s = Some t) ∨
  (∃ u, check_transition name team_id sandboxID opts x now now' s = Starting opts u ∧ transaction name team_id sandboxID s = None).
Proof using.
  unfold check_transition, handleExistingTransition. destruct (Eviction opts && bool_decide _); [eauto|]. destruct (Eviction opts && _); [eauto|].
  destruct (transaction _ _ _ s) as [t|]; case_bool_decide; simpl; try destruct (AllowedTransitions _ _); simpl; eauto 10.
Qed.
Lemma release_holder i j y : j ≠ i → holder y = Some j → holder (release i y) = Some j.
Proof using. intros Hne Hh. unfold release. case_decide; simpl; congruence. Qed.
Lemma release_fields i y : keyspace (release i y) = keyspace y ∧ tcalls (release i y) = tcalls y ∧ used (release i y) = used y.
Proof using. unfold release. by case_decide. Qed.

Lemma settle_inv y i c0 c' : tinv y → tcalls y !! i = Some c0 → in_section c0 = true → owning c' = None →
  (match c' with Starting _ _ => tk y = None | Locked _ => False | _ => True end) → tinv (settle i c' y).
Proof using.
  intros Hi Hc0 Hsec Hown Hst. pose proof (ti_lock _ Hi _ _ Hc0 Hsec) as Hh.
  assert (settle i c' y = put i c' y ∨ (settle i c' y = release i (put i c' y) ∧ in_section c' = false)) as [->|[-> Hns]]
    by (destruct c'; simpl; (by left) || (by right) || done).
  - eapply (tinv_put y _ i c0 c'); [done..|by rewrite Hown|done|done|]. intros opts x ->. exact Hst.
  - destruct (release_fields i (put i c' y)) as (E1 & E2 & E3).
    eapply (tinv_put y _ i c0 c'); [done|done|by rewrite E2|by rewrite E3|by rewrite E1|by rewrite Hown|by rewrite Hns| |].
    + intros j Hne Hj. by apply release_holder.
    + intros opts x ->. done.
Qed.

Lemma request_inv y opts : tinv y → tinv (mkTsys (keyspace y) (holder y) (tcalls y ++ [Entering opts]) (used y)).
Proof using.
  intros [Hk Ho Hu Hl Hs].
  assert (∀ j c, (tcalls y ++ [Entering opts]) !! j = Some c → tcalls y !! j = Some c ∨ c = Entering opts) as Hn.
  { intros j c [?|[_ Hj]]%lookup_app_Some; [by left|]. right. apply list_elem_of_lookup_2, list_elem_of_singleton in Hj. done. }
  split; simpl; [done|..].
  - intros i c t [?| ->]%Hn; eauto. done.
  - intros i j ci cj t t' [?| ->]%Hn [?| ->]%Hn; eauto; done.
  - intros i c [?| ->]%Hn; eauto. done.
  - intros i o x [?|?]%Hn; eauto. done.
Qed.
Lemma script_view x t s : rview (startTransitionScript name team_id sandboxID x t s) !! tkey = Some (RStr (PText t)).
Proof using All.
  unfold startTransitionScript. rewrite rview_rkey, r_SET. apply lookup_insert_eq.
Qed.
(** The script runs when there is no transition, so nobody owns one. *)
Lemma script_inv y i opts x t r s err : tinv y → tcalls y !! i = Some (Starting opts x) → t ≠ "" →
  send r (startTransitionScript name team_id sandboxID x t) (keyspace y) = (s, err) →
  tinv (release i (mkTsys s (holder y) (<[i := if err then Ended (TErr TRedis) else Owner (Action opts) t]> (tcalls y)) (t :: used y))).
Proof using All.
  intros Hi Hc Hne Hs. pose proof (ti_start _ Hi _ _ _ Hc) as Hnone.
  assert (∀ j cj t', tcalls y !! j = Some cj → owning cj = Some t' → False) as Hno.
  { intros j cj t' Hj Ho. by rewrite (ti_own _ Hi _ _ _ Hj Ho) in Hnone. }
  assert (∀ j cj, tcalls y !! j = Some cj → in_section cj = true → j = i) as Hin.
  { intros j cj Hj Hsec. pose proof (ti_lock _ Hi _ _ Hj Hsec). pose proof (ti_lock _ Hi _ _ Hc eq_refl). congruence. }
  set (y1 := mkTsys s _ _ _). destruct (release_fields i y1) as (E1 & E2 & E3).
  assert (rview s !! tkey = Some (RStr (PText t)) ∨ (rview s !! tkey = None ∧ err = true)) as Hk.
  { destruct r; simplify_eq/=; [left; apply script_view|left; apply script_view|by right]. }
  assert (∀ j c, tcalls (release i y1) !! j = Some c →
    (j = i ∧ c = if err then Ended (TErr TRedis) else Owner (Action opts) t) ∨ (j ≠ i ∧ tcalls y !! j = Some c)) as Hl.
  { intros j c. rewrite E2. intros [(-> & <- & _)|[? ?]]%list_lookup_insert_Some; eauto. }
  split; rewrite ?E1, ?E3; simpl.
  - destruct Hk as [?|[? _]]; [right; exists t; split_and!; [done|by left|done]|by left].
  - intros j c t' [[-> ->]|[_ Hj]]%Hl Ho; [|by destruct (Hno _ _ _ Hj Ho)]. destruct Hk as [Hk|[_ ->]]; [|done]. destruct err; [done|]. by simplify_eq/=.
  - intros j k cj ck t1 t2 [[-> _]|[_ Hj]]%Hl [[-> _]|[_ Hk']]%Hl O1 O2; [done|..]; exfalso; eauto.
  - intros j c [[-> ->]|[Hd Hj]]%Hl Hsec; [by destruct err|]. by destruct (Hd (Hin _ _ Hj Hsec)).
  - intros j o u [[-> ?]|[Hd Hj]]%Hl; [by destruct err|]. by destruct (Hd (Hin _ _ Hj eq_refl)).
Qed.
Lemma delete_inv y i t v r : tinv y → tcalls y !! i = Some (Closed t v) →
  tinv (put i (OwnerDone t v) (with_ks (send r (λ s, DEL s tkey) (keyspace y)).1 y)).
Proof using All.
  intros Hi Hc. pose proof (ti_own _ Hi _ _ t Hc eq_refl) as Ht.
  assert (∀ j c t', <[i := OwnerDone t v]> (tcalls y) !! j = Some c → owning c = Some t' → False) as Hno.
  { intros j c t' [(-> & <- & _)|[Hd Hj]]%list_lookup_insert_Some Ho; [done|]. by apply Hd, (ti_uniq _ Hi i j (Closed t v) c t t'). }
  assert (∀ j c, <[i := OwnerDone t v]> (tcalls y) !! j = Some c → in_section c = true → tcalls y !! j = Some c) as Hsec.
  { intros j c [(-> & <- & _)|[_ Hj]]%list_lookup_insert_Some Ho; done. }
  split; simpl.
  - destruct r; simpl; rewrite ?r_DEL, ?lookup_delete_eq; [by left|by left|by apply ti_key].
  - intros j c t' Hj Ho. by destruct (Hno _ _ _ Hj Ho).
  - intros j k cj ck t1 t2 Hj _ Ho _. by destruct (Hno _ _ _ Hj Ho).
  - intros j c Hj Hs. by eapply ti_lock; eauto.
  - intros j o x Hj. pose proof (ti_start _ Hi _ _ _ (Hsec _ _ Hj eq_refl)). congruence.
Qed.

Lemma store_inv y s : tinv y → rview s !! tkey = tk y → tinv (with_ks s y).
Proof using. intros [] Hk. split; simpl; rewrite ?Hk; eauto. Qed.

Lemma after_transition_plain opts x err : let c := after_transition (ID := ID) (Rest := Rest) opts x err in
  owning c = None ∧ in_section c = false ∧ (∀ o u t, c ≠ WaitingFor o u t ∧ c ≠ Checking o u t) ∧ ∀ o u, c ≠ Starting o u.
Proof using. unfold after_transition. destruct err; [done|]. by case_bool_decide. Qed.
Lemma tstep_inv y l y' : tinv y → steady l → tstep y l = Some y' → tinv y'.
Proof using All.
  intros Hi Hst Hs. destruct l as [opts|i|i ok|i now now' ok|i t r|i ok|i ok|i|i e locked get_ok r text cbl|i r|i r|o| |t|]; cbn [RedisTransition.tstep] in Hs; try done.
  - injection Hs as <-. by apply request_inv.
  - destruct (tcalls y !! i) as [[opts| | | | | | | | | | |]|] eqn:Ec; try done. destruct (holder y) eqn:Eh; [done|]. injection Hs as <-.
    eapply (tinv_put y _ i); [exact Hi|exact Ec|try done..]. intros j _ Hj. congruence.
  - destruct (tcalls y !! i) as [[|opts| | | | | | | | | |]|] eqn:Ec; try done. injection Hs as <-.
    eapply settle_inv; [done|exact Ec|done|..]; destruct ok; try done; unfold read_sandbox; destruct (decode _) as [|[]|]; done.
  - destruct (tcalls y !! i) as [[| |opts x| | | | | | | | |]|] eqn:Ec; try done. injection Hs as <-.
    destruct ok; [|by eapply settle_inv].
    destruct (check_cases opts x now now' (keyspace y)) as [[r ->]|[(t & -> & _)|(u & -> & Hn)]]; eapply settle_inv; eauto; try done.
    by apply transaction_key.
  - destruct (tcalls y !! i) as [[| | |opts x| | | | | | | |]|] eqn:Ec; try done. destruct (_ || _) eqn:Ef; [done|].
    apply orb_false_iff in Ef as [_ Hne%String.eqb_neq]. destruct (send r _ _) as [s err] eqn:Er. injection Hs as <-.
    by eapply script_inv.
  - destruct (tcalls y !! i) as [[| | | |opts x t| | | | | | |]|] eqn:Ec; try done. destruct (poll_transition _ _ _ _ _ _); [|done]. injection Hs as <-.
    by eapply (tinv_put y _ i); [done|exact Ec|..].
  - destruct (tcalls y !! i) as [[| | | | |opts x t| | | | | |]|] eqn:Ec; try done. injection Hs as <-. destruct (after_transition_plain opts x (checkTransitionResult name team_id sandboxID (keyspace y) t ok)) as (Ho & Hn & _ & Hst').
    eapply (tinv_put y _ i); [done|exact Ec|done..| | | |]; [intros t'; by rewrite Ho|by rewrite Hn|done|]. intros opts' u E. by destruct (Hst' opts' u).
  - destruct (tcalls y !! i) as [[| | | |opts x t| | | | | | |]|] eqn:Ec; try done. injection Hs as <-. by eapply (tinv_put y _ i); [done|exact Ec|..].
  - destruct (tcalls y !! i) as [[| | | | | |a t| | | | |]|] eqn:Ec; try done. destruct (_ && _); [done|].
    pose proof (callback_enter_ks a t e locked get_ok r text (keyspace y)) as Hc. destruct (callback_enter _ _ _ _ _ _ _ _ _ _ _) as [s c].
    injection Hs as <-. destruct Hc as [Hk [v ->]].
    assert (rview s !! tkey = tk y) as Hk' by (destruct Hk as [->|[p ->]]; [done|apply rview_set_skey]).
    destruct cbl; eapply (tinv_put y _ i); try done; exact Ec.
  - destruct (tcalls y !! i) as [[| | | | | | |t v| | | |]|] eqn:Ec; try done. injection Hs as <-.
    eapply (tinv_put y _ i); [done|exact Ec|done|done| |done..]. destruct r; simpl; [apply rview_rkey|apply rview_rkey|done].
  - destruct (tcalls y !! i) as [[| | | | | | | |t v| | |]|] eqn:Ec; try done. injection Hs as <-. by eapply delete_inv.
  - injection Hs as <-. apply store_inv; [done|]. simpl. destruct o; [apply rview_set_skey|apply rview_del_skey].
  - injection Hs as <-. apply store_inv; [done|]. simpl. rewrite r_DEL. apply lookup_delete_ne, not_eq_sym, tkey_rkey.
Qed.
Lemma trun_inv y ls y' : tinv y → Forall steady ls → trun y ls = Some y' → tinv y'.
Proof using All.
  revert y. induction ls as [|l ls IH]; intros y Hi Hst Hs; simpl in Hs; [by simplify_eq|]. inversion Hst; subst.
  destruct (tstep y l) as [y1|] eqn:El; [|done]. eapply IH; [by eapply tstep_inv|done..].
Qed.

(** ** Results *)
Abbreviation rk y t := (rview (keyspace y) !! rkey t).
Definition tid_of (c : rcall) : option string :=
  match c with Owner _ t | Closing t _ | Closed t _ | OwnerDone t _ | Abandoned t => Some t | _ => None end.
Definition stored (c : rcall) : option (string * string) :=
  match c with Closed t v | OwnerDone t v => Some (t, v) | _ => None end.
Record tres y : Prop := {
  tr_inv : tinv y;
  tr_tid i c t : tcalls y !! i = Some c → tid_of c = Some t → t ∈ used y;
  tr_uniq i j ci cj t : tcalls y !! i = Some ci → tcalls y !! j = Some cj → tid_of ci = Some t → tid_of cj = Some t → i = j;
  tr_val i c t v : tcalls y !! i = Some c → stored c = Some (t, v) → rk y t = Some (RStr (PText v));
  tr_wait i opts x t : tcalls y !! i = Some (WaitingFor opts x t) →
    tk y = Some (RStr (PText t)) ∨ ∃ j v, tcalls y !! j = Some (OwnerDone t v);
  tr_check i opts x t : tcalls y !! i = Some (Checking opts x t) → ∃ j v, tcalls y !! j = Some (OwnerDone t v);
}.
(** Results live until they are read, and are stored; no GET of a poll fails. *)
Definition prompt l : Prop := steady l ∧ match l with TExpireResult _ => False | TResult _ r => r = RDone | TPoll _ ok => ok = true | _ => True end.

Lemma tres_init s : rview s !! tkey = None → tres (tsys_init s).
Proof using. intros Hk. split; simpl; [by apply tinv_init|..]; intros *; by rewrite lookup_nil. Qed.

(** The results that are there stay, and one call changes. *)
Lemma tres_put y y' i c0 c' : tres y → tinv y' → tcalls y !! i = Some c0 → tcalls y' = <[i := c']> (tcalls y) → used y' = used y →
  (∀ t, t ∈ used y → (∀ v, stored c' ≠ Some (t, v)) → rk y' t = rk y t) →
  (tk y' = tk y ∨ ∃ t v, c' = OwnerDone t v ∧ tk y = Some (RStr (PText t))) →
  (∀ t, tid_of c' = Some t → tid_of c0 = Some t) → (∀ t v, stored c' = Some (t, v) → rk y' t = Some (RStr (PText v))) →
  (∀ t v, c0 ≠ OwnerDone t v) → (∀ opts x t, c' = WaitingFor opts x t → tk y' = Some (RStr (PText t))) →
  (∀ opts x t, c' = Checking opts x t → ∃ j v, tcalls y !! j = Some (OwnerDone t v)) → tres y'.
Proof using.
  intros Hr Hi' Hc0 Hcs Hu Hkeep Htk Htid Hval Hnd Hw Hck.
  assert (∀ t k v, tcalls y !! k = Some (OwnerDone t v) → ∃ k v, tcalls y' !! k = Some (OwnerDone t v)) as Hdone.
  { intros t k v Hk. exists k, v. rewrite Hcs, list_lookup_insert_ne; [done|]. intros <-. rewrite Hc0 in Hk. injection Hk as ->. by eapply Hnd. }
  assert (∀ j c, tcalls y' !! j = Some c → (j = i ∧ c = c') ∨ (j ≠ i ∧ tcalls y !! j = Some c)) as Hl.
  { intros j c. rewrite Hcs. intros [(-> & <- & _)|[? ?]]%list_lookup_insert_Some; eauto. }
  split; [done|..].
  - rewrite Hu. intros j c t [[-> ->]|[_ Hj]]%Hl Ht; eapply tr_tid; eauto.
  - intros j k cj ck t [[-> ->]|[_ Hj]]%Hl [[-> ->]|[_ Hk']]%Hl E1 E2; [done|..]; eapply (tr_uniq _ Hr); eauto.
  - intros j c t v [[-> ->]|[Hne Hj]]%Hl Hs; [by apply Hval|].
    assert (tid_of c = Some t) as Ht by (destruct c; by simplify_eq/=). rewrite Hkeep; [by eapply tr_val|by eapply tr_tid|].
    intros v' Hs'. assert (tid_of c' = Some t) as Ht' by (destruct c'; by simplify_eq/=). apply Hne. by eapply (tr_uniq _ Hr); eauto.
  - intros j opts x t [[-> ?]|[Hne Hj]]%Hl; [left; by eapply Hw|].
    destruct (tr_wait _ Hr _ _ _ _ Hj) as [Ht|(k & v & Hk)]; [|right; by eapply Hdone].
    destruct Htk as [->|(t' & v & -> & Ht')]; [by left|]. right. exists i, v. rewrite Ht in Ht'. injection Ht' as <-.
    rewrite Hcs. apply list_lookup_insert_eq. by eapply lookup_lt_Some.
  - intros j opts x t [[-> ?]|[_ Hj]]%Hl; [destruct (Hck opts x t) as (k & v & Hk); [done|]|destruct (tr_check _ Hr _ _ _ _ Hj) as (k & v & Hk)]; by eapply Hdone.
Qed.
Lemma rk_ne_rkey s t t' p : t ≠ t' → rview (SET s (rkey t) p) !! rkey t' = rview s !! rkey t'.
Proof using All. intros Hne. rewrite r_SET. apply lookup_insert_ne. intros E. by apply Hne, (rkey_inj t t'). Qed.
Lemma rk_skey s s' t : (s' = s ∨ ∃ p, s' = SET s skey p) → rview s' !! rkey t = rview s !! rkey t.
Proof using All. intros [->|[p ->]]; [done|]. rewrite r_SET. apply lookup_insert_ne, skey_rkey. Qed.
Lemma put_plain y y' i c0 c' : tres y → tinv y' → tcalls y !! i = Some c0 → tcalls y' = <[i := c']> (tcalls y) → used y' = used y →
  keyspace y' = keyspace y → tid_of c0 = None → tid_of c' = None →
  (∀ opts x t, c' = WaitingFor opts x t → tk y' = Some (RStr (PText t))) →
  (∀ opts x t, c' = Checking opts x t → ∃ j v, tcalls y !! j = Some (OwnerDone t v)) → tres y'.
Proof using.
  intros Hr Hi Hc0 Hcs Hu Hk H0' H1' Hw Hck. eapply (tres_put y y' i c0 c'); try done.
  - intros t _ _. by rewrite Hk.
  - left. by rewrite Hk.
  - intros t. by rewrite H1'.
  - intros t v E. by destruct c'.
  - intros t v ->. done.
Qed.

Lemma transaction_some y t : tinv y → transaction name team_id sandboxID (keyspace y) = Some t → tk y = Some (RStr (PText t)).
Proof using All.
  intros Hi Ht. unfold transaction in Ht. destruct (ti_key _ Hi) as [Hk|(u & Hk & _ & Hne)].
  - by rewrite (r_GET _ _ None) in Ht by (unfold str_at; by rewrite Hk).
  - rewrite (r_GET _ _ (Some (PText u))) in Ht by (unfold str_at; by rewrite Hk). apply String.eqb_neq in Hne. rewrite Hne in Ht. by injection Ht as <-.
Qed.
Lemma settle_fields i c y : keyspace (settle i c y) = keyspace y ∧ tcalls (settle i c y) = <[i := c]> (tcalls y) ∧ used (settle i c y) = used y.
Proof using. destruct (release_fields i (put i c y)) as (E1 & E2 & E3). destruct c; cbn [settle]; try done; by rewrite E1, E2, E3. Qed.
Lemma settle_res y i c0 c' : tres y → tinv (settle i c' y) → tcalls y !! i = Some c0 → tid_of c0 = None → tid_of c' = None →
  (∀ opts x t, c' = WaitingFor opts x t → tk y = Some (RStr (PText t))) → (∀ opts x t, c' ≠ Checking opts x t) → tres (settle i c' y).
Proof using.
  intros Hr Hi Hc H1' H2' Hw Hck. destruct (settle_fields i c' y) as (E1 & E2 & E3).
  eapply (put_plain y _ i c0 c'); rewrite ?E1, ?E2, ?E3; try done. intros o x t E. by destruct (Hck o x t).
Qed.
Lemma script_res y y' i opts x t r s err : tres y → tinv y' → tcalls y !! i = Some (Starting opts x) → t ∉ used y →
  send r (startTransitionScript name team_id sandboxID x t) (keyspace y) = (s, err) →
  y' = release i (mkTsys s (holder y) (<[i := if err then Ended (TErr TRedis) else Owner (Action opts) t]> (tcalls y)) (t :: used y)) → tres y'.
Proof using All.
  intros Hr Hi Hc Hf Hs ->. pose proof (ti_start _ (tr_inv _ Hr) _ _ _ Hc) as Hnone. set (y1 := mkTsys s _ _ _) in *.
  destruct (release_fields i y1) as (E1 & E2 & E3).
  assert (∀ t', t' ∈ used y → rview s !! rkey t' = rk y t') as Hrk.
  { intros t' Ht'. assert (t ≠ t') as Hne by (by intros ->). destruct r; simplify_eq/=; [| |done]; unfold startTransitionScript;
      rewrite rk_ne_rkey, !r_SET by done; (rewrite !lookup_insert_ne; [done|apply skey_rkey|apply tkey_rkey]). }
  assert (∀ j c, tcalls (release i y1) !! j = Some c →
    (j = i ∧ c = if err then Ended (TErr TRedis) else Owner (Action opts) t) ∨ (j ≠ i ∧ tcalls y !! j = Some c)) as Hl.
  { intros j c. rewrite E2. intros [(-> & <- & _)|[? ?]]%list_lookup_insert_Some; eauto. }
  split; rewrite ?E1, ?E3; simpl; [done|..].
  - intros j c t' [[-> ->]|[_ Hj]]%Hl Ht; [destruct err; simplify_eq/=; by left|]. right. by eapply tr_tid.
  - intros j k cj ck t' [[-> ->]|[_ Hj]]%Hl [[-> ->]|[_ Hk]]%Hl O1 O2; [done| | |by eapply (tr_uniq _ Hr); eauto];
      exfalso; destruct err; simplify_eq/=; apply Hf; by eapply tr_tid.
  - intros j c t' v [[-> ->]|[_ Hj]]%Hl Hv; [by destruct err|]. rewrite Hrk; [by eapply tr_val|].
    eapply tr_tid; [done..|]. by destruct c; simplify_eq/=.
  - intros j o u t' [[-> ?]|[Hne Hj]]%Hl; [by destruct err|]. right. destruct (tr_wait _ Hr _ _ _ _ Hj) as [Ht|(k & v & Hk)]; [congruence|].
    exists k, v. rewrite E2. simpl. rewrite list_lookup_insert_ne; [done|]. intros <-. congruence.
  - intros j o u t' [[-> ?]|[Hne Hj]]%Hl; [by destruct err|]. destruct (tr_check _ Hr _ _ _ _ Hj) as (k & v & Hk).
    exists k, v. rewrite E2. simpl. rewrite list_lookup_insert_ne; [done|]. intros <-. congruence.
Qed.
Lemma store_res' y s : tres y → tinv (with_ks s y) → tk y = rview s !! tkey → (∀ t, rview s !! rkey t = rk y t) → tres (with_ks s y).
Proof using.
  intros Hr Hi Hk Hrk. destruct Hr as [? ? ? Hv Hw Hck]. split; simpl; [done..| | |].
  - intros. rewrite Hrk. by eapply Hv.
  - intros i o x t Hc. rewrite <- Hk. by eapply Hw.
  - intros i o x t Hc. by eapply Hck.
Qed.

Lemma tstep_res y l y' : tres y → prompt l → tstep y l = Some y' → tres y'.
Proof using All.
  intros Hr [Hst Hp] Hs. pose proof (tstep_inv _ _ _ (tr_inv _ Hr) Hst Hs) as Hi.
  destruct l as [opts|i|i ok|i now now' ok|i t r|i ok|i ok|i|i e locked get_ok r text cbl|i r|i r|o| |t|]; cbn [RedisTransition.tstep] in Hs; try done.
  - injection Hs as <-. destruct Hr as [_ Ht Hu Hv Hw Hck].
    assert (∀ j c, (tcalls y ++ [Entering opts]) !! j = Some c → tcalls y !! j = Some c ∨ c = Entering opts) as Hn.
    { intros j c [?|[_ Hj]]%lookup_app_Some; [by left|]. right. apply list_elem_of_lookup_2, list_elem_of_singleton in Hj. done. }
    split; simpl; [done|..].
    + intros j c t [?| ->]%Hn; eauto. done.
    + intros j k cj ck t [?| ->]%Hn [?| ->]%Hn; eauto; done.
    + intros j c t v [?| ->]%Hn; eauto. done.
    + intros j o x t [Hj|?]%Hn; [|done]. destruct (Hw _ _ _ _ Hj) as [?|(k & v & Hk)]; [by left|]. right. exists k, v. by apply lookup_app_l_Some.
    + intros j o x t [Hj|?]%Hn; [|done]. destruct (Hck _ _ _ _ Hj) as (k & v & Hk). exists k, v. by apply lookup_app_l_Some.
  - destruct (tcalls y !! i) as [[opts| | | | | | | | | | |]|] eqn:Ec; try done. destruct (holder y) eqn:Eh; [done|]. injection Hs as <-.
    by eapply (put_plain y _ i).
  - destruct (tcalls y !! i) as [[|opts| | | | | | | | | |]|] eqn:Ec; try done. injection Hs as <-.
    eapply settle_res; [done|done|exact Ec|done|..]; destruct ok; try done; unfold read_sandbox; destruct (decode _) as [|[]|]; done.
  - destruct (tcalls y !! i) as [[| |opts x| | | | | | | | |]|] eqn:Ec; try done. injection Hs as <-.
    destruct ok; [|by eapply settle_res].
    destruct (check_cases opts x now now' (keyspace y)) as [[r Er]|[(t & Er & Ht)|(u & Er & Hn)]]; rewrite Er in Hi |- *; eapply settle_res; eauto; try done.
    intros ? ? ? [= <- <- <-]. by apply transaction_some; [apply tr_inv|].
  - destruct (tcalls y !! i) as [[| | |opts x| | | | | | | |]|] eqn:Ec; try done. destruct (_ || _) eqn:Ef; [done|].
    apply orb_false_iff in Ef as [Hf%bool_decide_eq_false _]. destruct (send r _ _) as [s err] eqn:Er. injection Hs as <-.
    by eapply script_res.
  - destruct (tcalls y !! i) as [[| | | |opts x t| | | | | | |]|] eqn:Ec; try done. subst ok. destruct (poll_transition _ _ _ _ _ _) eqn:Ep; [|done]. injection Hs as <-.
    eapply (put_plain y _ i); try done. intros ? ? ? [= <- <- <-]. destruct (tr_wait _ Hr _ _ _ _ Ec) as [Ht|?]; [|done]. unfold poll_transition in Ep.
    rewrite (r_GET _ _ (Some (PText t))) in Ep by (unfold str_at; by rewrite Ht). by rewrite String.eqb_refl in Ep.
  - destruct (tcalls y !! i) as [[| | | | |opts x t| | | | | |]|] eqn:Ec; try done. injection Hs as <-.
    destruct (after_transition_plain opts x (checkTransitionResult name team_id sandboxID (keyspace y) t ok)) as (_ & _ & Hw & _).
    eapply (put_plain y _ i); try done; [unfold after_transition; destruct (checkTransitionResult _ _ _ _ _ _); [done|by case_bool_decide]|..]; intros o u t' E; by destruct (Hw o u t').
  - destruct (tcalls y !! i) as [[| | | |opts x t| | | | | | |]|] eqn:Ec; try done. injection Hs as <-. by eapply (put_plain y _ i).
  - destruct (tcalls y !! i) as [[| | | | | |a t| | | | |]|] eqn:Ec; try done. destruct (_ && _); [done|].
    pose proof (callback_enter_ks a t e locked get_ok r text (keyspace y)) as Hc. destruct (callback_enter _ _ _ _ _ _ _ _ _ _ _) as [s c].
    injection Hs as <-. destruct Hc as [Hk [v ->]].
    assert (rview s !! tkey = tk y) as Hk' by (destruct Hk as [->|[p ->]]; [done|apply rview_set_skey]).
    destruct cbl; eapply (tres_put y _ i); try done; [by intros; apply rk_skey|by left|by intros; apply rk_skey|by left].
  - destruct (tcalls y !! i) as [[| | | | | | |t v| | | |]|] eqn:Ec; try done. injection Hs as <-. subst r.
    eapply (tres_put y _ i); try done; simpl.
    + intros t' _ Hne. apply rk_ne_rkey. intros ->. by apply (Hne v).
    + left. apply rview_rkey.
    + intros ? ? [= <- <-]. rewrite r_SET. apply lookup_insert_eq.
  - destruct (tcalls y !! i) as [[| | | | | | | |t v| | |]|] eqn:Ec; try done. injection Hs as <-.
    pose proof (ti_own _ (tr_inv _ Hr) _ _ t Ec eq_refl) as Htk. pose proof (tr_val _ Hr _ _ t v Ec eq_refl) as Hv.
    assert (∀ t', rview (send r (λ s, DEL s tkey) (keyspace y)).1 !! rkey t' = rk y t') as Hrk.
    { intros t'. destruct r; simpl; rewrite ?r_DEL; [apply lookup_delete_ne, tkey_rkey|apply lookup_delete_ne, tkey_rkey|done]. }
    eapply (tres_put y _ i); try done; simpl.
    + right. eauto.
    + intros ? ? [= <- <-]. by rewrite Hrk.
  - injection Hs as <-. apply store_res'; [done|done|..]; simpl; destruct o; rewrite ?rview_set_skey, ?rview_del_skey; try done;
      intros t; rewrite ?r_SET, ?r_DEL; [apply lookup_insert_ne, skey_rkey|apply lookup_delete_ne, skey_rkey].
Qed.
Lemma trun_res y ls y' : tres y → Forall prompt ls → trun y ls = Some y' → tres y'.
Proof using All.
  revert y. induction ls as [|l ls IH]; intros y Hi Hst Hs; simpl in Hs; [by simplify_eq|]. inversion Hst; subst.
  destruct (tstep y l) as [y1|] eqn:El; [|done]. eapply IH; [by eapply tstep_res|done..].
Qed.
End transition_laws.


(** ** Properties *)
Section transition_properties.
Context {ID Rest K : Type} `{RedisLaws (payload ID Rest) K}.
Context (name : ID → string) (team_id : ID) (sandboxID : string).
Implicit Types (s : K) (ls : list (tlabel (ID := ID) (Rest := Rest))).

(** C12: whatever the API instances do, fail to do or lose the answer of, and
    whatever else is written to the sandbox's key, at most one of them holds the
    callback of a transition, the transition key names that transition, and at most
    one is inside the critical section, as long as no transition outlives its TTL
    and no lock is lost. *)
Theorem Redis_one_owner s ls y :
  rview s !! tkey name team_id sandboxID = None → Forall steady ls →
  trun name team_id sandboxID (tsys_init s) ls = Some y →
  (∀ i j ci cj ti tj, tcalls y !! i = Some ci → tcalls y !! j = Some cj → owning ci = Some ti → owning cj = Some tj → i = j) ∧
  (∀ i c t, tcalls y !! i = Some c → owning c = Some t → GET (keyspace y) (tkey name team_id sandboxID) = Some (PText t)) ∧
  (∀ i j ci cj, tcalls y !! i = Some ci → tcalls y !! j = Some cj → in_section ci = true → in_section cj = true → i = j).
Proof using All.
  intros Hk Hst Hr. pose proof (trun_inv _ _ _ _ _ _ (tinv_init _ _ _ _ Hk) Hst Hr) as Hi. split_and!.
  - intros. by eapply (ti_uniq _ _ _ _ Hi).
  - intros i c t Hc Ho. apply r_GET. unfold str_at. by rewrite (ti_own _ _ _ _ Hi _ _ _ Hc Ho).
  - intros i j ci cj Hc Hc' Hs Hs'. pose proof (ti_lock _ _ _ _ Hi _ _ Hc Hs). pose proof (ti_lock _ _ _ _ Hi _ _ Hc' Hs'). congruence.
Qed.

(** A call that waits for a transition goes on only when the owner of that very
    transition has finished, and with the result the owner stored: an error exactly
    when that is not empty, otherwise it is done or tries again itself.  This is so while
    no GET of a poll fails ([Redis_failed_poll_passes]). *)
Theorem Redis_waiters_see_outcome s ls y i opts x t y' :
  rview s !! tkey name team_id sandboxID = None → Forall prompt ls →
  trun name team_id sandboxID (tsys_init s) ls = Some y →
  tcalls y !! i = Some (Checking opts x t) → tstep name team_id sandboxID y (TOutcome i true) = Some y' →
  ∃ j v, tcalls y !! j = Some (OwnerDone t v) ∧
    tcalls y' !! i = Some (after_transition opts x (if decide (v = "") then None else Some (TFailed v))).
Proof using All.
  intros Hk Hst Hr Hc Hs. pose proof (trun_res _ _ _ _ _ _ (tres_init _ _ _ _ Hk) Hst Hr) as Hi. simpl in Hs. rewrite Hc in Hs. injection Hs as <-.
  destruct (tr_check _ _ _ _ Hi _ _ _ _ Hc) as (j & v & Hj).
  exists j, v. split; [done|]. simpl. rewrite list_lookup_insert_eq by by eapply lookup_lt_Some. do 2 f_equal.
  unfold checkTransitionResult. simpl. rewrite (r_GET _ _ (Some (PText v))) by (unfold str_at; by rewrite (tr_val _ _ _ _ Hi _ _ _ _ Hj eq_refl)).
  case_decide as Hd; [by rewrite Hd|]. apply String.eqb_neq in Hd. by rewrite Hd.
Qed.

(** What the memory backend's critical section decides, in Redis's terms. *)
Definition as_memory {E} (x : Sandbox ID Rest) (c : rcall (ID := ID) (Rest := Rest)) (b : memorySandbox ID Rest) (c' : call E) : Prop :=
  match c, c' with
  | Ended (TErr TNotEvictable), Finished (Failed ErrNotEvictable) => True
  | Ended (TErr (TInvalid cur new)), Finished (Failed (InvalidStateTransition cur' new')) => cur = cur' ∧ new = new'
  | Ended TAlreadyDone, Finished AlreadyDone => True
  | WaitingFor opts y _, Waiting opts' st _ => opts = opts' ∧ y = x ∧ st = SState x
  | Starting opts u, Owning opts' => opts = opts' ∧ data_ b = u
  | _, _ => False
  end.

(** C16: given the same sandbox and the same clocks, and a transition under way in
    the one exactly when in the other, the critical section of the Redis backend
    decides as that of the memory backend: the same refusals, the same calls that
    wait, and the same new sandbox. *)
Theorem Redis_decides_as_memory {E} s x tr (h : list (ErrorOnce E)) opts now now' :
  (is_Some tr ↔ is_Some (transaction name team_id sandboxID s)) →
  let '(b, _, c') := start_enter (mkMemory x tr) h opts now now' in
  as_memory x (check_transition name team_id sandboxID opts x now now' s) b c'.
Proof using All.
  intros Ht. unfold start_enter, check_transition, handleExistingTransition. simpl.
  rewrite (bool_decide_ext _ _ Ht). destruct (Eviction opts && _); [done|]. destruct (Eviction opts && _); [done|].
  destruct tr as [t|], (transaction _ _ _ s) as [t'|]; [|by destruct Ht as [[? ?] _]; eauto|by destruct Ht as [_ [? ?]]; eauto|].
  - case_bool_decide as Heq; simpl; [done|]. by destruct (AllowedTransitions _ _); simpl.
  - case_bool_decide as Heq; simpl; [done|]. destruct (AllowedTransitions _ _); simpl; [|done]. split; [done|].
    destruct (Effect (Action opts)); simpl; [|done]. unfold expire. unfold IsExpired. simpl. by destruct (time_After now' _).
Qed.
End transition_properties.

(** ** Runs *)
#[local] Existing Instances RedisMap.ops RedisMap.laws.
Abbreviation ex_label := (tlabel (ID := bool) (Rest := ())).
Abbreviation ex_trun := (trun (K := ex_keyspace) ex_team true "sbx").
Definition ex_stored : ex_keyspace := (redis_Add ex_team ∅ ex_rs 0 RDone RDone RDone).1.
(** Call [i] up to its transition or its wait. *)
Definition ex_begin (i : nat) (a : StateAction) (now : Z) : list ex_label :=
  [TRequest (mkOpts a false); TObtain i; TRead i true; TCheck i now now true].
Definition ex_close (i : nat) (err : option string) : list ex_label := [TFinish i err true true RDone "" true; TResult i RDone; TDelete i RDone].
Definition ex_kill_run : list ex_label :=
  ex_begin 0 StateActionKill 20 ++ [TScript 0 "t0" RDone] ++ ex_begin 1 StateActionKill 21 ++ ex_close 0 (Some "no such node").

Lemma Redis_one_owner_witness :
  match ex_trun (tsys_init ex_stored) (take 9 ex_kill_run) with
  | Some y => GET (keyspace y) (tkey ex_team true "sbx") = Some (PText "t0")
  | None => False
  end.
Proof.
  assert ((λ y : tsys, tcalls y !! 0%nat) <$> ex_trun (tsys_init ex_stored) (take 9 ex_kill_run) = Some (Some (Owner StateActionKill "t0"))) as Hc
    by by vm_compute.
  destruct (ex_trun _ _) as [y|] eqn:Er; [|done]. simpl in Hc. injection Hc as Hc.
  destruct (Redis_one_owner ex_team true "sbx" ex_stored (take 9 ex_kill_run) y) as (_ & Hk & _); [by vm_compute|by repeat constructor|exact Er|].
  by apply (Hk 0%nat (Owner StateActionKill "t0")).
Defined.
Definition ex_polled : list ex_label := ex_kill_run ++ [TPoll 1 true].
Lemma Redis_waiters_see_outcome_witness :
  match ex_trun (tsys_init ex_stored) ex_polled with
  | Some y => (λ y : tsys, tcalls y !! 1%nat) <$> tstep ex_team true "sbx" y (TOutcome 1 true) = Some (Some (Ended (TErr (TFailed "no such node"))))
  | None => False
  end.
Proof.
  assert (tcalls <$> ex_trun (tsys_init ex_stored) ex_polled = Some
    [OwnerDone "t0" "no such node"; Checking (mkOpts StateActionKill false) (with_state (with_end ex_rs 20) StateKilling) "t0"]) as Hc
    by by vm_compute.
  assert (∃ z, (ex_trun (tsys_init ex_stored) ex_polled ≫= λ y : tsys, (λ y', length (tcalls y')) <$> tstep ex_team true "sbx" y (TOutcome 1 true)) = Some z) as [z Hz]
    by (eexists; by vm_compute).
  destruct (ex_trun _ _) as [y|] eqn:Er; [|discriminate Hc]. cbn [mbind option_bind fmap option_fmap option_map] in Hc, Hz. injection Hc as Hc.
  destruct (tstep ex_team true "sbx" y (TOutcome 1 true)) as [y'|] eqn:Es; [|discriminate Hz].
  destruct (Redis_waiters_see_outcome ex_team true "sbx" ex_stored ex_polled y 1 (mkOpts StateActionKill false)
    (with_state (with_end ex_rs 20) StateKilling) "t0" y') as (j & v & Hj & Hc'); [by vm_compute|by repeat constructor|exact Er|by rewrite Hc|exact Es|].
  simpl. rewrite Hc'. rewrite Hc in Hj. destruct j as [|[|j]]; simpl in Hj; [by injection Hj as <-|done|by rewrite lookup_nil in Hj].
Defined.
(** A GET of a poll fails while a kill is under way: its error counts as the end of the
    transition, whose result is still the empty text that the script left, and the
    second kill reports that the sandbox was removed. *)
Lemma Redis_failed_poll_passes :
  tcalls <$> ex_trun (tsys_init ex_stored) (take 9 ex_kill_run ++ [TPoll 1 false; TOutcome 1 true]) =
    Some [Owner StateActionKill "t0"; Ended TAlreadyDone].
Proof. by vm_compute. Qed.
Lemma Redis_decides_as_memory_witness :
  as_memory ex_rs (check_transition (K := ex_keyspace) ex_team true "sbx" (mkOpts StateActionPause true) ex_rs 60 61 ex_stored)
    (mkMemory (with_state ex_rs StatePausing) (Some 0%nat)) (Owning (E := Empty_set) (mkOpts StateActionPause true)).
Proof.
  apply (Redis_decides_as_memory (E := Empty_set) ex_team true "sbx" ex_stored ex_rs None [] (mkOpts StateActionPause true) 60 61).
  assert (transaction ex_team true "sbx" ex_stored = None) as -> by by vm_compute. split; by intros [].
Defined.

(** A snapshot outlives the TTL of its transition key; a pause is admitted in its
    place; then the snapshot's callback runs. *)
Definition late_callback : list ex_label :=
  ex_begin 0 StateActionSnapshot 20 ++ [TScript 0 "t0" RDone; TExpireTransition] ++ ex_begin 1 StateActionPause 90 ++ [TScript 1 "t1" RDone].
Definition after_late : list ex_label := ex_close 0 None ++ ex_begin 2 StateActionKill 95 ++ [TScript 2 "t2" RDone].

(** The callback deletes the transition key without looking at whose it is.
    After one transition outlived its TTL, the pause that replaced it loses its key
    to the late callback, and a kill is admitted while the pause, whose own key was
    not due, is still under way. *)
Theorem Redis_late_callback_unlocks :
  match ex_trun (tsys_init ex_stored) late_callback with
  | Some y =>
      GET (keyspace y) (tkey ex_team true "sbx") = Some (PText "t1") ∧ Forall steady after_late ∧
      tcalls <$> ex_trun y after_late =
        Some [OwnerDone "t0" ""; Owner StateActionPause "t1"; Owner StateActionKill "t2"]
  | None => False
  end.
Proof.
  assert ((ex_trun (tsys_init ex_stored) late_callback ≫= λ y : tsys,
    (λ c, (GET (keyspace y) (tkey ex_team true "sbx"), c)) <$> (tcalls <$> ex_trun y after_late)) =
    Some (Some (PText "t1"), [OwnerDone "t0" ""; Owner StateActionPause "t1"; Owner StateActionKill "t2"])) as Hc by by vm_compute.
  destruct (ex_trun _ late_callback) as [y|]; [|discriminate Hc]. cbn [mbind option_bind] in Hc.
  destruct (ex_trun y after_late) as [y'|]; [|discriminate Hc]. cbn [fmap option_fmap option_map] in Hc |- *. apply (inj Some), pair_eq in Hc as [Hg ->].
  split; [exact Hg|]. split; [by repeat constructor|done].
Qed.
