(* ===== verification/RedisReservations.v ===== *)
(** * Reservations kept in Redis

    packages/api/internal/sandbox/reservations/redis ([utils.go], [scripts.go],
    [result.go], [reservation.go]): a team's pending creations are a sorted set with
    the second of the reservation as score, counted together with the team's index of
    stored sandboxes against the limit.  A Lua script runs as one step. *)
From S2P Require Import Prelude SandboxState Redis RedisStore.

(** ** utils.go *)
Definition reservationsKey : string := "reservations".
Definition pendingKey : string := "pending".
Definition resultKey : string := "result".
Definition getStorageIndexKey (teamID : string) : string := GetSandboxStorageTeamIndexKey teamID.
Definition getReservationPrefix (teamID : string) : string := CreateKey [GetTeamPrefix teamID; reservationsKey].
Definition getPendingSetKey (teamID : string) : string := CreateKey [getReservationPrefix teamID; pendingKey].
Definition getResultKey (teamID sandboxID : string) : string := CreateKey [getReservationPrefix teamID; sandboxID; resultKey].

(** ** result.go

    A Go error by its text and the [*api.APIError] it wraps, if any: a code and a
    message for the client. *)
Record go_error := mkGoError { err_text : string; err_api : option (Z * string) }.
Record reservationError := mkResErr { Message : string; Code : Z; ClientMsg : string }.
Record reservationResult (T : Type) := mkResult { RSandbox : T; RError : option reservationError }.
Arguments mkResult {T} RSandbox RError.
Arguments RSandbox {T} r.
Arguments RError {T} r.

Definition encodeResult {T} (sbx : T) (err : option go_error) : reservationResult T :=
  mkResult sbx ((λ e, match err_api e with
                      | Some (code, msg) => mkResErr (err_text e) code msg
                      | None => mkResErr (err_text e) 0 ""
                      end) <$> err).
Definition reconstructError (re : reservationError) : go_error :=
  if Code re =? 0 then mkGoError (Message re) None else mkGoError (Message re) (Some (Code re, ClientMsg re)).
Definition decodeResult {T} (r : reservationResult T) : res go_error T :=
  match RError r with Some re => Err (reconstructError re) | None => Ok (RSandbox r) end.

(** ** scripts.go *)
Definition reserveResultReserved : Z := 0.
Definition reserveResultAlreadyInStorage : Z := 1.
Definition reserveResultAlreadyPending : Z := 2.
Definition reserveResultLimitExceeded : Z := 3.

Section scripts.
(** [json] and [unjson] are [encoding/json] on results. *)
Context {P T K : Type} `{RedisOps P K} (json : reservationResult T → P) (unjson : P → option (reservationResult T)).
Implicit Types (s : K).

Definition reserveScript (storageIndex pending result sandboxID : string) (limit now cutoff : Z) s : K * Z :=
  let s := ZREMRANGEBYSCORE s pending cutoff in
  if SISMEMBER s storageIndex sandboxID then (s, reserveResultAlreadyInStorage)
  else match ZSCORE s pending sandboxID with
  | Some _ => (s, reserveResultAlreadyPending)
  | None =>
      if (0 <=? limit) && (limit <=? SCARD s storageIndex + ZCARD s pending) then (s, reserveResultLimitExceeded)
      else (ZADD (DEL s result) pending now sandboxID, reserveResultReserved)
  end.
Definition finishStartScript (pending result sandboxID : string) (data : P) s : K := SET (ZREM s pending sandboxID) result data.
Definition releaseScript (pending result sandboxID : string) s : K := DEL (ZREM s pending sandboxID) result.

(** ** reservation.go *)
Definition staleTTL : Z := 90 * 1000000000.
Inductive redis_reserved := RReserved | RWait | RAlreadyExists | RLimitExceeded | RUnexpected (code : Z) | RScriptError.
(** The clock is read twice. *)
Definition redis_Reserve s (teamID sandboxID : string) (limit now now' : Z) (r : reply) : K * redis_reserved :=
  let run := reserveScript (getStorageIndexKey teamID) (getPendingSetKey teamID) (getResultKey teamID sandboxID) sandboxID limit
               (Unix now) (Unix (now' - staleTTL)) in
  let '(s', err) := send r (λ s, (run s).1) s in
  if err then (s', RScriptError)
  else
    let result := (run s).2 in
    (s', if result =? reserveResultReserved then RReserved
         else if result =? reserveResultAlreadyInStorage then RAlreadyExists
         else if result =? reserveResultAlreadyPending then RWait
         else if result =? reserveResultLimitExceeded then RLimitExceeded
         else RUnexpected result).
Definition redis_Release s (teamID sandboxID : string) (r : reply) : K * bool :=
  send r (releaseScript (getPendingSetKey teamID) (getResultKey teamID sandboxID) sandboxID) s.
(** The callback of a reservation. *)
Definition redis_finishStart s (teamID sandboxID : string) (sbx : T) (startErr : option go_error) (r : reply) : K :=
  (send r (finishStartScript (getPendingSetKey teamID) (getResultKey teamID sandboxID) sandboxID (json (encodeResult sbx startErr))) s).1.

(** [waitForStart]: where its loop stands, and a command of it. *)
Inductive start_wait :=
  | AtResult                          (** before [GET] *)
  | AtPending                         (** no result: before [ZSCORE] *)
  | AtFinal                           (** not pending: before the last [GET] *)
  | Waited (r : res (option go_error) T).   (** [None]: no longer pending, or a Redis error *)
Definition decode_data (data : P) : res (option go_error) T :=
  match unjson data with
  | None => Err None
  | Some r => match decodeResult r with Ok x => Ok x | Err e => Err (Some e) | Panic => Panic end
  end.
Definition wait_step s (teamID sandboxID : string) (w : start_wait) (ok : bool) : start_wait :=
  match w with
  | AtResult => if negb ok then Waited (Err None)
      else match GET s (getResultKey teamID sandboxID) with Some data => Waited (decode_data data) | None => AtPending end
  | AtPending => if negb ok then Waited (Err None)
      else match ZSCORE s (getPendingSetKey teamID) sandboxID with None => AtFinal | Some _ => AtResult end
  | AtFinal => match (if ok then GET s (getResultKey teamID sandboxID) else None) with Some data => Waited (decode_data data) | None => Waited (Err None) end
  | Waited r => Waited r
  end.

(** ** A team's creations

    [creators]: the calls that hold the callback of a reservation, with its second;
    a call stores its sandbox ([redis_Add]) and then runs the callback.  [index_add]
    and [index_remove] are what [redis_Add] and [redis_Remove] do to the index. *)
Context (teamID : string).
Record cstate := mkCState { c_ks : K; c_now : Z; creators : list (string * Z) }.
Inductive clabel :=
  | CReserve (id : string) (limit : Z) (r : reply)
  | CStoreSandbox (i : nat)
  | CFinish (i : nat) (sbx : T) (err : option go_error)
  | CCrash (i : nat)
  | CRemoveSandbox (id : string)
  | CRelease (id : string)
  | CExpireResult (id : string)
  | CTick (now : Z).
Definition cstep (c : cstate) (l : clabel) : option cstate :=
  let s := c_ks c in
  match l with
  | CReserve id limit r =>
      let '(s, o) := redis_Reserve s teamID id limit (c_now c) (c_now c) r in
      Some (mkCState s (c_now c) (match o with RReserved => (id, Unix (c_now c)) :: creators c | _ => creators c end))
  | CStoreSandbox i => (λ e : string * Z, mkCState (SADD s (getStorageIndexKey teamID) e.1) (c_now c) (creators c)) <$> creators c !! i
  | CFinish i sbx err => (λ e : string * Z, mkCState (redis_finishStart s teamID e.1 sbx err RDone) (c_now c) (delete i (creators c))) <$> creators c !! i
  | CCrash i => Some (mkCState s (c_now c) (delete i (creators c)))
  | CRemoveSandbox id => Some (mkCState (SREM s (getStorageIndexKey teamID) id) (c_now c) (creators c))
  | CRelease id => Some (mkCState (redis_Release s teamID id RDone).1 (c_now c) (creators c))
  | CExpireResult id => Some (mkCState (DEL s (getResultKey teamID id)) (c_now c) (creators c))
  | CTick now => if c_now c <=? now then Some (mkCState s now (creators c)) else None
  end.
Fixpoint crun (c : cstate) (ls : list clabel) : option cstate :=
  match ls with [] => Some c | l :: ls => match cstep c l with Some c => crun c ls | None => None end end.
End scripts.
Arguments AtResult {T}.
Arguments AtPending {T}.
Arguments AtFinal {T}.
Arguments Waited {T} r.

(** ** Laws *)
Lemma index_pending_ne t : getStorageIndexKey t ≠ getPendingSetKey t.
Proof.
  unfold getStorageIndexKey, GetSandboxStorageTeamIndexKey, getPendingSetKey, getReservationPrefix, CreateKey. simpl. intros E.
  injection E as E. rewrite !str_app_assoc in E. by do 2 apply str_app_inj in E.
Qed.
Lemma index_result_ne t id : getStorageIndexKey t ≠ getResultKey t id.
Proof.
  unfold getStorageIndexKey, GetSandboxStorageTeamIndexKey, getResultKey, getReservationPrefix, CreateKey. simpl. intros E.
  injection E as E. rewrite !str_app_assoc in E. by do 2 apply str_app_inj in E.
Qed.
Lemma pending_result_ne t id : getPendingSetKey t ≠ getResultKey t id.
Proof.
  unfold getPendingSetKey, getResultKey, getReservationPrefix, CreateKey. simpl. intros E.
  injection E as E. rewrite !str_app_assoc in E. do 2 apply str_app_inj in E. simpl in E. injection E as E.
  do 9 (destruct id as [|? id]; [by simplify_eq/=|simpl in E; simplify_eq/=]).
Qed.

Lemma Unix_sub now : Unix (now - staleTTL) = Unix now - 90.
Proof. unfold Unix, staleTTL. replace (now - 90 * 1000000000) with (now + (-90) * 1000000000) by lia. rewrite Z.div_add by lia. lia. Qed.

Lemma size_le (X Y : gset string) L : X ⊆ Y → Z.of_nat (size Y) ≤ L → Z.of_nat (size X) ≤ L.
Proof. intros HX%subseteq_size. lia. Qed.
Lemma fresh_entry (zs : gmap string Z) (A : gset string) id sc : id ∉ A → zs !! id = None → size (A ∪ dom (<[id := sc]> zs)) = S (size (A ∪ dom zs)).
Proof.
  intros HA Hz. replace (A ∪ dom (<[id := sc]> zs)) with ({[id]} ∪ (A ∪ dom zs)) by (apply leibniz_equiv; rewrite dom_insert; set_solver).
  rewrite size_union, size_singleton; [done|]. apply not_elem_of_dom in Hz. set_solver.
Qed.
Lemma size_union_dom (zs : gmap string Z) (A : gset string) : (size (A ∪ dom zs) ≤ size A + size zs)%nat.
Proof. rewrite size_union_alt, <- (size_dom zs). pose proof (subseteq_size (dom zs ∖ A) (dom zs) ltac:(set_solver)). lia. Qed.
Lemma dom_filter_sub (zs : gmap string Z) hi : dom (filter (λ ms : string * Z, hi < ms.2) zs) ⊆ dom zs.
Proof. apply dom_filter_subseteq. Qed.

Section reservation_laws.
Context {P T K : Type} `{RedisLaws P K} (json : reservationResult T → P) (teamID : string).
Implicit Types (s : K) (c : cstate (K := K)).
Abbreviation idx := (getStorageIndexKey teamID).
Abbreviation pend := (getPendingSetKey teamID).
Abbreviation rsl := (getResultKey teamID).
Abbreviation cstep := (cstep json teamID).
Abbreviation crun := (crun json teamID).

(** The stored sandboxes [A] and the pending ones [zs]. *)
Record counted s (A : gset string) (zs : gmap string Z) : Prop := {
  ct_index : set_at (rview s) idx = Some A;
  ct_pending : zset_at (rview s) pend = Some zs;
}.
Lemma counted_zrem s A zs id : counted s A zs → counted (ZREM s pend id) A (delete id zs).
Proof using All.
  intros [HA Hz]. split; rewrite (r_ZREM _ _ _ _ Hz); [|apply put_zset_at].
  unfold set_at. rewrite put_zset_ne by (apply not_eq_sym, index_pending_ne). exact HA.
Qed.
Lemma counted_zadd s A zs sc id : counted s A zs → counted (ZADD s pend sc id) A (<[id := sc]> zs).
Proof using All.
  intros [HA Hz]. split; rewrite (r_ZADD _ _ _ _ _ Hz); [|apply put_zset_at].
  unfold set_at. rewrite put_zset_ne by (apply not_eq_sym, index_pending_ne). exact HA.
Qed.
Lemma counted_clean s A zs hi : counted s A zs → counted (ZREMRANGEBYSCORE s pend hi) A (filter (λ ms, hi < ms.2) zs).
Proof using All.
  intros [HA Hz]. split; rewrite (r_ZREMRANGEBYSCORE _ _ _ _ Hz); [|apply put_zset_at].
  unfold set_at. rewrite put_zset_ne by (apply not_eq_sym, index_pending_ne). exact HA.
Qed.
Lemma counted_del s A zs id : counted s A zs → counted (DEL s (rsl id)) A zs.
Proof using All.
  intros [HA Hz]. split; unfold set_at, zset_at; rewrite r_DEL, lookup_delete_ne; [exact HA| |exact Hz|];
    apply not_eq_sym; [apply index_result_ne|apply pending_result_ne].
Qed.
Lemma counted_set s A zs id p : counted s A zs → counted (SET s (rsl id) p) A zs.
Proof using All.
  intros [HA Hz]. split; unfold set_at, zset_at; rewrite r_SET, lookup_insert_ne; [exact HA| |exact Hz|];
    apply not_eq_sym; [apply index_result_ne|apply pending_result_ne].
Qed.
Lemma counted_put_set s s' A A' zs : counted s A zs → rview s' = put_set idx A' (rview s) → counted s' A' zs.
Proof using All.
  intros [HA Hz] E. split; rewrite E; [apply put_set_at|]. unfold zset_at. rewrite put_set_ne by apply index_pending_ne. exact Hz.
Qed.

(** [redis_Reserve] on every branch. *)
Lemma Reserve_counted s A zs id limit now now' : counted s A zs →
  let '(s', o) := redis_Reserve s teamID id limit now now' RDone in
  let zs' := filter (λ ms, Unix (now' - staleTTL) < ms.2) zs in
  if decide (id ∈ A) then o = RAlreadyExists ∧ counted s' A zs'
  else if decide (is_Some (zs' !! id)) then o = RWait ∧ counted s' A zs'
  else if decide (0 ≤ limit ≤ Z.of_nat (size A) + Z.of_nat (size zs')) then o = RLimitExceeded ∧ counted s' A zs'
  else o = RReserved ∧ counted s' A (<[id := Unix now]> zs').
Proof using All.
  intros Hc. unfold redis_Reserve, reserveScript. simpl. set (zs' := filter _ zs). set (s1 := ZREMRANGEBYSCORE _ _ _).
  assert (counted s1 A zs') as Hc1 by by apply counted_clean.
  rewrite (r_SISMEMBER _ _ _ _ (ct_index _ _ _ Hc1)), (r_ZSCORE _ _ _ _ (ct_pending _ _ _ Hc1)),
    (r_SCARD _ _ _ (ct_index _ _ _ Hc1)), (r_ZCARD _ _ _ (ct_pending _ _ _ Hc1)).
  case_bool_decide; [by rewrite decide_True|rewrite decide_False by done].
  destruct (zs' !! id) as [sc|] eqn:Ez; [by rewrite decide_True by eauto|rewrite decide_False by (by intros [])].
  destruct (Z.leb_spec 0 limit), (Z.leb_spec limit (Z.of_nat (size A) + Z.of_nat (size zs'))); cbn [andb]; try lia;
    first [rewrite decide_True by lia|rewrite decide_False by lia]; (split; [reflexivity|]); simpl; [exact Hc1|by apply counted_zadd, counted_del..].
Qed.

(** The limits are at most [L]. *)
Definition limited (L : Z) (l : clabel (T := T)) : Prop := match l with CReserve _ limit _ => 0 ≤ limit ≤ L | _ => True end.
#[global] Instance limited_dec L l : Decision (limited L l).
Proof using. destruct l; simpl; apply _. Defined.
(** Sandboxes that are stored when their reservation is gone: it was older than
    [staleTTL] at another call, or it was released. *)
Definition uncounted_step c (l : clabel (T := T)) : nat :=
  match l with
  | CStoreSandbox i => match creators c !! i with
                       | Some e => match ZSCORE (c_ks c) pend e.1 with Some _ => 0 | None => 1 end
                       | None => 0
                       end
  | _ => 0
  end.
Fixpoint uncounted c (ls : list (clabel (T := T))) : nat :=
  match ls with [] => 0 | l :: ls => uncounted_step c l + match cstep c l with Some c => uncounted c ls | None => 0 end end.
(** No creation outlives [staleTTL], and an ID is not released while it is being
    created. *)
Definition timely c (l : clabel (T := T)) : Prop :=
  match l with
  | CTick now => ∀ e, e ∈ creators c → Unix (now - staleTTL) < e.2
  | CRelease id => id ∉ (creators c).*1
  | _ => True
  end.
Fixpoint all_timely c (ls : list (clabel (T := T))) : Prop :=
  match ls with [] => True | l :: ls => timely c l ∧ match cstep c l with Some c => all_timely c ls | None => True end end.
#[global] Instance timely_dec c l : Decision (timely c l).
Proof using.
  destruct l; simpl; try apply _. destruct (decide (Forall (λ e, Unix (now - staleTTL) < e.2) (creators c))) as [Hf|Hf];
    rewrite Forall_forall in Hf; [by left|by right].
Defined.
#[global] Instance all_timely_dec c ls : Decision (all_timely c ls).
Proof using.
  revert c. induction ls as [|l ls IH]; intros c; simpl; [apply _|]. destruct (cstep c l); apply _.
Defined.

(** ** The count, in any run *)
Lemma limit_reserve c A zs id limit r c' L n : counted (c_ks c) A zs → Z.of_nat (size (A ∪ dom zs)) ≤ L + n → 0 ≤ n → limit ≤ L → 0 ≤ limit →
  cstep c (CReserve id limit r) = Some c' → ∃ A' zs', counted (c_ks c') A' zs' ∧ Z.of_nat (size (A' ∪ dom zs')) ≤ L + n.
Proof using All.
  intros Hc Hsz Hn HL H0' Hs. simpl in Hs. pose proof (Reserve_counted (c_ks c) A zs id limit (c_now c) (c_now c) Hc) as Hr. cbv zeta in Hr.
  set (zs' := filter _ zs) in Hr.
  assert (Z.of_nat (size (A ∪ dom zs')) ≤ L + n) as Hsz'.
  { eapply size_le; [|exact Hsz]. pose proof (dom_filter_sub zs (Unix (c_now c - staleTTL))) as Hd. fold zs' in Hd. set_solver. }
  assert (c_ks c' = (redis_Reserve (c_ks c) teamID id limit (c_now c) (c_now c) r).1) as ->.
  { destruct (redis_Reserve _ _ _ _ _ _ r) as [s' o]. by injection Hs as <-. }
  clear Hs. destruct (redis_Reserve (c_ks c) teamID id limit (c_now c) (c_now c) RDone) as [s' o] eqn:Ed.
  assert (counted s' A zs' ∨ counted s' A (<[id := Unix (c_now c)]> zs') ∧ Z.of_nat (size (A ∪ dom (<[id := Unix (c_now c)]> zs'))) ≤ L + n) as Hcase.
  { destruct (decide (id ∈ A)); [left; apply Hr|]. destruct (decide (is_Some (zs' !! id))) as [|Hz%eq_None_not_Some]; [left; apply Hr|].
    destruct (decide (0 ≤ limit ≤ _)); [left; apply Hr|]. right. split; [apply Hr|]. rewrite fresh_entry by done.
    pose proof (size_union_dom zs' A). lia. }
  assert ((redis_Reserve (c_ks c) teamID id limit (c_now c) (c_now c) r).1 = match r with RFailed => c_ks c | _ => s' end) as ->.
  { unfold redis_Reserve in *. destruct r; simpl in *; congruence. }
  destruct r; [destruct Hcase as [?|[? ?]]; eauto..|eauto].
Qed.
Lemma limit_step c A zs l c' L n : counted (c_ks c) A zs → Z.of_nat (size (A ∪ dom zs)) ≤ L + n → 0 ≤ n → limited L l →
  cstep c l = Some c' → ∃ A' zs', counted (c_ks c') A' zs' ∧ Z.of_nat (size (A' ∪ dom zs')) ≤ L + n + Z.of_nat (uncounted_step c l).
Proof using All.
  intros Hc Hsz Hn Hl Hs. assert (∀ (A' : gset string) (zs' : gmap string Z), A' ∪ dom zs' ⊆ A ∪ dom zs → Z.of_nat (size (A' ∪ dom zs')) ≤ L + n) as Hsub.
  { intros A' zs' Hsub. by eapply size_le. }
  destruct l as [id limit r|i|i sbx err|i|id|id|id|now].
  - destruct Hl as [H0' HL]. destruct (limit_reserve _ _ _ _ _ _ _ _ _ Hc Hsz Hn HL H0' Hs) as (A' & zs' & ? & ?). exists A', zs'. simpl. split; [done|lia].
  - simpl in *. destruct (creators c !! i) as [e|]; [|done]. injection Hs as <-. exists ({[e.1]} ∪ A), zs. split.
    + eapply counted_put_set; [exact Hc|]. apply r_SADD, Hc.
    + rewrite (r_ZSCORE _ _ _ _ (ct_pending _ _ _ Hc)). destruct (zs !! e.1) as [sc|] eqn:Ez.
      * apply elem_of_dom_2 in Ez. specialize (Hsub ({[e.1]} ∪ A) zs ltac:(set_solver)). lia.
      * assert (size ({[e.1]} ∪ A ∪ dom zs) ≤ S (size (A ∪ dom zs)))%nat as Hs1; [|lia].
        rewrite <- (assoc_L (∪)), size_union_alt, size_singleton. pose proof (subseteq_size ((A ∪ dom zs) ∖ {[e.1]}) (A ∪ dom zs) ltac:(set_solver)). lia.
  - simpl in *. destruct (creators c !! i) as [e|]; [|done]. injection Hs as <-. exists A, (delete e.1 zs).
    split; [simpl; by apply counted_set, counted_zrem|]. rewrite Z.add_0_r. apply Hsub. rewrite dom_delete. set_solver.
  - simpl in *. injection Hs as <-. exists A, zs. split; [done|]. rewrite Z.add_0_r. by apply Hsub.
  - simpl in *. injection Hs as <-. exists (A ∖ {[id]}), zs. split; [eapply counted_put_set; [exact Hc|]; apply r_SREM, Hc|].
    rewrite Z.add_0_r. apply Hsub. set_solver.
  - simpl in *. injection Hs as <-. exists A, (delete id zs). split; [simpl; by apply counted_del, counted_zrem|].
    rewrite Z.add_0_r. apply Hsub. rewrite dom_delete. set_solver.
  - simpl in *. injection Hs as <-. exists A, zs. split; [by apply counted_del|]. rewrite Z.add_0_r. by apply Hsub.
  - simpl in *. destruct (c_now c <=? now); [|done]. injection Hs as <-. exists A, zs. split; [done|]. rewrite Z.add_0_r. by apply Hsub.
Qed.
Lemma limit_run c A zs ls c' L n : counted (c_ks c) A zs → Z.of_nat (size (A ∪ dom zs)) ≤ L + n → 0 ≤ n → Forall (limited L) ls →
  crun c ls = Some c' → ∃ A' zs', counted (c_ks c') A' zs' ∧ Z.of_nat (size (A' ∪ dom zs')) ≤ L + n + Z.of_nat (uncounted c ls).
Proof using All.
  revert c A zs n. induction ls as [|l ls IH]; intros c A zs n Hc Hsz Hn Hf Hr; simpl in Hr.
  - injection Hr as <-. exists A, zs. simpl. split; [done|lia].
  - inversion Hf; subst. cbn [uncounted]. destruct (cstep c l) as [c1|] eqn:El; [|done].
    destruct (limit_step _ _ _ _ _ _ _ Hc Hsz Hn ltac:(done) El) as (A1 & zs1 & Hc1 & Hsz1).
    destruct (IH c1 A1 zs1 (n + Z.of_nat (uncounted_step c l)) Hc1 ltac:(lia) ltac:(lia) ltac:(done) Hr) as (A2 & zs2 & Hc2 & Hsz2).
    exists A2, zs2. split; [done|lia].
Qed.

(** ** Creations that keep their reservation *)
Record cinv c A zs : Prop := {
  ci_counted : counted (c_ks c) A zs;
  ci_pending e : e ∈ creators c → zs !! e.1 = Some e.2 ∧ Unix (c_now c - staleTTL) < e.2;
  ci_nodup : NoDup (creators c).*1;
}.

(** A script that keeps the other creations. *)
Lemma cinv_shrink c A zs c' A' zs' : cinv c A zs → counted (c_ks c') A' zs' → c_now c' = c_now c →
  creators c' `sublist_of` creators c → (∀ e, e ∈ creators c' → zs' !! e.1 = zs !! e.1) → cinv c' A' zs'.
Proof using.
  intros [Hc Hp Hn] Hc' Hnow Hcr Hk. split; [done|..].
  - intros e He. rewrite Hk, Hnow by done. apply Hp. by eapply elem_of_submseteq, sublist_submseteq.
  - eapply sublist_NoDup; [exact Hn|]. by apply fmap_sublist.
Qed.
Lemma creators_delete c i e : creators c !! i = Some e → NoDup (creators c).*1 → ∀ e', e' ∈ delete i (creators c) → e'.1 ≠ e.1.
Proof using.
  intros Hi Hn e' He' Heq. pose proof (take_drop_middle _ _ _ Hi) as E. rewrite delete_take_drop in He'. rewrite <- E, fmap_app in Hn.
  apply NoDup_app in Hn as (_ & Hd & Hn). apply NoDup_cons in Hn as [Hn _]. apply elem_of_app in He' as [He'|He'].
  - apply (Hd e'.1); [apply list_elem_of_fmap; eauto|]. rewrite Heq. by left.
  - apply Hn. rewrite <- Heq. apply list_elem_of_fmap; eauto.
Qed.
Lemma reserve_inv c A zs id limit r c' : cinv c A zs → cstep c (CReserve id limit r) = Some c' → ∃ A' zs', cinv c' A' zs'.
Proof using All.
  intros Hi Hs. simpl in Hs. pose proof (Reserve_counted (c_ks c) A zs id limit (c_now c) (c_now c) (ci_counted _ _ _ Hi)) as Hr.
  assert (∀ s' o, redis_Reserve (c_ks c) teamID id limit (c_now c) (c_now c) RDone = (s', o) →
    redis_Reserve (c_ks c) teamID id limit (c_now c) (c_now c) r =
      match r with RDone => (s', o) | RLost => (s', RScriptError) | RFailed => (c_ks c, RScriptError) end) as Hcase.
  { intros s' o. unfold redis_Reserve. destruct r; simpl; [done| |done]. by intros [= <- _]. }
  destruct (redis_Reserve _ _ _ _ _ _ RDone) as [s' o]. rewrite (Hcase s' o eq_refl) in Hs. clear Hcase. cbv zeta in Hr.
  set (zs' := filter _ zs) in Hr.
  assert (∀ e, e ∈ creators c → zs' !! e.1 = zs !! e.1) as Hkeep.
  { intros e He. destruct (ci_pending _ _ _ Hi e He) as [Hp Hlt]. rewrite Hp. by apply map_lookup_filter_Some_2. }
  assert (∀ s'', counted s'' A zs' → cinv (mkCState s'' (c_now c) (creators c)) A zs') as Hclean.
  { intros s'' Hc''. eapply cinv_shrink; [exact Hi|exact Hc''|done|done|exact Hkeep]. }
  assert (o ≠ RReserved → counted s' A zs' → ∃ A' zs', cinv c' A' zs') as Hsame.
  { intros Ho Hc'. destruct r; injection Hs as <-; [destruct o; try done; eauto|eauto|destruct c; eauto]. }
  destruct (decide (id ∈ A)) as [|HA]; [destruct Hr as [-> Hr]; by apply Hsame|].
  destruct (decide (is_Some (zs' !! id))) as [|Hz]; [destruct Hr as [-> Hr]; by apply Hsame|].
  destruct (decide (0 ≤ limit ≤ _)) as [|Hlim]; [destruct Hr as [-> Hr]; by apply Hsame|]. destruct Hr as [-> Hr].
  apply eq_None_not_Some in Hz.
  assert (∀ e, e ∈ creators c → e.1 ≠ id) as Hne.
  { intros e He <-. destruct (ci_pending _ _ _ Hi e He) as [Hp _]. by rewrite <- Hkeep, Hz in Hp. }
  assert (∀ e, e ∈ creators c → <[id := Unix (c_now c)]> zs' !! e.1 = Some e.2 ∧ Unix (c_now c - staleTTL) < e.2) as Hold.
  { intros e He. rewrite lookup_insert_ne by by apply not_eq_sym, Hne. rewrite Hkeep by done. by apply (ci_pending _ _ _ Hi). }
  destruct r; injection Hs as <-; [| |destruct c; eauto].
  - exists A, (<[id := Unix (c_now c)]> zs'). split; simpl; [done| |].
    + intros e [->|He]%elem_of_cons; [|by apply Hold]. simpl. rewrite lookup_insert_eq, Unix_sub. split; [done|lia].
    + apply NoDup_cons. split; [|apply Hi]. intros (e & -> & He)%list_elem_of_fmap. by apply (Hne e).
  - exists A, (<[id := Unix (c_now c)]> zs'). split; simpl; [done|done|apply Hi].
Qed.
Lemma cstep_inv c A zs l c' : cinv c A zs → timely c l → cstep c l = Some c' → uncounted_step c l = 0%nat ∧ ∃ A' zs', cinv c' A' zs'.
Proof using All.
  intros Hi Hf Hs. pose proof (ci_counted _ _ _ Hi) as Hc.
  destruct l as [id limit r|i|i sbx err|i|id|id|id|now]; try (split; [done|]).
  - by eapply reserve_inv.
  - simpl in *. destruct (creators c !! i) as [e|] eqn:Ei; [|done]. injection Hs as <-.
    destruct (ci_pending _ _ _ Hi e) as [Hp _]; [by eapply list_elem_of_lookup_2|]. rewrite (r_ZSCORE _ _ _ _ (ct_pending _ _ _ Hc)), Hp. split; [done|].
    exists ({[e.1]} ∪ A), zs. eapply cinv_shrink; [exact Hi| |done..]. eapply counted_put_set; [exact Hc|]. apply r_SADD, Hc.
  - simpl in Hs. destruct (creators c !! i) as [e|] eqn:Ei; [|done]. injection Hs as <-. exists A, (delete e.1 zs).
    eapply cinv_shrink; [exact Hi|simpl; by apply counted_set, counted_zrem|done|apply sublist_delete|].
    intros e' He'. apply lookup_delete_ne, not_eq_sym. by eapply creators_delete; [exact Ei|apply Hi|].
  - injection Hs as <-. exists A, zs. eapply cinv_shrink; [exact Hi|exact Hc|done|apply sublist_delete|done].
  - injection Hs as <-. exists (A ∖ {[id]}), zs. eapply cinv_shrink; [exact Hi| |done..].
    eapply counted_put_set; [exact Hc|]. apply r_SREM, Hc.
  - injection Hs as <-. exists A, (delete id zs).
    eapply cinv_shrink; [exact Hi|simpl; by apply counted_del, counted_zrem|done..|].
    intros e' He'. apply lookup_delete_ne. intros ->. apply Hf, list_elem_of_fmap. eauto.
  - injection Hs as <-. exists A, zs. eapply cinv_shrink; [exact Hi|by apply counted_del|done..].
  - simpl in Hs. destruct (c_now c <=? now); [|done]. injection Hs as <-. exists A, zs. destruct Hi as [? Hp ?]. split; try done.
    intros e He. simpl. split; [by apply Hp|by apply Hf].
Qed.
Lemma crun_inv c A zs ls c' : cinv c A zs → all_timely c ls → crun c ls = Some c' → uncounted c ls = 0%nat ∧ ∃ A' zs', cinv c' A' zs'.
Proof using All.
  revert c A zs. induction ls as [|l ls IH]; intros c A zs Hi Ha Hr; cbn [RedisReservations.crun uncounted all_timely] in *; [simplify_eq; eauto|].
  destruct Ha as [Hf Ha]. destruct (cstep c l) as [c1|] eqn:El; [|done]. destruct (cstep_inv _ _ _ _ _ Hi Hf El) as (-> & A1 & zs1 & Hi1). by eapply IH.
Qed.
End reservation_laws.

(** ** Properties *)
Section reservation_properties.
Context {P T K : Type} `{RedisLaws P K} (json : reservationResult T → P) (teamID : string).

(** C15: in any interleaving of reservations, stored sandboxes, finished and crashed
    creations, removals, releases, lost answers and the clock, with limits between 0
    and [L] (a negative limit is none), a team's stored and pending sandboxes together exceed [L] by at most the
    number of sandboxes that were stored by a creation whose reservation was gone by
    then, because the creation took longer than the 90 seconds after which it counts
    as stale, or because its ID was released under it (a removal of the same ID
    releases it: [Redis_release_grants_twice]).  When neither happens in the run there
    are none of these: the limit is kept, an ID is being created at most once, and
    every creation under way has its own entry in the pending set. *)
Theorem Redis_reservations_within_limit (s : K) L now ls c :
  rview s = ∅ → 0 ≤ L → Forall (limited L) ls → crun json teamID (mkCState s now []) ls = Some c →
  Z.of_nat (size (list_to_set (SMEMBERS (c_ks c) (getStorageIndexKey teamID)) ∪
                  list_to_set (ZRANGE (c_ks c) (getPendingSetKey teamID)).*1 : gset string)) ≤
    L + Z.of_nat (uncounted json teamID (mkCState s now []) ls) ∧
  (all_timely json teamID (mkCState s now []) ls →
   uncounted json teamID (mkCState s now []) ls = 0%nat ∧
   NoDup (creators c).*1 ∧ ∀ e, e ∈ creators c → ZSCORE (c_ks c) (getPendingSetKey teamID) e.1 = Some e.2).
Proof using All.
  intros Hs HL Hlim Hr. assert (counted teamID s ∅ ∅) as Hc0 by by split; unfold set_at, zset_at; rewrite Hs, lookup_empty. split.
  - destruct (limit_run json teamID (mkCState s now []) ∅ ∅ ls c L 0 Hc0) as (A & zs & [HA Hz] & Hsz); [|done..|].
    { rewrite dom_empty_L, union_empty_l_L, size_empty. lia. }
    rewrite Z.add_0_r in Hsz. eapply size_le; [|exact Hsz]. rewrite (r_SMEMBERS _ _ _ HA). destruct (r_ZRANGE _ _ _ Hz) as [Hzr _]. rewrite Hzr.
    intros id. rewrite elem_of_union, !elem_of_list_to_set, elem_of_elements, elem_of_union, elem_of_dom. intros [?|Hin]; [by left|right].
    apply list_elem_of_fmap in Hin as ([id' sc] & -> & Hin%elem_of_map_to_list). eauto.
  - intros Ht. assert (cinv teamID (mkCState s now []) ∅ ∅) as Hi by (split; simpl; [done|set_solver|constructor]).
    destruct (crun_inv json teamID _ _ _ _ _ Hi Ht Hr) as (-> & A & zs & [[HA Hz] Hp Hn]). split_and!; [done..|].
    intros e He. rewrite (r_ZSCORE _ _ _ _ Hz). by apply Hp.
Qed.

Context (unjson : P → option (reservationResult T)).
Hypothesis json_inv : ∀ r, unjson (json r) = Some r.

(** A waiter whose poll comes after the creator's callback gets what the
    creator reported: its sandbox, or an error with the same text and, for an API
    error with a code, the same code and client message. *)
Theorem Redis_result_reaches_waiter (s : K) id sbx err A zs w :
  counted teamID s A zs → w = AtResult ∨ w = AtFinal →
  wait_step unjson (redis_finishStart json s teamID id sbx err RDone) teamID id w true =
    Waited (match err with
            | None => Ok sbx
            | Some e => Err (Some (mkGoError (err_text e)
                (match err_api e with Some (code, msg) => if decide (code = 0) then None else Some (code, msg) | None => None end)))
            end).
Proof using All.
  intros Hc Hw. unfold redis_finishStart, finishStartScript. simpl.
  assert (∀ k p s', GET (SET s' k p) k = Some p) as Hget.
  { intros k p s'. apply r_GET. unfold str_at. by rewrite r_SET, lookup_insert_eq. }
  assert (decode_data unjson (json (encodeResult sbx err)) = match err with
            | None => Ok sbx
            | Some e => Err (Some (mkGoError (err_text e)
                (match err_api e with Some (code, msg) => if decide (code = 0) then None else Some (code, msg) | None => None end)))
            end) as Hd.
  { unfold decode_data. rewrite json_inv. destruct err as [[text [[code msg]|]]|]; simpl; [|done|done]. unfold decodeResult, reconstructError. simpl.
    case_decide as Hz; [by rewrite Hz|]. apply Z.eqb_neq in Hz. by rewrite Hz. }
  destruct Hw as [->| ->]; simpl; by rewrite Hget, Hd.
Qed.
End reservation_properties.

(** ** Runs *)
#[local] Existing Instances RedisMap.ops RedisMap.laws.
Abbreviation ex_ks := (RedisMap.t (reservationResult nat)).
Abbreviation ex_crun := (crun (T := nat) (K := ex_ks) id "team").
Definition sec (n : Z) : Z := n * 1000000000.
Definition ex_creation : list (clabel (T := nat)) :=
  [CReserve "a" 3 RDone; CStoreSandbox 0; CTick (sec 130); CReserve "b" 3 RDone; CReserve "c" 3 RDone; CFinish 1 7%nat None].

Lemma Redis_reservations_within_limit_witness :
  match ex_crun (mkCState ∅ (sec 100) []) ex_creation with
  | Some c => creators c = [("b", 130)] ∧ ZSCORE (c_ks c) (getPendingSetKey "team") "b" = Some 130
  | None => False
  end.
Proof.
  assert (creators <$> ex_crun (mkCState ∅ (sec 100) []) ex_creation = Some [("b", 130)]) as Hcr by by vm_compute.
  destruct (ex_crun _ ex_creation) as [c|] eqn:Er; [|discriminate Hcr]. cbn [fmap option_fmap option_map] in Hcr. injection Hcr as Hcr.
  destruct (Redis_reservations_within_limit (T := nat) id "team" (∅ : ex_ks) 3 (sec 100) ex_creation c) as (_ & Hp); [done|done| |exact Er|].
  - apply (bool_decide_unpack _). by vm_compute.
  - destruct Hp as (_ & _ & Hp); [apply (bool_decide_unpack _); by vm_compute|]. split; [exact Hcr|]. apply (Hp ("b", 130)). rewrite Hcr. by left.
Defined.

Lemma Redis_result_reaches_waiter_witness :
  wait_step Some (redis_finishStart id (∅ : ex_ks) "team" "a" 7%nat (Some (mkGoError "no node" (Some (503, "busy")))) RDone) "team" "a" AtFinal true =
    Waited (Err (Some (mkGoError "no node" (Some (503, "busy"))))).
Proof.
  by rewrite (Redis_result_reaches_waiter (T := nat) id "team" Some (λ r, eq_refl) (∅ : ex_ks) "a" 7%nat
    (Some (mkGoError "no node" (Some (503, "busy")))) ∅ ∅ AtFinal); [|split|right].
Defined.

(** [Store.Remove] removes the sandbox and then releases its ID.  A creation
    that reserved the same ID in between loses its pending entry to that release,
    and the same ID is granted to a second creation while the first is under way. *)
Theorem Redis_release_grants_twice :
  creators <$> ex_crun (mkCState (SADD (∅ : ex_ks) (getStorageIndexKey "team") "a") (sec 100) [])
    [CReserve "a" 5 RDone; CRemoveSandbox "a"; CReserve "a" 5 RDone; CRelease "a"; CReserve "a" 5 RDone] =
  Some [("a", 100); ("a", 100)].
Proof. by vm_compute. Qed.

(** A creation that takes longer than [staleTTL] is no longer counted: with a limit
    of one, two sandboxes are stored. *)
Definition ex_stale_run : list (clabel (T := nat)) :=
  [CReserve "a" 1 RDone; CTick (sec 191); CReserve "b" 1 RDone; CStoreSandbox 1; CStoreSandbox 0].
Lemma Redis_stale_reservation_over_limit :
  (λ c : cstate, SCARD (c_ks c) (getStorageIndexKey "team")) <$> ex_crun (mkCState (∅ : ex_ks) (sec 100) []) ex_stale_run = Some 2 ∧
  uncounted id "team" (mkCState (∅ : ex_ks) (sec 100) []) ex_stale_run = 1%nat.
Proof. by vm_compute. Qed.
(** Between the write of the sandbox and the callback a creation counts twice. *)
Lemma Redis_creation_counts_twice :
  creators <$> ex_crun (mkCState (∅ : ex_ks) (sec 100) []) [CReserve "a" 2 RDone; CStoreSandbox 0; CReserve "b" 2 RDone] =
  Some [("a", 100)].
Proof. by vm_compute. Qed.
