(* ===== verification/RedisLocks.v ===== *)
(** * The keys of the Redis backend, under its locks

    Every command that the API's instances send for their sandboxes, in any
    interleaving: operations.go, items.go and state_change.go of
    packages/api/internal/sandbox/storage/redis and reservations/redis/scripts.go.
    [Remove], [Update] and [StartRemoving] send theirs under the lock of the sandbox's
    key; a session is a holder of that lock, with the sandbox it has read.  A lock can
    expire (its TTL is a minute) while its holder goes on. *)
From Stdlib Require Import Ascii.
From S2P Require Import Prelude SandboxState Redis RedisStore RedisTransition RedisReservations.

(** ** Keys *)
Lemma CreateKey_assoc a b c : CreateKey [CreateKey [a; b]; c] = CreateKey [a; CreateKey [b; c]].
Proof. unfold CreateKey. simpl. by rewrite !str_app_assoc. Qed.
Lemma transition_key_parts t id : getTransitionKey t id = CreateKey [GetTeamPrefix t; CreateKey [transitionKeyPrefix; id]].
Proof. done. Qed.
Lemma transition_result_parts t id tid :
  getTransitionResultKey t id tid = CreateKey [GetTeamPrefix t; CreateKey [transitionKeyPrefix; CreateKey [id; tid]]].
Proof. unfold getTransitionResultKey. rewrite transition_key_parts, CreateKey_assoc. done. Qed.
Lemma pending_parts t : getPendingSetKey t = CreateKey [GetTeamPrefix t; CreateKey [reservationsKey; pendingKey]].
Proof. unfold getPendingSetKey, getReservationPrefix. by rewrite CreateKey_assoc. Qed.
Lemma result_parts t id : getResultKey t id = CreateKey [GetTeamPrefix t; CreateKey [reservationsKey; CreateKey [id; resultKey]]].
Proof.
  unfold getResultKey, getReservationPrefix.
  change (CreateKey [CreateKey [GetTeamPrefix t; reservationsKey]; CreateKey [id; resultKey]] =
    CreateKey [GetTeamPrefix t; CreateKey [reservationsKey; CreateKey [id; resultKey]]]). by rewrite CreateKey_assoc.
Qed.

(** ** Sessions *)
Section locks.
Context {ID Rest K : Type} `{Countable ID} `{RedisOps (payload ID Rest) K}.
Context (team : ID → string).
Abbreviation Sandbox := (Sandbox ID Rest).
Implicit Types (s : K) (x : Sandbox).

(** What the holder of a lock has read. *)
Abbreviation session := (option Sandbox).
Inductive action :=
  | ARead                                    (** [GET] of the sandbox's key *)
  | ARemove                                  (** [removeSandboxScript] *)
  | AUpdate (y : Sandbox)                    (** [SET] of what [updateFunc] returned *)
  | AStart (y : Sandbox) (transitionID : string).   (** [startTransitionScript] *)
Definition same_identity (x y : Sandbox) : Prop := TeamID y = TeamID x ∧ SandboxID y = SandboxID x.
#[global] Instance same_identity_dec x y : Decision (same_identity x y).
Proof. unfold same_identity. apply _. Defined.

(** One command of a session; the operations write only what they made of the
    sandbox they read, whose team and ID their functions keep. *)
Definition act (t : ID) (id : string) (a : action) (r : session) s : option (K * session) :=
  match a with
  | ARead => Some (s, match decode (E := False) (GET s (getSandboxKey (team t) id)) with Ok x => Some x | _ => None end)
  | ARemove => Some (exec team (CForget t id) s, None)
  | AUpdate y =>
      match r with
      | Some x => if decide (same_identity x y) then Some (SET s (getSandboxKey (team t) id) (PSandbox y), r) else None
      | None => None
      end
  | AStart y tid =>
      match r with
      | Some x => if decide (same_identity x y) then Some (startTransitionScript team t id y tid s, r) else None
      | None => None
      end
  end.

Record lsys := mkLsys {
  l_keys : K;
  l_locks : gmap (ID * string) session;      (** the locks that are held *)
  l_lost : list (ID * string * session);     (** sessions whose lock has expired *)
}.
Inductive llabel :=
  | LCommand (c : redis_command (ID := ID) (Rest := Rest))
  | LObtain (t : ID) (id : string)
  | LAct (t : ID) (id : string) (a : action)
  | LRelease (t : ID) (id : string)
  | LLose (t : ID) (id : string)             (** the TTL of the lock *)
  | LLate (n : nat) (a : action)             (** a session goes on without its lock *)
  | LOutcome (t : ID) (id tid v : string)    (** the callback's [SET] of its result *)
  | LDone (t : ID) (id : string)             (** its [DEL], or the key's TTL *)
  | LExpireOutcome (t : ID) (id tid : string)
  | LReserve (t : ID) (id : string) (limit now cutoff : Z)
  | LFinish (t : ID) (id json : string)
  | LRelinquish (t : ID) (id : string)       (** [releaseScript] *)
  | LExpireResult (t : ID) (id : string).
(** The commands that are sent without the lock. *)
Definition unlocked (c : redis_command (ID := ID) (Rest := Rest)) : bool :=
  match c with CForget _ _ | CSet _ => false | _ => true end.

Definition lstep (y : lsys) (l : llabel) : option lsys :=
  let s := l_keys y in
  let send s := Some (mkLsys s (l_locks y) (l_lost y)) in
  match l with
  | LCommand c => if unlocked c then send (exec team c s) else None
  | LObtain t id => match l_locks y !! (t, id) with Some _ => None | None => Some (mkLsys s (<[(t, id) := None]> (l_locks y)) (l_lost y)) end
  | LAct t id a =>
      match l_locks y !! (t, id) with
      | Some r => (λ sr : K * session, mkLsys sr.1 (<[(t, id) := sr.2]> (l_locks y)) (l_lost y)) <$> act t id a r s
      | None => None
      end
  | LRelease t id => Some (mkLsys s (delete (t, id) (l_locks y)) (l_lost y))
  | LLose t id =>
      match l_locks y !! (t, id) with
      | Some r => Some (mkLsys s (delete (t, id) (l_locks y)) (l_lost y ++ [(t, id, r)]))
      | None => None
      end
  | LLate n a =>
      match l_lost y !! n with
      | Some (t, id, r) => (λ sr : K * session, mkLsys sr.1 (l_locks y) (<[n := (t, id, sr.2)]> (l_lost y))) <$> act t id a r s
      | None => None
      end
  | LOutcome t id tid v => send (SET s (getTransitionResultKey (team t) id tid) (PText v))
  | LDone t id => send (DEL s (getTransitionKey (team t) id))
  | LExpireOutcome t id tid => send (DEL s (getTransitionResultKey (team t) id tid))
  | LReserve t id limit now cutoff =>
      send (reserveScript (getStorageIndexKey (team t)) (getPendingSetKey (team t)) (getResultKey (team t) id) id limit now cutoff s).1
  | LFinish t id json => send (finishStartScript (getPendingSetKey (team t)) (getResultKey (team t) id) id (PText json) s)
  | LRelinquish t id => send (releaseScript (getPendingSetKey (team t)) (getResultKey (team t) id) id s)
  | LExpireResult t id => send (DEL s (getResultKey (team t) id))
  end.
Fixpoint lrun (y : lsys) (ls : list llabel) : option lsys :=
  match ls with [] => Some y | l :: ls => match lstep y l with Some y => lrun y ls | None => None end end.
Definition keeps_lock (l : llabel) : bool := match l with LLose _ _ => false | _ => true end.
End locks.

(** ** The invariant *)
Section lock_laws.
Context {ID Rest K : Type} `{Countable ID} `{RedisLaws (payload ID Rest) K}.
Context (team : ID → string).
Hypothesis team_names : ∀ i, team_name (team i).
Context `{!Inj (=) (=) team}.
Abbreviation Sandbox := (Sandbox ID Rest).
Abbreviation lsys := (lsys (ID := ID) (Rest := Rest) (K := K)).
Implicit Types (s : K) (x : Sandbox) (y : lsys).

(** The keys that are ever written, with the kind of their value. *)
Definition key_ok (k : string) (v : rvalue (payload ID Rest)) : Prop :=
  match v with
  | RStr (PSandbox x) => k = getSandboxKey (team (TeamID x)) (SandboxID x)
  | RStr (PText _) => ∃ i id, k = getTransitionKey (team i) id ∨ (∃ tid, k = getTransitionResultKey (team i) id tid) ∨ k = getResultKey (team i) id
  | RSet _ => ∃ i, k = GetSandboxStorageTeamIndexKey (team i)
  | RZSet _ => k = globalExpirationSet ∨ k = globalTeamsSet ∨ ∃ i, k = getPendingSetKey (team i)
  end.
Definition keys_ok s : Prop := map_Forall key_ok (rview s).
Lemma put_set_ok k A (v : gmap string (rvalue (payload ID Rest))) : map_Forall key_ok v → key_ok k (RSet A) → map_Forall key_ok (put_set k A v).
Proof using. intros Hv Hk. unfold put_set. case_decide; [by apply map_Forall_delete|by apply map_Forall_insert_2]. Qed.
Lemma put_zset_ok k zs (v : gmap string (rvalue (payload ID Rest))) : map_Forall key_ok v → key_ok k (RZSet zs) → map_Forall key_ok (put_zset k zs v).
Proof using. intros Hv Hk. unfold put_zset. case_decide; [by apply map_Forall_delete|by apply map_Forall_insert_2]. Qed.
Lemma del_ok k s : keys_ok s → keys_ok (DEL s k).
Proof using All. unfold keys_ok. rewrite r_DEL. apply map_Forall_delete. Qed.
Lemma set_ok k p s : keys_ok s → key_ok k (RStr p) → keys_ok (SET s k p).
Proof using All. unfold keys_ok. rewrite r_SET. intros. by apply map_Forall_insert_2. Qed.

Lemma set_at_ne s k k' (p : option (payload ID Rest)) A v' :
  k ≠ k' → set_at (rview s) k' = Some A →
  v' = match p with Some p => <[k := RStr p]> (rview s) | None => delete k (rview s) end → set_at v' k' = Some A.
Proof using. intros Hk HA ->. unfold set_at in *. destruct p; [by rewrite lookup_insert_ne|by rewrite lookup_delete_ne]. Qed.
Lemma exec_keys s m zs c : shows s m zs → keys_ok s → keys_ok (exec team c s).
Proof using All.
  unfold keys_ok. intros Hs Hk. destruct (sh_teams _ _ _ Hs) as [ts Hts]. destruct c; simpl.
  - rewrite (r_ZADD _ _ _ _ _ (sh_exp _ _ _ Hs)). apply put_zset_ok; [done|by left].
  - destruct (sh_index _ _ _ Hs (team (TeamID x)) (team_names _)) as (A & HA & _). unfold addSandboxScript.
    rewrite (r_SADD _ _ _ A); [|eapply (set_at_ne _ _ _ (Some _)); [|exact HA|apply r_SET]; by apply sandbox_index_ne].
    apply put_set_ok; [|by eexists]. rewrite r_SET. by apply map_Forall_insert_2.
  - rewrite (r_ZADD _ _ _ _ _ Hts). apply put_zset_ok; [done|right; by left].
  - destruct (sh_index _ _ _ Hs (team t) (team_names _)) as (A & HA & _). unfold removeSandboxScript.
    rewrite (r_SREM _ _ _ A); [|eapply (set_at_ne _ _ _ None); [|exact HA|apply r_DEL]; by apply sandbox_index_ne].
    apply put_set_ok; [|by eexists]. rewrite r_DEL. by apply map_Forall_delete.
  - clear Hts. revert s zs Hs Hk. induction members as [|mem l IH]; intros s zs Hs Hk; simpl; [done|].
    eapply IH; [by apply shows_zrem|]. rewrite (r_ZREM _ _ _ _ (sh_exp _ _ _ Hs)). apply put_zset_ok; [done|by left].
  - by apply set_ok.
  - revert s ts Hs Hts Hk. induction teams as [|t l IH]; intros s ts Hs Hts Hk; simpl; [done|].
    eapply IH; [eapply (shows_teams _ _ _ (λ s, ZREM s globalTeamsSet t) _ Hs); intros ?; apply r_ZREM|..];
      rewrite (r_ZREM _ _ _ _ Hts); [apply put_zset_at|]. apply put_zset_ok; [done|right; by left].
Qed.

(** Keys beside those of the sandboxes: transitions, their results, reservations. *)
Definition beside (k : string) : Prop :=
  (∀ t id, team_name t → k ≠ getSandboxKey t id) ∧ (∀ t, team_name t → k ≠ GetSandboxStorageTeamIndexKey t) ∧
  k ≠ globalExpirationSet ∧ k ≠ globalTeamsSet.
Lemma beside_team i a : (∀ id, a ≠ CreateKey [sandboxesKey; id]) → a ≠ indexKey → beside (CreateKey [GetTeamPrefix (team i); a]).
Proof using team_names.
  intros Hs Hi. split_and!; [| |done|done].
  - intros t id Ht E. destruct (team_key_inj (team i) t a (CreateKey [sandboxesKey; id]) (team_names i) Ht E) as [_ Ea]. by eapply Hs.
  - intros t Ht E. by destruct (team_key_inj (team i) t a indexKey (team_names i) Ht E).
Qed.
Lemma beside_transition i id : beside (getTransitionKey (team i) id).
Proof using team_names. rewrite transition_key_parts. by apply beside_team. Qed.
Lemma beside_outcome i id tid : beside (getTransitionResultKey (team i) id tid).
Proof using team_names. rewrite transition_result_parts. by apply beside_team. Qed.
Lemma beside_pending i : beside (getPendingSetKey (team i)).
Proof using team_names. rewrite pending_parts. by apply beside_team. Qed.
Lemma beside_result i id : beside (getResultKey (team i) id).
Proof using team_names. rewrite result_parts. by apply beside_team. Qed.

Lemma shows_beside s s' m zs k : shows s m zs → beside k → (∀ k', k' ≠ k → rview s' !! k' = rview s !! k') → shows s' m zs.
Proof using.
  intros [H1' H2' H3' [ts H4']] (Hs & Hi & He & Ht) Hf. split.
  - intros t id Hn. rewrite Hf by (by apply not_eq_sym, Hs). by apply H1'.
  - intros t Hn. unfold set_at. rewrite Hf by (by apply not_eq_sym, Hi). by apply H2'.
  - unfold zset_at. rewrite Hf by by apply not_eq_sym. exact H3'.
  - exists ts. unfold zset_at. rewrite Hf by by apply not_eq_sym. exact H4'.
Qed.
Lemma shows_SET s m zs k p : shows s m zs → beside k → shows (SET s k p) m zs.
Proof using All. intros Hs Hk. eapply shows_beside; [exact Hs|exact Hk|]. intros k' Hne. rewrite r_SET. by apply lookup_insert_ne. Qed.
Lemma shows_DEL s m zs k : shows s m zs → beside k → shows (DEL s k) m zs.
Proof using All. intros Hs Hk. eapply shows_beside; [exact Hs|exact Hk|]. intros k' Hne. rewrite r_DEL. by apply lookup_delete_ne. Qed.

(** The pending set of a team is a sorted set. *)
Lemma pending_zset s i : keys_ok s → ∃ zs, zset_at (rview s) (getPendingSetKey (team i)) = Some zs.
Proof using All.
  intros Hk. unfold zset_at. destruct (rview s !! getPendingSetKey (team i)) as [[[x|v]|A|zs]|] eqn:E; [| | |by eauto..]; exfalso.
  - apply (Hk _ _), (proj1 (beside_pending i)) in E; [done|apply team_names].
  - destruct (Hk _ _ E) as (j & id & [Ej|[[tid Ej]|Ej]]).
    + rewrite pending_parts, transition_key_parts in Ej. apply team_key_inj in Ej as [_ Ej]; [done|apply team_names..].
    + rewrite pending_parts, transition_result_parts in Ej. apply team_key_inj in Ej as [_ Ej]; [done|apply team_names..].
    + assert (team i = team j) as Et by (rewrite pending_parts, result_parts in Ej; apply team_key_inj in Ej as [? _]; [done|apply team_names..]).
      rewrite Et in Ej. by apply pending_result_ne in Ej.
  - destruct (Hk _ _ E) as [j Ej]. by apply (proj1 (proj2 (beside_pending i))) in Ej; [|apply team_names].
Qed.
(** A command on the pending set of a team. *)
Lemma pending_step s s' m zs i (g : gmap string Z → gmap string Z) : shows s m zs → keys_ok s →
  (∀ ps, zset_at (rview s) (getPendingSetKey (team i)) = Some ps → rview s' = put_zset (getPendingSetKey (team i)) (g ps) (rview s)) →
  shows s' m zs ∧ keys_ok s'.
Proof using All.
  intros Hs Hk Hg. destruct (pending_zset s i Hk) as [ps Hps]. specialize (Hg ps Hps). split.
  - eapply shows_beside; [exact Hs|apply (beside_pending i)|]. intros k' Hne. rewrite Hg. by apply put_zset_ne, not_eq_sym.
  - unfold keys_ok. rewrite Hg. apply put_zset_ok; [done|]. right. right. eauto.
Qed.
Lemma pending_zadd s m zs i sc id : shows s m zs → keys_ok s →
  shows (ZADD s (getPendingSetKey (team i)) sc id) m zs ∧ keys_ok (ZADD s (getPendingSetKey (team i)) sc id).
Proof using All. intros Hs Hk. eapply pending_step; [done..|]. intros ps. apply r_ZADD. Qed.
Lemma pending_zrem s m zs i id : shows s m zs → keys_ok s →
  shows (ZREM s (getPendingSetKey (team i)) id) m zs ∧ keys_ok (ZREM s (getPendingSetKey (team i)) id).
Proof using All. intros Hs Hk. eapply pending_step; [done..|]. intros ps. apply r_ZREM. Qed.
Lemma pending_clean s m zs i cutoff : shows s m zs → keys_ok s →
  shows (ZREMRANGEBYSCORE s (getPendingSetKey (team i)) cutoff) m zs ∧ keys_ok (ZREMRANGEBYSCORE s (getPendingSetKey (team i)) cutoff).
Proof using All. intros Hs Hk. eapply pending_step; [done..|]. intros ps. apply r_ZREMRANGEBYSCORE. Qed.

Record linv y (m : gmap (string * string) Sandbox) (zs : gmap string Z) : Prop := {
  li_shows : shows (l_keys y) m zs;
  li_matched : matched team m;
  li_indexed : indexed_members team zs;
  li_keys : keys_ok (l_keys y);
  (** what the holder of a lock has read is still stored, perhaps with other data *)
  li_read t id x : l_locks y !! (t, id) = Some (Some x) → TeamID x = t ∧ SandboxID x = id ∧ is_Some (m !! (team t, id));
  li_kept : l_lost y = [];
}.

(** The keys change, the locks and the stored sandboxes do not. *)
Lemma linv_keys y s m zs : linv y m zs → shows s m zs ∧ keys_ok s → linv (mkLsys s (l_locks y) (l_lost y)) m zs.
Proof using. intros [? ? ? ? ? ?] [? ?]. by split. Qed.
Lemma linv_locks y m zs lk : linv y m zs →
  (∀ t id x, lk !! (t, id) = Some (Some x) → TeamID x = t ∧ SandboxID x = id ∧ is_Some (m !! (team t, id))) →
  linv (mkLsys (l_keys y) lk (l_lost y)) m zs.
Proof using. intros [? ? ? ? ? ?] ?. by split. Qed.
Lemma linv_command y m zs c : linv y m zs → enabled team (l_keys y) c → unlocked c = true →
  linv (mkLsys (exec team c (l_keys y)) (l_locks y) (l_lost y)) (c_sbx team c m) (c_exp team c zs).
Proof using All.
  intros [Hs Hm Hz Hk Hr Hl] He Hu. split; simpl; [by apply exec_shows|by apply c_sbx_matched|by apply c_exp_indexed|by eapply exec_keys| |done].
  intros t id x Hx. destruct (Hr _ _ _ Hx) as (? & ? & Hin). split_and!; [done..|]. destruct c; try done. simpl.
  apply lookup_insert_is_Some'. by right.
Qed.
Lemma linv_get y m zs t id : linv y m zs → GET (l_keys y) (getSandboxKey (team t) id) = PSandbox <$> m !! (team t, id).
Proof using All. intros Hi. by apply (shows_GET _ _ _ _ _ (li_shows _ _ _ Hi)). Qed.

(** A session writes what it read, with other data. *)
Lemma write_shows y m zs t id x z : linv y m zs → l_locks y !! (t, id) = Some (Some x) → same_identity x z →
  shows (SET (l_keys y) (getSandboxKey (team t) id) (PSandbox z)) (<[(team t, id) := z]> m) zs ∧
  keys_ok (SET (l_keys y) (getSandboxKey (team t) id) (PSandbox z)) ∧ matched team (<[(team t, id) := z]> m) ∧
  (∀ t' id' x', l_locks y !! (t', id') = Some (Some x') → TeamID x' = t' ∧ SandboxID x' = id' ∧ is_Some (<[(team t, id) := z]> m !! (team t', id'))).
Proof using All.
  intros [Hs Hm Hz Hk Hr Hl] Hx [Ht Hid]. destruct (Hr _ _ _ Hx) as (Et & Eid & Hin). split_and!.
  - by apply shows_set.
  - apply set_ok; [done|]. simpl. congruence.
  - intros t' id' w. rewrite lookup_insert_Some. intros [[[= <- <-] <-]|[_ Hw]]; [split; congruence|by apply Hm].
  - intros t' id' x' Hx'. destruct (Hr _ _ _ Hx') as (? & ? & ?). split_and!; [done..|]. apply lookup_insert_is_Some'. by right.
Qed.

Lemma act_inv y m zs t id a r s' r' : linv y m zs → l_locks y !! (t, id) = Some r → act team t id a r (l_keys y) = Some (s', r') →
  ∃ m', linv (mkLsys s' (<[(t, id) := r']> (l_locks y)) (l_lost y)) m' zs.
Proof using All.
  intros Hi Hx Ha. destruct a as [| |z|z tid]; simpl in Ha.
  - injection Ha as <- <-. exists m. apply linv_locks; [done|]. intros t' id' x.
    rewrite lookup_insert_Some. intros [[[= <- <-] Hg]|[_ Hx']]; [|by eapply li_read].
    rewrite (linv_get _ _ _ _ _ Hi) in Hg. destruct (m !! (team t, id)) as [w|] eqn:Ew; [|done]. simpl in Hg. injection Hg as <-.
    destruct (li_matched _ _ _ Hi _ _ _ Ew) as [Et Eid]. split_and!; [by apply (inj team)|done|by eexists].
  - injection Ha as <- <-. exists (delete (team t, id) m). destruct Hi as [Hs Hm Hz Hk Hr Hl].
    split; simpl; [apply (shows_remove _ _ _ _ _ Hs), team_names| |done| | |done].
    + intros t' id' w [_ Hw]%lookup_delete_Some. by apply Hm.
    + apply (exec_keys _ _ _ (CForget (Rest := Rest) t id) Hs Hk).
    + intros t' id' x. rewrite lookup_insert_Some. intros [[_ ?]|[Hne Hx']]; [done|]. destruct (Hr _ _ _ Hx') as (? & ? & ?).
      split_and!; [done..|]. rewrite lookup_delete_ne; [done|]. intros [= E1 E2]. apply (inj team) in E1. congruence.
  - destruct r as [x|]; [|done]. destruct (decide (same_identity x z)) as [Hz|]; [|done]. injection Ha as <- <-.
    rewrite insert_id by done. destruct (write_shows y m zs t id x z Hi Hx Hz) as (? & ? & ? & ?). eexists. split; eauto; apply Hi.
  - destruct r as [x|]; [|done]. destruct (decide (same_identity x z)) as [Hz|]; [|done]. injection Ha as <- <-.
    rewrite insert_id by done. destruct (write_shows y m zs t id x z Hi Hx Hz) as (Hs & Hk & Hm & Hr).
    eexists. split; simpl; [| exact Hm |apply Hi| |exact Hr|apply Hi].
    + apply shows_SET; [apply shows_SET; [exact Hs|apply beside_transition]|apply beside_outcome].
    + apply set_ok; [apply set_ok; [exact Hk|]|]; exists t, id; [by left|right; left; by eexists].
Qed.
Lemma reserve_keys s m zs t id limit now cutoff : shows s m zs → keys_ok s →
  let s' := (reserveScript (getStorageIndexKey (team t)) (getPendingSetKey (team t)) (getResultKey (team t) id) id limit now cutoff s).1 in
  shows s' m zs ∧ keys_ok s'.
Proof using All.
  intros Hs Hk. unfold reserveScript. destruct (pending_clean s m zs t cutoff Hs Hk) as [Hs1 Hk1]. set (s1 := ZREMRANGEBYSCORE _ _ _) in *.
  destruct (SISMEMBER _ _ _); [done|]. destruct (ZSCORE _ _ _); [done|]. destruct (_ && _); [done|]. simpl.
  apply pending_zadd; [apply shows_DEL; [done|apply beside_result]|by apply del_ok].
Qed.
Lemma lstep_inv y m zs l y' : linv y m zs → keeps_lock l = true → lstep team y l = Some y' → ∃ m' zs', linv y' m' zs'.
Proof using All.
  intros Hi Hkeep Hl. pose proof (li_shows _ _ _ Hi) as Hs. pose proof (li_keys _ _ _ Hi) as Hk.
  destruct l as [c|t id|t id a|t id|t id|n a|t id tid v|t id|t id tid|t id limit now cutoff|t id json|t id|t id]; simpl in Hl; try done.
  - destruct (unlocked c) eqn:Eu; [|done]. injection Hl as <-. do 2 eexists. apply linv_command; [exact Hi| |exact Eu]. by destruct c.
  - destruct (l_locks y !! (t, id)); [done|]. injection Hl as <-. exists m, zs. apply linv_locks; [done|].
    intros t' id' x. rewrite lookup_insert_Some. intros [[_ ?]|[_ Hx]]; [done|by eapply li_read].
  - destruct (l_locks y !! (t, id)) as [r|] eqn:Er; [|done]. destruct (act _ _ _ _ _ _) as [[s' r']|] eqn:Ea; [|done]. injection Hl as <-.
    destruct (act_inv _ _ _ _ _ _ _ _ _ Hi Er Ea) as [m' ?]. by exists m', zs.
  - injection Hl as <-. exists m, zs. apply linv_locks; [done|]. intros t' id' x [_ Hx]%lookup_delete_Some. by eapply li_read.
  - rewrite (li_kept _ _ _ Hi), lookup_nil in Hl. done.
  - injection Hl as <-. exists m, zs. apply linv_keys; [done|]. split; [by apply shows_SET, beside_outcome|].
    apply set_ok; [done|]. exists t, id. right. left. by eexists.
  - injection Hl as <-. exists m, zs. apply linv_keys; [done|]. split; [by apply shows_DEL, beside_transition|by apply del_ok].
  - injection Hl as <-. exists m, zs. apply linv_keys; [done|]. split; [by apply shows_DEL, beside_outcome|by apply del_ok].
  - injection Hl as <-. exists m, zs. apply linv_keys; [done|]. by apply reserve_keys.
  - injection Hl as <-. exists m, zs. apply linv_keys; [done|]. unfold finishStartScript. destruct (pending_zrem _ _ _ t id Hs Hk) as [Hs1 Hk1].
    split; [by apply shows_SET, beside_result|]. apply set_ok; [done|]. exists t, id. by do 2 right.
  - injection Hl as <-. exists m, zs. apply linv_keys; [done|]. unfold releaseScript. destruct (pending_zrem _ _ _ t id Hs Hk) as [Hs1 Hk1].
    split; [by apply shows_DEL, beside_result|by apply del_ok].
  - injection Hl as <-. exists m, zs. apply linv_keys; [done|]. split; [by apply shows_DEL, beside_result|by apply del_ok].
Qed.
Lemma lrun_inv y m zs ls y' : linv y m zs → Forall (λ l, keeps_lock l = true) ls → lrun team y ls = Some y' → ∃ m' zs', linv y' m' zs'.
Proof using All.
  revert y m zs. induction ls as [|l ls IH]; intros y m zs Hi Hf Hr; simpl in Hr; [simplify_eq; eauto|]. inversion Hf; subst.
  destruct (lstep team y l) as [y1|] eqn:El; [|done]. destruct (lstep_inv _ _ _ _ _ Hi ltac:(done) El) as (m1 & zs1 & Hi1). by eapply IH.
Qed.
Lemma linv_empty s : rview s = ∅ → linv (mkLsys s ∅ []) ∅ ∅.
Proof using All.
  intros Hs. destruct (good_empty team team_names s Hs) as [[Hsh Hm Hz _] _]. split; try done; simpl.
  unfold keys_ok. rewrite Hs. apply map_Forall_empty.
Qed.
End lock_laws.

(** ** Properties *)
Section lock_properties.
Context {ID Rest K : Type} `{Countable ID} `{RedisLaws (payload ID Rest) K}.
Context (team : ID → string).
Hypothesis team_names : ∀ i, team_name (team i).
Context `{!Inj (=) (=) team}.

(** C14: the keys of the sandbox store are well typed after any interleaving of the
    commands that any number of API instances send for their sandboxes: those of
    [Add], [Remove], [Update], [ExpiredItems], [TeamsWithSandboxCount], of
    [StartRemoving] and its callback, of the reservations' scripts, and the expiry of
    transition and result keys; failed commands are commands that are not sent.  A
    sandbox's key holds nothing or the JSON of a sandbox with that team and that ID, a
    team's index is the set of the IDs whose key is present (so the count that the
    reservations take from it is right), every member of the expiration index reads
    back as a team and an ID, and every key holds a value of its kind, so that no
    command meets a key of another kind.  The lock's own keys ([lock:]) belong to the
    lock library.  It is assumed that no lock expires while its holder still has
    commands to send (a minute for three commands; see
    [lost_lock_leaves_unindexed]), that [updateFunc] keeps the team and the ID, and
    that no two teams share a name. *)
Theorem Redis_typed (s0 : K) (ls : list (llabel (ID := ID) (Rest := Rest))) y :
  rview s0 = ∅ → lrun team (mkLsys s0 ∅ []) ls = Some y → Forall (λ l, keeps_lock l = true) ls →
  let s := l_keys y in
  (∀ i id, match GET s (getSandboxKey (team i) id) with
           | None => True
           | Some (PSandbox x) => TeamID x = i ∧ SandboxID x = id
           | Some (PText _) => False
           end) ∧
  (∀ i, NoDup (SMEMBERS s (GetSandboxStorageTeamIndexKey (team i))) ∧
        SCARD s (GetSandboxStorageTeamIndexKey (team i)) = Z.of_nat (length (SMEMBERS s (GetSandboxStorageTeamIndexKey (team i)))) ∧
        ∀ id, id ∈ SMEMBERS s (GetSandboxStorageTeamIndexKey (team i)) ↔ GET s (getSandboxKey (team i) id) ≠ None) ∧
  (∀ e, e ∈ ZRANGE s globalExpirationSet → ∃ i id, parseExpirationMember e.1 = Some (team i, id)) ∧
  ∀ k, match rview s !! k with
       | Some (RStr (PSandbox x)) => k = getSandboxKey (team (TeamID x)) (SandboxID x)
       | Some (RStr (PText _)) => ∃ i id, k = getTransitionKey (team i) id ∨ (∃ tid, k = getTransitionResultKey (team i) id tid) ∨ k = getResultKey (team i) id
       | Some (RSet _) => ∃ i, k = GetSandboxStorageTeamIndexKey (team i)
       | Some (RZSet _) => k = globalExpirationSet ∨ k = globalTeamsSet ∨ ∃ i, k = getPendingSetKey (team i)
       | None => True
       end.
Proof using All.
  intros Hs0 Hr Hf s. destruct (lrun_inv team team_names _ _ _ _ _ (linv_empty team team_names s0 Hs0) Hf Hr) as (m & zs & [Hs Hm Hz Hk _ _]).
  fold s in Hs, Hk. split_and!.
  - intros i id. rewrite (shows_GET _ _ _ _ _ Hs) by done. destruct (m !! _) as [x|] eqn:Ex; [|done].
    destruct (Hm _ _ _ Ex) as [Et Eid]. simpl. split; [by apply (inj team)|done].
  - intros i. destruct (sh_index _ _ _ Hs (team i) (team_names i)) as (A & HA & Hid). split_and!.
    + rewrite (r_SMEMBERS _ _ _ HA). apply NoDup_elements.
    + rewrite (r_SCARD _ _ _ HA). by rewrite (r_SMEMBERS _ _ _ HA).
    + intros id. rewrite (r_SMEMBERS _ _ _ HA), elem_of_elements, Hid, (shows_GET _ _ _ _ _ Hs) by done.
      destruct (m !! _); split; (done || (by intros []) || eauto).
  - intros [mem sc] Hin. destruct (r_ZRANGE _ _ _ (sh_exp _ _ _ Hs)) as [Hl _]. rewrite Hl in Hin.
    apply elem_of_map_to_list in Hin. destruct (Hz mem) as (i & id & ->); [eauto|]. exists i, id. apply parse_member, team_names.
  - intros k. destruct (rview s !! k) as [v|] eqn:Ek; [|done]. pose proof (Hk _ _ Ek) as Hv. by destruct v as [[]| |].
Qed.
End lock_properties.

(** ** Runs *)
#[local] Existing Instances RedisMap.ops RedisMap.laws.
Definition ex_lock_run : list (llabel (ID := bool) (Rest := ())) :=
  [LReserve true "sbx" 5 3 0; LCommand (CIndex ex_rs); LCommand (CStore ex_rs); LFinish true "sbx" "{}"; LObtain true "sbx"; LAct true "sbx" ARead;
   LAct true "sbx" (AStart (with_state ex_rs StatePausing) "t1"); LRelease true "sbx"].
Lemma Redis_typed_witness :
  match lrun ex_team (mkLsys (∅ : ex_keyspace) ∅ []) ex_lock_run with
  | Some y => SCARD (l_keys y) (GetSandboxStorageTeamIndexKey "a") = 1 ∧ GET (l_keys y) (getTransitionKey "a" "sbx") = Some (PText "t1")
  | None => False
  end.
Proof.
  assert ((λ y, (GET (l_keys y) (getTransitionKey "a" "sbx"), SMEMBERS (l_keys y) (GetSandboxStorageTeamIndexKey "a"))) <$>
    lrun ex_team (mkLsys (∅ : ex_keyspace) ∅ []) ex_lock_run = Some (Some (PText "t1"), ["sbx"])) as Hv by by vm_compute.
  destruct (lrun ex_team (mkLsys (∅ : ex_keyspace) ∅ []) ex_lock_run) as [y|] eqn:Er; [|discriminate Hv].
  cbn [fmap option_fmap option_map] in Hv. injection Hv as Hg Hn.
  destruct (Redis_typed ex_team ex_team_names (∅ : ex_keyspace) ex_lock_run y) as (_ & Hi & _); [done|exact Er|by repeat constructor|].
  destruct (Hi true) as (_ & Hc & _). split; [|exact Hg]. rewrite (Hc : SCARD _ (GetSandboxStorageTeamIndexKey "a") = _).
  exact (f_equal (λ l : list string, Z.of_nat (length l)) Hn).
Defined.

(** An [Update] that outlives its lock writes a sandbox that was removed in between:
    its key is present, and the team's index does not name it. *)
Lemma lost_lock_leaves_unindexed :
  (λ y, (GET (l_keys y) (getSandboxKey "a" "sbx"), SMEMBERS (l_keys y) (GetSandboxStorageTeamIndexKey "a"))) <$>
    lrun ex_team (mkLsys (∅ : ex_keyspace) ∅ []) [LCommand (CIndex ex_rs); LCommand (CStore ex_rs); LObtain true "sbx"; LAct true "sbx" ARead; LLose true "sbx";
      LObtain true "sbx"; LAct true "sbx" ARemove; LRelease true "sbx"; LLate 0 (AUpdate ex_rs2)] =
  Some (Some (PSandbox ex_rs2), []).
Proof. by vm_compute. Qed.
