(* ===== verification/RedisRefines.v ===== *)
(** * The two backends of the sandbox store

    packages/api/internal/sandbox/storage: the interface [Storage], answered by the
    memory backend (SandboxStore.v) and by Redis (RedisStore.v).  A caller cannot
    tell them apart while no command fails, no stored ID is added again, a removal
    names the sandbox's own team and an update keeps the team and the ID; on the
    first two the backends differ, as two lemmas show. *)
From S2P Require Import Prelude Smap SyncUtils SandboxState Redis SandboxStore RedisStore.

Lemma NoDup_omap_in {A B} (f : A → option B) (l : list A) :
  (∀ a b y, a ∈ l → b ∈ l → f a = Some y → f b = Some y → a = b) → NoDup l → NoDup (omap f l).
Proof.
  induction l as [|a l IH]; intros Hinj Hnd; [constructor|]. apply NoDup_cons in Hnd as [Ha Hnd]. simpl.
  assert (NoDup (omap f l)) as Hl by (apply IH; [intros; eapply Hinj; (by right) || done|done]).
  destruct (f a) as [y|] eqn:Ey; [|exact Hl]. apply NoDup_cons. split; [|exact Hl].
  intros (b & Hb & Ey')%list_elem_of_omap. apply Ha. rewrite (Hinj a b y); [done|by left|by right|done..].
Qed.

Lemma omap_fmap {A B C} (f : B → option C) (g : A → B) (l : list A) : omap f (g <$> l) = omap (f ∘ g) l.
Proof. induction l as [|a l IH]; [done|]. cbn. fold (g <$> l). fold (omap f (g <$> l)). rewrite IH. done. Qed.

(** ** The interface *)
Section interface.
Context {M : Type → Type} `{CMapLaws M} {ID Rest E F K : Type} `{Countable ID} `{RedisLaws (payload ID Rest) K}.
Context (team : ID → string).
Hypothesis team_names : ∀ i, team_name (team i).
Context `{!Inj (=) (=) team}.
Abbreviation Sandbox := (Sandbox ID Rest).
Abbreviation Memory := (Storage M ID Rest E).
Implicit Types (ms : Memory) (s : K) (x : Sandbox).

Inductive storage_call :=
  | CallAdd (x : Sandbox)
  | CallGet (t : ID) (id : string)
  | CallRemove (t : ID) (id : string)
  | CallUpdate (t : ID) (id : string) (f : Sandbox → res F Sandbox)
  | CallTeamItems (t : ID) (states : list State).
(** What the caller can observe: [None] stands for [ErrNotFound]. *)
Inductive answer :=
  | AnsDone (ok : bool)
  | AnsSandbox (r : res (option F) Sandbox)
  | AnsItems (l : list Sandbox).

Definition is_ok {A} (e : option A) : bool := match e with None => true | Some _ => false end.
Definition mem_call ms (c : storage_call) : Memory * answer :=
  match c with
  | CallAdd x => let '(ms, err) := S_Add ms x in (ms, AnsDone (is_ok err))
  | CallGet t id => (ms, AnsSandbox (match S_Get ms t id with Ok x => Ok x | Err _ => Err None | Panic => Panic end))
  | CallRemove _ id => (S_Remove ms id, AnsDone true)
  | CallUpdate t id f => let '(ms, r) := S_Update ms t id f in
      (ms, AnsSandbox (match r with Ok x => Ok x | Err (inl _) => Err None | Err (inr e) => Err (Some e) | Panic => Panic end))
  | CallTeamItems t states => (ms, AnsItems (TeamItems ms t states))
  end.
(** Locks are obtained and every command is answered. *)
Definition redis_call s (now : Z) (c : storage_call) : K * option answer :=
  match c with
  | CallAdd x => let '(s, err) := redis_Add team s x now RDone RDone RDone in (s, Some (AnsDone (is_ok err)))
  | CallGet t id => (s, match redis_Get team s t id true with
      | Ok x => Some (AnsSandbox (Ok x)) | Err RNotFound => Some (AnsSandbox (Err None)) | _ => None end)
  | CallRemove t id => let '(s, err) := redis_Remove team s t id true RDone RDone in (s, Some (AnsDone (is_ok err)))
  | CallUpdate t id f => let '(s, r) := redis_Update team s t id f true true RDone RDone in
      (s, match r with
          | Ok x => Some (AnsSandbox (Ok x)) | Err RNotFound => Some (AnsSandbox (Err None))
          | Err (ErrUpdate e) => Some (AnsSandbox (Err (Some e))) | Panic => Some (AnsSandbox Panic) | _ => None end)
  | CallTeamItems t states => (s, Some (AnsItems (redis_TeamItems team s t states)))
  end.

Definition call_fits ms (c : storage_call) : Prop :=
  match c with
  | CallAdd x => S_item ms (SandboxID x) = None
  | CallRemove t id => ∀ b, S_item ms id = Some b → TeamID (data_ b) = t
  | CallUpdate _ _ f => ∀ x y, f x = Ok y → TeamID y = TeamID x ∧ SandboxID y = SandboxID x
  | _ => True
  end.
(** The order of a list of sandboxes is not fixed by either backend. *)
Definition same_answer (a : answer) (a' : option answer) : Prop :=
  match a, a' with AnsItems l, Some (AnsItems l') => l ≡ₚ l' | a, Some a' => a = a' | _, None => False end.
(** The answers of a sequence of calls. *)
Fixpoint mem_answers ms (cs : list storage_call) : list answer :=
  match cs with [] => [] | c :: cs => let '(ms, a) := mem_call ms c in a :: mem_answers ms cs end.
Fixpoint redis_answers s (now : Z) (cs : list storage_call) : list (option answer) :=
  match cs with [] => [] | c :: cs => let '(s, a) := redis_call s now c in a :: redis_answers s now cs end.
(** No call of the sequence adds an ID that is stored then, removes a sandbox in
    another team's name, or updates a sandbox's team or ID. *)
Fixpoint calls_fit ms (cs : list storage_call) : Prop :=
  match cs with [] => True | c :: cs => call_fits ms c ∧ calls_fit (mem_call ms c).1 cs end.

(** ** populate_redis/main.go

    Memory answers; Redis is written after it, and its errors are only logged.  The
    other methods of the interface ask the memory backend alone. *)
Definition populate_Add ms s x (now : Z) (r1 r2 r3 : reply) : Memory * K * option storage_error :=
  let '(ms, err) := S_Add ms x in
  match err with
  | Some e => (ms, s, Some e)
  | None => (ms, (redis_Add team s x now r1 r2 r3).1, None)
  end.
Definition populate_Remove ms s (t : ID) (id : string) (locked : bool) (r1 r2 : reply) : Memory * K :=
  (S_Remove ms id, (redis_Remove team s t id locked r1 r2).1).
Definition populate_Update ms s (t : ID) (id : string) (f : Sandbox → res F Sandbox) (locked get_ok : bool) (r1 r2 : reply)
    : Memory * K * res (storage_error + F) Sandbox :=
  let '(ms, r) := S_Update ms t id f in
  match r with
  | Ok x => (ms, (redis_Update team s t id f locked get_ok r1 r2).1, Ok x)
  | r => (ms, s, r)
  end.
(** A call when no Redis command fails. *)
Definition populate_call ms s (now : Z) (c : storage_call) : Memory * K :=
  match c with
  | CallAdd x => (populate_Add ms s x now RDone RDone RDone).1
  | CallRemove t id => populate_Remove ms s t id true RDone RDone
  | CallUpdate t id f => (populate_Update ms s t id f true true RDone RDone).1
  | CallGet _ _ | CallTeamItems _ _ => (ms, s)
  end.
Fixpoint populate_run ms s (now : Z) (cs : list storage_call) : Memory * K :=
  match cs with [] => (ms, s) | c :: cs => let '(ms, s) := populate_call ms s now c in populate_run ms s now cs end.
Fixpoint all_fit ms s (now : Z) (cs : list storage_call) : Prop :=
  match cs with [] => True | c :: cs => call_fits ms c ∧ all_fit (populate_call ms s now c).1 (populate_call ms s now c).2 now cs end.

(** ** The simulation *)
Definition owned (i : ID) (b : memorySandbox ID Rest) : option Sandbox :=
  if decide (TeamID (data_ b) = i) then Some (data_ b) else None.
Record related ms s : Prop := {
  r_wf : storage_wf ms;
  r_good : ∃ m zs, good team s m zs ∧ ∀ i id, m !! (team i, id) = S_item ms id ≫= owned i;
}.

Lemma S_Remove_spec ms id : storage_wf ms →
  storage_wf (S_Remove ms id) ∧ ∀ id', S_item (S_Remove ms id) id' = if decide (id' = id) then None else S_item ms id'.
Proof using All.
  intros Hwf. split.
  - intros id' p. cbn. rewrite cm_items_remove. intros [_ Hp]%lookup_delete_Some. by apply Hwf.
  - intros id'. rewrite !S_item_eq. cbn. rewrite cm_items_remove. case_decide as Hd; [by rewrite Hd, lookup_delete_eq|].
    by rewrite lookup_delete_ne.
Qed.

Lemma TeamItems_mem ms t states : storage_wf ms → NoDup (TeamItems ms t states) ∧
  ∀ x, x ∈ TeamItems ms t states ↔ (∃ id, S_item ms id ≫= owned t = Some x) ∧ (states = [] ∨ SState x ∈ states).
Proof using All.
  intros Hwf. unfold TeamItems, getItems, S_iter. rewrite list_fmap_omap. split.
  - apply NoDup_filter, NoDup_omap_in.
    + intros [k1 p1] [k2 p2] y Hk1 Hk2. simpl. rewrite (cm_iter_items _ (items ms)) in Hk1, Hk2.
      apply elem_of_map_to_list in Hk1, Hk2. destruct (Hwf _ _ Hk1) as (b1 & -> & <-), (Hwf _ _ Hk2) as (b2 & -> & <-).
      simpl. intros [= <-] [= Eb]. unfold Data in Eb. rewrite Eb in *. by simplify_eq.
    + apply (NoDup_fmap_1 fst). rewrite (cm_iter_items _ (items ms)). apply NoDup_fst_map_to_list.
  - intros x. rewrite list_elem_of_filter, andb_true_iff, orb_true_iff, !bool_decide_eq_true, list_elem_of_omap. split.
    + intros [[-> Hst] ([k p] & Hin & Hx)]. split; [|exact Hst]. rewrite (cm_iter_items _ (items ms)) in Hin.
      apply elem_of_map_to_list in Hin. exists k. rewrite S_item_eq, Hin. simpl in *.
      destruct (objs ms !! p) as [b|]; simplify_eq/=. unfold owned. by rewrite decide_True.
    + intros [[id Hid] Hst]. rewrite S_item_eq in Hid. destruct (cm_items (items ms) !! id) as [p|] eqn:Ep; [|done]. simpl in Hid.
      destruct (objs ms !! p) as [b|] eqn:Eb; [|done]. simpl in Hid. unfold owned in Hid. case_decide; simplify_eq.
      split; [done|]. exists (id, p). rewrite (cm_iter_items _ (items ms)), elem_of_map_to_list. split; [done|]. simpl. by rewrite Eb.
Qed.
Lemma TeamItems_NoDup s m zs t states : good team s m zs → NoDup (redis_TeamItems team s t states).
Proof using All.
  intros Hg. unfold redis_TeamItems, fetch_sandboxes. apply NoDup_filter.
  pose proof (g_shows _ _ _ _ Hg) as Hs. destruct (sh_index _ _ _ Hs (team t) (team_names t)) as (A & HA & Hid).
  rewrite omap_fmap. apply NoDup_omap_in.
  - intros a b y _ _. simpl. rewrite !(shows_GET _ _ _ _ _ Hs) by done.
    destruct (m !! (team t, a)) as [x1|] eqn:E1, (m !! (team t, b)) as [x2|] eqn:E2; simpl; try done. intros [= ->] [= ->].
    destruct (g_matched _ _ _ _ Hg _ _ _ E1) as [_ ->], (g_matched _ _ _ _ Hg _ _ _ E2) as [_ ->]. done.
  - rewrite (r_SMEMBERS _ _ _ HA). apply NoDup_elements.
Qed.

(** The state after a call whose commands are [cs]. *)
Lemma related_execs ms ms' s cs : related ms s → storage_wf ms' →
  (∀ m zs, good team s m zs → (∀ i id, m !! (team i, id) = S_item ms id ≫= owned i) → safe_all team cs m zs ∧
     ∀ i id, run_sbx team cs m !! (team i, id) = S_item ms' id ≫= owned i) →
  related ms' (foldl (λ s c, exec team c s) s cs).
Proof using All.
  intros [_ (m & zs & Hg & Hm)] Hwf Hcs. destruct (Hcs m zs Hg Hm) as [Hsafe Hm']. split; [done|].
  exists (run_sbx team cs m), (run_exp team cs zs). split; [|done].
  pose proof (good_execs team team_names s m zs cs (length cs) Hg Hsafe) as Hg'. by rewrite take_ge in Hg' by done.
Qed.

Lemma add_simulates ms s now x : related ms s → call_fits ms (CallAdd x) →
  same_answer (mem_call ms (CallAdd x)).2 (redis_call s now (CallAdd x)).2 ∧
  related (mem_call ms (CallAdd x)).1 (redis_call s now (CallAdd x)).1.
Proof using All.
  intros Hr Hx. simpl in Hx. pose proof (S_Add_spec ms x (r_wf _ _ Hr)) as Ha. simpl. destruct (S_Add ms x) as [ms' err].
  destruct Ha as (Hwf & Hit & ->). rewrite Hx. split; [done|]. simpl.
  apply (related_execs ms ms' s [CIndex x; CStore x; CTeam (TeamID x) (Unix now)] Hr Hwf). intros m zs Hg Hm. split.
  - simpl. split_and!; [done| |done..]. rewrite lookup_insert_eq. eauto.
  - intros i id. simpl. rewrite Hit. destruct (decide ((team (TeamID x), SandboxID x) = (team i, id))) as [[= Et <-]|Hne].
    + rewrite Et, lookup_insert_eq, Hx, decide_True by done. simpl. unfold owned. simpl. apply (inj team) in Et. by rewrite decide_True.
    + rewrite lookup_insert_ne, Hm by done. destruct (S_item ms id) as [b|] eqn:Eb; [done|]. case_decide as Hd; [|done]. simpl. unfold owned. simpl.
      rewrite decide_False; [done|]. intros Et. apply Hne. by rewrite Et, Hd.
Qed.
Lemma remove_simulates ms s now t id : related ms s → call_fits ms (CallRemove t id) →
  same_answer (mem_call ms (CallRemove t id)).2 (redis_call s now (CallRemove t id)).2 ∧
  related (mem_call ms (CallRemove t id)).1 (redis_call s now (CallRemove t id)).1.
Proof using All.
  intros Hr Hx. simpl in Hx. split; [done|]. destruct (S_Remove_spec ms id (r_wf _ _ Hr)) as [Hwf Hit].
  apply (related_execs ms _ s [CForget t id; CUnindex [expirationMember (team t) id]] Hr Hwf). intros m zs Hg Hm. split.
  - simpl. split_and!; [done| |done]. intros i id' [Et ->]%list_elem_of_singleton%(member_eq team team_names). by rewrite Et, lookup_delete_eq.
  - intros i id'. simpl. rewrite Hit. destruct (decide ((team t, id) = (team i, id'))) as [[= Et <-]|Hne].
    + by rewrite Et, lookup_delete_eq, decide_True.
    + rewrite lookup_delete_ne, Hm by done. case_decide as Hd; [|done]. subst id'. destruct (S_item ms id) as [b|] eqn:Eb; [|done]. simpl. unfold owned.
      rewrite decide_False; [done|]. intros Et. apply Hne. by rewrite <- Et, (Hx b eq_refl).
Qed.
Lemma update_simulates ms s now t id f : related ms s → call_fits ms (CallUpdate t id f) →
  same_answer (mem_call ms (CallUpdate t id f)).2 (redis_call s now (CallUpdate t id f)).2 ∧
  related (mem_call ms (CallUpdate t id f)).1 (redis_call s now (CallUpdate t id f)).1.
Proof using All.
  intros Hr Hf. simpl in Hf. pose proof (r_wf _ _ Hr) as Hwf. destruct (r_good _ _ Hr) as (m & zs & Hg & Hm).
  unfold mem_call, redis_call, redis_Update. cbn [negb]. rewrite (shows_GET _ _ _ _ _ (g_shows _ _ _ _ Hg)), Hm by done.
  destruct (S_item ms id) as [b|] eqn:Eb.
  2:{ unfold S_Update. rewrite S_item_none, <- cm_get_items in Eb by done. unfold S_get. rewrite Eb. by split. }
  pose proof (S_item_id _ _ _ Hwf Eb) as Hid. pose proof (S_Update_spec ms t id f b Hwf Eb) as Hu. destruct (S_Update ms t id f) as [ms' r].
  destruct Hu as (Hwf' & Hne & Hit & ->); [intros y Hy; destruct (Hf _ _ Hy); congruence|].
  assert (∀ cs, (∀ m zs, good team s m zs → (∀ i id, m !! (team i, id) = S_item ms id ≫= owned i) → safe_all team cs m zs ∧
      (∀ i, run_sbx team cs m !! (team i, id) = S_item ms' id ≫= owned i) ∧
      (∀ i id', id' ≠ id → run_sbx team cs m !! (team i, id') = m !! (team i, id'))) →
    related ms' (foldl (λ s c, exec team c s) s cs)) as Hrel.
  { intros cs Hcs. apply (related_execs ms); [done..|]. intros m' zs' Hg' Hm'. destruct (Hcs m' zs' Hg' Hm') as (Hsafe & H1' & H2').
    split; [done|]. intros i id'. destruct (decide (id' = id)) as [->|Hd]; [done|]. rewrite H2', Hm' by done. by rewrite Hne. }
  assert (S_item ms' id = Some b → related ms' s) as Hsame.
  { intros Hb. apply (Hrel []). intros m' zs' _ Hm'. split; [done|]. split; [|done]. intros i. simpl. by rewrite Hm', Hb, Eb. }
  simpl. unfold owned. destruct (decide (TeamID (data_ b) = t)) as [Ht|Ht].
  2:{ split; [done|]. apply Hsame. rewrite Hit. by destruct (f (data_ b)). }
  simpl. destruct (f (data_ b)) as [y|e|] eqn:Ef; [|split; [done|]; by apply Hsame..].
  destruct (Hf _ _ Ef) as [Ety Eidy].
  assert (∀ m zs, good team s m zs → (∀ i id, m !! (team i, id) = S_item ms id ≫= owned i) → safe team (CSet y) m zs ∧
      (∀ i, <[(team (TeamID y), SandboxID y) := y]> m !! (team i, id) = S_item ms' id ≫= owned i) ∧
      (∀ i id', id' ≠ id → <[(team (TeamID y), SandboxID y) := y]> m !! (team i, id') = m !! (team i, id'))) as Hset.
  { intros m' zs' _ Hm'. assert (SandboxID y = id) as Ey by congruence. simpl. rewrite Ey. split_and!.
    - rewrite Hm', Eb, Ety. simpl. unfold owned. rewrite decide_True by done. eauto.
    - intros i. rewrite Hit. simpl. unfold owned. simpl. case_decide as Hi; [rewrite Hi; apply lookup_insert_eq|].
      rewrite lookup_insert_ne by (intros [= E']; apply (inj team) in E'; congruence). rewrite Hm', Eb. simpl. unfold owned.
      rewrite decide_False by congruence. done.
    - intros i id' Hd. apply lookup_insert_ne. congruence. }
  assert (getSandboxKey (team t) id = getSandboxKey (team (TeamID y)) (SandboxID y)) as -> by (f_equal; congruence).
  assert (expirationMember (team t) id = expirationMember (team (TeamID y)) (SandboxID y)) as -> by (f_equal; congruence).
  destruct (EndTime y =? EndTime (data_ b)); split; try done.
  - apply (Hrel [CSet y]). intros m' zs' Hg' Hm'. destruct (Hset m' zs' Hg' Hm') as (? & ? & ?). by split_and!.
  - apply (Hrel [CSet y; CIndex y]). intros m' zs' Hg' Hm'. destruct (Hset m' zs' Hg' Hm') as (? & ? & ?). by split_and!.
Qed.

Lemma call_simulates ms s now c : related ms s → call_fits ms c →
  same_answer (mem_call ms c).2 (redis_call s now c).2 ∧ related (mem_call ms c).1 (redis_call s now c).1.
Proof using All.
  intros Hr Hc. destruct c as [x|t id|t id|t id f|t states].
  - by apply add_simulates.
  - split; [|done]. destruct (r_good _ _ Hr) as (m & zs & Hg & Hm). simpl. unfold S_Get.
    rewrite (Get_shows _ team_names _ _ _ _ _ (g_shows _ _ _ _ Hg)), Hm. destruct (S_item ms id) as [b|]; [|done]. simpl. unfold owned, Data.
    case_bool_decide; [by rewrite decide_True|by rewrite decide_False].
  - by apply remove_simulates.
  - by apply update_simulates.
  - split; [|done]. destruct (r_good _ _ Hr) as (m & zs & Hg & Hm). simpl. destruct (TeamItems_mem ms t states (r_wf _ _ Hr)) as [Hnd Hin].
    apply NoDup_Permutation; [done|by eapply TeamItems_NoDup|]. intros x. rewrite Hin, (TeamItems_shows _ team_names _ _ _ _ _ _ (g_shows _ _ _ _ Hg)).
    by setoid_rewrite Hm.
Qed.

Lemma populate_related ms s now c : related ms s → call_fits ms c → related (populate_call ms s now c).1 (populate_call ms s now c).2.
Proof using All.
  intros Hr Hc. destruct (call_simulates ms s now c Hr Hc) as [Ha Hr']. destruct c as [x|t id|t id|t id f|t states]; simpl in *; try done.
  - unfold populate_Add. destruct (S_Add ms x) as [ms' [e|]] eqn:Es; simpl in *; [|exact Hr'].
    pose proof (S_Add_spec ms x (r_wf _ _ Hr)) as Hs. rewrite Es, Hc in Hs. by destruct Hs as (_ & _ & ?).
  - unfold populate_Update. destruct (S_Update ms t id f) as [ms' r]. destruct (redis_Update _ _ _ _ _ _ _ _ _) as [s' r'] eqn:Er. simpl in *.
    destruct r as [x|e|]; [exact Hr'|..].
    + assert (s' = s) as ->; [|exact Hr'].
      unfold redis_Update in Er. simpl in Er. destruct (decode _) as [y|ey|]; [|by simplify_eq..]. destruct (f y) as [u|eu|]; [|by simplify_eq..].
      simpl in Er. exfalso. destruct (EndTime u =? EndTime y); simplify_eq; by destruct e.
    + assert (s' = s) as ->; [|exact Hr'].
      unfold redis_Update in Er. simpl in Er. destruct (decode _) as [y|ey|]; [|by simplify_eq..]. destruct (f y) as [u|eu|]; [|by simplify_eq..].
      simpl in Er. exfalso. destruct (EndTime u =? EndTime y); by simplify_eq.
Qed.
Lemma populate_run_related ms s now cs : related ms s → all_fit ms s now cs → related (populate_run ms s now cs).1 (populate_run ms s now cs).2.
Proof using All.
  revert ms s. induction cs as [|c cs IH]; intros ms s Hr Hf; [done|]. destruct Hf as [Hc Hf]. simpl.
  pose proof (populate_related ms s now c Hr Hc) as Hr'. destruct (populate_call ms s now c) as [ms' s']. by apply IH.
Qed.
Lemma related_new s : rview s = ∅ → related NewStorage s.
Proof using All.
  intros Hs. split; [apply storage_wf_new|]. exists ∅, ∅. split; [by apply (good_empty team)|].
  intros i id. rewrite lookup_empty, S_item_eq. cbn. by rewrite cm_items_new.
Qed.
End interface.

(** ** Properties *)
Section refinement.
Context {M : Type → Type} `{CMapLaws M} {ID Rest E F K : Type} `{Countable ID} `{RedisLaws (payload ID Rest) K}.
Context (team : ID → string).
Hypothesis team_names : ∀ i, team_name (team i).
Context `{!Inj (=) (=) team}.

(** C13: while no command fails, the Redis backend answers a sequence of [Add],
    [Get], [Remove], [Update] and [TeamItems] calls, call by call, as the memory
    backend does (a list up to its order).  The calls of the sequence satisfy three
    conditions, each tested against what is stored when the call is made: an [Add] is
    of an ID that is not stored (memory refuses it, Redis overwrites: see
    [backends_differ_on_Add]), a [Remove] names the sandbox's own team (memory does
    not look at the team: see [backends_differ_on_Remove]), and the function of an
    [Update] keeps the team and the ID. *)
Theorem Redis_refines_memory (s : K) (now : Z) (cs : list (storage_call (ID := ID) (Rest := Rest) (F := F))) :
  rview s = ∅ → calls_fit (NewStorage : Storage M ID Rest E) cs →
  Forall2 same_answer (mem_answers (NewStorage : Storage M ID Rest E) cs) (redis_answers team s now cs).
Proof using All.
  intros Hs. pose proof (related_new (M := M) (E := E) (F := F) team team_names s Hs) as Hr.
  revert Hr. generalize (NewStorage : Storage M ID Rest E). clear Hs. revert s.
  induction cs as [|c cs IH]; intros s ms Hr; [constructor|]. intros [Hc Hcs].
  destruct (call_simulates team team_names ms s now c Hr Hc) as [Ha Hr']. simpl in *.
  destruct (mem_call ms c) as [ms' a], (redis_call team s now c) as [s' a']. constructor; [exact Ha|]. by apply IH.
Qed.

(** Where the backends differ.  [Add] of a stored ID: memory answers
    [ErrAlreadyExists] and keeps the sandbox it has; Redis stores the new one. *)
Lemma backends_differ_on_Add (ms : Storage M ID Rest E) (s : K) now (x : Sandbox ID Rest) b :
  related team ms s → S_item ms (SandboxID x) = Some b →
  (mem_call (F := F) ms (CallAdd x)).2 = AnsDone false ∧ (redis_call (F := F) team s now (CallAdd x)).2 = Some (AnsDone true) ∧
  S_item (mem_call (F := F) ms (CallAdd x)).1 (SandboxID x) = Some b ∧
  redis_Get team (redis_call (F := F) team s now (CallAdd x)).1 (TeamID x) (SandboxID x) true = Ok x.
Proof using All.
  intros Hr Hb. pose proof (S_Add_spec ms x (r_wf _ _ _ Hr)) as Ha. simpl. destruct (S_Add ms x) as [ms' err].
  destruct Ha as (_ & Hit & ->). rewrite Hb. split_and!; [done..| |].
  - simpl. rewrite Hit, Hb. done.
  - destruct (r_good _ _ _ Hr) as (m & zs & Hg & _). set (cs := [CIndex x; CStore x; CTeam (TeamID x) (Unix now)]).
    assert (safe_all team cs m zs) as Hsafe.
    { simpl. split_and!; [done| |done..]. rewrite lookup_insert_eq. eauto. }
    pose proof (good_execs team team_names s m zs cs (length cs) Hg Hsafe) as Hg'. rewrite take_ge in Hg' by done.
    change (redis_Get team (foldl (λ s c, exec team c s) s cs) (TeamID x) (SandboxID x) true = Ok x).
    rewrite (Get_shows _ team_names _ _ _ _ _ (g_shows _ _ _ _ Hg')). simpl. by rewrite lookup_insert_eq.
Qed.
(** [Remove] under another team: memory removes the sandbox, Redis keeps it. *)
Lemma backends_differ_on_Remove (ms : Storage M ID Rest E) (s : K) now t id b :
  related team ms s → S_item ms id = Some b → TeamID (data_ b) ≠ t →
  S_item (mem_call (F := F) ms (CallRemove t id)).1 id = None ∧
  redis_Get team (redis_call (F := F) team s now (CallRemove t id)).1 (TeamID (data_ b)) id true = Ok (data_ b).
Proof using All.
  intros Hr Hb Ht. split.
  - simpl. destruct (S_Remove_spec (F := F) team team_names ms id (r_wf _ _ _ Hr)) as [_ Hit]. rewrite Hit. by case_decide.
  - destruct (r_good _ _ _ Hr) as (m & zs & Hg & Hm). set (cs := [CForget (Rest := Rest) t id; CUnindex [expirationMember (team t) id]]).
    assert (safe_all team cs m zs) as Hsafe.
    { simpl. split_and!; [done| |done]. intros i id' [Et ->]%list_elem_of_singleton%(member_eq team team_names). by rewrite Et, lookup_delete_eq. }
    pose proof (good_execs team team_names s m zs cs (length cs) Hg Hsafe) as Hg'. rewrite take_ge in Hg' by done.
    change (redis_Get team (foldl (λ s c, exec team c s) s cs) (TeamID (data_ b)) id true = Ok (data_ b)).
    rewrite (Get_shows _ team_names _ _ _ _ _ (g_shows _ _ _ _ Hg')). simpl.
    rewrite lookup_delete_ne, Hm, Hb by (intros [= E']; apply (inj team) in E'; congruence). simpl. unfold owned. by rewrite decide_True.
Qed.

(** With the populating backend, whatever the calls, Redis holds what memory
    holds: a later [Get] or [TeamItems] is answered by both alike, while no command
    fails and the calls fit both. *)
Theorem Populate_mirrors (s : K) (now : Z) (cs : list (storage_call (ID := ID) (Rest := Rest) (F := F))) i id states :
  rview s = ∅ → all_fit team (NewStorage : Storage M ID Rest E) s now cs →
  let '(ms', s') := populate_run team (NewStorage : Storage M ID Rest E) s now cs in
  same_answer (mem_call ms' (CallGet (F := F) i id)).2 (redis_call team s' now (CallGet i id)).2 ∧
  same_answer (mem_call ms' (CallTeamItems (F := F) i states)).2 (redis_call team s' now (CallTeamItems i states)).2.
Proof using All.
  intros Hs Hf. pose proof (populate_run_related (E := E) team team_names _ s now cs (related_new (F := F) team team_names s Hs) Hf) as Hr.
  destruct (populate_run _ _ _ _ _) as [ms' s']. split; by apply call_simulates.
Qed.
End refinement.

#[local] Existing Instances GMapC.ops GMapC.laws RedisMap.ops RedisMap.laws.
Abbreviation ex_calls := (list (storage_call (ID := bool) (Rest := ()) (F := Empty_set))).

Lemma Redis_refines_memory_witness :
  Forall2 same_answer (mem_answers (NewStorage : Storage GMapC.t bool () nat) ([CallAdd ex_rs; CallGet true "sbx"; CallRemove true "sbx"; CallGet true "sbx"] : ex_calls))
    (redis_answers ex_team (∅ : ex_keyspace) 3 ([CallAdd ex_rs; CallGet true "sbx"; CallRemove true "sbx"; CallGet true "sbx"] : ex_calls)).
Proof.
  apply (Redis_refines_memory (M := GMapC.t) (E := nat) ex_team ex_team_names (∅ : ex_keyspace) 3); [done|].
  split; [by vm_compute|]. split; [done|]. split; [|by split]. intros b. vm_compute. intros [= <-]. done.
Defined.
Lemma Populate_mirrors_witness :
  same_answer (F := Empty_set) (AnsSandbox (Ok ex_rs)) (redis_call ex_team (populate_run (M := GMapC.t) (E := nat) ex_team NewStorage (∅ : ex_keyspace) 3 ([CallAdd ex_rs] : ex_calls)).2 3 (CallGet true "sbx")).2.
Proof.
  pose proof (Populate_mirrors (M := GMapC.t) (E := nat) ex_team ex_team_names (∅ : ex_keyspace) 3 ([CallAdd ex_rs] : ex_calls) true "sbx" [] ltac:(done)) as Hp.
  assert ((mem_call (populate_run (M := GMapC.t) (E := nat) ex_team NewStorage (∅ : ex_keyspace) 3 ([CallAdd ex_rs] : ex_calls)).1 (CallGet (F := Empty_set) true "sbx")).2 = AnsSandbox (Ok ex_rs)) as Hm
    by by vm_compute.
  destruct (populate_run _ _ _ _ _) as [ms' s']. cbn [fst snd] in *. rewrite <- Hm. apply Hp. split; [by vm_compute|done].
Defined.

