(* ===== verification/IpNet.v ===== *)
(** * Addresses and networks

    [ParseIP], [ParseCIDR], [Contains] and [SplitHostPort] of the package net, which
    the firewall of a sandbox and the proxies use.  An address is its 128 bits, an IPv4 address [a] the mapped
    ::ffff:a; strings are ASCII. *)
From Stdlib Require Import Ascii.
From S2P Require Import Prelude.

(** ** net *)
Definition digit (c : ascii) : option Z :=
  let n := Z.of_N (N_of_ascii c) in if (48 <=? n) && (n <=? 57) then Some (n - 48) else None.
Definition hexdigit (c : ascii) : option Z :=
  let n := Z.of_N (N_of_ascii c) in
  if (48 <=? n) && (n <=? 57) then Some (n - 48)
  else if (97 <=? n) && (n <=? 102) then Some (n - 87)
  else if (65 <=? n) && (n <=? 70) then Some (n - 55) else None.

(** [parseIPv4Fields]: [pos] fields read into [acc], the value and the number of
    digits of the next one. *)
Fixpoint ipv4_fields (s : string) (pos acc val digLen : Z) : option Z :=
  match s with
  | EmptyString => if (pos =? 3) && negb (digLen =? 0) then Some (acc * 256 + val) else None
  | String c rest =>
      match digit c with
      | Some d =>
          if (digLen =? 1) && (val =? 0) then None
          else if 255 <? val * 10 + d then None
          else ipv4_fields rest pos acc (val * 10 + d) (digLen + 1)
      | None =>
          if negb (bool_decide (c = "."%char)) || (digLen =? 0) || (pos =? 3) then None
          else ipv4_fields rest (pos + 1) (acc * 256 + val) 0 0
      end
  end.
Definition parseIPv4 (s : string) : option Z := ipv4_fields s 0 0 0 0.

(** A group of at most four hexadecimal digits: how many, its value, the rest. *)
Fixpoint hex_group (s : string) (off acc : Z) : option (Z * Z * string) :=
  match s with
  | String c rest =>
      match hexdigit c with
      | Some d => if 3 <? off then None else hex_group rest (off + 1) (acc * 16 + d)
      | None => Some (off, acc, s)
      end
  | EmptyString => Some (off, acc, s)
  end.
(** [ws]: the 16-bit words read; [ell]: where the ellipsis stands among them. *)
Fixpoint ipv6_loop (fuel : nat) (ws : list Z) (ell : option nat) (s : string) : option (list Z * option nat) :=
  match fuel with
  | O => None
  | S fuel =>
      if decide (length ws = 8%nat) then if String.eqb s "" then Some (ws, ell) else None
      else match hex_group s 0 0 with
      | None => None
      | Some (off, acc, rest) =>
          if off =? 0 then None
          else match rest with
          | EmptyString => Some (ws ++ [acc], ell)
          | String c rest =>
              if decide (c = "."%char) then
                if (bool_decide (ell = None) && negb (bool_decide (length ws = 6%nat))) || bool_decide (6 < length ws)%nat then None
                else (λ v4, (ws ++ [Z.shiftr v4 16; Z.land v4 65535], ell)) <$> parseIPv4 s
              else if decide (c = ":"%char) then
                match rest with
                | EmptyString => None
                | String c' rest' =>
                    if decide (c' = ":"%char) then
                      if bool_decide (is_Some ell) then None
                      else if String.eqb rest' "" then Some (ws ++ [acc], Some (S (length ws)))
                      else ipv6_loop fuel (ws ++ [acc]) (Some (S (length ws))) rest'
                    else ipv6_loop fuel (ws ++ [acc]) ell rest
                end
              else None
          end
      end
  end.
Definition words (ws : list Z) : Z := foldl (λ a w, a * 65536 + w) 0 ws.
(** The missing words are zeros at the ellipsis. *)
Definition expand (r : list Z * option nat) : option Z :=
  let '(ws, ell) := r in
  match ell with
  | None => if decide (length ws = 8%nat) then Some (words ws) else None
  | Some e => if decide (length ws = 8%nat) then None
              else Some (words (take e ws ++ replicate (8 - length ws) 0 ++ drop e ws))
  end.
(** A zone is refused by all callers. *)
Definition parseIPv6 (s : string) : option Z :=
  match s with
  | String ":" (String ":" rest) =>
      if String.eqb rest "" then Some 0 else ipv6_loop 9 [] (Some O) rest ≫= expand
  | _ => ipv6_loop 9 [] None s ≫= expand
  end.

Definition v4_mapped (a : Z) : Z := 65535 * 2 ^ 32 + a.
Definition To4 (ip : Z) : option Z := if Z.shiftr ip 32 =? 65535 then Some (ip mod 2 ^ 32) else None.

Fixpoint address_kind (s : string) : option ascii :=
  match s with
  | EmptyString => None
  | String c rest => if bool_decide (c = "."%char) || bool_decide (c = ":"%char) || bool_decide (c = "%"%char) then Some c else address_kind rest
  end.
Fixpoint has_char (c : ascii) (s : string) : bool :=
  match s with EmptyString => false | String c' s => bool_decide (c' = c) || has_char c s end.
(** [netip.ParseAddr] without zones: the address and its [BitLen]. *)
Definition ParseAddr (s : string) : option (Z * Z) :=
  match address_kind s with
  | Some "."%char => (λ a, (v4_mapped a, 32)) <$> parseIPv4 s
  | Some ":"%char => if has_char "%"%char s then None else (λ a, (a, 128)) <$> parseIPv6 s
  | _ => None
  end.
Definition ParseIP (s : string) : option Z := fst <$> ParseAddr s.

Fixpoint dtoi (s : string) (n : Z) : option Z :=
  match s with
  | EmptyString => Some n
  | String c rest => match digit c with Some d => if 16777215 <=? n * 10 + d then None else dtoi rest (n * 10 + d) | None => None end
  end.
Fixpoint cut (c : ascii) (s : string) : option (string * string) :=
  match s with
  | EmptyString => None
  | String c' s' => if decide (c' = c) then Some (EmptyString, s')
                    else match cut c s' with Some (a, b) => Some (String c' a, b) | None => None end
  end.
(** A network: the bits of its address family, the length of the prefix, and the
    masked address, in 128 bits for IPv6 and in 32 for IPv4. *)
Record IPNet := mkNet { net_bits : Z; net_ones : Z; net_ip : Z }.
Definition mask (bits ones a : Z) : Z := Z.shiftl (Z.shiftr a (bits - ones)) (bits - ones).
Definition ParseCIDR (s : string) : option IPNet :=
  match cut "/"%char s with
  | None => None
  | Some (addr, m) =>
      match ParseAddr addr, (if String.eqb m "" then None else dtoi m 0) with
      | Some (ip, bits), Some n =>
          if bits <? n then None
          else Some (mkNet bits n (if bits =? 32 then mask 32 n (ip mod 2 ^ 32) else mask 128 n ip))
      | _, _ => None
      end
  end.
Definition same_prefix (bits ones a b : Z) : bool := Z.shiftr a (bits - ones) =? Z.shiftr b (bits - ones).
(** Addresses of 4 and of 16 bytes never match; a mapped network counts as IPv4. *)
Definition Contains (n : IPNet) (ip : Z) : bool :=
  if net_bits n =? 32 then match To4 ip with Some b => same_prefix 32 (net_ones n) (net_ip n) b | None => false end
  else match To4 (net_ip n), To4 ip with
       | Some a, Some b => same_prefix 32 (net_ones n - 96) a b
       | None, None => same_prefix 128 (net_ones n) (net_ip n) ip
       | _, _ => false
       end.

Example parse_1 : ParseIP "10.1.2.3" = Some (v4_mapped 167838211). Proof. by vm_compute. Qed.
Example parse_2 : ParseIP "01.2.3.4" = None. Proof. by vm_compute. Qed.
Example parse_3 : ParseIP "::ffff:10.1.2.3" = ParseIP "10.1.2.3". Proof. by vm_compute. Qed.
Example parse_4 : ParseIP "fe80::1" = Some (65152 * 2 ^ 112 + 1). Proof. by vm_compute. Qed.
Example parse_5 : ParseIP "1::2::3" = None. Proof. by vm_compute. Qed.
Example parse_6 : is_Some (ParseIP "1:2:3:4:5:6:7::"). Proof. by vm_compute; eauto. Qed.
Example parse_7 : ParseIP "1:2:3:4:5:6:7:8::" = None. Proof. by vm_compute. Qed.
Example parse_8 : ParseCIDR "10.0.0.0/33" = None. Proof. by vm_compute. Qed.
Example parse_9 : (λ n, Contains n (v4_mapped 167838211)) <$> ParseCIDR "10.0.0.0/8" = Some true. Proof. by vm_compute. Qed.
Example parse_10 : (λ n, Contains n (65152 * 2 ^ 112 + 1)) <$> ParseCIDR "fe80::/10" = Some true. Proof. by vm_compute. Qed.


(** ** SplitHostPort *)
Fixpoint index_char (c : ascii) (s : string) : option nat :=
  match s with
  | EmptyString => None
  | String c' s => if decide (c' = c) then Some O else S <$> index_char c s
  end.
Fixpoint last_index (c : ascii) (s : string) : option nat :=
  match s with
  | EmptyString => None
  | String c' s => match last_index c s with
                   | Some i => Some (S i)
                   | None => if decide (c' = c) then Some O else None
                   end
  end.
Definition tail (n : nat) (s : string) : string := String.substring n (String.length s - n) s.
(** An error is its message. *)
Definition SplitHostPort (hostport : string) : res string (string * string) :=
  let addrErr why := Err (if String.eqb hostport "" then why else "address " +:+ hostport +:+ ": " +:+ why) in
  match last_index ":" hostport with
  | None => addrErr "missing port in address"
  | Some i =>
      let finish host j k :=
        if bool_decide (is_Some (index_char "[" (tail j hostport))) then addrErr "unexpected '[' in address"
        else if bool_decide (is_Some (index_char "]" (tail k hostport))) then addrErr "unexpected ']' in address"
        else Ok (host, tail (S i) hostport) in
      match hostport with
      | String "["%char _ =>
          match index_char "]" hostport with
          | None => addrErr "missing ']' in address"
          | Some e =>
              if decide (S e = String.length hostport) then addrErr "missing port in address"
              else if decide (S e = i) then finish (String.substring 1 (e - 1) hostport) 1%nat (S e)
              else if decide (String.get (S e) hostport = Some ":"%char) then addrErr "too many colons in address"
              else addrErr "missing port in address"
          end
      | _ =>
          let host := String.substring 0 i hostport in
          if has_char ":" host then addrErr "too many colons in address" else finish host O O
      end
  end.
Example split_1 : SplitHostPort "[::1]:80" = Ok ("::1", "80"). Proof. by vm_compute. Qed.
Example split_2 : SplitHostPort "a:b:1" = Err "address a:b:1: too many colons in address". Proof. by vm_compute. Qed.
Example split_3 : SplitHostPort "localhost" = Err "address localhost: missing port in address". Proof. by vm_compute. Qed.
Example split_4 : SplitHostPort "host:" = Ok ("host", ""). Proof. by vm_compute. Qed.

(** ** A parsed address has no slash *)
Lemma has_char_cons c d s : has_char c (String d s) = bool_decide (d = c) || has_char c s.
Proof. done. Qed.
Lemma ipv4_fields_slash s pos acc val n : has_char "/" s = true → ipv4_fields s pos acc val n = None.
Proof.
  revert pos acc val n; induction s as [|c s IH]; intros pos acc val n Hs; [done|].
  rewrite has_char_cons in Hs. cbn [ipv4_fields].
  destruct (digit c) as [d|] eqn:Hd.
  - assert (has_char "/" s = true) as Hs'.
    { destruct (decide (c = "/"%char)) as [->|]; [done|]. by rewrite bool_decide_false in Hs. }
    repeat case_match; try done; by apply IH.
  - destruct (decide (c = "/"%char)) as [->|]; [done|].
    rewrite bool_decide_false in Hs by done. repeat case_match; try done; by apply IH.
Qed.
Lemma hex_group_slash s off acc r : has_char "/" s = true → hex_group s off acc = Some r → has_char "/" r.2 = true.
Proof.
  revert off acc; induction s as [|c s IH]; intros off acc Hs; [done|]. cbn [hex_group].
  destruct (hexdigit c) as [d|] eqn:Hd; [|by intros [= <-]].
  destruct (3 <? off); [done|]. apply IH. rewrite has_char_cons in Hs.
  destruct (decide (c = "/"%char)) as [->|]; [done|]. by rewrite bool_decide_false in Hs.
Qed.
Lemma ipv6_loop_slash fuel ws ell s : has_char "/" s = true → ipv6_loop fuel ws ell s = None.
Proof.
  revert ws ell s; induction fuel as [|fuel IH]; intros ws ell s Hs; [done|]. cbn [ipv6_loop].
  case_decide; [by destruct s|].
  destruct (hex_group s 0 0) as [[[off acc] rest]|] eqn:Hg; [|done].
  pose proof (hex_group_slash _ _ _ _ Hs Hg) as Hr; cbn in Hr.
  destruct (off =? 0); [done|]. destruct rest as [|c rest]; [done|].
  rewrite has_char_cons in Hr. destruct (decide (c = "."%char)) as [H1|H1].
  { unfold parseIPv4. rewrite ipv4_fields_slash by done. match goal with |- (if ?b then _ else _) = _ => by destruct b end. }
  destruct (decide (c = ":"%char)) as [H2|H2]; [|done]. subst c. rewrite bool_decide_false in Hr by done.
  destruct rest as [|c' rest']; [done|]. destruct (decide (c' = ":"%char)) as [H3|H3]; [|by apply IH]. subst c'.
  rewrite has_char_cons, bool_decide_false in Hr by done.
  case_bool_decide; [done|]. destruct rest'; [done|]. by apply IH.
Qed.
Lemma ParseAddr_slash s : has_char "/" s = true → ParseAddr s = None.
Proof.
  intros Hs. unfold ParseAddr. destruct (address_kind s) as [c|]; [|done].
  assert (parseIPv4 s = None) as H4 by by apply ipv4_fields_slash.
  assert (parseIPv6 s = None) as H6.
  { unfold parseIPv6.
    assert (ipv6_loop 9 [] None s ≫= expand = None) as HN by by rewrite ipv6_loop_slash.
    destruct s as [|c1 s]; [done|].
    destruct (decide (c1 = ":"%char)) as [->|]; [|by destruct c1 as [[] [] [] [] [] [] [] []]].
    destruct s as [|c2 s]; [done|].
    destruct (decide (c2 = ":"%char)) as [->|]; [|by destruct c2 as [[] [] [] [] [] [] [] []]].
    destruct (String.eqb_spec s ""); [by subst|]. by rewrite ipv6_loop_slash. }
  rewrite H4, H6. repeat case_match; done.
Qed.
Lemma cut_cons c d s : cut c (String d s) =
  if decide (d = c) then Some (EmptyString, s)
  else match cut c s with Some (a, b) => Some (String d a, b) | None => None end.
Proof. done. Qed.
Lemma cut_app c a b : has_char c a = false → cut c (a +:+ String c b) = Some (a, b).
Proof.
  induction a as [|d a IH]; intros Ha.
  { change ("" +:+ String c b) with (String c b). rewrite cut_cons. by destruct (decide (c = c)). }
  change (String d a +:+ String c b) with (String d (a +:+ String c b)).
  rewrite has_char_cons in Ha. apply orb_false_iff in Ha as [Hd%bool_decide_eq_false Ha].
  rewrite cut_cons. destruct (decide (d = c)); [done|]. by rewrite IH.
Qed.
Lemma cut_slash c s r : cut c s = Some r → has_char c s = true.
Proof.
  revert r; induction s as [|d s IH]; cbn [cut]; intros r; [done|]. rewrite has_char_cons.
  destruct (decide (d = c)) as [->|]; [by rewrite bool_decide_true|].
  destruct (cut c s) as [[]|]; [|done]. intros _. rewrite (IH _ eq_refl). apply orb_true_r.
Qed.
(** A bare address with a prefix of 32 bits parses, in both families. *)
Lemma ParseCIDR_single s : is_Some (ParseIP s) → has_char "/" s = false ∧ is_Some (ParseCIDR (s +:+ "/32")).
Proof.
  unfold ParseIP. intros [ip Hip]. destruct (ParseAddr s) as [[a bits]|] eqn:Ha; [|done].
  assert (has_char "/" s = false) as Hs.
  { destruct (has_char "/" s) eqn:Hs; [|done]. by rewrite ParseAddr_slash in Ha. }
  split; [done|]. unfold ParseCIDR. rewrite cut_app by done. rewrite Ha. cbn.
  assert (bits = 32 ∨ bits = 128) as [-> | ->]; [|by eexists..].
  unfold ParseAddr in Ha. destruct (parseIPv4 s), (parseIPv6 s); repeat case_match; simplify_eq/=; tauto.
Qed.
Lemma ParseCIDR_has_slash s : is_Some (ParseCIDR s) → has_char "/" s = true.
Proof. unfold ParseCIDR. intros [n Hn]. destruct (cut "/" s) as [[]|] eqn:Hc; [|done]. by eapply cut_slash. Qed.

(** Every IPv4 address is in the network 0.0.0.0/0. *)
Lemma To4_mapped a : 0 ≤ a < 2 ^ 32 → To4 (v4_mapped a) = Some a.
Proof.
  intros Ha. unfold To4, v4_mapped. rewrite Z.shiftr_div_pow2 by lia.
  rewrite Z.div_add_l by lia. rewrite (Z.div_small a) by lia. cbn.
  f_equal. rewrite Z.add_comm, Z_mod_plus_full. by apply Z.mod_small.
Qed.
Lemma Contains_all a : 0 ≤ a < 2 ^ 32 → (λ n, Contains n (v4_mapped a)) <$> ParseCIDR "0.0.0.0/0" = Some true.
Proof.
  intros Ha. replace (ParseCIDR "0.0.0.0/0") with (Some (mkNet 32 0 0)) by by vm_compute.
  cbn. unfold Contains; cbn. rewrite To4_mapped by done. f_equal. unfold same_prefix.
  rewrite !Z.shiftr_div_pow2 by lia. by rewrite (Z.div_small a).
Qed.

(** ** The range of a parsed network *)
Lemma digit_nonneg c d : digit c = Some d → 0 ≤ d.
Proof. unfold digit. destruct ((48 <=? _) && _) eqn:Hd; [|done]. intros [= <-]. apply andb_true_iff in Hd as [?%Z.leb_le _]. lia. Qed.
Lemma dtoi_nonneg s n m : 0 ≤ n → dtoi s n = Some m → 0 ≤ m.
Proof.
  revert n; induction s as [|c s IH]; cbn [dtoi]; intros n Hn Hm; [by simplify_eq|].
  destruct (digit c) as [d|] eqn:Hd; [|done]. apply digit_nonneg in Hd. destruct (16777215 <=? _); [done|].
  eapply (IH _); [|done]. lia.
Qed.
Lemma ParseCIDR_net s n : ParseCIDR s = Some n →
  (net_bits n = 32 ∨ net_bits n = 128) ∧ 0 ≤ net_ones n ≤ net_bits n ∧ ∃ x, net_ip n = mask (net_bits n) (net_ones n) x.
Proof.
  unfold ParseCIDR. destruct (cut "/" s) as [[addr m]|]; [|done].
  destruct (ParseAddr addr) as [[ip bits]|] eqn:Ha; [|done].
  assert (bits = 32 ∨ bits = 128) as Hb.
  { unfold ParseAddr in Ha. destruct (parseIPv4 addr), (parseIPv6 addr); repeat case_match; simplify_eq/=; tauto. }
  destruct (if String.eqb m "" then None else dtoi m 0) as [k|] eqn:Hk; [|done].
  assert (0 ≤ k). { destruct (String.eqb m ""); [done|]. by eapply dtoi_nonneg in Hk. }
  destruct (Z.ltb_spec bits k) as [|Hle]; [done|]. intros [= <-]. cbn. split; [done|]. split; [lia|].
  destruct Hb as [-> | ->]; cbn; eauto.
Qed.
Lemma same_prefix_range ones x a : 0 ≤ ones ≤ 32 →
  same_prefix 32 ones (mask 32 ones x) a = true ↔ mask 32 ones x ≤ a ≤ mask 32 ones x + 2 ^ (32 - ones) - 1.
Proof.
  intros Ho. unfold same_prefix, mask. rewrite Z.eqb_eq.
  rewrite !Z.shiftr_div_pow2, Z.shiftl_mul_pow2 by lia. rewrite Z.div_mul by lia.
  set (k := 2 ^ (32 - ones)). assert (0 < k) by (unfold k; lia). set (q := x / k).
  pose proof (Z.div_mod a k ltac:(lia)). pose proof (Z.mod_pos_bound a k ltac:(lia)). nia.
Qed.
