(* ===== verification/Egress.v ===== *)
(** * Egress of a sandbox

    What a sandbox may connect to: packages/shared/pkg/sandbox-network/firewall.go
    (the denied ranges, addresses and domains), packages/orchestrator/internal/
    tcpfirewall/handlers.go (the decision for a TCP connection and the dial that
    follows), and where the rules come from: [validateNetworkConfig] and
    [buildNetworkConfig] of the API and [Create] of the orchestrator.  Host names
    and domains are ASCII. *)
From Stdlib Require Import Ascii.
From S2P Require Import Prelude IpNet.

(** ** sandbox-network/firewall.go *)
Definition AllInternetTrafficCIDR : string := "0.0.0.0/0".
Definition DefaultNameserver : string := "8.8.8.8".
Definition DeniedSandboxCIDRs : list string :=
  ["10.0.0.0/8"; "127.0.0.0/8"; "169.254.0.0/16"; "172.16.0.0/12"; "192.168.0.0/16"; "::1/128"; "fc00::/7"; "fe80::/10"].
Definition AddressStringToCIDR (addressString : string) : string :=
  if negb (has_char "/"%char addressString) then addressString +:+ "/32" else addressString.
Definition AddressStringsToCIDRs (addressStrings : list string) : list string := AddressStringToCIDR <$> addressStrings.
Definition IsIPOrCIDR (s : string) : bool :=
  if bool_decide (is_Some (ParseIP s)) then true else bool_decide (is_Some (ParseCIDR s)).
Definition ParseAddressesAndDomains (entries : list string) : list string * list string :=
  foldl (λ '(addresses, domains) entry, if IsIPOrCIDR entry then (addresses ++ [entry], domains) else (addresses, domains ++ [entry])) ([], []) entries.

(** ** strings *)
Definition lower (c : ascii) : ascii :=
  let n := N_of_ascii c in if (65 <=? Z.of_N n) && (Z.of_N n <=? 90) then ascii_of_N (n + 32) else c.
Fixpoint ToLower (s : string) : string := match s with EmptyString => EmptyString | String c s => String (lower c) (ToLower s) end.
Definition EqualFold (a b : string) : bool := String.eqb (ToLower a) (ToLower b).
Fixpoint HasPrefix (s p : string) : bool :=
  match p, s with
  | EmptyString, _ => true
  | String c p, String c' s => bool_decide (c' = c) && HasPrefix s p
  | _, EmptyString => false
  end.
Fixpoint HasSuffix (s p : string) : bool :=
  String.eqb s p || match s with EmptyString => false | String _ s => HasSuffix s p end.

(** ** The rules of a sandbox *)
Record egress := mkEgress { AllowedCidrs : list string; DeniedCidrs : list string; AllowedDomains : list string }.
(** [SandboxNetworkEgressConfig]. *)
Record user_egress := mkUserEgress { AllowedAddresses : list string; DeniedAddresses : list string }.
(** The body of a request, absent lists empty. *)
Record api_network := mkApiNetwork { MaskRequestHost : option string; AllowOut : list string; DenyOut : list string }.
Definition network_egress (n : api_network) : user_egress := mkUserEgress (AllowOut n) (DenyOut n).
Inductive network_error :=
  | MaskHostInvalid (maskRequestHost : string)
  | MaskHostNotASCII (hostname : string)
  | InvalidDenied (cidr : string)
  | DomainsRequireBlockAll.

(** [idna.Display.ToASCII] of golang.org/x/net. *)
Class Idna := ToASCII : string → option string.
Fixpoint str_contains (s sub : string) : bool :=
  HasPrefix s sub || match s with EmptyString => false | String _ s => str_contains s sub end.
Definition splitHostPortOptional (hostport : string) : res string (string * string) :=
  match SplitHostPort hostport with
  | Err e => if str_contains e "missing port" then Ok (hostport, "") else Err e
  | r => r
  end.
Definition validate_mask `{Idna} (maskRequestHost : string) : option network_error :=
  match splitHostPortOptional maskRequestHost with
  | Ok (hostname, _) =>
      match ToASCII hostname with
      | None => Some (MaskHostInvalid maskRequestHost)
      | Some host => if EqualFold host hostname then None else Some (MaskHostNotASCII hostname)
      end
  | _ => Some (MaskHostInvalid maskRequestHost)
  end.
Definition validate_egress (denyOut allowOut : list string) : option network_error :=
  match list_find (λ cidr, IsIPOrCIDR cidr = false) denyOut with
  | Some (_, cidr) => Some (InvalidDenied cidr)
  | None =>
      if bool_decide (allowOut = []) then None
      else
        let '(_, allowedDomains) := ParseAddressesAndDomains allowOut in
        let hasBlockAll := bool_decide (AllInternetTrafficCIDR ∈ denyOut) in
        if negb (bool_decide (allowedDomains = [])) && negb hasBlockAll then Some DomainsRequireBlockAll else None
  end.
Definition validateNetworkConfig `{Idna} (network : option api_network) : option network_error :=
  match network with
  | None => None
  | Some n =>
      match MaskRequestHost n ≫= validate_mask with
      | Some e => Some e
      | None => validate_egress (DenyOut n) (AllowOut n)
      end
  end.
Definition buildNetworkConfig (network : option user_egress) (allowInternetAccess : option bool) : egress :=
  let orchNetwork := match network with
    | Some u =>
        let '(allowedAddresses, allowedDomains) := ParseAddressesAndDomains (AllowedAddresses u) in
        let allowedAddresses := if bool_decide (allowedDomains = []) then allowedAddresses else allowedAddresses ++ [DefaultNameserver] in
        mkEgress (AddressStringsToCIDRs allowedAddresses) (AddressStringsToCIDRs (DeniedAddresses u)) allowedDomains
    | None => mkEgress [] [] []
    end in
  match allowInternetAccess with
  | Some false => mkEgress (AllowedCidrs orchNetwork) [AllInternetTrafficCIDR] (AllowedDomains orchNetwork)
  | _ => orchNetwork
  end.
(** What [Create] makes of the request; [config] is [AllowSandboxInternet]. *)
Definition create_egress (network : option (option egress)) (config : bool) (allow : option bool) : option (option egress) :=
  if default config allow then network
  else let e := default (mkEgress [] [] []) (default None network) in
       Some (Some (mkEgress (AllowedCidrs e) [AllInternetTrafficCIDR] (AllowedDomains e))).

(** ** tcpfirewall/handlers.go *)
Definition matchDomain (hostname pattern : string) : bool :=
  if String.eqb pattern "" then false
  else if EqualFold pattern hostname then true
  else if EqualFold pattern "*" then true
  else if HasPrefix pattern "*." then
    match pattern with
    | String _ suffix => HasSuffix (ToLower hostname) (ToLower suffix)
    | EmptyString => false
    end
  else false.

Inductive MatchType := MatchTypeNone | MatchTypeDomain | MatchTypeCIDR.
(** The first CIDR of the list that holds the address: [Err] when one before it
    does not parse. *)
Fixpoint first_match (cidrs : list string) (ip : Z) : res string bool :=
  match cidrs with
  | [] => Ok false
  | cidr :: cidrs =>
      match ParseCIDR cidr with
      | None => Err cidr
      | Some ipNet => if Contains ipNet ip then Ok true else first_match cidrs ip
      end
  end.
Definition isEgressAllowed (network : option (option egress)) (hostname : string) (ip : Z) : res string (bool * MatchType) :=
  match network with
  | None | Some None => Ok (true, MatchTypeNone)
  | Some (Some e) =>
      if negb (String.eqb hostname "") && existsb (matchDomain hostname) (AllowedDomains e) then Ok (true, MatchTypeDomain)
      else
        match first_match (AllowedCidrs e) ip with
        | Err c => Err c
        | Panic => Panic
        | Ok true => Ok (true, MatchTypeCIDR)
        | Ok false =>
            match first_match (DeniedCidrs e) ip with
            | Err c => Err c
            | Panic => Panic
            | Ok true => Ok (false, MatchTypeCIDR)
            | Ok false => Ok (true, MatchTypeNone)
            end
        end
  end.
Definition isIPInAlwaysDeniedCIDRs (ip : Z) : bool :=
  existsb (λ cidr, match ParseCIDR cidr with Some ipNet => Contains ipNet ip | None => false end) DeniedSandboxCIDRs.

(** What becomes of the connection. *)
Inductive conn_action :=
  | CloseConn
  | DialHost (hostname : string) (port : Z)   (** [proxyWithIPVerification] *)
  | DialIP (ip port : Z).                     (** [proxy] *)
Definition domainHandler (network : option (option egress)) (hostname : string) (dstIP dstPort : Z) : conn_action :=
  match isEgressAllowed network hostname dstIP with
  | Ok (false, _) | Err _ | Panic => CloseConn
  | Ok (true, MatchTypeDomain) => DialHost hostname dstPort
  | Ok (true, _) => DialIP dstIP dstPort
  end.
Definition cidrOnlyHandler (network : option (option egress)) (dstIP dstPort : Z) : conn_action :=
  match isEgressAllowed network "" dstIP with
  | Ok (true, _) => DialIP dstIP dstPort
  | _ => CloseConn
  end.
(** [ControlContext]: whether the dialer may connect to a resolved address. *)
Definition dial_control (host : string) : bool :=
  match ParseIP host with None => false | Some resolvedIP => negb (isIPInAlwaysDeniedCIDRs resolvedIP) end.


(** ** Declarative readings *)

(** A network of the list holds the address. *)
Definition covers (cidrs : list string) (ip : Z) : Prop :=
  ∃ cidr n, cidr ∈ cidrs ∧ ParseCIDR cidr = Some n ∧ Contains n ip = true.
Definition domain_allowed (e : egress) (hostname : string) : Prop :=
  hostname ≠ "" ∧ ∃ d, d ∈ AllowedDomains e ∧ matchDomain hostname d = true.
(** Every network of the rules parses. *)
Definition well_formed (e : egress) : Prop :=
  Forall (λ c, is_Some (ParseCIDR c)) (AllowedCidrs e) ∧ Forall (λ c, is_Some (ParseCIDR c)) (DeniedCidrs e).

Lemma covers_cons c l ip : covers (c :: l) ip ↔ (∃ n, ParseCIDR c = Some n ∧ Contains n ip = true) ∨ covers l ip.
Proof. unfold covers. set_solver. Qed.
Lemma first_match_spec cidrs ip :
  Forall (λ c, is_Some (ParseCIDR c)) cidrs → ∃ b, first_match cidrs ip = Ok b ∧ (b = true ↔ covers cidrs ip).
Proof.
  induction 1 as [|c l [n Hn] _ (b & IH & Hb)]; cbn [first_match].
  { exists false. split; [done|]. split; [done|]. intros (? & ? & ?%elem_of_nil & _). done. }
  rewrite Hn, IH. setoid_rewrite covers_cons. destruct (Contains n ip) eqn:Hc.
  - exists true. split; [done|]. split; [|done]. intros _. left. eauto.
  - exists b. split; [done|]. rewrite Hb. split; [by right|]. intros [(m & Hm & ?)|?]; [|done].
    rewrite Hn in Hm. injection Hm as <-. congruence.
Qed.
Lemma existsb_domain e h : negb (String.eqb h "") && existsb (matchDomain h) (AllowedDomains e) = true ↔ domain_allowed e h.
Proof.
  unfold domain_allowed. rewrite andb_true_iff, negb_true_iff, String.eqb_neq, existsb_exists.
  by setoid_rewrite list_elem_of_In.
Qed.
Lemma isEgressAllowed_spec e h ip : well_formed e →
  ∃ b mt, isEgressAllowed (Some (Some e)) h ip = Ok (b, mt) ∧
    (b = true ↔ domain_allowed e h ∨ covers (AllowedCidrs e) ip ∨ ¬ covers (DeniedCidrs e) ip) ∧
    (mt = MatchTypeDomain ↔ domain_allowed e h).
Proof.
  intros [HA HD]. unfold isEgressAllowed. pose proof (existsb_domain e h) as Hdom.
  destruct (negb _ && _); [naive_solver|].
  destruct (first_match_spec _ ip HA) as (a & -> & Ha), (first_match_spec _ ip HD) as (d & -> & Hd).
  destruct a; [|destruct d]; eexists _, _; (split; [done|]); split; intuition discriminate.
Qed.

(** The rules that reach the orchestrator parse. *)
Lemma parse_addresses_app l a d :
  foldl (λ '(addresses, domains) entry,
    if IsIPOrCIDR entry then (addresses ++ [entry], domains) else (addresses, domains ++ [entry])) (a, d) l =
  (a ++ filter (λ s, IsIPOrCIDR s = true) l, d ++ filter (λ s, IsIPOrCIDR s = false) l).
Proof.
  revert a d; induction l as [|x l IH]; intros a d; cbn [foldl]; [by rewrite !app_nil_r|].
  rewrite !filter_cons. destruct (IsIPOrCIDR x) eqn:Hx; rewrite IH; repeat case_decide; simplify_eq;
    by rewrite <-?(assoc_L (++)).
Qed.
Lemma ParseAddressesAndDomains_filter l :
  ParseAddressesAndDomains l = (filter (λ s, IsIPOrCIDR s = true) l, filter (λ s, IsIPOrCIDR s = false) l).
Proof. apply parse_addresses_app. Qed.
Lemma IsIPOrCIDR_parses s : IsIPOrCIDR s = true → is_Some (ParseCIDR (AddressStringToCIDR s)).
Proof.
  unfold IsIPOrCIDR, AddressStringToCIDR. case_bool_decide as Hip.
  - destruct (ParseCIDR_single _ Hip) as [-> ?]. by intros _.
  - intros Hc%bool_decide_eq_true. by rewrite (ParseCIDR_has_slash _ Hc).
Qed.
Lemma to_cidrs_parse l : Forall (λ s, IsIPOrCIDR s = true) l → Forall (λ c, is_Some (ParseCIDR c)) (AddressStringsToCIDRs l).
Proof. intros Hl. apply Forall_fmap. eapply Forall_impl; [done|]. apply IsIPOrCIDR_parses. Qed.
Lemma validate_denied d a : validate_egress d a = None → Forall (λ s, IsIPOrCIDR s = true) d.
Proof.
  unfold validate_egress. destruct (list_find _ _) as [[]|] eqn:Hf; [done|]. intros _.
  apply list_find_None in Hf. eapply Forall_impl; [done|]. intros s Hs. by apply not_false_iff_true.
Qed.
Lemma validate_block_all d a : validate_egress d a = None →
  filter (λ s, IsIPOrCIDR s = false) a ≠ [] → AllInternetTrafficCIDR ∈ d.
Proof.
  unfold validate_egress. destruct (list_find _ _) as [[]|] eqn:Hf; [done|].
  case_bool_decide as Hn; [by rewrite Hn|]. rewrite ParseAddressesAndDomains_filter.
  repeat case_bool_decide; done.
Qed.
Lemma well_formed_block_all a d : Forall (λ c, is_Some (ParseCIDR c)) a → well_formed (mkEgress a [AllInternetTrafficCIDR] d).
Proof. intros ?; split; [done|]. constructor; [|done]. by eexists. Qed.
Lemma validate_egress_ok `{Idna} n : validateNetworkConfig (Some n) = None → validate_egress (DenyOut n) (AllowOut n) = None.
Proof. cbn. by destruct (MaskRequestHost n ≫= validate_mask). Qed.
Lemma build_well_formed `{Idna} network allow :
  validateNetworkConfig network = None → well_formed (buildNetworkConfig (network_egress <$> network) allow).
Proof.
  intros Hv.
  enough (well_formed (buildNetworkConfig (network_egress <$> network) None)) as [Ha Hd].
  { unfold buildNetworkConfig in *. destruct allow as [[]|]; [done| |done]. by apply well_formed_block_all. }
  destruct network as [u|]; cbn -[validateNetworkConfig] in *; [|split; constructor].
  apply validate_egress_ok in Hv. rewrite ParseAddressesAndDomains_filter. split; cbn.
  - apply to_cidrs_parse. assert (Forall (λ s, IsIPOrCIDR s = true) (filter (λ s, IsIPOrCIDR s = true) (AllowOut u))) as Hl.
    { apply Forall_forall. intros s [? _]%list_elem_of_filter. done. }
    case_bool_decide; [done|]. apply Forall_app. split; [done|]. by repeat constructor.
  - by eapply to_cidrs_parse, validate_denied.
Qed.
(** What the sandbox runs with: the API's rules, then the orchestrator's override. *)
Definition sandbox_rules (network : option api_network) (allow : option bool) (config : bool) : option (option egress) :=
  create_egress (Some (Some (buildNetworkConfig (network_egress <$> network) allow))) config allow.
Lemma sandbox_rules_egress `{Idna} network allow config : validateNetworkConfig network = None →
  ∃ e, sandbox_rules network allow config = Some (Some e) ∧ well_formed e ∧
    let e0 := buildNetworkConfig (network_egress <$> network) allow in
    AllowedCidrs e = AllowedCidrs e0 ∧ AllowedDomains e = AllowedDomains e0 ∧
    (DeniedCidrs e = DeniedCidrs e0 ∨ DeniedCidrs e = [AllInternetTrafficCIDR]).
Proof.
  intros Hv. pose proof (build_well_formed _ allow Hv) as Hw. unfold sandbox_rules, create_egress.
  destruct (default config allow); [by eauto 10|]. eexists; split_and!; [done| |by eauto..].
  by apply well_formed_block_all, Hw.
Qed.
Lemma build_allowed network allow e : e = buildNetworkConfig network allow →
  AllowedDomains e = match network with Some u => filter (λ s, IsIPOrCIDR s = false) (AllowedAddresses u) | None => [] end ∧
  AllowedCidrs e = match network with
    | Some u => AddressStringsToCIDRs (filter (λ s, IsIPOrCIDR s = true) (AllowedAddresses u) ++
                  if bool_decide (AllowedDomains e = []) then [] else [DefaultNameserver])
    | None => [] end.
Proof.
  intros ->. unfold buildNetworkConfig. destruct network as [u|]; [rewrite ParseAddressesAndDomains_filter|];
    destruct allow as [[]|]; split; try done; cbn; case_bool_decide; by rewrite ?app_nil_r.
Qed.
Lemma sandbox_rules_allowed network allow config e : sandbox_rules network allow config = Some (Some e) →
  let e0 := buildNetworkConfig (network_egress <$> network) allow in
  AllowedDomains e = AllowedDomains e0 ∧ AllowedCidrs e = AllowedCidrs e0.
Proof. unfold sandbox_rules, create_egress. destruct (default config allow); intros [= <-]; done. Qed.

(** ** Host names *)
Lemma HasSuffix_spec s p : HasSuffix s p = true ↔ ∃ x, s = x +:+ p.
Proof.
  induction s as [|c s IH]; cbn [HasSuffix]; rewrite orb_true_iff, String.eqb_eq; split.
  - intros [->|?]; [|done]. by exists "".
  - intros [x Hx]. left. destruct x; [done|]. by cbn in Hx.
  - intros [->|[x ->]%IH]; [by exists ""|]. by exists (String c x).
  - intros [[|d x] Hx]; [by left|]. right. apply IH. exists x. by injection Hx.
Qed.
Lemma HasPrefix_spec s p : HasPrefix s p = true ↔ ∃ x, s = p +:+ x.
Proof.
  revert s; induction p as [|c p IH]; intros s.
  { split; [by exists s|by destruct s]. }
  destruct s as [|d s]; cbn [HasPrefix]; [split; [done|by intros [x ?]]|].
  rewrite andb_true_iff, bool_decide_eq_true, IH. split.
  - intros [-> [x ->]]. by exists x.
  - intros [x Hx]. injection Hx as -> ->. eauto.
Qed.
Lemma lower_star c : lower c = "*"%char ↔ c = "*"%char.
Proof. split; [|by intros ->]. by destruct c as [[] [] [] [] [] [] [] []]. Qed.
Lemma EqualFold_star p : EqualFold p "*" = true ↔ p = "*".
Proof.
  unfold EqualFold. rewrite String.eqb_eq. split; [|by intros ->]. destruct p as [|c [|]]; [done| |done].
  intros Hc. assert (lower c = "*"%char) as ->%lower_star by by injection Hc. done.
Qed.
(** A host name matches a pattern when they are equal up to the case of letters,
    the pattern is a star, or the pattern is a star before a dot and the host name ends
    with the rest, the dot included. *)
Lemma matchDomain_spec h p :
  matchDomain h p = true ↔
    p = "*" ∨ (p ≠ "" ∧ ToLower p = ToLower h) ∨
    (∃ d x, p = "*." +:+ d ∧ ToLower h = x +:+ ToLower ("." +:+ d)).
Proof.
  unfold matchDomain. destruct (String.eqb_spec p "") as [->|Hp].
  { split; [done|]. intros [?|[[? _]|(d & x & ? & _)]]; done. }
  destruct (EqualFold p h) eqn:He.
  { split; [|done]. intros _. right; left. by apply String.eqb_eq in He. }
  destruct (EqualFold p "*") eqn:Hs.
  { apply EqualFold_star in Hs. naive_solver. }
  destruct (HasPrefix p "*.") eqn:Hx.
  - apply HasPrefix_spec in Hx as [d ->]. change ("*." +:+ d) with (String "*" ("." +:+ d)) in *.
    cbn iota. rewrite HasSuffix_spec. split; [intros [x ?]; right; right; eauto|].
    intros [?|[[_ Hl]|(d' & x & Hd & Hx)]].
    + apply EqualFold_star in H. congruence.
    + unfold EqualFold in He. rewrite Hl, String.eqb_refl in He. done.
    + change (String "*" (String "." d) = String "*" (String "." d')) in Hd. injection Hd as ->. eauto.
  - split; [done|]. intros [?|[[_ Hl]|(d & x & -> & _)]].
    + apply EqualFold_star in H. congruence.
    + unfold EqualFold in He. rewrite Hl, String.eqb_refl in He. done.
    + enough (HasPrefix ("*." +:+ d) "*." = true) by congruence. apply HasPrefix_spec. eauto.
Qed.

(** ** What a connection may reach *)
Lemma isIPInAlwaysDeniedCIDRs_covers ip : isIPInAlwaysDeniedCIDRs ip = true ↔ covers DeniedSandboxCIDRs ip.
Proof.
  unfold isIPInAlwaysDeniedCIDRs, covers. rewrite existsb_exists. setoid_rewrite <-list_elem_of_In. split.
  - intros (c & Hc & Hn). destruct (ParseCIDR c) as [n|] eqn:Hp; [|done]. eauto.
  - intros (c & n & Hc & Hp & Hn). exists c. by rewrite Hp.
Qed.
Lemma dial_control_spec host : dial_control host = true ↔ ∃ ip, ParseIP host = Some ip ∧ ¬ covers DeniedSandboxCIDRs ip.
Proof.
  unfold dial_control. setoid_rewrite <-isIPInAlwaysDeniedCIDRs_covers.
  destruct (ParseIP host) as [ip|]; [|naive_solver]. rewrite negb_true_iff, <-not_true_iff_false. naive_solver.
Qed.
(** The unspecified addresses are in none of the denied ranges: a domain that
    resolves to one makes the dialer connect to the host it runs on. *)
Lemma dial_control_unspecified : dial_control "0.0.0.0" = true ∧ dial_control "::" = true ∧
  dial_control "127.0.0.1" = false ∧ dial_control "::ffff:127.0.0.1" = false ∧ dial_control "::1" = false.
Proof. by vm_compute. Qed.

(** C29: a network configuration the API accepts never makes the egress check fail at
    run time, whatever the override of internet access: with the rules the sandbox
    gets, a connection is dialled by its host name exactly when the host name
    matches an allowed domain, else to its own destination exactly when an allowed
    network holds it or no denied network does, and else it is closed; without a host
    name the domains are not asked. *)
Theorem Egress_validated_decides `{Idna} network allow config h ip port :
  validateNetworkConfig network = None →
  ∃ e, sandbox_rules network allow config = Some (Some e) ∧
    let r := domainHandler (Some (Some e)) h ip port in
    (r = DialHost h port ↔ domain_allowed e h) ∧
    (r = DialIP ip port ↔ ¬ domain_allowed e h ∧ (covers (AllowedCidrs e) ip ∨ ¬ covers (DeniedCidrs e) ip)) ∧
    (r = CloseConn ↔ ¬ domain_allowed e h ∧ ¬ covers (AllowedCidrs e) ip ∧ covers (DeniedCidrs e) ip) ∧
    cidrOnlyHandler (Some (Some e)) ip port = domainHandler (Some (Some e)) "" ip port.
Proof.
  intros Hv. destruct (sandbox_rules_egress network allow config Hv) as (e & He & Hw & _).
  exists e. split; [done|].
  destruct (isEgressAllowed_spec e h ip Hw) as (b & mt & Hr & Hb & Hmt).
  destruct (isEgressAllowed_spec e "" ip Hw) as (b0 & mt0 & Hr0 & _ & Hmt0).
  unfold domainHandler, cidrOnlyHandler. rewrite Hr, Hr0.
  assert (mt0 ≠ MatchTypeDomain) by (rewrite Hmt0; by intros [? _]).
  split_and!.
  - rewrite <-Hmt. destruct b, mt; try naive_solver.
  - destruct b, mt; split; intros; simplify_eq; naive_solver.
  - destruct b; [destruct mt; naive_solver|]. split; [|done]. intros _.
    split; [naive_solver|]. split; [naive_solver|]. destruct (first_match_spec _ ip (proj2 Hw)) as (d & _ & Hd).
    destruct d; [naive_solver|]. exfalso. assert (false = true); [|done]. apply Hb. right; right. intros Hc%Hd. done.
  - by destruct b0, mt0.
Qed.
#[local] Instance idna_ascii : Idna := Some.
Lemma Egress_validated_decides_witness :
  let u := Some (mkApiNetwork None ["*.example.com"; "1.1.1.1"] ["0.0.0.0/0"]) in
  validateNetworkConfig u = None ∧
  ∃ e, sandbox_rules u None true = Some (Some e) ∧
    let r := domainHandler (Some (Some e)) "api.Example.com" (v4_mapped 1) 443 in
    (r = DialHost "api.Example.com" 443 ↔ domain_allowed e "api.Example.com") ∧
    (r = DialIP (v4_mapped 1) 443 ↔
      ¬ domain_allowed e "api.Example.com" ∧ (covers (AllowedCidrs e) (v4_mapped 1) ∨ ¬ covers (DeniedCidrs e) (v4_mapped 1))) ∧
    (r = CloseConn ↔ ¬ domain_allowed e "api.Example.com" ∧ ¬ covers (AllowedCidrs e) (v4_mapped 1) ∧ covers (DeniedCidrs e) (v4_mapped 1)) ∧
    cidrOnlyHandler (Some (Some e)) (v4_mapped 1) 443 = domainHandler (Some (Some e)) "" (v4_mapped 1) 443.
Proof. intros u. split; [by vm_compute|]. apply Egress_validated_decides. by vm_compute. Defined.

(** C27: an accepted configuration that allows a domain confines the sandbox: a TCP
    connection of the sandbox to an IPv4 address either is closed, or is dialled by a
    host name that matches one of the entries the user allowed, or goes to an address
    in one of the networks the user allowed or to the default name server.  Another
    destination is never reached, whatever host name the sandbox claims. *)
Theorem Egress_domains_confined `{Idna} u allow config h a port :
  validateNetworkConfig (Some u) = None →
  (∃ d, d ∈ AllowOut u ∧ IsIPOrCIDR d = false) →
  0 ≤ a < 2 ^ 32 →
  match domainHandler (sandbox_rules (Some u) allow config) h (v4_mapped a) port with
  | CloseConn => True
  | DialHost h' port' => h' = h ∧ port' = port ∧
      ∃ d, d ∈ AllowOut u ∧ IsIPOrCIDR d = false ∧ matchDomain h d = true
  | DialIP ip port' => ip = v4_mapped a ∧ port' = port ∧
      covers (AddressStringsToCIDRs (filter (λ s, IsIPOrCIDR s = true) (AllowOut u) ++ [DefaultNameserver])) ip
  end.
Proof.
  intros Hv (d0 & Hd0 & Hip0) Ha.
  destruct (sandbox_rules_egress (Some u) allow config Hv) as (e & He & Hw & _ & _ & Hden).
  destruct (sandbox_rules_allowed _ _ _ _ He) as [Hdom Hal].
  destruct (build_allowed (Some (network_egress u)) allow _ eq_refl) as [Hbd Hba]. cbn in Hdom, Hal. rewrite Hba, Hbd in Hal. rewrite Hbd in Hdom.
  rewrite He. cbn [network_egress AllowedAddresses] in Hdom, Hal.
  assert (filter (λ s, IsIPOrCIDR s = false) (AllowOut u) ≠ []) as Hne.
  { intros Hn. assert (d0 ∈ filter (λ s, IsIPOrCIDR s = false) (AllowOut u)) as Hin by by apply list_elem_of_filter.
    rewrite Hn in Hin. by apply elem_of_nil in Hin. }
  assert (covers (DeniedCidrs e) (v4_mapped a)) as Hcov.
  { assert (AllInternetTrafficCIDR ∈ DeniedCidrs e) as Hin.
    { destruct Hden as [-> | ->]; [|by left]. pose proof (validate_block_all _ _ (validate_egress_ok u Hv) Hne) as Hb.
      unfold buildNetworkConfig; cbn [fmap option_fmap option_map]. rewrite ParseAddressesAndDomains_filter.
      destruct allow as [[]|]; cbn; try (by left); by apply (list_elem_of_fmap_2 AddressStringToCIDR _ AllInternetTrafficCIDR). }
    destruct (proj1 (fmap_Some _ _ _) (Contains_all a Ha)) as (n & Hn & Hc). exists AllInternetTrafficCIDR, n. done. }
  destruct (isEgressAllowed_spec e h (v4_mapped a) Hw) as (b & mt & Hr & Hb & Hmt).
  unfold domainHandler. rewrite Hr. destruct b; [|done].
  rewrite bool_decide_false in Hal by done. rewrite Hal in Hb.
  unfold domain_allowed in *. rewrite Hdom in *. setoid_rewrite list_elem_of_filter in Hmt. setoid_rewrite list_elem_of_filter in Hb.
  assert (mt ≠ MatchTypeDomain → covers (AddressStringsToCIDRs (filter (λ s, IsIPOrCIDR s = true) (AllowOut u) ++ [DefaultNameserver])) (v4_mapped a)) as Hip.
  { intros Hne'. destruct (proj1 Hb eq_refl) as [Hx%Hmt|[?|?]]; done. }
  destruct mt; [by auto| |by auto]. destruct (proj1 Hmt eq_refl) as (_ & d & [? ?] & ?). eauto 10.
Qed.
Lemma Egress_domains_confined_witness :
  let u := mkApiNetwork (Some "localhost:80") ["example.com"] ["0.0.0.0/0"] in
  validateNetworkConfig (Some u) = None ∧
  match domainHandler (sandbox_rules (Some u) None true) "evil.com" (v4_mapped 16843009) 443 with
  | CloseConn => True
  | DialHost h' port' => h' = "evil.com" ∧ port' = 443 ∧
      ∃ d, d ∈ AllowOut u ∧ IsIPOrCIDR d = false ∧ matchDomain "evil.com" d = true
  | DialIP ip port' => ip = v4_mapped 16843009 ∧ port' = 443 ∧
      covers (AddressStringsToCIDRs (filter (λ s, IsIPOrCIDR s = true) (AllowOut u) ++ [DefaultNameserver])) ip
  end.
Proof.
  intros u. split; [by vm_compute|]. apply Egress_domains_confined; [by vm_compute| |lia].
  exists "example.com". split; [by left|by vm_compute].
Defined.
Example confined_closes :
  domainHandler (sandbox_rules (Some (mkApiNetwork (Some "localhost:80") ["example.com"] ["0.0.0.0/0"])) None true) "evil.com" (v4_mapped 16843009) 443 = CloseConn.
Proof. by vm_compute. Qed.

(** ** Rules that come back *)

(** What the API reads back from a node when it synchronises its sandboxes. *)
Definition read_back (e : egress) : user_egress := mkUserEgress (AllowedCidrs e ++ AllowedDomains e) (DeniedCidrs e).
Lemma AddressStringToCIDR_cidr c : is_Some (ParseCIDR c) → AddressStringToCIDR c = c.
Proof. intros Hc%ParseCIDR_has_slash. unfold AddressStringToCIDR. by rewrite Hc. Qed.
Lemma cidrs_stay l : Forall (λ c, is_Some (ParseCIDR c)) l →
  filter (λ s, IsIPOrCIDR s = true) l = l ∧ filter (λ s, IsIPOrCIDR s = false) l = [] ∧ AddressStringsToCIDRs l = l.
Proof.
  induction 1 as [|c l Hc _ (IH1 & IH2 & IH3)]; [done|].
  assert (IsIPOrCIDR c = true) as Hip.
  { unfold IsIPOrCIDR. rewrite (bool_decide_true (is_Some (ParseCIDR c))) by done. by case_bool_decide. }
  rewrite !filter_cons, decide_True, decide_False by (by rewrite ?Hip). unfold AddressStringsToCIDRs in *. cbn.
  by rewrite IH1, IH2, IH3, AddressStringToCIDR_cidr.
Qed.
Lemma domains_stay l : Forall (λ s, IsIPOrCIDR s = false) l →
  filter (λ s, IsIPOrCIDR s = true) l = [] ∧ filter (λ s, IsIPOrCIDR s = false) l = l.
Proof.
  induction 1 as [|c l Hc _ (IH1 & IH2)]; [done|].
  rewrite !filter_cons, decide_False, decide_True by (by rewrite ?Hc). by rewrite IH1, IH2.
Qed.
(** The rules of a sandbox that is paused after a synchronisation and created again
    decide every connection as before; a second default name server is the only
    difference. *)
Theorem Egress_rules_survive_sync `{Idna} network allow :
  validateNetworkConfig network = None →
  let e := buildNetworkConfig (network_egress <$> network) allow in
  let e' := buildNetworkConfig (Some (read_back e)) None in
  AllowedDomains e' = AllowedDomains e ∧ DeniedCidrs e' = DeniedCidrs e ∧
  (∀ ip, covers (AllowedCidrs e') ip ↔ covers (AllowedCidrs e) ip) ∧
  ∀ h ip port, domainHandler (Some (Some e')) h ip port = domainHandler (Some (Some e)) h ip port.
Proof.
  intros Hv e e'. pose proof (build_well_formed network allow Hv) as Hw. fold e in Hw.
  destruct (cidrs_stay _ (proj1 Hw)) as (A1 & A2 & A3), (cidrs_stay _ (proj2 Hw)) as (_ & _ & D3).
  destruct (build_allowed (network_egress <$> network) allow e eq_refl) as [Hd Ha].
  assert (Forall (λ s, IsIPOrCIDR s = false) (AllowedDomains e)) as Hdom.
  { rewrite Hd. destruct network; [|constructor]. apply Forall_forall. by intros s [? _]%list_elem_of_filter. }
  assert (AllowedDomains e ≠ [] → "8.8.8.8/32" ∈ AllowedCidrs e) as Hns.
  { intros Hne. rewrite Ha. destruct network; cbn [fmap option_fmap option_map] in *; [|by rewrite Hd in Hne].
    rewrite bool_decide_false by done. unfold AddressStringsToCIDRs. rewrite fmap_app. apply elem_of_app. right. by left. }
  destruct (domains_stay _ Hdom) as [B1 B2].
  destruct (build_allowed (Some (read_back e)) None e' eq_refl) as [Hd' Ha'].
  unfold read_back in Hd', Ha'; cbn [AllowedAddresses] in Hd', Ha'. rewrite filter_app, A2, B2, app_nil_l in Hd'.
  rewrite filter_app, A1, B1, app_nil_r in Ha'. unfold AddressStringsToCIDRs in Ha'. rewrite fmap_app in Ha'.
  fold (AddressStringsToCIDRs (AllowedCidrs e)) in Ha'. rewrite A3, Hd' in Ha'.
  assert (DeniedCidrs e' = DeniedCidrs e) as Hden.
  { unfold e', buildNetworkConfig. destruct (ParseAddressesAndDomains _). exact D3. }
  assert (∀ ip, covers (AllowedCidrs e') ip ↔ covers (AllowedCidrs e) ip) as Hcov.
  { intros ip. rewrite Ha'. unfold covers. case_bool_decide as Hn; set_solver. }
  assert (well_formed e') as Hw'.
  { split; [|rewrite Hden; apply Hw]. rewrite Ha'. apply Forall_app. split; [apply Hw|].
    case_bool_decide; repeat constructor; by eexists. }
  split_and!; [done..|]. intros h ip port. unfold domainHandler.
  destruct (isEgressAllowed_spec e h ip Hw) as (b & mt & -> & Hb & Hmt), (isEgressAllowed_spec e' h ip Hw') as (b' & mt' & -> & Hb' & Hmt').
  rewrite Hden, Hcov in Hb'. unfold domain_allowed in *. rewrite Hd' in *. rewrite <-Hb in Hb'. rewrite <-Hmt in Hmt'.
  destruct b, b', mt, mt'; intuition discriminate.
Qed.
Lemma Egress_rules_survive_sync_witness :
  let u := Some (mkApiNetwork None ["*.example.com"; "1.1.1.1"] ["0.0.0.0/0"]) in
  validateNetworkConfig u = None ∧
  let e := buildNetworkConfig (network_egress <$> u) None in
  let e' := buildNetworkConfig (Some (read_back e)) None in
  AllowedDomains e' = AllowedDomains e ∧ DeniedCidrs e' = DeniedCidrs e ∧
  (∀ ip, covers (AllowedCidrs e') ip ↔ covers (AllowedCidrs e) ip) ∧
  ∀ h ip port, domainHandler (Some (Some e')) h ip port = domainHandler (Some (Some e)) h ip port.
Proof. intros u. split; [by vm_compute|]. apply Egress_rules_survive_sync. by vm_compute. Defined.
