(* ===== verification/Firewall.v ===== *)
(** * The packet filter of a sandbox

    packages/orchestrator/internal/sandbox/network/firewall.go: the nftables chain
    that every packet of the sandbox passes before TCP is redirected to the proxy of
    [Egress], and the rules [ConfigureInternet] of slot.go adds to it.

    A set of the kernel is the list of its closed ranges of IPv4 addresses, and every
    operation is a function to an option, [None] an error after which the caller
    takes the slot out of service.  The firewall_toolkit package is the class
    [SetData]. *)
From Stdlib Require Import Ascii.
From stdpp Require Import relations.
From S2P Require Import Prelude IpNet Egress.

(** A network written in the notation of its family. *)
Definition plain (cidr : string) : Prop :=
  ∀ n, ParseCIDR cidr = Some n → net_bits n ≠ 32 → To4 (net_ip n) = None.
Definition in_ranges (rs : list (Z * Z)) (a : Z) : bool := existsb (λ r, (r.1 <=? a) && (a <=? r.2)) rs.
Class SetData := {
  (** the ranges of the networks *)
  AddressStringsToSetData : list string → option (list (Z * Z));
  (** the elements of a set that is cleared and given these *)
  ClearAndAddElements : list (Z * Z) → option (list (Z * Z));
}.
Class SetDataLaws `{SetData} : Prop := {
  set_data_covers l rs a : AddressStringsToSetData l = Some rs → Forall plain l → 0 ≤ a < 2 ^ 32 →
    in_ranges rs a = true ↔ covers l (v4_mapped a);
  set_elements rs rs' a : ClearAndAddElements rs = Some rs' → in_ranges rs' a = in_ranges rs a;
}.
Record Firewall := mkFirewall {
  predefinedDenySet : list (Z * Z);
  predefinedAllowSet : list (Z * Z);
  userDenySet : list (Z * Z);
  userAllowSet : list (Z * Z);
  allowedRanges : list string;
}.
Record packet := mkPacket { established : bool; is_tcp : bool; dst : Z }.
Inductive verdict := Accept | Drop.
(** The rules of [installRules], for IPv4 packets from the tap interface, in their
    order.  An accepted TCP packet goes on to the redirection. *)
Definition filter_verdict (fw : Firewall) (p : packet) : verdict :=
  if established p then Accept
  else if in_ranges (predefinedAllowSet fw) (dst p) then Accept
  else if in_ranges (predefinedDenySet fw) (dst p) then Drop
  else if negb (is_tcp p) && in_ranges (userAllowSet fw) (dst p) then Accept
  else if negb (is_tcp p) && in_ranges (userDenySet fw) (dst p) then Drop
  else Accept.

Section firewall.
Context `{SetData}.
(** What the kernel lists for a set with 0.0.0.0 and the interval end
    255.255.255.255. *)
Definition full_range : list (Z * Z) := [(0, 2 ^ 32 - 2)].
Definition addCIDRToSet (current : list (Z * Z)) (cidr : string) : option (list (Z * Z)) :=
  if bool_decide (current = full_range) then Some current
  else if String.eqb cidr AllInternetTrafficCIDR then Some full_range
  else data ← AddressStringsToSetData [cidr]; ClearAndAddElements (current ++ data).
Definition AddDeniedCIDR (fw : Firewall) (cidr : string) : option Firewall :=
  s ← addCIDRToSet (userDenySet fw) cidr;
  Some (mkFirewall (predefinedDenySet fw) (predefinedAllowSet fw) s (userAllowSet fw) (allowedRanges fw)).
Definition AddAllowedCIDR (fw : Firewall) (cidr : string) : option Firewall :=
  s ← addCIDRToSet (userAllowSet fw) cidr;
  Some (mkFirewall (predefinedDenySet fw) (predefinedAllowSet fw) (userDenySet fw) s (allowedRanges fw)).
(** [DeniedSandboxSetData] is computed at start, where an error is a panic. *)
Definition DeniedSandboxSetData : option (list (Z * Z)) := AddressStringsToSetData DeniedSandboxCIDRs.
Definition ResetDeniedSets (fw : Firewall) : option Firewall :=
  data ← DeniedSandboxSetData; denied ← ClearAndAddElements data; user ← ClearAndAddElements [];
  Some (mkFirewall denied (predefinedAllowSet fw) user (userAllowSet fw) (allowedRanges fw)).
Definition ResetAllowedSets (fw : Firewall) : option Firewall :=
  initData ← AddressStringsToSetData (allowedRanges fw);
  allowed ← ClearAndAddElements initData; user ← ClearAndAddElements [];
  Some (mkFirewall (predefinedDenySet fw) allowed (userDenySet fw) user (allowedRanges fw)).
Definition firewall_Reset (fw : Firewall) : option Firewall := ResetDeniedSets fw ≫= ResetAllowedSets.
Definition NewFirewall (orchestratorInternalIP : string) : option Firewall :=
  firewall_Reset (mkFirewall [] [] [] [] [orchestratorInternalIP +:+ "/32"]).
(** What [ConfigureInternet] does in the namespace. *)
Definition add_each (add : Firewall → string → option Firewall) (fw : Firewall) (cidrs : list string) : option Firewall :=
  foldl (λ o cidr, fw ← o; add fw cidr) (Some fw) cidrs.
Definition add_rules (fw : Firewall) (e : egress) : option Firewall :=
  fw ← add_each AddAllowedCIDR fw (AllowedCidrs e); add_each AddDeniedCIDR fw (DeniedCidrs e).

(** What happens to the firewall of a slot, over the sandboxes that use it. *)
Inductive fw_step (fw fw' : Firewall) : Prop :=
  | fw_allow cidr : AddAllowedCIDR fw cidr = Some fw' → fw_step fw fw'
  | fw_deny cidr : AddDeniedCIDR fw cidr = Some fw' → fw_step fw fw'
  | fw_reset_denied : ResetDeniedSets fw = Some fw' → fw_step fw fw'
  | fw_reset_allowed : ResetAllowedSets fw = Some fw' → fw_step fw fw'
  | fw_reset : firewall_Reset fw = Some fw' → fw_step fw fw'.

(** Where [connect] goes on Linux: the unspecified address of either family is the
    host itself. *)
Definition unspecified (ip : Z) : bool := (ip =? 0) || (ip =? v4_mapped 0).
Definition connect_to (ip : Z) : Z :=
  if ip =? v4_mapped 0 then v4_mapped (127 * 2 ^ 24 + 1) else if ip =? 0 then 1 else ip.
(** A TCP connection of the sandbox to [a] that claims the host name [h]: the address
    the proxy dials and the one it is connected to.  [resolved] is what the host name
    resolves to when it is dialled. *)
Definition tcp_dials (fw : Firewall) (rules : option (option egress)) (h : string) (a port : Z) (resolved : string) : option Z :=
  match filter_verdict fw (mkPacket false true a) with
  | Drop => None
  | Accept =>
      match domainHandler rules h (v4_mapped a) port with
      | CloseConn => None
      | DialHost _ _ => if dial_control resolved then ParseIP resolved else None
      | DialIP ip _ => Some ip
      end
  end.
Definition tcp_reaches (fw : Firewall) (rules : option (option egress)) (h : string) (a port : Z) (resolved : string) : option Z :=
  connect_to <$> tcp_dials fw rules h a port resolved.
End firewall.

(** ** Lemmas *)
Lemma in_ranges_app l k a : in_ranges (l ++ k) a = in_ranges l a || in_ranges k a.
Proof. apply existsb_app. Qed.
Lemma in_full_range a : 0 ≤ a < 2 ^ 32 - 1 → in_ranges full_range a = true.
Proof. intros Ha. cbn -[Z.leb]. rewrite orb_false_r, andb_true_iff, !Z.leb_le. lia. Qed.
Lemma covers_nil ip : ¬ covers [] ip.
Proof. by intros (? & ? & ?%elem_of_nil & _). Qed.
Lemma covers_app l k ip : covers (l ++ k) ip ↔ covers l ip ∨ covers k ip.
Proof. unfold covers. set_solver. Qed.
Lemma denied_plain : Forall plain DeniedSandboxCIDRs.
Proof. repeat constructor; intros n Hn; vm_compute in Hn; injection Hn as <-; by vm_compute. Qed.

Lemma domainHandler_dials rules h ip port y port' : domainHandler rules h ip port = DialIP y port' → y = ip.
Proof. unfold domainHandler. intros. repeat case_match; by simplify_eq. Qed.

Lemma false_or_iff (P Q : Prop) : (P ↔ false = true ∨ Q) → P ↔ Q.
Proof. intuition discriminate. Qed.

Section filter.
Context `{SetDataLaws}.

Lemma ClearAndAddElements_nil rs a : ClearAndAddElements [] = Some rs → in_ranges rs a = false.
Proof. intros Hr. by rewrite (set_elements [] rs a Hr). Qed.
Lemma addCIDRToSet_covers rs c rs' a : addCIDRToSet rs c = Some rs' → plain c → 0 ≤ a < 2 ^ 32 - 1 →
  in_ranges rs' a = true ↔ in_ranges rs a = true ∨ covers [c] (v4_mapped a).
Proof.
  unfold addCIDRToSet. intros Hc Hp Ha. case_bool_decide as Hf; [simplify_eq; rewrite in_full_range by done; naive_solver|].
  destruct (String.eqb_spec c AllInternetTrafficCIDR) as [->|].
  - simplify_eq. rewrite in_full_range by done. split; [|done]. intros _. right.
    destruct (proj1 (fmap_Some _ _ _) (Contains_all a ltac:(lia))) as (n & Hn & Hcn).
    exists AllInternetTrafficCIDR, n. split; [by left|]. by split.
  - apply bind_Some in Hc as (data & Hd & Hcl). rewrite (set_elements _ _ a Hcl), in_ranges_app, orb_true_iff.
    rewrite (set_data_covers _ _ a Hd); [done|by constructor|lia].
Qed.
(** A user set after a list of additions; [get] is the set the addition works on and
    [rest] what it leaves alone. *)
Lemma add_each_covers {R} (get : Firewall → list (Z * Z)) (rest : Firewall → R) add fw cidrs fw' a :
  (∀ fw c fw', add fw c = Some fw' → addCIDRToSet (get fw) c = Some (get fw') ∧ rest fw' = rest fw) →
  add_each add fw cidrs = Some fw' → Forall plain cidrs → 0 ≤ a < 2 ^ 32 - 1 →
  rest fw' = rest fw ∧ (in_ranges (get fw') a = true ↔ in_ranges (get fw) a = true ∨ covers cidrs (v4_mapped a)).
Proof.
  intros Hadd Hf Hp Ha. revert fw' Hf. induction cidrs as [|c cidrs IH] using rev_ind; intros fw' Hf.
  { injection Hf as <-. pose proof (covers_nil (v4_mapped a)). naive_solver. }
  apply Forall_app in Hp as [Hp [Hc _]%Forall_cons]. unfold add_each in Hf. rewrite foldl_app in Hf. cbn [foldl] in Hf.
  apply bind_Some in Hf as (fw1 & Hf1 & [Hs Hrest]%Hadd). destruct (IH Hp fw1 Hf1) as [H1 H2].
  rewrite Hrest, covers_app, (addCIDRToSet_covers _ _ _ _ Hs Hc Ha). tauto.
Qed.
Lemma add_rules_covers fw e fw' a : add_rules fw e = Some fw' →
  Forall plain (AllowedCidrs e) → Forall plain (DeniedCidrs e) → 0 ≤ a < 2 ^ 32 - 1 →
  predefinedDenySet fw' = predefinedDenySet fw ∧ predefinedAllowSet fw' = predefinedAllowSet fw ∧
  (in_ranges (userAllowSet fw') a = true ↔ in_ranges (userAllowSet fw) a = true ∨ covers (AllowedCidrs e) (v4_mapped a)) ∧
  (in_ranges (userDenySet fw') a = true ↔ in_ranges (userDenySet fw) a = true ∨ covers (DeniedCidrs e) (v4_mapped a)).
Proof.
  intros (fw1 & H1 & H2)%bind_Some HA HD Ha.
  destruct (add_each_covers userAllowSet (λ fw, (predefinedDenySet fw, predefinedAllowSet fw, userDenySet fw))
    AddAllowedCIDR _ _ _ a ltac:(by intros ? ? ? (s & Hs & [= <-])%bind_Some) H1 HA Ha) as [[= E1 E2 E3] HA'].
  destruct (add_each_covers userDenySet (λ fw, (predefinedDenySet fw, predefinedAllowSet fw, userAllowSet fw))
    AddDeniedCIDR _ _ _ a ltac:(by intros ? ? ? (s & Hs & [= <-])%bind_Some) H2 HD Ha) as [[= E4 E5 E6] HD'].
  by rewrite E4, E5, E6, HD', E3.
Qed.

(** The predefined sets of a firewall that has been reset. *)
Definition fw_inv (ip : string) (fw : Firewall) : Prop :=
  allowedRanges fw = [ip +:+ "/32"] ∧
  (DeniedSandboxSetData ≫= ClearAndAddElements) = Some (predefinedDenySet fw) ∧
  (AddressStringsToSetData [ip +:+ "/32"] ≫= ClearAndAddElements) = Some (predefinedAllowSet fw).
Lemma ResetDeniedSets_inv fw fw' : ResetDeniedSets fw = Some fw' →
  (DeniedSandboxSetData ≫= ClearAndAddElements) = Some (predefinedDenySet fw') ∧ ClearAndAddElements [] = Some (userDenySet fw') ∧
  predefinedAllowSet fw' = predefinedAllowSet fw ∧ userAllowSet fw' = userAllowSet fw ∧ allowedRanges fw' = allowedRanges fw.
Proof.
  unfold ResetDeniedSets. intros (d & Hd & (x & Hx & (u & Hu & [= <-])%bind_Some)%bind_Some)%bind_Some. by rewrite Hd.
Qed.
Lemma ResetAllowedSets_inv fw fw' : ResetAllowedSets fw = Some fw' →
  (AddressStringsToSetData (allowedRanges fw) ≫= ClearAndAddElements) = Some (predefinedAllowSet fw') ∧
  ClearAndAddElements [] = Some (userAllowSet fw') ∧
  predefinedDenySet fw' = predefinedDenySet fw ∧ userDenySet fw' = userDenySet fw ∧ allowedRanges fw' = allowedRanges fw.
Proof.
  unfold ResetAllowedSets. intros (d & Hd & (x & Hx & (u & Hu & [= <-])%bind_Some)%bind_Some)%bind_Some. by rewrite Hd.
Qed.
Lemma firewall_Reset_inv ip fw fw' : firewall_Reset fw = Some fw' → allowedRanges fw = [ip +:+ "/32"] →
  fw_inv ip fw' ∧ ClearAndAddElements [] = Some (userDenySet fw') ∧ ClearAndAddElements [] = Some (userAllowSet fw').
Proof.
  intros (fw1 & (Hd & Hu & _ & _ & Hr)%ResetDeniedSets_inv & (Ha & Hu' & Hpd & Hud & Hr')%ResetAllowedSets_inv)%bind_Some Hip.
  unfold fw_inv. rewrite Hr', Hr, Hpd, Hud, Hip in *. done.
Qed.
Lemma fw_step_inv ip fw fw' : fw_inv ip fw → fw_step fw fw' → fw_inv ip fw'.
Proof.
  intros (Hr & Hd & Ha) [c Hs|c Hs|Hs|Hs|Hs].
  - apply bind_Some in Hs as (s & _ & [= <-]). done.
  - apply bind_Some in Hs as (s & _ & [= <-]). done.
  - apply ResetDeniedSets_inv in Hs as (? & _ & Hpa & _ & Har). unfold fw_inv. by rewrite Hpa, Har.
  - apply ResetAllowedSets_inv in Hs as (Hpa & _ & Hpd & _ & Har). rewrite Hr in Hpa. unfold fw_inv. by rewrite Hpd, Har.
  - by eapply firewall_Reset_inv.
Qed.
Lemma fw_reachable ip fw0 fw : NewFirewall ip = Some fw0 → rtc fw_step fw0 fw → fw_inv ip fw.
Proof.
  intros Hn. assert (fw_inv ip fw0) as H0' by by eapply firewall_Reset_inv.
  clear Hn. induction 1; eauto using fw_step_inv.
Qed.
Lemma fw_inv_denies ip fw a : fw_inv ip fw → 0 ≤ a < 2 ^ 32 →
  in_ranges (predefinedDenySet fw) a = true ↔ covers DeniedSandboxCIDRs (v4_mapped a).
Proof.
  intros (_ & (d & Hd & Hc)%bind_Some & _) Ha. rewrite (set_elements _ _ a Hc).
  apply (set_data_covers _ _ a Hd denied_plain Ha).
Qed.
Lemma fw_inv_allows ip fw a : fw_inv ip fw → plain (ip +:+ "/32") → 0 ≤ a < 2 ^ 32 →
  in_ranges (predefinedAllowSet fw) a = true ↔ covers [ip +:+ "/32"] (v4_mapped a).
Proof.
  intros (_ & _ & (d & Hd & Hc)%bind_Some) Hp Ha. rewrite (set_elements _ _ a Hc).
  apply (set_data_covers _ _ a Hd); [by constructor|done].
Qed.

(** ** Theorems *)

(** A firewall keeps no rule of an earlier sandbox: after any sequence of
    additions and resets since it was made, a [Reset] that succeeds leaves exactly
    the sets a new firewall has. *)
Theorem Reset_forgets_rules ip fw0 fw fw' :
  NewFirewall ip = Some fw0 → rtc fw_step fw0 fw → firewall_Reset fw = Some fw' → fw' = fw0.
Proof.
  intros Hn Hs Hr. destruct (fw_reachable _ _ _ Hn Hs) as (Har & _).
  destruct (firewall_Reset_inv ip _ _ Hn eq_refl) as ((H1 & H2 & H3) & H4 & H5).
  destruct (firewall_Reset_inv ip _ _ Hr Har) as ((G1 & G2 & G3) & G4 & G5).
  destruct fw0, fw'; cbn in *. congruence.
Qed.

Lemma connect_to_specified d : unspecified d = false → connect_to d = d.
Proof. unfold unspecified, connect_to. rewrite orb_false_iff. by intros [-> ->]. Qed.
(** C28: a sandbox reaches an address of a denied range only through the unspecified one.
    Whatever rules have been added to its firewall, whatever its egress rules are, a
    packet that opens a connection to an IPv4 address in a denied range is dropped,
    of every protocol, unless the address is the orchestrator's.  A TCP connection
    that the proxy makes for it, whatever host name it claims and whatever that name
    resolves to when it is dialled, ends at an address, IPv4 or IPv6, that is in no
    denied range or is the orchestrator's, unless the proxy dials the unspecified
    address (0.0.0.0, ::ffff:0.0.0.0 or ::), which no denied range holds and which
    connects it to its own host (see [unspecified_reaches_loopback]); that is dialled
    only where the name resolves to it or the packet itself is sent to it. *)
Theorem Egress_internal_unreachable ip fw0 fw a tcp rules h port resolved :
  NewFirewall ip = Some fw0 → rtc fw_step fw0 fw → plain (ip +:+ "/32") → 0 ≤ a < 2 ^ 32 →
  (covers DeniedSandboxCIDRs (v4_mapped a) → ¬ covers [ip +:+ "/32"] (v4_mapped a) →
     filter_verdict fw (mkPacket false tcp a) = Drop) ∧
  (∀ x, tcp_reaches fw rules h a port resolved = Some x →
     ¬ covers DeniedSandboxCIDRs x ∨ covers [ip +:+ "/32"] x ∨
     ∃ d, tcp_dials fw rules h a port resolved = Some d ∧ unspecified d = true ∧ (a = 0 ∨ ParseIP resolved = Some d)).
Proof.
  intros Hn Hs Hp Ha. pose proof (fw_reachable _ _ _ Hn Hs) as Hi.
  pose proof (fw_inv_denies _ _ _ Hi Ha) as Hd. pose proof (fw_inv_allows _ _ _ Hi Hp Ha) as Hal.
  split.
  { intros Hc Hnc. unfold filter_verdict; cbn.
    destruct (in_ranges (predefinedAllowSet fw) a); [naive_solver|]. by rewrite (proj2 Hd Hc). }
  intros x (d & Hx & ->)%fmap_Some.
  assert ((¬ covers DeniedSandboxCIDRs d ∨ covers [ip +:+ "/32"] d) ∧ (d = v4_mapped a ∨ ParseIP resolved = Some d)) as [Hok Hwhich].
  { unfold tcp_dials in Hx. destruct (filter_verdict _ _) eqn:Hv; [|done].
    destruct (domainHandler _ _ _ _) as [|h' port'|y port'] eqn:Hh; [done| |].
    - destruct (dial_control resolved) eqn:Hc; [|done]. apply dial_control_spec in Hc as (y & Hy & Hny).
      split; [|by right]. rewrite Hx in Hy. injection Hy as <-. by left.
    - injection Hx as <-. apply domainHandler_dials in Hh as ->. split; [|by left]. rewrite <-Hd, <-Hal.
      unfold filter_verdict in Hv; cbn in Hv. destruct (in_ranges (predefinedAllowSet fw) a); [by right|].
      destruct (in_ranges (predefinedDenySet fw) a); [done|by left]. }
  destruct (unspecified d) eqn:Hu.
  - right. right. exists d. split_and!; [done..|]. destruct Hwhich as [->|?]; [left|by right].
    unfold unspecified, v4_mapped in Hu. apply orb_true_iff in Hu as [Hu%Z.eqb_eq|Hu%Z.eqb_eq]; lia.
  - rewrite connect_to_specified by done. naive_solver.
Qed.

(** For traffic other than TCP the packet filter decides as the egress check
    does for a connection without a host name: on a firewall just reset, with the
    rules of the sandbox added, a packet that opens a flow to a public address
    passes exactly when [isEgressAllowed] allows the address. *)
Theorem Filter_agrees ip fw0 fw e a :
  NewFirewall ip = Some fw0 → add_rules fw0 e = Some fw →
  well_formed e → Forall plain (AllowedCidrs e) → Forall plain (DeniedCidrs e) → plain (ip +:+ "/32") →
  0 ≤ a < 2 ^ 32 - 1 → ¬ covers DeniedSandboxCIDRs (v4_mapped a) → ¬ covers [ip +:+ "/32"] (v4_mapped a) →
  filter_verdict fw (mkPacket false false a) = Accept ↔
  ∃ mt, isEgressAllowed (Some (Some e)) "" (v4_mapped a) = Ok (true, mt).
Proof.
  intros Hn Hadd Hw HA HD Hp Ha Hnd Hni.
  destruct (firewall_Reset_inv ip _ _ Hn eq_refl) as (Hi & Hu & Hu').
  destruct (add_rules_covers _ _ _ a Hadd HA HD Ha) as (E1 & E2 & HA' & HD').
  rewrite (ClearAndAddElements_nil _ a Hu') in HA'. rewrite (ClearAndAddElements_nil _ a Hu) in HD'.
  destruct (isEgressAllowed_spec e "" (v4_mapped a) Hw) as (b & mt & -> & Hb & _).
  pose proof (fw_inv_denies _ _ a Hi ltac:(lia)) as Hd. pose proof (fw_inv_allows _ _ a Hi Hp ltac:(lia)) as Hal.
  unfold filter_verdict. cbn -[DeniedSandboxCIDRs covers]. rewrite E1, E2.
  assert ((∃ mt0, Ok (E:=string) (b, mt) = Ok (true, mt0)) ↔ b = true) as -> by (destruct b; naive_solver).
  assert (¬ domain_allowed e "") as Hnd' by (by intros []).
  assert (in_ranges (predefinedAllowSet fw0) a = false) as -> by (apply not_true_iff_false; tauto).
  assert (in_ranges (predefinedDenySet fw0) a = false) as -> by (apply not_true_iff_false; tauto).
  rewrite Hb, <-(false_or_iff _ _ HA'), <-(false_or_iff _ _ HD').
  destruct (in_ranges (userAllowSet fw) a), (in_ranges (userDenySet fw) a); cbn; intuition discriminate.
Qed.
End filter.

(** ** An implementation of the sets *)
Section set_data.
Definition net_range (cidr : string) : option (list (Z * Z)) :=
  n ← ParseCIDR cidr;
  Some (if net_bits n =? 32 then [(net_ip n, net_ip n + 2 ^ (32 - net_ones n) - 1)] else []).
#[local] Instance range_data : SetData := {|
  AddressStringsToSetData l := mjoin <$> mapM net_range l;
  ClearAndAddElements := Some;
|}.
Lemma net_range_covers c rs a : net_range c = Some rs → plain c → 0 ≤ a < 2 ^ 32 →
  in_ranges rs a = true ↔ ∃ n, ParseCIDR c = Some n ∧ Contains n (v4_mapped a) = true.
Proof.
  intros (n & Hn & [= <-])%bind_Some Hp Ha. rewrite Hn.
  assert (in_ranges (if net_bits n =? 32 then [(net_ip n, net_ip n + 2 ^ (32 - net_ones n) - 1)] else []) a = true
          ↔ Contains n (v4_mapped a) = true) as ->; [|naive_solver].
  unfold Contains. rewrite To4_mapped by done. destruct (Z.eqb_spec (net_bits n) 32) as [Hb|Hb].
  - destruct (ParseCIDR_net _ _ Hn) as (_ & Ho & x & Hx). rewrite Hb in *. rewrite Hx, same_prefix_range by lia.
    cbn -[Z.leb Z.pow Z.sub mask]. rewrite orb_false_r, andb_true_iff, !Z.leb_le. done.
  - by rewrite (Hp n Hn Hb).
Qed.
#[local] Instance range_data_laws : SetDataLaws.
Proof.
  split; [|by intros ??? [= <-]].
  intros l rs a Hl Hp Ha. apply fmap_Some in Hl as (rss & Hm & ->). apply mapM_Some in Hm.
  induction Hm as [|c rs l rss Hc _ IH]; [split; [done|by intros ?%covers_nil]|].
  apply Forall_cons in Hp as [Hpc Hp]. change (mjoin (rs :: rss)) with (rs ++ mjoin rss). rewrite in_ranges_app, orb_true_iff, covers_cons.
  by rewrite (net_range_covers _ _ _ Hc Hpc Ha), IH.
Qed.
Lemma plain_v4 c n : ParseCIDR c = Some n → net_bits n = 32 → plain c.
Proof. intros Hc Hb m Hm. rewrite Hc in Hm. by injection Hm as <-. Qed.

Definition fw_example : Firewall := default (mkFirewall [] [] [] [] []) (NewFirewall "10.0.0.1").
Lemma Reset_forgets_rules_witness :
  ∃ fw fw', NewFirewall "10.0.0.1" = Some fw_example ∧ rtc fw_step fw_example fw ∧ firewall_Reset fw = Some fw' ∧
    fw ≠ fw_example ∧ fw' = fw_example.
Proof.
  set (fw := default fw_example (AddDeniedCIDR fw_example "1.1.1.1/32")).
  assert (rtc fw_step fw_example fw) as Hs by (apply rtc_once; by apply (fw_deny _ _ "1.1.1.1/32"); vm_compute).
  exists fw, fw_example. split; [by vm_compute|]. split; [done|]. split; [by vm_compute|]. split; [by vm_compute|].
  apply (Reset_forgets_rules "10.0.0.1" fw_example fw); [by vm_compute|done|by vm_compute].
Defined.
Lemma Egress_internal_unreachable_witness :
  (covers DeniedSandboxCIDRs (v4_mapped 2852039166) → ¬ covers ["10.0.0.1/32"] (v4_mapped 2852039166) →
     filter_verdict fw_example (mkPacket false true 2852039166) = Drop) ∧
  (∀ x, tcp_reaches fw_example None "metadata" 2852039166 80 "169.254.169.254" = Some x →
     ¬ covers DeniedSandboxCIDRs x ∨ covers ["10.0.0.1/32"] x ∨
     ∃ d, tcp_dials fw_example None "metadata" 2852039166 80 "169.254.169.254" = Some d ∧ unspecified d = true ∧
       (2852039166 = 0 ∨ ParseIP "169.254.169.254" = Some d)).
Proof.
  apply (Egress_internal_unreachable "10.0.0.1" fw_example fw_example 2852039166 true None "metadata" 80 "169.254.169.254");
    [by vm_compute|done|by eapply plain_v4; [by vm_compute|done]|lia].
Defined.
(** A name that an egress rule allows and that resolves to 0.0.0.0 or :: connects the
    sandbox to 127.0.0.1 or ::1 of the host of the proxy; one that resolves to 127.0.0.1
    does not.  The same without any rule for a packet that is sent to 0.0.0.0. *)
Lemma unspecified_reaches_loopback :
  let e := Some (Some (mkEgress [] ["0.0.0.0/0"] ["example.com"])) in
  tcp_reaches fw_example e "example.com" 16843009 80 "0.0.0.0" = ParseIP "127.0.0.1" ∧
  tcp_reaches fw_example e "example.com" 16843009 80 "::" = ParseIP "::1" ∧
  tcp_reaches fw_example e "example.com" 16843009 80 "127.0.0.1" = None ∧
  tcp_reaches fw_example None "" 0 80 "" = ParseIP "127.0.0.1".
Proof. by vm_compute. Qed.
Definition block_all_but_dns : egress := mkEgress ["8.8.8.8/32"] ["0.0.0.0/0"] ["example.com"].
Lemma Filter_agrees_witness :
  filter_verdict (default fw_example (add_rules fw_example block_all_but_dns)) (mkPacket false false 16843009) = Accept ↔
  ∃ mt, isEgressAllowed (Some (Some block_all_but_dns)) "" (v4_mapped 16843009) = Ok (true, mt).
Proof.
  apply (Filter_agrees "10.0.0.1" fw_example); [by vm_compute|by vm_compute| | | | |lia| |].
  - split; repeat constructor; by eexists.
  - repeat constructor; by eapply plain_v4; [by vm_compute|done].
  - repeat constructor; by eapply plain_v4; [by vm_compute|done].
  - by eapply plain_v4; [by vm_compute|done].
  - rewrite <-isIPInAlwaysDeniedCIDRs_covers. by vm_compute.
  - rewrite covers_cons. intros [(n & Hn & Hc)|?%covers_nil]; [|done]. vm_compute in Hn. injection Hn as <-. by vm_compute in Hc.
Defined.
(** A packet to 255.255.255.255 passes the filter of a sandbox whose rules deny every
    address: the set has no element for it. *)
Lemma Filter_misses_broadcast :
  filter_verdict (default fw_example (add_rules fw_example (mkEgress [] ["0.0.0.0/0"] []))) (mkPacket false false (2 ^ 32 - 1)) = Accept ∧
  isEgressAllowed (Some (Some (mkEgress [] ["0.0.0.0/0"] []))) "" (v4_mapped (2 ^ 32 - 1)) = Ok (false, MatchTypeCIDR) ∧
  filter_verdict (default fw_example (add_rules fw_example (mkEgress [] ["0.0.0.0/0"] []))) (mkPacket false false (2 ^ 32 - 2)) = Drop.
Proof. by vm_compute. Qed.
End set_data.
