(* ===== verification/Peer.v ===== *)
(** * Reading a build from a peer

    While a snapshot is being uploaded, other orchestrators read its files from the
    one that made it.  packages/orchestrator/internal/sandbox/template/peerserver and
    internal/server/chunks.go answer requests for files and ranges in streams of
    messages; peerclient (storage.go, seekable.go, blob.go) reads such a stream and falls
    back to the storage.  A stream that arrives is any prefix of the messages sent, with
    the status at its end when it is whole. *)
From Stdlib Require Import Init.Byte.
From S2P Require Import Prelude Bitset Uuid Mapping Header Serialization BlockCache Device.

(** ** Messages *)
Record PeerAvailability := mkAvailability { NotAvailable : bool; UseStorage : bool }.
(** A message of [ReadAtBuildSeekable] or [GetBuildBlob]. *)
Record message := mkMessage { Availability : option PeerAvailability; Data : list byte }.
Inductive status := InvalidArgument | Internal | Unavailable.
(** The messages of a stream and what [Recv] returns after them: [io.EOF] or an error. *)
Record rpc_stream := mkStream { sent : list message; ending : option status }.

Definition peerNotAvailable : PeerAvailability := mkAvailability true false.
Definition peerUseStorage : PeerAvailability := mkAvailability false true.

(** ** peerserver *)
Inductive source_error := ErrNotSupported | ErrNotAvailable | ErrUnknownFile | ErrSource.
(** [toGRPCError]. *)
Definition toGRPCError (err : source_error) : status :=
  match err with ErrUnknownFile | ErrNotSupported => InvalidArgument | ErrNotAvailable | ErrSource => Internal end.

Definition MemfileName : string := "memfile".
Definition RootfsName : string := "rootfs.ext4".
Definition SnapfileName : string := "snapfile".
Definition MetadataName : string := "metadata.json".
Definition HeaderSuffix : string := ".header".
Definition chunkSendSize : Z := 4194304.

(** [chunkWriter]: the messages sent and the buffer. *)
Record chunkWriter := mkWriter { w_sent : list (list byte); w_buf : list byte }.
Definition w_flush (w : chunkWriter) : chunkWriter :=
  if bool_decide (w_buf w = []) then w else mkWriter (w_sent w ++ [w_buf w]) [].
(** [Write]; a unit of fuel per round of the loop. *)
Fixpoint w_write (fuel : nat) (w : chunkWriter) (p : list byte) : option chunkWriter :=
  match p with
  | [] => Some w
  | _ =>
      match fuel with
      | O => None
      | S fuel =>
          let space := chunkSendSize - zlength (w_buf w) in
          let take' := Z.to_nat (Z.min (zlength p) space) in
          let w := mkWriter (w_sent w) (w_buf w ++ take take' p) in
          w_write fuel (if zlength (w_buf w) =? chunkSendSize then w_flush w else w) (drop take' p)
      end
  end.
Definition chunk_Write (w : chunkWriter) (p : list byte) : option chunkWriter := w_write (length p) w p.
(** [io.Copy] of a file that arrives in [pieces], then [flush]. *)
Definition chunk_copy (pieces : list (list byte)) : option (list (list byte)) :=
  (λ w, w_sent (w_flush w)) <$> foldl (λ w p, w ← w; chunk_Write w p) (Some (mkWriter [] [])) pieces.

Inductive file_state := FileMissing | FileFails | FileBytes (pieces : list (list byte)).

Section peerserver.
Context {ID B H D M : Type} `{EqDecision ID, UuidOps ID, BitSetOps B, ReadonlyDevice H D}.
(** [json.Marshal] of the template's metadata. *)
Context (marshal : M → option (list byte)).

(** What a cached template has: a path, metadata, and the headers of its devices. *)
Record Template := mkTemplate {
  Snapfile : option string;
  tmpl_Metadata : option M;
  Memfile_header : option (option (Header ID B));
  Rootfs_header : option (option (Header ID B));
}.
Record server := mkServer {
  uploadedBuilds : gset string;
  diffs : gmap (string * string) D;         (** [LookupDiff] *)
  templates : gmap string Template;         (** [GetCachedTemplate] *)
  disk : string → file_state;
}.

Inductive BlobSource :=
  | fileSource (getFile : option string)
  | metadataSource (getMetadata : option M)
  | headerSource (getDevice : option (option (Header ID B))).

Definition ResolveSeekable (s : server) (buildID fileName : string) : res source_error D :=
  if bool_decide (fileName = MemfileName) || bool_decide (fileName = RootfsName) then
    match diffs s !! (buildID, fileName) with Some d => Ok d | None => Err ErrNotAvailable end
  else Err ErrUnknownFile.
Definition ResolveBlob (s : server) (buildID fileName : string) : res source_error BlobSource :=
  match templates s !! buildID with
  | None => Err ErrNotAvailable
  | Some t =>
      if bool_decide (fileName = SnapfileName) then Ok (fileSource (Snapfile t))
      else if bool_decide (fileName = MetadataName) then Ok (metadataSource (tmpl_Metadata t))
      else if bool_decide (fileName = MemfileName +:+ HeaderSuffix) then Ok (headerSource (Memfile_header t))
      else if bool_decide (fileName = RootfsName +:+ HeaderSuffix) then Ok (headerSource (Rootfs_header t))
      else Err ErrUnknownFile
  end.

(** The loop of [seekableSource.Stream]. *)
Fixpoint send_blocks (fuel : nat) (blockSize : Z) (data : list byte) : option (list (list byte)) :=
  match data with
  | [] => Some []
  | _ =>
      match fuel with
      | O => None
      | S fuel =>
          let take' := Z.to_nat (Z.min (zlength data) blockSize) in
          cons (take take' data) <$> send_blocks fuel blockSize (drop take' data)
      end
  end.
(** What [Stream] sends and its error; [None] when the loop does not end. *)
Definition seekable_Stream (d : D) (offset length : Z) : option (list (list byte) * option source_error) + unit :=
  match dev_Slice d offset length with
  | Ok data => inl ((λ l, (l, None)) <$> send_blocks (Datatypes.length data) (dev_BlockSize d) data)
  | Err _ => inl (Some ([], Some ErrSource))
  | Panic => inr ()
  end.
Definition blob_Exists (s : server) (src : BlobSource) : res source_error bool :=
  match src with
  | fileSource None => Err ErrSource
  | fileSource (Some path) =>
      match disk s path with FileMissing => Ok false | FileFails => Err ErrSource | FileBytes _ => Ok true end
  | metadataSource _ | headerSource _ => Err ErrNotSupported
  end.
Definition blob_Stream (s : server) (src : BlobSource) : option (list (list byte) * option source_error) :=
  match src with
  | fileSource None => Some ([], Some ErrSource)
  | fileSource (Some path) =>
      match disk s path with
      | FileMissing => Some ([], Some ErrNotAvailable)
      | FileFails => Some ([], Some ErrSource)
      | FileBytes pieces => (λ l, (l, None)) <$> chunk_copy pieces
      end
  | metadataSource meta =>
      Some (match meta ≫= marshal with Some data => ([data], None) | None => ([], Some ErrSource) end)
  | headerSource None => Some ([], Some ErrSource)
  | headerSource (Some None) => Some ([], Some ErrNotAvailable)
  | headerSource (Some (Some h)) => Some ([Serialize (HMetadata h) (HMapping h)], None)
  end.

(** ** server/chunks.go *)
Definition availability (a : PeerAvailability) : message := mkMessage (Some a) [].
(** What a handler of a stream has sent when it returns. *)
Definition finish_stream (r : list (list byte) * option source_error) : rpc_stream :=
  let msgs := mkMessage None <$> r.1 in
  match r.2 with
  | None => mkStream msgs None
  | Some ErrNotAvailable => mkStream (msgs ++ [availability peerNotAvailable]) None
  | Some e => mkStream msgs (Some (toGRPCError e))
  end.
Definition resolve_failed (e : source_error) : rpc_stream :=
  match e with
  | ErrNotAvailable => mkStream [availability peerNotAvailable] None
  | e => mkStream [] (Some (toGRPCError e))
  end.
(** [None] when the handler does not return; [Panic] when it panics. *)
Definition ReadAtBuildSeekable (s : server) (buildID fileName : string) (offset length : Z) : option (res () rpc_stream) :=
  if (offset <? 0) || (length <? 0) then Some (Ok (mkStream [] (Some InvalidArgument)))
  else if bool_decide (buildID ∈ uploadedBuilds s) then Some (Ok (mkStream [availability peerUseStorage] None))
  else match ResolveSeekable s buildID fileName with
       | Err e => Some (Ok (resolve_failed e))
       | Panic => Some Panic
       | Ok d => match seekable_Stream d offset length with
                 | inl r => Ok ∘ finish_stream <$> r
                 | inr _ => Some Panic
                 end
       end.
Definition GetBuildBlob (s : server) (buildID fileName : string) : option (res () rpc_stream) :=
  if bool_decide (buildID ∈ uploadedBuilds s) then Some (Ok (mkStream [availability peerUseStorage] None))
  else match ResolveBlob s buildID fileName with
       | Err e => Some (Ok (resolve_failed e))
       | Panic => Some Panic
       | Ok src => Ok ∘ finish_stream <$> blob_Stream s src
       end.
(** The unary calls: the availability with the size or nothing, or an error. *)
Definition GetBuildFileSize (s : server) (buildID fileName : string) : res status (option PeerAvailability * Z) :=
  if bool_decide (buildID ∈ uploadedBuilds s) then Ok (Some peerUseStorage, 0)
  else match ResolveSeekable s buildID fileName with
       | Err ErrNotAvailable => Ok (Some peerNotAvailable, 0)
       | Err e => Err (toGRPCError e)
       | Panic => Panic
       | Ok d => match dev_Size d with Ok size => Ok (None, size) | Err _ => Err (toGRPCError ErrSource) | Panic => Panic end
       end.
Definition GetBuildFileExists (s : server) (buildID fileName : string) : res status (option PeerAvailability) :=
  if bool_decide (buildID ∈ uploadedBuilds s) then Ok (Some peerUseStorage)
  else match ResolveBlob s buildID fileName with
       | Err ErrNotAvailable => Ok (Some peerNotAvailable)
       | Err e => Err (toGRPCError e)
       | Panic => Panic
       | Ok src =>
           match blob_Exists s src with
           | Ok true => Ok None
           | Ok false => Ok (Some peerNotAvailable)
           | Err e => Err (toGRPCError e)
           | Panic => Panic
           end
       end.
End peerserver.

(** ** peerclient *)

(** The shared flag after [checkPeerAvailability], and its answer. *)
Definition checkPeerAvailability (avail : option PeerAvailability) (uploaded : bool) : bool * bool :=
  match avail with
  | None => (true, uploaded)
  | Some a => if NotAvailable a then (false, uploaded) else if UseStorage a then (false, true) else (true, uploaded)
  end.

(** The closure that [openPeerSeekableStream] and [openPeerBlobStream] return. *)
Record recv_state := mkRecv { first : list byte; messages : list message; r_ending : option status }.
Inductive recv_error := EOF | RecvError (s : status).
(** The stream a call opens, [None] when the call fails; the flag after it. *)
Definition open_stream (call : option rpc_stream) (uploaded : bool) : option recv_state * bool :=
  match call with
  | None => (None, uploaded)
  | Some r =>
      match sent r with
      | [] => (None, uploaded)
      | msg :: msgs =>
          let '(ok, uploaded) := checkPeerAvailability (Availability msg) uploaded in
          (if ok then Some (mkRecv (Data msg) msgs (ending r)) else None, uploaded)
      end
  end.
Definition recv (r : recv_state) (uploaded : bool) : res recv_error (list byte) * recv_state * bool :=
  if negb (bool_decide (first r = [])) then (Ok (first r), mkRecv [] (messages r) (r_ending r), uploaded)
  else match messages r with
       | [] => (Err (match r_ending r with None => EOF | Some s => RecvError s end), r, uploaded)
       | m :: msgs => (Ok (Data m), mkRecv [] msgs (r_ending r), (checkPeerAvailability (Availability m) uploaded).2)
       end.

Inductive read_error := UnexpectedEOF | ReceiveFailed (s : status).
(** The loop of [peerSeekable.ReadAt]. *)
Fixpoint peer_read_loop (fuel : nat) (r : recv_state) (uploaded : bool) (buf : list byte) (n : Z) :
    option (list byte * Z * option read_error * bool) :=
  match fuel with
  | O => None
  | S fuel =>
      if n <? zlength buf then
        match recv r uploaded with
        | (Err EOF, _, uploaded) => Some (buf, n, Some UnexpectedEOF, uploaded)
        | (Err (RecvError s), _, uploaded) => Some (buf, n, Some (ReceiveFailed s), uploaded)
        | (Panic, _, uploaded) => None
        | (Ok data, r, uploaded) =>
            let k := Z.min (zlength buf - n) (zlength data) in
            peer_read_loop fuel r uploaded (splice buf n (take (Z.to_nat k) data)) (n + k)
        end
      else Some (buf, n, None, uploaded)
  end.

(** [peerStreamReader]. *)
Record stream_reader := mkReader { source : recv_state; current : list byte; r_done : bool }.
Definition newPeerStreamReader (r : recv_state) : stream_reader := mkReader r [] false.
(** [Read] into a buffer of [n] bytes: a unit of fuel per round. *)
Fixpoint peer_Read (fuel : nat) (r : stream_reader) (uploaded : bool) (n : Z) :
    option (res recv_error (list byte) * stream_reader * bool) :=
  match fuel with
  | O => None
  | S fuel =>
      if negb (bool_decide (current r = [])) then
        Some (Ok (take (Z.to_nat n) (current r)), mkReader (source r) (drop (Z.to_nat n) (current r)) (r_done r), uploaded)
      else if r_done r then Some (Err EOF, r, uploaded)
      else match recv (source r) uploaded with
           | (Err EOF, s, uploaded) => Some (Err EOF, mkReader s [] true, uploaded)
           | (Err e, s, uploaded) => Some (Err e, mkReader s [] false, uploaded)
           | (Panic, _, _) => None
           | (Ok data, s, uploaded) => peer_Read fuel (mkReader s data false) uploaded n
           end
  end.
Definition Read (r : stream_reader) := peer_Read (3 + length (messages (source r))) r.
(** [io.Copy] through a buffer of [bufsize] bytes: what is written and the error. *)
Fixpoint io_Copy (fuel : nat) (bufsize : Z) (r : stream_reader) (uploaded : bool) (dst : list byte) :
    option (list byte * option status * bool) :=
  match fuel with
  | O => None
  | S fuel =>
      match Read r uploaded bufsize with
      | Some (Ok data, r, uploaded) => io_Copy fuel bufsize r uploaded (dst ++ data)
      | Some (Err EOF, _, uploaded) => Some (dst, None, uploaded)
      | Some (Err (RecvError s), _, uploaded) => Some (dst, Some s, uploaded)
      | Some (Panic, _, _) | None => None
      end
  end.

(** ** withPeerFallback

    What a method of a handle returns: the value and the error. *)
Section fallback.
Context {Base E T : Type}.
Record handle := mkHandle { h_base : option Base }.
(** [openFn] is what opening the base returns. *)
Definition getOrOpenBase (h : handle) (openFn : res E Base) : handle * res E Base :=
  match h_base h with
  | Some b => (h, Ok b)
  | None => match openFn with Ok b => (mkHandle (Some b), Ok b) | e => (h, e) end
  end.
Inductive peerAttempt := Miss | Hit (value : T) (err : option E).
(** [peerFn] is the attempt and the flag after it; [useBase] the call on the base. *)
Definition withPeerFallback (h : handle) (uploaded : bool) (peerFn : peerAttempt * bool)
    (openFn : res E Base) (useBase : Base → T * option E) (zero : T) : handle * bool * (T * option E) :=
  match (if uploaded then (Miss, uploaded) else peerFn) with
  | (Hit v err, uploaded) => (h, uploaded, (v, err))
  | (Miss, uploaded) =>
      match getOrOpenBase h openFn with
      | (h, Ok b) => (h, uploaded, useBase b)
      | (h, Err e) => (h, uploaded, (zero, Some e))
      | (h, Panic) => (h, uploaded, (zero, None))
      end
  end.
End fallback.
Arguments handle : clear implicits.
Arguments peerAttempt : clear implicits.

(** What a storage object offers. *)
Record seekable E := mkSeekable {
  base_ReadAt : list byte → Z → (list byte * Z) * option E;
  base_Size : Z * option E;
  base_OpenRangeReader : Z → Z → option stream_reader * option E;
}.
Arguments mkSeekable {E}. Arguments base_ReadAt {E}. Arguments base_Size {E}. Arguments base_OpenRangeReader {E}.
Record blob E := mkBlob { base_WriteTo : list byte → list byte * option E; base_Exists : bool * option E }.
Arguments mkBlob {E}. Arguments base_WriteTo {E}. Arguments base_Exists {E}.

(** An error of a client: of the base or of the stream. *)
Inductive client_error E := FromBase (e : E) | FromPeer (e : read_error).
Arguments FromBase {E}. Arguments FromPeer {E}.

Definition from_base {E V} (r : V * option E) : V * option (client_error E) := (r.1, FromBase <$> r.2).

Section client.
Context {E : Type}.
(** [call] is the stream the peer's handler gives, cut where the network cut it. *)
Definition seekable_ReadAt (h : handle (seekable E)) (uploaded : bool) (call : option rpc_stream) (openFn : res (client_error E) (seekable E))
    (buf : list byte) (off : Z) : handle (seekable E) * bool * (list byte * Z * option (client_error E)) :=
  withPeerFallback h uploaded
    (let '(r, uploaded) := open_stream call uploaded in
     match r with
     | None => (Miss, uploaded)
     | Some r =>
         match peer_read_loop (3 + length (messages r)) r uploaded buf 0 with
         | Some (buf, n, err, uploaded) => (Hit (buf, n) (FromPeer <$> err), uploaded)
         | None => (Miss, uploaded)
         end
     end)
    openFn (λ b, from_base (base_ReadAt b buf off)) (buf, 0).
(** A unary call: [None] when it fails. *)
Definition seekable_Size (h : handle (seekable E)) (uploaded : bool) (call : option (option PeerAvailability * Z))
    (openFn : res (client_error E) (seekable E)) : handle (seekable E) * bool * (Z * option (client_error E)) :=
  withPeerFallback h uploaded
    (match call with
     | None => (Miss, uploaded)
     | Some (a, size) => let '(ok, uploaded) := checkPeerAvailability a uploaded in (if ok then Hit size None else Miss, uploaded)
     end)
    openFn (λ b, from_base (base_Size b)) 0.
Definition seekable_OpenRangeReader (h : handle (seekable E)) (uploaded : bool) (call : option rpc_stream)
    (openFn : res (client_error E) (seekable E)) (off length : Z) :
    handle (seekable E) * bool * (option stream_reader * option (client_error E)) :=
  withPeerFallback h uploaded
    (let '(r, uploaded) := open_stream call uploaded in
     match r with None => (Miss, uploaded) | Some r => (Hit (Some (newPeerStreamReader r)) None, uploaded) end)
    openFn (λ b, from_base (base_OpenRangeReader b off length)) None.
(** [dst] is what has been written before; the result is what has been written after. *)
Definition blob_WriteTo (h : handle (blob E)) (uploaded : bool) (call : option rpc_stream) (openFn : res (client_error E) (blob E))
    (bufsize : Z) (dst : list byte) : handle (blob E) * bool * (list byte * option (client_error E)) :=
  withPeerFallback h uploaded
    (let '(r, uploaded) := open_stream call uploaded in
     match r with
     | None => (Miss, uploaded)
     | Some r =>
         match io_Copy (2 + Z.to_nat (zlength (first r) + zlength (concat (Data <$> messages r)))) bufsize (newPeerStreamReader r) uploaded dst with
         | Some (dst, err, uploaded) => (Hit dst (FromPeer ∘ ReceiveFailed <$> err), uploaded)
         | None => (Miss, uploaded)
         end
     end)
    openFn (λ b, from_base (base_WriteTo b dst)) dst.
Definition blob_Exists_client (h : handle (blob E)) (uploaded : bool) (call : option (option PeerAvailability))
    (openFn : res (client_error E) (blob E)) : handle (blob E) * bool * (bool * option (client_error E)) :=
  withPeerFallback h uploaded
    (match call with
     | None => (Miss, uploaded)
     | Some a => let '(ok, uploaded) := checkPeerAvailability a uploaded in (if ok then Hit true None else Miss, uploaded)
     end)
    openFn (λ b, from_base (base_Exists b)) false.
End client.

(** ** A client gets what its stream still holds *)
Definition remaining (r : recv_state) : list byte := first r ++ concat (Data <$> messages r).
Definition weight (r : recv_state) : nat := (if bool_decide (first r = []) then 0 else 1) + length (messages r).
Definition end_error (r : recv_state) : recv_error := match r_ending r with None => EOF | Some s => RecvError s end.

Lemma check_mono a f : f = true → (checkPeerAvailability a f).2 = true.
Proof. intros ->. by destruct a as [[[] []]|]. Qed.
(** The messages that are left say nothing about the flag. *)
Definition silent (r : recv_state) : Prop := Forall (λ m, Availability m = None) (messages r).
Lemma recv_spec r f x r' f' : recv r f = (x, r', f') →
  ((f = true → f' = true) ∧ (silent r → f' = f ∧ silent r')) ∧ r_ending r' = r_ending r ∧
  match x with
  | Ok d => remaining r = d ++ remaining r' ∧ weight r = S (weight r')
  | Err e => remaining r = [] ∧ e = end_error r
  | Panic => False
  end.
Proof.
  unfold recv, remaining, weight, end_error, silent. case_bool_decide as Hf; cbn [negb].
  - rewrite Hf. destruct (messages r) as [|m ms] eqn:Hm; intros [= <- <- <-]; cbn.
    + by rewrite Hm.
    + split; [|done]. split; [apply check_mono|]. intros [Ha Hs]%Forall_cons. by rewrite Ha.
  - intros [= <- <- <-]. cbn. done.
Qed.

Lemma zlength_append {A} (l k : list A) : zlength (l ++ k) = zlength l + zlength k.
Proof. unfold zlength. rewrite length_app. lia. Qed.
Lemma zlength_take {A} (l : list A) n : 0 ≤ n → zlength (take (Z.to_nat n) l) = Z.min n (zlength l).
Proof. unfold zlength. rewrite length_take. lia. Qed.
Lemma zlength_ge0 {A} (l : list A) : 0 ≤ zlength l.
Proof. unfold zlength. lia. Qed.
Lemma splice_splice {A} (l a b : list A) n : 0 ≤ n → n + zlength a + zlength b ≤ zlength l →
  splice (splice l n a) (n + zlength a) b = splice l n (a ++ b).
Proof.
  intros Hn Hl. pose proof (zlength_ge0 a). pose proof (zlength_ge0 b).
  apply list_eq_Z; [rewrite !splice_length; rewrite ?splice_length, ?zlength_append; lia|].
  intros i Hi. rewrite !splice_length in Hi by (rewrite ?splice_length; lia).
  rewrite !splice_lookup by (rewrite ?splice_length, ?zlength_append; lia). rewrite zlength_append.
  repeat case_decide; try lia; try done.
  - rewrite lookup_app_r by (unfold zlength in *; lia). f_equal. unfold zlength in *. lia.
  - rewrite lookup_app_l by (unfold zlength in *; lia). done.
Qed.
Lemma splice_nil {A} (l : list A) n : splice l n [] = l.
Proof. unfold splice. cbn. rewrite Nat.add_0_r. apply take_drop. Qed.

Lemma read_loop_spec fuel r f buf n : (weight r < fuel)%nat → 0 ≤ n ≤ zlength buf →
  ∃ f', peer_read_loop fuel r f buf n =
    Some (splice buf n (take (Z.to_nat (zlength buf - n)) (remaining r)),
          n + Z.min (zlength buf - n) (zlength (remaining r)),
          (if zlength buf - n <=? zlength (remaining r) then None
           else Some (match r_ending r with None => UnexpectedEOF | Some s => ReceiveFailed s end)), f') ∧
    (f = true → f' = true) ∧ (silent r → f' = f).
Proof.
  revert r f buf n. induction fuel as [|fuel IH]; intros r f buf n Hw Hn; [lia|]. cbn [peer_read_loop].
  pose proof (zlength_ge0 (remaining r)) as Hr0.
  destruct (Z.ltb_spec n (zlength buf)) as [Hlt|Hge].
  - destruct (recv r f) as [[x r'] f1] eqn:Hrecv. apply recv_spec in Hrecv as (Hf & Hend & Hx).
    destruct x as [d|e|]; [|destruct Hx as [Hrem ->]|done].
    + destruct Hx as [Hrem Hwt]. pose proof (zlength_ge0 d). pose proof (zlength_ge0 (remaining r')).
      set (k := Z.min (zlength buf - n) (zlength d)).
      assert (zlength (take (Z.to_nat k) d) = k) as Hk by (rewrite zlength_take; lia).
      assert (zlength (splice buf n (take (Z.to_nat k) d)) = zlength buf) as Hsl by (rewrite splice_length; lia).
      destruct (IH r' f1 (splice buf n (take (Z.to_nat k) d)) (n + k)) as (f' & -> & Hf'); [lia|rewrite Hsl; lia|].
      exists f'. split; [|intuition congruence]. rewrite Hsl, Hend, Hrem, zlength_append.
      assert (splice (splice buf n (take (Z.to_nat k) d)) (n + k) (take (Z.to_nat (zlength buf - (n + k))) (remaining r')) =
              splice buf n (take (Z.to_nat (zlength buf - n)) (d ++ remaining r'))) as ->.
      { rewrite <-Hk at 2. rewrite splice_splice; [|lia|rewrite Hk, zlength_take by lia; lia]. f_equal.
        rewrite take_app. f_equal; [|f_equal; unfold zlength in *; lia].
        unfold k. destruct (Z.min_spec (zlength buf - n) (zlength d)) as [[_ ->]|[? ->]]; [done|].
        rewrite !take_ge by (unfold zlength in *; lia). done. }
      replace (n + k + Z.min (zlength buf - (n + k)) (zlength (remaining r'))) with
        (n + Z.min (zlength buf - n) (zlength d + zlength (remaining r'))) by lia.
      case_Z; done || lia.
    + exists f1. split; [|intuition congruence]. rewrite Hrem. unfold end_error. change (zlength (@nil byte)) with 0.
      rewrite take_nil, splice_nil, (proj2 (Z.leb_gt _ _)) by lia.
      replace (n + Z.min (zlength buf - n) 0) with n by lia. by destruct (r_ending r).
  - exists f. split; [|done]. replace (zlength buf - n) with 0 by lia. cbn [Z.to_nat]. rewrite take_0, splice_nil.
    rewrite (proj2 (Z.leb_le _ _)) by lia. by replace (n + Z.min 0 (zlength (remaining r))) with n by lia.
Qed.

(** ** Readers *)
Definition r_remaining (r : stream_reader) : list byte := current r ++ remaining (source r).
Lemma reader_Read_spec fuel r f n : (weight (source r) + 1 < fuel)%nat → 0 < n → r_done r = false →
  ∃ x r' f', peer_Read fuel r f n = Some (x, r', f') ∧ ((f = true → f' = true) ∧ (silent (source r) → f' = f ∧ silent (source r'))) ∧
    r_ending (source r') = r_ending (source r) ∧
    match x with
    | Ok d => r_done r' = false ∧ d ≠ [] ∧ r_remaining r = d ++ r_remaining r'
    | Err e => r_remaining r = [] ∧ e = end_error (source r)
    | Panic => False
    end.
Proof.
  intros Hfuel Hn. revert r f Hfuel. induction fuel as [|fuel IH]; intros r f Hfuel Hd; [lia|]. cbn [peer_Read].
  case_bool_decide as Hc; cbn [negb].
  - rewrite Hd. destruct (recv (source r) f) as [[x s] f1] eqn:Hrecv. apply recv_spec in Hrecv as (Hf & Hend & Hx).
    assert (r_remaining r = remaining (source r)) as -> by (unfold r_remaining; by rewrite Hc).
    destruct x as [d|e|]; [|destruct Hx as [Hrem ->]|done].
    + destruct Hx as [Hrem Hw]. destruct (IH (mkReader s d false) f1) as (x & r' & f' & -> & Hf' & He' & Hx'); [cbn; lia|done|].
      exists x, r', f'. split; [done|]. split; [cbn in Hf'; intuition congruence|]. cbn in He'. split; [congruence|].
      unfold r_remaining in Hx'; cbn in Hx'. destruct x as [d'|e|]; [| |done].
      * destruct Hx' as (? & ? & Hr'). split_and!; [done|done|]. by rewrite Hrem, Hr'.
      * destruct Hx' as [Hr' ->]. split; [by rewrite Hrem, Hr'|]. unfold end_error. cbn. by rewrite Hend.
    + unfold end_error in *. destruct (r_ending (source r)) as [st|] eqn:Hst;
        eexists _, _, f1; (split; [done|]); cbn; rewrite ?Hend; done.
  - eexists _, _, f. split; [done|]. split; [done|]. cbn. split; [done|]. split; [done|]. split.
    + destruct (current r) as [|b l]; [done|]. by replace (Z.to_nat n) with (S (Z.to_nat (n - 1))) by lia.
    + unfold r_remaining; cbn. by rewrite app_assoc, take_drop.
Qed.
(** [io.Copy] writes what the stream still holds, whatever its buffer. *)
Lemma io_Copy_spec fuel bufsize r f dst : (length (r_remaining r) < fuel)%nat → 0 < bufsize → r_done r = false →
  ∃ f', io_Copy fuel bufsize r f dst = Some (dst ++ r_remaining r, r_ending (source r), f') ∧
    (f = true → f' = true) ∧ (silent (source r) → f' = f).
Proof.
  intros Hfuel Hb. revert r f dst Hfuel. induction fuel as [|fuel IH]; intros r f dst Hfuel Hd; [lia|]. cbn [io_Copy].
  unfold Read. destruct (reader_Read_spec (3 + length (messages (source r))) r f bufsize) as (x & r' & f1 & -> & Hf & He & Hx); [|done..|].
  { unfold weight. case_bool_decide; lia. }
  destruct x as [d|e|]; [| |done].
  - destruct Hx as (Hd' & Hne & Hrem). assert (0 < length d)%nat by (destruct d; [done|cbn; lia]).
    rewrite Hrem, length_app in Hfuel. destruct (IH r' f1 (dst ++ d)) as (f' & -> & Hf'); [lia|done|].
    exists f'. split; [|intuition congruence]. by rewrite Hrem, <-app_assoc, He.
  - destruct Hx as [-> ->]. rewrite app_nil_r. unfold end_error. exists f1.
    split; [by destruct (r_ending (source r))|]. intuition congruence.
Qed.

(** ** Handlers send what they should *)
Definition stream_data (r : rpc_stream) : list byte := concat (Data <$> sent r).
Lemma concat_data l : concat (Data <$> (mkMessage None <$> l)) = concat l.
Proof. induction l; [done|]. cbn. by f_equal. Qed.
Lemma send_blocks_spec fuel bs data : 0 < bs → (length data ≤ fuel)%nat →
  ∃ l, send_blocks fuel bs data = Some l ∧ concat l = data ∧ Forall (λ x, 0 < zlength x ≤ bs) l.
Proof.
  intros Hbs. revert data. induction fuel as [|fuel IH]; intros data Hl.
  { destruct data; [|cbn in Hl; lia]. by exists []. }
  destruct data as [|b data]; [by exists []|]. set (dd := b :: data) in *. cbn [send_blocks]. fold dd.
  set (k := Z.to_nat (Z.min (zlength dd) bs)).
  assert (0 < length dd)%nat by (unfold dd; cbn; lia).
  assert (1 ≤ k ≤ length dd)%nat as Hk by (unfold k, zlength; lia).
  destruct (IH (drop k dd)) as (l & -> & Hc & Hf); [rewrite length_drop; lia|].
  exists (take k dd :: l). split; [done|]. cbn [concat]. rewrite Hc, take_drop. split; [done|]. constructor; [|done].
  unfold zlength. rewrite length_take. unfold k, zlength in *. lia.
Qed.

(** The chunk writer splits what it is given into chunks, however it arrives. *)
Definition writer_ok (w : chunkWriter) : Prop :=
  Forall (λ c, zlength c = chunkSendSize) (w_sent w) ∧ zlength (w_buf w) < chunkSendSize.
Definition written (w : chunkWriter) : list byte := concat (w_sent w) ++ w_buf w.
Lemma w_write_spec fuel w p : (length p ≤ fuel)%nat → writer_ok w →
  ∃ w', w_write fuel w p = Some w' ∧ writer_ok w' ∧ written w' = written w ++ p.
Proof.
  revert w p. induction fuel as [|fuel IH]; intros w p Hl Hw.
  { destruct p; [|cbn in Hl; lia]. exists w. by rewrite app_nil_r. }
  destruct p as [|b p]; [exists w; by rewrite app_nil_r|]. set (pp := b :: p) in *. cbn [w_write]. fold pp.
  destruct Hw as [Hs Hb]. set (k := Z.to_nat (Z.min (zlength pp) (chunkSendSize - zlength (w_buf w)))).
  assert (0 < length pp)%nat by (unfold pp; cbn; lia).
  assert (1 ≤ k)%nat as Hk by (unfold k, zlength in *; lia).
  assert (zlength (w_buf w ++ take k pp) ≤ chunkSendSize) as Hle.
  { rewrite zlength_append. unfold k. rewrite zlength_take by (unfold zlength in *; lia). lia. }
  set (w1 := mkWriter (w_sent w) (w_buf w ++ take k pp)).
  assert (written w1 = written w ++ take k pp) as Hw1 by (unfold written, w1; cbn; by rewrite app_assoc).
  destruct (Z.eqb_spec (zlength (w_buf w1)) chunkSendSize) as [Heq|Hne].
  - assert (w_flush w1 = mkWriter (w_sent w1 ++ [w_buf w1]) []) as Hfl.
    { unfold w_flush. rewrite bool_decide_false; [done|]. intros Hn. by rewrite Hn in Heq. }
    destruct (IH (w_flush w1) (drop k pp)) as (w' & -> & Hok & Hwr).
    + rewrite length_drop; lia.
    + rewrite Hfl. split; [|done]. cbn. apply Forall_app. split; [done|]. by constructor.
    + exists w'. split; [done|]. split; [done|]. rewrite Hwr, Hfl. unfold written at 1; cbn.
      rewrite concat_app, app_nil_r; cbn. rewrite app_nil_r. change (concat (w_sent w) ++ w_buf w ++ take k pp) with (written w1).
      by rewrite Hw1, <-app_assoc, take_drop.
  - destruct (IH w1 (drop k pp)) as (w' & -> & Hok & Hwr).
    + rewrite length_drop; lia.
    + split; [done|]. cbn in *. lia.
    + exists w'. split; [done|]. split; [done|]. by rewrite Hwr, Hw1, <-app_assoc, take_drop.
Qed.
Lemma chunk_copy_spec pieces :
  ∃ l, chunk_copy pieces = Some l ∧ concat l = concat pieces ∧
    (∃ full last, l = full ++ last ∧ Forall (λ c, zlength c = chunkSendSize) full ∧
       (last = [] ∨ ∃ c, last = [c] ∧ 0 < zlength c < chunkSendSize)).
Proof.
  assert (∃ w, foldl (λ w p, w ← w; chunk_Write w p) (Some (mkWriter [] [])) pieces = Some w ∧ writer_ok w ∧ written w = concat pieces)
    as (w & Hw & [Hs Hb] & Hwr).
  { induction pieces as [|p pieces IH] using rev_ind; [by eexists|]. destruct IH as (w & Hw & Hok & Hwr).
    rewrite foldl_app, Hw. cbn. destruct (w_write_spec (length p) w p (le_n _) Hok) as (w' & ? & ? & Hwr').
    exists w'. split; [done|]. split; [done|]. rewrite Hwr', Hwr, concat_app. cbn. by rewrite app_nil_r. }
  unfold chunk_copy. rewrite Hw. cbn. eexists; split; [done|]. unfold w_flush, written in *. case_bool_decide as Hn.
  - rewrite Hn, app_nil_r in Hwr. split; [done|]. exists (w_sent w), []. rewrite app_nil_r. auto.
  - cbn. rewrite concat_app; cbn. rewrite app_nil_r. split; [done|]. exists (w_sent w), [w_buf w].
    split; [done|]. split; [done|]. right. exists (w_buf w). split; [done|].
    split; [|done]. destruct (w_buf w); [done|]. unfold zlength; cbn; lia.
Qed.

(** ** The two sides together *)

(** The call fails, or its stream arrives whole, or it is cut. *)
Definition arrives (whole : rpc_stream) (call : option rpc_stream) : Prop :=
  call = None ∨ call = Some whole ∨ ∃ k s, call = Some (mkStream (take k (sent whole)) (Some s)).
(** What a handler sends for a file or range [target]; [up] tells whether the build is
    marked as uploaded. *)
Definition serves_stream (whole : rpc_stream) (target : list byte) (up : Prop) : Prop :=
  (∃ l, sent whole = mkMessage None <$> l ∧ concat l = target) ∨
  (∃ e, whole = mkStream [] (Some e)) ∨
  sent whole = [availability peerNotAvailable] ∨
  (sent whole = [availability peerUseStorage] ∧ up).

Lemma open_stream_spec whole target up call f o f' :
  serves_stream whole target up → arrives whole call → open_stream call f = (o, f') →
  (f' = true → f = true ∨ up) ∧ (f = true → f' = true) ∧
  match o with
  | None => True
  | Some r => silent r ∧ f' = f ∧ ∃ k, remaining r = take k target ∧ (r_ending r = None → remaining r = target)
  end.
Proof.
  intros Hserve Harr Hopen. split; [|split].
  - destruct call as [st|]; cbn in Hopen; [|simplify_eq; by left].
    destruct (sent st) as [|m ms] eqn:Hst; [simplify_eq; by left|].
    assert (m ∈ sent whole) as Hin.
    { assert (m ∈ sent st) as Hm by (rewrite Hst; left).
      destruct Harr as [?|[[= ->]|(k & s & [= ->])]]; [done|done|]. cbn in Hm.
      rewrite <-(take_drop k (sent whole)). apply elem_of_app. by left. }
    intros Hf'. destruct Hserve as [(l & Hl & _)|[[e ->]|[Hl|[Hl Hup]]]]; [|by apply not_elem_of_nil in Hin| |by right].
    + rewrite Hl in Hin. apply list_elem_of_fmap in Hin as (d & -> & _). cbn in Hopen. simplify_eq. by left.
    + rewrite Hl in Hin. apply list_elem_of_singleton in Hin as ->. cbn in Hopen. simplify_eq. by left.
  - intros ->. destruct call as [st|]; cbn in Hopen; [|by simplify_eq].
    destruct (sent st) as [|m ms]; [by simplify_eq|].
    pose proof (check_mono (Availability m) true eq_refl). destruct (checkPeerAvailability _ _). by simplify_eq/=.
  - destruct call as [st|]; cbn in Hopen; [|by simplify_eq].
    destruct (sent st) as [|m ms] eqn:Hst; [by simplify_eq|].
    destruct (checkPeerAvailability (Availability m) f) as [ok f1] eqn:Hck. injection Hopen as <- <-.
    destruct ok; [|done].
    assert (∃ k, sent st = take k (sent whole) ∧ (ending st = None → sent st = sent whole)) as (k & Hk & Hend).
    { destruct Harr as [?|[[= ->]|(k & s & [= ->])]]; [done| |by exists k].
      exists (length (sent whole)). by rewrite firstn_all. }
    rewrite Hst in Hk, Hend. destruct Hserve as [(l & Hl & Hc)|[[e ->]|[Hl|[Hl _]]]].
    + rewrite Hl in Hk, Hend. rewrite <-fmap_take in Hk. destruct (take k l) as [|d l'] eqn:Htk; [done|].
      cbn in Hk. injection Hk as -> ->. cbn in Hck. injection Hck as <-.
      assert (concat (d :: l') = take (length (concat (take k l))) target) as Hpre.
      { rewrite <-Htk, <-Hc. assert (concat l = concat (take k l) ++ concat (drop k l)) as Hl' by (by rewrite <-concat_app, take_drop).
        by rewrite Hl', take_app_length. }
      assert (remaining (mkRecv d (mkMessage None <$> l') (ending st)) = concat (d :: l')) as Hrem
        by (unfold remaining; cbn; by rewrite concat_data).
      split; [by apply Forall_fmap, Forall_true|]. split; [done|]. exists (length (concat (take k l))).
      split; [exact (eq_trans Hrem Hpre)|]. intros Hn. refine (eq_trans Hrem _). rewrite <-Hc. f_equal.
      specialize (Hend Hn). change (mkMessage None d :: (mkMessage None <$> l')) with (mkMessage None <$> (d :: l')) in Hend.
      apply list_fmap_eq_inj in Hend; [done|]. by intros ?? [= ->].
    + cbn in Hk. by destruct k.
    + rewrite Hl in Hk. destruct k; [done|]. cbn in Hk. injection Hk as -> _. done.
    + rewrite Hl in Hk. destruct k; [done|]. cbn in Hk. injection Hk as -> _. done.
Qed.

Section transparent.
Context {ID B H D M : Type} `{EqDecision ID, UuidOps ID, BitSetOps B, ReadonlyDevice H D} (marshal : M → option (list byte)).
Abbreviation server := (server (ID := ID) (B := B) (D := D) (M := M)).
Implicit Types (s : server) (content : list byte).

(** A diff whose slices are its content. *)
Definition diff_serves (d : D) (content : list byte) : Prop :=
  0 < dev_BlockSize d ∧
  ∀ off len data, 0 ≤ off ≤ maxI64 → 0 ≤ len ≤ maxI64 → dev_Slice d off len = Ok data → data = slice content off (Z.min (off + len) (zlength content)).
Lemma ReadAtBuildSeekable_serves s b f off len whole content :
  (∀ d, diffs s !! (b, f) = Some d → diff_serves d content) → off ≤ maxI64 → len ≤ maxI64 →
  ReadAtBuildSeekable s b f off len = Some (Ok whole) →
  serves_stream whole (slice content off (Z.min (off + len) (zlength content))) (b ∈ uploadedBuilds s).
Proof.
  intros Hd Hoff Hlen. unfold ReadAtBuildSeekable, ResolveSeekable. destruct (Z.ltb_spec off 0), (Z.ltb_spec len 0); cbn [orb];
    [by intros [= <-]; right; left; eauto..|].
  case_bool_decide as Hup; [intros [= <-]; right; right; right; done|].
  destruct (bool_decide (f = MemfileName) || bool_decide (f = RootfsName)); [|by intros [= <-]; right; left; eauto].
  destruct (diffs s !! (b, f)) as [d|]; [|intros [= <-]; by right; right; left].
  destruct (Hd d eq_refl) as [Hbs Hsl]. unfold seekable_Stream. destruct (dev_Slice d off len) as [data|e|] eqn:Hs; [| |done].
  - destruct (send_blocks_spec (length data) (dev_BlockSize d) data Hbs (le_n _)) as (l & -> & Hc & _).
    intros [= <-]. left. exists l. split; [done|]. by rewrite Hc, (Hsl off len _ ltac:(lia) ltac:(lia) Hs).
  - intros [= <-]. right; left. cbn. eauto.
Qed.
(** The bytes of a blob file of a cached build. *)
Definition blob_content s (b f : string) : option (list byte) :=
  match ResolveBlob s b f with
  | Ok (fileSource (Some path)) => match disk s path with FileBytes pieces => Some (concat pieces) | _ => None end
  | Ok (metadataSource meta) => meta ≫= marshal
  | Ok (headerSource (Some (Some h))) => Some (Serialize (HMetadata h) (HMapping h))
  | _ => None
  end.
Lemma GetBuildBlob_serves s b f whole content :
  (∀ c, blob_content s b f = Some c → c = content) →
  GetBuildBlob marshal s b f = Some (Ok whole) → serves_stream whole content (b ∈ uploadedBuilds s).
Proof.
  intros Hc. unfold GetBuildBlob, blob_content in *. case_bool_decide as Hup; [intros [= <-]; right; right; right; done|].
  destruct (ResolveBlob s b f) as [src|e|]; [| |done].
  - destruct src as [[path|]|meta|[[h|]|]]; cbn.
    + destruct (disk s path) as [| |pieces]; [intros [= <-]; by right; right; left|intros [= <-]; right; left; cbn; eauto|].
      destruct (chunk_copy_spec pieces) as (l & -> & Hl & _). intros [= <-]. left. exists l. split; [done|]. by rewrite Hl, (Hc _ eq_refl).
    + intros [= <-]. right; left; cbn; eauto.
    + destruct (meta ≫= marshal) as [c|]; intros [= <-]; [|right; left; cbn; eauto].
      left. exists [c]. cbn. rewrite app_nil_r. split; [done|]. by apply Hc.
    + intros [= <-]. left. exists [Serialize (HMetadata h) (HMapping h)]. split; [done|]. cbn. rewrite app_nil_r. by apply Hc.
    + intros [= <-]. by right; right; left.
    + intros [= <-]. right; left; cbn; eauto.
  - destruct e; intros [= <-]; [right; left; cbn; eauto|by right; right; left|right; left; cbn; eauto..].
Qed.

(** What a read into [buf] at [off] returns: [n] bytes of the content at the start of
    the buffer, all of it if there is no error. *)
Definition reads_content {E} (content buf : list byte) (off : Z) (r : list byte * Z * option E) : Prop :=
  let '(buf', n, err) := r in
  0 ≤ n ≤ zlength buf ∧ buf' = splice buf 0 (slice content off (off + n)) ∧ (err = None → n = zlength buf).
(** A storage object that holds the content. *)
Definition base_serves {E} (b : seekable E) (content : list byte) : Prop :=
  ∀ buf off, 0 ≤ off → reads_content content buf off (base_ReadAt b buf off).
Lemma slice_empty {A} (l : list A) off : slice l off off = [].
Proof. unfold slice. by rewrite Z.sub_diag. Qed.
Lemma slice_take {A} (l : list A) off m k : 0 ≤ off → 0 ≤ k → off + k ≤ m →
  take (Z.to_nat k) (slice l off m) = slice l off (off + k).
Proof. intros. unfold slice. rewrite take_take. f_equal. lia. Qed.

Lemma seekable_ReadAt_reads {E} (marked : Prop) off content (h : handle (seekable E)) up call openFn buf whole :
  serves_stream whole (slice content off (Z.min (off + zlength buf) (zlength content))) marked → arrives whole call → 0 ≤ off →
  (∀ o, h_base h = Some o ∨ openFn = Ok o → base_serves o content) → openFn ≠ Panic →
  let '(_, up', r) := seekable_ReadAt h up call openFn buf off in
  reads_content content buf off r ∧ (up' = true → up = true ∨ marked).
Proof.
  intros Hs Ha Hoff Hbase Hnp.
  unfold seekable_ReadAt, withPeerFallback. pose proof (zlength_ge0 buf) as Hb0.
  assert (∀ o : seekable E, base_serves o content → reads_content content buf off (from_base (base_ReadAt o buf off))) as Ho.
  { intros o Ho. specialize (Ho buf off Hoff). destruct (base_ReadAt o buf off) as [[buf' n] err]. destruct Ho as (? & ? & He).
    split; [done|]. split; [done|]. intros Hn. apply He. by destruct err. }
  assert (∀ up', (up' = true → up = true ∨ marked) →
    let '(_, up', r) :=
      match getOrOpenBase h openFn with
      | (h, Ok b) => (h, up', from_base (base_ReadAt (E:=E) b buf off))
      | (h, Err e) => (h, up', ((buf, 0), Some e))
      | (h, Panic) => (h, up', ((buf, 0), None))
      end in reads_content content buf off r ∧ (up' = true → up = true ∨ marked)) as Hfall.
  { intros up' Hup'. unfold getOrOpenBase. destruct (h_base h) as [o|] eqn:Hh; [by split; [apply Ho, Hbase; left|]|].
    destruct openFn as [o|e|]; [by split; [apply Ho, Hbase; right|]| |done]. split; [|done]. split; [lia|]. split; [|done].
    by rewrite Z.add_0_r, slice_empty, splice_nil. }
  destruct up; [apply Hfall; by left|]. destruct (open_stream call false) as [o up'] eqn:Hopen.
  destruct (open_stream_spec _ _ _ _ _ _ _ Hs Ha Hopen) as (Hup & _ & Hor).
  destruct o as [r|]; [|apply Hfall; intros; destruct Hup; auto].
  destruct Hor as (Hsil & -> & k & Hrem & _).
  destruct (read_loop_spec (3 + length (messages r)) r false buf 0) as (f1 & -> & _ & Hf1); [unfold weight; case_bool_decide; lia|lia|].
  rewrite Z.sub_0_r, Z.add_0_l. pose proof (zlength_ge0 (remaining r)). split; [|rewrite (Hf1 Hsil); by left].
  set (n := Z.min (zlength buf) (zlength (remaining r))). split; [lia|]. split.
  - f_equal. assert (take (Z.to_nat (zlength buf)) (remaining r) = take (Z.to_nat n) (remaining r)) as ->.
    { unfold n. destruct (Z.min_spec (zlength buf) (zlength (remaining r))) as [[_ ->]|[? ->]]; [done|].
      rewrite !take_ge by (unfold zlength in *; lia). done. }
    assert (zlength (remaining r) ≤ Z.max 0 (zlength content - off)) as Hle.
    { rewrite Hrem. unfold slice, zlength. rewrite !length_take, length_drop. lia. }
    assert (zlength (remaining r) ≤ Z.of_nat k) as Hk by (rewrite Hrem; unfold zlength; rewrite length_take; lia).
    rewrite Hrem at 1. rewrite take_take, Nat.min_l by (unfold n in *; lia).
    destruct (decide (off ≤ zlength content)).
    + apply slice_take; lia.
    + replace n with 0 by lia. by rewrite Z.add_0_r, slice_empty.
  - destruct (Z.leb_spec (zlength buf) (zlength (remaining r))); [lia|done].
Qed.

(** A read through a peer is a read of the file.  Whatever the origin's server
    answers, wherever the network cuts the stream, and whether the read falls back to
    the storage, the bytes counted as read are those of the diff at that offset, the
    rest of the buffer is as it was, a read without an error has filled the buffer, and
    the shared flag is only raised when the origin has marked the build as uploaded. *)
Theorem Peer_ReadAt_transparent {E} s b f off content (h : handle (seekable E)) up call openFn buf whole :
  (∀ d, diffs s !! (b, f) = Some d → diff_serves d content) →
  ReadAtBuildSeekable s b f off (zlength buf) = Some (Ok whole) → arrives whole call → 0 ≤ off ≤ maxI64 → zlength buf ≤ maxI64 →
  (∀ o, h_base h = Some o ∨ openFn = Ok o → base_serves o content) → openFn ≠ Panic →
  let '(_, up', r) := seekable_ReadAt h up call openFn buf off in
  reads_content content buf off r ∧ (up' = true → up = true ∨ b ∈ uploadedBuilds s).
Proof.
  intros Hd Hw Ha [Hoff Hoff'] Hbuf Hbase Hnp.
  apply (seekable_ReadAt_reads _ _ _ _ _ _ _ _ _ (ReadAtBuildSeekable_serves _ _ _ _ _ _ _ Hd Hoff' Hbuf Hw)); done.
Qed.

(** A peer that has the diff serves every range inside it without the storage, until
    the build is marked as uploaded; then the storage serves it, and all later
    reads of the build. *)
Theorem Peer_ReadAt_available {E} s b f off content d (h : handle (seekable E)) openFn buf whole o :
  f = MemfileName ∨ f = RootfsName → diffs s !! (b, f) = Some d → 0 < dev_BlockSize d →
  0 ≤ off → 0 < zlength buf → off + zlength buf ≤ zlength content →
  dev_Slice d off (zlength buf) = Ok (slice content off (off + zlength buf)) →
  ReadAtBuildSeekable s b f off (zlength buf) = Some (Ok whole) →
  (getOrOpenBase h openFn).2 = Ok o →
  (b ∉ uploadedBuilds s →
     seekable_ReadAt h false (Some whole) openFn buf off = (h, false, (splice buf 0 (slice content off (off + zlength buf)), zlength buf, None))) ∧
  (b ∈ uploadedBuilds s →
     seekable_ReadAt h false (Some whole) openFn buf off = ((getOrOpenBase h openFn).1, true, from_base (base_ReadAt o buf off))) ∧
  seekable_ReadAt h true (Some whole) openFn buf off = ((getOrOpenBase h openFn).1, true, from_base (base_ReadAt o buf off)).
Proof.
  intros Hf Hd Hbs Hoff Hlen Hin Hsl Hw Hopen. destruct (getOrOpenBase h openFn) as [h1 ?] eqn:Hg. cbn in Hopen; subst.
  unfold ReadAtBuildSeekable in Hw. rewrite !(proj2 (Z.ltb_ge _ _)) in Hw by lia. cbn [orb] in Hw.
  unfold seekable_ReadAt, withPeerFallback. rewrite !Hg. split; [|split; [|done]].
  - intros Hup. rewrite bool_decide_false in Hw by done. unfold ResolveSeekable in Hw.
    replace (bool_decide (f = MemfileName) || bool_decide (f = RootfsName)) with true in Hw.
    2: { destruct Hf as [-> | ->]; [by rewrite bool_decide_true|]. by rewrite (bool_decide_true (RootfsName = RootfsName)), orb_true_r. }
    rewrite Hd in Hw. unfold seekable_Stream in Hw. rewrite Hsl in Hw.
    set (data := slice content off (off + zlength buf)) in *.
    assert (zlength data = zlength buf) as Hdl by (unfold data; rewrite slice_length; lia).
    destruct (send_blocks_spec (length data) (dev_BlockSize d) data Hbs (le_n _)) as (l & Hl & Hc & _).
    rewrite Hl in Hw. assert (whole = finish_stream (l, None)) as -> by (by injection Hw). clear Hw.
    destruct l as [|c l]; [cbn in Hc; rewrite <-Hc in Hdl; unfold zlength in *; cbn in *; lia|].
    assert (open_stream (Some (finish_stream (c :: l, None))) false = (Some (mkRecv c (mkMessage None <$> l) None), false)) as -> by done.
    destruct (read_loop_spec (3 + length (mkMessage None <$> l)) (mkRecv c (mkMessage None <$> l) None) false buf 0)
      as (f1 & Hr & _ & Hsil); [unfold weight; cbn; case_bool_decide; lia|lia|].
    assert (remaining (mkRecv c (mkMessage None <$> l) None) = data) as Hrem by (unfold remaining; cbn; by rewrite concat_data).
    rewrite Hrem, Z.sub_0_r, Hdl, Z.min_id, Z.leb_refl, Z.add_0_l in Hr. rewrite take_ge in Hr by (unfold zlength in *; lia).
    assert (f1 = false) as -> by (apply Hsil; unfold silent; cbn; by apply Forall_fmap, Forall_true).
    cbn [messages]. by rewrite Hr.
  - intros Hup. rewrite bool_decide_true in Hw by done. by injection Hw as <-.
Qed.

(** A storage object that holds a file. *)
Definition blob_serves {E} (b : blob E) (content : list byte) : Prop :=
  ∀ dst, let '(dst', err) := base_WriteTo b dst in ∃ k, dst' = dst ++ take k content ∧ (err = None → dst' = dst ++ content).
(** A file written out through a peer - the snapshot file, the metadata, a header -
    is the file, whatever the origin answers, however its messages are cut and copied,
    and whether the storage takes over: what is written is a beginning of it, the
    whole of it when there is no error, and no part is written twice. *)
Theorem Peer_WriteTo_transparent {E} s b f content (h : handle (blob E)) up call openFn bufsize dst whole :
  (∀ c, blob_content s b f = Some c → c = content) →
  GetBuildBlob marshal s b f = Some (Ok whole) → arrives whole call → 0 < bufsize →
  (∀ o, h_base h = Some o ∨ openFn = Ok o → blob_serves o content) → openFn ≠ Panic →
  let '(_, up', (dst', err)) := blob_WriteTo h up call openFn bufsize dst in
  (∃ k, dst' = dst ++ take k content ∧ (err = None → dst' = dst ++ content)) ∧
  (up' = true → up = true ∨ b ∈ uploadedBuilds s).
Proof.
  intros Hc Hw Ha Hb Hbase Hnp. pose proof (GetBuildBlob_serves _ _ _ _ _ Hc Hw) as Hs.
  assert (∀ o : blob E, blob_serves o content → let '(dst', err) := from_base (base_WriteTo o dst) in
    ∃ k, dst' = dst ++ take k content ∧ (err = None → dst' = dst ++ content)) as Ho.
  { intros o Ho. specialize (Ho dst). unfold from_base. destruct (base_WriteTo o dst) as [dst' err]. cbn.
    destruct Ho as (k & Hk & He). exists k. split; [done|]. intros Hn. apply He. by destruct err. }
  assert (∀ up', (up' = true → up = true ∨ b ∈ uploadedBuilds s) →
    let '(_, up', (dst', err)) :=
      match getOrOpenBase h openFn with
      | (h, Ok b) => (h, up', from_base (base_WriteTo (E:=E) b dst))
      | (h, Err e) => (h, up', (dst, Some e))
      | (h, Panic) => (h, up', (dst, None))
      end in (∃ k, dst' = dst ++ take k content ∧ (err = None → dst' = dst ++ content)) ∧
             (up' = true → up = true ∨ b ∈ uploadedBuilds s)) as Hfall.
  { intros up' Hup'. unfold getOrOpenBase. destruct (h_base h) as [o|] eqn:Hh.
    { specialize (Ho o (Hbase o (or_introl eq_refl))). by destruct (from_base _). }
    destruct openFn as [o|e|]; [|split; [|done]; exists 0%nat; by rewrite take_0, app_nil_r|done].
    specialize (Ho o (Hbase o (or_intror eq_refl))). by destruct (from_base _). }
  unfold blob_WriteTo, withPeerFallback. destruct up; [apply Hfall; by left|].
  destruct (open_stream call false) as [o up'] eqn:Hopen.
  destruct (open_stream_spec _ _ _ _ _ _ _ Hs Ha Hopen) as (Hup & _ & Hor).
  destruct o as [r|]; [|apply Hfall; intros; destruct Hup; auto].
  destruct Hor as (Hsil & -> & k & Hrem & Hend).
  destruct (io_Copy_spec (2 + Z.to_nat (zlength (first r) + zlength (concat (Data <$> messages r)))) bufsize (newPeerStreamReader r) false dst)
    as (f1 & -> & _ & Hf1); [|done|done|].
  { unfold r_remaining, remaining, zlength; cbn. rewrite length_app. lia. }
  rewrite (Hf1 Hsil). split; [|by left]. unfold r_remaining; cbn. exists k. rewrite <-Hrem. split; [done|].
  intros Hn. rewrite Hend; [done|]. by destruct (r_ending r).
Qed.
End transparent.

(** ** A diff in a local cache *)
Lemma localDiff_serves key c m : cmmap c = Some m → csize c = zlength m → dirtyFile c = true → 0 < cblockSize c →
  zlength m ≤ maxI64 → diff_serves (mkLocalDiff key c) m.
Proof.
  intros Hm Hs Hdf Hbs Hml. split; [done|]. intros off len data Hoff Hlen.
  change (dev_Slice (mkLocalDiff key c) off len) with (lift_cache (Slice c off len)). unfold Slice.
  destruct (isClosed c); [done|]. rewrite Hm, Hdf. cbn. unfold go_slice. rewrite Hs.
  destruct ((0 <=? off) && _ && _) eqn:Hb; cbn; [|done]. intros [= <-].
  apply andb_true_iff in Hb as [[_ Hlo%Z.leb_le]%andb_true_iff _]. f_equal. unfold maxI64 in *.
  destruct (decide (off + len < 9223372036854775808)); [by rewrite i64_small by lia|].
  exfalso. assert (i64 (off + len) < 0); [|lia]. unfold i64.
  rewrite <-(Z.mod_unique _ 18446744073709551616 1 (off + len - 9223372036854775808)); lia.
Qed.

Section witnesses.
#[local] Existing Instances BoolBits.ops BoolBits.laws Bytes16.ops Bytes16.eq_dec Bytes16.laws.
Definition peer_bytes : list byte := [x00; x01; x02; x03; x04; x05; x06; x07].
Definition peer_cache : Cache := mkCache "diff" 8 4 (Some peer_bytes) ∅ true false.
Definition peer_server (up : gset string) : server (ID := Bytes16.t) (B := list bool) (D := localDiff) (M := list byte) :=
  mkServer up {[("b", MemfileName) := mkLocalDiff "b" peer_cache]}
    {["b" := mkTemplate (Some "snap") (Some [x01]) (Some (Some Example.header)) None]} (λ _, FileBytes [[x01; x02]; [x03]]).
Definition peer_base : seekable () := mkSeekable (λ buf off, ((buf, 0), Some ())) (0, None) (λ _ _, (None, None)).
Definition peer_blob : blob () := mkBlob (λ dst, (dst, Some ())) (false, None).
(** The stream breaks after the first of the two messages. *)
Definition peer_cut : option rpc_stream := Some (mkStream [mkMessage None [x01; x02; x03; x04]] (Some Unavailable)).

Lemma Peer_ReadAt_transparent_witness :
  let s := peer_server ∅ in
  let buf := replicate 6 x0a in
  ∃ whole, ReadAtBuildSeekable s "b" MemfileName 1 6 = Some (Ok whole) ∧ arrives whole peer_cut ∧
  let '(_, up', r) := seekable_ReadAt (mkHandle None) false peer_cut (Ok peer_base) buf 1 in
  reads_content peer_bytes buf 1 r ∧ (up' = true → false = true ∨ "b" ∈ uploadedBuilds s).
Proof.
  intros s buf. set (whole := mkStream [mkMessage None [x01; x02; x03; x04]; mkMessage None [x05; x06]] None).
  assert (ReadAtBuildSeekable s "b" MemfileName 1 6 = Some (Ok whole)) as Hw by by vm_compute.
  assert (arrives whole peer_cut) as Ha by (right; right; exists 1%nat, Unavailable; done).
  exists whole. split; [done|]. split; [done|].
  apply (Peer_ReadAt_transparent s "b" MemfileName 1 peer_bytes (mkHandle None) false peer_cut (Ok peer_base) buf whole);
    [|exact Hw|exact Ha|done|done| |done].
  - intros d Hd. cbn in Hd. rewrite lookup_singleton_eq in Hd. injection Hd as <-. by apply localDiff_serves.
  - intros o Ho. assert (o = peer_base) as -> by (destruct Ho as [?|Ho]; [done|by injection Ho]).
    intros b off Hoff. cbn. pose proof (zlength_ge0 b). split; [lia|]. split; [by rewrite Z.add_0_r, slice_empty, splice_nil|done].
Defined.
Example peer_cut_reads : (seekable_ReadAt (mkHandle None) false peer_cut (Ok peer_base) (replicate 6 x0a) 1).2 =
  ([x01; x02; x03; x04; x0a; x0a], 4, Some (FromPeer (ReceiveFailed Unavailable))).
Proof. by vm_compute. Qed.
Lemma Peer_WriteTo_transparent_witness :
  let s := peer_server ∅ in
  ∃ whole, GetBuildBlob Some s "b" SnapfileName = Some (Ok whole) ∧
  let '(_, up', (dst', err)) := blob_WriteTo (mkHandle None) false (Some whole) (Ok peer_blob) 2 [x00] in
  (∃ k, dst' = [x00] ++ take k [x01; x02; x03] ∧ (err = None → dst' = [x00] ++ [x01; x02; x03])) ∧
  (up' = true → false = true ∨ "b" ∈ uploadedBuilds s).
Proof.
  intros s. set (whole := mkStream [mkMessage None [x01; x02; x03]] None).
  assert (GetBuildBlob Some s "b" SnapfileName = Some (Ok whole)) as Hw by by vm_compute.
  exists whole. split; [done|].
  apply (Peer_WriteTo_transparent Some s "b" SnapfileName [x01; x02; x03] (mkHandle None) false (Some whole) (Ok peer_blob) 2 [x00] whole);
    [|exact Hw| |done| |done].
  - intros c Hc. vm_compute in Hc. by injection Hc as <-.
  - by right; left.
  - intros o Ho. assert (o = peer_blob) as -> by (destruct Ho as [?|Ho]; [done|by injection Ho]).
    intros dst. cbn. exists 0%nat. by rewrite take_0, app_nil_r.
Defined.
Example peer_writes : (blob_WriteTo (mkHandle None) false (Some (mkStream [mkMessage None [x01; x02; x03]] None)) (Ok peer_blob) 2 [x00]).2 =
  ([x00; x01; x02; x03], None).
Proof. by vm_compute. Qed.
(** A request for a range past the end of a local diff is a panic of the handler of
    a stream, which nothing recovers. *)
Lemma ReadAtBuildSeekable_past_end : ReadAtBuildSeekable (peer_server ∅) "b" MemfileName 9 4 = Some Panic.
Proof. by vm_compute. Qed.
(** A build marked as uploaded is read from the storage from then on. *)
Lemma uploaded_raises_flag :
  ∃ whole, ReadAtBuildSeekable (peer_server {["b"]}) "b" MemfileName 0 4 = Some (Ok whole) ∧
    (seekable_ReadAt (mkHandle None) false (Some whole) (Ok peer_base) (replicate 4 x00) 0).1.2 = true.
Proof. eexists. split; [by vm_compute|by vm_compute]. Qed.
End witnesses.
