(* ===== verification/PeerSystem.v ===== *)
(** * Snapshots that several orchestrators share

    The life of a snapshot from the moment it is cached on the orchestrator that made
    it to the end of its upload: peerclient/resolver.go and registry.go, and
    [snapshotAndCacheSandbox], [uploadSnapshotAsync] and [completeUpload] of
    server/sandboxes.go, with the readers of other orchestrators ([Peer]) in between.
    A step is one operation on the registry, the storage, a cache or a flag; a read
    is one step, its stream cut anywhere.  A process that has ended takes no more steps
    and answers no more calls; what is started in its place is another node. *)
From Stdlib Require Import Init.Byte.
From stdpp Require Import functions.
From S2P Require Import Prelude Bitset Uuid Mapping Header Serialization BlockCache Device Peer.

(** ** resolver.go

    [uploaded_flags] has the flag of each build, as an index into [flags], which
    handles share. *)
Record resolver := mkResolver { selfAddress : string; uploaded_flags : gmap string nat; flags : list bool }.
Inductive resolution := ResolveUploaded | ResolveRedisError | ResolveNoPeer | ResolveSelf | ResolveDialError | ResolvePeer (addr : string) (uploaded : nat).
Definition uploadedFlag (r : resolver) (buildID : string) : resolver * nat :=
  match uploaded_flags r !! buildID with
  | Some l => (r, l)
  | None => (mkResolver (selfAddress r) (<[buildID := length (flags r)]> (uploaded_flags r)) (flags r ++ [false]), length (flags r))
  end.
Definition Purge (r : resolver) (buildID : string) : resolver :=
  mkResolver (selfAddress r) (delete buildID (uploaded_flags r)) (flags r).
Definition isSelfAddress (r : resolver) (address : string) : bool := bool_decide (address = selfAddress r).
Definition flag_set (r : resolver) (l : nat) : bool := default false (flags r !! l).
(** [lookup] is the registry's answer, [dial] whether the address can be dialled. *)
Definition resolve (r : resolver) (buildID : string) (lookup : option (option string)) (dial : bool) : resolver * resolution :=
  let '(r, uploaded) := uploadedFlag r buildID in
  if flag_set r uploaded then (r, ResolveUploaded)
  else match lookup with
       | None => (r, ResolveRedisError)
       | Some None => (r, ResolveNoPeer)
       | Some (Some addr) =>
           if isSelfAddress r addr then (r, ResolveSelf)
           else if dial then (r, ResolvePeer addr uploaded) else (r, ResolveDialError)
       end.
Definition store_flag (r : resolver) (l : nat) (v : bool) : resolver :=
  mkResolver (selfAddress r) (uploaded_flags r) (<[l := v]> (flags r)).

(** ** registry.go *)
Abbreviation Registry := (gmap string string).
Definition Register (g : Registry) (buildID nodeAddress : string) : Registry := <[buildID := nodeAddress]> g.
Definition registry_Lookup (g : Registry) (buildID : string) : option string := g !! buildID.
Definition Unregister (g : Registry) (buildID : string) : Registry := delete buildID g.

Section system.
Context {ID B H D M : Type} `{EqDecision ID, UuidOps ID, BitSetOps B, ReadonlyDevice H D}.
(** What the snapshot of a build has in a file. *)
Context (content : string → string → list byte).
(** The storage: what it has under a file of a build, that was uploaded whole or not. *)
Context (storage : bool → string → string → seekable ()).
Abbreviation server := (server (ID := ID) (B := B) (D := D) (M := M)).
Implicit Types (s : server).

(** An orchestrator: what its server answers from, and its resolver. *)
Record node := mkNode { n_server : server; n_resolver : resolver }.
(** Where the goroutine that pauses and uploads a build is. *)
Inductive phase := Registering | Uploading | Uploaded | Marked | Finished.
(** A storage object that was opened through [routingProvider]: by whom, the build
    and file, and the peer with its flag; [None] is the base provider. *)
Record open_object := mkOpen { o_node : string; o_build : string; o_file : string; o_peer : option (string * nat) }.
Record system := mkSystem {
  nodes : string → node;
  registry : Registry;
  stored : gset string;                    (** builds whole in the storage *)
  uploads : gmap string (string * phase);  (** the origin of a build *)
  opened : list open_object;
  down : gset string;                      (** the orchestrators whose process has ended *)
}.

Definition set_diffs s (m : gmap (string * string) D) : server := mkServer (uploadedBuilds s) m (templates s) (disk s).
Definition set_uploaded s (u : gset string) : server := mkServer u (diffs s) (templates s) (disk s).
Definition with_server (σ : system) (n : string) (f : server → server) : system :=
  mkSystem (<[n := mkNode (f (n_server (nodes σ n))) (n_resolver (nodes σ n))]> (nodes σ)) (registry σ) (stored σ) (uploads σ) (opened σ) (down σ).
Definition with_resolver (σ : system) (n : string) (r : resolver) : system :=
  mkSystem (<[n := mkNode (n_server (nodes σ n)) r]> (nodes σ)) (registry σ) (stored σ) (uploads σ) (opened σ) (down σ).
Definition with_phase (σ : system) (b : string) (p : string * phase) (g : Registry) (st : gset string) : system :=
  mkSystem (nodes σ) g st (<[b := p]> (uploads σ)) (opened σ) (down σ).

(** The storage's object of a file: opening it does not read it. *)
Definition stored_object (σ : system) (b f : string) : seekable () := storage (bool_decide (b ∈ stored σ)) b f.

(** The process of a node ends; it takes no further step and answers no further call. *)
Definition kill (σ : system) (n : string) : system :=
  mkSystem (nodes σ) (registry σ) (stored σ) (uploads σ) (opened σ) ({[n]} ∪ down σ).
Definition alive (σ : system) (n : string) : bool := bool_decide (n ∉ down σ).

(** What the peer's handler gives for a read, before the network. *)
Definition peer_stream (σ : system) (o : open_object) (len off : Z) : option rpc_stream :=
  match o_peer o with
  | Some (addr, _) =>
      if alive σ addr then
        match ReadAtBuildSeekable (n_server (nodes σ addr)) (o_build o) (o_file o) off len with
        | Some (Ok st) => Some st
        | _ => None
        end
      else None
  | None => None
  end.
(** The handler of a stream panics, and no interceptor recovers it: the process ends. *)
Definition after_stream (σ : system) (addr b f : string) (len off : Z) : system :=
  match ReadAtBuildSeekable (n_server (nodes σ addr)) b f off len with Some Panic => kill σ addr | _ => σ end.
(** [cut] is what the network leaves of the stream. *)
Definition read_object (σ : system) (o : open_object) (buf : list byte) (off : Z) (cut : option rpc_stream → option rpc_stream) :
    system * (list byte * Z * option (client_error ())) :=
  let base := stored_object σ (o_build o) (o_file o) in
  match o_peer o with
  | None => (σ, from_base (base_ReadAt base buf off))
  | Some (addr, l) =>
      let r := n_resolver (nodes σ (o_node o)) in
      let '(_, up, res) := seekable_ReadAt (mkHandle None) (flag_set r l) (cut (peer_stream σ o (zlength buf) off)) (Ok base) buf off in
      let σ := if flag_set r l then σ else after_stream σ addr (o_build o) (o_file o) (zlength buf) off in
      (with_resolver σ (o_node o) (if up then store_flag r l true else r), res)
  end.

Inductive peer_label :=
  | LSnapshot (n b : string) (ds : list (string * D))  (** [AddSnapshot] of a new build *)
  | LRegister (b : string) (ok : bool)                 (** after which [Pause] returns *)
  | LUpload (b : string) (ok : bool)
  | LMark (b : string)                                 (** [completeUpload] *)
  | LUnregister (b : string) (ok : bool)
  | LResolve (n b f : string) (ok dial : bool)
  | LRead (i : nat) (buf : list byte) (off : Z) (cut : option rpc_stream → option rpc_stream)
  | LEvict (n b f : string)                            (** a diff leaves the store *)
  | LForget (n b : string)                             (** [uploadedBuilds] expires *)
  | LExpire (b : string)                               (** the registry's entry expires *)
  | LPurge (n b : string).

Definition complete_upload (σ : system) (b n : string) : system :=
  with_phase (with_server σ n (λ s, set_uploaded s ({[b]} ∪ uploadedBuilds s))) b (n, Marked) (registry σ) (stored σ).
Definition add_snapshot (σ : system) (n b : string) (ds : list (string * D)) : system :=
  with_phase (with_server σ n (λ s, set_diffs s (foldr (λ fd m, <[(b, fd.1) := fd.2]> m) (diffs s) ds))) b (n, Registering) (registry σ) (stored σ).
Definition open_seekable (σ : system) (n b f : string) (lookup : option (option string)) (dial : bool) : system :=
  let '(r, a) := resolve (n_resolver (nodes σ n)) b lookup dial in
  let peer := match a with ResolvePeer addr l => Some (addr, l) | _ => None end in
  let σ := with_resolver σ n r in
  mkSystem (nodes σ) (registry σ) (stored σ) (uploads σ) (opened σ ++ [mkOpen n b f peer]) (down σ).
Definition live_step (σ : system) (l : peer_label) : option system :=
  match l with
  | LSnapshot n b ds => if decide (uploads σ !! b = None) then Some (add_snapshot σ n b ds) else None
  | LRegister b ok =>
      match uploads σ !! b with
      | Some (n, Registering) => Some (with_phase σ b (n, Uploading) (if ok then Register (registry σ) b n else registry σ) (stored σ))
      | _ => None
      end
  | LUpload b ok =>
      match uploads σ !! b with
      | Some (n, Uploading) => Some (with_phase σ b (n, Uploaded) (registry σ) (if ok then {[b]} ∪ stored σ else stored σ))
      | _ => None
      end
  | LMark b => match uploads σ !! b with Some (n, Uploaded) => Some (complete_upload σ b n) | _ => None end
  | LUnregister b ok =>
      match uploads σ !! b with
      | Some (n, Marked) => Some (with_phase σ b (n, Finished) (if ok then Unregister (registry σ) b else registry σ) (stored σ))
      | _ => None
      end
  | LResolve n b f ok dial => Some (open_seekable σ n b f (if ok then Some (registry_Lookup (registry σ) b) else None) dial)
  | LRead i buf off cut => o ← opened σ !! i; Some (read_object σ o buf off cut).1
  | LEvict n b f => Some (with_server σ n (λ s, set_diffs s (delete (b, f) (diffs s))))
  | LForget n b => Some (with_server σ n (λ s, set_uploaded s (uploadedBuilds s ∖ {[b]})))
  | LExpire b => Some (mkSystem (nodes σ) (Unregister (registry σ) b) (stored σ) (uploads σ) (opened σ) (down σ))
  | LPurge n b => Some (with_resolver σ n (Purge (n_resolver (nodes σ n)) b))
  end.
(** The orchestrator that takes a step; only one that runs does. *)
Definition acting (σ : system) (l : peer_label) : option string :=
  match l with
  | LSnapshot n _ _ | LResolve n _ _ _ _ | LEvict n _ _ | LForget n _ | LPurge n _ => Some n
  | LRegister b _ | LUpload b _ | LMark b | LUnregister b _ => fst <$> uploads σ !! b
  | LRead i _ _ _ => o_node <$> opened σ !! i
  | LExpire _ => None
  end.
Definition peer_step (σ : system) (l : peer_label) : option system :=
  if match acting σ l with Some n => alive σ n | None => true end then live_step σ l else None.
Definition peer_run (σ : system) (ls : list peer_label) : option system := foldl (λ o l, σ ← o; peer_step σ l) (Some σ) ls.

(** Before anything happened. *)
Definition empty_system : system :=
  mkSystem (λ n, mkNode (mkServer ∅ ∅ ∅ (λ _, FileMissing)) (mkResolver n ∅ [])) ∅ ∅ ∅ [] ∅.

(** ** What the environment keeps to *)

(** A diff has all of its content. *)
Definition diff_whole (d : D) (c : list byte) : Prop :=
  0 < dev_BlockSize d ∧
  (∀ off len, 0 ≤ off → 0 ≤ len → off + len ≤ zlength c → dev_Slice d off len = Ok (slice c off (off + len))) ∧
  ∀ off len, 0 ≤ off ≤ zlength c → 0 ≤ len → off + len ≤ maxI64 → dev_Slice d off len ≠ Panic.
Definition read_ok (buf : list byte) (off : Z) : Prop := 0 ≤ off ≤ maxI64 ∧ zlength buf ≤ maxI64.
Definition peer_label_ok (l : peer_label) : Prop :=
  match l with
  | LSnapshot n b ds => ∀ f d, (f, d) ∈ ds → diff_serves d (content b f)
  | LRead _ buf off cut => read_ok buf off ∧ cut None = None ∧ ∀ w, arrives w (cut (Some w))
  | _ => True
  end.
(** The files a build has. *)
Context (files : string → gset string).
Definition good_label (σ : system) (l : peer_label) : Prop :=
  match l with
  | LSnapshot n b ds =>
      (∀ f, f ∈ files b → f ∈ ds.*1) ∧ ∀ f d, (f, d) ∈ ds → diff_serves d (content b f) ∧ diff_whole d (content b f)
  | LRegister _ ok | LUpload _ ok => ok = true
  | LEvict n b f => b ∈ stored σ ∨ fst <$> uploads σ !! b ≠ Some n
  | LExpire b => b ∈ stored σ
  | LRead i buf off _ => peer_label_ok l ∧ off + zlength buf ≤ maxI64 ∧ ∀ o, opened σ !! i = Some o → off ≤ zlength (content (o_build o) (o_file o))
  | _ => True
  end.
Inductive good_run : system → system → Prop :=
  | good_refl σ : good_run σ σ
  | good_step σ l σ1 σ2 : good_label σ l → peer_step σ l = Some σ1 → good_run σ1 σ2 → good_run σ σ2.
Inductive ok_run : system → system → Prop :=
  | ok_refl σ : ok_run σ σ
  | ok_step σ l σ1 σ2 : peer_label_ok l → peer_step σ l = Some σ1 → ok_run σ1 σ2 → ok_run σ σ2.

(** The storage has no wrong bytes, and serves a range of a whole object in full. *)
Context (storage_serves : ∀ up b f, base_serves (storage up b f) (content b f)).
Context (storage_full : ∀ b f buf off, 0 ≤ off → off + zlength buf ≤ zlength (content b f) →
  base_ReadAt (storage true b f) buf off = (splice buf 0 (slice (content b f) off (off + zlength buf)), zlength buf, None)).

(** ** Lemmas *)
Lemma peer_step_live σ l σ' : peer_step σ l = Some σ' → live_step σ l = Some σ'.
Proof. unfold peer_step. by destruct (match acting σ l with Some n => alive σ n | None => true end). Qed.
Lemma after_stream_cases σ addr b f len off : after_stream σ addr b f len off = σ ∨ after_stream σ addr b f len off = kill σ addr.
Proof. unfold after_stream. repeat case_match; auto. Qed.
(** A read changes flags, and what may have ended. *)
Lemma read_object_sys σ o buf off cut : ∃ σ1 r, (σ1 = σ ∨ ∃ a, σ1 = kill σ a) ∧
  ((read_object σ o buf off cut).1 = σ1 ∨ (read_object σ o buf off cut).1 = with_resolver σ1 (o_node o) r).
Proof.
  unfold read_object. destruct (o_peer o) as [[a l]|]; [|exists σ, (n_resolver (nodes σ (o_node o))); by auto].
  destruct (seekable_ReadAt _ _ _ _ _ _) as [[h up] r]. cbn.
  destruct (flag_set _ l); [by eexists _, _; split; [left|right]|].
  destruct (after_stream_cases σ a (o_build o) (o_file o) (zlength buf) off) as [-> | ->]; eexists _, _; (split; [|by right]); eauto.
Qed.
Lemma server_with_server σ n f m : n_server (nodes (with_server σ n f) m) = if decide (m = n) then f (n_server (nodes σ n)) else n_server (nodes σ m).
Proof.
  unfold with_server; cbn. destruct (decide (m = n)) as [->|Hm]; [by rewrite fn_lookup_insert|by rewrite fn_lookup_insert_ne].
Qed.
Lemma resolver_with_server σ n f m : n_resolver (nodes (with_server σ n f) m) = n_resolver (nodes σ m).
Proof.
  unfold with_server; cbn. destruct (decide (m = n)) as [->|Hm]; [by rewrite fn_lookup_insert|by rewrite fn_lookup_insert_ne].
Qed.
Lemma server_with_resolver σ n r m : n_server (nodes (with_resolver σ n r) m) = n_server (nodes σ m).
Proof.
  unfold with_resolver; cbn. destruct (decide (m = n)) as [->|Hm]; [by rewrite fn_lookup_insert|by rewrite fn_lookup_insert_ne].
Qed.
Lemma resolver_with_resolver σ n r m : n_resolver (nodes (with_resolver σ n r) m) = if decide (m = n) then r else n_resolver (nodes σ m).
Proof.
  unfold with_resolver; cbn. destruct (decide (m = n)) as [->|Hm]; [by rewrite fn_lookup_insert|by rewrite fn_lookup_insert_ne].
Qed.
Lemma add_diffs_lookup (b : string) (ds : list (string * D)) (m : gmap (string * string) D) b' f d :
  foldr (λ fd m, <[(b, fd.1) := fd.2]> m) m ds !! (b', f) = Some d → (b' = b ∧ (f, d) ∈ ds) ∨ m !! (b', f) = Some d.
Proof.
  induction ds as [|[f' d'] ds IH]; cbn; [by right|]. destruct (decide ((b, f') = (b', f))) as [Heq|Hne].
  - rewrite Heq, lookup_insert_eq. injection Heq as -> ->. intros [= ->]. left. split; [done|left].
  - rewrite lookup_insert_ne by done. intros [[-> Hin]|?]%IH; [left; split; [done|by right]|by right].
Qed.
Lemma add_diffs_has (b : string) (ds : list (string * D)) (m : gmap (string * string) D) b' f :
  is_Some (m !! (b', f)) ∨ (b' = b ∧ f ∈ ds.*1) → is_Some (foldr (λ fd m, <[(b, fd.1) := fd.2]> m) m ds !! (b', f)).
Proof.
  induction ds as [|[f' d'] ds IH]; cbn; [intros [?|[_ ?%elem_of_nil]]; done|].
  intros Hin. destruct (decide ((b, f') = (b', f))) as [Heq|Hne]; [by rewrite Heq, lookup_insert_eq|].
  rewrite lookup_insert_ne by done. apply IH. destruct Hin as [?|[-> [->|?]%elem_of_cons]]; [by left|done|by right].
Qed.

(** All diffs of all servers are slices of the content of their build. *)
Definition diffs_serve (σ : system) : Prop :=
  ∀ n b f d, diffs (n_server (nodes σ n)) !! (b, f) = Some d → diff_serves d (content b f).
Lemma read_object_servers σ o buf off cut m : n_server (nodes (read_object σ o buf off cut).1 m) = n_server (nodes σ m).
Proof.
  destruct (read_object_sys σ o buf off cut) as (σ1 & r & Hs & [-> | ->]); rewrite ?server_with_resolver; by destruct Hs as [-> |[a ->]].
Qed.
Lemma open_seekable_servers σ n b f lk dial m : n_server (nodes (open_seekable σ n b f lk dial) m) = n_server (nodes σ m).
Proof. unfold open_seekable. destruct (resolve _ _ _ _) as [r a]. apply (server_with_resolver σ n r m). Qed.
Lemma step_diffs σ l σ' n k d : live_step σ l = Some σ' → diffs (n_server (nodes σ' n)) !! k = Some d →
  diffs (n_server (nodes σ n)) !! k = Some d ∨ ∃ b ds f, l = LSnapshot n b ds ∧ k = (b, f) ∧ (f, d) ∈ ds.
Proof.
  destruct k as [kb kf]. destruct l as [m b ds|b ok|b ok|b|b ok|m b f ok dial|i buf off cut|m b f|m b|b|m b]; cbn [live_step]; intros Hs Hk.
  - destruct (decide _); [|done]. injection Hs as <-. unfold add_snapshot, with_phase in Hk; cbn [nodes] in Hk.
    rewrite server_with_server in Hk. case_decide as Hn; [|by left].
    subst. apply add_diffs_lookup in Hk as [[-> Hin]|?]; [|by left]. right. eauto 10.
  - repeat case_match; simplify_eq; by left.
  - repeat case_match; simplify_eq; by left.
  - repeat case_match; simplify_eq. unfold complete_upload, with_phase in Hk; cbn [nodes] in Hk.
    rewrite server_with_server in Hk. case_decide; by subst; left.
  - repeat case_match; simplify_eq; by left.
  - injection Hs as <-. rewrite open_seekable_servers in Hk. by left.
  - apply bind_Some in Hs as (o & _ & [= <-]). rewrite read_object_servers in Hk. by left.
  - injection Hs as <-. rewrite server_with_server in Hk. case_decide; [|by left]. subst. cbn in Hk.
    apply lookup_delete_Some in Hk as [_ ?]. by left.
  - injection Hs as <-. rewrite server_with_server in Hk. case_decide; by subst; left.
  - injection Hs as <-. by left.
  - injection Hs as <-. rewrite server_with_resolver in Hk. by left.
Qed.
Lemma step_diffs_serve σ l σ' : diffs_serve σ → peer_label_ok l → live_step σ l = Some σ' → diffs_serve σ'.
Proof.
  intros Hd Hl Hs n b f d [Hk|(b' & ds & f' & -> & [= -> ->] & Hin)]%(step_diffs _ _ _ _ _ _ Hs); [eauto|by apply Hl].
Qed.

(** What a read returns and does to the flag, whatever happened before. *)
Lemma stored_object_serves σ b f : base_serves (stored_object σ b f) (content b f).
Proof. apply storage_serves. Qed.
Lemma read_object_reads σ o buf off cut : diffs_serve σ → read_ok buf off → cut None = None → (∀ w, arrives w (cut (Some w))) →
  let '(σ', r) := read_object σ o buf off cut in
  reads_content (content (o_build o) (o_file o)) buf off r ∧
  ∀ a l, o_peer o = Some (a, l) → ∃ v σ1, (σ1 = σ ∨ σ1 = kill σ a) ∧ σ' = with_resolver σ1 (o_node o) (if v : bool then store_flag (n_resolver (nodes σ (o_node o))) l true else n_resolver (nodes σ (o_node o))) ∧
    (v = true → flag_set (n_resolver (nodes σ (o_node o))) l = true ∨ o_build o ∈ uploadedBuilds (n_server (nodes σ a))).
Proof.
  intros Hd [Hoff Hbuf] Hcn Hc. unfold read_object. destruct (o_peer o) as [[a l]|] eqn:Hp.
  - set (up := flag_set _ l). set (call := cut _).
    assert (∃ whole, serves_stream whole (slice (content (o_build o) (o_file o)) off (Z.min (off + zlength buf) (zlength (content (o_build o) (o_file o)))))
              (o_build o ∈ uploadedBuilds (n_server (nodes σ a))) ∧ arrives whole call) as (whole & Hs & Ha).
    { unfold call, peer_stream. rewrite Hp.
      destruct (alive σ a); [|exists (mkStream [] (Some Internal)); split; [right; left; by eauto|by left]].
      destruct (ReadAtBuildSeekable _ _ _ _ _) as [[w| |]|] eqn:Hw; [exists w; split; [|apply Hc]| | |];
        [|exists (mkStream [] (Some Internal)); split; [right; left; eauto|left; done]..].
      eapply ReadAtBuildSeekable_serves; [|lia|done|exact Hw]. intros d. apply Hd. }
    pose proof (seekable_ReadAt_reads _ off (content (o_build o) (o_file o)) (mkHandle None) up call
      (Ok (stored_object σ (o_build o) (o_file o))) buf whole Hs Ha (proj1 Hoff)) as Hr.
    destruct (seekable_ReadAt _ _ _ _ _ _) as [[h up'] r]. destruct Hr as [Hr Hup]; [|done|].
    + intros ? [?|[= <-]]; [done|]. apply stored_object_serves.
    + split; [done|]. intros ?? [= <- <-]. exists up', (if flag_set (n_resolver (nodes σ (o_node o))) l then σ else after_stream σ a (o_build o) (o_file o) (zlength buf) off).
      split; [|done]. destruct (flag_set _ l); [by left|apply after_stream_cases].
  - split; [|done]. pose proof (stored_object_serves σ (o_build o) (o_file o) buf off (proj1 Hoff)) as Hr.
    destruct (base_ReadAt _ _ _) as [[buf' n] err]. destruct Hr as (? & ? & He). split; [done|]. split; [done|].
    intros Hn. apply He. by destruct err.
Qed.

(** C11: no read returns a wrong byte.  Whatever snapshots are taken, however their
    uploads, registrations, expiries and evictions interleave with readers, whichever
    of them fail, and wherever streams are cut: the bytes a read counts are those of the
    file at that offset, and a read without an error has filled its buffer. *)
Theorem P2P_reads_content σ i o buf off cut :
  ok_run empty_system σ → opened σ !! i = Some o →
  read_ok buf off → cut None = None → (∀ w, arrives w (cut (Some w))) →
  reads_content (content (o_build o) (o_file o)) buf off (read_object σ o buf off cut).2.
Proof.
  intros Hrun _ Hok Hcn Hc. assert (diffs_serve σ) as Hd.
  { assert (diffs_serve empty_system) as H0' by by intros ?????. revert H0'.
    induction Hrun; [done|]. intros Hd. apply IHHrun. by eapply step_diffs_serve, peer_step_live. }
  pose proof (read_object_reads σ o buf off cut Hd Hok Hcn Hc) as Hr. by destruct (read_object _ _ _ _ _); destruct Hr.
Qed.

(** ** When nothing fails *)

(** A flag [l] of node [n] stands for the build [b]. *)
Definition uses (σ : system) (n : string) (l : nat) (b : string) : Prop :=
  uploaded_flags (n_resolver (nodes σ n)) !! b = Some l ∨
  ∃ o a, o ∈ opened σ ∧ o_node o = n ∧ o_build o = b ∧ o_peer o = Some (a, l).
Record server_inv (σ : system) : Prop := {
  si_diffs n b f d : diffs (n_server (nodes σ n)) !! (b, f) = Some d → diff_serves d (content b f) ∧ diff_whole d (content b f);
  si_origin b n p f : uploads σ !! b = Some (n, p) → b ∉ stored σ → f ∈ files b → is_Some (diffs (n_server (nodes σ n)) !! (b, f));
  si_stored b n p : uploads σ !! b = Some (n, p) → p ≠ Registering → p ≠ Uploading → b ∈ stored σ;
  si_marked n b : b ∈ uploadedBuilds (n_server (nodes σ n)) → b ∈ stored σ;
  si_registered b n : uploads σ !! b = Some (n, Uploading) → b ∉ stored σ → registry σ !! b = Some n;
  si_registry b a : registry σ !! b = Some a → ∃ p, uploads σ !! b = Some (a, p);
}.
Record reader_inv (σ : system) : Prop := {
  ri_bound n l b : uses σ n l b → (l < length (flags (n_resolver (nodes σ n))))%nat;
  ri_fun n l b b' : uses σ n l b → uses σ n l b' → b = b';
  ri_flag n l b : uses σ n l b → flag_set (n_resolver (nodes σ n)) l = true → b ∈ stored σ;
  ri_peer o a l : o ∈ opened σ → o_peer o = Some (a, l) → ∃ p, uploads σ !! o_build o = Some (a, p);
  ri_self n : selfAddress (n_resolver (nodes σ n)) = n;
}.

Lemma read_object_same σ o buf off cut : let σ' := (read_object σ o buf off cut).1 in
  stored σ' = stored σ ∧ uploads σ' = uploads σ ∧ registry σ' = registry σ ∧ opened σ' = opened σ.
Proof. destruct (read_object_sys σ o buf off cut) as (σ1 & r & Hs & [-> | ->]); by destruct Hs as [-> |[a ->]]. Qed.
Lemma step_stored_mono σ l σ' : live_step σ l = Some σ' → stored σ ⊆ stored σ'.
Proof.
  destruct l as [m b ds|b ok|b ok|b|b ok|m b f ok dial|i buf off cut|m b f|m b|b|m b]; cbn [live_step]; intros Hs.
  7: { apply bind_Some in Hs as (o & _ & [= <-]). by destruct (read_object_same σ o buf off cut) as (-> & _). }
  6: { injection Hs as <-. unfold open_seekable. by destruct (resolve _ _ _ _). }
  all: repeat case_match; simplify_eq; cbn; set_solver.
Qed.
Lemma step_origin σ l σ' b n p : live_step σ l = Some σ' → uploads σ !! b = Some (n, p) → ∃ p', uploads σ' !! b = Some (n, p').
Proof.
  destruct l as [m b' ds|b' ok|b' ok|b'|b' ok|m b' f ok dial|i buf off cut|m b' f|m b'|b'|m b']; cbn [live_step]; intros Hs Hb.
  7: { apply bind_Some in Hs as (o & _ & [= <-]). destruct (read_object_same σ o buf off cut) as (_ & -> & _). eauto. }
  6: { injection Hs as <-. unfold open_seekable. destruct (resolve _ _ _ _); cbn; eauto. }
  all: repeat case_match; simplify_eq; cbn; eauto;
    destruct (decide (b = b')) as [->|]; simplify_eq; try rewrite lookup_insert_eq; try rewrite lookup_insert_ne by done; eauto.
Qed.

Lemma server_inv_same σ σ' : (∀ n, n_server (nodes σ' n) = n_server (nodes σ n)) →
  stored σ' = stored σ → uploads σ' = uploads σ → registry σ' = registry σ → server_inv σ → server_inv σ'.
Proof.
  intros Hn Hs Hu Hr []. split; rewrite ?Hs, ?Hu, ?Hr; try done.
  - intros n b f d. rewrite Hn. eauto.
  - intros b n p f. rewrite Hn. eauto.
  - intros n b. rewrite Hn. eauto.
Qed.
Lemma open_seekable_same σ n b f lk dial : let σ' := open_seekable σ n b f lk dial in
  stored σ' = stored σ ∧ uploads σ' = uploads σ ∧ registry σ' = registry σ.
Proof. unfold open_seekable. by destruct (resolve _ _ _ _). Qed.

Lemma with_phase_inv σ b n p p' g : uploads σ !! b = Some (n, p) → (p' = Uploading → b ∉ stored σ → g !! b = Some n) →
  (p' ≠ Registering → p' ≠ Uploading → b ∈ stored σ) → (∀ b' a, g !! b' = Some a → (b' = b ∧ a = n) ∨ registry σ !! b' = Some a) →
  (∀ b', b' ≠ b → g !! b' = registry σ !! b') → server_inv σ → server_inv (with_phase σ b (n, p') g (stored σ)).
Proof.
  intros Hb Hup Hst Hg Hg' []. split; cbn; try done.
  - intros b' n' q f Hq. destruct (decide (b' = b)) as [->|Hne].
    + rewrite lookup_insert_eq in Hq. injection Hq as <- <-. eauto.
    + rewrite lookup_insert_ne in Hq by done. eauto.
  - intros b' n' q Hq. destruct (decide (b' = b)) as [->|Hne].
    + rewrite lookup_insert_eq in Hq. injection Hq as <- <-. eauto.
    + rewrite lookup_insert_ne in Hq by done. eauto.
  - intros b' n' Hq Hn. destruct (decide (b' = b)) as [->|Hne].
    + rewrite lookup_insert_eq in Hq. injection Hq as <- ->. eauto.
    + rewrite lookup_insert_ne in Hq by done. rewrite Hg' by done. eauto.
  - intros b' a Ha. destruct (decide (b' = b)) as [->|Hne].
    + rewrite lookup_insert_eq. destruct (Hg b a Ha) as [[_ ->]|Hr]; [eauto|].
      destruct (si_registry0 _ _ Hr) as [q Hq]. rewrite Hb in Hq. injection Hq as <- <-. eauto.
    + rewrite lookup_insert_ne by done. rewrite Hg' in Ha by done. eauto.
Qed.

Lemma with_server_inv σ n f (s := n_server (nodes σ n)) : server_inv σ →
  (∀ b f' d, diffs (f s) !! (b, f') = Some d → diffs s !! (b, f') = Some d) →
  (∀ b p f', uploads σ !! b = Some (n, p) → b ∉ stored σ → f' ∈ files b → is_Some (diffs s !! (b, f')) → is_Some (diffs (f s) !! (b, f'))) →
  (∀ b, b ∈ uploadedBuilds (f s) → b ∈ uploadedBuilds s ∨ b ∈ stored σ) → server_inv (with_server σ n f).
Proof.
  intros Hi Hd Ho Hm. split; [| |exact (si_stored σ Hi)| |exact (si_registered σ Hi)|exact (si_registry σ Hi)].
  - intros m b f' d. rewrite server_with_server. case_decide; [|apply (si_diffs σ Hi)]. intros ?%Hd. by apply (si_diffs σ Hi n).
  - intros b m p f' Hb Hst Hf. rewrite server_with_server. case_decide; [subst|]; [|by eapply (si_origin σ Hi)].
    eapply Ho; [exact Hb|done|done|]. by eapply (si_origin σ Hi).
  - intros m b. rewrite server_with_server. case_decide; [|apply (si_marked σ Hi)].
    intros [?|?]%Hm; [by apply (si_marked σ Hi n)|done].
Qed.
Lemma step_server_inv σ l σ' : good_label σ l → live_step σ l = Some σ' → server_inv σ → server_inv σ'.
Proof.
  destruct l as [m b ds|b ok|b ok|b|b ok|m b f ok dial|i buf off cut|m b f|m b|b|m b]; cbn [live_step]; intros Hg Hs Hi.
  - destruct Hg as [Hall Hds]. destruct (decide _) as [Hnew|]; [|done]. injection Hs as <-. destruct Hi. split; cbn [add_snapshot with_phase stored uploads registry nodes].
    + intros n b' f d. rewrite server_with_server. case_decide as Hn; [|eauto]. cbn.
      intros [[-> Hin]|?]%add_diffs_lookup; [eauto|]. subst. eauto.
    + intros b' n p f Hb' Hst Hf. rewrite server_with_server. destruct (decide (b' = b)) as [->|Hne].
      * rewrite lookup_insert_eq in Hb'. injection Hb' as <- <-. rewrite decide_True by done. cbn. apply add_diffs_has. right. eauto.
      * rewrite lookup_insert_ne in Hb' by done. case_decide; [|eauto]. subst. cbn. apply add_diffs_has. left. eauto.
    + intros b' n p Hb'. destruct (decide (b' = b)) as [->|Hne].
      * rewrite lookup_insert_eq in Hb'. by injection Hb' as <- <-.
      * rewrite lookup_insert_ne in Hb' by done. eauto.
    + intros n b'. rewrite server_with_server. case_decide; [subst; cbn|]; eauto.
    + intros b' n Hb'. destruct (decide (b' = b)) as [->|Hne].
      * rewrite lookup_insert_eq in Hb'. done.
      * rewrite lookup_insert_ne in Hb' by done. eauto.
    + intros b' a Ha. destruct (si_registry0 _ _ Ha) as [p Hp]. exists p. rewrite lookup_insert_ne; [done|congruence].
  - cbn in Hg. subst. destruct (uploads σ !! b) as [[n []]|] eqn:Hb; simplify_eq.
    apply (with_phase_inv σ b n Registering); try done; unfold Register.
    + intros _ _. by rewrite lookup_insert_eq.
    + intros b' a. destruct (decide (b' = b)) as [->|Hne]; [rewrite lookup_insert_eq; intros [= ->]; by left|].
      rewrite lookup_insert_ne by done. by right.
    + intros b' Hne. by rewrite lookup_insert_ne.
  - cbn in Hg. subst. destruct (uploads σ !! b) as [[n []]|] eqn:Hb; simplify_eq.
    set (σ1 := mkSystem (nodes σ) (registry σ) ({[b]} ∪ stored σ) (uploads σ) (opened σ) (down σ)). assert (server_inv σ1) as Hi'.
    { destruct Hi. split; cbn; try done; intros; try (eapply si_origin0 || eapply si_registered0; eauto; set_solver); set_solver. }
    change (server_inv (with_phase σ1 b (n, Uploaded) (registry σ1) (stored σ1))).
    apply (with_phase_inv σ1 b n Uploading); cbn; try done; try set_solver; eauto.
  - cbn in Hg. destruct (uploads σ !! b) as [[n []]|] eqn:Hb; simplify_eq.
    assert (b ∈ stored σ) as Hst by (by eapply (si_stored σ Hi)).
    unfold complete_upload. set (σ1 := with_server σ n _).
    assert (server_inv σ1) as Hi'.
    { apply with_server_inv; cbn; [done|eauto|eauto|]. intros b' [->%elem_of_singleton|?]%elem_of_union; auto. }
    change (server_inv (with_phase σ1 b (n, Marked) (registry σ1) (stored σ1))).
    apply (with_phase_inv σ1 b n Uploaded); cbn; try done; eauto.
  - cbn in Hg. destruct (uploads σ !! b) as [[n []]|] eqn:Hb; simplify_eq.
    assert (b ∈ stored σ) as Hst by (by eapply (si_stored σ Hi)).
    apply (with_phase_inv σ b n Marked); try done; unfold Unregister; destruct ok; eauto.
    + intros b' a [_ ?]%lookup_delete_Some. by right.
    + intros b' Hne. by rewrite lookup_delete_ne.
  - injection Hs as <-. destruct (open_seekable_same σ m b f (if ok then Some (registry_Lookup (registry σ) b) else None) dial) as (? & ? & ?).
    by apply (server_inv_same σ); [intros; apply open_seekable_servers|..].
  - apply bind_Some in Hs as (o & _ & [= <-]). destruct (read_object_same σ o buf off cut) as (? & ? & ? & _).
    by apply (server_inv_same σ); [intros; apply read_object_servers|..].
  - injection Hs as <-. cbn in Hg. apply with_server_inv; cbn; [done| | |by left].
    + by intros b' f' d [_ ?]%lookup_delete_Some.
    + intros b' p f' Hb' Hst Hf Hsome. destruct (decide (b = b')) as [->|Hne]; [exfalso; destruct Hg as [?|Hg]; [done|]; rewrite Hb' in Hg; done|].
      by rewrite lookup_delete_ne by (by intros [= ? ?]).
  - injection Hs as <-. apply with_server_inv; cbn; [done|eauto|eauto|]. intros b' [? _]%elem_of_difference. auto.
  - injection Hs as <-. cbn in Hg. destruct Hi. split; cbn; try done.
    + intros b' n Hb' Hst. unfold Unregister. rewrite lookup_delete_ne by (intros ->; done). eauto.
    + unfold Unregister. intros b' a [_ ?]%lookup_delete_Some. eauto.
  - injection Hs as <-. by apply (server_inv_same σ); [intros; apply server_with_resolver|..].
Qed.

Lemma reader_inv_mono σ σ' : (∀ n, n_resolver (nodes σ' n) = n_resolver (nodes σ n)) → opened σ' = opened σ →
  stored σ ⊆ stored σ' → (∀ b n p, uploads σ !! b = Some (n, p) → ∃ p', uploads σ' !! b = Some (n, p')) →
  reader_inv σ → reader_inv σ'.
Proof.
  intros Hn Ho Hs Hu []. assert (∀ n l b, uses σ' n l b → uses σ n l b) as Huse.
  { intros n l b. unfold uses. by rewrite Hn, Ho. }
  split.
  - intros n l b ?%Huse. rewrite Hn. eauto.
  - intros n l b b' ?%Huse ?%Huse. eauto.
  - intros n l b ?%Huse. rewrite Hn. intros ?. apply Hs. eauto.
  - intros o a l. rewrite Ho. intros Hin Hp. destruct (ri_peer0 _ _ _ Hin Hp) as [p ?]. eauto.
  - intros n. by rewrite Hn.
Qed.
Lemma uploadedFlag_spec r b r' l : uploadedFlag r b = (r', l) →
  selfAddress r' = selfAddress r ∧
  ((uploaded_flags r !! b = Some l ∧ r' = r) ∨
   (uploaded_flags r !! b = None ∧ l = length (flags r) ∧ uploaded_flags r' = <[b := l]> (uploaded_flags r) ∧ flags r' = flags r ++ [false])).
Proof. unfold uploadedFlag. destruct (uploaded_flags r !! b) as [l'|] eqn:Hb; intros [= <- <-]; [by auto|]. split; [done|]. by right. Qed.
(** What [resolve] decides and does to the flags. *)
Lemma resolve_spec r b lk dial r' a : resolve r b lk dial = (r', a) →
  ∃ l, uploadedFlag r b = (r', l) ∧
    match a with
    | ResolvePeer addr l' => l' = l ∧ flag_set r' l = false ∧ lk = Some (Some addr) ∧ addr ≠ selfAddress r' ∧ dial = true
    | ResolveUploaded => flag_set r' l = true
    | ResolveNoPeer => lk = Some None
    | ResolveSelf => lk = Some (Some (selfAddress r'))
    | ResolveRedisError => lk = None
    | ResolveDialError => dial = false
    end.
Proof.
  unfold resolve, isSelfAddress. destruct (uploadedFlag r b) as [r1 l] eqn:Hu. destruct (flag_set r1 l) eqn:Hf.
  { intros [= <- <-]. eauto. }
  destruct lk as [[addr|]|]; [|intros [= <- <-]; eauto..].
  case_bool_decide as Hself; [intros [= <- <-]; subst; eauto|].
  destruct dial; intros [= <- <-]; eauto 10.
Qed.
Lemma flag_set_lookup r l : flag_set r l = true ↔ flags r !! l = Some true.
Proof. unfold flag_set. destruct (flags r !! l) as [[]|]; naive_solver. Qed.

Lemma uploadedFlag_inv σ n b r' l : reader_inv σ → uploadedFlag (n_resolver (nodes σ n)) b = (r', l) →
  reader_inv (with_resolver σ n r') ∧ uses (with_resolver σ n r') n l b ∧
  (flag_set r' l = true → b ∈ stored σ).
Proof.
  intros Hi Hu. destruct (uploadedFlag_spec _ _ _ _ Hu) as [Hself [[Hb ->]|(Hb & -> & Hm & Hf)]].
  - assert (∀ m, n_resolver (nodes (with_resolver σ n (n_resolver (nodes σ n))) m) = n_resolver (nodes σ m)) as Hsame.
    { intros m. rewrite resolver_with_resolver. case_decide; by subst. }
    split; [apply (reader_inv_mono σ); [done|done|done|by eauto|done]|].
    split; [left; by rewrite Hsame|]. intros Hfl. eapply (ri_flag σ Hi); [|exact Hfl]. by left.
  - set (σ' := with_resolver σ n r').
    assert (∀ m l b', uses σ' m l b' → (m = n ∧ l = length (flags (n_resolver (nodes σ n))) ∧ b' = b) ∨ uses σ m l b') as Huse.
    { intros m l b' [Hl|Ho]; [|by right; right]. unfold σ' in Hl. rewrite resolver_with_resolver in Hl.
      case_decide; [subst m|by right; left]. rewrite Hm in Hl.
      apply lookup_insert_Some in Hl as [[-> <-]|[_ Hl]]; [by left|by right; left]. }
    assert (flag_set r' (length (flags (n_resolver (nodes σ n)))) = false) as Hnew.
    { unfold flag_set. rewrite Hf, lookup_app_r, Nat.sub_diag by lia. done. }
    assert (∀ l, (l < length (flags (n_resolver (nodes σ n))))%nat → flag_set r' l = flag_set (n_resolver (nodes σ n)) l) as Hold.
    { intros l Hl. unfold flag_set. by rewrite Hf, lookup_app_l. }
    split; [split|split].
    + intros m l b' [(-> & -> & ->)|Hu']%Huse; unfold σ'; rewrite resolver_with_resolver.
      * rewrite decide_True, Hf, length_app by done. cbn; lia.
      * apply (ri_bound σ Hi) in Hu'. case_decide; [subst|done]. rewrite Hf, length_app. cbn; lia.
    + intros m l b1 b2 [(-> & -> & ->)|Hua]%Huse [(E1 & E2 & ->)|Hub]%Huse; [done| | |by eapply (ri_fun σ Hi)].
      * apply (ri_bound σ Hi) in Hub. lia.
      * subst. apply (ri_bound σ Hi) in Hua. lia.
    + intros m l b' [(-> & -> & ->)|Hu']%Huse; unfold σ'; rewrite resolver_with_resolver.
      * rewrite decide_True by done. by rewrite Hnew.
      * case_decide; [subst|by eapply (ri_flag σ Hi)]. rewrite Hold by (by apply (ri_bound σ Hi) in Hu'). by eapply (ri_flag σ Hi).
    + exact (ri_peer σ Hi).
    + intros m. unfold σ'. rewrite resolver_with_resolver. case_decide; [subst; rewrite Hself|]; apply (ri_self σ Hi).
    + left. unfold σ'. rewrite resolver_with_resolver, decide_True, Hm by done. by rewrite lookup_insert_eq.
    + by rewrite Hnew.
Qed.
Lemma opened_snoc_inv σ o : reader_inv σ →
  (∀ a l, o_peer o = Some (a, l) → uses σ (o_node o) l (o_build o) ∧ ∃ p, uploads σ !! o_build o = Some (a, p)) →
  reader_inv (mkSystem (nodes σ) (registry σ) (stored σ) (uploads σ) (opened σ ++ [o]) (down σ)).
Proof.
  intros Hi Ho. set (σ' := mkSystem _ _ _ _ _ _).
  assert (∀ m l b, uses σ' m l b → uses σ m l b) as Huse.
  { intros m l b [Hl|(o' & a & Hin & <- & <- & Hp)]; [by left|]. cbn in Hin.
    apply elem_of_app in Hin as [Hin| ->%list_elem_of_singleton]; [right; eauto 10|]. by eapply Ho. }
  split.
  - intros m l b ?%Huse. by eapply (ri_bound σ Hi).
  - intros m l b b' ?%Huse ?%Huse. by eapply (ri_fun σ Hi).
  - intros m l b ?%Huse. by eapply (ri_flag σ Hi).
  - intros o' a l [Hin| ->%list_elem_of_singleton]%elem_of_app Hp; [by eapply (ri_peer σ Hi)|]. by eapply Ho.
  - exact (ri_self σ Hi).
Qed.
Lemma store_flag_inv σ n l b : reader_inv σ → uses σ n l b → b ∈ stored σ →
  reader_inv (with_resolver σ n (store_flag (n_resolver (nodes σ n)) l true)).
Proof.
  intros Hi Hu Hst. set (σ' := with_resolver σ n _).
  assert (∀ m l b, uses σ' m l b → uses σ m l b) as Huse.
  { intros m l' b' [Hl|Ho]; [|by right]. left. unfold σ' in Hl. rewrite resolver_with_resolver in Hl. case_decide; by subst. }
  split.
  - intros m l' b' Hu'%Huse%(ri_bound σ Hi). unfold σ'. rewrite resolver_with_resolver. case_decide; [subst; cbn; by rewrite length_insert|done].
  - intros m l' b' b'' ?%Huse ?%Huse. by eapply (ri_fun σ Hi).
  - intros m l' b' Hu'%Huse. unfold σ'. rewrite resolver_with_resolver. case_decide; [subst|by eapply (ri_flag σ Hi)].
    destruct (decide (l' = l)) as [->|Hne]; [intros _; by rewrite (ri_fun σ Hi _ _ _ _ Hu' Hu)|].
    unfold flag_set; cbn. rewrite list_lookup_insert_ne by done. by eapply (ri_flag σ Hi).
  - exact (ri_peer σ Hi).
  - intros m. unfold σ'. rewrite resolver_with_resolver. case_decide; [subst|]; apply (ri_self σ Hi).
Qed.
Lemma Purge_inv σ n b : reader_inv σ → reader_inv (with_resolver σ n (Purge (n_resolver (nodes σ n)) b)).
Proof.
  intros Hi. set (σ' := with_resolver σ n _).
  assert (∀ m, flags (n_resolver (nodes σ' m)) = flags (n_resolver (nodes σ m)) ∧ selfAddress (n_resolver (nodes σ' m)) = selfAddress (n_resolver (nodes σ m))) as Hsame.
  { intros m. unfold σ'. rewrite resolver_with_resolver. case_decide; by subst. }
  assert (∀ m l b, uses σ' m l b → uses σ m l b) as Huse.
  { intros m l' b' [Hl|Ho]; [|by right]. left. unfold σ' in Hl. rewrite resolver_with_resolver in Hl. case_decide; [subst|done].
    cbn in Hl. by apply lookup_delete_Some in Hl as [_ ?]. }
  split.
  - intros m l' b' Hu'%Huse%(ri_bound σ Hi). by rewrite (proj1 (Hsame m)).
  - intros m l' b' b'' ?%Huse ?%Huse. by eapply (ri_fun σ Hi).
  - intros m l' b' Hu'%Huse. unfold flag_set. rewrite (proj1 (Hsame m)). by eapply (ri_flag σ Hi).
  - exact (ri_peer σ Hi).
  - intros m. rewrite (proj2 (Hsame m)). apply (ri_self σ Hi).
Qed.
Lemma read_object_inv σ i o buf off cut : server_inv σ → reader_inv σ → opened σ !! i = Some o →
  read_ok buf off → cut None = None → (∀ w, arrives w (cut (Some w))) → reader_inv (read_object σ o buf off cut).1.
Proof.
  intros Hsi Hi Hio Hok Hcn Hc. pose proof (list_elem_of_lookup_2 _ _ _ Hio) as Hin.
  assert (diffs_serve σ) as Hd by (intros n b f d Hd; by apply (si_diffs σ Hsi n b f d)).
  pose proof (read_object_reads σ o buf off cut Hd Hok Hcn Hc) as Hr.
  destruct (o_peer o) as [[a l]|] eqn:Hp; [|by unfold read_object; rewrite Hp].
  destruct (read_object σ o buf off cut) as [σ' r]. destruct Hr as [_ Hr]. destruct (Hr a l eq_refl) as (v & σ1 & Hσ1 & -> & Hv). cbn [fst].
  assert (reader_inv (with_resolver σ (o_node o) (if v then store_flag (n_resolver (nodes σ (o_node o))) l true else n_resolver (nodes σ (o_node o))))) as Hi';
    [|destruct Hσ1 as [-> | ->]; [done|]; by eapply reader_inv_mono; [..|exact Hi']; eauto].
  assert (uses σ (o_node o) l (o_build o)) as Hu by (right; eauto 10).
  destruct v.
  - apply (store_flag_inv _ _ _ (o_build o)); [done|done|]. destruct (Hv eq_refl) as [Hf|Hm]; [by eapply (ri_flag σ Hi)|by apply (si_marked σ Hsi) in Hm].
  - apply (reader_inv_mono σ); [|done|done|by eauto|done]. intros m. rewrite resolver_with_resolver. case_decide; by subst.
Qed.
Lemma open_seekable_inv σ n b f lk dial : server_inv σ → reader_inv σ → (∀ a, lk = Some (Some a) → registry σ !! b = Some a) →
  reader_inv (open_seekable σ n b f lk dial).
Proof.
  intros Hsi Hi Hlk. unfold open_seekable. destruct (resolve _ _ _ _) as [r a] eqn:Hr.
  apply resolve_spec in Hr as (l & Hu & Ha). destruct (uploadedFlag_inv σ n b r l Hi Hu) as (Hi' & Huse & _).
  apply (opened_snoc_inv (with_resolver σ n r)); [done|]. intros addr l' Hp. cbn in Hp.
  destruct a; try done. injection Hp as -> ->. destruct Ha as (-> & _ & -> & _). split; [done|]. by apply (si_registry σ Hsi), Hlk.
Qed.
Lemma step_reader_inv σ l σ' : good_label σ l → live_step σ l = Some σ' → server_inv σ → reader_inv σ → reader_inv σ'.
Proof.
  intros Hg Hs Hsi Hi. pose proof (step_stored_mono _ _ _ Hs) as Hst. pose proof (λ b n p, step_origin σ l σ' b n p Hs) as Hor.
  destruct l as [m b ds|b ok|b ok|b|b ok|m b f ok dial|i buf off cut|m b f|m b|b|m b]; cbn [live_step] in Hs.
  6: { injection Hs as <-. apply open_seekable_inv; [done|done|]. intros a. destruct ok; [|done]. by intros [= ?]. }
  6: { apply bind_Some in Hs as (o & Hio & [= <-]). destruct Hg as [(? & ? & ?) _]. by eapply read_object_inv. }
  9: { injection Hs as <-. by apply Purge_inv. }
  all: apply (reader_inv_mono σ); [|repeat case_match; by simplify_eq|done|done|done].
  all: intros k; repeat case_match; simplify_eq; try done; by apply resolver_with_server.
Qed.
(** A request that begins inside the file makes no process end. *)
Lemma after_call_inside σ a b f len off : server_inv σ → 0 ≤ off ≤ zlength (content b f) → 0 ≤ len → off + len ≤ maxI64 → after_stream σ a b f len off = σ.
Proof.
  intros Hi [Hoff Hin] Hlen Hmax. unfold after_stream. destruct (ReadAtBuildSeekable _ _ _ _ _) as [[| |]|] eqn:Hp; try done. exfalso.
  unfold ReadAtBuildSeekable, ResolveSeekable, seekable_Stream in Hp. rewrite !(proj2 (Z.ltb_ge _ _)) in Hp by lia. cbn [orb] in Hp. case_bool_decide; [done|].
  destruct (bool_decide (f = MemfileName) || bool_decide (f = RootfsName)); [|done]. destruct (diffs _ !! _) as [d|] eqn:Hd; [|done].
  destruct (si_diffs σ Hi _ _ _ _ Hd) as (_ & _ & _ & Hsl). specialize (Hsl off len (conj Hoff Hin) Hlen Hmax). destruct (dev_Slice d off len) as [data| |]; [by destruct (send_blocks _ _ _)|done|done].
Qed.
Lemma step_down σ l σ' : good_label σ l → live_step σ l = Some σ' → server_inv σ → down σ' = down σ.
Proof.
  intros Hg Hs Hi. destruct l as [m b ds|b ok|b ok|b|b ok|m b f ok dial|i buf off cut|m b f|m b|b|m b]; cbn [live_step] in Hs.
  7: { apply bind_Some in Hs as (o & Ho & [= <-]). destruct Hg as [([[Hoff _] _] & _) [Hmax Hin]]. unfold read_object. destruct (o_peer o) as [[a l]|]; [|done].
       destruct (seekable_ReadAt _ _ _ _ _ _) as [[] ]. cbn. rewrite after_call_inside; [by destruct (flag_set _ _)|done|split; [done|by apply Hin]|apply zlength_ge0|done]. }
  6: { injection Hs as <-. unfold open_seekable. by destruct (resolve _ _ _ _). }
  all: repeat case_match; by simplify_eq.
Qed.
Lemma good_run_inv σ σ' : good_run σ σ' → server_inv σ → reader_inv σ → server_inv σ' ∧ reader_inv σ'.
Proof. induction 1 as [|σ l σ1 σ2 Hg Hs%peer_step_live _ IH]; [done|]. intros. apply IH; [by eapply step_server_inv|by eapply step_reader_inv]. Qed.
Lemma good_run_down σ σ' : good_run σ σ' → server_inv σ → down σ' = down σ.
Proof.
  induction 1 as [|σ l σ1 σ2 Hg Hs%peer_step_live _ IH]; [done|]. intros Hi. rewrite IH by by eapply step_server_inv. by eapply step_down.
Qed.
Lemma empty_inv : server_inv empty_system ∧ reader_inv empty_system.
Proof.
  assert (∀ n l b, ¬ uses empty_system n l b) as Hu by (intros n l b [?|(o & a & ?%elem_of_nil & _)]; done).
  split; split; try done; intros; try (by exfalso; eapply Hu); set_solver.
Qed.

Lemma step_opened σ l σ' i o : live_step σ l = Some σ' → opened σ !! i = Some o → opened σ' !! i = Some o.
Proof.
  destruct l as [m b ds|b ok|b ok|b|b ok|m b f ok dial|j buf off cut|m b f|m b|b|m b]; cbn [live_step]; intros Hs Hi.
  6: { injection Hs as <-. unfold open_seekable. destruct (resolve _ _ _ _). cbn. by apply lookup_app_l_Some. }
  6: { apply bind_Some in Hs as (o' & _ & [= <-]). destruct (read_object_same σ o' buf off cut) as (_ & _ & _ & ->). done. }
  all: repeat case_match; by simplify_eq.
Qed.
Lemma good_run_mono σ σ' : good_run σ σ' → stored σ ⊆ stored σ' ∧
  (∀ b n p, uploads σ !! b = Some (n, p) → ∃ p', uploads σ' !! b = Some (n, p')) ∧
  (∀ i o, opened σ !! i = Some o → opened σ' !! i = Some o).
Proof.
  induction 1 as [|σ l σ1 σ2 _ Hs%peer_step_live _ (IH1 & IH2 & IH3)]; [by eauto|]. split_and!.
  - etrans; [by eapply step_stored_mono|done].
  - intros b n p Hb. destruct (step_origin _ _ _ _ _ _ Hs Hb). eauto.
  - intros i o Hi. by eapply IH3, step_opened.
Qed.
(** A read of a range inside the file that fills its buffer. *)
Definition full_read (buf : list byte) (off : Z) (c : list byte) : list byte * Z * option (client_error ()) :=
  (splice buf 0 (slice c off (off + zlength buf)), zlength buf, None).
Lemma stored_read σ b f buf off : b ∈ stored σ → 0 ≤ off → off + zlength buf ≤ zlength (content b f) →
  from_base (base_ReadAt (stored_object σ b f) buf off) = full_read buf off (content b f).
Proof. intros Hb Hoff Hl. unfold stored_object. by rewrite bool_decide_true, storage_full by done. Qed.
Lemma peer_read s b f d buf off (base : seekable ()) : f = MemfileName ∨ f = RootfsName → b ∉ uploadedBuilds s →
  diffs s !! (b, f) = Some d → diff_whole d (content b f) → 0 ≤ off → 0 < zlength buf → off + zlength buf ≤ zlength (content b f) →
  ∃ whole, ReadAtBuildSeekable s b f off (zlength buf) = Some (Ok whole) ∧
    (seekable_ReadAt (mkHandle None) false (Some whole) (Ok base) buf off) = (mkHandle None, false, full_read buf off (content b f)).
Proof.
  intros Hf Hup Hd (Hbs & Hsl & _) Hoff Hlen Hin. specialize (Hsl off (zlength buf) Hoff ltac:(lia) Hin).
  assert (∃ whole, ReadAtBuildSeekable s b f off (zlength buf) = Some (Ok whole)) as [whole Hw].
  { unfold ReadAtBuildSeekable, ResolveSeekable. rewrite !(proj2 (Z.ltb_ge _ _)) by lia. cbn [orb]. rewrite bool_decide_false by done.
    destruct (bool_decide (f = MemfileName) || bool_decide (f = RootfsName)); [|by eexists].
    rewrite Hd. unfold seekable_Stream. rewrite Hsl.
    destruct (send_blocks_spec (length (slice (content b f) off (off + zlength buf))) (dev_BlockSize d) (slice (content b f) off (off + zlength buf)) Hbs (le_n _))
      as (l & -> & _). by eexists. }
  exists whole. split; [done|].
  by apply (Peer_ReadAt_available s b f off (content b f) d (mkHandle None) (Ok base) buf whole base).
Qed.

Lemma seekable_ReadAt_miss (up : bool) call (base : seekable ()) buf off : up = true ∨ (open_stream call up).1 = None →
  (seekable_ReadAt (mkHandle None) up call (Ok base) buf off).2 = from_base (base_ReadAt base buf off).
Proof.
  unfold seekable_ReadAt, withPeerFallback. intros [-> |Hn]; [done|]. destruct up; [done|].
  destruct (open_stream call false) as [o up]. cbn in Hn. by subst.
Qed.
Lemma read_object_peer σ o buf off cut a l : o_peer o = Some (a, l) →
  (read_object σ o buf off cut).2 =
  (seekable_ReadAt (mkHandle None) (flag_set (n_resolver (nodes σ (o_node o))) l) (cut (peer_stream σ o (zlength buf) off))
    (Ok (stored_object σ (o_build o) (o_file o))) buf off).2.
Proof. unfold read_object. intros ->. by destruct (seekable_ReadAt _ _ _ _ _ _) as [[] ]. Qed.

(** C10: a paused sandbox can be resumed elsewhere at once.  While no upload,
    registration, lookup or dial fails, nothing is evicted or expires before it is
    stored, and no reader asks for a range that begins past the end of its file, which would end the
    origin's process ([P2P_read_past_end]): once [Pause] has returned, a file of the build
    that another orchestrator opens can be read in full, at the time and at any time
    later, however other snapshots, uploads, readers and cuts of their streams
    interleave; there is no gap between serving from the peer and from the storage. *)
Theorem P2P_build_available σ σ' b origin p n f buf off :
  good_run empty_system σ → uploads σ !! b = Some (origin, p) → p ≠ Registering → n ≠ origin →
  f ∈ files b → f = MemfileName ∨ f = RootfsName →
  good_run (open_seekable σ n b f (Some (registry_Lookup (registry σ) b)) true) σ' →
  0 ≤ off → 0 < zlength buf → off + zlength buf ≤ zlength (content b f) →
  ∃ o, opened σ' !! length (opened σ) = Some o ∧ o_build o = b ∧ o_file o = f ∧
    (read_object σ' o buf off id).2 = full_read buf off (content b f).
Proof.
  intros Hrun Hb Hp Hn Hf Hff Hrun' Hoff Hlen Hin.
  destruct empty_inv as [Hs0 Hr0]. destruct (good_run_inv _ _ Hrun Hs0 Hr0) as [Hsi Hri].
  assert (good_label σ (LResolve n b f true true)) as Hg by done.
  assert (live_step σ (LResolve n b f true true) = Some (open_seekable σ n b f (Some (registry_Lookup (registry σ) b)) true)) as Hstep by done.
  destruct (good_run_inv _ _ Hrun' (step_server_inv _ _ _ Hg Hstep Hsi) (step_reader_inv _ _ _ Hg Hstep Hsi Hri)) as [Hsi' Hri'].
  destruct (good_run_mono _ _ Hrun') as (Hst & Hor & Hop).
  unfold open_seekable in Hst, Hor, Hop. destruct (resolve _ _ _ _) as [r a] eqn:Hres. cbn in Hst, Hor, Hop.
  apply resolve_spec in Hres as (l & Hu & Ha). destruct (uploadedFlag_inv σ n b r l Hri Hu) as (_ & _ & Hflag).
  destruct (uploadedFlag_spec _ _ _ _ Hu) as [Hself _]. rewrite (ri_self σ Hri) in Hself.
  set (peer := match a with ResolvePeer addr l => Some (addr, l) | _ => None end) in *.
  assert (opened σ' !! length (opened σ) = Some (mkOpen n b f peer)) as Ho by (apply Hop; by rewrite lookup_app_r, Nat.sub_diag by lia).
  eexists; split; [exact Ho|]. split; [done|]. split; [done|].
  destruct peer as [[addr l']|] eqn:Hpeer.
  - assert (addr = origin) as ->.
    { destruct (ri_peer σ' Hri' (mkOpen n b f (Some (addr, l'))) addr l') as [p1 Hp1]; [by eapply list_elem_of_lookup_2|done|].
      destruct (Hor _ _ _ Hb) as [p2 Hp2]. cbn in Hp1. congruence. }
    destruct (Hor _ _ _ Hb) as [p' Hp']. rewrite (read_object_peer _ _ _ _ _ origin l') by done. cbn [o_node o_build o_file id].
    assert (∀ up call, b ∈ stored σ' → up = true ∨ (open_stream call up).1 = None →
      (seekable_ReadAt (mkHandle None) up call (Ok (stored_object σ' b f)) buf off).2 = full_read buf off (content b f)) as Hbase
      by (intros; rewrite seekable_ReadAt_miss by done; by apply stored_read).
    destruct (flag_set _ l') eqn:Hfl.
    { apply Hbase; [|by left]. eapply (ri_flag σ' Hri'); [|exact Hfl]. right. eexists _, _. split; [by eapply list_elem_of_lookup_2|done]. }
    assert (down σ' = ∅) as Hdown.
    { transitivity (down (open_seekable σ n b f (Some (registry_Lookup (registry σ) b)) true)); [by eapply good_run_down, step_server_inv|].
      rewrite (step_down _ _ _ Hg Hstep Hsi). by rewrite (good_run_down _ _ Hrun Hs0). }
    unfold peer_stream, alive; cbn [o_peer o_build o_file]. rewrite Hdown, bool_decide_true by apply not_elem_of_empty. set (s := n_server (nodes σ' origin)).
    destruct (decide (b ∈ uploadedBuilds s)) as [Hup|Hup].
    { apply Hbase; [by eapply (si_marked σ' Hsi')|]. right.
      unfold ReadAtBuildSeekable. rewrite !(proj2 (Z.ltb_ge _ _)) by lia. cbn [orb]. by rewrite bool_decide_true. }
    destruct (diffs s !! (b, f)) as [d|] eqn:Hd.
    { destruct (peer_read s b f d buf off (stored_object σ' b f)) as (whole & -> & Hr); [done..|by eapply (si_diffs σ' Hsi')|done|done|done|].
      by rewrite Hr. }
    apply Hbase.
    { destruct (decide (b ∈ stored σ')); [done|]. destruct (si_origin σ' Hsi' b origin p' f) as [d Hd']; [done..|].
      unfold s in Hd. congruence. }
    right. unfold ReadAtBuildSeekable, ResolveSeekable. rewrite !(proj2 (Z.ltb_ge _ _)) by lia. cbn [orb]. rewrite bool_decide_false by done.
    rewrite Hd. by destruct (bool_decide (f = MemfileName) || bool_decide (f = RootfsName)).
  - unfold read_object. cbn [o_peer o_build o_file snd]. apply stored_read; [|done..]. apply Hst.
    assert (b ∉ stored σ → registry σ !! b = Some origin) as Hreg.
    { intros Hns. destruct p; [done|by eapply (si_registered σ Hsi)|exfalso; apply Hns; by eapply (si_stored σ Hsi)..]. }
    destruct (decide (b ∈ stored σ)) as [|Hns]; [done|]. exfalso. specialize (Hreg Hns). unfold registry_Lookup in Ha.
    destruct a; simplify_eq/=; first [by apply Hns, Hflag|congruence].
Qed.
End system.

Section witnesses.
#[local] Existing Instances BoolBits.ops BoolBits.laws Bytes16.ops Bytes16.eq_dec Bytes16.laws.
Definition ex_local : localDiff := mkLocalDiff "b" peer_cache.
Definition ex_content (b f : string) : list byte := peer_bytes.
Definition ex_storage (up : bool) (b f : string) : seekable () :=
  mkSeekable
    (λ buf off, if up && (off + zlength buf <=? 8) then ((splice buf 0 (slice peer_bytes off (off + zlength buf)), zlength buf), None) else ((buf, 0), Some ()))
    (if up then (8, None) else (0, Some ()))
    (λ _ _, (None, Some ())).
Lemma ex_storage_serves up b f : base_serves (ex_storage up b f) (ex_content b f).
Proof.
  intros buf off Hoff. cbn. pose proof (zlength_ge0 buf).
  destruct (_ && _); [split; [lia|done]|]. split; [lia|]. split; [by rewrite Z.add_0_r, slice_empty, splice_nil|done].
Qed.
Lemma ex_storage_full b f buf off : 0 ≤ off → off + zlength buf ≤ zlength (ex_content b f) →
  base_ReadAt (ex_storage true b f) buf off = (splice buf 0 (slice (ex_content b f) off (off + zlength buf)), zlength buf, None).
Proof. intros _ Hl. change (zlength (ex_content b f)) with 8 in Hl. unfold ex_storage, base_ReadAt, andb. by rewrite (proj2 (Z.leb_le _ _) Hl). Qed.
Definition ex_files (b : string) : gset string := {[MemfileName]}.
Abbreviation ex_system := (system (ID := Bytes16.t) (B := list bool) (D := localDiff) (M := list byte)).
Definition ex_empty : ex_system := empty_system.
Definition ex_run (ls : list peer_label) : ex_system := default ex_empty (peer_run ex_storage ex_empty ls).
(** A snapshot on A, opened on B while it is being uploaded. *)
Definition ex_steps : list peer_label :=
  [LSnapshot "A" "b" [(MemfileName, ex_local)]; LRegister "b" true; LResolve "B" "b" MemfileName true true].
Definition ex_object : open_object := mkOpen "B" "b" MemfileName (Some ("A", O)).
Lemma ex_diff_serves : diff_serves ex_local peer_bytes.
Proof. by apply localDiff_serves. Qed.
Lemma ex_diff_whole : diff_whole ex_local peer_bytes.
Proof.
  split; [done|]. split; intros off len Hoff Hlen Hin; change (zlength peer_bytes) with 8 in *;
    change (dev_Slice ex_local off len) with (lift_cache (Slice peer_cache off len)); unfold Slice; cbn -[go_slice i64 slice Z.min].
  - rewrite i64_small, Z.min_l by lia. by rewrite go_slice_ok by (change (zlength peer_bytes) with 8; lia).
  - unfold maxI64 in Hin. rewrite i64_small by lia. by rewrite go_slice_ok by (change (zlength peer_bytes) with 8; lia).
Qed.

Lemma P2P_reads_content_witness :
  ok_run ex_content ex_storage ex_empty (ex_run ex_steps) ∧ opened (ex_run ex_steps) !! 0%nat = Some ex_object ∧
  reads_content peer_bytes (replicate 6 x0a) 1 (read_object ex_storage (ex_run ex_steps) ex_object (replicate 6 x0a) 1 (λ _, None)).2.
Proof.
  assert (ok_run ex_content ex_storage ex_empty (ex_run ex_steps)) as Hrun.
  { eapply ok_step with (l := (LSnapshot "A" "b" [(MemfileName, ex_local)])); [|reflexivity|].
    { intros f d [= -> ->]%list_elem_of_singleton. apply ex_diff_serves. }
    eapply ok_step with (l := (LRegister "b" true)); [done|reflexivity|].
    eapply ok_step with (l := (LResolve "B" "b" MemfileName true true)); [done|reflexivity|]. apply ok_refl. }
  split; [done|]. split; [by vm_compute|].
  apply (P2P_reads_content ex_content ex_storage ex_storage_serves (ex_run ex_steps) 0 ex_object (replicate 6 x0a) 1 (λ _, None)); [done|by vm_compute|done|done|by left].
Defined.
Lemma P2P_build_available_witness :
  let σ := ex_run (take 2 ex_steps) in
  let σ' := ex_run (ex_steps ++ [LUpload "b" true; LMark "b"; LUnregister "b" true]) in
  good_run ex_content ex_storage ex_files ex_empty σ ∧
  good_run ex_content ex_storage ex_files (open_seekable σ "B" "b" MemfileName (Some (registry_Lookup (registry σ) "b")) true) σ' ∧
  ∃ o, opened σ' !! length (opened σ) = Some o ∧ o_build o = "b" ∧ o_file o = MemfileName ∧
    (read_object ex_storage σ' o (replicate 6 x0a) 1 id).2 = full_read (replicate 6 x0a) 1 peer_bytes.
Proof.
  intros σ σ'. assert (good_run ex_content ex_storage ex_files ex_empty σ) as Hrun.
  { eapply good_step with (l := (LSnapshot "A" "b" [(MemfileName, ex_local)])); [|reflexivity|].
    { split; [intros f Hf; unfold ex_files in Hf; apply elem_of_singleton in Hf as ->; by left|]. intros f d [= -> ->]%list_elem_of_singleton. split; [apply ex_diff_serves|apply ex_diff_whole]. }
    eapply good_step with (l := (LRegister "b" true)); [done|reflexivity|]. apply good_refl. }
  assert (good_run ex_content ex_storage ex_files (open_seekable σ "B" "b" MemfileName (Some (registry_Lookup (registry σ) "b")) true) σ') as Hrun'.
  { eapply good_step with (l := (LUpload "b" true)); [done|reflexivity|].
    eapply good_step with (l := (LMark "b")); [done|reflexivity|].
    eapply good_step with (l := (LUnregister "b" true)); [done|reflexivity|]. apply good_refl. }
  split; [done|]. split; [done|].
  apply (P2P_build_available ex_content ex_storage ex_files ex_storage_serves ex_storage_full σ σ' "b" "A" Uploading "B" MemfileName (replicate 6 x0a) 1 Hrun);
    [by vm_compute|done|done|by vm_compute|by left|exact Hrun'|done|done|done].
Defined.
(** An upload that fails hides its build: [completeUpload] runs all the same, and from
    then on the origin, which still has the build, sends its readers to a storage
    that never got it. *)
Lemma P2P_failed_upload_hides :
  let σ := ex_run (ex_steps ++ [LUpload "b" false]) in
  let σ' := ex_run (ex_steps ++ [LUpload "b" false; LMark "b"]) in
  (read_object ex_storage σ ex_object (replicate 6 x0a) 1 id).2 = full_read (replicate 6 x0a) 1 peer_bytes ∧
  diffs (n_server (nodes σ' "A")) !! ("b", MemfileName) = Some ex_local ∧
  (read_object ex_storage σ' ex_object (replicate 6 x0a) 1 id).2 = (replicate 6 x0a, 0, Some (FromBase ())).
Proof. by vm_compute. Qed.
(** A reader that asks for a range past the end of a file that is not yet stored makes
    the handler panic: the origin ends, with the snapshot, and a range inside the file
    can no longer be read. *)
Lemma P2P_read_past_end :
  let σ := ex_run ex_steps in
  let σ' := ex_run (ex_steps ++ [LRead 0 (replicate 4 x00) 9 id]) in
  (read_object ex_storage σ ex_object (replicate 6 x0a) 1 id).2 = full_read (replicate 6 x0a) 1 peer_bytes ∧
  alive σ' "A" = false ∧ peer_step ex_storage σ' (LUpload "b" true) = None ∧
  (read_object ex_storage σ' ex_object (replicate 6 x0a) 1 id).2 = (replicate 6 x0a, 0, Some (FromBase ())).
Proof. by vm_compute. Qed.
End witnesses.
