(* ===== verification/Multipart.v ===== *)
(** * Uploads in parts

    packages/shared/pkg/storage/gcp_multipart.go: a file is cut into parts of 50 MiB
    that goroutines of an errgroup upload side by side, and the storage joins the parts
    that the last request lists.  The storage's multipart interface is a class with the
    laws its documentation states; requests and answers may be lost, refused, garbled
    or repeated. *)
From Stdlib Require Import Init.Byte.
From S2P Require Import Prelude Float64 Uuid.

Definition gcpMultipartUploadChunkSize : Z := 50 * 1024 * 1024.
Record Part := mkPart { PartNumber : Z; ETag : string }.

(** ** The storage *)

(** [uploaded s u] are the parts that an upload has, with the ETag the storage gave them. *)
Class MultipartAPI (S : Type) := {
  uploaded : S → string → gmap Z (list byte * string);
  object : S → option (list byte);
  initiate : S → S * string;
  put_part : S → string → Z → list byte → S * string;
  complete : S → string → list Part → option S;
}.
(** Parts are listed by number, each with the ETag of what was stored last under it. *)
Definition parts_match {S} `{MultipartAPI S} (s : S) (u : string) (ps : list Part) (ds : list (list byte)) : Prop :=
  Forall2 (λ p d, uploaded s u !! PartNumber p = Some (d, ETag p)) ps ds.
Definition by_number (ps : list Part) : Prop := StronglySorted Z.lt (PartNumber <$> ps).
Class MultipartLaws (S : Type) `{MultipartAPI S} := {
  initiate_empty s : uploaded (initiate s).1 (initiate s).2 = ∅;
  initiate_object s : object (initiate s).1 = object s;
  put_uploaded s u n d : uploaded (put_part s u n d).1 u = <[n := (d, (put_part s u n d).2)]> (uploaded s u);
  put_etag s u n d : (put_part s u n d).2 ≠ ""%string;
  put_object s u n d : object (put_part s u n d).1 = object s;
  complete_joins s u ps s' : complete s u ps = Some s' → ∃ ds, parts_match s u ps ds ∧ object s' = Some (concat ds);
  complete_accepts s u ps ds : by_number ps → ps ≠ [] → parts_match s u ps ds → is_Some (complete s u ps);
}.

(** What becomes of an answer: the client gets the status and the field it looks for
    (the upload's ID or the ETag), or an error of the HTTP client. *)
Inductive fault := Intact | Mangled | Lost | BadStatus (code : Z).
Abbreviation response := (Z * option string)%type.
Definition reply (f : fault) (truth : option response) : option response :=
  match f with
  | Intact => truth
  | Mangled => (λ r, (r.1, None)) <$> truth
  | Lost => None
  | BadStatus c => if c =? 200 then None else Some (c, None)
  end.

(** ** The functions of [MultipartUploader] *)
Inductive upload_error := InitiateFailed | PartFailed (n : Z) | PartCancelled (n : Z) | ReadFailed (n : Z) | CompleteFailed.
(** What each makes of its answer. *)
Definition initiateUpload (resp : option response) : option string :=
  match resp with Some (200, uploadID) => uploadID | _ => None end.
Definition uploadPart (resp : option response) : option string :=
  match resp with Some (200, etag) => if bool_decide (default ""%string etag = ""%string) then None else etag | _ => None end.
Definition completed (resp : option response) : bool := match resp with Some (200, _) => true | _ => false end.

(** [sort.Slice] by part number; the numbers are distinct. *)
Fixpoint insert_part (p : Part) (ps : list Part) : list Part :=
  match ps with
  | [] => [p]
  | q :: qs => if PartNumber p <? PartNumber q then p :: ps else q :: insert_part p qs
  end.
Definition sort_parts (ps : list Part) : list Part := foldr insert_part [] ps.

Definition numParts (fileSize : Z) : option Z :=
  (λ n, if n =? 0 then 1 else n) <$> f64_Ceil_int (f64_div (f64_of_Z fileSize) (f64_of_Z gcpMultipartUploadChunkSize)).
Definition part_offset (n : Z) : Z := i64 (i64 (n - 1) * gcpMultipartUploadChunkSize).
Definition part_size (fileSize n : Z) : Z :=
  if fileSize <? i64 (part_offset n + gcpMultipartUploadChunkSize) then i64 (fileSize - part_offset n) else gcpMultipartUploadChunkSize.
(** [make] and [file.ReadAt]. *)
Definition read_part (file : list byte) (n : Z) : res upload_error (list byte) :=
  let off := part_offset n in
  let size := part_size (zlength file) n in
  if size <? 0 then Panic
  else if (off <? 0) || (zlength file <? off + size) then Err (ReadFailed n) else Ok (slice file off (off + size)).

(** ** UploadFileInParallel and uploadParts as steps

    [gos] has the goroutine of each part that [g.Go] has started: part [i + 1] at [i]. *)
Inductive part_pc := PcCheck | PcRead | PcSend (data : list byte) | PcStore (etag : string) | PcReturned.
#[export] Instance part_pc_eq_dec : EqDecision part_pc.
Proof. solve_decision. Defined.
Inductive main_pc :=
  | MInitiate
  | MGroup (uploadID : string)                       (** in the loop of [uploadParts] or in [g.Wait] *)
  | MComplete (uploadID : string)
  | MReturned (r : res upload_error Z).

Section upload.
Context {S : Type} `{MultipartAPI S}.
Context (file : list byte) (maxConcurrency : Z).

Record uploader := mkUploader {
  main : main_pc;
  gos : list part_pc;
  parts : list Part;
  cancelled : bool;                                  (** the group's context *)
  first_error : option upload_error;
  server : S;
}.
Definition set_main (x : uploader) (m : main_pc) (s : S) : uploader := mkUploader m (gos x) (parts x) (cancelled x) (first_error x) s.
Definition set_pc (x : uploader) (i : nat) (pc : part_pc) : uploader :=
  mkUploader (main x) (<[i := pc]> (gos x)) (parts x) (cancelled x) (first_error x) (server x).
Definition set_server (x : uploader) (s : S) : uploader := mkUploader (main x) (gos x) (parts x) (cancelled x) (first_error x) s.
(** A function of the group returns an error. *)
Definition go_fails (x : uploader) (i : nat) (e : upload_error) : uploader :=
  mkUploader (main x) (<[i := PcReturned]> (gos x)) (parts x) true (Some (default e (first_error x))) (server x).

Definition is_running (pc : part_pc) : bool := match pc with PcReturned => false | _ => true end.
Definition running (x : uploader) : Z := Z.of_nat (count_if is_running (gos x)).
(** [g.Go] returns when the group's limit leaves room; a negative limit is none. *)
Definition has_room (x : uploader) : bool := (maxConcurrency <? 0) || (running x <? maxConcurrency).

Inductive mp_label :=
  | LInitiate (arrives : bool) (f : fault)
  | LGo
  | LCheck (i : nat)
  | LRead (i : nat) (ok : bool)
  | LPut (i : nat) (arrives : bool) (f : fault)
  | LStore (i : nat)
  | LWait
  | LComplete (arrives : bool) (f : fault)
  | LCancel                                          (** the caller's context ends *)
  | LRepeat (i : nat).                               (** a request of a part that was sent before reaches the storage again *)

Definition mp_start (s : S) : uploader := mkUploader MInitiate [] [] false None s.
Definition empty_part : Part := mkPart 0 "".
Definition mp_step (x : uploader) (l : mp_label) : option uploader :=
  match l with
  | LInitiate arrives f =>
      match main x with
      | MInitiate =>
          n ← numParts (zlength file);
          let '(s, truth) := if arrives then ((initiate (server x)).1, Some (200, Some (initiate (server x)).2)) else (server x, None) in
          Some match initiateUpload (reply f truth) with
               | Some u => mkUploader (MGroup u) [] (replicate (Z.to_nat n) empty_part) (cancelled x) None s
               | None => set_main x (MReturned (Err InitiateFailed)) s
               end
      | _ => None
      end
  | LGo =>
      match main x with
      | MGroup _ =>
          if (Z.of_nat (length (gos x)) <? Z.of_nat (length (parts x))) && has_room x
          then Some (mkUploader (main x) (gos x ++ [PcCheck]) (parts x) (cancelled x) (first_error x) (server x)) else None
      | _ => None
      end
  | LCheck i =>
      match gos x !! i with
      | Some PcCheck => Some (if cancelled x then go_fails x i (PartCancelled (Z.of_nat i + 1)) else set_pc x i PcRead)
      | _ => None
      end
  | LRead i ok =>
      match gos x !! i with
      | Some PcRead =>
          Some (if ok then
                  match read_part file (Z.of_nat i + 1) with
                  | Ok chunk => set_pc x i (PcSend chunk)
                  | Err e => go_fails x i e
                  | Panic => set_main x (MReturned Panic) (server x)
                  end
                else go_fails x i (ReadFailed (Z.of_nat i + 1)))
      | _ => None
      end
  | LPut i arrives f =>
      match main x, gos x !! i with
      | MGroup u, Some (PcSend data) =>
          let '(s, truth) := if arrives then ((put_part (server x) u (Z.of_nat i + 1) data).1, Some (200, Some (put_part (server x) u (Z.of_nat i + 1) data).2)) else (server x, None) in
          Some match uploadPart (reply f truth) with
               | Some etag => set_pc (set_server x s) i (PcStore etag)
               | None => go_fails (set_server x s) i (PartFailed (Z.of_nat i + 1))
               end
      | _, _ => None
      end
  | LStore i =>
      match gos x !! i with
      | Some (PcStore etag) =>
          Some (mkUploader (main x) (<[i := PcReturned]> (gos x)) (<[i := mkPart (Z.of_nat i + 1) etag]> (parts x)) (cancelled x) (first_error x) (server x))
      | _ => None
      end
  | LWait =>
      match main x with
      | MGroup u =>
          if bool_decide (length (gos x) = length (parts x)) && (running x =? 0)
          then Some (set_main x (match first_error x with Some e => MReturned (Err e) | None => MComplete u end) (server x)) else None
      | _ => None
      end
  | LComplete arrives f =>
      match main x with
      | MComplete u =>
          let '(s, truth) :=
            if arrives then match complete (server x) u (sort_parts (parts x)) with Some s => (s, Some (200, None)) | None => (server x, Some (400, None)) end
            else (server x, None) in
          Some (set_main x (MReturned (if completed (reply f truth) then Ok (zlength file) else Err CompleteFailed)) s)
      | _ => None
      end
  | LCancel => Some (mkUploader (main x) (gos x) (parts x) true (first_error x) (server x))
  | LRepeat i =>
      match main x, gos x !! i, read_part file (Z.of_nat i + 1) with
      | MGroup u, Some _, Ok data | MComplete u, Some _, Ok data => Some (set_server x (put_part (server x) u (Z.of_nat i + 1) data).1)
      | _, _, _ => None
      end
  end.
Definition mp_run (s : S) : list mp_label → option uploader := run_steps mp_step (mp_start s).
End upload.

(** ** The parts of a file *)
Abbreviation C := gcpMultipartUploadChunkSize.
Definition nparts (size : Z) : Z := if size =? 0 then 1 else ceil_div size C.
Lemma C_val : C = 52428800. Proof. done. Qed.
Lemma nparts_bounds size : 0 ≤ size → 1 ≤ nparts size ∧ size ≤ nparts size * C ∧ (0 < size → (nparts size - 1) * C < size) ∧ (size = 0 → nparts size = 1).
Proof.
  intros Hs. unfold nparts. destruct (Z.eqb_spec size 0); [rewrite C_val; lia|].
  pose proof (ceil_div_bounds size C ltac:(rewrite C_val; lia)). rewrite C_val in *. lia.
Qed.
Lemma numParts_spec size : 0 ≤ size < 2 ^ 52 → numParts size = Some (nparts size).
Proof.
  intros Hs. unfold numParts, nparts. rewrite f64_Ceil_div by (rewrite ?C_val; lia). cbn. f_equal.
  pose proof (ceil_div_bounds size C ltac:(rewrite C_val; lia)). rewrite C_val in *.
  destruct (Z.eqb_spec size 0) as [->|]; [done|]. by destruct (Z.eqb_spec (ceil_div size 52428800) 0); [lia|].
Qed.

Section parts.
Context (file : list byte).
Hypothesis file_small : zlength file < 2 ^ 52.
#[local] Abbreviation N := (nparts (zlength file)).
(** What part [i + 1] holds. *)
Definition chunk (i : nat) : list byte := slice file (Z.of_nat i * C) (Z.min ((Z.of_nat i + 1) * C) (zlength file)).
Lemma file_size : 0 ≤ zlength file. Proof. unfold zlength. lia. Qed.
Lemma read_part_chunk i : Z.of_nat i < N → read_part file (Z.of_nat i + 1) = Ok (chunk i) ∧
  zlength (chunk i) = Z.min C (zlength file - Z.of_nat i * C).
Proof.
  intros Hi. pose proof file_size. destruct (nparts_bounds (zlength file)) as (H1 & H2 & H3 & H4); [done|].
  assert (Z.of_nat i * C ≤ zlength file) as Hle by (destruct (decide (zlength file = 0)); rewrite C_val in *; nia).
  assert (part_offset (Z.of_nat i + 1) = Z.of_nat i * C) as Ho.
  { unfold part_offset. rewrite C_val in *. rewrite (i64_small (Z.of_nat i + 1 - 1)), i64_small by lia. lia. }
  assert (part_size (zlength file) (Z.of_nat i + 1) = Z.min C (zlength file - Z.of_nat i * C)) as Hs.
  { unfold part_size. rewrite Ho. rewrite C_val in *. rewrite !i64_small by lia. destruct (Z.ltb_spec (zlength file) (Z.of_nat i * 52428800 + 52428800)); lia. }
  split.
  - unfold read_part. rewrite Hs, Ho. rewrite (proj2 (Z.ltb_ge _ _)) by (rewrite C_val in *; lia).
    rewrite (proj2 (Z.ltb_ge _ 0)) by (rewrite C_val; lia). rewrite (proj2 (Z.ltb_ge _ _)) by lia. cbn [orb].
    unfold chunk. do 2 f_equal. lia.
  - unfold chunk, slice, zlength in *. rewrite length_take, length_drop. rewrite C_val in *. lia.
Qed.
Lemma concat_chunks k : Z.of_nat k ≤ N → concat (chunk <$> seq 0 k) = take (k * Z.to_nat C) file.
Proof.
  induction k as [|k IH]; intros Hk; [done|]. rewrite seq_S, fmap_app, concat_app, IH by lia. cbn [fmap list_fmap concat].
  rewrite app_nil_r. unfold chunk, slice. cbn [Nat.add].
  replace (S k * Z.to_nat C)%nat with (k * Z.to_nat C + Z.to_nat C)%nat by lia. rewrite <-take_take_drop. f_equal.
  replace (Z.to_nat (Z.of_nat k * C)) with (k * Z.to_nat C)%nat by (rewrite C_val; lia).
  destruct (Z.le_gt_cases ((Z.of_nat k + 1) * C) (zlength file)).
  - f_equal. rewrite C_val in *. lia.
  - rewrite !take_ge; [done|rewrite length_drop; unfold zlength in *; rewrite C_val in *; lia..].
Qed.
Lemma chunks_file : concat (chunk <$> seq 0 (Z.to_nat N)) = file.
Proof.
  pose proof file_size. destruct (nparts_bounds (zlength file)) as (H1 & H2 & _); [done|].
  rewrite concat_chunks by lia. apply take_ge. unfold zlength in *. rewrite C_val in *. lia.
Qed.

(** C35: up to 4 PiB, in spite of the division in [float64], the number of parts is the
    number of 50 MiB pieces of the file, one for an empty file; every offset and size is
    computed without overflow, each part can be read, all but the last are full, none
    of a file that is not empty is, and together they are the file. *)
Theorem Multipart_parts_exact : ∃ n ds, numParts (zlength file) = Some n ∧ Z.of_nat (length ds) = n ∧
  (∀ i d, ds !! i = Some d → read_part file (Z.of_nat i + 1) = Ok d ∧ zlength d ≤ C ∧
    (Z.of_nat i + 1 < n → zlength d = C) ∧ (file ≠ [] → 0 < zlength d)) ∧
  concat ds = file.
Proof.
  pose proof file_size as Hs. destruct (nparts_bounds (zlength file)) as (H1 & H2 & H3 & _); [done|].
  exists N, (chunk <$> seq 0 (Z.to_nat N)). split_and!; [by apply numParts_spec|rewrite length_fmap, length_seq; lia| |apply chunks_file].
  intros i d Hd. apply list_lookup_fmap_Some in Hd as (j & -> & [-> Hj]%lookup_seq). cbn.
  destruct (read_part_chunk i) as [-> Hl]; [lia|]. split; [done|]. rewrite Hl. split; [lia|].
  assert (file ≠ [] → 0 < zlength file) as Hne by (destruct file; [done|unfold zlength; cbn; lia]).
  assert (zlength file = 0 → N = 1) by by intros ->.
  rewrite C_val in *. split; [intros; destruct (decide (zlength file = 0)); nia|]. intros Hf. specialize (Hne Hf). nia.
Qed.
End parts.

(** ** Every interleaving *)
Section proofs.
Context {S : Type} `{MultipartLaws S}.
Context (file : list byte) (maxConcurrency : Z).
Hypothesis file_small : zlength file < 2 ^ 52.
#[local] Abbreviation N := (nparts (zlength file)).
#[local] Abbreviation step := (mp_step file maxConcurrency).
Implicit Types (x : uploader (S := S)) (s : S).

(** What an upload has are parts of the file. *)
Definition data_ok (m : gmap Z (list byte * string)) : Prop :=
  ∀ n d e, m !! n = Some (d, e) → ∃ i : nat, n = Z.of_nat i + 1 ∧ Z.of_nat i < N ∧ d = chunk file i.
(** A part that is done is listed under its number. *)
Definition pc_ok (ps : list Part) (err : option upload_error) (i : nat) (pc : part_pc) : Prop :=
  match pc with
  | PcSend d => d = chunk file i
  | PcReturned => err = None → ∃ e, ps !! i = Some (mkPart (Z.of_nat i + 1) e)
  | _ => True
  end.
Definition in_upload x (u : string) : Prop := main x = MGroup u ∨ main x = MComplete u.
Record mp_inv s0 x : Prop := {
  mi_idle i pc : gos x !! i = Some pc → pc ≠ PcReturned → ∃ u, main x = MGroup u;
  mi_start : main x = MInitiate → gos x = [];
  mi_upload u : in_upload x u → Z.of_nat (length (parts x)) = N ∧ (length (gos x) ≤ length (parts x))%nat ∧
    data_ok (uploaded (server x) u) ∧ ∀ i pc, gos x !! i = Some pc → pc_ok (parts x) (first_error x) i pc;
  mi_complete u : main x = MComplete u → length (gos x) = length (parts x) ∧ first_error x = None;
  mi_object : match main x with
    | MReturned (Ok n) => n = zlength file ∧ object (server x) = Some file
    | MReturned (Err CompleteFailed) => True
    | MReturned Panic => False
    | _ => object (server x) = object s0
    end;
}.

Lemma go_part s0 x i pc : mp_inv s0 x → gos x !! i = Some pc → Z.of_nat i < N ∨ ∀ u, ¬ in_upload x u.
Proof.
  intros Hi Hpc. destruct (main x) as [|u|u|r] eqn:Hm; [right; intros ? [?|?]; congruence| | |right; intros ? [?|?]; congruence].
  all: left; destruct (mi_upload s0 x Hi u) as (Hl & Hg & _); [first [by left|by right]|]; apply lookup_lt_Some in Hpc; lia.
Qed.
(** A goroutine moves on: the server and the list of parts stay, or part [i] is listed. *)
Lemma inv_set s0 x i pc pc' (ps : list Part) (c : bool) (err : option upload_error) s' u :
  mp_inv s0 x → gos x !! i = Some pc → main x = MGroup u →
  (ps = parts x ∨ ∃ e, ps = <[i := mkPart (Z.of_nat i + 1) e]> (parts x)) →
  (first_error x ≠ None → err ≠ None) → pc_ok ps err i pc' →
  object s' = object (server x) → data_ok (uploaded s' u) →
  mp_inv s0 (mkUploader (main x) (<[i := pc']> (gos x)) ps c err s').
Proof.
  intros Hi Hpc Hm Hps Herr Hok Hobj Hdata. destruct (mi_upload s0 x Hi u) as (Hl & Hg & _ & Hpcs); [by left|].
  assert (length ps = length (parts x)) as Hlen by (destruct Hps as [->|[e ->]]; [done|by rewrite length_insert]).
  pose proof (mi_object s0 x Hi) as Hob. rewrite Hm in Hob.
  split; cbn [main gos parts first_error server]; [intros; by exists u|by rewrite Hm| |by rewrite Hm|by rewrite Hm, Hobj].
  intros u' [Hu|Hu]; cbn in Hu; rewrite Hm in Hu; [|done]. injection Hu as <-. rewrite Hlen, length_insert. split_and!; [done..|].
  intros j pcj Hj. apply list_lookup_insert_Some in Hj as [(-> & <- & _)|[Hne Hj]]; [done|].
  specialize (Hpcs j pcj Hj). destruct pcj; cbn in *; try done. intros ->. destruct Hpcs as [e He]; [by destruct (first_error x); [destruct Herr|]|].
  exists e. destruct Hps as [->|[e' ->]]; [done|]. by rewrite list_lookup_insert_ne.
Qed.
Lemma put_data_ok s u i (e : string) : data_ok (uploaded s u) → Z.of_nat i < N →
  data_ok (uploaded (put_part s u (Z.of_nat i + 1) (chunk file i)).1 u).
Proof.
  intros Hd Hi n d e'. rewrite put_uploaded. intros [[<- [= <- _]]|[_ Hn]]%lookup_insert_Some; [by exists i|by eapply Hd].
Qed.
Lemma go_fails_inv s0 x i pc e s' u : mp_inv s0 x → gos x !! i = Some pc → main x = MGroup u →
  object s' = object (server x) → data_ok (uploaded s' u) → mp_inv s0 (go_fails (set_server x s') i e).
Proof.
  intros Hi Hpc Hm Hobj Hd. apply (inv_set s0 x i pc PcReturned (parts x) true (Some (default e (first_error x))) s' u Hi Hpc Hm);
    [by left|done|done|done|done].
Qed.
Lemma set_main_inv s0 x m s' : mp_inv s0 x → (∀ i pc, gos x !! i = Some pc → pc = PcReturned) →
  (m = MInitiate → gos x = []) → (∀ u, m = MGroup u → False) →
  (∀ u, m = MComplete u → main x = MGroup u ∧ s' = server x ∧ length (gos x) = length (parts x) ∧ first_error x = None) →
  match m with
  | MReturned (Ok n) => n = zlength file ∧ object s' = Some file
  | MReturned (Err CompleteFailed) => True
  | MReturned Panic => False
  | _ => object s' = object s0
  end → mp_inv s0 (set_main x m s').
Proof.
  intros Hi Hidle Hs Hg Hc Hob. split; cbn [set_main main gos parts first_error server]; [|done| | |done].
  - intros i pc Hpc Hne. by apply Hidle in Hpc.
  - intros u [Hm|Hm]; cbn in Hm; [by destruct (Hg u)|]. destruct (Hc u Hm) as (Hx & -> & _). apply (mi_upload s0 x Hi u). by left.
  - intros u Hm. destruct (Hc u Hm) as (_ & _ & ?). done.
Qed.
Lemma lookup_snoc_Some' {A} (l : list A) y i z : (l ++ [y]) !! i = Some z → l !! i = Some z ∨ i = length l ∧ Some y = Some z.
Proof. intros [?|[Hl Hz]]%lookup_app_Some; [by left|]. apply list_lookup_singleton_Some in Hz as [? ->]. right. split; [lia|done]. Qed.
Lemma all_returned (l : list part_pc) i pc : count_if is_running l = O → l !! i = Some pc → pc = PcReturned.
Proof.
  intros Hc Hi. destruct (is_running pc) eqn:Hr; [pose proof (count_if_pos is_running l i pc Hi Hr); lia|by destruct pc].
Qed.
Lemma insert_part_head p ps : (∀ q, head ps = Some q → PartNumber p < PartNumber q) → insert_part p ps = p :: ps.
Proof. destruct ps as [|q ps]; [done|]. intros Hp. cbn. by rewrite (proj2 (Z.ltb_lt _ _) (Hp q eq_refl)). Qed.
Lemma sort_parts_id ps : by_number ps → sort_parts ps = ps.
Proof.
  unfold by_number. induction ps as [|p ps IH]; [done|]. cbn. intros Hs. apply StronglySorted_inv in Hs as [Hs Hp].
  fold (sort_parts ps). rewrite IH by done. apply insert_part_head. intros q Hq. destruct ps as [|q' ps]; [done|]. injection Hq as ->.
  by apply Forall_cons in Hp as [? _].
Qed.
Lemma numbered_sorted (ps : list Part) : (∀ (i : nat) p, ps !! i = Some p → PartNumber p = Z.of_nat i + 1) → by_number ps.
Proof.
  assert (∀ k, (∀ (i : nat) p, ps !! i = Some p → PartNumber p = Z.of_nat (k + i) + 1) → by_number ps) as Hg;
    [|intros Hp; by apply (Hg 0%nat)].
  unfold by_number. induction ps as [|p ps IH]; intros k Hp; [constructor|]. cbn. constructor.
  - apply (IH (Datatypes.S k)). intros i q Hq. rewrite (Hp (Datatypes.S i) q Hq). lia.
  - apply Forall_fmap, Forall_lookup. intros i q Hq. cbn. rewrite (Hp (Datatypes.S i) q Hq), (Hp 0%nat p eq_refl). lia.
Qed.
(** When every part is listed, the storage can only join the file. *)
Lemma numbered_parts s0 x u : mp_inv s0 x → main x = MComplete u →
  ∀ (i : nat) p, parts x !! i = Some p → PartNumber p = Z.of_nat i + 1.
Proof.
  intros Hi Hm i p Hp. destruct (mi_upload s0 x Hi u) as (Hl & _ & _ & Hpcs); [by right|].
  destruct (mi_complete s0 x Hi u Hm) as [Hlen Hne]. destruct (gos x !! i) as [pc|] eqn:Hpc;
    [|apply lookup_ge_None in Hpc; apply lookup_lt_Some in Hp; lia].
  specialize (Hpcs i pc Hpc). assert (pc = PcReturned) as ->.
  { destruct (decide (pc = PcReturned)) as [|Hn]; [done|]. destruct (mi_idle s0 x Hi i pc Hpc) as [? ?]; [done|congruence]. }
  destruct (Hpcs Hne) as [e He]. by simplify_eq.
Qed.
Lemma joined_file s0 x u ds : mp_inv s0 x → main x = MComplete u → parts_match (server x) u (sort_parts (parts x)) ds → concat ds = file.
Proof.
  intros Hi Hm. pose proof (numbered_parts s0 x u Hi Hm) as Hn. rewrite sort_parts_id by by apply numbered_sorted.
  intros Hp. destruct (mi_upload s0 x Hi u) as (Hl & _ & Hd & _); [by right|].
  rewrite <-(chunks_file file). f_equal. apply list_eq. intros i. rewrite list_lookup_fmap.
  pose proof (Forall2_length _ _ _ Hp) as Hlen. destruct (ds !! i) as [d|] eqn:Hdi.
  - destruct (parts x !! i) as [p|] eqn:Hpi; [|apply lookup_ge_None in Hpi; apply lookup_lt_Some in Hdi; lia].
    pose proof (Forall2_lookup_lr _ _ _ _ _ _ Hp Hpi Hdi) as He. cbn in He. destruct (Hd _ _ _ He) as (j & Hj & Hjn & ->).
    rewrite (Hn i p Hpi) in Hj. assert (i = j) as -> by lia. rewrite lookup_seq_lt by lia. done.
  - apply lookup_ge_None in Hdi. rewrite (proj2 (lookup_ge_None (seq _ _) i)); [done|]. rewrite length_seq. lia.
Qed.
Lemma reply_ok f truth : initiateUpload (reply f truth) ≠ None → reply f truth = truth.
Proof.
  intros Hn. destruct f as [| | |c]; [done|exfalso; apply Hn..]; unfold initiateUpload, reply;
    [destruct truth as [[c ?]|]; cbn| |destruct (c =? 200)]; repeat case_match; congruence.
Qed.
Lemma completed_ok f truth : completed (reply f truth) = true → ∃ v, truth = Some (200, v).
Proof.
  destruct f as [| | |c]; cbn [reply].
  - destruct truth as [[c' v]|]; [|done]. cbn. repeat case_match; try done. by eexists.
  - destruct truth as [[c' v]|]; [|done]. cbn. repeat case_match; try done. by eexists.
  - done.
  - destruct (Z.eqb_spec c 200); [done|]. cbn. repeat case_match; done.
Qed.

Lemma go_main s0 x i pc : mp_inv s0 x → gos x !! i = Some pc → pc ≠ PcReturned → ∃ u, main x = MGroup u ∧
  Z.of_nat i < N ∧ data_ok (uploaded (server x) u) ∧ pc_ok (parts x) (first_error x) i pc ∧ (i < length (parts x))%nat.
Proof.
  intros Hi Hpc Hne. destruct (mi_idle s0 x Hi i pc Hpc Hne) as [u Hm]. exists u. split; [done|].
  destruct (mi_upload s0 x Hi u) as (Hl & Hg & Hd & Hp); [by left|]. pose proof (lookup_lt_Some _ _ _ Hpc). split_and!; [lia|done|by apply Hp|lia].
Qed.
Lemma mp_step_inv s0 x l x' : mp_inv s0 x → step x l = Some x' → mp_inv s0 x'.
Proof.
  intros Hi Hs. destruct l as [arr f| |i|i ok|i arr f|i| |arr f| |i]; cbn [mp_step] in Hs.
  - (* LInitiate *) destruct (main x) eqn:Hm; try done. rewrite numParts_spec in Hs by (split; [apply file_size|done]). cbn in Hs.
    pose proof (mi_object s0 x Hi) as Hob. rewrite Hm in Hob. pose proof (mi_start s0 x Hi Hm) as Hg0.
    set (st := if arr then _ else _) in Hs. assert (object st.1 = object s0) as Hob' by (unfold st; destruct arr; cbn; by rewrite ?initiate_object).
    destruct st as [s truth] eqn:Hst. destruct (initiateUpload (reply f truth)) as [u|] eqn:Hu; injection Hs as <-.
    + assert (uploaded s u = ∅) as Hup.
      { assert (reply f truth = truth) as Hr by (apply reply_ok; by rewrite Hu). rewrite Hr in Hu.
        unfold st in Hst. destruct arr; injection Hst as <- <-; [|done]. cbn in Hu. injection Hu as <-. apply initiate_empty. }
      split; cbn; [done|done| |done|done]. intros u' [Hu'|Hu']; cbn in Hu'; [|done]. injection Hu' as <-.
      rewrite length_replicate. destruct (nparts_bounds (zlength file) (file_size file)). split_and!; [lia|lia| |done].
      intros n d e. by rewrite Hup, lookup_empty.
    + apply set_main_inv; try done. by rewrite Hg0.
  - (* LGo *) destruct (main x) as [|u|u|r] eqn:Hm; try done. destruct (_ && _) eqn:Hc; [|done]. injection Hs as <-.
    apply andb_true_iff in Hc as [Hlt%Z.ltb_lt _]. destruct (mi_upload s0 x Hi u) as (Hl & Hg & Hd & Hp); [by left|].
    pose proof (mi_object s0 x Hi) as Hob. rewrite Hm in Hob.
    split; cbn; [by intros; exists u|done| |done|done]. intros u' [Hu|Hu]; cbn in Hu; [|done]. injection Hu as <-. rewrite length_app; cbn.
    split_and!; [done|lia|done|]. intros i pc [Hpc|[-> [= <-]]]%lookup_snoc_Some'; [by apply Hp|done].
  - (* LCheck *) destruct (gos x !! i) as [[]|] eqn:Hpc; try done. injection Hs as <-.
    destruct (go_main s0 x i _ Hi Hpc) as (u & Hm & Hn & Hd & _); [done|]. destruct (cancelled x).
    + by apply (go_fails_inv s0 x i PcCheck _ (server x) u).
    + unfold set_pc. eapply inv_set; eauto. done.
  - (* LRead *) destruct (gos x !! i) as [[]|] eqn:Hpc; try done. injection Hs as <-.
    destruct (go_main s0 x i _ Hi Hpc) as (u & Hm & Hn & Hd & _); [done|]. destruct ok.
    + destruct (read_part_chunk file file_small i Hn) as [-> _]. unfold set_pc. eapply inv_set; eauto. done.
    + by apply (go_fails_inv s0 x i PcRead _ (server x) u).
  - (* LPut *) destruct (main x) as [|u|u|r] eqn:Hm; try done. destruct (gos x !! i) as [[| |d| |]|] eqn:Hpc; try done.
    destruct (go_main s0 x i _ Hi Hpc) as (u' & Hm' & Hn & Hd & Hok & _); [done|]. rewrite Hm in Hm'. injection Hm' as <-. cbn in Hok. subst d.
    set (st := if arr then _ else _) in Hs.
    assert (object st.1 = object (server x) ∧ data_ok (uploaded st.1 u)) as [Hob Hd'].
    { unfold st. destruct arr; [|done]. cbn. split; [apply put_object|by apply put_data_ok]. }
    destruct st as [s truth]. destruct (uploadPart _) as [e|]; injection Hs as <-.
    + unfold set_pc, set_server; cbn. eapply inv_set; eauto. done.
    + by apply (go_fails_inv s0 x i _ _ s u Hi Hpc).
  - (* LStore *) destruct (gos x !! i) as [[| | |e|]|] eqn:Hpc; try done. injection Hs as <-.
    destruct (go_main s0 x i _ Hi Hpc) as (u & Hm & Hn & Hd & _ & Hlt); [done|]. eapply inv_set; eauto.
    intros _. exists e. by apply list_lookup_insert_eq.
  - (* LWait *) destruct (main x) as [|u|u|r] eqn:Hm; try done. destruct (_ && _) eqn:Hc; [|done]. injection Hs as <-.
    apply andb_true_iff in Hc as [Hlen%bool_decide_eq_true Hrun%Z.eqb_eq]. unfold running in Hrun.
    pose proof (mi_object s0 x Hi) as Hob. rewrite Hm in Hob.
    assert (∀ i pc, gos x !! i = Some pc → pc = PcReturned) as Hret by (intros i pc; apply all_returned; lia).
    apply set_main_inv; [done|done|by destruct (first_error x)|by destruct (first_error x)| |].
    + intros u'. destruct (first_error x) eqn:He; [done|]. intros [= <-]. done.
    + destruct (first_error x) as [[]|]; done.
  - (* LComplete *) destruct (main x) as [|u|u|r] eqn:Hm; try done.
    assert (∀ i pc, gos x !! i = Some pc → pc = PcReturned) as Hret.
    { intros i pc Hpc. destruct (decide (pc = PcReturned)) as [|Hne]; [done|]. destruct (mi_idle s0 x Hi i pc Hpc Hne). congruence. }
    set (st := if arr then _ else _) in Hs. destruct st as [s truth] eqn:Hst. injection Hs as <-.
    apply set_main_inv; [done..| |]; [by destruct (completed _)|]. destruct (completed (reply f truth)) eqn:Hc; [|done]. split; [done|].
    destruct (completed_ok _ _ Hc) as [v Hv]. unfold st in Hst. destruct arr; [|congruence].
    destruct (complete (server x) u (sort_parts (parts x))) as [s'|] eqn:Hcp; [|congruence]. injection Hst as <- _.
    destruct (complete_joins _ _ _ _ Hcp) as (ds & Hds & ->). f_equal. by eapply joined_file.
  - (* LCancel *) injection Hs as <-. destruct Hi as [H1 H2 H3 H4 H5]. by split.
  - (* LRepeat *) destruct (main x) as [|u|u|r] eqn:Hm; try done; destruct (gos x !! i) as [pc|] eqn:Hpc; try done.
    all: destruct (go_part s0 x i pc Hi Hpc) as [Hn|Hno]; [|by destruct (Hno u); first [by left|by right]].
    all: destruct (read_part_chunk file file_small i Hn) as [Hr _]; rewrite Hr in Hs; injection Hs as <-.
    all: destruct (mi_upload s0 x Hi u) as (Hl & Hg & Hd & Hp); [first [by left|by right]|].
    all: pose proof (mi_object s0 x Hi) as Hob; rewrite Hm in Hob.
    all: split; cbn; [apply Hi|apply Hi| |apply Hi|rewrite Hm; by rewrite put_object].
    all: intros u' [Hu|Hu]; cbn in Hu; rewrite Hm in Hu; try done; injection Hu as <-; split_and!; [done|done|by apply put_data_ok|done].
Qed.
Lemma mp_start_inv s : mp_inv s (mp_start s).
Proof. split; cbn; [done|done| |done|done]. intros u [?|?]; done. Qed.
Lemma mp_run_inv s ls x : mp_run file maxConcurrency s ls = Some x → mp_inv s x.
Proof.
  intros Hr. eapply (run_steps_inv _ (mp_inv s) (λ _, True)); [intros ??? _; apply mp_step_inv|apply mp_start_inv| |exact Hr]. by apply Forall_true.
Qed.

(** C31: an upload that reports success has stored the file.  However the goroutines of
    the parts interleave, whatever requests or answers are lost, refused, garbled or
    repeated, whenever the context ends: [UploadFileInParallel] never panics, when it
    returns without an error it returns the size and the object is the file, and when it
    fails before the last request the object is what it was before. *)
Theorem Upload_stores_file s ls x : mp_run file maxConcurrency s ls = Some x →
  match main x with
  | MReturned (Ok n) => n = zlength file ∧ object (server x) = Some file
  | MReturned Panic => False
  | MReturned (Err e) => e ≠ CompleteFailed → object (server x) = object s
  | _ => object (server x) = object s
  end.
Proof. intros Hi%mp_run_inv%mi_object. destruct (main x) as [| | |[n|[]|]]; done. Qed.

(** ** It ends *)
Definition client (l : mp_label) : bool := match l with LCancel | LRepeat _ => false | _ => true end.
(** Steps in which nothing fails. *)
Definition fair (l : mp_label) : Prop :=
  match l with
  | LInitiate arr f | LPut _ arr f | LComplete arr f => arr = true ∧ f = Intact
  | LRead _ ok => ok = true
  | LGo | LCheck _ | LStore _ | LWait => True
  | LCancel | LRepeat _ => False
  end.
Definition go_weight (pc : part_pc) : nat :=
  match pc with PcCheck => 4 | PcRead => 3 | PcSend _ => 2 | PcStore _ => 1 | PcReturned => 0 end.
Definition go_weights (l : list part_pc) : nat := sum_list_with go_weight l.
Definition mp_weight x : nat :=
  match main x with
  | MInitiate => 3 + 5 * Z.to_nat N
  | MGroup _ => 2 + 5 * (length (parts x) - length (gos x)) + go_weights (gos x)
  | MComplete _ => 1
  | MReturned _ => 0
  end.
Lemma go_weights_insert l i pc pc' : l !! i = Some pc → (go_weights (<[i := pc']> l) + go_weight pc = go_weights l + go_weight pc')%nat.
Proof.
  unfold go_weights. revert i. induction l as [|y l IH]; intros [|i] Hi; simplify_eq/=; [lia|]. specialize (IH i Hi). lia.
Qed.
Lemma go_step_weight s0 x i pc pc' ps c err s' : mp_inv s0 x → gos x !! i = Some pc → (go_weight pc' < go_weight pc)%nat →
  length ps = length (parts x) →
  (mp_weight (mkUploader (main x) (<[i := pc']> (gos x)) ps c err s') + 1 ≤ mp_weight x)%nat.
Proof.
  intros Hi Hpc Hlt Hlen. destruct (go_main s0 x i pc Hi Hpc) as (u & Hm & _); [by intros ->; cbn in Hlt; lia|].
  unfold mp_weight; cbn [main parts gos]. rewrite Hm, Hlen, length_insert. pose proof (go_weights_insert _ i pc pc' Hpc). lia.
Qed.
Lemma go_weights_snoc l pc : go_weights (l ++ [pc]) = (go_weights l + go_weight pc)%nat.
Proof. unfold go_weights. rewrite sum_list_with_app. cbn. lia. Qed.
Lemma mp_step_weight s0 x l x' : mp_inv s0 x → step x l = Some x' →
  (mp_weight x' + (if client l then 1 else 0) ≤ mp_weight x)%nat.
Proof.
  intros Hi Hs. destruct l as [arr f| |i|i ok|i arr f|i| |arr f| |i]; cbn [mp_step client] in *.
  - destruct (main x) eqn:Hm; try done. rewrite numParts_spec in Hs by (split; [apply file_size|done]). cbn in Hs.
    destruct (if arr then _ else _) as [s truth]. destruct (initiateUpload _); injection Hs as <-; unfold mp_weight; cbn; rewrite Hm; [|lia].
    rewrite length_replicate. cbn. lia.
  - destruct (main x) as [|u|u|r] eqn:Hm; try done. destruct (_ && _) eqn:Hc; [|done]. injection Hs as <-.
    apply andb_true_iff in Hc as [Hlt%Z.ltb_lt _]. unfold mp_weight; cbn [main parts gos set_main mp_start set_server]. rewrite Hm, go_weights_snoc, length_app; cbn. lia.
  - destruct (gos x !! i) as [[]|] eqn:Hpc; try done. injection Hs as <-. destruct (cancelled x); (eapply go_step_weight; [done|done|cbn; lia|done]).
  - destruct (gos x !! i) as [[]|] eqn:Hpc; try done. injection Hs as <-. destruct (go_main s0 x i _ Hi Hpc) as (u & Hm & Hn & _); [done|].
    destruct ok; [destruct (read_part_chunk file file_small i Hn) as [-> _]|]; (eapply go_step_weight; [done|done|cbn; lia|done]).
  - destruct (main x) as [|u|u|r] eqn:Hm; try done. destruct (gos x !! i) as [[| |d| |]|] eqn:Hpc; try done.
    destruct (if arr then _ else _) as [s truth]. destruct (uploadPart _); injection Hs as <-; unfold set_pc, set_server, go_fails; cbn;
      (eapply go_step_weight; [done|done|cbn; lia|done]).
  - destruct (gos x !! i) as [[| | |e|]|] eqn:Hpc; try done. injection Hs as <-. eapply go_step_weight; [done|done|cbn; lia|]. by rewrite length_insert.
  - destruct (main x) as [|u|u|r] eqn:Hm; try done. destruct (_ && _); [|done]. injection Hs as <-. unfold mp_weight; cbn [main parts gos set_main mp_start set_server]. rewrite Hm.
    destruct (first_error x); lia.
  - destruct (main x) as [|u|u|r] eqn:Hm; try done. destruct (if arr then _ else _) as [s truth]. injection Hs as <-. unfold mp_weight; cbn [main parts gos set_main mp_start set_server]. rewrite Hm. lia.
  - injection Hs as <-. unfold mp_weight; cbn [main parts gos set_main mp_start set_server]. lia.
  - repeat case_match; simplify_eq; unfold mp_weight; cbn [main parts gos set_server]; case_match; lia.
Qed.
(** As long as the group admits a goroutine, some step can be taken, and one without a
    failure. *)
Lemma mp_progress s0 x : maxConcurrency ≠ 0 → mp_inv s0 x → (∃ r, main x = MReturned r) ∨ ∃ l, fair l ∧ is_Some (step x l).
Proof.
  intros Hmax Hi. destruct (main x) as [|u|u|r] eqn:Hm; [| | |by left; eexists]; right.
  - exists (LInitiate true Intact). split; [done|]. cbn. rewrite Hm, numParts_spec by (split; [apply file_size|done]). by eexists.
  - destruct (decide (count_if is_running (gos x) = O)) as [Hc|Hc].
    + destruct (mi_upload s0 x Hi u) as (Hl & Hg & _); [by left|]. destruct (decide (length (gos x) = length (parts x))) as [Hlen|Hlen].
      * exists LWait. split; [done|]. cbn. rewrite Hm, bool_decide_true by done. unfold running. rewrite Hc. by eexists.
      * exists LGo. split; [done|]. cbn [mp_step]. rewrite Hm, (proj2 (Z.ltb_lt _ _)) by lia. unfold has_room, running. rewrite Hc.
        destruct (Z.ltb_spec maxConcurrency 0); [by eexists|]. change (Z.of_nat 0) with 0. cbn [orb andb]. rewrite (proj2 (Z.ltb_lt 0 maxConcurrency)) by lia. by eexists.
    + unfold count_if in Hc. destruct (filter _ (gos x)) as [|pc l] eqn:Hf; [done|].
      assert (pc ∈ filter (λ pc, is_running pc = true) (gos x)) as [Hr [i Hpc]%list_elem_of_lookup]%list_elem_of_filter by (rewrite Hf; by left).
      destruct pc as [| |d|e|]; [exists (LCheck i)|exists (LRead i true)|exists (LPut i true Intact)|exists (LStore i)|done];
        (split; [done|]); cbn; rewrite ?Hm, Hpc; by eexists.
  - exists (LComplete true Intact). split; [done|]. cbn. rewrite Hm. by destruct (complete _ _ _); eexists.
Qed.

(** ** When nothing fails *)
Definition fair_pc (m : gmap Z (list byte * string)) (ps : list Part) (i : nat) (pc : part_pc) : Prop :=
  match pc with
  | PcStore e => m !! (Z.of_nat i + 1) = Some (chunk file i, e)
  | PcReturned => ∃ e, ps !! i = Some (mkPart (Z.of_nat i + 1) e) ∧ m !! (Z.of_nat i + 1) = Some (chunk file i, e)
  | _ => True
  end.
Record fair_inv s0 x : Prop := {
  fi_inv : mp_inv s0 x;
  fi_clean : cancelled x = false ∧ first_error x = None;
  fi_pcs u : in_upload x u → ∀ i pc, gos x !! i = Some pc → fair_pc (uploaded (server x) u) (parts x) i pc;
  fi_ok r : main x = MReturned r → r = Ok (zlength file);
}.
Lemma fair_set s0 x i pc pc' (ps : list Part) s' u :
  fair_inv s0 x → gos x !! i = Some pc → main x = MGroup u →
  (∀ j, j ≠ i → ps !! j = parts x !! j) → (∀ j : nat, j ≠ i → uploaded s' u !! (Z.of_nat j + 1) = uploaded (server x) u !! (Z.of_nat j + 1)) →
  fair_pc (uploaded s' u) ps i pc' →
  mp_inv s0 (mkUploader (main x) (<[i := pc']> (gos x)) ps (cancelled x) (first_error x) s') →
  fair_inv s0 (mkUploader (main x) (<[i := pc']> (gos x)) ps (cancelled x) (first_error x) s').
Proof.
  intros Hf Hpc Hm Hps Hup Hok Hi. split; [done|apply Hf| |by cbn; rewrite Hm].
  intros u' [Hu|Hu]; cbn in Hu; rewrite Hm in Hu; [|done]. injection Hu as <-. cbn.
  intros j pcj [(-> & <- & _)|[Hne Hj]]%list_lookup_insert_Some; [done|].
  pose proof (fi_pcs s0 x Hf u (or_introl Hm) j pcj Hj) as Hp. destruct pcj; cbn in *; try done.
  - by rewrite Hup by done.
  - destruct Hp as (e & He & He'). exists e. by rewrite Hps, Hup by done.
Qed.
Lemma fair_complete s0 x u : fair_inv s0 x → main x = MComplete u → is_Some (complete (server x) u (sort_parts (parts x))).
Proof.
  intros [Hi Hc Hp _] Hm. pose proof (numbered_parts s0 x u Hi Hm) as Hn. destruct (mi_upload s0 x Hi u) as (Hl & _ & _ & _); [by right|].
  destruct (mi_complete s0 x Hi u Hm) as [Hlen _]. destruct (nparts_bounds (zlength file) (file_size file)) as [H1 _].
  rewrite sort_parts_id by by apply numbered_sorted. apply (complete_accepts _ _ _ (chunk file <$> seq 0 (length (parts x)))).
  - by apply numbered_sorted.
  - intros Hnil. rewrite Hnil in Hl. cbn in Hl. lia.
  - apply Forall2_same_length_lookup. split; [by rewrite length_fmap, length_seq|]. intros i p d Hpi Hd.
    apply list_lookup_fmap_Some in Hd as (j & -> & [-> Hj]%lookup_seq). cbn.
    destruct (gos x !! i) as [pc|] eqn:Hpc; [|apply lookup_ge_None in Hpc; lia].
    assert (pc = PcReturned) as ->.
    { destruct (decide (pc = PcReturned)) as [|Hne]; [done|]. destruct (mi_idle s0 x Hi i pc Hpc) as [? ?]; [done|congruence]. }
    destruct (Hp u (or_intror Hm) i _ Hpc) as (e & He & He'). by simplify_eq.
Qed.
Lemma fair_step s0 x l x' : fair l → fair_inv s0 x → step x l = Some x' → fair_inv s0 x'.
Proof.
  intros Hl Hf Hs. pose proof (mp_step_inv s0 x l x' (fi_inv s0 x Hf) Hs) as Hi'. pose proof (fi_inv s0 x Hf) as Hi.
  destruct (fi_clean s0 x Hf) as [Hc He].
  destruct l as [arr f| |i|i ok|i arr f|i| |arr f| |i]; cbn [mp_step fair] in *; try done.
  - destruct Hl as [-> ->]. destruct (main x) eqn:Hm; try done. rewrite numParts_spec in Hs by (split; [apply file_size|done]). cbn in Hs.
    injection Hs as <-. by split.
  - destruct (main x) as [|u|u|r] eqn:Hm; try done. destruct (_ && _); [|done]. injection Hs as <-. split; [done|done| |done].
    intros u' [[= <-]|Hu]; [|done]. cbn. intros i pc [Hpc|[-> [= <-]]]%lookup_snoc_Some'; [|done]. by apply (fi_pcs s0 x Hf u (or_introl Hm)).
  - destruct (gos x !! i) as [[]|] eqn:Hpc; try done. injection Hs as <-. destruct (go_main s0 x i _ Hi Hpc) as (u & Hm & _); [done|].
    destruct (cancelled x) eqn:Hcx; [done|]. unfold set_pc in *. by eapply fair_set.
  - subst ok. destruct (gos x !! i) as [[]|] eqn:Hpc; try done. injection Hs as <-. destruct (go_main s0 x i _ Hi Hpc) as (u & Hm & Hn & _); [done|].
    destruct (read_part_chunk file file_small i Hn) as [Hr _]. rewrite Hr in *. by eapply fair_set.
  - destruct Hl as [-> ->]. destruct (main x) as [|u|u|r] eqn:Hm; try done. destruct (gos x !! i) as [[| |d| |]|] eqn:Hpc; try done.
    destruct (go_main s0 x i _ Hi Hpc) as (u' & Hm' & Hn & Hd & Hok & _); [done|]. assert (u' = u) as -> by congruence. cbn in Hok. subst d. cbn [reply uploadPart] in Hs.
    rewrite bool_decide_false in Hs by apply put_etag. injection Hs as <-. unfold set_pc, set_server in *; cbn in *. eapply fair_set; [done..| | |done]; [|by cbn; rewrite put_uploaded, lookup_insert_eq].
    intros j Hj. cbn. rewrite put_uploaded, lookup_insert_ne by lia. done.
  - destruct (gos x !! i) as [[| | |e|]|] eqn:Hpc; try done. injection Hs as <-. destruct (go_main s0 x i _ Hi Hpc) as (u & Hm & Hn & _ & _ & Hlt); [done|].
    eapply fair_set; [done..| |done| |done]; [intros j Hj; by rewrite list_lookup_insert_ne|].
    exists e. rewrite list_lookup_insert_eq by done. split; [done|]. exact (fi_pcs s0 x Hf u (or_introl Hm) i _ Hpc).
  - destruct (main x) as [|u|u|r] eqn:Hm; try done. destruct (_ && _); [|done]. rewrite He in Hs. injection Hs as <-. split; [done|done| |done].
    intros u' [?|[= <-]]; [done|]. cbn. apply (fi_pcs s0 x Hf u (or_introl Hm)).
  - destruct Hl as [-> ->]. destruct (main x) as [|u|u|r] eqn:Hm; try done. destruct (fair_complete s0 x u Hf Hm) as [s' Hs']. rewrite Hs' in Hs. injection Hs as <-.
    split; [done|done| |by intros ? [= <-]]. by intros u' [?|?].
Qed.

(** Every upload ends.  A run takes at most five steps a part and three more, and
    while it has not returned some step can be taken, unless the limit of the group is
    0; and when no request, answer or read fails it returns the size of the file. *)
Theorem Upload_terminates s ls x : mp_run file maxConcurrency s ls = Some x →
  (count_if client ls ≤ 3 + 5 * Z.to_nat N)%nat ∧
  (maxConcurrency ≠ 0 → (∃ r, main x = MReturned r) ∨ ∃ l, fair l ∧ is_Some (step x l)) ∧
  (Forall fair ls → ∀ r, main x = MReturned r → r = Ok (zlength file)).
Proof.
  intros Hr. split_and!.
  - pose proof (run_steps_measure step (mp_inv s) mp_weight client (mp_start s) ls x) as Hmeas.
    etrans; [|apply Hmeas; [|apply mp_start_inv|exact Hr]]; [lia|]. intros x1 l x2 Hi Hs. split; [by eapply mp_step_inv|by eapply mp_step_weight].
  - intros Hmax. eapply mp_progress; [done|by eapply mp_run_inv].
  - intros Hl. eapply fi_ok. eapply (run_steps_inv _ (fair_inv s) fair); [intros ???; apply fair_step| |done|exact Hr].
    split; [apply mp_start_inv|done|by intros u [?|?]|done].
Qed.
(** With a limit of 0 the first [g.Go] blocks for ever. *)
Lemma zero_limit_hangs x u : maxConcurrency = 0 → mp_inv (server x) x → main x = MGroup u → gos x = [] →
  ∀ l, client l = true → step x l = None.
Proof.
  intros -> Hi Hm Hg l. destruct (mi_upload _ x Hi u) as (Hl & _); [by left|]. destruct (nparts_bounds (zlength file) (file_size file)) as [H1 _].
  destruct l as [arr f| |i|i ok|i arr f|i| |arr f| |i]; cbn; try done; rewrite ?Hm, ?Hg; try done.
  - unfold has_room, running. rewrite Hg. by destruct (_ <? _).
  - intros _. rewrite bool_decide_false; [done|]. cbn. lia.
Qed.
End proofs.

(** ** An implementation of the interface *)
Module OneBucket.
Record t := mk { ups : gmap string (gmap Z (list byte * string)); obj : option (list byte) }.
Definition parts_of (s : t) (u : string) : gmap Z (list byte * string) := default ∅ (ups s !! u).
Fixpoint ascending (ps : list Part) : bool :=
  match ps with
  | p :: (q :: _) as qs => (PartNumber p <? PartNumber q) && ascending qs
  | _ => true
  end.
Definition find_part (s : t) (u : string) (p : Part) : option (list byte) :=
  x ← parts_of s u !! PartNumber p; if bool_decide (x.2 = ETag p) then Some x.1 else None.
#[export] Instance ops : MultipartAPI t := {
  uploaded := parts_of;
  object := obj;
  initiate s := (mk (<["upload" := ∅]> (ups s)) (obj s), "upload");
  put_part s u n d := (mk (<[u := <[n := (d, "etag")]> (parts_of s u)]> (ups s)) (obj s), "etag");
  complete s u ps :=
    if ascending ps && negb (bool_decide (ps = [])) then
      ds ← mapM (find_part s u) ps; Some (mk (delete u (ups s)) (Some (concat ds)))
    else None;
}.
Lemma find_part_spec s u p d : find_part s u p = Some d ↔ parts_of s u !! PartNumber p = Some (d, ETag p).
Proof.
  unfold find_part. destruct (parts_of s u !! PartNumber p) as [[d' e]|]; cbn; [|by split].
  destruct (decide (e = ETag p)) as [->|Hne]; [rewrite bool_decide_true by done|rewrite bool_decide_false by done]; split; congruence.
Qed.
Lemma ascending_sorted ps : by_number ps → ascending ps = true.
Proof.
  unfold by_number. induction ps as [|p [|q ps] IH]; [done..|]. cbn [fmap list_fmap]. intros [Hs Hp]%StronglySorted_inv.
  apply Forall_cons in Hp as [Hp _]. cbn [ascending]. rewrite (proj2 (Z.ltb_lt _ _) Hp). by apply IH.
Qed.
#[export] Instance laws : MultipartLaws t.
Proof.
  split; cbn.
  - intros s. unfold parts_of; cbn. by rewrite lookup_insert_eq.
  - done.
  - intros. unfold parts_of; cbn. by rewrite lookup_insert_eq.
  - done.
  - done.
  - intros s u ps s'. destruct (_ && _); [|done]. intros (ds & Hds & [= <-])%bind_Some. exists ds. split; [|done].
    apply mapM_Some in Hds. eapply Forall2_impl; [exact Hds|]. intros p d. apply find_part_spec.
  - intros s u ps ds Hn Hne Hm. rewrite ascending_sorted, bool_decide_false by done. cbn.
    assert (mapM (find_part s u) ps = Some ds) as ->; [|by eexists]. apply mapM_Some. eapply Forall2_impl; [exact Hm|]. intros p d. apply find_part_spec.
Qed.
End OneBucket.

Section witnesses.
#[local] Existing Instances OneBucket.ops OneBucket.laws.
Definition ex_file : list byte := [x01; x02; x03].
Definition ex_bucket : OneBucket.t := OneBucket.mk ∅ None.
Definition ex_upload : list mp_label :=
  [LInitiate true Intact; LGo; LCheck 0; LRead 0 true; LPut 0 true Intact; LStore 0; LWait; LComplete true Intact].
Lemma Multipart_parts_exact_witness : zlength ex_file < 2 ^ 52 ∧ ∃ n ds, numParts (zlength ex_file) = Some n ∧ Z.of_nat (length ds) = n ∧ concat ds = ex_file.
Proof.
  split; [done|]. destruct (Multipart_parts_exact ex_file ltac:(done)) as (n & ds & H1 & H2 & _ & H3). by exists n, ds.
Defined.
Lemma Upload_stores_file_witness : ∃ x, mp_run ex_file 16 ex_bucket ex_upload = Some x ∧ main x = MReturned (Ok 3) ∧ object (server x) = Some ex_file.
Proof.
  destruct (mp_run ex_file 16 ex_bucket ex_upload) as [x|] eqn:Hx; [|by vm_compute in Hx]. exists x. split; [done|].
  pose proof (Upload_stores_file ex_file 16 ltac:(done) ex_bucket ex_upload x Hx) as Hok.
  assert (main x = MReturned (Ok 3)) as Hm by (vm_compute in Hx; by injection Hx as <-). rewrite Hm in Hok. split; [done|apply Hok].
Defined.
Lemma Upload_terminates_witness : ∃ x, mp_run ex_file 16 ex_bucket (take 4 ex_upload) = Some x ∧
  (count_if client (take 4 ex_upload) ≤ 8)%nat ∧ ∃ l, fair l ∧ is_Some (mp_step ex_file 16 x l).
Proof.
  destruct (mp_run ex_file 16 ex_bucket (take 4 ex_upload)) as [x|] eqn:Hx; [|by vm_compute in Hx]. exists x. split; [done|].
  destruct (Upload_terminates ex_file 16 ltac:(done) ex_bucket (take 4 ex_upload) x Hx) as (Hc & [[r Hr]|Hp] & _); [done| |by split].
  exfalso. vm_compute in Hx. injection Hx as <-. done.
Defined.
(** A part whose answer is lost, a repeated request, and the end of an upload: the
    object is not touched. *)
Example failed_upload : (λ x, (main x, object (server x))) <$>
  mp_run ex_file 16 ex_bucket [LInitiate true Intact; LGo; LCheck 0; LRead 0 true; LPut 0 true Lost; LRepeat 0; LWait]
  = Some (MReturned (Err (PartFailed 1)), None).
Proof. by vm_compute. Qed.
End witnesses.
