(* ===== verification/Prefetch.v ===== *)
(** * Prefetching of guest memory

    packages/orchestrator/internal/sandbox/uffd/prefetch/prefetcher.go, with
    [PrefetchEntriesToMapping] of template/metadata/prefetch.go, which makes the mapping
    from what a [PrefetchTracker] saw.  [Start] fills a channel with the offsets; fetch
    workers read their blocks from the source and pass them on to copy workers, which
    call [Prefault] of the page-fault handler ([Uffd]) once it is ready.  A step is one
    receive, send, call or return of one goroutine. *)
From Stdlib Require Import Init.Byte.
From S2P Require Import Prelude Bitset Mapping BlockRange MemMap Uffd.

(** ** The mapping *)
Record MemoryPrefetchMapping := mkPrefetchMapping { Indices : list Z; AccessTypes : list AccessType; PBlockSize : Z }.
(** [slices.SortFunc] by [Order]. *)
Fixpoint insert_entry (e : PrefetchBlockEntry) (es : list PrefetchBlockEntry) : list PrefetchBlockEntry :=
  match es with
  | [] => [e]
  | x :: xs => if Order e <? Order x then e :: es else x :: insert_entry e xs
  end.
Definition sort_entries (es : list PrefetchBlockEntry) : list PrefetchBlockEntry := foldr insert_entry [] es.
Definition PrefetchEntriesToMapping (entries : list PrefetchBlockEntry) (blockSize : Z) : option MemoryPrefetchMapping :=
  match entries with
  | [] => None
  | _ => let es := sort_entries entries in Some (mkPrefetchMapping (Index <$> es) (EAccessType <$> es) blockSize)
  end.

(** ** Prefetcher *)
Inductive pf_fetch_pc := FIdle | FSlice (off : Z) | FSend (off : Z) (data : list byte) | FDone.
Inductive copy_pc := CIdle | CPrefault (off : Z) (data : list byte) | CDone.
Inductive coordinator_pc := CoWait | CoCopying | CoDone.
Inductive start_pc := WaitFetch | WaitCopy | Returned.

(** [fetchCh] is closed from the start; [calls] are the calls of [Prefault] with what
    they returned. *)
Record prefetcher := mkPrefetcher {
  fetchCh : list Z;
  copyCh : list (Z * list byte);
  copyClosed : bool;
  fetchers : list pf_fetch_pc;
  coordinator : coordinator_pc;
  copiers : list copy_pc;
  pf_main : start_pc;
  ctx_done : bool;
  uffd_ready : bool;
  fetchedCount : Z; fetchSkippedCount : Z; copiedCount : Z; copySkippedCount : Z;
  prefault_calls : list (Z * list byte * bool);
  pf_panicked : bool;
}.

(** The offsets that [Start] queues. *)
Definition fetch_offsets (m : MemoryPrefetchMapping) : list Z := (λ idx, BlockOffset (i64 idx) (PBlockSize m)) <$> Indices m.
(** [Start] up to the first wait: it returns at once when there is nothing to do. *)
Definition pf_start (mapping : option MemoryPrefetchMapping) (maxFetchWorkers : Z) : prefetcher :=
  let offsets := default [] (fetch_offsets <$> mapping) in
  match offsets with
  | [] => mkPrefetcher [] [] false [] CoDone [] Returned false false 0 0 0 0 [] false
  | _ => mkPrefetcher offsets [] false (replicate (Z.to_nat maxFetchWorkers) FIdle) CoWait [] WaitFetch false false 0 0 0 0 [] false
  end.

Inductive pf_label :=
  | PTake (w : nat)                 (** a fetch worker receives, or sees the channel closed *)
  | PFetch (w : nat) (ok : bool)    (** [source.Slice] *)
  | PSend (w : nat)
  | PFetchStop (w : nat)            (** a fetch worker takes [ctx.Done] *)
  | PCloseCopy                      (** [fetchWg.Wait] and [close(copyCh)] *)
  | PStartCopy                      (** the coordinator sees [uffd.Ready] *)
  | PCoordinatorStop
  | PCopyTake (w : nat)
  | PPrefault (w : nat) (ok : bool)
  | PCopyStop (w : nat)
  | PCopyDone                       (** [copyWorkerWg.Wait] *)
  | PReturn                         (** [copyWg.Wait] *)
  | PCancel
  | PReady.

Section prefetcher.
(** What the source has at an offset, the capacity of [copyCh] and a feature flag. *)
Context (src : Z → list byte) (totalPages : nat) (maxCopyWorkers : Z).

Definition upd_fetch (p : prefetcher) (fs : list pf_fetch_pc) (ch : list Z) (cp : list (Z * list byte)) : prefetcher :=
  mkPrefetcher ch cp (copyClosed p) fs (coordinator p) (copiers p) (pf_main p) (ctx_done p) (uffd_ready p)
    (fetchedCount p) (fetchSkippedCount p) (copiedCount p) (copySkippedCount p) (prefault_calls p) (pf_panicked p).
Definition upd_fetched (p : prefetcher) (ok : bool) : prefetcher :=
  mkPrefetcher (fetchCh p) (copyCh p) (copyClosed p) (fetchers p) (coordinator p) (copiers p) (pf_main p) (ctx_done p) (uffd_ready p)
    (if ok then fetchedCount p + 1 else fetchedCount p) (if ok then fetchSkippedCount p else fetchSkippedCount p + 1)
    (copiedCount p) (copySkippedCount p) (prefault_calls p) (pf_panicked p).
Definition upd_copy (p : prefetcher) (c : coordinator_pc) (cs : list copy_pc) (cp : list (Z * list byte)) : prefetcher :=
  mkPrefetcher (fetchCh p) cp (copyClosed p) (fetchers p) c cs (pf_main p) (ctx_done p) (uffd_ready p)
    (fetchedCount p) (fetchSkippedCount p) (copiedCount p) (copySkippedCount p) (prefault_calls p) (pf_panicked p).
Definition upd_copied (p : prefetcher) (off : Z) (data : list byte) (ok : bool) : prefetcher :=
  mkPrefetcher (fetchCh p) (copyCh p) (copyClosed p) (fetchers p) (coordinator p) (copiers p) (pf_main p) (ctx_done p) (uffd_ready p)
    (fetchedCount p) (fetchSkippedCount p) (if ok then copiedCount p + 1 else copiedCount p)
    (if ok then copySkippedCount p else copySkippedCount p + 1) (prefault_calls p ++ [(off, data, ok)]) (pf_panicked p).
Definition upd_main (p : prefetcher) (m : start_pc) (closed done ready panicked : bool) : prefetcher :=
  mkPrefetcher (fetchCh p) (copyCh p) closed (fetchers p) (coordinator p) (copiers p) m done ready
    (fetchedCount p) (fetchSkippedCount p) (copiedCount p) (copySkippedCount p) (prefault_calls p) panicked.

Definition fetching (f : pf_fetch_pc) : bool := match f with FDone => false | _ => true end.
Definition copying (c : copy_pc) : bool := match c with CDone => false | _ => true end.

Definition pf_step (p : prefetcher) (l : pf_label) : option prefetcher :=
  match l with
  | PTake w =>
      match fetchers p !! w, fetchCh p with
      | Some FIdle, off :: rest => Some (upd_fetch p (<[w := FSlice off]> (fetchers p)) rest (copyCh p))
      | Some FIdle, [] => Some (upd_fetch p (<[w := FDone]> (fetchers p)) [] (copyCh p))
      | _, _ => None
      end
  | PFetch w ok =>
      match fetchers p !! w with
      | Some (FSlice off) =>
          Some (upd_fetched (upd_fetch p (<[w := if ok then FSend off (src off) else FIdle]> (fetchers p)) (fetchCh p) (copyCh p)) ok)
      | _ => None
      end
  | PSend w =>
      match fetchers p !! w with
      | Some (FSend off data) =>
          if copyClosed p then Some (upd_main p (pf_main p) true (ctx_done p) (uffd_ready p) true)
          else if bool_decide (length (copyCh p) < totalPages)%nat
          then Some (upd_fetch p (<[w := FIdle]> (fetchers p)) (fetchCh p) (copyCh p ++ [(off, data)])) else None
      | _ => None
      end
  | PFetchStop w =>
      match fetchers p !! w with
      | Some FIdle => if ctx_done p then Some (upd_fetch p (<[w := FDone]> (fetchers p)) (fetchCh p) (copyCh p)) else None
      | Some (FSend _ _) => if ctx_done p then Some (upd_fetch p (<[w := FIdle]> (fetchers p)) (fetchCh p) (copyCh p)) else None
      | _ => None
      end
  | PCloseCopy =>
      match pf_main p with
      | WaitFetch =>
          if bool_decide (count_if fetching (fetchers p) = O)
          then Some (upd_main p WaitCopy true (ctx_done p) (uffd_ready p) (pf_panicked p)) else None
      | _ => None
      end
  | PStartCopy =>
      match coordinator p with
      | CoWait => if uffd_ready p then Some (upd_copy p CoCopying (replicate (Z.to_nat maxCopyWorkers) CIdle) (copyCh p)) else None
      | _ => None
      end
  | PCoordinatorStop =>
      match coordinator p with CoWait => if ctx_done p then Some (upd_copy p CoDone (copiers p) (copyCh p)) else None | _ => None end
  | PCopyTake w =>
      match copiers p !! w, copyCh p with
      | Some CIdle, (off, data) :: rest => Some (upd_copy p (coordinator p) (<[w := CPrefault off data]> (copiers p)) rest)
      | Some CIdle, [] => if copyClosed p then Some (upd_copy p (coordinator p) (<[w := CDone]> (copiers p)) []) else None
      | _, _ => None
      end
  | PPrefault w ok =>
      match copiers p !! w with
      | Some (CPrefault off data) => Some (upd_copied (upd_copy p (coordinator p) (<[w := CIdle]> (copiers p)) (copyCh p)) off data ok)
      | _ => None
      end
  | PCopyStop w =>
      match copiers p !! w with
      | Some CIdle => if ctx_done p then Some (upd_copy p (coordinator p) (<[w := CDone]> (copiers p)) (copyCh p)) else None
      | _ => None
      end
  | PCopyDone =>
      match coordinator p with
      | CoCopying => if bool_decide (count_if copying (copiers p) = O) then Some (upd_copy p CoDone (copiers p) (copyCh p)) else None
      | _ => None
      end
  | PReturn =>
      match pf_main p, coordinator p with
      | WaitCopy, CoDone => Some (upd_main p Returned (copyClosed p) (ctx_done p) (uffd_ready p) (pf_panicked p))
      | _, _ => None
      end
  | PCancel => Some (upd_main p (pf_main p) (copyClosed p) true (uffd_ready p) (pf_panicked p))
  | PReady => Some (upd_main p (pf_main p) (copyClosed p) (ctx_done p) true (pf_panicked p))
  end.
End prefetcher.

Ltac pf_cbn := cbn [fetchCh copyCh copyClosed fetchers coordinator copiers pf_main ctx_done uffd_ready fetchedCount fetchSkippedCount copiedCount
  copySkippedCount prefault_calls pf_panicked upd_fetch upd_fetched upd_copy upd_copied upd_main] in *.

(** ** What each goroutine holds *)

Definition every {A} (_ : A) : bool := true.
Lemma count_if_every {A} (l : list A) : count_if every l = length l.
Proof. unfold count_if. by rewrite filter_all. Qed.

Definition f_holds (P : Z → bool) (f : pf_fetch_pc) : bool := match f with FSlice off | FSend off _ => P off | _ => false end.
Definition f_fetched (f : pf_fetch_pc) : bool := match f with FSend _ _ => true | _ => false end.
Definition c_holds (P : Z → bool) (c : copy_pc) : bool := match c with CPrefault off _ => P off | _ => false end.

Section proofs.
Context (src : Z → list byte) (bs : Z) (mapping : option MemoryPrefetchMapping) (maxFetchWorkers maxCopyWorkers : Z).
Definition offsets : list Z := default [] (fetch_offsets <$> mapping).
#[local] Abbreviation step := (pf_step src (length offsets) maxCopyWorkers).
Implicit Types (p : prefetcher).

Definition f_data (f : pf_fetch_pc) : Prop := match f with FSend off data => data = src off | _ => True end.
Definition c_data (c : copy_pc) : Prop := match c with CPrefault off data => data = src off | _ => True end.

(** Every queued offset is in one place; [failed] could not be read, [dropped] were
    read when the context had ended. *)
Definition accounted p (failed dropped : list Z) : Prop :=
  (∀ P, count_if P offsets = count_if P (fetchCh p) + count_if (f_holds P) (fetchers p) + count_if (λ x, P x.1) (copyCh p) +
    count_if (c_holds P) (copiers p) + count_if (λ x, P x.1.1) (prefault_calls p) + count_if P failed + count_if P dropped)%nat ∧
  fetchSkippedCount p = Z.of_nat (length failed) ∧
  fetchedCount p = Z.of_nat (count_if f_fetched (fetchers p) + length (copyCh p) + count_if (c_holds every) (copiers p) +
    length (prefault_calls p) + length dropped) ∧
  copiedCount p + copySkippedCount p = Z.of_nat (length (prefault_calls p)) ∧
  (dropped ≠ [] → ctx_done p = true).
Record pf_inv p : Prop := {
  pf_accounted : ∃ failed dropped, accounted p failed dropped;
  pf_calm : pf_panicked p = false;
  pf_fdata i f : fetchers p !! i = Some f → f_data f;
  pf_qdata off data : (off, data) ∈ copyCh p → data = src off;
  pf_cdata i c : copiers p !! i = Some c → c_data c;
  pf_pdata off data ok : (off, data, ok) ∈ prefault_calls p → data = src off;
  pf_closed : copyClosed p = true → count_if fetching (fetchers p) = O;
  pf_closed_main : pf_main p = WaitCopy → copyClosed p = true;
  pf_fdone i : fetchers p !! i = Some FDone → fetchCh p = [] ∨ ctx_done p = true;
  pf_cdone i : copiers p !! i = Some CDone → (copyCh p = [] ∧ copyClosed p = true) ∨ ctx_done p = true;
  pf_idle : coordinator p ≠ CoCopying → count_if copying (copiers p) = O;
  pf_codone : coordinator p ≠ CoWait → offsets = [] ∨ ctx_done p = true ∨ length (copiers p) = Z.to_nat maxCopyWorkers;
  pf_cowait : coordinator p = CoWait → copiers p = [];
  pf_nfetch : offsets ≠ [] → length (fetchers p) = Z.to_nat maxFetchWorkers;
  pf_returned : pf_main p = Returned → coordinator p = CoDone ∧ (offsets = [] ∨ copyClosed p = true);
}.

Lemma pf_start_inv : pf_inv (pf_start mapping maxFetchWorkers).
Proof.
  unfold pf_start. fold offsets. destruct offsets as [|o os] eqn:Ho.
  - split; cbn; try done; try (by right); try by (intros ???%not_elem_of_nil). 2: by intros ????%not_elem_of_nil. 2: by left. 2: by split; [|left].
    exists [], []. unfold accounted; cbn. by rewrite Ho.
  - split; pf_cbn; try done.
    + exists [], []. unfold accounted; pf_cbn. rewrite Ho.
      assert (∀ P, count_if (f_holds P) (replicate (Z.to_nat maxFetchWorkers) FIdle) = O) as Hz.
      { intros P. unfold count_if. rewrite filter_none; [done|]. by intros x ->%elem_of_replicate_inv. }
      assert (count_if f_fetched (replicate (Z.to_nat maxFetchWorkers) FIdle) = O) as Hz'.
      { unfold count_if. rewrite filter_none; [done|]. by intros x ->%elem_of_replicate_inv. }
      split_and!; [|done|by rewrite Hz'|done|done]. intros P. rewrite Hz. unfold count_if at 3 4 5 6 7. cbn. lia.
    + intros i f [-> _]%lookup_replicate. done.
    + by intros ???%not_elem_of_nil.
    + by intros ????%not_elem_of_nil.
    + by intros i [? _]%lookup_replicate.
    + intros _. by rewrite length_replicate.
Qed.

Lemma elem_insert_copy (cs : list copy_pc) w c' (Pr : nat → copy_pc → Prop) :
  (∀ i c, cs !! i = Some c → Pr i c) → Pr w c' → ∀ i c, <[w := c']> cs !! i = Some c → Pr i c.
Proof. intros Hp Hw i c [(-> & <- & _)|[_ Hi]]%list_lookup_insert_Some; auto. Qed.
Lemma elem_insert_fetch (fs : list pf_fetch_pc) w f' (Pr : nat → pf_fetch_pc → Prop) :
  (∀ i f, fs !! i = Some f → Pr i f) → Pr w f' → ∀ i f, <[w := f']> fs !! i = Some f → Pr i f.
Proof. intros Hp Hw i f [(-> & <- & _)|[_ Hi]]%list_lookup_insert_Some; auto. Qed.
Lemma count_insert_other {A} (f : A → bool) l w x y : l !! w = Some x → f x = f y → count_if f (<[w := y]> l) = count_if f l.
Proof. intros Hw Hf. pose proof (count_if_insert f l w x y Hw) as Hc. rewrite Hf in Hc. lia. Qed.

(** A fetch worker moves on. *)
Lemma fetch_inv p w f f' ch cp ok failed dropped : pf_inv p → fetchers p !! w = Some f → f ≠ FDone →
  let p1 := upd_fetch p (<[w := f']> (fetchers p)) ch cp in
  let p' := match ok with Some b => upd_fetched p1 b | None => p1 end in
  accounted p' failed dropped → f_data f' →
  (∀ off data, (off, data) ∈ cp → data = src off) → (fetchCh p = [] → ch = []) → (f' = FDone → ch = [] ∨ ctx_done p = true) →
  pf_inv p'.
Proof.
  intros Hi Hw Hf p1 p' Hacc Hd Hq Hch Hdone.
  assert (copyClosed p = true → False) as Hopen.
  { intros Hc. pose proof (count_if_zero _ _ _ _ (pf_closed p Hi Hc) Hw) as Hz. by destruct f. }
  assert (copyClosed p = false) as Hcl by by destruct (copyClosed p).
  assert (∀ q, q = p1 ∨ q = upd_fetched p1 true ∨ q = upd_fetched p1 false → (∃ failed dropped, accounted q failed dropped) → pf_inv q) as Hall.
  { intros q Hq' Hacc'. split; [done|..]; destruct Hq' as [->|[->| ->]]; subst p1; pf_cbn; try apply Hi.
    all: try (apply (elem_insert_fetch (fetchers p) w f' (λ _, f_data)); [apply Hi|done]).
    all: try done. all: try (intros; congruence).
    all: try (intros i Hi'; apply list_lookup_insert_Some in Hi' as [(_ & Hf' & _)|[_ Hi']]; [by apply Hdone|];
      destruct (pf_fdone p Hi i Hi') as [He|]; [left; by apply Hch|by right]).
    all: try (intros i Hci; destruct (pf_cdone p Hi i Hci) as [[_ ?]|]; [congruence|by right]).
    all: try (intros ?; rewrite length_insert; by apply Hi). }
  apply Hall; [|by exists failed, dropped]. subst p'. destruct ok as [[]|]; auto.
Qed.
(** A copy worker moves on. *)
Lemma copy_inv p w c c' cp call failed dropped : pf_inv p → copiers p !! w = Some c → c ≠ CDone →
  let p1 := upd_copy p (coordinator p) (<[w := c']> (copiers p)) cp in
  let p' := match call with Some (off, data, ok) => upd_copied p1 off data ok | None => p1 end in
  accounted p' failed dropped → c_data c' →
  (∀ off data, (off, data) ∈ cp → (off, data) ∈ copyCh p) →
  (∀ off data ok, call = Some (off, data, ok) → data = src off) →
  (copyCh p = [] → cp = []) → (c' = CDone → (cp = [] ∧ copyClosed p = true) ∨ ctx_done p = true) →
  pf_inv p'.
Proof.
  intros Hi Hw Hc p1 p' Hacc Hd Hq Hcall Hch Hdone.
  assert (coordinator p = CoCopying) as Hco.
  { destruct (coordinator p) eqn:Hco; [exfalso|done|exfalso].
    - by rewrite (pf_cowait p Hi Hco) in Hw.
    - pose proof (count_if_zero _ _ _ _ (pf_idle p Hi ltac:(by rewrite Hco)) Hw) as Hz. by destruct c. }
  assert (∀ q, q = p1 ∨ (∃ off data ok, call = Some (off, data, ok) ∧ q = upd_copied p1 off data ok) → (∃ failed dropped, accounted q failed dropped) → pf_inv q) as Hall.
  { intros q Hq' Hacc'. split; [done|..]; destruct Hq' as [->|(off & data & ok & Hcl & ->)]; subst p1; pf_cbn; try apply Hi.
    all: try (apply (elem_insert_copy (copiers p) w c' (λ _, c_data)); [apply Hi|done]).
    all: try done. all: try (intros; congruence).
    all: try (intros off' data' Hin; apply (pf_qdata p Hi); by apply Hq).
    all: try (intros off' data' ok' [Hin|Hx%list_elem_of_singleton]%elem_of_app; [by eapply (pf_pdata p Hi)|injection Hx as -> -> ->; by eapply Hcall]).
    all: try (intros i Hci; apply list_lookup_insert_Some in Hci as [(_ & Hc' & _)|[_ Hci]]; [by apply Hdone|];
      destruct (pf_cdone p Hi i Hci) as [[He ?]|]; [left; split; [by apply Hch|done]|by right]).
    all: try (intros ?; rewrite length_insert; by apply Hi). }
  apply Hall; [|by exists failed, dropped]. subst p'. destruct call as [[[off data] ok]|]; [right; by exists off, data, ok|by left].
Qed.
(** The counts after a worker has changed from [f] to [f']. *)
Ltac counts Hw f' := repeat match goal with
  | |- context [count_if ?g (<[?w := f']> ?l)] =>
      let H := fresh in pose proof (count_if_insert g l w _ f' Hw) as H; cbn [f_holds f_fetched c_holds every] in H;
      generalize dependent (count_if g (<[w := f']> l)); intros
  end.
Lemma pf_step_inv p l p' : pf_inv p → step p l = Some p' → pf_inv p'.
Proof.
  intros Hi Hs. destruct (pf_accounted p Hi) as (failed & dropped & HP & Hsk & Hfe & Hco & Hdr).
  destruct l as [w|w ok|w|w| | | |w|w ok|w| | | |]; cbn [pf_step] in Hs.
  - destruct (fetchers p !! w) as [[|off|off data|]|] eqn:Hw; try done. destruct (fetchCh p) as [|off rest] eqn:Hch; injection Hs as <-.
    + apply (fetch_inv p w FIdle FDone [] (copyCh p) None failed dropped); try done; [|apply Hi|by left].
      unfold accounted; pf_cbn. rewrite !(count_insert_other _ _ w FIdle FDone) by done. split_and!; [|done..].
      intros P. rewrite (HP P), (count_insert_other _ _ w FIdle FDone) by done. done.
    + apply (fetch_inv p w FIdle (FSlice off) rest (copyCh p) None failed dropped); try done; [|apply Hi|congruence].
      unfold accounted; pf_cbn. rewrite (count_insert_other _ _ w FIdle (FSlice off)) by done. split_and!; [|done..].
      intros P. rewrite (HP P), count_if_cons. pose proof (count_if_insert (f_holds P) _ w FIdle (FSlice off) Hw) as Hc. cbn [f_holds] in Hc. lia.
  - destruct (fetchers p !! w) as [[|off|off data|]|] eqn:Hw; try done. injection Hs as <-. destruct ok.
    + apply (fetch_inv p w (FSlice off) (FSend off (src off)) (fetchCh p) (copyCh p) (Some true) failed dropped); try done; [|apply Hi].
      unfold accounted; pf_cbn. pose proof (count_if_insert f_fetched _ w (FSlice off) (FSend off (src off)) Hw) as Hc. cbn [f_fetched] in Hc.
      split_and!; [|done|lia|done|done]. intros P. rewrite (HP P), (count_insert_other _ _ w (FSlice off) (FSend off (src off))) by done. done.
    + apply (fetch_inv p w (FSlice off) FIdle (fetchCh p) (copyCh p) (Some false) (off :: failed) dropped); try done; [|apply Hi].
      unfold accounted; pf_cbn. rewrite (count_insert_other f_fetched _ w (FSlice off) FIdle) by done.
      split_and!; [|cbn [length]; lia|done|done|done]. intros P. rewrite (HP P), count_if_cons.
      pose proof (count_if_insert (f_holds P) _ w (FSlice off) FIdle Hw) as Hc. cbn [f_holds] in Hc. lia.
  - destruct (fetchers p !! w) as [[|off|off data|]|] eqn:Hw; try done. destruct (copyClosed p) eqn:Hcl.
    { pose proof (count_if_zero _ _ _ _ (pf_closed p Hi Hcl) Hw). done. }
    destruct (bool_decide _); [|done]. injection Hs as <-.
    apply (fetch_inv p w (FSend off data) FIdle (fetchCh p) (copyCh p ++ [(off, data)]) None failed dropped); try done.
    + unfold accounted; pf_cbn. pose proof (count_if_insert f_fetched _ w (FSend off data) FIdle Hw) as Hc. cbn [f_fetched] in Hc.
      rewrite length_app; cbn [length]. split_and!; [|done|lia|done|done]. intros P. rewrite (HP P), count_if_snoc.
      pose proof (count_if_insert (f_holds P) _ w (FSend off data) FIdle Hw) as Hc'. cbn [f_holds fst] in *. lia.
    + intros off' data' [Hin|Hx%list_elem_of_singleton]%elem_of_app; [by apply Hi|]. injection Hx as -> ->. by apply (pf_fdata p Hi w _ Hw).
  - destruct (fetchers p !! w) as [[|off|off data|]|] eqn:Hw; try done; (destruct (ctx_done p) eqn:Hctx; [|done]); injection Hs as <-.
    + apply (fetch_inv p w FIdle FDone (fetchCh p) (copyCh p) None failed dropped); try done; [|apply Hi|by right].
      unfold accounted; pf_cbn. rewrite !(count_insert_other _ _ w FIdle FDone) by done. rewrite Hctx. split_and!; [|done..].
      intros P. rewrite (HP P), (count_insert_other _ _ w FIdle FDone) by done. done.
    + apply (fetch_inv p w (FSend off data) FIdle (fetchCh p) (copyCh p) None failed (off :: dropped)); try done; [|apply Hi].
      unfold accounted; pf_cbn. pose proof (count_if_insert f_fetched _ w (FSend off data) FIdle Hw) as Hc. cbn [f_fetched] in Hc.
      split_and!; [|done|cbn [length]; lia|done|done]. intros P. rewrite (HP P), count_if_cons.
      pose proof (count_if_insert (f_holds P) _ w (FSend off data) FIdle Hw) as Hc'. cbn [f_holds] in *. lia.
  - destruct (pf_main p) eqn:Hm; try done. destruct (bool_decide _) eqn:Hz; [|done]. apply bool_decide_eq_true in Hz. injection Hs as <-.
    split; pf_cbn; try apply Hi; try done.
    intros i Hci. destruct (pf_cdone p Hi i Hci) as [[? ?]|]; [by left|by right].
  - destruct (coordinator p) eqn:Hc; try done. destruct (uffd_ready p); [|done]. injection Hs as <-. pose proof (pf_cowait p Hi Hc) as Hcs.
    assert (∀ g, g CIdle = false → count_if g (replicate (Z.to_nat maxCopyWorkers) CIdle) = O) as Hz.
    { intros g Hg. unfold count_if. rewrite filter_none; [done|]. intros x ->%elem_of_replicate_inv. by rewrite Hg. }
    split; pf_cbn; try apply Hi; try done.
    + exists failed, dropped. unfold accounted; pf_cbn. rewrite !Hz by done. rewrite Hcs in Hfe, HP. split_and!; [|done|done|done|done].
      intros P. by rewrite (HP P), Hz.
    + by intros i c [-> _]%lookup_replicate.
    + by intros i [? _]%lookup_replicate.
    + intros _. right; right. by rewrite length_replicate.
    + intros Hr. destruct (pf_returned p Hi Hr). congruence.
  - destruct (coordinator p) eqn:Hc; try done. destruct (ctx_done p) eqn:Hctx; [|done]. injection Hs as <-.
    split; pf_cbn; try apply Hi; try done; try (intros _; by rewrite (pf_cowait p Hi Hc)).
    + intros _. right; by left.
    + intros Hr. destruct (pf_returned p Hi Hr). congruence.
  - destruct (copiers p !! w) as [[|off data|]|] eqn:Hw; try done. destruct (copyCh p) as [|[off data] rest] eqn:Hch.
    + destruct (copyClosed p) eqn:Hcl; [|done]. injection Hs as <-.
      apply (copy_inv p w CIdle CDone [] None failed dropped); try done; [|by intros ???%not_elem_of_nil|by left].
      unfold accounted; pf_cbn. rewrite !(count_insert_other _ _ w CIdle CDone) by done. split_and!; [|done..].
      intros P. rewrite (HP P), (count_insert_other _ _ w CIdle CDone) by done. done.
    + injection Hs as <-. apply (copy_inv p w CIdle (CPrefault off data) rest None failed dropped); try done.
      * unfold accounted; pf_cbn. pose proof (count_if_insert (c_holds every) _ w CIdle (CPrefault off data) Hw) as Hc. cbn [c_holds every] in Hc.
        cbn [length] in *. split_and!; [|done|lia|done|done]. intros P. rewrite (HP P), count_if_cons.
        pose proof (count_if_insert (c_holds P) _ w CIdle (CPrefault off data) Hw) as Hc'. cbn [c_holds fst] in *. lia.
      * cbn. apply (pf_qdata p Hi). rewrite Hch. by left.
      * intros off' data' Hin. rewrite Hch. by right.
      * by rewrite Hch.
  - destruct (copiers p !! w) as [[|off data|]|] eqn:Hw; try done. injection Hs as <-. pose proof (pf_cdata p Hi w _ Hw) as Hd. cbn in Hd.
    apply (copy_inv p w (CPrefault off data) CIdle (copyCh p) (Some (off, data, ok)) failed dropped); try done; [|by intros ??? [= <- <- <-]].
    unfold accounted; pf_cbn. pose proof (count_if_insert (c_holds every) _ w (CPrefault off data) CIdle Hw) as Hc. cbn [c_holds every] in Hc.
    rewrite length_app; cbn [length]. split_and!; [|done|lia|destruct ok; lia|done]. intros P. rewrite (HP P), count_if_snoc.
    pose proof (count_if_insert (c_holds P) _ w (CPrefault off data) CIdle Hw) as Hc'. cbn [c_holds fst] in *. lia.
  - destruct (copiers p !! w) as [[|off data|]|] eqn:Hw; try done. destruct (ctx_done p) eqn:Hctx; [|done]. injection Hs as <-.
    apply (copy_inv p w CIdle CDone (copyCh p) None failed dropped); try done; [|by right].
    unfold accounted; pf_cbn. rewrite !(count_insert_other _ _ w CIdle CDone) by done. rewrite Hctx in *. split_and!; [|done..].
    intros P. rewrite (HP P), (count_insert_other _ _ w CIdle CDone) by done. done.
  - destruct (coordinator p) eqn:Hc; try done. destruct (bool_decide _) eqn:Hz; [|done]. apply bool_decide_eq_true in Hz. injection Hs as <-.
    split; pf_cbn; try apply Hi; try done.
    + intros _. apply (pf_codone p Hi). by rewrite Hc.
    + intros Hr. destruct (pf_returned p Hi Hr). congruence.
  - destruct (pf_main p) eqn:Hm; try done. destruct (coordinator p) eqn:Hc; try done. injection Hs as <-.
    split; pf_cbn; try apply Hi; try done.
    intros _. split; [done|]. right. by apply Hi.
  - injection Hs as <-. split; pf_cbn; try apply Hi; try done; [|intros; by right|intros; by right|intros; right; by left].
    exists failed, dropped. unfold accounted; pf_cbn. done.
  - injection Hs as <-. split; pf_cbn; apply Hi.
Qed.
Lemma pf_run_inv ls p : run_steps step (pf_start mapping maxFetchWorkers) ls = Some p → pf_inv p.
Proof.
  intros Hr. eapply (run_steps_inv _ pf_inv (λ _, True)); [intros ??? _; apply pf_step_inv|apply pf_start_inv| |exact Hr]. by apply Forall_true.
Qed.
Lemma returned_counts p failed dropped : pf_inv p → accounted p failed dropped → offsets ≠ [] →
  pf_main p = Returned → ctx_done p = false → 0 < maxFetchWorkers → 0 < maxCopyWorkers →
  fetchedCount p + fetchSkippedCount p = Z.of_nat (length offsets) ∧ copiedCount p + copySkippedCount p = fetchedCount p.
Proof.
  intros Hi (HP & Hsk & Hfe & Hco & Hdr) Hne Hm Hctx Hf Hc. destruct (pf_returned p Hi Hm) as [Hcd [?|Hcl]]; [done|].
  assert (dropped = []) as -> by (destruct dropped; [done|by rewrite Hdr in Hctx]).
  pose proof (pf_closed p Hi Hcl) as Hz. pose proof (pf_nfetch p Hi Hne) as Hnf.
  destruct (fetchers p !! 0%nat) as [f|] eqn:Hf0; [|apply lookup_ge_None in Hf0; lia].
  assert (f = FDone) as -> by (pose proof (count_if_zero _ _ _ _ Hz Hf0); by destruct f).
  destruct (pf_fdone p Hi 0 Hf0) as [Hch|]; [|congruence].
  pose proof (pf_idle p Hi ltac:(by rewrite Hcd)) as Hz'. destruct (pf_codone p Hi ltac:(by rewrite Hcd)) as [?|[?|Hnc]]; [done|congruence|].
  destruct (copiers p !! 0%nat) as [c|] eqn:Hc0; [|apply lookup_ge_None in Hc0; lia].
  assert (c = CDone) as -> by (pose proof (count_if_zero _ _ _ _ Hz' Hc0); by destruct c).
  destruct (pf_cdone p Hi 0 Hc0) as [[Hcc _]|]; [|congruence].
  pose proof (count_if_weaken fetching (f_holds every) (fetchers p) ltac:(by intros [])) as Hf1.
  pose proof (count_if_weaken fetching f_fetched (fetchers p) ltac:(by intros [])) as Hf2.
  pose proof (count_if_weaken copying (c_holds every) (copiers p) ltac:(by intros [])) as Hcz.
  specialize (HP every). rewrite Hch, Hcc in HP. rewrite Hcc in Hfe.
  change (λ x : Z * list byte * bool, every x.1.1) with (every (A := Z * list byte * bool)) in HP.
  rewrite !count_if_every in HP. cbn in HP, Hfe. lia.
Qed.

(** ** It ends *)
Definition pf_own (l : pf_label) : bool := match l with PCancel | PReady => false | _ => true end.
Definition f_weight (f : pf_fetch_pc) : nat := match f with FIdle => 1 | FSlice _ => 6 | FSend _ _ => 5 | FDone => 0 end.
Definition c_weight (c : copy_pc) : nat := match c with CIdle => 1 | CPrefault _ _ => 3 | CDone => 0 end.
Definition co_weight (c : coordinator_pc) : nat := match c with CoWait => 2 + Z.to_nat maxCopyWorkers | CoCopying => 1 | CoDone => 0 end.
Definition m_weight (m : start_pc) : nat := match m with WaitFetch => 2 | WaitCopy => 1 | Returned => 0 end.
Definition pf_weight p : nat :=
  6 * length (fetchCh p) + sum_list_with f_weight (fetchers p) + 3 * length (copyCh p) + sum_list_with c_weight (copiers p) +
  co_weight (coordinator p) + m_weight (pf_main p).
Lemma sum_insert {A} (f : A → nat) l i x y : l !! i = Some x →
  (sum_list_with f (<[i := y]> l) + f x = sum_list_with f l + f y)%nat.
Proof. revert i. induction l as [|z l IH]; intros [|i] Hi; simplify_eq/=; [lia|]. specialize (IH i Hi). lia. Qed.
Lemma sum_replicate n : sum_list_with c_weight (replicate n CIdle) = n.
Proof. induction n as [|n IH]; [done|]. cbn in *. by rewrite IH. Qed.
Lemma sum_replicate_idle n : sum_list_with f_weight (replicate n FIdle) = n.
Proof. induction n as [|n IH]; [done|]. cbn in *. by rewrite IH. Qed.
Ltac pf_sums := repeat match goal with
  | Hw : ?l !! ?w = Some ?x |- context [sum_list_with ?g (<[?w := ?y]> ?l)] =>
      pose proof (sum_insert g l w x y Hw); generalize dependent (sum_list_with g (<[w := y]> l)); intros
  end.
Lemma pf_step_weight p l p' : pf_inv p → step p l = Some p' → (pf_weight p' + (if pf_own l then 1 else 0) ≤ pf_weight p)%nat.
Proof.
  intros Hi Hs. unfold pf_weight. destruct l as [w|w ok|w|w| | | |w|w ok|w| | | |]; cbn [pf_step pf_own] in *.
  - destruct (fetchers p !! w) as [[|off|off data|]|] eqn:Hw; try done. destruct (fetchCh p) as [|off rest]; injection Hs as <-; pf_cbn;
      pf_sums; cbn [f_weight length] in *; lia.
  - destruct (fetchers p !! w) as [[|off|off data|]|] eqn:Hw; try done. injection Hs as <-. destruct ok; pf_cbn; pf_sums; cbn [f_weight] in *; lia.
  - destruct (fetchers p !! w) as [[|off|off data|]|] eqn:Hw; try done. destruct (copyClosed p) eqn:Hcl.
    { pose proof (count_if_zero _ _ _ _ (pf_closed p Hi Hcl) Hw). done. }
    destruct (bool_decide _); [|done]. injection Hs as <-. pf_cbn. rewrite length_app. pf_sums; cbn [f_weight length] in *; lia.
  - destruct (fetchers p !! w) as [[|off|off data|]|] eqn:Hw; try done; (destruct (ctx_done p); [|done]); injection Hs as <-; pf_cbn; pf_sums; cbn [f_weight] in *; lia.
  - destruct (pf_main p) eqn:Hm; try done. destruct (bool_decide _); [|done]. injection Hs as <-. pf_cbn; cbn [m_weight]. lia.
  - destruct (coordinator p) eqn:Hc; try done. destruct (uffd_ready p); [|done]. injection Hs as <-. pf_cbn. rewrite sum_replicate. cbn [co_weight]. lia.
  - destruct (coordinator p) eqn:Hc; try done. destruct (ctx_done p); [|done]. injection Hs as <-. pf_cbn; cbn [co_weight]. lia.
  - destruct (copiers p !! w) as [[|off data|]|] eqn:Hw; try done. destruct (copyCh p) as [|[off data] rest]; [destruct (copyClosed p); [|done]|];
      injection Hs as <-; pf_cbn; pf_sums; cbn [c_weight length] in *; lia.
  - destruct (copiers p !! w) as [[|off data|]|] eqn:Hw; try done. injection Hs as <-. pf_cbn. pf_sums; cbn [c_weight] in *; lia.
  - destruct (copiers p !! w) as [[|off data|]|] eqn:Hw; try done. destruct (ctx_done p); [|done]. injection Hs as <-. pf_cbn. pf_sums; cbn [c_weight] in *; lia.
  - destruct (coordinator p) eqn:Hc; try done. destruct (bool_decide _); [|done]. injection Hs as <-. pf_cbn; cbn [co_weight]. lia.
  - destruct (pf_main p) eqn:Hm; try done. destruct (coordinator p) eqn:Hc; try done. injection Hs as <-. pf_cbn; rewrite ?Hc; cbn [m_weight]. lia.
  - injection Hs as <-. pf_cbn. lia.
  - injection Hs as <-. pf_cbn. lia.
Qed.
(** Some goroutine can move, once the handler is ready or the context has ended. *)
Lemma pf_progress p : pf_inv p → uffd_ready p = true ∨ ctx_done p = true → pf_main p ≠ Returned →
  ∃ l, pf_own l = true ∧ is_Some (step p l).
Proof.
  intros Hi Hready Hm. destruct (pf_accounted p Hi) as (failed & dropped & HP & _). destruct (pf_main p) eqn:Hpm; [| |done].
  - destruct (decide (count_if fetching (fetchers p) = O)) as [Hz|(w & f & Hw & Hf)%count_if_exists].
    { exists PCloseCopy. split; [done|]. cbn. rewrite Hpm, bool_decide_true by done. by eexists. }
    destruct f as [|off|off data|]; [exists (PTake w)|exists (PFetch w true)|exists (PSend w)|done]; (split; [done|]); cbn [pf_step]; rewrite Hw.
    + by destruct (fetchCh p); eexists.
    + by eexists.
    + destruct (copyClosed p); [by eexists|]. rewrite bool_decide_true; [by eexists|]. specialize (HP every).
      change (λ x : Z * list byte, every x.1) with (every (A := Z * list byte)) in HP. rewrite !count_if_every in HP.
      pose proof (count_if_pos (f_holds every) _ w _ Hw eq_refl). lia.
  - pose proof (pf_closed_main p Hi Hpm) as Hcl. destruct (coordinator p) eqn:Hc.
    + destruct Hready as [Hr|Hr]; [exists PStartCopy|exists PCoordinatorStop]; (split; [done|]); cbn; rewrite Hc, Hr; by eexists.
    + destruct (decide (count_if copying (copiers p) = O)) as [Hz|(w & c & Hw & Hcc)%count_if_exists].
      { exists PCopyDone. split; [done|]. cbn. rewrite Hc, bool_decide_true by done. by eexists. }
      destruct c as [|off data|]; [exists (PCopyTake w)|exists (PPrefault w true)|done]; (split; [done|]); cbn [pf_step]; rewrite Hw; [|by eexists].
      destruct (copyCh p) as [|[off data] rest]; [rewrite Hcl|]; by eexists.
    + exists PReturn. split; [done|]. cbn. rewrite Hpm, Hc. by eexists.
Qed.
(** Prefetching ends.  The goroutines together take at most six steps an entry
    and a bounded number more, and once the page-fault handler is ready or the context
    has ended, some goroutine can move until [Start] returns, whatever the numbers of
    workers, zero and negative ones included. *)
Theorem Prefetch_terminates ls p : run_steps step (pf_start mapping maxFetchWorkers) ls = Some p →
  (count_if pf_own ls ≤ 6 * length offsets + Z.to_nat maxFetchWorkers + Z.to_nat maxCopyWorkers + 4)%nat ∧
  (uffd_ready p = true ∨ ctx_done p = true → pf_main p ≠ Returned → ∃ l, pf_own l = true ∧ is_Some (step p l)).
Proof.
  intros Hr. split; [|intros; apply pf_progress; [by eapply pf_run_inv|done..]].
  pose proof (run_steps_measure step pf_inv pf_weight pf_own (pf_start mapping maxFetchWorkers) ls p) as Hmeas.
  specialize (Hmeas ltac:(intros p1 l p2 Hi Hs; split; [by eapply pf_step_inv|by apply pf_step_weight]) pf_start_inv Hr).
  etrans; [|etrans; [exact Hmeas|]]; [lia|]. unfold pf_weight, pf_start. fold offsets.
  destruct offsets as [|o os]; pf_cbn; cbn [length sum_list_with c_weight co_weight m_weight]; [lia|]. rewrite sum_replicate_idle. lia.
Qed.

(** ** What is copied *)
Definition prefault_labels p : list ulabel := (λ c, UPrefault c.1.1 c.1.2) <$> prefault_calls p.
Hypothesis bs_pow : ∃ k, 0 ≤ k < 63 ∧ bs = 2 ^ k.
Lemma i64_divide z : (bs | z) → (bs | i64 z).
Proof.
  destruct bs_pow as (k & Hk & ->). intros Hz. unfold i64.
  assert (∀ j, k ≤ j → (2 ^ k | 2 ^ j)) as Hd by (intros j Hj; exists (2 ^ (j - k)); rewrite <-Z.pow_add_r by lia; f_equal; lia).
  change 18446744073709551616 with (2 ^ 64). change 9223372036854775808 with (2 ^ 63).
  apply Z.divide_sub_r; [|apply Hd; lia]. rewrite Zmod_eq_full by done. apply Z.divide_sub_r; [apply Z.divide_add_r; [done|apply Hd; lia]|].
  apply Z.divide_mul_r, Hd. lia.
Qed.
Hypothesis block_size : ∀ m, mapping = Some m → PBlockSize m = bs.
Lemma offsets_aligned off : off ∈ offsets → (bs | off).
Proof.
  unfold offsets, fetch_offsets. destruct mapping as [m|] eqn:Hm; cbn; [|by intros ?%not_elem_of_nil].
  intros (idx & -> & _)%list_elem_of_fmap. unfold BlockOffset. apply i64_divide. rewrite (block_size m) by done. by apply Z.divide_mul_r.
Qed.
Lemma calls_queued p failed dropped off : accounted p failed dropped →
  (count_if (λ c, bool_decide (c.1.1 = off)) (prefault_calls p) ≤ count_if (λ o, bool_decide (o = off)) offsets)%nat.
Proof. intros (HP & _). specialize (HP (λ o, bool_decide (o = off))). cbn in HP. lia. Qed.

Lemma prefault_labels_ok p : pf_inv p → Forall (label_ok src bs) (prefault_labels p).
Proof.
  intros Hi. destruct (pf_accounted p Hi) as (failed & dropped & Hacc).
  apply Forall_fmap, Forall_forall. intros [[off data] ok] Hin. cbn. split; [|by eapply pf_pdata].
  apply offsets_aligned. pose proof (calls_queued p failed dropped off Hacc) as Hle.
  apply list_elem_of_lookup in Hin as [i Hin]. pose proof (count_if_pos (λ c, bool_decide (c.1.1 = off)) _ i _ Hin) as Hpos.
  cbn in Hpos. rewrite bool_decide_true in Hpos by done. specialize (Hpos eq_refl).
  destruct (count_if_exists (λ o, bool_decide (o = off)) offsets) as (j & o & Ho & ->%bool_decide_eq_true); [lia|]. by eapply list_elem_of_lookup_2.
Qed.

(** The prefetcher only hands out blocks of the memory file.  However its workers,
    the cancellation and the start of the page-fault handler interleave: no send meets
    a closed or a full channel; every call of [Prefault] has an offset of the mapping, a
    multiple of the page size, with the block the source has there, which is what
    the page-fault handler relies on; no entry of the mapping is copied twice; and when it returns
    without being cancelled every entry has been counted once as fetched or skipped
    and every fetched one once as copied or skipped. *)
Theorem Prefetch_sound ls p : run_steps step (pf_start mapping maxFetchWorkers) ls = Some p →
  pf_panicked p = false ∧ (length (copyCh p) ≤ length offsets)%nat ∧
  Forall (label_ok src bs) (prefault_labels p) ∧
  (∀ off, (count_if (λ c, bool_decide (c.1.1 = off)) (prefault_calls p) ≤ count_if (λ o, bool_decide (o = off)) offsets)%nat) ∧
  (pf_main p = Returned → ctx_done p = false → 0 < maxFetchWorkers → 0 < maxCopyWorkers →
   fetchedCount p + fetchSkippedCount p = Z.of_nat (length offsets) ∧ copiedCount p + copySkippedCount p = fetchedCount p).
Proof.
  intros Hi%pf_run_inv. destruct (pf_accounted p Hi) as (failed & dropped & Hacc). pose proof Hacc as (HP & Hsk & Hfe & Hco & _). split_and!.
  - apply Hi.
  - specialize (HP every). change (λ x : Z * list byte, every x.1) with (every (A := Z * list byte)) in HP.
    rewrite !count_if_every in HP. lia.
  - by apply prefault_labels_ok.
  - intros off. by eapply calls_queued.
  - destruct (decide (offsets = [])) as [Hnil|Hne]; [|by eapply returned_counts]. intros _ _ _ _.
    specialize (HP every). change (λ x : Z * list byte, every x.1) with (every (A := Z * list byte)) in HP.
    change (λ x : Z * list byte * bool, every x.1.1) with (every (A := Z * list byte * bool)) in HP.
    rewrite !count_if_every, Hnil in HP. cbn [length] in HP.
    pose proof (count_if_weaken (f_holds every) f_fetched (fetchers p) ltac:(by intros [])) as Hff.
    rewrite Hnil. cbn [length]. lia.
Qed.

End proofs.

(** ** With the page-fault handler

    [uls] is any run of the handler in which the calls of [Prefault] are the
    prefetcher's. *)
Section with_uffd.
Context {B : Type} `{BitSetLaws B}.
Context (src : Z → list byte) (regions : list Region) (bs : Z).
Hypothesis bs_pow : ∃ k, 0 ≤ k < 63 ∧ bs = 2 ^ k.
Hypothesis regions_good : Forall (λ r, region_ok r ∧ RPageSize r = bs ∧ (bs | ROffset r) ∧ (bs | BaseHostVirtAddr r)) regions.
Hypothesis addr_disjoint : ∀ r r' a, r ∈ regions → r' ∈ regions → holds_addr r a → holds_addr r' a → r = r'.
Hypothesis off_disjoint : ∀ r r' o, r ∈ regions → r' ∈ regions → holds_off r o → holds_off r' o → r = r'.
Hypothesis src_whole : ∀ off, zlength (src off) = bs.
Definition from_prefetcher (p : prefetcher) (l : ulabel) : Prop :=
  match l with
  | UFault addr _ => (bs | addr)
  | UPrefault off data => l ∈ prefault_labels p
  | _ => True
  end.

(** C32: a sandbox that is prefetched and serves its faults at the same time only
    ever sees its own memory: whatever the prefetcher passes on, while the guest faults
    and [faultPage] runs, a page is filled with the block of the memory file it stands
    for, and nothing panics. *)
Theorem Prefetch_installs_blocks mapping maxFetch maxCopy ls p (t0 : uffd_sys B) uls :
  (∀ m, mapping = Some m → PBlockSize m = bs) →
  run_steps (pf_step src (length (offsets mapping)) maxCopy) (pf_start mapping maxFetch) ls = Some p →
  NewUserfaultfdFromFd regions bs = Ok t0 → Forall (from_prefetcher p) uls → Z.of_nat (length uls) < maxI64 →
  match uffd_run src regions t0 uls with
  | Ok t => ∀ a pg, pages t !! a = Some pg → ∃ off, located regions bs a off ∧ pg.1 = src off
  | Err _ => True
  | Panic => False
  end.
Proof.
  intros Hbs Hrun Hn Hu Hlen. pose proof (pf_run_inv src mapping maxFetch maxCopy ls p Hrun) as Hi.
  assert (Forall (label_ok src bs) (prefault_labels p)) as Hp by by eapply prefault_labels_ok.
  assert (Forall (label_ok src bs) uls) as Hok.
  { eapply Forall_impl; [exact Hu|]. intros [] Hl; try done. cbn in Hl. by eapply (proj1 (Forall_forall _ _) Hp). }
  assert (calls t0 = []) as Hc by (unfold NewUserfaultfdFromFd in Hn; destruct (filter _ _); [|done]; by injection Hn as <-).
  pose proof (NewUserfaultfd_ok src regions bs bs_pow regions_good addr_disjoint off_disjoint src_whole t0 Hn) as Ht0.
  pose proof (uffd_run_ok src regions bs bs_pow regions_good addr_disjoint off_disjoint src_whole uls t0 Ht0 Hok) as Hrn.
  rewrite Hc in Hrn. specialize (Hrn Hlen). destruct (uffd_run src regions t0 uls) as [t|?|]; [|done..]. apply Hrn.
Qed.
End with_uffd.

(** ** The mapping of a tracker *)
Lemma insert_entry_perm e es : insert_entry e es ≡ₚ e :: es.
Proof.
  induction es as [|x es IH]; [done|]. cbn. destruct (_ <? _); [done|]. rewrite IH. by apply Permutation_swap.
Qed.
Lemma sort_entries_perm es : sort_entries es ≡ₚ es.
Proof. induction es as [|e es IH]; [done|]. cbn. by rewrite insert_entry_perm, IH. Qed.
Lemma insert_entry_sorted e es : Sorted Z.le (Order <$> es) → Sorted Z.le (Order <$> insert_entry e es).
Proof.
  induction es as [|x es IH]; intros Hs; [by repeat constructor|]. cbn. destruct (Z.ltb_spec (Order e) (Order x)).
  - cbn. constructor; [done|]. constructor. lia.
  - cbn in *. apply Sorted_inv in Hs as [Hs Hx]. constructor; [by apply IH|].
    destruct es as [|y es]; cbn; [constructor; lia|]. inversion Hx; subst. destruct (_ <? _); constructor; [lia|done].
Qed.
(** The blocks a tracker saw, each once, in the order it saw them. *)
Lemma PrefetchEntriesToMapping_spec entries bs m : PrefetchEntriesToMapping entries bs = Some m →
  ∃ es, es ≡ₚ entries ∧ Sorted Z.le (Order <$> es) ∧ Indices m = Index <$> es ∧ AccessTypes m = EAccessType <$> es ∧ PBlockSize m = bs.
Proof.
  intros Hm. exists (sort_entries entries). assert (m = mkPrefetchMapping (Index <$> sort_entries entries) (EAccessType <$> sort_entries entries) bs) as ->.
  { destruct entries; [done|]. by injection Hm as <-. }
  split_and!; [apply sort_entries_perm| |done..]. clear Hm. induction entries as [|e es IH]; [constructor|]. by apply insert_entry_sorted.
Qed.

Section witnesses.
#[local] Existing Instances BoolBits.ops BoolBits.laws.
Definition ex_mapping : option MemoryPrefetchMapping := PrefetchEntriesToMapping [mkEntry 1 2 Read; mkEntry 0 1 Read] 2.
(** Two workers fetch, one copies; the second block cannot be read. *)
Definition ex_pf : list pf_label :=
  [PTake 0; PTake 1; PFetch 1 false; PReady; PStartCopy; PFetch 0 true; PSend 0; PCopyTake 0; PPrefault 0 true; PTake 0; PTake 1;
   PCloseCopy; PCopyTake 0; PCopyDone; PReturn].
Definition ex_prefetcher : prefetcher :=
  default (pf_start ex_mapping 2) (run_steps (pf_step ex_src (length (offsets ex_mapping)) 1) (pf_start ex_mapping 2) ex_pf).
Lemma ex_pf_run : run_steps (pf_step ex_src (length (offsets ex_mapping)) 1) (pf_start ex_mapping 2) ex_pf = Some ex_prefetcher.
Proof. by vm_compute. Qed.
Lemma ex_block_size m : ex_mapping = Some m → PBlockSize m = 2.
Proof. by intros [= <-]. Qed.

Lemma Prefetch_sound_witness : Forall (label_ok ex_src 2) (prefault_labels ex_prefetcher) ∧ prefault_labels ex_prefetcher = [UPrefault 0 [x01; x02]] ∧
  fetchedCount ex_prefetcher + fetchSkippedCount ex_prefetcher = 2.
Proof.
  pose proof (Prefetch_sound ex_src 2 ex_mapping 2 1 ltac:(by exists 1) ex_block_size ex_pf ex_prefetcher ex_pf_run) as (_ & _ & Hok & _ & Hend).
  split; [exact Hok|]. split; [by vm_compute|]. by apply Hend; vm_compute.
Defined.
Lemma Prefetch_terminates_witness : (count_if pf_own (take 4 ex_pf) ≤ 19)%nat ∧
  ∃ l, pf_own l = true ∧ is_Some (pf_step ex_src 2 1 (default ex_prefetcher (run_steps (pf_step ex_src 2 1) (pf_start ex_mapping 2) (take 4 ex_pf))) l).
Proof.
  destruct (run_steps (pf_step ex_src (length (offsets ex_mapping)) 1) (pf_start ex_mapping 2) (take 4 ex_pf)) as [p|] eqn:Hp; [|by vm_compute in Hp].
  destruct (Prefetch_terminates ex_src ex_mapping 2 1 (take 4 ex_pf) p Hp) as [Hc Hprog]. split; [exact Hc|].
  change (length (offsets ex_mapping)) with 2%nat in *. rewrite Hp. cbn [default]. apply Hprog; [left|]; vm_compute in Hp; by injection Hp as <-.
Defined.
Lemma Prefetch_installs_blocks_witness :
  match uffd_run ex_src two_pages ex_start [UPrefault 0 [x01; x02]; ULock 0; USlice 0 SliceOk; UCopy 0 (CopyOk []); UMark 0] with
  | Ok t => pages t = {[8 := ([x01; x02], true)]} ∧ ∀ a pg, pages t !! a = Some pg → ∃ off, located two_pages 2 a off ∧ pg.1 = ex_src off
  | _ => False
  end.
Proof.
  pose proof (Prefetch_installs_blocks ex_src two_pages 2 ltac:(by exists 1) two_pages_good (ex_one holds_addr) (ex_one holds_off) ex_src_whole
    ex_mapping 2 1 ex_pf ex_prefetcher ex_start [UPrefault 0 [x01; x02]; ULock 0; USlice 0 SliceOk; UCopy 0 (CopyOk []); UMark 0]
    ex_block_size ex_pf_run eq_refl ltac:(repeat constructor; apply list_elem_of_singleton; by vm_compute) ltac:(by vm_compute)) as Hs.
  destruct (uffd_run ex_src two_pages ex_start _) as [t|?|] eqn:E; vm_compute in E; [|discriminate..].
  injection E as <-. split; [by vm_compute|exact Hs].
Defined.
End witnesses.
