(* ===== verification/Cleanup.v ===== *)
(** * The cleanup of a sandbox

    packages/orchestrator/internal/sandbox/cleanup.go: functions that release what a
    sandbox holds are registered while it starts, and run once when it stops, the ones
    with priority first, each group in reverse order.  Registrations and calls of [Run]
    may be concurrent.  A step is one access to [hasRun], one critical section of the
    registration, or one of the functions. *)
From S2P Require Import Prelude.

Section cleanup.
Context {E : Type}.
(** A function is known by the index of its registration; [result] is what it returns. *)
Context (result : nat → option E).

(** [Add] and [AddPriority]. *)
Inductive add_pc :=
  | AddLoad                          (** before [c.hasRun.Load] *)
  | AddCall                          (** calls the function itself *)
  | AddLock                          (** before the critical section *)
  | AddReturned.
Record adder := mkAdder { a_priority : bool; a_pc : add_pc }.
(** [Run] and [run]. *)
Inductive run_pc :=
  | RunOnce                          (** in [c.once.Do] *)
  | RunStore                         (** before [c.hasRun.Store] *)
  | RunLock
  | RunLoop (todo : list nat) (errs : list E)
  | RunReturned (err : list E).      (** the joined errors *)
Inductive once_state := OnceFree | OnceRunning | OnceDone.
Record cleanup_sys := mkCleanup {
  cleanup : list nat;
  priorityCleanup : list nat;
  c_error : list E;
  once : once_state;
  hasRun : bool;
  mu : bool;                         (** held by [run] *)
  adders : list adder;
  runners : list run_pc;
  executed : list nat;               (** the functions that were called, in order *)
}.
Definition NewCleanup : cleanup_sys := mkCleanup [] [] [] OnceFree false false [] [] [].

Inductive cleanup_label :=
  | CAdd (priority : bool)           (** a call of [Add] or [AddPriority] *)
  | CRun                             (** a call of [Run] *)
  | CAdder (i : nat)
  | CRunner (k : nat).

Definition with_adder (c : cleanup_sys) (i : nat) (a : adder) : cleanup_sys :=
  mkCleanup (cleanup c) (priorityCleanup c) (c_error c) (once c) (hasRun c) (mu c) (<[i := a]> (adders c)) (runners c) (executed c).
Definition with_runner (c : cleanup_sys) (k : nat) (r : run_pc) : cleanup_sys :=
  mkCleanup (cleanup c) (priorityCleanup c) (c_error c) (once c) (hasRun c) (mu c) (adders c) (<[k := r]> (runners c)) (executed c).
Definition with_executed (c : cleanup_sys) (f : nat) : cleanup_sys :=
  mkCleanup (cleanup c) (priorityCleanup c) (c_error c) (once c) (hasRun c) (mu c) (adders c) (runners c) (executed c ++ [f]).

(** A step of the [i]th registration; its function is [i]. *)
Definition cleanup_Add (c : cleanup_sys) (i : nat) : option cleanup_sys :=
  a ← adders c !! i;
  match a_pc a with
  | AddLoad => Some (with_adder c i (mkAdder (a_priority a) (if hasRun c then AddCall else AddLock)))
  | AddCall => Some (with_executed (with_adder c i (mkAdder (a_priority a) AddReturned)) i)
  | AddLock =>
      if mu c then None
      else Some (with_adder
        (mkCleanup (if a_priority a then cleanup c else cleanup c ++ [i]) (if a_priority a then priorityCleanup c ++ [i] else priorityCleanup c)
          (c_error c) (once c) (hasRun c) (mu c) (adders c) (runners c) (executed c)) i (mkAdder (a_priority a) AddReturned))
  | AddReturned => None
  end.
Definition Run (c : cleanup_sys) (k : nat) : option cleanup_sys :=
  r ← runners c !! k;
  match r with
  | RunOnce =>
      match once c with
      | OnceFree => Some (with_runner (mkCleanup (cleanup c) (priorityCleanup c) (c_error c) OnceRunning (hasRun c) (mu c) (adders c) (runners c) (executed c)) k RunStore)
      | OnceRunning => None
      | OnceDone => Some (with_runner c k (RunReturned (c_error c)))
      end
  | RunStore => Some (with_runner (mkCleanup (cleanup c) (priorityCleanup c) (c_error c) (once c) true (mu c) (adders c) (runners c) (executed c)) k RunLock)
  | RunLock =>
      if mu c then None
      else Some (with_runner (mkCleanup (cleanup c) (priorityCleanup c) (c_error c) (once c) (hasRun c) true (adders c) (runners c) (executed c)) k
        (RunLoop (reverse (priorityCleanup c) ++ reverse (cleanup c)) []))
  | RunLoop (f :: fs) errs =>
      Some (with_executed (with_runner c k (RunLoop fs (errs ++ option_list (result f)))) f)
  | RunLoop [] errs =>
      Some (with_runner (mkCleanup (cleanup c) (priorityCleanup c) errs OnceDone (hasRun c) false (adders c) (runners c) (executed c)) k (RunReturned errs))
  | RunReturned _ => None
  end.
Definition cleanup_step (c : cleanup_sys) (l : cleanup_label) : option cleanup_sys :=
  match l with
  | CAdd p => Some (mkCleanup (cleanup c) (priorityCleanup c) (c_error c) (once c) (hasRun c) (mu c) (adders c ++ [mkAdder p AddLoad]) (runners c) (executed c))
  | CRun => Some (mkCleanup (cleanup c) (priorityCleanup c) (c_error c) (once c) (hasRun c) (mu c) (adders c) (runners c ++ [RunOnce]) (executed c))
  | CAdder i => cleanup_Add c i
  | CRunner k => Run c k
  end.
End cleanup.

(** ** Every interleaving *)
Section proofs.
Context {E : Type} (result : nat → option E).
Implicit Types (c : cleanup_sys (E := E)).
#[local] Abbreviation step := (cleanup_step result).

(** Where [Run] is.  [R] are the functions it has called; [P] and [C] are what had been
    registered when [hasRun] was still false. *)
Definition others_wait (rs : list (run_pc (E := E))) (k : nat) : Prop := ∀ j r, rs !! j = Some r → j ≠ k → r = RunOnce.
Inductive run_phase (P C : list nat) c (R : list nat) : Prop :=
  | ph_free : once c = OnceFree → mu c = false → hasRun c = false → R = [] → (∀ j r, runners c !! j = Some r → r = RunOnce) → run_phase P C c R
  | ph_store k : once c = OnceRunning → mu c = false → hasRun c = false → R = [] → runners c !! k = Some RunStore → others_wait (runners c) k → run_phase P C c R
  | ph_lock k : once c = OnceRunning → mu c = false → hasRun c = true → R = [] → runners c !! k = Some RunLock → others_wait (runners c) k → run_phase P C c R
  | ph_loop k todo errs : once c = OnceRunning → mu c = true → hasRun c = true → runners c !! k = Some (RunLoop todo errs) → others_wait (runners c) k →
      reverse (priorityCleanup c) ++ reverse (cleanup c) = R ++ todo → errs = omap result R → run_phase P C c R
  | ph_done p0 p1 q0 q1 : once c = OnceDone → mu c = false → hasRun c = true →
      priorityCleanup c = p0 ++ p1 → cleanup c = q0 ++ q1 → R = reverse p0 ++ reverse q0 → P `prefix_of` p0 → C `prefix_of` q0 →
      c_error c = omap result R → (∀ j r, runners c !! j = Some r → r = RunOnce ∨ r = RunReturned (c_error c)) → run_phase P C c R.
Definition registered c : list nat := priorityCleanup c ++ cleanup c.
Record cleanup_inv (P C : list nat) c : Prop := {
  ci_nodup : NoDup (registered c);
  ci_returned i : i ∈ registered c → a_pc <$> adders c !! i = Some AddReturned;
  ci_prefix : P `prefix_of` priorityCleanup c ∧ C `prefix_of` cleanup c;
  ci_phase : ∃ R D, run_phase P C c R ∧ executed c ≡ₚ R ++ D ∧ sublist R (executed c) ∧
    NoDup D ∧ (∀ i, i ∈ D → i ∉ registered c ∧ a_pc <$> adders c !! i = Some AddReturned) ∧ (hasRun c = false → D = []);
  ci_all i : a_pc <$> adders c !! i = Some AddReturned → i ∈ registered c ∨ i ∈ executed c;
  ci_call i : a_pc <$> adders c !! i = Some AddCall → hasRun c = true;
}.

Lemma run_R_registered P C c R i : run_phase P C c R → i ∈ R → i ∈ registered c.
Proof.
  unfold registered. intros [? ? ? -> ?|k ? ? ? -> ? ?|k ? ? ? -> ? ?|k todo errs ? ? ? ? ? Hl ?|p0 p1 q0 q1 ? ? ? Hp Hc -> ? ? ? ?] Hi;
    try by apply not_elem_of_nil in Hi.
  - assert (i ∈ R ++ todo) as Hin by (apply elem_of_app; by left). rewrite <-Hl in Hin.
    apply elem_of_app in Hin as [Hin|Hin]; rewrite elem_of_reverse in Hin; apply elem_of_app; auto.
  - rewrite Hp, Hc. apply elem_of_app in Hi as [Hi|Hi]; rewrite elem_of_reverse in Hi; apply elem_of_app; [left|right]; apply elem_of_app; by left.
Qed.
Lemma run_R_nodup P C c R : run_phase P C c R → NoDup (registered c) → NoDup R.
Proof.
  unfold registered. intros [? ? ? -> ?|k ? ? ? -> ? ?|k ? ? ? -> ? ?|k todo errs ? ? ? ? ? Hl ?|p0 p1 q0 q1 ? ? ? Hp Hc -> ? ? ? ?] Hnd; try by constructor.
  - assert (NoDup (R ++ todo)) as Hn; [|by apply NoDup_app in Hn as (? & _)]. rewrite <-Hl. by rewrite !reverse_Permutation.
  - rewrite !reverse_Permutation. rewrite Hp, Hc in Hnd.
    assert ((p0 ++ p1) ++ q0 ++ q1 ≡ₚ (p0 ++ q0) ++ p1 ++ q1) as Hperm.
    { rewrite <-!app_assoc. f_equiv. rewrite !app_assoc. f_equiv. apply Permutation_app_comm. }
    rewrite Hperm in Hnd. by apply NoDup_app in Hnd as (? & _).
Qed.
Lemma start_inv : cleanup_inv [] [] NewCleanup.
Proof.
  split; cbn; [constructor|by intros i ?%not_elem_of_nil|done| |done|done].
  exists [], []. split_and!; [by apply ph_free|done|done|constructor|by intros i ?%not_elem_of_nil|done].
Qed.
Lemma adder_insert c i (a : adder) pc j : adders c !! i = Some a →
  a_pc <$> <[i := mkAdder (a_priority a) pc]> (adders c) !! j = if decide (j = i) then Some pc else a_pc <$> adders c !! j.
Proof. intros Hi. case_decide as Hj; [subst; by rewrite list_lookup_insert_eq by by eapply lookup_lt_Some|by rewrite list_lookup_insert_ne]. Qed.
Lemma phase_ext P C c c' R : once c' = once c → mu c' = mu c → hasRun c' = hasRun c → runners c' = runners c →
  priorityCleanup c' = priorityCleanup c → cleanup c' = cleanup c → c_error c' = c_error c → run_phase P C c R → run_phase P C c' R.
Proof.
  destruct c, c'; cbn. intros -> -> -> -> -> -> ->.
  intros [????|k ?????|k ?????|k todo errs ??????|p0 p1 q0 q1 ?????????];
    [apply ph_free|apply (ph_store _ _ _ _ k)|apply (ph_lock _ _ _ _ k)|apply (ph_loop _ _ _ _ k todo errs)|apply (ph_done _ _ _ _ p0 p1 q0 q1)]; done.
Qed.
Lemma snoc_pc (l : list adder) a pc i : a_pc a ≠ pc → a_pc <$> (l ++ [a]) !! i = Some pc ↔ a_pc <$> l !! i = Some pc.
Proof.
  intros Ha. destruct (decide (i < length l)%nat); [by rewrite lookup_app_l|]. rewrite lookup_app_r by lia.
  rewrite (proj2 (lookup_ge_None l i)) by lia. destruct (i - length l)%nat as [|j] eqn:Hj; cbn; [|done].
  split; [intros [= ?]; congruence|done].
Qed.
Lemma snoc_lookup {A} (l : list A) x j y : (l ++ [x]) !! j = Some y → l !! j = Some y ∨ (j = length l ∧ y = x).
Proof. intros [?|[Hl Hz]]%lookup_app_Some; [by left|]. apply list_lookup_singleton_Some in Hz as [? ->]. right. split; [lia|done]. Qed.
(** A step that only adds a caller. *)
Lemma call_inv P C c ads rs : cleanup_inv P C c →
  (∀ i pc, pc ≠ AddLoad → a_pc <$> ads !! i = Some pc ↔ a_pc <$> adders c !! i = Some pc) →
  (rs = runners c ∨ rs = runners c ++ [RunOnce]) →
  cleanup_inv P C (mkCleanup (cleanup c) (priorityCleanup c) (c_error c) (once c) (hasRun c) (mu c) ads rs (executed c)).
Proof.
  intros [H1 H2 H3 (R & D & Hph & He & Hs & Hnd & HD & HD0) H5 H6] Ha Hr. split; cbn; try done.
  - intros i Hi. apply Ha; [done|by apply H2].
  - exists R, D. split_and!; try done; [|intros i Hi; destruct (HD i Hi); split; [done|by apply Ha]].
    assert (∀ k r, runners c !! k = Some r → rs !! k = Some r) as Hkeep by (intros k r Hk; destruct Hr as [->| ->]; [done|by apply lookup_app_l_Some]).
    assert (∀ j r, rs !! j = Some r → runners c !! j = Some r ∨ r = RunOnce) as Hnew.
    { intros j r. destruct Hr as [->| ->]; [by left|]. intros [?|[_ ->]]%snoc_lookup; [by left|by right]. }
    destruct Hph as [????Hf|k ?????Ho|k ?????Ho|k todo errs ????Ho??|p0 p1 q0 q1 ?????????Hf];
      [apply ph_free|apply (ph_store _ _ _ _ k)|apply (ph_lock _ _ _ _ k)|apply (ph_loop _ _ _ _ k todo errs)|apply (ph_done _ _ _ _ p0 p1 q0 q1)]; cbn; eauto.
    + intros j r [Hj|]%Hnew; eauto.
    + intros j r [Hj|]%Hnew; eauto.
    + intros j r [Hj|]%Hnew; eauto.
    + intros j r [Hj|]%Hnew; eauto.
    + intros j r [Hj|]%Hnew; eauto.
  - intros i Hi%Ha; [|done]. by apply H5.
  - intros i Hi%Ha; [|done]. by apply (H6 i).
Qed.
Lemma cleanup_Add_inv P C c i c' : cleanup_inv P C c → cleanup_Add c i = Some c' → cleanup_inv P C c'.
Proof.
  intros Hi Hs. unfold cleanup_Add in Hs. destruct (adders c !! i) as [a|] eqn:Ha; [|done]. cbn in Hs.
  pose proof (adder_insert c i a) as Hins. destruct Hi as [H1 H2 H3 (R & D & Hph & He & Hsub & Hnd & HD & HD0) H5 H6].
  assert (∀ j, j ∈ registered c → a_pc a ≠ AddReturned → j ≠ i) as Hreg.
  { intros j Hj%H2 Hne ->. rewrite Ha in Hj. by injection Hj. }
  assert (∀ j, j ∈ executed c → a_pc a ≠ AddReturned → j ≠ i) as Hexe.
  { intros j Hj Hne ->. rewrite He in Hj. apply elem_of_app in Hj as [Hj|Hj].
    - pose proof (run_R_registered _ _ _ _ _ Hph Hj) as Hj'. by apply (Hreg i).
    - destruct (HD i Hj) as [_ Hx]. rewrite Ha in Hx. by injection Hx. }
  destruct (a_pc a) eqn:Hpc; try done; try injection Hs as <-.
  - (* AddLoad *) split; cbn; try done.
    + intros j Hj. rewrite Hins by done. rewrite decide_False by by apply Hreg. by apply H2.
    + exists R, D. split_and!; try done; [by eapply phase_ext; [..|exact Hph]|]. intros j Hj. destruct (HD j Hj) as [? Hx]. split; [done|].
      rewrite Hins by done. rewrite decide_False; [done|]. intros ->. rewrite Ha in Hx. cbn in Hx. congruence.
    + intros j. rewrite Hins by done. case_decide; [by destruct (hasRun c)|]. apply H5.
    + intros j. rewrite Hins by done. case_decide; [by destruct (hasRun c)|]. apply H6.
  - (* AddCall *) assert (hasRun c = true) as Hrun by (apply (H6 i); by rewrite Ha; cbn; rewrite Hpc).
    split; cbn; try done.
    + intros j Hj. rewrite Hins by done. rewrite decide_False by by apply Hreg. by apply H2.
    + exists R, (D ++ [i]). split_and!; [by eapply phase_ext; [..|exact Hph]|by rewrite He, app_assoc|by apply sublist_inserts_r| | |by rewrite Hrun].
      * apply NoDup_app. split_and!; [done| |apply NoDup_singleton]. intros j Hj ->%list_elem_of_singleton. apply (Hexe i); [|done|done]. rewrite He. apply elem_of_app; by right.
      * intros j Hj. rewrite Hins by done. apply elem_of_app in Hj as [Hj| ->%list_elem_of_singleton].
        -- destruct (HD j Hj) as [? Hx]. split; [done|]. case_decide; [done|done].
        -- split; [|by rewrite decide_True]. intros Hreg'. apply (Hreg i Hreg'); [done|done].
    + intros j. rewrite Hins by done. case_decide as Hj; [subst; right; apply elem_of_app; right; by left|].
      intros [?|?]%H5; [by left|right; apply elem_of_app; by left].
  - (* AddLock *) destruct (mu c) eqn:Hmu; [done|]. injection Hs as <-.
    set (pr := if a_priority a then priorityCleanup c ++ [i] else priorityCleanup c).
    set (cl := if a_priority a then cleanup c else cleanup c ++ [i]).
    assert (pr ++ cl ≡ₚ i :: registered c) as Hperm.
    { unfold pr, cl, registered. destruct (a_priority a); [by rewrite <-app_assoc; cbn; rewrite Permutation_middle|].
      rewrite app_assoc. by rewrite <-Permutation_cons_append. }
    assert (i ∉ registered c) as Hni by (intros Hx; by apply (Hreg i Hx); [done|]).
    split; cbn; unfold registered; cbn; fold pr cl.
    + rewrite Hperm. by constructor.
    + intros j. rewrite Hperm, Hins by done. intros [->|Hj]%elem_of_cons; [by rewrite decide_True|]. rewrite decide_False by by apply Hreg. by apply H2.
    + destruct H3 as [Hp Hc]. unfold pr, cl. by destruct (a_priority a); split; try done; apply prefix_app_r.
    + exists R, D. split_and!; try done.
      * destruct Hph as [? ? ? ? Hf|k ? ? ? ? ? Ho|k ? ? ? ? ? Ho|k todo errs ? Hm|p0 p1 q0 q1 ? ? ? Hp Hc ? ? ? ? Hf];
          [by apply ph_free|by apply (ph_store _ _ _ _ k)|by apply (ph_lock _ _ _ _ k)|congruence|].
        apply (ph_done _ _ _ _ p0 (if a_priority a then p1 ++ [i] else p1) q0 (if a_priority a then q1 else q1 ++ [i])); try done; cbn; unfold pr, cl;
          destruct (a_priority a); by rewrite ?Hp, ?Hc, ?app_assoc.
      * intros j Hj. rewrite Hins by done. destruct (HD j Hj) as [Hx Hy].
        assert (j ≠ i) as Hne by (intros ->; rewrite Ha in Hy; cbn in Hy; congruence). rewrite decide_False by done. split; [|done].
        rewrite Hperm. by intros [?|?]%elem_of_cons.
    + intros j. rewrite Hins by done. rewrite Hperm. case_decide as Hj; [subst; left; by left|]. intros [?|?]%H5; [left; by right|by right].
    + intros j. rewrite Hins by done. case_decide; [done|]. apply H6.
Qed.
Lemma runner_insert (rs : list (run_pc (E := E))) k r r0 : rs !! k = Some r0 → others_wait rs k → <[k := r]> rs !! k = Some r ∧ others_wait (<[k := r]> rs) k.
Proof.
  intros Hk Ho. split; [by apply list_lookup_insert_eq; eapply lookup_lt_Some|].
  intros j x Hj Hne. rewrite list_lookup_insert_ne in Hj by done. by eapply Ho.
Qed.
Lemma active P C c R k r : run_phase P C c R → runners c !! k = Some r → r ≠ RunOnce → (∀ err, r ≠ RunReturned err) →
  others_wait (runners c) k ∧ once c = OnceRunning ∧
  match r with
  | RunStore => mu c = false ∧ hasRun c = false ∧ R = []
  | RunLock => mu c = false ∧ hasRun c = true ∧ R = []
  | RunLoop todo errs => mu c = true ∧ hasRun c = true ∧ reverse (priorityCleanup c) ++ reverse (cleanup c) = R ++ todo ∧ errs = omap result R
  | _ => False
  end.
Proof.
  intros [? ? ? ? Hf|k' ? ? ? ? Hk Ho|k' ? ? ? ? Hk Ho|k' todo errs ? ? ? Hk Ho ? ?|p0 p1 q0 q1 ? ? ? ? ? ? ? ? ? Hf] Hr Hne Hnr.
  - by apply Hf in Hr.
  - destruct (decide (k = k')) as [->|]; [|by destruct Hne; eapply Ho]. rewrite Hk in Hr. injection Hr as <-. by split_and!.
  - destruct (decide (k = k')) as [->|]; [|by destruct Hne; eapply Ho]. rewrite Hk in Hr. injection Hr as <-. by split_and!.
  - destruct (decide (k = k')) as [->|]; [|by destruct Hne; eapply Ho]. rewrite Hk in Hr. injection Hr as <-. by split_and!.
  - destruct (Hf k r Hr) as [->| ->]; [done|by destruct (Hnr (c_error c))].
Qed.
Lemma Run_inv P C c k c' : cleanup_inv P C c → Run result c k = Some c' → cleanup_inv P C c'.
Proof.
  intros [H1 H2 H3 (R & D & Hph & He & Hsub & Hnd & HD & HD0) H5 H6] Hs. unfold Run in Hs. destruct (runners c !! k) as [r|] eqn:Hr; [|done]. cbn in Hs.
  pose proof (lookup_lt_Some _ _ _ Hr) as Hlt. destruct r as [| | |todo errs|err].
  - destruct (once c) eqn:Ho; try done; injection Hs as <-; (split; cbn; try done); exists R, D; split_and!; try done.
    + destruct Hph as [? ? ? ? Hf| | | |]; [|congruence..]. apply (ph_store _ _ _ _ k); try done; cbn; [by apply list_lookup_insert_eq|].
      intros j x Hj Hne. rewrite list_lookup_insert_ne in Hj by done. eauto.
    + destruct Hph as [|k' |k'|k' todo errs|p0 p1 q0 q1 ? ? ? ? ? ? ? ? ? Hf]; try congruence. apply (ph_done _ _ _ _ p0 p1 q0 q1); try done; cbn.
      intros j x [(-> & <- & _)|[_ Hj]]%list_lookup_insert_Some; [by right|eauto].
  - destruct (active P C c R k _ Hph Hr) as (Ho & Hon & Hm & Hh & ->); [done..|]. injection Hs as <-. destruct (runner_insert _ k RunLock _ Hr Ho).
    split; cbn; try done. exists [], D. split_and!; try done. by apply (ph_lock _ _ _ _ k).
  - destruct (active P C c R k _ Hph Hr) as (Ho & Hon & Hm & Hh & ->); [done..|]. rewrite Hm in Hs. injection Hs as <-.
    destruct (runner_insert _ k (RunLoop (reverse (priorityCleanup c) ++ reverse (cleanup c)) []) _ Hr Ho).
    split; cbn; try done. exists [], D. split_and!; try done. by eapply (ph_loop _ _ _ _ k).
  - destruct (active P C c R k _ Hph Hr) as (Ho & Hon & Hm & Hh & Hl & ->); [done..|]. destruct todo as [|f todo]; injection Hs as <-.
    + rewrite app_nil_r in Hl. destruct (runner_insert _ k (RunReturned (omap result R)) _ Hr Ho) as [Hk' Ho']. split; cbn; try done.
      exists R, D. split_and!; try done. apply (ph_done _ _ _ _ (priorityCleanup c) [] (cleanup c) []); try done; cbn; [by rewrite app_nil_r..|apply H3|apply H3|].
      intros j x Hj. destruct (decide (j = k)) as [->|Hne]; [right; congruence|left; by eapply Ho'].
    + destruct (runner_insert _ k (RunLoop todo (omap result R ++ option_list (result f))) _ Hr Ho). split; cbn; try done.
      * exists (R ++ [f]), D. split_and!; try done.
        -- eapply (ph_loop _ _ _ _ k); try done; cbn; [by rewrite <-app_assoc|]. rewrite omap_app. by destruct (result f) eqn:Hf; cbn; rewrite Hf.
        -- rewrite He, <-app_assoc, <-app_assoc. f_equiv. cbn. by rewrite <-Permutation_cons_append.
        -- by apply sublist_app.
      * intros i Hi. destruct (H5 i Hi); [by left|right; apply elem_of_app; by left].
  - done.
Qed.
Lemma cleanup_step_inv P C c l c' : cleanup_inv P C c → step c l = Some c' → cleanup_inv P C c'.
Proof.
  intros Hi Hs. destruct l as [p| |i|k]; cbn [cleanup_step] in Hs; [| |by eapply cleanup_Add_inv|by eapply Run_inv]; injection Hs as <-.
  - apply call_inv; [done| |by left]. intros i pc Hpc. apply snoc_pc. cbn. done.
  - apply call_inv; [done|done|by right].
Qed.
Lemma cleanup_run_inv P C c ls c' : cleanup_inv P C c → run_steps step c ls = Some c' → cleanup_inv P C c'.
Proof.
  intros Hi Hr. eapply (run_steps_inv _ (cleanup_inv P C) (λ _, True)); [intros ??? _; apply cleanup_step_inv|exact Hi| |exact Hr]. by apply Forall_true.
Qed.
(** What was registered by then is part of what [Run] calls. *)
Lemma inv_from_here c : cleanup_inv [] [] c → hasRun c = false → cleanup_inv (priorityCleanup c) (cleanup c) c.
Proof.
  intros [H1 H2 H3 (R & D & Hph & Hrest) H5 H6] Hh. split; try done. exists R, D. split; [|done].
  destruct Hph as [? ? ? ? Hf|k|k|k todo errs|p0 p1 q0 q1]; [by apply ph_free|by apply (ph_store _ _ _ _ k)|congruence..].
Qed.

(** C34: cleanups run once, and in order.  However registrations and calls of [Run]
    interleave, no function is called twice; once a [Run] has returned the functions
    with priority and then the others have been called, each group in the reverse
    order of registration, all calls of [Run] return the errors of those functions
    joined in that order, and every registration that had returned before [Run] set [hasRun] has
    had its function called. *)
Theorem Cleanup_runs_once ls c ks c' :
  run_steps step NewCleanup ls = Some c → hasRun c = false → run_steps step c ks = Some c' →
  NoDup (executed c') ∧
  (once c' = OnceDone →
    (∃ p1 q1 ps qs, priorityCleanup c' = ps ++ p1 ∧ cleanup c' = qs ++ q1 ∧ sublist (reverse ps ++ reverse qs) (executed c') ∧
      c_error c' = omap result (reverse ps ++ reverse qs)) ∧
    (∀ k err, runners c' !! k = Some (RunReturned err) → err = c_error c') ∧
    (∀ i, a_pc <$> adders c !! i = Some AddReturned → i ∈ executed c')).
Proof.
  intros Hr Hh Hr'. pose proof (cleanup_run_inv _ _ _ _ _ start_inv Hr) as Hi.
  pose proof (cleanup_run_inv _ _ _ _ _ (inv_from_here c Hi Hh) Hr') as [H1 H2 H3 (R & D & Hph & He & Hsub & Hnd & HD & HD0) H5 H6]. split.
  - rewrite He. apply NoDup_app. split_and!; [by eapply run_R_nodup| |done]. intros i HiR HiD. destruct (HD i HiD) as [Hx _]. apply Hx. by eapply run_R_registered.
  - intros Ho. destruct Hph as [|k|k|k todo errs|ps p1 qs q1 ? ? ? Hp Hc -> HP HC Herr Hf]; try congruence. split_and!.
    + by exists p1, q1, ps, qs.
    + intros k err Hk. destruct (Hf k _ Hk) as [?|[= ->]]; done.
    + intros i Hret. destruct (ci_all _ _ _ Hi i Hret) as [Hreg|Hex].
      * rewrite He. apply elem_of_app; left. unfold registered in Hreg. apply elem_of_app in Hreg as [Hreg|Hreg]; apply elem_of_app; [left|right];
          rewrite elem_of_reverse; [destruct HP as [x ->]|destruct HC as [x ->]]; apply elem_of_app; by left.
      * destruct (ci_phase _ _ _ Hi) as (R0 & D0 & Hph0 & He0 & _ & _ & _ & HD00). rewrite He0, (HD00 Hh), app_nil_r in Hex.
        pose proof (run_R_registered _ _ _ _ _ Hph0 Hex) as Hreg. rewrite He. apply elem_of_app; left.
        unfold registered in Hreg. apply elem_of_app in Hreg as [Hreg|Hreg]; apply elem_of_app; [left|right];
          rewrite elem_of_reverse; [destruct HP as [x ->]|destruct HC as [x ->]]; apply elem_of_app; by left.
Qed.
End proofs.

Section witnesses.
Definition ex_result (i : nat) : option nat := if decide (i = 1%nat) then Some 7%nat else None.
Definition ex_before : list cleanup_label := [CAdd false; CAdder 0; CAdder 0; CAdd false; CAdder 1; CAdder 1; CAdd true; CAdder 2; CAdder 2].
Definition ex_after : list cleanup_label := [CRun; CRunner 0; CRunner 0; CRunner 0; CRunner 0; CRunner 0; CRunner 0; CRunner 0].
Definition ex_state (ls : list cleanup_label) : cleanup_sys := default NewCleanup (run_steps (cleanup_step ex_result) NewCleanup ls).
Lemma Cleanup_runs_once_witness : executed (ex_state (ex_before ++ ex_after)) = [2; 1; 0]%nat ∧ c_error (ex_state (ex_before ++ ex_after)) = [7%nat] ∧
  0%nat ∈ executed (ex_state (ex_before ++ ex_after)).
Proof.
  split; [by vm_compute|]. split; [by vm_compute|].
  assert (run_steps (cleanup_step ex_result) NewCleanup ex_before = Some (ex_state ex_before)) as H1 by by vm_compute.
  assert (run_steps (cleanup_step ex_result) (ex_state ex_before) ex_after = Some (ex_state (ex_before ++ ex_after))) as H2 by by vm_compute.
  destruct (Cleanup_runs_once ex_result ex_before _ ex_after _ H1 ltac:(by vm_compute) H2) as [_ Hd].
  destruct Hd as (_ & _ & Hall); [by vm_compute|]. apply Hall. by vm_compute.
Defined.
(** A registration that has read [hasRun] before [Run] sets it, and appends after [Run]
    has gone through the lists, is never called. *)
Definition ex_late : list cleanup_label := [CAdd false; CAdder 0; CRun; CRunner 0; CRunner 0; CRunner 0; CRunner 0; CAdder 0].
Example Cleanup_loses_late_add : once (ex_state ex_late) = OnceDone ∧ a_pc <$> adders (ex_state ex_late) !! 0%nat = Some AddReturned ∧
  executed (ex_state ex_late) = [].
Proof. by vm_compute. Qed.
End witnesses.
