(* ===== verification/Batcher.v ===== *)
(** * Batching of rows

    packages/clickhouse/pkg/batcher: [Push] puts items into a bounded channel, and the
    goroutine that [Start] begins ([processBatches]) collects them into batches of at
    most [MaxBatchSize], which it passes to [Func] when they are full or when
    [MaxDelay] has passed since the last flush, and when [Stop] closes the channel.
    A step is one [Push], one pass of the loop, or a part of [Stop].  Times are
    nanoseconds of a monotonic clock that the labels carry. *)
From S2P Require Import Prelude.

Definition defaultQueueSize : Z := 8 * 1024.
Definition defaultMaxBatchSize : Z := 64 * 1024.
Definition defaultMaxDelay : Z := 100 * 1000000.

(** ** Batcher *)
Record BatcherOptions := mkOptions { MaxBatchSize : Z; MaxDelay : Z; QueueSize : Z }.
Inductive batcher_error := ErrBatcherAlreadyStarted | ErrBatcherNotStarted | ErrFuncNotSet.
(** [NewBatcher]; [fn] is whether the function is set. *)
Definition NewBatcher (fn : bool) (cfg : BatcherOptions) : res batcher_error BatcherOptions :=
  if fn then Ok (mkOptions (if MaxBatchSize cfg <=? 0 then defaultMaxBatchSize else MaxBatchSize cfg)
    (if MaxDelay cfg <=? 0 then defaultMaxDelay else MaxDelay cfg) (if QueueSize cfg <=? 0 then defaultQueueSize else QueueSize cfg))
  else Err ErrFuncNotSet.

(** Where the loop of [processBatches] is: about to receive without blocking, in the
    blocking receive of an empty batch, in the receive with a timer, at the test at its
    end, or returned ([close(b.doneCh)]). *)
Inductive batch_pc := LSelect | LReceive | LTimer | LFlush | LReturned.
#[export] Instance batch_pc_eq_dec : EqDecision batch_pc.
Proof. solve_decision. Defined.

Section batcher.
Context {T : Type} (opts : BatcherOptions).

Record worker := mkWorker { loop_at : batch_pc; batch : list T; lastPushTime : Z }.
(** A channel that has been made: its items and whether it is closed. *)
Record channel := mkChan { items : list T; ch_closed : bool }.
(** [ch] is [b.ch] with the goroutine that reads it; [stopping] is a call of [Stop] that
    waits for [doneCh]; [calls] are the batches passed to [Func]. *)
Record batcher := mkBatcher { ch : option (channel * worker); stopping : bool; batches : list (list T); accepted : list T }.
Definition new_batcher : batcher := mkBatcher None false [] [].

(** [call]: [Func] is not called with an empty batch. *)
Definition batch_call (b : list T) (bs : list (list T)) : list (list T) := match b with [] => bs | _ => bs ++ [b] end.

Definition Start (b : batcher) (now : Z) : res batcher_error batcher :=
  match ch b with
  | Some _ => Err ErrBatcherAlreadyStarted
  | None => Ok (mkBatcher (Some (mkChan [] false, mkWorker LSelect [] now)) (stopping b) (batches b) (accepted b))
  end.
(** A send on a closed channel panics. *)
Definition Push (b : batcher) (x : T) : res batcher_error (bool * batcher) :=
  match ch b with
  | None => Err ErrBatcherNotStarted
  | Some (c, w) =>
      if ch_closed c then Panic
      else if Z.of_nat (length (items c)) <? QueueSize opts
      then Ok (true, mkBatcher (Some (mkChan (items c ++ [x]) false, w)) (stopping b) (batches b) (accepted b ++ [x]))
      else Ok (false, b)
  end.
(** The first part of [Stop]; a second close panics. *)
Definition Stop (b : batcher) : res batcher_error batcher :=
  match ch b with
  | None => Err ErrBatcherNotStarted
  | Some (c, w) => if ch_closed c then Panic else Ok (mkBatcher (Some (mkChan (items c) true, w)) true (batches b) (accepted b))
  end.
Definition QueueLen (b : batcher) : Z := match ch b with Some (c, _) => Z.of_nat (length (items c)) | None => 0 end.

(** [case batchedItem, ok = <-ch]: an item, or the end; [None] when the receive blocks. *)
Definition receive (c : channel) (w : worker) (bs : list (list T)) : option (channel * worker * list (list T)) :=
  match items c with
  | x :: xs => Some (mkChan xs (ch_closed c), mkWorker LFlush (batch w ++ [x]) (lastPushTime w), bs)
  | [] => if ch_closed c then Some (c, mkWorker LReturned (batch w) (lastPushTime w), batch_call (batch w) bs) else None
  end.
(** One step of the loop at time [now]; [fires] is whether the timer's channel is chosen. *)
Definition processBatches (c : channel) (w : worker) (bs : list (list T)) (now : Z) (fires : bool) : option (channel * worker * list (list T)) :=
  match loop_at w with
  | LSelect =>
      match receive c w bs with
      | Some r => Some r
      | None =>
          match batch w with
          | [] => Some (c, mkWorker LReceive [] (lastPushTime w), bs)
          | _ => Some (c, mkWorker (if 0 <? MaxDelay opts - (now - lastPushTime w) then LTimer else LFlush) (batch w) (lastPushTime w), bs)
          end
      end
  | LReceive => receive c w bs
  | LTimer => if fires then Some (c, mkWorker LFlush (batch w) (lastPushTime w), bs) else receive c w bs
  | LFlush =>
      if (MaxBatchSize opts <=? Z.of_nat (length (batch w))) || (MaxDelay opts <? now - lastPushTime w)
      then Some (c, mkWorker LSelect [] now, batch_call (batch w) bs)
      else Some (c, mkWorker LSelect (batch w) (lastPushTime w), bs)
  | LReturned => None
  end.

Inductive batcher_label := BStart (now : Z) | BPush (x : T) | BLoop (now : Z) (fires : bool) | BStop | BStopped.
(** A call that is refused changes nothing; [Err] is a step that cannot be taken. *)
Definition batcher_step (b : batcher) (l : batcher_label) : res () batcher :=
  match l with
  | BStart now => match Start b now with Ok b' => Ok b' | Err _ => Ok b | Panic => Panic end
  | BPush x => match Push b x with Ok (_, b') => Ok b' | Err _ => Ok b | Panic => Panic end
  | BStop => match Stop b with Ok b' => Ok b' | Err _ => Ok b | Panic => Panic end
  | BLoop now fires =>
      match ch b with
      | Some (c, w) =>
          match processBatches c w (batches b) now fires with
          | Some (c, w, bs) => Ok (mkBatcher (Some (c, w)) (stopping b) bs (accepted b))
          | None => Err ()
          end
      | None => Err ()
      end
  | BStopped =>
      match ch b with
      | Some (c, w) => if stopping b && bool_decide (loop_at w = LReturned) then Ok (mkBatcher None false (batches b) (accepted b)) else Err ()
      | None => Err ()
      end
  end.
Fixpoint batcher_run (b : batcher) (ls : list batcher_label) : res () batcher :=
  match ls with
  | [] => Ok b
  | l :: ls => b' ← batcher_step b l; batcher_run b' ls
  end.
End batcher.

(** ** What the batches contain *)
Section proofs.
Context {T : Type} (opts : BatcherOptions).
Context (HM : 0 < MaxBatchSize opts) (HQ : 0 < QueueSize opts).
Implicit Types (b : batcher (T := T)) (c : channel (T := T)) (w : worker (T := T)).
Notation step := (batcher_step (T := T) opts).
Notation run := (batcher_run (T := T) opts).
Notation loop := (processBatches (T := T) opts).

(** The items that were accepted and not yet passed to [Func], oldest first. *)
Definition pending c w : list T := (if decide (loop_at w = LReturned) then [] else batch w) ++ items c.
(** The batch has room where a receive may follow; an empty batch waits without a timer. *)
Definition batch_room w : Prop :=
  match loop_at w with LReturned => True | LFlush => Z.of_nat (length (batch w)) <= MaxBatchSize opts | _ => Z.of_nat (length (batch w)) < MaxBatchSize opts end.
Record loop_inv (accepted_items : list T) c w (bs : list (list T)) : Prop := {
  li_order : accepted_items = concat bs ++ pending c w;
  li_sizes : Forall (λ l, 0 < Z.of_nat (length l) <= MaxBatchSize opts) bs;
  li_room : batch_room w;
  li_queue : Z.of_nat (length (items c)) <= QueueSize opts;
  li_done : loop_at w = LReturned → ch_closed c = true ∧ items c = []
}.
Definition batcher_inv b : Prop :=
  match ch b with
  | Some (c, w) => loop_inv (accepted b) c w (batches b) ∧ ch_closed c = stopping b
  | None => stopping b = false ∧ accepted b = concat (batches b) ∧ Forall (λ l, 0 < Z.of_nat (length l) <= MaxBatchSize opts) (batches b)
  end.

Lemma concat_batch_call l (bs : list (list T)) : concat (batch_call l bs) = concat bs ++ l.
Proof. destruct l; simpl; [by rewrite app_nil_r|]. rewrite concat_app. simpl. by rewrite app_nil_r. Qed.
Lemma batch_call_sizes l (bs : list (list T)) : Z.of_nat (length l) <= MaxBatchSize opts →
  Forall (λ l, 0 < Z.of_nat (length l) <= MaxBatchSize opts) bs → Forall (λ l, 0 < Z.of_nat (length l) <= MaxBatchSize opts) (batch_call l bs).
Proof. intros Hl Hbs. destruct l as [|x l]; [done|]. apply Forall_app. split; [done|]. apply Forall_singleton. simpl in *. lia. Qed.
Lemma pending_running c w : loop_at w ≠ LReturned → pending c w = batch w ++ items c.
Proof. intros. unfold pending. by rewrite decide_False. Qed.

Lemma receive_inv ac c w bs c' w' bs' : loop_at w ≠ LReturned → Z.of_nat (length (batch w)) < MaxBatchSize opts →
  loop_inv ac c w bs → receive c w bs = Some (c', w', bs') → loop_inv ac c' w' bs'.
Proof.
  intros Hpc Hlt [H1 H2 H3 H4 H5]. rewrite pending_running in H1 by done. unfold receive.
  destruct (items c) as [|x xs] eqn:Hi; [destruct (ch_closed c) eqn:Hc|]; intros ?; simplify_eq/=.
  - split; [|apply batch_call_sizes; [lia|done]|done|rewrite Hi; simpl; lia|done].
    unfold pending. simpl. rewrite concat_batch_call, Hi. by rewrite !app_nil_r.
  - split; [rewrite pending_running by done; simpl; by rewrite <- app_assoc|done|unfold batch_room; simpl; rewrite length_app; simpl; lia|simpl in *; lia|done].
Qed.
Lemma loop_step_inv ac c w bs now fires c' w' bs' : loop_inv ac c w bs → loop c w bs now fires = Some (c', w', bs') → loop_inv ac c' w' bs'.
Proof.
  intros Hi. pose proof (li_room _ _ _ _ Hi) as Hroom. unfold batch_room in Hroom.
  destruct (decide (loop_at w = LReturned)) as [Hret|Hrun]; [unfold processBatches; by rewrite Hret|].
  assert (∀ pc, pc ≠ LReturned → Z.of_nat (length (batch w)) <= MaxBatchSize opts → (pc ≠ LFlush → Z.of_nat (length (batch w)) < MaxBatchSize opts) →
    loop_inv ac c (mkWorker pc (batch w) (lastPushTime w)) bs) as Hmove.
  { intros pc Hpc Hle Hlt. destruct Hi as [H1 H2 H3 H4 H5]. rewrite pending_running in H1 by done.
    split; [by rewrite pending_running|done|unfold batch_room; simpl; destruct pc; naive_solver lia|done|done]. }
  unfold processBatches. destruct (loop_at w) eqn:Hpc; try done.
  - destruct (receive c w bs) as [[[c1 w1] bs1]|] eqn:Hr; [intros; simplify_eq/=; eapply receive_inv; eauto; congruence|].
    destruct (batch w) as [|x l] eqn:Hb; rewrite ?Hb in *; intros ?; simplify_eq/=; [apply Hmove; done || lia|]. case_match; apply Hmove; done || lia.
  - intros; eapply receive_inv; eauto; congruence.
  - destruct fires; [|intros; eapply receive_inv; eauto; congruence]. intros; simplify_eq/=. apply Hmove; done || lia.
  - destruct (_ || _) eqn:Ht; intros ?; simplify_eq/=.
    + destruct Hi as [H1 H2 H3 H4 H5]. rewrite pending_running in H1 by congruence. split; [|by apply batch_call_sizes|unfold batch_room; simpl; lia|done|done].
      rewrite pending_running by done. simpl. by rewrite concat_batch_call, <- app_assoc.
    + apply orb_false_iff in Ht as [?%Z.leb_gt _]. apply Hmove; done || lia.
Qed.
Lemma loop_closed c w bs now fires c' w' bs' : loop c w bs now fires = Some (c', w', bs') → ch_closed c' = ch_closed c.
Proof. unfold processBatches, receive. intros. repeat case_match; simplify_eq/=; done. Qed.
Lemma Push_inv b x r b' : batcher_inv b → Push opts b x = Ok (r, b') →
  batcher_inv b' ∧ stopping b' = stopping b ∧ accepted b' = accepted b ++ (if r then [x] else []) ∧ (r = false → b' = b).
Proof.
  unfold batcher_inv, Push. destruct (ch b) as [[c w]|] eqn:Hch; [|done]. intros [[H1 H2 H3 H4 H5] Hs].
  destruct (ch_closed c) eqn:Hc; [done|]. destruct (Z.ltb_spec (Z.of_nat (length (items c))) (QueueSize opts)) as [Hlt|]; intros; simplify_eq/=.
  - split_and!; [|done|done|done|done]. destruct (decide (loop_at w = LReturned)) as [?|Hw]; [by destruct H5|].
    split; [|done|done|simpl; rewrite length_app; simpl; lia|naive_solver].
    rewrite pending_running in H1 |- * by done. rewrite H1. simpl. by rewrite !app_assoc.
  - rewrite Hch, app_nil_r. split; [|done]. split; [split; naive_solver congruence|congruence].
Qed.
Lemma batcher_step_inv b l b' : batcher_inv b → step b l = Ok b' → batcher_inv b'.
Proof.
  intros Hi. destruct l as [now|x|now fires| |]; simpl.
  - unfold Start. destruct (ch b) as [[c w]|] eqn:Hch; intros; simplify_eq/=; [done|]. unfold batcher_inv in *. rewrite Hch in Hi.
    destruct Hi as (Hs & Ha & Hb). simpl. split; [|done]. split; [by rewrite pending_running, !app_nil_r|done|unfold batch_room; simpl; lia|simpl; lia|done].
  - destruct (Push opts b x) as [[r b1]|?|] eqn:Hp; intros; simplify_eq/=; [|done]. by apply Push_inv in Hp as [? _].
  - unfold batcher_inv in Hi. destruct (ch b) as [[c w]|] eqn:Hch; [|done]. destruct Hi as [Hi Hs].
    destruct (loop c w (batches b) now fires) as [[[c1 w1] bs1]|] eqn:Hl; intros; simplify_eq/=. unfold batcher_inv. simpl.
    split; [by eapply loop_step_inv|]. rewrite <- Hs. by eapply loop_closed.
  - unfold Stop, batcher_inv in *. destruct (ch b) as [[c w]|] eqn:Hch; [|by intros; simplify_eq; rewrite Hch].
    destruct Hi as [[H1 H2 H3 H4 H5] Hs]. destruct (ch_closed c) eqn:Hc; intros; simplify_eq/=. split; [|done]. split; naive_solver.
  - unfold batcher_inv in *. destruct (ch b) as [[c w]|] eqn:Hch; [|done]. destruct Hi as [[H1 H2 H3 H4 H5] Hs].
    destruct (stopping b); [|done]. destruct (bool_decide_reflect (loop_at w = LReturned)) as [Hw|]; intros; simplify_eq/=.
    destruct (H5 Hw) as [_ Hi]. split_and!; [done| |done]. unfold pending in H1. rewrite decide_True, Hi, app_nil_r in H1 by done. done.
Qed.
Lemma batcher_run_inv ls b b' : batcher_inv b → run b ls = Ok b' → batcher_inv b'.
Proof.
  revert b. induction ls as [|l ls IH]; intros b Hi Hr; simplify_eq/=; [done|].
  destruct (step b l) as [b1|?|] eqn:Hl; simplify_eq/=. eapply IH; [|done]. by eapply batcher_step_inv.
Qed.
Lemma run_app b ls ks : run b (ls ++ ks) = match run b ls with Ok b' => run b' ks | Err e => Err e | Panic => Panic end.
Proof. revert b. induction ls as [|l ls IH]; intros b; simpl; [done|]. destruct (step b l); simpl; done. Qed.
Lemma new_inv : batcher_inv new_batcher.
Proof. done. Qed.

(** From a new batcher, by any interleaving of calls of Push, passes of the loop
    and stops: the batches passed to Func, one after the other, are the accepted items in
    the order of their acceptance, save the newest ones, which are in the loop's buffer
    or in the queue; every batch has at least one and at most MaxBatchSize items; and the
    queue never holds more than QueueSize. *)
Theorem Batcher_batches ls b : run new_batcher ls = Ok b →
  (∃ rest, accepted b = concat (batches b) ++ rest ∧ Z.of_nat (length rest) <= MaxBatchSize opts + QueueSize opts ∧ (ch b = None → rest = [])) ∧
  Forall (λ l, 0 < Z.of_nat (length l) <= MaxBatchSize opts) (batches b) ∧ 0 <= QueueLen b <= QueueSize opts.
Proof.
  intros Hi%(batcher_run_inv _ _ _ new_inv). unfold batcher_inv, QueueLen in *. destruct (ch b) as [[c w]|].
  - destruct Hi as [[H1 H2 H3 H4 H5] _]. split_and!; [|done|lia|done]. exists (pending c w). split_and!; [done| |done].
    unfold pending, batch_room in *. rewrite length_app. case_decide as Hw; simpl; [lia|]. destruct (loop_at w); lia || congruence.
  - destruct Hi as (_ & H1 & H2). split_and!; [|done|lia|lia]. exists []. rewrite app_nil_r. split_and!; [done|simpl; lia|done].
Qed.

(** C36: What Push answers in a reachable state.  It panics exactly when a Stop waits
    for the loop; before Start it returns ErrBatcherNotStarted; it refuses the item
    without an error, and changes nothing, exactly when QueueSize items wait; and in
    every other case the item is the newest accepted one.  A second Stop panics too. *)
Theorem Batcher_refusals ls b x : run new_batcher ls = Ok b →
  (Push opts b x = Panic ↔ stopping b = true) ∧ (Stop b = Panic ↔ stopping b = true) ∧
  (∀ e, Push opts b x = Err e ↔ ch b = None ∧ e = ErrBatcherNotStarted) ∧
  (∀ b', Push opts b x = Ok (false, b') ↔ b' = b ∧ ch b ≠ None ∧ stopping b = false ∧ QueueLen b = QueueSize opts) ∧
  (∀ b', Push opts b x = Ok (true, b') → accepted b' = accepted b ++ [x] ∧ QueueLen b' = QueueLen b + 1).
Proof.
  intros Hi%(batcher_run_inv _ _ _ new_inv). unfold batcher_inv, QueueLen, Push, Stop in *. destruct (ch b) as [[c w]|] eqn:Hch.
  - destruct Hi as [[H1 H2 H3 H4 H5] Hs]. rewrite <- Hs. destruct (ch_closed c) eqn:Hc; [naive_solver|].
    destruct (Z.ltb_spec (Z.of_nat (length (items c))) (QueueSize opts)); split_and!; try naive_solver lia.
    intros b' ?; simplify_eq/=. rewrite length_app. simpl. split; [done|lia].
  - destruct Hi as [-> _]. naive_solver.
Qed.

(** *** Stop *)
(** How many passes the loop has left when the channel is closed. *)
Definition passes_left c w : nat :=
  match loop_at w with
  | LReturned => 0
  | LSelect | LReceive => 2 * length (items c) + 1
  | LFlush => 2 * length (items c) + 2
  | LTimer => 2 * length (items c) + 3
  end.
(** A closed channel blocks no receive, and every pass lowers [passes_left]. *)
Lemma loop_closing c w bs now fires : ch_closed c = true → loop_at w ≠ LReturned →
  ∃ c' w' bs', loop c w bs now fires = Some (c', w', bs') ∧ (S (passes_left c' w') <= passes_left c w)%nat.
Proof.
  intros Hc Hw. unfold processBatches, receive, passes_left. rewrite Hc.
  destruct (loop_at w), (items c) as [|x xs] eqn:Hi, fires; try done; repeat case_match; simpl in *; do 3 eexists;
    (split; [reflexivity|]); simpl; rewrite ?Hi; simpl; lia.
Qed.
Lemma loop_returns (now : nat → Z) (fires : nat → bool) n i b c w : batcher_inv b → ch b = Some (c, w) → stopping b = true → (passes_left c w ≤ n)%nat →
  ∃ m b' c' w', (m ≤ n)%nat ∧ run b ((λ j, BLoop (now j) (fires j)) <$> seq i m) = Ok b' ∧ ch b' = Some (c', w') ∧
    loop_at w' = LReturned ∧ accepted b' = accepted b ∧ stopping b' = true.
Proof.
  revert i b c w. induction n as [|n IH]; intros i b c w Hinv Hch Hs Hle; (destruct (decide (loop_at w = LReturned)) as [Hw|Hw];
    [exists 0%nat, b, c, w; split_and!; done || lia|]).
  { exfalso. unfold passes_left in Hle. destruct (loop_at w); lia || done. }
  assert (ch_closed c = true) as Hc. { unfold batcher_inv in Hinv. rewrite Hch in Hinv. destruct Hinv as [_ ->]. done. }
  destruct (loop_closing c w (batches b) (now i) (fires i) Hc Hw) as (c1 & w1 & bs1 & Hl & Hm).
  set (b1 := mkBatcher (Some (c1, w1)) (stopping b) bs1 (accepted b)).
  assert (step b (BLoop (now i) (fires i)) = Ok b1) as Hb1 by (simpl; by rewrite Hch, Hl).
  destruct (IH (S i) b1 c1 w1) as (m & b' & c' & w' & ? & Hr & ? & ? & ? & ?); [by eapply batcher_step_inv|done|done|lia|].
  exists (S m), b', c', w'. split_and!; [lia| |done..]. cbn [seq fmap list_fmap batcher_run]. rewrite Hb1. exact Hr.
Qed.

(** C33: Stop ends and loses nothing.  Once Stop has closed the channel, whatever the
    clock shows and whichever ready case every select takes, the loop never blocks and
    returns after at most two passes for every queued item and three more; Stop can then
    finish, and the batches passed to Func are exactly the accepted items, in order. *)
Theorem Batcher_Stop_delivers ls b (now : nat → Z) (fires : nat → bool) : run new_batcher ls = Ok b → stopping b = true →
  ∃ n b', Z.of_nat n <= 2 * QueueLen b + 3 ∧ run b (((λ j, BLoop (now j) (fires j)) <$> seq 0 n) ++ [BStopped]) = Ok b' ∧
    ch b' = None ∧ stopping b' = false ∧ concat (batches b') = accepted b.
Proof.
  intros Hi%(batcher_run_inv _ _ _ new_inv) Hs. destruct (ch b) as [[c w]|] eqn:Hch; [|unfold batcher_inv in Hi; rewrite Hch in Hi; destruct Hi; congruence].
  destruct (loop_returns now fires (passes_left c w) 0 b c w Hi Hch Hs) as (m & b1 & c1 & w1 & Hm & Hr & Hc1 & Hw1 & Ha & Hs1); [lia|].
  exists m, (mkBatcher None false (batches b1) (accepted b1)). split_and!; [| |done|done|].
  - unfold QueueLen, passes_left in *. rewrite Hch. destruct (loop_at w); lia.
  - rewrite run_app, Hr. simpl. rewrite Hc1, Hs1. by rewrite bool_decide_eq_true_2.
  - simpl. pose proof (batcher_run_inv _ _ _ Hi Hr) as Hi1. unfold batcher_inv in Hi1. rewrite Hc1 in Hi1. destruct Hi1 as [[H1 _ _ _ H5] _].
    destruct (H5 Hw1) as [_ Hit]. unfold pending in H1. rewrite decide_True, Hit, app_nil_r in H1 by done. congruence.
Qed.
End proofs.

(** ** Concrete runs *)
Section witnesses.
Definition ex_opts : BatcherOptions := mkOptions 2 10 3.
Definition ex_run (ls : list (batcher_label (T := nat))) : batcher := match batcher_run ex_opts new_batcher ls with Ok b => b | _ => new_batcher end.
(** Five pushes, of which the fourth finds the queue full; two passes; then the fifth. *)
Definition ex_pushes : list (batcher_label (T := nat)) :=
  [BStart 0; BPush 1; BPush 2; BPush 3; BPush 4; BLoop 1 false; BLoop 1 false; BPush 5; BLoop 2 false; BLoop 2 false]%nat.
Lemma Batcher_batches_witness : batches (ex_run ex_pushes) = [[1; 2]]%nat ∧ accepted (ex_run ex_pushes) = [1; 2; 3; 5]%nat ∧ 0 <= QueueLen (ex_run ex_pushes) <= 3.
Proof.
  split; [by vm_compute|]. split; [by vm_compute|].
  destruct (Batcher_batches ex_opts ltac:(done) ltac:(done) ex_pushes (ex_run ex_pushes) ltac:(by vm_compute)) as (_ & _ & H). exact H.
Defined.
Definition ex_full : list (batcher_label (T := nat)) := [BStart 0; BPush 1; BPush 2; BPush 3]%nat.
Lemma Batcher_refusals_witness : Push ex_opts (ex_run ex_full) 4%nat = Ok (false, ex_run ex_full) ∧ Push ex_opts (ex_run (ex_full ++ [BStop])) 4%nat = Panic.
Proof.
  split.
  - destruct (Batcher_refusals ex_opts ltac:(done) ltac:(done) ex_full (ex_run ex_full) 4%nat ltac:(by vm_compute)) as (_ & _ & _ & H & _).
    apply H. by vm_compute.
  - destruct (Batcher_refusals ex_opts ltac:(done) ltac:(done) (ex_full ++ [BStop]) (ex_run (ex_full ++ [BStop])) 4%nat ltac:(by vm_compute)) as [H _].
    apply H. by vm_compute.
Defined.
Lemma Batcher_Stop_delivers_witness : ∃ n b', Z.of_nat n <= 9 ∧ batcher_run ex_opts (ex_run (ex_full ++ [BStop])) (((λ j, BLoop (Z.of_nat j) true) <$> seq 0 n) ++ [BStopped]) = Ok b' ∧
  concat (batches b') = [1; 2; 3]%nat.
Proof.
  destruct (Batcher_Stop_delivers ex_opts ltac:(done) ltac:(done) (ex_full ++ [BStop]) (ex_run (ex_full ++ [BStop])) Z.of_nat (λ _, true)
    ltac:(by vm_compute) ltac:(by vm_compute)) as (n & b' & Hn & Hr & _ & _ & Hc).
  exists n, b'. split; [exact Hn|]. split; [exact Hr|exact Hc].
Defined.
(** [NewBatcher] makes both limits positive, which the theorems assume. *)
Lemma NewBatcher_positive fn cfg opts : NewBatcher fn cfg = Ok opts → 0 < MaxBatchSize opts ∧ 0 < MaxDelay opts ∧ 0 < QueueSize opts.
Proof. unfold NewBatcher. destruct fn; [|done]. intros; simplify_eq/=. unfold defaultMaxBatchSize, defaultMaxDelay, defaultQueueSize. split_and!; case_match; lia. Qed.
End witnesses.
