(* ===== verification/RedisCache.v ===== *)
(** * Caches of database rows in Redis

    packages/shared/pkg/cache/redis.go: a cache that all API instances share.
    [GetOrSet] reads Redis and, on a miss, joins the flight of its instance for the key
    (singleflight), which calls the data callback under the lock of the key and writes
    the value back; a hit that is old enough starts a refresh in the background;
    [Delete] invalidates under the same lock, [DeleteByPrefix] without one.  Flights,
    refreshes and deletions are [task]s; a step is one command, one access to a
    singleflight group or one read of the database.  The JSON of a value is taken to
    read back as the value, and a command takes effect, if at all, before the client
    stops waiting for it.  [dbs] is the history of the database, so a version is a position in it; versions
    in the tasks and [floors] are only there to state the theorems. *)
From S2P Require Import Prelude Redis.

Definition redisNoPTTL : Z := -1.
Definition RedisRefreshIntervalOff : Z := 0.

Inductive task_kind := KFetch | KRefresh | KDelete.
#[export] Instance task_kind_eq_dec : EqDecision task_kind.
Proof. solve_decision. Defined.

Section cache.
Context {V Er D K : Type} `{RedisOps V K}.
(** The configuration; [extract] is ExtractKeyFunc. *)
Context (RedisPrefix : string) (cacheTTL RefreshInterval : Z) (extract : option (V → string)).
(** The data callback of the key, given the database it reads, and what it stores itself
    with [Set] when it has found a value. *)
Context (dataCallback : D → string → Er + V) (also : string → V → list (string * V)).

Inductive task_pc :=
  | TStart                                                   (** the refresh goroutine, before its [Do] *)
  | TLock
  | TCheck (locked : bool)
  | TCall (locked : bool)
  | TAlso (locked : bool) (n : nat) (v : V) (todo : list (string * V))
  | TStore (n : nat) (v : V)
  | TDel (locked : bool)
  | TRelease (locked : bool) (out : option (Er + V))
  | TEnd (out : option (Er + V))                             (** the lock is released, the singleflight entry still there *)
  | TDone (out : option (Er + V)).
Record task := mkTask { t_kind : task_kind; t_inst : nat; t_key : string; t_pc : task_pc }.
Inductive call_pc := CFast | CJoin | CWait (t : nat) | CReturned (r : Er + V).
Record get_call := mkGet { g_inst : nat; g_key : string; g_pc : call_pc }.
(** [DeleteByPrefix]: the scan, and the pipeline of deletions; [bad] is whether one failed. *)
Inductive sweep := SScan (pfx : string) (keys : list string) | SDel (todo keys : list string) (bad : bool) | SDone (deleted : list string).
Record cache_sys := mkCacheSys {
  ks : K; dbs : list D; lock_of : gmap string nat; tasks : list task; gets : list get_call; sweeps : list sweep;
  floors : gmap string nat                                   (** the version at the last deletion under the lock *)
}.
Definition with_ks (s : K) (y : cache_sys) : cache_sys := mkCacheSys s (dbs y) (lock_of y) (tasks y) (gets y) (sweeps y) (floors y).
Definition with_lock (h : gmap string nat) (y : cache_sys) : cache_sys := mkCacheSys (ks y) (dbs y) h (tasks y) (gets y) (sweeps y) (floors y).
Definition with_tasks (l : list task) (y : cache_sys) : cache_sys := mkCacheSys (ks y) (dbs y) (lock_of y) l (gets y) (sweeps y) (floors y).
Definition with_gets (l : list get_call) (y : cache_sys) : cache_sys := mkCacheSys (ks y) (dbs y) (lock_of y) (tasks y) l (sweeps y) (floors y).
Definition with_sweeps (l : list sweep) (y : cache_sys) : cache_sys := mkCacheSys (ks y) (dbs y) (lock_of y) (tasks y) (gets y) l (floors y).
Definition with_floor (k : string) (n : nat) (y : cache_sys) : cache_sys :=
  mkCacheSys (ks y) (dbs y) (lock_of y) (tasks y) (gets y) (sweeps y) (<[k := n]> (floors y)).
Definition put_task (t : nat) (tk : task) (pc : task_pc) (y : cache_sys) : cache_sys :=
  with_tasks (<[t := mkTask (t_kind tk) (t_inst tk) (t_key tk) pc]> (tasks y)) y.
Definition put_get (c : nat) (g : get_call) (pc : call_pc) (y : cache_sys) : cache_sys :=
  with_gets (<[c := mkGet (g_inst g) (g_key g) pc]> (gets y)) y.

Definition RedisKey (key : string) : string := RedisPrefix +:+ ":" +:+ key.
(** [getFromRedis]; [ok] is whether the pipeline succeeds. *)
Definition getFromRedis (s : K) (key : string) (ok : bool) : option V := if ok then GET s (RedisKey key) else None.
Definition setInRedis (r : reply) (key : string) (v : V) (s : K) : K := (send r (λ s, SET s (RedisKey key) v) s).1.
(** [handleRefresh]: whether a refresh is started. *)
Definition handleRefresh (remainingTTL : Z) : bool :=
  if remainingTTL =? redisNoPTTL then false
  else negb (RefreshInterval =? RedisRefreshIntervalOff) && (RefreshInterval <? cacheTTL - remainingTTL).
Definition storeKey (key : string) (v : V) : string := match extract with Some f => f v | None => key end.
(** What a task of a key writes when it has found [v]. *)
Definition stored (key : string) (v : V) : list (string * V) := also key v ++ [(storeKey key v, v)].

(** *** Singleflight *)
Definition in_flight (pc : task_pc) : bool := match pc with TStart | TDone _ => false | _ => true end.
Definition is_flight (kind : task_kind) (inst : nat) (key : string) (tk : task) : bool :=
  bool_decide (t_kind tk = kind) && bool_decide (t_inst tk = inst) && bool_decide (t_key tk = key) && in_flight (t_pc tk).
Definition flight (kind : task_kind) (inst : nat) (key : string) (l : list task) : option nat :=
  fst <$> list_find (λ tk, is_flight kind inst key tk = true) l.

(** *** GetOrSet *)
Definition get_fast (y : cache_sys) (c : nat) (g : get_call) (ok : bool) (remainingTTL : Z) : cache_sys :=
  match getFromRedis (ks y) (g_key g) ok with
  | Some v =>
      let y := if handleRefresh remainingTTL then with_tasks (tasks y ++ [mkTask KRefresh (g_inst g) (g_key g) TStart]) y else y in
      put_get c g (CReturned (inr v)) y
  | None => put_get c g CJoin y
  end.
Definition get_join (y : cache_sys) (c : nat) (g : get_call) : cache_sys :=
  match flight KFetch (g_inst g) (g_key g) (tasks y) with
  | Some t => put_get c g (CWait t) y
  | None => put_get c g (CWait (length (tasks y))) (with_tasks (tasks y ++ [mkTask KFetch (g_inst g) (g_key g) TLock]) y)
  end.

(** *** The tasks *)
Definition out_of (kind : task_kind) (r : Er + V) : option (Er + V) := match kind with KFetch => Some r | _ => None end.
(** After [acquireLock]: a refresh gives up without the lock. *)
Definition after_lock (kind : task_kind) (got : bool) : task_pc :=
  match kind with
  | KFetch => TCheck got
  | KRefresh => if got then TCall true else TDone None
  | KDelete => TDel got
  end.
(** When the callback has stored what it stores itself. *)
Definition after_call (kind : task_kind) (locked : bool) (n : nat) (v : V) (todo : list (string * V)) : task_pc :=
  match todo with
  | [] => if locked then TStore n v else TRelease locked (out_of kind (inr v))
  | _ => TAlso locked n v todo
  end.

Inductive cache_label :=
  | LGet (inst : nat) (key : string)
  | LFast (c : nat) (ok : bool) (remainingTTL : Z)
  | LJoin (c : nat)
  | LReturn (c : nat)
  | LDelete (inst : nat) (key : string)
  | LGo (t : nat)
  | LObtain (t : nat)
  | LRefused (t : nat)                   (** a refresh or a deletion gets no lock *)
  | LUnlocked (t : nat)                  (** a flight goes on without the lock *)
  | LCheck (t : nat) (ok : bool)
  | LCall (t : nat)
  | LSet (t : nat) (r : reply)
  | LDel (t : nat) (r : reply)
  | LRelease (t : nat) (ok : bool)
  | LEnd (t : nat)
  | LSweep (pfx : string)
  | LScan (i : nat) (batch : list string) (more : bool)
  | LPipe (i : nat) (r : reply)
  | LDb (d : D)                          (** the database changes *)
  | LExpire (key : string)               (** a key expires *)
  | LExpireLock (key : string)           (** a lock expires that its task has left *)
  | LLoseLock (key : string).            (** a lock expires while its task needs it *)

Definition task_step (y : cache_sys) (t : nat) (tk : task) (l : cache_label) : option cache_sys :=
  let key := t_key tk in
  match l, t_pc tk with
  | LGo _, TStart =>
      Some (put_task t tk (if flight (t_kind tk) (t_inst tk) key (tasks y) then TDone None else TLock) y)
  | LObtain _, TLock =>
      match lock_of y !! key with
      | None => Some (put_task t tk (after_lock (t_kind tk) true) (with_lock (<[key := t]> (lock_of y)) y))
      | Some _ => None
      end
  | LRefused _, TLock => if bool_decide (t_kind tk = KFetch) then None else Some (put_task t tk (after_lock (t_kind tk) false) y)
  | LUnlocked _, TLock => if bool_decide (t_kind tk = KFetch) then Some (put_task t tk (after_lock (t_kind tk) false) y) else None
  | LCheck _ ok, TCheck locked =>
      Some (put_task t tk (match getFromRedis (ks y) key ok with Some v => TRelease locked (out_of (t_kind tk) (inr v)) | None => TCall locked end) y)
  | LCall _, TCall locked =>
      d ← last (dbs y);
      Some (put_task t tk (match dataCallback d key with
        | inl e => TRelease locked (out_of (t_kind tk) (inl e))
        | inr v => after_call (t_kind tk) locked (length (dbs y) - 1) v (also key v)
        end) y)
  | LSet _ r, TAlso locked n v ((k', v') :: todo) =>
      Some (put_task t tk (after_call (t_kind tk) locked n v todo) (with_ks (setInRedis r k' v' (ks y)) y))
  | LSet _ r, TStore n v =>
      Some (put_task t tk (TRelease true (out_of (t_kind tk) (inr v))) (with_ks (setInRedis r (storeKey key v) v (ks y)) y))
  | LDel _ r, TDel locked =>
      let y' := with_ks (send r (λ s, DEL s (RedisKey key)) (ks y)).1 y in
      let y' := match locked, r with true, (RDone | RLost) => with_floor key (length (dbs y) - 1) y' | _, _ => y' end in
      Some (put_task t tk (TRelease locked None) y')
  | LRelease _ ok, TRelease locked out =>
      let held := locked && (ok : bool) && bool_decide (lock_of y !! key = Some t) in
      Some (put_task t tk (TEnd out) (if held then with_lock (delete key (lock_of y)) y else y))
  | LEnd _, TEnd out => Some (put_task t tk (TDone out) y)
  | _, _ => None
  end.

(** *** DeleteByPrefix *)
Definition sweep_step (y : cache_sys) (i : nat) (w : sweep) (l : cache_label) : option cache_sys :=
  match l, w with
  | LScan _ batch more, SScan pfx keys =>
      if forallb (String.prefix (RedisKey pfx)) batch then
        let keys := keys ++ batch in
        Some (with_sweeps (<[i := if more : bool then SScan pfx keys else match keys with [] => SDone [] | _ => SDel keys keys false end]> (sweeps y)) y)
      else None
  | LPipe _ r, SDel (k :: todo) keys bad =>
      let '(s, failed) := send r (λ s, DEL s k) (ks y) in
      Some (with_sweeps (<[i := SDel todo keys (bad || failed)]> (sweeps y)) (with_ks s y))
  | LPipe _ _, SDel [] keys bad =>
      let strip k := String.substring (String.length RedisPrefix + 1) (String.length k - (String.length RedisPrefix + 1)) k in
      Some (with_sweeps (<[i := SDone (if bad then [] else strip <$> keys)]> (sweeps y)) y)
  | _, _ => None
  end.
(** Whether a task holds the lock, or is to act under it. *)
Definition needs_lock (pc : task_pc) : bool :=
  match pc with TCheck l | TCall l | TAlso l _ _ _ | TDel l | TRelease l _ => l | TStore _ _ => true | _ => false end.

Definition cache_step (y : cache_sys) (l : cache_label) : option cache_sys :=
  match l with
  | LGet inst key => Some (with_gets (gets y ++ [mkGet inst key CFast]) y)
  | LFast c ok ttl => g ← gets y !! c; match g_pc g with CFast => Some (get_fast y c g ok ttl) | _ => None end
  | LJoin c => g ← gets y !! c; match g_pc g with CJoin => Some (get_join y c g) | _ => None end
  | LReturn c =>
      g ← gets y !! c;
      match g_pc g with
      | CWait t => tk ← tasks y !! t; match t_pc tk with TDone (Some r) => Some (put_get c g (CReturned r) y) | _ => None end
      | _ => None
      end
  | LDelete inst key => Some (with_tasks (tasks y ++ [mkTask KDelete inst key TLock]) y)
  | LGo t | LObtain t | LRefused t | LUnlocked t | LCheck t _ | LCall t | LSet t _ | LDel t _ | LRelease t _ | LEnd t =>
      tk ← tasks y !! t; task_step y t tk l
  | LSweep pfx => Some (with_sweeps (sweeps y ++ [SScan pfx []]) y)
  | LScan i _ _ | LPipe i _ => w ← sweeps y !! i; sweep_step y i w l
  | LDb d => Some (mkCacheSys (ks y) (dbs y ++ [d]) (lock_of y) (tasks y) (gets y) (sweeps y) (floors y))
  | LExpire key => Some (with_ks (DEL (ks y) (RedisKey key)) y)
  | LExpireLock key =>
      t ← lock_of y !! key; tk ← tasks y !! t;
      if needs_lock (t_pc tk) then None else Some (with_lock (delete key (lock_of y)) y)
  | LLoseLock key => Some (with_lock (delete key (lock_of y)) y)
  end.
Definition cache_start (s : K) (d : D) : cache_sys := mkCacheSys s [d] ∅ [] [] [] ∅.
End cache.

(** ** What Redis and the callers hold *)
Section proofs.
Context {V Er D K : Type} `{RedisLaws V K}.
Context (RedisPrefix : string) (cacheTTL RefreshInterval : Z) (extract : option (V → string)).
Context (dataCallback : D → string → Er + V) (also : string → V → list (string * V)).
Abbreviation cache_sys := (cache_sys (V := V) (Er := Er) (D := D) (K := K)).
Abbreviation task := (task (V := V) (Er := Er)).
Abbreviation RedisKey := (RedisKey RedisPrefix).
Abbreviation stored := (stored extract also).
Abbreviation step := (cache_step RedisPrefix cacheTTL RefreshInterval extract dataCallback also).
Implicit Types (y : cache_sys) (tk : task) (s : K) (t : nat) (k key : string) (v w : V).
(** Whether every lock is kept by the task that needs it, and the flights of a callback
    that stores by itself get theirs; what does not depend on the locks is proved for runs
    in which they fail, too. *)
Context (locks_hold : Prop).

(** Every string of the cache's keyspace holds a value. *)
Definition typed s : Prop := ∀ k, ∃ o, str_at (rview s) k = Some o.
(** [w] is what a task of [key] that read version [n] or a later one stores under [k]. *)
Definition stored_from y (n : nat) k w : Prop :=
  ∃ m d key v, (n ≤ m)%nat ∧ dbs y !! m = Some d ∧ dataCallback d key = inr v ∧ (k, w) ∈ stored key v.
Definition found y (m : nat) key v : Prop := ∃ d, dbs y !! m = Some d ∧ dataCallback d key = inr v.
(** An answer for a key: what the callback returned for some version, or a value stored under the key. *)
Definition answer_ok y key (r : Er + V) : Prop :=
  match r with
  | inl e => ∃ m d, dbs y !! m = Some d ∧ dataCallback d key = inl e
  | inr w => (∃ m, found y m key w) ∨ stored_from y 0 key w
  end.
Definition out_ok y (kind : task_kind) key (out : option (Er + V)) : Prop :=
  match kind with KFetch => ∃ r, out = Some r ∧ answer_ok y key r | _ => out = None end.
Definition floor y key : nat := default 0%nat (floors y !! key).
(** What is stored without the lock: nothing, unless the callback stores by itself. *)
Definition unlocked_ok (locked : bool) : Prop := locks_hold → locked = false → ∀ key v, also key v = [].
Definition task_ok y tk : Prop :=
  match t_pc tk with
  | TStart => t_kind tk = KRefresh
  | TLock => True
  | TCheck locked | TCall locked => t_kind tk ≠ KDelete ∧ unlocked_ok locked
  | TAlso locked n v todo => t_kind tk ≠ KDelete ∧ unlocked_ok locked ∧ found y n (t_key tk) v ∧
      todo ≠ [] ∧ todo `suffix_of` also (t_key tk) v ∧ (locks_hold → locked = true → (floor y (t_key tk) ≤ n)%nat)
  | TStore n v => t_kind tk ≠ KDelete ∧ found y n (t_key tk) v ∧ (locks_hold → (floor y (t_key tk) ≤ n)%nat)
  | TDel _ => t_kind tk = KDelete
  | TRelease _ out | TEnd out | TDone out => out_ok y (t_kind tk) (t_key tk) out
  end.
Definition get_ok y (g : get_call) : Prop :=
  match g_pc g with
  | CFast | CJoin => True
  | CWait t => ∃ tk, tasks y !! t = Some tk ∧ t_kind tk = KFetch ∧ t_inst tk = g_inst g ∧ t_key tk = g_key g
  | CReturned r => answer_ok y (g_key g) r
  end.
Record cache_inv y : Prop := {
  ci_typed : typed (ks y);
  ci_dbs : dbs y ≠ [];
  ci_stored k w : GET (ks y) (RedisKey k) = Some w → stored_from y 0 k w;
  ci_lock : locks_hold → ∀ t tk, tasks y !! t = Some tk → needs_lock (t_pc tk) = true → lock_of y !! t_key tk = Some t;
  ci_floor k : (floor y k < length (dbs y))%nat;
  ci_tasks t tk : tasks y !! t = Some tk → task_ok y tk;
  ci_gets c g : gets y !! c = Some g → get_ok y g
}.

Lemma RedisKey_inj k k' : RedisKey k = RedisKey k' → k = k'.
Proof. intros E%str_app_inj%str_app_inj. done. Qed.

(** *** The keyspace *)
Lemma typed_SET s k v : typed s → typed (SET s k v).
Proof.
  intros Ht k'. unfold str_at. rewrite r_SET. destruct (decide (k = k')) as [->|Hne]; [rewrite lookup_insert_eq; eauto|].
  rewrite lookup_insert_ne by done. apply Ht.
Qed.
Lemma typed_DEL s k : typed s → typed (DEL s k).
Proof.
  intros Ht k'. unfold str_at. rewrite r_DEL. destruct (decide (k = k')) as [->|Hne]; [rewrite lookup_delete_eq; eauto|].
  rewrite lookup_delete_ne by done. apply Ht.
Qed.
Lemma GET_str s k : typed s → str_at (rview s) k = Some (GET s k).
Proof. intros Ht. destruct (Ht k) as [o Ho]. rewrite Ho. f_equal. symmetry. by apply r_GET. Qed.
Lemma GET_SET s k v k' : typed s → GET (SET s k v) k' = if decide (k = k') then Some v else GET s k'.
Proof.
  intros Ht. apply r_GET. unfold str_at. rewrite r_SET. case_decide as Hk; [subst; by rewrite lookup_insert_eq|].
  rewrite lookup_insert_ne by done. by apply GET_str.
Qed.
Lemma GET_DEL s k k' : typed s → GET (DEL s k) k' = if decide (k = k') then None else GET s k'.
Proof.
  intros Ht. apply r_GET. unfold str_at. rewrite r_DEL. case_decide as Hk; [subst; by rewrite lookup_delete_eq|].
  rewrite lookup_delete_ne by done. by apply GET_str.
Qed.
(** A command that writes a key, executed or not. *)
Lemma set_GET r k v s k' w : typed s → GET (setInRedis RedisPrefix r k v s) (RedisKey k') = Some w →
  (k' = k ∧ w = v) ∨ GET s (RedisKey k') = Some w.
Proof.
  intros Ht. unfold setInRedis. destruct r; simpl; try (by right); rewrite GET_SET by done; (case_decide as Hk; [apply RedisKey_inj in Hk; intros [= ->]; auto|by right]).
Qed.
Lemma set_typed r k v s : typed s → typed (setInRedis RedisPrefix r k v s).
Proof. intros. unfold setInRedis. destruct r; simpl; auto using typed_SET. Qed.
Lemma del_GET r k s k' w : typed s → GET (send r (λ s, DEL s k) s).1 k' = Some w → GET s k' = Some w.
Proof. intros Ht. destruct r; simpl; try done; rewrite GET_DEL by done; by case_decide. Qed.
Lemma del_typed r k s : typed s → typed (send r (λ s, DEL s k) s).1.
Proof. intros. destruct r; simpl; auto using typed_DEL. Qed.

(** *** Only the history of the database matters *)
Lemma found_ext y y' m key v : dbs y `prefix_of` dbs y' → found y m key v → found y' m key v.
Proof. intros Hp (d & Hd & Hc). exists d. split; [by eapply prefix_lookup_Some|done]. Qed.
Lemma stored_from_ext y y' n k w : dbs y `prefix_of` dbs y' → stored_from y n k w → stored_from y' n k w.
Proof. intros Hp (m & d & key & v & ? & Hd & ? & ?). exists m, d, key, v. split_and!; [done|by eapply prefix_lookup_Some|done|done]. Qed.
Lemma answer_ext y y' key r : dbs y `prefix_of` dbs y' → answer_ok y key r → answer_ok y' key r.
Proof.
  intros Hp. destruct r as [e|w]; simpl.
  - intros (m & d & Hd & ?). exists m, d. split; [by eapply prefix_lookup_Some|done].
  - intros [[m Hm]|Hs]; [left; exists m; by eapply found_ext|right; by eapply stored_from_ext].
Qed.
Lemma out_ext y y' kind key out : dbs y `prefix_of` dbs y' → out_ok y kind key out → out_ok y' kind key out.
Proof. intros Hp. destruct kind; simpl; [|done..]. intros (r & -> & Hr). exists r. split; [done|by eapply answer_ext]. Qed.
Lemma task_ext y y' tk : dbs y `prefix_of` dbs y' → (locks_hold → needs_lock (t_pc tk) = true → floor y' (t_key tk) = floor y (t_key tk)) → task_ok y tk → task_ok y' tk.
Proof.
  intros Hp. unfold task_ok. destruct (t_pc tk) as [| |l|l|l n v todo|n v|l|l out|out|out]; simpl; intros Hf; try done; try (by apply out_ext).
  - intros (? & ? & ? & ? & ? & Hl). split_and!; [done|done|by eapply found_ext|done|done|]. intros Hs ->. rewrite Hf by done. auto.
  - intros (? & ? & Hl). split_and!; [done|by eapply found_ext|]. intros Hs. rewrite Hf by done. auto.
Qed.
Lemma out_of_ok y kind key r : answer_ok y key r → out_ok y kind key (out_of kind r).
Proof. destruct kind; simpl; eauto. Qed.

(** *** One task moves *)
Definition put_at t tk (pc : task_pc) : task := mkTask (t_kind tk) (t_inst tk) (t_key tk) pc.
Lemma put_inv y y0 t tk pc : cache_inv y → tasks y !! t = Some tk → dbs y0 = dbs y → tasks y0 = tasks y → gets y0 = gets y →
  typed (ks y0) → (∀ k w, GET (ks y0) (RedisKey k) = Some w → stored_from y 0 k w) →
  (locks_hold → ∀ t' tk', t' ≠ t → tasks y !! t' = Some tk' → needs_lock (t_pc tk') = true → lock_of y0 !! t_key tk' = Some t') →
  (locks_hold → needs_lock pc = true → lock_of y0 !! t_key tk = Some t) →
  (∀ k, floor y0 k = floor y k ∨ (k = t_key tk ∧ (locks_hold → lock_of y !! k = Some t) ∧ (floor y0 k < length (dbs y))%nat)) →
  task_ok y0 (put_at t tk pc) → cache_inv (put_task t tk pc y0).
Proof.
  intros [H1 H2 H3 H4 H5 H6 H7] Ht Hd Htk Hg Hty Hst Hlk Hme Hfl Hok.
  assert (dbs y `prefix_of` dbs y0) as Hp by (rewrite Hd; by exists []; rewrite app_nil_r).
  assert (t < length (tasks y))%nat as Hlt by (by eapply lookup_lt_Some).
  split; simpl; rewrite ?Hd, ?Htk, ?Hg; try done.
  - intros k w Hk. eapply stored_from_ext; [|by apply Hst]. simpl. by rewrite Hd.
  - intros Hs t' tk'. rewrite list_lookup_insert_Some. intros [(-> & <- & _)|[Hne Ht']]; [by apply Hme|by eapply Hlk].
  - intros k. change (floor y0 k < length (dbs y))%nat. destruct (Hfl k) as [->|(_ & _ & E)]; [apply H5|exact E].
  - intros t' tk'. rewrite list_lookup_insert_Some. intros [(-> & <- & _)|[Hne Ht']]; [exact Hok|].
    eapply task_ext; [| |by eapply H6]; [by simpl; rewrite Hd|]. intros Hs Hn. destruct (Hfl (t_key tk')) as [E|(E & E' & _)]; [exact E|].
    exfalso. specialize (E' Hs). pose proof (H4 Hs _ _ Ht' Hn) as Hl. rewrite E in Hl. congruence.
  - intros c g Hc. specialize (H7 c g Hc). unfold get_ok in *. simpl. rewrite Htk. destruct (g_pc g) as [| |t'|r]; [done|done| |].
    + destruct H7 as (tk' & Ht' & ? & ? & ?). destruct (decide (t' = t)) as [->|Hne].
      * simplify_eq. eexists. rewrite list_lookup_insert_eq by done. split; [reflexivity|]. done.
      * exists tk'. by rewrite list_lookup_insert_ne.
    + eapply answer_ext; [|done]. simpl. by rewrite Hd.
Qed.
Lemma put_inv_plain y t tk pc : cache_inv y → tasks y !! t = Some tk → (needs_lock pc = true → needs_lock (t_pc tk) = true) →
  task_ok y (put_at t tk pc) → cache_inv (put_task t tk pc y).
Proof.
  intros Hi Ht Hn Hok. pose proof Hi as [H1 H2 H3 H4 H5 H6 H7]. apply (put_inv y y); try done; eauto.
Qed.

(** No lock is lost by a task that needs it; and when the callback stores by itself, its
    flights get their lock. *)
Definition label_ok (l : cache_label (D := D)) : Prop :=
  locks_hold → match l with LLoseLock _ => False | LUnlocked _ => ∀ key v, also key v = [] | _ => True end.
Lemma suffix_head {A} (x : A) (l l' : list A) : x :: l `suffix_of` l' → x ∈ l'.
Proof. intros [l0 ->]. apply elem_of_app. right. by left. Qed.
Lemma after_call_ok y y0 t tk locked n v todo : t_kind tk ≠ KDelete → unlocked_ok locked → found y n (t_key tk) v →
  todo `suffix_of` also (t_key tk) v → (locks_hold → locked = true → (floor y (t_key tk) ≤ n)%nat) → dbs y0 = dbs y → floors y0 = floors y →
  task_ok y0 (put_at t tk (after_call (t_kind tk) locked n v todo)).
Proof.
  intros Hk Hu Hf Ht Hl Hd Hfl. assert (∀ m k v, found y m k v → found y0 m k v) as Hfd by (unfold found; rewrite Hd; done).
  assert (floor y0 (t_key tk) = floor y (t_key tk)) as Hfl' by (unfold floor; by rewrite Hfl).
  unfold after_call, task_ok. destruct todo as [|kv todo]; simpl; [destruct locked; simpl|].
  - rewrite Hfl'. auto.
  - apply out_of_ok. simpl. eauto.
  - rewrite Hfl'. auto 7.
Qed.
Lemma needs_after kind l : needs_lock (after_lock (V := V) (Er := Er) kind l) = true → l = true.
Proof. by destruct kind, l. Qed.
Lemma needs_call kind l n v todo : needs_lock (after_call (V := V) (Er := Er) kind l n v todo) = true → l = true.
Proof. destruct todo, l; simpl; done. Qed.
Lemma stored_extra y n key v k w : found y n key v → (k, w) ∈ stored key v → stored_from y 0 k w.
Proof. intros (d & ? & ?) ?. exists n, d, key, v. split_and!; done || lia. Qed.
Lemma obtain_inv y t tk : cache_inv y → tasks y !! t = Some tk → t_pc tk = TLock → lock_of y !! t_key tk = None →
  cache_inv (put_task t tk (after_lock (t_kind tk) true) (with_lock (<[t_key tk := t]> (lock_of y)) y)).
Proof.
  intros Hi Ht Hpc Hn. pose proof Hi as [H1 H2 H3 H4 H5 H6 H7]. eapply (put_inv y); try done; simpl.
  - intros Hs t' tk' Hne Ht' Hl. pose proof (H4 Hs _ _ Ht' Hl) as Hl'. rewrite lookup_insert_ne; [done|]. intros E. congruence.
  - by rewrite lookup_insert_eq.
  - auto.
  - unfold task_ok, put_at, after_lock. destruct (t_kind tk) eqn:Hk; simpl; rewrite ?Hk; done.
Qed.
Lemma release_inv y t tk locked out ok : cache_inv y → tasks y !! t = Some tk → t_pc tk = TRelease locked out →
  cache_inv (put_task t tk (TEnd out) (if locked && ok && bool_decide (lock_of y !! t_key tk = Some t) then with_lock (delete (t_key tk) (lock_of y)) y else y)).
Proof.
  intros Hi Ht Hpc. pose proof Hi as [H1 H2 H3 H4 H5 H6 H7]. pose proof (H6 _ _ Ht) as Hok. unfold task_ok in Hok. rewrite Hpc in Hok.
  destruct (_ && _) eqn:Hh; [|by apply put_inv_plain].
  apply andb_true_iff in Hh as [_ Hh%bool_decide_eq_true]. eapply (put_inv y); try done; simpl; auto.
  intros Hs t' tk' Hne Ht' Hl. pose proof (H4 Hs _ _ Ht' Hl) as Hl'. rewrite lookup_delete_ne; [done|]. intros E. congruence.
Qed.
Lemma set_inv y t tk pc r k v : cache_inv y → tasks y !! t = Some tk → (needs_lock pc = true → needs_lock (t_pc tk) = true) →
  stored_from y 0 k v → task_ok y (put_at t tk pc) → cache_inv (put_task t tk pc (with_ks (setInRedis RedisPrefix r k v (ks y)) y)).
Proof.
  intros Hi Ht Hn Hst Hok. pose proof Hi as [H1 H2 H3 H4 H5 H6 H7]. eapply (put_inv y); try done; simpl; auto using set_typed.
  intros k' w [[-> ->]|Hg]%set_GET; auto.
Qed.
Lemma del_inv y t tk locked r : cache_inv y → tasks y !! t = Some tk → t_pc tk = TDel locked →
  let y1 := with_ks (send r (λ s, DEL s (RedisKey (t_key tk))) (ks y)).1 y in
  cache_inv (put_task t tk (TRelease locked None) (match locked, r with true, (RDone | RLost) => with_floor (t_key tk) (length (dbs y) - 1) y1 | _, _ => y1 end)).
Proof.
  intros Hi Ht Hpc y1. pose proof Hi as [H1 H2 H3 H4 H5 H6 H7]. pose proof (H6 _ _ Ht) as Hok. unfold task_ok in Hok. rewrite Hpc in Hok.
  assert (length (dbs y) ≠ 0)%nat by (by destruct (dbs y)).
  assert (∀ k, floor (with_floor (t_key tk) (length (dbs y) - 1) y1) k = if decide (t_key tk = k) then (length (dbs y) - 1)%nat else floor y k) as Hfl.
  { intros k. unfold floor. simpl. case_decide as E; [subst; by rewrite lookup_insert_eq|by rewrite lookup_insert_ne]. }
  eapply (put_inv y); try (by destruct locked, r).
  - destruct locked, r; simpl; auto using typed_DEL.
  - intros k w Hg. apply H3. eapply del_GET with (r := r) (k := RedisKey (t_key tk)); [done|]. by destruct locked, r.
  - intros Hs t' tk' Hne Ht' Hl. specialize (H4 Hs _ _ Ht' Hl). by destruct locked, r.
  - intros Hs Hl. specialize (H4 Hs _ _ Ht). rewrite Hpc in H4. simpl in *. specialize (H4 Hl). by destruct locked, r.
  - intros k. destruct locked; [|left; by destruct r].
    assert (locks_hold → lock_of y !! t_key tk = Some t) as H4' by (intros Hs; apply (H4 Hs _ _ Ht); by rewrite Hpc).
    destruct r; rewrite ?Hfl; try (by left); (case_decide as E; [subst k; right; split_and!; [done|done|lia]|by left]).
  - unfold task_ok. simpl. by rewrite Hok.
Qed.

Lemma last_version y d : last (dbs y) = Some d → dbs y !! (length (dbs y) - 1)%nat = Some d.
Proof. intros Hl. rewrite last_lookup in Hl. rewrite <- Hl. f_equal. lia. Qed.
Lemma task_step_inv y t tk l y' : cache_inv y → label_ok l → tasks y !! t = Some tk →
  task_step RedisPrefix extract dataCallback also y t tk l = Some y' → cache_inv y'.
Proof.
  intros Hi Hl Ht Hs. pose proof Hi as [H1 H2 H3 H4 H5 H6 H7]. pose proof (H6 _ _ Ht) as Hok. unfold task_ok in Hok.
  unfold task_step in Hs. destruct l; try done; destruct (t_pc tk) as [| |lk|lk|lk n v todo|n v|lk|lk out|out|out] eqn:Hpc; try done.
  - simplify_eq. destruct (flight _ _ _ _); apply put_inv_plain; try done. unfold task_ok. simpl. by rewrite Hok.
  - destruct (lock_of y !! t_key tk) eqn:Hlk; simplify_eq. by apply obtain_inv.
  - case_bool_decide; simplify_eq. apply put_inv_plain; [done|done|by rewrite Hpc; intros ?%needs_after|].
    unfold task_ok, put_at, after_lock. by destruct (t_kind tk) eqn:Hk; simpl; rewrite ?Hk.
  - case_bool_decide as Hk; simplify_eq. apply put_inv_plain; [done|done|by rewrite Hpc; intros ?%needs_after|].
    unfold task_ok, put_at. rewrite Hk. simpl. split; [done|]. intros Hs' _. exact (Hl Hs').
  - destruct Hok as [Hk Hu]. simplify_eq. unfold getFromRedis. destruct (if ok then _ else _) as [v|] eqn:Hg.
    + apply put_inv_plain; [done|done|by rewrite Hpc|]. unfold task_ok. simpl. apply out_of_ok. simpl. right. apply H3. by destruct ok.
    + apply put_inv_plain; [done|done|by rewrite Hpc|]. done.
  - destruct Hok as [Hk Hu]. apply bind_Some in Hs as (d & Hd%last_version & Hs). simplify_eq.
    destruct (dataCallback d (t_key tk)) as [e|v] eqn:Hc.
    + apply put_inv_plain; [done|done|by rewrite Hpc|]. unfold task_ok. simpl. apply out_of_ok. simpl. eauto.
    + apply put_inv_plain; [done|done|by rewrite Hpc; intros ?%needs_call|].
      eapply after_call_ok; eauto; [by exists d|]. intros _ _. specialize (H5 (t_key tk)). lia.
  - destruct todo as [|[k' v'] todo]; simplify_eq. destruct Hok as (Hk & Hu & Hf & _ & Ha & Hle).
    apply set_inv; [done|done|by rewrite Hpc; intros ?%needs_call| |].
    + eapply stored_extra; [done|]. apply elem_of_app. left. by eapply suffix_head.
    + eapply after_call_ok; eauto. by eapply suffix_cons_l.
  - destruct Hok as (Hk & Hf & Hle). simplify_eq. apply set_inv; [done|done|by rewrite Hpc| |].
    + eapply stored_extra; [done|]. apply elem_of_app. right. by left.
    + unfold task_ok. simpl. apply out_of_ok. simpl. eauto.
  - simplify_eq. by apply del_inv.
  - simplify_eq. by eapply release_inv.
  - simplify_eq. apply put_inv_plain; [done|done|by rewrite Hpc|done].
Qed.

(** *** The other steps *)
Lemma new_task_inv y tk : cache_inv y → needs_lock (t_pc tk) = false → task_ok y tk → cache_inv (with_tasks (tasks y ++ [tk]) y).
Proof.
  intros [H1 H2 H3 H4 H5 H6 H7] Hn Hok. split; simpl; try done.
  - intros Hs t tk' [[_ Ht]|[-> <-]]%lookup_snoc_Some; [by apply H4|by rewrite Hn].
  - intros t tk' [[_ Ht]|[-> <-]]%lookup_snoc_Some; [by eapply H6|done].
  - intros c g Hg. specialize (H7 c g Hg). unfold get_ok in *. simpl. destruct (g_pc g); try done.
    destruct H7 as (tk' & Ht & ?). exists tk'. split; [|done]. by apply lookup_app_l_Some.
Qed.
Lemma put_get_inv y c g pc : cache_inv y → gets y !! c = Some g → get_ok y (mkGet (g_inst g) (g_key g) pc) → cache_inv (put_get c g pc y).
Proof.
  intros [H1 H2 H3 H4 H5 H6 H7] Hg Hok. split; simpl; try done.
  intros c' g'. rewrite list_lookup_insert_Some. intros [(-> & <- & _)|[_ ?]]; [done|eauto].
Qed.
Lemma ks_inv y s : cache_inv y → typed s → (∀ k w, GET s k = Some w → GET (ks y) k = Some w) → cache_inv (with_ks s y).
Proof. intros [H1 H2 H3 H4 H5 H6 H7] Ht Hg. split; simpl; try done. intros k w Hk%Hg. by apply H3. Qed.
Lemma sweeps_inv y l : cache_inv y → cache_inv (with_sweeps l y).
Proof. intros [H1 H2 H3 H4 H5 H6 H7]. by split. Qed.
Lemma sweep_step_inv y i (w : sweep) l y' : cache_inv y → sweep_step RedisPrefix y i w l = Some y' → cache_inv y'.
Proof.
  intros Hi Hs. unfold sweep_step in Hs. destruct l; try done; destruct w as [pfx keys|[|k todo] keys bad|]; try done.
  - case_match; simplify_eq. by apply sweeps_inv.
  - simplify_eq. by apply sweeps_inv.
  - destruct (send r (λ s, DEL s k) (ks y)) as [s failed] eqn:Hd. simplify_eq. apply sweeps_inv.
    pose proof (ci_typed _ Hi) as Ht. replace s with (send r (λ s, DEL s k) (ks y)).1 by (by rewrite Hd).
    apply ks_inv; [done|by apply del_typed|]. intros k' w. by apply del_GET.
Qed.
Lemma flight_lookup kind inst key (l : list task) t : flight kind inst key l = Some t →
  ∃ tk, l !! t = Some tk ∧ t_kind tk = kind ∧ t_inst tk = inst ∧ t_key tk = key ∧ in_flight (t_pc tk) = true.
Proof.
  unfold flight. destruct (list_find _ l) as [[i tk]|] eqn:Hf; [|done]. simpl. intros [= ->].
  apply list_find_Some in Hf as (Hi & Ht & _). unfold is_flight in Ht. rewrite !andb_true_iff, !bool_decide_eq_true in Ht. naive_solver.
Qed.
Lemma cache_step_inv y l y' : label_ok l → cache_inv y → step y l = Some y' → cache_inv y'.
Proof.
  intros Hl Hi Hs. pose proof Hi as [H1 H2 H3 H4 H5 H6 H7].
  destruct l; cbn [cache_step] in Hs;
    try (apply bind_Some in Hs as (tk & Ht & Hs); by eapply task_step_inv);
    try (apply bind_Some in Hs as (w & Hw & Hs); by eapply sweep_step_inv).
  - simplify_eq. split; simpl; try done. intros c g [[_ Hg]|[-> <-]]%lookup_snoc_Some; [by eapply H7|done].
  - apply bind_Some in Hs as (g & Hg & Hs). destruct (g_pc g) eqn:Hpc; try done. simplify_eq. unfold get_fast, getFromRedis.
    destruct (if ok then _ else _) as [v|] eqn:Hv; [|by apply put_get_inv].
    assert (get_ok y (mkGet (g_inst g) (g_key g) (CReturned (inr v)))) as Hok by (right; apply H3; by destruct ok).
    destruct (handleRefresh _ _ _); apply put_get_inv; try done; by apply new_task_inv.
  - apply bind_Some in Hs as (g & Hg & Hs). destruct (g_pc g) eqn:Hpc; try done. simplify_eq. unfold get_join.
    destruct (flight KFetch _ _ _) as [t|] eqn:Hf.
    + apply flight_lookup in Hf as (tk & Ht & ? & ? & ? & _). apply put_get_inv; [done|done|]. exists tk. done.
    + apply put_get_inv; [by apply new_task_inv|done|]. eexists. simpl. rewrite lookup_app_r, Nat.sub_diag by lia. done.
  - apply bind_Some in Hs as (g & Hg & Hs). destruct (g_pc g) as [| |t|] eqn:Hpc; try done. apply bind_Some in Hs as (tk & Ht & Hs).
    destruct (t_pc tk) as [| | | | | | | | |[r|]] eqn:Htp; try done. simplify_eq. apply put_get_inv; [done|done|]. unfold get_ok. simpl.
    specialize (H7 _ _ Hg). unfold get_ok in H7. rewrite Hpc in H7. destruct H7 as (tk' & Ht' & Hk & _ & Hkey). simplify_eq.
    specialize (H6 _ _ Ht). unfold task_ok in H6. rewrite Htp, Hk in H6. simpl in H6. destruct H6 as (r' & [= <-] & Hr). by rewrite <- Hkey.
  - simplify_eq. by apply new_task_inv.
  - simplify_eq. by apply sweeps_inv.
  - simplify_eq. assert (dbs y `prefix_of` (dbs y ++ [d])) as Hp by (by eexists). split; simpl; try done.
    + by destruct (dbs y).
    + intros k w Hk%H3. by eapply stored_from_ext.
    + intros k. change (floor y k < length (dbs y ++ [d]))%nat. specialize (H5 k). rewrite length_app. lia.
    + intros t tk Ht. eapply task_ext; [exact Hp|done|by eapply H6].
    + intros c g Hg. specialize (H7 c g Hg). unfold get_ok in *. destruct (g_pc g); try done. by eapply answer_ext.
  - simplify_eq. apply ks_inv; [done|by apply typed_DEL|]. intros k' w. rewrite GET_DEL by done. by case_decide.
  - apply bind_Some in Hs as (t & Hlk & Hs). apply bind_Some in Hs as (tk & Ht & Hs). destruct (needs_lock (t_pc tk)) eqn:Hn; simplify_eq.
    split; simpl; try done. intros Hs t' tk' Ht' Hn'. pose proof (H4 Hs _ _ Ht' Hn') as Hl'. rewrite lookup_delete_ne; [done|]. intros E. congruence.
  - simplify_eq. split; simpl; try done. intros Hs. destruct (Hl Hs).
Qed.

(** *** Runs *)
Lemma cache_start_inv s d : typed s → (∀ k, GET s (RedisKey k) = None) → cache_inv (cache_start s d).
Proof.
  intros Ht Hn. split; simpl; try done.
  - intros k w. by rewrite Hn.
  - intros k. unfold floor. simpl. rewrite lookup_empty. simpl. lia.
Qed.
Lemma cache_run_inv y ls y' : cache_inv y → Forall label_ok ls → run_steps step y ls = Some y' → cache_inv y'.
Proof. intros Hi Hok. apply (run_steps_inv step cache_inv label_ok); [intros; by eapply cache_step_inv|done|done]. Qed.

Ltac step_cases Hs :=
  repeat first [apply bind_Some in Hs as (? & _ & Hs) | progress (case_match; try done)]; simplify_eq/=; eauto.
(** Where a value under a key comes from after a step. *)
Definition written y k w : Prop := ∃ n key v, found y n key v ∧ (k, w) ∈ stored key v ∧ (floor y key ≤ n)%nat.
Lemma task_step_writes y t tk l y' k w : locks_hold → cache_inv y → tasks y !! t = Some tk →
  task_step RedisPrefix extract dataCallback also y t tk l = Some y' → GET (ks y') (RedisKey k) = Some w →
  GET (ks y) (RedisKey k) = Some w ∨ written y k w.
Proof.
  intros HL Hi Ht Hs Hg. pose proof (ci_typed _ Hi) as Hty. pose proof (ci_tasks _ Hi _ _ Ht) as Hok. unfold task_ok in Hok. unfold task_step in Hs.
  destruct l; try done; destruct (t_pc tk) as [| |lk|lk|lk n v todo|n v|lk|lk out|out|out] eqn:Hpc; try done;
    try (repeat case_match; simplify_eq/=; by left).
  - apply bind_Some in Hs as (d & _ & Hs). simplify_eq. by left.
  - destruct todo as [|[k' v'] todo]; simplify_eq. apply set_GET in Hg as [[-> ->]|?]; [right|by left|done].
    destruct Hok as (_ & Hu & Hf & _ & Ha & Hle). exists n, (t_key tk), v. split_and!; [done|apply elem_of_app; left; by eapply suffix_head|].
    apply Hle; [done|]. destruct lk; [done|]. apply suffix_head in Ha. rewrite (Hu HL eq_refl) in Ha. by apply not_elem_of_nil in Ha.
  - destruct Hok as (_ & Hf & Hle). simplify_eq. apply set_GET in Hg as [[-> ->]|?]; [right|by left|done].
    exists n, (t_key tk), v. split_and!; [done|apply elem_of_app; right; by left|auto].
  - simplify_eq. left. eapply del_GET with (r := r) (k := RedisKey (t_key tk)); [done|]. by destruct lk, r.
Qed.
Lemma sweep_writes y i (w' : sweep) l y' k w : typed (ks y) → sweep_step RedisPrefix y i w' l = Some y' →
  GET (ks y') (RedisKey k) = Some w → GET (ks y) (RedisKey k) = Some w.
Proof.
  intros Hty Hs Hg. unfold sweep_step in Hs. destruct l; try done; destruct w' as [pfx keys|[|k' todo] keys bad|]; try done.
  - case_match; by simplify_eq.
  - by simplify_eq.
  - destruct (send r (λ s, DEL s k') (ks y)) as [s failed] eqn:Hd. simplify_eq. simpl in Hg.
    eapply del_GET with (r := r); [done|]. by rewrite Hd.
Qed.
Lemma step_writes y l y' k w : locks_hold → cache_inv y → step y l = Some y' → GET (ks y') (RedisKey k) = Some w →
  GET (ks y) (RedisKey k) = Some w ∨ written y k w.
Proof.
  intros HL Hi Hs Hg. pose proof (ci_typed _ Hi) as Hty. destruct l; cbn [cache_step] in Hs;
    try (apply bind_Some in Hs as (tk & Ht & Hs); by eapply task_step_writes); left;
    try (unfold get_fast, get_join in Hs; repeat (apply bind_Some in Hs as (? & _ & Hs)); repeat case_match; simplify_eq/=; done).
  - apply bind_Some in Hs as (g & _ & Hs). destruct (g_pc g); try done. apply bind_Some in Hs as (tk & _ & Hs). repeat (case_match; try done). by simplify_eq.
  - apply bind_Some in Hs as (w' & Hw & Hs). by eapply sweep_writes.
  - apply bind_Some in Hs as (w' & Hw & Hs). by eapply sweep_writes.
  - simplify_eq. simpl in Hg. rewrite GET_DEL in Hg by done. by case_decide.
Qed.
Lemma step_dbs y l y' : step y l = Some y' → dbs y `prefix_of` dbs y'.
Proof.
  intros Hs. assert (dbs y' = dbs y ∨ ∃ d, dbs y' = dbs y ++ [d]) as [->|[d ->]]; [|done|by eexists].
  destruct l; cbn [cache_step] in Hs; unfold get_fast, get_join, task_step, sweep_step in Hs; step_cases Hs.
Qed.
Lemma step_floor y l y' k : cache_inv y → step y l = Some y' → (floor y k ≤ floor y' k)%nat.
Proof.
  intros Hi Hs. assert (floors y' = floors y ∨ ∃ k', floors y' = <[k' := (length (dbs y) - 1)%nat]> (floors y)) as Hf.
  { destruct l; cbn [cache_step] in Hs; unfold get_fast, get_join, task_step, sweep_step in Hs; step_cases Hs. }
  pose proof (ci_floor _ Hi k) as Hlt. unfold floor in *. destruct Hf as [->|[k' ->]]; [done|].
  destruct (decide (k' = k)) as [->|?]; [rewrite lookup_insert_eq; simpl; lia|by rewrite lookup_insert_ne].
Qed.

(** *** Freshness *)
(** Every value under [k] was read from version [v0] or later, and so will be every value
    that a task writes there. *)
Record fresh (k : string) (v0 : nat) y : Prop := {
  fr_get w : GET (ks y) (RedisKey k) = Some w → stored_from y v0 k w;
  fr_floor m d key v w : (m < v0)%nat → dbs y !! m = Some d → dataCallback d key = inr v → (k, w) ∈ stored key v → (v0 ≤ floor y key)%nat;
  fr_len : (v0 ≤ length (dbs y))%nat
}.
Lemma fresh_step k (v0 : nat) y l y' : locks_hold → cache_inv y → step y l = Some y' → fresh k v0 y → fresh k v0 y'.
Proof.
  intros HL Hi Hs [H1 H2 H3]. pose proof (step_dbs _ _ _ Hs) as Hp. split.
  - intros w Hg. eapply stored_from_ext; [done|]. destruct (step_writes _ _ _ _ _ HL Hi Hs Hg) as [Hw|(n & key & v & (d & Hd & Hc) & Hin & Hle)]; [auto|].
    exists n, d, key, v. split_and!; [|done..]. destruct (decide (n < v0)%nat) as [Hlt|]; [|lia]. specialize (H2 _ _ _ _ _ Hlt Hd Hc Hin). lia.
  - intros m d key v w Hlt Hd Hc Hin. pose proof (step_floor _ _ _ key Hi Hs) as Hf.
    assert (is_Some (dbs y !! m)) as [d' Hd'] by (apply lookup_lt_is_Some_2; lia).
    pose proof (prefix_lookup_Some _ _ _ _ Hd' Hp) as E. rewrite Hd in E. injection E as ->. specialize (H2 _ _ _ _ _ Hlt Hd' Hc Hin). lia.
  - apply prefix_length in Hp. lia.
Qed.
Lemma fresh_run k (v0 : nat) y ls y' : locks_hold → cache_inv y → fresh k v0 y → Forall label_ok ls → run_steps step y ls = Some y' → fresh k v0 y'.
Proof.
  intros HL Hi Hf Hok Hr. assert (cache_inv y' ∧ fresh k v0 y') as [_ ?]; [|done].
  apply (run_steps_inv step (λ y, cache_inv y ∧ fresh k v0 y) label_ok y ls y'); [|done|done|done].
  intros z l z' Hl [Hi' Hf'] Hs. split; [by eapply cache_step_inv|by eapply fresh_step].
Qed.
End proofs.

(** ** The theorems *)
Section theorems.
Context {V Er D K : Type} `{RedisLaws V K}.
Context (RedisPrefix : string) (cacheTTL RefreshInterval : Z) (extract : option (V → string)).
Context (dataCallback : D → string → Er + V) (also : string → V → list (string * V)).
Abbreviation cache_sys := (cache_sys (V := V) (Er := Er) (D := D) (K := K)).
Abbreviation task := (task (V := V) (Er := Er)).
Abbreviation RedisKey := (RedisKey RedisPrefix).
Abbreviation stored := (stored extract also).
Abbreviation step := (cache_step RedisPrefix cacheTTL RefreshInterval extract dataCallback also).
Abbreviation inv locks := (cache_inv RedisPrefix extract dataCallback also locks).
Abbreviation ok := (label_ok also True (D := D)).
Implicit Types (y : cache_sys) (tk : task) (s : K) (t : nat) (k key : string) (v w : V).

(** *** Answers *)
Lemma weak_inv s d ls y : typed s → (∀ k, GET s (RedisKey k) = None) → run_steps step (cache_start s d) ls = Some y → inv False y.
Proof. intros Ht Hn Hr. eapply cache_run_inv; [apply cache_start_inv; done| |exact Hr]. apply Forall_forall. by intros l _ []. Qed.

(** What a call of GetOrSet returns.  In any interleaving of the instances, with
    any loss of commands, of their answers and of locks, an error is one that the callback
    returned for this key, and a value is one that the callback returned for this key or
    that a task stored under this key; a call that waits in singleflight waits for a
    flight of its own instance and key; and while no lock expires under the task that
    needs it, two tasks of a key are never both between the acquisition of the lock and
    its release. *)
Theorem RedisCache_answers s d ls y : typed s → (∀ k, GET s (RedisKey k) = None) → run_steps step (cache_start s d) ls = Some y →
  (∀ c g, gets y !! c = Some g → match g_pc g with
    | CReturned r => answer_ok extract dataCallback also y (g_key g) r
    | CWait t => ∃ tk, tasks y !! t = Some tk ∧ t_kind tk = KFetch ∧ t_inst tk = g_inst g ∧ t_key tk = g_key g
    | _ => True end) ∧
  (Forall ok ls → ∀ t t' tk tk', tasks y !! t = Some tk → tasks y !! t' = Some tk' → t_key tk = t_key tk' →
    needs_lock (t_pc tk) = true → needs_lock (t_pc tk') = true → t = t').
Proof.
  intros Ht Hn Hr. split.
  - intros c g Hg. pose proof (ci_gets _ _ _ _ _ _ (weak_inv _ _ _ _ Ht Hn Hr) _ _ Hg) as Hok. unfold get_ok in Hok. by destruct (g_pc g).
  - intros Hok t t' tk tk' Htk Htk' Hk Hl Hl'.
    assert (inv True y) as Hi by (eapply cache_run_inv; [by apply cache_start_inv|exact Hok|exact Hr]).
    pose proof (ci_lock _ _ _ _ _ _ Hi I _ _ Htk Hl) as H1. pose proof (ci_lock _ _ _ _ _ _ Hi I _ _ Htk' Hl') as H2. congruence.
Qed.

(** *** Invalidation *)
Lemma LDel_floor y y1 t r inst k : tasks y !! t = Some (mkTask KDelete inst k (TDel true)) → r ≠ RFailed → step y (LDel t r) = Some y1 →
  floor y1 k = (length (dbs y) - 1)%nat.
Proof.
  intros Ht Hrf Hs. cbn [cache_step] in Hs. rewrite Ht in Hs. cbn [mbind option_bind task_step t_pc t_key t_kind] in Hs. unfold floor.
  destruct r; simplify_eq; simpl; by rewrite lookup_insert_eq.
Qed.
Lemma Delete_fresh y y1 t r inst k ls y2 (v0 : nat) : inv True y → tasks y !! t = Some (mkTask KDelete inst k (TDel true)) → r ≠ RFailed →
  step y (LDel t r) = Some y1 → (v0 ≤ length (dbs y1))%nat →
  (∀ m d key v w, (m < v0)%nat → dbs y1 !! m = Some d → dataCallback d key = inr v → (k, w) ∈ stored key v → (v0 ≤ floor y1 key)%nat) →
  Forall ok ls → run_steps step y1 ls = Some y2 → fresh RedisPrefix extract dataCallback also k v0 y2.
Proof.
  intros Hi Ht Hr Hs Hlen Hcover Hok Hrun. assert (inv True y1) as Hi1 by (eapply cache_step_inv with (l := LDel t r); [by intros _|exact Hi|exact Hs]).
  eapply fresh_run; [exact I|exact Hi1| |exact Hok|exact Hrun]. split; [|done..].
  intros w Hg. exfalso. cbn [cache_step] in Hs. rewrite Ht in Hs. cbn [mbind option_bind task_step t_pc t_key t_kind] in Hs.
  pose proof (ci_typed _ _ _ _ _ _ Hi) as Hty. assert (GET (DEL (ks y) (RedisKey k)) (RedisKey k) = Some w) as Hg'; [|rewrite GET_DEL, decide_True in Hg' by done; done].
  destruct r; simplify_eq; done.
Qed.


(** *** Every call returns *)
Context (a : nat) (also_bounded : ∀ d key v, dataCallback d key = inr v → (length (also key v) ≤ a)%nat).
(** How many steps a task has left, at most. *)
Definition steps_left (pc : task_pc (V := V) (Er := Er)) : nat :=
  match pc with
  | TStart => 8 + a | TLock => 7 + a | TCheck _ => 6 + a | TCall _ => 5 + a | TAlso _ _ _ todo => 3 + length todo
  | TStore _ _ | TDel _ => 3 | TRelease _ _ => 2 | TEnd _ => 1 | TDone _ => 0
  end.
Lemma flight_progress y t tk : inv False y → tasks y !! t = Some tk → t_kind tk = KFetch → steps_left (t_pc tk) ≠ O →
  ∃ l y' pc, step y l = Some y' ∧ tasks y' !! t = Some (put_at t tk pc) ∧ gets y' = gets y ∧ (steps_left pc < steps_left (t_pc tk))%nat.
Proof.
  intros Hi Ht Hk Hw. pose proof (ci_tasks _ _ _ _ _ _ Hi _ _ Ht) as Hok. unfold task_ok in Hok.
  assert (∀ pc y0, tasks y0 = tasks y → tasks (put_task t tk pc y0) !! t = Some (put_at t tk pc)) as Hput.
  { intros pc y0 E. simpl. rewrite E. apply list_lookup_insert_eq. by eapply lookup_lt_Some. }
  destruct (t_pc tk) as [| |lk|lk|lk n v [|[k' v'] todo]|n v|lk|lk out|out|out] eqn:Hpc; try (by rewrite Hk in Hok); try done.
  - exists (LUnlocked t). cbn [cache_step]. rewrite Ht. cbn [mbind option_bind task_step]. rewrite Hpc, Hk. simpl.
    do 2 eexists. split_and!; [reflexivity|by apply Hput|done|simpl; lia].
  - exists (LCheck t false). cbn [cache_step]. rewrite Ht. cbn [mbind option_bind task_step]. rewrite Hpc. simpl.
    do 2 eexists. split_and!; [reflexivity|by apply Hput|done|simpl; lia].
  - exists (LCall t). cbn [cache_step]. rewrite Ht. cbn [mbind option_bind task_step]. rewrite Hpc.
    destruct (last (dbs y)) as [d|] eqn:Hd; [|apply last_None in Hd; by destruct (ci_dbs _ _ _ _ _ _ Hi)]. simpl.
    do 2 eexists. split_and!; [reflexivity|by apply Hput|done|].
    destruct (dataCallback d (t_key tk)) as [e|v] eqn:Hc; [simpl; lia|]. pose proof (also_bounded _ _ _ Hc). unfold after_call.
    destruct (also (t_key tk) v) eqn:Ha; [destruct lk; simpl; lia|simpl in *; lia].
  - by destruct Hok as (_ & _ & _ & ? & _).
  - exists (LSet t RDone). cbn [cache_step]. rewrite Ht. cbn [mbind option_bind task_step]. rewrite Hpc.
    do 2 eexists. split_and!; [reflexivity|by apply Hput|done|]. unfold after_call. destruct todo, lk; simpl; lia.
  - exists (LSet t RDone). cbn [cache_step]. rewrite Ht. cbn [mbind option_bind task_step]. rewrite Hpc.
    do 2 eexists. split_and!; [reflexivity|by apply Hput|done|simpl; lia].
  - exists (LRelease t true). cbn [cache_step]. rewrite Ht. cbn [mbind option_bind task_step]. rewrite Hpc.
    do 2 eexists. split_and!; [reflexivity|apply Hput; by case_match|by case_match|simpl; lia].
  - exists (LEnd t). cbn [cache_step]. rewrite Ht. cbn [mbind option_bind task_step]. rewrite Hpc.
    do 2 eexists. split_and!; [reflexivity|by apply Hput|done|simpl; lia].
Qed.
Lemma flight_ends n y t tk : inv False y → tasks y !! t = Some tk → t_kind tk = KFetch → (steps_left (t_pc tk) ≤ n)%nat →
  ∃ ls y' r, (length ls ≤ n)%nat ∧ run_steps step y ls = Some y' ∧ tasks y' !! t = Some (put_at t tk (TDone (Some r))) ∧ gets y' = gets y ∧
    answer_ok extract dataCallback also y' (t_key tk) r.
Proof.
  revert y tk. induction n as [|n IH]; intros y tk Hi Ht Hk Hle; destruct (decide (steps_left (t_pc tk) = 0%nat)) as [E|Hne]; [| lia | |].
  1, 2: destruct (t_pc tk) as [| | | | | | | | |out] eqn:Hpc; try done; pose proof (ci_tasks _ _ _ _ _ _ Hi _ _ Ht) as Hok; unfold task_ok in Hok;
    rewrite Hpc, Hk in Hok; destruct Hok as (r & -> & Hr); exists [], y, r; split_and!; [simpl; lia|done| |done|done];
    unfold put_at; destruct tk; simpl in *; by subst.
  destruct (flight_progress y t tk Hi Ht Hk Hne) as (l & y1 & pc & Hs & Ht1 & Hg & Hlt).
  destruct (IH y1 (put_at t tk pc)) as (ls & y' & r & Hn & Hr & Ht' & Hg' & Ha); [|done|done|simpl; lia|].
  - eapply cache_step_inv; [by intros []|exact Hi|exact Hs].
  - exists (l :: ls), y', r. split_and!; [simpl; lia| |exact Ht'|congruence|exact Ha]. cbn [run_steps]. by rewrite Hs.
Qed.

Lemma flight_left y t tk : inv False y → tasks y !! t = Some tk → t_kind tk = KFetch → (steps_left (t_pc tk) ≤ 7 + a)%nat.
Proof.
  intros Hi Ht Hk. pose proof (ci_tasks _ _ _ _ _ _ Hi _ _ Ht) as Hok. unfold task_ok in Hok. rewrite Hk in Hok.
  destruct (t_pc tk) as [| |lk|lk|lk n v todo|n v|lk|lk out|out|out]; simpl; try lia; [done|].
  destruct Hok as (_ & _ & (d & _ & Hc) & _ & Hsuf%suffix_length & _). pose proof (also_bounded _ _ _ Hc). lia.
Qed.

(** What is left of a call: that its answer can be reached in [n] steps. *)
Definition returns_within (n : nat) y (c : nat) (g : get_call (V := V) (Er := Er)) : Prop :=
  ∃ ls y' r, (length ls ≤ n)%nat ∧ run_steps step y ls = Some y' ∧ gets y' !! c = Some (mkGet (g_inst g) (g_key g) (CReturned r)) ∧
    answer_ok extract dataCallback also y' (g_key g) r.
Lemma returns_step n y c (g : get_call (V := V) (Er := Er)) l y1 (g1 : get_call (V := V) (Er := Er)) : step y l = Some y1 → g_inst g1 = g_inst g → g_key g1 = g_key g → returns_within n y1 c g1 → returns_within (S n) y c g.
Proof.
  intros Hs E1 E2 (ls & y' & r & Hlen & Hr & Hg & Ha). rewrite E1, E2 in *. exists (l :: ls), y', r.
  split_and!; [simpl; lia| |done|done]. cbn [run_steps]. by rewrite Hs.
Qed.
Lemma wait_returns y c g t : inv False y → gets y !! c = Some g → g_pc g = CWait t → returns_within (8 + a) y c g.
Proof.
  intros Hi Hg Hpc. pose proof (ci_gets _ _ _ _ _ _ Hi _ _ Hg) as Hok. unfold get_ok in Hok. rewrite Hpc in Hok.
  destruct Hok as (tk & Ht & Hk & Hin & Hkey). pose proof (flight_left _ _ _ Hi Ht Hk).
  destruct (flight_ends (7 + a) y t tk Hi Ht Hk ltac:(lia)) as (ls & y1 & r & Hlen & Hr & Ht1 & Hg1 & Ha).
  exists (ls ++ [LReturn c]), (put_get c g (CReturned r) y1), r. split_and!.
  - rewrite length_app. simpl. lia.
  - rewrite run_steps_app, Hr. cbn [run_steps cache_step mbind option_bind]. rewrite Hg1, Hg. cbn [mbind option_bind]. by rewrite Hpc, Ht1.
  - simpl. rewrite Hg1. apply list_lookup_insert_eq. by eapply lookup_lt_Some.
  - by rewrite <- Hkey.
Qed.
Lemma join_returns y c g : inv False y → gets y !! c = Some g → g_pc g = CJoin → returns_within (9 + a) y c g.
Proof.
  intros Hi Hg Hpc. assert (∃ t, gets (get_join y c g) !! c = Some (mkGet (g_inst g) (g_key g) (CWait t))) as [t Hg1].
  { unfold get_join. assert (c < length (gets y))%nat by (by eapply lookup_lt_Some). case_match; eexists; simpl; by apply list_lookup_insert_eq. }
  assert (step y (LJoin c) = Some (get_join y c g)) as Hs by (cbn [cache_step]; rewrite Hg; simpl; by rewrite Hpc).
  apply (returns_step (8 + a) _ _ _ _ _ (mkGet (g_inst g) (g_key g) (CWait t)) Hs); [done|done|].
  eapply wait_returns; [|exact Hg1|done]. eapply cache_step_inv with (l := LJoin c); [by intros []|exact Hi|exact Hs].
Qed.

(** No call of GetOrSet is stuck.  In every reachable state, whoever holds the
    lock and whatever else is under way, a call that has not returned can return after at
    most ten steps of its own and of the flight it waits for, and one more for every value
    the callback stores itself. *)
Theorem RedisCache_GetOrSet_returns s d ls y c g : typed s → (∀ k, GET s (RedisKey k) = None) → run_steps step (cache_start s d) ls = Some y →
  gets y !! c = Some g → returns_within (10 + a) y c g.
Proof.
  intros Hty Hn Hr Hg. pose proof (weak_inv _ _ _ _ Hty Hn Hr) as Hi. destruct (g_pc g) as [| |t|r] eqn:Hpc.
  - assert (step y (LFast c false 0) = Some (put_get c g CJoin y)) as Hs by (cbn [cache_step]; rewrite Hg; simpl; by rewrite Hpc).
    apply (returns_step (9 + a) _ _ _ _ _ (mkGet (g_inst g) (g_key g) CJoin) Hs); [done|done|]. apply join_returns; [| |done].
    + eapply cache_step_inv with (l := LFast c false 0); [by intros []|exact Hi|exact Hs].
    + simpl. apply list_lookup_insert_eq. by eapply lookup_lt_Some.
  - destruct (join_returns y c g Hi Hg Hpc) as (ks' & y' & r & Hlen & ?). exists ks', y', r. split; [lia|done].
  - destruct (wait_returns y c g t Hi Hg Hpc) as (ks' & y' & r & Hlen & ?). exists ks', y', r. split; [lia|done].
  - exists [], y, r. pose proof (ci_gets _ _ _ _ _ _ Hi _ _ Hg) as Hok. unfold get_ok in Hok. rewrite Hpc in Hok.
    split_and!; [simpl; lia|done| |done]. rewrite Hg. destruct g; simpl in *. by subst.
Qed.
End theorems.

(** ** Concrete runs *)
Section witnesses.
#[local] Existing Instances RedisMap.ops RedisMap.laws.
(** The database is the number it holds for every key; 0 is an error. *)
Definition ex_callback (d : nat) (key : string) : string + nat := match d with O => inl "no rows"%string | _ => inr d end.
Definition no_extra (key : string) (v : nat) : list (string * nat) := [].
Abbreviation rmap := (RedisMap.t nat).
Abbreviation ex_step := (cache_step (K := rmap) "p" 300 60 None ex_callback no_extra).
Definition ex_at (ls : list (cache_label (D := nat))) : cache_sys := default (cache_start ∅ 1%nat) (run_steps ex_step (cache_start ∅ 1%nat) ls).
Definition ex_flight : list (cache_label (D := nat)) := [LGet 0 "k"; LFast 0 true 0; LJoin 0; LObtain 0; LCheck 0 true; LCall 0].
(** Two instances miss; the second is refused the lock until the first has stored. *)
Definition ex_two : list (cache_label (D := nat)) :=
  ex_flight ++ [LGet 1 "k"; LFast 1 true 0; LJoin 1; LSet 0 RDone; LRelease 0 true; LEnd 0; LReturn 0; LObtain 1; LCheck 1 true; LRelease 1 true; LEnd 1; LReturn 1].
Lemma ex_empty k : GET (∅ : rmap) (RedisKey "p" k) = None.
Proof. done. Qed.
Lemma ex_typed : typed (V := nat) (∅ : rmap).
Proof. intros k. by exists None. Qed.
Lemma RedisCache_answers_witness : (g_pc <$> gets (ex_at ex_two) !! 1%nat = Some (CReturned (inr 1%nat))) ∧ answer_ok None ex_callback no_extra (ex_at ex_two) "k" (inr 1%nat : string + nat).
Proof.
  split; [by vm_compute|].
  destruct (RedisCache_answers (K := rmap) "p" 300 60 None ex_callback no_extra ∅ 1%nat ex_two (ex_at ex_two) ex_typed ex_empty ltac:(by vm_compute)) as [H _].
  exact (H 1%nat (mkGet 1 "k" (CReturned (inr 1%nat))) ltac:(by vm_compute)).
Defined.
(** The key is filled, the database changes, the key is deleted and filled again. *)
Definition ex_filled : list (cache_label (D := nat)) := ex_flight ++ [LSet 0 RDone; LRelease 0 true; LEnd 0; LReturn 0; LDb 2%nat; LDelete 0 "k"; LObtain 1].
Definition ex_refill : list (cache_label (D := nat)) := [LRelease 1 true; LEnd 1; LGet 0 "k"; LFast 1 true 0; LJoin 1; LObtain 2; LCheck 2 true; LCall 2; LSet 2 RDone].
Lemma RedisCache_GetOrSet_returns_witness : returns_within "p" 300 60 None ex_callback no_extra 10 (ex_at (take 3 ex_flight)) 0 (mkGet 0 "k" (CWait 0)).
Proof.
  apply (RedisCache_GetOrSet_returns (K := rmap) "p" 300 60 None ex_callback no_extra 0 ltac:(intros; simpl; lia) ∅ 1%nat (take 3 ex_flight) (ex_at (take 3 ex_flight)) 0 (mkGet 0 "k" (CWait 0)) ex_typed ex_empty).
  - by vm_compute.
  - by vm_compute.
Defined.
(** [DeleteByPrefix] takes no lock: a flight that read the database before it changed
    stores the old value after the deletion. *)
Definition ex_sweep : list (cache_label (D := nat)) := ex_flight ++ [LDb 2%nat; LSweep "k"; LScan 0 [] false; LSet 0 RDone].
Example DeleteByPrefix_repopulated : sweeps (ex_at ex_sweep) = [SDone []] ∧ getFromRedis "p" (ks (ex_at ex_sweep)) "k" true = Some 1%nat ∧ last (dbs (ex_at ex_sweep)) = Some 2%nat.
Proof. by vm_compute. Qed.
(** A flight whose lock expires while it needs it does the same to [Delete]. *)
Definition ex_lost : list (cache_label (D := nat)) := ex_flight ++ [LDb 2%nat; LLoseLock "k"; LDelete 1 "k"; LObtain 1; LDel 1 RDone; LSet 0 RDone].
Example lost_lock_repopulates : getFromRedis "p" (ks (ex_at ex_lost)) "k" true = Some 1%nat.
Proof. by vm_compute. Qed.
End witnesses.
