(* ===== verification/Names.v ===== *)
(** * Names and sandbox addresses

    packages/shared/pkg/id/id.go: sandbox IDs, tags and names of templates
    ("namespace/alias:tag"); packages/shared/pkg/proxy/host.go: the sandbox and port that
    a request to a proxy names, in its host or in two headers.  Strings are ASCII: the
    space and case of other characters are not modelled.  [strings.Cut], [ToLower] and the
    rest are those of the standard library. *)
From Stdlib Require Import Ascii.
From S2P Require Import Prelude IpNet Egress.

(** ** strings *)
Definition is_space (c : ascii) : bool := let n := N_of_ascii c in (n =? 32)%N || ((9 <=? n)%N && (n <=? 13)%N).
Fixpoint TrimLeft (s : string) : string :=
  match s with EmptyString => EmptyString | String c s' => if is_space c then TrimLeft s' else s end.
Fixpoint TrimRight (s : string) : string :=
  match s with
  | EmptyString => EmptyString
  | String c s => match TrimRight s with EmptyString => if is_space c then EmptyString else String c EmptyString | r => String c r end
  end.
Definition TrimSpace (s : string) : string := TrimLeft (TrimRight s).
Fixpoint all_chars (p : ascii → bool) (s : string) : bool := match s with EmptyString => true | String c s => p c && all_chars p s end.
(** A regular expression that wants one or more characters of a class. *)
Definition matches (p : ascii → bool) (s : string) : bool := negb (String.eqb s "") && all_chars p s.
(** [strings.Split] with a separator of one character. *)
Fixpoint split_char (c : ascii) (s : string) : list string :=
  match s with
  | EmptyString => [EmptyString]
  | String c' s => if decide (c' = c) then EmptyString :: split_char c s
                   else match split_char c s with x :: xs => String c' x :: xs | [] => [String c' EmptyString] end
  end.
(** [strconv.ParseUint] in base 10 for 64 bits. *)
Fixpoint uint_from (s : string) (n : Z) : option Z :=
  match s with
  | EmptyString => Some n
  | String c s => d ← digit c; if 2 ^ 64 <=? n * 10 + d then None else uint_from s (n * 10 + d)
  end.
Definition ParseUint (s : string) : option Z := if String.eqb s "" then None else uint_from s 0.

(** ** id.go *)
Definition DefaultTag : string := "default".
Definition TagSeparator : ascii := ":".
Definition NamespaceSeparator : ascii := "/".
Definition between (lo hi : N) (c : ascii) : bool := (lo <=? N_of_ascii c)%N && (N_of_ascii c <=? hi)%N.
(** [a-z0-9], with "-" and "_", with "." too. *)
Definition sandboxIDRegex (c : ascii) : bool := between 97 122 c || between 48 57 c.
Definition identifierRegex (c : ascii) : bool := sandboxIDRegex c || bool_decide (c = "-"%char) || bool_decide (c = "_"%char).
Definition tagRegex (c : ascii) : bool := identifierRegex c || bool_decide (c = "."%char).
Inductive id_error := InvalidSandboxID (sandboxID : string) | Invalid (name value : string) | TagIsUUID | NamespaceMismatch (namespace team : string).

Definition ValidateSandboxID (sandboxID : string) : option id_error := if matches sandboxIDRegex sandboxID then None else Some (InvalidSandboxID sandboxID).
Definition cleanAndValidate (value name : string) (re : ascii → bool) : res id_error string :=
  let cleaned := ToLower (TrimSpace value) in
  if matches re cleaned then Ok cleaned else Err (Invalid name value).
(** [is_uuid] is whether [uuid.Parse] accepts the string. *)
Definition validateTag (is_uuid : string → bool) (tag : string) : res id_error string :=
  cleanedTag ← cleanAndValidate tag "tag" tagRegex;
  if is_uuid cleanedTag then Err TagIsUUID else Ok cleanedTag.
Fixpoint ValidateAndDeduplicateTags (is_uuid : string → bool) (tags : list string) (seen : gset string) : res id_error (gset string) :=
  match tags with
  | [] => Ok seen
  | tag :: tags => cleanedTag ← validateTag is_uuid tag; ValidateAndDeduplicateTags is_uuid tags ({[cleanedTag]} ∪ seen)
  end.
Definition SplitIdentifier (identifier : string) : option string * string :=
  match cut NamespaceSeparator identifier with
  | Some (before, after) => (Some before, after)
  | None => (None, identifier)
  end.
Definition WithTag (identifier tag : string) : string := identifier +:+ String TagSeparator tag.
Definition WithNamespace (namespace alias : string) : string := namespace +:+ String NamespaceSeparator alias.
Definition ParseName (input : string) : res id_error (string * option string) :=
  let input := TrimSpace input in
  let '(identifierPart, tagPart) := match cut TagSeparator input with Some (a, b) => (a, Some b) | None => (input, None) end in
  let '(namespacePart, aliasPart) := SplitIdentifier identifierPart in
  tag ← match tagPart with
        | Some t => validated ← cleanAndValidate t "tag" tagRegex; Ok (if EqualFold validated DefaultTag then None else Some validated)
        | None => Ok None
        end;
  namespace ← match namespacePart with
              | Some n => validated ← cleanAndValidate n "namespace" identifierRegex; Ok (Some validated)
              | None => Ok None
              end;
  alias ← cleanAndValidate aliasPart "template ID" identifierRegex;
  Ok (match namespace with Some n => WithNamespace n alias | None => alias end, tag).
Definition ExtractAlias (identifier : string) : string := (SplitIdentifier identifier).2.
Definition ValidateNamespaceMatchesTeam (identifier teamSlug : string) : option id_error :=
  match (SplitIdentifier identifier).1 with
  | Some namespace => if String.eqb namespace teamSlug then None else Some (NamespaceMismatch namespace teamSlug)
  | None => None
  end.

(** ** host.go *)
Inductive host_error := ErrInvalidHost | ErrInvalidSandboxID | InvalidSandboxPort (port : string) | MissingHeader (header : string).
Definition headerSandboxID : string := "E2b-Sandbox-Id".
Definition headerSandboxPort : string := "E2b-Sandbox-Port".
Definition parseHost (host : string) : res host_error (string * Z) :=
  match cut "."%char host with
  | None => Err ErrInvalidHost
  | Some (host, _) =>
      match split_char "-"%char host with
      | sandboxPortString :: sandboxID :: _ =>
          match ParseUint sandboxPortString with Some p => Ok (sandboxID, p) | None => Err (InvalidSandboxPort sandboxPortString) end
      | _ => Err ErrInvalidHost
      end
  end.
(** [h] is [Header.Get]: the first value of a header, empty when there is none. *)
Definition parseHeaders (h : string → string) : res host_error (option (string * Z)) :=
  let sandboxID := h headerSandboxID in
  let portString := h headerSandboxPort in
  if String.eqb sandboxID "" && String.eqb portString "" then Ok None
  else if String.eqb sandboxID "" then Err (MissingHeader headerSandboxID)
  else if String.eqb portString "" then Err (MissingHeader headerSandboxPort)
  else match ParseUint portString with Some p => Ok (Some (sandboxID, p)) | None => Err (InvalidSandboxPort portString) end.
Definition GetTargetFromRequest (processHeaders : bool) (h : string → string) (host : string) : res host_error (string * Z) :=
  headers ← (if processHeaders then parseHeaders h else Ok None);
  target ← match headers with Some t => Ok t | None => parseHost host end;
  match ValidateSandboxID target.1 with None => Ok target | Some _ => Err ErrInvalidSandboxID end.
(** The host that a client builds for envd (shared/pkg/grpc/envd_command.go). *)
Definition sandbox_host (port sandboxID domain : string) : string := port +:+ "-" +:+ sandboxID +:+ "-00000000." +:+ domain.

(** ** Lemmas on characters and strings *)
(** A property of all characters, by cases on their bits. *)
Ltac all_ascii c := destruct c as [[] [] [] [] [] [] [] []]; vm_compute; try done; try (by intros; split_and?).
Definition plain (c : ascii) : bool := tagRegex c || bool_decide (c = NamespaceSeparator) || bool_decide (c = TagSeparator).
Lemma plain_not_space c : plain c = true → is_space c = false.
Proof. all_ascii c. Qed.
Lemma tag_lower c : tagRegex c = true → lower c = c.
Proof. all_ascii c. Qed.
Lemma tag_separators c : tagRegex c = true → c ≠ NamespaceSeparator ∧ c ≠ TagSeparator.
Proof. all_ascii c. Qed.
Lemma sandboxID_separators c : sandboxIDRegex c = true → c ≠ "-"%char ∧ c ≠ "."%char.
Proof. all_ascii c. Qed.
Lemma digit_sandboxID c d : digit c = Some d → sandboxIDRegex c = true ∧ 0 <= d < 10.
Proof.
  unfold digit, sandboxIDRegex, between. destruct (_ && _) eqn:E; [|done]. intros [= <-]. apply andb_true_iff in E as [H1%Z.leb_le H2%Z.leb_le].
  split; [|lia]. apply orb_true_iff. right. apply andb_true_iff. split; apply N.leb_le; lia.
Qed.
Lemma identifier_tag c : identifierRegex c = true → tagRegex c = true.
Proof. unfold tagRegex. by intros ->. Qed.
Lemma tag_plain c : tagRegex c = true → plain c = true.
Proof. unfold plain. by intros ->. Qed.

Lemma all_chars_app p a b : all_chars p (a +:+ b) = all_chars p a && all_chars p b.
Proof. induction a as [|c a IH]; [done|]. change (p c && all_chars p (a +:+ b) = (p c && all_chars p a) && all_chars p b). rewrite IH. by destruct (p c). Qed.
Lemma all_chars_impl (p q : ascii → bool) s : (∀ c, p c = true → q c = true) → all_chars p s = true → all_chars q s = true.
Proof. intros Hpq. induction s as [|c s IH]; simpl; [done|]. rewrite !andb_true_iff. naive_solver. Qed.
Lemma matches_all p s : matches p s = true → all_chars p s = true ∧ s ≠ "".
Proof. unfold matches. rewrite andb_true_iff, negb_true_iff. intros [?%String.eqb_neq ?]. done. Qed.
Lemma all_matches p s : all_chars p s = true → s ≠ "" → matches p s = true.
Proof. intros H1 H2%String.eqb_neq. unfold matches. by rewrite H1, H2. Qed.
Lemma TrimRight_plain s : all_chars plain s = true → TrimRight s = s.
Proof.
  induction s as [|c s IH]; [done|]. simpl. intros [Hc Hs]%andb_true_iff. rewrite (IH Hs). destruct s as [|c' s]; [|done]. by rewrite plain_not_space.
Qed.
Lemma TrimSpace_plain s : all_chars plain s = true → TrimSpace s = s.
Proof.
  intros Hs. unfold TrimSpace. rewrite (TrimRight_plain s Hs). destruct s as [|c s]; [done|]. simpl in *. apply andb_true_iff in Hs as [Hc _]. by rewrite plain_not_space.
Qed.
Lemma ToLower_tag s : all_chars tagRegex s = true → ToLower s = s.
Proof. induction s as [|c s IH]; [done|]. simpl. intros [Hc Hs]%andb_true_iff. by rewrite (tag_lower c Hc), (IH Hs). Qed.
Lemma cut_at c a b : all_chars (λ x, bool_decide (x ≠ c)) a = true → cut c (a +:+ String c b) = Some (a, b).
Proof.
  induction a as [|x a IH]; simpl; [by rewrite decide_True|]. intros [Hx%bool_decide_eq_true Ha]%andb_true_iff.
  rewrite decide_False by done. change (String.append a (String c b)) with (a +:+ String c b). by rewrite IH.
Qed.
Lemma cut_none c s : all_chars (λ x, bool_decide (x ≠ c)) s = true → cut c s = None.
Proof. induction s as [|x s IH]; simpl; [done|]. intros [Hx%bool_decide_eq_true Hs]%andb_true_iff. rewrite decide_False by done. by rewrite IH. Qed.
Lemma split_char_app c a b : all_chars (λ x, bool_decide (x ≠ c)) a = true → split_char c (a +:+ String c b) = a :: split_char c b.
Proof.
  induction a as [|x a IH]; simpl; [by rewrite decide_True|]. intros [Hx%bool_decide_eq_true Ha]%andb_true_iff.
  rewrite decide_False by done. change (String.append a (String c b)) with (a +:+ String c b). by rewrite IH.
Qed.
Lemma without_char (p : ascii → bool) c s : (∀ x, p x = true → x ≠ c) → all_chars p s = true → all_chars (λ x, bool_decide (x ≠ c)) s = true.
Proof. intros Hp. apply all_chars_impl. intros x Hx. apply bool_decide_eq_true. auto. Qed.

(** ** What the parsers accept *)
Lemma clean_matches value name re cleaned : cleanAndValidate value name re = Ok cleaned → matches re cleaned = true.
Proof. unfold cleanAndValidate. intros Hc. destruct (matches re _) eqn:Hm; by simplify_eq. Qed.
Lemma clean_fixed name re s : (∀ c, re c = true → tagRegex c = true) → matches re s = true → cleanAndValidate s name re = Ok s.
Proof.
  intros Hre Hm. destruct (matches_all _ _ Hm) as [Hall _]. pose proof (all_chars_impl _ _ _ Hre Hall) as Htag.
  unfold cleanAndValidate. rewrite TrimSpace_plain by (by eapply all_chars_impl; [exact tag_plain|]). by rewrite (ToLower_tag _ Htag), Hm.
Qed.
(** A name as [ParseName] gives it. *)
Definition identifier_ok (identifier : string) : Prop :=
  ∃ namespace alias, matches identifierRegex alias = true ∧ (∀ n, namespace = Some n → matches identifierRegex n = true) ∧
    identifier = match namespace with Some n => WithNamespace n alias | None => alias end.
Definition tag_ok (tag : option string) : Prop := ∀ t, tag = Some t → matches tagRegex t = true ∧ t ≠ DefaultTag.
Lemma identifier_chars identifier : identifier_ok identifier → all_chars (λ c, identifierRegex c || bool_decide (c = NamespaceSeparator)) identifier = true.
Proof.
  intros ([n|] & alias & [Ha _]%matches_all & Hn & ->).
  - destruct (matches_all _ _ (Hn n eq_refl)) as [Hn' _]. unfold WithNamespace. rewrite all_chars_app. apply andb_true_iff. split; [|simpl];
      eapply all_chars_impl; [|exact Hn'| |exact Ha]; by intros c ->.
  - eapply all_chars_impl; [|exact Ha]. by intros c ->.
Qed.
Lemma SplitIdentifier_alias alias : matches identifierRegex alias = true → SplitIdentifier alias = (None, alias).
Proof.
  intros [Ha _]%matches_all. unfold SplitIdentifier. rewrite cut_none; [done|]. eapply without_char; [|exact Ha]. intros c Hc. by apply tag_separators, identifier_tag.
Qed.
Lemma SplitIdentifier_WithNamespace n alias : matches identifierRegex n = true → SplitIdentifier (WithNamespace n alias) = (Some n, alias).
Proof.
  intros [Hn _]%matches_all. unfold SplitIdentifier, WithNamespace. rewrite cut_at; [done|]. eapply without_char; [|exact Hn]. intros c Hc. by apply tag_separators, identifier_tag.
Qed.
Lemma ParseName_accepted input identifier tag : ParseName input = Ok (identifier, tag) → identifier_ok identifier ∧ tag_ok tag.
Proof.
  unfold ParseName. destruct (match cut _ _ with Some _ => _ | None => _ end) as [identifierPart tagPart].
  destruct (SplitIdentifier identifierPart) as [namespacePart aliasPart].
  intros (t & Ht & (n & Hn & (alias & Ha & Hp)%res_bind_Ok)%res_bind_Ok)%res_bind_Ok. injection Hp as <- <-. split.
  - exists n, alias. split; [by eapply clean_matches|]. split; [|done]. intros m ->.
    destruct namespacePart; [|done]. apply res_bind_Ok in Hn as (v & Hv & [= <-]). by eapply clean_matches.
  - intros u ->. destruct tagPart; [|done]. apply res_bind_Ok in Ht as (v & Hv & Hu). destruct (EqualFold _ _) eqn:Hf; [done|]. injection Hu as <-.
    split; [by eapply clean_matches|]. intros ->. unfold EqualFold in Hf. by rewrite String.eqb_refl in Hf.
Qed.
Lemma parse_identifier identifier (tag : option string) : identifier_ok identifier →
  (let '(namespacePart, aliasPart) := SplitIdentifier identifier in
   namespace ← match namespacePart with
               | Some n => validated ← cleanAndValidate n "namespace" identifierRegex; Ok (Some validated)
               | None => Ok None
               end;
   alias ← cleanAndValidate aliasPart "template ID" identifierRegex;
   Ok (match namespace with Some n => WithNamespace n alias | None => alias end, tag)) = Ok (identifier, tag).
Proof.
  intros (namespace & alias & Ha & Hn & ->). destruct namespace as [n|].
  - rewrite SplitIdentifier_WithNamespace by auto. rewrite (clean_fixed _ _ n identifier_tag) by auto. simpl.
    by rewrite (clean_fixed _ _ alias identifier_tag).
  - rewrite SplitIdentifier_alias by done. simpl. by rewrite (clean_fixed _ _ alias identifier_tag).
Qed.
Lemma ParseName_identifier identifier : identifier_ok identifier → ParseName identifier = Ok (identifier, None).
Proof.
  intros Hi. pose proof (identifier_chars _ Hi) as Hc. pose proof (parse_identifier identifier None Hi) as Hp.
  unfold ParseName. rewrite TrimSpace_plain, cut_none.
  - by destruct (SplitIdentifier identifier).
  - eapply without_char; [|exact Hc]. intros c [Hx|Hx%bool_decide_eq_true]%orb_true_iff; [by apply tag_separators, identifier_tag|by subst].
  - eapply all_chars_impl; [|exact Hc]. intros c [Hx|Hx]%orb_true_iff; unfold plain; [by rewrite (identifier_tag c Hx)|rewrite Hx; by destruct (tagRegex c)].
Qed.
Lemma ParseName_WithTag identifier t : identifier_ok identifier → matches tagRegex t = true →
  ParseName (WithTag identifier t) = Ok (identifier, if EqualFold t DefaultTag then None else Some t).
Proof.
  intros Hi Ht. pose proof (identifier_chars _ Hi) as Hc. pose proof (parse_identifier identifier (if EqualFold t DefaultTag then None else Some t) Hi) as Hp.
  destruct (matches_all _ _ Ht) as [Ht' _]. unfold ParseName, WithTag. rewrite TrimSpace_plain, cut_at.
  - rewrite (clean_fixed "tag" tagRegex t) by done. by destruct (SplitIdentifier identifier).
  - eapply without_char; [|exact Hc]. intros c [Hx|Hx%bool_decide_eq_true]%orb_true_iff; [by apply tag_separators, identifier_tag|by subst].
  - rewrite all_chars_app. apply andb_true_iff. split; [|apply andb_true_iff; split; [done|by eapply all_chars_impl; [exact tag_plain|]]].
    eapply all_chars_impl; [|exact Hc]. intros c [Hx|Hx]%orb_true_iff; unfold plain; [by rewrite (identifier_tag c Hx)|rewrite Hx; by destruct (tagRegex c)].
Qed.

(** The names of templates are canonical.  What ParseName accepts is an alias or
    "namespace/alias" in the characters of the regular expression, and a tag that is not
    the default one; parsing the name again, with its tag or with the default tag, gives
    the same identifier and the same tag. *)
Theorem ParseName_canonical input identifier tag : ParseName input = Ok (identifier, tag) →
  identifier_ok identifier ∧ tag_ok tag ∧
  ParseName (match tag with Some t => WithTag identifier t | None => identifier end) = Ok (identifier, tag) ∧
  ParseName (WithTag identifier DefaultTag) = Ok (identifier, None).
Proof.
  intros [Hi Ht]%ParseName_accepted. split_and!; [done|done| |by rewrite ParseName_WithTag].
  destruct tag as [t|]; [|by apply ParseName_identifier]. destruct (Ht t eq_refl) as [Hm Hne]. rewrite ParseName_WithTag by done.
  destruct (EqualFold t DefaultTag) eqn:Hf; [|done]. apply String.eqb_eq in Hf. destruct (matches_all _ _ Hm) as [Hall _].
  rewrite (ToLower_tag t Hall) in Hf. done.
Qed.
Lemma ParseName_canonical_witness : ParseName " Team/Base:V1 " = Ok ("team/base", Some "v1") ∧ ParseName (WithTag "team/base" "v1") = Ok ("team/base", Some "v1").
Proof. split; [by vm_compute|]. exact (proj1 (proj2 (proj2 (ParseName_canonical " Team/Base:V1 " "team/base" (Some "v1") ltac:(by vm_compute))))). Defined.

(** ** Requests to a sandbox *)
Lemma uint_bounds s n p : uint_from s n = Some p → 0 <= n < 2 ^ 64 → 0 <= p < 2 ^ 64.
Proof.
  revert n. induction s as [|c s IH]; intros n Hp Hn; simpl in Hp; [by simplify_eq|].
  apply bind_Some in Hp as (d & Hd%digit_sandboxID & Hp). destruct (Z.leb_spec (2 ^ 64) (n * 10 + d)); [done|]. eapply IH; [done|lia].
Qed.
Lemma uint_chars s n p : uint_from s n = Some p → all_chars sandboxIDRegex s = true.
Proof.
  revert n. induction s as [|c s IH]; intros n Hp; simpl in *; [done|]. apply bind_Some in Hp as (d & Hd%digit_sandboxID & Hp).
  case_match; [done|]. apply andb_true_iff. split; [by destruct Hd|by eapply IH].
Qed.
Lemma ParseUint_ok s p : ParseUint s = Some p → 0 <= p < 2 ^ 64 ∧ all_chars sandboxIDRegex s = true.
Proof. unfold ParseUint. destruct (String.eqb s ""); [done|]. intros Hp. split; [by eapply uint_bounds|by eapply uint_chars]. Qed.
Lemma parseHost_build port p sandboxID domain : ParseUint port = Some p → matches sandboxIDRegex sandboxID = true →
  parseHost (sandbox_host port sandboxID domain) = Ok (sandboxID, p).
Proof.
  intros Hp [Hs _]%matches_all. destruct (ParseUint_ok _ _ Hp) as [_ Hc]. unfold parseHost, sandbox_host.
  assert (port +:+ "-" +:+ sandboxID +:+ "-00000000." +:+ domain = (port +:+ "-" +:+ sandboxID +:+ "-00000000") +:+ String "." domain) as ->.
  { clear. assert (∀ a b c : string, (a +:+ b) +:+ c = a +:+ (b +:+ c)) as Hassoc.
    { intros a b c. induction a as [|x a IH]; [done|]. change (String x ((a +:+ b) +:+ c) = String x (a +:+ (b +:+ c))). by rewrite IH. }
    rewrite !Hassoc. done. }
  rewrite cut_at.
  - change (port +:+ "-" +:+ sandboxID +:+ "-00000000") with (port +:+ String "-" (sandboxID +:+ String "-" "00000000")).
    rewrite split_char_app by (eapply without_char; [|exact Hc]; intros c Hx; by apply sandboxID_separators).
    rewrite split_char_app by (eapply without_char; [|exact Hs]; intros c Hx; by apply sandboxID_separators). by rewrite Hp.
  - rewrite !all_chars_app. rewrite !andb_true_iff. split_and!; [|done| |done]; (eapply without_char; [|eassumption]; intros c Hx; by apply sandboxID_separators).
Qed.

Lemma parseHost_port host sandboxID port : parseHost host = Ok (sandboxID, port) → 0 <= port < 2 ^ 64.
Proof.
  unfold parseHost. destruct (cut _ _) as [[a b]|]; [|done]. destruct (split_char _ _) as [|ps [|x xs]]; try done.
  destruct (ParseUint ps) as [p|] eqn:Hp; [|done]. intros [= _ <-]. by destruct (ParseUint_ok _ _ Hp).
Qed.
Lemma parseHeaders_port h sandboxID port : parseHeaders h = Ok (Some (sandboxID, port)) → 0 <= port < 2 ^ 64.
Proof.
  unfold parseHeaders. repeat (case_match; try done). intros [= _ <-]. by eapply ParseUint_ok.
Qed.

(** The address of a request.  A request that a proxy accepts names a sandbox ID of
    lower-case letters and digits only, so it is no pattern or path in a key, and a 64-bit
    port; and the host that a client builds from a valid ID and a port is read back as
    that ID and port, with headers processed or not, unless the headers name another. *)
Theorem GetTarget_canonical processHeaders h host sandboxID port : GetTargetFromRequest processHeaders h host = Ok (sandboxID, port) →
  matches sandboxIDRegex sandboxID = true ∧ 0 <= port < 2 ^ 64 ∧
  (∀ portString domain, ParseUint portString = Some port →
    GetTargetFromRequest false h (sandbox_host portString sandboxID domain) = Ok (sandboxID, port) ∧
    (h headerSandboxID = "" → h headerSandboxPort = "" → GetTargetFromRequest true h (sandbox_host portString sandboxID domain) = Ok (sandboxID, port))).
Proof.
  intros Hg. unfold GetTargetFromRequest in Hg. apply res_bind_Ok in Hg as (headers & Hh & (target & Ht & Hg)%res_bind_Ok).
  unfold ValidateSandboxID in Hg. destruct (matches sandboxIDRegex target.1) eqn:Hm; [|done]. injection Hg as ->. simpl in Hm.
  assert (0 <= port < 2 ^ 64) as Hport.
  { destruct headers as [x|]; [injection Ht as ->|by eapply parseHost_port]. destruct processHeaders; [|done]. by eapply parseHeaders_port. }
  split; [done|]. split; [done|]. intros ps domain Hp. unfold GetTargetFromRequest, ValidateSandboxID. split; [|intros H1 H2; unfold parseHeaders; rewrite H1, H2];
    simpl; rewrite (parseHost_build _ _ _ _ Hp Hm); simpl; by rewrite Hm.
Qed.
Lemma GetTarget_canonical_witness : GetTargetFromRequest false (λ _, "") "49983-abc1-x.e2b.app" = Ok ("abc1", 49983) ∧
  GetTargetFromRequest false (λ _, "") (sandbox_host "49983" "abc1" "dev") = Ok ("abc1", 49983).
Proof.
  split; [by vm_compute|].
  exact (proj1 (proj2 (proj2 (GetTarget_canonical false (λ _, "") "49983-abc1-x.e2b.app" "abc1" 49983 ltac:(by vm_compute))) "49983" "dev" ltac:(by vm_compute))).
Defined.
