(* ===== verification/Templates.v ===== *)
(** * Template and snapshot caches of the API

    packages/api/internal/cache: [alias_cache.go] resolves "namespace/alias", a bare alias
    or a template ID to a template, [cache.go] has templates with their builds and the
    access check, [template_metadata_cache.go] and [snapshot_cache.go] the two simpler
    caches.  Each is a [RedisCache] with its own callback.  The database and its queries
    are parameters; a callback reads one state of it. *)
From Stdlib Require Import Ascii.
From S2P Require Import Prelude IpNet Egress Names Redis RedisCache.

(** A query for one row. *)
Inductive db_result A := Row (a : A) | NoRows | DbError (text : string).
Arguments Row {A} a.
Arguments NoRows {A}.
Arguments DbError {A} text.
Inductive template_error := ErrTemplateNotFound | ErrAccessDenied | ErrClusterMismatch | FetchError (text : string).
(** The code and the message for the client. *)
Definition ErrorToAPIError (err : template_error) (identifier : string) : Z * string :=
  match err with
  | ErrTemplateNotFound => (404, "template '" +:+ identifier +:+ "' not found")
  | ErrAccessDenied => (403, "you don't have access to template '" +:+ identifier +:+ "'")
  | ErrClusterMismatch => (400, "template '" +:+ identifier +:+ "' is not available in the requested cluster")
  | FetchError _ => (500, "error resolving template '" +:+ identifier +:+ "'")
  end.

Section templates.
Context {ID Build D : Type} `{EqDecision ID}.
(** The queries: templates by alias and namespace and by ID, with team; metadata by ID;
    templates with a build by tag; the last snapshot of a sandbox. *)
Record template_row := mkTemplateRow { row_id : string; row_team : ID; row_public : bool; row_cluster : option ID }.
Context (GetTemplateByAlias : D → string → option string → db_result (string * ID)) (GetTemplateById : D → string → db_result template_row).
Context (GetTemplateWithBuildByTag : D → string → option string → db_result (template_row * Build)).
Context (LocalClusterID : ID).

(** ** alias_cache.go *)
Record AliasInfo := mkAlias { TemplateID : string; TeamID : ID; NotFound : bool }.
Definition aliasCacheKeyPrefix : string := "template:alias".
Definition buildAliasKey (namespace : option string) (alias : string) : string :=
  match namespace with None => alias | Some n => WithNamespace n alias end.
Context (zeroID : ID).
Definition notFoundTombstone : AliasInfo := mkAlias "" zeroID true.
(** [fetchFromDB] without what it caches itself. *)
Definition fetchFromDB (d : D) (key : string) : template_error + AliasInfo :=
  let '(namespace, alias) := SplitIdentifier key in
  match GetTemplateByAlias d alias namespace with
  | Row (id, team) => inr (mkAlias id team false)
  | NoRows =>
      match namespace with
      | None =>
          match GetTemplateById d alias with
          | Row r => inr (mkAlias (row_id r) (row_team r) false)
          | NoRows => inr notFoundTombstone
          | DbError e => inl (FetchError e)
          end
      | Some _ => inr notFoundTombstone
      end
  | DbError e => inl (FetchError e)
  end.
(** [cacheByTemplateID]: what the callback stores with [Set]. *)
Definition cacheByTemplateID (originalKey : string) (info : AliasInfo) : list (string * AliasInfo) :=
  if NotFound info then []
  else let idKey := buildAliasKey None (TemplateID info) in
       if String.eqb idKey originalKey then [] else [(idKey, info)].
(** [lookup], given what [GetOrSet] returns for the key. *)
Definition alias_lookup (GetOrSet : string → template_error + AliasInfo) (namespace : option string) (alias : string) : template_error + AliasInfo :=
  match GetOrSet (buildAliasKey namespace alias) with
  | inl e => inl e
  | inr info => if NotFound info then inl ErrTemplateNotFound else inr info
  end.
(** The two lookups may see different caches. *)
Definition Resolve (get1 get2 : string → template_error + AliasInfo) (identifier namespaceFallback : string) : template_error + AliasInfo :=
  match SplitIdentifier identifier with
  | (Some namespace, alias) => alias_lookup get1 (Some namespace) alias
  | (None, alias) =>
      match alias_lookup get1 (Some namespaceFallback) alias with
      | inl ErrTemplateNotFound => alias_lookup get2 None alias
      | r => r
      end
  end.
Definition LookupByID (get : string → template_error + AliasInfo) (templateID : string) : template_error + AliasInfo := alias_lookup get None templateID.
(** The keys that [InvalidateAliasesByTemplateID] deletes, in order. *)
Definition InvalidateAliasesByTemplateID (templateID : string) (aliasKeys : list string) : list string := aliasKeys ++ [templateID].

(** ** cache.go *)
Record TemplateInfo := mkInfo { info_id : string; info_public : bool; info_team : ID; info_cluster : ID; info_build : Build; info_tag : string }.
Definition templateCacheKeyPrefix : string := "template:info".
Definition buildCacheKey (templateID tag : string) : string := "{" +:+ templateID +:+ "}:" +:+ tag.
Definition WithClusterFallback (c : option ID) : ID := default LocalClusterID c.
Definition fetchTemplateWithBuild (templateID : string) (tag : option string) (d : D) : template_error + TemplateInfo :=
  match GetTemplateWithBuildByTag d templateID tag with
  | NoRows => inl ErrTemplateNotFound
  | DbError e => inl (FetchError e)
  | Row (t, b) => inr (mkInfo (row_id t) (row_public t) (row_team t) (WithClusterFallback (row_cluster t)) b (default DefaultTag tag))
  end.
(** The callback by its key: [getByID] passes the closure of the template and tag that it
    builds the key from.  Without a tag the key has the default one, and so has the query
    (get_template_with_build_by_tag.sql). *)
Definition cache_key_args (key : string) : string * string :=
  match cut "}"%char key with
  | Some (a, b) => (String.substring 1 (String.length a - 1) a, String.substring 1 (String.length b - 1) b)
  | None => (key, "")
  end.
Definition template_callback (d : D) (key : string) : template_error + TemplateInfo :=
  let '(templateID, tag) := cache_key_args key in fetchTemplateWithBuild templateID (Some tag) d.
Definition extractKey (value : TemplateInfo) : string := buildCacheKey (info_id value) (info_tag value).
(** [TemplateCache.Get], given what [GetOrSet] returned. *)
Definition template_Get (r : template_error + TemplateInfo) (teamID clusterID : ID) : template_error + TemplateInfo :=
  match r with
  | inl e => inl e
  | inr info =>
      if negb (bool_decide (info_team info = teamID)) && negb (info_public info) then inl ErrAccessDenied
      else if negb (bool_decide (info_cluster info = clusterID)) then inl ErrClusterMismatch
      else inr info
  end.

(** ** template_build.go

    The entry of a build is filed under the ID of the build alone, but the callback asks
    for the build of one template: [GetOrSet] with the callback of one template may
    return what was fetched for another. *)
Record TemplateBuildInfo {Status Reason : Type} := mkBuildInfo {
  b_team : ID; b_template : string; b_status : Status; b_reason : Reason; b_version : option string; b_cluster : ID; b_node : option string
}.
Arguments TemplateBuildInfo Status Reason : clear implicits.
Inductive build_error := ErrTemplateBuildInfoNotFound | BuildFetchError (text : string).
Record build_row {Status Reason : Type} := mkBuildRow { br_status : Status; br_reason : Reason; br_version : option string; br_node : option string }.
Arguments build_row Status Reason : clear implicits.
Definition build_fetchFromDB {BuildID Status Reason : Type}
    (GetTemplateBuildWithTemplate : D → string → BuildID → db_result (template_row * build_row Status Reason))
    (d : D) (templateID : string) (buildID : BuildID) : build_error + TemplateBuildInfo Status Reason :=
  match GetTemplateBuildWithTemplate d templateID buildID with
  | NoRows => inl ErrTemplateBuildInfoNotFound
  | DbError e => inl (BuildFetchError e)
  | Row (t, b) => inr (mkBuildInfo Status Reason (row_team t) (row_id t) (br_status b) (br_reason b) (br_version b) (WithClusterFallback (row_cluster t)) (br_node b))
  end.

(** ** template_metadata_cache.go *)
Record TemplateMetadata := mkMetadata { m_id : string; m_team : ID; m_public : bool; m_cluster : ID }.
Definition metadata_fetchFromDB (d : D) (templateID : string) : template_error + TemplateMetadata :=
  match GetTemplateById d templateID with
  | NoRows => inl ErrTemplateNotFound
  | DbError e => inl (FetchError e)
  | Row r => inr (mkMetadata (row_id r) (row_team r) (row_public r) (WithClusterFallback (row_cluster r)))
  end.

(** ** snapshot_cache.go *)
Section snapshots.
Context {Snap : Type} (GetLastSnapshot : D → string → db_result Snap).
(** [None] is the sentinel of a sandbox without a snapshot. *)
Inductive snapshot_error := ErrSnapshotNotFound | SnapshotFetchError (text : string).
Definition snapshot_fetchFromDB (d : D) (sandboxID : string) : snapshot_error + option Snap :=
  match GetLastSnapshot d sandboxID with Row s => inr (Some s) | NoRows => inr None | DbError e => inl (SnapshotFetchError e) end.
Definition snapshot_Get (r : snapshot_error + option Snap) : snapshot_error + Snap :=
  match r with inl e => inl e | inr None => inl ErrSnapshotNotFound | inr (Some s) => inr s end.
End snapshots.
End templates.

(** ** Resolution of names *)
Section resolution.
Context {ID D : Type}.
Context (GetTemplateByAlias : D → string → option string → db_result (string * ID)) (GetTemplateById : D → string → db_result (template_row (ID := ID))).
Context (zeroID : ID).
Abbreviation fetch := (fetchFromDB GetTemplateByAlias GetTemplateById zeroID).
Abbreviation AliasInfo := (AliasInfo (ID := ID)).

(** What a name means in a state of the database: an explicit namespace has its aliases
    only; a bare name is an alias of the team, else a promoted alias, else a template ID. *)
Definition by_alias (d : D) (alias : string) (namespace : option string) (otherwise : template_error + AliasInfo) : template_error + AliasInfo :=
  match GetTemplateByAlias d alias namespace with
  | Row (id, team) => inr (mkAlias id team false)
  | NoRows => otherwise
  | DbError e => inl (FetchError e)
  end.
Definition by_id (d : D) (templateID : string) : template_error + AliasInfo :=
  match GetTemplateById d templateID with
  | Row r => inr (mkAlias (row_id r) (row_team r) false)
  | NoRows => inl ErrTemplateNotFound
  | DbError e => inl (FetchError e)
  end.
Definition meaning (d : D) (namespace : option string) (alias team : string) : template_error + AliasInfo :=
  match namespace with
  | Some n => by_alias d alias (Some n) (inl ErrTemplateNotFound)
  | None => by_alias d alias (Some team) (by_alias d alias None (by_id d alias))
  end.

Lemma lookup_namespace d n alias : matches identifierRegex n = true →
  alias_lookup (fetch d) (Some n) alias = by_alias d alias (Some n) (inl ErrTemplateNotFound).
Proof.
  intros Hn. unfold alias_lookup, buildAliasKey, fetchFromDB, by_alias. rewrite SplitIdentifier_WithNamespace by done.
  by destruct (GetTemplateByAlias d alias (Some n)) as [[id team]| |].
Qed.
Lemma lookup_bare d alias : matches identifierRegex alias = true → alias_lookup (fetch d) None alias = by_alias d alias None (by_id d alias).
Proof.
  intros Ha. unfold alias_lookup, buildAliasKey, fetchFromDB, by_alias, by_id. rewrite SplitIdentifier_alias by done.
  destruct (GetTemplateByAlias d alias None) as [[id team]| |]; try done. by destruct (GetTemplateById d alias).
Qed.

(** A name means one thing.  When the cache answers as the database does, Resolve of
    a name in the form ParseName gives, for a team with a valid slug, finds the template
    that the name means: the aliases of an explicit namespace and nothing else, or, for a
    bare name, an alias of the team, a promoted alias, or the template with that ID, in
    this order; an error of the database is never taken for a missing template. *)
Theorem Resolve_meaning d namespace alias team : matches identifierRegex team = true → matches identifierRegex alias = true →
  (∀ n, namespace = Some n → matches identifierRegex n = true) →
  Resolve (fetch d) (fetch d) (buildAliasKey namespace alias) team = meaning d namespace alias team.
Proof.
  intros Ht Ha Hn. unfold Resolve, meaning. destruct namespace as [n|]; simpl.
  - rewrite SplitIdentifier_WithNamespace by auto. apply lookup_namespace. auto.
  - rewrite SplitIdentifier_alias, lookup_namespace, lookup_bare by done. unfold by_alias at 1 3.
    by destruct (GetTemplateByAlias d alias (Some team)) as [[id tm]| |].
Qed.

(** ** Deleted templates *)
Context {K : Type} `{RedisLaws AliasInfo K}.
Abbreviation alias_step := (cache_step (K := K) aliasCacheKeyPrefix (300 * 10 ^ 9) (60 * 10 ^ 9) None fetch cacheByTemplateID).
Abbreviation ok := (label_ok (cacheByTemplateID (ID := ID)) True (D := D)).

Lemma stored_alias key v k (w : AliasInfo) : (k, w) ∈ stored None cacheByTemplateID key v → w = v ∧ (key = k ∨ (TemplateID v = k ∧ NotFound v = false)).
Proof.
  unfold stored, cacheByTemplateID, storeKey. intros [Hin|Hin]%elem_of_app.
  - destruct (NotFound v) eqn:Hn; [by apply not_elem_of_nil in Hin|]. case_match; [by apply not_elem_of_nil in Hin|].
    apply list_elem_of_singleton in Hin. simplify_eq/=. auto.
  - apply list_elem_of_singleton in Hin. simplify_eq/=. auto.
Qed.

(** A deleted template stays deleted in the cache.  InvalidateAliasesByTemplateID
    has deleted, under their locks and in version [v0] or later, the keys of all aliases
    that ever meant the template, and last deletes the key of its ID; in no version from
    [v0] on does a name mean the template.  Then, as long as no lock expires under a task
    that needs it and no flight goes on without one, the key of the ID never again holds the template,
    although every resolution of an alias writes that key under the lock of the alias. *)
Theorem Alias_deleted_stays_deleted s d ls y t r inst (templateID : string) (aliasKeys : list string) y1 ls' y2 (v0 : nat) w :
  typed s → (∀ k, GET s (RedisKey aliasCacheKeyPrefix k) = None) → Forall ok ls → run_steps alias_step (cache_start s d) ls = Some y →
  tasks y !! t = Some (mkTask KDelete inst templateID (TDel true)) → r ≠ RFailed → alias_step y (LDel t r) = Some y1 →
  (v0 < length (dbs y))%nat → (∀ key, key ∈ aliasKeys → (v0 ≤ floor y1 key)%nat) →
  (∀ m d' key info, (m < v0)%nat → dbs y1 !! m = Some d' → fetch d' key = inr info → NotFound info = false → TemplateID info = templateID →
    key ∈ InvalidateAliasesByTemplateID templateID aliasKeys) →
  Forall ok ls' → run_steps alias_step y1 ls' = Some y2 →
  (∀ m d' key info, (v0 ≤ m)%nat → dbs y2 !! m = Some d' → fetch d' key = inr info → NotFound info = true ∨ TemplateID info ≠ templateID) →
  getFromRedis aliasCacheKeyPrefix (ks y2) templateID true = Some w → NotFound w = true ∨ TemplateID w ≠ templateID.
Proof.
  intros Hty Hem Hok Hr Ht Hrf Hs Hv0 Hkeys Hcover Hok' Hr' Hdel Hg.
  assert (cache_inv aliasCacheKeyPrefix None fetch cacheByTemplateID True y) as Hi by (eapply cache_run_inv; [by apply cache_start_inv|exact Hok|exact Hr]).
  assert (floor y1 templateID = length (dbs y) - 1)%nat as Hfl by (eapply LDel_floor; [exact Ht|done|exact Hs]).
  destruct (Delete_fresh aliasCacheKeyPrefix _ _ None fetch cacheByTemplateID y y1 t r inst templateID ls' y2 v0 Hi Ht Hrf Hs) as [Hfr _ _].
  - apply step_dbs, prefix_length in Hs. lia.
  - intros m d' key v w' Hm Hd Hf [-> [->|[HT Hn]]]%stored_alias; [rewrite Hfl; lia|].
    specialize (Hcover _ _ _ _ Hm Hd Hf Hn HT). apply elem_of_app in Hcover as [Hin|Hin]; [by apply Hkeys|].
    apply list_elem_of_singleton in Hin as ->. rewrite Hfl. lia.
  - exact Hok'.
  - exact Hr'.
  - destruct (Hfr w Hg) as (m & d' & key & v & Hm & Hd & Hf & [-> _]%stored_alias). by eapply Hdel.
Qed.
End resolution.

(** ** Access to templates *)
Section access.
Context {ID Build D : Type} `{EqDecision ID}.
Context (GetTemplateWithBuildByTag : D → string → option string → db_result (template_row (ID := ID) * Build)) (LocalClusterID : ID).
(** The query returns the template that was asked for, and template IDs hold no brace. *)
Context (query_id : ∀ d id tag t b, GetTemplateWithBuildByTag d id tag = Row (t, b) → row_id t = id ∧ all_chars (λ x, bool_decide (x ≠ "}"%char)) id = true).
Abbreviation callback := (template_callback GetTemplateWithBuildByTag LocalClusterID).
Abbreviation info := (TemplateInfo (ID := ID) (Build := Build)).
Context {K : Type} `{RedisLaws info K}.
Definition no_also (key : string) (v : info) : list (string * info) := [].
Abbreviation template_step := (cache_step (K := K) templateCacheKeyPrefix (300 * 10 ^ 9) (60 * 10 ^ 9) (Some extractKey) callback no_also).

Lemma substring_all (s : string) : String.substring 0 (String.length s) s = s.
Proof. induction s as [|c s IH]; simpl; [done|by rewrite IH]. Qed.
Lemma cache_key_args_build templateID tag : all_chars (λ x, bool_decide (x ≠ "}"%char)) templateID = true →
  cache_key_args (buildCacheKey templateID tag) = (templateID, tag).
Proof.
  intros Hc. unfold cache_key_args, buildCacheKey. change ("{" +:+ templateID +:+ "}:" +:+ tag) with (String "{" templateID +:+ String "}" (String ":" tag)).
  rewrite cut_at by done. simpl. rewrite !Nat.sub_0_r. by rewrite !substring_all.
Qed.
Lemma buildCacheKey_inj a t b u : all_chars (λ x, bool_decide (x ≠ "}"%char)) a = true → all_chars (λ x, bool_decide (x ≠ "}"%char)) b = true →
  buildCacheKey a t = buildCacheKey b u → a = b ∧ t = u.
Proof. intros Ha Hb E. pose proof (cache_key_args_build a t Ha) as H1. rewrite E, (cache_key_args_build b u Hb) in H1. by simplify_eq. Qed.

(** C40: what Get hands out was allowed.  Whatever instances, flights, refreshes and
    invalidations interleave, and whatever commands and locks are lost, when Get returns
    a template and build to a team then in some state of the database since the start
    that build was the one of the template's tag, the template belonged to the team or
    was public, and it was in the cluster. *)
Theorem Template_Get_authorized s d ls y c inst templateID tag r teamID clusterID i :
  typed s → (∀ k, GET s (RedisKey templateCacheKeyPrefix k) = None) → run_steps template_step (cache_start s d) ls = Some y →
  all_chars (λ x, bool_decide (x ≠ "}"%char)) templateID = true →
  gets y !! c = Some (mkGet inst (buildCacheKey templateID tag) (CReturned r)) → template_Get r teamID clusterID = inr i →
  ∃ m d' t b, dbs y !! m = Some d' ∧ GetTemplateWithBuildByTag d' templateID (Some tag) = Row (t, b) ∧ info_id i = templateID ∧ info_build i = b ∧
    (row_team t = teamID ∨ row_public t = true) ∧ WithClusterFallback LocalClusterID (row_cluster t) = clusterID.
Proof.
  intros Hty Hem Hr Hid Hg Hget. pose proof (weak_inv _ _ _ _ _ _ _ _ _ _ Hty Hem Hr) as Hi.
  pose proof (ci_gets _ _ _ _ _ _ Hi _ _ Hg) as Hok. unfold get_ok in Hok. simpl in Hok.
  destruct r as [e|v]; [done|]. unfold template_Get in Hget. destruct (negb _ && _) eqn:Hacc; [done|]. case_bool_decide as Hcl; simplify_eq/=.
  assert (∃ m d', dbs y !! m = Some d' ∧ fetchTemplateWithBuild GetTemplateWithBuildByTag LocalClusterID templateID (Some tag) d' = inr i) as (m & d' & Hd & Hf).
  { destruct Hok as [(m & d' & Hd & Hc)|(m & d' & key & v & _ & Hd & Hc & Hin)].
    - exists m, d'. split; [done|]. unfold template_callback in Hc. by rewrite cache_key_args_build in Hc.
    - unfold stored, no_also, storeKey in Hin. simpl in Hin. apply list_elem_of_singleton in Hin. pose proof (f_equal fst Hin) as E. assert (i = v) as -> by exact (f_equal snd Hin). exists m, d'. split; [done|].
      unfold template_callback in Hc. destruct (cache_key_args key) as [id' tag'] eqn:Hargs. pose proof Hc as Hc'. unfold fetchTemplateWithBuild in Hc'.
      destruct (GetTemplateWithBuildByTag d' id' (Some tag')) as [[t b]| |] eqn:Hq; simplify_eq/=. destruct (query_id _ _ _ _ _ Hq) as [Hrow Hbrace].
      unfold extractKey in E. cbn [fst info_id info_tag] in E. rewrite Hrow in E. apply buildCacheKey_inj in E as [-> ->]; [exact Hc|done|done]. }
  unfold fetchTemplateWithBuild in Hf. destruct (GetTemplateWithBuildByTag d' templateID (Some tag)) as [[t b]| |] eqn:Hq; simplify_eq/=.
  exists m, d', t, b. split_and!; [done|done|by destruct (query_id _ _ _ _ _ Hq)|done| |done].
  apply andb_false_iff in Hacc as [Hn%negb_false_iff%bool_decide_eq_true|Hn%negb_false_iff]; auto.
Qed.
End access.

(** ** Concrete runs *)
Section witnesses.
#[local] Existing Instances RedisMap.ops RedisMap.laws.
(** A database of the API: templates by ID, and aliases. *)
Record ex_db := mkDb { d_templates : list (string * (nat * bool)); d_aliases : list (string * option string * string) }.
Definition ex_template (d : ex_db) (id : string) : option (nat * bool) := (λ x, x.2.2) <$> list_find (λ x, x.1 = id) (d_templates d).
Definition ex_byId (d : ex_db) (id : string) : db_result (template_row (ID := nat)) :=
  match ex_template d id with Some (team, public) => Row (mkTemplateRow id team public None) | None => NoRows end.
Definition ex_byAlias (d : ex_db) (alias : string) (namespace : option string) : db_result (string * nat) :=
  match list_find (λ x, x.1 = (alias, namespace)) (d_aliases d) with
  | Some (_, (_, id)) => match ex_template d id with Some (team, _) => Row (id, team) | None => NoRows end
  | None => NoRows
  end.
Definition ex_byTag (d : ex_db) (id : string) (tag : option string) : db_result (template_row (ID := nat) * nat) :=
  if all_chars (λ x, bool_decide (x ≠ "}"%char)) id then match ex_byId d id with Row t => Row (t, 7%nat) | NoRows => NoRows | DbError e => DbError e end else NoRows.
Definition ex_full : ex_db := mkDb [("t1", (1%nat, true)); ("t2", (2%nat, false))] [("base", Some "acme", "t1"); ("t1", None, "t2")].
Lemma Resolve_meaning_witness : Resolve (fetchFromDB ex_byAlias ex_byId 0%nat ex_full) (fetchFromDB ex_byAlias ex_byId 0%nat ex_full) "base" "acme" = inr (mkAlias "t1" 1%nat false).
Proof.
  etransitivity; [exact (Resolve_meaning ex_byAlias ex_byId 0%nat ex_full None "base" "acme" ltac:(by vm_compute) ltac:(by vm_compute) ltac:(done))|by vm_compute].
Defined.
(** A promoted alias that is spelled as the ID of another template: [LookupByID] finds the
    template of the alias, unless the ID is cached because an alias of its template was
    resolved. *)
Example LookupByID_resolves_aliases : LookupByID (fetchFromDB ex_byAlias ex_byId 0%nat ex_full) "t1" = inr (mkAlias "t2" 2%nat false) ∧
  cacheByTemplateID "acme/base" (mkAlias "t1" 1%nat false) = [("t1", mkAlias "t1" 1%nat false)].
Proof. by vm_compute. Qed.

Abbreviation amap := (RedisMap.t (AliasInfo (ID := nat))).
Abbreviation ex_astep := (cache_step (K := amap) aliasCacheKeyPrefix (300 * 10 ^ 9) (60 * 10 ^ 9) None (fetchFromDB ex_byAlias ex_byId 0%nat) cacheByTemplateID).
Definition ex_aliased : ex_db := mkDb [("t1", (1%nat, true))] [("base", Some "acme", "t1")].
Definition ex_gone : ex_db := mkDb [] [].
Definition ex_arun (ls : list (cache_label (D := ex_db))) : cache_sys := default (cache_start ∅ ex_aliased) (run_steps ex_astep (cache_start ∅ ex_aliased) ls).
(** The alias is being resolved while the template is deleted: the deletion of the alias
    waits for its lock. *)
Definition ex_delete : list (cache_label (D := ex_db)) :=
  [LGet 0 "acme/base"; LFast 0 true 0; LJoin 0; LObtain 0; LCheck 0 true; LCall 0; LDb ex_gone; LDelete 1 "acme/base"; LSet 0 RDone; LSet 0 RDone; LRelease 0 true;
   LObtain 1; LDel 1 RDone; LRelease 1 true; LDelete 1 "t1"; LObtain 2].
Lemma cut_Some c s a b : cut c s = Some (a, b) → s = a +:+ String c b.
Proof.
  revert a. induction s as [|x s IH]; intros a; simpl; [done|]. case_decide as Hx; [intros [= <- <-]; by subst|].
  destruct (cut c s) as [[a' b']|] eqn:Hc; [|done]. intros [= <- <-]. change (String x s = String x (a' +:+ String c b')). by rewrite (IH a').
Qed.
Lemma ex_means key info : fetchFromDB ex_byAlias ex_byId 0%nat ex_aliased key = inr info → NotFound info = false → key = "acme/base" ∨ key = "t1".
Proof.
  unfold fetchFromDB, SplitIdentifier. intros Hf Hn. destruct (cut NamespaceSeparator key) as [[a b]|] eqn:Hc.
  - apply cut_Some in Hc as ->. unfold ex_byAlias in Hf. simpl in Hf. destruct (decide _) as [E|_]; [simplify_eq; by left|]. by simplify_eq.
  - unfold ex_byAlias in Hf. simpl in Hf. destruct (decide _) as [E|_]; [done|]. unfold ex_byId, ex_template in Hf. simpl in Hf.
    destruct (decide _) as [E|_]; [subst; by right|]. injection Hf as <-. done.
Qed.
Lemma Alias_deleted_stays_deleted_witness : ∃ y1 y2 w, ex_astep (ex_arun ex_delete) (LDel 2 RDone) = Some y1 ∧
  run_steps ex_astep y1 [LRelease 2 true; LGet 0 "t1"; LFast 1 true 0; LJoin 1; LObtain 3; LCheck 3 true; LCall 3; LSet 3 RDone] = Some y2 ∧
  getFromRedis aliasCacheKeyPrefix (ks y2) "t1" true = Some w ∧ (NotFound w = true ∨ TemplateID w ≠ "t1").
Proof.
  eexists _, _, (mkAlias "" 0%nat true). split; [vm_compute; reflexivity|]. split; [vm_compute; reflexivity|]. split; [by vm_compute|].
  eapply (Alias_deleted_stays_deleted ex_byAlias ex_byId 0%nat (K := amap) ∅ ex_aliased ex_delete (ex_arun ex_delete) 2 RDone 1 "t1" ["acme/base"] _
    [LRelease 2 true; LGet 0 "t1"; LFast 1 true 0; LJoin 1; LObtain 3; LCheck 3 true; LCall 3; LSet 3 RDone] _ 1).
  - intros k. by exists None.
  - done.
  - repeat constructor; done.
  - by vm_compute.
  - by vm_compute.
  - done.
  - vm_compute. reflexivity.
  - vm_compute. lia.
  - intros key ->%list_elem_of_singleton. vm_compute. lia.
  - intros m d' key info Hm Hd Hf Hn HT. destruct m as [|m]; [|lia]. vm_compute in Hd. injection Hd as <-. unfold InvalidateAliasesByTemplateID.
    apply elem_of_app. destruct (ex_means key info Hf Hn) as [-> | ->]; [left|right]; by apply list_elem_of_singleton.
  - repeat constructor; done.
  - vm_compute. reflexivity.
  - intros m d' key info Hm Hd Hf. left. destruct m as [|[|m]]; [lia|vm_compute in Hd; injection Hd as <-|by vm_compute in Hd].
    unfold fetchFromDB in Hf. destruct (SplitIdentifier key) as [[n|] a]; vm_compute in Hf; by injection Hf as <-.
  - by vm_compute.
Defined.

Abbreviation tinfo := (TemplateInfo (ID := nat) (Build := nat)).
Abbreviation tmap := (RedisMap.t tinfo).
Abbreviation ex_tstep := (cache_step (K := tmap) templateCacheKeyPrefix (300 * 10 ^ 9) (60 * 10 ^ 9) (Some extractKey) (template_callback ex_byTag 0%nat) (no_also (ID := nat) (Build := nat))).
Definition ex_trun (ls : list (cache_label (D := ex_db))) : cache_sys := default (cache_start ∅ ex_aliased) (run_steps ex_tstep (cache_start ∅ ex_aliased) ls).
Definition ex_fetch : list (cache_label (D := ex_db)) := [LGet 0 "{t1}:default"; LFast 0 true 0; LJoin 0; LObtain 0; LCheck 0 true; LCall 0].
Definition ex_served : list (cache_label (D := ex_db)) := ex_fetch ++ [LSet 0 RDone; LRelease 0 true; LEnd 0; LReturn 0].
Lemma ex_query_id d id tag t b : ex_byTag d id tag = Row (t, b) → row_id t = id ∧ all_chars (λ x, bool_decide (x ≠ "}"%char)) id = true.
Proof. unfold ex_byTag, ex_byId. destruct (all_chars _ id); [|done]. intros Hq. split; [|done]. destruct (ex_template d id) as [[team public]|]; by simplify_eq. Qed.
Lemma Template_Get_authorized_witness : ∃ m d' t b, dbs (ex_trun ex_served) !! m = Some d' ∧ ex_byTag d' "t1" (Some "default") = Row (t, b) ∧
  (row_team t = 1%nat ∨ row_public t = true).
Proof.
  destruct (Template_Get_authorized ex_byTag 0%nat ex_query_id (K := tmap) ∅ ex_aliased ex_served (ex_trun ex_served) 0 0 "t1" "default"
    (inr (mkInfo "t1" true 1%nat 0%nat 7%nat "default")) 1%nat 0%nat (mkInfo "t1" true 1%nat 0%nat 7%nat "default")) as (m & d' & t & b & Hd & Hq & _ & _ & Ha & _).
  - intros k. by exists None.
  - done.
  - by vm_compute.
  - by vm_compute.
  - by vm_compute.
  - by vm_compute.
  - exists m, d', t, b. split; [exact Hd|]. split; [exact Hq|exact Ha].
Defined.
(** [InvalidateAllTags] takes no lock: a template that was made private while it was being
    fetched is handed to other teams afterwards. *)
Definition ex_private : ex_db := mkDb [("t1", (1%nat, false))] [("base", Some "acme", "t1")].
Definition ex_update : list (cache_label (D := ex_db)) :=
  ex_fetch ++ [LDb ex_private; LSweep (buildCacheKey "t1" ""); LScan 0 [] false; LSet 0 RDone; LRelease 0 true; LEnd 0; LReturn 0; LGet 1 "{t1}:default"; LFast 1 true 300000000000].
Example InvalidateAllTags_serves_private : sweeps (ex_trun ex_update) = [SDone []] ∧
  (λ g, match g_pc g with CReturned r => template_Get r 9%nat 0%nat | _ => inl ErrTemplateNotFound end) <$> gets (ex_trun ex_update) !! 1%nat =
    Some (inr (mkInfo "t1" true 1%nat 0%nat 7%nat "default")) ∧ (last (dbs (ex_trun ex_update)) ≫= λ d, ex_template d "t1") = Some (1%nat, false).
Proof. by vm_compute. Qed.
End witnesses.
