(* ===== verification/Multiplex.v ===== *)
(** * The multiplexer of a process's output

    packages/envd/internal/services/process/handler/multiplex.go: one goroutine takes the
    items of [Source] and sends each to every consumer that has forked; a consumer leaves
    through the function that [Fork] returned.  The consumers' channels are unbuffered
    and in one slice, which [remove] shifts in place; the goroutine holds the read lock
    while it sends, but no lock while it closes the channels at the end.  A step is a
    channel operation, a lock operation, an atomic access or one iteration.  An item a
    producer is blocked with counts as queued. *)
From S2P Require Import Prelude.

Section multiplex.
Context {T : Type}.

(** A slice: the array it points to and its length. *)
Record slice := mkSlice { s_array : nat; s_len : nat }.
Inductive sender_pc :=
  | MReceive
  | MLock (v : T)
  | MSend (v : T) (s : slice) (i : nat)          (** holds the read lock *)
  | MExit
  | MClose (s : slice) (i : nat)
  | MDone.
Inductive consumer_pc :=
  | FLoad | FLock | FAppend                      (** in [Fork]; [FAppend] holds the lock *)
  | Active                                       (** receives *)
  | Leaving                                      (** receives no more; in [remove], before the lock *)
  | Removing                                     (** in [remove], with the lock *)
  | Gone.
Record consumer := mkConsumer { k_pc : consumer_pc; k_closed : bool; received : list T; since : nat }.
(** [sent] is what was sent to all consumers there were; [since] is its length when a
    consumer was added. *)
Record mux := mkMux {
  queue : list T; src_closed : bool; sender : sender_pc; writer : option nat; exited : bool;
  arrays : list (list nat); channels : slice; consumers : list consumer; sent : list T; mux_panicked : bool
}.
Definition NewMultiplexedChannel : mux := mkMux [] false MReceive None false [[]] (mkSlice 0 0) [] [] false.

Definition set_sender (m : mux) (pc : sender_pc) : mux :=
  mkMux (queue m) (src_closed m) pc (writer m) (exited m) (arrays m) (channels m) (consumers m) (sent m) (mux_panicked m).
Definition set_consumers (m : mux) (w : option nat) (l : list consumer) : mux :=
  mkMux (queue m) (src_closed m) (sender m) w (exited m) (arrays m) (channels m) l (sent m) (mux_panicked m).
Definition set_slice (m : mux) (arrs : list (list nat)) (s : slice) : mux :=
  mkMux (queue m) (src_closed m) (sender m) (writer m) (exited m) arrs s (consumers m) (sent m) (mux_panicked m).
Definition with_pc (k : consumer) (pc : consumer_pc) : consumer := mkConsumer pc (k_closed k) (received k) (since k).
Definition upd (m : mux) (c : nat) (k : consumer) : list consumer := <[c := k]> (consumers m).
(** The elements of a slice, and one of them. *)
Definition elems (m : mux) (s : slice) : list nat := take (s_len s) (default [] (arrays m !! s_array s)).
Definition elem (m : mux) (s : slice) (i : nat) : option nat := default [] (arrays m !! s_array s) !! i.
(** [append(s, c)]: in place while the array has room, else into a new array with [extra] spare cells. *)
Definition append_chan (arrs : list (list nat)) (s : slice) (c extra : nat) : list (list nat) * slice :=
  let a := default [] (arrs !! s_array s) in
  if (s_len s <? length a)%nat then (<[s_array s := <[s_len s := c]> a]> arrs, mkSlice (s_array s) (S (s_len s)))
  else (arrs ++ [take (s_len s) a ++ c :: replicate extra O], mkSlice (length arrs) (S (s_len s))).
(** [append(s[:i], s[i+1:]...)]: shifts the cells of the array. *)
Definition remove_chan (arrs : list (list nat)) (s : slice) (i : nat) : list (list nat) * slice :=
  let a := default [] (arrs !! s_array s) in
  (<[s_array s := take i a ++ drop (S i) (take (s_len s) a) ++ drop (s_len s - 1) a]> arrs, mkSlice (s_array s) (s_len s - 1)).
Definition position (c : nat) (l : list nat) : option nat := fst <$> list_find (λ x, x = c) l.
Definition holds_rlock (pc : sender_pc) : bool := match pc with MSend _ _ _ => true | _ => false end.
(** [mu.Lock()] succeeds. *)
Definition lock_free (m : mux) : bool := negb (holds_rlock (sender m)) && bool_decide (writer m = None).

Inductive mux_label :=
  | XPush (v : T) | XCloseSource
  | XSender                               (** a step of the goroutine *)
  | XFork | XConsumer (c : nat) (extra : nat) | XLeave (c : nat).

Definition sender_step (m : mux) : option mux :=
  match sender m with
  | MReceive =>
      match queue m with
      | v :: q => Some (mkMux q (src_closed m) (MLock v) (writer m) (exited m) (arrays m) (channels m) (consumers m) (sent m) (mux_panicked m))
      | [] => if src_closed m then Some (set_sender m MExit) else None
      end
  | MLock v => if bool_decide (writer m = None) then Some (set_sender m (MSend v (channels m) 0)) else None
  | MSend v s i =>
      if (i <? s_len s)%nat then
        c ← elem m s i; k ← consumers m !! c;
        match k_pc k with
        | Active => Some (set_consumers (set_sender m (MSend v s (S i))) (writer m) (upd m c (mkConsumer Active (k_closed k) (received k ++ [v]) (since k))))
        | _ => None
        end
      else Some (mkMux (queue m) (src_closed m) MReceive (writer m) (exited m) (arrays m) (channels m) (consumers m) (sent m ++ [v]) (mux_panicked m))
  | MExit => Some (mkMux (queue m) (src_closed m) (MClose (channels m) 0) (writer m) true (arrays m) (channels m) (consumers m) (sent m) (mux_panicked m))
  | MClose s i =>
      if (i <? s_len s)%nat then
        c ← elem m s i; k ← consumers m !! c;
        Some (if k_closed k then mkMux (queue m) (src_closed m) MDone (writer m) (exited m) (arrays m) (channels m) (consumers m) (sent m) true
              else set_consumers (set_sender m (MClose s (S i))) (writer m) (upd m c (mkConsumer (k_pc k) true (received k) (since k))))
      else Some (set_sender m MDone)
  | MDone => None
  end.
Definition Fork_step (m : mux) (c : nat) (k : consumer) (extra : nat) : option mux :=
  match k_pc k with
  | FLoad =>
      Some (set_consumers m (writer m) (upd m c (if exited m then mkConsumer Gone true (received k) (since k) else with_pc k FLock)))
  | FLock => if lock_free m then Some (set_consumers m (Some c) (upd m c (with_pc k FAppend))) else None
  | FAppend =>
      let '(arrs, s) := append_chan (arrays m) (channels m) c extra in
      Some (set_slice (set_consumers m None (upd m c (mkConsumer Active (k_closed k) (received k) (length (sent m))))) arrs s)
  | _ => None
  end.
Definition remove_step (m : mux) (c : nat) (k : consumer) : option mux :=
  match k_pc k with
  | Leaving => if lock_free m then Some (set_consumers m (Some c) (upd m c (with_pc k Removing))) else None
  | Removing =>
      let m' := set_consumers m None (upd m c (with_pc k Gone)) in
      Some match position c (elems m (channels m)) with
           | Some i => let '(arrs, s) := remove_chan (arrays m) (channels m) i in set_slice m' arrs s
           | None => m'
           end
  | _ => None
  end.
(** [buffer] is the capacity of [Source]. *)
Definition mux_step (buffer : nat) (m : mux) (l : mux_label) : option mux :=
  match l with
  | XPush v =>
      if negb (src_closed m) && (length (queue m) <? Nat.max 1 buffer)%nat
      then Some (mkMux (queue m ++ [v]) (src_closed m) (sender m) (writer m) (exited m) (arrays m) (channels m) (consumers m) (sent m) (mux_panicked m)) else None
  | XCloseSource => if src_closed m then None else Some (mkMux (queue m) true (sender m) (writer m) (exited m) (arrays m) (channels m) (consumers m) (sent m) (mux_panicked m))
  | XSender => if mux_panicked m then None else sender_step m
  | XFork => Some (set_consumers m (writer m) (consumers m ++ [mkConsumer FLoad false [] (length (sent m))]))
  | XConsumer c extra =>
      k ← consumers m !! c;
      match k_pc k with FLoad | FLock | FAppend => Fork_step m c k extra | _ => remove_step m c k end
  | XLeave c => k ← consumers m !! c; match k_pc k with Active => Some (set_consumers m (writer m) (upd m c (with_pc k Leaving))) | _ => None end
  end.
End multiplex.

Ltac step_cases Hs :=
  repeat first [apply bind_Some in Hs as (? & ? & Hs) | progress (case_match; try done)]; simplify_eq/=; try congruence; eauto.

(** ** What the consumers receive *)
Section proofs.
Context {T : Type} (buffer : nat).
Abbreviation mux := (mux (T := T)).
Abbreviation consumer := (consumer (T := T)).
Abbreviation step := (mux_step (T := T) buffer).
Implicit Types (m : mux) (k : consumer) (c i : nat) (v : T).

(** The item the goroutine has taken and not yet sent to every consumer. *)
Definition hand m : list T := match sender m with MLock v | MSend v _ _ => [v] | _ => [] end.
(** What consumer [c] of the slice has of it. *)
Definition has_hand m c : list T := match sender m with MSend v s i => if decide (c ∈ take i (elems m s)) then [v] else [] | _ => [] end.
Definition listed (pc : consumer_pc) : bool := match pc with Active | Leaving | Removing => true | _ => false end.
Definition locked (pc : consumer_pc) : bool := match pc with FAppend | Removing => true | _ => false end.
Definition received_ok m c k : Prop :=
  (since k ≤ length (sent m))%nat ∧
  match k_pc k with
  | Active | Leaving | Removing => received k = drop (since k) (sent m) ++ has_hand m c
  | Gone => received k `prefix_of` drop (since k) (sent m)
  | _ => received k = []
  end.
Record mux_inv m : Prop := {
  mi_array : ∃ a, arrays m !! s_array (channels m) = Some a ∧ (s_len (channels m) ≤ length a)%nat;
  mi_nodup : NoDup (elems m (channels m));
  mi_valid c : c ∈ elems m (channels m) → ∃ k, consumers m !! c = Some k ∧ listed (k_pc k) = true;
  mi_listed c k : consumers m !! c = Some k → listed (k_pc k) = true → c ∈ elems m (channels m);
  mi_send v s i : sender m = MSend v s i → s = channels m ∧ (i ≤ s_len s)%nat ∧ writer m = None;
  mi_writer c k : consumers m !! c = Some k → locked (k_pc k) = true → writer m = Some c;
  mi_received c k : consumers m !! c = Some k → received_ok m c k
}.

Lemma elems_length m : mux_inv m → length (elems m (channels m)) = s_len (channels m).
Proof. intros [(a & Ha & Hl) _ _ _ _ _ _]. unfold elems. rewrite Ha. simpl. rewrite length_take. lia. Qed.
Lemma elem_elems m s i c : (i < s_len s)%nat → elem m s i = Some c → elems m s !! i = Some c.
Proof. intros Hi He. unfold elems, elem in *. by rewrite lookup_take_lt. Qed.
Lemma has_hand_ext m m' c : sender m' = sender m → arrays m' = arrays m → has_hand m' c = has_hand m c.
Proof. intros H1 H2. unfold has_hand, elems. by rewrite H1, H2. Qed.
Lemma has_hand_idle m c : holds_rlock (sender m) = false → has_hand m c = [].
Proof. unfold has_hand. by destruct (sender m). Qed.
Lemma received_ext m m' c k : sent m' = sent m → has_hand m' c = has_hand m c → received_ok m c k → received_ok m' c k.
Proof. intros H1 H2. unfold received_ok. by rewrite H1, H2. Qed.
(** Changes that leave the slice, the lock and what was sent alone. *)
Lemma quiet_inv m m' : mux_inv m → arrays m' = arrays m → channels m' = channels m → consumers m' = consumers m → writer m' = writer m →
  sent m' = sent m → holds_rlock (sender m) = false → holds_rlock (sender m') = false → mux_inv m'.
Proof.
  intros [H1 H2 H3 H4 H5 H6 H7] E1 E2 E3 E4 E5 Hr Hr'. split; unfold elems in *; rewrite ?E1, ?E2, ?E3, ?E4; try done.
  - intros v s i Hs. by rewrite Hs in Hr'.
  - intros c k Hk. eapply received_ext; [exact E5| |by apply H7]. by rewrite !has_hand_idle.
Qed.
Lemma same_inv m m' : mux_inv m → arrays m' = arrays m → channels m' = channels m → consumers m' = consumers m → writer m' = writer m →
  sent m' = sent m → sender m' = sender m → mux_inv m'.
Proof.
  intros [H1 H2 H3 H4 H5 H6 H7] E1 E2 E3 E4 E5 E6. split; unfold elems in *; rewrite ?E1, ?E2, ?E3, ?E4, ?E6; try done.
  intros c k Hk. eapply received_ext; [exact E5|by apply has_hand_ext|by apply H7].
Qed.
(** One consumer moves, listed as before. *)
Lemma upd_inv m c k k' w : mux_inv m → consumers m !! c = Some k → listed (k_pc k') = listed (k_pc k) →
  (∀ c' k'', c' ≠ c → consumers m !! c' = Some k'' → locked (k_pc k'') = true → w = Some c') → (locked (k_pc k') = true → w = Some c) →
  (holds_rlock (sender m) = true → w = None) → received_ok m c k' → mux_inv (set_consumers m w (upd m c k')).
Proof.
  intros [H1 H2 H3 H4 H5 H6 H7] Hk Hl Hw Hw' Hr Hok. assert (c < length (consumers m))%nat by (by eapply lookup_lt_Some).
  split; unfold elems in *; simpl; try done.
  - intros c' Hc'. destruct (decide (c' = c)) as [->|Hne].
    + exists k'. unfold upd. rewrite list_lookup_insert_eq by done. split; [done|]. rewrite Hl. destruct (H3 c Hc') as (k0 & Hk0 & ?). by simplify_eq.
    + unfold upd. rewrite list_lookup_insert_ne by done. by apply H3.
  - intros c' k''. unfold upd. rewrite list_lookup_insert_Some. intros [(-> & <- & _)|[_ Hc']]; [rewrite Hl; by apply (H4 c' k)|by apply H4].
  - intros v s i Hs. destruct (H5 v s i Hs) as (? & ? & ?). split_and!; [done|done|]. apply Hr. by rewrite Hs.
  - intros c' k''. unfold upd. rewrite list_lookup_insert_Some. intros [(-> & <- & _)|[Hne Hc']]; [done|by apply Hw].
  - intros c' k''. unfold upd. rewrite list_lookup_insert_Some. intros [(-> & <- & _)|[Hne Hc']]; [exact Hok|by apply H7].
Qed.

(** *** The slice *)
Definition slice_elems (arrs : list (list nat)) (s : slice) : list nat := take (s_len s) (default [] (arrs !! s_array s)).
Definition slice_ok (arrs : list (list nat)) (s : slice) : Prop := ∃ a, arrs !! s_array s = Some a ∧ (s_len s ≤ length a)%nat.
Lemma append_elems arrs s c extra arrs' s' : slice_ok arrs s → append_chan arrs s c extra = (arrs', s') →
  slice_ok arrs' s' ∧ slice_elems arrs' s' = slice_elems arrs s ++ [c].
Proof.
  intros (a & Ha & Hl) Happ. unfold append_chan in Happ. unfold slice_ok, slice_elems. rewrite Ha in *. simpl in *. destruct (Nat.ltb_spec (s_len s) (length a)); simplify_eq/=.
  - assert (s_array s < length arrs)%nat by (by eapply lookup_lt_Some). rewrite list_lookup_insert_eq by done. split; [eexists; split; [done|]; rewrite length_insert; lia|].
    simpl. rewrite (take_S_r _ _ c) by (by apply list_lookup_insert_eq). by rewrite take_insert_ge.
  - rewrite lookup_app_r, Nat.sub_diag by lia. split; [eexists; split; [done|]; rewrite length_app, length_take; simpl; lia|]. simpl.
    assert (s_len s = length (take (s_len s) a)) as E by (rewrite length_take; lia). rewrite E at 1.
    replace (S (length (take (s_len s) a))) with (length (take (s_len s) a) + 1)%nat by lia. by rewrite take_app_add.
Qed.
Lemma remove_elems arrs s i arrs' s' : slice_ok arrs s → (i < s_len s)%nat → remove_chan arrs s i = (arrs', s') →
  slice_ok arrs' s' ∧ slice_elems arrs' s' = delete i (slice_elems arrs s).
Proof.
  intros (a & Ha & Hl) Hi Hrm. unfold remove_chan in Hrm. unfold slice_ok, slice_elems. rewrite Ha in *. simpl in *. simplify_eq/=.
  assert (s_array s < length arrs)%nat by (by eapply lookup_lt_Some). rewrite list_lookup_insert_eq by done.
  assert (length (take i a ++ drop (S i) (take (s_len s) a)) = s_len s - 1)%nat as Hlen by (rewrite length_app, length_drop, !length_take; lia).
  split; [eexists; split; [done|]; rewrite app_assoc, length_app, Hlen; lia|].
  simpl. rewrite app_assoc, take_app_le, <- Hlen, firstn_all by lia. rewrite delete_take_drop, take_take. by rewrite Nat.min_l by lia.
Qed.
Lemma position_spec c l i : position c l = Some i → l !! i = Some c.
Proof. unfold position. destruct (list_find _ l) as [[j x]|] eqn:Hf; [|done]. intros [= ->]. by apply list_find_Some in Hf as (Hj & -> & _). Qed.
Lemma position_in c l : c ∈ l → is_Some (position c l).
Proof. intros Hc. unfold position. destruct (list_find_elem_of (λ x, x = c) l c Hc eq_refl) as [[j x] ->]. eauto. Qed.

Lemma fork_inv m c k extra arrs s : mux_inv m → consumers m !! c = Some k → k_pc k = FAppend → append_chan (arrays m) (channels m) c extra = (arrs, s) →
  mux_inv (set_slice (set_consumers m None (upd m c (mkConsumer Active (k_closed k) (received k) (length (sent m))))) arrs s).
Proof.
  intros [H1 H2 H3 H4 H5 H6 H7] Hk Hpc Happ. assert (c < length (consumers m))%nat by (by eapply lookup_lt_Some).
  pose proof (H6 c k Hk ltac:(by rewrite Hpc)) as Hw. assert (holds_rlock (sender m) = false) as Hr by (destruct (sender m) eqn:Hs; try done; destruct (H5 _ _ _ eq_refl) as (_ & _ & ?); congruence).
  destruct (append_elems _ _ _ _ _ _ H1 Happ) as [Hok He]. change (slice_elems (arrays m) (channels m)) with (elems m (channels m)) in He.
  assert (c ∉ elems m (channels m)) as Hnin by (intros (k' & Hk' & Hl)%H3; simplify_eq; by rewrite Hpc in Hl).
  split; simpl; unfold elems; simpl; [exact Hok|..]; try change (take (s_len s) (default [] (arrs !! s_array s))) with (slice_elems arrs s); rewrite ?He.
  - apply NoDup_app. split_and!; [done| |apply NoDup_singleton]. by intros x Hx ->%list_elem_of_singleton.
  - intros c' [Hc'|Hc']%elem_of_app; [|apply list_elem_of_singleton in Hc' as ->; eexists; unfold upd; by rewrite list_lookup_insert_eq].
    unfold upd. rewrite list_lookup_insert_ne by (by intros <-). by apply H3.
  - intros c' k'. unfold upd. rewrite list_lookup_insert_Some. intros [(-> & <- & _)|[_ Hc']] Hl; apply elem_of_app; [right; by left|left; by eapply H4].
  - intros v s0 i Hs. by rewrite Hs in Hr.
  - intros c' k'. unfold upd. rewrite list_lookup_insert_Some. intros [(-> & <- & _)|[Hne Hc']] Hl; [done|]. specialize (H6 _ _ Hc' Hl). congruence.
  - intros c' k'. unfold upd. rewrite list_lookup_insert_Some. intros [(-> & <- & _)|[Hne Hc']].
    + unfold received_ok. simpl. split; [done|]. rewrite has_hand_idle, drop_ge by done. destruct (H7 _ k Hk) as [_ Hrc]. by rewrite Hpc in Hrc.
    + apply (received_ext m); [done|by rewrite !has_hand_idle|by apply H7].
Qed.
Lemma remove_inv m c k i arrs s : mux_inv m → consumers m !! c = Some k → k_pc k = Removing → position c (elems m (channels m)) = Some i →
  remove_chan (arrays m) (channels m) i = (arrs, s) → mux_inv (set_slice (set_consumers m None (upd m c (with_pc k Gone))) arrs s).
Proof.
  intros Hi Hk Hpc Hpos%position_spec Hrm. pose proof (elems_length m Hi) as Hlen. destruct Hi as [H1 H2 H3 H4 H5 H6 H7].
  assert (c < length (consumers m))%nat by (by eapply lookup_lt_Some).
  pose proof (H6 c k Hk ltac:(by rewrite Hpc)) as Hw. assert (holds_rlock (sender m) = false) as Hr by (destruct (sender m) eqn:Hs; try done; destruct (H5 _ _ _ eq_refl) as (_ & _ & ?); congruence).
  assert (i < s_len (channels m))%nat as Hlt by (rewrite <- Hlen; by eapply lookup_lt_Some).
  destruct (remove_elems _ _ _ _ _ H1 Hlt Hrm) as [Hok He]. change (slice_elems (arrays m) (channels m)) with (elems m (channels m)) in He.
  pose proof (delete_Permutation _ _ _ Hpos) as Hperm. assert (NoDup (c :: delete i (elems m (channels m)))) as [Hnin Hnd]%NoDup_cons by (by rewrite <- Hperm).
  split; simpl; unfold elems; simpl; [exact Hok|..]; try change (take (s_len s) (default [] (arrs !! s_array s))) with (slice_elems arrs s); rewrite ?He.
  - exact Hnd.
  - intros c' Hc'. unfold upd. rewrite list_lookup_insert_ne by (by intros <-). apply H3. rewrite Hperm. by right.
  - intros c' k'. unfold upd. rewrite list_lookup_insert_Some. intros [(-> & <- & _)|[Hne Hc']] Hl; [done|].
    pose proof (H4 _ _ Hc' Hl) as Hin. rewrite Hperm in Hin. by apply elem_of_cons in Hin as [<-|?].
  - intros v s0 j Hs. by rewrite Hs in Hr.
  - intros c' k'. unfold upd. rewrite list_lookup_insert_Some. intros [(-> & <- & _)|[Hne Hc']] Hl; [done|]. specialize (H6 _ _ Hc' Hl). congruence.
  - intros c' k'. unfold upd. rewrite list_lookup_insert_Some. intros [(-> & <- & _)|[Hne Hc']].
    + destruct (H7 _ k Hk) as [Hsince Hrc]. rewrite Hpc, has_hand_idle, app_nil_r in Hrc by done. split; [done|]. simpl. by rewrite Hrc.
    + apply (received_ext m); [done|by rewrite !has_hand_idle|by apply H7].
Qed.

(** *** The steps *)
Lemma mux_new_inv : mux_inv NewMultiplexedChannel.
Proof. split; simpl; try done; [by exists []|by apply NoDup_nil|]. by intros c []%not_elem_of_nil. Qed.
Lemma lock_inv m c k pc : mux_inv m → consumers m !! c = Some k → lock_free m = true → listed pc = listed (k_pc k) → received_ok m c (with_pc k pc) →
  mux_inv (set_consumers m (Some c) (upd m c (with_pc k pc))).
Proof.
  intros Hi Hk Hl Hli Hok. unfold lock_free in Hl. apply andb_true_iff in Hl as [Hr%negb_true_iff Hw%bool_decide_eq_true].
  eapply upd_inv; try done; [|congruence]. intros c' k'' Hne Hc' Hlk. pose proof (mi_writer _ Hi _ _ Hc' Hlk). congruence.
Qed.
Lemma consumer_step_inv m c k extra m' : mux_inv m → consumers m !! c = Some k → step m (XConsumer c extra) = Some m' → mux_inv m'.
Proof.
  intros Hi Hk Hs. cbn [mux_step] in Hs. rewrite Hk in Hs. cbn [mbind option_bind] in Hs. pose proof (mi_received _ Hi _ _ Hk) as [Hsince Hrc].
  assert (∀ c' k'', c' ≠ c → consumers m !! c' = Some k'' → locked (k_pc k'') = true → writer m = Some c') as Hoth by (intros; by eapply (mi_writer _ Hi)).
  assert (holds_rlock (sender m) = true → writer m = None) as Hrd by (intros Hr; destruct (sender m) eqn:Hse; try done; by destruct (mi_send _ Hi _ _ _ Hse) as (_ & _ & ?)).
  destruct (k_pc k) eqn:Hpc; cbn in Hs; try done; unfold Fork_step, remove_step in Hs; rewrite Hpc in Hs; try done.
  - simplify_eq. eapply upd_inv; try done; [by case_match; rewrite Hpc|by case_match|]. case_match; (split; [done|]); simpl; [rewrite Hrc; by eexists|done].
  - destruct (lock_free m) eqn:Hl; simplify_eq. apply lock_inv; [done|done|done|by rewrite Hpc|]. by split.
  - destruct (append_chan _ _ _ _) as [arrs s] eqn:Happ. simplify_eq. by eapply fork_inv.
  - destruct (lock_free m) eqn:Hl; simplify_eq. apply lock_inv; [done|done|done|by rewrite Hpc|]. by split.
  - simplify_eq. destruct (position_in c (elems m (channels m))) as [i Hpos]; [eapply (mi_listed _ Hi); [exact Hk|by rewrite Hpc]|].
    rewrite Hpos. destruct (remove_chan _ _ _) as [arrs s] eqn:Hrm. by eapply remove_inv.
Qed.
Lemma leave_inv m c k : mux_inv m → consumers m !! c = Some k → k_pc k = Active → mux_inv (set_consumers m (writer m) (upd m c (with_pc k Leaving))).
Proof.
  intros Hi Hk Hpc. pose proof (mi_received _ Hi _ _ Hk) as Hrc. eapply upd_inv; try done; [by rewrite Hpc| | |].
  - intros; by eapply (mi_writer _ Hi).
  - intros Hr. destruct (sender m) eqn:Hse; try done. by destruct (mi_send _ Hi _ _ _ Hse) as (_ & _ & ?).
  - unfold received_ok in *. by rewrite Hpc in Hrc.
Qed.
Lemma new_consumer_inv m k : mux_inv m → k_pc k = FLoad → received_ok m (length (consumers m)) k → mux_inv (set_consumers m (writer m) (consumers m ++ [k])).
Proof.
  intros [H1 H2 H3 H4 H5 H6 H7] Hpc Hok. split; simpl; unfold elems in *; simpl; try done.
  - intros c Hc. destruct (H3 c Hc) as (k' & Hk' & ?). exists k'. split; [by apply lookup_app_l_Some|done].
  - intros c k' [[_ Hc]|[-> <-]]%lookup_snoc_Some; [by apply H4|by rewrite Hpc].
  - intros c k' [[_ Hc]|[-> <-]]%lookup_snoc_Some; [by apply H6|by rewrite Hpc].
  - intros c k' [[_ Hc]|[-> <-]]%lookup_snoc_Some; [by apply H7|done].
Qed.
(** The goroutine starts to send an item, sends it to one consumer, and is done with it. *)
Lemma send_start_inv m v : mux_inv m → sender m = MLock v → writer m = None → mux_inv (set_sender m (MSend v (channels m) 0)).
Proof.
  intros [H1 H2 H3 H4 H5 H6 H7] Hs Hw. split; simpl; unfold elems in *; simpl; try done.
  - intros v' s i [= <- <- <-]. split_and!; [done|lia|done].
  - intros c k Hk. apply (received_ext m); [done| |by apply H7]. rewrite (has_hand_idle m) by (by rewrite Hs). unfold has_hand. cbn [sender set_sender]. case_decide as Hd; [|done]. by apply not_elem_of_nil in Hd.
Qed.
Lemma send_one_inv m v s i c k : mux_inv m → sender m = MSend v s i → (i < s_len s)%nat → elem m s i = Some c → consumers m !! c = Some k → k_pc k = Active →
  mux_inv (set_consumers (set_sender m (MSend v s (S i))) (writer m) (upd m c (mkConsumer Active (k_closed k) (received k ++ [v]) (since k)))).
Proof.
  intros Hi Hs Hlt He Hk Hpc. destruct (mi_send _ Hi _ _ _ Hs) as (-> & _ & Hw). pose proof (elem_elems _ _ _ _ Hlt He) as Hel. pose proof (mi_nodup _ Hi) as Hnd.
  assert (∀ c', has_hand (set_sender m (MSend v (channels m) (S i))) c' = if decide (c' = c) then [v] else has_hand m c') as Hhand.
  { intros c'. unfold has_hand. rewrite Hs. simpl. change (elems (set_sender m (MSend v (channels m) (S i))) (channels m)) with (elems m (channels m)). rewrite (take_S_r _ _ c Hel).
    destruct (decide (c' = c)) as [->|Hne]; [rewrite decide_True; [done|]; apply elem_of_app; right; by left|].
    apply decide_ext. rewrite elem_of_app, list_elem_of_singleton. naive_solver. }
  assert (has_hand m c = []) as Hnone.
  { unfold has_hand. rewrite Hs. rewrite decide_False; [done|]. intros [j Hj]%list_elem_of_lookup. apply lookup_take_Some in Hj as [Hj ?].
    pose proof (NoDup_lookup _ _ _ _ Hnd Hel Hj). lia. }
  pose proof (mi_received _ Hi _ _ Hk) as [Hsince Hrc]. rewrite Hpc, Hnone, app_nil_r in Hrc.
  destruct Hi as [H1 H2 H3 H4 H5 H6 H7]. assert (c < length (consumers m))%nat by (by eapply lookup_lt_Some).
  split; simpl; unfold elems in *; simpl; try done.
  - intros c' Hc'. destruct (decide (c' = c)) as [->|Hne]; unfold upd; [eexists; by rewrite list_lookup_insert_eq|].
    rewrite list_lookup_insert_ne by done. by apply H3.
  - intros c' k'. unfold upd. rewrite list_lookup_insert_Some. intros [(-> & <- & _)|[_ Hc']] Hl; [apply (H4 _ k Hk); by rewrite Hpc|by eapply H4].
  - intros v' s' j [= <- <- <-]. split_and!; [done|lia|done].
  - intros c' k'. unfold upd. rewrite list_lookup_insert_Some. intros [(-> & <- & _)|[_ Hc']] Hl; [done|by eapply H6].
  - intros c' k'. unfold upd. rewrite list_lookup_insert_Some. intros [(<- & <- & _)|[Hne Hc']]; unfold received_ok; simpl.
    + split; [done|]. change (has_hand _ c) with (has_hand (set_sender m (MSend v (channels m) (S i))) c). rewrite Hhand, decide_True by done. by rewrite Hrc.
    + change (has_hand _ c') with (has_hand (set_sender m (MSend v (channels m) (S i))) c'). rewrite Hhand, decide_False by done. by apply H7.
Qed.
Lemma send_end_inv m v s i : mux_inv m → sender m = MSend v s i → (s_len s ≤ i)%nat →
  mux_inv (mkMux (queue m) (src_closed m) MReceive (writer m) (exited m) (arrays m) (channels m) (consumers m) (sent m ++ [v]) (mux_panicked m)).
Proof.
  intros Hi Hs Hle. pose proof (elems_length _ Hi) as Hlen. destruct (mi_send _ Hi _ _ _ Hs) as (-> & Hle' & Hw). destruct Hi as [H1 H2 H3 H4 H5 H6 H7].
  split; simpl; unfold elems in *; simpl; try done. intros c k Hk. destruct (H7 c k Hk) as [Hsince Hrc]. unfold received_ok. simpl. rewrite length_app. split; [lia|].
  rewrite drop_app_le by done. assert (∀ c, listed (k_pc k) = true → c ∈ elems m (channels m) → has_hand m c = [v]) as Hh.
  { intros c' _ Hin. unfold has_hand. rewrite Hs. rewrite decide_True; [done|]. by rewrite take_ge by (unfold elems in *; lia). }
  assert (listed (k_pc k) = true → has_hand m c = [v]) as Hh' by (intros Hl; apply Hh; [done|by eapply H4]).
  unfold has_hand at 1 2 3. simpl. rewrite app_nil_r. destruct (k_pc k); try done; try (by rewrite Hrc, Hh').
  by apply prefix_app_r.
Qed.
Lemma sender_step_inv m m' : mux_inv m → sender_step m = Some m' → mux_inv m'.
Proof.
  intros Hi Hs. unfold sender_step in Hs. destruct (sender m) as [|v|v s i| |s i|] eqn:Hse; try done.
  - destruct (queue m); [destruct (src_closed m); simplify_eq|simplify_eq]; eapply quiet_inv; try done; by rewrite Hse.
  - case_bool_decide; simplify_eq. by apply send_start_inv.
  - destruct (Nat.ltb_spec i (s_len s)); [|simplify_eq; by eapply send_end_inv].
    apply bind_Some in Hs as (c & He & Hs). apply bind_Some in Hs as (k & Hk & Hs). destruct (k_pc k) eqn:Hpc; simplify_eq. by apply send_one_inv.
  - simplify_eq. eapply quiet_inv; try done; by rewrite Hse.
  - destruct (Nat.ltb_spec i (s_len s)); [|simplify_eq; eapply quiet_inv; try done; by rewrite Hse].
    apply bind_Some in Hs as (c & He & Hs). apply bind_Some in Hs as (k & Hk & Hs). destruct (k_closed k); simplify_eq; [eapply quiet_inv; try done; by rewrite Hse|].
    assert (mux_inv (set_sender m (MClose s (S i)))) as Hi' by (eapply quiet_inv; try done; by rewrite Hse).
    pose proof (mi_received _ Hi' _ _ Hk) as Hrc. eapply (upd_inv (set_sender m (MClose s (S i)))); try done.
    + intros; by eapply (mi_writer _ Hi').
    + intros Hl. by eapply (mi_writer _ Hi').
Qed.
Lemma mux_step_inv m l m' : mux_inv m → step m l = Some m' → mux_inv m'.
Proof.
  intros Hi Hs. destruct l as [v| | | |c extra|c]; cbn [mux_step] in Hs.
  - destruct (_ && _); simplify_eq. by eapply same_inv.
  - destruct (src_closed m); simplify_eq. by eapply same_inv.
  - destruct (mux_panicked m); [done|]. by eapply sender_step_inv.
  - simplify_eq. apply new_consumer_inv; [done|done|]. by split.
  - apply bind_Some in Hs as (k & Hk & Hs). eapply consumer_step_inv; [done|done|]. cbn [mux_step]. rewrite Hk. exact Hs.
  - apply bind_Some in Hs as (k & Hk & Hs). destruct (k_pc k) eqn:Hpc; simplify_eq. by apply leave_inv.
Qed.

Lemma mux_run_inv ls m m' : mux_inv m → run_steps step m ls = Some m' → mux_inv m'.
Proof. intros Hi Hr. apply (run_steps_inv step mux_inv (λ _, True) m ls m'); [intros ???? ? ?; by eapply mux_step_inv|done|by apply Forall_true|done]. Qed.
Definition pushed (l : mux_label (T := T)) : list T := match l with XPush v => [v] | _ => [] end.
Lemma step_items m l m' : step m l = Some m' → sent m' ++ hand m' ++ queue m' = (sent m ++ hand m ++ queue m) ++ pushed l.
Proof.
  intros Hs. unfold hand. destruct l as [v| | | |c extra|c]; cbn [mux_step pushed] in *; rewrite ?app_nil_r.
  - destruct (_ && _); simplify_eq/=. by rewrite !app_assoc.
  - destruct (src_closed m); by simplify_eq.
  - destruct (mux_panicked m); [done|]. unfold sender_step in Hs. destruct (sender m) as [|v|v s i| |s i|] eqn:Hse; try done.
    + destruct (queue m) eqn:Hq; [destruct (src_closed m)|]; simplify_eq/=; by rewrite ?Hq.
    + case_bool_decide; by simplify_eq.
    + destruct (i <? s_len s)%nat; [|simplify_eq/=; by rewrite <- app_assoc].
      apply bind_Some in Hs as (c & _ & Hs). apply bind_Some in Hs as (k & _ & Hs). destruct (k_pc k); by simplify_eq.
    + by simplify_eq.
    + destruct (i <? s_len s)%nat; [|by simplify_eq]. apply bind_Some in Hs as (c & _ & Hs). apply bind_Some in Hs as (k & _ & Hs). destruct (k_closed k); by simplify_eq.
  - by simplify_eq.
  - assert (sent m' = sent m ∧ sender m' = sender m ∧ queue m' = queue m) as (-> & -> & ->); [|done].
    unfold Fork_step, remove_step in Hs. step_cases Hs.
  - apply bind_Some in Hs as (k & _ & Hs). destruct (k_pc k); by simplify_eq.
Qed.
Lemma run_items ls m m' : run_steps step m ls = Some m' → sent m' ++ hand m' ++ queue m' = (sent m ++ hand m ++ queue m) ++ (ls ≫= pushed).
Proof.
  revert m. induction ls as [|l ls IH]; intros m Hr; simplify_eq/=; [by rewrite app_nil_r|].
  apply bind_Some in Hr as (m1 & Hs & Hr). rewrite (IH _ Hr), (step_items _ _ _ Hs). by rewrite <- !app_assoc.
Qed.

(** C39: the output is delivered in order, completely and once.  In every interleaving of
    producers, consumers that come and go and the goroutine, the items are sent in the
    order in which they were pushed; a consumer that receives has exactly the items sent
    since it was added, and the one that is being sent if its turn is over; and one that
    has left, or is about to, has a beginning of them. *)
Theorem Multiplex_in_order ls m : run_steps step NewMultiplexedChannel ls = Some m →
  sent m ++ hand m ++ queue m = ls ≫= pushed ∧
  ∀ c k, consumers m !! c = Some k →
    received k `prefix_of` drop (since k) (sent m ++ hand m) ∧
    (k_pc k = Active → received k = drop (since k) (sent m) ∨ received k = drop (since k) (sent m) ++ hand m).
Proof.
  intros Hr. pose proof (mux_run_inv _ _ _ mux_new_inv Hr) as Hi. split; [exact (run_items _ _ _ Hr)|].
  intros c k Hk. destruct (mi_received _ Hi _ _ Hk) as [Hsince Hrc]. rewrite drop_app_le by done.
  assert (has_hand m c = [] ∨ has_hand m c = hand m) as Hh.
  { unfold has_hand, hand. destruct (sender m); auto. case_decide; auto. }
  destruct (k_pc k); simpl in Hrc; split; try done; try (rewrite Hrc; apply prefix_nil);
    try (rewrite Hrc; destruct Hh as [-> | ->]; [rewrite app_nil_r; by apply prefix_app_r|done]).
  - rewrite Hrc. intros _. destruct Hh as [-> | ->]; [left; by rewrite app_nil_r|by right].
  - by apply prefix_app_r.
Qed.

(** *** A consumer that leaves in the middle of a send *)
Definition stuck m v s i c : Prop :=
  sender m = MSend v s i ∧ (i < s_len s)%nat ∧ elem m s i = Some c ∧ ∃ k, consumers m !! c = Some k ∧ k_pc k = Leaving.
Lemma stuck_step m l m' v s i c : mux_inv m → stuck m v s i c → step m l = Some m' →
  stuck m' v s i c ∧ sent m' = sent m ∧ channels m' = channels m ∧
  (∀ c' k', consumers m' !! c' = Some k' → received k' = [] ∨ ∃ k, consumers m !! c' = Some k ∧ received k' = received k).
Proof.
  intros Hinv (Hs & Hi & He & k & Hk & Hpc) Hst. destruct (mi_send _ Hinv _ _ _ Hs) as (_ & _ & Hw). assert (lock_free m = false) as Hlk by (unfold lock_free; by rewrite Hs).
  assert (∀ c0 k0 pc, consumers m !! c0 = Some k0 → ∀ c' k', upd m c0 (with_pc k0 pc) !! c' = Some k' → received k' = [] ∨ ∃ k, consumers m !! c' = Some k ∧ received k' = received k) as Hupd.
  { intros c0 k0 pc Hk0 c' k'. unfold upd. rewrite list_lookup_insert_Some. intros [(<- & <- & _)|[_ ?]]; right; eauto. }
  assert (∀ c0 k0 k1, consumers m !! c0 = Some k0 → k_pc k0 ≠ Leaving → upd m c0 k1 !! c = Some k) as Hkeep.
  { intros c0 k0 k1 Hk0 Hne. unfold upd. rewrite list_lookup_insert_ne; [done|]. intros ->. congruence. }
  destruct l as [x| | | |c0 extra|c0]; cbn [mux_step] in Hst.
  - destruct (_ && _); simplify_eq. split_and!; [by split_and!; [..|exists k]|done|done|eauto].
  - destruct (src_closed m); simplify_eq. split_and!; [by split_and!; [..|exists k]|done|done|eauto].
  - destruct (mux_panicked m); [done|]. unfold sender_step in Hst. rewrite Hs in Hst. destruct (Nat.ltb_spec i (s_len s)); [|lia].
    rewrite He in Hst. simpl in Hst. rewrite Hk in Hst. simpl in Hst. by rewrite Hpc in Hst.
  - simplify_eq. split_and!; [split_and!; [done..|exists k; split; [by apply lookup_app_l_Some|done]]|done|done|].
    intros c' k' [[_ ?]|[-> <-]]%lookup_snoc_Some; [right; eauto|by left].
  - apply bind_Some in Hst as (k0 & Hk0 & Hst). unfold Fork_step, remove_step in Hst. rewrite Hlk in Hst.
    pose proof (mi_writer _ Hinv _ _ Hk0) as Hw0. destruct (k_pc k0) eqn:Hpc0; try done; try (specialize (Hw0 eq_refl); congruence).
    simplify_eq. split_and!; [split_and!; [done..|exists k; split; [by eapply Hkeep; [|rewrite Hpc0]|done]]|done|done|].
    destruct (exited m); [|by apply Hupd]. intros c' k'. simpl. unfold upd. rewrite list_lookup_insert_Some. intros [(<- & <- & _)|[_ ?]]; right; eauto.
  - apply bind_Some in Hst as (k0 & Hk0 & Hst). destruct (k_pc k0) eqn:Hpc0; simplify_eq.
    split_and!; [split_and!; [done..|exists k; split; [by eapply Hkeep; [|rewrite Hpc0]|done]]|done|done|by apply Hupd].
Qed.

(** A consumer that leaves while the item is being sent to it stops the output for
    ever.  It no longer receives and waits for the lock; the goroutine holds the read lock
    and waits for it to receive.  Whatever else happens afterwards, the goroutine stays
    where it is, no consumer receives another item, nobody is added or removed, and the
    channels are never closed. *)
Theorem Multiplex_leaving_blocks ls m v s i c ks' m' : run_steps step NewMultiplexedChannel ls = Some m → stuck m v s i c →
  run_steps step m ks' = Some m' →
  stuck m' v s i c ∧ sent m' = sent m ∧ channels m' = channels m ∧ mux_panicked m' = mux_panicked m ∧
  (∀ c' k', consumers m' !! c' = Some k' → received k' = [] ∨ ∃ k, consumers m !! c' = Some k ∧ received k' = received k).
Proof.
  intros Hr0 Hst Hr. pose proof (mux_run_inv _ _ _ mux_new_inv Hr0) as Hinv. clear Hr0. revert m Hinv Hst Hr.
  induction ks' as [|l ks' IH]; intros m Hinv Hst Hr; simplify_eq/=; [split_and!; eauto|].
  apply bind_Some in Hr as (m1 & Hs & Hr). destruct (stuck_step _ _ _ _ _ _ _ Hinv Hst Hs) as (Hst1 & H1 & H2 & H3).
  assert (mux_panicked m1 = mux_panicked m) as H4.
  { destruct Hst as (Hse & Hi & He & k & Hk & Hpc). destruct l as [x| | | |c0 extra|c0]; cbn [mux_step] in Hs; unfold sender_step, Fork_step, remove_step in Hs; step_cases Hs. }
  destruct (IH m1 (mux_step_inv _ _ _ Hinv Hs) Hst1 Hr) as (Hst' & E1 & E2 & E3 & E4). split_and!; [done|congruence|congruence|congruence|].
  intros c' k' Hk'. destruct (E4 c' k' Hk') as [?|(k1 & Hk1 & E)]; [by left|]. destruct (H3 c' k1 Hk1) as [?|(k0 & ? & ?)]; [left; congruence|right].
  exists k0. split; [done|congruence].
Qed.

(** *** While nobody leaves *)
Definition all_receive m : Prop :=
  writer m = None ∧ mux_panicked m = false ∧ ∀ c k, consumers m !! c = Some k → listed (k_pc k) = true → k_pc k = Active.
(** [m'] is reached by [n] steps of the goroutine alone. *)
Definition goes n m m' : Prop := run_steps step m (replicate n XSender) = Some m' ∧ all_receive m' ∧ mux_inv m' ∧ channels m' = channels m.
Lemma goes_trans n1 n2 m1 m2 m3 : goes n1 m1 m2 → goes n2 m2 m3 → goes (n1 + n2) m1 m3.
Proof. intros (H1 & _ & _ & E1) (H2 & ? & ? & E2). split_and!; [|done|done|congruence]. rewrite replicate_add, run_steps_app, H1. exact H2. Qed.
Lemma goes_one m m' : mux_inv m → sender_step m = Some m' → mux_panicked m = false → all_receive m' → channels m' = channels m → goes 1 m m'.
Proof.
  intros Hi Hs Hp Ha E. assert (step m XSender = Some m') as Hst by (cbn [mux_step]; by rewrite Hp).
  split; [cbn [replicate run_steps]; by rewrite Hst|]. split; [done|]. split; [by eapply mux_step_inv|done].
Qed.
Lemma send_rest n m v s i : mux_inv m → all_receive m → sender m = MSend v s i → n = (s_len s - i)%nat →
  ∃ m', goes (S n) m m' ∧ sender m' = MReceive ∧ queue m' = queue m ∧ sent m' = sent m ++ [v].
Proof.
  revert m i. induction n as [|n IH]; intros m i Hi Ha Hs Hn; pose proof Ha as (Hw & Hp & Hact).
  - eexists. split_and!; [eapply goes_one; [done|unfold sender_step; rewrite Hs; destruct (Nat.ltb_spec i (s_len s)); [lia|reflexivity]|done|done|done]|done..].
  - destruct (mi_send _ Hi _ _ _ Hs) as (-> & Hle & _). pose proof (elems_length _ Hi) as Hlen. assert (i < s_len (channels m))%nat as Hlt by lia.
    destruct (lookup_lt_is_Some_2 (elems m (channels m)) i) as [c Hc]; [lia|]. destruct (mi_valid _ Hi c) as (k & Hk & Hl); [by eapply list_elem_of_lookup_2|].
    pose proof (Hact c k Hk Hl) as Hpc. assert (elem m (channels m) i = Some c) as He by (unfold elems, elem in *; by rewrite lookup_take_lt in Hc).
    set (m1 := set_consumers (set_sender m (MSend v (channels m) (S i))) (writer m) (upd m c (mkConsumer Active (k_closed k) (received k ++ [v]) (since k)))).
    assert (sender_step m = Some m1) as Hst by (unfold sender_step; rewrite Hs; destruct (Nat.ltb_spec i (s_len (channels m))); [|lia]; rewrite He; simpl; rewrite Hk; simpl; by rewrite Hpc).
    assert (all_receive m1) as Ha1.
    { split_and!; [done|done|]. intros c' k'. simpl. unfold upd. rewrite list_lookup_insert_Some. intros [(_ & <- & _)|[_ ?]]; [done|eauto]. }
    destruct (IH m1 (S i)) as (m' & Hg & ? & ? & ?); [by eapply sender_step_inv|done|done|simpl; lia|].
    exists m'. split_and!; [|done..]. change (S (S n)) with (1 + S n)%nat. eapply goes_trans; [by apply goes_one|exact Hg].
Qed.
Lemma send_item m v : mux_inv m → all_receive m → sender m = MLock v → ∃ m', goes (s_len (channels m) + 2) m m' ∧ sender m' = MReceive ∧ queue m' = queue m ∧ sent m' = sent m ++ [v].
Proof.
  intros Hi Ha Hs. pose proof Ha as (Hw & Hp & _). set (m1 := set_sender m (MSend v (channels m) 0)).
  assert (sender_step m = Some m1) as Hst by (unfold sender_step; rewrite Hs; by rewrite bool_decide_eq_true_2).
  destruct (send_rest (s_len (channels m)) m1 v (channels m) 0) as (m' & Hg & ? & ? & ?); [by eapply sender_step_inv|done|done|lia|].
  exists m'. split_and!; [|done..]. replace (s_len (channels m) + 2)%nat with (1 + S (s_len (channels m)))%nat by lia. eapply goes_trans; [by apply goes_one|exact Hg].
Qed.
Lemma drain q m : queue m = q → mux_inv m → all_receive m → sender m = MReceive →
  ∃ m', goes (length q * (s_len (channels m) + 3)) m m' ∧ sender m' = MReceive ∧ queue m' = [] ∧ sent m' = sent m ++ q.
Proof.
  revert m. induction q as [|v q IH]; intros m Hq Hi Ha Hs; [exists m; rewrite app_nil_r; by split_and!|]. pose proof Ha as (Hw & Hp & _).
  set (m1 := mkMux q (src_closed m) (MLock v) (writer m) (exited m) (arrays m) (channels m) (consumers m) (sent m) (mux_panicked m)).
  assert (sender_step m = Some m1) as Hst by (unfold sender_step; by rewrite Hs, Hq).
  assert (goes 1 m m1) as H1 by (by apply goes_one). pose proof H1 as (_ & Ha1 & Hi1 & _).
  destruct (send_item m1 v Hi1 Ha1 eq_refl) as (m2 & H2 & Hs2 & Hq2 & E2). pose proof H2 as (_ & Ha2 & Hi2 & Ec).
  destruct (IH m2 Hq2 Hi2 Ha2 Hs2) as (m3 & H3 & Hs3 & Hq3 & E3). exists m3. split_and!; [|done|done|rewrite E3, E2; simpl; by rewrite <- app_assoc].
  replace (length (v :: q) * (s_len (channels m) + 3))%nat with ((1 + (s_len (channels m) + 2)) + length q * (s_len (channels m2) + 3))%nat by (rewrite Ec; simpl; lia).
  eapply goes_trans; [by eapply goes_trans|exact H3].
Qed.

(** C38: while no consumer leaves, everything gets through.  In every reachable state in
    which the goroutine takes items, the consumers that were added all receive and nobody
    holds the lock, the goroutine can go on alone until the queue is empty, in a bounded number
    of steps, and every consumer has then received every item since it was added. *)
Theorem Multiplex_delivers ls m : run_steps step NewMultiplexedChannel ls = Some m → all_receive m → sender m = MReceive →
  ∃ n m', (n ≤ length (queue m) * (s_len (channels m) + 3))%nat ∧ run_steps step m (replicate n XSender) = Some m' ∧ queue m' = [] ∧
    sent m' = ls ≫= pushed ∧ ∀ c k, consumers m' !! c = Some k → k_pc k = Active → received k = drop (since k) (ls ≫= pushed).
Proof.
  intros Hr Ha Hs. pose proof (mux_run_inv _ _ _ mux_new_inv Hr) as Hi. pose proof (run_items _ _ _ Hr) as Hitems. simpl in Hitems.
  destruct (drain (queue m) m eq_refl Hi Ha Hs) as (m' & (Hr' & _ & Hi' & _) & Hs' & Hq & E).
  assert (sent m' = ls ≫= pushed) as Es by (rewrite E, <- Hitems; unfold hand; by rewrite Hs).
  exists (length (queue m) * (s_len (channels m) + 3))%nat, m'. split_and!; [done|done|done|done|].
  intros c k Hk Hpc. destruct (mi_received _ Hi' _ _ Hk) as [_ Hrc]. rewrite Hpc, has_hand_idle, app_nil_r, Es in Hrc by (by rewrite Hs'). done.
Qed.
End proofs.

(** ** Concrete runs *)
Section witnesses.
Definition ex_run (ls : list (mux_label (T := nat))) : mux := default NewMultiplexedChannel (run_steps (mux_step 2) NewMultiplexedChannel ls).
Definition ex_fork (c : nat) : list (mux_label (T := nat)) := [XFork; XConsumer c 1; XConsumer c 1; XConsumer c 1].
Definition ex_two : list (mux_label (T := nat)) := ex_fork 0 ++ [XPush 7%nat; XSender; XSender; XSender; XSender] ++ ex_fork 1 ++ [XPush 8%nat; XPush 9%nat].
Lemma Multiplex_in_order_witness : (received <$> consumers (ex_run ex_two) !! 0%nat) = Some [7%nat] ∧ ∀ c k, consumers (ex_run ex_two) !! c = Some k →
  received k `prefix_of` drop (since k) (sent (ex_run ex_two) ++ hand (ex_run ex_two)).
Proof.
  split; [by vm_compute|]. intros c k Hk.
  exact (proj1 (proj2 (Multiplex_in_order 2 ex_two (ex_run ex_two) ltac:(by vm_compute)) c k Hk)).
Defined.
Lemma Multiplex_delivers_witness : ∃ n m', (n ≤ 10)%nat ∧ run_steps (mux_step 2) (ex_run ex_two) (replicate n XSender) = Some m' ∧ sent m' = [7; 8; 9]%nat.
Proof.
  destruct (Multiplex_delivers 2 ex_two (ex_run ex_two)) as (n & m' & Hn & Hr & _ & Hs & _).
  - by vm_compute.
  - split_and!; [by vm_compute|by vm_compute|]. intros c k Hk Hl. destruct c as [|[|c]]; vm_compute in Hk; by simplify_eq.
  - by vm_compute.
  - exists n, m'. split; [exact Hn|]. split; [exact Hr|exact Hs].
Defined.
(** The second consumer goes away while the first item is under way. *)
Definition ex_gone : list (mux_label (T := nat)) := ex_fork 0 ++ ex_fork 1 ++ [XPush 7%nat; XSender; XSender; XSender; XLeave 1].
Lemma Multiplex_leaving_blocks_witness : stuck (ex_run ex_gone) 7%nat (channels (ex_run ex_gone)) 1 1 ∧
  ∀ ks' m', run_steps (mux_step 2) (ex_run ex_gone) ks' = Some m' → sent m' = [].
Proof.
  assert (stuck (ex_run ex_gone) 7%nat (channels (ex_run ex_gone)) 1 1) as Hst.
  { split; [by vm_compute|]. split; [vm_compute; lia|]. split; [by vm_compute|]. eexists. split; by vm_compute. }
  split; [exact Hst|]. intros ks' m' Hr.
  destruct (Multiplex_leaving_blocks 2 ex_gone (ex_run ex_gone) _ _ _ _ ks' m' ltac:(by vm_compute) Hst Hr) as (_ & Hs & _). exact Hs.
Defined.
(** A consumer that is removed while the channels are closed shifts them under the loop,
    which closes one twice. *)
Definition ex_close : list (mux_label (T := nat)) :=
  ex_fork 0 ++ ex_fork 1 ++ ex_fork 2 ++ [XCloseSource; XSender; XSender; XSender; XLeave 0; XConsumer 0 0; XConsumer 0 0; XSender; XSender].
Example close_of_closed_channel : mux_panicked (ex_run ex_close) = true.
Proof. by vm_compute. Qed.
(** A fork that looks at [exited] before it is set is added after the loop has passed. *)
Definition ex_late : list (mux_label (T := nat)) := [XFork; XConsumer 0 0; XCloseSource; XSender; XSender; XSender; XConsumer 0 0; XConsumer 0 0].
Example late_fork_is_never_closed : sender (ex_run ex_late) = MDone ∧ ((λ k, (k_pc k, k_closed k)) <$> consumers (ex_run ex_late) !! 0%nat) = Some (Active, false).
Proof. by vm_compute. Qed.
End witnesses.
